(* ===== verification/_CoqProject ===== *)
-Q . S2P
Prelude.v
GoStrings.v
GoPath.v
GoHeap.v
GoSort.v
SeqPQ.v
LRWMutex.v
NetLocker.v
LocalLocker.v
DSync.v
ETag.v
GoTime.v
HttpTime.v
SSEMeta.v
Replication.v
Restore.v
ZcnErrors.v
ObjectNames.v
ReplConfig.v
NSLock.v
StorageClass.v
Endpoints.v
ErasureErrs.v
Erasure.v
ErasureRead.v
ErasureStore.v
Bitrot.v
Msgp.v
GoBase64.v
KMS.v
SSE.v
SSEProofs.v
XLInline.v
BitrotStore.v
ErasureMeta.v
ErasureGet.v
Healing.v
Event.v
ChunkedReader.v
Preconditions.v
XLMerge.v
XLMeta.v
XLMetaProofs.v
XLCodec.v
XLFile.v
XLFileProofs.v
HttpRange.v
Dare.v
DareProofs.v
SSEETag.v
Lifecycle.v
ZcnPath.v
ZcnTypes.v
ObjectLock.v
ZcnAlloc.v
ZcnRefs.v
ZcnStore.v
ZcnListing.v
ZcnRange.v
ZcnWorker.v
ZcnLocks.v
ZcnMultipart.v
ZcnPipeline.v
ZcnReader.v
ZcnConfig.v
ZcnUpload.v
ZcnObjects.v
ZcnObjectsProofs.v
