(* ===== verification/Prelude.v ===== *)
(** * zs3server: a verification development

    zs3server is an S3 server, a fork of MinIO, whose object layer is a gateway to
    the decentralised storage of 0chain. A request passes MinIO's checks of names,
    ranges, entity tags, signatures, lifecycle and object lock, and reaches an object
    layer: the gateway (src/cmd/gateway/zcn), which maps buckets and objects to
    paths of an allocation and calls the 0chain SDK, or MinIO's own erasure-coded
    storage on drives. The development models the gateway, the checks, server-side
    encryption, and the core of the erasure-coded storage with its locks, as executable
    functions over explicit state, and proves what they promise.

    ** The files

    Foundations.
    - Prelude (this file): outcomes of Go calls (value, error, panic), the state
      and error monad [M], 64-bit integers with wrap-around, tactics, the hint
      database [go], and lemmas on lists.
    - GoStrings, GoPath, GoHeap, GoSort, GoTime, HttpTime, GoBase64: what the sources
      use of [strings], [strconv], [encoding/hex], [path/filepath], [container/heap],
      [sort], [time], [net/http] (dates) and [encoding/base64].
    - Msgp: the part of MessagePack that the storage format uses.

    The gateway, src/cmd/gateway/zcn.
    - SeqPQ: the queue that puts part numbers in order (seqpriorityqueue.go); an
      execution is a list of operations, and a [Popup] that has to wait does not
      return.
    - ZcnErrors, ZcnPath, ZcnTypes: errors, remote paths, and the data of the
      object layer (dStorage.go, gateway-zcn.go).
    - ZcnAlloc: the SDK's allocation as the class [Allocation]; ZcnStore: the laws
      the gateway relies on ([StoreLaws], [PagedLaws]) and MemStore, a store that
      has them.
    - ZcnRefs: lookups and listings (dStorage.go); ZcnListing: their completeness.
    - ZcnRange: downloads by block range (getFileReader, GetObjectNInfo), with
      FileStore, a store that downloads as the SDK does.
    - ZcnWorker: the batch uploader (worker.go), up to its shutdown; ZcnUpload: a
      request of putFile that waits for the batch it is in, while others are
      executed; ZcnLocks: the path locks (lockPath, unlockPath). Goroutines are
      components of one state, and an interleaving is a list of events; the events
      around a request are the class [BatchUpload].
    - ZcnMultipart: the multipart handlers; ZcnPipeline: the goroutines between
      the part files and the SDK (multipart.go, memFile.go).
    - ZcnReader: the reader of request bodies (helper.go).
    - ZcnConfig: the start of the gateway (initSDK.go, NewGatewayLayer).
    - ZcnObjects: the handlers of buckets and objects (gateway-zcn.go);
      ZcnObjectsProofs: what they promise.

    The checks of requests, src/cmd and src/internal.
    - ObjectNames: name checks (cmd/object-api-utils.go and others); HttpRange:
      range headers (cmd/httprange.go, cmd/copy-part-range.go); Preconditions:
      conditional requests (cmd/object-handlers-common.go).
    - ChunkedReader: uploads in signed chunks (cmd/streaming-signature-v4.go).
    - Lifecycle: rules and decisions (internal/bucket/lifecycle).
    - ObjectLock: retention and legal hold (internal/bucket/object/lock,
      cmd/bucket-object-lock.go, the metadata updates of two handlers and the checks
      of DeleteObjectHandler).
    - ETag: entity tags and the verifying reader (internal/etag).
    - Event: notification rules, configurations and routing (internal/event,
      cmd/notification.go).
    - ReplConfig: replication rules and which uploads and deletions they select
      (internal/bucket/replication, cmd/bucket-replication.go); Replication: statuses
      and decisions per target (cmd/bucket-replication-utils.go); Restore: restored
      copies of tiered objects (cmd/bucket-lifecycle.go).

    Server-side encryption, src/internal/crypto, src/internal/kms, src/cmd.
    - KMS: the interface of a key service as a class with laws, and the built-in
      service with one key, which satisfies them (kms.go, context.go, single-key.go).
    - SSEMeta: what headers ask for and metadata shows (header.go, metadata.go); SSE:
      sealing of object keys, the three kinds of encryption, new keys, rotation
      (key.go, sse-c.go, sse-s3.go, sse-kms.go, cmd/encryption-v1.go); SSEProofs.
    - Dare: the sizes of encrypted objects, the packages that hold a range, and the
      reader that decrypts an object in parts (cmd/encryption-v1.go); DareProofs.
    - SSEETag: sealed entity tags, in the answer to an upload and later
      (cmd/encryption-v1.go, cmd/object-api-utils.go, cmd/object-handlers.go).
    AEAD ciphers, hash functions and the library sio are classes with laws
    ([Primitives], [Sealing], [Sio]), each with an instance.

    Locks.
    - LRWMutex: the readers-writer lock (internal/lsync); NSLock: the locks of a
      single process on several paths (cmd/namespace-lock.go).
    - NetLocker: the interface of a lock server, as a class with laws
      (internal/dsync/rpc-client-interface.go); LocalLocker: the lock server, which
      satisfies them (cmd/local-locker.go); DSync: locks held on a quorum of servers,
      proved against the interface (internal/dsync/drwmutex.go).

    Erasure-coded storage, src/cmd.
    - Endpoints: division of the drives into sets (endpoint-ellipses.go);
      StorageClass: the configuration of the parity (internal/config/storageclass).
    - ErasureErrs: errors of drives and their reduction to one
      (erasure-metadata-utils.go).
    - Erasure, ErasureRead, ErasureStore: encoding, parallel reads, decoding and
      healing of streams (erasure-coding.go, erasure-encode.go, erasure-decode.go,
      erasure-utils.go). The Reed-Solomon library is the class [ReedSolomon] with the
      laws [ReedSolomonLaws].
    - Bitrot, BitrotStore: checksummed shard files (bitrot.go, bitrot-streaming.go,
      bitrot-whole.go), and reads of erasure-coded objects from them. Hash functions are
      the class [BitrotHash].
    - ErasureMeta: metadata, quorums, distribution of drives, parts
      (erasure-metadata.go, erasure-metadata-utils.go, erasure-healing-common.go, the
      head of putObject in erasure-object.go).
    - ErasureGet: reading an object part by part (getObjectWithFileInfo), on top of
      all of these.
    - Healing: which drives of an object are read and which are written again, and
      when it is given up (erasure-healing.go, erasure-healing-common.go), up to the
      call of the erasure code.
    - The journal of versions, xl.meta: XLMerge merges the journals of several drives
      (xl-storage-format-v2.go), XLInline keeps data in the file
      (xl-storage-meta-inline.go), XLMeta adds, updates, deletes and reads versions
      (xl-storage-format-v2.go, xl-storage-free-version.go), XLCodec encodes them
      (xl-storage-format-v2_gen.go), XLFile is the file as bytes; XLMetaProofs and
      XLFileProofs.

    ** What the theorems show

    - Storage: an upload that is reported stored was executed in a batch and is found
      with its size, type and metadata, unless another request changes its path or the
      store has nothing new to write; deletion does what it says; a client that follows the markers gets
      every object once; names that pass the checks stay inside their bucket and do
      not collide.
    - Reading: which range requests the gateway serves exactly, and three kinds that are
      not.
    - Multipart: parts leave the queue in order whatever their arrival; the
      pipeline terminates and delivers the concatenation of the parts; the
      completed object has the right size and tag.
    - Concurrency: batches neither lose nor repeat nor reorder requests and the
      uploader does not stall before it is shut down, when what is queued is left; path
      locks exclude, and can deadlock; namespace
      locks exclude, do not leak and, taken in order, do not deadlock; distributed
      locks refine an abstract readers-writer lock whatever messages are lost or
      late.
    - Erasure-coded storage: what was encoded is decoded from any sufficient set of good
      drives whatever the order of the answers, and healing restores every shard;
      the check for bitrot accepts exactly what the writer writes; the quorums of an
      upload and a read meet, with one exception that is proved, metadata is chosen by
      a quorum, drives are where the distribution puts them; a read of an object
      returns exactly the bytes asked for, across parts, corrupted and missing drives.
    - Healing: a repair reads only drives whose metadata and data were checked, reaches
      the read quorum, and writes every drive the shard of its place; an object is
      purged only if drives have lost more shards of it than there is parity. Two flaws bound this:
      drives that are read and written at once, and metadata of an older object.
    - Versions: the journal is a map from versions to objects, markers and legacy
      objects, and every operation is the one on the map; the file is read back as it
      was written, and reading straight from its bytes gives the same; data that is
      freed is not used by a version that is left, if the deletion is one of the
      kinds that release it; journals that agree are merged without
      loss.
    - Encryption: the key of an object is recovered from its metadata for every kind of
      encryption, and rotation keeps it; a data key opens only with the context it was
      made with; the packages that are read for a range are exactly those that hold it, and
      decrypted, skipped and cut they are the range of the content; an entity tag is
      reported later as it was in the answer to the upload.
    - Checks: an upload in signed chunks delivers only bytes covered by the chain of
      signatures, and all of a well-signed body, but for reads with an empty buffer at
      its beginning; notifications reach exactly the
      subscribed targets; conditional reads answer from the cache only when nothing
      changed.
    - Lifecycle and lock: every action has a reason among the rules; the date
      told to clients is the date of deletion; compliance mode is write-once
      until its date, for requests before year 10000 that are not deletions of a
      replica; where integers overflow or a
      printed date is not read back these guarantees end.

    Theorems about flaws are stated as what the code does, with an input.

    ** Fuel and bounds

    Recursion that is not structural takes fuel. [listPages] and [listDirs] need
    one unit per page, and the theorems say how much is enough; [listParts] and
    [partETags] get the number of files; heap loops get the length of the heap,
    which bounds their depth; the loops over the ids of a lock get one more than the
    number of ids. Running out of fuel is a [Panic], never a result. Loops over
    blocks and parts get their exact number. A parallel read is a schedule of events:
    a schedule that is too short gives no result, and the theorems show that one
    with a result exists. Merging journals gets one more than the number of all
    versions, as every round takes one; searching a string, escaping it and skipping
    encoded values get its length; decoding runs the announced count. Running
    out gives no result, and the theorems show that there is one. Integers of Go's [int64] are [Z] with [wrap64] where the code
    computes with values of a request.

    ** What is not modelled

    The handlers of the erasure-coded layer other than reading and the decisions of
    healing, its sets and pools, and the file system layer; HTTP, XML and the signature
    of request headers; IAM policies (arguments of the checks that consult them); the
    client of the key server KES; the workers for replication and tiering; S3 Select;
    logging and metrics; the other gateways: these are calls to drives, networks and
    other packages around the parts that are modelled. Of the journal the oldest format (JSON) and its
    binary form are classes. In the gateway: compression,
    cancellation and time-outs of the multipart pipeline, and the methods that answer
    NotImplemented. Code of other repositories (the 0chain SDK, its error package,
    Reed-Solomon, ciphers and hash functions, the ellipses parser) is a class with the laws the
    code relies on and a concrete instance of it; disk errors of the gateway other than
    missing files are left out. The writer of [Decode] takes what it is given, and a [Read] of a
    decrypter fills its buffer unless its stream ends. *)

From Stdlib Require Import ZArith Lia Bool.
From stdpp Require Export base numbers list strings gmap option pretty.

(** ** Outcomes of Go calls

    A Go function that returns [(T, error)] and may panic is modelled as a
    function into [outcome]: a value, an error value, or a run-time panic.
    [E] is the error type of the component. *)
Inductive outcome (E A : Type) : Type :=
  | Ok (a : A)
  | Err (e : E)
  | Panic (why : string).
Arguments Ok {E A} a.
Arguments Err {E A} e.
Arguments Panic {E A} why.

Definition obind {E A B} (m : outcome E A) (f : A → outcome E B) : outcome E B :=
  match m with
  | Ok a => f a
  | Err e => Err e
  | Panic w => Panic w
  end.

Declare Scope go_scope.
Delimit Scope go_scope with go.
Notation "x ←? m ; k" := (obind m (λ x, k))
  (at level 20, m at level 100, k at level 200, right associativity) : go_scope.
Notation "' p ←? m ; k" := (obind m (λ x, match x with p => k end))
  (at level 20, p pattern, m at level 100, k at level 200, right associativity) : go_scope.

Lemma obind_ok {E A B} (m : outcome E A) (f : A → outcome E B) b :
  obind m f = Ok b → ∃ a, m = Ok a ∧ f a = Ok b.
Proof. destruct m; try done. intros H. by eexists. Qed.

Definition is_ok {E A} (m : outcome E A) : bool :=
  match m with Ok _ => true | _ => false end.

(** The first of several checks that fails. *)
Definition first_error {E} (checks : list (option E)) : option E :=
  List.fold_right (λ c rest, match c with Some e => Some e | None => rest end) None checks.

Lemma first_error_none {E} (checks : list (option E)) : first_error checks = None ↔ Forall (λ c, c = None) checks.
Proof.
  induction checks as [|[e|] checks IH]; cbn; [by split; [constructor|]|split; [done|by inversion 1]|]. change (List.fold_right _ None checks) with (first_error checks).
  rewrite IH. split; [by constructor|by inversion 1].
Qed.

(** ** Stateful calls: explicit state passing, the state last *)
Definition M (S E A : Type) : Type := S → outcome E A * S.

Definition mret_ok {S E A} (a : A) : M S E A := λ s, (Ok a, s).
Definition mfail {S E A} (e : E) : M S E A := λ s, (Err e, s).
Definition mbind_ok {S E A B} (m : M S E A) (f : A → M S E B) : M S E B :=
  λ s, match m s with
       | (Ok a, s') => f a s'
       | (Err e, s') => (Err e, s')
       | (Panic w, s') => (Panic w, s')
       end.
(** [mtry m f] runs [m] and hands the whole outcome to [f]: the shape of a Go
    call followed by [if err != nil]. *)
Definition mtry {S E A B} (m : M S E A) (f : outcome E A → M S E B) : M S E B :=
  λ s, let '(r, s') := m s in f r s'.

Lemma mbind_inv {S E A B} (m : M S E A) (f : A → M S E B) s b s' :
  mbind_ok m f s = (Ok b, s') → ∃ a s1, m s = (Ok a, s1) ∧ f a s1 = (Ok b, s').
Proof. unfold mbind_ok. destruct (m s) as [[a|e|w] s1]; try done. by eexists _, _. Qed.

Notation "x ←! m ; k" := (mbind_ok m (λ x, k))
  (at level 20, m at level 100, k at level 200, right associativity) : go_scope.
Notation "' p ←! m ; k" := (mbind_ok m (λ x, match x with p => k end))
  (at level 20, p pattern, m at level 100, k at level 200, right associativity) : go_scope.
Notation "x ←r m ; k" := (mtry m (λ x, k))
  (at level 20, m at level 100, k at level 200, right associativity) : go_scope.

(** ** Machine integers

    Go's [int] and [int64] on the supported 64-bit targets: [Z] with explicit
    two's complement wrap-around after each operation that can overflow. *)
Definition max_int64 : Z := (2 ^ 63 - 1)%Z.
Definition min_int64 : Z := (- 2 ^ 63)%Z.
Definition wrap64 (z : Z) : Z := ((z + 2 ^ 63) mod 2 ^ 64 - 2 ^ 63)%Z.
Definition in_int64 (z : Z) : Prop := (min_int64 ≤ z ≤ max_int64)%Z.
Definition to_uint64 (z : Z) : Z := (z mod 2 ^ 64)%Z.

Lemma wrap64_small z : in_int64 z → wrap64 z = z.
Proof.
  unfold in_int64, wrap64, min_int64, max_int64. intros H.
  rewrite Z.mod_small by lia. lia.
Qed.

Lemma wrap64_range z : in_int64 (wrap64 z).
Proof.
  unfold in_int64, wrap64, min_int64, max_int64.
  pose proof (Z.mod_pos_bound (z + 2 ^ 63) (2 ^ 64)). lia.
Qed.

Lemma wrap64_over z : (max_int64 < z < 3 * 2 ^ 63)%Z → wrap64 z = (z - 2 ^ 64)%Z.
Proof.
  unfold wrap64, max_int64. intros H.
  rewrite <- (Z.mod_unique (z + 2 ^ 63) (2 ^ 64) 1 (z - 2 ^ 63)); lia.
Qed.

(** ** Generic list lemmas shared by the components *)
Lemma foldl_app_inv {A B} (f : A → B → A) (P : A → list B → Prop) :
  (∀ a seen x, P a seen → P (f a x) (seen ++ [x])) →
  ∀ l a seen, P a seen → P (foldl f a l) (seen ++ l).
Proof.
  intros Hstep l. induction l as [|x l IH]; intros a seen Ha; simpl.
  - by rewrite app_nil_r.
  - replace (seen ++ x :: l) with ((seen ++ [x]) ++ l) by by rewrite <- app_assoc.
    by apply IH, Hstep.
Qed.

Lemma filter_all {A} (P : A → Prop) `{∀ x, Decision (P x)} (l : list A) :
  Forall P l → filter P l = l.
Proof. induction 1; [done|]. by rewrite filter_cons_True, IHForall. Qed.

Lemma Forall_filter {A} (P Q : A → Prop) `{∀ x, Decision (P x)} (l : list A) : Forall Q l → Forall Q (filter P l).
Proof. rewrite !Forall_forall. intros HQ x [_ Hx]%list_elem_of_filter. by apply HQ. Qed.

Lemma length_concat_const {A} (n : nat) (ls : list (list A)) :
  Forall (λ l, length l = n) ls → length (concat ls) = n * length ls.
Proof.
  induction 1 as [|l ls Hl _ IH]; simpl; [lia|]. rewrite length_app, Hl, IH. lia.
Qed.

Lemma concat_snoc {A} (ls : list (list A)) l : concat (ls ++ [l]) = concat ls ++ l.
Proof. by rewrite concat_app; simpl; rewrite app_nil_r. Qed.

Lemma elem_concat {A} (x : A) (ls : list (list A)) : x ∈ concat ls ↔ ∃ l, l ∈ ls ∧ x ∈ l.
Proof. rewrite list_elem_of_In, in_concat. by setoid_rewrite <- list_elem_of_In. Qed.

(** *** Counting *)

(** The number of elements with a property. *)
Definition count {A} (P : A → Prop) `{∀ x, Decision (P x)} (l : list A) : nat := length (filter P l).

Definition one_if (P : Prop) `{Decision P} : nat := if decide P then 1 else 0.

Lemma one_if_true (P : Prop) `{Decision P} : P → one_if P = 1.
Proof. intros HP. unfold one_if. by rewrite decide_True. Qed.

Lemma one_if_false (P : Prop) `{Decision P} : ¬ P → one_if P = 0.
Proof. intros HP. unfold one_if. by rewrite decide_False. Qed.

Lemma one_if_le (P Q : Prop) `{Decision P} `{Decision Q} : (P → Q) → one_if P ≤ one_if Q.
Proof. intros HPQ. unfold one_if. destruct (decide P), (decide Q); (lia || tauto). Qed.

Section Counting.
Context {A : Type} (P : A → Prop) `{∀ x, Decision (P x)}.

Lemma count_app l1 l2 : count P (l1 ++ l2) = count P l1 + count P l2.
Proof. unfold count. by rewrite filter_app, length_app. Qed.

Lemma count_cons x l : count P (x :: l) = one_if (P x) + count P l.
Proof. unfold count, one_if. rewrite filter_cons. by case_decide. Qed.

Lemma count_snoc l x : count P (l ++ [x]) = count P l + one_if (P x).
Proof. rewrite count_app, count_cons. change (count P []) with 0. lia. Qed.

Lemma count_middle l1 x l2 : count P (l1 ++ x :: l2) = one_if (P x) + count P (l1 ++ l2).
Proof. rewrite !count_app, count_cons. lia. Qed.

Lemma count_delete l k x : l !! k = Some x → count P l = one_if (P x) + count P (delete k l).
Proof. intros Hk. rewrite <- (take_drop_middle l k x Hk) at 1. rewrite delete_take_drop. apply count_middle. Qed.

Lemma count_insert l k x y :
  l !! k = Some x → one_if (P x) + count P (<[k := y]> l) = one_if (P y) + count P l.
Proof.
  intros Hk. rewrite insert_take_drop by (by eapply lookup_lt_Some).
  rewrite <- (take_drop_middle l k x Hk) at 3. rewrite !count_middle. lia.
Qed.

Lemma count_zero l : count P l = 0 ↔ Forall (λ x, ¬ P x) l.
Proof.
  induction l as [|x l IH]; [done|]. rewrite count_cons, Forall_cons. unfold one_if.
  case_decide; split; intuition lia.
Qed.

Lemma count_elem l : 0 < count P l → ∃ x, x ∈ l ∧ P x.
Proof.
  intros Hc. destruct (decide (Exists P l)) as [He|He]; [by apply Exists_exists|].
  apply not_Exists_Forall in He; [|apply _]. apply count_zero in He. lia.
Qed.

Lemma count_le l : count P l ≤ length l.
Proof. apply length_filter. Qed.

End Counting.

(** ** Automation *)
Create HintDb go discriminated.
Create Rewrite HintDb gostr.

(** Splits every boolean conjunction, disjunction and negation of the context. *)
Ltac destruct_bools :=
  repeat match goal with
  | H : _ && _ = true |- _ => apply andb_true_iff in H; destruct H
  | H : _ || _ = false |- _ => apply orb_false_iff in H; destruct H
  | H : negb _ = true |- _ => apply negb_true_iff in H
  | H : negb _ = false |- _ => apply negb_false_iff in H
  | H : bool_decide _ = true |- _ => apply bool_decide_eq_true in H
  | H : bool_decide _ = false |- _ => apply bool_decide_eq_false in H
  | H : eqb _ _ = true |- _ => apply (proj1 (eqb_true_iff _ _)) in H
  | H : eqb _ _ = false |- _ => apply (proj1 (eqb_false_iff _ _)) in H
  | H : (_ <? _)%Z = true |- _ => apply Z.ltb_lt in H
  | H : (_ <? _)%Z = false |- _ => apply Z.ltb_ge in H
  | H : (_ <=? _)%Z = true |- _ => apply Z.leb_le in H
  | H : (_ <=? _)%Z = false |- _ => apply Z.leb_gt in H
  | H : (_ =? _)%Z = true |- _ => apply Z.eqb_eq in H
  | H : (_ =? _)%Z = false |- _ => apply Z.eqb_neq in H
  end.

(** Removes the wrap-around of [int64] operations that cannot overflow. *)
Ltac int64 :=
  repeat match goal with
  | |- context [wrap64 ?z] =>
      rewrite (wrap64_small z) by (unfold in_int64, min_int64, max_int64 in *; lia)
  end.

(** Case analysis on the outermost [if] of the goal, keeping its equation. *)
Ltac case_if :=
  match goal with
  | |- context [if ?b then _ else _] => let E := fresh "E" in destruct b eqn:E
  end.

(** Reduces a stateful call whose parts are known. *)
Ltac run_m := unfold mbind_ok, mtry, mret_ok, mfail, obind; simpl.
