(* ===== verification/GoStrings.v ===== *)
(** * Go's [strings], [strconv] and [encoding/hex], as the sources use them

    A Go string is a byte sequence; [String.string] is one too, [ascii] being
    the eight bits of a byte. Indexing, slicing and comparison are bytewise in
    both. *)

From Stdlib Require Import ZArith Lia Bool Ascii.
From S2P Require Import Prelude.


#[global] Arguments String.append !_ _ / : simpl nomatch.

(** ** Slicing *)
Fixpoint str_take (n : nat) (s : string) : string :=
  match n, s with
  | S n, String c s => String c (str_take n s)
  | _, _ => EmptyString
  end.

Fixpoint str_drop (n : nat) (s : string) : string :=
  match n, s with
  | S n, String _ s => str_drop n s
  | _, _ => s
  end.

Definition HasPrefix (s p : string) : bool := String.prefix p s.

Definition TrimPrefix (s p : string) : string :=
  if HasPrefix s p then str_drop (String.length p) s else s.

Definition HasSuffix (s p : string) : bool :=
  (String.length p <=? String.length s)%nat
  && String.eqb (str_drop (String.length s - String.length p) s) p.

Definition TrimSuffix (s p : string) : string :=
  if HasSuffix s p then str_take (String.length s - String.length p) s else s.

(** *** [strings.TrimSpace] *)

(** The UTF-8 encodings of the runes [unicode.IsSpace] accepts. *)
Definition bytes_of (l : list N) : string :=
  fold_right (λ n s, String (ascii_of_N n) s) EmptyString l.
Definition space_runes : list string :=
  map bytes_of
    [[9]; [10]; [11]; [12]; [13]; [32]; [194; 133]; [194; 160]; [225; 154; 128];
     [226; 128; 128]; [226; 128; 129]; [226; 128; 130]; [226; 128; 131]; [226; 128; 132];
     [226; 128; 133]; [226; 128; 134]; [226; 128; 135]; [226; 128; 136]; [226; 128; 137];
     [226; 128; 138]; [226; 128; 168]; [226; 128; 169]; [226; 128; 175]; [226; 129; 159];
     [227; 128; 128]]%N.

Fixpoint trim_left (fuel : nat) (s : string) : string :=
  match fuel with
  | 0 => s
  | S fuel =>
      match List.find (HasPrefix s) space_runes with
      | Some r => trim_left fuel (TrimPrefix s r)
      | None => s
      end
  end.
Fixpoint trim_right (fuel : nat) (s : string) : string :=
  match fuel with
  | 0 => s
  | S fuel =>
      match List.find (HasSuffix s) space_runes with
      | Some r => trim_right fuel (TrimSuffix s r)
      | None => s
      end
  end.
Definition TrimSpace (s : string) : string :=
  let s := trim_left (String.length s) s in trim_right (String.length s) s.

(** [strings.Contains] *)
Fixpoint Contains (s sub : string) : bool :=
  String.prefix sub s ||
  match s with
  | EmptyString => false
  | String _ s => Contains s sub
  end.

(** [strings.IndexByte]: the position of the first [c], [-1] when absent. *)
Fixpoint index_char (c : ascii) (s : string) : option nat :=
  match s with
  | EmptyString => None
  | String a s => if Ascii.eqb a c then Some 0 else S <$> index_char c s
  end.

(** [strings.Split] for a one-byte separator: always at least one element. *)
Fixpoint split_char (c : ascii) (s : string) : list string :=
  match s with
  | EmptyString => [EmptyString]
  | String a s =>
      if Ascii.eqb a c then EmptyString :: split_char c s
      else match split_char c s with
           | w :: ws => String a w :: ws
           | [] => [String a EmptyString]
           end
  end.

(** [strings.SplitN(s, c, 2)]: one part, or what is before the first [c] and what is after it. *)
Definition split2 (c : ascii) (s : string) : string * option string :=
  match index_char c s with
  | None => (s, None)
  | Some i => (str_take i s, Some (str_drop (S i) s))
  end.

(** [strings.Join] *)
Fixpoint str_join (sep : string) (l : list string) : string :=
  match l with
  | [] => ""
  | [x] => x
  | x :: l => x +:+ sep +:+ str_join sep l
  end.

(** [strings.ReplaceAll s c ""] for a one-byte [c]. *)
Fixpoint remove_char (c : ascii) (s : string) : string :=
  match s with
  | EmptyString => EmptyString
  | String a s => if Ascii.eqb a c then remove_char c s else String a (remove_char c s)
  end.

(** [wildcard.MatchSimple] of github.com/minio/pkg: a pattern and a string. *)
Class Wildcard := { MatchSimple : string → string → bool }.

(** [strings.ToLower] and [strings.ToUpper] on their ASCII range; bytes
    outside [A-Z] and [a-z] are unchanged. *)
Definition ascii_in (lo hi : N) (a : ascii) : bool :=
  ((lo <=? N_of_ascii a) && (N_of_ascii a <=? hi))%N.
Definition lower_char (a : ascii) : ascii :=
  if ascii_in 65 90 a then ascii_of_N (N_of_ascii a + 32) else a.
Definition upper_char (a : ascii) : ascii :=
  if ascii_in 97 122 a then ascii_of_N (N_of_ascii a - 32) else a.
Fixpoint str_map (f : ascii → ascii) (s : string) : string :=
  match s with
  | EmptyString => EmptyString
  | String a s => String (f a) (str_map f s)
  end.
Definition ToLower : string → string := str_map lower_char.
Definition ToUpper : string → string := str_map upper_char.
Definition EqualFold (a b : string) : bool := String.eqb (ToLower a) (ToLower b).

(** Go's [<] on strings: bytewise lexicographic. *)
Fixpoint str_ltb (a b : string) : bool :=
  match a, b with
  | _, EmptyString => false
  | EmptyString, String _ _ => true
  | String x a, String y b =>
      if Ascii.eqb x y then str_ltb a b else (N_of_ascii x <? N_of_ascii y)%N
  end.

(** ** [strconv] *)
Definition digit_val (a : ascii) : option Z :=
  if ascii_in 48 57 a then Some (Z.of_N (N_of_ascii a) - 48)%Z else None.

Fixpoint digits_val (acc : Z) (s : string) : option Z :=
  match s with
  | EmptyString => Some acc
  | String a s =>
      match digit_val a with
      | Some d => digits_val (acc * 10 + d)%Z s
      | None => None
      end
  end.

(** [strconv.ParseInt(s, 10, 64)] and [strconv.Atoi] on a 64-bit target:
    an optional sign, at least one digit, in the range of [int64]. *)
Definition ParseInt (s : string) : option Z :=
  let '(neg, body) :=
    match s with
    | String a r =>
        if Ascii.eqb a "-"%char then (true, r)
        else if Ascii.eqb a "+"%char then (false, r) else (false, s)
    | EmptyString => (false, s)
    end in
  match body with
  | EmptyString => None
  | _ =>
      match digits_val 0 body with
      | None => None
      | Some v =>
          let v := if neg : bool then (- v)%Z else v in
          if ((min_int64 <=? v) && (v <=? max_int64))%Z then Some v else None
      end
  end.
Definition Atoi : string → option Z := ParseInt.

(** [fmt.Sprintf("%d", n)] and [strconv.AppendInt] in base 10. *)
Definition itoa (n : Z) : string := pretty n.

(** ** [encoding/hex] *)
Definition hex_digit (n : N) : ascii :=
  if (n <? 10)%N then ascii_of_N (48 + n) else ascii_of_N (87 + n).
Fixpoint hex_encode (s : string) : string :=
  match s with
  | EmptyString => EmptyString
  | String a s =>
      String (hex_digit (N_of_ascii a / 16)) (String (hex_digit (N_of_ascii a mod 16)) (hex_encode s))
  end.
Definition hex_val (a : ascii) : option N :=
  if ascii_in 48 57 a then Some (N_of_ascii a - 48)%N
  else if ascii_in 97 102 a then Some (N_of_ascii a - 87)%N
  else if ascii_in 65 70 a then Some (N_of_ascii a - 55)%N
  else None.
Fixpoint hex_decode (s : string) : option string :=
  match s with
  | EmptyString => Some EmptyString
  | String a (String b s) =>
      match hex_val a, hex_val b, hex_decode s with
      | Some h, Some l, Some r => Some (String (ascii_of_N (h * 16 + l)) r)
      | _, _, _ => None
      end
  | String _ EmptyString => None
  end.

(** ** Lemmas: lengths and slices *)
Lemma str_length_app a b : String.length (a +:+ b) = String.length a + String.length b.
Proof. induction a; simpl; auto. Qed.

Lemma str_app_nil_r a : a +:+ "" = a.
Proof. induction a; simpl; congruence. Qed.

Lemma str_app_assoc a b c : (a +:+ b) +:+ c = a +:+ (b +:+ c).
Proof. induction a; simpl; congruence. Qed.

Lemma str_app_inj a b c : a +:+ b = a +:+ c → b = c.
Proof. induction a; simpl; intros H; [done|]. by injection H. Qed.

Lemma list_ascii_app a b : String.list_ascii_of_string (a +:+ b) = String.list_ascii_of_string a ++ String.list_ascii_of_string b.
Proof. induction a as [|c a IH]; cbn; [done|]. by rewrite IH. Qed.

Lemma str_drop_app a b : str_drop (String.length a) (a +:+ b) = b.
Proof. by induction a. Qed.

Lemma str_take_app a b : str_take (String.length a) (a +:+ b) = a.
Proof. induction a; simpl; [by destruct b|congruence]. Qed.

Lemma str_take_drop n s : str_take n s +:+ str_drop n s = s.
Proof. revert s; induction n; intros [|c s]; simpl; congruence. Qed.

Lemma str_length_take n s : n ≤ String.length s → String.length (str_take n s) = n.
Proof. revert s; induction n; intros [|c s]; simpl; try lia. intros; rewrite IHn; lia. Qed.

Lemma str_length_drop n s : String.length (str_drop n s) = String.length s - n.
Proof. revert s; induction n; intros [|c s]; simpl; try lia. auto. Qed.

Lemma prefix_app p s : String.prefix p (p +:+ s) = true.
Proof. induction p as [|c p IH]; simpl; [by destruct s|]. by destruct (ascii_dec c c). Qed.

Lemma prefix_spec p s : String.prefix p s = true ↔ ∃ r, s = p +:+ r.
Proof.
  split.
  - revert s. induction p as [|c p IH]; intros s H; [by exists s|].
    destruct s as [|d s]; simpl in *; [done|].
    destruct (ascii_dec c d) as [->|]; [|done].
    destruct (IH _ H) as [r ->]. by exists r.
  - intros [r ->]. apply prefix_app.
Qed.

Lemma TrimPrefix_app p s : TrimPrefix (p +:+ s) p = s.
Proof. unfold TrimPrefix, HasPrefix. by rewrite prefix_app, str_drop_app. Qed.

Lemma HasSuffix_spec s p : HasSuffix s p = true ↔ ∃ r, s = r +:+ p.
Proof.
  unfold HasSuffix. rewrite andb_true_iff, Nat.leb_le, String.eqb_eq. split.
  - intros [Hl He]. exists (str_take (String.length s - String.length p) s).
    rewrite <- He at 2. by rewrite str_take_drop.
  - intros [r ->]. rewrite str_length_app. split; [lia|].
    replace (String.length r + String.length p - String.length p) with (String.length r) by lia.
    apply str_drop_app.
Qed.

Lemma TrimSuffix_app s p : TrimSuffix (s +:+ p) p = s.
Proof.
  unfold TrimSuffix. rewrite (proj2 (HasSuffix_spec _ _)) by eauto.
  rewrite str_length_app.
  replace (String.length s + String.length p - String.length p) with (String.length s) by lia.
  apply str_take_app.
Qed.

Lemma Contains_prefix s sub : String.prefix sub s = true → Contains s sub = true.
Proof. destruct s; cbn [Contains]; by intros ->. Qed.

Lemma Contains_app a sub b : Contains (a +:+ sub +:+ b) sub = true.
Proof.
  induction a as [|c a IH].
  - change ("" +:+ sub +:+ b) with (sub +:+ b).
    apply Contains_prefix, prefix_app.
  - simpl. by rewrite IH, orb_true_r.
Qed.

Lemma Contains_spec s sub : Contains s sub = true ↔ ∃ a b, s = a +:+ sub +:+ b.
Proof.
  split; [|by intros (a & b & ->); apply Contains_app].
  induction s as [|c s IH]; cbn [Contains]; intros [H|H]%orb_true_iff; try done.
  - apply prefix_spec in H as [r Hr]. exists "", r. done.
  - apply prefix_spec in H as [r Hr]. exists "", r. done.
  - destruct (IH H) as (a & b & ->). by exists (String c a), b.
Qed.

(** ** Lemmas: splitting and joining *)
(** [no_char c s]: the byte [c] does not occur in [s]. *)
Fixpoint no_char (c : ascii) (s : string) : bool :=
  match s with
  | EmptyString => true
  | String a s => negb (Ascii.eqb a c) && no_char c s
  end.

Lemma split_char_ne c s : split_char c s ≠ [].
Proof. destruct s as [|a s]; simpl; [done|]. repeat case_match; done. Qed.

Lemma split_char_no_char c s : Forall (λ w, no_char c w = true) (split_char c s).
Proof.
  induction s as [|a s IH]; simpl; [by repeat constructor|].
  destruct (Ascii.eqb a c) eqn:E; [by constructor|].
  destruct (split_char c s); inversion IH; subst; constructor; simpl; rewrite ?E; auto.
Qed.

Lemma split_char_single c s : no_char c s = true → split_char c s = [s].
Proof.
  induction s as [|a s IH]; simpl; [done|]. intros [H1 H2]%andb_true_iff.
  apply negb_true_iff in H1. by rewrite H1, IH.
Qed.

Lemma split_char_app c w s :
  no_char c w = true → split_char c (w +:+ String c s) = w :: split_char c s.
Proof.
  induction w as [|a w IH]; simpl; [by rewrite Ascii.eqb_refl|].
  intros [H1 H2]%andb_true_iff. apply negb_true_iff in H1.
  by rewrite H1, IH.
Qed.

Lemma str_join_cons sep x l : l ≠ [] → str_join sep (x :: l) = x +:+ sep +:+ str_join sep l.
Proof. by destruct l. Qed.

Lemma str_join_nil x l : str_join "" (x :: l) = x +:+ str_join "" l.
Proof. destruct l; [by rewrite str_app_nil_r|done]. Qed.

Lemma str_join_app sep a b :
  a ≠ [] → b ≠ [] → str_join sep (a ++ b) = str_join sep a +:+ sep +:+ str_join sep b.
Proof.
  intros Ha Hb. induction a as [|x a IH]; [done|].
  destruct a as [|y a]; simpl app; [by rewrite str_join_cons|].
  rewrite (str_join_cons sep x (y :: a ++ b)), (str_join_cons sep x (y :: a)) by done.
  change (y :: a ++ b) with ((y :: a) ++ b). rewrite IH by done. by rewrite !str_app_assoc.
Qed.

Lemma join_split c s : str_join (String c "") (split_char c s) = s.
Proof.
  induction s as [|a s IH]; [done|]. simpl.
  destruct (Ascii.eqb a c) eqn:E.
  - apply Ascii.eqb_eq in E as ->.
    rewrite str_join_cons by apply split_char_ne. simpl. by rewrite IH.
  - destruct (split_char c s) as [|w ws] eqn:Es; [by destruct (split_char_ne c s)|].
    destruct ws; simpl in *; congruence.
Qed.

Lemma split_join c l :
  l ≠ [] → Forall (λ w, no_char c w = true) l → split_char c (str_join (String c "") l) = l.
Proof.
  intros Hne Hl. induction Hl as [|w l Hw Hl IH]; [done|].
  destruct l as [|w' l]; [by apply split_char_single|].
  rewrite str_join_cons by done. change (String c "" +:+ ?x) with (String c x).
  by rewrite split_char_app, IH.
Qed.

(** Splitting a concatenation with a separator in the middle concatenates the
    pieces; the left part may itself contain separators. *)
Lemma split_char_sep c a b : split_char c (a +:+ String c b) = split_char c a ++ split_char c b.
Proof.
  induction a as [|x a IH]; simpl; [by rewrite Ascii.eqb_refl|].
  destruct (Ascii.eqb x c); [by rewrite IH|].
  rewrite IH. destruct (split_char c a) eqn:E; [by destruct (split_char_ne c a)|done].
Qed.

Lemma no_char_app c a b : no_char c (a +:+ b) = no_char c a && no_char c b.
Proof. induction a; simpl; [done|]. by rewrite IHa, andb_assoc. Qed.

Lemma no_char_Forall c s : no_char c s = true ↔ Forall (λ a, a ≠ c) (String.list_ascii_of_string s).
Proof.
  induction s as [|a s IH]; cbn [no_char String.list_ascii_of_string]; [done|]. by rewrite andb_true_iff, negb_true_iff, Ascii.eqb_neq, IH, Forall_cons.
Qed.

Lemma no_char_index c s : no_char c s = true ↔ index_char c s = None.
Proof.
  induction s as [|a s IH]; simpl; [done|]. destruct (Ascii.eqb a c); simpl; [done|].
  rewrite IH. by destruct (index_char c s).
Qed.

Lemma index_char_app c a b :
  no_char c a = true → index_char c (a +:+ String c b) = Some (String.length a).
Proof.
  induction a as [|x a IH]; simpl; [by rewrite Ascii.eqb_refl|].
  intros [H1 H2]%andb_true_iff. apply negb_true_iff in H1. by rewrite H1, IH.
Qed.

Lemma split2_sep c a b : no_char c a = true → split2 c (a +:+ String c b) = (a, Some b).
Proof.
  intros Ha. unfold split2. rewrite index_char_app by done. rewrite str_take_app. do 2 f_equal.
  change (String c b) with (String c "" +:+ b). rewrite <- str_app_assoc.
  replace (S (String.length a)) with (String.length (a +:+ String c "")) by (rewrite str_length_app; cbn; lia). apply str_drop_app.
Qed.

Lemma split2_none c a : no_char c a = true → split2 c a = (a, None).
Proof. intros Ha. unfold split2. by rewrite (proj1 (no_char_index c a)). Qed.

Lemma remove_char_none c s : no_char c (remove_char c s) = true.
Proof.
  induction s as [|a s IH]; simpl; [done|].
  destruct (Ascii.eqb a c) eqn:E; simpl; [done|]. by rewrite E.
Qed.

#[export] Hint Rewrite str_app_nil_r str_length_app TrimPrefix_app TrimSuffix_app : gostr.
#[export] Hint Resolve prefix_app split_char_ne split_char_no_char remove_char_none : go.

(** ** Decimal numbers: [strconv.ParseInt] reads back what [%d] prints *)
Definition is_digit (a : ascii) : bool := ascii_in 48 57 a.

Fixpoint all_digits (s : string) : bool :=
  match s with
  | EmptyString => true
  | String a s => is_digit a && all_digits s
  end.

Lemma pretty_N_char_digit x :
  (x < 10)%N → is_digit (pretty_N_char x) = true ∧ digit_val (pretty_N_char x) = Some (Z.of_N x).
Proof.
  intros H.
  assert (x = 0 ∨ x = 1 ∨ x = 2 ∨ x = 3 ∨ x = 4 ∨ x = 5 ∨ x = 6 ∨ x = 7 ∨ x = 8 ∨ x = 9)%N
    as Hx by lia.
  by repeat destruct Hx as [->|Hx]; subst.
Qed.

Lemma pretty_N_go_digits x s :
  all_digits s = true →
  all_digits (pretty_N_go x s) = true ∧ digits_val 0 (pretty_N_go x s) = digits_val (Z.of_N x) s.
Proof.
  revert s. induction (N.lt_wf_0 x) as [x _ IH]; intros s Hs.
  assert (x = 0 ∨ 0 < x)%N as [->|Hx] by lia; [by rewrite pretty_N_go_0|].
  rewrite pretty_N_go_step by done.
  destruct (pretty_N_char_digit (x `mod` 10)) as [H1 H2]; [by apply N.mod_lt|].
  destruct (IH (x `div` 10)%N) with (s := String (pretty_N_char (x `mod` 10)) s) as [H3 H4].
  - by apply N.div_lt.
  - simpl. by rewrite H1, Hs.
  - split; [done|]. rewrite H4. cbn [digits_val]. rewrite H2. f_equal.
    pose proof (N.div_mod x 10). lia.
Qed.

Lemma itoa_digits n :
  (0 ≤ n)%Z → all_digits (itoa n) = true ∧ digits_val 0 (itoa n) = Some n ∧ itoa n ≠ "".
Proof.
  intros Hn. destruct n as [|p|p]; [done| |lia].
  change (itoa (Zpos p)) with (pretty_N_go (Npos p) "").
  destruct (pretty_N_go_digits (Npos p) "" eq_refl) as [H1 H2].
  split_and!; [done|by rewrite H2|]. intros E. by rewrite E in H2.
Qed.

Lemma all_digits_no_char c s : is_digit c = false → all_digits s = true → no_char c s = true.
Proof.
  intros Hc. induction s as [|a s IH]; simpl; [done|]. intros [Ha Hs]%andb_true_iff.
  rewrite IH by done. rewrite andb_true_r. apply negb_true_iff, Ascii.eqb_neq. congruence.
Qed.

Lemma ParseInt_itoa n : (0 ≤ n ≤ max_int64)%Z → ParseInt (itoa n) = Some n.
Proof.
  intros Hn. destruct (itoa_digits n) as (H1 & H2 & H3); [lia|]. unfold ParseInt.
  destruct (itoa n) as [|a r]; [done|].
  apply andb_true_iff in H1 as [Ha _].
  assert (Ascii.eqb a "-"%char = false ∧ Ascii.eqb a "+"%char = false) as [-> ->]
    by (split; apply Ascii.eqb_neq; intros ->; done).
  rewrite H2. unfold min_int64, max_int64 in *.
  by rewrite !(proj2 (Z.leb_le _ _)) by lia.
Qed.
