(* ===== verification/GoPath.v ===== *)
(** * Go's [path/filepath] on a Unix target, as the sources use it

    [Clean] is given by its documented result: the path is cut at the slashes,
    empty and "." elements are dropped, every ".." removes the element before
    it (or is dropped at the root of a rooted path), and the elements are put
    together again. *)

From Stdlib Require Import ZArith Lia Bool Ascii.
From S2P Require Import Prelude GoStrings.

Definition slash : ascii := "/"%char.
Definition elems (p : string) : list string := split_char slash p.
Definition rooted (p : string) : bool := HasPrefix p "/".

(** One path element pushed on the stack of the elements kept so far (top
    first). *)
Definition clean_step (is_rooted : bool) (stack : list string) (e : string) : list string :=
  if String.eqb e "" || String.eqb e "." then stack
  else if String.eqb e ".." then
    match stack with
    | [] => if is_rooted then [] else [".."]
    | top :: rest => if String.eqb top ".." then ".." :: stack else rest
    end
  else e :: stack.

Definition clean_elems (is_rooted : bool) (es : list string) : list string :=
  rev (foldl (clean_step is_rooted) [] es).

Definition Clean (p : string) : string :=
  if String.eqb p "" then "."
  else
    let es := clean_elems (rooted p) (elems p) in
    if rooted p then "/" +:+ str_join "/" es
    else match es with [] => "." | _ => str_join "/" es end.

(** [filepath.Join]: the empty leading elements are skipped, the rest joined
    and cleaned. *)
Fixpoint Join (l : list string) : string :=
  match l with
  | [] => ""
  | e :: l' => if String.eqb e "" then Join l' else Clean (str_join "/" l)
  end.

Fixpoint last_elem (d : string) (l : list string) : string :=
  match l with
  | [] => d
  | x :: l => last_elem x l
  end.

(** [filepath.Base]: trailing slashes are removed first. *)
Definition Base (p : string) : string :=
  if String.eqb p "" then "."
  else
    match rev (filter (λ e, e ≠ "") (elems p)) with
    | [] => "/"
    | e :: _ => e
    end.

(** The file component of [filepath.Split]: what follows the last slash. *)
Definition SplitFile (p : string) : string := last_elem "" (elems p).

(** [path.Ext]: from the last dot of the last element on, or nothing. *)
Definition Ext (p : string) : string :=
  match rev (split_char "."%char (SplitFile p)) with
  | e :: _ :: _ => "." +:+ e
  | _ => ""
  end.

(** ** Elements of a path *)

(** A plain element: not empty, not "." or "..", no slash. *)
Definition plain (e : string) : bool :=
  negb (String.eqb e "") && negb (String.eqb e ".") && negb (String.eqb e "..")
  && no_char slash e.

(** Elements [Clean] keeps when there is no ".." among them. *)
Definition kept (e : string) : bool := negb (String.eqb e "" || String.eqb e ".").

Definition no_dotdot (es : list string) : Prop := Forall (λ e, e ≠ "..") es.

Lemma plain_inv e : plain e = true → e ≠ "" ∧ e ≠ "." ∧ e ≠ ".." ∧ no_char slash e = true.
Proof.
  unfold plain. intros H. destruct_bools.
  repeat match goal with H : String.eqb _ _ = false |- _ => apply String.eqb_neq in H end.
  done.
Qed.

Lemma plain_intro e : e ≠ "" → e ≠ "." → e ≠ ".." → no_char slash e = true → plain e = true.
Proof.
  intros H1 H2 H3 H4. unfold plain.
  rewrite (proj2 (String.eqb_neq _ _) H1), (proj2 (String.eqb_neq _ _) H2),
    (proj2 (String.eqb_neq _ _) H3), H4. done.
Qed.

Lemma clean_step_plain r st e : plain e = true → clean_step r st e = e :: st.
Proof.
  intros (H1 & H2 & H3 & _)%plain_inv. unfold clean_step.
  rewrite (proj2 (String.eqb_neq _ _) H1), (proj2 (String.eqb_neq _ _) H2),
    (proj2 (String.eqb_neq _ _) H3). done.
Qed.

Lemma clean_step_no_dotdot r st e :
  e ≠ ".." → clean_step r st e = (if kept e then [e] else []) ++ st.
Proof.
  intros H. unfold clean_step, kept.
  destruct (String.eqb e "" || String.eqb e "."); [done|].
  by rewrite (proj2 (String.eqb_neq _ _) H).
Qed.

(** Without ".." the stack only grows, by the kept elements. *)
Lemma clean_fold_no_dotdot r es st :
  no_dotdot es →
  foldl (clean_step r) st es = rev (filter (λ e, kept e = true) es) ++ st.
Proof.
  intros H. revert st. induction H as [|e es He _ IH]; intros st; simpl; [done|].
  rewrite clean_step_no_dotdot, IH by done. rewrite filter_cons.
  destruct (kept e); [rewrite decide_True by done|by rewrite decide_False by done].
  simpl. by rewrite <- app_assoc.
Qed.

Lemma clean_elems_no_dotdot r es :
  no_dotdot es → clean_elems r es = filter (λ e, kept e = true) es.
Proof.
  intros H. unfold clean_elems. rewrite clean_fold_no_dotdot by done.
  by rewrite app_nil_r, rev_involutive.
Qed.

(** The elements of a rooted path after cleaning are plain, whatever the path. *)
Lemma clean_step_rooted_plain st e :
  no_char slash e = true →
  Forall (λ x, plain x = true) st → Forall (λ x, plain x = true) (clean_step true st e).
Proof.
  intros He Hst. unfold clean_step.
  destruct (String.eqb e "" || String.eqb e ".") eqn:E1; [done|]. destruct_bools.
  destruct (String.eqb e "..") eqn:E2.
  - destruct Hst as [|top rest Htop Hrest]; [done|].
    destruct (String.eqb top "..") eqn:E3; [|done].
    apply String.eqb_eq in E3 as ->. done.
  - constructor; [|done].
    repeat match goal with H : String.eqb _ _ = false |- _ => apply String.eqb_neq in H end.
    by apply plain_intro.
Qed.

Lemma clean_fold_rooted_plain es st :
  Forall (λ e, no_char slash e = true) es → Forall (λ x, plain x = true) st →
  Forall (λ x, plain x = true) (foldl (clean_step true) st es).
Proof.
  intros Hes. revert st. induction Hes; intros st Hst; simpl; [done|].
  by apply IHHes, clean_step_rooted_plain.
Qed.

Lemma Forall_rev' {A} (P : A → Prop) (l : list A) : Forall P l → Forall P (rev l).
Proof. induction 1; simpl; [done|]. apply Forall_app; auto. Qed.

Lemma clean_elems_rooted_plain es :
  Forall (λ e, no_char slash e = true) es →
  Forall (λ x, plain x = true) (clean_elems true es).
Proof. intros. by apply Forall_rev', clean_fold_rooted_plain. Qed.

(** Cleaning a list of plain elements changes nothing. *)
Lemma clean_elems_plain r es : Forall (λ x, plain x = true) es → clean_elems r es = es.
Proof.
  intros H. rewrite clean_elems_no_dotdot.
  - apply filter_all. eapply Forall_impl; [done|].
    intros x (H1 & H2 & _)%plain_inv. unfold kept.
    by rewrite (proj2 (String.eqb_neq _ _) H1), (proj2 (String.eqb_neq _ _) H2).
  - eapply Forall_impl; [done|]. by intros x (_ & _ & H3 & _)%plain_inv.
Qed.

Lemma plain_no_slash es :
  Forall (λ x, plain x = true) es → Forall (λ e, no_char slash e = true) es.
Proof. intros H. eapply Forall_impl; [done|]. by intros x (_ & _ & _ & ?)%plain_inv. Qed.

(** ** Absolute paths *)

(** [abs_path es]: the clean absolute path with elements [es]. *)
Definition abs_path (es : list string) : string := "/" +:+ str_join "/" es.
#[global] Arguments abs_path : simpl never.

Lemma elems_rooted s : elems ("/" +:+ s) = "" :: elems s.
Proof. done. Qed.

Lemma rooted_slash s : rooted ("/" +:+ s) = true.
Proof. apply prefix_app. Qed.

Lemma Clean_rooted s : Clean ("/" +:+ s) = abs_path (clean_elems true (elems s)).
Proof. unfold Clean. by rewrite rooted_slash, elems_rooted. Qed.

Lemma Join_abs l : Join ("/" :: l) = abs_path (clean_elems true (concat (elems <$> l))).
Proof.
  change (Join ("/" :: l)) with (Clean (str_join "/" ("/" :: l))).
  destruct l as [|x l]; [done|].
  rewrite str_join_cons by done. change ("/" +:+ "/" +:+ ?s) with ("/" +:+ ("/" +:+ s)).
  rewrite Clean_rooted, elems_rooted. f_equal.
  transitivity (clean_elems true (elems (str_join "/" (x :: l)))); [done|]. f_equal.
  revert x. induction l as [|y l IH]; intros x; [by simpl; rewrite app_nil_r|].
  rewrite str_join_cons by done. unfold elems at 1.
  change (x +:+ "/" +:+ ?s) with (x +:+ String slash s).
  rewrite split_char_sep. fold (elems x). fold (elems (str_join "/" (y :: l))).
  by rewrite IH.
Qed.

Lemma Clean_abs_path es : Forall (λ x, plain x = true) es → Clean (abs_path es) = abs_path es.
Proof.
  intros H. unfold abs_path at 1. rewrite Clean_rooted.
  destruct es as [|e es]; [done|].
  unfold elems. rewrite (split_join slash) by (done || by apply plain_no_slash).
  by rewrite clean_elems_plain.
Qed.

Lemma elems_abs_path es :
  es ≠ [] → Forall (λ x, plain x = true) es → elems (abs_path es) = "" :: es.
Proof.
  intros Hne H. unfold abs_path. rewrite elems_rooted. unfold elems.
  by rewrite (split_join slash) by (done || by apply plain_no_slash).
Qed.

Lemma abs_path_inj es1 es2 :
  Forall (λ x, plain x = true) es1 → Forall (λ x, plain x = true) es2 →
  abs_path es1 = abs_path es2 → es1 = es2.
Proof.
  intros H1 H2 He.
  destruct es1 as [|a l1], es2 as [|b l2]; [done|..].
  - apply (f_equal elems) in He. rewrite (elems_abs_path (b :: l2)) in He by done.
    change (elems (abs_path [])) with [""; ""] in He. injection He as <- <-. by inversion H2.
  - apply (f_equal elems) in He. rewrite (elems_abs_path (a :: l1)) in He by done.
    change (elems (abs_path [])) with [""; ""] in He. injection He as -> ->. by inversion H1.
  - apply (f_equal elems) in He. rewrite !elems_abs_path in He by done. congruence.
Qed.

(** [Clean] of a rooted path is idempotent. *)
Lemma Clean_rooted_idemp s : Clean (Clean ("/" +:+ s)) = Clean ("/" +:+ s).
Proof.
  rewrite Clean_rooted. apply Clean_abs_path, clean_elems_rooted_plain.
  apply split_char_no_char.
Qed.

(** The elements of the cleaned absolute path. *)
Definition path_elems (p : string) : list string := clean_elems true (elems p).

Lemma path_elems_abs es : Forall (λ x, plain x = true) es → path_elems (abs_path es) = es.
Proof.
  intros H. destruct es as [|e es]; [done|]. unfold path_elems.
  rewrite elems_abs_path by done. change (clean_elems true ("" :: ?l)) with (clean_elems true l).
  by apply clean_elems_plain.
Qed.

Lemma path_elems_plain p : Forall (λ x, plain x = true) (path_elems p).
Proof. apply clean_elems_rooted_plain, split_char_no_char. Qed.

Lemma abs_path_app es fs :
  es ≠ [] → fs ≠ [] → abs_path (es ++ fs) = abs_path es +:+ "/" +:+ str_join "/" fs.
Proof. intros. unfold abs_path. by rewrite str_join_app, !str_app_assoc by done. Qed.

Lemma no_slash_concat l : Forall (λ e, no_char slash e = true) (concat (elems <$> l)).
Proof. induction l; simpl; [done|]. apply Forall_app; split; [apply split_char_no_char|done]. Qed.

#[export] Hint Resolve clean_elems_rooted_plain no_slash_concat plain_no_slash : go.
