(* ===== verification/GoHeap.v ===== *)
(** * Go's [container/heap]

    The binary heap kept in a slice: [up], [down], [Push] and [Pop] as the
    package has them, for any [Less]. The gateway uses it twice: for the part
    numbers of a multipart upload (seqpriorityqueue/seqpriorityqueue.go) and
    for the directories still to be listed (dStorage.go, [listQueue]).

    The two loops move an index strictly towards the root or the leaves; the
    fuel given to them by [Push] and [Pop] is the length of the slice, and the
    lemmas [up_heap] and [down_heap] show it is enough. *)

From Stdlib Require Import ZArith Lia Bool Ascii.
From S2P Require Import Prelude GoStrings.

(** The order a [Less] method induces: [Less] is asymmetric and its complement
    is transitive (a strict weak order). *)
Class LessOrder {A} (less : A → A → bool) : Prop := {
  less_asym x y : less x y = true → less y x = false;
  less_neg_trans x y z : less y x = false → less z y = false → less z x = false;
}.

Section heap.
Context {A : Type} `{!Inhabited A} (less : A → A → bool).

Definition swap (l : list A) (i j : nat) : list A :=
  <[i := l !!! j]> (<[j := l !!! i]> l).

Fixpoint up (fuel : nat) (l : list A) (j : nat) : list A :=
  match fuel with
  | 0 => l
  | S fuel =>
      let i := (j - 1) / 2 in
      if (i =? j) || negb (less (l !!! j) (l !!! i)) then l
      else up fuel (swap l i j) i
  end.

(** The smaller child of [i] among the first [n] cells. *)
Definition child (l : list A) (i n : nat) : nat :=
  let j1 := 2 * i + 1 in
  let j2 := j1 + 1 in
  if (j2 <? n) && less (l !!! j2) (l !!! j1) then j2 else j1.

Fixpoint down (fuel : nat) (l : list A) (i n : nat) : list A :=
  match fuel with
  | 0 => l
  | S fuel =>
      if n <=? 2 * i + 1 then l
      else
        let j := child l i n in
        if negb (less (l !!! j) (l !!! i)) then l
        else down fuel (swap l i j) j n
  end.

Definition heap_push (l : list A) (x : A) : list A :=
  let l := l ++ [x] in up (length l) l (length l - 1).

(** [heap.Pop]: the first cell is exchanged with the last, sifted down, and
    the last cell cut off. Popping an empty heap panics in Go. *)
Definition heap_pop (l : list A) : option (A * list A) :=
  match l with
  | [] => None
  | _ =>
      let n := length l - 1 in
      let l := down (length l) (swap l 0 n) 0 n in
      Some (l !!! n, take n l)
  end.

(** ** Correctness *)
Definition ord (x y : A) : Prop := less y x = false.

Definition parent (k : nat) : nat := (k - 1) / 2.

Definition heap_upto (l : list A) (n : nat) : Prop :=
  ∀ k, 0 < k < n → ord (l !!! parent k) (l !!! k).

Definition heap (l : list A) : Prop := heap_upto l (length l).

Lemma length_swap l i j : length (swap l i j) = length l.
Proof. unfold swap. by rewrite !length_insert. Qed.

Lemma lookup_swap l i j k :
  i < length l → j < length l →
  swap l i j !!! k = if decide (k = i) then l !!! j else if decide (k = j) then l !!! i else l !!! k.
Proof.
  intros Hi Hj. unfold swap.
  case_decide as E1; [subst; by rewrite list_lookup_total_insert_eq by by rewrite length_insert|].
  rewrite list_lookup_total_insert_ne by done.
  case_decide as E2; [subst; by rewrite list_lookup_total_insert_eq|].
  by rewrite list_lookup_total_insert_ne.
Qed.

Lemma swap_perm l i j : i < length l → j < length l → swap l i j ≡ₚ l.
Proof.
  intros Hi Hj. apply Permutation_insert_swap; by apply list_lookup_lookup_total_lt.
Qed.

Lemma parent_lt k : 0 < k → parent k < k.
Proof. intros. unfold parent. apply Nat.Div0.div_lt_upper_bound; lia. Qed.

Lemma parent_child k i : 0 < k → parent k = i ↔ k = 2 * i + 1 ∨ k = 2 * i + 2.
Proof. unfold parent. intros Hk. pose proof (Nat.div_mod_eq (k - 1) 2).
  pose proof (Nat.mod_upper_bound (k - 1) 2). lia. Qed.

Lemma child_spec l i n :
  2 * i + 1 < n →
  child l i n < n ∧ i < child l i n ∧ parent (child l i n) = i.
Proof.
  intros H. unfold child.
  destruct ((2 * i + 1 + 1 <? n) && _) eqn:E.
  - apply andb_true_iff in E as [E%Nat.ltb_lt _].
    repeat split; [lia..|]. apply parent_child; lia.
  - repeat split; [lia..|]. apply parent_child; lia.
Qed.

(** [up] and [down] only move elements. *)
Lemma up_perm fuel l j : j < length l → up fuel l j ≡ₚ l.
Proof.
  revert l j. induction fuel as [|fuel IH]; intros l j Hj; [done|]. cbn [up].
  fold (parent j). destruct ((parent j =? j) || _) eqn:E; [done|].
  apply orb_false_iff in E as [E%Nat.eqb_neq _].
  assert (parent j < j) by (apply parent_lt; destruct j; [done|lia]).
  rewrite IH by (rewrite length_swap; lia). apply swap_perm; lia.
Qed.

Lemma down_perm fuel l i n : i < n → n ≤ length l → down fuel l i n ≡ₚ l.
Proof.
  revert l i. induction fuel as [|fuel IH]; intros l i Hi Hn; [done|]. cbn [down].
  destruct (Nat.leb_spec n (2 * i + 1)); [done|].
  destruct (child_spec l i n) as (Hc & Hic & _); [lia|].
  case_match; [done|]. rewrite IH by (rewrite ?length_swap; lia). apply swap_perm; lia.
Qed.

(** [down] leaves the cells from [n] on untouched. *)
Lemma down_frame fuel l i n k :
  i < n → n ≤ length l → n ≤ k → down fuel l i n !!! k = l !!! k.
Proof.
  revert l i. induction fuel as [|fuel IH]; intros l i Hi Hn Hk; [done|]. cbn [down].
  destruct (Nat.leb_spec n (2 * i + 1)); [done|].
  destruct (child_spec l i n) as (Hc & Hic & _); [lia|].
  case_match; [done|]. rewrite IH by (rewrite ?length_swap; lia).
  rewrite lookup_swap by lia. rewrite !decide_False by lia. done.
Qed.

Section order.
Context `{!LessOrder less}.

Lemma ord_refl x : ord x x.
Proof. unfold ord. destruct (less x x) eqn:E; [|done]. by rewrite (less_asym x x E) in E. Qed.

Lemma ord_trans x y z : ord x y → ord y z → ord x z.
Proof. unfold ord. apply less_neg_trans. Qed.

Lemma less_ord x y : less x y = true → ord x y.
Proof. apply less_asym. Qed.

(** While [up] runs, the heap order holds everywhere but between [j] and its
    parent, and the parent of [j] is still below the children of [j]. *)
Definition up_inv (l : list A) (j : nat) : Prop :=
  (∀ k, 0 < k < length l → k ≠ j → ord (l !!! parent k) (l !!! k)) ∧
  (∀ k, 0 < j → 0 < k < length l → parent k = j → ord (l !!! parent j) (l !!! k)).

Lemma up_inv_step l j :
  up_inv l j → j < length l → parent j ≠ j →
  less (l !!! j) (l !!! parent j) = true → up_inv (swap l (parent j) j) (parent j).
Proof.
  intros [H1 H2] Hj Hne Hless. set (i := parent j) in *.
  assert (i < j) as Hij by (apply parent_lt; destruct j; [done|lia]).
  assert (Hle : ord (l !!! j) (l !!! i)) by by apply less_ord.
  split; rewrite length_swap.
  - intros k Hk Hki. rewrite !lookup_swap by lia.
    pose proof (parent_lt k ltac:(lia)).
    rewrite (decide_False (P := k = i)) by done.
    destruct (decide (k = j)) as [->|Hkj].
    { fold i. by rewrite decide_True. }
    destruct (decide (parent k = i)) as [Hp|Hp].
    { apply ord_trans with (l !!! i); [done|]. rewrite <- Hp. by apply H1. }
    destruct (decide (parent k = j)) as [Hp'|Hp']; [|by apply H1].
    apply H2; lia.
  - intros k Hi0 Hk Hp. rewrite !lookup_swap by lia.
    pose proof (parent_lt k ltac:(lia)). pose proof (parent_lt i ltac:(lia)).
    rewrite (decide_False (P := parent i = i)), (decide_False (P := parent i = j)),
      (decide_False (P := k = i)) by lia.
    destruct (decide (k = j)) as [->|Hkj]; [apply H1; lia|].
    apply ord_trans with (l !!! i); [apply H1; lia|]. rewrite <- Hp. by apply H1.
Qed.

Lemma up_heap fuel l j : up_inv l j → j < length l → j < fuel → heap (up fuel l j).
Proof.
  revert l j. induction fuel as [|fuel IH]; intros l j Hinv Hj Hf; [lia|]. cbn [up].
  fold (parent j). destruct ((parent j =? j) || _) eqn:E.
  - intros k Hk. destruct (decide (k = j)) as [->|Hkj]; [|by apply Hinv].
    apply orb_true_iff in E as [E%Nat.eqb_eq|E].
    + pose proof (parent_lt j ltac:(lia)). lia.
    + by apply negb_true_iff in E.
  - apply orb_false_iff in E as [E%Nat.eqb_neq E2%negb_false_iff].
    pose proof (parent_lt j ltac:(unfold parent in *; destruct j; [done|lia])).
    apply IH; [by apply up_inv_step|rewrite length_swap; lia|lia].
Qed.

(** While [down] runs, the heap order holds but between [i] and its children. *)
Definition down_inv (l : list A) (i n : nat) : Prop :=
  (∀ k, 0 < k < n → parent k ≠ i → ord (l !!! parent k) (l !!! k)) ∧
  (∀ k, 0 < i → 0 < k < n → parent k = i → ord (l !!! parent i) (l !!! k)).

Lemma child_least l i n k :
  0 < k < n → parent k = i → ord (l !!! child l i n) (l !!! k).
Proof.
  intros Hk Hp. apply parent_child in Hp; [|lia]. unfold child.
  replace (2 * i + 1 + 1) with (2 * i + 2) by lia.
  destruct ((2 * i + 2 <? n) && _) eqn:E.
  - apply andb_true_iff in E as [_ E]. destruct Hp as [->| ->]; [by apply less_ord|apply ord_refl].
  - destruct Hp as [->| ->]; [apply ord_refl|].
    apply andb_false_iff in E as [E%Nat.ltb_ge|E]; [lia|]. done.
Qed.

Lemma down_inv_step l i n :
  down_inv l i n → n ≤ length l → 2 * i + 1 < n →
  less (l !!! child l i n) (l !!! i) = true →
  down_inv (swap l i (child l i n)) (child l i n) n.
Proof.
  intros [H1 H2] Hn Hi Hless. set (j := child l i n) in *.
  destruct (child_spec l i n Hi) as (Hjn & Hij & Hpj). fold j in Hjn, Hij, Hpj.
  assert (Hle : ord (l !!! j) (l !!! i)) by by apply less_ord.
  split.
  - intros k Hk Hp. rewrite !lookup_swap by lia.
    pose proof (parent_lt k ltac:(lia)).
    rewrite (decide_False (P := parent k = j)) by done.
    destruct (decide (parent k = i)) as [Hpi|Hpi].
    { rewrite (decide_False (P := k = i)) by lia.
      destruct (decide (k = j)) as [->|]; [done|]. by apply child_least. }
    destruct (decide (k = i)) as [->|Hki].
    { apply H2; lia. }
    destruct (decide (k = j)) as [->|]; [done|]. by apply H1.
  - intros k _ Hk Hp. rewrite !lookup_swap by lia.
    pose proof (parent_lt k ltac:(lia)).
    rewrite Hpj, (decide_True (P := i = i)) by done.
    rewrite (decide_False (P := k = i)), (decide_False (P := k = j)) by lia.
    rewrite <- Hp. apply H1; lia.
Qed.

Lemma down_heap fuel l i n :
  down_inv l i n → n ≤ length l → n ≤ i + fuel → heap_upto (down fuel l i n) n.
Proof.
  revert l i. induction fuel as [|fuel IH]; intros l i Hinv Hn Hf; cbn [down].
  { intros k Hk. apply Hinv; [done|]. pose proof (parent_lt k ltac:(lia)). lia. }
  destruct (Nat.leb_spec n (2 * i + 1)) as [Hi|Hi].
  { intros k Hk. apply Hinv; [done|]. intros Hp. apply parent_child in Hp; lia. }
  destruct (child_spec l i n Hi) as (Hjn & Hij & Hpj).
  destruct (less _ _) eqn:E; simpl.
  - apply IH; [by apply down_inv_step|rewrite length_swap; lia|lia].
  - intros k Hk. destruct (decide (parent k = i)) as [Hp|Hp]; [|by apply Hinv].
    rewrite Hp. apply ord_trans with (l !!! child l i n); [done|]. by apply child_least.
Qed.

(** The root of a heap is a least element. *)
Lemma heap_root_least l k : heap l → k < length l → ord (l !!! 0) (l !!! k).
Proof.
  intros H. induction k as [k IH] using lt_wf_ind. intros Hk.
  destruct (decide (k = 0)) as [->|Hk0]; [apply ord_refl|].
  pose proof (parent_lt k ltac:(lia)).
  apply ord_trans with (l !!! parent k); [apply IH; lia|]. apply H; lia.
Qed.

Lemma heap_push_perm l x : heap_push l x ≡ₚ x :: l.
Proof.
  unfold heap_push. rewrite up_perm by (rewrite length_app; simpl; lia).
  by rewrite Permutation_app_comm.
Qed.

Lemma heap_push_heap l x : heap l → heap (heap_push l x).
Proof.
  intros H. unfold heap_push. apply up_heap; rewrite ?length_app; simpl; try lia.
  split.
  - intros k Hk Hkj. rewrite length_app in Hk. simpl in *.
    pose proof (parent_lt k ltac:(lia)).
    rewrite !lookup_total_app_l by lia. apply H; lia.
  - intros k _ Hk Hp. rewrite length_app in Hk. simpl in *.
    pose proof (parent_lt k ltac:(lia)). lia.
Qed.

Lemma heap_pop_spec l :
  heap l → l ≠ [] →
  ∃ x r, heap_pop l = Some (x, r) ∧ x = l !!! 0 ∧ heap r ∧ l ≡ₚ x :: r
         ∧ (∀ y, y ∈ l → ord x y).
Proof.
  intros Hh Hne. set (n := length l - 1).
  assert (Hlen : length l = S n) by (destruct l; [done|simpl in *; lia]).
  set (l1 := swap l 0 n). set (l2 := down (length l) l1 0 n).
  assert (Hl1 : length l1 = S n) by (unfold l1; by rewrite length_swap).
  assert (Hl1p : l1 ≡ₚ l) by (apply swap_perm; lia).
  assert (Hl2p : l2 ≡ₚ l1).
  { unfold l2. destruct (decide (n = 0)) as [E|]; [|apply down_perm; lia].
    rewrite Hlen, E. simpl. done. }
  assert (Hl2n : l2 !!! n = l !!! 0).
  { unfold l2. destruct (decide (n = 0)) as [E|]; [|rewrite down_frame by lia; unfold l1;
      rewrite lookup_swap by lia; rewrite decide_False, decide_True by lia; done].
    rewrite Hlen, E. simpl. unfold l1. rewrite lookup_swap by lia.
    rewrite E. by rewrite decide_True. }
  assert (Hl2 : length l2 = S n) by (by rewrite Hl2p).
  assert (Hsplit : l2 = take n l2 ++ [l2 !!! n]).
  { rewrite <- (take_drop n l2) at 1. f_equal.
    erewrite drop_S by (apply list_lookup_lookup_total_lt; lia).
    by rewrite drop_ge by lia. }
  exists (l2 !!! n), (take n l2). split_and!.
  - unfold heap_pop. destruct l; [done|]. done.
  - done.
  - intros k Hk. rewrite length_take in Hk.
    pose proof (parent_lt k ltac:(lia)).
    rewrite !list_lookup_total_alt, !lookup_take_lt, <- !list_lookup_total_alt by lia.
    apply (down_heap (length l) l1 0 n); [|lia..].
    split; [|lia]. intros k' Hk' Hp. pose proof (parent_lt k' ltac:(lia)).
    unfold l1. rewrite !lookup_swap by lia. rewrite !decide_False by lia.
    apply Hh. lia.
  - rewrite <- Hl1p, <- Hl2p. rewrite Hsplit at 1. by rewrite Permutation_app_comm.
  - intros y [k [Hy Hk]]%list_elem_of_lookup_total. rewrite Hl2n, <- Hk. by apply heap_root_least.
Qed.

Lemma heap_nil : heap [].
Proof. intros k Hk. simpl in *. lia. Qed.
End order.
End heap.
#[global] Arguments heap_push : simpl never.
#[global] Arguments heap_pop : simpl never.

(** ** The two [Less] methods in use *)
#[export] Instance Zlt_less : LessOrder Z.ltb.
Proof. split; intros; destruct_bools; [apply Z.ltb_ge|apply Z.ltb_ge]; lia. Qed.

Lemma N_of_ascii_inj a b : N_of_ascii a = N_of_ascii b → a = b.
Proof. intros H. by rewrite <- (ascii_N_embedding a), <- (ascii_N_embedding b), H. Qed.

(** Decides the order of two bytes in a goal about [str_ltb]. *)
Ltac byte_cases :=
  repeat match goal with
  | H : context [Ascii.eqb ?a ?b] |- _ => destruct (Ascii.eqb_spec a b); subst
  | |- context [Ascii.eqb ?a ?b] => destruct (Ascii.eqb_spec a b); subst
  | H : (_ <? _)%N = true |- _ => apply N.ltb_lt in H
  | H : (_ <? _)%N = false |- _ => apply N.ltb_ge in H
  | |- (_ <? _)%N = false => apply N.ltb_ge
  | H : ?a ≠ ?b |- _ =>
      lazymatch goal with
      | _ : N_of_ascii a ≠ N_of_ascii b |- _ => fail
      | _ => assert (N_of_ascii a ≠ N_of_ascii b) by (intros ?%N_of_ascii_inj; done)
      end
  end.

Lemma str_ltb_asym x y : str_ltb x y = true → str_ltb y x = false.
Proof.
  revert y. induction x as [|a x IH]; intros [|b y] H; simpl in *; try done.
  byte_cases; try done; [by apply IH|lia].
Qed.

Lemma str_ltb_neg_trans x y z :
  str_ltb y x = false → str_ltb z y = false → str_ltb z x = false.
Proof.
  revert y z. induction x as [|a x IH]; intros [|b y] [|c z] H1 H2; simpl in *; try done.
  byte_cases; try done; try lia. by eapply IH.
Qed.

Lemma str_ltb_total a b : str_ltb a b = false → str_ltb b a = false → a = b.
Proof.
  revert b. induction a as [|x a IH]; intros [|y b]; simpl; try done.
  destruct (Ascii.eqb_spec x y) as [->|Hne].
  - rewrite Ascii.eqb_refl. intros. f_equal. auto.
  - destruct (Ascii.eqb_spec y x) as [->|_]; [done|].
    rewrite !N.ltb_ge. intros H1 H2. destruct Hne. apply N_of_ascii_inj. lia.
Qed.

#[export] Instance str_less : LessOrder str_ltb.
Proof. split; [apply str_ltb_asym|apply str_ltb_neg_trans]. Qed.

#[export] Hint Resolve heap_nil heap_push_heap : go.
