(* ===== verification/GoSort.v ===== *)
(** * [sort.Slice]

    Go sorts slices of up to twelve elements by insertion, as modelled here. For longer
    ones it uses other algorithms, with the same result whenever the comparison is a strict weak
    order and equal elements are the same; the lemmas say no more. *)

From Stdlib Require Import Bool Sorted.
From stdpp Require Import sorting.
From S2P Require Import Prelude.

Section Sort.
Context {A : Type} (less : A → A → bool).

(** [x] moves to the left past what it is less than; [rev] is the sorted part, last element first. *)
Fixpoint insert_right (x : A) (rev : list A) : list A :=
  match rev with
  | [] => [x]
  | y :: rev' => if less x y then y :: insert_right x rev' else x :: rev
  end.

Definition sort_Slice (l : list A) : list A := reverse (foldl (λ rev x, insert_right x rev) [] l).

(** [sort.SliceIsSorted]: no element is less than the one before it. *)
Fixpoint SliceIsSorted (l : list A) : bool :=
  match l with
  | x :: ((y :: _) as l') => negb (less y x) && SliceIsSorted l'
  | _ => true
  end.

Lemma insert_right_perm x rev : insert_right x rev ≡ₚ x :: rev.
Proof. induction rev as [|y rev IH]; cbn [insert_right]; [done|]. destruct (less x y); [|done]. rewrite IH. apply Permutation_swap. Qed.

Lemma sort_Slice_perm l : sort_Slice l ≡ₚ l.
Proof.
  unfold sort_Slice. rewrite reverse_Permutation.
  enough (∀ rev, foldl (λ rev x, insert_right x rev) rev l ≡ₚ rev ++ l) as H by apply H.
  induction l as [|x l IH]; intros rev; cbn [foldl]; [by rewrite app_nil_r|]. rewrite IH, insert_right_perm.
  change (x :: rev) with ([x] ++ rev). rewrite (Permutation_app_comm [x]), <- app_assoc. done.
Qed.

Lemma sort_Slice_elem l x : x ∈ sort_Slice l ↔ x ∈ l.
Proof. by rewrite sort_Slice_perm. Qed.

(** If [less] is a strict weak order on the elements that have [P], the result is sorted. *)
Context (P : A → Prop).
Context (less_asym : ∀ x y, P x → P y → less x y = true → less y x = false).
Context (less_trans : ∀ x y z, P x → P y → P z → less x y = false → less y z = false → less x z = false).

Lemma insert_right_sorted x rev :
  P x → Forall P rev → StronglySorted (λ a b, less a b = false) rev → StronglySorted (λ a b, less a b = false) (insert_right x rev).
Proof.
  intros Hx. induction rev as [|y rev IH]; intros HP Hs; cbn [insert_right]; [repeat constructor|].
  inversion HP as [|? ? Hy HP']; inversion Hs as [|? ? Hs' Hall]; subst. destruct (less x y) eqn:E.
  - constructor; [by apply IH|]. rewrite insert_right_perm. constructor; [by apply less_asym|done].
  - constructor; [done|]. constructor; [done|]. rewrite Forall_forall in Hall, HP'. apply Forall_forall. intros z Hz. apply (less_trans x y z); auto.
Qed.

Lemma sort_Slice_sorted l : Forall P l → StronglySorted (λ a b, less b a = false) (sort_Slice l).
Proof.
  intros HP. unfold sort_Slice.
  assert (∀ rev, Forall P rev → StronglySorted (λ a b, less a b = false) rev →
    StronglySorted (λ a b, less a b = false) (foldl (λ rev x, insert_right x rev) rev l)) as Hf.
  { induction HP as [|x l Hx _ IH]; intros rev HPr Hs; cbn [foldl]; [done|]. apply IH; [|by apply insert_right_sorted].
    rewrite insert_right_perm. by constructor. }
  specialize (Hf [] ltac:(constructor) ltac:(constructor)). revert Hf. generalize (foldl (λ rev x, insert_right x rev) [] l). clear.
  induction 1 as [|x l Hs IH Hall]; [constructor|]. rewrite reverse_cons. apply StronglySorted_app_2; [|done|repeat constructor].
  intros a b Ha ->%list_elem_of_singleton. rewrite Forall_forall in Hall. apply Hall. by apply elem_of_reverse.
Qed.

End Sort.
