(* ===== verification/SeqPQ.v ===== *)
(** * The sequential priority queue of a multipart upload
    (cmd/gateway/zcn/seqpriorityqueue/seqpriorityqueue.go)

    Parts of a multipart upload arrive in any order; the uploader must see them
    in the order 1, 2, 3, ... [Push] and [Done] run in the request handlers,
    [Popup] in the goroutine that feeds the upload. Each holds the mutex from
    beginning to end, so an execution is a sequence of whole operations;
    [Popup] waits on the condition variable while its loop condition holds,
    which is [None] here: the caller has not returned and the state is
    unchanged. *)

From Stdlib Require Import ZArith Lia Bool.
From S2P Require Import Prelude GoHeap.

Module SeqPriorityQueue.

Record t := mk { queue : list Z; start : bool; next : Z; done : bool }.

Definition New : t := mk [] false 1 false.

Definition Push (v : Z) (pq : t) : t :=
  mk (heap_push Z.ltb (queue pq) v) (if (v =? 1)%Z then true else start pq) (next pq) (done pq).

Definition Done (pq : t) : t := mk (queue pq) (start pq) (next pq) true.

(** The condition of the waiting loop of [Popup]. *)
Definition waits (pq : t) : bool :=
  ((length (queue pq) =? 0) && negb (done pq)) || negb (start pq)
  || ((0 <? length (queue pq)) && negb (queue pq !!! 0%nat =? next pq)%Z).

Definition Popup (pq : t) : option (Z * t) :=
  if waits pq then None
  else if (length (queue pq) =? 0) && done pq then Some ((-1)%Z, pq)
  else match heap_pop Z.ltb (queue pq) with
       | Some (item, q) => Some (item, mk q (start pq) (next pq + 1)%Z (done pq))
       | None => None
       end.

(** ** Executions *)
Inductive op := OPush (v : Z) | ODone | OPopup.

#[export] Instance op_eq_dec : EqDecision op.
Proof. solve_decision. Defined.

(** One operation: the value [Popup] returned, if it returned, and the state. *)
Definition step (pq : t) (o : op) : list Z * t :=
  match o with
  | OPush v => ([], Push v pq)
  | ODone => ([], Done pq)
  | OPopup => match Popup pq with Some (v, pq) => ([v], pq) | None => ([], pq) end
  end.

Fixpoint run (pq : t) (os : list op) : list Z * t :=
  match os with
  | [] => ([], pq)
  | o :: os => let '(out, pq) := step pq o in let '(outs, pq) := run pq os in (out ++ outs, pq)
  end.

Fixpoint pushed (os : list op) : list Z :=
  match os with
  | [] => []
  | OPush v :: os => v :: pushed os
  | _ :: os => pushed os
  end.

(** The integers [a], [a+1], ..., [a+n-1]. *)
Fixpoint zseq (a : Z) (n : nat) : list Z :=
  match n with 0 => [] | S n => a :: zseq (a + 1)%Z n end.

Definition parts_of (outs : list Z) : list Z := filter (λ v, v ≠ (-1)%Z) outs.

(** ** Invariant *)

(** [hist] is what has been pushed so far. *)
Record wf (hist : list Z) (pq : t) : Prop := {
  wf_heap : heap Z.ltb (queue pq);
  wf_next : (1 ≤ next pq)%Z;
  wf_start : start pq = bool_decide (1%Z ∈ hist);
  wf_hist : hist ≡ₚ zseq 1 (Z.to_nat (next pq - 1)) ++ queue pq;
}.

Lemma zseq_snoc a n : zseq a (S n) = zseq a n ++ [(a + Z.of_nat n)%Z].
Proof.
  revert a. induction n as [|n IH]; intros a; [by simpl; rewrite Z.add_0_r|].
  cbn [zseq app] in *. rewrite IH. simpl. by replace (a + 1 + Z.of_nat n)%Z with (a + Z.of_nat (S n))%Z by lia.
Qed.

Lemma length_zseq a n : length (zseq a n) = n.
Proof. revert a; induction n; intros; simpl; auto. Qed.

Lemma elem_of_zseq a n x : x ∈ zseq a n ↔ (a ≤ x < a + Z.of_nat n)%Z.
Proof.
  revert a. induction n as [|n IH]; intros a; cbn [zseq].
  - split; [by intros ?%not_elem_of_nil|lia].
  - rewrite elem_of_cons, IH. lia.
Qed.

Lemma zseq_app a n m : zseq a (n + m) = zseq a n ++ zseq (a + Z.of_nat n) m.
Proof.
  revert a. induction n as [|n IH]; intros a; simpl; [by rewrite Z.add_0_r|].
  rewrite IH. by replace (a + 1 + Z.of_nat n)%Z with (a + Z.of_nat (S n))%Z by lia.
Qed.

Lemma NoDup_zseq a n : NoDup (zseq a n).
Proof.
  revert a. induction n as [|n IH]; intros a; simpl; constructor; [|done].
  rewrite elem_of_zseq. lia.
Qed.

Lemma wf_New : wf [] New.
Proof. split; simpl; auto with go; lia. Qed.

Lemma wf_Push hist v pq : wf hist pq → wf (hist ++ [v]) (Push v pq).
Proof.
  intros [H1 H2 H3 H4]. split; simpl; [by apply (heap_push_heap Z.ltb)|done|..].
  - rewrite H3. destruct (Z.eqb_spec v 1) as [->|Hv].
    + symmetry. apply bool_decide_eq_true. apply elem_of_app. right. by left.
    + apply bool_decide_ext. rewrite elem_of_app, list_elem_of_singleton.
      split; [by left|]. by intros [?|<-].
  - rewrite heap_push_perm, H4, <- app_assoc. by rewrite <- Permutation_cons_append.
Qed.

Lemma wf_Done hist pq : wf hist pq → wf hist (Done pq).
Proof. by intros []. Qed.

(** What [Popup] does when it returns: [-1] on a finished, empty queue, and the
    next part otherwise. *)
Lemma Popup_cases hist pq v pq' :
  wf hist pq → Popup pq = Some (v, pq') →
  (v = (-1)%Z ∧ pq' = pq ∧ queue pq = [] ∧ done pq = true) ∨
  (v = next pq ∧ next pq' = (next pq + 1)%Z ∧ done pq' = done pq ∧ start pq' = start pq ∧
   queue pq ≡ₚ v :: queue pq' ∧ wf hist pq').
Proof.
  intros [H1 H2 H3 H4]. unfold Popup. destruct (waits pq) eqn:Ew; [done|].
  unfold waits in Ew. destruct_bools.
  destruct ((length (queue pq) =? 0) && done pq) eqn:Ed.
  { intros [= <- <-]. apply andb_true_iff in Ed as [Hl%Nat.eqb_eq ?].
    left. split_and!; try done. by apply nil_length_inv. }
  destruct (queue pq) as [|q0 qs] eqn:Eq; [by simpl in *; destruct (done pq)|].
  destruct (heap_pop_spec Z.ltb (q0 :: qs) H1 ltac:(done)) as (x & r & -> & Hx & Hr & Hp & _).
  intros [= <- <-]. right. simpl in *. destruct_bools.
  assert (x = next pq) as -> by congruence.
  split_and!; try done. split; simpl; [done|lia|done|].
  rewrite H4, Hp. replace (Z.to_nat (next pq + 1 - 1)) with (S (Z.to_nat (next pq - 1))) by lia.
  rewrite zseq_snoc, <- app_assoc. simpl.
  by replace (1 + Z.of_nat (Z.to_nat (next pq - 1)))%Z with (next pq) by lia.
Qed.

(** ** Safety: parts come out in order, whatever the interleaving *)
Lemma run_in_order hist pq os outs pq' :
  wf hist pq → run pq os = (outs, pq') →
  ∃ n, parts_of outs = zseq (next pq) n ∧ next pq' = (next pq + Z.of_nat n)%Z
       ∧ wf (hist ++ pushed os) pq'.
Proof.
  revert hist pq outs. induction os as [|o os IH]; intros hist pq outs Hwf; simpl.
  { intros [= <- <-]. exists 0. rewrite app_nil_r. split_and!; [done|lia|done]. }
  destruct (step pq o) as [out pq1] eqn:Es, (run pq1 os) as [outs1 pq2] eqn:Er.
  intros [= <- <-]. unfold parts_of. rewrite filter_app.
  destruct o as [v| |]; simpl in Es.
  - injection Es as <- <-. destruct (IH _ _ _ (wf_Push _ v _ Hwf) Er) as (n & Hn & Hx & Hw).
    exists n. simpl. by rewrite <- app_assoc in Hw.
  - injection Es as <- <-. destruct (IH _ _ _ (wf_Done _ _ Hwf) Er) as (n & Hn & Hx & Hw).
    by exists n.
  - destruct (Popup pq) as [[v pqv]|] eqn:Ep; injection Es as <- <-; [|by apply (IH hist)].
    destruct (Popup_cases _ _ _ _ Hwf Ep) as [(-> & -> & _)|(-> & Hnx & _ & _ & _ & Hw')].
    + rewrite filter_cons_False by naive_solver. by apply (IH hist).
    + destruct (IH _ _ _ Hw' Er) as (n & Hn & Hx & Hw). exists (S n).
      rewrite filter_cons_True by (destruct Hwf; lia). simpl.
      rewrite Hnx in Hn, Hx. split_and!; [by f_equal|lia|done].
Qed.

(** Before [Done], [Popup] never answers -1. *)
Lemma not_done_parts hist pq os :
  wf hist pq → done pq = false → ODone ∉ os →
  parts_of (fst (run pq os)) = fst (run pq os).
Proof.
  revert hist pq. induction os as [|o os IH]; intros hist pq Hwf Hd Hos; [done|].
  apply not_elem_of_cons in Hos as [Ho Hos]. cbn [run]. destruct o as [v| |]; [|done|]; cbn [step].
  - specialize (IH _ _ (wf_Push _ v _ Hwf) Hd Hos). by destruct (run (Push v pq) os).
  - destruct (Popup pq) as [[v pq']|] eqn:E.
    + destruct (Popup_cases _ _ _ _ Hwf E) as [(_ & _ & _ & ?)|(-> & _ & Hd' & _ & _ & Hw')]; [congruence|].
      specialize (IH _ _ Hw' ltac:(congruence) Hos). destruct (run pq' os); simpl in *.
      unfold parts_of in *. rewrite filter_cons_True by (destruct Hwf; lia). by f_equal.
    + specialize (IH _ _ Hwf Hd Hos). by destruct (run pq os).
Qed.

(** ** Liveness: every part comes out, then the end marker *)

(** Before the last part is out, the queue holds exactly the parts to come. *)
Lemma wf_queue_rest n pq hist :
  wf hist pq → hist ≡ₚ zseq 1 n →
  ∃ m, n = (Z.to_nat (next pq - 1) + m)%nat ∧ queue pq ≡ₚ zseq (next pq) m.
Proof.
  intros [H1 H2 H3 H4] Hh. set (k := Z.to_nat (next pq - 1)) in *. rewrite Hh in H4.
  pose proof (Permutation_length H4) as Hl. rewrite length_app, !length_zseq in Hl.
  exists (length (queue pq)). split; [done|].
  rewrite Hl, zseq_app in H4. apply Permutation_app_inv_l in H4.
  by replace (1 + Z.of_nat k)%Z with (next pq) in H4 by lia.
Qed.

Lemma queue_root m a (q : list Z) : heap Z.ltb q → q ≡ₚ zseq a (S m) → q !!! 0%nat = a.
Proof.
  intros Hh Hp.
  assert (Hlen : length q = S m) by by rewrite Hp, length_zseq.
  assert (Ha : a ∈ q) by (rewrite Hp; by left).
  apply list_elem_of_lookup_total in Ha as (k & Hk & Hka).
  pose proof (heap_root_least Z.ltb q k Hh Hk) as Hle. rewrite Hka in Hle.
  assert (Hr : q !!! 0%nat ∈ zseq a (S m)).
  { rewrite <- Hp. apply list_elem_of_lookup_total. exists 0. split; [lia|done]. }
  apply elem_of_zseq in Hr. unfold ord in Hle. destruct_bools. lia.
Qed.

(** On a finished queue that was given the parts 1 to n, [Popup] returns. *)
Lemma Popup_returns n pq hist :
  wf hist pq → hist ≡ₚ zseq 1 n → 1 ≤ n → done pq = true → is_Some (Popup pq).
Proof.
  intros Hwf Hh Hn Hd. pose proof Hwf as [H1 H2 H3 H4].
  destruct (wf_queue_rest n pq hist Hwf Hh) as (m & Hm & Hq).
  assert (Hs : start pq = true).
  { rewrite H3. apply bool_decide_eq_true. rewrite Hh. apply elem_of_zseq. lia. }
  assert (Hw : waits pq = false).
  { unfold waits. rewrite Hd, Hs. simpl. rewrite andb_false_r. simpl.
    destruct (queue pq) as [|q0 qs] eqn:Eq; [done|]. rewrite <- Eq in *.
    destruct m as [|m]; [apply Permutation_nil_r in Hq; congruence|].
    by rewrite (queue_root m (next pq)), Z.eqb_refl, andb_false_r. }
  unfold Popup. rewrite Hw, Hd, andb_true_r.
  destruct (Nat.eqb_spec (length (queue pq)) 0) as [|Hne]; [done|].
  destruct (heap_pop_spec Z.ltb (queue pq) H1) as (x & r & -> & _); [|done].
  by destruct (queue pq).
Qed.

Lemma run_app pq os1 os2 :
  run pq (os1 ++ os2) =
  let '(o1, pq1) := run pq os1 in let '(o2, pq2) := run pq1 os2 in (o1 ++ o2, pq2).
Proof.
  revert pq. induction os1 as [|o os1 IH]; intros pq; simpl; [by destruct (run pq os2)|].
  destruct (step pq o) as [a pq1]. rewrite IH.
  destruct (run pq1 os1) as [b pq2], (run pq2 os2) as [c pq3]. by rewrite app_assoc.
Qed.

Lemma drain n hist m j pq :
  wf hist pq → hist ≡ₚ zseq 1 n → 1 ≤ n → done pq = true → queue pq ≡ₚ zseq (next pq) m →
  fst (run pq (replicate (m + j) OPopup)) = zseq (next pq) m ++ replicate j (-1)%Z.
Proof.
  intros Hwf Hh Hn. revert pq Hwf. induction m as [|m IH]; intros pq Hwf Hd Hq.
  - apply Permutation_nil_r in Hq. induction j as [|j IHj]; [done|].
    change (0 + ?x) with x in *. simpl.
    destruct (Popup_returns n pq hist Hwf Hh Hn Hd) as [[v pq'] Hp]. rewrite Hp.
    destruct (Popup_cases _ _ _ _ Hwf Hp) as [(-> & -> & _)|(_ & _ & _ & _ & Hq' & _)].
    + destruct (run pq (replicate j OPopup)); simpl in *. by f_equal.
    + rewrite Hq in Hq'. by apply Permutation_nil_cons in Hq'.
  - simpl. destruct (Popup_returns n pq hist Hwf Hh Hn Hd) as [[v pq'] Hp]. rewrite Hp.
    destruct (Popup_cases _ _ _ _ Hwf Hp) as [(_ & _ & He & _)|(-> & Hx & Hd' & _ & Hq' & Hw')].
    { rewrite He in Hq. by apply Permutation_nil_cons in Hq. }
    rewrite Hq in Hq'. simpl in Hq'. apply Permutation_cons_inv in Hq'.
    specialize (IH pq' Hw' ltac:(congruence) ltac:(by rewrite Hx)).
    destruct (run pq' (replicate (m + j) OPopup)); simpl in *.
    rewrite IH, Hx. done.
Qed.

(** ** When the waiting loop never ends *)

(** A part pushed again after it was consumed stays below [next]. *)
Lemma replay_waits hist pq v :
  wf hist pq → v ∈ queue pq → (v < next pq)%Z → Popup pq = None.
Proof.
  intros [H1 _ _ _] Hv Hlt. unfold Popup.
  apply list_elem_of_lookup_total in Hv as (k & Hk & Hkv).
  pose proof (heap_root_least Z.ltb (queue pq) k H1 Hk) as Hle. unfold ord in Hle.
  assert (waits pq = true) as ->; [|done].
  unfold waits. apply orb_true_iff. right.
  apply andb_true_iff; split; [apply Nat.ltb_lt; lia|].
  apply negb_true_iff, Z.eqb_neq. destruct_bools. lia.
Qed.

Lemma replay_stuck hist pq v os :
  wf hist pq → v ∈ queue pq → (v < next pq)%Z → fst (run pq os) = [].
Proof.
  revert hist pq. induction os as [|o os IH]; intros hist pq Hwf Hv Hlt; [done|]. simpl.
  destruct o as [w| |]; simpl.
  - specialize (IH _ _ (wf_Push _ w _ Hwf)). simpl in IH.
    destruct (run (Push w pq) os); simpl in *. apply IH; [|done].
    rewrite heap_push_perm. by right.
  - specialize (IH _ _ (wf_Done _ _ Hwf) Hv Hlt). by destruct (run (Done pq) os).
  - rewrite (replay_waits hist pq v) by done.
    specialize (IH _ _ Hwf Hv Hlt). by destruct (run pq os).
Qed.

(** A missing part: something is queued but [next] never comes. *)
Lemma gap_stuck hist pq os :
  wf hist pq → queue pq ≠ [] → next pq ∉ queue pq → next pq ∉ pushed os →
  fst (run pq os) = [].
Proof.
  revert hist pq. induction os as [|o os IH]; intros hist pq Hwf Hne Hq Hp; [done|]. simpl.
  destruct o as [w| |]; simpl in *.
  - apply not_elem_of_cons in Hp as [Hw Hp].
    specialize (IH _ _ (wf_Push _ w _ Hwf)). simpl in IH.
    destruct (run (Push w pq) os); simpl in *. apply IH; [..|done].
    + intros E. pose proof (heap_push_perm Z.ltb (queue pq) w) as Hpm. rewrite E in Hpm.
      by apply Permutation_nil_cons in Hpm.
    + rewrite heap_push_perm. by apply not_elem_of_cons.
  - specialize (IH _ _ (wf_Done _ _ Hwf) Hne Hq Hp). by destruct (run (Done pq) os).
  - destruct (Popup pq) as [[v pq']|] eqn:E; simpl.
    + destruct (Popup_cases _ _ _ _ Hwf E) as [(_ & _ & ? & _)|(-> & _ & _ & _ & Hq' & _)]; [done|].
      destruct Hq. rewrite Hq'. by left.
    + specialize (IH _ _ Hwf Hne Hq Hp). by destruct (run pq os).
Qed.

(** ** What the queue promises *)

(** C7: whatever order the parts are pushed in and however pushes, [Done] and
    [Popup] interleave, the parts that [Popup] returns are 1, 2, 3, ... without a
    gap, a repetition or an inversion, and every one of them was pushed. *)
Theorem parts_in_order os :
  ∃ n, parts_of (fst (run New os)) = zseq 1 n ∧ zseq 1 n ⊆ pushed os.
Proof.
  destruct (run New os) as [outs pq] eqn:E.
  destruct (run_in_order [] New os outs pq wf_New E) as (n & Hn & Hx & Hw).
  exists n. split; [done|]. intros v Hv. simpl in *.
  rewrite (wf_hist _ _ Hw). apply elem_of_app. left. by replace (Z.to_nat _) with n by lia.
Qed.

(** Once the parts 1 to n have been pushed, in any order and with any
    [Popup]s in between, and [Done] has been called, further [Popup]s all return:
    in total exactly the parts 1, ..., n in order, and then the end marker -1 as
    often as it is asked for. *)
Theorem all_parts_delivered n os j :
  1 ≤ n → pushed os ≡ₚ zseq 1 n → ODone ∉ os →
  ∃ m, m ≤ n ∧
    fst (run New (os ++ ODone :: replicate (n - m + j) OPopup)) =
    zseq 1 n ++ replicate j (-1)%Z ∧ fst (run New os) = zseq 1 m.
Proof.
  intros Hn Hp Hd. destruct (run New os) as [outs pq] eqn:E.
  destruct (run_in_order [] New os outs pq wf_New E) as (m & Hm & Hx & Hw). simpl in Hw, Hx, Hm.
  destruct (wf_queue_rest n pq _ Hw Hp) as (k & Hk & Hq).
  exists m. replace (Z.to_nat (next pq - 1)) with m in Hk by lia.
  pose proof (not_done_parts [] New os wf_New eq_refl Hd) as Ho. rewrite E in Ho.
  simpl in Ho. rewrite Hm in Ho. split_and!; [lia|..].
  - rewrite run_app, E. cbn [run step app].
    pose proof (drain n _ k j (Done pq) (wf_Done _ _ Hw) Hp Hn eq_refl Hq) as Hr.
    replace (n - m) with k by lia.
    destruct (run (Done pq) (replicate (k + j) OPopup)) as [o2 pq2]. simpl in *. rewrite Hr.
    rewrite <- Ho, app_assoc. f_equal. by rewrite Hk, zseq_app, Hx.
  - done.
Qed.

(** A part that is uploaded again after it was already handed out blocks the
    queue for ever: no later [Popup] returns, neither a part nor the end marker,
    whatever is pushed and even after [Done]. *)
Theorem replayed_part_blocks os1 v os2 outs pq :
  run New os1 = (outs, pq) → (1 ≤ v < next pq)%Z →
  fst (run pq (OPush v :: os2)) = [].
Proof.
  intros E Hv. destruct (run_in_order [] New os1 outs pq wf_New E) as (n & _ & _ & Hw).
  cbn [run step]. pose proof (replay_stuck _ (Push v pq) v os2 (wf_Push _ v _ Hw)) as Hr.
  simpl in Hr. specialize (Hr ltac:(rewrite heap_push_perm; by left) ltac:(lia)).
  by destruct (run (Push v pq) os2).
Qed.

(** If part [v] is never uploaded but a later one was, [Popup] never returns
    again after part [v - 1], even after [Done]: completing an upload whose part
    numbers have a gap does not terminate. *)
Theorem missing_part_blocks os v w outs pq os2 :
  run New os = (outs, pq) → next pq = v → v ∉ pushed (os ++ os2) → w ∈ pushed os → (v < w)%Z →
  fst (run pq os2) = [].
Proof.
  intros E <- Hv Hw Hlt. destruct (run_in_order [] New os outs pq wf_New E) as (n & _ & _ & Hwf).
  assert (Hps : pushed (os ++ os2) = pushed os ++ pushed os2).
  { clear. induction os as [|[] os IH]; simpl; congruence. }
  rewrite Hps in Hv. apply not_elem_of_app in Hv as [Hv1 Hv2]. simpl in Hwf.
  pose proof (wf_hist _ _ Hwf) as Hh. rewrite Hh in Hw, Hv1.
  apply not_elem_of_app in Hv1 as [_ Hv1]. apply elem_of_app in Hw as [Hw|Hw].
  { apply elem_of_zseq in Hw. pose proof (wf_next _ _ Hwf). lia. }
  eapply gap_stuck; [done| |done|done]. by destruct (queue pq); [apply not_elem_of_nil in Hw|].
Qed.

Lemma all_parts_delivered_witness :
  ∃ m, m ≤ 3 ∧
    fst (run New ([OPush 3; OPopup; OPush 1; OPopup; OPush 2] ++ ODone :: replicate (3 - m + 2) OPopup))
    = zseq 1 3 ++ replicate 2 (-1)%Z ∧
    fst (run New [OPush 3; OPopup; OPush 1; OPopup; OPush 2]) = zseq 1 m.
Proof.
  apply (all_parts_delivered 3 [OPush 3; OPopup; OPush 1; OPopup; OPush 2]%Z 2).
  - lia.
  - exact (Permutation_cons_append [1; 2]%Z 3%Z).
  - apply (bool_decide_unpack _). by vm_compute.
Defined.

Lemma replayed_part_blocks_witness :
  fst (run (mk [] true 2 false) (OPush 1 :: [OPush 2; ODone; OPopup; OPopup])) = [].
Proof. by apply (replayed_part_blocks [OPush 1; OPopup]%Z 1 [OPush 2; ODone; OPopup; OPopup]%Z [1%Z]). Defined.

Lemma missing_part_blocks_witness :
  fst (run (mk [3%Z] true 2 false) [ODone; OPopup; OPopup]) = [].
Proof.
  apply (missing_part_blocks [OPush 1; OPush 3; OPopup]%Z 2 3 [1%Z] (mk [3%Z] true 2 false) [ODone; OPopup; OPopup]).
  - done.
  - done.
  - apply (bool_decide_unpack _). by vm_compute.
  - apply (bool_decide_unpack _). by vm_compute.
  - done.
Defined.
End SeqPriorityQueue.
