(* ===== verification/LRWMutex.v ===== *)
(** * The readers-writer lock of a server process (internal/lsync/lrwmutex.go)

    A lock is a record that every attempt inspects and changes under a mutex, so
    the attempts are atomic steps. [lockLoop] repeats them until its context is
    done; what the other goroutines do meanwhile is an argument. *)

From Stdlib Require Import ZArith Lia Bool.
From S2P Require Import Prelude.

Local Open Scope go_scope.
Local Open Scope Z_scope.

Record LRWMutex := mkLRWMutex { lm_id : string; lm_source : string; lm_isWriteLock : bool; lm_ref : Z }.

Definition NewLRWMutex : LRWMutex := mkLRWMutex "" "" false 0.

Definition lrw_lock (id source : string) (isWriteLock : bool) (lm : LRWMutex) : bool * LRWMutex :=
  let lm := mkLRWMutex id source (lm_isWriteLock lm) (lm_ref lm) in
  if isWriteLock then
    if (lm_ref lm =? 0) && negb (lm_isWriteLock lm) then (true, mkLRWMutex id source true 1) else (false, lm)
  else if negb (lm_isWriteLock lm) then (true, mkLRWMutex id source false (lm_ref lm + 1))
  else (false, lm).

(** One iteration sees whether the context is done, and after a failed attempt
    the other goroutines change the lock; [None] while it still waits. *)
Fixpoint lockLoop (env : list (bool * (LRWMutex → LRWMutex))) (id source : string) (isWriteLock : bool)
    (lm : LRWMutex) : option (bool * LRWMutex) :=
  match env with
  | [] => None
  | (ctxDone, others) :: env =>
      if ctxDone then Some (false, lm)
      else
        let '(locked, lm) := lrw_lock id source isWriteLock lm in
        if locked then Some (true, lm) else lockLoop env id source isWriteLock (others lm)
  end.

(** [Lock] and [RLock] never time out and use the names of the last attempt. *)
Definition Lock env lm := lockLoop env (lm_id lm) (lm_source lm) true lm.
Definition RLock env lm := lockLoop env (lm_id lm) (lm_source lm) false lm.
Definition GetLock env id source lm := lockLoop env id source true lm.
Definition GetRLock env id source lm := lockLoop env id source false lm.

Definition lrw_unlock (isWriteLock : bool) (lm : LRWMutex) : bool * LRWMutex :=
  if isWriteLock then
    if lm_isWriteLock lm && (lm_ref lm =? 1) then (true, mkLRWMutex (lm_id lm) (lm_source lm) false 0)
    else (false, lm)
  else if negb (lm_isWriteLock lm) then
    if 0 <? lm_ref lm then (true, mkLRWMutex (lm_id lm) (lm_source lm) false (lm_ref lm - 1)) else (false, lm)
  else (false, lm).

Definition Unlock (lm : LRWMutex) : outcome () LRWMutex :=
  let '(success, lm) := lrw_unlock true lm in
  if success then Ok lm else Panic "Trying to Unlock() while no Lock() is active".
Definition RUnlock (lm : LRWMutex) : outcome () LRWMutex :=
  let '(success, lm) := lrw_unlock false lm in
  if success then Ok lm else Panic "Trying to RUnlock() while no RLock() is active".

Definition ForceUnlock (lm : LRWMutex) : LRWMutex := mkLRWMutex (lm_id lm) (lm_source lm) false 0.

(** ** The lock among its users *)

(** The steps of goroutines: an attempt, or the release by a holder. *)
Inductive lrw_event := TryLock (id source : string) (isWriteLock : bool) | Release (isWriteLock : bool).

(** The lock with the number of goroutines that hold it to write and to read. *)
Record LockUse := mkUse { u_lock : LRWMutex; u_writers : Z; u_readers : Z }.

(** A release without a holder is no step. *)
Definition lrw_event_step (u : LockUse) (e : lrw_event) : outcome () LockUse :=
  match e with
  | TryLock id source w =>
      let '(locked, lm) := lrw_lock id source w (u_lock u) in
      if locked then
        Ok (if w then mkUse lm (u_writers u + 1) (u_readers u) else mkUse lm (u_writers u) (u_readers u + 1))
      else Ok (mkUse lm (u_writers u) (u_readers u))
  | Release true =>
      if u_writers u <=? 0 then Ok u
      else lm ←? Unlock (u_lock u); Ok (mkUse lm (u_writers u - 1) (u_readers u))
  | Release false =>
      if u_readers u <=? 0 then Ok u
      else lm ←? RUnlock (u_lock u); Ok (mkUse lm (u_writers u) (u_readers u - 1))
  end.

Fixpoint lrw_run (u : LockUse) (es : list lrw_event) : outcome () LockUse :=
  match es with
  | [] => Ok u
  | e :: es => u ←? lrw_event_step u e; lrw_run u es
  end.

(** The record counts the holders. *)
Definition lrw_inv (u : LockUse) : Prop :=
  if lm_isWriteLock (u_lock u) then lm_ref (u_lock u) = 1 ∧ u_writers u = 1 ∧ u_readers u = 0
  else u_writers u = 0 ∧ lm_ref (u_lock u) = u_readers u ∧ 0 ≤ u_readers u.

Lemma lrw_step_inv u e : lrw_inv u → ∃ u', lrw_event_step u e = Ok u' ∧ lrw_inv u'.
Proof.
  destruct u as [[id src w ref] ws rs]. unfold lrw_inv. cbn [u_lock u_writers u_readers lm_isWriteLock lm_ref].
  intros Hi. destruct e as [id' src' w'|w']; cbn [lrw_event_step u_lock u_writers u_readers].
  - unfold lrw_lock. cbn [lm_ref lm_isWriteLock]. destruct w, w'; cbn [negb andb];
      rewrite ?andb_false_r, ?andb_true_r; try (eexists; split; [done|cbn; lia]).
    destruct (Z.eqb_spec ref 0); eexists; (split; [done|cbn; lia]).
  - unfold Unlock, RUnlock, lrw_unlock. cbn [lm_ref lm_isWriteLock lm_id lm_source].
    destruct w, w'; cbn [negb andb]; case_if; destruct_bools; try (eexists; split; [done|cbn; lia]); try lia.
    + destruct (Z.eqb_spec ref 1); [|lia]. eexists; split; [done|cbn; lia].
    + destruct (Z.ltb_spec 0 ref); [|lia]. eexists; split; [done|cbn; lia].
Qed.

Lemma lrw_run_inv u es : lrw_inv u → ∃ u', lrw_run u es = Ok u' ∧ lrw_inv u'.
Proof.
  revert u. induction es as [|e es IH]; intros u Hi; [by exists u|]. cbn [lrw_run].
  destruct (lrw_step_inv u e Hi) as (u' & -> & Hi'). cbn. by apply IH.
Qed.

(** ** Properties *)

(** The lock excludes: after any attempts and releases, in any order, at most
    one goroutine writes and none reads meanwhile, a holder's release never
    panics, and once all have released the lock an attempt of either kind
    succeeds. *)
Theorem rw_lock_exclusive es :
  ∃ u, lrw_run (mkUse NewLRWMutex 0 0) es = Ok u ∧
    0 ≤ u_writers u ≤ 1 ∧ 0 ≤ u_readers u ∧ (u_writers u = 1 → u_readers u = 0) ∧
    (u_writers u = 0 → u_readers u = 0 → ∀ id src w, (lrw_lock id src w (u_lock u)).1 = true).
Proof.
  destruct (lrw_run_inv (mkUse NewLRWMutex 0 0) es) as (u & Hu & Hi); [by cbn|].
  exists u. split; [done|]. revert Hi. unfold lrw_inv, lrw_lock.
  destruct (lm_isWriteLock (u_lock u)) eqn:Hw; intros Hi; split_and!; try lia.
  intros _ Hr id src w. rewrite (proj2 (Z.eqb_eq _ 0)) by (cbn; lia). by destruct w.
Qed.

(** A successful [lockLoop] holds the lock, an unsuccessful one saw its context
    done, and it ends when the context is done at the latest. *)
Theorem lockLoop_ends env id src w lm :
  (∃ d o, (d, o) ∈ env ∧ d = true) →
  ∃ b lm', lockLoop env id src w lm = Some (b, lm') ∧
    (b = true → lm_id lm' = id ∧ lm_source lm' = src ∧ lm_isWriteLock lm' = w ∧ (w = true → lm_ref lm' = 1)).
Proof.
  intros (d & o & Hin & ->). revert lm. induction env as [|[d' o'] env IH]; intros lm; [by apply not_elem_of_nil in Hin|].
  cbn [lockLoop]. destruct d'; [by exists false, lm|].
  apply elem_of_cons in Hin as [[=]|Hin].
  destruct (lrw_lock id src w lm) as [locked lm1] eqn:Hl. destruct locked; [|by apply IH].
  exists true, lm1. split; [done|]. intros _. revert Hl. unfold lrw_lock. cbn [lm_ref lm_isWriteLock].
  destruct w; case_if; try done; intros [= <-]; done.
Qed.
