(* ===== verification/NetLocker.v ===== *)
(** * The interface of lock servers (internal/dsync)

    [LockArgs] and the methods of [NetLocker] that change or read locks. What a
    distributed mutex relies on is stated with the locks of a resource as seen from
    outside: who holds it, and whether to write ([nl_entries]). The expiry of stale
    locks is not a method of the interface but happens on every node. *)

From Stdlib Require Import ZArith Lia Bool.
From S2P Require Import Prelude.

(** [dsync.LockArgs] *)
Record LockArgs := mkLockArgs {
  la_UID : string; la_Resources : list string; la_Source : string; la_Owner : string; la_Quorum : Z
}.

(** A boolean, an error, and the server afterwards. *)
Definition reply (L : Type) : Type := outcome () (bool * option string * L).

Class NetLocker (L : Type) := {
  nl_Lock : Z → LockArgs → L → reply L;
  nl_RLock : Z → LockArgs → L → reply L;
  nl_Unlock : LockArgs → L → reply L;
  nl_RUnlock : LockArgs → L → reply L;
  nl_Refresh : bool → Z → LockArgs → L → reply L;
  nl_ForceUnlock : bool → LockArgs → L → reply L;
  nl_expire : list (string * list Z) → Z → L → option L;
  nl_entries : L → string → list (string * bool);
}.

(** The locks of a resource: one writer, or readers. *)
Definition rw_shape (es : list (string * bool)) : Prop :=
  (∃ u, es = [(u, true)]) ∨ Forall (λ e, e.2 = false) es.

Class NetLockerLaws (L : Type) `{NetLocker L} (ok : L → Prop) := {
  nl_shape l r : ok l → rw_shape (nl_entries l r);
  nl_Lock_spec now args l b err l' : ok l → nl_Lock now args l = Ok (b, err, l') →
    ok l' ∧ ∀ r, if b && bool_decide (r ∈ la_Resources args)
                 then nl_entries l r = [] ∧ nl_entries l' r = [(la_UID args, true)]
                 else nl_entries l' r = nl_entries l r;
  nl_RLock_spec now args l b err l' : ok l → nl_RLock now args l = Ok (b, err, l') →
    ok l' ∧ (b = true → ∃ r, la_Resources args = [r]) ∧
    ∀ r, if b && bool_decide (r ∈ la_Resources args)
         then nl_entries l' r = nl_entries l r ++ [(la_UID args, false)]
         else nl_entries l' r = nl_entries l r;
  nl_Unlock_spec args l b err l' : ok l → nl_Unlock args l = Ok (b, err, l') →
    ok l' ∧ ∀ r, nl_entries l' r = nl_entries l r ∨
                 nl_entries l r = [(la_UID args, true)] ∧ nl_entries l' r = [];
  nl_RUnlock_spec args l b err l' : ok l → nl_RUnlock args l = Ok (b, err, l') →
    ok l' ∧ ∀ r, nl_entries l' r = nl_entries l r ∨
                 ∃ es1 es2, nl_entries l r = es1 ++ (la_UID args, false) :: es2 ∧ nl_entries l' r = es1 ++ es2;
  nl_Refresh_spec d now args l b err l' : ok l → nl_Refresh d now args l = Ok (b, err, l') →
    ok l' ∧ ∀ r, nl_entries l' r = nl_entries l r;
  nl_ForceUnlock_ok d args l b err l' : ok l → nl_ForceUnlock d args l = Ok (b, err, l') → ok l';
  nl_expire_ok keys interval l l' : ok l → nl_expire keys interval l = Some l' → ok l';
}.
