(* ===== verification/LocalLocker.v ===== *)
(** * The lock server of one node (cmd/local-locker.go)

    [localLocker] implements [dsync.NetLocker] (internal/dsync): a map from
    resources to the locks held on them and a map from the ids of lock requests to
    resources. Every method runs under one mutex and is one step here.
    [UTCNow()] is an argument; a method that returns a boolean and an error
    returns both. *)

From Stdlib Require Import ZArith Lia Bool.
From S2P Require Import Prelude GoStrings NetLocker.

Local Open Scope Z_scope.

Record lockRequesterInfo := mkLRI {
  lri_Name : string;
  lri_Writer : bool;
  lri_UID : string;
  lri_Timestamp : Z;
  lri_TimeLastRefresh : Z;
  lri_Source : string;
  lri_Group : bool;
  lri_Owner : string;
  lri_Quorum : Z;
  lri_idx : nat;
}.

Record localLocker := mkLocker {
  lockMap : gmap string (list lockRequesterInfo); lockUID : gmap string string
}.

Definition newLocker : localLocker := mkLocker ∅ ∅.

Definition maxDeleteList : nat := 1000.

Definition isWriteLock (lri : list lockRequesterInfo) : bool :=
  match lri with [e] => lri_Writer e | _ => false end.

Definition lris (l : localLocker) (resource : string) : list lockRequesterInfo :=
  default [] (lockMap l !! resource).

Definition canTakeUnlock (l : localLocker) (resources : list string) : bool :=
  forallb (λ r, isWriteLock (lris l r)) resources.

Definition canTakeLock (l : localLocker) (resources : list string) : bool :=
  forallb (λ r, bool_decide (lockMap l !! r = None)) resources.

Definition formatUUID (s : string) (idx : nat) : string := s +:+ itoa (Z.of_nat idx).

(** The write lock on one of the resources of a request. *)
Definition writeInfo (now : Z) (args : LockArgs) (i : nat) (resource : string) : lockRequesterInfo :=
  mkLRI resource true (la_UID args) now now (la_Source args) (1 <? length (la_Resources args))%nat
    (la_Owner args) (la_Quorum args) i.

Definition takeLock (now : Z) (args : LockArgs) (l : localLocker) (ir : nat * string) : localLocker :=
  let '(i, resource) := ir in
  mkLocker (<[resource := [writeInfo now args i resource]]> (lockMap l))
    (<[formatUUID (la_UID args) i := resource]> (lockUID l)).

Definition locker_Lock (now : Z) (args : LockArgs) (l : localLocker) : bool * option string * localLocker :=
  if (maxDeleteList <? length (la_Resources args))%nat
  then (false, Some "internal error: localLocker.Lock called with more than 1000 resources", l)
  else if negb (canTakeLock l (la_Resources args)) then (false, None, l)
  else (true, None, foldl (takeLock now args) l (imap pair (la_Resources args))).

(** [entry.UID == args.UID && (args.Owner == "" || entry.Owner == args.Owner)] *)
Definition entryMatches (uid owner : string) (e : lockRequesterInfo) : bool :=
  String.eqb (lri_UID e) uid && (String.eqb owner "" || String.eqb (lri_Owner e) owner).

(** The first matching entry, and the list without it. *)
Fixpoint cutEntry (uid owner : string) (lri : list lockRequesterInfo)
    : option (lockRequesterInfo * list lockRequesterInfo) :=
  match lri with
  | [] => None
  | e :: lri =>
      if entryMatches uid owner e then Some (e, lri)
      else match cutEntry uid owner lri with
           | Some (x, rest) => Some (x, e :: rest)
           | None => None
           end
  end.

Definition removeEntry (name uid owner : string) (lri : list lockRequesterInfo) (l : localLocker)
    : bool * localLocker :=
  match cutEntry uid owner lri with
  | None => (false, l)
  | Some (entry, rest) =>
      (true, mkLocker (if (length lri =? 1)%nat then delete name (lockMap l) else <[name := rest]> (lockMap l))
               (delete (formatUUID uid (lri_idx entry)) (lockUID l)))
  end.

(** The loop of [Unlock] over the resources. *)
Fixpoint unlockAll (args : LockArgs) (resources : list string) (reply : bool) (err : option string)
    (l : localLocker) : bool * option string * localLocker :=
  match resources with
  | [] => (reply, err, l)
  | r :: resources =>
      if negb (canTakeUnlock l [r])
      then unlockAll args resources reply (Some ("unlock attempted on a read locked entity: " +:+ r)) l
      else match lockMap l !! r with
           | None => unlockAll args resources reply err l
           | Some lri =>
               let '(removed, l) := removeEntry r (la_UID args) (la_Owner args) lri l in
               unlockAll args resources (removed || reply) err l
           end
  end.

Definition locker_Unlock (args : LockArgs) (l : localLocker) : bool * option string * localLocker :=
  if (maxDeleteList <? length (la_Resources args))%nat
  then (false, Some "internal error: localLocker.Unlock called with more than 1000 resources", l)
  else unlockAll args (la_Resources args) false None l.

Definition readInfo (now : Z) (args : LockArgs) (resource : string) : lockRequesterInfo :=
  mkLRI resource false (la_UID args) now now (la_Source args) false (la_Owner args) (la_Quorum args) 0.

(** [args.Resources[0]] of an empty list panics. *)
Definition locker_RLock (now : Z) (args : LockArgs) (l : localLocker)
    : outcome () (bool * option string * localLocker) :=
  match la_Resources args with
  | [] => Panic "index out of range"
  | _ :: _ :: _ => Ok (false, Some "internal error: localLocker.RLock called with more than one resource", l)
  | [resource] =>
      let info := readInfo now args resource in
      let take lri := mkLocker (<[resource := lri]> (lockMap l)) (<[formatUUID (la_UID args) 0 := resource]> (lockUID l)) in
      match lockMap l !! resource with
      | Some lri => if negb (isWriteLock lri) then Ok (true, None, take (lri ++ [info])) else Ok (false, None, l)
      | None => Ok (true, None, take [info])
      end
  end.

Definition locker_RUnlock (args : LockArgs) (l : localLocker) : outcome () (bool * option string * localLocker) :=
  match la_Resources args with
  | [] => Panic "index out of range"
  | _ :: _ :: _ => Ok (false, Some "internal error: localLocker.RUnlock called with more than one resource", l)
  | [resource] =>
      match lockMap l !! resource with
      | None => Ok (true, None, l)
      | Some lri =>
          if isWriteLock lri
          then Ok (false, Some ("RUnlock attempted on a write locked entity: " +:+ resource), l)
          else Ok (true, None, (removeEntry resource (la_UID args) (la_Owner args) lri l).2)
      end
  end.

(** [ForceUnlock] of all locks of the resources: the ids of one resource. *)
Fixpoint dropUIDs (n idx : nat) (uid : string) (l : localLocker) : localLocker :=
  match n with
  | O => l
  | S n =>
      match lockUID l !! formatUUID uid idx with
      | None => l
      | Some _ => dropUIDs n (S idx) uid (mkLocker (lockMap l) (delete (formatUUID uid idx) (lockUID l)))
      end
  end.

Definition forceUID (resource : string) (l : localLocker) (uid : string) : localLocker :=
  match lockMap l !! resource with
  | None => dropUIDs maxDeleteList 0 uid l
  | Some lri => (removeEntry resource uid "" lri l).2
  end.

Definition forceResource (l : localLocker) (resource : string) : localLocker :=
  match lockMap l !! resource with
  | None => l
  | Some lri => foldl (forceUID resource) l (lri_UID <$> lri)
  end.

(** [ForceUnlock] by id: one iteration per entry of [lockUID]. *)
Fixpoint forceLoop (fuel idx : nat) (uid : string) (l : localLocker) : outcome () (bool * localLocker) :=
  match fuel with
  | O => Panic "out of fuel"
  | S fuel =>
      match lockUID l !! formatUUID uid idx with
      | None => Ok ((0 <? idx)%nat, l)
      | Some resource =>
          match lockMap l !! resource with
          | None => forceLoop fuel (S idx) uid (mkLocker (lockMap l) (delete (formatUUID uid idx) (lockUID l)))
          | Some lri => forceLoop fuel (S idx) uid (removeEntry resource uid "" lri l).2
          end
      end
  end.

Definition locker_ForceUnlock (ctxDone : bool) (args : LockArgs) (l : localLocker)
    : outcome () (bool * option string * localLocker) :=
  if ctxDone then Ok (false, Some "context done", l)
  else if String.eqb (la_UID args) "" then Ok (true, None, foldl forceResource l (la_Resources args))
  else match forceLoop (S (size (lockUID l))) 0 (la_UID args) l with
       | Ok (reply, l) => Ok (reply, None, l)
       | Err e => Err e
       | Panic w => Panic w
       end.

Definition refreshEntry (now : Z) (uid : string) (e : lockRequesterInfo) : lockRequesterInfo :=
  if String.eqb (lri_UID e) uid
  then mkLRI (lri_Name e) (lri_Writer e) (lri_UID e) (lri_Timestamp e) now (lri_Source e) (lri_Group e)
         (lri_Owner e) (lri_Quorum e) (lri_idx e)
  else e.

(** The loop of [Refresh]: the resource of the next iteration is looked up under
    the id of this one. *)
Fixpoint refreshLoop (fuel idx : nat) (now : Z) (uid resource : string) (l : localLocker)
    : outcome () (bool * localLocker) :=
  match fuel with
  | O => Panic "out of fuel"
  | S fuel =>
      let mapID := formatUUID uid idx in
      match lockMap l !! resource with
      | None => Ok ((0 <? idx)%nat, mkLocker (lockMap l) (delete mapID (lockUID l)))
      | Some lri =>
          let l := mkLocker (<[resource := refreshEntry now uid <$> lri]> (lockMap l)) (lockUID l) in
          match lockUID l !! mapID with
          | None => Ok (true, l)
          | Some resource => refreshLoop fuel (S idx) now uid resource l
          end
      end
  end.

Definition locker_Refresh (ctxDone : bool) (now : Z) (args : LockArgs) (l : localLocker)
    : outcome () (bool * option string * localLocker) :=
  if ctxDone then Ok (false, Some "context done", l)
  else match lockUID l !! formatUUID (la_UID args) 0 with
       | None => Ok (false, None, l)
       | Some resource =>
           match refreshLoop (S (size (lockUID l))) 0 now (la_UID args) resource l with
           | Ok (reply, l) => Ok (reply, None, l)
           | Err e => Err e
           | Panic w => Panic w
           end
       end.

(** [expireOldLocks] on one resource: the variable [found] is set once and never
    reset. [times] are the readings of the clock, one per iteration; [None] while
    the loop has not ended. *)
Fixpoint expireKey (times : list Z) (interval : Z) (k : string) (found : bool) (l : localLocker)
    : option localLocker :=
  match times with
  | [] => None
  | now :: times =>
      match lockMap l !! k with
      | None => Some l
      | Some lri =>
          match List.find (λ e, interval <? now - lri_TimeLastRefresh e) lri with
          | Some e =>
              expireKey times interval k true (removeEntry (lri_Name e) (lri_UID e) (lri_Owner e) lri l).2
          | None => if negb found then Some l else expireKey times interval k found l
          end
      end
  end.

(** The keys in the order of the iteration over the map, each with its clock. *)
Fixpoint expireOldLocks (keys : list (string * list Z)) (interval : Z) (l : localLocker) : option localLocker :=
  match keys with
  | [] => Some l
  | (k, times) :: keys =>
      match expireKey times interval k false l with
      | Some l => expireOldLocks keys interval l
      | None => None
      end
  end.

(** ** The states of a lock server *)

(** A resource of the map has locks: one writer, or readers, all under its name. *)
Definition locks_ok (r : string) (lri : list lockRequesterInfo) : Prop :=
  lri ≠ [] ∧ Forall (λ e, lri_Name e = r) lri ∧
  (isWriteLock lri = true ∨ Forall (λ e, lri_Writer e = false) lri).

Definition locker_ok (l : localLocker) : Prop := map_Forall locks_ok (lockMap l).

(** What the locks of a resource say to other nodes: who holds it, and how. *)
Definition entries (l : localLocker) (r : string) : list (string * bool) :=
  (λ e, (lri_UID e, lri_Writer e)) <$> lris l r.

Inductive locker_op :=
  | OpLock (now : Z) (args : LockArgs)
  | OpUnlock (args : LockArgs)
  | OpRLock (now : Z) (args : LockArgs)
  | OpRUnlock (args : LockArgs)
  | OpForceUnlock (ctxDone : bool) (args : LockArgs)
  | OpRefresh (ctxDone : bool) (now : Z) (args : LockArgs)
  | OpExpire (keys : list (string * list Z)) (interval : Z).

(** A call that panics, and an expiry that does not return, leave no next state. *)
Definition locker_step (l : localLocker) (op : locker_op) : option localLocker :=
  let ret r := match r with Ok (_, l') => Some l' | _ => None end in
  match op with
  | OpLock now args => Some (locker_Lock now args l).2
  | OpUnlock args => Some (locker_Unlock args l).2
  | OpRLock now args => ret (locker_RLock now args l)
  | OpRUnlock args => ret (locker_RUnlock args l)
  | OpForceUnlock d args => ret (locker_ForceUnlock d args l)
  | OpRefresh d now args => ret (locker_Refresh d now args l)
  | OpExpire keys interval => expireOldLocks keys interval l
  end.

Fixpoint locker_run (l : localLocker) (ops : list locker_op) : option localLocker :=
  match ops with
  | [] => Some l
  | op :: ops => match locker_step l op with Some l => locker_run l ops | None => None end
  end.

(** ** Lists of locks *)

Lemma isWriteLock_inv lri : isWriteLock lri = true → ∃ e, lri = [e] ∧ lri_Writer e = true.
Proof. destruct lri as [|e [|? ?]]; try done. by exists e. Qed.

Lemma cutEntry_split uid owner lri e rest :
  cutEntry uid owner lri = Some (e, rest) →
  ∃ l1 l2, lri = l1 ++ e :: l2 ∧ rest = l1 ++ l2 ∧ entryMatches uid owner e = true.
Proof.
  revert e rest. induction lri as [|x lri IH]; intros e rest; cbn [cutEntry]; [done|].
  destruct (entryMatches uid owner x) eqn:Hm; [intros [= <- <-]; by exists [], lri|].
  destruct (cutEntry uid owner lri) as [[y r]|] eqn:Hc; [|done]. intros [= <- <-].
  destruct (IH y r eq_refl) as (l1 & l2 & -> & -> & Hy). by exists (x :: l1), l2.
Qed.

Lemma cutEntry_none uid owner lri :
  cutEntry uid owner lri = None → Forall (λ e, entryMatches uid owner e = false) lri.
Proof.
  induction lri as [|x lri IH]; cbn [cutEntry]; [by constructor|].
  destruct (entryMatches uid owner x) eqn:Hm; [done|].
  destruct (cutEntry uid owner lri) as [[y r]|]; [done|]. constructor; auto.
Qed.

Lemma entryMatches_uid uid owner e : entryMatches uid owner e = true → lri_UID e = uid.
Proof. unfold entryMatches. intros H. destruct_bools. by apply String.eqb_eq. Qed.

Lemma locks_ok_cut r l1 l2 e : locks_ok r (l1 ++ e :: l2) → l1 ++ l2 ≠ [] → locks_ok r (l1 ++ l2).
Proof.
  intros (_ & Hn & Hw) Hne. split_and!; [done| |].
  - apply Forall_app in Hn as [? Hn]. apply Forall_cons in Hn as [_ Hn]. by apply Forall_app.
  - right. destruct Hw as [Hw|Hw].
    + apply isWriteLock_inv in Hw as (x & Hx & _). destruct l1 as [|? [|? ?]], l2; try discriminate; done.
    + apply Forall_app in Hw as [? Hw]. apply Forall_cons in Hw as [_ Hw]. by apply Forall_app.
Qed.

(** ** Every operation keeps the states well formed *)

Lemma removeEntry_ok name uid owner lri l :
  lockMap l !! name = Some lri → locker_ok l → locker_ok (removeEntry name uid owner lri l).2.
Proof.
  intros Hl Hok. unfold removeEntry. destruct (cutEntry uid owner lri) as [[e rest]|] eqn:Hc; [|done].
  apply cutEntry_split in Hc as (l1 & l2 & -> & -> & _). cbn [snd]. unfold locker_ok. cbn [lockMap].
  rewrite length_app. cbn [length].
  destruct (Nat.eqb_spec (length l1 + S (length l2)) 1) as [E|E]; [by apply map_Forall_delete|].
  apply map_Forall_insert_2; [|done]. apply (locks_ok_cut _ _ _ e); [by apply Hok|].
  intros [-> ->]%app_eq_nil. by apply E.
Qed.

Lemma takeLock_ok now args l ir : locker_ok l → locker_ok (takeLock now args l ir).
Proof.
  destruct ir as [i r]. intros Hok. unfold locker_ok, takeLock. cbn [lockMap].
  apply map_Forall_insert_2; [|done]. split_and!; [done|by repeat constructor|by left].
Qed.

Lemma foldl_keeps {A B} (P : A → Prop) (f : A → B → A) l a :
  (∀ a b, P a → P (f a b)) → P a → P (foldl f a l).
Proof. intros Hf. revert a. induction l; cbn [foldl]; auto. Qed.

Lemma lock_ok now args l : locker_ok l → locker_ok (locker_Lock now args l).2.
Proof.
  intros Hok. unfold locker_Lock. case_if; [done|]. case_if; [done|]. cbn [snd].
  apply foldl_keeps; auto using takeLock_ok.
Qed.

Lemma unlockAll_ok args rs reply err l : locker_ok l → locker_ok (unlockAll args rs reply err l).2.
Proof.
  revert reply err l. induction rs as [|r rs IH]; intros reply err l Hok; cbn [unlockAll]; [done|].
  case_if; [by apply IH|]. destruct (lockMap l !! r) as [lri|] eqn:Hl; [|by apply IH].
  pose proof (removeEntry_ok r (la_UID args) (la_Owner args) lri l Hl Hok) as Hk.
  destruct (removeEntry _ _ _ _ _) as [b l']. by apply IH.
Qed.

Lemma locks_ok_snoc r lri e :
  locks_ok r lri → isWriteLock lri = false → lri_Name e = r → lri_Writer e = false → locks_ok r (lri ++ [e]).
Proof.
  intros (Hne & Hn & [Hw|Hw]) Hnw He Hr; [congruence|]. split_and!.
  - by destruct lri.
  - apply Forall_app. by repeat constructor.
  - right. apply Forall_app. by repeat constructor.
Qed.

Lemma rlock_ok now args l r l' : locker_ok l → locker_RLock now args l = Ok (r, l') → locker_ok l'.
Proof.
  intros Hok. unfold locker_RLock. destruct (la_Resources args) as [|x [|? ?]]; [done| |by intros [= <- <-]].
  destruct (lockMap l !! x) as [lri|] eqn:Hl; [case_if|]; intros [= <- <-]; try done;
    apply map_Forall_insert_2; try done.
  - apply locks_ok_snoc; [by apply Hok|by destruct_bools|done|done].
  - split_and!; [done|by repeat constructor|right; by repeat constructor].
Qed.

Lemma runlock_ok args l r l' : locker_ok l → locker_RUnlock args l = Ok (r, l') → locker_ok l'.
Proof.
  intros Hok. unfold locker_RUnlock. destruct (la_Resources args) as [|x [|? ?]]; [done| |by intros [= <- <-]].
  destruct (lockMap l !! x) as [lri|] eqn:Hl; [case_if|]; intros [= <- <-]; try done. by apply removeEntry_ok.
Qed.

Lemma dropUIDs_ok n i uid l : locker_ok l → locker_ok (dropUIDs n i uid l).
Proof.
  revert i l. induction n as [|n IH]; intros i l Hok; cbn [dropUIDs]; [done|].
  destruct (lockUID l !! _); [by apply IH|done].
Qed.

Lemma forceResource_ok l r : locker_ok l → locker_ok (forceResource l r).
Proof.
  intros Hok. unfold forceResource. destruct (lockMap l !! r); [|done].
  apply foldl_keeps; [|done]. intros a uid Ha. unfold forceUID.
  destruct (lockMap a !! r) eqn:Hl; [by apply removeEntry_ok|by apply dropUIDs_ok].
Qed.

Lemma forceLoop_ok fuel i uid l b l' : locker_ok l → forceLoop fuel i uid l = Ok (b, l') → locker_ok l'.
Proof.
  revert i l. induction fuel as [|fuel IH]; intros i l Hok; cbn [forceLoop]; [done|].
  destruct (lockUID l !! _) as [r|]; [|by intros [= <- <-]].
  destruct (lockMap l !! r) eqn:Hl; apply IH; [by apply removeEntry_ok|done].
Qed.

Lemma refreshEntry_fields now uid e :
  lri_Name (refreshEntry now uid e) = lri_Name e ∧ lri_Writer (refreshEntry now uid e) = lri_Writer e ∧
  lri_UID (refreshEntry now uid e) = lri_UID e.
Proof. unfold refreshEntry. by case_if. Qed.

Lemma locks_ok_refresh now uid r lri : locks_ok r lri → locks_ok r (refreshEntry now uid <$> lri).
Proof.
  intros (Hne & Hn & Hw). split_and!.
  - by destruct lri.
  - apply Forall_fmap. eapply Forall_impl; [exact Hn|]. intros e He. cbn. by rewrite (proj1 (refreshEntry_fields _ _ _)).
  - destruct Hw as [Hw|Hw]; [left|right].
    + apply isWriteLock_inv in Hw as (e & -> & He). cbn. by rewrite (proj1 (proj2 (refreshEntry_fields _ _ _))).
    + apply Forall_fmap. eapply Forall_impl; [exact Hw|]. intros e He. cbn.
      by rewrite (proj1 (proj2 (refreshEntry_fields _ _ _))).
Qed.

Lemma refreshLoop_ok fuel i now uid r l b l' :
  locker_ok l → refreshLoop fuel i now uid r l = Ok (b, l') → locker_ok l'.
Proof.
  revert i r l. induction fuel as [|fuel IH]; intros i r l Hok; cbn [refreshLoop]; [done|].
  destruct (lockMap l !! r) as [lri|] eqn:Hl; [|by intros [= <- <-]]. cbn [lockUID].
  assert (locker_ok (mkLocker (<[r := refreshEntry now uid <$> lri]> (lockMap l)) (lockUID l))) as Hk
    by (apply map_Forall_insert_2; [apply locks_ok_refresh; by apply Hok|done]).
  destruct (lockUID l !! _); [by apply IH|by intros [= <- <-]].
Qed.

Lemma expireKey_ok times interval k found l l' :
  locker_ok l → expireKey times interval k found l = Some l' → locker_ok l'.
Proof.
  revert found l. induction times as [|now times IH]; intros found l Hok; cbn [expireKey]; [done|].
  destruct (lockMap l !! k) as [lri|] eqn:Hl; [|by intros [= <-]].
  destruct (List.find _ lri) as [e|] eqn:Hf; [|case_if; [by intros [= <-]|by apply IH]].
  apply IH, removeEntry_ok; [|done]. apply List.find_some in Hf as [He _].
  destruct (Hok _ _ Hl) as (_ & Hn & _). rewrite Forall_forall in Hn.
  by rewrite (Hn e) by by apply list_elem_of_In.
Qed.

Lemma expireOldLocks_ok keys interval l l' :
  locker_ok l → expireOldLocks keys interval l = Some l' → locker_ok l'.
Proof.
  revert l. induction keys as [|[k ts] keys IH]; intros l Hok; cbn [expireOldLocks]; [by intros [= <-]|].
  destruct (expireKey ts interval k false l) as [l1|] eqn:He; [|done]. apply IH. by eapply expireKey_ok.
Qed.

Lemma forceUnlock_ok d args l r l' : locker_ok l → locker_ForceUnlock d args l = Ok (r, l') → locker_ok l'.
Proof.
  intros Hok. unfold locker_ForceUnlock. case_if; [by intros [= <- <-]|]. case_if.
  - intros [= <- <-]. apply foldl_keeps; auto using forceResource_ok.
  - destruct (forceLoop _ _ _ _) as [[b l1]| |] eqn:Hf; try done. intros [= <- <-]. by eapply forceLoop_ok.
Qed.

Lemma refresh_ok d now args l r l' : locker_ok l → locker_Refresh d now args l = Ok (r, l') → locker_ok l'.
Proof.
  intros Hok. unfold locker_Refresh. case_if; [by intros [= <- <-]|].
  destruct (lockUID l !! _); [|by intros [= <- <-]].
  destruct (refreshLoop _ _ _ _ _ _) as [[b l1]| |] eqn:Hf; try done. intros [= <- <-]. by eapply refreshLoop_ok.
Qed.

Lemma locker_step_ok l op l' : locker_ok l → locker_step l op = Some l' → locker_ok l'.
Proof.
  intros Hok. destruct op; cbn [locker_step]; intros Hs.
  - injection Hs as <-. by apply lock_ok.
  - injection Hs as <-. unfold locker_Unlock. case_if; [done|]. by apply unlockAll_ok.
  - destruct (locker_RLock _ _ _) as [[r l1]| |] eqn:E; simplify_eq. by eapply rlock_ok.
  - destruct (locker_RUnlock _ _) as [[r l1]| |] eqn:E; simplify_eq. by eapply runlock_ok.
  - destruct (locker_ForceUnlock _ _ _) as [[r l1]| |] eqn:E; simplify_eq. by eapply forceUnlock_ok.
  - destruct (locker_Refresh _ _ _ _) as [[r l1]| |] eqn:E; simplify_eq. by eapply refresh_ok.
  - by eapply expireOldLocks_ok.
Qed.

(** ** The lock server as a [NetLocker] *)

#[global] Instance localLocker_NetLocker : NetLocker localLocker := {
  nl_Lock now args l := Ok (locker_Lock now args l);
  nl_RLock := locker_RLock;
  nl_Unlock args l := Ok (locker_Unlock args l);
  nl_RUnlock := locker_RUnlock;
  nl_Refresh := locker_Refresh;
  nl_ForceUnlock := locker_ForceUnlock;
  nl_expire := expireOldLocks;
  nl_entries := entries;
}.

Lemma entries_insert r lri m u r' :
  entries (mkLocker (<[r := lri]> m) u) r' =
  if decide (r' = r) then (λ e, (lri_UID e, lri_Writer e)) <$> lri else entries (mkLocker m u) r'.
Proof.
  unfold entries, lris. cbn [lockMap].
  case_decide as E; [subst; by rewrite lookup_insert_eq|by rewrite lookup_insert_ne].
Qed.

Lemma entries_delete r m u r' :
  entries (mkLocker (delete r m) u) r' = if decide (r' = r) then [] else entries (mkLocker m u) r'.
Proof.
  unfold entries, lris. cbn [lockMap].
  case_decide as E; [subst; by rewrite lookup_delete_eq|by rewrite lookup_delete_ne].
Qed.

(** The second map has no part in the locks seen from outside. *)
Lemma entries_map l m u : lockMap l = m → entries (mkLocker m u) = entries l.
Proof. by intros <-. Qed.

Lemma entries_shape l r : locker_ok l → rw_shape (entries l r).
Proof.
  intros Hok. unfold entries, lris. destruct (lockMap l !! r) as [lri|] eqn:Hl; [|by right].
  destruct (Hok _ _ Hl) as (_ & _ & [Hw|Hw]); cbn.
  - apply isWriteLock_inv in Hw as (e & -> & He). left. exists (lri_UID e). cbn. by rewrite He.
  - right. by apply Forall_fmap.
Qed.

Lemma canTakeLock_free l rs r : canTakeLock l rs = true → r ∈ rs → entries l r = [].
Proof.
  unfold canTakeLock. rewrite forallb_forall. intros H Hr%list_elem_of_In. specialize (H r Hr).
  destruct_bools. unfold entries, lris. by rewrite H.
Qed.

Lemma takeLocks_entries now args irs l r :
  entries (foldl (takeLock now args) l irs) r =
  if decide (r ∈ irs.*2) then [(la_UID args, true)] else entries l r.
Proof.
  induction irs as [|[i x] irs IH] using rev_ind; [done|].
  rewrite foldl_app. cbn [foldl]. unfold takeLock at 1. rewrite entries_insert.
  rewrite (entries_map _ _ _ eq_refl), IH, fmap_app. cbn.
  destruct (decide (r = x)) as [->|Hne].
  - rewrite decide_True; [done|]. apply elem_of_app. right. by left.
  - destruct (decide (r ∈ irs.*2)) as [Hi|Hi]; [rewrite decide_True|rewrite decide_False]; try done.
    + apply elem_of_app. by left.
    + intros [?|[?|?%not_elem_of_nil]%elem_of_cons]%elem_of_app; done.
Qed.

Lemma lock_entries now args l r :
  if (locker_Lock now args l).1.1 && bool_decide (r ∈ la_Resources args)
  then entries l r = [] ∧ entries (locker_Lock now args l).2 r = [(la_UID args, true)]
  else entries (locker_Lock now args l).2 r = entries l r.
Proof.
  unfold locker_Lock. destruct (maxDeleteList <? _)%nat; [done|].
  destruct (canTakeLock l (la_Resources args)) eqn:E2; [|done]. cbn [negb fst snd andb]. rewrite takeLocks_entries.
  replace ((imap pair (la_Resources args)).*2) with (la_Resources args)
    by (apply list_eq; intros i; rewrite list_lookup_fmap, list_lookup_imap; by destruct (la_Resources args !! i)).
  destruct (bool_decide_reflect (r ∈ la_Resources args)); [|by rewrite decide_False].
  rewrite decide_True by done. split; [|done]. by eapply canTakeLock_free.
Qed.

(** The removal of one lock of a resource. *)
Lemma removeEntry_entries r uid owner lri l r' :
  lockMap l !! r = Some lri →
  entries (removeEntry r uid owner lri l).2 r' = entries l r' ∨
  r' = r ∧ ∃ es1 w es2, entries l r = es1 ++ (uid, w) :: es2 ∧
    entries (removeEntry r uid owner lri l).2 r = es1 ++ es2.
Proof.
  intros Hl. unfold removeEntry. destruct (cutEntry uid owner lri) as [[e rest]|] eqn:Hc; [|by left].
  apply cutEntry_split in Hc as (l1 & l2 & -> & -> & Hm). apply entryMatches_uid in Hm as <-. cbn [snd].
  destruct (decide (r' = r)) as [->|Hne].
  - right. split; [done|]. exists ((λ e, (lri_UID e, lri_Writer e)) <$> l1), (lri_Writer e), ((λ e, (lri_UID e, lri_Writer e)) <$> l2).
    split_and!.
    + unfold entries, lris. rewrite Hl. cbn. by rewrite fmap_app.
    + rewrite length_app. cbn [length]. case_match eqn:E.
      * rewrite entries_delete, decide_True by done. apply Nat.eqb_eq in E. destruct l1, l2; cbn in E; (done || lia).
      * by rewrite entries_insert, decide_True, fmap_app.
  - left. case_match.
    + rewrite entries_delete, decide_False by done. done.
    + rewrite entries_insert, decide_False by done. done.
Qed.

Lemma unlockAll_entries args rs rep err l r :
  locker_ok l →
  entries (unlockAll args rs rep err l).2 r = entries l r ∨
  entries l r = [(la_UID args, true)] ∧ entries (unlockAll args rs rep err l).2 r = [].
Proof.
  revert rep err l. induction rs as [|x rs IH]; intros rep err l Hok; cbn [unlockAll]; [by left|].
  case_if; [by apply IH|]. destruct (lockMap l !! x) as [lri|] eqn:Hl; [|by apply IH].
  pose proof (removeEntry_entries x (la_UID args) (la_Owner args) lri l r Hl) as Hr.
  pose proof (removeEntry_ok x (la_UID args) (la_Owner args) lri l Hl Hok) as Hok'.
  destruct (removeEntry x _ _ lri l) as [b l1]. cbn [snd] in *.
  destruct Hr as [<-|(-> & es1 & w & es2 & H1 & H2)]; [by apply IH|].
  assert (es1 = [] ∧ w = true ∧ es2 = []) as (-> & -> & ->).
  { unfold canTakeUnlock, lris in E. cbn in E. rewrite Hl, andb_true_r in E. cbn in E. destruct_bools.
    apply isWriteLock_inv in E as (e & -> & Hw). unfold entries, lris in H1. rewrite Hl in H1. cbn in H1.
    destruct es1 as [|? [|? ?]]; [|done|done]. injection H1 as ? ? <-. by subst. }
  right. split; [done|]. destruct (IH (b || rep) err l1 Hok') as [->|[Hx _]]; [done|by rewrite H2 in Hx].
Qed.

Lemma rlock_entries now args l b err l' :
  locker_RLock now args l = Ok (b, err, l') →
  (b = true → ∃ r, la_Resources args = [r]) ∧
  ∀ r, if b && bool_decide (r ∈ la_Resources args)
       then entries l' r = entries l r ++ [(la_UID args, false)] else entries l' r = entries l r.
Proof.
  unfold locker_RLock. destruct (la_Resources args) as [|x [|? ?]]; [done| |by intros [= <- <- <-]].
  intros Hr. assert (b = true ∧ l' = mkLocker (<[x := lris l x ++ [readInfo now args x]]> (lockMap l))
      (<[formatUUID (la_UID args) 0 := x]> (lockUID l)) ∨ b = false ∧ l' = l) as [[-> ->]|[-> ->]]; [| |done].
  { unfold lris. destruct (lockMap l !! x) as [lri|]; [destruct (negb _)|]; injection Hr as <- <- <-; auto. }
  split; [by eexists|]. intros r. cbn [andb]. rewrite entries_insert.
  destruct (bool_decide_reflect (r ∈ [x])) as [Hin|Hin].
  - apply list_elem_of_singleton in Hin as ->. rewrite decide_True by done. by rewrite fmap_app.
  - rewrite decide_False; [done|]. intros ->. by apply Hin, list_elem_of_singleton.
Qed.

Lemma runlock_entries args l b err l' r :
  locker_ok l → locker_RUnlock args l = Ok (b, err, l') →
  entries l' r = entries l r ∨
  ∃ es1 es2, entries l r = es1 ++ (la_UID args, false) :: es2 ∧ entries l' r = es1 ++ es2.
Proof.
  intros Hok. unfold locker_RUnlock. destruct (la_Resources args) as [|x [|? ?]]; [done| |intros [= <- <- <-]; by left].
  destruct (lockMap l !! x) as [lri|] eqn:Hl; [|intros [= <- <- <-]; by left].
  destruct (isWriteLock lri) eqn:Hw; [intros [= <- <- <-]; by left|]. intros [= <- <- <-].
  destruct (removeEntry_entries x (la_UID args) (la_Owner args) lri l r Hl) as [->|(-> & es1 & w & es2 & H1 & H2)]; [by left|].
  right. exists es1, es2. split; [|done]. rewrite H1. repeat f_equal.
  destruct (Hok _ _ Hl) as (_ & _ & [?|Hr]); [congruence|]. unfold entries, lris in H1. rewrite Hl in H1. cbn in H1.
  assert ((la_UID args, w) ∈ (λ e, (lri_UID e, lri_Writer e)) <$> lri) as (e & [= _ ->] & He)%list_elem_of_fmap
    by (rewrite H1; apply elem_of_app; right; by left).
  rewrite Forall_forall in Hr. auto.
Qed.

Lemma refreshLoop_entries fuel i now uid x l b l' r :
  refreshLoop fuel i now uid x l = Ok (b, l') → entries l' r = entries l r.
Proof.
  revert i x l. induction fuel as [|fuel IH]; intros i x l; cbn [refreshLoop]; [done|].
  destruct (lockMap l !! x) as [lri|] eqn:Hl; [|by intros [= <- <-]]. cbn [lockUID].
  assert (entries (mkLocker (<[x := refreshEntry now uid <$> lri]> (lockMap l)) (lockUID l)) r = entries l r) as He.
  { rewrite entries_insert. case_decide as E; [|done]. subst. unfold entries, lris. rewrite Hl. cbn.
    rewrite <- list_fmap_compose. apply list_fmap_ext. intros j e _. cbn.
    by destruct (refreshEntry_fields now uid e) as (_ & -> & ->). }
  destruct (lockUID l !! _); [by intros ->%IH|by intros [= <- <-]].
Qed.

#[global] Instance localLocker_laws : NetLockerLaws localLocker locker_ok.
Proof.
  split.
  - intros l r. apply entries_shape.
  - intros now args l b err l' Hok [= Hl]. pose proof (lock_ok now args l Hok) as Hk.
    pose proof (lock_entries now args l) as He. rewrite Hl in Hk, He. done.
  - intros now args l b err l' Hok Hl. split; [by eapply rlock_ok|by eapply rlock_entries].
  - intros args l b err l' Hok [= Hl]. unfold locker_Unlock in Hl.
    destruct (maxDeleteList <? _)%nat; [injection Hl as <- <- <-; split; [done|by left]|].
    pose proof (unlockAll_ok args (la_Resources args) false None l Hok) as Hk.
    pose proof (λ r, unlockAll_entries args (la_Resources args) false None l r Hok) as He.
    rewrite Hl in Hk, He. done.
  - intros args l b err l' Hok Hl. split; [by eapply runlock_ok|]. intros r. by eapply runlock_entries.
  - intros d now args l b err l' Hok Hl. split; [by eapply refresh_ok|]. intros r. revert Hl.
    cbn. unfold locker_Refresh. case_if; [by intros [= <- <- <-]|].
    destruct (lockUID l !! _); [|by intros [= <- <- <-]].
    destruct (refreshLoop _ _ _ _ _ _) as [[b1 l1]| |] eqn:Hf; try done. intros [= <- <- <-]. by eapply refreshLoop_entries.
  - intros d args l b err l' Hok Hl. by eapply forceUnlock_ok.
  - intros keys interval l l'. apply expireOldLocks_ok.
Qed.

(** ** The loops over the ids of a request end *)

#[global] Instance formatUUID_inj uid : Inj (=) (=) (formatUUID uid).
Proof.
  intros i j H%str_app_inj. destruct (itoa_digits (Z.of_nat i)) as (_ & Hi & _); [lia|].
  destruct (itoa_digits (Z.of_nat j)) as (_ & Hj & _); [lia|]. rewrite H, Hj in Hi. injection Hi. lia.
Qed.

Lemma uid_keys_bound (m : gmap string string) uid idx :
  (∀ j, (j < idx)%nat → is_Some (m !! formatUUID uid j)) → (idx ≤ size m)%nat.
Proof.
  intros Hm. rewrite <- size_dom.
  rewrite <- (length_seq idx 0), <- (length_fmap (formatUUID uid)).
  rewrite <- (size_list_to_set (C := gset string)) by (apply NoDup_fmap_2; [apply _|apply NoDup_seq]).
  apply subseteq_size. intros k Hk. apply elem_of_list_to_set, list_elem_of_fmap in Hk as (j & -> & Hj).
  apply elem_of_dom, Hm. apply elem_of_seq in Hj. lia.
Qed.

Lemma forceLoop_fuel (m : gmap string string) fuel idx uid l :
  lockUID l ⊆ m → (∀ j, (j < idx)%nat → is_Some (m !! formatUUID uid j)) → (size m < fuel + idx)%nat →
  ∃ b l', forceLoop fuel idx uid l = Ok (b, l') ∧ lockUID l' ⊆ lockUID l.
Proof.
  revert idx l. induction fuel as [|fuel IH]; intros idx l Hsub Hm Hf; cbn [forceLoop].
  { pose proof (uid_keys_bound m uid idx Hm). lia. }
  destruct (lockUID l !! formatUUID uid idx) as [r|] eqn:Hr; [|by exists (0 <? idx)%nat, l].
  assert (∀ j, (j < S idx)%nat → is_Some (m !! formatUUID uid j)) as Hm'.
  { intros j Hj. destruct (decide (j = idx)) as [->|]; [|apply Hm; lia]. exists r. by eapply lookup_weaken. }
  assert (∀ l1, lockUID l1 ⊆ lockUID l →
    ∃ b l', forceLoop fuel (S idx) uid l1 = Ok (b, l') ∧ lockUID l' ⊆ lockUID l) as Hgo.
  { intros l1 H1. destruct (IH (S idx) l1) as (b & l' & -> & Hl'); [by etrans|done|lia|].
    exists b, l'. split; [done|by etrans]. }
  destruct (lockMap l !! r) as [lri|]; apply Hgo; [|apply delete_subseteq].
  unfold removeEntry. destruct (cutEntry uid "" lri) as [[e rest]|]; [|done]. apply delete_subseteq.
Qed.

Lemma refreshLoop_fuel fuel idx now uid r l :
  (∀ j, (j < idx)%nat → is_Some (lockUID l !! formatUUID uid j)) → (size (lockUID l) < fuel + idx)%nat →
  ∃ b l', refreshLoop fuel idx now uid r l = Ok (b, l').
Proof.
  revert idx r l. induction fuel as [|fuel IH]; intros idx r l Hm Hf; cbn [refreshLoop].
  { pose proof (uid_keys_bound (lockUID l) uid idx Hm). lia. }
  destruct (lockMap l !! r) as [lri|]; [|by eauto]. cbn [lockUID].
  destruct (lockUID l !! formatUUID uid idx) as [r'|] eqn:Hr; [|by eauto].
  apply IH; [|cbn; lia]. intros j Hj. cbn. destruct (decide (j = idx)) as [->|]; [by exists r'|apply Hm; lia].
Qed.

(** ** Expiry *)

Lemma removeEntry_shorter name uid owner lri l :
  lockMap l !! name = Some lri → (∃ e, e ∈ lri ∧ entryMatches uid owner e = true) →
  (length (lris (removeEntry name uid owner lri l).2 name) < length lri)%nat.
Proof.
  intros Hl (e & He & Hm). unfold removeEntry.
  destruct (cutEntry uid owner lri) as [[x rest]|] eqn:Hc.
  - apply cutEntry_split in Hc as (l1 & l2 & -> & -> & _). cbn [snd]. unfold lris. cbn [lockMap].
    rewrite length_app. cbn [length]. case_if; rewrite ?lookup_delete_eq, ?lookup_insert_eq; cbn; [lia|].
    rewrite length_app. lia.
  - apply cutEntry_none in Hc. rewrite Forall_forall in Hc. by rewrite Hc in Hm.
Qed.

(** Once one lock has expired the loop returns only when the resource is free. *)
Lemma expireKey_found times interval k l l' :
  expireKey times interval k true l = Some l' → lockMap l' !! k = None.
Proof.
  revert l. induction times as [|now times IH]; intros l; cbn [expireKey]; [done|].
  destruct (lockMap l !! k) as [lri|] eqn:Hl; [|by intros [= <-]].
  destruct (List.find _ lri); cbn [negb]; apply IH.
Qed.

Lemma entryMatches_self e : entryMatches (lri_UID e) (lri_Owner e) e = true.
Proof. unfold entryMatches. rewrite !String.eqb_refl. apply orb_true_r. Qed.

(** With a clock that outruns every refresh the loop does return. *)
Lemma expireKey_returns times interval k found l :
  locker_ok l → (length (lris l k) < length times)%nat →
  (∀ now e, now ∈ times → e ∈ lris l k → interval < now - lri_TimeLastRefresh e) →
  ∃ l', expireKey times interval k found l = Some l'.
Proof.
  revert found l. induction times as [|now times IH]; intros found l Hok Hlen Hexp; cbn [expireKey length] in *; [lia|].
  unfold lris in Hlen, Hexp. destruct (lockMap l !! k) as [lri|] eqn:Hl; [|by eauto]. cbn [default id from_option] in *.
  destruct (Hok _ _ Hl) as (Hne & Hn & _). rewrite Forall_forall in Hn.
  destruct (List.find _ lri) as [e|] eqn:Hf.
  - apply List.find_some in Hf as [He%list_elem_of_In _]. rewrite (Hn e He).
    apply IH; [by apply removeEntry_ok| |].
    + pose proof (removeEntry_shorter k (lri_UID e) (lri_Owner e) lri l Hl
        (ex_intro _ e (conj He (entryMatches_self e)))). lia.
    + intros t x Ht Hx. apply Hexp; [by right|]. revert Hx. unfold lris, removeEntry.
      destruct (cutEntry _ _ lri) as [[y rest]|] eqn:Hc; cbn [snd]; [|by rewrite Hl].
      apply cutEntry_split in Hc as (l1 & l2 & -> & -> & _). cbn [lockMap].
      case_if; rewrite ?lookup_delete_eq, ?lookup_insert_eq; cbn; [by intros ?%not_elem_of_nil|].
      rewrite !elem_of_app, elem_of_cons. tauto.
  - destruct lri as [|e lri]; [done|]. pose proof (List.find_none _ _ Hf e (or_introl eq_refl)) as Hno.
    cbv beta in Hno. destruct_bools. pose proof (Hexp now e ltac:(by left) ltac:(by left)). lia.
Qed.

(** ** Properties *)

(** C35: in every state a lock server reaches from the empty one, by any requests,
    refreshes, forced releases and expiries, a resource of the map has locks:
    either one writer, or readers only, all recorded under its name. *)
Theorem locker_states_ok ops l : locker_run newLocker ops = Some l → locker_ok l.
Proof.
  assert (locker_ok newLocker) as H0 by apply map_Forall_empty. revert H0. generalize newLocker as s.
  induction ops as [|op ops IH]; intros s Hs; cbn [locker_run]; [by intros [= <-]|].
  destruct (locker_step s op) as [s'|] eqn:E; [|done]. apply IH. by eapply locker_step_ok.
Qed.

Lemma locker_states_ok_witness :
  ∃ l, locker_run newLocker [OpRLock 0 (mkLockArgs "u" ["b/o"] "" "n1" 2); OpRLock 5 (mkLockArgs "v" ["b/o"] "" "n2" 2);
         OpRUnlock (mkLockArgs "u" ["b/o"] "" "n1" 2)] = Some l ∧ entries l "b/o" = [("v", false)] ∧ locker_ok l.
Proof.
  eexists. split; [vm_compute; reflexivity|]. split; [vm_compute; reflexivity|].
  eapply (locker_states_ok [OpRLock 0 (mkLockArgs "u" ["b/o"] "" "n1" 2); OpRLock 5 (mkLockArgs "v" ["b/o"] "" "n2" 2);
         OpRUnlock (mkLockArgs "u" ["b/o"] "" "n1" 2)]). vm_compute. reflexivity.
Defined.

(** C39: the loops of a forced release and of a refresh, which walk over the ids of a
    request until one is missing, end: one more iteration than the server has ids
    is enough, whatever the state, so the calls answer. *)
Theorem uid_loops_end args l now :
  (∃ r, locker_ForceUnlock false args l = Ok r) ∧ (∃ r, locker_Refresh false now args l = Ok r).
Proof.
  unfold locker_ForceUnlock, locker_Refresh. split.
  - case_if; [by eauto|].
    destruct (forceLoop_fuel (lockUID l) (S (size (lockUID l))) 0 (la_UID args) l) as (b & l' & -> & _);
      [done|lia|lia|by eauto].
  - destruct (lockUID l !! _) as [r|]; [|by eauto].
    destruct (refreshLoop_fuel (S (size (lockUID l))) 0 now (la_UID args) r l) as (b & l' & ->); [lia|lia|by eauto].
Qed.

(** The expiry of stale locks drops live ones: [found] is not reset, so once one
    lock of a resource has expired, the loop (under the server's mutex) goes on
    until every lock of the resource has gone, however recently refreshed. *)
Theorem expiry_drops_live_locks l k interval now times lri e l' :
  lockMap l !! k = Some lri → e ∈ lri → interval < now - lri_TimeLastRefresh e →
  expireKey (now :: times) interval k false l = Some l' → lris l' k = [].
Proof.
  intros Hl He Hexp. cbn [expireKey]. rewrite Hl.
  destruct (List.find _ lri) as [x|] eqn:Hf.
  - intros H%expireKey_found. unfold lris. by rewrite H.
  - pose proof (List.find_none _ _ Hf e (proj1 (list_elem_of_In _ _) He)) as Hno. cbv beta in Hno. destruct_bools. lia.
Qed.

(** Two readers: the lock of [u] is stale at 100, the lock of [v] was refreshed at
    99 and goes as well when the clock reaches 170. *)
Lemma expiry_drops_live_locks_witness :
  let l := default newLocker (locker_run newLocker [OpRLock 0 (mkLockArgs "u" ["b/o"] "" "n1" 2);
             OpRLock 99 (mkLockArgs "v" ["b/o"] "" "n2" 2)]) in
  let l' := default newLocker (expireOldLocks [("b/o", [100; 101; 170; 170])] 60 l) in
  entries l "b/o" = [("u", false); ("v", false)] ∧ lris l' "b/o" = [].
Proof.
  intros l l'. split; [vm_compute; reflexivity|].
  eapply (expiry_drops_live_locks l "b/o" 60 100 [101; 170; 170]);
    [vm_compute; reflexivity|apply list_elem_of_In; left; reflexivity|vm_compute; reflexivity|vm_compute; reflexivity].
Defined.
