(* ===== verification/DSync.v ===== *)
(** * The distributed readers-writer mutex (internal/dsync/drwmutex.go)

    A client asks every lock server for the lock and holds it when a quorum has
    granted it. First the decisions of one client, as functions of what it
    receives; then clients and servers together: requests, answers and releases
    travel on their own, may be lost, and are handled in any order. An execution is
    a list of events. Servers are any [NetLocker]. *)

From Stdlib Require Import ZArith Lia Bool.
From S2P Require Import Prelude NetLocker LocalLocker.

Local Open Scope Z_scope.

(** ** Quorums and counting *)

Definition isLocked (uid : string) : bool := negb (String.eqb uid "").

Definition countLocked (locks : list string) : Z := Z.of_nat (length (List.filter isLocked locks)).

Definition checkQuorumLocked (locks : list string) (quorum : Z) : bool := quorum <=? countLocked locks.

Definition checkFailedUnlocks (locks : list string) (tolerance : Z) : bool :=
  let unlocksFailed := countLocked locks in
  if Z.of_nat (length locks) - tolerance =? tolerance then tolerance <=? unlocksFailed
  else tolerance <? unlocksFailed.

(** [lockBlocking]: the quorum of a lock among [n] servers, and the number of
    failures it tolerates. *)
Definition lockQuorum (n : Z) (isReadLock : bool) : Z :=
  let tolerance := n `quot` 2 in
  let quorum := n - tolerance in
  if negb isReadLock && (quorum =? tolerance) then quorum + 1 else quorum.

Definition lockTolerance (n : Z) (isReadLock : bool) : Z := n - lockQuorum n isReadLock.

(** ** One attempt: the loop of [lock] over the answers *)

(** What the loop sees: the answer of a server, with the id when it granted the
    lock, or the end of its time. *)
Inductive lockEvent := Granted (index : nat) (lockUID : string) | TimedOut.

Record attempt := mkAttempt { at_locks : list string; at_i : Z; at_failed : Z }.

Definition newAttempt (n : nat) : attempt := mkAttempt (replicate n "") 0 0.

Definition lock_receive (a : attempt) (ev : lockEvent) : attempt :=
  match ev with
  | Granted index uid =>
      if isLocked uid then mkAttempt (<[index := uid]> (at_locks a)) (at_i a + 1) (at_failed a)
      else mkAttempt (at_locks a) (at_i a + 1) (at_failed a + 1)
  | TimedOut => mkAttempt (at_locks a) (at_i a + 1) (at_failed a + 1)
  end.

(** The loop has ended: all answered, or too many failed. *)
Definition lock_ended (n tolerance : Z) (a : attempt) : bool :=
  (n <=? at_i a) || (tolerance <? at_failed a).

Definition quorumLocked (quorum tolerance : Z) (a : attempt) : bool :=
  checkQuorumLocked (at_locks a) quorum && (at_failed a <=? tolerance).

(** The whole loop; [None] while it waits for more. *)
Fixpoint lock_collect (n tolerance : Z) (a : attempt) (evs : list lockEvent) : option attempt :=
  if lock_ended n tolerance a then Some a
  else match evs with
       | [] => None
       | ev :: evs => lock_collect n tolerance (lock_receive a ev) evs
       end.

(** [lock] among [n] servers, up to the release of what it got. *)
Definition lock_result (n : nat) (isReadLock : bool) (evs : list lockEvent) : option bool :=
  let N := Z.of_nat n in
  match lock_collect N (lockTolerance N isReadLock) (newAttempt n) evs with
  | Some a => Some (quorumLocked (lockQuorum N isReadLock) (lockTolerance N isReadLock) a)
  | None => None
  end.

(** ** Refreshing: the loop of [refreshLock] *)

Inductive refreshResult := Offline | Refreshed (b : bool).

(** [None] when the context is done first. *)
Fixpoint refresh_count (n quorum : Z) (todo : nat) (results : list refreshResult) (lockNotFound lockRefreshed : Z)
    : option Z :=
  match todo with
  | O => Some lockNotFound
  | S todo =>
      match results with
      | [] => None
      | Offline :: results => refresh_count n quorum todo results lockNotFound lockRefreshed
      | Refreshed b :: results =>
          let lockRefreshed := if b then lockRefreshed + 1 else lockRefreshed in
          let lockNotFound := if b then lockNotFound else lockNotFound + 1 in
          if (quorum <=? lockRefreshed) || (n - quorum <? lockNotFound) then Some lockNotFound
          else refresh_count n quorum todo results lockNotFound lockRefreshed
      end
  end.

Definition refreshLock (n : nat) (quorum : Z) (results : list refreshResult) : option bool :=
  match refresh_count (Z.of_nat n) quorum n results 0 0 with
  | Some lockNotFound => Some (Z.of_nat n - quorum <? lockNotFound)
  | None => None
  end.

Section Release.
Context {L : Type} `{NetLocker L}.

(** [sendRelease] to one server, [None] for one that is offline; [reached] says
    whether the call gets through. *)
Definition sendRelease (reached : bool) (c : option L) (owner uid : string) (isReadLock : bool) (names : list string)
    : bool * option L :=
  match c with
  | None => (false, None)
  | Some l =>
      if negb (isLocked uid) || negb reached then (false, c)
      else
        let args := mkLockArgs uid names "" owner 0 in
        match (if isReadLock then nl_RUnlock args l else nl_Unlock args l) with
        | Ok (_, None, l) => (true, Some l)
        | Ok (_, Some _, l) => (false, Some l)
        | _ => (false, c)
        end
  end.

Fixpoint releaseLoop (net : list bool) (owner : string) (isReadLock : bool) (names : list string)
    (locks : list string) (nodes : list (option L)) : list string * list (option L) :=
  match locks, nodes with
  | uid :: locks, c :: nodes =>
      let '(released, c) := sendRelease (default false (head net)) c owner uid isReadLock names in
      let '(locks, nodes) := releaseLoop (tail net) owner isReadLock names locks nodes in
      ((if released then "" else uid) :: locks, c :: nodes)
  | _, _ => (locks, nodes)
  end.

Definition releaseAll (net : list bool) (tolerance : Z) (owner : string) (isReadLock : bool) (names : list string)
    (locks : list string) (nodes : list (option L)) : bool * list string * list (option L) :=
  let '(locks, nodes) := releaseLoop net owner isReadLock names locks nodes in
  (negb (checkFailedUnlocks locks tolerance), locks, nodes).

(** The loop of [Unlock] and [RUnlock]: each round has its own luck with the
    network; [None] while it has not returned. *)
Fixpoint releaseUntil (nets : list (list bool)) (tolerance : Z) (owner : string) (isReadLock : bool)
    (names : list string) (locks : list string) (nodes : list (option L)) : option (list string * list (option L)) :=
  match nets with
  | [] => None
  | net :: nets =>
      match releaseAll net tolerance owner isReadLock names locks nodes with
      | (true, locks, nodes) => Some (locks, nodes)
      | (false, locks, nodes) => releaseUntil nets tolerance owner isReadLock names locks nodes
      end
  end.

End Release.

Record DRWMutex := mkDRWMutex { dm_Names : list string; dm_writeLocks : list string; dm_readLocks : list string }.

(** [Unlock] and [RUnlock]: the locks are copied, so that the mutex keeps them. *)
Definition dm_Unlock {L} `{NetLocker L} (nets : list (list bool)) (owner : string) (isReadLock : bool) (dm : DRWMutex)
    (nodes : list (option L)) : outcome () (option (list (option L))) :=
  let held := if isReadLock then dm_readLocks dm else dm_writeLocks dm in
  if negb (existsb isLocked held)
  then Panic (if isReadLock then "Trying to RUnlock() while no RLock() is active"
              else "Trying to Unlock() while no Lock() is active")
  else Ok (snd <$> releaseUntil nets (Z.of_nat (length nodes) `quot` 2) owner isReadLock (dm_Names dm) held nodes).

(** ** Clients and servers together *)

Inductive phase :=
  | Retrying                       (* between two attempts of [lockBlocking] *)
  | Collecting (a : attempt)       (* in the loop of [lock] *)
  | Held (locks : list string)
  | Releasing (locks : list string). (* in the loop of [Unlock] *)

Record client := mkClient {
  cl_read : bool; cl_names : list string; cl_owner : string; cl_source : string; cl_attempt : nat; cl_phase : phase
}.

(** A request for the lock in its goroutine: no answer yet, or the answer. *)
Record call := mkCall { c_uid : string; c_node : nat; c_attempt : nat; c_reply : option bool }.

Record dstate (L : Type) := mkDState {
  ds_nodes : list L;
  ds_clients : gmap string client;
  ds_calls : list call;
  ds_releases : list (string * nat); (* releases on their way *)
  ds_lost : gset string;             (* clients whose lock expired or was broken *)
}.
Arguments mkDState {L} _ _ _ _ _.
Arguments ds_nodes {L} _.
Arguments ds_clients {L} _.
Arguments ds_calls {L} _.
Arguments ds_releases {L} _.
Arguments ds_lost {L} _.

Inductive event :=
  | EStart (uid : string) (isReadLock : bool) (names : list string) (owner source : string)
  | EAttempt (uid : string)
  | EServe (k : nat) (now : Z) (answered : bool)
  | ELose (k : nat)
  | EReceive (uid : string) (k : nat)
  | ETimeout (uid : string)
  | EDecide (uid : string)
  | EAbandon (k : nat)
  | EUnlock (uid : string)
  | EResend (uid : string)
  | ERelease (k : nat)
  | ELoseRelease (k : nat)
  | ERefresh (i : nat) (ctxDone : bool) (now : Z) (uid : string)
  | EForce (i : nat) (ctxDone : bool) (args : LockArgs)
  | EExpire (i : nat) (keys : list (string * list Z)) (interval : Z).

Section System.
Context {L : Type} `{NetLocker L}.
Implicit Types s : dstate L.

Definition call_args (n : nat) (uid : string) (c : client) : LockArgs :=
  mkLockArgs uid (cl_names c) (cl_source c) (cl_owner c) (lockQuorum (Z.of_nat n) (cl_read c)).
Definition release_args (uid : string) (c : client) : LockArgs :=
  mkLockArgs uid (cl_names c) "" (cl_owner c) 0.

Definition set_phase (c : client) (ph : phase) : client :=
  mkClient (cl_read c) (cl_names c) (cl_owner c) (cl_source c) (cl_attempt c) ph.

Definition with_phase (s : dstate L) (uid : string) (c : client) (ph : phase) : dstate L :=
  mkDState (ds_nodes s) (<[uid := set_phase c ph]> (ds_clients s)) (ds_calls s) (ds_releases s) (ds_lost s).

Definition with_node (s : dstate L) (i : nat) (l : L) : dstate L :=
  mkDState (<[i := l]> (ds_nodes s)) (ds_clients s) (ds_calls s) (ds_releases s) (ds_lost s).
Definition with_calls (s : dstate L) (cs : list call) : dstate L :=
  mkDState (ds_nodes s) (ds_clients s) cs (ds_releases s) (ds_lost s).
Definition with_releases (s : dstate L) (rs : list (string * nat)) : dstate L :=
  mkDState (ds_nodes s) (ds_clients s) (ds_calls s) rs (ds_lost s).

(** The releases for the locks an attempt has got. *)
Definition releases_of (uid : string) (locks : list string) : list (string * nat) :=
  (λ i, (uid, i)) <$> List.filter (λ i, isLocked (default "" (locks !! i))) (seq 0 (length locks)).

(** The number of locks of a request on a resource of a server. *)
Definition held_count (l : L) (r uid : string) (w : bool) : nat :=
  count (λ e, e = (uid, w)) (nl_entries l r).

(** The clients that have fewer locks on a server than before. *)
Definition losers (s : dstate L) (l l' : L) : gset string :=
  dom (filter (λ uc : string * client,
         Exists (λ r, (held_count l' r uc.1 (negb (cl_read uc.2)) < held_count l r uc.1 (negb (cl_read uc.2)))%nat)
           (cl_names uc.2)) (ds_clients s)).

Definition with_losers (s : dstate L) (i : nat) (l l' : L) : dstate L :=
  mkDState (<[i := l']> (ds_nodes s)) (ds_clients s) (ds_calls s) (ds_releases s) (ds_lost s ∪ losers s l l').

Definition collecting (c : client) : bool := match cl_phase c with Collecting _ => true | _ => false end.

(** The step of an event; [None] if it cannot happen. *)
Definition dstep (s : dstate L) (ev : event) : option (dstate L) :=
  let n := length (ds_nodes s) in
  let N := Z.of_nat n in
  match ev with
  | EStart uid isReadLock names owner source =>
      match ds_clients s !! uid with
      | Some _ => None
      | None => Some (mkDState (ds_nodes s) (<[uid := mkClient isReadLock names owner source 0 Retrying]> (ds_clients s))
                        (ds_calls s) (ds_releases s) (ds_lost s))
      end
  | EAttempt uid =>
      c ← ds_clients s !! uid;
      match cl_phase c with
      | Retrying =>
          let c := mkClient (cl_read c) (cl_names c) (cl_owner c) (cl_source c) (S (cl_attempt c)) (Collecting (newAttempt n)) in
          Some (mkDState (ds_nodes s) (<[uid := c]> (ds_clients s))
                  (ds_calls s ++ ((λ i, mkCall uid i (cl_attempt c) None) <$> seq 0 n)) (ds_releases s) (ds_lost s))
      | _ => None
      end
  | EServe k now answered =>
      cl ← ds_calls s !! k;
      c ← ds_clients s !! c_uid cl;
      l ← ds_nodes s !! c_node cl;
      match c_reply cl with
      | Some _ => None
      | None =>
          match (if cl_read c then nl_RLock now (call_args n (c_uid cl) c) l else nl_Lock now (call_args n (c_uid cl) c) l) with
          | Ok (locked, _, l') =>
              let cl := mkCall (c_uid cl) (c_node cl) (c_attempt cl) (Some (answered && locked)) in
              Some (with_calls (with_node s (c_node cl) l') (<[k := cl]> (ds_calls s)))
          | _ => None
          end
      end
  | ELose k =>
      cl ← ds_calls s !! k;
      match c_reply cl with
      | Some _ => None
      | None => Some (with_calls s (<[k := mkCall (c_uid cl) (c_node cl) (c_attempt cl) (Some false)]> (ds_calls s)))
      end
  | EReceive uid k =>
      c ← ds_clients s !! uid;
      cl ← ds_calls s !! k;
      match cl_phase c, c_reply cl with
      | Collecting a, Some b =>
          if negb (lock_ended N (lockTolerance N (cl_read c)) a) && String.eqb (c_uid cl) uid &&
             (c_attempt cl =? cl_attempt c)%nat
          then
            let a := lock_receive a (Granted (c_node cl) (if b then uid else "")) in
            Some (with_calls (with_phase s uid c (Collecting a)) (delete k (ds_calls s)))
          else None
      | _, _ => None
      end
  | ETimeout uid =>
      c ← ds_clients s !! uid;
      match cl_phase c with
      | Collecting a =>
          if negb (lock_ended N (lockTolerance N (cl_read c)) a)
          then Some (with_phase s uid c (Collecting (lock_receive a TimedOut)))
          else None
      | _ => None
      end
  | EDecide uid =>
      c ← ds_clients s !! uid;
      match cl_phase c with
      | Collecting a =>
          if lock_ended N (lockTolerance N (cl_read c)) a then
            if quorumLocked (lockQuorum N (cl_read c)) (lockTolerance N (cl_read c)) a
            then Some (with_phase s uid c (Held (at_locks a)))
            else Some (with_releases (with_phase s uid c Retrying) (ds_releases s ++ releases_of uid (at_locks a)))
          else None
      | _ => None
      end
  | EAbandon k =>
      cl ← ds_calls s !! k;
      c ← ds_clients s !! c_uid cl;
      if collecting c && (c_attempt cl =? cl_attempt c)%nat then None
      else if existsb (λ x, String.eqb (c_uid x) (c_uid cl) && (c_attempt x =? c_attempt cl)%nat &&
                            bool_decide (c_reply x = None)) (ds_calls s) then None
      else
        let rs := if isLocked (c_uid cl) && bool_decide (c_reply cl = Some true) then [(c_uid cl, c_node cl)] else [] in
        Some (with_calls (with_releases s (ds_releases s ++ rs)) (delete k (ds_calls s)))
  | EUnlock uid =>
      c ← ds_clients s !! uid;
      match cl_phase c with
      | Held locks => Some (with_phase s uid c (Releasing locks))
      | _ => None
      end
  | EResend uid =>
      c ← ds_clients s !! uid;
      match cl_phase c with
      | Releasing locks => Some (with_releases s (ds_releases s ++ releases_of uid locks))
      | _ => None
      end
  | ERelease k =>
      '(uid, i) ← ds_releases s !! k;
      c ← ds_clients s !! uid;
      l ← ds_nodes s !! i;
      match (if cl_read c then nl_RUnlock (release_args uid c) l else nl_Unlock (release_args uid c) l) with
      | Ok (_, _, l') => Some (with_releases (with_node s i l') (delete k (ds_releases s)))
      | _ => None
      end
  | ELoseRelease k =>
      match ds_releases s !! k with
      | Some _ => Some (with_releases s (delete k (ds_releases s)))
      | None => None
      end
  | ERefresh i d now uid =>
      l ← ds_nodes s !! i;
      match nl_Refresh d now (mkLockArgs uid [] "" "" 0) l with
      | Ok (_, _, l') => Some (with_node s i l')
      | _ => None
      end
  | EForce i d args =>
      l ← ds_nodes s !! i;
      match nl_ForceUnlock d args l with
      | Ok (_, _, l') => Some (with_losers s i l l')
      | _ => None
      end
  | EExpire i keys interval =>
      l ← ds_nodes s !! i;
      l' ← nl_expire keys interval l;
      Some (with_losers s i l l')
  end.

Fixpoint drun (s : dstate L) (evs : list event) : option (dstate L) :=
  match evs with
  | [] => Some s
  | ev :: evs => s ← dstep s ev; drun s evs
  end.

Definition dinit (nodes : list L) : dstate L := mkDState nodes ∅ [] [] ∅.

End System.

(** ** The readers-writer lock that clients see *)

(** The holders, each with its kind and its resources. *)
Abbreviation holders := (gmap string (bool * list string)).

Definition compatible (h1 h2 : bool * list string) : Prop :=
  (h1.1 = true ∧ h2.1 = true) ∨ ∀ r, r ∈ h1.2 → r ∈ h2.2 → False.

(** Holders leave, or one enters that is compatible with all. *)
Inductive rw_step : holders → holders → Prop :=
  | rw_leave A A' : A' ⊆ A → rw_step A A'
  | rw_enter A u h : A !! u = None → map_Forall (λ _ h', compatible h h') A → rw_step A (<[u := h]> A).

(** The clients that hold the lock and have not lost it. *)
Definition holding {L} (s : dstate L) : holders :=
  omap (λ c, match cl_phase c with Held _ => Some (cl_read c, cl_names c) | _ => None end)
    (filter (λ uc : string * client, uc.1 ∉ ds_lost s) (ds_clients s)).

(** ** What the clients may rely on *)

Lemma lockQuorum_bounds n r : 0 ≤ n → 0 ≤ lockQuorum n r ∧ (1 ≤ n → 1 ≤ lockQuorum n r ≤ n).
Proof.
  intros Hn. unfold lockQuorum. rewrite Z.quot_div_nonneg by lia.
  destruct r; cbn [negb andb]; [|case_if; destruct_bools]; Z.to_euclidean_division_equations; lia.
Qed.

(** A quorum of writers meets every other quorum. *)
Lemma quorums_meet n r : 0 ≤ n → n < lockQuorum n false + lockQuorum n r.
Proof.
  intros Hn. unfold lockQuorum. rewrite Z.quot_div_nonneg by lia.
  destruct r; cbn [negb andb]; case_if; destruct_bools; Z.to_euclidean_division_equations; lia.
Qed.

Lemma countLocked_app l1 l2 : countLocked (l1 ++ l2) = countLocked l1 + countLocked l2.
Proof. unfold countLocked. rewrite List.filter_app, length_app. lia. Qed.

Lemma countLocked_cons x l : countLocked (x :: l) = (if isLocked x then 1 else 0) + countLocked l.
Proof. unfold countLocked. cbn [List.filter]. destruct (isLocked x); cbn [length]; lia. Qed.

Lemma countLocked_nonneg l : 0 ≤ countLocked l ≤ Z.of_nat (length l).
Proof.
  induction l as [|x l IH]; [done|]. rewrite countLocked_cons. cbn [length]. destruct (isLocked x); lia.
Qed.

(** Two arrays that together have more locks than servers share a server. *)
Lemma locks_meet locks1 locks2 :
  length locks1 = length locks2 → Z.of_nat (length locks1) < countLocked locks1 + countLocked locks2 →
  ∃ i u1 u2, locks1 !! i = Some u1 ∧ locks2 !! i = Some u2 ∧ isLocked u1 = true ∧ isLocked u2 = true.
Proof.
  revert locks2. induction locks1 as [|x l1 IH]; intros [|y l2] Hlen Hc; try done.
  rewrite !countLocked_cons in Hc. cbn [length] in *.
  destruct (isLocked x) eqn:Hx, (isLocked y) eqn:Hy; [by exists O, x, y| | |];
    (destruct (IH l2) as (i & u1 & u2 & H1 & H2 & ?); [lia|lia|by exists (S i), u1, u2]).
Qed.

Section Safety.
Context {L : Type} {ok : L → Prop} `{NetLockerLaws L ok}.
Implicit Types s : dstate L.

(** The locks a client has on a server and knows about: answers under way,
    entries of its array, releases under way. *)
Definition phase_claims (ph : phase) (i : nat) : nat :=
  match ph with
  | Collecting a => one_if (isLocked (default "" (at_locks a !! i)) = true)
  | Held locks => one_if (isLocked (default "" (locks !! i)) = true)
  | _ => 0
  end%nat.

Definition call_claims (cs : list call) (u : string) (i : nat) : nat :=
  count (λ c, c_uid c = u ∧ c_node c = i ∧ c_reply c = Some true) cs.

Definition release_claims (rs : list (string * nat)) (u : string) (i : nat) : nat := count (λ x, x = (u, i)) rs.

Definition releasing (ph : phase) : bool := match ph with Releasing _ => true | _ => false end.

(** A client that has not begun to unlock, nor lost its lock, has at least as many
    locks on every server as it knows about. *)
Definition claims_backed (s : dstate L) : Prop := ∀ u c i l r,
  ds_clients s !! u = Some c → u ∉ ds_lost s → releasing (cl_phase c) = false →
  ds_nodes s !! i = Some l → r ∈ cl_names c →
  (call_claims (ds_calls s) u i + release_claims (ds_releases s) u i + phase_claims (cl_phase c) i
   ≤ held_count l r u (negb (cl_read c)))%nat.

Definition phase_ok (n : nat) (c : client) : Prop :=
  match cl_phase c with
  | Collecting a => length (at_locks a) = n
  | Held locks => length locks = n ∧ checkQuorumLocked locks (lockQuorum (Z.of_nat n) (cl_read c)) = true
  | _ => True
  end.

Definition dinv (s : dstate L) : Prop :=
  Forall ok (ds_nodes s) ∧
  Forall (λ c, is_Some (ds_clients s !! c_uid c)) (ds_calls s) ∧
  Forall (λ x, is_Some (ds_clients s !! x.1)) (ds_releases s) ∧
  map_Forall (λ _ c, phase_ok (length (ds_nodes s)) c) (ds_clients s) ∧
  claims_backed s.

(** Two holders of a common resource are both readers. *)
Lemma holders_compatible s u1 c1 locks1 u2 c2 locks2 r :
  dinv s → u1 ≠ u2 → u1 ∉ ds_lost s → u2 ∉ ds_lost s →
  ds_clients s !! u1 = Some c1 → cl_phase c1 = Held locks1 → r ∈ cl_names c1 → cl_read c1 = false →
  ds_clients s !! u2 = Some c2 → cl_phase c2 = Held locks2 → r ∈ cl_names c2 → False.
Proof.
  intros (Hnodes & _ & _ & Hph & Hcl) Hne Hl1 Hl2 Hc1 Hp1 Hr1 Hw Hc2 Hp2 Hr2.
  pose proof (Hph _ _ Hc1) as Hk1. pose proof (Hph _ _ Hc2) as Hk2. unfold phase_ok in Hk1, Hk2.
  rewrite Hp1 in Hk1. rewrite Hp2 in Hk2. destruct Hk1 as [Hn1 Hq1], Hk2 as [Hn2 Hq2].
  unfold checkQuorumLocked in Hq1, Hq2. destruct_bools. rewrite Hw in Hq1.
  pose proof (quorums_meet (Z.of_nat (length (ds_nodes s))) (cl_read c2) ltac:(lia)).
  destruct (locks_meet locks1 locks2) as (i & x1 & x2 & Hi1 & Hi2 & Hx1 & Hx2); [lia|lia|].
  destruct (lookup_lt_is_Some_2 (ds_nodes s) i) as [l Hl]; [apply lookup_lt_Some in Hi1; lia|].
  pose proof (Hcl u1 c1 i l r Hc1 Hl1 ltac:(by rewrite Hp1) Hl Hr1) as B1.
  pose proof (Hcl u2 c2 i l r Hc2 Hl2 ltac:(by rewrite Hp2) Hl Hr2) as B2.
  rewrite Hp1, Hw in B1. rewrite Hp2 in B2. unfold phase_claims, one_if in B1, B2.
  rewrite Hi1 in B1. rewrite Hi2 in B2. cbn in B1, B2. rewrite decide_True in B1 by done. rewrite decide_True in B2 by done.
  destruct (count_elem _ _ (Nat.lt_le_trans 0 1 _ Nat.lt_0_1 ltac:(etrans; [|exact B1]; lia))) as (e1 & He1 & ->).
  destruct (count_elem _ _ (Nat.lt_le_trans 0 1 _ Nat.lt_0_1 ltac:(etrans; [|exact B2]; lia))) as (e2 & He2 & ->).
  rewrite Forall_forall in Hnodes.
  destruct (nl_shape l r (Hnodes l ltac:(by eapply list_elem_of_lookup_2))) as [(u & Hes)|Hes].
  - rewrite Hes in He1, He2. apply list_elem_of_singleton in He1, He2. congruence.
  - rewrite Forall_forall in Hes. by specialize (Hes _ He1).
Qed.

Ltac proj := cbn [ds_nodes ds_clients ds_calls ds_releases ds_lost with_calls with_releases with_phase with_node
  with_losers set_phase cl_read cl_names cl_owner cl_source cl_attempt cl_phase c_uid c_node c_attempt c_reply
  releasing] in *.

(** *** The locks of a server after a call *)

Lemma held_count_eq l l' r u w : nl_entries l' r = nl_entries l r → held_count l' r u w = held_count l r u w.
Proof. unfold held_count. by intros ->. Qed.

Lemma serve_held now args l b err l' (isRead : bool) r u w :
  ok l → (if isRead then nl_RLock now args l else nl_Lock now args l) = Ok (b, err, l') →
  ok l' ∧ (held_count l r u w + one_if (b = true ∧ r ∈ la_Resources args ∧ (u, w) = (la_UID args, negb isRead))
           = held_count l' r u w)%nat.
Proof.
  intros Hok. destruct isRead; cbn [negb]; intros Hs.
  - destruct (nl_RLock_spec _ _ _ _ _ _ Hok Hs) as (Hk & _ & He). split; [done|]. specialize (He r). revert He.
    destruct b; cbn [andb]; [destruct (bool_decide_reflect (r ∈ la_Resources args)) as [Hr|Hr]|];
      intros He; unfold held_count; rewrite He; unfold one_if.
    + rewrite count_app, count_cons. unfold one_if. destruct (decide (_ = (u, w))) as [E|E];
        [rewrite decide_True by done|rewrite decide_False by (intros (_ & _ & E'); congruence)]; cbn; lia.
    + rewrite decide_False by (by intros (_ & ? & _)). lia.
    + rewrite decide_False by (by intros (? & _)). lia.
  - destruct (nl_Lock_spec _ _ _ _ _ _ Hok Hs) as (Hk & He). split; [done|]. specialize (He r). revert He.
    destruct b; cbn [andb]; [destruct (bool_decide_reflect (r ∈ la_Resources args)) as [Hr|Hr]|];
      unfold held_count, one_if.
    + intros [-> ->]. rewrite count_cons. unfold one_if. destruct (decide (_ = (u, w))) as [E|E];
        [rewrite decide_True by done|rewrite decide_False by (intros (_ & _ & E'); congruence)]; cbn; lia.
    + intros ->. rewrite decide_False by (by intros (_ & ? & _)). lia.
    + intros ->. rewrite decide_False by (by intros (? & _)). lia.
Qed.

Lemma release_held args l b err l' (isRead : bool) r u w :
  ok l → (if isRead then nl_RUnlock args l else nl_Unlock args l) = Ok (b, err, l') →
  ok l' ∧ (held_count l r u w ≤ held_count l' r u w + one_if (u = la_UID args))%nat.
Proof.
  intros Hok Hs.
  assert (ok l' ∧ (nl_entries l' r = nl_entries l r ∨ ∃ es1 x es2, nl_entries l r = es1 ++ (la_UID args, x) :: es2 ∧
    nl_entries l' r = es1 ++ es2)) as [Hk He].
  { destruct isRead.
    - destruct (nl_RUnlock_spec _ _ _ _ _ Hok Hs) as [Hk He]. split; [done|].
      destruct (He r) as [->|(es1 & es2 & E1 & E2)]; [by left|right]. by exists es1, false, es2.
    - destruct (nl_Unlock_spec _ _ _ _ _ Hok Hs) as [Hk He]. split; [done|].
      destruct (He r) as [->|[E1 E2]]; [by left|right]. by exists [], true, []. }
  split; [done|]. unfold held_count. destruct He as [->|(es1 & x & es2 & -> & ->)]; [lia|].
  rewrite count_middle. unfold one_if. case_decide as E; [|lia].
  rewrite decide_True by congruence. lia.
Qed.

(** *** The claims after a step *)

(** It is enough that, for each client, the claims grow no more than the locks. *)
Lemma backed_step s s' :
  claims_backed s →
  (∀ u c' i l' r, ds_clients s' !! u = Some c' → u ∉ ds_lost s' → releasing (cl_phase c') = false →
     ds_nodes s' !! i = Some l' → r ∈ cl_names c' →
     ∃ c l, ds_clients s !! u = Some c ∧ (u ∉ ds_lost s) ∧ releasing (cl_phase c) = false ∧ ds_nodes s !! i = Some l ∧
       cl_names c = cl_names c' ∧ cl_read c = cl_read c' ∧
       (call_claims (ds_calls s') u i + release_claims (ds_releases s') u i + phase_claims (cl_phase c') i +
        held_count l r u (negb (cl_read c)) ≤
        call_claims (ds_calls s) u i + release_claims (ds_releases s) u i + phase_claims (cl_phase c) i +
        held_count l' r u (negb (cl_read c)))%nat) →
  claims_backed s'.
Proof.
  intros Hb Hs u c' i l' r Hc Hl Hr Hn Hin.
  destruct (Hs u c' i l' r Hc Hl Hr Hn Hin) as (c & l & H1 & H2 & H3 & H4 & H5 & H6 & H7).
  rewrite <- H6. rewrite <- H5 in Hin. pose proof (Hb u c i l r H1 H2 H3 H4 Hin). lia.
Qed.

(** A client changes its phase, and the calls and releases change with it. *)
Lemma backed_phase s uid c ph calls rels :
  claims_backed s → ds_clients s !! uid = Some c →
  (releasing ph = false → releasing (cl_phase c) = false) →
  (∀ u i, u ≠ uid → call_claims calls u i + release_claims rels u i ≤
     call_claims (ds_calls s) u i + release_claims (ds_releases s) u i)%nat →
  (∀ i, releasing ph = false →
     call_claims calls uid i + release_claims rels uid i + phase_claims ph i ≤
     call_claims (ds_calls s) uid i + release_claims (ds_releases s) uid i + phase_claims (cl_phase c) i)%nat →
  claims_backed (with_calls (with_releases (with_phase s uid c ph) rels) calls).
Proof.
  intros Hb Hc Hr Hother Hself. eapply backed_step; [exact Hb|]. proj.
  intros u c' i l' r Hc' Hl Hrel Hn Hin. destruct (decide (u = uid)) as [->|Hne].
  - rewrite lookup_insert_eq in Hc'. injection Hc' as <-. proj. exists c, l'. split_and!; try done; [by apply Hr|].
    pose proof (Hself i Hrel). lia.
  - rewrite lookup_insert_ne in Hc' by done. exists c', l'. split_and!; try done. pose proof (Hother u i Hne). lia.
Qed.

(** A server changes, and the calls and releases change with it. *)
Lemma backed_node s i l l' calls rels :
  claims_backed s → ds_nodes s !! i = Some l →
  (∀ u c j r, ds_clients s !! u = Some c → u ∉ ds_lost s → r ∈ cl_names c →
     call_claims calls u j + release_claims rels u j + (if decide (j = i) then held_count l r u (negb (cl_read c)) else 0)
     ≤ call_claims (ds_calls s) u j + release_claims (ds_releases s) u j +
       (if decide (j = i) then held_count l' r u (negb (cl_read c)) else 0))%nat →
  claims_backed (with_calls (with_releases (with_node s i l') rels) calls).
Proof.
  intros Hb Hi Hc. eapply backed_step; [exact Hb|]. proj.
  intros u c j lj r Hu Hl Hrel Hn Hin. pose proof (Hc u c j r Hu Hl Hin) as Hj. case_decide as E.
  - subst j. rewrite list_lookup_insert_eq in Hn by (by eapply lookup_lt_Some). injection Hn as <-.
    exists c, l. split_and!; try done. lia.
  - rewrite list_lookup_insert_ne in Hn by done. exists c, lj. split_and!; try done. lia.
Qed.

Lemma phase_claims_receive a i uid j :
  (phase_claims (Collecting (lock_receive a (Granted i uid))) j ≤ phase_claims (Collecting a) j +
   one_if (j = i ∧ isLocked uid = true))%nat.
Proof.
  cbn. unfold one_if. destruct (isLocked uid) eqn:Hu; cbn; [|lia].
  destruct (decide (j = i)) as [->|Hne].
  - rewrite (decide_True (P := i = i ∧ true = true)) by done. case_decide; lia.
  - rewrite list_lookup_insert_ne by done. lia.
Qed.

Lemma releases_of_claims uid locks u i :
  (release_claims (releases_of uid locks) u i ≤
   one_if (u = uid) * one_if (isLocked (default "" (locks !! i)) = true))%nat.
Proof.
  unfold release_claims, releases_of.
  assert (NoDup ((λ j, (uid, j)) <$> List.filter (λ j, isLocked (default "" (locks !! j))) (seq 0 (length locks)))) as Hnd.
  { apply NoDup_fmap_2; [intros x y; congruence|]. apply NoDup_ListNoDup, List.NoDup_filter, NoDup_ListNoDup, NoDup_seq. }
  destruct (decide ((u, i) ∈ (λ j, (uid, j)) <$> List.filter (λ j, isLocked (default "" (locks !! j))) (seq 0 (length locks))))
    as [Hin|Hin].
  - pose proof Hin as (j & [= -> ->] & Hj)%list_elem_of_fmap. apply list_elem_of_In, List.filter_In in Hj as [_ Hj].
    unfold one_if. rewrite decide_True, decide_True by done. unfold count.
    apply list_elem_of_lookup in Hin as (k & Hk). revert Hnd. generalize dependent k.
    generalize ((λ j, (uid, j)) <$> List.filter (λ j, isLocked (default "" (locks !! j))) (seq 0 (length locks))) as xs.
    intros xs k _ Hnd. apply (NoDup_filter (λ x, x = (uid, j))) in Hnd.
    assert (Forall (λ x, x = (uid, j)) (filter (λ x, x = (uid, j)) xs)) as Hall
      by (apply Forall_forall; intros x Hx%list_elem_of_filter; apply Hx).
    destruct (filter _ xs) as [|a [|b ys]]; cbn; [lia|lia|].
    apply Forall_cons in Hall as [-> Hall]. apply Forall_cons in Hall as [-> _].
    apply NoDup_cons in Hnd as [Hnd _]. exfalso. apply Hnd. by left.
  - rewrite (proj2 (count_zero _ _)); [lia|]. apply Forall_forall. intros x Hx ->. done.
Qed.

(** *** The invariant after each event *)

Lemma release_claims_app rs1 rs2 u i :
  release_claims (rs1 ++ rs2) u i = (release_claims rs1 u i + release_claims rs2 u i)%nat.
Proof. apply count_app. Qed.

Lemma release_claims_delete rs k x u i :
  rs !! k = Some x → release_claims rs u i = (one_if (x = (u, i)) + release_claims (delete k rs) u i)%nat.
Proof. intros Hk. unfold release_claims. by rewrite (count_delete _ rs k x Hk). Qed.

Lemma call_claims_delete cs k cl u i :
  cs !! k = Some cl →
  call_claims cs u i = (one_if (c_uid cl = u ∧ c_node cl = i ∧ c_reply cl = Some true) + call_claims (delete k cs) u i)%nat.
Proof. intros Hk. unfold call_claims. by rewrite (count_delete _ cs k cl Hk). Qed.

Lemma call_claims_answer cs k cl b u i :
  cs !! k = Some cl → c_reply cl = None →
  call_claims (<[k := mkCall (c_uid cl) (c_node cl) (c_attempt cl) (Some b)]> cs) u i =
  (call_claims cs u i + one_if (c_uid cl = u ∧ c_node cl = i ∧ b = true))%nat.
Proof.
  intros Hk Hr. pose proof (count_insert (λ c, c_uid c = u ∧ c_node c = i ∧ c_reply c = Some true) cs k cl
    (mkCall (c_uid cl) (c_node cl) (c_attempt cl) (Some b)) Hk) as E. revert E. unfold call_claims, one_if. proj.
  rewrite (decide_False (P := _ ∧ _ ∧ c_reply cl = Some true)) by (rewrite Hr; by intros (_ & _ & ?)).
  destruct (decide (_ ∧ _ ∧ Some b = Some true)) as [(? & ? & [= ->])|Hn]; [rewrite decide_True by done; lia|].
  rewrite decide_False; [lia|]. intros (? & ? & ->). by apply Hn.
Qed.

(** What holds of the calls and releases when a client is replaced. *)
Lemma clients_insert {A} (f : A → string) (xs : list A) (m : gmap string client) u c :
  Forall (λ x, is_Some (m !! f x)) xs → Forall (λ x, is_Some (<[u := c]> m !! f x)) xs.
Proof.
  intros Hx. eapply Forall_impl; [exact Hx|]. intros x Hs. cbn in *.
  destruct (decide (f x = u)) as [->|]; [by rewrite lookup_insert_eq|by rewrite lookup_insert_ne].
Qed.

Lemma phase_inv s uid c ph calls rels :
  dinv s → ds_clients s !! uid = Some c → phase_ok (length (ds_nodes s)) (set_phase c ph) →
  Forall (λ c, is_Some (ds_clients s !! c_uid c)) calls → Forall (λ x, is_Some (ds_clients s !! x.1)) rels →
  claims_backed (with_calls (with_releases (with_phase s uid c ph) rels) calls) →
  dinv (with_calls (with_releases (with_phase s uid c ph) rels) calls).
Proof.
  intros (Hn & _ & _ & Hp & _) Hc Hph H1 H2 Hb. split_and!; proj; try done.
  - by apply clients_insert.
  - by apply (clients_insert fst).
  - by apply map_Forall_insert_2.
Qed.

Lemma node_inv s i l' calls rels lost :
  dinv s → ok l' →
  Forall (λ c, is_Some (ds_clients s !! c_uid c)) calls → Forall (λ x, is_Some (ds_clients s !! x.1)) rels →
  claims_backed (mkDState (<[i := l']> (ds_nodes s)) (ds_clients s) calls rels lost) →
  dinv (mkDState (<[i := l']> (ds_nodes s)) (ds_clients s) calls rels lost).
Proof.
  intros (Hn & _ & _ & Hp & _) Hk H1 H2 Hb. split_and!; proj; try done; [by apply Forall_insert|].
  by rewrite length_insert.
Qed.

Lemma start_inv s uid isRead names owner source :
  dinv s → ds_clients s !! uid = None →
  dinv (mkDState (ds_nodes s) (<[uid := mkClient isRead names owner source 0 Retrying]> (ds_clients s))
          (ds_calls s) (ds_releases s) (ds_lost s)).
Proof.
  intros (Hn & Hca & Hre & Hp & Hb) Hu. split_and!; proj; try done.
  - by apply clients_insert.
  - by apply (clients_insert fst).
  - by apply map_Forall_insert_2.
  - intros u c i l r Hc Hl Hr Hni Hin. proj. destruct (decide (u = uid)) as [->|Hne].
    + rewrite lookup_insert_eq in Hc. injection Hc as <-. cbn [cl_phase phase_claims].
      unfold call_claims, release_claims. rewrite !(proj2 (count_zero _ _)); [lia| |].
      * eapply Forall_impl; [exact Hre|]. intros x [c Hx] ->. cbn in Hx. congruence.
      * eapply Forall_impl; [exact Hca|]. intros x [c Hx] (<- & _). congruence.
    + rewrite lookup_insert_ne in Hc by done. by eapply Hb.
Qed.

Lemma attempt_inv s uid c :
  dinv s → ds_clients s !! uid = Some c → cl_phase c = Retrying →
  dinv (mkDState (ds_nodes s)
          (<[uid := mkClient (cl_read c) (cl_names c) (cl_owner c) (cl_source c) (S (cl_attempt c))
                      (Collecting (newAttempt (length (ds_nodes s))))]> (ds_clients s))
          (ds_calls s ++ ((λ i, mkCall uid i (S (cl_attempt c)) None) <$> seq 0 (length (ds_nodes s))))
          (ds_releases s) (ds_lost s)).
Proof.
  intros (Hn & Hca & Hre & Hp & Hb) Hu Hph. split_and!; proj; try done.
  - apply Forall_app. split; [by apply clients_insert|]. apply Forall_fmap, Forall_true. intros i. cbn.
    by rewrite lookup_insert_eq.
  - by apply (clients_insert fst).
  - apply map_Forall_insert_2; [|done]. cbn. apply length_replicate.
  - eapply backed_step; [exact Hb|]. proj. intros u c' i l' r Hc Hl Hr Hni Hin.
    assert (call_claims (ds_calls s ++ ((λ i, mkCall uid i (S (cl_attempt c)) None) <$> seq 0 (length (ds_nodes s)))) u i
            = call_claims (ds_calls s) u i) as ->.
    { unfold call_claims. rewrite count_app, (proj2 (count_zero _ (_ <$> _))); [lia|].
      apply Forall_fmap, Forall_true. intros j (_ & _ & [=]). }
    destruct (decide (u = uid)) as [->|Hne].
    + rewrite lookup_insert_eq in Hc. injection Hc as <-. exists c, l'. proj. rewrite Hph. split_and!; try done.
      cbn. unfold one_if. rewrite decide_False; [lia|].
      destruct (replicate _ "" !! i) eqn:E; [by apply lookup_replicate in E as [-> _]|done].
    + rewrite lookup_insert_ne in Hc by done. by exists c', l'.
Qed.

Lemma Forall_delete_at {A} (P : A → Prop) (xs : list A) k : Forall P xs → Forall P (delete k xs).
Proof. intros Hx. rewrite delete_take_drop. apply Forall_app. split; [by apply Forall_take|by apply Forall_drop]. Qed.

Lemma nodes_ok s i l : dinv s → ds_nodes s !! i = Some l → ok l.
Proof. intros (Hn & _) Hi. rewrite Forall_forall in Hn. by eapply Hn, list_elem_of_lookup_2. Qed.

Lemma serve_inv s k cl c l now answered b err l' :
  dinv s → ds_calls s !! k = Some cl → ds_clients s !! c_uid cl = Some c → ds_nodes s !! c_node cl = Some l →
  c_reply cl = None →
  (if cl_read c then nl_RLock now (call_args (length (ds_nodes s)) (c_uid cl) c) l
   else nl_Lock now (call_args (length (ds_nodes s)) (c_uid cl) c) l) = Ok (b, err, l') →
  dinv (with_calls (with_node s (c_node cl) l')
          (<[k := mkCall (c_uid cl) (c_node cl) (c_attempt cl) (Some (answered && b))]> (ds_calls s))).
Proof.
  intros Hi Hk Hc Hl Hr Hs. pose proof (nodes_ok _ _ _ Hi Hl) as Hok. destruct Hi as (Hn & Hca & Hre & Hp & Hb).
  apply (node_inv s (c_node cl) l' _ (ds_releases s) (ds_lost s)); [done|by eapply (serve_held _ _ l _ _ _ _ "" "" true)| |done|].
  { apply Forall_insert; [done|]. by eexists. }
  change (claims_backed (with_calls (with_releases (with_node s (c_node cl) l') (ds_releases s))
    (<[k := mkCall (c_uid cl) (c_node cl) (c_attempt cl) (Some (answered && b))]> (ds_calls s)))).
  apply (backed_node _ _ l); [done|done|]. intros u cu j r Hu Hlo Hin. rewrite call_claims_answer by done.
  destruct (serve_held _ _ _ _ _ _ _ r u (negb (cl_read cu)) Hok Hs) as [_ E]. rewrite <- E.
  destruct (decide (c_uid cl = u ∧ c_node cl = j ∧ answered && b = true)) as [(<- & <- & Ha)|Hno]; cycle 1.
  { rewrite (one_if_false (_ ∧ _ ∧ answered && b = true)) by done. destruct (decide (j = c_node cl)); lia. }
  rewrite Hc in Hu. injection Hu as <-. destruct answered; [|done]. cbn in Ha. subst b.
  rewrite !(decide_True (P := c_node cl = c_node cl)) by done. cbn [la_Resources la_UID call_args].
  rewrite !one_if_true by done. lia.
Qed.

Lemma lose_inv s k cl :
  dinv s → ds_calls s !! k = Some cl → c_reply cl = None →
  dinv (with_calls s (<[k := mkCall (c_uid cl) (c_node cl) (c_attempt cl) (Some false)]> (ds_calls s))).
Proof.
  intros (Hn & Hca & Hre & Hp & Hb) Hk Hr. split_and!; proj; try done.
  - apply Forall_insert; [done|]. cbn. rewrite Forall_forall in Hca. by eapply Hca, list_elem_of_lookup_2.
  - eapply backed_step; [exact Hb|]. proj. intros u c i l r Hc Hl Hrel Hni Hin. exists c, l. split_and!; try done.
    rewrite call_claims_answer, one_if_false by (done || by intros (_ & _ & ?)). lia.
Qed.

Lemma receive_inv s uid k c cl a b :
  dinv s → ds_clients s !! uid = Some c → ds_calls s !! k = Some cl → cl_phase c = Collecting a →
  c_reply cl = Some b → c_uid cl = uid →
  dinv (with_calls (with_phase s uid c (Collecting (lock_receive a (Granted (c_node cl) (if b then uid else "")))))
          (delete k (ds_calls s))).
Proof.
  intros Hi Hc Hk Hph Hr Hu. pose proof Hi as (Hn & Hca & Hre & Hp & Hb).
  apply (phase_inv s uid c _ _ (ds_releases s)); [done|done| |by apply Forall_delete_at|done|].
  { pose proof (Hp _ _ Hc) as Hl. unfold phase_ok in *. rewrite Hph in Hl. cbn.
    destruct (isLocked _); cbn; [by rewrite length_insert|done]. }
  apply backed_phase; [done|done|by rewrite Hph| |].
  - intros u i Hne. rewrite (call_claims_delete (ds_calls s) k cl u i Hk). lia.
  - intros i _. rewrite (call_claims_delete (ds_calls s) k cl uid i Hk), Hph.
    pose proof (phase_claims_receive a (c_node cl) (if b then uid else "") i) as Hpc.
    enough (one_if (i = c_node cl ∧ isLocked (if b then uid else "") = true) ≤
            one_if (c_uid cl = uid ∧ c_node cl = i ∧ c_reply cl = Some true))%nat by lia.
    apply one_if_le. intros [-> E]. split_and!; try done. rewrite Hr. by destruct b.
Qed.

(** A client changes its phase without new claims. *)
Lemma quiet_inv s uid c ph :
  dinv s → ds_clients s !! uid = Some c → phase_ok (length (ds_nodes s)) (set_phase c ph) →
  (releasing ph = false → releasing (cl_phase c) = false ∧ ∀ i, (phase_claims ph i ≤ phase_claims (cl_phase c) i)%nat) →
  dinv (with_phase s uid c ph).
Proof.
  intros Hi Hc Hok Hph. pose proof Hi as (Hn & Hca & Hre & Hp & Hb).
  apply (phase_inv s uid c ph (ds_calls s) (ds_releases s)); try done.
  apply backed_phase; try done; [intros ?; by apply Hph|].
  intros i Hr. pose proof (proj2 (Hph Hr) i). lia.
Qed.

Lemma fail_inv s uid c a :
  dinv s → ds_clients s !! uid = Some c → cl_phase c = Collecting a →
  dinv (with_releases (with_phase s uid c Retrying) (ds_releases s ++ releases_of uid (at_locks a))).
Proof.
  intros Hi Hc Hph. pose proof Hi as (Hn & Hca & Hre & Hp & Hb).
  apply (phase_inv s uid c Retrying (ds_calls s) (ds_releases s ++ releases_of uid (at_locks a))); [done..| |].
  { apply Forall_app. split; [done|]. apply Forall_fmap, Forall_true. by eexists. }
  apply backed_phase; [done|done|by rewrite Hph| |]; intros *.
  - intros Hne. rewrite release_claims_app. pose proof (releases_of_claims uid (at_locks a) u i) as E.
    rewrite (one_if_false (u = uid)) in E by done. lia.
  - intros _. rewrite release_claims_app, Hph. pose proof (releases_of_claims uid (at_locks a) uid i) as E.
    rewrite (one_if_true (uid = uid)) in E by done. cbn [phase_claims]. lia.
Qed.

Lemma abandon_inv s k cl :
  dinv s → ds_calls s !! k = Some cl →
  dinv (with_calls (with_releases s (ds_releases s ++
          (if isLocked (c_uid cl) && bool_decide (c_reply cl = Some true) then [(c_uid cl, c_node cl)] else [])))
          (delete k (ds_calls s))).
Proof.
  intros (Hn & Hca & Hre & Hp & Hb) Hk.
  assert (is_Some (ds_clients s !! c_uid cl)) as Hs by (rewrite Forall_forall in Hca; by eapply Hca, list_elem_of_lookup_2).
  split_and!; proj; try done; [by apply Forall_delete_at| |].
  { apply Forall_app. split; [done|]. destruct (_ && _); by repeat constructor. }
  eapply backed_step; [exact Hb|]. proj. intros u c i l r Hc Hl Hrel Hni Hin. exists c, l. split_and!; try done.
  rewrite (call_claims_delete (ds_calls s) k cl u i Hk), release_claims_app.
  enough (release_claims (if isLocked (c_uid cl) && bool_decide (c_reply cl = Some true) then [(c_uid cl, c_node cl)] else []) u i
          ≤ one_if (c_uid cl = u ∧ c_node cl = i ∧ c_reply cl = Some true))%nat by lia.
  destruct (isLocked (c_uid cl)); cbn [andb]; [|cbn; lia].
  destruct (bool_decide_reflect (c_reply cl = Some true)); [|cbn; lia].
  unfold release_claims. rewrite count_cons. change (count _ []) with O. rewrite Nat.add_0_r.
  apply one_if_le. intros [= -> ->]. done.
Qed.

Lemma resend_inv s uid c locks :
  dinv s → ds_clients s !! uid = Some c → cl_phase c = Releasing locks →
  dinv (with_releases s (ds_releases s ++ releases_of uid locks)).
Proof.
  intros (Hn & Hca & Hre & Hp & Hb) Hc Hph. split_and!; proj; try done.
  { apply Forall_app. split; [done|]. apply Forall_fmap, Forall_true. by eexists. }
  eapply backed_step; [exact Hb|]. proj. intros u c' i l r Hc' Hl Hrel Hni Hin. exists c', l. split_and!; try done.
  assert (u ≠ uid) by (intros ->; rewrite Hc in Hc'; injection Hc' as <-; by rewrite Hph in Hrel).
  rewrite release_claims_app. pose proof (releases_of_claims uid locks u i) as E.
  rewrite (one_if_false (u = uid)) in E by done. lia.
Qed.

Lemma release_inv s k uid i c l b err l' :
  dinv s → ds_releases s !! k = Some (uid, i) → ds_clients s !! uid = Some c → ds_nodes s !! i = Some l →
  (if cl_read c then nl_RUnlock (release_args uid c) l else nl_Unlock (release_args uid c) l) = Ok (b, err, l') →
  dinv (with_releases (with_node s i l') (delete k (ds_releases s))).
Proof.
  intros Hi Hk Hc Hl Hs. pose proof (nodes_ok _ _ _ Hi Hl) as Hok. pose proof Hi as (Hn & Hca & Hre & Hp & Hb).
  apply (node_inv s i l' (ds_calls s) (delete k (ds_releases s)) (ds_lost s));
    [done|by eapply (release_held _ l _ _ _ _ "" "" true)|done|by apply Forall_delete_at|].
  change (claims_backed (with_calls (with_releases (with_node s i l') (delete k (ds_releases s))) (ds_calls s))).
  apply (backed_node s i l); [done|done|]. intros u cu j r Hu Hlo Hin.
  rewrite (release_claims_delete (ds_releases s) k (uid, i) u j Hk).
  destruct (release_held _ _ _ _ _ _ r u (negb (cl_read cu)) Hok Hs) as [_ E]. cbn [la_UID release_args] in E.
  destruct (decide (j = i)) as [->|]; [|lia].
  pose proof (one_if_le (u = uid) ((uid, i) = (u, i)) ltac:(congruence)). lia.
Qed.

Lemma lose_release_inv s k x :
  dinv s → ds_releases s !! k = Some x → dinv (with_releases s (delete k (ds_releases s))).
Proof.
  intros (Hn & Hca & Hre & Hp & Hb) Hk. split_and!; proj; try done; [by apply Forall_delete_at|].
  eapply backed_step; [exact Hb|]. proj. intros u c i l r Hc Hl Hrel Hni Hin. exists c, l. split_and!; try done.
  rewrite (release_claims_delete (ds_releases s) k x u i Hk). lia.
Qed.

Lemma refresh_inv s i l d now args b err l' :
  dinv s → ds_nodes s !! i = Some l → nl_Refresh d now args l = Ok (b, err, l') → dinv (with_node s i l').
Proof.
  intros Hi Hl Hs. pose proof (nodes_ok _ _ _ Hi Hl) as Hok. pose proof Hi as (Hn & Hca & Hre & Hp & Hb).
  destruct (nl_Refresh_spec _ _ _ _ _ _ _ Hok Hs) as [Hk He].
  apply (node_inv s i l' (ds_calls s) (ds_releases s) (ds_lost s)); try done.
  apply (backed_node s i l l' (ds_calls s) (ds_releases s)); [done|done|]. intros u cu j r Hu Hlo Hin.
  by rewrite (held_count_eq l l' r) by apply He.
Qed.

Lemma losers_inv s i l l' : dinv s → ds_nodes s !! i = Some l → ok l' → dinv (with_losers s i l l').
Proof.
  intros Hi Hl Hk. pose proof Hi as (Hn & Hca & Hre & Hp & Hb). apply node_inv; try done.
  eapply backed_step; [exact Hb|]. proj. intros u c j lj r Hc Hlo Hrel Hni Hin.
  apply not_elem_of_union in Hlo as [Hlo Hnl]. destruct (decide (j = i)) as [->|Hne].
  - rewrite list_lookup_insert_eq in Hni by (by eapply lookup_lt_Some). injection Hni as <-.
    exists c, l. split_and!; try done. apply Nat.add_le_mono_l. apply Nat.nlt_ge. intros Hlt. apply Hnl.
    unfold losers. apply elem_of_dom. exists c. apply map_lookup_filter_Some. split; [done|].
    apply Exists_exists. by exists r.
  - rewrite list_lookup_insert_ne in Hni by done. by exists c, lj.
Qed.

Lemma held_ok n c a :
  length (at_locks a) = n →
  quorumLocked (lockQuorum (Z.of_nat n) (cl_read c)) (lockTolerance (Z.of_nat n) (cl_read c)) a = true →
  phase_ok n (set_phase c (Held (at_locks a))).
Proof. intros Hn Hq. apply andb_true_iff in Hq as [Hq _]. done. Qed.

(** Takes the lookups of a step apart. *)
Ltac step_bind Hs :=
  let Hx := fresh "Hx" in let x := fresh "x" in
  apply bind_Some in Hs as (x & Hx & Hs).

Lemma call_step_inv s ev s' :
  match ev with EServe _ _ _ | ELose _ | EReceive _ _ | EAbandon _ => True | _ => False end →
  dinv s → dstep s ev = Some s' → dinv s'.
Proof.
  intros Hev Hi Hs. destruct ev as [| |k now answered|k|uid k| | |k| | | | | | |]; try done; cbn [dstep] in Hs.
  - step_bind Hs. step_bind Hs. step_bind Hs. destruct (c_reply x) eqn:Hr; [done|].
    destruct (if cl_read x0 then _ else _) as [[[b err] l']| |] eqn:Hc; try done. injection Hs as <-. by eapply serve_inv.
  - step_bind Hs. destruct (c_reply x) eqn:Hr; [done|]. injection Hs as <-. by apply lose_inv.
  - step_bind Hs. step_bind Hs. destruct (cl_phase x) as [|a| |] eqn:Hp; try done.
    destruct (c_reply x0) as [b|] eqn:Hr; [|done]. destruct (_ && _ && _) eqn:Hg; [|done]. injection Hs as <-.
    destruct_bools. apply receive_inv; try done. by apply String.eqb_eq.
  - step_bind Hs. step_bind Hs. destruct (collecting x0 && _); [done|]. destruct (existsb _ _); [done|].
    injection Hs as <-. by apply abandon_inv.
Qed.

Lemma client_step_inv s ev s' :
  match ev with
  | EStart _ _ _ _ _ | EAttempt _ | ETimeout _ | EDecide _ | EUnlock _ | EResend _ => True
  | _ => False
  end → dinv s → dstep s ev = Some s' → dinv s'.
Proof.
  intros Hev Hi Hs. pose proof Hi as (_ & _ & _ & Hph & _).
  destruct ev as [uid rd nm ow so|uid| | | |uid|uid| |uid|uid| | | | |]; try done; cbn [dstep] in Hs.
  - destruct (ds_clients s !! uid) eqn:Hu; [done|]. injection Hs as <-. by apply start_inv.
  - step_bind Hs. destruct (cl_phase x) eqn:Hp; try done. injection Hs as <-. by apply attempt_inv.
  - step_bind Hs. destruct (cl_phase x) as [|a| |] eqn:Hp; try done. destruct (negb _); [|done]. injection Hs as <-.
    apply quiet_inv; [done|done| |by rewrite Hp]. pose proof (Hph _ _ Hx) as Hl. unfold phase_ok in *. by rewrite Hp in Hl.
  - step_bind Hs. destruct (cl_phase x) as [|a| |] eqn:Hp; try done. destruct (lock_ended _ _ _); [|done].
    destruct (quorumLocked _ _ a) eqn:Hq; injection Hs as <-; [|by apply fail_inv].
    apply quiet_inv; [done|done| |by rewrite Hp]. apply held_ok; [|done].
    pose proof (Hph _ _ Hx) as Hl. unfold phase_ok in *. by rewrite Hp in Hl.
  - step_bind Hs. destruct (cl_phase x) as [| |locks|] eqn:Hp; try done. injection Hs as <-. by apply quiet_inv.
  - step_bind Hs. destruct (cl_phase x) as [| | |locks] eqn:Hp; try done. injection Hs as <-. by eapply resend_inv.
Qed.

Lemma server_step_inv s ev s' :
  match ev with ERelease _ | ELoseRelease _ | ERefresh _ _ _ _ | EForce _ _ _ | EExpire _ _ _ => True | _ => False end →
  dinv s → dstep s ev = Some s' → dinv s'.
Proof.
  intros Hev Hi Hs. destruct ev as [| | | | | | | | | |k|k|i d now uid|i d args|i keys interval]; try done; cbn [dstep] in Hs.
  - step_bind Hs. destruct x as [uid i]. step_bind Hs. step_bind Hs.
    destruct (if cl_read x then _ else _) as [[[b err] l']| |] eqn:Hc; try done. injection Hs as <-. by eapply release_inv.
  - destruct (ds_releases s !! k) eqn:Hk; [|done]. injection Hs as <-. by eapply lose_release_inv.
  - step_bind Hs. destruct (nl_Refresh _ _ _ _) as [[[b err] l']| |] eqn:Hc; try done. injection Hs as <-. by eapply refresh_inv.
  - step_bind Hs. destruct (nl_ForceUnlock _ _ _) as [[[b err] l']| |] eqn:Hc; try done. injection Hs as <-.
    apply losers_inv; try done. eapply nl_ForceUnlock_ok; [|done]. by eapply nodes_ok.
  - step_bind Hs. step_bind Hs. injection Hs as <-. apply losers_inv; try done. eapply nl_expire_ok; [|done]. by eapply nodes_ok.
Qed.

Lemma dstep_inv s ev s' : dinv s → dstep s ev = Some s' → dinv s'.
Proof.
  destruct ev; (apply call_step_inv; exact I) || (apply client_step_inv; exact I) || (apply server_step_inv; exact I).
Qed.

Lemma dinit_inv nodes : Forall ok nodes → dinv (dinit nodes).
Proof. intros Hn. by split_and!. Qed.

Lemma drun_inv evs s s' : dinv s → drun s evs = Some s' → dinv s'.
Proof.
  revert s. induction evs as [|ev evs IH]; intros s Hi Hs; cbn [drun] in Hs; [by injection Hs as <-|].
  step_bind Hs. eapply IH; [|done]. by eapply dstep_inv.
Qed.

(** *** The refinement *)

Lemma holding_lookup s u h :
  holding s !! u = Some h ↔
  (u ∉ ds_lost s) ∧ ∃ c locks, ds_clients s !! u = Some c ∧ cl_phase c = Held locks ∧ h = (cl_read c, cl_names c).
Proof.
  unfold holding. rewrite lookup_omap, bind_Some. setoid_rewrite map_lookup_filter_Some. split.
  - intros (c & [Hc Hl] & Hh). split; [done|]. destruct (cl_phase c) as [| |locks|] eqn:Hp; try done.
    injection Hh as <-. by exists c, locks.
  - intros (Hl & c & locks & Hc & Hp & ->). exists c. by rewrite Hp.
Qed.

(** The holders of an attempt that succeeds. *)
Lemma enter_refines s s' u :
  dinv s' → (∀ v, v ≠ u → holding s' !! v = holding s !! v) → holding s !! u = None →
  rw_step (holding s) (holding s').
Proof.
  intros Hi Hother Hnone. destruct (holding s' !! u) as [h|] eqn:Hu.
  - assert (holding s' = <[u := h]> (holding s)) as ->.
    { apply map_eq. intros v. destruct (decide (v = u)) as [->|]; [by rewrite lookup_insert_eq|].
      rewrite lookup_insert_ne by done. by apply Hother. }
    apply rw_enter; [done|]. intros v h' Hv.
    assert (v ≠ u) as Hne by (intros ->; congruence). rewrite <- Hother in Hv by done.
    apply holding_lookup in Hu as (Hl1 & c1 & locks1 & Hc1 & Hp1 & ->).
    apply holding_lookup in Hv as (Hl2 & c2 & locks2 & Hc2 & Hp2 & ->). unfold compatible. cbn [fst snd].
    destruct (cl_read c1) eqn:R1, (cl_read c2) eqn:R2; [by left|right..]; intros r Hr1 Hr2.
    + by eapply (holders_compatible s' v c2 locks2 u c1 locks1 r).
    + by eapply (holders_compatible s' u c1 locks1 v c2 locks2 r).
    + by eapply (holders_compatible s' u c1 locks1 v c2 locks2 r).
  - apply rw_leave. apply map_subseteq_spec. intros v h Hv.
    destruct (decide (v = u)) as [->|]; [congruence|]. by rewrite Hother in Hv.
Qed.

(** All other steps let holders leave at most. *)
Lemma leave_refines s s' :
  (∀ u, u ∉ ds_lost s' → u ∉ ds_lost s) →
  (∀ u c' locks, ds_clients s' !! u = Some c' → cl_phase c' = Held locks →
     ∃ c, ds_clients s !! u = Some c ∧ cl_phase c = Held locks ∧ cl_read c = cl_read c' ∧ cl_names c = cl_names c') →
  rw_step (holding s) (holding s').
Proof.
  intros Hl Hc. apply rw_leave. apply map_subseteq_spec. intros u h.
  rewrite !holding_lookup. intros (Hu & c' & locks & Hc' & Hp & ->). split; [auto|].
  destruct (Hc u c' locks Hc' Hp) as (c & H1 & H2 & H3 & H4). exists c, locks. by rewrite H3, H4.
Qed.

Lemma same_clients_refines s s' :
  ds_clients s' = ds_clients s → (∀ u, u ∉ ds_lost s' → u ∉ ds_lost s) → rw_step (holding s) (holding s').
Proof. intros E Hl. apply leave_refines; [done|]. rewrite E. intros u c locks Hc Hp. by exists c. Qed.

Lemma phase_refines s s' uid c :
  ds_clients s' = <[uid := c]> (ds_clients s) → ds_lost s' = ds_lost s → (∀ locks, cl_phase c ≠ Held locks) →
  rw_step (holding s) (holding s').
Proof.
  intros E El Hp. apply leave_refines; [by rewrite El|]. rewrite E. intros u c' locks Hc Hh.
  destruct (decide (u = uid)) as [->|]; [rewrite lookup_insert_eq in Hc; injection Hc as <-; by destruct (Hp locks)|].
  rewrite lookup_insert_ne in Hc by done. by exists c'.
Qed.

Lemma decide_refines s uid c ph ph' :
  dinv (with_phase s uid c ph') → ds_clients s !! uid = Some c → cl_phase c = ph → (∀ locks, ph ≠ Held locks) →
  rw_step (holding s) (holding (with_phase s uid c ph')).
Proof.
  intros Hi Hc Hp Hn. apply (enter_refines _ _ uid); [done| |].
  - intros v Hne. apply option_eq. intros h. rewrite !holding_lookup. proj. by rewrite lookup_insert_ne.
  - destruct (holding s !! uid) eqn:Hh; [|done]. apply holding_lookup in Hh as (_ & c' & locks & Hc' & Hp' & _).
    rewrite Hc in Hc'. injection Hc' as <-. rewrite Hp in Hp'. by destruct (Hn locks).
Qed.

Lemma dstep_refines s ev s' : dinv s → dstep s ev = Some s' → rw_step (holding s) (holding s').
Proof.
  intros Hi Hs. pose proof (dstep_inv _ _ _ Hi Hs) as Hi'.
  destruct ev; cbn [dstep] in Hs.
  - destruct (ds_clients s !! uid); [done|]. injection Hs as <-. by eapply phase_refines.
  - step_bind Hs. destruct (cl_phase x); try done. injection Hs as <-. by eapply phase_refines.
  - do 3 step_bind Hs. destruct (c_reply x); [done|].
    destruct (if cl_read x0 then _ else _) as [[[b err] l']| |]; try done. injection Hs as <-. by apply same_clients_refines.
  - step_bind Hs. destruct (c_reply x); [done|]. injection Hs as <-. by apply same_clients_refines.
  - do 2 step_bind Hs. destruct (cl_phase x); try done. destruct (c_reply x0); [|done]. destruct (_ && _ && _); [|done].
    injection Hs as <-. by eapply phase_refines.
  - step_bind Hs. destruct (cl_phase x); try done. destruct (negb _); [|done]. injection Hs as <-. by eapply phase_refines.
  - step_bind Hs. destruct (cl_phase x) eqn:Hp; try done. destruct (lock_ended _ _ _); [|done].
    destruct (quorumLocked _ _ _); injection Hs as <-; [by eapply decide_refines|by eapply phase_refines].
  - do 2 step_bind Hs. destruct (collecting x0 && _); [done|]. destruct (existsb _ _); [done|]. injection Hs as <-.
    by apply same_clients_refines.
  - step_bind Hs. destruct (cl_phase x); try done. injection Hs as <-. by eapply phase_refines.
  - step_bind Hs. destruct (cl_phase x); try done. injection Hs as <-. by apply same_clients_refines.
  - step_bind Hs. destruct x as [uid i]. do 2 step_bind Hs.
    destruct (if cl_read x then _ else _) as [[[b err] l']| |]; try done. injection Hs as <-. by apply same_clients_refines.
  - destruct (ds_releases s !! k); [|done]. injection Hs as <-. by apply same_clients_refines.
  - step_bind Hs. destruct (nl_Refresh _ _ _ _) as [[[b err] l']| |]; try done. injection Hs as <-. by apply same_clients_refines.
  - step_bind Hs. destruct (nl_ForceUnlock _ _ _) as [[[b err] l']| |]; try done. injection Hs as <-.
    apply same_clients_refines; [done|]. intros u Hu. proj. by apply not_elem_of_union in Hu as [? _].
  - do 2 step_bind Hs. injection Hs as <-. apply same_clients_refines; [done|]. intros u Hu. proj.
    by apply not_elem_of_union in Hu as [? _].
Qed.

Lemma drun_refines evs s s' : dinv s → drun s evs = Some s' → rtc rw_step (holding s) (holding s').
Proof.
  revert s. induction evs as [|ev evs IH]; intros s Hi Hs; cbn [drun] in Hs; [injection Hs as <-; apply rtc_refl|].
  step_bind Hs. eapply rtc_l; [by eapply dstep_refines|]. apply IH; [by eapply dstep_inv|done].
Qed.

End Safety.

(** ** One attempt without time-outs *)

Definition grants (evs : list lockEvent) : Z :=
  Z.of_nat (length (List.filter (λ ev, match ev with Granted _ uid => isLocked uid | TimedOut => false end) evs)).

(** Answers of distinct servers, that exist. *)
Definition answers_of (n : nat) (evs : list lockEvent) : Prop :=
  ∃ ixs, NoDup ixs ∧ Forall2 (λ ev i, (i < n)%nat ∧ ∃ uid, ev = Granted i uid) evs ixs.

Lemma countLocked_insert locks i uid :
  locks !! i = Some "" → isLocked uid = true → countLocked (<[i := uid]> locks) = countLocked locks + 1.
Proof.
  intros Hi Hu. rewrite insert_take_drop by (by eapply lookup_lt_Some).
  rewrite <- (take_drop_middle locks i "" Hi) at 3. rewrite !countLocked_app, !countLocked_cons, Hu. cbn. lia.
Qed.

Lemma grants_cons ev evs :
  grants (ev :: evs) = (match ev with Granted _ uid => if isLocked uid then 1 else 0 | TimedOut => 0 end) + grants evs.
Proof. unfold grants. cbn [List.filter]. destruct ev as [i uid|]; [destruct (isLocked uid)|]; cbn [length]; lia. Qed.

Lemma grants_le evs : grants evs ≤ Z.of_nat (length evs).
Proof. induction evs as [|ev evs IH]; [done|]. rewrite grants_cons. cbn [length]. destruct ev as [i uid|]; [destruct (isLocked uid)|]; lia. Qed.

Lemma lock_collect_answers n r evs ixs a :
  NoDup ixs → Forall2 (λ ev i, (i < n)%nat ∧ ∃ uid, ev = Granted i uid) evs ixs →
  length (at_locks a) = n → Forall (λ i, at_locks a !! i = Some "") ixs →
  at_i a + Z.of_nat (length evs) = Z.of_nat n → at_i a = countLocked (at_locks a) + at_failed a →
  ∃ a', lock_collect (Z.of_nat n) (lockTolerance (Z.of_nat n) r) a evs = Some a' ∧
    quorumLocked (lockQuorum (Z.of_nat n) r) (lockTolerance (Z.of_nat n) r) a' =
    (lockQuorum (Z.of_nat n) r <=? countLocked (at_locks a) + grants evs).
Proof.
  intros Hnd Hev. revert a Hnd. induction Hev as [|ev i evs ixs [Hlt (uid & ->)] Hev IH]; intros a Hnd Hlen Hfree Hi Hc.
  - cbn [length] in Hi. exists a. cbn [lock_collect]. unfold lock_ended, quorumLocked, checkQuorumLocked, lockTolerance in *.
    rewrite (proj2 (Z.leb_le _ _)) by lia. split; [done|]. change (grants []) with 0. rewrite Z.add_0_r.
    destruct (Z.leb_spec (lockQuorum (Z.of_nat n) r) (countLocked (at_locks a))); [|done]. apply Z.leb_le. lia.
  - cbn [lock_collect length] in *. apply NoDup_cons in Hnd as [Hni Hnd]. apply Forall_cons in Hfree as [Hf Hfree].
    rewrite grants_cons. destruct (lock_ended _ _ a) eqn:He.
    + exists a. split; [done|]. unfold lock_ended, quorumLocked, checkQuorumLocked, lockTolerance in *.
      rewrite (proj2 (Z.leb_gt (Z.of_nat n) _)) in He by lia. cbn [orb] in He. destruct_bools.
      rewrite (proj2 (Z.leb_gt (at_failed a) _)), andb_false_r by lia. symmetry. apply Z.leb_gt.
      pose proof (grants_le evs). destruct (isLocked uid); lia.
    + destruct (isLocked uid) eqn:Hu; cbn [lock_receive]; rewrite Hu.
      * destruct (IH (mkAttempt (<[i := uid]> (at_locks a)) (at_i a + 1) (at_failed a))) as (a' & Ha & Hq); cbn [at_locks at_i at_failed].
        -- done.
        -- by rewrite length_insert.
        -- apply Forall_forall. intros j Hj. rewrite list_lookup_insert_ne by (by intros ->).
           rewrite Forall_forall in Hfree. auto.
        -- lia.
        -- rewrite countLocked_insert by done. lia.
        -- exists a'. split; [done|]. rewrite Hq. cbn [at_locks]. rewrite countLocked_insert by done. f_equal. lia.
      * destruct (IH (mkAttempt (at_locks a) (at_i a + 1) (at_failed a + 1))) as (a' & Ha & Hq); cbn [at_locks at_i at_failed];
          [done|done|done|lia|lia|]. exists a'. split; [done|]. rewrite Hq. cbn [at_locks]. f_equal.
Qed.

(** ** Refreshing, once every server has answered or is known to be offline *)

Definition notFound (results : list refreshResult) : Z :=
  Z.of_nat (length (List.filter (λ r, match r with Refreshed false => true | _ => false end) results)).

Lemma notFound_cons r results :
  notFound (r :: results) = (match r with Refreshed false => 1 | _ => 0 end) + notFound results.
Proof. unfold notFound. cbn [List.filter]. destruct r as [|[]]; cbn [length]; lia. Qed.

Lemma notFound_bounds results : 0 ≤ notFound results ≤ Z.of_nat (length results).
Proof.
  induction results as [|r results IH]; [done|]. rewrite notFound_cons. cbn [length]. destruct r as [|[]]; lia.
Qed.

Lemma refresh_count_spec n q results nf rf :
  nf + rf + Z.of_nat (length results) ≤ n → (n - q <? nf) = false →
  ∃ m, refresh_count n q (length results) results nf rf = Some m ∧ (n - q <? m) = (n - q <? nf + notFound results).
Proof.
  revert nf rf. induction results as [|x results IH]; intros nf rf Hn Hq; cbn [refresh_count length] in *.
  { exists nf. by rewrite Z.add_0_r. }
  rewrite notFound_cons. pose proof (notFound_bounds results) as Hb. destruct_bools.
  destruct x as [|b]; [destruct (IH nf rf) as (m & -> & Hm); [lia|by apply Z.ltb_ge|by exists m]|].
  destruct (q <=? _) eqn:E1; [|destruct (n - q <? (if b then nf else nf + 1)) eqn:E2]; cbn [orb]; destruct_bools.
  - eexists. split; [done|]. destruct b; [rewrite !(proj2 (Z.ltb_ge _ _)) by lia; done|].
    rewrite (proj2 (Z.ltb_ge _ (nf + 1))), (proj2 (Z.ltb_ge _ _)) by lia. done.
  - eexists. split; [done|]. destruct b; [lia|]. by rewrite !(proj2 (Z.ltb_lt _ _)) by lia.
  - destruct b.
    + destruct (IH nf (rf + 1)) as (m & -> & Hm); [lia|by apply Z.ltb_ge|]. exists m. split; [done|]. rewrite Hm. f_equal.
    + destruct (IH (nf + 1) rf) as (m & -> & Hm); [lia|by apply Z.ltb_ge|]. exists m. split; [done|]. rewrite Hm. f_equal. lia.
Qed.

(** ** Releasing a lock that the servers have dropped *)

Lemma unlockAll_absent args rs rep err l :
  Forall (λ r, lockMap l !! r = None) rs → (rs ≠ [] ∨ err ≠ None) →
  ∃ e, unlockAll args rs rep err l = (rep, Some e, l).
Proof.
  intros Hall. revert err. induction Hall as [|r rs Hr _ IH]; intros err Hne; cbn [unlockAll].
  - destruct err as [e|]; [by exists e|]. by destruct Hne.
  - unfold canTakeUnlock, lris. cbn [forallb]. rewrite Hr. cbn. apply IH. by right.
Qed.

Definition dropped (names : list string) (c : option localLocker) : Prop :=
  match c with Some l => Forall (λ r, lockMap l !! r = None) names | None => True end.

Lemma sendRelease_dropped reached c owner uid names :
  names ≠ [] → dropped names c → sendRelease reached c owner uid false names = (false, c).
Proof.
  intros Hne. destruct c as [l|]; [|done]. intros Hd. unfold sendRelease. case_if; [done|].
  cbn [nl_Unlock localLocker_NetLocker]. unfold locker_Unlock. cbn [la_Resources]. destruct (_ <? _)%nat; [done|].
  destruct (unlockAll_absent (mkLockArgs uid names "" owner 0) names false None l Hd (or_introl Hne)) as (e & ->). done.
Qed.

Lemma releaseLoop_dropped net owner names locks (nodes : list (option localLocker)) :
  names ≠ [] → Forall (dropped names) nodes → releaseLoop net owner false names locks nodes = (locks, nodes).
Proof.
  intros Hne Hd. revert net locks. induction Hd as [|c nodes Hc _ IH]; intros net [|uid locks]; cbn [releaseLoop]; try done.
  by rewrite sendRelease_dropped, IH.
Qed.

(** ** Properties *)

(** C3: the distributed mutex is a readers-writer lock: whatever the order in which
    servers handle requests, whichever messages are lost and however clients are
    delayed, the holders change as holders of such a lock do (one enters only if
    compatible with all others), so two that share a resource are both readers. A
    holder whose lock expired on a server or was broken there no longer counts. *)
Theorem dsync_refines_rwlock {L} {ok : L → Prop} `{NetLockerLaws L ok} nodes evs s :
  Forall ok nodes → drun (dinit nodes) evs = Some s →
  rtc rw_step ∅ (holding s) ∧
  ∀ u v h1 h2, holding s !! u = Some h1 → holding s !! v = Some h2 → u ≠ v → compatible h1 h2.
Proof.
  intros Hn Hs. pose proof (dinit_inv nodes Hn) as Hi. split; [by apply (drun_refines evs _ s) in Hs|].
  pose proof (drun_inv evs _ s Hi Hs) as Hi'. intros u v h1 h2 Hu Hv Hne.
  apply holding_lookup in Hu as (Hl1 & c1 & locks1 & Hc1 & Hp1 & ->).
  apply holding_lookup in Hv as (Hl2 & c2 & locks2 & Hc2 & Hp2 & ->). unfold compatible. cbn [fst snd].
  destruct (cl_read c1) eqn:R1, (cl_read c2) eqn:R2; [by left|right..]; intros r Hr1 Hr2.
  - by eapply (holders_compatible s v c2 locks2 u c1 locks1 r).
  - by eapply (holders_compatible s u c1 locks1 v c2 locks2 r).
  - by eapply (holders_compatible s u c1 locks1 v c2 locks2 r).
Qed.

(** Three servers: a writer gets two of them while a reader gets the third, times
    out, and gives it back. *)
Definition race : list event :=
  [EStart "w" false ["b/o"] "n1" "PutObject"; EStart "r" true ["b/o"] "n2" "GetObject"; EAttempt "w"; EAttempt "r";
   EServe 0 0 true; EServe 1 0 true; EServe 5 0 true; EServe 2 0 true;
   EReceive "w" 2; EReceive "w" 0; EReceive "w" 0; EDecide "w";
   EReceive "r" 2; ETimeout "r"; ETimeout "r"; EDecide "r"; ERelease 0].

Lemma dsync_refines_rwlock_witness :
  ∃ s, drun (dinit (replicate 3 newLocker)) race = Some s ∧ holding s = {["w" := (false, ["b/o"])]} ∧
    (λ l, entries l "b/o") <$> ds_nodes s = [[("w", true)]; [("w", true)]; []] ∧ rtc rw_step ∅ (holding s).
Proof.
  eexists. split; [vm_compute; reflexivity|]. split; [vm_compute; reflexivity|]. split; [vm_compute; reflexivity|].
  eapply (dsync_refines_rwlock (replicate 3 newLocker) race); [|vm_compute; reflexivity].
  apply Forall_replicate, map_Forall_empty.
Defined.

(** An attempt in which every server answers in time succeeds exactly when a
    quorum grants the lock, whatever the order of the answers. *)
Theorem lock_decides n r evs :
  answers_of n evs → length evs = n → lock_result n r evs = Some (lockQuorum (Z.of_nat n) r <=? grants evs).
Proof.
  intros (ixs & Hnd & Hev) Hlen. unfold lock_result.
  assert (countLocked (replicate n "") = 0) as H0 by (clear; induction n; [done|]; cbn [replicate]; by rewrite countLocked_cons).
  destruct (lock_collect_answers n r evs ixs (newAttempt n) Hnd Hev) as (a & -> & ->); cbn [newAttempt at_locks at_i at_failed].
  - apply length_replicate.
  - apply Forall_forall. intros i Hi. apply list_elem_of_lookup in Hi as (k & Hk).
    destruct (Forall2_lookup_r _ _ _ _ _ Hev Hk) as (ev & _ & Hlt & _). by apply lookup_replicate_2.
  - lia.
  - lia.
  - by rewrite H0.
Qed.

Lemma lock_decides_witness :
  lock_result 4 false [Granted 2 "u"; Granted 0 "u"; Granted 3 ""; Granted 1 "u"] = Some true.
Proof.
  rewrite (lock_decides 4 false); [vm_compute; reflexivity| |reflexivity].
  exists [2; 0; 3; 1]%nat. split; [apply (bool_decide_unpack _); vm_compute; exact I|].
  repeat constructor; lia || by eexists.
Defined.

(** A refresh reports the loss of a lock exactly when too many servers no longer
    have it for a quorum to remain, whatever the order of the answers and however
    many servers are offline. *)
Theorem refresh_decides n quorum results :
  length results = n → 0 ≤ Z.of_nat n - quorum →
  refreshLock n quorum results = Some (Z.of_nat n - quorum <? notFound results).
Proof.
  intros <- Hq. unfold refreshLock.
  destruct (refresh_count_spec (Z.of_nat (length results)) quorum results 0 0) as (m & -> & ->); [lia|by apply Z.ltb_ge|done].
Qed.

Lemma refresh_decides_witness :
  refreshLock 4 3 [Offline; Refreshed false; Refreshed true; Refreshed false] = Some true.
Proof. rewrite (refresh_decides 4 3); [vm_compute; reflexivity|reflexivity|lia]. Defined.

(** When [Unlock] or [RUnlock] returns, the servers that still have the lock are
    so few that a quorum for a writer remains among the others. *)
Theorem release_leaves_quorum {L} `{NetLocker L} nets owner isRead names locks (nodes nodes' : list (option L)) locks' :
  length locks = length nodes →
  releaseUntil nets (Z.of_nat (length nodes) `quot` 2) owner isRead names locks nodes = Some (locks', nodes') →
  length locks' = length nodes ∧
  lockQuorum (Z.of_nat (length nodes)) false ≤ Z.of_nat (length nodes) - countLocked locks'.
Proof.
  intros Hlen. remember (length nodes) as n eqn:Hn. revert locks nodes Hlen Hn.
  assert (∀ net locks nodes, length locks = length nodes →
    length (releaseLoop net owner isRead names locks nodes).1 = length locks ∧
    length (releaseLoop net owner isRead names locks nodes).2 = length nodes) as Hloop.
  { intros net locks. revert net. induction locks as [|u locks IH]; intros net [|c nodes] Hl; try done. cbn [releaseLoop].
    destruct (sendRelease _ _ _ _ _ _) as [b c']. specialize (IH (tail net) nodes).
    destruct (releaseLoop _ _ _ _ locks nodes). cbn in *. lia. }
  induction nets as [|net nets IH]; intros locks nodes Hlen Hn; cbn [releaseUntil]; [done|].
  unfold releaseAll. destruct (Hloop net locks nodes ltac:(lia)) as [H1 H2].
  destruct (releaseLoop net owner isRead names locks nodes) as [locks1 nodes1]. cbn [fst snd] in *.
  destruct (checkFailedUnlocks locks1 _) eqn:Hf; cbn [negb]; [apply IH; lia|]. intros [= <- <-]. split; [lia|].
  unfold checkFailedUnlocks in Hf. unfold lockQuorum. cbn [negb andb].
  rewrite Z.quot_div_nonneg in Hf |- * by lia. rewrite H1, Hlen in Hf.
  destruct (Z.of_nat n - Z.of_nat n `div` 2 =? Z.of_nat n `div` 2) eqn:E; destruct_bools; Z.to_euclidean_division_equations; lia.
Qed.

(** [Unlock] does not return when the servers have dropped the lock, as they do
    when it expired: they answer with an error, [releaseAll] counts that as a
    failure, and the loop repeats it for ever. *)
Theorem unlock_after_loss_spins nets owner names locks readLocks (nodes : list (option localLocker)) :
  names ≠ [] → Forall (dropped names) nodes → length locks = length nodes → (0 < length nodes)%nat →
  checkQuorumLocked locks (lockQuorum (Z.of_nat (length nodes)) false) = true →
  dm_Unlock nets owner false (mkDRWMutex names locks readLocks) nodes = Ok None.
Proof.
  intros Hne Hd Hlen Hpos Hq. unfold checkQuorumLocked in Hq. destruct_bools.
  assert (1 ≤ countLocked locks) as Hc by (pose proof (lockQuorum_bounds (Z.of_nat (length nodes)) false); lia).
  unfold dm_Unlock. cbn [dm_writeLocks dm_Names].
  assert (existsb isLocked locks = true) as ->.
  { clear -Hc. induction locks as [|x locks IH]; [done|]. rewrite countLocked_cons in Hc. cbn [existsb].
    destruct (isLocked x); [done|]. apply IH. lia. }
  cbn [negb]. f_equal.
  assert (checkFailedUnlocks locks (Z.of_nat (length nodes) `quot` 2) = true) as Hf.
  { unfold checkFailedUnlocks, lockQuorum in *. rewrite Hlen. cbn [negb andb] in Hq.
    rewrite Z.quot_div_nonneg in Hq |- * by lia.
    destruct (Z.of_nat (length nodes) - _ =? _) eqn:E; destruct_bools; [apply Z.leb_le|apply Z.ltb_lt];
      Z.to_euclidean_division_equations; lia. }
  induction nets as [|net nets IH]; [done|]. cbn [releaseUntil]. unfold releaseAll.
  by rewrite releaseLoop_dropped, Hf.
Qed.

Lemma unlock_after_loss_spins_witness :
  dm_Unlock (replicate 5 (replicate 3 true)) "n1" false (mkDRWMutex ["b/o"] ["u"; "u"; ""] ["";"";""])
    (replicate 3 (Some newLocker)) = Ok None.
Proof.
  apply (unlock_after_loss_spins (replicate 5 (replicate 3 true)) "n1" ["b/o"] ["u"; "u"; ""] ["";"";""]);
    [discriminate|repeat constructor|reflexivity|cbn; lia|reflexivity].
Defined.
