(* ===== verification/ETag.v ===== *)
(** * Entity tags (internal/etag)

    The ETag of an object as a byte string, its textual form, and the reader that
    checks the content of an upload against an expected tag. MD5 is an argument
    with 16 bytes as its result. *)

From Stdlib Require Import ZArith Lia Bool Ascii.
From S2P Require Import Prelude GoStrings.

Local Open Scope go_scope.

Definition quote : string := String "034" "".
Definition dash : ascii := "-".

Abbreviation ETag := string.

Definition IsMultipart (e : ETag) : bool := (16 <? String.length e)%nat && negb (no_char dash e).
Definition IsEncrypted (e : ETag) : bool := (16 <? String.length e)%nat && no_char dash e.

(** The [String] method. *)
Definition etag_String (e : ETag) : string :=
  if IsMultipart e then hex_encode (str_take 16 e) +:+ str_drop 16 e else hex_encode e.

Inductive etag_error :=
  | errHex | errInvalidLength | errPrefixLength | errNoPartNumber | errAtoi | errPartNumber | errNoETag.

Definition Parts (e : ETag) : outcome etag_error Z :=
  if negb (IsMultipart e) then Ok 1%Z
  else match index_char dash e with
       | None => Panic "unreachable"
       | Some n => match Atoi (str_drop (n + 1) e) with
                   | Some parts => Ok parts
                   | None => Panic "malformed ETag"
                   end
       end.

(** A slice [s[1:len(s)-1]] of a string of one byte panics. *)
Definition unquote (s : string) : outcome etag_error string :=
  if HasPrefix s quote && HasSuffix s quote then
    if (String.length s <? 2)%nat then Panic "slice bounds out of range"
    else Ok (str_take (String.length s - 2) (str_drop 1 s))
  else Ok s.

Definition etag_parse (s : string) (strict : bool) : outcome etag_error ETag :=
  s ←? unquote s;
  match index_char dash s with
  | None =>
      match hex_decode s with
      | None => Err errHex
      | Some etag =>
          if strict && negb (String.length etag =? 16)%nat then Err errInvalidLength else Ok etag
      end
  | Some n =>
      let prefix := str_take n s in
      let suffix := str_drop n s in
      if negb (String.length prefix =? 32)%nat then Err errPrefixLength
      else if (String.length suffix <=? 1)%nat then Err errNoPartNumber
      else match hex_decode prefix with
      | None => Err errHex
      | Some etag =>
          match Atoi (str_drop 1 suffix) with
          | None => Err errAtoi
          | Some partNumber =>
              if strict && ((partNumber =? 0) || (10000 <? partNumber))%Z then Err errPartNumber
              else Ok (etag +:+ suffix)
          end
      end
  end.

Definition Parse (s : string) : outcome etag_error ETag := etag_parse s false.

(** [Set] and [Get] on the header map; [Get("Etag")] reads the canonical name. *)
Definition Set_ (etag : ETag) (h : gmap string (list string)) : gmap string (list string) :=
  <["ETag" := [quote +:+ etag_String etag +:+ quote]]> h.

Definition Get (h : gmap string (list string)) : outcome etag_error ETag :=
  let v := match h !! "Etag" with Some (v :: _) => v | _ => "" end in
  if negb (String.eqb v "") then etag_parse v true
  else match h !! "ETag" with
       | Some (v :: _) => etag_parse v true
       | _ => Err errNoETag
       end.

Definition Equal (a b : ETag) : bool := String.eqb a b.

Section md5.
(** [crypto/md5] *)
Context (md5 : string → string).

(** Encrypted and multipart tags are left out. *)
Definition Multipart (etags : list ETag) : ETag :=
  match etags with
  | [] => ""
  | _ =>
      let used := List.filter (λ e, negb (IsMultipart e) && negb (IsEncrypted e)) etags in
      md5 (String.concat "" used) +:+ "-" +:+ itoa (Z.of_nat (length used))
  end.

(** The [Reader]: what it has read, and the expected tag. *)
Record TagReader := mkTagReader { rd_read : string; rd_checksum : ETag }.
Inductive read_error := EOF | VerifyError (expected computed : ETag) | ReadError (e : string).
#[global] Instance read_error_eq_dec : EqDecision read_error.
Proof. solve_decision. Defined.

Definition reader_ETag (r : TagReader) : ETag := md5 (rd_read r).

(** [Read] after the source has delivered bytes and an error. *)
Definition reader_Read (r : TagReader) (bytes : string) (err : option read_error) : TagReader * string * option read_error :=
  let r := mkTagReader (rd_read r +:+ bytes) (rd_checksum r) in
  let etag := reader_ETag r in
  (r, bytes,
   if bool_decide (err = Some EOF) && negb (String.eqb (rd_checksum r) "") && negb (Equal etag (rd_checksum r))
   then Some (VerifyError (rd_checksum r) etag) else err).
End md5.

(** ** Lemmas *)
Lemma hex_byte a :
  hex_val (hex_digit (N_of_ascii a / 16)) = Some (N_of_ascii a / 16)%N ∧
  hex_val (hex_digit (N_of_ascii a mod 16)) = Some (N_of_ascii a mod 16)%N ∧
  ascii_of_N (N_of_ascii a / 16 * 16 + N_of_ascii a mod 16) = a ∧
  Ascii.eqb (hex_digit (N_of_ascii a / 16)) dash = false ∧ Ascii.eqb (hex_digit (N_of_ascii a mod 16)) dash = false.
Proof. destruct a as [[] [] [] [] [] [] [] []]; repeat split. Qed.

Lemma hex_roundtrip s : hex_decode (hex_encode s) = Some s.
Proof.
  induction s as [|a s IH]; [done|]. cbn [hex_encode hex_decode].
  destruct (hex_byte a) as (-> & -> & Ha & _). by rewrite IH, Ha.
Qed.

Lemma hex_length s : String.length (hex_encode s) = (2 * String.length s)%nat.
Proof. induction s as [|a s IH]; [done|]. cbn [hex_encode String.length]. rewrite IH. lia. Qed.

Lemma hex_no_dash s : no_char dash (hex_encode s) = true.
Proof.
  induction s as [|a s IH]; [done|]. cbn [hex_encode no_char].
  destruct (hex_byte a) as (_ & _ & _ & -> & ->). by rewrite IH.
Qed.

Lemma itoa_length n : (0 ≤ n)%Z → (1 < String.length (String dash (itoa n)))%nat.
Proof.
  intros Hn. destruct (itoa_digits n Hn) as (_ & _ & He). destruct (itoa n); [done|cbn; lia].
Qed.

(** The two kinds of tag that the server computes. *)
Definition single_tag (e : ETag) : Prop := String.length e = 16%nat.
Definition multi_tag (m : string) (n : Z) : ETag := m +:+ "-" +:+ itoa n.

Lemma single_String e : single_tag e → etag_String e = hex_encode e.
Proof. intros He. unfold etag_String, IsMultipart. by rewrite He. Qed.

Lemma multi_IsMultipart m n : String.length m = 16%nat → IsMultipart (multi_tag m n) = true.
Proof.
  intros Hm. unfold IsMultipart, multi_tag. rewrite !no_char_app. cbn [no_char]. rewrite Ascii.eqb_refl.
  cbn [negb andb]. rewrite andb_false_r. cbn [negb]. rewrite andb_true_r.
  apply Nat.ltb_lt. rewrite !str_length_app, Hm. cbn [String.length]. lia.
Qed.

Lemma multi_String m n :
  String.length m = 16%nat → etag_String (multi_tag m n) = hex_encode m +:+ "-" +:+ itoa n.
Proof.
  intros Hm. unfold etag_String. rewrite multi_IsMultipart by done. unfold multi_tag.
  rewrite <- Hm at 1. by rewrite str_take_app, <- Hm, str_drop_app.
Qed.

Lemma unquote_quoted s : unquote (quote +:+ s +:+ quote) = Ok s.
Proof.
  unfold unquote. rewrite (proj2 (HasSuffix_spec _ _)) by (exists (quote +:+ s); by rewrite str_app_assoc).
  unfold HasPrefix. rewrite prefix_app. cbn [andb quote String.append String.length str_drop].
  rewrite str_length_app. change (String.length quote) with 1%nat.
  rewrite (proj2 (Nat.ltb_ge _ _)) by lia.
  replace (S (String.length s + 1) - 2)%nat with (String.length s) by lia. by rewrite str_take_app.
Qed.

Lemma parse_single strict e : single_tag e → etag_parse (quote +:+ hex_encode e +:+ quote) strict = Ok e.
Proof.
  intros He. unfold etag_parse. rewrite unquote_quoted. cbn [obind].
  rewrite (proj1 (no_char_index dash _) (hex_no_dash e)), hex_roundtrip, He. cbn. by rewrite andb_false_r.
Qed.

Lemma parse_multi strict m n :
  String.length m = 16%nat → (1 ≤ n ≤ 10000)%Z →
  etag_parse (quote +:+ (hex_encode m +:+ "-" +:+ itoa n) +:+ quote) strict = Ok (multi_tag m n).
Proof.
  intros Hm Hn. unfold etag_parse. rewrite unquote_quoted. cbn [obind].
  change ("-" +:+ itoa n) with (String dash (itoa n)).
  rewrite (index_char_app dash _ _ (hex_no_dash m)), str_take_app, str_drop_app, hex_roundtrip, hex_length, Hm.
  change (negb (2 * 16 =? 32)%nat) with false. cbn iota.
  rewrite (proj2 (Nat.leb_gt (String.length (String dash (itoa n))) 1)) by (apply itoa_length; lia).
  cbn [str_drop]. unfold Atoi. rewrite ParseInt_itoa by (unfold max_int64; lia).
  by rewrite (proj2 (Z.eqb_neq n 0)), (proj2 (Z.ltb_ge 10000 n)), andb_false_r by lia.
Qed.

(** ** Properties *)

(** The tag a server sets in its response is the tag a client or a peer reads
    back: for the MD5 of an object and for a multipart tag of 1 to 10000 parts. *)
Theorem etag_header_roundtrip e h :
  h !! "Etag" = None →
  (single_tag e ∨ ∃ m n, e = multi_tag m n ∧ String.length m = 16%nat ∧ (1 ≤ n ≤ 10000)%Z) →
  Get (Set_ e h) = Ok e.
Proof.
  intros Hh He. unfold Get, Set_. rewrite lookup_insert_ne, Hh, lookup_insert_eq by done. cbn [String.eqb negb].
  destruct He as [He|(m & n & -> & Hm & Hn)].
  - rewrite single_String by done. by apply parse_single.
  - rewrite multi_String by done. by apply parse_multi.
Qed.

Lemma etag_header_roundtrip_witness :
  Get (Set_ (multi_tag "0123456789abcdef" 3) ∅) = Ok (multi_tag "0123456789abcdef" 3).
Proof.
  apply etag_header_roundtrip; [done|]. right. exists "0123456789abcdef", 3%Z. done.
Defined.

(** A lone double quote as an ETag makes the parser panic. *)
Theorem lone_quote_panics strict : etag_parse quote strict = Panic "slice bounds out of range".
Proof. by destruct strict. Qed.

(** [Parts] is the number of parts if no byte of the checksum is a dash. *)
Theorem parts_counted m n :
  String.length m = 16%nat → no_char dash m = true → (0 ≤ n ≤ max_int64)%Z →
  Parts (multi_tag m n) = Ok n.
Proof.
  intros Hm Hd Hn. unfold Parts. rewrite multi_IsMultipart by done. cbn [negb]. unfold multi_tag.
  change ("-" +:+ itoa n) with (String dash (itoa n)). rewrite index_char_app by done.
  replace (String.length m + 1)%nat with (String.length (m +:+ "-")) by (by rewrite str_length_app).
  replace (m +:+ String dash (itoa n)) with ((m +:+ "-") +:+ itoa n) by (by rewrite str_app_assoc).
  rewrite str_drop_app. unfold Atoi. by rewrite ParseInt_itoa.
Qed.

(** A checksum with a dash byte makes [Parts] of a well-formed tag panic. *)
Theorem parts_panics : Parts (multi_tag "01234-6789abcdef" 3) = Panic "malformed ETag".
Proof. vm_compute. reflexivity. Qed.

(** The pieces of a body, read one after the other. *)
Fixpoint read_all (md5 : string → string) (r : TagReader) (pieces : list string) (err : option read_error)
    : TagReader * option read_error :=
  match pieces with
  | [] => let '(r, _, e) := reader_Read md5 r "" err in (r, e)
  | p :: pieces => let '(r, _, _) := reader_Read md5 r p None in read_all md5 r pieces err
  end.

(** A corrupted upload is noticed: however the body is cut into reads, the
    reader reports [VerifyError] at the end exactly if a tag is expected and the
    MD5 of the whole body differs from it. *)
Theorem reader_verifies md5 r pieces :
  let total := rd_read r +:+ String.concat "" pieces in
  (read_all md5 r pieces (Some EOF)).2 =
  if negb (String.eqb (rd_checksum r) "") && negb (String.eqb (md5 total) (rd_checksum r))
  then Some (VerifyError (rd_checksum r) (md5 total)) else Some EOF.
Proof.
  cbn zeta. revert r. induction pieces as [|p pieces IH]; intros r; cbn [read_all reader_Read].
  - unfold reader_ETag, Equal. cbn [rd_read rd_checksum String.concat]. by rewrite str_app_nil_r.
  - rewrite IH. cbn [rd_read rd_checksum]. replace (String.concat "" (p :: pieces)) with (p +:+ String.concat "" pieces).
    { by rewrite str_app_assoc. }
    destruct pieces; cbn; [by rewrite str_app_nil_r|done].
Qed.
