(* ===== verification/GoTime.v ===== *)
(** * Go's [time], as the sources use it: dates, [AddDate] and RFC 3339

    A [time.Time] is the number of nanoseconds since the zero time (January 1,
    year 1, 00:00:00 UTC), in the proleptic Gregorian calendar. Locations matter
    only for printing; every use here prints in UTC. *)

From Stdlib Require Import ZArith Lia Bool Ascii.
From S2P Require Import Prelude GoStrings.

(** ** Durations *)
Definition Second : Z := 1000000000.
Definition DayNs : Z := 24 * 3600 * Second.

(** [time.Unix(0, 0)] *)
Definition unix_epoch : Z := 719162 * DayNs.

(** ** The calendar *)
Definition isLeap (y : Z) : bool :=
  (y mod 4 =? 0)%Z && (negb (y mod 100 =? 0)%Z || (y mod 400 =? 0)%Z).

(** The days of a common year before each month. *)
Definition daysBefore (m : Z) : Z :=
  nth (Z.to_nat m) [0; 31; 59; 90; 120; 151; 181; 212; 243; 273; 304; 334; 365]%Z 0%Z.

Definition daysIn (m y : Z) : Z :=
  if (m =? 2)%Z && isLeap y then 29 else daysBefore m - daysBefore (m - 1).

Definition daysBeforeYear (y : Z) : Z :=
  let y := (y - 1)%Z in 365 * y + y / 4 - y / 100 + y / 400.

(** The day number of a date whose month is in range; the day may be any number. *)
Definition dateDays (y m d : Z) : Z :=
  daysBeforeYear y + daysBefore (m - 1) + (if isLeap y && (3 <=? m)%Z then 1 else 0) + (d - 1).

(** Year and day of the year of a day number ([absDate]): the cycles of 400, 100,
    4 and 1 years are cut off in turn. *)
Definition yearDay (d : Z) : Z * Z :=
  let n400 := (d / 146097)%Z in
  let d := (d - 146097 * n400)%Z in
  let n := (d / 36524)%Z in let n100 := (n - n / 4)%Z in
  let d := (d - 36524 * n100)%Z in
  let n4 := (d / 1461)%Z in
  let d := (d - 1461 * n4)%Z in
  let n := (d / 365)%Z in let n1 := (n - n / 4)%Z in
  (1 + 400 * n400 + 100 * n100 + 4 * n4 + n1, d - 365 * n1)%Z.

Definition monthDay (leap : bool) (yday : Z) : Z * Z :=
  if leap && (yday =? 59)%Z then (2, 29)%Z
  else
    let day := if leap && (59 <? yday)%Z then (yday - 1)%Z else yday in
    let m := (day / 31)%Z in
    let e := daysBefore (m + 1) in
    if (e <=? day)%Z then (m + 2, day - e + 1)%Z else (m + 1, day - daysBefore m + 1)%Z.

Definition civil (d : Z) : Z * Z * Z :=
  let '(y, yday) := yearDay d in
  let '(m, day) := monthDay (isLeap y) yday in (y, m, day).

(** [t.AddDate(years, 0, days)] for a time in UTC: the date is moved, the time of
    the day kept, and a day beyond the end of its month carries over. *)
Definition AddDate (t years days : Z) : Z :=
  let '(y, m, d) := civil (t / DayNs) in
  (dateDays (y + years) m (d + days) * DayNs + t mod DayNs)%Z.

(** ** Printing: [t.UTC().Format(time.RFC3339)] *)
Definition digit_char (n : Z) : ascii := ascii_of_N (Z.to_N (48 + n)).
Definition pad2 (n : Z) : string :=
  String (digit_char (n / 10)) (String (digit_char (n mod 10)) "").

(** At least four digits. *)
Definition pad4 (y : Z) : string :=
  if (y <? 10000)%Z then pad2 (y / 100) +:+ pad2 (y mod 100) else itoa y.

Definition FormatRFC3339 (t : Z) : string :=
  let '(y, m, d) := civil (t / DayNs) in
  let s := (t mod DayNs / Second)%Z in
  pad4 y +:+ "-" +:+ pad2 m +:+ "-" +:+ pad2 d +:+ "T" +:+
  pad2 (s / 3600) +:+ ":" +:+ pad2 (s / 60 mod 60) +:+ ":" +:+ pad2 (s mod 60) +:+ "Z".

(** ** Parsing: [time.Parse(time.RFC3339, s)] *)

(** [getnum]: two digits, or one when not [fixed]. *)
Definition getnum (fixed : bool) (s : string) : option (Z * string) :=
  match s with
  | String a (String b r) =>
      match digit_val a, digit_val b with
      | Some x, Some y => Some (10 * x + y, r)%Z
      | Some x, None => if fixed then None else Some (x, String b r)
      | None, _ => None
      end
  | String a "" =>
      match digit_val a with
      | Some x => if fixed then None else Some (x, "")
      | None => None
      end
  | "" => None
  end.

Definition getyear (s : string) : option (Z * string) :=
  if (String.length s <? 4)%nat then None
  else match digits_val 0 (str_take 4 s) with
       | Some y => Some (y, str_drop 4 s)
       | None => None
       end.

(** The literal characters of the layout. *)
Definition skip (c : ascii) (s : string) : option string :=
  match s with
  | String a r => if Ascii.eqb a c then Some r else None
  | "" => None
  end.

Definition in_range (lo hi n : Z) : option () := if (lo <=? n)%Z && (n <=? hi)%Z then Some () else None.

Fixpoint digits_prefix (s : string) : string :=
  match s with
  | String a r => match digit_val a with Some _ => String a (digits_prefix r) | None => "" end
  | "" => ""
  end.

(** Fractional seconds, which the layout need not have: after a period or a comma
    nine digits count. *)
Definition getnanos (s : string) : option (Z * string) :=
  match s with
  | String a r =>
      let ds := digits_prefix r in
      if (Ascii.eqb a "."%char || Ascii.eqb a ","%char) && negb (String.eqb ds "") then
        let used := str_take 9 ds in
        v ← digits_val 0 used;
        Some (v * 10 ^ (9 - Z.of_nat (String.length used)), str_drop (String.length ds) r)%Z
      else Some (0%Z, s)
  | "" => Some (0%Z, s)
  end.

(** The offset from UTC in seconds; the text must end with it. *)
Definition getzone (s : string) : option Z :=
  match s with
  | String a r =>
      if Ascii.eqb a "Z"%char then (if String.eqb r "" then Some 0%Z else None)
      else
        '(hr, r) ← getnum true r;
        r ← skip ":"%char r;
        '(mm, r) ← getnum true r;
        _ ← in_range 0 24 hr;
        _ ← in_range 0 60 mm;
        if negb (String.eqb r "") then None
        else if Ascii.eqb a "+"%char then Some ((hr * 60 + mm) * 60)%Z
        else if Ascii.eqb a "-"%char then Some (- ((hr * 60 + mm) * 60))%Z
        else None
  | "" => None
  end.

Definition ParseRFC3339 (s : string) : option Z :=
  '(y, s) ← getyear s;
  s ← skip "-"%char s;
  '(mo, s) ← getnum true s;
  _ ← in_range 1 12 mo;
  s ← skip "-"%char s;
  '(d, s) ← getnum true s;
  s ← skip "T"%char s;
  '(h, s) ← getnum false s;
  _ ← in_range 0 23 h;
  s ← skip ":"%char s;
  '(mi, s) ← getnum true s;
  _ ← in_range 0 59 mi;
  s ← skip ":"%char s;
  '(sec, s) ← getnum true s;
  _ ← in_range 0 59 sec;
  '(ns, s) ← getnanos s;
  off ← getzone s;
  _ ← in_range 1 (daysIn mo y) d;
  Some (dateDays y mo d * DayNs + ((h * 60 + mi) * 60 + sec - off) * Second + ns)%Z.

(** The zero time, the first instant of year 10000. *)
Definition year10000 : Z := 3652059 * DayNs.

(** ** Lemmas: the calendar *)

(** [lia] for goals with division by constants. *)
Ltac div_lia := Z.to_euclidean_division_equations; lia.

(** The year in cycles of 400, 100, 4 and 1 years. *)
Lemma daysBeforeYear_cycles a b c e :
  (0 <= b <= 3 → 0 <= c <= 24 → 0 <= e <= 3 →
   daysBeforeYear (1 + 400 * a + 100 * b + 4 * c + e) = 146097 * a + 36524 * b + 1461 * c + 365 * e)%Z.
Proof.
  intros Hb Hc He. unfold daysBeforeYear.
  replace (1 + 400 * a + 100 * b + 4 * c + e - 1)%Z with (400 * a + 100 * b + 4 * c + e)%Z by div_lia.
  assert ((400 * a + 100 * b + 4 * c + e) / 4 = 100 * a + 25 * b + c)%Z as -> by div_lia.
  assert ((400 * a + 100 * b + 4 * c + e) / 100 = 4 * a + b)%Z as -> by div_lia.
  assert ((400 * a + 100 * b + 4 * c + e) / 400 = a)%Z as -> by div_lia. div_lia.
Qed.

Lemma isLeap_cycles a b c e :
  (0 <= b <= 3)%Z → (0 <= c <= 24)%Z → (0 <= e <= 3)%Z →
  isLeap (1 + 400 * a + 100 * b + 4 * c + e) = (e =? 3)%Z && (negb (c =? 24)%Z || (b =? 3)%Z).
Proof.
  intros Hb Hc He. unfold isLeap.
  assert ((1 + 400 * a + 100 * b + 4 * c + e) mod 4 = (e + 1) mod 4)%Z as -> by div_lia.
  assert ((1 + 400 * a + 100 * b + 4 * c + e) mod 100 = (4 * c + e + 1) mod 100)%Z as -> by div_lia.
  assert ((1 + 400 * a + 100 * b + 4 * c + e) mod 400 = (100 * b + 4 * c + e + 1) mod 400)%Z as -> by div_lia.
  destruct (Z.eqb_spec e 3), (Z.eqb_spec c 24), (Z.eqb_spec b 3),
    (Z.eqb_spec ((e + 1) mod 4) 0), (Z.eqb_spec ((4 * c + e + 1) mod 100) 0),
    (Z.eqb_spec ((100 * b + 4 * c + e + 1) mod 400) 0); try done; exfalso; div_lia.
Qed.

(** The day of the year is in the year, and the two give the day back. *)
Lemma yearDay_spec d :
  let '(y, yday) := yearDay d in
  (daysBeforeYear y + yday = d)%Z ∧ (0 <= yday < if isLeap y then 366 else 365)%Z ∧
  (0 <= d → 1 <= y)%Z ∧ (d < 3652059 → y <= 9999)%Z.
Proof.
  unfold yearDay. set (a := (d / 146097)%Z). set (d1 := (d - 146097 * a)%Z).
  assert (0 <= d1 < 146097)%Z by (unfold d1, a; div_lia).
  set (b := (d1 / 36524 - d1 / 36524 / 4)%Z). set (d2 := (d1 - 36524 * b)%Z).
  assert (0 <= b <= 3 ∧ 0 <= d2 ∧ (b <= 2 → d2 < 36524) ∧ d2 < 36525)%Z as (Hb & ? & ? & ?)
    by (unfold d2, b; div_lia).
  set (c := (d2 / 1461)%Z). set (d3 := (d2 - 1461 * c)%Z).
  assert (0 <= c <= 24 ∧ 0 <= d3 < 1461 ∧ (b <= 2 → c = 24 → d3 < 1460))%Z as (Hc & ? & ?)
    by (unfold d3, c; div_lia).
  set (e := (d3 / 365 - d3 / 365 / 4)%Z).
  assert (0 <= e <= 3 ∧ 365 * e <= d3 ∧ d3 < 365 * e + 366 ∧ (e <= 2 → d3 < 365 * e + 365))%Z as (He & ? & ? & ?)
    by (unfold e; div_lia).
  rewrite daysBeforeYear_cycles, isLeap_cycles by done. clearbody e c b.
  split; [unfold d3, d2, d1; div_lia|]. split.
  - destruct (Z.eqb_spec e 3), (Z.eqb_spec c 24), (Z.eqb_spec b 3); cbn [andb orb negb]; div_lia.
  - split; intros; unfold d3, d2, d1, a in *; div_lia.
Qed.

Definition monthDay_ok (leap : bool) (yday : Z) : bool :=
  let '(m, d) := monthDay leap yday in
  (daysBefore (m - 1) + (if leap && (3 <=? m)%Z then 1 else 0) + (d - 1) =? yday)%Z
  && (1 <=? m)%Z && (m <=? 12)%Z && (1 <=? d)%Z
  && (d <=? if (m =? 2)%Z && leap then 29 else daysBefore m - daysBefore (m - 1))%Z.

Lemma monthDay_checked (leap : bool) yday :
  (0 <= yday < if leap then 366 else 365)%Z → monthDay_ok leap yday = true.
Proof.
  intros Hd. assert (forallb (monthDay_ok leap) (seqZ 0 (if leap then 366 else 365)) = true) as Hall
    by (destruct leap; vm_compute; reflexivity).
  rewrite forallb_forall in Hall. apply Hall, list_elem_of_In, elem_of_seqZ. lia.
Qed.

Lemma civil_spec d :
  let '(y, m, day) := civil d in
  dateDays y m day = d ∧ (1 <= m <= 12)%Z ∧ (1 <= day <= daysIn m y)%Z ∧
  (0 <= d → 1 <= y)%Z ∧ (d < 3652059 → y <= 9999)%Z.
Proof.
  unfold civil. pose proof (yearDay_spec d) as Hy. destruct (yearDay d) as [y yday].
  destruct Hy as (Hd & Hr & Hb). pose proof (monthDay_checked _ _ Hr) as Hm. unfold monthDay_ok in Hm.
  destruct (monthDay (isLeap y) yday) as [m day]. destruct_bools. unfold dateDays, daysIn.
  split_and!; try lia; try apply Hb; case_if; lia.
Qed.

(** ** Lemmas: numbers in print *)
Lemma digit_val_char n : (0 <= n <= 9)%Z → digit_val (digit_char n) = Some n.
Proof.
  intros Hn. assert (n = 0 ∨ n = 1 ∨ n = 2 ∨ n = 3 ∨ n = 4 ∨ n = 5 ∨ n = 6 ∨ n = 7 ∨ n = 8 ∨ n = 9)%Z as Hc by lia.
  by destruct Hc as [->|[->|[->|[->|[->|[->|[->|[->|[->| ->]]]]]]]]].
Qed.

Lemma getnum_pad2 fixed n r : (0 <= n <= 99)%Z → getnum fixed (pad2 n +:+ r) = Some (n, r).
Proof.
  intros Hn. unfold pad2. cbn [String.append getnum].
  rewrite !digit_val_char by div_lia. do 2 f_equal. div_lia.
Qed.

Lemma getyear_pad4 y r : (0 <= y <= 9999)%Z → getyear (pad4 y +:+ r) = Some (y, r).
Proof.
  intros Hy. unfold pad4, getyear, pad2. rewrite (proj2 (Z.ltb_lt y 10000)) by lia.
  cbn [String.append String.length Nat.ltb Nat.leb str_take str_drop digits_val].
  assert (∀ z, (0 <= z <= 99)%Z → digit_val (digit_char (z / 10)) = Some (z / 10)%Z ∧
    digit_val (digit_char (z mod 10)) = Some (z mod 10)%Z) as Hdig
    by (intros; rewrite !digit_val_char by div_lia; done).
  destruct (Hdig (y / 100)%Z ltac:(div_lia)) as [-> ->].
  destruct (Hdig (y mod 100)%Z ltac:(div_lia)) as [-> ->]. do 2 f_equal. div_lia.
Qed.

Lemma in_range_ok lo hi n : (lo <= n <= hi)%Z → in_range lo hi n = Some ().
Proof. intros ?. unfold in_range. by rewrite (proj2 (Z.leb_le lo n)), (proj2 (Z.leb_le n hi)) by lia. Qed.

Lemma daysIn_bound m y : (1 <= m <= 12 → daysIn m y <= 31)%Z.
Proof.
  intros Hm. unfold daysIn. case_if; [lia|].
  assert (forallb (λ m, daysBefore m - daysBefore (m - 1) <=? 31)%Z (seqZ 1 12) = true) as Hall by done.
  rewrite forallb_forall in Hall. apply Z.leb_le, Hall, list_elem_of_In, elem_of_seqZ. lia.
Qed.

(** Goes past the literal characters of the layout. *)
Ltac read_field :=
  cbn [mbind option_bind String.append skip Ascii.eqb Bool.eqb getnanos getzone andb orb String.eqb digits_prefix].

(** Printing and reading keeps the whole seconds. *)
Lemma ParseRFC3339_Format t :
  (0 <= t < year10000)%Z → ParseRFC3339 (FormatRFC3339 t) = Some (t - t mod Second)%Z.
Proof.
  intros Ht. assert (0 <= t / DayNs < 3652059)%Z as Hd by (unfold year10000, DayNs, Second in *; div_lia).
  unfold FormatRFC3339. pose proof (civil_spec (t / DayNs)) as Hc.
  destruct (civil (t / DayNs)) as [[y m] d]. destruct Hc as (Hdd & Hm & Hday & Hy1 & Hy2).
  pose proof (daysIn_bound m y Hm).
  set (s := (t mod DayNs / Second)%Z). assert (0 <= s < 86400)%Z by (unfold s, DayNs, Second; div_lia).
  unfold ParseRFC3339.
  rewrite getyear_pad4 by lia. read_field.
  rewrite getnum_pad2 by lia. read_field. rewrite in_range_ok by lia. read_field.
  rewrite getnum_pad2 by lia. read_field.
  rewrite getnum_pad2 by div_lia. read_field. rewrite in_range_ok by div_lia. read_field.
  rewrite getnum_pad2 by div_lia. read_field. rewrite in_range_ok by div_lia. read_field.
  rewrite getnum_pad2 by div_lia. read_field. rewrite in_range_ok by div_lia. read_field.
  rewrite in_range_ok by div_lia. read_field. rewrite Hdd. f_equal.
  unfold s, DayNs, Second. div_lia.
Qed.

(** A year of five digits is printed but not read. *)
Lemma ParseRFC3339_year10000 t :
  (year10000 <= t < year10000 + 2 * DayNs)%Z → ParseRFC3339 (FormatRFC3339 t) = None.
Proof.
  intros Ht. assert (t / DayNs = 3652059 ∨ t / DayNs = 3652060)%Z as Hd
    by (unfold year10000, DayNs, Second in *; div_lia).
  unfold FormatRFC3339. destruct Hd as [-> | ->];
    [replace (civil 3652059) with (10000, 1, 1)%Z by (vm_compute; reflexivity)
    |replace (civil 3652060) with (10000, 1, 2)%Z by (vm_compute; reflexivity)];
    replace (pad4 10000) with "10000" by (vm_compute; reflexivity); reflexivity.
Qed.

(** ** Lemmas: moving dates *)
Lemma AddDate_days t days : AddDate t 0 days = (t + days * DayNs)%Z.
Proof.
  unfold AddDate. pose proof (civil_spec (t / DayNs)) as Hc.
  destruct (civil (t / DayNs)) as [[y m] d]. destruct Hc as (Hd & _). unfold dateDays in *.
  replace (y + 0)%Z with y by lia. unfold DayNs, Second in *. div_lia.
Qed.

(** Leap days before a year: none or one more each year. *)
Lemma leap_days_step y n :
  (0 <= n)%Z →
  let f y := (y / 4 - y / 100 + y / 400)%Z in (0 <= f (y + n) - f y <= n)%Z.
Proof.
  intros Hn f. pattern n. apply natlike_ind; [|clear n Hn|done].
  - replace (y + 0)%Z with y by lia. lia.
  - intros n Hn IH. replace (y + Z.succ n)%Z with (y + n + 1)%Z by lia.
    assert (0 <= f (y + n + 1) - f (y + n) <= 1)%Z by (unfold f; div_lia). lia.
Qed.

Lemma isLeap_days y :
  (if isLeap y then 1 else 0)%Z =
  ((y / 4 - y / 100 + y / 400) - ((y - 1) / 4 - (y - 1) / 100 + (y - 1) / 400))%Z.
Proof.
  unfold isLeap. destruct (Z.eqb_spec (y mod 4) 0), (Z.eqb_spec (y mod 100) 0), (Z.eqb_spec (y mod 400) 0);
    cbn [andb orb negb]; div_lia.
Qed.

(** [n] years are between 365 and 366 days each. *)
Lemma AddDate_years t n :
  (0 <= n)%Z → (365 * n * DayNs <= AddDate t n 0 - t <= 366 * n * DayNs)%Z.
Proof.
  intros Hn. unfold AddDate. pose proof (civil_spec (t / DayNs)) as Hc.
  destruct (civil (t / DayNs)) as [[y m] d]. destruct Hc as (Hd & _).
  assert (365 * n <= dateDays (y + n) m (d + 0) - dateDays y m d <= 366 * n)%Z as Hb.
  { unfold dateDays, daysBeforeYear. pose proof (isLeap_days y) as Hl. pose proof (isLeap_days (y + n)) as Hl'.
    pose proof (leap_days_step y n Hn) as Hs. pose proof (leap_days_step (y - 1) n Hn) as Hs'. cbn zeta in Hs, Hs'.
    replace (y - 1 + n)%Z with (y + n - 1)%Z in Hs' by lia.
    destruct (isLeap y), (isLeap (y + n)), (3 <=? m)%Z; cbn [andb]; lia. }
  rewrite Hd in Hb. pose proof (Z.div_mod t DayNs). unfold DayNs, Second in *. lia.
Qed.
