(* ===== verification/HttpTime.v ===== *)
(** * Dates in HTTP headers and in metadata: [http.TimeFormat]

    What the sources use of [time] with the format of HTTP, "Mon, 02 Jan 2006 15:04:05 GMT": printing
    and parsing, with whole seconds. *)

From Stdlib Require Import ZArith Lia Bool Ascii.
From S2P Require Import Prelude GoStrings GoTime.

Local Open Scope go_scope.

(** ** Printing and parsing *)

Definition shortDayNames : list string := ["Sun"; "Mon"; "Tue"; "Wed"; "Thu"; "Fri"; "Sat"].
Definition shortMonthNames : list string := ["Jan"; "Feb"; "Mar"; "Apr"; "May"; "Jun"; "Jul"; "Aug"; "Sep"; "Oct"; "Nov"; "Dec"].

(** The first day of the calendar is a Monday. *)
Definition weekday (d : Z) : Z := (d + 1) mod 7.

Definition FormatHTTP (t : Z) : string :=
  let '(y, m, d) := civil (t / DayNs) in
  let s := (t mod DayNs / Second)%Z in
  default "" (shortDayNames !! Z.to_nat (weekday (t / DayNs))) +:+ ", " +:+ pad2 d +:+ " " +:+
  default "" (shortMonthNames !! Z.to_nat (m - 1)) +:+ " " +:+ pad4 y +:+ " " +:+
  pad2 (s / 3600) +:+ ":" +:+ pad2 (s / 60 mod 60) +:+ ":" +:+ pad2 (s mod 60) +:+ " GMT".

(** [match]: without regard to the case of letters. *)
Fixpoint match_fold (s1 s2 : string) : bool :=
  match s1, s2 with
  | String a s1, String b s2 => Ascii.eqb (lower_char a) (lower_char b) && match_fold s1 s2
  | "", "" => true
  | _, _ => false
  end.

(** [lookup]: the index of the name that the value starts with. *)
Fixpoint lookup_name (i : Z) (tab : list string) (val : string) : option (Z * string) :=
  match tab with
  | [] => None
  | v :: tab =>
      if (String.length v <=? String.length val)%nat && match_fold (str_take (String.length v) val) v then Some (i, str_drop (String.length v) val)
      else lookup_name (i + 1)%Z tab val
  end.

Fixpoint cutspace (s : string) : string :=
  match s with String " " s => cutspace s | s => s end.

(** A space of the layout stands for any number of them, and for the end. *)
Definition skip_space (s : string) : option string :=
  match s with
  | "" => Some ""
  | String a r => if Ascii.eqb a " " then Some (cutspace r) else None
  end.

Definition ParseHTTP (s : string) : option Z :=
  '(_, s) ← lookup_name 0 shortDayNames s;
  s ← skip "," s;
  s ← skip_space s;
  '(d, s) ← getnum true s;
  s ← skip_space s;
  '(mo, s) ← lookup_name 1 shortMonthNames s;
  s ← skip_space s;
  '(y, s) ← getyear s;
  s ← skip_space s;
  '(h, s) ← getnum false s;
  _ ← in_range 0 23 h;
  s ← skip ":" s;
  '(mi, s) ← getnum true s;
  _ ← in_range 0 59 mi;
  s ← skip ":" s;
  '(sec, s) ← getnum true s;
  _ ← in_range 0 59 sec;
  '(ns, s) ← getnanos s;
  s ← skip_space s;
  s ← skip "G" s;
  s ← skip "M" s;
  s ← skip "T" s;
  if negb (String.eqb s "") then None
  else
    _ ← in_range 1 (daysIn mo y) d;
    Some (dateDays y mo d * DayNs + ((h * 60 + mi) * 60 + sec) * Second + ns)%Z.

(** ** Dates are read back *)

Lemma lookup_day w r : (0 <= w < 7)%Z → ∃ i, lookup_name 0 shortDayNames (default "" (shortDayNames !! Z.to_nat w) +:+ r) = Some (i, r).
Proof.
  intros Hw. assert (w = 0 ∨ w = 1 ∨ w = 2 ∨ w = 3 ∨ w = 4 ∨ w = 5 ∨ w = 6)%Z as Hc by lia.
  destruct Hc as [->|[->|[->|[->|[->|[->| ->]]]]]]; by eexists.
Qed.

Lemma lookup_month m r : (1 <= m <= 12)%Z → lookup_name 1 shortMonthNames (default "" (shortMonthNames !! Z.to_nat (m - 1)) +:+ r) = Some (m, r).
Proof.
  intros Hm. assert (m = 1 ∨ m = 2 ∨ m = 3 ∨ m = 4 ∨ m = 5 ∨ m = 6 ∨ m = 7 ∨ m = 8 ∨ m = 9 ∨ m = 10 ∨ m = 11 ∨ m = 12)%Z as Hc by lia.
  by destruct Hc as [->|[->|[->|[->|[->|[->|[->|[->|[->|[->|[->| ->]]]]]]]]]]].
Qed.

Lemma skip_space_pad2 n r : (0 <= n <= 99)%Z → skip_space (" " +:+ pad2 n +:+ r) = Some (pad2 n +:+ r).
Proof.
  intros Hn. unfold pad2. cbn [String.append skip_space Ascii.eqb Bool.eqb]. f_equal.
  assert (0 <= n / 10 <= 9)%Z as Hd by div_lia. revert Hd. generalize (n / 10)%Z as k. intros k Hk.
  assert (k = 0 ∨ k = 1 ∨ k = 2 ∨ k = 3 ∨ k = 4 ∨ k = 5 ∨ k = 6 ∨ k = 7 ∨ k = 8 ∨ k = 9)%Z as Hc by lia.
  by destruct Hc as [->|[->|[->|[->|[->|[->|[->|[->|[->| ->]]]]]]]]].
Qed.

Lemma skip_space_month m r :
  (1 <= m <= 12)%Z →
  skip_space (" " +:+ default "" (shortMonthNames !! Z.to_nat (m - 1)) +:+ r) = Some (default "" (shortMonthNames !! Z.to_nat (m - 1)) +:+ r).
Proof.
  intros Hm. assert (m = 1 ∨ m = 2 ∨ m = 3 ∨ m = 4 ∨ m = 5 ∨ m = 6 ∨ m = 7 ∨ m = 8 ∨ m = 9 ∨ m = 10 ∨ m = 11 ∨ m = 12)%Z as Hc by lia.
  by destruct Hc as [->|[->|[->|[->|[->|[->|[->|[->|[->|[->|[->| ->]]]]]]]]]]].
Qed.

Lemma skip_space_pad4 y r : (0 <= y <= 9999)%Z → skip_space (" " +:+ pad4 y +:+ r) = Some (pad4 y +:+ r).
Proof.
  intros Hy. unfold pad4. rewrite (proj2 (Z.ltb_lt y 10000)) by lia. rewrite <- str_app_assoc. apply skip_space_pad2. div_lia.
Qed.

(** Goes past a space of the layout. *)
Local Ltac read_space :=
  match goal with |- context [skip_space (String " " ?r)] => change (String " " r) with (" " +:+ r) end;
  first [rewrite skip_space_month by lia | rewrite skip_space_pad4 by lia | rewrite skip_space_pad2 by div_lia]; read_field.

Lemma ParseHTTP_Format t : (0 <= t < year10000)%Z → ParseHTTP (FormatHTTP t) = Some (t - t mod Second)%Z.
Proof.
  intros Ht. assert (0 <= t / DayNs < 3652059)%Z as Hd by (unfold year10000, DayNs, Second in *; div_lia).
  unfold FormatHTTP. pose proof (civil_spec (t / DayNs)) as Hc. assert (0 <= weekday (t / DayNs) < 7)%Z as Hw by (unfold weekday; div_lia).
  destruct (civil (t / DayNs)) as [[y m] d]. destruct Hc as (Hdd & Hm & Hday & Hy1 & Hy2). pose proof (daysIn_bound m y Hm).
  set (s := (t mod DayNs / Second)%Z). assert (0 <= s < 86400)%Z by (unfold s, DayNs, Second; div_lia).
  unfold ParseHTTP. edestruct (lookup_day (weekday (t / DayNs))) as [i ->]; [done|]. read_field.
  read_space. rewrite getnum_pad2 by lia. read_field. read_space. rewrite lookup_month by done. read_field.
  read_space. rewrite getyear_pad4 by lia. read_field. read_space.
  rewrite getnum_pad2 by div_lia. read_field. rewrite in_range_ok by div_lia. read_field.
  rewrite getnum_pad2 by div_lia. read_field. rewrite in_range_ok by div_lia. read_field.
  rewrite getnum_pad2 by div_lia. read_field. rewrite in_range_ok by div_lia. read_field.
  change (getnanos " GMT") with (Some (0%Z, " GMT")). read_field. change (skip_space " GMT") with (Some "GMT"). read_field. cbn [negb].
  rewrite in_range_ok by div_lia. read_field. rewrite Hdd. f_equal. unfold s, DayNs, Second. div_lia.
Qed.
