(* ===== verification/SSEMeta.v ===== *)
(** * Server-side encryption: headers and metadata (internal/crypto, internal/http/headers.go)

    Which encryption a request asks for, and which one the metadata of an object shows. *)

From Stdlib Require Import Bool Ascii.
From S2P Require Import Prelude GoStrings.

Local Open Scope string_scope.

(** ** Headers and metadata *)

(** [http.Header], by canonical names. *)
Abbreviation Header := (gmap string (list string)).
Abbreviation Metadata := (gmap string string).

Definition has_key {A} (m : gmap string A) (k : string) : bool := bool_decide (is_Some (m !! k)).

Definition header_Get (h : Header) (k : string) : string := match h !! k with Some (v :: _) => v | _ => "" end.

Definition AmzServerSideEncryption : string := "X-Amz-Server-Side-Encryption".
Definition AmzServerSideEncryptionKmsID : string := AmzServerSideEncryption +:+ "-Aws-Kms-Key-Id".
Definition AmzServerSideEncryptionKmsContext : string := AmzServerSideEncryption +:+ "-Context".
Definition AmzServerSideEncryptionCustomerAlgorithm : string := AmzServerSideEncryption +:+ "-Customer-Algorithm".
Definition AmzServerSideEncryptionCustomerKey : string := AmzServerSideEncryption +:+ "-Customer-Key".
Definition AmzServerSideEncryptionCustomerKeyMD5 : string := AmzServerSideEncryption +:+ "-Customer-Key-Md5".
Definition AmzServerSideEncryptionCopyCustomerAlgorithm : string := "X-Amz-Copy-Source-Server-Side-Encryption-Customer-Algorithm".
Definition AmzServerSideEncryptionCopyCustomerKey : string := "X-Amz-Copy-Source-Server-Side-Encryption-Customer-Key".
Definition AmzServerSideEncryptionCopyCustomerKeyMD5 : string := "X-Amz-Copy-Source-Server-Side-Encryption-Customer-Key-Md5".
Definition AmzEncryptionAES : string := "AES256".
Definition AmzEncryptionKMS : string := "aws:kms".

Definition MetaMultipart : string := "X-Minio-Internal-Encrypted-Multipart".
Definition MetaIV : string := "X-Minio-Internal-Server-Side-Encryption-Iv".
Definition MetaAlgorithm : string := "X-Minio-Internal-Server-Side-Encryption-Seal-Algorithm".
Definition MetaSealedKeySSEC : string := "X-Minio-Internal-Server-Side-Encryption-Sealed-Key".
Definition MetaSealedKeyS3 : string := "X-Minio-Internal-Server-Side-Encryption-S3-Sealed-Key".
Definition MetaSealedKeyKMS : string := "X-Minio-Internal-Server-Side-Encryption-Kms-Sealed-Key".
Definition MetaKeyID : string := "X-Minio-Internal-Server-Side-Encryption-S3-Kms-Key-Id".
Definition MetaDataEncryptionKey : string := "X-Minio-Internal-Server-Side-Encryption-S3-Kms-Sealed-Key".
Definition MetaContext : string := "X-Minio-Internal-Server-Side-Encryption-Context".

(** [crypto.Type]: the interface value, one of three. *)
Inductive Type_ := SSEC | S3 | S3KMS.

#[export] Instance Type_eq_dec : EqDecision Type_.
Proof. solve_decision. Defined.

Definition Type_String (t : Type_) : string := match t with SSEC => "SSE-C" | S3 => "SSE-S3" | S3KMS => "SSE-KMS" end.

(** *** Requests *)

Definition SSEC_IsRequested (h : Header) : bool :=
  has_key h AmzServerSideEncryptionCustomerAlgorithm || has_key h AmzServerSideEncryptionCustomerKey || has_key h AmzServerSideEncryptionCustomerKeyMD5.

Definition SSECopy_IsRequested (h : Header) : bool :=
  has_key h AmzServerSideEncryptionCopyCustomerAlgorithm || has_key h AmzServerSideEncryptionCopyCustomerKey || has_key h AmzServerSideEncryptionCopyCustomerKeyMD5.

Definition S3_IsRequested (h : Header) : bool :=
  has_key h AmzServerSideEncryption && negb (EqualFold (header_Get h AmzServerSideEncryption) AmzEncryptionKMS).

Definition S3KMS_IsRequested (h : Header) : bool :=
  if has_key h AmzServerSideEncryptionKmsID then true
  else if has_key h AmzServerSideEncryptionKmsContext then true
  else if has_key h AmzServerSideEncryption then negb (String.eqb (ToUpper (header_Get h AmzServerSideEncryption)) AmzEncryptionAES)
  else false.

Definition IsRequested (h : Header) : option Type_ :=
  if S3_IsRequested h then Some S3 else if S3KMS_IsRequested h then Some S3KMS else if SSEC_IsRequested h then Some SSEC else None.

(** *** Metadata of objects *)

Definition SSEC_IsEncrypted (metadata : Metadata) : bool := has_key metadata MetaSealedKeySSEC.
Definition S3_IsEncrypted (metadata : Metadata) : bool := has_key metadata MetaSealedKeyS3.
Definition S3KMS_IsEncrypted (metadata : Metadata) : bool := has_key metadata MetaSealedKeyKMS.

Definition IsMultiPart (metadata : Metadata) : bool := has_key metadata MetaMultipart.

(** The kind, nil if it is not known, and whether the object is encrypted. *)
Definition IsEncrypted (metadata : Metadata) : option Type_ * bool :=
  if S3KMS_IsEncrypted metadata then (Some S3KMS, true)
  else if S3_IsEncrypted metadata then (Some S3, true)
  else if SSEC_IsEncrypted metadata then (Some SSEC, true)
  else if IsMultiPart metadata then (None, true)
  else if has_key metadata MetaIV then (None, true)
  else if has_key metadata MetaAlgorithm then (None, true)
  else if has_key metadata MetaKeyID then (None, true)
  else if has_key metadata MetaDataEncryptionKey then (None, true)
  else if has_key metadata MetaContext then (None, true)
  else (None, false).

Definition IsSourceEncrypted (metadata : Metadata) : bool :=
  has_key metadata AmzServerSideEncryptionCustomerAlgorithm || has_key metadata AmzServerSideEncryption.

Definition delete_all (keys : list string) (metadata : Metadata) : Metadata := foldl (λ m k, delete k m) metadata keys.

Definition internal_entries : list string :=
  [MetaMultipart; MetaAlgorithm; MetaIV; MetaSealedKeySSEC; MetaSealedKeyS3; MetaSealedKeyKMS; MetaKeyID; MetaDataEncryptionKey].
Definition RemoveInternalEntries : Metadata → Metadata := delete_all internal_entries.

Definition RemoveSSEHeaders : Metadata → Metadata :=
  delete_all [AmzServerSideEncryption; AmzServerSideEncryptionKmsID; AmzServerSideEncryptionKmsContext; AmzServerSideEncryptionCustomerAlgorithm;
              AmzServerSideEncryptionCustomerKey; AmzServerSideEncryptionCustomerKeyMD5; AmzServerSideEncryptionCopyCustomerAlgorithm;
              AmzServerSideEncryptionCopyCustomerKey; AmzServerSideEncryptionCopyCustomerKeyMD5].

Definition CreateMultipartMetadata (metadata : Metadata) : Metadata := <[MetaMultipart := ""]> metadata.

(** ** Removing the entries *)

Lemma delete_all_lookup keys (metadata : Metadata) k : delete_all keys metadata !! k = if bool_decide (k ∈ keys) then None else metadata !! k.
Proof.
  unfold delete_all. revert metadata. induction keys as [|k' keys IH]; intros metadata; cbn [foldl]; [by rewrite bool_decide_eq_false_2 by set_solver|].
  rewrite IH. destruct (decide (k ∈ keys)) as [Hk|Hk].
  - by rewrite !bool_decide_eq_true_2 by set_solver.
  - rewrite (bool_decide_eq_false_2 _ Hk). destruct (decide (k = k')) as [->|Hne].
    + by rewrite lookup_delete_eq, bool_decide_eq_true_2 by set_solver.
    + by rewrite lookup_delete_ne, bool_decide_eq_false_2 by set_solver.
Qed.

(** The context of SSE-KMS is the one entry that stays: an object that had one, and is copied to an object
    that is not encrypted, still counts as encrypted. *)
Lemma removed_entries (metadata : Metadata) :
  IsEncrypted (RemoveInternalEntries metadata) = (None, has_key metadata MetaContext).
Proof.
  unfold IsEncrypted, S3KMS_IsEncrypted, S3_IsEncrypted, SSEC_IsEncrypted, IsMultiPart, has_key, RemoveInternalEntries. rewrite !delete_all_lookup.
  repeat match goal with |- context [bool_decide (?k ∈ internal_entries)] =>
    let v := eval vm_compute in (bool_decide (k ∈ internal_entries)) in change (bool_decide (k ∈ internal_entries)) with v end.
  cbn. by destruct (bool_decide _).
Qed.
