(* ===== verification/Replication.v ===== *)
(** * Replication state of object versions (cmd/bucket-replication-utils.go)

    A version of an object may be replicated to several targets. Its metadata has the
    status of every target in one string, "arn1=COMPLETED;arn2=PENDING;", and the
    decision what to replicate in another, "arn1=true;false;arn1;id,...". This file has the
    strings, the regular expression that reads them, and the overall status of a version. *)

From Stdlib Require Import ZArith Lia Bool Ascii.
From S2P Require Import Prelude GoStrings GoTime HttpTime.

Local Open Scope go_scope.

(** ** Statuses *)

(** [replication.StatusType] (internal/bucket/replication/datatypes.go); [Completed] is spelled differently for purges. *)
Definition StatusPending : string := "PENDING".
Definition StatusCompleted : string := "COMPLETED".
Definition StatusFailed : string := "FAILED".
Definition StatusReplica : string := "REPLICA".

(** [VersionPurgeStatusType] *)
Definition PurgePending : string := "PENDING".
Definition PurgeComplete : string := "COMPLETE".
Definition PurgeFailed : string := "FAILED".

Definition Purge_Pending (v : string) : bool := String.eqb v PurgePending || String.eqb v PurgeFailed.

Definition ReservedMetadataPrefixLower : string := "x-minio-internal-".
Definition ReplicationReset : string := "replication-reset".
Definition ReplicationStatus : string := "replication-status".
Definition ReplicationTimestamp : string := "replication-timestamp".
Definition ReplicaStatus : string := "replica-status".
Definition ReplicaTimestamp : string := "replica-timestamp".
Definition AmzBucketReplicationStatus : string := "X-Amz-Replication-Status".
Definition VersionPurgeStatusKey : string := ReservedMetadataPrefixLower +:+ "purgestatus".

Definition targetResetHeader (arn : string) : string := ReservedMetadataPrefixLower +:+ ReplicationReset +:+ "-" +:+ arn.

(** Without regard to case. *)
Definition equals (k1 : string) (keys : list string) : bool := existsb (EqualFold k1) keys.

(** The time of the Unix epoch. *)
Definition timeSentinel : Z := unix_epoch.

(** ** The regular expression [([^=].*?)=([^,].*?);] *)

Abbreviation chars := (list ascii).

Definition newline : ascii := ascii_of_N 10.

(** [.*?] and then [c]: the shortest way for which [k] goes on; [acc] is the group so far, last character first. *)
Fixpoint lazy_until {R} (c : ascii) (k : chars → chars → option R) (acc s : chars) : option R :=
  match s with
  | [] => None
  | a :: s' =>
      match (if Ascii.eqb a c then k (reverse acc) s' else None) with
      | Some r => Some r
      | None => if Ascii.eqb a newline then None else lazy_until c k (a :: acc) s'
      end
  end.

(** A match at the start: the two groups and what follows. *)
Definition match_here (s : chars) : option (chars * chars * chars) :=
  match s with
  | a :: s =>
      if Ascii.eqb a "=" then None
      else lazy_until "=" (λ g1 s, match s with
             | b :: s => if Ascii.eqb b "," then None else lazy_until ";" (λ g2 s, Some (g1, g2, s)) [b] s
             | [] => None
             end) [a] s
  | [] => None
  end.

(** [FindAllStringSubmatch]; [fuel] is the length of the string. *)
Fixpoint find_all (fuel : nat) (s : chars) : list (string * string) :=
  match fuel, s with
  | S fuel, _ :: s' =>
      match match_here s with
      | Some (g1, g2, rest) => (String.string_of_list_ascii g1, String.string_of_list_ascii g2) :: find_all fuel rest
      | None => find_all fuel s'
      end
  | _, _ => []
  end.

Definition replStatusRegex (s : string) : list (string * string) := find_all (String.length s) (String.list_ascii_of_string s).

(** ** Statuses of the targets *)

Definition statuses_map (s : string) : gmap string string := foldl (λ m '(arn, status), <[arn := status]> m) ∅ (replStatusRegex s).

Definition replicationStatusesMap : string → gmap string string := statuses_map.
Definition versionPurgeStatusesMap : string → gmap string string := statuses_map.

(** The loops of the four functions that reduce the statuses of the targets to one. *)
Fixpoint composite (failed complete pending : string) (completed total : nat) (vs : list string) : string :=
  match vs with
  | [] => if (completed =? total)%nat then complete else pending
  | v :: vs =>
      if String.eqb v failed then failed
      else composite failed complete pending (if String.eqb v complete then S completed else completed) total vs
  end.

Definition composite_status (complete : string) (vs : list string) : string :=
  if (length vs =? 0)%nat then "" else composite "FAILED" complete "PENDING" 0 (length vs) vs.

Definition getCompositeReplicationStatus (m : gmap string string) : string := composite_status StatusCompleted ((map_to_list m).*2).
Definition getCompositeVersionPurgeStatus (m : gmap string string) : string := composite_status PurgeComplete ((map_to_list m).*2).

(** ** [replicatedInfos]: what a replication did *)

Record replicatedTargetInfo := mkRTI {
  rti_Arn : string;
  rti_Size : Z;
  rti_ReplicationAction : string;
  rti_ReplicationStatus : string;
  rti_PrevReplicationStatus : string;
  rti_VersionPurgeStatus : string;
  rti_ResyncTimestamp : string;
  rti_ReplicationResynced : bool;
}.

Definition rti_Empty (rt : replicatedTargetInfo) : bool := String.eqb (rti_Arn rt) "".

Definition CompletedSize (ts : list replicatedTargetInfo) : Z :=
  foldl (λ sz t, if rti_Empty t then sz
                 else if String.eqb (rti_ReplicationStatus t) StatusCompleted && negb (String.eqb (rti_PrevReplicationStatus t) StatusCompleted)
                      then wrap64 (sz + rti_Size t) else sz) 0%Z ts.

Definition ReplicationResynced (ts : list replicatedTargetInfo) : bool := existsb (λ t, negb (rti_Empty t) && rti_ReplicationResynced t) ts.

(** "%s=%s;" for every target. *)
Definition print_statuses (l : list (string * string)) : string := str_join "" ((λ '(arn, status), arn +:+ "=" +:+ status +:+ ";") <$> l).

Definition ReplicationStatusInternal (ts : list replicatedTargetInfo) : string :=
  print_statuses ((λ t, (rti_Arn t, rti_ReplicationStatus t)) <$> filter (λ t, rti_Empty t = false) ts).

Definition VersionPurgeStatusInternal (ts : list replicatedTargetInfo) : string :=
  print_statuses ((λ t, (rti_Arn t, rti_VersionPurgeStatus t)) <$> filter (λ t, rti_Empty t = false ∧ rti_VersionPurgeStatus t ≠ "") ts).

Definition infos_ReplicationStatus (ts : list replicatedTargetInfo) : string := composite_status StatusCompleted (rti_ReplicationStatus <$> ts).
Definition infos_VersionPurgeStatus (ts : list replicatedTargetInfo) : string := composite_status PurgeComplete (rti_VersionPurgeStatus <$> ts).

Definition replicateNone : string := "none".
Definition replicateAll : string := "all".
Definition replicateMetadata : string := "metadata".

Definition infos_Action (ts : list replicatedTargetInfo) : string :=
  match filter (λ t, rti_Empty t = false ∧ rti_PrevReplicationStatus t ≠ StatusCompleted) ts with
  | t :: _ => rti_ReplicationAction t
  | [] => replicateNone
  end.

(** ** [ReplicationState] *)

(** [None] is a nil map. *)
Record ReplicationState := mkRS {
  rs_ReplicaTimeStamp : Z;
  rs_ReplicaStatus : string;
  rs_ReplicationTimeStamp : Z;
  rs_ReplicationStatusInternal : string;
  rs_VersionPurgeStatusInternal : string;
  rs_ReplicateDecisionStr : string;
  rs_Targets : gmap string string;
  rs_PurgeTargets : gmap string string;
  rs_ResetStatusesMap : option (gmap string string);
}.

Definition ReplicationState_zero : ReplicationState := mkRS 0 "" 0 "" "" "" ∅ ∅ None.

Definition rs_Equal (rs o : ReplicationState) : bool :=
  String.eqb (rs_ReplicaStatus rs) (rs_ReplicaStatus o) &&
  (rs_ReplicaTimeStamp rs =? rs_ReplicaTimeStamp o)%Z &&
  (rs_ReplicationTimeStamp rs =? rs_ReplicationTimeStamp o)%Z &&
  String.eqb (rs_ReplicationStatusInternal rs) (rs_ReplicationStatusInternal o) &&
  String.eqb (rs_VersionPurgeStatusInternal rs) (rs_VersionPurgeStatusInternal o).

Definition CompositeReplicationStatus (rs : ReplicationState) : string :=
  let st := rs_ReplicationStatusInternal rs in
  if negb (String.eqb st "") then
    if existsb (String.eqb st) [StatusPending; StatusCompleted; StatusFailed; StatusReplica] then st
    else
      let replStatus := getCompositeReplicationStatus (rs_Targets rs) in
      if negb (rs_ReplicaTimeStamp rs =? timeSentinel)%Z && String.eqb replStatus StatusCompleted && (rs_ReplicationTimeStamp rs <? rs_ReplicaTimeStamp rs)%Z
      then rs_ReplicaStatus rs else replStatus
  else rs_ReplicaStatus rs.

Definition CompositeVersionPurgeStatus (rs : ReplicationState) : string :=
  let st := rs_VersionPurgeStatusInternal rs in
  if existsb (String.eqb st) [PurgePending; PurgeComplete; PurgeFailed] then st else getCompositeVersionPurgeStatus (rs_PurgeTargets rs).

Definition targetState (rs : ReplicationState) (arn : string) : replicatedTargetInfo :=
  mkRTI arn 0 "" "" (default "" (rs_Targets rs !! arn)) (default "" (rs_PurgeTargets rs !! arn)) (default "" (default ∅ (rs_ResetStatusesMap rs) !! arn)) false.

(** Writing to a nil map panics. *)
Fixpoint set_resets (m : option (gmap string string)) (ts : list replicatedTargetInfo) : outcome () (option (gmap string string)) :=
  match ts with
  | [] => Ok m
  | t :: ts =>
      if String.eqb (rti_ResyncTimestamp t) "" then set_resets m ts
      else match m with
      | None => Panic "assignment to entry in nil map"
      | Some m => set_resets (Some (<[targetResetHeader (rti_Arn t) := rti_ResyncTimestamp t]> m)) ts
      end
  end.

(** The map of resets is the one of [prevState], changed in place. *)
Definition getReplicationState (ts : list replicatedTargetInfo) (timestamp : Z) (prevState : ReplicationState) : outcome () ReplicationState :=
  let replStatuses := ReplicationStatusInternal ts in
  let vpurgeStatuses := VersionPurgeStatusInternal ts in
  resets ←? set_resets (rs_ResetStatusesMap prevState) ts;
  Ok (mkRS (rs_ReplicaTimeStamp prevState) (rs_ReplicaStatus prevState) timestamp replStatuses vpurgeStatuses (rs_ReplicateDecisionStr prevState)
        (replicationStatusesMap replStatuses) (versionPurgeStatusesMap vpurgeStatuses) resets).

(** From the internal metadata, entry by entry in the order of [kvs]
    (cmd/erasure-metadata.go). *)
Definition internal_state_step (d : ReplicationState) (kv : string * string) : ReplicationState :=
  let '(k, v) := kv in
  let 'mkRS rt rst pt st pst dec tg ptg res := d in
  if equals k [ReservedMetadataPrefixLower +:+ ReplicationTimestamp] then mkRS rt rst (default 0%Z (ParseHTTP v)) st pst dec tg ptg res
  else if equals k [ReservedMetadataPrefixLower +:+ ReplicaTimestamp] then mkRS (default 0%Z (ParseHTTP v)) rst pt st pst dec tg ptg res
  else if equals k [ReservedMetadataPrefixLower +:+ ReplicaStatus] then mkRS rt v pt st pst dec tg ptg res
  else if equals k [ReservedMetadataPrefixLower +:+ ReplicationStatus] then mkRS rt rst pt v pst dec (replicationStatusesMap v) ptg res
  else if equals k [VersionPurgeStatusKey] then mkRS rt rst pt st v dec tg (versionPurgeStatusesMap v) res
  else if HasPrefix k (ReservedMetadataPrefixLower +:+ ReplicationReset) then
    let arn := TrimPrefix k (ReservedMetadataPrefixLower +:+ ReplicationReset +:+ "-") in
    mkRS rt rst pt st pst dec tg ptg (Some (<[arn := v]> (default ∅ res)))
  else d.

Definition getInternalReplicationState (kvs : list (string * string)) : ReplicationState := foldl internal_state_step ReplicationState_zero kvs.

(** [ObjectInfo.getReplicationState], from the user-defined metadata [kvs]. *)
Definition object_getReplicationState (statusInternal purgeInternal dsc : string) (kvs : list (string * string)) : ReplicationState :=
  mkRS 0 "" 0 statusInternal purgeInternal dsc (replicationStatusesMap statusInternal) (versionPurgeStatusesMap purgeInternal)
    (Some (foldl (λ m '(k, v), if HasPrefix k (ReservedMetadataPrefixLower +:+ ReplicationReset)
                               then <[TrimPrefix k (ReservedMetadataPrefixLower +:+ ReplicationReset +:+ "-") := v]> m else m) ∅ kvs)).

(** [ObjectToDelete.ReplicationState] *)
Definition delete_ReplicationState (markerStatus purgeStatuses dsc : string) : ReplicationState :=
  mkRS 0 "" 0 markerStatus purgeStatuses dsc (replicationStatusesMap markerStatus) (versionPurgeStatusesMap purgeStatuses) None.

(** [ObjectInfo.TargetReplicationStatus] *)
Fixpoint status_of (arn : string) (l : list (string * string)) : string :=
  match l with [] => "" | (a, s) :: l => if String.eqb a arn then s else status_of arn l end.
Definition TargetReplicationStatus (statusInternal arn : string) : string := status_of arn (replStatusRegex statusInternal).

(** ** Decisions *)

Record replicateTargetDecision := mkTD { td_Replicate : bool; td_Synchronous : bool; td_Arn : string; td_ID : string }.

Definition go_bool_str (b : bool) : string := if b then "true" else "false".

Definition td_String (t : replicateTargetDecision) : string :=
  go_bool_str (td_Replicate t) +:+ ";" +:+ go_bool_str (td_Synchronous t) +:+ ";" +:+ td_Arn t +:+ ";" +:+ td_ID t.

Definition newReplicateTargetDecision (arn : string) (replicate sync : bool) : replicateTargetDecision := mkTD replicate sync arn "".

Abbreviation ReplicateDecision := (gmap string replicateTargetDecision).

Definition dsc_Set (d : ReplicateDecision) (t : replicateTargetDecision) : ReplicateDecision := <[td_Arn t := t]> d.

Definition ReplicateAny (d : ReplicateDecision) : bool := existsb (λ kv, td_Replicate kv.2) (map_to_list d).
Definition dsc_Synchronous (d : ReplicateDecision) : bool := existsb (λ kv, td_Synchronous kv.2) (map_to_list d).

(** Maps are printed in the order in which the loop happens to visit them, [kvs]. *)
Definition dsc_String (kvs : list (string * replicateTargetDecision)) : string :=
  TrimSuffix (str_join "" ((λ '(key, value), key +:+ "=" +:+ td_String value +:+ ",") <$> kvs)) ",".

Definition PendingStatus (kvs : list (string * replicateTargetDecision)) : string :=
  print_statuses ((λ kv, (td_Arn kv.2, StatusPending)) <$> filter (λ kv, td_Replicate kv.2 = true) kvs).

Inductive dsc_error := errInvalidReplicateDecisionFormat | errParseBool.

(** [strconv.ParseBool] *)
Definition ParseBool (s : string) : outcome dsc_error bool :=
  if existsb (String.eqb s) ["1"; "t"; "T"; "true"; "TRUE"; "True"] then Ok true
  else if existsb (String.eqb s) ["0"; "f"; "F"; "false"; "FALSE"; "False"] then Ok false
  else Err errParseBool.

Definition quote_mark : string := String (ascii_of_N 34) "".

Definition parse_pair (p : string) : outcome dsc_error (string * replicateTargetDecision) :=
  match split_char "=" p with
  | [key; value] =>
      match split_char ";" (TrimSuffix (TrimPrefix value quote_mark) quote_mark) with
      | [t0; t1; t2; t3] => replicate ←? ParseBool t0; sync ←? ParseBool t1; Ok (key, mkTD replicate sync t2 t3)
      | _ => Err errInvalidReplicateDecisionFormat
      end
  | _ => Err errInvalidReplicateDecisionFormat
  end.

Fixpoint parse_pairs (r : ReplicateDecision) (pairs : list string) : outcome dsc_error ReplicateDecision :=
  match pairs with
  | [] => Ok r
  | p :: pairs => '(k, t) ←? parse_pair p; parse_pairs (<[k := t]> r) pairs
  end.

Definition parseReplicateDecision (s : string) : outcome dsc_error ReplicateDecision :=
  if (String.length s =? 0)%nat then Ok ∅ else parse_pairs ∅ (split_char "," s).

(** [ResyncDecision] *)
Record ResyncTargetDecision := mkRTD { rd_Replicate : bool; rd_ResetID : string; rd_ResetBeforeDate : Z }.

Definition mustResync (targets : option (gmap string ResyncTargetDecision)) : bool := existsb (λ kv, rd_Replicate kv.2) (map_to_list (default ∅ targets)).
Definition mustResyncTarget (targets : option (gmap string ResyncTargetDecision)) (arn : string) : bool :=
  match targets with None => false | Some m => match m !! arn with Some v => rd_Replicate v | None => false end end.

(** ** The regular expression reads what was printed *)

Lemma lazy_until_here {R} c (k : chars → chars → option R) acc w rest r :
  Forall (λ a, a ≠ c ∧ a ≠ newline) w → k (reverse acc ++ w) rest = Some r → lazy_until c k acc (w ++ c :: rest) = Some r.
Proof.
  intros Hw. revert acc. induction Hw as [|a w [Hc Hn] _ IH]; intros acc Hk; cbn [app lazy_until].
  - rewrite Ascii.eqb_refl. rewrite app_nil_r in Hk. by rewrite Hk.
  - rewrite (proj2 (Ascii.eqb_neq a c)), (proj2 (Ascii.eqb_neq a newline)) by done. apply IH. by rewrite reverse_cons, <- app_assoc.
Qed.

Definition clean_arn (s : string) : Prop := s ≠ "" ∧ no_char "=" s = true ∧ no_char newline s = true.
Definition clean_status (s : string) : Prop := s ≠ "" ∧ no_char ";" s = true ∧ no_char "," s = true ∧ no_char newline s = true.

Lemma list_ascii_ne s : s ≠ "" → String.list_ascii_of_string s ≠ [].
Proof. by destruct s. Qed.

Lemma match_here_entry (arn status : string) rest :
  clean_arn arn → clean_status status →
  match_here (String.list_ascii_of_string arn ++ "="%char :: String.list_ascii_of_string status ++ ";"%char :: rest)
  = Some (String.list_ascii_of_string arn, String.list_ascii_of_string status, rest).
Proof.
  intros (Hne%list_ascii_ne & He & Hn) (Hse%list_ascii_ne & Hsc & Hco & Hsn). rewrite no_char_Forall in *.
  destruct (String.list_ascii_of_string arn) as [|a w]; [done|]. destruct (String.list_ascii_of_string status) as [|b v]; [done|].
  apply Forall_cons in He as [Ha He], Hn as [_ Hn], Hsc as [_ Hsc], Hco as [Hb _], Hsn as [_ Hsn]. cbn [app match_here]. rewrite (proj2 (Ascii.eqb_neq a "=")) by done. apply lazy_until_here; [by apply Forall_and|]. cbn [app].
  rewrite (proj2 (Ascii.eqb_neq b ",")) by done. apply lazy_until_here; [by apply Forall_and|done].
Qed.

Definition entry_chars (kv : string * string) : chars :=
  String.list_ascii_of_string kv.1 ++ "="%char :: String.list_ascii_of_string kv.2 ++ [";"%char].

Lemma find_all_entries fuel l :
  Forall (λ kv, clean_arn kv.1 ∧ clean_status kv.2) l → (length (concat (entry_chars <$> l)) ≤ fuel)%nat →
  find_all fuel (concat (entry_chars <$> l)) = l.
Proof.
  intros Hl. revert fuel. induction Hl as [|[arn st] l [Ha Hs] _ IH]; intros fuel Hf; [by destruct fuel|].
  cbn [fmap list_fmap concat] in *. set (rest := concat (entry_chars <$> l)) in *. cbn [fst snd] in *.
  assert (entry_chars (arn, st) ++ rest = String.list_ascii_of_string arn ++ "="%char :: String.list_ascii_of_string st ++ ";"%char :: rest) as E
    by (unfold entry_chars; cbn [fst snd]; by rewrite <- app_assoc; cbn [app]; rewrite <- app_assoc).
  rewrite length_app in Hf. assert (0 < length (entry_chars (arn, st)))%nat as Hpos by (unfold entry_chars; rewrite length_app; cbn; lia).
  rewrite E. pose proof (match_here_entry arn st rest Ha Hs) as Hm. destruct fuel as [|fuel]; [lia|].
  destruct (String.list_ascii_of_string arn ++ _ :: _) as [|c s] eqn:Ec; [done|]. cbn [find_all]. rewrite Hm, !String.string_of_list_ascii_of_string.
  f_equal. apply IH. lia.
Qed.

Lemma list_ascii_print l : String.list_ascii_of_string (print_statuses l) = concat (entry_chars <$> l).
Proof.
  unfold print_statuses. induction l as [|[arn st] l IH]; [done|]. rewrite !fmap_cons, str_join_nil, list_ascii_app, IH.
  cbn [concat]. f_equal. unfold entry_chars. cbn [fst snd]. by rewrite !list_ascii_app.
Qed.

Lemma string_length_list s : String.length s = length (String.list_ascii_of_string s).
Proof. induction s; cbn; congruence. Qed.

(** What was printed is found, entry by entry. *)
Lemma regex_entries l : Forall (λ kv, clean_arn kv.1 ∧ clean_status kv.2) l → replStatusRegex (print_statuses l) = l.
Proof. intros Hl. unfold replStatusRegex. rewrite string_length_list, list_ascii_print. by apply find_all_entries. Qed.

Lemma foldl_insert_list (l : list (string * string)) (m : gmap string string) :
  NoDup l.*1 → (∀ k, k ∈ l.*1 → m !! k = None) → foldl (λ m '(k, v), <[k := v]> m) m l = list_to_map l ∪ m.
Proof.
  revert m. induction l as [|[k v] l IH]; intros m Hnd Hm; cbn [foldl]; [symmetry; apply (left_id_L ∅ (∪))|].
  cbn in Hnd. apply NoDup_cons in Hnd as [Hk Hnd]. rewrite IH; [|done|].
  - rewrite list_to_map_cons, <- insert_union_l, <- insert_union_r; [done|]. by apply not_elem_of_list_to_map_1.
  - intros k' Hk'. rewrite lookup_insert_ne by (intros ->; done). apply Hm. by right.
Qed.

Lemma statuses_map_print l :
  Forall (λ kv, clean_arn kv.1 ∧ clean_status kv.2) l → NoDup l.*1 → statuses_map (print_statuses l) = list_to_map l.
Proof.
  intros Hc Hn. unfold statuses_map. rewrite regex_entries by done. rewrite foldl_insert_list; [by rewrite (right_id_L ∅ (∪))|done|done].
Qed.

(** ** The overall status *)

(** It does not depend on the order in which a map is visited. *)
Lemma composite_spec failed complete pending completed total vs :
  failed ≠ complete →
  composite failed complete pending completed total vs =
  if decide (failed ∈ vs) then failed
  else if (completed + count (λ v, v = complete) vs =? total)%nat then complete else pending.
Proof.
  intros Hne. revert completed. induction vs as [|v vs IH]; intros completed; cbn [composite].
  - rewrite decide_False by apply not_elem_of_nil. by rewrite Nat.add_0_r.
  - rewrite count_cons. destruct (String.eqb_spec v failed) as [->|Hv].
    { by rewrite decide_True by apply list_elem_of_here. }
    rewrite IH. assert (failed ∈ v :: vs ↔ failed ∈ vs) as Hin by (rewrite elem_of_cons; naive_solver).
    destruct (decide (failed ∈ vs)) as [Hf|Hf]; [by rewrite decide_True by tauto|rewrite (decide_False (P := failed ∈ v :: vs)) by tauto].
    destruct (String.eqb_spec v complete) as [E|E]; [by rewrite one_if_true, Nat.add_succ_comm by done|by rewrite one_if_false by done].
Qed.

Lemma composite_status_perm complete vs vs' : complete ≠ "FAILED" → vs ≡ₚ vs' → composite_status complete vs = composite_status complete vs'.
Proof.
  intros Hne Hp. unfold composite_status. rewrite (Permutation_length Hp). case_if; [done|]. rewrite !composite_spec by done.
  assert (count (λ v, v = complete) vs = count (λ v, v = complete) vs') as -> by (unfold count; by rewrite Hp).
  destruct (decide ("FAILED" ∈ vs)) as [H|H]; rewrite Hp in H; [by rewrite decide_True|by rewrite decide_False].
Qed.

Lemma composite_map complete l :
  complete ≠ "FAILED" → NoDup l.*1 → composite_status complete ((map_to_list (list_to_map l : gmap string string)).*2) = composite_status complete l.*2.
Proof. intros Hne Hn. apply composite_status_perm; [done|]. by rewrite map_to_list_to_map. Qed.

(** ** Properties *)

Definition infos_of (ts : list replicatedTargetInfo) : list (string * string) := (λ t, (rti_Arn t, rti_ReplicationStatus t)) <$> ts.

Lemma status_of_lookup (l : list (string * string)) arn : NoDup l.*1 → status_of arn l = default "" ((list_to_map l : gmap string string) !! arn).
Proof.
  induction l as [|[a s] l IH]; intros Hn; cbn [status_of]; [done|]. cbn in Hn. apply NoDup_cons in Hn as [Ha Hn]. rewrite list_to_map_cons.
  destruct (String.eqb_spec a arn) as [->|Hne]; [by rewrite lookup_insert_eq|by rewrite lookup_insert_ne, IH].
Qed.

(** The state of a replication survives its string: when the targets of a replication have names
    of their own, and names and statuses without separators, then the state
    that [getReplicationState] stores has for every target exactly its status, as have the readers
    of the string, and the overall status read from the stored state is the one of the
    replication. *)
Theorem replication_status_roundtrip ts timestamp prev rs :
  Forall (λ t, clean_arn (rti_Arn t) ∧ clean_status (rti_ReplicationStatus t)) ts → NoDup (rti_Arn <$> ts) →
  getReplicationState ts timestamp prev = Ok rs →
  (∀ t, t ∈ ts → rs_Targets rs !! rti_Arn t = Some (rti_ReplicationStatus t) ∧
     TargetReplicationStatus (rs_ReplicationStatusInternal rs) (rti_Arn t) = rti_ReplicationStatus t ∧
     rti_PrevReplicationStatus (targetState rs (rti_Arn t)) = rti_ReplicationStatus t) ∧
  (∀ arn, arn ∉ rti_Arn <$> ts → rs_Targets rs !! arn = None) ∧
  getCompositeReplicationStatus (rs_Targets rs) = infos_ReplicationStatus ts.
Proof.
  intros Hc Hn. unfold getReplicationState. intros (resets & _ & [= <-])%obind_ok. cbn [rs_Targets rs_ReplicationStatusInternal].
  assert (ReplicationStatusInternal ts = print_statuses (infos_of ts)) as ->.
  { unfold ReplicationStatusInternal, infos_of. rewrite filter_all; [done|]. eapply Forall_impl; [exact Hc|]. intros t [[Hne _] _].
    unfold rti_Empty. by apply String.eqb_neq. }
  assert ((infos_of ts).*1 = rti_Arn <$> ts) as E1 by (unfold infos_of; by rewrite <- list_fmap_compose).
  assert (Forall (λ kv, clean_arn kv.1 ∧ clean_status kv.2) (infos_of ts)) as Hc' by by apply Forall_fmap.
  unfold replicationStatusesMap, TargetReplicationStatus. rewrite statuses_map_print, regex_entries by (done || by rewrite E1).
  assert (∀ t, t ∈ ts → (list_to_map (infos_of ts) : gmap string string) !! rti_Arn t = Some (rti_ReplicationStatus t)) as Hl.
  { intros t Ht. apply elem_of_list_to_map; [by rewrite E1|]. by apply (list_elem_of_fmap_2 (λ t, (rti_Arn t, rti_ReplicationStatus t))). }
  split_and!.
  - intros t Ht. cbn [targetState rti_PrevReplicationStatus rs_Targets]. rewrite status_of_lookup, Hl by (done || by rewrite E1). done.
  - intros arn Ha. apply not_elem_of_list_to_map_1. by rewrite E1.
  - unfold getCompositeReplicationStatus. rewrite composite_map by (done || by rewrite E1). unfold infos_of. by rewrite <- list_fmap_compose.
Qed.

Definition demo_infos : list replicatedTargetInfo :=
  [mkRTI "arn:minio:replication::a:b1" 5 "all" "COMPLETED" "PENDING" "" "" false; mkRTI "arn:minio:replication::c:b2" 5 "all" "FAILED" "PENDING" "" "" false].

Lemma replication_status_roundtrip_witness :
  ∃ rs, getReplicationState demo_infos 7 ReplicationState_zero = Ok rs ∧ getCompositeReplicationStatus (rs_Targets rs) = infos_ReplicationStatus demo_infos.
Proof.
  eexists. split; [reflexivity|]. eapply (replication_status_roundtrip demo_infos 7 ReplicationState_zero); [| |reflexivity].
  - repeat constructor; try done; by vm_compute.
  - by apply (bool_decide_unpack _).
Defined.

(** Names and IDs without separators. *)
Definition clean_decision (kv : string * replicateTargetDecision) : Prop :=
  kv.1 = td_Arn kv.2 ∧ Forall (λ c, no_char c (td_Arn kv.2) = true ∧ no_char c (td_ID kv.2) = true) [","; "="; ";"; ascii_of_N 34]%char.

Definition pair_text (kv : string * replicateTargetDecision) : string := kv.1 +:+ "=" +:+ td_String kv.2.

Lemma dsc_String_join kvs : dsc_String kvs = str_join "," (pair_text <$> kvs).
Proof.
  unfold dsc_String. destruct (decide (kvs = [])) as [->|Hne]; [done|].
  assert (str_join "" ((λ '(key, value), key +:+ "=" +:+ td_String value +:+ ",") <$> kvs) = str_join "," (pair_text <$> kvs) +:+ ",") as ->;
    [|apply TrimSuffix_app].
  induction kvs as [|[k v] kvs IH]; [done|]. rewrite !fmap_cons, str_join_nil. destruct (decide (kvs = [])) as [->|Hne'].
  - cbn [fmap list_fmap str_join]. unfold pair_text. cbn [fst snd]. by rewrite str_app_nil_r, !str_app_assoc.
  - rewrite IH by done. rewrite (str_join_cons ",") by (by destruct kvs). unfold pair_text at 2. cbn [fst snd]. by rewrite !str_app_assoc.
Qed.

Lemma TrimSuffix_none s c : no_char c s = true → TrimSuffix s (String c "") = s.
Proof.
  intros Hs. unfold TrimSuffix. destruct (HasSuffix s (String c "")) eqn:E; [|done]. apply HasSuffix_spec in E as [r ->].
  rewrite no_char_app in Hs. destruct_bools. cbn in *. by rewrite Ascii.eqb_refl in *.
Qed.

Lemma TrimPrefix_no_char s c : no_char c s = true → TrimPrefix s (String c "") = s.
Proof.
  intros Hs. unfold TrimPrefix, HasPrefix. destruct (String.prefix (String c "") s) eqn:E; [|done]. apply prefix_spec in E as [r ->].
  cbn in Hs. by rewrite Ascii.eqb_refl in Hs.
Qed.

Lemma ParseBool_str b : ParseBool (go_bool_str b) = Ok b.
Proof. by destruct b. Qed.

Lemma parse_pair_text kv : clean_decision kv → no_char "," (pair_text kv) = true ∧ parse_pair (pair_text kv) = Ok kv.
Proof.
  destruct kv as [k [r s arn id]]. intros [E Hc]. cbn [fst snd td_Arn td_ID] in *. subst k.
  repeat (apply Forall_cons in Hc as [[? ?] Hc]).
  assert (∀ c, c = ","%char ∨ c = "="%char ∨ c = ascii_of_N 34 → no_char c (td_String (mkTD r s arn id)) = true) as Hno.
  { intros c Hcc. unfold td_String. cbn [td_Replicate td_Synchronous td_Arn td_ID]. rewrite !no_char_app.
    destruct Hcc as [->|[->| ->]]; rewrite ?andb_true_iff; split_and!; try done; by destruct r, s. }
  split; unfold pair_text; cbn [fst snd].
  - rewrite !no_char_app, !andb_true_iff. split_and!; [done|done|apply Hno; auto].
  - unfold parse_pair. change ("=" +:+ td_String (mkTD r s arn id)) with (String "=" (td_String (mkTD r s arn id))).
    rewrite split_char_app, split_char_single by (done || apply Hno; auto).
    unfold quote_mark. rewrite TrimPrefix_no_char, TrimSuffix_none by (apply Hno; auto). unfold td_String. cbn [td_Replicate td_Synchronous td_Arn td_ID].
    cbn [String.append]. rewrite split_char_app by by destruct r. rewrite split_char_app by by destruct s.
    rewrite split_char_app, split_char_single by done. by rewrite !ParseBool_str.
Qed.

Lemma parse_pairs_texts kvs m :
  Forall clean_decision kvs → NoDup kvs.*1 → (∀ k, k ∈ kvs.*1 → m !! k = None) →
  parse_pairs m (pair_text <$> kvs) = Ok (list_to_map kvs ∪ m).
Proof.
  intros Hc. revert m. induction Hc as [|[k t] kvs Hk _ IH]; intros m Hn Hm; cbn [fmap list_fmap parse_pairs].
  { f_equal. symmetry. apply (left_id_L ∅ (∪)). }
  destruct (parse_pair_text (k, t) Hk) as [_ ->]. cbn [obind]. cbn in Hn. apply NoDup_cons in Hn as [Hnk Hn]. rewrite IH; [|done|].
  - f_equal. rewrite list_to_map_cons, <- insert_union_l, <- insert_union_r; [done|]. by apply not_elem_of_list_to_map_1.
  - intros k' Hk'. rewrite lookup_insert_ne by (intros ->; done). apply Hm. by right.
Qed.

(** A decision survives its string: in whatever order the loop visits the targets of a
    decision, parsing the printed decision gives it back, when names and IDs have no separators. *)
Theorem decision_roundtrip (d : ReplicateDecision) kvs :
  kvs ≡ₚ map_to_list d → Forall clean_decision kvs → parseReplicateDecision (dsc_String kvs) = Ok d.
Proof.
  intros Hp Hc. assert (list_to_map kvs = d) as Hd.
  { rewrite <- (list_to_map_to_list d). apply list_to_map_proper; [|done]. rewrite Hp. apply NoDup_fst_map_to_list. }
  assert (NoDup kvs.*1) as Hn by (rewrite Hp; apply NoDup_fst_map_to_list). unfold parseReplicateDecision. rewrite dsc_String_join.
  destruct (decide (kvs = [])) as [->|Hne]; [by rewrite <- Hd|]. case_if.
  - apply Nat.eqb_eq in E. destruct kvs as [|kv kvs]; [done|]. exfalso. revert E. rewrite fmap_cons.
    assert (0 < String.length (pair_text kv)) by (unfold pair_text; rewrite !str_length_app; cbn; lia).
    destruct (pair_text <$> kvs) as [|p ps]; [cbn; lia|]. rewrite str_join_cons by done. rewrite str_length_app. lia.
  - rewrite split_join; [|by destruct kvs|].
    + rewrite parse_pairs_texts by done. by rewrite Hd, (right_id_L ∅ (∪)).
    + apply Forall_fmap. eapply Forall_impl; [exact Hc|]. intros kv Hkv. by apply parse_pair_text.
Qed.

Lemma decision_roundtrip_witness :
  let d := dsc_Set (dsc_Set ∅ (newReplicateTargetDecision "arn:minio:replication::a:b1" true false)) (newReplicateTargetDecision "arn:minio:replication::c:b2" false true) in
  parseReplicateDecision (dsc_String (map_to_list d)) = Ok d.
Proof. cbv zeta. apply (decision_roundtrip _ _ (reflexivity _)). vm_compute. repeat constructor. Defined.

(** An empty status is not read back: the expression takes the separator for the first character of
    the status, and the status of the first target swallows the second target. *)
Lemma empty_status_garbled :
  let t arn := mkRTI arn 0 "" "" "" "COMPLETE" "" false in
  replicationStatusesMap (ReplicationStatusInternal [t "arn1"; t "arn2"]) = {[ "arn1" := ";arn2=" ]}.
Proof. vm_compute. reflexivity. Qed.
