(* ===== verification/Restore.v ===== *)
(** * Restored copies of archived objects (cmd/bucket-lifecycle.go)

    An object version whose transition to another tier is complete has its data there. A restored
    copy is announced in the header x-amz-restore, with the time until which it stays. The code
    prints the header, parses it, and decides by it where the data is. *)

From Stdlib Require Import ZArith Lia Bool Ascii.
From S2P Require Import Prelude GoStrings GoTime HttpTime.

Local Open Scope Z_scope.

(** [lifecycle.TransitionComplete] *)
Definition TransitionComplete : string := "complete".

Definition AmzRestore : string := "x-amz-restore".
Definition AmzRestoreExpiryDays : string := "X-Amz-Restore-Expiry-Days".
Definition AmzRestoreRequestDate : string := "X-Amz-Restore-Request-Date".

Record restoreObjStatus := mkRestore { ro_ongoing : bool; ro_expiry : Z }.

Definition ongoingRestoreObj : restoreObjStatus := mkRestore true 0.
Definition completedRestoreObj (expiry : Z) : restoreObjStatus := mkRestore false expiry.

Definition ro_String (r : restoreObjStatus) : string :=
  if ro_ongoing r then "ongoing-request=true"
  else "ongoing-request=false, expiry-date=" +:+ FormatHTTP (ro_expiry r).

Definition ro_Expiry (r : restoreObjStatus) : Z * bool :=
  if ro_ongoing r then (0, false) else (ro_expiry r, true).

Definition OnDisk (now : Z) (r : restoreObjStatus) : bool :=
  let '(expiry, ok) := ro_Expiry r in ok && (now <? expiry).

(** [None] is [errRestoreHDRMalformed]. *)
Definition parseRestoreObjStatus (restoreHdr : string) : option restoreObjStatus :=
  let '(progress, rest) := split2 "," restoreHdr in
  match split2 "=" progress with
  | (_, None) => None
  | (key, Some val) =>
      if negb (String.eqb (TrimSpace key) "ongoing-request") then None
      else if String.eqb val "true" then
        match rest with None => Some ongoingRestoreObj | Some _ => None end
      else if String.eqb val "false" then
        rest ← rest;
        match split2 "=" rest with
        | (_, None) => None
        | (key, Some date) =>
            if negb (String.eqb (TrimSpace key) "expiry-date") then None
            else completedRestoreObj <$> ParseHTTP date
        end
      else None
  end.

Definition isRestoredObjectOnDisk (now : Z) (meta : gmap string string) : bool :=
  match meta !! AmzRestore ≫= parseRestoreObjStatus with
  | Some restoreStatus => OnDisk now restoreStatus
  | None => false
  end.

(** [IsRemote] of a version, by its transition status and its metadata. *)
Definition IsRemote (now : Z) (status : string) (meta : gmap string string) : bool :=
  String.eqb status TransitionComplete && negb (isRestoredObjectOnDisk now meta).

(** A header that the code wrote is read back, with the time in whole seconds. *)
Lemma parse_restore_String r :
  (ro_ongoing r = false → 0 ≤ ro_expiry r < year10000) →
  parseRestoreObjStatus (ro_String r) =
    Some (if ro_ongoing r then ongoingRestoreObj else completedRestoreObj (ro_expiry r - ro_expiry r mod Second)).
Proof.
  unfold ro_String. destruct (ro_ongoing r) eqn:E; [done|]. intros Ht. specialize (Ht eq_refl). unfold parseRestoreObjStatus.
  pose proof (ParseHTTP_Format _ Ht) as Hp. revert Hp. generalize (FormatHTTP (ro_expiry r)). intros d Hp.
  change ("ongoing-request=false, expiry-date=" +:+ d) with ("ongoing-request=false" +:+ String "," (" expiry-date" +:+ String "=" d)).
  rewrite split2_sep by done. change (split2 "=" "ongoing-request=false") with ("ongoing-request", Some "false"). cbv beta iota.
  replace (String.eqb (TrimSpace "ongoing-request") "ongoing-request") with true by (by vm_compute). cbn [negb mbind option_bind]. rewrite split2_sep by done.
  replace (String.eqb (TrimSpace " expiry-date") "expiry-date") with true by (by vm_compute). cbn [negb]. rewrite Hp. done.
Qed.

(** Whether a restored copy is on the drives, by the header that was written for it. *)
Lemma restored_until now expiry meta :
  0 ≤ expiry < year10000 → meta !! AmzRestore = Some (ro_String (completedRestoreObj expiry)) →
  isRestoredObjectOnDisk now meta = (now <? expiry - expiry mod Second).
Proof.
  intros He Hm. unfold isRestoredObjectOnDisk. rewrite Hm. cbn [mbind option_bind]. rewrite parse_restore_String by done. done.
Qed.
