(* ===== verification/ZcnErrors.v ===== *)
(** * Errors of the 0chain gateway (cmd/gateway/zcn/dStorage.go)

    The error values the gateway creates, receives and inspects. The text of a
    [zerror.Error] is formatted by github.com/0chain/errors, which is not part
    of the repository: [ZErrorPkg] is that package's [Error] method with the
    one fact the gateway relies on, that the text contains the message. *)

From Stdlib Require Import ZArith Lia Bool Ascii.
From S2P Require Import Prelude GoStrings.

Definition pathDoesNotExist : string := "path_no_exist".
Definition consensusFailed : string := "consensus_failed".

Inductive error : Type :=
  | ZError (code msg : string)            (** [*zerror.Error] *)
  | ErrorString (msg : string)            (** [errors.New], [fmt.Errorf], other packages *)
  | Canceled                              (** [context.Canceled] *)
  | DeadlineExceeded                      (** [context.DeadlineExceeded] *)
  | BucketNotFound (bucket : string)      (** [minio.BucketNotFound] *)
  | BucketNotEmpty (bucket : string)      (** [minio.BucketNotEmpty] *)
  | ObjectNotFound (bucket object : string)
  | PreConditionFailed.

#[export] Instance error_eq_dec : EqDecision error.
Proof. solve_decision. Defined.

Class ZErrorPkg := {
  zerror_Error : string → string → string;
  zerror_Error_msg : ∀ code msg, Contains (zerror_Error code msg) msg = true;
}.

(** The [Error()] method. *)
Definition Error_text `{ZErrorPkg} (e : error) : string :=
  match e with
  | ZError code msg => zerror_Error code msg
  | ErrorString msg => msg
  | Canceled => "context canceled"
  | DeadlineExceeded => "context deadline exceeded"
  | BucketNotFound b => "Bucket not found: " +:+ b
  | BucketNotEmpty b => "Bucket not empty: " +:+ b
  | ObjectNotFound b o => "Object not found: " +:+ b +:+ "/" +:+ o
  | PreConditionFailed => "At least one of the pre-conditions you specified did not hold"
  end.

Definition isPathNoExistError (err : option error) : bool :=
  match err with
  | Some (ZError code _) => String.eqb code pathDoesNotExist
  | _ => false
  end.

Definition isConsensusFailedError (err : option error) : bool :=
  match err with
  | Some (ZError code _) => String.eqb code consensusFailed
  | _ => false
  end.

Definition isSameRootError `{ZErrorPkg} (err : option error) : bool :=
  match err with
  | None => false
  | Some e => Contains (Error_text e) "previous allocation root are same"
  end.

Definition remotePathNotExistError `{ZErrorPkg} (err : option error) : bool :=
  match err with
  | None => false
  | Some e => Contains (Error_text e) "does not exist"
  end.

(** The error [getSingleRegularRef] makes for a missing path. *)
Definition not_exist_error (remotePath : string) : error :=
  ZError pathDoesNotExist ("remotepath " +:+ remotePath +:+ " does not exist").

Lemma Contains_trans a b c : Contains a b = true → Contains b c = true → Contains a c = true.
Proof.
  intros (x & y & ->)%Contains_spec (u & v & ->)%Contains_spec.
  apply Contains_spec. exists (x +:+ u), (v +:+ y). by rewrite !str_app_assoc.
Qed.

(** A missing path is recognised both by its code and by its text. *)
Lemma not_exist_error_recognised `{ZErrorPkg} p :
  isPathNoExistError (Some (not_exist_error p)) = true ∧
  remotePathNotExistError (Some (not_exist_error p)) = true.
Proof.
  split; [done|]. unfold remotePathNotExistError, not_exist_error, Error_text.
  eapply Contains_trans; [apply zerror_Error_msg|].
  apply Contains_spec. exists ("remotepath " +:+ p +:+ " "), "".
  by rewrite !str_app_assoc.
Qed.

Lemma isPathNoExist_not_consensus e :
  isPathNoExistError e = true → isConsensusFailedError e = false.
Proof.
  destruct e as [[| | | | | | |]|]; simpl; try done.
  intros H%String.eqb_eq. by subst.
Qed.

(** A formatting that meets the law: code, colon, message. *)
#[global] Program Instance colon_zerror : ZErrorPkg :=
  {| zerror_Error code msg := code +:+ ": " +:+ msg |}.
Next Obligation.
  intros code msg. apply Contains_spec. exists (code +:+ ": "), "".
  by rewrite str_app_nil_r, str_app_assoc.
Qed.
