(* ===== verification/ObjectNames.v ===== *)
(** * Validation of bucket and object names
    (cmd/object-api-utils.go, cmd/object-api-input-checks.go,
    cmd/generic-handlers.go)

    The name checks every S3 request passes before a path is built from it. The
    model is that of a non-Windows build: the branches on
    [runtime.GOOS == globalWindowsOSName] are not taken. *)

From Stdlib Require Import ZArith Lia Bool Ascii.
From S2P Require Import Prelude GoStrings GoPath.

(** ** [utf8.ValidString] *)

Definition cont (lo hi : N) (a : ascii) : bool := ascii_in lo hi a.
Fixpoint utf8_valid (s : string) : bool :=
  match s with
  | EmptyString => true
  | String a s1 =>
      if ascii_in 0 127 a then utf8_valid s1
      else match s1 with
      | EmptyString => false
      | String b s2 =>
          if ascii_in 194 223 a then cont 128 191 b && utf8_valid s2
          else match s2 with
          | EmptyString => false
          | String c s3 =>
              if ascii_in 224 224 a then cont 160 191 b && cont 128 191 c && utf8_valid s3
              else if ascii_in 237 237 a then cont 128 159 b && cont 128 191 c && utf8_valid s3
              else if ascii_in 225 239 a then cont 128 191 b && cont 128 191 c && utf8_valid s3
              else match s3 with
              | EmptyString => false
              | String d s4 =>
                  if ascii_in 240 240 a
                  then cont 144 191 b && cont 128 191 c && cont 128 191 d && utf8_valid s4
                  else if ascii_in 241 243 a
                  then cont 128 191 b && cont 128 191 c && cont 128 191 d && utf8_valid s4
                  else if ascii_in 244 244 a
                  then cont 128 143 b && cont 128 191 c && cont 128 191 d && utf8_valid s4
                  else false
              end
          end
      end
  end.

(** *** [utf8.RuneCountInString] *)

(** The width of the first rune: one byte if it is not valid UTF-8. *)
Definition rune_width (s : string) : nat :=
  if utf8_valid (str_take 1 s) then 1
  else if utf8_valid (str_take 2 s) && (2 <=? String.length s) then 2
  else if utf8_valid (str_take 3 s) && (3 <=? String.length s) then 3
  else if utf8_valid (str_take 4 s) && (4 <=? String.length s) then 4
  else 1.

Fixpoint rune_count (fuel : nat) (s : string) : nat :=
  match fuel with
  | 0 => 0
  | S fuel => if String.eqb s "" then 0 else S (rune_count fuel (str_drop (rune_width s) s))
  end.
Definition RuneCountInString (s : string) : nat := rune_count (String.length s) s.

(** ** The checks *)
Definition hasBadPathComponent (path : string) : bool :=
  existsb (λ p, let p := TrimSpace p in String.eqb p ".." || String.eqb p ".")
    (split_char slash (TrimSpace path)).

Definition minioMetaBucket : string := ".minio.sys".
Definition isMinioMetaBucketName (bucket : string) : bool := HasPrefix bucket minioMetaBucket.

(** The inner loop over one label: [None] for an invalid character, otherwise
    whether a non-digit was found. *)
Fixpoint label_scan (isNotNumber : bool) (piece : string) : option bool :=
  match piece with
  | EmptyString => Some isNotNumber
  | String a piece =>
      if ascii_in 97 122 a || Ascii.eqb a "-"%char then label_scan true piece
      else if ascii_in 48 57 a then label_scan isNotNumber piece
      else None
  end.

(** The loop over the labels: [None] for an invalid label, otherwise
    [allNumbers]. *)
Fixpoint labels_scan (allNumbers : bool) (pieces : list string) : option bool :=
  match pieces with
  | [] => Some allNumbers
  | piece :: pieces =>
      if (String.length piece =? 0)%nat || HasPrefix piece "-" || HasSuffix piece "-" then None
      else match label_scan false piece with
           | None => None
           | Some isNotNumber => labels_scan (allNumbers && negb isNotNumber) pieces
           end
  end.

Definition IsValidBucketName (bucket : string) : bool :=
  if isMinioMetaBucketName bucket then true
  else if (String.length bucket <? 3)%nat || (63 <? String.length bucket)%nat then false
  else
    let pieces := split_char "."%char bucket in
    match labels_scan true pieces with
    | None => false
    | Some allNumbers => negb ((length pieces =? 4)%nat && allNumbers)
    end.

Definition IsValidObjectPrefix (object : string) : bool :=
  if hasBadPathComponent object then false
  else if negb (utf8_valid object) then false
  else if Contains object "//" then false
  else true.

Definition IsValidObjectName (object : string) : bool :=
  if (String.length object =? 0)%nat then false
  else if HasSuffix object "/" then false
  else IsValidObjectPrefix object.

Inductive name_error :=
  | ObjectNameTooLong (bucket object : string)
  | ObjectNamePrefixAsSlash (bucket object : string)
  | ObjectNameInvalid (bucket object : string)
  | BucketNameInvalid (bucket : string).

Definition checkObjectNameForLengthAndSlash (bucket object : string) : option name_error :=
  if (1024 <? String.length object)%nat then Some (ObjectNameTooLong bucket object)
  else if HasPrefix object "/" then Some (ObjectNamePrefixAsSlash bucket object)
  else None.

(** [checkBucketAndObjectNames]; [validBucket] is
    [s3utils.CheckValidBucketName], from github.com/minio/minio-go. *)
Definition checkBucketAndObjectNames (validBucket : string → bool) (bucket object : string)
    : option name_error :=
  if negb (isMinioMetaBucketName bucket) && negb (validBucket bucket)
  then Some (BucketNameInvalid bucket)
  else if (String.length object =? 0)%nat then Some (ObjectNameInvalid bucket object)
  else if negb (IsValidObjectPrefix object) then Some (ObjectNameInvalid bucket object)
  else None.

(** [checkObjectArgs] and [checkPutObjectArgs] after the bucket was found. *)
Definition checkObjectArgs (bucket object : string) : option name_error :=
  match checkObjectNameForLengthAndSlash bucket object with
  | Some e => Some e
  | None =>
      if negb (IsValidObjectName object) then Some (ObjectNameInvalid bucket object) else None
  end.
Definition checkPutObjectArgs (bucket object : string) : option name_error :=
  match checkObjectNameForLengthAndSlash bucket object with
  | Some e => Some e
  | None =>
      if (String.length object =? 0)%nat || negb (IsValidObjectPrefix object)
      then Some (ObjectNameInvalid bucket object) else None
  end.

Definition retainSlash (s : string) : string :=
  if String.eqb s "" then s else TrimSuffix s "/" +:+ "/".

(** [pathJoin] keeps the trailing slash of the last element. *)
Definition pathJoin (l : list string) : string :=
  Join l +:+ (if HasSuffix (last_elem "" l) "/" then "/" else "").

(** ** What the checks establish *)

Fixpoint all_char (c : ascii) (s : string) : bool :=
  match s with
  | EmptyString => true
  | String a s => Ascii.eqb a c && all_char c s
  end.

Lemma all_char_app c a b : all_char c (a +:+ b) = all_char c a && all_char c b.
Proof. induction a; simpl; [done|]. by rewrite IHa, andb_assoc. Qed.

Lemma all_no_char c r : all_char c r = true → no_char c r = true → r = "".
Proof.
  destruct r as [|a r]; simpl; [done|]. intros [-> _]%andb_true_iff. by simpl.
Qed.

Lemma split_char_app_l c r s :
  no_char c r = true →
  split_char c (r +:+ s) =
  match split_char c s with w :: ws => (r +:+ w) :: ws | [] => [r] end.
Proof.
  induction r as [|a r IH]; simpl.
  - intros _. destruct (split_char c s) eqn:E; [by destruct (split_char_ne c s)|done].
  - intros [H1%negb_true_iff H2]%andb_true_iff. rewrite H1, IH by done.
    by destruct (split_char c s).
Qed.

Lemma split_char_app_r c r s :
  no_char c r = true →
  ∃ init w, split_char c s = init ++ [w] ∧ split_char c (s +:+ r) = init ++ [w +:+ r].
Proof.
  intros Hr. induction s as [|a s IH]; simpl.
  - exists [], "". simpl. split; [done|]. by apply split_char_single.
  - destruct IH as (init & w & E1 & E2). rewrite E1, E2.
    destruct (Ascii.eqb a c); [by exists ("" :: init), w|].
    destruct init as [|i init]; simpl; [by exists [], (String a w)|].
    by exists (String a i :: init), w.
Qed.

(** Trimming white space off a path does not lose a "." or ".." element. *)
Definition dotty (e : string) : Prop := e ≠ "" ∧ all_char "."%char e = true.

Lemma trim_l_dotty e r s :
  dotty e → no_char slash r = true → no_char "."%char r = true → r ≠ "" →
  e ∈ elems (r +:+ s) → e ∈ elems s.
Proof.
  intros [_ He] H1 H2 Hne. unfold elems. rewrite split_char_app_l by done.
  destruct (split_char slash s) as [|w ws]; intros [->|H]%elem_of_cons; try by right.
  - by destruct Hne; apply (all_no_char "."%char).
  - by apply not_elem_of_nil in H.
  - rewrite all_char_app in He. apply andb_true_iff in He as [He _].
    by destruct Hne; apply (all_no_char "."%char).
Qed.

Lemma trim_r_dotty e r s :
  dotty e → no_char slash r = true → no_char "."%char r = true → r ≠ "" →
  e ∈ elems (s +:+ r) → e ∈ elems s.
Proof.
  intros [_ He] H1 H2 Hne. unfold elems.
  destruct (split_char_app_r slash r s H1) as (init & w & -> & ->).
  rewrite !elem_of_app, !list_elem_of_singleton. intros [?| ->]; [by left|].
  rewrite all_char_app in He. apply andb_true_iff in He as [_ He].
  by destruct Hne; apply (all_no_char "."%char).
Qed.

Lemma space_runes_ok r :
  r ∈ space_runes → no_char slash r = true ∧ no_char "."%char r = true ∧ r ≠ "".
Proof.
  assert (H : Forall (λ r, no_char slash r = true ∧ no_char "."%char r = true ∧ r ≠ "") space_runes).
  { repeat (constructor; [by vm_compute|]). constructor. }
  rewrite Forall_forall in H. apply H.
Qed.

Lemma TrimPrefix_inv s r : HasPrefix s r = true → s = r +:+ TrimPrefix s r.
Proof. intros H. apply prefix_spec in H as [t ->]. by rewrite TrimPrefix_app. Qed.
Lemma TrimSuffix_inv s r : HasSuffix s r = true → s = TrimSuffix s r +:+ r.
Proof. intros H. apply HasSuffix_spec in H as [t ->]. by rewrite TrimSuffix_app. Qed.

Lemma trim_left_dotty fuel e s : dotty e → e ∈ elems s → e ∈ elems (trim_left fuel s).
Proof.
  intros He. revert s. induction fuel as [|fuel IH]; intros s Hs; [done|]. cbn [trim_left].
  destruct (List.find _ _) as [r|] eqn:E; [|done].
  apply List.find_some in E as [Hin%list_elem_of_In Hp].
  destruct (space_runes_ok r Hin) as (H1 & H2 & H3).
  apply IH, (trim_l_dotty _ r); try done. by rewrite <- TrimPrefix_inv.
Qed.

Lemma trim_right_dotty fuel e s : dotty e → e ∈ elems s → e ∈ elems (trim_right fuel s).
Proof.
  intros He. revert s. induction fuel as [|fuel IH]; intros s Hs; [done|]. cbn [trim_right].
  destruct (List.find _ _) as [r|] eqn:E; [|done].
  apply List.find_some in E as [Hin%list_elem_of_In Hp].
  destruct (space_runes_ok r Hin) as (H1 & H2 & H3).
  apply IH, (trim_r_dotty _ r); try done. by rewrite <- TrimSuffix_inv.
Qed.

Lemma hasBadPathComponent_false path e :
  hasBadPathComponent path = false → e ∈ elems path → e ≠ "." ∧ e ≠ "..".
Proof.
  intros H He.
  assert (Hd : ∀ d, dotty d → d = "." ∨ d = ".." → d ≠ e).
  { intros d Hdd Hd <-.
    apply (trim_left_dotty (String.length path)) in He; [|done].
    apply (trim_right_dotty (String.length (trim_left (String.length path) path))) in He; [|done].
    change (existsb (λ p, let p := TrimSpace p in String.eqb p ".." || String.eqb p ".")
              (elems (TrimSpace path)) = false) in H.
    assert (existsb (λ p, let p := TrimSpace p in String.eqb p ".." || String.eqb p ".")
              (elems (TrimSpace path)) = true); [|congruence].
    apply existsb_exists. exists d. split; [by apply list_elem_of_In|].
    by destruct Hd as [-> | ->]. }
  split; intros ->; [apply (Hd ".")|apply (Hd "..")]; auto; done.
Qed.

Lemma empty_elem_cases s :
  "" ∈ elems s → s = "" ∨ HasPrefix s "/" = true ∨ HasSuffix s "/" = true ∨ Contains s "//" = true.
Proof.
  intros H. rewrite <- (join_split slash s). fold (elems s).
  apply list_elem_of_split in H as (l1 & l2 & Hl). rewrite Hl.
  change (String slash "") with "/".
  destruct l1 as [|x l1].
  { destruct l2 as [|y l2]; [by left|right; left]. simpl app.
    rewrite str_join_cons by done. apply (prefix_app "/"). }
  destruct l2 as [|y l2].
  { right; right; left. rewrite str_join_app by done. apply HasSuffix_spec.
    exists (str_join "/" (x :: l1)). done. }
  right; right; right. rewrite str_join_app by done. rewrite (str_join_cons "/" "" (y :: l2)) by done.
  apply Contains_spec. exists (str_join "/" (x :: l1)), (str_join "/" (y :: l2)). done.
Qed.

Lemma IsValidObjectPrefix_inv o :
  IsValidObjectPrefix o = true →
  hasBadPathComponent o = false ∧ utf8_valid o = true ∧ Contains o "//" = false.
Proof.
  unfold IsValidObjectPrefix. intros H.
  by destruct (hasBadPathComponent o), (utf8_valid o), (Contains o "//").
Qed.

Lemma IsValidObjectName_inv o :
  IsValidObjectName o = true → o ≠ "" ∧ HasSuffix o "/" = false ∧ IsValidObjectPrefix o = true.
Proof.
  unfold IsValidObjectName. destruct o as [|a o]; [done|]. simpl String.length.
  change (S _ =? 0) with false. cbv iota. by destruct (HasSuffix (String a o) "/").
Qed.

(** A name accepted for an object has only plain elements. *)
Lemma valid_name_plain o :
  IsValidObjectName o = true → HasPrefix o "/" = false →
  Forall (λ e, plain e = true) (elems o).
Proof.
  intros (H1 & H2 & (H3 & H4 & H5)%IsValidObjectPrefix_inv)%IsValidObjectName_inv Hp.
  apply Forall_forall. intros e He.
  destruct (hasBadPathComponent_false o e H3 He) as [Hd Hdd].
  pose proof (split_char_no_char slash o) as Hs. rewrite Forall_forall in Hs.
  apply plain_intro; [|done|done|by apply Hs].
  intros ->. destruct (empty_elem_cases o He) as [?|[?|[?|?]]]; congruence.
Qed.

Lemma label_scan_no_slash b p v : label_scan b p = Some v → no_char slash p = true.
Proof.
  revert b. induction p as [|a p IH]; intros b; simpl; [done|].
  destruct (ascii_in 97 122 a || Ascii.eqb a "-"%char) eqn:E.
  - intros H. rewrite (IH _ H), andb_true_r. destruct (Ascii.eqb_spec a slash) as [->|]; [|done].
    by vm_compute in E.
  - destruct (ascii_in 48 57 a) eqn:E2; [|done]. intros H. rewrite (IH _ H), andb_true_r.
    destruct (Ascii.eqb_spec a slash) as [->|]; [|done]. by vm_compute in E2.
Qed.

Lemma labels_scan_inv b ps v :
  labels_scan b ps = Some v → Forall (λ p, p ≠ "" ∧ no_char slash p = true) ps.
Proof.
  revert b. induction ps as [|p ps IH]; intros b; simpl; [done|].
  destruct (_ || _) eqn:E; [done|]. destruct (label_scan false p) eqn:El; [|done].
  intros H. constructor; [|by eapply IH]. destruct_bools. split; [by intros ->|].
  by eapply label_scan_no_slash.
Qed.

(** A regular bucket name is one plain path element. *)
Lemma valid_bucket_plain b :
  IsValidBucketName b = true → isMinioMetaBucketName b = false → plain b = true.
Proof.
  unfold IsValidBucketName. intros H Hm. rewrite Hm in H.
  destruct ((String.length b <? 3)%nat || _) eqn:El; [done|].
  destruct (labels_scan true (split_char "."%char b)) eqn:Es; [|done].
  apply labels_scan_inv in Es as Hps.
  apply orb_false_iff in El as [Hlen%Nat.ltb_ge _].
  apply plain_intro; [by intros -> | by intros -> | by intros ->; simpl in Hlen; lia|].
  rewrite <- (join_split "."%char b). clear -Hps.
  induction Hps as [|p ps [_ Hp] Hps IH]; [done|].
  destruct ps as [|q ps]; [done|]. rewrite str_join_cons by done.
  rewrite !no_char_app, Hp, IH. done.
Qed.
