(* ===== verification/ReplConfig.v ===== *)
(** * Replication rules and decisions (internal/bucket/replication, cmd/bucket-replication.go)

    A bucket has rules that say which objects go to which targets. For an upload
    ([mustReplicate]) or a deletion ([checkReplicateDelete]) the rules that apply are filtered,
    and for every target the one with the highest priority decides. *)

From Stdlib Require Import ZArith Lia Bool Sorted Ascii.
From S2P Require Import Prelude GoStrings SSEMeta GoSort GoTime ObjectNames Replication.

Local Open Scope go_scope.

(** ** Rules *)

Definition Enabled : string := "Enabled".
Definition Disabled : string := "Disabled".

Record rTag := mkrTag { rtag_Key : string; rtag_Value : string }.
Record rAnd := mkrAnd { rand_Prefix : string; rand_Tags : list rTag }.
Record rFilter := mkrFilter { rf_Prefix : string; rf_And : rAnd; rf_Tag : rTag }.
Record Destination := mkDest { dest_Bucket : string; dest_StorageClass : string; dest_ARN : string }.

Record rRule := mkrRule {
  rr_ID : string;
  rr_Status : string;
  rr_Priority : Z;
  rr_DeleteMarkerReplication : string;
  rr_DeleteReplication : string;
  rr_Destination : Destination;
  rr_ReplicaModifications : string;
  rr_Filter : rFilter;
  rr_ExistingObjectReplication : string;
}.

Record rConfig := mkrConfig { rc_Rules : list rRule; rc_RoleArn : string }.

Inductive repl_error :=
  | errReplicationTooManyRules | errReplicationNoRule | errReplicationUniquePriority | errRoleArnMissingLegacy | errDestinationArnMissing
  | errInvalidSourceSelectionCriteria | errRoleArnPresentForMultipleTargets | errInvalidRuleID | errEmptyRuleStatus | errInvalidRuleStatus
  | errDeleteMarkerReplicationMissing | errPriorityMissing | errInvalidDeleteMarkerReplicationStatus | errDestinationSourceIdentical
  | errDeleteReplicationMissing | errInvalidDeleteReplicationStatus | errInvalidExistingObjectReplicationStatus
  | rerrInvalidFilter | rerrDuplicateTagKey | rerrInvalidTagKey | rerrInvalidTagValue | errInvalidDestination | errUnknownStorageClass.

(** ** Tags and filters (tag.go, and.go, filter.go) *)

Definition rtag_String (t : rTag) : string := rtag_Key t +:+ "=" +:+ rtag_Value t.
Definition rtag_IsEmpty (t : rTag) : bool := String.eqb (rtag_Key t) "".

Definition rtag_Validate (t : rTag) : option repl_error :=
  if (String.length (rtag_Key t) =? 0)%nat || (128 <? RuneCountInString (rtag_Key t))%nat then Some rerrInvalidTagKey
  else if (256 <? RuneCountInString (rtag_Value t))%nat then Some rerrInvalidTagValue
  else None.

Definition rand_isEmpty (a : rAnd) : bool := (length (rand_Tags a) =? 0)%nat && String.eqb (rand_Prefix a) "".

Fixpoint rand_duplicate (seen : list string) (tags : list rTag) : bool :=
  match tags with
  | [] => false
  | t :: tags => if existsb (String.eqb (rtag_Key t)) seen then true else rand_duplicate (rtag_Key t :: seen) tags
  end.

Definition rand_Validate (a : rAnd) : option repl_error :=
  if rand_duplicate [] (rand_Tags a) then Some rerrDuplicateTagKey else first_error (rtag_Validate <$> rand_Tags a).

Definition rfilter_Validate (f : rFilter) : option repl_error :=
  first_error
    [ if rand_isEmpty (rf_And f) then None
      else if negb (String.eqb (rf_Prefix f) "") then Some rerrInvalidFilter
      else if negb (rtag_IsEmpty (rf_Tag f)) then Some rerrInvalidFilter
      else rand_Validate (rf_And f);
      if negb (String.eqb (rf_Prefix f) "") && negb (rtag_IsEmpty (rf_Tag f)) then Some rerrInvalidFilter else None;
      if rtag_IsEmpty (rf_Tag f) then None else rtag_Validate (rf_Tag f) ].

(** The tags that the filter asks for. *)
Definition wanted_tags (f : rFilter) : list string := rtag_String <$> filter (λ t, rtag_IsEmpty t = false) (rand_Tags (rf_And f) ++ [rf_Tag f]).
Definition rfilter_TestTags (f : rFilter) (ttags : list string) : bool := forallb (λ ct, existsb (String.eqb ct) ttags) (wanted_tags f).

(** ** Destinations (destination.go) *)

Definition DestinationARNPrefix : string := "arn:aws:s3:::".
Definition DestinationARNMinIOPrefix : string := "arn:minio:replication:".

Definition LegacyArn (d : Destination) : bool := HasPrefix (dest_ARN d) DestinationARNPrefix.
Definition TargetArn (d : Destination) : bool := HasPrefix (dest_ARN d) DestinationARNMinIOPrefix.

Definition parseDestination (s : string) : outcome repl_error Destination :=
  if negb (HasPrefix s DestinationARNPrefix) && negb (HasPrefix s DestinationARNMinIOPrefix) then Err errInvalidDestination
  else Ok (mkDest (TrimPrefix s DestinationARNPrefix) "" s).

(** After the XML decoder: the ARN stands in the element [Bucket]. *)
Definition dest_Unmarshal (bucket storageClass : string) : outcome repl_error Destination :=
  d ←? parseDestination bucket;
  if negb (String.eqb storageClass "") && negb (existsb (String.eqb storageClass) ["STANDARD"; "REDUCED_REDUNDANCY"]) then Err errUnknownStorageClass
  else Ok (mkDest (dest_Bucket d) storageClass (dest_ARN d)).

(** ** Rules (rule.go, sourceselectioncriteria.go) *)

Definition status_known (s : string) : bool := String.eqb s Disabled || String.eqb s Enabled.

Definition rrule_Prefix (r : rRule) : string :=
  if negb (String.eqb (rf_Prefix (rr_Filter r)) "") then rf_Prefix (rr_Filter r) else rand_Prefix (rf_And (rr_Filter r)).

Definition rrule_Tags (r : rRule) : string :=
  if negb (rtag_IsEmpty (rf_Tag (rr_Filter r))) then rtag_String (rf_Tag (rr_Filter r))
  else str_join "&" (rtag_String <$> rand_Tags (rf_And (rr_Filter r))).

Definition rrule_Validate (bucket : string) (sameTarget : bool) (r : rRule) : option repl_error :=
  first_error
    [ if (255 <? String.length (rr_ID r))%nat then Some errInvalidRuleID else None;
      if String.eqb (rr_Status r) "" then Some errEmptyRuleStatus else if negb (status_known (rr_Status r)) then Some errInvalidRuleStatus else None;
      rfilter_Validate (rr_Filter r);
      if String.eqb (rr_DeleteMarkerReplication r) "" then Some errDeleteMarkerReplicationMissing
      else if negb (status_known (rr_DeleteMarkerReplication r)) then Some errInvalidDeleteMarkerReplicationStatus else None;
      if String.eqb (rr_DeleteReplication r) "" then Some errDeleteReplicationMissing
      else if negb (status_known (rr_DeleteReplication r)) then Some errInvalidDeleteReplicationStatus else None;
      if negb (String.eqb (rr_ReplicaModifications r) "") && negb (status_known (rr_ReplicaModifications r)) then Some errInvalidSourceSelectionCriteria else None;
      if (rr_Priority r <? 0)%Z then Some errPriorityMissing else None;
      if String.eqb (dest_Bucket (rr_Destination r)) bucket && sameTarget then Some errDestinationSourceIdentical else None;
      if negb (String.eqb (rr_ExistingObjectReplication r) "") && negb (status_known (rr_ExistingObjectReplication r))
      then Some errInvalidExistingObjectReplicationStatus else None ].

(** ** Configurations (replication.go) *)

(** After the XML decoder: replica modifications are on by default. *)
Definition default_criteria (r : rRule) : rRule :=
  if String.eqb (rr_ReplicaModifications r) "" then
    mkrRule (rr_ID r) (rr_Status r) (rr_Priority r) (rr_DeleteMarkerReplication r) (rr_DeleteReplication r) (rr_Destination r) Enabled (rr_Filter r) (rr_ExistingObjectReplication r)
  else r.
Definition rParseConfig (c : rConfig) : rConfig := mkrConfig (default_criteria <$> rc_Rules c) (rc_RoleArn c).

Fixpoint validate_rules (bucket : string) (sameTarget : bool) (roleArn : string) (priorities : list Z) (rules : list rRule) : option repl_error :=
  match rules with
  | [] => None
  | r :: rules =>
      match rrule_Validate bucket sameTarget r with
      | Some err => Some err
      | None =>
          if existsb (Z.eqb (rr_Priority r)) priorities then Some errReplicationUniquePriority
          else if String.eqb roleArn "" && negb (TargetArn (rr_Destination r)) then Some errDestinationArnMissing
          else validate_rules bucket sameTarget roleArn (rr_Priority r :: priorities) rules
      end
  end.

Definition rConfig_Validate (c : rConfig) (bucket : string) (sameTarget : bool) : option repl_error :=
  if (1000 <? length (rc_Rules c))%nat then Some errReplicationTooManyRules
  else if (length (rc_Rules c) =? 0)%nat then Some errReplicationNoRule
  else match validate_rules bucket sameTarget (rc_RoleArn c) [] (rc_Rules c) with
  | Some err => Some err
  | None =>
      let targets := remove_dups ((λ r, dest_Bucket (rr_Destination r)) <$> rc_Rules c) in
      if negb (String.eqb (rc_RoleArn c) "") && (1 <? length targets)%nat then Some errRoleArnPresentForMultipleTargets
      else if String.eqb (rc_RoleArn c) "" && existsb (λ r, LegacyArn (rr_Destination r)) (rc_Rules c) then Some errRoleArnMissingLegacy
      else None
  end.

(** [replication.Type] *)
Definition UnsetReplicationType : Z := 0.
Definition ObjectReplicationType : Z := 1.
Definition DeleteReplicationType : Z := 2.
Definition MetadataReplicationType : Z := 3.
Definition HealReplicationType : Z := 4.
Definition ExistingObjectReplicationType : Z := 5.
Definition ResyncReplicationType : Z := 6.

Record rObjectOpts := mkrOpts {
  ro_Name : string;
  ro_UserTags : string;
  ro_VersionID : string;
  ro_DeleteMarker : bool;
  ro_SSEC : bool;
  ro_OpType : Z;
  ro_Replica : bool;
  ro_ExistingObject : bool;
  ro_TargetArn : string;
}.

Definition rule_applies (c : rConfig) (obj : rObjectOpts) (rule : rRule) : bool :=
  if String.eqb (rr_Status rule) Disabled then false
  else if negb (String.eqb (ro_TargetArn obj) "") && negb (String.eqb (dest_ARN (rr_Destination rule)) (ro_TargetArn obj))
          && negb (String.eqb (rc_RoleArn c) (ro_TargetArn obj)) then false
  else if (ro_OpType obj =? ResyncReplicationType)%Z then true
  else if ro_ExistingObject obj && String.eqb (rr_ExistingObjectReplication rule) Disabled then false
  else if negb (HasPrefix (ro_Name obj) (rrule_Prefix rule)) then false
  else rfilter_TestTags (rr_Filter rule) (split_char "&" (ro_UserTags obj)).

(** The comparison of the sort. *)
Definition rule_less (a b : rRule) : bool :=
  (rr_Priority b <? rr_Priority a)%Z && String.eqb (dest_ARN (rr_Destination a)) (dest_ARN (rr_Destination b)).

Definition rFilterActionableRules (c : rConfig) (obj : rObjectOpts) : list rRule :=
  if String.eqb (ro_Name obj) "" && negb (ro_OpType obj =? ResyncReplicationType)%Z then []
  else sort_Slice rule_less (filter (λ r, rule_applies c obj r = true) (rc_Rules c)).

Definition MetadataReplicate (r : rRule) (obj : rObjectOpts) : bool :=
  if negb (ro_Replica obj) then true else ro_Replica obj && String.eqb (rr_ReplicaModifications r) Enabled.

(** What one rule says. *)
Definition rule_decides (rule : rRule) (obj : rObjectOpts) : bool :=
  if ro_ExistingObject obj && String.eqb (rr_ExistingObjectReplication rule) Disabled then false
  else if (ro_OpType obj =? DeleteReplicationType)%Z then
    if negb (String.eqb (ro_VersionID obj) "") then String.eqb (rr_DeleteReplication rule) Enabled
    else String.eqb (rr_DeleteMarkerReplication rule) Enabled
  else MetadataReplicate rule obj.

Fixpoint replicate_loop (rules : list rRule) (obj : rObjectOpts) : bool :=
  match rules with
  | [] => false
  | rule :: rules => if String.eqb (rr_Status rule) Disabled then replicate_loop rules obj else rule_decides rule obj
  end.

Definition Replicate (c : rConfig) (obj : rObjectOpts) : bool :=
  if ro_SSEC obj then false else replicate_loop (rFilterActionableRules c obj) obj.

Fixpoint active_loop (rules : list rRule) (prefix : string) (recursive : bool) : bool :=
  match rules with
  | [] => false
  | rule :: rules =>
      if String.eqb (rr_Status rule) Disabled then active_loop rules prefix recursive
      else if negb (String.eqb prefix "") && negb (String.eqb (rf_Prefix (rr_Filter rule)) "") &&
              (negb recursive && negb (HasPrefix prefix (rf_Prefix (rr_Filter rule))) ||
               recursive && negb (HasPrefix (rrule_Prefix rule) prefix) && negb (HasPrefix prefix (rrule_Prefix rule)))
      then active_loop rules prefix recursive
      else true
  end.
Definition rHasActiveRules (c : rConfig) (prefix : string) (recursive : bool) : bool := active_loop (rc_Rules c) prefix recursive.

(** The ARNs are the keys of a map, in the order in which it is visited. *)
Definition FilterTargetArns (walk : list string → list string) (c : rConfig) (obj : rObjectOpts) : list string :=
  match filter (λ r, rr_Status r ≠ Disabled) (rFilterActionableRules c obj) with
  | [] => walk []
  | rules => if negb (String.eqb (rc_RoleArn c) "") then [rc_RoleArn c] else walk (remove_dups ((λ r, dest_ARN (rr_Destination r)) <$> rules))
  end.

Definition GetDestination (c : rConfig) : Destination :=
  match rc_Rules c with r :: _ => rr_Destination r | [] => mkDest "" "" "" end.

(** ** Decisions (cmd/bucket-replication.go) *)

Definition AmzObjectTagging : string := "X-Amz-Tagging".
Record mustReplicateOptions := mkMRO { mo_meta : gmap string string; mo_opType : Z }.

Definition mo_ReplicationStatus (o : mustReplicateOptions) : string := default "" (mo_meta o !! AmzBucketReplicationStatus).

Definition getMustReplicateOptions (userDefined : gmap string string) (userTags : string) (metadataOnly : bool) (op : Z) : mustReplicateOptions :=
  let op := if (0 <? op)%Z then op else if metadataOnly then MetadataReplicationType else ObjectReplicationType in
  mkMRO (if String.eqb userTags "" then userDefined else <[AmzObjectTagging := userTags]> userDefined) op.

Definition with_target (opts : rObjectOpts) (arn : string) : rObjectOpts :=
  mkrOpts (ro_Name opts) (ro_UserTags opts) (ro_VersionID opts) (ro_DeleteMarker opts) (ro_SSEC opts) (ro_OpType opts) (ro_Replica opts) (ro_ExistingObject opts) arn.

(** [cfg] is the configuration of the bucket, if it has one; [target] tells of a remote
    target, if there is a client for it, whether it replicates synchronously. *)
Definition mustReplicate (walk : list string → list string) (cfg : option rConfig) (target : string → option bool) (object : string) (mopts : mustReplicateOptions) : ReplicateDecision :=
  let replStatus := mo_ReplicationStatus mopts in
  if String.eqb replStatus StatusReplica && negb (mo_opType mopts =? MetadataReplicationType)%Z then ∅
  else match cfg with
  | None => ∅
  | Some cfg =>
      let opts := mkrOpts object (default "" (mo_meta mopts !! AmzObjectTagging)) "" false (SSEC_IsEncrypted (mo_meta mopts)) UnsetReplicationType
                    (String.eqb replStatus StatusReplica) (mo_opType mopts =? ExistingObjectReplicationType)%Z "" in
      foldl (λ dsc tgtArn, dsc_Set dsc (newReplicateTargetDecision tgtArn (Replicate cfg (with_target opts tgtArn)) (default false (target tgtArn))))
        ∅ (FilterTargetArns walk cfg opts)
  end.

(** What a deletion looks at of the object ([ObjectInfo]) and of the version ([ObjectToDelete]). *)
Record delete_info := mkDI {
  di_ObjectName : string;
  di_VersionID : string;
  di_UserDefined : gmap string string;
  di_UserTags : string;
  di_DeleteMarker : bool;
  di_ReplicationStatusInternal : string;
  di_VersionPurgeStatus : string;
}.

Definition delete_decision (cfg : rConfig) (target : string → option bool) (oi : delete_info) (opts : rObjectOpts) (gerr : bool) (tgtArn : string) : replicateTargetDecision :=
  let replicate := Replicate cfg (with_target opts tgtArn) in
  if gerr then
    let validReplStatus := existsb (String.eqb (TargetReplicationStatus (di_ReplicationStatusInternal oi) tgtArn)) [StatusPending; StatusCompleted; StatusFailed] in
    if di_DeleteMarker oi && (validReplStatus || replicate) then newReplicateTargetDecision tgtArn replicate false
    else newReplicateTargetDecision tgtArn (Purge_Pending (di_VersionPurgeStatus oi)) false
  else match target tgtArn with
  | None => newReplicateTargetDecision tgtArn false false
  | Some sync => newReplicateTargetDecision tgtArn replicate sync
  end.

Definition checkReplicateDelete (walk : list string → list string) (cfg : option rConfig) (target : string → option bool) (oi : delete_info)
    (replicationRequest gerr : bool) : ReplicateDecision :=
  match cfg with
  | None => ∅
  | Some cfg =>
      if replicationRequest then ∅
      else
        let opts := mkrOpts (di_ObjectName oi) (di_UserTags oi) (di_VersionID oi) (di_DeleteMarker oi) (SSEC_IsEncrypted (di_UserDefined oi)) DeleteReplicationType false false "" in
        foldl (λ dsc tgtArn, dsc_Set dsc (delete_decision cfg target oi opts gerr tgtArn)) ∅ (FilterTargetArns walk cfg opts)
  end.

Definition hasReplicationRules (cfg : option rConfig) (objects : list string) : bool :=
  match cfg with None => false | Some c => existsb (λ name, rHasActiveRules c name true) objects end.

Definition MinIOReplicationResetStatus : string := "X-Minio-Replication-Reset-Status".

(** Whether an existing version is sent to a target again. *)
Definition resyncTarget (userDefined : gmap string string) (modTime : Z) (arn resetID : string) (resetBeforeDate : Z) (tgtStatus : string) : ResyncTargetDecision :=
  let rd replicate := mkRTD replicate resetID resetBeforeDate in
  let rs := match userDefined !! targetResetHeader arn with Some rs => Some rs | None => userDefined !! MinIOReplicationResetStatus end in
  match rs with
  | None =>
      if negb (String.eqb resetID "") && (modTime <? resetBeforeDate)%Z then rd true else rd (String.eqb tgtStatus "")
  | Some rs =>
      if String.eqb resetID "" || (resetBeforeDate =? timeSentinel)%Z then rd false
      else match index_char ";" rs with
      | None => rd false
      | Some i =>
          let newReset := negb (String.eqb (str_drop (S i) rs) resetID) in
          if negb newReset && String.eqb tgtStatus StatusCompleted then rd false
          else rd (newReset && (modTime <? resetBeforeDate)%Z)
      end
  end.

(** A target of the bucket: ARN, reset ID and date. *)
Definition resync (remotes : option (list (string * string * Z))) (userDefined : gmap string string) (modTime : Z) (dsc : ReplicateDecision)
    (tgtStatuses : gmap string string) : gmap string ResyncTargetDecision :=
  foldl (λ r '(arn, resetID, before),
      match dsc !! arn with
      | Some d => if td_Replicate d then <[td_Arn d := resyncTarget userDefined modTime arn resetID before (default "" (tgtStatuses !! arn))]> r else r
      | None => r
      end) ∅ (default [] remotes).

(** ** What the rules decide *)

Lemma rule_less_order (a : string) :
  (∀ x y, dest_ARN (rr_Destination x) = a → dest_ARN (rr_Destination y) = a → rule_less x y = true → rule_less y x = false) ∧
  (∀ x y z, dest_ARN (rr_Destination x) = a → dest_ARN (rr_Destination y) = a → dest_ARN (rr_Destination z) = a →
     rule_less x y = false → rule_less y z = false → rule_less x z = false).
Proof.
  unfold rule_less. split.
  - intros x y -> -> H. destruct_bools. rewrite (proj2 (Z.ltb_ge _ _)) by lia. done.
  - intros x y z -> -> ->. rewrite String.eqb_refl, !andb_true_r, !Z.ltb_ge. lia.
Qed.

Lemma actionable_elem c obj r :
  r ∈ rFilterActionableRules c obj ↔ r ∈ rc_Rules c ∧ rule_applies c obj r = true ∧ (ro_Name obj ≠ "" ∨ ro_OpType obj = ResyncReplicationType).
Proof.
  unfold rFilterActionableRules. case_if.
  - destruct_bools. apply String.eqb_eq in H. split; [by intros ?%elem_of_nil|]. intros (_ & _ & [?|?]); done.
  - rewrite sort_Slice_elem, list_elem_of_filter. split; [|tauto]. intros [Ha Hr]. split_and!; [done..|].
    apply andb_false_iff in E as [E%String.eqb_neq|E]; [by left|right]. by apply negb_false_iff, Z.eqb_eq in E.
Qed.

Lemma applies_enabled c obj r : rule_applies c obj r = true → rr_Status r ≠ Disabled.
Proof. unfold rule_applies. case_if; [done|]. by apply String.eqb_neq in E. Qed.

(** The rule with the highest priority comes first when all have one destination. *)
Lemma highest_first c obj r :
  r ∈ rFilterActionableRules c obj →
  (∀ r', r' ∈ rFilterActionableRules c obj → dest_ARN (rr_Destination r') = dest_ARN (rr_Destination r) ∧ (r' = r ∨ (rr_Priority r' < rr_Priority r)%Z)) →
  head (rFilterActionableRules c obj) = Some r.
Proof.
  intros Hr Hmax. assert (StronglySorted (λ a b, rule_less b a = false) (rFilterActionableRules c obj)) as Hs.
  { unfold rFilterActionableRules in *. case_if; [constructor|]. destruct (rule_less_order (dest_ARN (rr_Destination r))) as [H1 H2].
    apply (sort_Slice_sorted rule_less _ H1 H2), Forall_forall. intros r' Hr'. by apply Hmax, sort_Slice_elem. }
  destruct (rFilterActionableRules c obj) as [|r0 rules]; [by apply elem_of_nil in Hr|]. cbn. f_equal.
  destruct (Hmax r0 (list_elem_of_here _ _)) as [Ea [->|Hlt]]; [done|]. exfalso.
  apply elem_of_cons in Hr as [->|Hr]; [lia|]. inversion Hs as [|? ? _ Hall]; subst. rewrite Forall_forall in Hall. specialize (Hall r Hr).
  unfold rule_less in Hall. rewrite Ea, String.eqb_refl, (proj2 (Z.ltb_lt _ _)) in Hall by done. done.
Qed.

Lemma Replicate_head c obj r : ro_SSEC obj = false → head (rFilterActionableRules c obj) = Some r → Replicate c obj = rule_decides r obj.
Proof.
  intros Hs Hh. unfold Replicate. rewrite Hs. destruct (rFilterActionableRules c obj) as [|r0 rules] eqn:E; [done|]. injection Hh as ->. cbn.
  assert (r ∈ rFilterActionableRules c obj) as (_ & Ha & _)%actionable_elem by (rewrite E; apply list_elem_of_here).
  apply applies_enabled in Ha. by rewrite (proj2 (String.eqb_neq _ _)).
Qed.

Lemma foldl_dsc_lookup (f : string → replicateTargetDecision) arns (m : ReplicateDecision) arn :
  (∀ a, td_Arn (f a) = a) → foldl (λ dsc a, dsc_Set dsc (f a)) m arns !! arn = if decide (arn ∈ arns) then Some (f arn) else m !! arn.
Proof.
  intros Hf. revert m. induction arns as [|a arns IH]; intros m; cbn [foldl]; [by rewrite decide_False by apply not_elem_of_nil|].
  rewrite IH. unfold dsc_Set. rewrite Hf. destruct (decide (arn ∈ arns)) as [Hin|Hin]; [by rewrite decide_True by (by right)|].
  destruct (decide (arn = a)) as [->|Hne]; [by rewrite lookup_insert_eq, decide_True by apply list_elem_of_here|].
  rewrite lookup_insert_ne, decide_False by (done || rewrite elem_of_cons; tauto). done.
Qed.

Lemma validate_rules_priorities bucket same role priorities rules :
  validate_rules bucket same role priorities rules = None → NoDup (rr_Priority <$> rules) ∧ ∀ r, r ∈ rules → rr_Priority r ∉ priorities.
Proof.
  revert priorities. induction rules as [|r rules IH]; intros ps; cbn [validate_rules fmap list_fmap]; [by intros _; split; [constructor|intros r ?%elem_of_nil]|].
  destruct (rrule_Validate bucket same r); [done|]. case_if; [done|]. case_if; [done|]. intros [Hn Hp]%IH. split.
  - constructor; [|done]. intros (r' & Er & Hr')%list_elem_of_fmap. apply (Hp r' Hr'). rewrite Er. left.
  - intros r' [->|Hr']%elem_of_cons.
    + intros Hin. apply not_true_iff_false in E. apply E. apply existsb_exists. exists (rr_Priority r). split; [by apply list_elem_of_In|apply Z.eqb_refl].
    + intros Hin. apply (Hp r' Hr'). by right.
Qed.

Lemma valid_config_priorities c bucket same r r' :
  rConfig_Validate c bucket same = None → r ∈ rc_Rules c → r' ∈ rc_Rules c → rr_Priority r = rr_Priority r' → r = r'.
Proof.
  unfold rConfig_Validate. do 2 (case_if; [done|]). destruct (validate_rules bucket same (rc_RoleArn c) [] (rc_Rules c)) eqn:Ev; [done|].
  apply validate_rules_priorities in Ev as [Hn _]. intros _ (i & Hi)%list_elem_of_lookup (j & Hj)%list_elem_of_lookup Hp.
  assert (i = j) as ->; [|congruence]. eapply (NoDup_lookup _ _ _ (rr_Priority r) Hn); rewrite list_lookup_fmap; by rewrite ?Hi, ?Hj; cbn; rewrite ?Hp.
Qed.

(** Of finitely many rules with different priorities one has the highest. *)
Lemma highest_rule (rules : list rRule) :
  rules ≠ [] → (∀ r r', r ∈ rules → r' ∈ rules → rr_Priority r = rr_Priority r' → r = r') →
  ∃ r, r ∈ rules ∧ ∀ r', r' ∈ rules → r' = r ∨ (rr_Priority r' < rr_Priority r)%Z.
Proof.
  induction rules as [|r rules IH]; [done|]. intros _ Hp. destruct (decide (rules = [])) as [->|Hne].
  { exists r. split; [left|]. intros r' ->%list_elem_of_singleton. by left. }
  destruct (IH Hne) as (m & Hm & Hmax); [intros; apply Hp; [by right|by right|done]|].
  destruct (Z.lt_ge_cases (rr_Priority m) (rr_Priority r)) as [Hlt|Hge].
  - exists r. split; [left|]. intros r' [->|Hr']%elem_of_cons; [by left|]. destruct (Hmax r' Hr') as [->|?]; right; lia.
  - exists m. split; [by right|]. intros r' [->|Hr']%elem_of_cons; [|by apply Hmax].
    destruct (Z.eq_dec (rr_Priority r) (rr_Priority m)) as [E|E]; [left; apply Hp; [left|by right|done]|right; lia].
Qed.

(** A rule matches an object: it is on, the name has its prefix, the object its tags. *)
Definition rule_matches (name : string) (tags : list string) (existing : bool) (r : rRule) : Prop :=
  rr_Status r ≠ Disabled ∧ (∃ rest, name = rrule_Prefix r +:+ rest) ∧ (∀ t, t ∈ wanted_tags (rr_Filter r) → t ∈ tags) ∧
  (existing = true → rr_ExistingObjectReplication r ≠ Disabled).

Lemma TestTags_iff f ttags : rfilter_TestTags f ttags = true ↔ ∀ t, t ∈ wanted_tags f → t ∈ ttags.
Proof.
  unfold rfilter_TestTags. rewrite forallb_forall. setoid_rewrite existsb_exists. setoid_rewrite <- list_elem_of_In. setoid_rewrite String.eqb_eq.
  split; intros Ht t Hin; [by destruct (Ht t Hin) as (? & ? & <-)|exists t; auto].
Qed.

Lemma applies_iff c obj r :
  ro_OpType obj ≠ ResyncReplicationType →
  rule_applies c obj r = true ↔
  rule_matches (ro_Name obj) (split_char "&" (ro_UserTags obj)) (ro_ExistingObject obj) r ∧
  (ro_TargetArn obj = "" ∨ dest_ARN (rr_Destination r) = ro_TargetArn obj ∨ rc_RoleArn c = ro_TargetArn obj).
Proof.
  intros Hop. unfold rule_applies, rule_matches. rewrite (proj2 (Z.eqb_neq _ _)) by done.
  destruct (String.eqb_spec (rr_Status r) Disabled) as [E1|E1]; [split; [done|tauto]|].
  destruct (negb (String.eqb (ro_TargetArn obj) "") && _ && _) eqn:E2.
  { destruct_bools. rewrite !String.eqb_neq in *. split; [done|]. tauto. }
  assert (ro_TargetArn obj = "" ∨ dest_ARN (rr_Destination r) = ro_TargetArn obj ∨ rc_RoleArn c = ro_TargetArn obj) as Ht.
  { rewrite !andb_false_iff, !negb_false_iff, !String.eqb_eq in E2. tauto. }
  destruct (ro_ExistingObject obj && _) eqn:E5.
  { destruct_bools. apply String.eqb_eq in H0. split; [done|]. intros [(_ & _ & _ & Hx) _]. by destruct Hx. }
  assert (ro_ExistingObject obj = true → rr_ExistingObjectReplication r ≠ Disabled) as Hex by (intros Ex; rewrite Ex in E5; by apply String.eqb_neq).
  destruct (HasPrefix (ro_Name obj) (rrule_Prefix r)) eqn:E6; unfold HasPrefix in E6; cbn [negb].
  - apply prefix_spec in E6. rewrite TestTags_iff. tauto.
  - split; [done|]. intros [(_ & Hp & _) _]. apply prefix_spec in Hp. congruence.
Qed.

Lemma valid_config_targets c bucket same r :
  rConfig_Validate c bucket same = None → rc_RoleArn c = "" → r ∈ rc_Rules c → dest_ARN (rr_Destination r) ≠ "".
Proof.
  unfold rConfig_Validate. intros Hv Hrole. rewrite Hrole in Hv. revert Hv. do 2 (case_if; [done|]).
  destruct (validate_rules bucket same "" [] (rc_Rules c)) eqn:Ev; [done|]. intros _ Hr. clear -Ev Hr. revert Ev Hr. generalize (@nil Z) as ps.
  induction (rc_Rules c) as [|r0 rules IH]; intros ps; cbn [validate_rules]; [by intros _ ?%elem_of_nil|].
  destruct (rrule_Validate bucket same r0); [done|]. case_if; [done|]. case_if; [done|]. intros Ev [->|Hr]%elem_of_cons; [|by eapply IH].
  destruct_bools. unfold TargetArn, HasPrefix in *. intros Ea. by rewrite Ea in *.
Qed.

(** The targets are those of the rules that apply. *)
Lemma target_arns_elem walk c obj arn :
  (∀ l, walk l ≡ₚ l) → rc_RoleArn c = "" →
  arn ∈ FilterTargetArns walk c obj ↔ ∃ r, r ∈ rFilterActionableRules c obj ∧ dest_ARN (rr_Destination r) = arn.
Proof.
  intros Hw Hr. unfold FilterTargetArns. rewrite Hr.
  assert (filter (λ r, rr_Status r ≠ Disabled) (rFilterActionableRules c obj) = rFilterActionableRules c obj) as ->.
  { apply filter_all, Forall_forall. intros r (_ & Ha & _)%actionable_elem. by eapply applies_enabled. }
  destruct (rFilterActionableRules c obj) as [|r0 rules].
  - rewrite Hw. setoid_rewrite elem_of_nil. split; [done|by intros (? & ? & _)].
  - cbn [String.eqb negb]. rewrite Hw, elem_of_remove_dups, list_elem_of_fmap. split; intros (r & H1 & H2); exists r; split; congruence.
Qed.

(** ** Properties *)

(** C24: uploads are replicated by the rule with the highest priority: in a valid configuration (with a target
    for every rule), the decision for a named object names exactly the targets of the rules that match the object,
    and for each of them says what the matching rule with the highest priority says; objects encrypted
    with keys of the client are not replicated. An upload that is itself a replica, and is not a change of
    metadata, is replicated nowhere. *)
Theorem uploads_replicated walk c bucket same target object mopts :
  (∀ l, walk l ≡ₚ l) → rConfig_Validate c bucket same = None → rc_RoleArn c = "" → object ≠ "" →
  let existing := (mo_opType mopts =? ExistingObjectReplicationType)%Z in
  let matches r := r ∈ rc_Rules c ∧ rule_matches object (split_char "&" (default "" (mo_meta mopts !! AmzObjectTagging))) existing r in
  if String.eqb (mo_ReplicationStatus mopts) StatusReplica && negb (mo_opType mopts =? MetadataReplicationType)%Z
  then mustReplicate walk (Some c) target object mopts = ∅ else
  ∀ arn, match mustReplicate walk (Some c) target object mopts !! arn with
         | None => ∀ r, matches r → dest_ARN (rr_Destination r) ≠ arn
         | Some d => td_Arn d = arn ∧ td_Synchronous d = default false (target arn) ∧
             ∃ r, matches r ∧ dest_ARN (rr_Destination r) = arn ∧
               (∀ r', matches r' → dest_ARN (rr_Destination r') = arn → r' = r ∨ (rr_Priority r' < rr_Priority r)%Z) ∧
               td_Replicate d = negb (SSEC_IsEncrypted (mo_meta mopts)) &&
                 (negb (String.eqb (mo_ReplicationStatus mopts) StatusReplica) || String.eqb (rr_ReplicaModifications r) Enabled)
         end.
Proof.
  intros Hw Hv Hrole Hobj. cbv zeta. unfold mustReplicate.
  destruct (String.eqb (mo_ReplicationStatus mopts) StatusReplica && negb (mo_opType mopts =? MetadataReplicationType)%Z); [done|]. intros arn.
  set (opts := mkrOpts object _ _ _ _ _ _ _ _). rewrite foldl_dsc_lookup by done.
  assert (∀ a r, a = "" ∨ dest_ARN (rr_Destination r) = a → r ∈ rFilterActionableRules c (with_target opts a) ↔
    r ∈ rc_Rules c ∧ rule_matches object (split_char "&" (default "" (mo_meta mopts !! AmzObjectTagging))) (mo_opType mopts =? ExistingObjectReplicationType)%Z r) as Hact.
  { intros a r Ha. rewrite actionable_elem, applies_iff by done. cbn [opts with_target ro_Name ro_UserTags ro_TargetArn ro_ExistingObject]. tauto. }
  pose proof (target_arns_elem walk c opts arn Hw Hrole) as Hin. change opts with (with_target opts "") in Hin at 2.
  destruct (decide (arn ∈ FilterTargetArns walk c opts)) as [Ht|Ht].
  - split; [done|]. split; [done|]. apply Hin in Ht as (r0 & Hr0 & Ea). apply (Hact "" r0 ltac:(by left)) in Hr0.
    assert (arn ≠ "") as Hne by (subst arn; by eapply valid_config_targets; [..|apply Hr0]).
    assert (∀ r, r ∈ rFilterActionableRules c (with_target opts arn) → dest_ARN (rr_Destination r) = arn) as Hdest.
    { intros r (_ & Ha & _)%actionable_elem. apply applies_iff in Ha as [_ Ha]; [|done]. cbn in Ha. destruct Ha as [Ha|[Ha|Ha]]; congruence. }
    destruct (highest_rule (rFilterActionableRules c (with_target opts arn))) as (r & Hr & Hmax).
    { intros En. apply (Hact arn r0 ltac:(by right)) in Hr0. rewrite En in Hr0. by apply elem_of_nil in Hr0. }
    { intros r r' (H1 & _)%actionable_elem (H2 & _)%actionable_elem. by eapply valid_config_priorities. }
    pose proof (Hdest r Hr) as Er. exists r. split; [by apply (Hact arn); [right|]|]. split; [done|]. split.
    + intros r' Hr' Er'. apply Hmax. by apply Hact; [right|].
    + cbn [newReplicateTargetDecision td_Replicate]. destruct (SSEC_IsEncrypted (mo_meta mopts)) eqn:Es.
      * unfold Replicate. by replace (ro_SSEC (with_target opts arn)) with true.
      * rewrite (Replicate_head c _ r); [|done|].
        -- unfold rule_decides. cbn [with_target opts ro_ExistingObject ro_OpType UnsetReplicationType]. apply (Hact arn r ltac:(by right)) in Hr as (_ & _ & _ & _ & Hex).
           case_if; [apply andb_true_iff in E as [E1 E2%String.eqb_eq]; by destruct (Hex E1)|]. cbn. unfold MetadataReplicate. cbn [with_target opts ro_Replica].
           by destruct (String.eqb (mo_ReplicationStatus mopts) StatusReplica).
        -- apply highest_first; [done|]. intros r' Hr'. split; [by rewrite (Hdest r' Hr')|by apply Hmax].
  - rewrite lookup_empty. intros r Hm Ea. apply Ht, Hin. exists r. split; [|done]. apply Hact; [by left|done].
Qed.

Definition demo_rule (priority : Z) (arn prefix : string) : rRule :=
  mkrRule "" Enabled priority Disabled Disabled (mkDest "b" "" arn) Enabled (mkrFilter prefix (mkrAnd "" []) (mkrTag "" "")) "".
Definition demo_rconfig : rConfig :=
  mkrConfig [demo_rule 1 "arn:minio:replication::x:b" ""; demo_rule 7 "arn:minio:replication::y:b" "tmp/"; demo_rule 3 "arn:minio:replication::x:b" "logs/"] "".

Lemma uploads_replicated_witness :
  ∃ d, mustReplicate (λ l, l) (Some demo_rconfig) (λ _, Some true) "logs/1" (mkMRO ∅ ObjectReplicationType) !! "arn:minio:replication::x:b" = Some d ∧
    td_Arn d = "arn:minio:replication::x:b" ∧ td_Synchronous d = true.
Proof.
  eexists. split; [vm_compute; reflexivity|].
  pose proof (uploads_replicated (λ l, l) demo_rconfig "src" false (λ _, Some true) "logs/1" (mkMRO ∅ ObjectReplicationType)
    (λ l, reflexivity l) ltac:(by vm_compute) ltac:(done) ltac:(done) "arn:minio:replication::x:b") as H.
  change (mustReplicate _ _ _ _ _ !! "arn:minio:replication::x:b") with (Some (mkTD true true "arn:minio:replication::x:b" "")) in H.
  destruct H as (H1 & H2 & _). split; [exact H1|exact H2].
Defined.

Lemma prefix_comparable p q r r' : p +:+ r = q +:+ r' → (∃ t, q = p +:+ t) ∨ (∃ t, p = q +:+ t).
Proof.
  revert q. induction p as [|a p IH]; intros q E; [left; by exists q|]. destruct q as [|b q]; [right; by exists (String a p)|].
  cbn in E. injection E as -> E. destruct (IH q E) as [[t ->]|[t ->]]; [left|right]; by exists t.
Qed.

(** No rule is overlooked: if a rule matches an object, then [HasActiveRules] says so for the name of the object
    and for every prefix of the name, so that whatever has no active rules may be skipped. *)
Theorem active_rules_complete c name tags existing r p :
  r ∈ rc_Rules c → rule_matches name tags existing r → (∃ rest, name = p +:+ rest) →
  rHasActiveRules c p true = true ∧ rHasActiveRules c name false = true ∧ hasReplicationRules (Some c) [name] = true.
Proof.
  intros Hr (Hs & [rest Hp] & _) [rest' Hp'].
  assert (∀ q recursive, (recursive = false → q = name) → (∃ t, name = q +:+ t) → rHasActiveRules c q recursive = true) as Hall.
  { intros q recursive Hq [t Ht]. unfold rHasActiveRules. induction (rc_Rules c) as [|r0 rules IH]; [by apply elem_of_nil in Hr|]. cbn [active_loop].
    apply elem_of_cons in Hr as [<-|Hr].
    - rewrite (proj2 (String.eqb_neq _ _)) by done. case_if; [|done]. exfalso. apply andb_true_iff in E as [[_ Hne]%andb_true_iff E].
      apply negb_true_iff, String.eqb_neq in Hne. assert (rrule_Prefix r = rf_Prefix (rr_Filter r)) as Epre.
      { unfold rrule_Prefix. by rewrite (proj2 (String.eqb_neq _ _)). }
      rewrite Epre in *. unfold HasPrefix in E. destruct recursive; cbn [negb andb orb] in E.
      + destruct_bools. destruct (prefix_comparable q (rf_Prefix (rr_Filter r)) t rest ltac:(congruence)) as [Ht'|Ht'];
          apply prefix_spec in Ht'; congruence.
      + rewrite (Hq eq_refl), orb_false_r in E. apply negb_true_iff in E.
        assert (String.prefix (rf_Prefix (rr_Filter r)) name = true) by (apply prefix_spec; eauto). congruence.
    - case_if; [by apply IH|]. case_if; [by apply IH|done]. }
  split_and!; [apply Hall; [done|by eauto]|apply Hall; [done|]|cbn; rewrite orb_false_r; apply Hall; [done|]]; exists ""; by rewrite str_app_nil_r.
Qed.

Lemma active_rules_complete_witness :
  rHasActiveRules demo_rconfig "lo" true = true ∧ rHasActiveRules demo_rconfig "logs/1" false = true ∧ hasReplicationRules (Some demo_rconfig) ["logs/1"] = true.
Proof.
  apply (active_rules_complete demo_rconfig "logs/1" [] false (demo_rule 3 "arn:minio:replication::x:b" "logs/")).
  - by right; right; left.
  - split_and!; [done|by exists "1"|by intros t ?%elem_of_nil|done].
  - by exists "gs/1".
Defined.

(** Without a target the sort, whose comparison only relates rules with one destination, does not
    bring the rules of a destination in the order of their priorities. *)
Lemma priorities_out_of_order :
  let c := mkrConfig [demo_rule 1 "arn:minio:replication::x:b" ""; demo_rule 7 "arn:minio:replication::y:b" ""; demo_rule 3 "arn:minio:replication::x:b" ""] "" in
  rr_Priority <$> rFilterActionableRules c (mkrOpts "o" "" "" false false 0 false false "") = [1; 7; 3]%Z.
Proof. vm_compute. reflexivity. Qed.
