(* ===== verification/NSLock.v ===== *)
(** * Namespace locks of a server process (cmd/namespace-lock.go)

    [nsLockMap] has a readers-writer lock ([LRWMutex]) for every resource that is in
    use, with the number of its users. A request locks the resources of its paths
    one after the other, waits for each, and gives back what it has when its time
    is over. The map is changed under a mutex; waiting is not. An execution is a
    list of events of the requests. *)

From Stdlib Require Import ZArith Lia Bool.
From stdpp Require Import sorting.
From S2P Require Import Prelude GoStrings GoHeap ObjectNames LRWMutex.

Local Open Scope go_scope.
Local Open Scope Z_scope.

Record nsLock := mkNsLock { ns_ref : Z; ns_mutex : LRWMutex }.

Abbreviation nsLockMap := (gmap string nsLock).

(** The first part of [lock]: the caller counts as a user. *)
Definition ns_enter (resource : string) (m : nsLockMap) : nsLockMap :=
  let nsLk := default (mkNsLock 0 NewLRWMutex) (m !! resource) in
  <[resource := mkNsLock (ns_ref nsLk + 1) (ns_mutex nsLk)]> m.

(** One user less; the last one removes the lock. A missing lock is a nil
    dereference. *)
Definition ns_leave (resource : string) (m : nsLockMap) : outcome () nsLockMap :=
  match m !! resource with
  | None => Panic "nil pointer dereference"
  | Some nsLk =>
      let ref := ns_ref nsLk - 1 in
      if ref <? 0 then Panic "resource reference count was lower than 0"
      else if ref =? 0 then Ok (delete resource m)
      else Ok (<[resource := mkNsLock ref (ns_mutex nsLk)]> m)
  end.

(** An attempt of [GetLock] or [GetRLock] on the lock that [ns_enter] found. *)
Definition ns_try (id source : string) (write : bool) (resource : string) (m : nsLockMap) : bool * nsLockMap :=
  match m !! resource with
  | None => (false, m)
  | Some nsLk =>
      let '(locked, lm) := lrw_lock id source write (ns_mutex nsLk) in
      (locked, <[resource := mkNsLock (ns_ref nsLk) lm]> m)
  end.

Definition ns_unlock (resource : string) (readLock : bool) (m : nsLockMap) : outcome () nsLockMap :=
  match m !! resource with
  | None => Ok m
  | Some nsLk =>
      lm ←? (if readLock then RUnlock (ns_mutex nsLk) else Unlock (ns_mutex nsLk));
      ns_leave resource (<[resource := mkNsLock (ns_ref nsLk) lm]> m)
  end.

(** [NewNSLock]: the resources of a request, in the order of the sorted paths. *)
Definition str_le (a b : string) : Prop := str_ltb b a = false.
#[global] Instance str_le_dec a b : Decision (str_le a b) := decide (str_ltb b a = false).

Definition NewNSLock (volume : string) (paths : list string) : list string :=
  (λ p, pathJoin [volume; p]) <$> merge_sort str_le paths.

(** Where a request is in [GetLock] and [Unlock] (or [GetRLock] and [RUnlock]). *)
Inductive ns_phase :=
  | NsLocking (got todo : list string)               (* before [lock] of the next path *)
  | NsWaiting (got : list string) (r : string) (todo : list string)
  | NsHolding (got : list string)
  | NsReleasing (success : bool) (got : list string)
  | NsDone (success : bool).

Record ns_op := mkNsOp { op_id : string; op_source : string; op_write : bool; op_phase : ns_phase }.

Definition with_ns_phase (o : ns_op) (ph : ns_phase) : ns_op := mkNsOp (op_id o) (op_source o) (op_write o) ph.

Record ns_state := mkNsState { ns_map : nsLockMap; ns_ops : list ns_op }.

Inductive ns_event :=
  | NsStart (id source : string) (write : bool) (resources : list string)
  | NsEnter (k : nat)
  | NsTry (k : nat)
  | NsTimeout (k : nat)
  | NsUnlock (k : nat)
  | NsRelease (k : nat).

(** After a lock has been taken: the next one, or all are held. *)
Definition ns_next (got todo : list string) : ns_phase :=
  match todo with [] => NsHolding got | _ => NsLocking got todo end.

(** The step of an event; the inner [None] if it cannot happen. *)
Definition ns_step (s : ns_state) (ev : ns_event) : outcome () (option ns_state) :=
  let upd k o ph m := Ok (Some (mkNsState m (<[k := with_ns_phase o ph]> (ns_ops s)))) in
  match ev with
  | NsStart id source write resources =>
      Ok (Some (mkNsState (ns_map s) (ns_ops s ++ [mkNsOp id source write (ns_next [] resources)])))
  | NsEnter k =>
      match ns_ops s !! k with
      | Some o =>
          match op_phase o with
          | NsLocking got (r :: todo) => upd k o (NsWaiting got r todo) (ns_enter r (ns_map s))
          | _ => Ok None
          end
      | None => Ok None
      end
  | NsTry k =>
      match ns_ops s !! k with
      | Some o =>
          match op_phase o with
          | NsWaiting got r todo =>
              let '(locked, m) := ns_try (op_id o) (op_source o) (op_write o) r (ns_map s) in
              upd k o (if locked then ns_next (got ++ [r]) todo else NsWaiting got r todo) m
          | _ => Ok None
          end
      | None => Ok None
      end
  | NsTimeout k =>
      match ns_ops s !! k with
      | Some o =>
          match op_phase o with
          | NsWaiting got r todo => m ←? ns_leave r (ns_map s); upd k o (NsReleasing false got) m
          | _ => Ok None
          end
      | None => Ok None
      end
  | NsUnlock k =>
      match ns_ops s !! k with
      | Some o =>
          match op_phase o with
          | NsHolding got => upd k o (NsReleasing true got) (ns_map s)
          | _ => Ok None
          end
      | None => Ok None
      end
  | NsRelease k =>
      match ns_ops s !! k with
      | Some o =>
          match op_phase o with
          | NsReleasing b (r :: got) => m ←? ns_unlock r (negb (op_write o)) (ns_map s); upd k o (NsReleasing b got) m
          | NsReleasing b [] => upd k o (NsDone b) (ns_map s)
          | _ => Ok None
          end
      | None => Ok None
      end
  end.

(** Events that cannot happen are skipped. *)
Fixpoint ns_run (s : ns_state) (evs : list ns_event) : outcome () ns_state :=
  match evs with
  | [] => Ok s
  | ev :: evs => s' ←? ns_step s ev; ns_run (default s s') evs
  end.

Definition ns_init : ns_state := mkNsState ∅ [].

(** ** Users of a resource *)

Definition op_got (o : ns_op) : list string :=
  match op_phase o with
  | NsLocking got _ | NsWaiting got _ _ | NsHolding got | NsReleasing _ got => got
  | NsDone _ => []
  end.

Definition holds (write : bool) (r : string) (o : ns_op) : nat :=
  if Bool.eqb (op_write o) write then count (λ x, x = r) (op_got o) else 0.

Definition waits_on (r : string) (o : ns_op) : nat :=
  match op_phase o with NsWaiting _ r' _ => one_if (r' = r) | _ => 0 end.

Abbreviation writers s r := (sum_list_with (holds true r) (ns_ops s)).
Abbreviation readers s r := (sum_list_with (holds false r) (ns_ops s)).
Abbreviation waiters s r := (sum_list_with (waits_on r) (ns_ops s)).

(** The map has exactly the resources in use, each with the number of its users and
    a lock that counts its holders. *)
Definition ns_res_ok (s : ns_state) (r : string) : Prop :=
  match ns_map s !! r with
  | Some lk =>
      ns_ref lk = Z.of_nat (writers s r + readers s r + waiters s r) ∧ 0 < ns_ref lk ∧
      lrw_inv (mkUse (ns_mutex lk) (Z.of_nat (writers s r)) (Z.of_nat (readers s r)))
  | None => writers s r = 0%nat ∧ readers s r = 0%nat ∧ waiters s r = 0%nat
  end.

Definition ns_inv (s : ns_state) : Prop := ∀ r, ns_res_ok s r.

Lemma sum_insert {A} (f : A → nat) (l : list A) k x y :
  l !! k = Some x → (f x + sum_list_with f (<[k := y]> l) = f y + sum_list_with f l)%nat.
Proof.
  intros Hk. rewrite insert_take_drop by (by eapply lookup_lt_Some).
  rewrite <- (take_drop_middle l k x Hk) at 3. rewrite !sum_list_with_app. cbn. lia.
Qed.

Lemma sum_elem {A} (f : A → nat) (l : list A) k x : l !! k = Some x → (f x ≤ sum_list_with f l)%nat.
Proof. intros Hk. rewrite <- (take_drop_middle l k x Hk). rewrite sum_list_with_app. cbn. lia. Qed.

(** The users of a resource when a request changes its phase. *)
Lemma users_change s k o ph m r :
  ns_ops s !! k = Some o →
  let s' := mkNsState m (<[k := with_ns_phase o ph]> (ns_ops s)) in
  let o' := with_ns_phase o ph in
  (holds true r o + writers s' r = holds true r o' + writers s r)%nat ∧
  (holds false r o + readers s' r = holds false r o' + readers s r)%nat ∧
  (waits_on r o + waiters s' r = waits_on r o' + waiters s r)%nat.
Proof. intros Hk. cbn [ns_ops]. split_and!; by apply sum_insert. Qed.

(** The part of a phase that counts for a resource. *)
Definition same_users (r : string) (o o' : ns_op) : Prop :=
  holds true r o = holds true r o' ∧ holds false r o = holds false r o' ∧ waits_on r o = waits_on r o'.

(** A resource that the step does not touch. *)
Lemma res_frame s k o ph m r :
  ns_ops s !! k = Some o → m !! r = ns_map s !! r → same_users r o (with_ns_phase o ph) →
  ns_res_ok s r → ns_res_ok (mkNsState m (<[k := with_ns_phase o ph]> (ns_ops s))) r.
Proof.
  intros Hk Hm (H1 & H2 & H3) Hok. destruct (users_change s k o ph m r Hk) as (E1 & E2 & E3).
  unfold ns_res_ok in *. cbn [ns_map ns_ops] in *. rewrite Hm.
  replace (sum_list_with (holds true r) _) with (writers s r) by lia.
  replace (sum_list_with (holds false r) _) with (readers s r) by lia.
  by replace (sum_list_with (waits_on r) _) with (waiters s r) by lia.
Qed.

Lemma one_if_ne (r r' : string) : r ≠ r' → one_if (r = r') = 0%nat.
Proof. apply one_if_false. Qed.

(** The state of a resource in numbers. *)
Lemma res_ok_intro s r lk :
  ns_map s !! r = Some lk → ns_ref lk = Z.of_nat (writers s r + readers s r + waiters s r) → 0 < ns_ref lk →
  lrw_inv (mkUse (ns_mutex lk) (Z.of_nat (writers s r)) (Z.of_nat (readers s r))) → ns_res_ok s r.
Proof. intros Hm ???. unfold ns_res_ok. by rewrite Hm. Qed.

Lemma lrw_inv_new : lrw_inv (mkUse NewLRWMutex 0 0).
Proof. by cbn. Qed.

(** The holders do not change with the phase if the list of locks does not. *)
Lemma holds_same w r o ph :
  op_got (with_ns_phase o ph) = op_got o → holds w r (with_ns_phase o ph) = holds w r o.
Proof. unfold holds. cbn [op_write with_ns_phase]. by intros ->. Qed.

Lemma waits_none r o : (∀ got x todo, op_phase o ≠ NsWaiting got x todo) → waits_on r o = 0%nat.
Proof. unfold waits_on. destruct (op_phase o); try done. intros Hp. by destruct (Hp got r0 todo). Qed.

Lemma waits_at r o got x todo : op_phase o = NsWaiting got x todo → waits_on r o = one_if (x = r).
Proof. unfold waits_on. by intros ->. Qed.

Lemma enter_ok s k o got r todo :
  ns_inv s → ns_ops s !! k = Some o → op_phase o = NsLocking got (r :: todo) →
  ns_inv (mkNsState (ns_enter r (ns_map s)) (<[k := with_ns_phase o (NsWaiting got r todo)]> (ns_ops s))).
Proof.
  intros Hi Hk Hp x.
  assert (op_got (with_ns_phase o (NsWaiting got r todo)) = op_got o) as Hg by (unfold op_got; by rewrite Hp).
  assert (waits_on x o = 0)%nat as Hw by (apply waits_none; by rewrite Hp).
  assert (waits_on x (with_ns_phase o (NsWaiting got r todo)) = one_if (r = x)) as Hw' by done.
  destruct (decide (x = r)) as [->|Hne]; cycle 1.
  { apply res_frame; [done|by apply lookup_insert_ne| |done].
    unfold same_users. by rewrite !holds_same, Hw, Hw', one_if_ne. }
  destruct (users_change s k o (NsWaiting got r todo) (ns_enter r (ns_map s)) r Hk) as (E1 & E2 & E3).
  rewrite !holds_same in E1, E2 by done. rewrite Hw, Hw', (one_if_true (r = r)) in E3 by done.
  specialize (Hi r). unfold ns_res_ok in Hi.
  eapply res_ok_intro; [apply lookup_insert_eq|..]; destruct (ns_map s !! r) as [lk|];
    cbn [default from_option id ns_ref ns_mutex] in *; try (destruct Hi as (Hr & Hpos & Hl)); try lia.
  - replace (writers _ r) with (writers s r) by lia. by replace (readers _ r) with (readers s r) by lia.
  - replace (Z.of_nat (writers _ r)) with 0 by lia. by replace (Z.of_nat (readers _ r)) with 0 by lia.
Qed.

Lemma lrw_try u id src w locked lm :
  lrw_inv u → lrw_lock id src w (u_lock u) = (locked, lm) →
  lrw_inv (if locked then (if w then mkUse lm (u_writers u + 1) (u_readers u) else mkUse lm (u_writers u) (u_readers u + 1))
           else mkUse lm (u_writers u) (u_readers u)).
Proof.
  intros Hi Hl. destruct (lrw_step_inv u (TryLock id src w) Hi) as (u' & Hs & Hi'). cbn [lrw_event_step] in Hs.
  rewrite Hl in Hs. destruct locked; [destruct w|]; injection Hs as <-; done.
Qed.

Lemma lrw_release u (w : bool) :
  lrw_inv u → 0 < (if w then u_writers u else u_readers u) →
  ∃ lm, (if negb w then RUnlock (u_lock u) else Unlock (u_lock u)) = Ok lm ∧
    lrw_inv (if w then mkUse lm (u_writers u - 1) (u_readers u) else mkUse lm (u_writers u) (u_readers u - 1)).
Proof.
  intros Hi Hpos. destruct (lrw_step_inv u (Release w) Hi) as (u' & Hs & Hi'). cbn [lrw_event_step] in Hs.
  destruct w; cbn [negb]; rewrite (proj2 (Z.leb_gt _ _)) in Hs by lia; apply obind_ok in Hs as (lm & Hl & Hs);
    injection Hs as <-; by exists lm.
Qed.

(** The resource that one user leaves. *)
Lemma leave_ok (m : nsLockMap) ops r lk :
  let s := mkNsState m ops in
  m !! r = Some lk → ns_ref lk = Z.of_nat (writers s r + readers s r + waiters s r) + 1 →
  lrw_inv (mkUse (ns_mutex lk) (Z.of_nat (writers s r)) (Z.of_nat (readers s r))) →
  ∃ m', ns_leave r m = Ok m' ∧ ns_res_ok (mkNsState m' ops) r ∧ ∀ x, x ≠ r → m' !! x = m !! x.
Proof.
  intros s Hm Hr Hl. unfold ns_leave. rewrite Hm. subst s. cbn [ns_ops] in *.
  rewrite (proj2 (Z.ltb_ge _ 0)) by lia. destruct (Z.eqb_spec (ns_ref lk - 1) 0).
  - eexists. split_and!; [done| |by intros x Hx; apply lookup_delete_ne].
    unfold ns_res_ok. cbn [ns_map ns_ops]. rewrite lookup_delete_eq. lia.
  - eexists. split_and!; [done| |by intros x Hx; apply lookup_insert_ne].
    eapply res_ok_intro; [apply lookup_insert_eq|cbn [ns_ref ns_mutex ns_ops]..]; [lia|lia|done].
Qed.

Lemma op_got_next o got todo : op_got (with_ns_phase o (ns_next got todo)) = got.
Proof. by destruct todo. Qed.

Lemma holds_snoc w r o got x :
  op_got o = got → ∀ ph, op_got (with_ns_phase o ph) = got ++ [x] →
  holds w r (with_ns_phase o ph) = (holds w r o + if Bool.eqb (op_write o) w then one_if (x = r) else 0)%nat.
Proof.
  intros Hg ph Hg'. unfold holds. rewrite Hg, Hg'. cbn [op_write with_ns_phase]. case_if; [|done].
  rewrite count_app, count_cons. cbn. lia.
Qed.

Lemma try_ok s k o got r todo :
  ns_inv s → ns_ops s !! k = Some o → op_phase o = NsWaiting got r todo →
  let '(locked, m) := ns_try (op_id o) (op_source o) (op_write o) r (ns_map s) in
  ns_inv (mkNsState m (<[k := with_ns_phase o (if locked then ns_next (got ++ [r]) todo else NsWaiting got r todo)]> (ns_ops s))).
Proof.
  intros Hi Hk Hp. unfold ns_try. pose proof (Hi r) as Hr. unfold ns_res_ok in Hr.
  assert (op_got o = got) as Hg by (unfold op_got; by rewrite Hp).
  destruct (ns_map s !! r) as [lk|] eqn:Hm; cycle 1.
  { pose proof (sum_elem (waits_on r) _ _ _ Hk) as Hw. rewrite (waits_at r o got r todo Hp), one_if_true in Hw by done. lia. }
  destruct Hr as (Href & Hpos & Hl). destruct (lrw_lock _ _ _ _) as [locked lm] eqn:Hll.
  pose proof (lrw_try (mkUse (ns_mutex lk) _ _) _ _ _ _ _ Hl Hll) as Hl'. cbn [u_writers u_readers] in Hl'.
  set (ph := if locked then _ else _). intros x.
  assert (waits_on x o = one_if (r = x)) as Hw by (by eapply waits_at).
  assert (waits_on x (with_ns_phase o ph) = if locked then 0%nat else one_if (r = x)) as Hw'
    by (subst ph; destruct locked; [by destruct todo|done]).
  assert (∀ w, holds w x (with_ns_phase o ph) =
      (holds w x o + if locked && Bool.eqb (op_write o) w then one_if (r = x) else 0)%nat) as Hh.
  { intros w. subst ph. destruct locked; cbn [andb].
    - by erewrite holds_snoc by (done || apply op_got_next).
    - rewrite holds_same; [lia|]. unfold op_got. by rewrite Hp. }
  destruct (decide (x = r)) as [->|Hne]; cycle 1.
  { apply res_frame; [done|by apply lookup_insert_ne| |done]. unfold same_users. rewrite !Hh, Hw, Hw', one_if_ne by done.
    destruct locked, (op_write o); cbn; lia. }
  set (m := <[r := _]> _). destruct (users_change s k o ph m r Hk) as (E1 & E2 & E3).
  rewrite Hh in E1, E2. rewrite Hw, Hw' in E3. rewrite (one_if_true (r = r)) in E1, E2, E3 by done.
  eapply res_ok_intro; [apply lookup_insert_eq|cbn [ns_ref ns_mutex]..]; [|lia|].
  - destruct locked, (op_write o); cbn [andb Bool.eqb] in *; lia.
  - destruct locked, (op_write o); cbn [andb Bool.eqb] in *;
      match goal with |- lrw_inv (mkUse _ ?W ?R) => revert Hl'; match goal with |- lrw_inv (mkUse _ ?W' ?R') → _ =>
        replace W with W' by lia; replace R with R' by lia; done end end.
Qed.

Lemma timeout_ok s k o got r todo :
  ns_inv s → ns_ops s !! k = Some o → op_phase o = NsWaiting got r todo →
  ∃ m, ns_leave r (ns_map s) = Ok m ∧
    ns_inv (mkNsState m (<[k := with_ns_phase o (NsReleasing false got)]> (ns_ops s))).
Proof.
  intros Hi Hk Hp. set (ph := NsReleasing false got).
  assert (op_got (with_ns_phase o ph) = op_got o) as Hg by (unfold op_got; by rewrite Hp).
  assert (∀ x, waits_on x o = one_if (r = x)) as Hw by (intros x; by eapply waits_at).
  assert (∀ x, waits_on x (with_ns_phase o ph) = 0%nat) as Hw' by done.
  destruct (users_change s k o ph (ns_map s) r Hk) as (E1 & E2 & E3).
  rewrite !holds_same in E1, E2 by done. rewrite Hw, Hw', (one_if_true (r = r)) in E3 by done.
  pose proof (Hi r) as Hr. unfold ns_res_ok in Hr. destruct (ns_map s !! r) as [lk|] eqn:Hm; [|lia].
  destruct Hr as (Href & Hpos & Hl).
  destruct (leave_ok (ns_map s) (<[k := with_ns_phase o ph]> (ns_ops s)) r lk Hm) as (m & Hlv & Hok & Hother); [lia| |].
  { replace (writers _ r) with (writers s r) by lia. by replace (readers _ r) with (readers s r) by lia. }
  exists m. split; [done|]. intros x. destruct (decide (x = r)) as [->|Hne]; [done|].
  apply res_frame; [done|by apply Hother| |done]. unfold same_users. by rewrite !holds_same, Hw, Hw', one_if_ne.
Qed.

Lemma holds_cons w r o x got ph ph' :
  op_phase o = ph → op_got o = x :: got → op_got (with_ns_phase o ph') = got →
  holds w r o = ((if Bool.eqb (op_write o) w then one_if (x = r) else 0) + holds w r (with_ns_phase o ph'))%nat.
Proof.
  intros Hp Hg Hg'. unfold holds. rewrite Hg, Hg'. cbn [op_write with_ns_phase]. case_if; [|done]. by rewrite count_cons.
Qed.

Lemma release_ok s k o b r got :
  ns_inv s → ns_ops s !! k = Some o → op_phase o = NsReleasing b (r :: got) →
  ∃ m, ns_unlock r (negb (op_write o)) (ns_map s) = Ok m ∧
    ns_inv (mkNsState m (<[k := with_ns_phase o (NsReleasing b got)]> (ns_ops s))).
Proof.
  intros Hi Hk Hp. set (ph := NsReleasing b got).
  assert (∀ w x, holds w x o = ((if Bool.eqb (op_write o) w then one_if (r = x) else 0) + holds w x (with_ns_phase o ph))%nat)
    as Hh by (intros w x; eapply holds_cons; [done|unfold op_got; by rewrite Hp|done]).
  assert (∀ x, waits_on x o = 0%nat) as Hw by (intros x; apply waits_none; by rewrite Hp).
  destruct (users_change s k o ph (ns_map s) r Hk) as (E1 & E2 & E3).
  rewrite Hh, (one_if_true (r = r)) in E1 by done. rewrite Hh, (one_if_true (r = r)) in E2 by done.
  rewrite Hw in E3. change (waits_on r (with_ns_phase o ph)) with 0%nat in E3.
  pose proof (Hi r) as Hr. unfold ns_res_ok, ns_unlock in *.
  destruct (ns_map s !! r) as [lk|] eqn:Hm; [|destruct (op_write o); cbn [Bool.eqb] in *; lia].
  destruct Hr as (Href & Hpos & Hl).
  destruct (lrw_release _ (op_write o) Hl) as (lm & Hu & Hl'); cbn [u_lock u_writers u_readers] in *.
  { destruct (op_write o); cbn [Bool.eqb] in *; lia. }
  rewrite Hu. cbn [obind].
  destruct (leave_ok (<[r := mkNsLock (ns_ref lk) lm]> (ns_map s)) (<[k := with_ns_phase o ph]> (ns_ops s)) r _
    (lookup_insert_eq _ _ _)) as (m & Hlv & Hok & Hother); cbn [ns_ref ns_mutex ns_ops] in *.
  { destruct (op_write o); cbn [Bool.eqb] in *; lia. }
  { destruct (op_write o); cbn [Bool.eqb] in *;
      match goal with |- lrw_inv (mkUse _ ?W ?R) => revert Hl'; match goal with |- lrw_inv (mkUse _ ?W' ?R') → _ =>
        replace W with W' by lia; replace R with R' by lia; done end end. }
  exists m. split; [done|]. intros x. destruct (decide (x = r)) as [->|Hne]; [done|].
  apply res_frame; [done|by rewrite Hother, lookup_insert_ne| |done].
  unfold same_users. rewrite Hw, !(Hh _ x), one_if_ne by done. by destruct (op_write o).
Qed.

Lemma quiet_ok s k o ph :
  ns_inv s → ns_ops s !! k = Some o → op_got (with_ns_phase o ph) = op_got o →
  (∀ r, waits_on r (with_ns_phase o ph) = waits_on r o) →
  ns_inv (mkNsState (ns_map s) (<[k := with_ns_phase o ph]> (ns_ops s))).
Proof. intros Hi Hk Hg Hw x. apply res_frame; [done|done| |done]. unfold same_users. by rewrite !holds_same, Hw. Qed.

Lemma start_ok s id source write resources :
  ns_inv s → ns_inv (mkNsState (ns_map s) (ns_ops s ++ [mkNsOp id source write (ns_next [] resources)])).
Proof.
  intros Hi r. pose proof (Hi r) as Hr. unfold ns_res_ok in *. cbn [ns_map ns_ops].
  rewrite !sum_list_with_app. cbn [sum_list_with foldr].
  assert (∀ w, holds w r (mkNsOp id source write (ns_next [] resources)) = 0%nat) as Hh
    by (intros w; unfold holds, op_got; by destruct resources, (Bool.eqb _ w)).
  assert (waits_on r (mkNsOp id source write (ns_next [] resources)) = 0%nat) as Hw by by destruct resources.
  by rewrite !Hh, Hw, !Nat.add_0_r.
Qed.

Lemma ns_step_ok s ev : ns_inv s → ∃ s', ns_step s ev = Ok s' ∧ ns_inv (default s s').
Proof.
  intros Hi. destruct ev as [id source write resources|k|k|k|k|k]; cbn [ns_step].
  1: { eexists. split; [done|]. by apply start_ok. }
  all: destruct (ns_ops s !! k) as [o|] eqn:Hk; [|by exists None].
  all: destruct (op_phase o) as [got [|r todo]|got r todo|got|b [|r got]|b] eqn:Hp; try by exists None.
  - eexists. split; [done|]. by apply enter_ok.
  - pose proof (try_ok s k o got r todo Hi Hk Hp) as Ht. destruct (ns_try _ _ _ _ _) as [locked m].
    eexists. by split.
  - destruct (timeout_ok s k o got r todo Hi Hk Hp) as (m & -> & Hm). cbn [obind]. eexists. by split.
  - eexists. split; [done|]. apply quiet_ok; [done|done|unfold op_got; by rewrite Hp|].
    intros r. unfold waits_on. by rewrite Hp.
  - eexists. split; [done|]. apply quiet_ok; [done|done|unfold op_got; by rewrite Hp|].
    intros r. unfold waits_on. by rewrite Hp.
  - destruct (release_ok s k o b r got Hi Hk Hp) as (m & -> & Hm). cbn [obind]. eexists. by split.
Qed.

Lemma ns_run_ok s evs : ns_inv s → ∃ s', ns_run s evs = Ok s' ∧ ns_inv s'.
Proof.
  revert s. induction evs as [|ev evs IH]; intros s Hi; [by exists s|]. cbn [ns_run].
  destruct (ns_step_ok s ev Hi) as (s' & -> & Hi'). cbn [obind]. by apply IH.
Qed.

Lemma ns_init_inv : ns_inv ns_init.
Proof. intros r. done. Qed.

(** ** Progress *)

Definition below (a b : string) : Prop := str_ltb a b = true.

(** What a request has comes before what it waits for. *)
Definition op_sorted (o : ns_op) : Prop :=
  match op_phase o with
  | NsLocking got todo => StronglySorted below (got ++ todo) ∧ todo ≠ []
  | NsWaiting got r todo => StronglySorted below (got ++ r :: todo)
  | _ => True
  end.

Definition start_sorted (ev : ns_event) : Prop :=
  match ev with NsStart _ _ _ resources => StronglySorted below resources | _ => True end.

Lemma sorted_next o got todo : StronglySorted below (got ++ todo) → op_sorted (with_ns_phase o (ns_next got todo)).
Proof. by destruct todo. Qed.

Lemma ns_step_sorted s ev s' :
  start_sorted ev → Forall op_sorted (ns_ops s) → ns_step s ev = Ok (Some s') → Forall op_sorted (ns_ops s').
Proof.
  intros Hst Hs. destruct ev as [id source write resources|k|k|k|k|k]; cbn [ns_step].
  1: { intros [= <-]. apply Forall_app. split; [done|]. apply Forall_singleton. by destruct resources. }
  all: destruct (ns_ops s !! k) as [o|] eqn:Hk; [|done].
  all: assert (op_sorted o) as Ho by (rewrite Forall_forall in Hs; by eapply Hs, list_elem_of_lookup_2).
  all: unfold op_sorted in Ho; destruct (op_phase o) as [got [|r todo]|got r todo|got|b [|r got]|b] eqn:Hp; try done.
  - intros [= <-]. apply Forall_insert; [done|]. apply Ho.
  - destruct (ns_try _ _ _ _ _) as [[] m]; intros [= <-]; apply Forall_insert; try done.
    apply sorted_next. by rewrite <- app_assoc.
  - intros Hl. apply obind_ok in Hl as (m & _ & [= <-]). by apply Forall_insert.
  - intros [= <-]. by apply Forall_insert.
  - intros [= <-]. by apply Forall_insert.
  - intros Hl. apply obind_ok in Hl as (m & _ & [= <-]). by apply Forall_insert.
Qed.

Lemma ns_run_sorted s evs s' :
  Forall start_sorted evs → Forall op_sorted (ns_ops s) → ns_run s evs = Ok s' → Forall op_sorted (ns_ops s').
Proof.
  intros Hev. revert s. induction Hev as [|ev evs He _ IH]; intros s Hs; cbn [ns_run]; [by intros [= <-]|].
  intros Hr. apply obind_ok in Hr as (s1 & H1 & Hr). eapply IH; [|done].
  destruct s1 as [s1|]; [|done]. by eapply ns_step_sorted.
Qed.

(** A list of strings has a largest one. *)
Lemma largest (xs : list string) : xs ≠ [] → ∃ m, m ∈ xs ∧ ∀ x, x ∈ xs → str_ltb m x = false.
Proof.
  induction xs as [|x xs IH]; [done|]. intros _. destruct xs as [|y ys].
  - exists x. split; [by left|]. intros z Hz. apply list_elem_of_singleton in Hz as ->.
    destruct (str_ltb x x) eqn:E; [|done]. pose proof (str_ltb_asym _ _ E). congruence.
  - destruct IH as (m & Hm & Hmax); [done|]. destruct (str_ltb m x) eqn:E.
    + exists x. split; [by left|]. intros z [->|Hz]%elem_of_cons.
      * destruct (str_ltb x x) eqn:E'; [|done]. pose proof (str_ltb_asym _ _ E'). congruence.
      * apply (str_ltb_neg_trans z m x); [by apply Hmax|by apply str_ltb_asym].
    + exists m. split; [by right|]. intros z [->|Hz]%elem_of_cons; [done|by apply Hmax].
Qed.

Lemma lrw_free lm id src w : lrw_inv (mkUse lm 0 0) → (lrw_lock id src w lm).1 = true.
Proof.
  unfold lrw_inv, lrw_lock. cbn [u_lock u_writers u_readers lm_ref lm_isWriteLock].
  destruct (lm_isWriteLock lm); intros Hi; [lia|]. rewrite (proj2 (Z.eqb_eq _ 0)) by lia. by destruct w.
Qed.

Definition waiting_for (o : ns_op) : list string :=
  match op_phase o with NsWaiting _ r _ => [r] | _ => [] end.

(** A resource with a holder: the request that has it. *)
Lemma holder_exists (w : bool) r ops :
  (0 < sum_list_with (holds w r) ops)%nat → ∃ o, o ∈ ops ∧ r ∈ op_got o.
Proof.
  induction ops as [|o ops IH]; cbn; [lia|]. intros Hs.
  destruct (decide (holds w r o = 0)%nat) as [Hz|Hz].
  - destruct IH as (q & Hq & Hr); [lia|]. exists q. by split; [right|].
  - exists o. split; [by left|]. unfold holds in Hz. destruct (Bool.eqb _ w); [|done].
    destruct (count_elem (λ x, x = r) (op_got o)) as (x & Hx & ->); [lia|done].
Qed.

(** A waiting request holds only what comes before what it waits for. *)
Lemma sorted_got o got r todo g :
  op_sorted o → op_phase o = NsWaiting got r todo → g ∈ op_got o → str_ltb g r = true.
Proof.
  unfold op_sorted, op_got. intros Hs Hp. rewrite Hp in *. intros Hg.
  eapply (StronglySorted_app_1_elem_of below); [exact Hs|done|by left].
Qed.

(** The request that waits for the largest resource gets it, if all wait. *)
Lemma largest_waiter s :
  ns_inv s → Forall op_sorted (ns_ops s) →
  Forall (λ o, waiting_for o ≠ [] ∨ op_got o = []) (ns_ops s) → concat (waiting_for <$> ns_ops s) ≠ [] →
  ∃ k o got r todo, ns_ops s !! k = Some o ∧ op_phase o = NsWaiting got r todo ∧
    (ns_try (op_id o) (op_source o) (op_write o) r (ns_map s)).1 = true.
Proof.
  intros Hi Hs Hall Hne. destruct (largest _ Hne) as (r & Hr & Hmax). rewrite Forall_forall in Hs, Hall.
  assert (∀ q x, q ∈ ns_ops s → x ∈ waiting_for q → str_ltb r x = false) as Hmax'.
  { intros q x Hq Hx. apply Hmax, list_elem_of_In, in_concat. exists (waiting_for q).
    split; apply list_elem_of_In; [|done]. apply list_elem_of_fmap. by exists q. }
  apply list_elem_of_In, in_concat in Hr as (ws & Hws & Hr). apply list_elem_of_In in Hws, Hr.
  apply list_elem_of_fmap in Hws as (o & -> & Ho). apply list_elem_of_lookup in Ho as (k & Hk).
  unfold waiting_for in Hr. destruct (op_phase o) as [|got r' todo| | |] eqn:Hp; try by apply not_elem_of_nil in Hr.
  apply list_elem_of_singleton in Hr as ->. exists k, o, got, r', todo. split_and!; try done.
  assert (∀ w, sum_list_with (holds w r') (ns_ops s) = 0%nat) as Hfree.
  { intros w. destruct (decide (sum_list_with (holds w r') (ns_ops s) = 0)%nat) as [|Hn]; [done|].
    destruct (holder_exists w r' (ns_ops s)) as (q & Hq & Hg); [lia|].
    destruct (Hall q Hq) as [Hw|Hw]; [|rewrite Hw in Hg; by apply not_elem_of_nil in Hg].
    specialize (Hmax' q). unfold waiting_for in Hw, Hmax'. destruct (op_phase q) as [|got' x todo'| | |] eqn:Hpq; try done.
    pose proof (sorted_got q got' x todo' r' (Hs q Hq) Hpq Hg) as Hlt.
    rewrite Hmax' in Hlt; [done|done|by apply list_elem_of_singleton]. }
  pose proof (Hi r') as Hr. unfold ns_res_ok in Hr. rewrite !Hfree in Hr. unfold ns_try.
  destruct (ns_map s !! r') as [lk|]; [destruct Hr as (_ & _ & Hl)|].
  - pose proof (lrw_free _ (op_id o) (op_source o) (op_write o) Hl) as Hf. by destruct (lrw_lock _ _ _ _).
  - pose proof (sum_elem (waits_on r') _ _ _ Hk) as Hw. rewrite (waits_at r' o got r' todo Hp), one_if_true in Hw by done. lia.
Qed.

(** A request changes its phase. *)
Lemma moves s k o ph m :
  ns_ops s !! k = Some o → ph ≠ op_phase o → ns_ops (mkNsState m (<[k := with_ns_phase o ph]> (ns_ops s))) ≠ ns_ops s.
Proof.
  intros Hk Hne E. apply (f_equal (λ l, l !! k)) in E. cbn in E.
  rewrite list_lookup_insert_eq, Hk in E by (by eapply lookup_lt_Some). injection E as E.
  apply Hne. by apply (f_equal op_phase) in E.
Qed.

Definition no_timeout (ev : ns_event) : bool :=
  match ev with NsEnter _ | NsTry _ | NsUnlock _ | NsRelease _ => true | _ => false end.

Lemma busy_moves s k o :
  ns_inv s → ns_ops s !! k = Some o → op_sorted o → waiting_for o = [] → (∀ b, op_phase o ≠ NsDone b) →
  ∃ ev s', no_timeout ev = true ∧ ns_step s ev = Ok (Some s') ∧ ns_ops s' ≠ ns_ops s.
Proof.
  intros Hi Hk Hs Hw Hd. unfold waiting_for, op_sorted in *.
  destruct (op_phase o) as [got [|r todo]|got r todo|got|b [|r got]|b] eqn:Hp; try done.
  - by destruct Hs.
  - eexists (NsEnter k), _. cbn [ns_step]. rewrite Hk, Hp. split_and!; [done|done|]. apply moves; [done|]. by rewrite Hp.
  - eexists (NsUnlock k), _. cbn [ns_step]. rewrite Hk, Hp. split_and!; [done|done|]. apply moves; [done|]. by rewrite Hp.
  - eexists (NsRelease k), _. cbn [ns_step]. rewrite Hk, Hp. split_and!; [done|done|]. apply moves; [done|]. by rewrite Hp.
  - destruct (release_ok s k o b r got Hi Hk Hp) as (m & Hm & _).
    eexists (NsRelease k), _. cbn [ns_step]. rewrite Hk, Hp, Hm. split_and!; [done|done|]. apply moves; [done|].
    rewrite Hp. intros [=E]. by apply (f_equal length), Nat.neq_succ_diag_r in E.
  - by destruct (Hd b).
Qed.

(** ** Properties *)

(** Namespace locks exclude and do not leak: whatever requests do and in whatever
    order, nothing panics; on every resource there is at most one holder to write, and
    then none to read; and when no request uses a resource any more the map has no
    lock for it. *)
Theorem ns_locks_exclusive evs :
  ∃ s, ns_run ns_init evs = Ok s ∧
    ∀ r, (writers s r ≤ 1)%nat ∧ (writers s r = 1 → readers s r = 0)%nat ∧
      (ns_map s !! r = None ↔ (writers s r + readers s r + waiters s r = 0)%nat).
Proof.
  destruct (ns_run_ok ns_init evs ns_init_inv) as (s & Hs & Hi). exists s. split; [done|]. intros r.
  pose proof (Hi r) as Hr. unfold ns_res_ok in Hr. destruct (ns_map s !! r) as [lk|].
  - destruct Hr as (Href & Hpos & Hl). unfold lrw_inv in Hl. cbn [u_lock u_writers u_readers] in Hl.
    destruct (lm_isWriteLock (ns_mutex lk)); split_and!; try lia; (split; [done|lia]).
  - split_and!; try lia. split; [lia|done].
Qed.

(** C36: sorting the paths avoids deadlocks: if every request locks its resources in
    increasing order, then as long as one is not done, one can make a step without
    a time-out: take its next lock, or give back what it has. *)
Theorem sorted_locks_no_deadlock evs s :
  Forall start_sorted evs → ns_run ns_init evs = Ok s → Exists (λ o, ∀ b, op_phase o ≠ NsDone b) (ns_ops s) →
  ∃ ev s', no_timeout ev = true ∧ ns_step s ev = Ok (Some s') ∧ ns_ops s' ≠ ns_ops s.
Proof.
  intros Hst Hr Hbusy. pose proof (ns_run_sorted ns_init evs s Hst ltac:(by constructor) Hr) as Hs.
  destruct (ns_run_ok ns_init evs ns_init_inv) as (s1 & Hs1 & Hi). rewrite Hr in Hs1. injection Hs1 as <-.
  destruct (decide (Exists (λ o, waiting_for o = [] ∧ op_got o ≠ []) (ns_ops s))) as [He|He].
  - apply Exists_exists in He as (o & Ho & Hw & Hg). pose proof Ho as (k & Hk)%list_elem_of_lookup.
    rewrite Forall_forall in Hs. eapply busy_moves; eauto. intros b Hp. unfold op_got in Hg. by rewrite Hp in Hg.
  - apply not_Exists_Forall in He; [|apply _].
    destruct (decide (concat (waiting_for <$> ns_ops s) = [])) as [Hnil|Hne].
    + apply Exists_exists in Hbusy as (o & Ho & Hd). pose proof Ho as (k & Hk)%list_elem_of_lookup.
      rewrite Forall_forall in Hs. eapply busy_moves; eauto.
      apply List.concat_nil_Forall in Hnil. rewrite List.Forall_forall in Hnil. apply Hnil, list_elem_of_In.
      apply list_elem_of_fmap. by exists o.
    + destruct (largest_waiter s) as (k & o & got & r & todo & Hk & Hp & Ht); [done|done| |done|].
      { eapply Forall_impl; [exact He|]. intros o Ho. cbn in Ho.
        destruct (decide (waiting_for o = [])); [right|by left]. by destruct (decide (op_got o = [])); [|destruct Ho]. }
      destruct (ns_try _ _ _ _ _) as [locked m] eqn:Htry. cbn in Ht. subst locked.
      eexists (NsTry k), _. cbn [ns_step]. rewrite Hk, Hp, Htry.
      split_and!; [done|done|]. apply moves; [done|]. rewrite Hp. by destruct todo.
Qed.

(** Two bulk deletes with the same objects, each having one of them, and a reader. *)
Definition two_deletes : list ns_event :=
  [NsStart "d1" "DeleteObjects" true (NewNSLock "b" ["o2"; "o1"]); NsStart "d2" "DeleteObjects" true (NewNSLock "b" ["o2"; "o3"]);
   NsStart "g" "GetObject" false (NewNSLock "b" ["o1"]);
   NsEnter 0; NsTry 0; NsEnter 1; NsTry 1; NsEnter 0; NsTry 0; NsEnter 2; NsTry 2; NsEnter 1].

Lemma sorted_locks_no_deadlock_witness :
  ∃ s, ns_run ns_init two_deletes = Ok s ∧ op_phase <$> ns_ops s =
      [NsWaiting ["b/o1"] "b/o2" []; NsWaiting ["b/o2"] "b/o3" []; NsWaiting [] "b/o1" []] ∧
    ∃ ev s', no_timeout ev = true ∧ ns_step s ev = Ok (Some s') ∧ ns_ops s' ≠ ns_ops s.
Proof.
  eexists. split; [vm_compute; reflexivity|]. split; [vm_compute; reflexivity|].
  apply (sorted_locks_no_deadlock two_deletes); [|vm_compute; reflexivity|].
  - repeat constructor.
  - apply Exists_exists. eexists. split; [by left|]. intros b. discriminate.
Defined.
