(* ===== verification/StorageClass.v ===== *)
(** * Storage classes (internal/config/storageclass)

    How many of the drives of a set hold parity, for each storage class: from the
    environment or the configuration, as [EC:n]. *)

From Stdlib Require Import ZArith Lia Bool Ascii.
From S2P Require Import Prelude GoStrings.

Local Open Scope go_scope.
Local Open Scope Z_scope.

(** ** Configuration entries (internal/config/config.go) *)

Record KV := mkKV { kv_Key : string; kv_Value : string }.
Abbreviation KVS := (list KV).

Definition KVS_Lookup (kvs : KVS) (key : string) : option string :=
  kv_Value <$> List.find (λ kv, String.eqb (kv_Key kv) key) kvs.

Definition KVS_Get (kvs : KVS) (key : string) : string := default ""%string (KVS_Lookup kvs key).

(** The first entry with the key. *)
Fixpoint KVS_Delete (kvs : KVS) (key : string) : KVS :=
  match kvs with
  | [] => []
  | kv :: kvs => if String.eqb (kv_Key kv) key then kvs else kv :: KVS_Delete kvs key
  end.

Inductive sc_err :=
  | InvalidKeys
  | TooManySections
  | TooFewSections
  | UnsupportedScheme
  | InvalidParity
  | StandardTooSmall
  | RRSTooSmall
  | StandardTooLarge
  | RRSTooLarge
  | StandardBelowRRS.

(** The comment key is a constant of the admin client library. *)
Definition CheckValidKeys (Comment : string) (kvs validKVS : KVS) : outcome sc_err () :=
  let nkv := List.filter (λ kv, negb (String.eqb (kv_Key kv) Comment) && negb (bool_decide (is_Some (KVS_Lookup validKVS (kv_Key kv))))) kvs in
  if (0 <? length nkv)%nat then Err InvalidKeys else Ok ().

(** ** Storage classes *)

Definition RRS : string := "REDUCED_REDUNDANCY".
Definition STANDARD : string := "STANDARD".
Definition minParityDisks : Z := 2.
Definition defaultRRSParity : Z := minParityDisks.
Definition DefaultKVS : KVS := [mkKV "standard" ""; mkKV "rrs" "EC:2"].

Record StorageClass := mkSC { Parity : Z }.
Record Config := mkConfig { cfg_Standard : StorageClass; cfg_RRS : StorageClass }.

Definition sc_IsValid (sc : string) : bool := String.eqb sc RRS || String.eqb sc STANDARD.

Definition StorageClass_String (sc : StorageClass) : string :=
  if negb (Parity sc =? 0) then "EC:" +:+ itoa (Parity sc) else "".

Definition parseStorageClass (storageClassEnv : string) : outcome sc_err StorageClass :=
  match split_char ":"%char storageClassEnv with
  | [scheme; n] =>
      if negb (String.eqb scheme "EC") then Err UnsupportedScheme
      else match Atoi n with Some parityDisks => Ok (mkSC parityDisks) | None => Err InvalidParity end
  | _ :: _ :: _ :: _ => Err TooManySections
  | _ => Err TooFewSections
  end.

Definition UnmarshalText (b : string) (sc : StorageClass) : outcome sc_err StorageClass :=
  if String.eqb b "" then Ok sc else parseStorageClass b.

Definition ValidateParity (ssParity setDriveCount : Z) : outcome sc_err () :=
  if (0 <? ssParity) && (ssParity <? minParityDisks) then Err StandardTooSmall
  else if setDriveCount `quot` 2 <? ssParity then Err StandardTooLarge
  else Ok ().

Definition validateParity (ssParity rrsParity setDriveCount : Z) : outcome sc_err () :=
  if (0 <? ssParity) && (ssParity <? minParityDisks) then Err StandardTooSmall
  else if (0 <? rrsParity) && (rrsParity <? minParityDisks) then Err RRSTooSmall
  else if setDriveCount `quot` 2 <? ssParity then Err StandardTooLarge
  else if setDriveCount `quot` 2 <? rrsParity then Err RRSTooLarge
  else if (0 <? ssParity) && (0 <? rrsParity) && ((0 <? ssParity) && (ssParity <? rrsParity)) then Err StandardBelowRRS
  else Ok ().

Definition GetParityForSC (sCfg : Config) (sc : string) : Z :=
  if String.eqb (TrimSpace sc) RRS then
    if Parity (cfg_RRS sCfg) =? 0 then defaultRRSParity else Parity (cfg_RRS sCfg)
  else Parity (cfg_Standard sCfg).

Definition Config_Update (sCfg newCfg : Config) : Config := mkConfig (cfg_Standard newCfg) (cfg_RRS newCfg).

Definition sc_Enabled (kvs : KVS) : bool :=
  negb (String.eqb (KVS_Get kvs "standard") "") || negb (String.eqb (KVS_Get kvs "rrs") "").

(** [env] is the environment. *)
Definition LookupConfig (Comment : string) (env : string → option string) (kvs : KVS) (setDriveCount : Z) : outcome sc_err Config :=
  let kvs := KVS_Delete kvs "dma" in
  _ ←? CheckValidKeys Comment kvs DefaultKVS;
  let ssc := default (KVS_Get kvs "standard") (env "MINIO_STORAGE_CLASS_STANDARD"%string) in
  let rrsc := default (KVS_Get kvs "rrs") (env "MINIO_STORAGE_CLASS_RRS"%string) in
  standard ←? (if negb (String.eqb ssc "") then parseStorageClass ssc else Ok (mkSC 0));
  rrs ←? (if negb (String.eqb rrsc "") then parseStorageClass rrsc else Ok (mkSC 0));
  let rrs := if Parity rrs =? 0 then mkSC defaultRRSParity else rrs in
  _ ←? validateParity (Parity standard) (Parity rrs) setDriveCount;
  Ok (mkConfig standard rrs).

(** ** Lemmas *)

Lemma parse_print sc : 0 < Parity sc ≤ max_int64 → parseStorageClass (StorageClass_String sc) = Ok sc.
Proof.
  intros Hp. unfold StorageClass_String. rewrite (proj2 (Z.eqb_neq _ 0)) by lia. cbn [negb].
  destruct (itoa_digits (Parity sc)) as (Hd & _); [lia|]. unfold parseStorageClass.
  change ("EC:" +:+ itoa (Parity sc)) with ("EC" +:+ String ":"%char (itoa (Parity sc))).
  rewrite split_char_app, split_char_single by (done || by apply all_digits_no_char). cbn [String.eqb negb]. unfold Atoi.
  rewrite ParseInt_itoa by lia. by destruct sc.
Qed.

(** The parities of a configuration that was accepted. *)
Definition config_ok (setDriveCount : Z) (cfg : Config) : Prop :=
  Parity (cfg_Standard cfg) ≤ setDriveCount `quot` 2 ∧ Parity (cfg_RRS cfg) ≤ setDriveCount `quot` 2 ∧
  (0 < Parity (cfg_Standard cfg) → minParityDisks ≤ Parity (cfg_Standard cfg)) ∧
  (0 < Parity (cfg_RRS cfg) → minParityDisks ≤ Parity (cfg_RRS cfg)) ∧
  Parity (cfg_RRS cfg) ≠ 0 ∧
  (0 < Parity (cfg_Standard cfg) → 0 < Parity (cfg_RRS cfg) → Parity (cfg_RRS cfg) ≤ Parity (cfg_Standard cfg)).

Lemma validateParity_ok ss rrs n :
  validateParity ss rrs n = Ok () ↔
  ss ≤ n `quot` 2 ∧ rrs ≤ n `quot` 2 ∧ (0 < ss → minParityDisks ≤ ss) ∧ (0 < rrs → minParityDisks ≤ rrs) ∧ (0 < ss → 0 < rrs → rrs ≤ ss).
Proof.
  unfold validateParity. split.
  - repeat (case_if; [done|]). intros _. destruct_bools. lia.
  - intros (H1 & H2 & H3 & H4 & H5).
    repeat match goal with |- context [if ?b then _ else _] => destruct b eqn:?; [destruct_bools; lia|] end. done.
Qed.

Lemma LookupConfig_ok Comment env kvs n cfg : LookupConfig Comment env kvs n = Ok cfg → config_ok n cfg.
Proof.
  unfold LookupConfig. intros H. apply obind_ok in H as (_ & _ & H). apply obind_ok in H as (ss & _ & H).
  apply obind_ok in H as (rrs & _ & H). apply obind_ok in H as ([] & Hv & H). injection H as <-.
  apply validateParity_ok in Hv as (H1 & H2 & H3 & H4 & H5). unfold config_ok. cbn [cfg_Standard cfg_RRS]. split_and!; try done.
  destruct (Z.eqb_spec (Parity rrs) 0); [done|done].
Qed.

(** The parity of any class is one that was accepted, or the default of the reduced class. *)
Lemma GetParityForSC_bound n cfg sc :
  config_ok n cfg → GetParityForSC cfg sc ≤ n `quot` 2 ∧ (0 < GetParityForSC cfg sc → minParityDisks ≤ GetParityForSC cfg sc).
Proof.
  intros (H1 & H2 & H3 & H4 & H5 & H6). unfold GetParityForSC. destruct (String.eqb _ _); [|done].
  by rewrite (proj2 (Z.eqb_neq _ _)) by done.
Qed.
