(* ===== verification/Endpoints.v ===== *)
(** * The layout of drives in erasure sets (cmd/endpoint-ellipses.go)

    The drives of the command line, given one by one or by patterns such as
    [/data{1...64}], are cut into sets of one size. Patterns are parsed by a package
    of its own ([github.com/minio/pkg/ellipses]), an argument here. A [uint64] is an
    [N] below 2^64. *)

From Stdlib Require Import ZArith NArith Lia Bool.
From stdpp Require Import sorting.
From S2P Require Import Prelude GoStrings.

Local Open Scope go_scope.
Local Open Scope N_scope.

(** [ellipses.Pattern] and [ellipses.ArgPattern] *)
Record Pattern := mkPattern { p_Prefix : string; p_Suffix : string; p_Seq : list string }.
Abbreviation ArgPattern := (list Pattern).

(** What the code calls of the package. *)
Class Ellipses := {
  FindEllipsesPatterns : string → outcome string ArgPattern;
  HasEllipses : list string → bool;
  Expand : ArgPattern → list (list string);
}.

(** The errors of config and [errInvalidArgument], without the texts. *)
Inductive ep_error :=
  | errInvalidArgument
  | ErrInvalidNumberOfErasureEndpoints
  | ErrInvalidErasureSetSize
  | ErrInvalidErasureEndpoints.

Definition u64 (n : N) : N := n mod 2 ^ 64.
Definition len {A} (l : list A) : N := N.of_nat (length l).

Definition setSizes : list N := [4; 5; 6; 7; 8; 9; 10; 11; 12; 13; 14; 15; 16].

(** The loop of [gcd]; two iterations take a bit off [y]. *)
Fixpoint gcd_loop (fuel : nat) (x y : N) : outcome ep_error N :=
  if y =? 0 then Ok x
  else match fuel with
       | O => Panic "out of fuel"
       | S fuel => gcd_loop fuel y (x mod y)
       end.

Definition gcd (x y : N) : outcome ep_error N := gcd_loop (2 * N.to_nat (N.size y)) x y.

Fixpoint gcd_all (result : N) (sizes : list N) : outcome ep_error N :=
  match sizes with
  | [] => Ok result
  | s :: sizes => result ←? gcd result s; gcd_all result sizes
  end.

Definition getDivisibleSize (totalSizes : list N) : outcome ep_error N :=
  match totalSizes with
  | [] => Panic "index out of range"
  | s :: sizes => gcd_all s sizes
  end.

Definition isValidSetSize (count : N) : bool := (4 <=? count) && (count <=? 16).

Definition commonSet_step (divisibleSize : N) (acc : N * N) (cnt : N) : N * N :=
  let '(prevD, setSize) := acc in
  if divisibleSize mod cnt =? 0 then
    let d := divisibleSize / cnt in
    if d <=? prevD then (d, cnt) else acc
  else acc.

Definition commonSetDriveCount (divisibleSize : N) (setCounts : list N) : outcome ep_error N :=
  match setCounts with
  | [] => Panic "index out of range"
  | c :: _ =>
      if divisibleSize <? List.last setCounts 0 then Ok divisibleSize
      else Ok (foldl (commonSet_step divisibleSize) (divisibleSize / c, 0) setCounts).2
  end.

(** The assignments to [symmetry], one per pattern. *)
Definition symmetry_step (ss : N) (symmetry : bool) (p : Pattern) : bool :=
  if ss <? len (p_Seq p) then len (p_Seq p) mod ss =? 0 else ss mod len (p_Seq p) =? 0.

Definition symmetry (ss : N) (argPatterns : list ArgPattern) : bool :=
  foldl (symmetry_step ss) false (concat argPatterns).

(** [argPatterns] is nil without ellipses. The counts are distinct, sorted. *)
Definition possibleSetCountsWithSymmetry (setCounts : list N) (argPatterns : option (list ArgPattern)) : list N :=
  merge_sort N.le (remove_dups
    (List.filter (λ ss, match argPatterns with Some aps => symmetry ss aps | None => true end) setCounts)).

Definition possibleSetCounts (setSize : N) : list N := List.filter (λ s, setSize mod s =? 0) setSizes.

Definition getSetIndexes (args : list string) (totalSizes : list N) (customSetDriveCount : N)
    (argPatterns : option (list ArgPattern)) : outcome ep_error (list (list N)) :=
  if (length totalSizes =? 0)%nat || (length args =? 0)%nat then Err errInvalidArgument
  else if existsb (λ totalSize, (totalSize <? 4) || (totalSize <? customSetDriveCount)) totalSizes
  then Err ErrInvalidNumberOfErasureEndpoints
  else
    commonSize ←? getDivisibleSize totalSizes;
    let setCounts := possibleSetCounts commonSize in
    if (length setCounts =? 0)%nat then Err ErrInvalidNumberOfErasureEndpoints
    else
      setSize ←? (if 0 <? customSetDriveCount then
                    if existsb (λ ss, ss =? customSetDriveCount) setCounts then Ok customSetDriveCount
                    else Err ErrInvalidErasureSetSize
                  else
                    let setCounts := possibleSetCountsWithSymmetry setCounts argPatterns in
                    if (length setCounts =? 0)%nat then Err ErrInvalidNumberOfErasureEndpoints
                    else commonSetDriveCount commonSize setCounts);
      if negb (isValidSetSize setSize) then Err ErrInvalidNumberOfErasureEndpoints
      else Ok ((λ totalSize, replicate (N.to_nat (totalSize / setSize)) setSize) <$> totalSizes).

Record endpointSet := mkEndpointSet {
  argPatterns : list ArgPattern; endpoints : list string; setIndexes : list (list N)
}.

Section Sets.
Context `{Ellipses}.

Definition getEndpoints (s : endpointSet) : list string :=
  if negb (length (endpoints s) =? 0)%nat then endpoints s
  else concat ((λ argPattern, (λ lbls, String.concat "" lbls) <$> Expand argPattern) <$> argPatterns s).

(** The slices [endpoints[k:size+k]] in order; a slice beyond the end panics. *)
Fixpoint cut_sets (sizes : list N) (rest : list string) : outcome ep_error (list (list string)) :=
  match sizes with
  | [] => Ok []
  | n :: sizes =>
      if len rest <? n then Panic "slice bounds out of range"
      else sets ←? cut_sets sizes (drop (N.to_nat n) rest); Ok (take (N.to_nat n) rest :: sets)
  end.

Definition endpointSet_Get (s : endpointSet) : outcome ep_error (list (list string)) :=
  cut_sets (concat (setIndexes s)) (getEndpoints s).

Definition getTotalSizes (argPatterns : list ArgPattern) : list N :=
  (λ argPattern, foldl (λ totalSize p, u64 (totalSize * len (p_Seq p))) 1 argPattern) <$> argPatterns.

Fixpoint findPatterns (args : list string) : outcome ep_error (list ArgPattern) :=
  match args with
  | [] => Ok []
  | arg :: args =>
      match FindEllipsesPatterns arg with
      | Ok patterns => rest ←? findPatterns args; Ok (patterns :: rest)
      | Err _ => Err ErrInvalidErasureEndpoints
      | Panic w => Panic w
      end
  end.

Definition parseEndpointSet (customSetDriveCount : N) (args : list string) : outcome ep_error endpointSet :=
  argPatterns ←? findPatterns args;
  match getSetIndexes args (getTotalSizes argPatterns) customSetDriveCount (Some argPatterns) with
  | Ok setIndexes => Ok (mkEndpointSet argPatterns [] setIndexes)
  | Err _ => Err ErrInvalidErasureEndpoints
  | Panic w => Panic w
  end.

(** The value of [MINIO_ERASURE_SET_DRIVE_COUNT], "" when it is not set. *)
Definition customCount (env : string) : outcome ep_error N :=
  if String.eqb env "" then Ok 0
  else match Atoi env with
       | Some driveCount => Ok (Z.to_N (to_uint64 driveCount))
       | None => Err ErrInvalidErasureSetSize
       end.

Definition GetAllSets (env : string) (args : list string) : outcome ep_error (list (list string)) :=
  customSetDriveCount ←? customCount env;
  setArgs ←? (if negb (HasEllipses args) then
                setIndexes ←? (if (1 <? length args)%nat then getSetIndexes args [len args] customSetDriveCount None
                               else Ok [[len args]]);
                endpointSet_Get (mkEndpointSet [] args setIndexes)
              else
                s ←? parseEndpointSet customSetDriveCount args; endpointSet_Get s);
  if bool_decide (NoDup (concat setArgs)) then Ok setArgs else Err ErrInvalidErasureEndpoints.

End Sets.

(** ** Euclid's loop *)

Lemma mod_halves y r : r ≠ 0 → r < y → 2 * (y mod r) < y.
Proof.
  intros Hr Hlt. pose proof (N.div_mod y r Hr). pose proof (N.mod_lt y r Hr).
  assert (1 <= y / r) by (apply N.div_le_lower_bound; lia). nia.
Qed.

Lemma size_halves m y : 2 * m < y → N.size m < N.size y.
Proof.
  intros Hlt. destruct (decide (m = 0)) as [->|Hm]; [destruct y; [lia|done]|].
  rewrite !N.size_log2 by lia. pose proof (N.log2_le_mono (2 * m) y ltac:(lia)) as Hl.
  rewrite N.log2_double in Hl by lia. lia.
Qed.

Lemma gcd_loop_spec n fuel x y :
  (N.to_nat (N.size y) ≤ n)%nat → (2 * n ≤ fuel)%nat → gcd_loop fuel x y = Ok (N.gcd x y).
Proof.
  revert fuel x y. induction n as [|n IH]; intros fuel x y Hn Hf.
  - destruct y as [|p]; [|cbn [N.size] in Hn; lia]. destruct fuel; cbn; by rewrite N.gcd_0_r.
  - destruct (N.eqb_spec y 0) as [->|Hy]; [destruct fuel; cbn; by rewrite N.gcd_0_r|].
    destruct fuel as [|[|fuel]]; [lia|lia|]. cbn [gcd_loop]. rewrite (proj2 (N.eqb_neq y 0)) by done.
    rewrite (N.gcd_comm x y), <- (N.Lcm0.gcd_mod x y), N.gcd_comm by done.
    destruct (N.eqb_spec (x mod y) 0) as [E|E]; [by rewrite E, N.gcd_0_r|].
    rewrite IH; [by rewrite (N.gcd_comm (x mod y)), N.Lcm0.gcd_mod, N.gcd_comm| |lia].
    pose proof (size_halves _ _ (mod_halves y (x mod y) E (N.mod_lt x y Hy))). lia.
Qed.

Lemma gcd_spec x y : gcd x y = Ok (N.gcd x y).
Proof. by apply (gcd_loop_spec (N.to_nat (N.size y))). Qed.

Lemma gcd_all_spec r sizes : ∃ g, gcd_all r sizes = Ok g ∧ (g | r) ∧ Forall (λ s, (g | s)) sizes.
Proof.
  revert r. induction sizes as [|s sizes IH]; intros r; cbn [gcd_all].
  - exists r. split_and!; [done|apply N.divide_refl|done].
  - rewrite gcd_spec. cbn [obind]. destruct (IH (N.gcd r s)) as (g & Hg & Hd & Hall). exists g. split_and!; [done| |].
    + etrans; [exact Hd|apply N.gcd_divide_l].
    + constructor; [etrans; [exact Hd|apply N.gcd_divide_r]|done].
Qed.

Lemma getDivisibleSize_spec sizes :
  sizes ≠ [] → ∃ g, getDivisibleSize sizes = Ok g ∧ Forall (λ s, (g | s)) sizes.
Proof.
  destruct sizes as [|s sizes]; [done|]. intros _. destruct (gcd_all_spec s sizes) as (g & Hg & Hd & Hall).
  exists g. split; [done|by constructor].
Qed.

(** ** The size of the sets *)

Lemma possibleSetCounts_spec n s : s ∈ possibleSetCounts n → (s | n) ∧ s ≠ 0.
Proof.
  intros Hs%list_elem_of_In. apply List.filter_In in Hs as [Hin Hd]. apply N.eqb_eq in Hd.
  assert (s ≠ 0) by (intros ->; by repeat destruct Hin as [[=]|Hin]). split; [by apply N.Lcm0.mod_divide|done].
Qed.

Lemma symmetric_elem s counts aps : s ∈ possibleSetCountsWithSymmetry counts aps → s ∈ counts.
Proof.
  unfold possibleSetCountsWithSymmetry. rewrite merge_sort_Permutation, elem_of_remove_dups.
  intros Hs%list_elem_of_In. apply List.filter_In in Hs as [Hs _]. by apply list_elem_of_In.
Qed.

Lemma commonSet_fold n counts acc :
  (foldl (commonSet_step n) acc counts).2 = acc.2 ∨ (foldl (commonSet_step n) acc counts).2 ∈ counts.
Proof.
  revert acc. induction counts as [|c counts IH]; intros [d s]; cbn [foldl]; [by left|].
  destruct (IH (commonSet_step n (d, s) c)) as [->|Hin]; [|right; by right]. unfold commonSet_step.
  case_if; [|by left]. case_if; [right; by left|by left].
Qed.

Lemma commonSetDriveCount_spec n counts s :
  commonSetDriveCount n counts = Ok s → s = n ∨ s = 0 ∨ s ∈ counts.
Proof.
  unfold commonSetDriveCount. destruct counts as [|c counts]; [done|]. case_if; intros [= <-]; [by left|right].
  destruct (commonSet_fold n (c :: counts) (n / c, 0)) as [Hz|Hin]; [left; exact Hz|right; exact Hin].
Qed.

Lemma getSetIndexes_spec args sizes custom aps :
  (∃ e, getSetIndexes args sizes custom aps = Err e) ∨
  ∃ size, 4 ≤ size ≤ 16 ∧ Forall (λ s, (size | s)) sizes ∧
    getSetIndexes args sizes custom aps = Ok ((λ s, replicate (N.to_nat (s / size)) size) <$> sizes).
Proof.
  unfold getSetIndexes. case_if; [by eauto|]. case_if; [by eauto|]. apply orb_false_iff in E as [Hne _].
  destruct (getDivisibleSize_spec sizes) as (g & -> & Hall); [by intros ->|]. cbn [obind].
  case_if; [by eauto|].
  assert (∀ size, (size | g) → (∃ e, (if negb (isValidSetSize size) then Err ErrInvalidNumberOfErasureEndpoints
            else Ok ((λ s, replicate (N.to_nat (s / size)) size) <$> sizes)) = Err e) ∨
    ∃ size', 4 ≤ size' ≤ 16 ∧ Forall (λ s, (size' | s)) sizes ∧
      (if negb (isValidSetSize size) then Err ErrInvalidNumberOfErasureEndpoints
       else Ok ((λ s, replicate (N.to_nat (s / size)) size) <$> sizes)) =
      Ok ((λ s, replicate (N.to_nat (s / size')) size') <$> sizes)) as Hgo.
  { intros size Hd. unfold isValidSetSize. destruct (_ && _) eqn:Hv; cbn [negb]; [right|left; by eexists].
    exists size. apply andb_true_iff in Hv as [H1%N.leb_le H2%N.leb_le]. split_and!; [done|done| |done].
    eapply Forall_impl; [exact Hall|]. intros s Hs. cbn. by etrans. }
  destruct (0 <? custom).
  - destruct (existsb (λ ss, ss =? custom) (possibleSetCounts g)) eqn:Hx; cbn [obind]; [|left; by eexists].
    apply Hgo.
    apply existsb_exists in Hx as (ss & Hin & Heq). apply N.eqb_eq in Heq as ->.
    by apply possibleSetCounts_spec, list_elem_of_In.
  - case_if; [by eauto|].
    destruct (commonSetDriveCount g _) as [size| |] eqn:Hc; cbn [obind].
    + apply commonSetDriveCount_spec in Hc as [->|[->|Hin]].
      * apply Hgo, N.divide_refl.
      * by eauto.
      * apply symmetric_elem, possibleSetCounts_spec in Hin as [Hd _]. by apply Hgo.
    + by eauto.
    + unfold commonSetDriveCount in Hc. destruct (possibleSetCountsWithSymmetry _ _); [done|]. by destruct (g <? _).
Qed.

(** ** Cutting the endpoints *)

Lemma cut_sets_replicate k size rest :
  (N.to_nat size * k = length rest)%nat →
  ∃ sets, cut_sets (replicate k size) rest = Ok sets ∧ concat sets = rest ∧ length sets = k ∧
    Forall (λ set, length set = N.to_nat size) sets.
Proof.
  revert rest. induction k as [|k IH]; intros rest Hk; cbn [replicate cut_sets].
  - exists []. destruct rest; [done|cbn in Hk; lia].
  - rewrite (proj2 (N.ltb_ge _ _)) by (unfold len; nia).
    destruct (IH (drop (N.to_nat size) rest)) as (sets & -> & Hc & Hl & Hs); [rewrite length_drop; nia|].
    cbn [obind]. eexists. split; [done|]. cbn [concat length]. rewrite Hc, take_drop. split_and!; [done|lia|].
    constructor; [|done]. rewrite length_take. nia.
Qed.

Lemma replicate_concat (size : N) (sizes : list N) :
  concat ((λ s, replicate (N.to_nat (s / size)) size) <$> sizes) =
  replicate (sum_list_with (λ s, N.to_nat (s / size)) sizes) size.
Proof. induction sizes as [|s sizes IH]; [done|]. cbn. by rewrite IH, replicate_add. Qed.

Lemma sizes_sum size sizes :
  size ≠ 0 → Forall (λ s, (size | s)) sizes →
  (N.to_nat size * sum_list_with (λ s, N.to_nat (s / size)) sizes = sum_list_with N.to_nat sizes)%nat.
Proof.
  intros Hs. induction 1 as [|s sizes [q ->] _ IH]; cbn; [lia|]. rewrite N.div_mul by done. lia.
Qed.

Section Layout.
Context `{Ellipses}.

(** [Expand] gives all combinations: as many labels as the product of the lengths of
    the sequences. *)
Definition patterns_size (ap : ArgPattern) : N := foldl (λ n p, n * len (p_Seq p)) 1 ap.
Definition expand_all : Prop := ∀ ap, len (Expand ap) = patterns_size ap.

(** The expansions fit in memory: a slice has at most 2^63 - 1 elements. *)
Definition fits (aps : list ArgPattern) : Prop := Forall (λ ap, patterns_size ap < 2 ^ 63) aps.

Lemma total_size_mod ap :
  foldl (λ totalSize p, u64 (totalSize * len (p_Seq p))) 1 ap = u64 (patterns_size ap).
Proof.
  unfold patterns_size. induction ap as [|p ap IH] using rev_ind; [done|]. rewrite !foldl_app. cbn [foldl].
  rewrite IH. unfold u64. by rewrite N.Div0.mul_mod_idemp_l.
Qed.

Definition all_endpoints (aps : list ArgPattern) : list string :=
  concat ((λ ap, (λ lbls, String.concat "" lbls) <$> Expand ap) <$> aps).

Lemma total_sizes aps :
  expand_all → fits aps → sum_list_with N.to_nat (getTotalSizes aps) = length (all_endpoints aps).
Proof.
  intros He. induction 1 as [|ap aps Hlt _ IH]; [done|]. unfold getTotalSizes, all_endpoints in *. cbn.
  rewrite IH, length_app, length_fmap, total_size_mod. unfold u64. rewrite N.mod_small by lia.
  rewrite <- He. unfold len. lia.
Qed.

(** Sets of one size that cover the endpoints. *)
Definition even_sets (eps : list string) (sets : list (list string)) : Prop :=
  concat sets = eps ∧ ∃ size, (4 ≤ size ≤ 16)%nat ∧ Forall (λ set, length set = size) sets.

Lemma sets_of_indexes size sizes aps eps s :
  4 ≤ size ≤ 16 → Forall (λ s, (size | s)) sizes → getEndpoints s = eps →
  sum_list_with N.to_nat sizes = length eps →
  s = mkEndpointSet aps (endpoints s) ((λ s, replicate (N.to_nat (s / size)) size) <$> sizes) →
  ∃ sets, endpointSet_Get s = Ok sets ∧ even_sets eps sets.
Proof.
  intros Hsz Hd He Hlen Hs. unfold endpointSet_Get. rewrite He, Hs. cbn [setIndexes]. rewrite replicate_concat.
  destruct (cut_sets_replicate (sum_list_with (λ s, N.to_nat (s / size)) sizes) size eps) as (sets & -> & Hc & _ & Hall).
  { rewrite sizes_sum by (done || lia). done. }
  exists sets. split; [done|]. split; [done|]. exists (N.to_nat size). split; [lia|done].
Qed.

Lemma list_sets args custom :
  (∃ e, getSetIndexes args [len args] custom None = Err e) ∨
  ∃ ix sets, getSetIndexes args [len args] custom None = Ok ix ∧
    endpointSet_Get (mkEndpointSet [] args ix) = Ok sets ∧ even_sets args sets.
Proof.
  destruct (getSetIndexes_spec args [len args] custom None) as [?|(size & Hsz & Hd & ->)]; [by left|right].
  destruct (sets_of_indexes size [len args] [] args
    (mkEndpointSet [] args ((λ s, replicate (N.to_nat (s / size)) size) <$> [len args])) Hsz Hd) as (sets & Hg & Hs); [| |done|].
  - unfold getEndpoints. cbn [endpoints]. by destruct args.
  - cbn. unfold len. lia.
  - by eexists _, sets.
Qed.

Lemma pattern_sets custom args :
  expand_all → (∀ aps, findPatterns args = Ok aps → fits aps) →
  (∃ e, parseEndpointSet custom args = Err e) ∨ (∃ arg w, FindEllipsesPatterns arg = Panic w) ∨
  ∃ aps s sets, findPatterns args = Ok aps ∧ parseEndpointSet custom args = Ok s ∧
    endpointSet_Get s = Ok sets ∧ even_sets (all_endpoints aps) sets.
Proof.
  intros He Hfit. unfold parseEndpointSet. destruct (findPatterns args) as [aps|e|w] eqn:Hf; cbn [obind]; [|by eauto|].
  2: { right; left. clear Hfit. revert w Hf. induction args as [|arg args IH]; intros w; cbn [findPatterns]; [done|].
       destruct (FindEllipsesPatterns arg) as [| |w'] eqn:Hp; [|done|by eauto].
       destruct (findPatterns args); [done|done|]. intros _. by eapply IH. }
  destruct (getSetIndexes_spec args (getTotalSizes aps) custom (Some aps)) as [(e & ->)|(size & Hsz & Hd & ->)]; [by eauto|].
  do 2 right. destruct (sets_of_indexes size (getTotalSizes aps) aps (all_endpoints aps)
    (mkEndpointSet aps [] ((λ s, replicate (N.to_nat (s / size)) size) <$> getTotalSizes aps)) Hsz Hd)
    as (sets & Hg & Hs); [done|by apply total_sizes; auto|done|]. by eexists aps, _, sets.
Qed.

End Layout.

(** ** Properties *)

(** The layout of drives: whenever the arguments of the command line are accepted,
    the sets have one size between 4 and 16, no drive is in two places, and together
    and in order they are exactly the drives of the arguments; a single drive is a
    set of its own. Otherwise an error is reported; no arguments make the server
    panic. *)
Theorem drives_partitioned `{Ellipses} env args :
  expand_all → (∀ aps, findPatterns args = Ok aps → fits aps) → (∀ arg w, FindEllipsesPatterns arg ≠ Panic w) →
  (∃ e, GetAllSets env args = Err e) ∨
  ∃ sets, GetAllSets env args = Ok sets ∧ NoDup (concat sets) ∧
    if HasEllipses args then ∃ aps, findPatterns args = Ok aps ∧ even_sets (all_endpoints aps) sets
    else if (1 <? length args)%nat then even_sets args sets else sets = [args].
Proof.
  intros He Hfit Hp. unfold GetAllSets.
  destruct (customCount env) as [custom|e|w] eqn:Hc; cbn [obind]; [|by eauto|].
  2: { unfold customCount in Hc. destruct (String.eqb env ""); [done|]. by destruct (Atoi env). }
  destruct (HasEllipses args); cbn [negb].
  - destruct (pattern_sets custom args He Hfit) as [(e & ->)|[(arg & w & Hw)|(aps & s & sets & Hf & -> & Hg & Hs)]];
      cbn [obind]; [by eauto|by destruct (Hp arg w)|].
    rewrite Hg. cbn [obind]. destruct (bool_decide_reflect (NoDup (concat sets))); [right|by eauto].
    exists sets. split_and!; [done|done|by exists aps].
  - destruct (1 <? length args)%nat eqn:Hl.
    + destruct (list_sets args custom) as [(e & ->)|(ix & sets & -> & Hg & Hs)]; cbn [obind]; [by eauto|].
      rewrite Hg. cbn [obind]. destruct (bool_decide_reflect (NoDup (concat sets))); [right|by eauto]. by exists sets.
    + cbn [obind]. apply Nat.ltb_ge in Hl.
      assert (endpointSet_Get (mkEndpointSet [] args [[len args]]) = Ok [args]) as ->.
      { destruct args as [|a [|? ?]]; [done|done|cbn in Hl; lia]. }
      cbn [obind]. destruct (bool_decide_reflect (NoDup (concat [args]))); [right|by eauto]. by exists [args].
Qed.

(** One host pattern and one drive pattern for every argument. *)
#[local] Instance demo_ellipses (hosts drives : list string) : Ellipses := {
  FindEllipsesPatterns _ := Ok [mkPattern "" "/" hosts; mkPattern "disk" "" drives];
  HasEllipses _ := true;
  Expand ap := foldr (λ p ls, l ← ls; (λ x, (p_Prefix p +:+ x +:+ p_Suffix p) :: l) <$> p_Seq p) [[]] ap;
}.

Lemma demo_expand hosts drives ap :
  len (@Expand (demo_ellipses hosts drives) ap) = foldr (λ p n, len (p_Seq p) * n) 1 ap.
Proof.
  induction ap as [|p ap IH]; [done|]. cbn in *. rewrite <- IH. clear IH.
  generalize (foldr (λ p ls, l ← ls; (λ x, (p_Prefix p +:+ x +:+ p_Suffix p) :: l) <$> p_Seq p) [[]] ap) as ls.
  induction ls as [|l ls IH]; cbn; [unfold len; cbn; lia|]. unfold len in *. rewrite length_app, length_fmap, Nat2N.inj_add, IH. cbn [length]. lia.
Qed.

(** The product does not depend on the side from which it is computed. *)
Lemma patterns_size_foldr ap : patterns_size ap = foldr (λ p n, len (p_Seq p) * n) 1 ap.
Proof.
  unfold patterns_size. enough (∀ k, foldl (λ n p, n * len (p_Seq p)) k ap = k * foldr (λ p n, len (p_Seq p) * n) 1 ap) as Hk
    by (rewrite Hk; lia).
  induction ap as [|p ap IH]; intros k; cbn [foldl foldr]; [lia|]. rewrite IH. lia.
Qed.

Definition numbers (n : nat) : list string := (λ i, itoa (Z.of_nat i)) <$> seq 1 n.

(** Four hosts with eight drives each: two sets of 16. *)
Lemma drives_partitioned_witness :
  let E := demo_ellipses (numbers 4) (numbers 8) in
  ∃ sets, GetAllSets "" ["http://host{1...4}/disk{1...8}"] = Ok sets ∧ length sets = 2%nat ∧
    ∃ aps, findPatterns ["http://host{1...4}/disk{1...8}"] = Ok aps ∧ even_sets (all_endpoints aps) sets.
Proof.
  intros E. destruct (drives_partitioned "" ["http://host{1...4}/disk{1...8}"]) as [(e & He)|(sets & Hs & _ & Hsets)].
  - intros ap. rewrite patterns_size_foldr. apply demo_expand.
  - intros aps [= <-]. repeat constructor.
  - discriminate.
  - exfalso. revert He. vm_compute. discriminate.
  - exists sets. split; [exact Hs|]. split; [|exact Hsets]. revert Hs. vm_compute. by intros [= <-].
Defined.

(** Symmetry is decided by the last pattern alone: each pattern overwrites what the
    previous ones said, where all were meant to count. *)
Theorem last_pattern_decides ss aps p :
  symmetry ss (aps ++ [[p]]) = (if ss <? len (p_Seq p) then len (p_Seq p) mod ss =? 0 else ss mod len (p_Seq p) =? 0).
Proof. unfold symmetry. rewrite concat_app, foldl_app. cbn. done. Qed.

(** Eight hosts with three drives: sets of 12 are taken, although no supported size is
    symmetric for both patterns. *)
Theorem asymmetric_layout_accepted :
  let p n := mkPattern "" "" (numbers n) in
  getSetIndexes ["x"] [24] 0 (Some [[p 8%nat; p 3%nat]]) = Ok [[12; 12]] ∧
  ∀ ss, ss ∈ setSizes → symmetry ss [[p 8%nat]] && symmetry ss [[p 3%nat]] = false ∨ 24 mod ss ≠ 0.
Proof.
  split; [vm_compute; reflexivity|]. intros ss Hs.
  repeat (apply elem_of_cons in Hs as [->|Hs]; [vm_compute; first [by left|by right]|]). by apply not_elem_of_nil in Hs.
Qed.
