(* ===== verification/ErasureErrs.v ===== *)
(** * Errors of drives and their reduction to one (cmd/erasure-metadata-utils.go)

    An operation on the drives of a set gives one error per drive, [None] for nil.
    [reduceErrs] counts them in a map and takes the most frequent; the order in which
    the map is walked is not fixed, so it is an argument. *)

From Stdlib Require Import ZArith Lia Bool.
From S2P Require Import Prelude.

Local Open Scope Z_scope.

(** The errors the erasure code compares with, and others by their text. A wrapped
    [context.Canceled] carries the text around it. *)
Inductive derr :=
  | errDiskNotFound
  | errFaultyDisk
  | errFaultyRemoteDisk
  | errDiskAccessDenied
  | errUnformattedDisk
  | errVolumeNotFound
  | errFileNotFound
  | errFileVersionNotFound
  | errFileCorrupt
  | errMethodNotAllowed
  | errCorruptedFormat
  | errErasureReadQuorum
  | errErasureWriteQuorum
  | errInvalidArgument
  | errUnexpected
  | errLessData
  | ErrShortWrite
  | ErrInvShardNum
  | ErrMaxShardNum
  | ErrTooFewShards
  | ErrShortData
  | InvalidRange
  | Canceled (wrapped : option string)
  | OtherErr (s : string).

#[global] Instance derr_eq_dec : EqDecision derr.
Proof. solve_decision. Defined.

Definition baseIgnoredErrs : list derr := [errDiskNotFound; errFaultyDisk; errFaultyRemoteDisk].
Definition objectOpIgnoredErrs : list derr := baseIgnoredErrs ++ [errDiskAccessDenied; errUnformattedDisk].

Definition IsErrIgnored (err : option derr) (ignoredErrs : list derr) : bool :=
  match err with Some e => bool_decide (e ∈ ignoredErrs) | None => false end.

(** The key under which an error is counted. *)
Definition errKey (err : option derr) : option derr :=
  match err with Some (Canceled _) => Some (Canceled None) | _ => err end.

(** The keys of the errors that are not ignored. *)
Definition countedErrs (errs : list (option derr)) (ignoredErrs : list derr) : list (option derr) :=
  errKey <$> List.filter (λ err, negb (IsErrIgnored err ignoredErrs)) errs.

Definition errCount (keys : list (option derr)) (k : option derr) : Z := Z.of_nat (count (λ x, x = k) keys).

(** The entries of [errorCounts], each once. *)
Definition errorCounts (keys : list (option derr)) : list (option derr * Z) :=
  (λ k, (k, errCount keys k)) <$> remove_dups keys.

Definition reduce_step (acc : Z * option derr) (entry : option derr * Z) : Z * option derr :=
  let '(max, maxErr) := acc in
  let '(err, count) := entry in
  if max <? count then (count, err)
  else if (max =? count) && bool_decide (err = None) then (max, err)
  else acc.

(** [walk] is the order in which the map is walked. *)
Definition reduceErrs (walk : list (option derr * Z) → list (option derr * Z)) (errs : list (option derr))
    (ignoredErrs : list derr) : Z * option derr :=
  foldl reduce_step (0, None) (walk (errorCounts (countedErrs errs ignoredErrs))).

Definition reduceQuorumErrs walk errs ignoredErrs (quorum : Z) (quorumErr : derr) : option derr :=
  let '(maxCount, maxErr) := reduceErrs walk errs ignoredErrs in
  if quorum <=? maxCount then maxErr else Some quorumErr.

Definition reduceReadQuorumErrs walk errs ignoredErrs readQuorum :=
  reduceQuorumErrs walk errs ignoredErrs readQuorum errErasureReadQuorum.
Definition reduceWriteQuorumErrs walk errs ignoredErrs writeQuorum :=
  reduceQuorumErrs walk errs ignoredErrs writeQuorum errErasureWriteQuorum.

Definition countErrs (errs : list (option derr)) (err : option derr) : Z := Z.of_nat (count (λ x, x = err) errs).

(** ** The most frequent error *)

(** A map is walked in some order of its entries. *)
Definition map_walk (walk : list (option derr * Z) → list (option derr * Z)) : Prop := ∀ l, walk l ≡ₚ l.

Lemma walk_elem walk l x : map_walk walk → x ∈ walk l ↔ x ∈ l.
Proof. intros Hw. by rewrite (Hw l). Qed.

Lemma errCount_elem keys e : 0 < errCount keys e → e ∈ keys.
Proof. unfold errCount. intros Hpos. by destruct (count_elem (λ x, x = e) keys) as (y & Hy & ->); [lia|]. Qed.

(** What the fold has found: an entry of the largest count, nil if nil has it. *)
Definition best (l : list (option derr * Z)) (acc : Z * option derr) : Prop :=
  (∀ e c, (e, c) ∈ l → c ≤ acc.1) ∧ (acc = (0, None) ∨ (acc.2, acc.1) ∈ l) ∧
  ((None, acc.1) ∈ l → acc.2 = None).

Lemma reduce_best l : (∀ e c, (e, c) ∈ l → 0 < c) → best l (foldl reduce_step (0, None) l).
Proof.
  induction l as [|[e c] l IH] using rev_ind; intros Hpos.
  - split_and!; [by intros ? ? ?%not_elem_of_nil|by left|done].
  - rewrite foldl_app. cbn [foldl]. destruct IH as (H1 & H2 & H3).
    { intros e' c' Hin. apply Hpos with e', elem_of_app. by left. }
    destruct (foldl reduce_step (0, None) l) as [max maxErr] eqn:Hf. cbn [fst snd] in *. unfold reduce_step.
    assert (0 < c) by (apply Hpos with e, elem_of_app; right; by left).
    destruct (Z.ltb_spec max c); [|destruct (Z.eqb_spec max c); [destruct (bool_decide_reflect (e = None))|]]; cbn [andb].
    + split_and!; cbn [fst snd].
      * intros e' c' [Hin|[= -> ->]%list_elem_of_singleton]%elem_of_app; [apply H1 in Hin|]; lia.
      * right. apply elem_of_app. right. by left.
      * intros [Hin|[= <-]%list_elem_of_singleton]%elem_of_app; [apply H1 in Hin; lia|done].
    + subst. split_and!; cbn [fst snd]; try done.
      * intros e' c' [Hin|[= -> ->]%list_elem_of_singleton]%elem_of_app; [by eapply H1|done].
      * right. apply elem_of_app. right. by left.
    + subst. split_and!; cbn [fst snd].
      * intros e' c' [Hin|[= -> ->]%list_elem_of_singleton]%elem_of_app; [by eapply H1|done].
      * destruct H2 as [[= -> ->]|H2]; [lia|right]. apply elem_of_app. by left.
      * intros [Hin|[= <-]%list_elem_of_singleton]%elem_of_app; [auto|done].
    + split_and!; cbn [fst snd].
      * intros e' c' [Hin|[= -> ->]%list_elem_of_singleton]%elem_of_app; [by eapply H1|lia].
      * destruct H2 as [?|H2]; [by left|right]. apply elem_of_app. by left.
      * intros [Hin|[= <- ->]%list_elem_of_singleton]%elem_of_app; [auto|lia].
Qed.

Lemma errorCounts_elem keys e c : (e, c) ∈ errorCounts keys ↔ e ∈ keys ∧ c = errCount keys e.
Proof.
  unfold errorCounts. rewrite list_elem_of_fmap. split.
  - intros (k & [= -> ->] & Hk). by rewrite elem_of_remove_dups in Hk.
  - intros [Hk ->]. exists e. by rewrite elem_of_remove_dups.
Qed.

Lemma errCount_pos keys e : e ∈ keys → 0 < errCount keys e.
Proof.
  intros He. unfold errCount. destruct (decide (count (λ x, x = e) keys = 0)%nat) as [Hz|]; [|lia].
  apply count_zero in Hz. rewrite Forall_forall in Hz. by destruct (Hz e).
Qed.

Lemma reduceErrs_best walk errs ign :
  map_walk walk → best (errorCounts (countedErrs errs ign)) (reduceErrs walk errs ign).
Proof.
  intros Hw. unfold reduceErrs. destruct (reduce_best (walk (errorCounts (countedErrs errs ign)))) as (H1 & H2 & H3).
  { intros e c Hin. rewrite walk_elem in Hin by done. apply errorCounts_elem in Hin as [He ->]. by apply errCount_pos. }
  split_and!.
  - intros e c Hin. apply (H1 e). by apply walk_elem.
  - destruct H2 as [?|H2]; [by left|right]. by apply (walk_elem walk).
  - intros Hin. apply H3. by apply walk_elem.
Qed.

(** Two errors cannot both have more than half. *)
Lemma majority_unique keys e1 e2 :
  e1 ≠ e2 → errCount keys e1 + errCount keys e2 ≤ Z.of_nat (length keys).
Proof.
  intros Hne. unfold errCount. induction keys as [|k keys IH]; [done|]. rewrite !count_cons. cbn [length].
  enough (one_if (k = e1) + one_if (k = e2) ≤ 1)%nat by lia.
  unfold one_if. destruct (decide (k = e1)), (decide (k = e2)); (lia || congruence).
Qed.

Lemma countedErrs_length errs ign : (length (countedErrs errs ign) ≤ length errs)%nat.
Proof. unfold countedErrs. rewrite length_fmap. apply List.filter_length_le. Qed.

(** A count of at least a majority is the result, in every order. *)
Lemma reduce_majority walk errs ign e :
  map_walk walk → Z.of_nat (length errs) < 2 * errCount (countedErrs errs ign) e →
  reduceErrs walk errs ign = (errCount (countedErrs errs ign) e, e).
Proof.
  intros Hw Hmaj. pose proof (reduceErrs_best walk errs ign Hw) as (H1 & H2 & H3).
  destruct (reduceErrs walk errs ign) as [m x]. cbn [fst snd] in *. pose proof (countedErrs_length errs ign).
  assert (e ∈ countedErrs errs ign) as Hin.
  { apply errCount_elem. lia. }
  assert (errCount (countedErrs errs ign) e ≤ m) by (apply (H1 e); by apply errorCounts_elem).
  destruct H2 as [[= -> ->]|H2]; [lia|]. apply errorCounts_elem in H2 as [_ ->].
  destruct (decide (x = e)) as [->|Hne]; [done|].
  pose proof (majority_unique (countedErrs errs ign) x e Hne). lia.
Qed.

Lemma countedErrs_nil errs ign : errCount (countedErrs errs ign) None = countErrs errs None.
Proof.
  unfold errCount, countErrs, countedErrs. f_equal. induction errs as [|err errs IH]; [done|].
  cbn [List.filter]. rewrite count_cons. destruct (IsErrIgnored err ign) eqn:E; cbn [negb].
  - rewrite IH, one_if_false; [done|]. by intros ->.
  - cbn [fmap list_fmap]. rewrite count_cons, IH. f_equal.
    unfold one_if. destruct err as [[]|]; try done.
Qed.

(** A reduction to nil: a quorum without error. *)
Lemma reduceQuorum_nil walk errs ign q qe :
  map_walk walk → reduceQuorumErrs walk errs ign q qe = None ↔
  q ≤ countErrs errs None ∧ (reduceErrs walk errs ign).2 = None.
Proof.
  intros Hw. unfold reduceQuorumErrs. pose proof (reduceErrs_best walk errs ign Hw) as (H1 & H2 & H3).
  rewrite <- (countedErrs_nil errs ign).
  destruct (reduceErrs walk errs ign) as [m x]. cbn [fst snd] in *. destruct (Z.leb_spec q m); split.
  - intros ->. split; [|done]. destruct H2 as [[= ->]|H2]; [unfold errCount; lia|].
    apply errorCounts_elem in H2 as [_ ->]. lia.
  - by intros [_ ->].
  - done.
  - intros [Hq ->]. exfalso. destruct H2 as [[= ->]|H2].
    + destruct (decide (None ∈ countedErrs errs ign)) as [Hin|Hni].
      * assert (errCount (countedErrs errs ign) None ≤ 0) by (apply (H1 None); by apply errorCounts_elem). lia.
      * revert Hq. unfold errCount. rewrite (proj2 (count_zero _ _)); [lia|]. apply Forall_forall. by intros y Hy ->.
    + apply errorCounts_elem in H2 as [_ ->]. lia.
Qed.
