(* ===== verification/Erasure.v ===== *)
(** * Erasure coding of a stream (cmd/erasure-coding.go, cmd/erasure-encode.go)

    Data is cut into blocks; each block becomes [dataBlocks] data shards and
    [parityBlocks] parity shards, one for each drive. The code itself is a library
    ([github.com/klauspost/reedsolomon]), the class [ReedSolomon] here, with the laws
    its documentation states. A write to a drive may fail at any block. *)

From Stdlib Require Import ZArith Lia Bool.
From Stdlib.Strings Require Import Byte.
From S2P Require Import Prelude ErasureErrs.

Local Open Scope go_scope.
Local Open Scope Z_scope.

Abbreviation bytes := (list byte).

#[global] Instance byte_eq_decision : EqDecision Byte.byte := Byte.byte_eq_dec.

Definition zlen {A} (l : list A) : Z := Z.of_nat (length l).

(** A slice [l[from:from+n]]. *)
Definition slice {A} (l : list A) (from n : Z) : list A := take (Z.to_nat n) (drop (Z.to_nat from) l).

(** ** Sizes *)

Definition ceilFrac (numerator denominator : Z) : Z :=
  if denominator =? 0 then 0
  else
    let '(numerator, denominator) :=
      if denominator <? 0 then (- numerator, - denominator) else (numerator, denominator) in
    let ceil := numerator `quot` denominator in
    if (0 <? numerator) && negb (numerator `rem` denominator =? 0) then ceil + 1 else ceil.

Record Erasure := mkErasure { dataBlocks : Z; parityBlocks : Z; blockSize : Z }.

Definition NewErasure (dataBlocks parityBlocks blockSize : Z) : outcome derr Erasure :=
  if (dataBlocks <=? 0) || (parityBlocks <=? 0) then Err ErrInvShardNum
  else if 256 <? dataBlocks + parityBlocks then Err ErrMaxShardNum
  else Ok (mkErasure dataBlocks parityBlocks blockSize).

Definition ShardSize (e : Erasure) : Z := ceilFrac (blockSize e) (dataBlocks e).

Definition ShardFileSize (e : Erasure) (totalLength : Z) : Z :=
  if totalLength =? 0 then 0
  else if totalLength =? -1 then -1
  else
    let numShards := totalLength `quot` blockSize e in
    let lastBlockSize := totalLength `rem` blockSize e in
    let lastShardSize := ceilFrac lastBlockSize (dataBlocks e) in
    numShards * ShardSize e + lastShardSize.

Definition ShardFileOffset (e : Erasure) (startOffset length totalLength : Z) : Z :=
  let shardSize := ShardSize e in
  let shardFileSize := ShardFileSize e totalLength in
  let endShard := (startOffset + length) `quot` blockSize e in
  let tillOffset := endShard * shardSize + shardSize in
  if shardFileSize <? tillOffset then shardFileSize else tillOffset.

(** ** The code *)

Class ReedSolomon := {
  rs_Split : Z → Z → bytes → outcome derr (list bytes);
  rs_Encode : Z → Z → list bytes → outcome derr (list bytes);
  rs_ReconstructData : Z → Z → list bytes → outcome derr (list bytes);
  rs_Reconstruct : Z → Z → list bytes → outcome derr (list bytes);
}.

Section Coding.
Context `{ReedSolomon}.

Definition EncodeData (e : Erasure) (data : bytes) : outcome derr (list bytes) :=
  if zlen data =? 0 then Ok (replicate (Z.to_nat (dataBlocks e + parityBlocks e)) [])
  else
    encoded ←? rs_Split (dataBlocks e) (parityBlocks e) data;
    rs_Encode (dataBlocks e) (parityBlocks e) encoded.

(** [isZero] is one as soon as a shard is missing. *)
Definition DecodeDataBlocks (e : Erasure) (data : list bytes) : outcome derr (list bytes) :=
  let isZero := if existsb (λ b, zlen b =? 0) data then 1 else 0 in
  if (isZero =? 0) || (isZero =? zlen data) then Ok data
  else rs_ReconstructData (dataBlocks e) (parityBlocks e) data.

Definition DecodeDataAndParityBlocks (e : Erasure) (data : list bytes) : outcome derr (list bytes) :=
  rs_Reconstruct (dataBlocks e) (parityBlocks e) data.

(** ** Writing *)

(** A writer has what was written; [None] is nil. *)
Record parallelWriter := mkPW { pw_writers : list (option bytes); pw_errs : list (option derr) }.

(** [fails i] is the error of writer [i], when it gives one this time, or [Some None]
    for a short write. *)
Definition pw_write1 (fails : nat → option (option derr)) (i : nat) (w : option bytes) (err : option derr)
    (block : bytes) : option bytes * option derr :=
  match w with
  | None => (None, Some errDiskNotFound)
  | Some s =>
      match err with
      | Some _ => (w, err)
      | None =>
          match fails i with
          | None => (Some (s ++ block), None)
          | Some None => (None, Some ErrShortWrite)
          | Some (Some e) => (None, Some e)
          end
      end
  end.

Definition pw_Write walk (fails : nat → option (option derr)) (writeQuorum : Z) (p : parallelWriter)
    (blocks : list bytes) : outcome derr () * parallelWriter :=
  let rs := imap (λ i w, pw_write1 fails i w (default None (pw_errs p !! i)) (default [] (blocks !! i))) (pw_writers p) in
  let p := mkPW rs.*1 rs.*2 in
  if writeQuorum <=? countErrs (pw_errs p) None then (Ok (), p)
  else match reduceWriteQuorumErrs walk (pw_errs p) objectOpIgnoredErrs writeQuorum with
       | None => (Ok (), p)
       | Some err => (Err err, p)
       end.

(** The loop of [Encode]: [src] is what the reader has left and [rerr] the error after it, [None] for [io.EOF] and
    [io.ErrUnexpectedEOF], which are taken for the end; [buf] is the size of the buffer, [net] the failures, block by block. *)
Fixpoint encode_loop walk (fuel : nat) (net : nat → nat → option (option derr)) (e : Erasure) (buf quorum : Z)
    (k : nat) (src : bytes) (rerr : option derr) (total : Z) (p : parallelWriter) : outcome derr Z * parallelWriter :=
  match fuel with
  | O => (Panic "out of fuel", p)
  | S fuel =>
      let block := slice src 0 buf in
      let n := zlen block in
      let eof := n <? buf in
      match (if eof then rerr else None) with
      | Some err => (Err err, p)
      | None =>
          if (n =? 0) && negb (total =? 0) then (Ok total, p)
          else match EncodeData e block with
               | Ok blocks =>
                   match pw_Write walk (net k) quorum p blocks with
                   | (Ok _, p) =>
                       if eof then (Ok (total + n), p)
                       else encode_loop walk fuel net e buf quorum (S k) (drop (Z.to_nat n) src) rerr (total + n) p
                   | (Err err, p) => (Err err, p)
                   | (Panic w, p) => (Panic w, p)
                   end
               | Err err => (Err err, p)
               | Panic w => (Panic w, p)
               end
      end
  end.

Definition Encode walk (net : nat → nat → option (option derr)) (e : Erasure) (src : bytes) (rerr : option derr)
    (writers : list (option bytes)) (buf quorum : Z) : outcome derr Z * parallelWriter :=
  encode_loop walk (2 + length src) net e buf quorum 0 src rerr 0 (mkPW writers (replicate (length writers) None)).

End Coding.

(** ** What the library promises *)

(** Shards some of which are missing (empty). *)
Definition partial_of (cw bufs : list bytes) : Prop := Forall2 (λ c b, b = [] ∨ b = c) cw bufs.

Definition present (bufs : list bytes) : Z := Z.of_nat (length (List.filter (λ b, negb (zlen b =? 0)) bufs)).

Class ReedSolomonLaws (data parity : Z) `{ReedSolomon} := {
  (** "Split a data slice into the number of shards given to the encoder": equally
      sized, with extra zeros at the end. *)
  rs_split_ok block : block ≠ [] →
    ∃ shards zeros, rs_Split data parity block = Ok shards ∧ zlen shards = data + parity ∧
      Forall (λ s, zlen s = ceilFrac (zlen block) data) (take (Z.to_nat data) shards) ∧
      concat (take (Z.to_nat data) shards) = block ++ zeros;
  (** "Encode parity for a set of data shards": the data shards are not changed. *)
  rs_encode_ok block shards : block ≠ [] → rs_Split data parity block = Ok shards →
    ∃ cw, rs_Encode data parity shards = Ok cw ∧ zlen cw = data + parity ∧
      take (Z.to_nat data) cw = take (Z.to_nat data) shards ∧
      Forall (λ s, zlen s = ceilFrac (zlen block) data) cw;
  (** "ReconstructData will recreate any missing data shards, if possible", and it is
      possible when as many shards as data shards are present. *)
  rs_reconstruct_data block shards cw bufs :
    block ≠ [] → rs_Split data parity block = Ok shards → rs_Encode data parity shards = Ok cw →
    partial_of cw bufs → data ≤ present bufs →
    ∃ bufs', rs_ReconstructData data parity bufs = Ok bufs' ∧ zlen bufs' = data + parity ∧
      take (Z.to_nat data) bufs' = take (Z.to_nat data) cw;
  rs_reconstruct block shards cw bufs :
    block ≠ [] → rs_Split data parity block = Ok shards → rs_Encode data parity shards = Ok cw →
    partial_of cw bufs → data ≤ present bufs → rs_Reconstruct data parity bufs = Ok cw;
}.

(** ** Arithmetic of the sizes *)

Lemma ceilFrac_pos a b : 0 ≤ a → 0 < b → ceilFrac a b = (a + b - 1) / b.
Proof.
  intros Ha Hb. unfold ceilFrac. rewrite (proj2 (Z.eqb_neq b 0)), (proj2 (Z.ltb_ge b 0)) by lia.
  rewrite Z.quot_div_nonneg, Z.rem_mod_nonneg by lia.
  pose proof (Z.div_mod a b ltac:(lia)) as Hdm. pose proof (Z.mod_pos_bound a b Hb) as Hm.
  destruct (Z.eqb_spec (a mod b) 0) as [E|E]; cbn [negb].
  - rewrite andb_false_r. apply (Z.div_unique _ _ _ (b - 1)); [lia|]. lia.
  - assert (0 < a) by (destruct (Z.eq_dec a 0) as [->|]; [by rewrite Z.mod_0_l in E by lia|lia]).
    rewrite (proj2 (Z.ltb_lt 0 a)) by done. cbn [andb]. apply (Z.div_unique _ _ _ (a mod b - 1)); [lia|rewrite Z.mul_add_distr_l; lia].
Qed.

Lemma ceilFrac_bounds a b : 0 ≤ a → 0 < b → 0 ≤ ceilFrac a b ∧ a ≤ ceilFrac a b * b < a + b ∧ (0 < a → 0 < ceilFrac a b).
Proof.
  intros Ha Hb. rewrite ceilFrac_pos by done. pose proof (Z.div_mod (a + b - 1) b ltac:(lia)) as Hdm.
  pose proof (Z.mod_pos_bound (a + b - 1) b Hb) as Hm. nia.
Qed.

Lemma zlen_nonneg {A} (l : list A) : 0 ≤ zlen l.
Proof. unfold zlen. lia. Qed.

Lemma zlen_nil {A} (l : list A) : zlen l = 0 ↔ l = [].
Proof. unfold zlen. destruct l; cbn; split; (done || lia). Qed.

Lemma zlen_pos {A} (l : list A) : l ≠ [] → 0 < zlen l.
Proof. unfold zlen. destruct l; [done|cbn; lia]. Qed.

Lemma zlen_app {A} (l1 l2 : list A) : zlen (l1 ++ l2) = zlen l1 + zlen l2.
Proof. unfold zlen. rewrite length_app. lia. Qed.

Lemma zlen_cons {A} (x : A) l : zlen (x :: l) = zlen l + 1.
Proof. unfold zlen. cbn [length]. lia. Qed.

(** ** The shards of a stream *)

(** The blocks of [n] bytes, the last one shorter. *)
Fixpoint chunk_fuel (fuel n : nat) (l : bytes) : list bytes :=
  match fuel with
  | O => []
  | S fuel => match l with [] => [] | _ => take n l :: chunk_fuel fuel n (drop n l) end
  end.

Definition chunks (n : Z) (l : bytes) : list bytes := chunk_fuel (length l) (Z.to_nat n) l.

Lemma chunks_nil n : chunks n [] = [].
Proof. done. Qed.

Lemma chunk_fuel_mono f1 f2 n l :
  (1 ≤ n)%nat → (length l ≤ f1)%nat → (length l ≤ f2)%nat → chunk_fuel f1 n l = chunk_fuel f2 n l.
Proof.
  intros Hn. revert f2 l. induction f1 as [|f1 IH]; intros [|f2] l H1 H2; try (by destruct l; [|cbn in *; lia]).
  destruct l as [|x l]; [done|]. cbn [chunk_fuel]. f_equal. apply IH; rewrite length_drop; cbn [length] in *; lia.
Qed.

Lemma chunks_cons n l : 0 < n → l ≠ [] → chunks n l = slice l 0 n :: chunks n (drop (Z.to_nat n) l).
Proof.
  intros Hn Hl. unfold chunks, slice. destruct l as [|x l]; [done|]. cbn [chunk_fuel length]. f_equal.
  apply chunk_fuel_mono; [lia|..]; rewrite length_drop; cbn [length]; lia.
Qed.

Lemma chunks_concat n l : 0 < n → concat (chunks n l) = l.
Proof.
  intros Hn. remember (length l) as k eqn:Hk. revert l Hk. induction (lt_wf k) as [k _ IH]. intros l ->.
  destruct (decide (l = [])) as [->|Hl]; [done|]. rewrite chunks_cons by done. cbn [concat].
  rewrite (IH (length (drop (Z.to_nat n) l))); [apply take_drop| |done].
  rewrite length_drop. destruct l; [done|cbn; lia].
Qed.

Lemma chunks_nonempty n l : 0 < n → Forall (λ b, b ≠ []) (chunks n l).
Proof.
  intros Hn. remember (length l) as k eqn:Hk. revert l Hk. induction (lt_wf k) as [k _ IH]. intros l ->.
  destruct (decide (l = [])) as [->|Hl]; [constructor|]. rewrite chunks_cons by done. constructor.
  - unfold slice. rewrite drop_0. destruct l; [done|]. destruct (Z.to_nat n) eqn:E; [lia|done].
  - apply (IH (length (drop (Z.to_nat n) l))); [|done]. rewrite length_drop. destruct l; [done|cbn; lia].
Qed.

(** All chunks but the last are full. *)
Lemma chunks_lookup n l k :
  0 < n → chunks n l !! k =
  if decide (Z.of_nat k * n < zlen l) then Some (slice l (Z.of_nat k * n) n) else None.
Proof.
  intros Hn. revert l. induction k as [|k IH]; intros l; (destruct (decide (l = [])) as [->|Hl];
    [rewrite decide_False by (unfold zlen; cbn [length]; nia); done|rewrite chunks_cons by done]).
  - rewrite decide_True; [done|]. unfold zlen. destruct l; [done|cbn; lia].
  - etransitivity; [exact (IH (drop (Z.to_nat n) l))|]. unfold zlen. rewrite length_drop.
    assert (Z.of_nat (S k) * n = n + Z.of_nat k * n) as E by lia. rewrite E.
    destruct (decide (Z.of_nat k * n < _)) as [H1|H1], (decide (n + Z.of_nat k * n < _)) as [H2|H2]; try done; try lia.
    unfold slice. rewrite drop_drop. by replace (Z.to_nat (n + Z.of_nat k * n)) with (Z.to_nat n + Z.to_nat (Z.of_nat k * n))%nat by lia.
Qed.

(** ** Encoding a stream *)

(** Positions of a list that have an element. *)
Lemma count_positions {A} `{EqDecision A} (x : A) (l : list A) (ixs : list nat) :
  NoDup ixs → (∀ i, i ∈ ixs → l !! i = Some x) → (length ixs ≤ count (λ y, y = x) l)%nat.
Proof.
  intros Hnd Hix.
  assert (∀ k, length (List.filter (λ i, bool_decide (l !! (i - k)%nat = Some x)) (seq k (length l))) = count (λ y, y = x) l)
    as Hpos.
  { clear. induction l as [|y l IH]; intros k; [done|]. cbn [length seq List.filter].
    replace (k - k)%nat with O by lia. cbn [lookup list_lookup]. rewrite count_cons, <- (IH (S k)).
    assert (List.filter (λ i, bool_decide ((y :: l) !! (i - k)%nat = Some x)) (seq (S k) (length l)) =
            List.filter (λ i, bool_decide (l !! (i - S k)%nat = Some x)) (seq (S k) (length l))) as ->.
    { apply List.filter_ext_in. intros i Hi%List.in_seq. by replace (i - k)%nat with (S (i - S k)) by lia. }
    unfold one_if. destruct (decide (y = x)) as [->|Hne]; [by rewrite bool_decide_true|].
    rewrite bool_decide_false; [done|congruence]. }
  rewrite <- (Hpos O). apply submseteq_length, NoDup_submseteq; [done|]. intros i Hi.
  apply list_elem_of_In, List.filter_In. rewrite Nat.sub_0_r, (Hix i Hi), bool_decide_true by done. split; [|done].
  apply List.in_seq. split; [lia|]. pose proof (lookup_lt_Some _ _ _ (Hix i Hi)). lia.
Qed.

Section Streams.
Context (e : Erasure) `{ReedSolomonLaws (dataBlocks e) (parityBlocks e)}.
Hypothesis data_pos : 0 < dataBlocks e.
Hypothesis parity_pos : 0 < parityBlocks e.

Definition codeword (b : bytes) : list bytes := match EncodeData e b with Ok cw => cw | _ => [] end.

Lemma codeword_spec b :
  b ≠ [] →
  ∃ zeros, EncodeData e b = Ok (codeword b) ∧ zlen (codeword b) = dataBlocks e + parityBlocks e ∧
    Forall (λ s, zlen s = ceilFrac (zlen b) (dataBlocks e)) (codeword b) ∧
    concat (take (Z.to_nat (dataBlocks e)) (codeword b)) = b ++ zeros.
Proof.
  intros Hb. destruct (rs_split_ok b Hb) as (shards & zeros & Hs & Hl & _ & Hc).
  destruct (rs_encode_ok b shards Hb Hs) as (cw & He & Hlc & Ht & Hsz).
  assert (EncodeData e b = Ok cw) as Hcw.
  { unfold EncodeData. rewrite (proj2 (Z.eqb_neq _ 0)) by (by rewrite zlen_nil). by rewrite Hs. }
  unfold codeword. rewrite Hcw. exists zeros. split_and!; [done|done|done|]. by rewrite Ht.
Qed.

Lemma codeword_nil : EncodeData e [] = Ok (codeword []) ∧ codeword [] = replicate (Z.to_nat (dataBlocks e + parityBlocks e)) [].
Proof. done. Qed.

Lemma codeword_ok b : EncodeData e b = Ok (codeword b).
Proof. destruct (decide (b = [])) as [->|Hb]; [done|]. by destruct (codeword_spec b Hb) as (? & ? & _). Qed.

(** The shards of blocks that go to one drive. *)
Definition shard (i : nat) (b : bytes) : bytes := default [] (codeword b !! i).
Definition shard_stream (i : nat) (bs : list bytes) : bytes := concat (shard i <$> bs).

Lemma shard_nil i : shard i [] = [].
Proof.
  unfold shard. rewrite (proj2 codeword_nil). destruct (replicate _ [] !! i) eqn:E; [|done].
  by apply lookup_replicate in E as [-> _].
Qed.

(** *** One write *)

Lemma pw_write1_ok fails i w err block s :
  pw_write1 fails i w err block = (Some s, None) → ∃ s0, w = Some s0 ∧ err = None ∧ fails i = None ∧ s = s0 ++ block.
Proof.
  unfold pw_write1. destruct w as [s0|]; [|done]. destruct err; [done|].
  destruct (fails i) as [[?|]|]; try done. intros [= <-]. by exists s0.
Qed.

Definition pw_wf (p : parallelWriter) : Prop := length (pw_writers p) = length (pw_errs p).

(** Writer [i] has taken everything so far. *)
Definition intact (p : parallelWriter) (i : nat) (s : bytes) : Prop :=
  pw_writers p !! i = Some (Some s) ∧ pw_errs p !! i = Some None.

Lemma pw_Write_spec walk fails q p b r p' :
  pw_wf p → pw_Write walk fails q p (codeword b) = (r, p') →
  pw_wf p' ∧ (∀ i s', intact p' i s' ↔ ∃ s, intact p i s ∧ fails i = None ∧ s' = s ++ shard i b) ∧
  (q ≤ countErrs (pw_errs p') None → r = Ok ()).
Proof.
  intros Hwf Hw. unfold pw_Write in Hw.
  set (rs := imap _ (pw_writers p)) in Hw.
  assert (p' = mkPW rs.*1 rs.*2 ∧ (q ≤ countErrs rs.*2 None → r = Ok ())) as [-> Hr].
  { cbn [pw_errs] in Hw. destruct (Z.leb_spec q (countErrs rs.*2 None)) as [Hq|Hq].
    - injection Hw as <- <-. by split.
    - destruct (reduceWriteQuorumErrs _ _ _ _); injection Hw as <- <-; (split; [done|lia]). }
  split_and!; [unfold pw_wf; cbn; by rewrite !length_fmap| |done].
  intros i s'. unfold intact. cbn [pw_writers pw_errs]. rewrite !list_lookup_fmap. unfold rs. rewrite list_lookup_imap.
  unfold shard. destruct (pw_writers p !! i) as [w|] eqn:Hwi; cbn; [|split; [by intros []|by intros (s & [] & _)]].
  destruct (lookup_lt_is_Some_2 (pw_errs p) i) as [err Herr].
  { rewrite <- Hwf. by eapply lookup_lt_Some. }
  rewrite Herr. cbn. split.
  - intros [H1 H2]. destruct (pw_write1 fails i w err _) as [w' err'] eqn:E. cbn in *. injection H1 as ->. injection H2 as ->.
    apply pw_write1_ok in E as (s0 & -> & -> & Hf & ->). by exists s0.
  - intros (s & [[= ->] [= ->]] & Hf & ->). unfold pw_write1. by rewrite Hf.
Qed.

(** *** The loop *)

Lemma encode_step walk fuel net buf q k src rerr total p :
  encode_loop walk (S fuel) net e buf q k src rerr total p =
  match (if zlen (slice src 0 buf) <? buf then rerr else None) with
  | Some err => (Err err, p)
  | None =>
      if (zlen (slice src 0 buf) =? 0) && negb (total =? 0) then (Ok total, p)
      else match pw_Write walk (net k) q p (codeword (slice src 0 buf)) with
           | (Ok _, p) =>
               if zlen (slice src 0 buf) <? buf then (Ok (total + zlen (slice src 0 buf)), p)
               else encode_loop walk fuel net e buf q (S k) (drop (length (slice src 0 buf)) src) rerr (total + zlen (slice src 0 buf)) p
           | (Err err, p) => (Err err, p)
           | (Panic w, p) => (Panic w, p)
           end
  end.
Proof.
  cbn [encode_loop]. rewrite codeword_ok. unfold zlen. by rewrite Nat2Z.id.
Qed.

Lemma pw_Write_quorum walk fails q p bs p' :
  map_walk walk → pw_Write walk fails q p bs = (Ok (), p') → q ≤ countErrs (pw_errs p') None.
Proof.
  intros Hw Hp. unfold pw_Write in Hp. set (rs := imap _ (pw_writers p)) in Hp. cbn [pw_errs] in Hp.
  destruct (Z.leb_spec q (countErrs rs.*2 None)); [by injection Hp as <-|].
  destruct (reduceWriteQuorumErrs _ _ _ _) eqn:E; [done|]. injection Hp as <-.
  by apply (reduceQuorum_nil walk) in E as [? _].
Qed.

Lemma pw_Write_total walk fails q p bs w p' : pw_Write walk fails q p bs ≠ (Panic w, p').
Proof. unfold pw_Write. case_match; [done|]. by destruct (reduceWriteQuorumErrs _ _ _ _). Qed.

Lemma shard_stream_cons i b bs : shard_stream i (b :: bs) = shard i b ++ shard_stream i bs.
Proof. done. Qed.

Lemma slice_0_all {A} (l : list A) n : zlen (slice l 0 n) < n → slice l 0 n = l.
Proof. unfold slice, zlen. rewrite drop_0, length_take. intros Hn. apply take_ge. lia. Qed.

Lemma slice_0_nil {A} (l : list A) n : 0 < n → slice l 0 n = [] → l = [].
Proof. unfold slice. rewrite drop_0. destruct l; [done|]. intros Hn. destruct (Z.to_nat n) eqn:E; [lia|done]. Qed.

Lemma encode_loop_spec walk fuel net buf q k src rerr total p r p' :
  map_walk walk → 0 < buf → 0 ≤ total → (length src < fuel)%nat → pw_wf p →
  encode_loop walk fuel net e buf q k src rerr total p = (r, p') →
  (∀ w, r ≠ Panic w) ∧ pw_wf p' ∧
  (∀ i s, intact p i s → (∀ k, net k i = None) → ∃ s', intact p' i s') ∧
  (∀ t, r = Ok t →
     t = total + zlen src ∧ rerr = None ∧ (total = 0 ∨ q ≤ countErrs (pw_errs p) None → q ≤ countErrs (pw_errs p') None) ∧
     ∀ i s', intact p' i s' → ∃ s, intact p i s ∧ s' = s ++ shard_stream i (chunks buf src)) ∧
  (∀ er, r = Err er → rerr = Some er ∨ countErrs (pw_errs p') None < q).
Proof.
  intros Hwalk Hbuf. revert k src total p. induction fuel as [|fuel IH]; intros k src total p Ht Hfuel Hwf; [lia|].
  rewrite encode_step. destruct (if zlen (slice src 0 buf) <? buf then rerr else None) as [err|] eqn:Hrd.
  { intros [= <- <-]. assert (rerr = Some err) as -> by (by destruct (_ <? _)). split_and!; [done|done|by eauto|done|by left; simplify_eq/=]. }
  assert (zlen (slice src 0 buf) < buf → rerr = None) as Hsrc by (intros E; by rewrite (proj2 (Z.ltb_lt _ _) E) in Hrd).
  destruct (_ && _) eqn:Hend.
  { intros [= <- <-]. destruct_bools. rewrite H1 in Hsrc. apply zlen_nil, slice_0_nil in H1 as ->; [|done].
    split_and!; try done; [by eauto|]. intros t [= <-]. split_and!; [unfold zlen; cbn [length]; lia|by apply Hsrc|intros [?|?]; lia|].
    intros i s' Hi. exists s'. by rewrite app_nil_r. }
  destruct (pw_Write walk (net k) q p (codeword (slice src 0 buf))) as [r1 p1] eqn:Hw.
  destruct (pw_Write_spec _ _ _ _ _ _ _ Hwf Hw) as (Hwf1 & Hint & Hq).
  destruct r1 as [[]|er|w]; [| |by apply pw_Write_total in Hw].
  - pose proof (pw_Write_quorum _ _ _ _ _ _ Hwalk Hw) as Hq1.
    destruct (Z.ltb_spec (zlen (slice src 0 buf)) buf) as [Hlt|Hge].
    + intros [= <- <-]. specialize (Hsrc Hlt). apply slice_0_all in Hlt. rewrite Hlt in *. split_and!; try done.
      * intros i s Hi Hn. exists (s ++ shard i src). apply Hint. by exists s.
      * intros t [= <-]. split_and!; [done|done|done|]. intros i s' Hi. apply Hint in Hi as (s & Hi & _ & ->). exists s. split; [done|].
        f_equal. destruct (decide (src = [])) as [->|Hne]; [apply shard_nil|].
        rewrite chunks_cons, Hlt by done. unfold shard_stream. cbn. rewrite drop_ge; [by rewrite app_nil_r|].
        rewrite <- Hlt. unfold slice. rewrite length_take, drop_0. lia.
    + intros Hloop. set (b := slice src 0 buf) in *. pose proof (zlen_nonneg b) as Hb0.
      assert (src ≠ []) as Hne. { intros ->. revert Hge. unfold b, slice. rewrite drop_nil, take_nil. unfold zlen. cbn [length]. lia. }
      assert (length b = Z.to_nat buf) as Hlb by (unfold b, slice, zlen in *; rewrite length_take, drop_0 in *; lia).
      destruct (IH (S k) (drop (length b) src) (total + zlen b) p1) as (H1 & H2 & H3 & H4 & H5); try done; [lia| |].
      { rewrite length_drop, Hlb. destruct src; [done|cbn [length] in *; lia]. }
      split_and!; try done.
      * intros i s Hi Hn. apply (H3 i (s ++ shard i b)); [|done]. apply Hint. by exists s.
      * intros t Hr. destruct (H4 t Hr) as (-> & He & Hc & Hs). split_and!; [|done| |].
        -- unfold zlen. rewrite length_drop. assert (length b ≤ length src)%nat; [|lia].
           unfold b, slice. rewrite length_take, drop_0. lia.
        -- intros _. apply Hc. by right.
        -- intros i s' Hi. apply Hs in Hi as (s1 & Hi & ->). apply Hint in Hi as (s & Hi & _ & ->). exists s. split; [done|].
           rewrite (chunks_cons buf src), shard_stream_cons, <- app_assoc, Hlb by done. done.
  - intros [= <- <-]. split_and!; try done.
    + intros i s Hi Hn. exists (s ++ shard i (slice src 0 buf)). apply Hint. by exists s.
    + intros er' _. right. apply Z.nle_gt. intros Hle. by apply Hq in Hle.
Qed.
End Streams.
