(* ===== verification/ErasureRead.v ===== *)
(** * Reading erasure-coded data (cmd/erasure-decode.go, cmd/erasure-utils.go)

    [parallelReader.Read] gets one shard from enough drives, with a goroutine for each
    drive it asks; a drive that fails makes it ask another one. The goroutines and
    the loop that starts them are interleaved by a schedule. [Decode] reads block
    after block, reconstructs what is missing and writes the range asked for. *)

From Stdlib Require Import ZArith Lia Bool.
From S2P Require Import Prelude ErasureErrs Erasure.

Local Open Scope go_scope.
Local Open Scope Z_scope.

(** [ReadAt]: the bytes at an offset, of a length. *)
Abbreviation reader := (Z → Z → outcome derr bytes).

Record parallelReader := mkPR {
  pr_readers : list (option reader);
  pr_orgReaders : list (option reader);
  pr_dataBlocks : Z;
  pr_offset : Z;
  pr_shardSize : Z;
  pr_shardFileSize : Z;
  pr_readerToBuf : list nat;
}.

Definition newParallelReader (readers : list (option reader)) (e : Erasure) (offset totalLength : Z) : parallelReader :=
  mkPR readers readers (dataBlocks e) (offset `quot` blockSize e * ShardSize e) (ShardSize e)
    (ShardFileSize e totalLength) (seq 0 (length readers)).

(** One iteration of [preferReaders]: the reader at [i] changes places with the one
    at [next]. *)
Definition prefer_step (acc : list (option reader) * list nat * nat) (ip : nat * bool)
    : list (option reader) * list nat * nat :=
  let '(readers, r2b, next) := acc in
  let '(i, ok) := ip in
  match readers !! i with
  | Some (Some r) =>
      if negb ok then acc
      else if (i =? next)%nat then (readers, r2b, S next)
      else
        (<[i := default None (readers !! next)]> (<[next := Some r]> readers), <[i := next]> (<[next := i]> r2b), S next)
  | _ => acc
  end.

Definition preferReaders (prefer : list bool) (p : parallelReader) : parallelReader :=
  if negb (length prefer =? length (pr_orgReaders p))%nat then p
  else
    let '(readers, r2b, _) := foldl prefer_step (pr_orgReaders p, pr_readerToBuf p, O) (imap pair prefer) in
    mkPR readers (pr_orgReaders p) (pr_dataBlocks p) (pr_offset p) (pr_shardSize p) (pr_shardFileSize p) r2b.

Definition canDecode (dataBlocks : Z) (buf : list bytes) : bool := dataBlocks <=? present buf.

(** *** One [Read]: the loop over the triggers and the goroutines *)

Record reading := mkReading {
  rd_readers : list (option reader);
  rd_org : list (option reader);
  rd_index : nat;             (* the next reader to ask *)
  rd_chan : list bool;        (* the triggers sent and not yet received *)
  rd_running : list nat;      (* the goroutines that have not ended *)
  rd_buf : list bytes;
  rd_missing : bool;
  rd_corrupt : bool;
  rd_ended : bool;            (* the loop has been left *)
}.

Inductive rd_event := Loop | Finish (k : nat).

Definition start_reading (p : parallelReader) : reading :=
  mkReading (pr_readers p) (pr_orgReaders p) 0 (replicate (Z.to_nat (pr_dataBlocks p)) true) []
    (replicate (length (pr_readers p)) []) false false false.

(** The end of the goroutine for reader [i]. *)
Definition finish (p : parallelReader) (i : nat) (running : list nat) (s : reading) : reading :=
  let bufIdx := default O (pr_readerToBuf p !! i) in
  match default None (rd_readers s !! i) with
  | None =>
      mkReading (rd_readers s) (rd_org s) (rd_index s) (rd_chan s ++ [true]) running (rd_buf s)
        (rd_missing s) (rd_corrupt s) (rd_ended s)
  | Some rr =>
      match rr (pr_offset p) (pr_shardSize p) with
      | Ok b =>
          mkReading (rd_readers s) (rd_org s) (rd_index s) (rd_chan s ++ [false]) running (<[bufIdx := b]> (rd_buf s))
            (rd_missing s) (rd_corrupt s) (rd_ended s)
      | Err err =>
          mkReading (<[i := None]> (rd_readers s)) (<[bufIdx := None]> (rd_org s)) (rd_index s) (rd_chan s ++ [true])
            running (rd_buf s)
            (rd_missing s || bool_decide (err = errFileNotFound)) (rd_corrupt s || bool_decide (err = errFileCorrupt))
            (rd_ended s)
      | Panic _ => s
      end
  end.

(** The step of an event; [None] if it cannot happen. *)
Definition rd_step (p : parallelReader) (s : reading) (ev : rd_event) : option reading :=
  match ev with
  | Loop =>
      if rd_ended s then None
      else match rd_chan s with
           | [] => None
           | readTrigger :: chan =>
               let set_chan index running ended :=
                 mkReading (rd_readers s) (rd_org s) index chan running (rd_buf s) (rd_missing s) (rd_corrupt s) ended in
               if canDecode (pr_dataBlocks p) (rd_buf s) then Some (set_chan (rd_index s) (rd_running s) true)
               else if (rd_index s =? length (rd_readers s))%nat then Some (set_chan (rd_index s) (rd_running s) true)
               else if negb readTrigger then Some (set_chan (rd_index s) (rd_running s) false)
               else Some (set_chan (S (rd_index s)) (rd_running s ++ [rd_index s]) false)
           end
  | Finish k =>
      match rd_running s !! k with
      | Some i => Some (finish p i (delete k (rd_running s)) s)
      | None => None
      end
  end.

Fixpoint rd_run (p : parallelReader) (s : reading) (evs : list rd_event) : option reading :=
  match evs with
  | [] => Some s
  | ev :: evs => s ← rd_step p s ev; rd_run p s evs
  end.

(** The loop has been left and all goroutines have ended. *)
Definition rd_complete (s : reading) : bool := rd_ended s && bool_decide (rd_running s = []).

Definition with_shardSize (p : parallelReader) (n : Z) : parallelReader :=
  mkPR (pr_readers p) (pr_orgReaders p) (pr_dataBlocks p) (pr_offset p) n (pr_shardFileSize p) (pr_readerToBuf p).

(** [Read] under a schedule: the buffers and the error that goes with them;
    [None] if the schedule does not end it. *)
Definition pr_Read (sched : list rd_event) (p : parallelReader)
    : option (outcome derr (list bytes * option derr) * parallelReader) :=
  let p := if pr_shardFileSize p <? pr_offset p + pr_shardSize p
           then with_shardSize p (pr_shardFileSize p - pr_offset p) else p in
  if pr_shardSize p =? 0 then Some (Ok (replicate (length (pr_readers p)) [], None), p)
  else
    s ← rd_run p (start_reading p) sched;
    if negb (rd_complete s) then None
    else
      let p' offset := mkPR (rd_readers s) (rd_org s) (pr_dataBlocks p) offset (pr_shardSize p) (pr_shardFileSize p)
                         (pr_readerToBuf p) in
      if canDecode (pr_dataBlocks p) (rd_buf s) then
        Some (Ok (rd_buf s, if rd_missing s then Some errFileNotFound else if rd_corrupt s then Some errFileCorrupt else None),
              p' (pr_offset p + pr_shardSize p))
      else Some (Err errErasureReadQuorum, p' (pr_offset p)).

(** ** Writing the blocks *)

Definition getDataBlockLen (enBlocks : list bytes) (dataBlocks : Z) : Z :=
  foldl (λ size block, size + zlen block) 0 (take (Z.to_nat dataBlocks) enBlocks).

(** The loop over the data blocks: what is written to [dst]. *)
Fixpoint write_blocks (blocks : list bytes) (offset write : Z) : bytes :=
  match blocks with
  | [] => []
  | block :: blocks =>
      if zlen block <=? offset then write_blocks blocks (offset - zlen block) write
      else
        let block := drop (Z.to_nat offset) block in
        if write <? zlen block then take (Z.to_nat write) block
        else block ++ write_blocks blocks 0 (write - zlen block)
  end.

Definition writeDataBlocks (enBlocks : list bytes) (dataBlocks offset length : Z) : outcome derr bytes :=
  if (offset <? 0) || (length <? 0) then Err errUnexpected
  else if zlen enBlocks <? dataBlocks then Err ErrTooFewShards
  else if getDataBlockLen enBlocks dataBlocks <? length then Err ErrShortData
  else Ok (write_blocks (take (Z.to_nat dataBlocks) enBlocks) offset length).

(** ** [Decode] *)

Section Decode.
Context `{ReedSolomon}.

(** The part of a block that the request covers. *)
Definition block_range (e : Erasure) (offset length startBlock endBlock block : Z) : Z * Z :=
  if startBlock =? endBlock then (offset `rem` blockSize e, length)
  else if block =? startBlock then (offset `rem` blockSize e, blockSize e - offset `rem` blockSize e)
  else if block =? endBlock then (0, (offset + length) `rem` blockSize e)
  else (0, blockSize e).

(** The loop over the blocks [block..endBlock]; [out] is what has been written. *)
Fixpoint decode_loop (scheds : Z → list rd_event) (blocks : nat) (e : Erasure) (offset length startBlock endBlock block : Z)
    (p : parallelReader) (out : bytes) (derror : option derr) : option (outcome derr (option derr) * bytes * parallelReader) :=
  match blocks with
  | O => Some (Ok derror, out, p)
  | S blocks =>
      let '(blockOffset, blockLength) := block_range e offset length startBlock endBlock block in
      if blockLength =? 0 then Some (Ok derror, out, p)
      else
        '(r, p) ← pr_Read (scheds block) p;
        match r with
        | Err err => Some (Err err, out, p)
        | Panic w => Some (Panic w, out, p)
        | Ok (bufs, err) =>
            let derror := match derror with None => err | _ => derror end in
            match DecodeDataBlocks e bufs with
            | Ok bufs =>
                match writeDataBlocks bufs (dataBlocks e) blockOffset blockLength with
                | Ok w => decode_loop scheds blocks e offset length startBlock endBlock (block + 1) p (out ++ w) derror
                | Err err => Some (Err err, out, p)
                | Panic w => Some (Panic w, out, p)
                end
            | Err err => Some (Err err, out, p)
            | Panic w => Some (Panic w, out, p)
            end
        end
  end.

(** The result with what was written, and the readers that still work. The writer is taken to take what it is
    given: its errors, which end [Decode], are not modelled. *)
Definition Decode (scheds : Z → list rd_event) (e : Erasure) (readers : list (option reader))
    (offset length totalLength : Z) (prefer : list bool) : option (outcome derr (option derr) * bytes * list (option reader)) :=
  if (offset <? 0) || (length <? 0) then Some (Err errInvalidArgument, [], readers)
  else if totalLength <? wrap64 (offset + length) then Some (Err errInvalidArgument, [], readers)
  else if length =? 0 then Some (Ok None, [], readers)
  else
    let p := newParallelReader readers e offset totalLength in
    let p := if (List.length prefer =? List.length readers)%nat then preferReaders prefer p else p in
    let startBlock := offset `quot` blockSize e in
    let endBlock := wrap64 (offset + length) `quot` blockSize e in
    '(r, out, p) ← decode_loop scheds (Z.to_nat (endBlock - startBlock + 1)) e offset length startBlock endBlock startBlock p [] None;
    Some (match r with
          | Ok derror => if negb (zlen out =? length) then Err errLessData else Ok derror
          | r => r
          end, out, pr_orgReaders p).

End Decode.

(** ** The parallel reader *)

Lemma present_cons b bufs : present (b :: bufs) = (if zlen b =? 0 then 0 else 1) + present bufs.
Proof. unfold present. cbn [List.filter]. destruct (zlen b =? 0); cbn [negb length]; lia. Qed.

Lemma present_app l1 l2 : present (l1 ++ l2) = present l1 + present l2.
Proof. unfold present. rewrite List.filter_app, length_app. lia. Qed.

Lemma present_insert bufs i b :
  bufs !! i = Some [] → b ≠ [] → present (<[i := b]> bufs) = present bufs + 1.
Proof.
  intros Hi Hb. rewrite insert_take_drop by (by eapply lookup_lt_Some).
  rewrite <- (take_drop_middle bufs i [] Hi) at 3. rewrite !present_app, !present_cons.
  rewrite (proj2 (Z.eqb_neq (zlen b) 0)) by (by rewrite zlen_nil). change (if zlen [] =? 0 then 0 else 1) with 0. lia.
Qed.

Lemma present_bound bufs : 0 ≤ present bufs ≤ zlen bufs.
Proof. induction bufs as [|b bufs IH]; [done|]. rewrite present_cons, zlen_cons. destruct (zlen b =? 0); lia. Qed.

Lemma present_replicate n : present (replicate n []) = 0.
Proof. induction n as [|n IH]; [done|]. cbn [replicate]. by rewrite present_cons. Qed.

Definition trues (chan : list bool) : Z := Z.of_nat (length (List.filter id chan)).
Definition falses (chan : list bool) : Z := Z.of_nat (length (List.filter negb chan)).

(** Every reader has a buffer of its own, the one of its place among the original
    readers. *)
Record routes (readers org : list (option reader)) (r2b : list nat) : Prop := {
  ro_length : length org = length readers;
  ro_there i r : readers !! i = Some (Some r) → ∃ b, r2b !! i = Some b ∧ org !! b = Some (Some r);
  ro_inj i j r r' b : readers !! i = Some (Some r) → readers !! j = Some (Some r') →
    r2b !! i = Some b → r2b !! j = Some b → i = j;
  ro_onto b r : org !! b = Some (Some r) → ∃ i, readers !! i = Some (Some r) ∧ r2b !! i = Some b;
}.

Lemma routes_lost readers org r2b i r b :
  routes readers org r2b → readers !! i = Some (Some r) → r2b !! i = Some b →
  routes (<[i := None]> readers) (<[b := None]> org) r2b.
Proof.
  intros [Hl Ht Hi Ho] Hr Hb. destruct (Ht i r Hr) as (b' & Hb' & Horg). simplify_eq.
  assert (∀ j x, <[i := None]> readers !! j = Some (Some x) → j ≠ i ∧ readers !! j = Some (Some x)) as Hold.
  { intros j x. rewrite list_lookup_insert_Some. intros [(_ & ? & _)|[Hne ?]]; [done|by split]. }
  split.
  - by rewrite !length_insert.
  - intros j x (Hne & Hj)%Hold. destruct (Ht j x Hj) as (c & Hc & Hcorg). exists c. split; [done|].
    rewrite list_lookup_insert_ne; [done|]. intros ->. apply Hne. by eapply (Hi j i).
  - intros j k x y c (_ & Hj)%Hold (_ & Hk)%Hold. by apply (Hi j k x y).
  - intros c x. rewrite list_lookup_insert_Some. intros [(_ & ? & _)|[Hne Hc]]; [done|].
    destruct (Ho c x Hc) as (j & Hj & Hjc). exists j. split; [|done]. rewrite list_lookup_insert_ne; [done|]. congruence.
Qed.

Section Reading.
Context (p : parallelReader).
Let orig := pr_readers p.
Let n := length orig.
Let d := pr_dataBlocks p.

(** What a reader gives this time, [[]] if it fails. *)
Definition answer (o : option (option reader)) : bytes :=
  match o with
  | Some (Some r) => match r (pr_offset p) (pr_shardSize p) with Ok b => b | _ => [] end
  | _ => []
  end.

(** What the reader of buffer [b] gives. *)
Definition value (b : nat) : bytes := answer (pr_orgReaders p !! b).

(** A reader that answers gives bytes, and does not panic. *)
Definition answers : Prop := ∀ b r, pr_orgReaders p !! b = Some (Some r) →
  (∃ x, r (pr_offset p) (pr_shardSize p) = Ok x ∧ x ≠ []) ∨ (∃ err, r (pr_offset p) (pr_shardSize p) = Err err).

Hypothesis routed : routes orig (pr_orgReaders p) (pr_readerToBuf p).
Hypothesis enough : 1 ≤ d.
Hypothesis Hans : answers.

(** Reader [i] has been asked and has answered. *)
Definition answered (s : reading) (i : nat) : Prop := (i < rd_index s)%nat ∧ i ∉ rd_running s.

Record rd_inv (s : reading) : Prop := {
  ri_index : (rd_index s ≤ n)%nat;
  ri_running : NoDup (rd_running s) ∧ Forall (λ i, (i < rd_index s)%nat) (rd_running s);
  ri_readers : length (rd_readers s) = n ∧
    ∀ i, (i < n)%nat → rd_readers s !! i = orig !! i ∨ answered s i ∧ rd_readers s !! i = Some None;
  ri_org : routes (rd_readers s) (rd_org s) (pr_readerToBuf p) ∧
    ∀ b, (b < n)%nat → rd_org s !! b = pr_orgReaders p !! b ∨ rd_org s !! b = Some None ∧ value b = [];
  ri_buf_len : length (rd_buf s) = n;
  ri_buf b x : rd_buf s !! b = Some x → x ≠ [] →
    x = value b ∧ ∃ i r, answered s i ∧ orig !! i = Some (Some r) ∧ pr_readerToBuf p !! i = Some b;
  ri_full i r b : answered s i → orig !! i = Some (Some r) → pr_readerToBuf p !! i = Some b → rd_buf s !! b = Some (value b);
  ri_tokens : rd_ended s = false → zlen (rd_running s) + trues (rd_chan s) + present (rd_buf s) = d;
  ri_consumed : rd_ended s = false → present (rd_buf s) - falses (rd_chan s) < d;
  ri_ended : rd_ended s = true → canDecode d (rd_buf s) = true ∨ rd_index s = n;
}.

Lemma trues_cons b chan : trues (b :: chan) = (if b then 1 else 0) + trues chan.
Proof. unfold trues. destruct b; cbn [List.filter id length]; lia. Qed.
Lemma falses_cons b chan : falses (b :: chan) = (if b then 0 else 1) + falses chan.
Proof. unfold falses. destruct b; cbn [List.filter negb length]; lia. Qed.
Lemma trues_snoc b chan : trues (chan ++ [b]) = trues chan + (if b then 1 else 0).
Proof. unfold trues. rewrite List.filter_app, length_app. destruct b; cbn [List.filter id length]; lia. Qed.
Lemma falses_snoc b chan : falses (chan ++ [b]) = falses chan + (if b then 0 else 1).
Proof. unfold falses. rewrite List.filter_app, length_app. destruct b; cbn [List.filter negb length]; lia. Qed.

Lemma rd_start_inv : rd_inv (start_reading p).
Proof.
  unfold start_reading. split; cbn [rd_index rd_running rd_readers rd_org rd_buf rd_chan rd_ended].
  - lia.
  - split; constructor.
  - split; [done|]. by left.
  - split; [done|]. by left.
  - by rewrite length_replicate.
  - intros b x Hb. by apply lookup_replicate in Hb as [-> _].
  - intros i r b [Hi _]. cbn in Hi. lia.
  - intros _. rewrite present_replicate. unfold trues.
    assert (∀ k, length (List.filter id (replicate k true)) = k) as -> by (induction k; cbn; lia). unfold zlen, d. cbn [length].
    fold d. lia.
  - intros _. rewrite present_replicate. unfold falses. lia.
  - done.
Qed.

(** A reader that is asked has not answered yet. *)
Lemma answered_ask s s' i :
  Forall (λ i, (i < rd_index s)%nat) (rd_running s) →
  rd_index s' = S (rd_index s) → rd_running s' = rd_running s ++ [rd_index s] → answered s' i ↔ answered s i.
Proof.
  intros Hlt E1 E2. unfold answered. rewrite E1, E2, elem_of_app, list_elem_of_singleton. split.
  - intros [H1 H2]. split; [|tauto]. destruct (decide (i = rd_index s)); [tauto|lia].
  - intros [H1 H2]. split; [lia|]. intros [?| ->]; [done|lia].
Qed.

Lemma loop_inv s s' : rd_inv s → rd_step p s Loop = Some s' → rd_inv s'.
Proof.
  intros [Hix [Hnd Hlt] Hrd Horg Hbl Hbuf Hfull Htok Hcon Hend]. cbn [rd_step]. destruct (rd_ended s) eqn:He; [done|].
  specialize (Htok eq_refl). specialize (Hcon eq_refl).
  destruct (rd_chan s) as [|t chan] eqn:Hc; [done|]. rewrite trues_cons in Htok. rewrite falses_cons in Hcon.
  destruct (canDecode (pr_dataBlocks p) (rd_buf s)) eqn:Hcd.
  { intros [= <-]. split; cbn; try done. intros _. by left. }
  destruct (Nat.eqb_spec (rd_index s) (length (rd_readers s))) as [Hn|Hn].
  { intros [= <-]. split; cbn; try done. intros _. right. by rewrite Hn, (proj1 Hrd). }
  unfold canDecode in Hcd. destruct_bools. fold d in Hcd. destruct t; cbn [negb]; cbv iota in Htok, Hcon.
  - intros [= <-]. rewrite (proj1 Hrd) in Hn. set (s' := mkReading _ _ _ _ _ _ _ _ _).
    assert (∀ i, answered s' i ↔ answered s i) as Ha by (intros i; by apply answered_ask).
    split; cbn [s' rd_index rd_running rd_readers rd_org rd_buf rd_chan rd_ended]; try done.
    + lia.
    + split.
      * apply NoDup_app. split_and!; [done| |apply NoDup_singleton]. intros x Hx Hx'. apply list_elem_of_singleton in Hx' as ->.
        rewrite Forall_forall in Hlt. specialize (Hlt _ Hx). lia.
      * apply Forall_app. split; [eapply Forall_impl; [exact Hlt|]; cbn; lia|]. apply Forall_singleton. lia.
    + split; [apply Hrd|]. intros i Hi. rewrite Ha. by apply Hrd.
    + intros b x Hb Hx. setoid_rewrite Ha. by apply Hbuf.
    + intros i r b. rewrite Ha. apply Hfull.
    + intros _. unfold zlen in *. rewrite length_app. cbn [length]. lia.
  - assert (0 ≤ falses chan) by (unfold falses; lia).
    intros [= <-]. split; cbn [rd_index rd_running rd_readers rd_org rd_buf rd_chan rd_ended]; try done; intros _; lia.
Qed.

Lemma answered_finish s k i j :
  NoDup (rd_running s) → (i < rd_index s)%nat → rd_running s !! k = Some i →
  ((j < rd_index s)%nat ∧ j ∉ delete k (rd_running s)) ↔ answered s j ∨ j = i.
Proof.
  intros Hnd Hi Hk. unfold answered.
  assert (j ∈ delete k (rd_running s) ↔ j ∈ rd_running s ∧ j ≠ i) as ->.
  { rewrite <- (take_drop_middle _ _ _ Hk) in Hnd |- * at 2. rewrite delete_take_drop.
    apply NoDup_app in Hnd as (_ & H1 & H2). apply NoDup_cons in H2 as [H2 _].
    rewrite !elem_of_app, elem_of_cons. split.
    - intros [Hj|Hj]; (split; [tauto|]); intros ->; [|done]. apply (H1 i); [done|by left].
    - intros [[?|[?|?]] ?]; tauto. }
  destruct (decide (j = i)) as [->|]; [|tauto]. split; [by right|]. intros _. split; [done|tauto].
Qed.

(** A goroutine that ends: what does not depend on how. *)
Lemma finish_facts s k i :
  rd_inv s → rd_running s !! k = Some i →
  (i < rd_index s ≤ n)%nat ∧ ¬ answered s i ∧ rd_readers s !! i = orig !! i ∧ zlen (delete k (rd_running s)) = zlen (rd_running s) - 1 ∧
  (NoDup (delete k (rd_running s)) ∧ Forall (λ i, (i < rd_index s)%nat) (delete k (rd_running s))) ∧
  ∀ s' j, rd_index s' = rd_index s → rd_running s' = delete k (rd_running s) → answered s' j ↔ answered s j ∨ j = i.
Proof.
  intros [Hix [Hnd Hlt] [_ Hrd] _ _ _ _ _ _ _] Hk.
  assert (i < rd_index s)%nat as Hi by (rewrite Forall_forall in Hlt; by eapply Hlt, list_elem_of_lookup_2).
  assert (¬ answered s i) as Hna. { intros [_ Hn]. apply Hn. by eapply list_elem_of_lookup_2. }
  split_and!; [done|done|done| | | | |].
  - destruct (Hrd i ltac:(lia)) as [?|[? _]]; done.
  - unfold zlen. rewrite length_delete by eauto. pose proof (lookup_lt_Some _ _ _ Hk). lia.
  - rewrite <- (take_drop_middle _ _ _ Hk) in Hnd. rewrite delete_take_drop.
    apply NoDup_app in Hnd as (? & H1 & H2). apply NoDup_cons in H2 as [? ?]. apply NoDup_app. split_and!; [done| |done].
    intros x Hx Hx'. apply (H1 x Hx). by right.
  - rewrite delete_take_drop. apply Forall_app. split; [by apply Forall_take|by apply Forall_drop].
  - intros s1 j E1 E2. unfold answered at 1. rewrite E1, E2. by apply answered_finish.
Qed.

(** The buffer of a reader that has not answered is empty. *)
Lemma buffer_empty s i r b :
  rd_inv s → ¬ answered s i → orig !! i = Some (Some r) → pr_readerToBuf p !! i = Some b → rd_buf s !! b = Some [].
Proof.
  intros Hinv Hna Hor Hb. destruct (ro_there _ _ _ routed i r Hor) as (b' & Hb' & Hborg). simplify_eq.
  assert (b < n)%nat as Hlt. { unfold n. pose proof (ro_length _ _ _ routed) as <-. by eapply lookup_lt_Some. }
  destruct (lookup_lt_is_Some_2 (rd_buf s) b) as [x Hx]; [by rewrite (ri_buf_len s Hinv)|].
  destruct (decide (x = [])) as [->|Hne]; [done|].
  destruct (ri_buf s Hinv b x Hx Hne) as (_ & j & r' & Hj & Hjr & Hjb).
  assert (j = i) as -> by (by eapply (ro_inj _ _ _ routed)). done.
Qed.

(** A reader that is nil or fails. *)
Lemma finish_failed s s' k i :
  rd_inv s → rd_running s !! k = Some i →
  (∀ b, pr_readerToBuf p !! i = Some b → is_Some (orig !! i ≫= id) → value b = []) →
  rd_index s' = rd_index s → rd_running s' = delete k (rd_running s) → rd_chan s' = rd_chan s ++ [true] →
  rd_buf s' = rd_buf s → rd_ended s' = rd_ended s →
  (rd_readers s' = rd_readers s ∧ rd_org s' = rd_org s ∨
   ∃ r b, orig !! i = Some (Some r) ∧ pr_readerToBuf p !! i = Some b ∧
     rd_readers s' = <[i := None]> (rd_readers s) ∧ rd_org s' = <[b := None]> (rd_org s)) → rd_inv s'.
Proof.
  intros Hinv Hk Hv E1 E2 E3 E4 E5 Hrd'. pose proof (finish_facts s k i Hinv Hk) as ([Hi Hix] & Hna & Hri & Hlen & Hrun & Hans').
  pose proof (λ r b, buffer_empty s i r b Hinv Hna) as Hempty.
  destruct Hinv as [_ _ [Hrl Hrd] [Hro Horg] Hbl Hbuf Hfull Htok Hcon Hend]. specialize (Hans' s').
  split; rewrite ?E1, ?E2, ?E3, ?E4, ?E5; [done|done| | |done| | | | |done].
  - destruct Hrd' as [[-> _]|(r & b & _ & _ & -> & _)]; rewrite ?length_insert; (split; [done|]); intros j Hj; rewrite Hans' by done.
    + destruct (Hrd j Hj) as [?|[? ?]]; [by left|right]. tauto.
    + destruct (decide (j = i)) as [->|Hne].
      * right. rewrite list_lookup_insert_eq by lia. tauto.
      * rewrite list_lookup_insert_ne by done. destruct (Hrd j Hj) as [?|[? ?]]; [by left|right]. tauto.
  - destruct Hrd' as [[-> ->]|(r & b & Hor & Hb & -> & ->)]; [by split|]. split.
    + eapply routes_lost; [done| |done]. by rewrite Hri.
    + intros c Hc. destruct (decide (c = b)) as [->|Hne].
      * right. split; [apply list_lookup_insert_eq; by rewrite (ro_length _ _ _ Hro), Hrl|]. apply Hv; [done|]. by rewrite Hor.
      * rewrite list_lookup_insert_ne by done. by apply Horg.
  - intros b x Hb Hx. destruct (Hbuf b x Hb Hx) as (-> & j & r & Hj & ?). split; [done|]. exists j, r. rewrite Hans' by done. tauto.
  - intros j r b Hj Hjr Hjb. rewrite Hans' in Hj by done. destruct Hj as [Hj| ->]; [by eapply Hfull|].
    rewrite Hv by (done || by rewrite Hjr). by eapply Hempty.
  - intros He. specialize (Htok He). rewrite Hlen, trues_snoc. lia.
  - intros He. specialize (Hcon He). rewrite falses_snoc. lia.
Qed.

Lemma finish_read s s' k i r b :
  rd_inv s → rd_running s !! k = Some i → orig !! i = Some (Some r) → pr_readerToBuf p !! i = Some b → value b ≠ [] →
  rd_index s' = rd_index s → rd_running s' = delete k (rd_running s) → rd_chan s' = rd_chan s ++ [false] →
  rd_buf s' = <[b := value b]> (rd_buf s) → rd_ended s' = rd_ended s → rd_readers s' = rd_readers s → rd_org s' = rd_org s →
  rd_inv s'.
Proof.
  intros Hinv Hk Hor Hb Hv E1 E2 E3 E4 E5 E6 E7.
  pose proof (finish_facts s k i Hinv Hk) as ([Hi Hix] & Hna & Hri & Hlen & Hrun & Hans').
  pose proof (buffer_empty s i r b Hinv Hna Hor Hb) as Hempty. pose proof (lookup_lt_Some _ _ _ Hempty) as Hblt.
  destruct Hinv as [_ _ [Hrl Hrd] Horg Hbl Hbuf Hfull Htok Hcon Hend]. specialize (Hans' s').
  assert (present (rd_buf s') = present (rd_buf s) + 1) as Hp by (rewrite E4; by apply present_insert).
  split; rewrite ?E1, ?E2, ?E3, ?E5, ?E6, ?E7; [done|done| |done| | | | | |].
  - split; [done|]. intros j Hj. rewrite Hans' by done. destruct (Hrd j Hj) as [?|[? ?]]; [by left|right]. tauto.
  - by rewrite E4, length_insert.
  - intros c x. rewrite E4, list_lookup_insert_Some. intros [(<- & <- & _)|[Hne Hc]] Hx.
    + split; [done|]. exists i, r. rewrite Hans' by done. tauto.
    + destruct (Hbuf c x Hc Hx) as (-> & j & r' & Hj & ?). split; [done|]. exists j, r'. rewrite Hans' by done. tauto.
  - intros j r' c Hj Hjr Hjc. rewrite E4. destruct (decide (c = b)) as [->|Hne]; [by apply list_lookup_insert_eq|].
    rewrite list_lookup_insert_ne by done. rewrite Hans' in Hj by done. destruct Hj as [Hj| ->]; [by eapply Hfull|congruence].
  - intros He. specialize (Htok He). rewrite Hlen, trues_snoc, Hp. lia.
  - intros He. specialize (Hcon He). rewrite falses_snoc, Hp. lia.
  - intros He. destruct (Hend He) as [Hcd|?]; [left|by right]. unfold canDecode in *. destruct_bools. apply Z.leb_le. lia.
Qed.

Lemma rd_finish_inv s k s' : rd_inv s → rd_step p s (Finish k) = Some s' → rd_inv s'.
Proof.
  intros Hinv. cbn [rd_step]. destruct (rd_running s !! k) as [i|] eqn:Hk; [|done].
  pose proof (finish_facts s k i Hinv Hk) as ([Hi Hix] & Hna & Hri & _). intros [= <-]. unfold finish. rewrite Hri.
  destruct (orig !! i) as [[r|]|] eqn:Hor; cbn [default from_option id].
  - destruct (ro_there _ _ _ routed i r Hor) as (b & Hb & Horg). rewrite Hb. cbn [default from_option id].
    assert (value b = match r (pr_offset p) (pr_shardSize p) with Ok b => b | _ => [] end) as Hv by (unfold value; by rewrite Horg).
    destruct (Hans b r Horg) as [(x & Hx & Hne)|(err & He)].
    + rewrite Hx in *. apply (finish_read s _ k i r b Hinv Hk); cbn; by rewrite ?Hv.
    + rewrite He in *. apply (finish_failed s _ k i Hinv Hk); cbn; try done; [congruence|]. right. by exists r, b.
  - apply (finish_failed s _ k i Hinv Hk); cbn; try done; [|by left]. intros b _. rewrite Hor. by intros [? ?].
  - apply lookup_ge_None in Hor. lia.
Qed.

Lemma rd_step_inv s ev s' : rd_inv s → rd_step p s ev = Some s' → rd_inv s'.
Proof. destruct ev; [apply loop_inv|apply rd_finish_inv]. Qed.

Lemma rd_run_inv evs s s' : rd_inv s → rd_run p s evs = Some s' → rd_inv s'.
Proof.
  revert s. induction evs as [|ev evs IH]; intros s Hi; cbn [rd_run]; [by intros [= <-]|].
  intros (s1 & H1 & H2)%bind_Some. eapply IH; [|done]. by eapply rd_step_inv.
Qed.

(** *** It does not get stuck *)

Lemma rd_progress s : rd_inv s → rd_complete s = false → ∃ ev s', rd_step p s ev = Some s'.
Proof.
  intros [_ _ _ _ _ _ _ Htok Hcon _] Hc. unfold rd_complete in Hc.
  destruct (rd_running s) as [|i running] eqn:Hr.
  - rewrite bool_decide_true, andb_true_r in Hc by done. specialize (Htok Hc). specialize (Hcon Hc).
    exists Loop. cbn [rd_step]. rewrite Hc. destruct (rd_chan s) as [|t chan].
    { change (trues []) with 0 in Htok. change (falses []) with 0 in Hcon. unfold zlen in Htok. cbn [length] in Htok. lia. }
    repeat case_match; eauto.
  - exists (Finish 0). cbn [rd_step]. rewrite Hr. eauto.
Qed.

Definition rd_measure (s : reading) : nat :=
  3 * (n - rd_index s) + 2 * length (rd_running s) + length (rd_chan s).

Lemma rd_step_measure s ev s' : rd_inv s → rd_step p s ev = Some s' → (rd_measure s' < rd_measure s)%nat.
Proof.
  intros Hinv. destruct ev as [|k]; cbn [rd_step].
  - destruct (rd_ended s); [done|]. destruct (rd_chan s) as [|t chan] eqn:Hc; [done|]. unfold rd_measure. rewrite Hc.
    destruct (canDecode _ _); [intros [= <-]; cbn; lia|].
    destruct (Nat.eqb_spec (rd_index s) (length (rd_readers s))) as [|Hn]; [intros [= <-]; cbn; lia|].
    rewrite (proj1 (ri_readers s Hinv)) in Hn. pose proof (ri_index s Hinv).
    destruct t; intros [= <-]; cbn; [rewrite length_app; cbn; lia|lia].
  - destruct (rd_running s !! k) as [i|] eqn:Hk; [|done]. intros [= <-].
    assert (length (delete k (rd_running s)) = length (rd_running s) - 1 ∧ length (rd_running s) ≠ 0)%nat as [Hl Hn].
    { rewrite length_delete by eauto. pose proof (lookup_lt_Some _ _ _ Hk). lia. }
    pose proof (finish_facts s k i Hinv Hk) as ([Hi Hix] & Hna & Hri & _).
    unfold rd_measure, finish. rewrite Hri. destruct (orig !! i) as [[r|]|] eqn:Hor; cbn [default from_option id].
    + destruct (ro_there _ _ _ routed i r Hor) as (b & _ & Horg).
      destruct (Hans b r Horg) as [(x & -> & _)|(err & ->)]; cbn; rewrite length_app, Hl; cbn; lia.
    + cbn. rewrite length_app, Hl. cbn. lia.
    + cbn. rewrite length_app, Hl. cbn. lia.
Qed.

(** Every schedule can be continued to the end. *)
Lemma rd_ends s : rd_inv s → ∃ evs s', rd_run p s evs = Some s' ∧ rd_complete s' = true.
Proof.
  intros Hi. remember (rd_measure s) as m eqn:Hm. revert s Hi Hm. induction (lt_wf m) as [m _ IH]. intros s Hi ->.
  destruct (rd_complete s) eqn:Hc; [by exists [], s|].
  destruct (rd_progress s Hi Hc) as (ev & s1 & Hs1).
  destruct (IH _ (rd_step_measure _ _ _ Hi Hs1) s1) as (evs & s' & Hr & Hc'); [by eapply rd_step_inv|done|].
  exists (ev :: evs), s'. cbn [rd_run]. by rewrite Hs1.
Qed.

(** *** What it gets *)

Definition good_count : Z := present (value <$> seq 0 n).

Lemma present_mono (vs bufs : list bytes) :
  Forall2 (λ v b, b = [] ∨ b = v) vs bufs → present bufs ≤ present vs.
Proof.
  induction 1 as [|v b vs bufs Hb _ IH]; [done|]. rewrite !present_cons.
  destruct Hb as [->| ->]; [change (zlen [] =? 0) with true; cbv iota; destruct (zlen v =? 0); lia|lia].
Qed.

Lemma buf_values s : rd_inv s → Forall2 (λ v b, b = [] ∨ b = v) (value <$> seq 0 n) (rd_buf s).
Proof.
  intros Hi. apply Forall2_same_length_lookup_2.
  { by rewrite length_fmap, length_seq, (ri_buf_len s Hi). }
  intros b v x Hv Hx. rewrite list_lookup_fmap in Hv. apply fmap_Some in Hv as (j & Hj & ->).
  apply lookup_seq in Hj as [-> Hj]. destruct (decide (x = [])) as [->|Hne]; [by left|right].
  by destruct (ri_buf s Hi b x Hx Hne) as [-> _].
Qed.

(** When all have answered, every buffer is full. *)
Lemma all_answered s : rd_inv s → rd_index s = n → rd_running s = [] → rd_buf s = value <$> seq 0 n.
Proof.
  intros Hi Hix Hrun. apply list_eq. intros b. rewrite list_lookup_fmap. destruct (decide (b < n)%nat) as [Hlt|Hge].
  - rewrite (proj2 (lookup_seq 0 n b b)) by lia. cbn [fmap option_fmap option_map].
    destruct (lookup_lt_is_Some_2 (rd_buf s) b) as [x Hx]; [by rewrite (ri_buf_len s Hi)|].
    destruct (pr_orgReaders p !! b) as [[r|]|] eqn:Horg.
    + destruct (ro_onto _ _ _ routed b r Horg) as (i & Hor & Hib). eapply (ri_full s Hi i r b); [|done|done].
      split; [rewrite Hix; by eapply lookup_lt_Some|]. rewrite Hrun. apply not_elem_of_nil.
    + rewrite Hx. f_equal. destruct (decide (x = [])) as [->|Hne]; [unfold value; by rewrite Horg|by destruct (ri_buf s Hi b x Hx Hne)].
    + rewrite Hx. f_equal. destruct (decide (x = [])) as [->|Hne]; [unfold value; by rewrite Horg|by destruct (ri_buf s Hi b x Hx Hne)].
  - rewrite (proj2 (lookup_ge_None (rd_buf s) b)) by (rewrite (ri_buf_len s Hi); lia).
    by rewrite (proj2 (lookup_ge_None (seq 0 n) b)) by (rewrite length_seq; lia).
Qed.

Lemma rd_complete_spec s :
  rd_inv s → rd_complete s = true →
  canDecode d (rd_buf s) = (d <=? good_count) ∧ Forall2 (λ v b, b = [] ∨ b = v) (value <$> seq 0 n) (rd_buf s).
Proof.
  intros Hi Hc. split; [|by apply buf_values]. unfold rd_complete in Hc. apply andb_true_iff in Hc as [He Hrun%bool_decide_eq_true].
  pose proof (present_mono _ _ (buf_values s Hi)) as Hle. fold good_count in Hle. unfold canDecode.
  destruct (Z.leb_spec d (present (rd_buf s))) as [Hd|Hd]; symmetry; [apply Z.leb_le; lia|].
  apply Z.leb_gt. destruct (ri_ended s Hi) as [Hcd|Hn]; [done|unfold canDecode in Hcd; destruct_bools; lia|].
  unfold good_count. by rewrite <- (all_answered s).
Qed.

End Reading.

(** ** The preferred readers *)

(** The drives that are asked are all preferred, or none is. *)
Definition uniform (readers : list (option reader)) (prefer : list bool) : Prop :=
  length prefer ≠ length readers ∨ Forall (λ ok, ok = false) prefer ∨
  ∀ i r, readers !! i = Some (Some r) → prefer !! i = Some true.

(** The readers when the first [i] have been seen: those that are not nil come first. *)
Record packed (org : list (option reader)) (i : nat) (acc : list (option reader) * list nat * nat) : Prop := {
  pk_next : (acc.2 ≤ i)%nat;
  pk_length : length acc.1.1 = length org ∧ length acc.1.2 = length org;
  pk_front k : (k < acc.2)%nat → ∃ b r, acc.1.1 !! k = Some (Some r) ∧ acc.1.2 !! k = Some b ∧ (b < i)%nat ∧ org !! b = Some (Some r);
  pk_inj k k' b : (k < acc.2)%nat → (k' < acc.2)%nat → acc.1.2 !! k = Some b → acc.1.2 !! k' = Some b → k = k';
  pk_gap k : (acc.2 ≤ k < i)%nat → (i ≤ length org)%nat → acc.1.1 !! k = Some None;
  pk_rest k : (i ≤ k < length org)%nat → acc.1.1 !! k = org !! k ∧ acc.1.2 !! k = Some k;
  pk_all b r : (b < i)%nat → org !! b = Some (Some r) → ∃ k, (k < acc.2)%nat ∧ acc.1.1 !! k = Some (Some r) ∧ acc.1.2 !! k = Some b;
}.

Lemma packed_routes org acc : packed org (length org) acc → routes acc.1.1 org acc.1.2.
Proof.
  intros [Hn [Hl1 Hl2] Hf Hi Hg _ Ha].
  assert (∀ k r, acc.1.1 !! k = Some (Some r) → (k < acc.2)%nat) as Hlive.
  { intros k r Hk. apply Nat.nle_gt. intros Hle. pose proof (lookup_lt_Some _ _ _ Hk).
    rewrite Hg in Hk by lia. done. }
  split; [done| | |].
  - intros k r Hk. destruct (Hf k (Hlive k r Hk)) as (b & r' & Hk' & Hb & _ & Ho). simplify_eq. by exists b.
  - intros k k' r r' b Hk Hk'. eauto.
  - intros b r Hb. destruct (Ha b r) as (k & _ & ? & ?); [by eapply lookup_lt_Some|done|]. by exists k.
Qed.

Lemma packed_nil org i acc : packed org i acc → org !! i = Some None → packed org (S i) acc.
Proof.
  intros [Hn Hl Hf Hi Hg Hr Ha] Ho. pose proof (lookup_lt_Some _ _ _ Ho). split; [lia|done| |done| | |].
  - intros k Hk. destruct (Hf k Hk) as (b & r & ? & ? & ? & ?). exists b, r. split_and!; try done; lia.
  - intros k Hk _. destruct (decide (k = i)) as [->|]; [|apply Hg; lia]. by rewrite (proj1 (Hr i ltac:(lia))).
  - intros k Hk. apply Hr. lia.
  - intros b r Hb Hbo. apply Ha; [|done]. destruct (decide (b = i)) as [->|]; [congruence|lia].
Qed.

Lemma packed_step org i acc r :
  packed org i acc → org !! i = Some (Some r) → packed org (S i) (prefer_step acc (i, true)).
Proof.
  destruct acc as [[rs r2b] next]. intros [Hn [Hl1 Hl2] Hf Hi Hg Hr Ha] Ho. cbn in *. pose proof (lookup_lt_Some _ _ _ Ho) as Hlt.
  destruct (Hr i ltac:(lia)) as [Hri Hbi]. rewrite Hri, Ho. cbn [negb].
  assert (∃ rs' r2b', length rs' = length org ∧ length r2b' = length org ∧
    (if (i =? next)%nat then (rs, r2b, S next)
     else (<[i := default None (rs !! next)]> (<[next := Some r]> rs), <[i := next]> (<[next := i]> r2b), S next)) = (rs', r2b', S next) ∧
    rs' !! next = Some (Some r) ∧ r2b' !! next = Some i ∧ ((next < i)%nat → rs' !! i = Some None) ∧
    ∀ k, k ≠ i → k ≠ next → rs' !! k = rs !! k ∧ r2b' !! k = r2b !! k) as (rs' & r2b' & Hl1' & Hl2' & -> & H1 & H2 & H3 & H4).
  { destruct (Nat.eqb_spec i next) as [<-|Hne].
    - exists rs, r2b. rewrite Hri, Ho. split_and!; try done. lia.
    - do 2 eexists. split_and!; [| |done| | | |]; rewrite ?length_insert; try done.
      + rewrite list_lookup_insert_ne by done. apply list_lookup_insert_eq. lia.
      + rewrite list_lookup_insert_ne by done. apply list_lookup_insert_eq. lia.
      + intros _. rewrite list_lookup_insert_eq by (rewrite length_insert; lia). by rewrite Hg by lia.
      + intros k Hk Hk'. by rewrite !list_lookup_insert_ne. }
  split; cbn [fst snd]; [lia|done| | | | |].
  - intros k Hk. destruct (decide (k = next)) as [->|Hne]; [exists i, r; split_and!; try done; lia|].
    destruct (H4 k) as [-> ->]; [lia|done|]. destruct (Hf k ltac:(lia)) as (b & r' & ? & ? & ? & ?). exists b, r'. split_and!; try done. lia.
  - assert (∀ k, (k < next)%nat → r2b' !! k ≠ Some i) as Hfresh.
    { intros k Hk Hb. destruct (H4 k) as [_ E]; [lia|lia|]. destruct (Hf k Hk) as (b & _ & _ & Hb' & Hbi' & _). rewrite E in Hb. simplify_eq. lia. }
    intros k k' b Hk Hk' Hb Hb'. destruct (decide (k = next)) as [->|Hne], (decide (k' = next)) as [->|Hne']; simplify_eq; [done| | |].
    + exfalso. apply (Hfresh k'); [lia|congruence].
    + exfalso. apply (Hfresh k); [lia|congruence].
    + destruct (H4 k) as [_ E]; [lia|done|]. destruct (H4 k') as [_ E']; [lia|done|]. rewrite E in Hb. rewrite E' in Hb'.
      apply (Hi k k' b); [lia|lia|done|done].
  - intros k Hk _. destruct (decide (k = i)) as [->|Hne]; [apply H3; lia|]. rewrite (proj1 (H4 k Hne ltac:(lia))). apply Hg; lia.
  - intros k Hk. destruct (H4 k) as [-> ->]; [lia|lia|]. apply Hr. lia.
  - intros b r' Hb Hbo. destruct (decide (b = i)) as [->|Hne]; [exists next; simplify_eq; split_and!; try done; lia|].
    destruct (Ha b r') as (k & Hk & ? & ?); [lia|done|]. exists k. destruct (H4 k) as [-> ->]; [lia|lia|]. split_and!; try done. lia.
Qed.

Lemma routes_refl (rs : list (option reader)) : routes rs rs (seq 0 (length rs)).
Proof.
  assert (∀ i b, seq 0 (length rs) !! i = Some b ↔ b = i ∧ (i < length rs)%nat) as Hs.
  { intros i b. rewrite lookup_seq. lia. }
  split; [done| | |].
  - intros i r Hr. exists i. split; [|done]. apply Hs. split; [done|by eapply lookup_lt_Some].
  - intros i j r r' b _ _ [-> _]%Hs [? _]%Hs. done.
  - intros b r Hb. exists b. split; [done|]. apply Hs. split; [done|by eapply lookup_lt_Some].
Qed.

(** The loop of [preferReaders] when what is not nil is preferred. *)
Lemma prefer_all org prefer :
  length prefer = length org → (∀ i r, org !! i = Some (Some r) → prefer !! i = Some true) →
  packed org (length org) (foldl prefer_step (org, seq 0 (length org), O) (imap pair prefer)).
Proof.
  intros Hl Hp.
  enough (∀ m, (m ≤ length org)%nat → packed org m (foldl prefer_step (org, seq 0 (length org), O) (take m (imap pair prefer)))) as Hm.
  { specialize (Hm (length org) ltac:(lia)). by rewrite take_ge in Hm by (rewrite length_imap; lia). }
  induction m as [|m IH]; intros Hle.
  { rewrite take_0. split; cbn [fst snd foldl]; try (intros; lia); [by rewrite length_seq|]. intros k Hk. split; [done|]. apply lookup_seq. lia. }
  specialize (IH ltac:(lia)). destruct (lookup_lt_is_Some_2 prefer m) as [ok Hok]; [lia|].
  rewrite (take_S_r _ m (m, ok)) by (by rewrite list_lookup_imap, Hok). rewrite foldl_app. cbn [foldl].
  destruct (lookup_lt_is_Some_2 org m) as [[r|] Ho]; [lia| |].
  - rewrite (Hp m r Ho) in Hok. injection Hok as <-. by eapply packed_step.
  - replace (prefer_step _ (m, ok)) with (foldl prefer_step (org, seq 0 (length org), O) (take m (imap pair prefer))); [by apply packed_nil|].
    destruct (foldl _ _ _) as [[rs r2b] next]. destruct (pk_rest _ _ _ IH m ltac:(lia)) as [Hm _]. cbn in *. by rewrite Hm, Ho.
Qed.

(** Nothing is preferred. *)
Lemma prefer_none acc prefer : Forall (λ ok, ok = false) prefer → foldl prefer_step acc (imap pair prefer) = acc.
Proof.
  intros Hnone. enough (∀ acc k, foldl prefer_step acc (imap (λ i b, (k + i, b))%nat prefer) = acc) as Hf.
  { rewrite (imap_ext pair (λ i b, (0 + i, b)%nat)) by done. apply Hf. }
  clear acc. induction Hnone as [|ok prefer -> _ IH]; intros [[rs r2b] next] k; [done|]. rewrite imap_cons. cbn [foldl].
  assert (prefer_step (rs, r2b, next) (k + 0, false)%nat = (rs, r2b, next)) as ->.
  { cbn. by destruct (rs !! (k + 0)%nat) as [[?|]|]. }
  erewrite imap_ext; [apply (IH _ (S k))|]. intros i x _. cbn. f_equal. lia.
Qed.

(** ** Slices *)

Lemma slice_app_seq {A} (l : list A) a n m :
  0 ≤ a → 0 ≤ n → 0 ≤ m → slice l a n ++ slice l (a + n) m = slice l a (n + m).
Proof.
  intros Ha Hn Hm. unfold slice. rewrite !Z2Nat.inj_add by lia. rewrite <- drop_drop.
  generalize (drop (Z.to_nat a) l). intros l'. by rewrite take_take_drop.
Qed.

Lemma slice_slice {A} (l : list A) a n b m :
  0 ≤ a → 0 ≤ b → 0 ≤ m → b + m ≤ n → slice (slice l a n) b m = slice l (a + b) m.
Proof.
  intros Ha Hb Hm Hle. unfold slice. rewrite List.skipn_firstn_comm, take_take, Z2Nat.inj_add by lia.
  rewrite <- drop_drop. f_equal. lia.
Qed.

Lemma slice_app_l {A} (l1 l2 : list A) a n : 0 ≤ a → 0 ≤ n → a + n ≤ zlen l1 → slice (l1 ++ l2) a n = slice l1 a n.
Proof.
  intros Ha Hn Hle. unfold slice, zlen in *. rewrite drop_app_le by lia. rewrite take_app_le; [done|]. rewrite length_drop. lia.
Qed.

Lemma zlen_slice {A} (l : list A) a n : 0 ≤ a → 0 ≤ n → a + n ≤ zlen l → zlen (slice l a n) = n.
Proof. intros Ha Hn Hle. unfold slice, zlen in *. rewrite length_take, length_drop. lia. Qed.

Lemma write_blocks_slice blocks off w :
  0 ≤ off → 0 ≤ w → write_blocks blocks off w = slice (concat blocks) off w.
Proof.
  revert off w. induction blocks as [|b blocks IH]; intros off w Ho Hw; cbn [write_blocks concat].
  { unfold slice. by rewrite drop_nil, take_nil. }
  unfold zlen in *. destruct (Z.leb_spec (Z.of_nat (length b)) off) as [Hle|Hgt].
  - rewrite IH by lia. unfold slice. rewrite drop_app_ge by lia. do 2 f_equal. lia.
  - unfold slice. rewrite drop_app_le by lia. rewrite length_drop.
    destruct (Z.ltb_spec w (Z.of_nat (length b - Z.to_nat off))) as [Hlt|Hge].
    + by rewrite take_app_le by (rewrite length_drop; lia).
    + rewrite IH by lia. unfold slice. rewrite take_app_ge by (rewrite length_drop; lia). f_equal.
      rewrite drop_0, length_drop. f_equal. lia.
Qed.

Lemma getDataBlockLen_concat bufs d : getDataBlockLen bufs d = zlen (concat (take (Z.to_nat d) bufs)).
Proof.
  unfold getDataBlockLen. generalize (take (Z.to_nat d) bufs) as l. intros l.
  enough (∀ k, foldl (λ size block, size + zlen block) k l = k + zlen (concat l)) as Hk by (rewrite Hk; lia).
  induction l as [|b l IH]; intros k; cbn [foldl concat]; [unfold zlen; cbn; lia|]. rewrite IH, zlen_app. lia.
Qed.

Lemma zlen_drop {A} (l : list A) n : 0 ≤ n → zlen (drop (Z.to_nat n) l) = Z.max 0 (zlen l - n).
Proof. intros Hn. unfold zlen. rewrite length_drop. lia. Qed.

Lemma zlen_slice0 {A} (l : list A) n : 0 ≤ n → zlen (slice l 0 n) = Z.min n (zlen l).
Proof. intros Hn. unfold slice, zlen. rewrite drop_0, length_take. lia. Qed.

Lemma slice_whole {A} (l : list A) n : zlen l ≤ n → slice l 0 n = l.
Proof. intros Hl. unfold slice. rewrite drop_0. apply take_ge. unfold zlen in Hl. lia. Qed.

Lemma slice_front {A} (l : list A) from n m : 0 ≤ from → 0 ≤ m ≤ n → slice (slice l from n) 0 m = slice l from m.
Proof. intros Hf Hm. rewrite slice_slice by lia. by rewrite Z.add_0_r. Qed.

Lemma drop_slice {A} (l : list A) from n m : 0 ≤ from → 0 ≤ m ≤ n → drop (Z.to_nat m) (slice l from n) = slice l (from + m) (n - m).
Proof.
  intros Hf Hm. unfold slice. rewrite Z2Nat.inj_add, <- drop_drop, Z2Nat.inj_sub by lia. by rewrite List.skipn_firstn_comm.
Qed.

Lemma slice_prefix (x : bytes) from n : slice x from n `prefix_of` drop (Z.to_nat from) x.
Proof. unfold slice. exists (drop (Z.to_nat n) (drop (Z.to_nat from) x)). by rewrite take_drop. Qed.

(** ** Reading back what was encoded *)

Section ReadBack.
Context (e : Erasure) `{ReedSolomonLaws (dataBlocks e) (parityBlocks e)}.
Context (D : bytes).
Hypothesis data_pos : 0 < dataBlocks e.
Hypothesis parity_pos : 0 < parityBlocks e.
Hypothesis block_pos : 0 < blockSize e.

Let d := dataBlocks e.
Let bs := blockSize e.
Let n := Z.to_nat (dataBlocks e + parityBlocks e).
Let B := chunks bs D.

(** The file of drive [i]. *)
Definition shard_file (i : nat) : bytes := shard_stream e i B.

Lemma ceilFrac_mono a b : 0 ≤ a ≤ b → ceilFrac a d ≤ ceilFrac b d.
Proof. intros Hab. rewrite !ceilFrac_pos by lia. apply Z.div_le_mono; lia. Qed.

Lemma shard_size_pos : 0 < ShardSize e.
Proof. unfold ShardSize. by apply ceilFrac_bounds; lia. Qed.

(** The size of the shards of block [j], as [Read] finds it. *)
Lemma read_size j :
  0 ≤ j → j * bs < zlen D →
  (if ShardFileSize e (zlen D) <? j * ShardSize e + ShardSize e then ShardFileSize e (zlen D) - j * ShardSize e else ShardSize e)
  = ceilFrac (Z.min bs (zlen D - j * bs)) d.
Proof.
  intros Hj Hlt. unfold ShardFileSize. rewrite (proj2 (Z.eqb_neq _ 0)), (proj2 (Z.eqb_neq _ (-1))) by (unfold bs in *; nia).
  rewrite Z.quot_div_nonneg, Z.rem_mod_nonneg by (unfold bs in *; nia). fold bs d.
  pose proof (Z.div_mod (zlen D) bs ltac:(lia)) as Hdm. pose proof (Z.mod_pos_bound (zlen D) bs ltac:(lia)) as Hm.
  set (q := zlen D / bs) in *. set (r := zlen D mod bs) in *. pose proof shard_size_pos as HS.
  pose proof (ceilFrac_bounds r d ltac:(lia) ltac:(lia)) as (Hc & _).
  assert (j ≤ q) by nia. destruct (decide (j = q)) as [->|Hne].
  - replace (Z.min bs (zlen D - q * bs)) with r by lia. pose proof (ceilFrac_mono r bs ltac:(lia)) as Hle.
    change (ceilFrac bs d) with (ShardSize e) in Hle. destruct (Z.ltb_spec (q * ShardSize e + ceilFrac r d) (q * ShardSize e + ShardSize e)); lia.
  - rewrite Z.min_l by nia. rewrite (proj2 (Z.ltb_ge _ _)) by nia. done.
Qed.

Lemma block_lookup j b : B !! j = Some b → b = slice D (Z.of_nat j * bs) bs ∧ Z.of_nat j * bs < zlen D ∧ b ≠ [] ∧
  zlen b = Z.min bs (zlen D - Z.of_nat j * bs).
Proof.
  unfold B. rewrite chunks_lookup by done. case_decide as Hlt; [|done]. intros [= <-].
  assert (zlen (slice D (Z.of_nat j * bs) bs) = Z.min bs (zlen D - Z.of_nat j * bs)) as Hl.
  { assert (0 ≤ Z.of_nat j * bs) as Hj by nia. revert Hlt Hj. generalize (Z.of_nat j * bs). intros x Hlt Hx.
    unfold slice, zlen in *. rewrite length_take, length_drop. unfold bs in *. lia. }
  split_and!; [done|done| |done]. intros E. rewrite E in Hl. unfold zlen in Hl at 1. cbn in Hl. lia.
Qed.

Lemma shard_length i b : b ≠ [] → (i < n)%nat → zlen (shard e i b) = ceilFrac (zlen b) d.
Proof.
  intros Hb Hi. destruct (codeword_spec e b Hb) as (z & _ & Hl & Hall & _). unfold shard.
  destruct (lookup_lt_is_Some_2 (codeword e b) i) as [s Hs]; [unfold zlen, n in *; lia|].
  rewrite Hs. rewrite Forall_forall in Hall. by eapply Hall, list_elem_of_lookup_2.
Qed.

(** The shard of a block is where [Read] looks for it. *)
Lemma file_slice i j b :
  B !! j = Some b → (i < n)%nat →
  slice (shard_file i) (Z.of_nat j * ShardSize e) (ceilFrac (zlen b) d) = shard e i b.
Proof.
  intros Hj Hi. unfold shard_file, shard_stream. rewrite <- (take_drop_middle B j b Hj), fmap_app, concat_app. cbn [fmap list_fmap concat].
  assert (length (concat (shard e i <$> take j B)) = Z.to_nat (ShardSize e) * j)%nat as Hpre.
  { rewrite (length_concat_const (Z.to_nat (ShardSize e))).
    - rewrite length_fmap, length_take. pose proof (lookup_lt_Some _ _ _ Hj). lia.
    - apply Forall_fmap, Forall_forall. intros x Hx. cbn. apply list_elem_of_lookup in Hx as (k & Hk).
      apply lookup_take_Some in Hk as [Hk Hkj]. apply block_lookup in Hk as (_ & _ & Hne & Hl).
      apply block_lookup in Hj as (_ & Hjl & _ & _).
      pose proof (shard_length i x Hne Hi) as Hs. rewrite Hl, Z.min_l in Hs by nia. unfold zlen, ShardSize in *. fold bs d. lia. }
  pose proof (shard_size_pos). apply block_lookup in Hj as (_ & _ & Hne & _).
  pose proof (shard_length i b Hne Hi) as Hs. unfold slice.
  rewrite drop_app_ge by nia. replace (_ - _)%nat with O by nia. rewrite drop_0.
  apply take_app_length'. unfold zlen in Hs at 1. lia.
Qed.

(** *** Readers of the files *)

(** A reader gives the bytes of its file or an error. *)
Definition honest (i : nat) (r : reader) : Prop :=
  ∀ off len, 0 ≤ off → 0 ≤ len → (∃ err, r off len = Err err) ∨ r off len = Ok (slice (shard_file i) off len).

Definition readers_ok (rs : list (option reader)) : Prop :=
  length rs = n ∧ ∀ i r, rs !! i = Some (Some r) → honest i r.

(** A reader that gives the bytes of the blocks from [lo] to [hi]. *)
Definition good_reader (lo hi : Z) (r : reader) : Prop :=
  ∀ j b, lo ≤ Z.of_nat j ≤ hi → B !! j = Some b → ∃ x, r (Z.of_nat j * ShardSize e) (ceilFrac (zlen b) d) = Ok x.

(** Enough of the readers do. *)
Definition enough_good (lo hi : Z) (rs : list (option reader)) : Prop :=
  ∃ gs, NoDup gs ∧ d ≤ zlen gs ∧ ∀ i, i ∈ gs → ∃ r, rs !! i = Some (Some r) ∧ good_reader lo hi r.

(** Some readers may have been given up, never a good one. *)
Definition keeps (lo hi : Z) (rs rs' : list (option reader)) : Prop :=
  length rs' = length rs ∧ (∀ i, rs' !! i = rs !! i ∨ rs' !! i = Some None) ∧
  ∀ i r, rs !! i = Some (Some r) → good_reader lo hi r → rs' !! i = Some (Some r).

Lemma keeps_refl lo hi rs : keeps lo hi rs rs.
Proof. split_and!; auto. Qed.

Lemma keeps_trans lo hi rs rs1 rs2 : keeps lo hi rs rs1 → keeps lo hi rs1 rs2 → keeps lo hi rs rs2.
Proof.
  intros (H1 & H2 & H3) (H4 & H5 & H6). split_and!; [congruence| |eauto]. intros i.
  destruct (H5 i) as [->|?]; [apply H2|by right].
Qed.

Lemma keeps_ok lo hi rs rs' : readers_ok rs → keeps lo hi rs rs' → readers_ok rs'.
Proof.
  intros [Hl Hh] (Hl' & Hi' & _). split; [congruence|]. intros i r Hr. destruct (Hi' i) as [E|E]; rewrite E in Hr; [auto|done].
Qed.

Lemma keeps_enough lo hi rs rs' : keeps lo hi rs rs' → enough_good lo hi rs → enough_good lo hi rs'.
Proof.
  intros (_ & _ & Hk) (gs & Hnd & Hd & Hgs). exists gs. split_and!; [done|done|]. intros i Hi. destruct (Hgs i Hi) as (r & Hr & Hg). eauto.
Qed.

(** The errors that a read reports although it has enough. *)
Definition soft_error (err : option derr) : Prop := err = None ∨ err = Some errFileNotFound ∨ err = Some errFileCorrupt.

(** The parallel reader before block [j]. *)
Definition at_block (j : nat) (p : parallelReader) : Prop :=
  readers_ok (pr_orgReaders p) ∧ pr_dataBlocks p = d ∧ pr_offset p = Z.of_nat j * ShardSize e ∧
  pr_shardSize p = ShardSize e ∧ pr_shardFileSize p = ShardFileSize e (zlen D) ∧
  routes (pr_readers p) (pr_orgReaders p) (pr_readerToBuf p).

(** [Read] with the size of its shards set. *)
Definition sized (p : parallelReader) : parallelReader :=
  if pr_shardFileSize p <? pr_offset p + pr_shardSize p
  then with_shardSize p (pr_shardFileSize p - pr_offset p) else p.

Lemma sized_at j b p :
  B !! j = Some b → at_block j p →
  pr_orgReaders (sized p) = pr_orgReaders p ∧ pr_dataBlocks (sized p) = d ∧ pr_offset (sized p) = Z.of_nat j * ShardSize e ∧
  pr_shardSize (sized p) = ceilFrac (zlen b) d ∧ pr_shardFileSize (sized p) = ShardFileSize e (zlen D) ∧
  routes (pr_readers (sized p)) (pr_orgReaders (sized p)) (pr_readerToBuf (sized p)) ∧ length (pr_readers (sized p)) = n.
Proof.
  intros Hb (Hr & Hd & Ho & Hs & Hf & Hq). apply block_lookup in Hb as (_ & Hlt & _ & Hl).
  pose proof (read_size (Z.of_nat j) ltac:(lia) Hlt) as Hsz. rewrite <- Hl in Hsz. unfold sized.
  assert (length (pr_readers p) = n) by (rewrite <- (ro_length _ _ _ Hq); apply Hr).
  rewrite Hf, Ho, Hs. destruct (_ <? _); cbn; split_and!; try done; congruence.
Qed.

Lemma honest_shard i r j b :
  B !! j = Some b → (i < n)%nat → honest i r →
  (∃ err, r (Z.of_nat j * ShardSize e) (ceilFrac (zlen b) d) = Err err) ∨
  r (Z.of_nat j * ShardSize e) (ceilFrac (zlen b) d) = Ok (shard e i b).
Proof.
  intros Hb Hi Hr. pose proof shard_size_pos. pose proof (ceilFrac_bounds (zlen b) d (zlen_nonneg b) data_pos) as [? _].
  destruct (Hr (Z.of_nat j * ShardSize e) (ceilFrac (zlen b) d)) as [?|Hok]; [lia|lia|by left|right].
  by rewrite file_slice in Hok.
Qed.

Lemma shard_nonempty i j b : B !! j = Some b → (i < n)%nat → shard e i b ≠ [].
Proof.
  intros Hb Hi E. apply block_lookup in Hb as (_ & _ & Hne & _).
  pose proof (shard_length i b Hne Hi) as Hl. rewrite E in Hl. change (zlen []) with 0 in Hl.
  pose proof (zlen_pos b Hne). pose proof (ceilFrac_bounds (zlen b) d). lia.
Qed.

Lemma answers_at j b p : B !! j = Some b → at_block j p → answers (sized p).
Proof.
  intros Hb Hat i r Hr. destruct (sized_at j b p Hb Hat) as (E1 & _ & E3 & E4 & _). rewrite E1 in Hr. rewrite E3, E4.
  destruct Hat as ((Hlen & Hh) & _). pose proof (lookup_lt_Some _ _ _ Hr) as Hi. rewrite Hlen in Hi.
  destruct (honest_shard i r j b Hb Hi (Hh i r Hr)) as [?|Hok]; [by right|left].
  exists (shard e i b). split; [done|by eapply shard_nonempty].
Qed.

Lemma value_at i j b p :
  B !! j = Some b → at_block j p → (i < n)%nat → value (sized p) i = [] ∨ value (sized p) i = shard e i b.
Proof.
  intros Hb Hat Hi. destruct (sized_at j b p Hb Hat) as (E1 & _ & E3 & E4 & _). unfold value, answer. rewrite E1, E3, E4.
  destruct Hat as ((Hlen & Hh) & _). destruct (pr_orgReaders p !! i) as [[r|]|] eqn:Hr; [|by left|by left].
  destruct (honest_shard i r j b Hb Hi (Hh i r Hr)) as [[err ->]| ->]; [by left|by right].
Qed.

Lemma values_partial j b p bufs :
  B !! j = Some b → at_block j p →
  Forall2 (λ v x, x = [] ∨ x = v) (value (sized p) <$> seq 0 n) bufs → partial_of (codeword e b) bufs.
Proof.
  intros Hb Hat Hf. pose proof (block_lookup j b Hb) as (_ & _ & Hne & _).
  destruct (codeword_spec e b Hne) as (z & _ & Hl & _). unfold partial_of.
  pose proof (Forall2_length _ _ _ Hf) as Hlen. rewrite length_fmap, length_seq in Hlen.
  apply Forall2_same_length_lookup_2; [unfold zlen, n in *; lia|]. intros i c x Hc Hx.
  assert (i < n)%nat as Hi by (rewrite Hlen; by eapply lookup_lt_Some).
  destruct (Forall2_lookup_r _ _ _ _ _ Hf Hx) as (v & Hv & Hvx). rewrite list_lookup_fmap in Hv.
  rewrite (proj2 (lookup_seq 0 n i i)) in Hv by lia. injection Hv as <-.
  destruct Hvx as [->| ->]; [by left|]. destruct (value_at i j b p Hb Hat Hi) as [->| ->]; [by left|right].
  unfold shard. by rewrite Hc.
Qed.

Lemma good_enough lo hi j b p :
  lo ≤ Z.of_nat j ≤ hi → B !! j = Some b → at_block j p → enough_good lo hi (pr_orgReaders p) → d ≤ good_count (sized p).
Proof.
  intros Hj Hb Hat (gs & Hnd & Hd & Hgs). etrans; [exact Hd|]. unfold good_count, present.
  destruct (sized_at j b p Hb Hat) as (E1 & _ & E3 & E4 & _ & _ & ->).
  destruct Hat as ((Hlen & Hh) & _).
  set (vs := value (sized p) <$> seq 0 n).
  assert (length (List.filter (λ b, negb (zlen b =? 0)) vs) = count (λ x, x = true) ((λ b, negb (zlen b =? 0)) <$> vs)) as ->.
  { clear. induction vs as [|v vs IH]; [done|]. cbn [List.filter fmap list_fmap]. rewrite count_cons, <- IH.
    destruct (negb (zlen v =? 0)); [rewrite one_if_true by done|rewrite one_if_false by done]; cbn [length]; lia. }
  apply Nat2Z.inj_le, count_positions; [done|]. intros i Hi. destruct (Hgs i Hi) as (r & Hr & Hall).
  pose proof (lookup_lt_Some _ _ _ Hr) as Hin. rewrite Hlen in Hin.
  unfold vs. rewrite !list_lookup_fmap, (proj2 (lookup_seq 0 n i i)) by lia. cbn [fmap option_fmap option_map].
  f_equal. unfold value, answer. rewrite E1, E3, E4, Hr.
  destruct (honest_shard i r j b Hb Hin (Hh i r Hr)) as [[err Herr]|Hok].
  - destruct (Hall j b Hj Hb) as (x & Hx). congruence.
  - rewrite Hok. apply negb_true_iff, Z.eqb_neq. rewrite zlen_nil. by eapply shard_nonempty.
Qed.

Lemma read_keeps lo hi p s j b :
  lo ≤ Z.of_nat j ≤ hi → B !! j = Some b → at_block j p → rd_inv (sized p) s → keeps lo hi (pr_orgReaders p) (rd_org s).
Proof.
  intros Hj Hb Hat Hi. pose proof (sized_at j b p Hb Hat) as (E1 & _ & E3 & E4 & _ & _ & Hn).
  destruct (ri_org _ _ Hi) as [Hro Hleft]. rewrite E1, Hn in Hleft. pose proof (ro_length _ _ _ Hro) as Hlen.
  rewrite (proj1 (ri_readers _ _ Hi)), Hn in Hlen. destruct Hat as ((Hl & Hh) & _). split_and!.
  - congruence.
  - intros i. destruct (decide (i < n)%nat) as [Hlt|Hge].
    + destruct (Hleft i Hlt) as [?|[? _]]; auto.
    + left. rewrite !(proj2 (lookup_ge_None _ _)); [done|lia|lia].
  - intros i r Hr Hall. pose proof (lookup_lt_Some _ _ _ Hr) as Hlt. rewrite Hl in Hlt.
    destruct (Hleft i Hlt) as [->|[_ Hv]]; [done|]. exfalso. unfold value, answer in Hv. rewrite E1, E3, E4, Hr in Hv.
    destruct (honest_shard i r j b Hb Hlt (Hh i r Hr)) as [[err Herr]|Hok].
    + destruct (Hall j b Hj Hb) as (x & Hx). congruence.
    + rewrite Hok in Hv. by eapply shard_nonempty in Hv.
Qed.

Lemma read_block lo hi sched j b p r p' :
  lo ≤ Z.of_nat j ≤ hi → B !! j = Some b → at_block j p → pr_Read sched p = Some (r, p') →
  (∃ bufs err, r = Ok (bufs, err) ∧ soft_error err ∧ partial_of (codeword e b) bufs ∧ d ≤ present bufs ∧
     (zlen b = bs → at_block (S j) p') ∧ keeps lo hi (pr_orgReaders p) (pr_orgReaders p')) ∨
  r = Err errErasureReadQuorum ∧ ¬ enough_good lo hi (pr_orgReaders p).
Proof.
  intros Hj Hb Hat. unfold pr_Read. fold (sized p).
  pose proof (sized_at j b p Hb Hat) as (E1 & E2 & E3 & E4 & E5 & E6 & E7).
  pose proof (block_lookup j b Hb) as (_ & _ & Hne & Hlb). pose proof (zlen_pos b Hne) as Hbpos.
  pose proof (ceilFrac_bounds (zlen b) d ltac:(lia) ltac:(lia)) as (_ & _ & Hcpos).
  rewrite (proj2 (Z.eqb_neq (pr_shardSize (sized p)) 0)) by lia.
  intros (s & Hs & Hr)%bind_Some.
  assert (1 ≤ pr_dataBlocks (sized p)) as Hd1 by (rewrite E2; unfold d; lia).
  pose proof (rd_run_inv (sized p) E6 (answers_at j b p Hb Hat) _ _ _ (rd_start_inv (sized p) E6 Hd1) Hs) as Hi.
  destruct (rd_complete s) eqn:Hc; cbn [negb] in Hr; [|done].
  destruct (rd_complete_spec (sized p) E6 s Hi Hc) as [Hcd Hbufs]. rewrite Hcd, E2 in Hr. rewrite E7 in Hbufs.
  pose proof (read_keeps lo hi p s j b Hj Hb Hat Hi) as Hkeeps.
  destruct (Z.leb_spec d (good_count (sized p))) as [Hd|Hd].
  - left. injection Hr as <- <-. do 2 eexists. split; [done|]. split_and!.
    + unfold soft_error. destruct (rd_missing s), (rd_corrupt s); auto.
    + by apply (values_partial j b p).
    + rewrite E2 in Hcd. unfold canDecode in Hcd. rewrite (proj2 (Z.leb_le _ _) Hd) in Hcd. by apply Z.leb_le.
    + intros Hfull. split_and!; cbn; try done; [by eapply keeps_ok; [apply Hat|]| | |apply (ri_org _ _ Hi)].
      * rewrite E3, E4, Hfull. unfold ShardSize. fold bs d. lia.
      * rewrite E4, Hfull. done.
    + done.
  - right. injection Hr as <- <-. split; [done|]. intros Hg. pose proof (good_enough lo hi j b p Hj Hb Hat Hg). lia.
Qed.

Lemma read_ends j b p : B !! j = Some b → at_block j p → ∃ sched r p', pr_Read sched p = Some (r, p').
Proof.
  intros Hb Hat. pose proof (sized_at j b p Hb Hat) as (E1 & E2 & E3 & E4 & E5 & E6 & E7).
  pose proof (block_lookup j b Hb) as (_ & _ & Hne & Hlb). pose proof (zlen_pos b Hne) as Hbpos.
  pose proof (ceilFrac_bounds (zlen b) d ltac:(lia) ltac:(lia)) as (_ & _ & Hcpos).
  assert (1 ≤ pr_dataBlocks (sized p)) as Hd1 by (rewrite E2; unfold d; lia).
  destruct (rd_ends (sized p) E6 (answers_at j b p Hb Hat) _ (rd_start_inv (sized p) E6 Hd1)) as (evs & s & Hs & Hc).
  exists evs. unfold pr_Read. fold (sized p). rewrite (proj2 (Z.eqb_neq (pr_shardSize (sized p)) 0)) by lia.
  rewrite Hs. cbn [mbind option_bind]. rewrite Hc. cbn [negb]. destruct (canDecode _ _); by do 2 eexists.
Qed.

(** *** Reconstruction *)

Lemma present_all (bufs : list bytes) : existsb (λ b, zlen b =? 0) bufs = false → Forall (λ b, b ≠ []) bufs.
Proof.
  induction bufs as [|b bufs IH]; cbn [existsb]; [constructor|]. intros Hx. apply orb_false_iff in Hx as [Hb Hx].
  constructor; [|auto]. intros ->. done.
Qed.

Lemma decode_block b bufs :
  b ≠ [] → partial_of (codeword e b) bufs → d ≤ present bufs →
  ∃ bufs', DecodeDataBlocks e bufs = Ok bufs' ∧ zlen bufs' = dataBlocks e + parityBlocks e ∧
    take (Z.to_nat d) bufs' = take (Z.to_nat d) (codeword e b).
Proof.
  intros Hb Hp Hd. destruct (rs_split_ok b Hb) as (shards & z & Hs & _).
  destruct (rs_encode_ok b shards Hb Hs) as (cw & Hcw & Hl & _).
  assert (codeword e b = cw) as Hcode.
  { unfold codeword, EncodeData. rewrite (proj2 (Z.eqb_neq _ 0)) by (by rewrite zlen_nil). by rewrite Hs; cbn; rewrite Hcw. }
  rewrite Hcode in *. pose proof (Forall2_length _ _ _ Hp) as Hlen. unfold DecodeDataBlocks.
  destruct (existsb (λ b, zlen b =? 0) bufs) eqn:Hx.
  - rewrite (proj2 (Z.eqb_neq 1 (zlen bufs))) by (unfold zlen in *; lia). cbn [orb Z.eqb Pos.eqb].
    by apply (rs_reconstruct_data b shards cw bufs).
  - exists bufs. split; [done|]. assert (bufs = cw) as ->; [|done].
    apply present_all in Hx. clear -Hp Hx. induction Hp as [|c x cw bufs Hc _ IH]; [done|].
    apply Forall_cons in Hx as [Hne Hx]. destruct Hc as [->| ->]; [done|]. by rewrite IH.
Qed.

Lemma write_block b bufs off len :
  b ≠ [] → zlen bufs = dataBlocks e + parityBlocks e → take (Z.to_nat d) bufs = take (Z.to_nat d) (codeword e b) →
  0 ≤ off → 0 ≤ len → off + len ≤ zlen b → writeDataBlocks bufs d off len = Ok (slice b off len).
Proof.
  intros Hb Hl Ht Ho Hn Hle. destruct (codeword_spec e b Hb) as (z & _ & _ & _ & Hc). fold d in Hc.
  unfold writeDataBlocks. rewrite (proj2 (Z.ltb_ge off 0)), (proj2 (Z.ltb_ge len 0)) by lia. cbn [orb].
  rewrite (proj2 (Z.ltb_ge (zlen bufs) d)) by (unfold d; lia). rewrite getDataBlockLen_concat, Ht, Hc.
  rewrite (proj2 (Z.ltb_ge _ len)) by (rewrite zlen_app; pose proof (zlen_nonneg z); lia).
  rewrite write_blocks_slice, Hc, slice_app_l by lia. done.
Qed.

(** *** The range *)

Section Range.
Context (offset len : Z).
Hypothesis Hoff : 0 ≤ offset.
Hypothesis Hlen : 0 < len.
Hypothesis Hin : offset + len ≤ zlen D.

Let S0 := offset / bs.
Let E0 := (offset + len) / bs.

(** How much of the range comes before block [j]. *)
Definition covered (j : Z) : Z := Z.max 0 (Z.min (j * bs) (offset + len) - offset).

Lemma range_arith j bo bl :
  S0 ≤ j ≤ E0 → block_range e offset len S0 E0 j = (bo, bl) →
  (bl = 0 → covered j = len) ∧
  (bl ≠ 0 → 0 ≤ bo ∧ 0 < bl ∧ bo + bl ≤ bs ∧ j * bs + bo + bl ≤ offset + len ∧ j * bs + bo = offset + covered j ∧
            covered (j + 1) = covered j + bl).
Proof.
  intros Hj. unfold block_range. rewrite !Z.rem_mod_nonneg by lia. fold bs.
  pose proof (Z.div_mod offset bs ltac:(lia)) as Ho. pose proof (Z.mod_pos_bound offset bs ltac:(lia)) as Hom.
  pose proof (Z.div_mod (offset + len) bs ltac:(lia)) as He. pose proof (Z.mod_pos_bound (offset + len) bs ltac:(lia)) as Hem.
  fold S0 in Ho. fold E0 in He. unfold covered.
  destruct (Z.eqb_spec S0 E0); [|destruct (Z.eqb_spec j S0); [|destruct (Z.eqb_spec j E0)]]; intros [= <- <-].
  - assert (j = S0) as -> by lia. split; [lia|]. intros _. nia.
  - subst j. split; [lia|]. intros _. nia.
  - subst j. assert (S0 * bs + bs ≤ E0 * bs) by nia. split; [|intros Hne; rewrite Z.mul_add_distr_r]; lia.
  - assert (S0 * bs + bs ≤ j * bs ∧ j * bs + bs ≤ E0 * bs) by nia. split; [lia|]. intros _. rewrite Z.mul_add_distr_r. lia.
Qed.

Lemma covered_start : covered S0 = 0.
Proof. unfold covered. pose proof (Z.mul_div_le offset bs ltac:(lia)). fold S0 in H1. lia. Qed.

Lemma covered_end : covered (E0 + 1) = len.
Proof. unfold covered. pose proof (Z.mul_succ_div_gt (offset + len) bs ltac:(lia)). fold E0 in H1. lia. Qed.

Lemma covered_bounds j : 0 ≤ covered j ≤ len.
Proof. unfold covered. lia. Qed.

(** What the loop has written when it ends. *)
Definition loop_result (p p' : parallelReader) (r : outcome derr (option derr)) (out : bytes) : Prop :=
  (∃ de, r = Ok de ∧ soft_error de) ∧ out = slice D offset len ∧
    keeps S0 E0 (pr_orgReaders p) (pr_orgReaders p') ∨
  r = Err errErasureReadQuorum ∧ ¬ enough_good S0 E0 (pr_orgReaders p) ∧ ∃ m, 0 ≤ m ≤ len ∧ out = slice D offset m.

Lemma decode_step scheds blocks j p out de b bo bl bufs err p' :
  B !! j = Some b → block_range e offset len S0 E0 (Z.of_nat j) = (bo, bl) → bl ≠ 0 → 0 ≤ bo → 0 ≤ bl → bo + bl ≤ zlen b →
  pr_Read (scheds (Z.of_nat j)) p = Some (Ok (bufs, err), p') → partial_of (codeword e b) bufs → d ≤ present bufs →
  decode_loop scheds (S blocks) e offset len S0 E0 (Z.of_nat j) p out de =
    decode_loop scheds blocks e offset len S0 E0 (Z.of_nat (S j)) p' (out ++ slice b bo bl) (match de with None => err | _ => de end).
Proof.
  intros Hb Hr Hbl Hbo Hbl0 Hle Hread Hpart Hpres. pose proof (block_lookup j b Hb) as (_ & _ & Hne & _).
  destruct (decode_block b bufs Hne Hpart Hpres) as (bufs' & Hd & Hl & Ht).
  cbn [decode_loop]. rewrite Hr, (proj2 (Z.eqb_neq bl 0)) by done. rewrite Hread. cbn [mbind option_bind].
  rewrite Hd. change (dataBlocks e) with d. rewrite (write_block b bufs' bo bl) by done.
  by rewrite Nat2Z.inj_succ.
Qed.

(** The block of a step. *)
Lemma range_block j bo bl :
  S0 ≤ Z.of_nat j ≤ E0 → block_range e offset len S0 E0 (Z.of_nat j) = (bo, bl) → bl ≠ 0 →
  ∃ b, B !! j = Some b ∧ bo + bl ≤ zlen b ∧ slice b bo bl = slice D (offset + covered (Z.of_nat j)) bl ∧
    (Z.of_nat j < E0 → zlen b = bs).
Proof.
  intros Hj Hr Hbl. destruct (range_arith (Z.of_nat j) bo bl Hj Hr) as [_ Hf].
  destruct (Hf Hbl) as (Hbo & Hbl0 & Hle & Hend & Heq & _). clear Hf.
  assert (B !! j = Some (slice D (Z.of_nat j * bs) bs)) as Hb.
  { unfold B. rewrite chunks_lookup by done. by rewrite decide_True by lia. }
  pose proof (block_lookup j _ Hb) as (_ & _ & _ & Hlb). eexists. split_and!; [done|lia| |].
  - rewrite slice_slice by (unfold bs in *; nia). by rewrite Heq.
  - intros Hlt. rewrite Hlb. pose proof (Z.mul_div_le (offset + len) bs ltac:(lia)) as Hm. fold E0 in Hm. nia.
Qed.

Lemma decode_loop_spec scheds blocks j p out de r out' p' :
  S0 ≤ Z.of_nat j ≤ E0 + 1 → Z.of_nat blocks = E0 + 1 - Z.of_nat j → (Z.of_nat j ≤ E0 → at_block j p) →
  out = slice D offset (covered (Z.of_nat j)) → soft_error de →
  decode_loop scheds blocks e offset len S0 E0 (Z.of_nat j) p out de = Some (r, out', p') → loop_result p p' r out'.
Proof.
  revert j p out de. induction blocks as [|blocks IH]; intros j p out de Hj Hk Hat Hout Hsoft.
  { intros [= <- <- <-]. left. split_and!; [by eexists| |apply keeps_refl]. rewrite Hout. f_equal.
    replace (Z.of_nat j) with (E0 + 1) by lia. apply covered_end. }
  destruct (block_range e offset len S0 E0 (Z.of_nat j)) as [bo bl] eqn:Hr.
  assert (S0 ≤ Z.of_nat j ≤ E0) as Hj' by lia. destruct (range_arith _ bo bl Hj' Hr) as [Hz Hf].
  destruct (Z.eq_dec bl 0) as [->|Hbl].
  { cbn [decode_loop]. rewrite Hr. cbn [Z.eqb]. intros [= <- <- <-]. left. split_and!; [by eexists|by rewrite Hout, Hz|apply keeps_refl]. }
  destruct (Hf Hbl) as (Hbo & Hbl0 & _ & _ & _ & Hcov). destruct (range_block j bo bl Hj' Hr Hbl) as (b & Hb & Hle & Hsl & Hfull).
  destruct (pr_Read (scheds (Z.of_nat j)) p) as [[r1 p1]|] eqn:Hread;
    [|cbn [decode_loop]; rewrite Hr, (proj2 (Z.eqb_neq bl 0)), Hread by done; done].
  destruct (read_block S0 E0 _ j b p r1 p1 Hj' Hb (Hat (proj2 Hj')) Hread)
    as [(bufs & err & -> & Herr & Hpart & Hpres & Hnext & Hkeeps)|[-> Hbad]].
  - rewrite (decode_step _ _ _ _ _ _ b bo bl bufs err p1) by (try done; lia). intros Hloop.
    destruct (IH (S j) p1 (out ++ slice b bo bl) (match de with None => err | _ => de end)) as [(Hok & Hs & Hk')|(? & Hng & ?)];
      try done; [lia|lia| | |by destruct de| |].
    + intros Hlt. apply Hnext, Hfull. lia.
    + rewrite Hout, Hsl. pose proof (covered_bounds (Z.of_nat j)). rewrite slice_app_seq by lia. f_equal.
      rewrite Nat2Z.inj_succ. unfold Z.succ. by rewrite Hcov.
    + left. split_and!; [done|done|by eapply keeps_trans].
    + right. split_and!; [done| |done]. intros Hg. by eapply Hng, keeps_enough.
  - cbn [decode_loop]. rewrite Hr, (proj2 (Z.eqb_neq bl 0)), Hread by done. cbn [mbind option_bind].
    intros [= <- <- <-]. right. split_and!; [done|done|]. exists (covered (Z.of_nat j)). split; [apply covered_bounds|done].
Qed.

(** Some schedules end the loop. *)
Lemma decode_loop_ext scheds scheds' blocks j p out de :
  (∀ i, j ≤ i → scheds i = scheds' i) →
  decode_loop scheds blocks e offset len S0 E0 j p out de = decode_loop scheds' blocks e offset len S0 E0 j p out de.
Proof.
  revert j p out de. induction blocks as [|blocks IH]; intros j p out de Heq; [done|]. cbn [decode_loop].
  destruct (block_range _ _ _ _ _ _) as [bo bl]. destruct (bl =? 0); [done|]. rewrite (Heq j) by lia.
  destruct (pr_Read (scheds' j) p) as [[[[bufs err]|err|w] p1]|]; cbn [mbind option_bind]; try done.
  destruct (DecodeDataBlocks e bufs) as [bufs'|?|?]; [|done|done].
  destruct (writeDataBlocks _ _ _ _) as [w|?|?]; [|done|done]. apply IH. intros i Hi. apply Heq. lia.
Qed.

Lemma decode_loop_ends blocks j p out de :
  S0 ≤ Z.of_nat j ≤ E0 + 1 → Z.of_nat blocks = E0 + 1 - Z.of_nat j → (Z.of_nat j ≤ E0 → at_block j p) →
  ∃ scheds, is_Some (decode_loop scheds blocks e offset len S0 E0 (Z.of_nat j) p out de).
Proof.
  revert j p out de. induction blocks as [|blocks IH]; intros j p out de Hj Hk Hat; [by exists (λ _, [])|].
  destruct (block_range e offset len S0 E0 (Z.of_nat j)) as [bo bl] eqn:Hr.
  assert (S0 ≤ Z.of_nat j ≤ E0) as Hj' by lia. destruct (range_arith _ bo bl Hj' Hr) as [_ Hf].
  destruct (Z.eq_dec bl 0) as [->|Hbl]; [exists (λ _, []); cbn [decode_loop]; by rewrite Hr|].
  destruct (Hf Hbl) as (Hbo & Hbl0 & _). destruct (range_block j bo bl Hj' Hr Hbl) as (b & Hb & Hle & _ & Hfull).
  destruct (read_ends j b p Hb (Hat (proj2 Hj'))) as (sched & r1 & p1 & Hread).
  destruct (read_block S0 E0 _ j b p r1 p1 Hj' Hb (Hat (proj2 Hj')) Hread) as [(bufs & err & -> & _ & Hpart & Hpres & Hnext & _)|[-> _]].
  - pose (here := λ (later : Z → list rd_event) i, if i =? Z.of_nat j then sched else later i).
    assert (∀ later, pr_Read (here later (Z.of_nat j)) p = Some (Ok (bufs, err), p1)) as Hhere.
    { intros later. unfold here. by rewrite Z.eqb_refl. }
    destruct (IH (S j) p1 (out ++ slice b bo bl) (match de with None => err | _ => de end)) as (later & Hlater); [lia|lia|intros Hlt; apply Hnext, Hfull; lia|].
    exists (here later). rewrite (decode_step _ _ _ _ _ _ b bo bl bufs err p1) by (try done; lia).
    rewrite (decode_loop_ext _ later); [done|]. intros i Hi. unfold here. by rewrite (proj2 (Z.eqb_neq i _)) by lia.
  - exists (λ _, sched). cbn [decode_loop]. rewrite Hr, (proj2 (Z.eqb_neq bl 0)), Hread by done. done.
Qed.

End Range.

(** *** [Decode] *)

Section Decoded.
Context (readers : list (option reader)) (offset len : Z) (prefer : list bool).
Hypothesis Hreaders : readers_ok readers.
Hypothesis Hprefer : uniform readers prefer.
Hypothesis Hoff : 0 ≤ offset.
Hypothesis Hlen : 0 ≤ len.
Hypothesis Hin : offset + len ≤ zlen D.
Hypothesis Hwidth : zlen D < 2 ^ 63.

(** The parallel reader that [Decode] starts with. *)
Definition first_reader : parallelReader :=
  let p := newParallelReader readers e offset (zlen D) in
  if (List.length prefer =? List.length readers)%nat then preferReaders prefer p else p.

Lemma first_routes :
  pr_orgReaders first_reader = readers ∧ routes (pr_readers first_reader) readers (pr_readerToBuf first_reader) ∧
  pr_dataBlocks first_reader = d ∧ pr_offset first_reader = offset `quot` bs * ShardSize e ∧
  pr_shardSize first_reader = ShardSize e ∧ pr_shardFileSize first_reader = ShardFileSize e (zlen D).
Proof.
  unfold first_reader, preferReaders. destruct (Nat.eqb_spec (length prefer) (length readers)) as [Hl|Hl].
  2: { cbn. split_and!; try done. apply routes_refl. }
  cbn [newParallelReader pr_orgReaders pr_readerToBuf]. rewrite (proj2 (Nat.eqb_eq _ _) Hl). cbn [negb].
  destruct Hprefer as [?|[Hnone|Hall]]; [done| |].
  - rewrite prefer_none by done. cbn. split_and!; try done. apply routes_refl.
  - pose proof (packed_routes _ _ (prefer_all readers prefer Hl Hall)) as Hr.
    destruct (foldl _ _ _) as [[rs r2b] next]. by cbn in *.
Qed.

Lemma start_block : at_block (Z.to_nat (offset / bs)) first_reader.
Proof.
  assert (0 ≤ offset / bs) by (apply Z.div_pos; lia). destruct first_routes as (E1 & E2 & E3 & E4 & E5 & E6).
  split_and!; rewrite ?E1; try done. rewrite E4, Z.quot_div_nonneg by lia. by rewrite Z2Nat.id by lia.
Qed.

Lemma Decode_unfold scheds :
  len ≠ 0 →
  Decode scheds e readers offset len (zlen D) prefer =
    '(r, out, p) ← decode_loop scheds (Z.to_nat ((offset + len) / bs - offset / bs + 1)) e offset len (offset / bs) ((offset + len) / bs)
                     (Z.of_nat (Z.to_nat (offset / bs))) first_reader [] None;
    Some (match r with Ok derror => if negb (zlen out =? len) then Err errLessData else Ok derror | r => r end, out, pr_orgReaders p).
Proof.
  intros Hne. unfold Decode. rewrite (proj2 (Z.ltb_ge offset 0)), (proj2 (Z.ltb_ge len 0)) by done. cbn [orb].
  int64. rewrite (proj2 (Z.ltb_ge _ _)), (proj2 (Z.eqb_neq len 0)) by done.
  rewrite !Z.quot_div_nonneg by lia. fold first_reader.
  rewrite Z2Nat.id by (apply Z.div_pos; lia). done.
Qed.

Lemma range_blocks : offset / bs ≤ (offset + len) / bs ∧ 0 ≤ offset / bs.
Proof. split; [apply Z.div_le_mono; lia|apply Z.div_pos; lia]. Qed.

Lemma slice_zlen (l : bytes) o n' : 0 ≤ o → 0 ≤ n' → o + n' ≤ zlen l → zlen (slice l o n') = n'.
Proof. unfold slice, zlen. rewrite length_take, length_drop. lia. Qed.

Lemma Decode_spec scheds r out rs' :
  Decode scheds e readers offset len (zlen D) prefer = Some (r, out, rs') →
  (∃ de, r = Ok de ∧ soft_error de) ∧ out = slice D offset len ∧ keeps (offset / bs) ((offset + len) / bs) readers rs' ∨
  r = Err errErasureReadQuorum ∧ ¬ enough_good (offset / bs) ((offset + len) / bs) readers ∧ ∃ m, 0 ≤ m ≤ len ∧ out = slice D offset m.
Proof.
  destruct (Z.eq_dec len 0) as [->|Hne].
  { unfold Decode. rewrite (proj2 (Z.ltb_ge offset 0)) by done. cbn [orb Z.ltb Z.compare].
    int64; rewrite (proj2 (Z.ltb_ge _ _)) by lia. intros [= <- <- <-]. left. split_and!; [exists None; split; [done|by left]|done|apply keeps_refl]. }
  rewrite Decode_unfold by done. pose proof range_blocks as [Hse Hs0]. intros ([[r1 out1] p1] & Hloop & Hres)%bind_Some.
  injection Hres as <- <- <-. eapply (decode_loop_spec offset len) in Hloop; try done; try lia.
  - rewrite <- (proj1 first_routes). destruct Hloop as [((de & -> & Hsoft) & -> & Hk)|(-> & Hng & Hm)]; [left|by right].
    rewrite slice_zlen, Z.eqb_refl by lia. split_and!; [by eexists|done|done].
  - intros _. apply start_block.
  - rewrite Z2Nat.id, covered_start by lia. done.
  - by left.
Qed.

Lemma Decode_ends : ∃ scheds, is_Some (Decode scheds e readers offset len (zlen D) prefer).
Proof.
  destruct (Z.eq_dec len 0) as [->|Hne].
  { exists (λ _, []). unfold Decode. rewrite (proj2 (Z.ltb_ge offset 0)) by done. cbn [orb Z.ltb Z.compare].
    int64; by rewrite (proj2 (Z.ltb_ge _ _)) by lia. }
  pose proof range_blocks as [Hse Hs0].
  destruct (decode_loop_ends offset len) with (blocks := Z.to_nat ((offset + len) / bs - offset / bs + 1))
    (j := Z.to_nat (offset / bs)) (p := first_reader) (out := @nil Byte.byte) (de := @None derr)
    as (scheds & [[[r out] p] Hp]); try lia; [intros _; apply start_block|].
  exists scheds. rewrite Decode_unfold, Hp by done. by eexists.
Qed.

End Decoded.

End ReadBack.
