(* ===== verification/ErasureStore.v ===== *)
(** * Erasure-coded objects: written, read, healed (cmd/erasure-decode.go, cmd/erasure-encode.go)

    [Heal] reads the shards of a part from the drives that have it and writes all of
    them, block after block, to the drives that do not. What [Encode] has written
    can be read back from any drives that are as many as the data blocks, and a
    drive that has been healed has the file that was lost. *)

From Stdlib Require Import ZArith Lia Bool.
From S2P Require Import Prelude ErasureErrs Erasure ErasureRead.

Local Open Scope go_scope.
Local Open Scope Z_scope.

(** ** [Heal] *)

Section HealDef.
Context `{ReedSolomon}.

(** The loop over the blocks; [net] are the failures of the writers, block by block. The
    errors of [parallelWriter] are new in every block, the writers are not. *)
Fixpoint heal_loop walk (scheds : Z → list rd_event) (net : nat → nat → option (option derr)) (blocks : nat) (e : Erasure)
    (block : nat) (p : parallelReader) (writers : list (option bytes)) (derror : option derr)
    : option (outcome derr (option derr) * list (option bytes)) :=
  match blocks with
  | O => Some (Ok derror, writers)
  | S blocks =>
      '(r, p) ← pr_Read (scheds (Z.of_nat block)) p;
      match r with
      | Err err => Some (Err err, writers)
      | Panic w => Some (Panic w, writers)
      | Ok (bufs, err) =>
          let derror := match derror with None => err | _ => derror end in
          match DecodeDataAndParityBlocks e bufs with
          | Ok bufs =>
              match pw_Write walk (net block) 1 (mkPW writers (replicate (length writers) None)) bufs with
              | (Ok _, w) => heal_loop walk scheds net blocks e (S block) p (pw_writers w) derror
              | (Err err, w) => Some (Err err, pw_writers w)
              | (Panic x, w) => Some (Panic x, pw_writers w)
              end
          | Err err => Some (Err err, writers)
          | Panic w => Some (Panic w, writers)
          end
      end
  end.

Definition Heal walk (scheds : Z → list rd_event) (net : nat → nat → option (option derr)) (e : Erasure)
    (writers : list (option bytes)) (readers : list (option reader)) (totalLength : Z)
    : option (outcome derr (option derr) * list (option bytes)) :=
  if negb (zlen writers =? parityBlocks e + dataBlocks e) then Some (Err errInvalidArgument, writers)
  else
    let reader := newParallelReader readers e 0 totalLength in
    let endBlock := totalLength `quot` blockSize e in
    let endBlock := if negb (totalLength `rem` blockSize e =? 0) then endBlock + 1 else endBlock in
    heal_loop walk scheds net (Z.to_nat endBlock) e 0 reader writers None.

End HealDef.

(** ** Files and their readers *)

(** A reader gives the bytes of the file or an error. *)
Definition reads (s : bytes) (r : reader) : Prop :=
  ∀ off len, 0 ≤ off → 0 ≤ len → (∃ err, r off len = Err err) ∨ r off len = Ok (slice s off len).

(** Every reader is one of a file that was written without an error. *)
Definition reads_stored (n : nat) (w : parallelWriter) (readers : list (option reader)) : Prop :=
  length readers = n ∧ ∀ i r, readers !! i = Some (Some r) → ∃ s, intact w i s ∧ reads s r.

Section Store.
Context (e : Erasure) `{ReedSolomonLaws (dataBlocks e) (parityBlocks e)}.
Context (walk : list (option derr * Z) → list (option derr * Z)).
Hypothesis walk_ok : map_walk walk.
Hypothesis data_pos : 0 < dataBlocks e.
Hypothesis parity_pos : 0 < parityBlocks e.
Hypothesis block_pos : 0 < blockSize e.

Let n := Z.to_nat (dataBlocks e + parityBlocks e).

(** What [Encode] leaves on the drives. *)
Lemma Encode_spec net D rerr quorum r w :
  Encode walk net e D rerr (replicate n (Some [])) (blockSize e) quorum = (r, w) →
  (∀ x, r ≠ Panic x) ∧
  (∀ t, r = Ok t → t = zlen D ∧ rerr = None ∧ quorum ≤ countErrs (pw_errs w) None ∧ ∀ i s, intact w i s → s = shard_file e D i) ∧
  (∀ err, r = Err err → rerr = Some err ∨ countErrs (pw_errs w) None < quorum) ∧
  (∀ i, (i < n)%nat → (∀ k, net k i = None) → ∃ s, intact w i s).
Proof.
  intros He. apply (encode_loop_spec e) in He as (H1 & H2 & H3 & H4 & H5); [|done|done|done|lia|].
  2: { unfold pw_wf. cbn. by rewrite !length_replicate. }
  split_and!; [done| |done|].
  - intros t Ht. destruct (H4 t Ht) as (-> & Hr & Hq & Hs). split_and!; [lia|done|by apply Hq; left|].
    intros i s Hi. destruct (Hs i s Hi) as (s0 & [Hs0 _] & ->). cbn in Hs0. by apply lookup_replicate in Hs0 as [[= ->] _].
  - intros i Hi Hn. apply (H3 i []); [|done]. split; cbn; apply lookup_replicate_2; rewrite ?length_replicate; done.
Qed.

Lemma stored_readers net D rerr quorum t w readers :
  Encode walk net e D rerr (replicate n (Some [])) (blockSize e) quorum = (Ok t, w) →
  reads_stored n w readers → readers_ok e D readers.
Proof.
  intros He [Hl Hr]. destruct (Encode_spec _ _ _ _ _ _ He) as (_ & Hok & _). destruct (Hok t eq_refl) as (_ & _ & _ & Hs).
  split; [done|]. intros i r Hi. destruct (Hr i r Hi) as (s & Hint & Hreads). intros off len.
  rewrite <- (Hs i s Hint). apply Hreads.
Qed.

(** *** Healing *)

Lemma codeword_whole b bufs :
  b ≠ [] → partial_of (codeword e b) bufs → dataBlocks e ≤ present bufs → DecodeDataAndParityBlocks e bufs = Ok (codeword e b).
Proof.
  intros Hb Hp Hd. destruct (rs_split_ok b Hb) as (shards & z & Hs & _).
  destruct (rs_encode_ok b shards Hb Hs) as (cw & Hcw & _).
  assert (codeword e b = cw) as Hcode.
  { unfold codeword, EncodeData. rewrite (proj2 (Z.eqb_neq _ 0)) by (by rewrite zlen_nil). by rewrite Hs; cbn; rewrite Hcw. }
  rewrite Hcode in *. by apply (rs_reconstruct b shards).
Qed.

(** One block is written: a writer that fails is given up. *)
Lemma heal_write fails writers b r w :
  pw_Write walk fails 1 (mkPW writers (replicate (length writers) None)) (codeword e b) = (r, w) →
  length (pw_writers w) = length writers ∧
  (∀ i s', pw_writers w !! i = Some (Some s') ↔ ∃ s, writers !! i = Some (Some s) ∧ fails i = None ∧ s' = s ++ shard e i b) ∧
  ((∃ i s', pw_writers w !! i = Some (Some s')) → r = Ok ()).
Proof.
  intros Hw. assert (pw_wf (mkPW writers (replicate (length writers) None))) as Hwf by (unfold pw_wf; cbn; by rewrite length_replicate).
  pose proof Hw as Hdef. destruct (pw_Write_spec e walk _ _ _ _ _ _ Hwf Hw) as (Hwf' & Hint & Hok).
  assert (w = let rs := imap (λ i w, pw_write1 fails i w (default None (replicate (length writers) None !! i)) (default [] (codeword e b !! i))) writers
              in mkPW rs.*1 rs.*2) as Hw'.
  { unfold pw_Write in Hdef. cbn [pw_writers pw_errs] in Hdef. destruct (_ <=? _); [by injection Hdef as _ <-|].
    destruct (reduceWriteQuorumErrs _ _ _ _); by injection Hdef as _ <-. }
  assert (∀ i s', pw_writers w !! i = Some (Some s') → intact w i s') as Hclean.
  { intros i s' Hi. split; [done|]. rewrite Hw' in Hi |- *. cbv zeta in Hi |- *. cbn [pw_writers pw_errs] in Hi |- *.
    rewrite list_lookup_fmap, list_lookup_imap in Hi. rewrite list_lookup_fmap, list_lookup_imap.
    destruct (writers !! i) as [x|] eqn:Hx; [|done]. cbn in Hi |- *. injection Hi as Hi. f_equal.
    revert Hi. rewrite lookup_replicate_2 by (by eapply lookup_lt_Some). unfold pw_write1. cbn.
    destruct x; [|done]. by destruct (fails i) as [[?|]|]. }
  split_and!; [rewrite Hw'; cbn; by rewrite length_fmap, length_imap| |].
  - intros i s'. split.
    + intros Hi%Hclean%Hint. destruct Hi as (s & [Hs _] & ? & ->). by exists s.
    + intros (s & Hs & Hf & ->). apply (proj2 (Hint i _)). exists s. split_and!; [|done|done]. split; [done|].
      cbn. apply lookup_replicate_2. by eapply lookup_lt_Some.
  - intros (i & s' & Hi). apply Hok. apply Hclean in Hi as [_ Herr]. unfold countErrs.
    erewrite count_delete by done. rewrite one_if_true by done. lia.
Qed.

Section HealLoop.
Context (D : bytes) (net : nat → nat → option (option derr)).
Let B := chunks (blockSize e) D.

(** The writers when the blocks from [j] on have been written. *)
Definition healed (j : nat) (writers writers' : list (option bytes)) : Prop :=
  (∀ i s', writers' !! i = Some (Some s') → ∃ s, writers !! i = Some (Some s) ∧ s' = s ++ shard_stream e i (drop j B)) ∧
  (∀ i s, writers !! i = Some (Some s) → (∀ k, net k i = None) → ∃ s', writers' !! i = Some (Some s')).

Lemma block_index j b : B !! j = Some b → 0 ≤ Z.of_nat j ≤ zlen D / blockSize e.
Proof.
  intros Hb. pose proof (block_lookup e D data_pos parity_pos block_pos j b Hb) as (_ & Hlt & _). split; [lia|].
  apply Z.div_le_lower_bound; lia.
Qed.

Lemma heal_step scheds blocks j b p writers de bufs err p' :
  B !! j = Some b → pr_Read (scheds (Z.of_nat j)) p = Some (Ok (bufs, err), p') →
  partial_of (codeword e b) bufs → dataBlocks e ≤ present bufs →
  ∃ r w, pw_Write walk (net j) 1 (mkPW writers (replicate (length writers) None)) (codeword e b) = (r, w) ∧
  heal_loop walk scheds net (S blocks) e j p writers de =
    match r with
    | Ok _ => heal_loop walk scheds net blocks e (S j) p' (pw_writers w) (match de with None => err | _ => de end)
    | Err err => Some (Err err, pw_writers w)
    | Panic x => Some (Panic x, pw_writers w)
    end.
Proof.
  intros Hb Hread Hpart Hpres. pose proof (block_lookup e D data_pos parity_pos block_pos j b Hb) as (_ & _ & Hne & _).
  destruct (pw_Write walk (net j) 1 (mkPW writers (replicate (length writers) None)) (codeword e b)) as [r w] eqn:Hw.
  exists r, w. split; [done|]. cbn [heal_loop]. rewrite Hread. cbn [mbind option_bind].
  rewrite (codeword_whole b) by done. rewrite Hw. by destruct r.
Qed.

Lemma heal_loop_spec scheds blocks j p writers de r writers' :
  (j + blocks = length B)%nat → (blocks ≠ O → at_block e D j p) →
  heal_loop walk scheds net blocks e j p writers de = Some (r, writers') →
  (∀ x, r ≠ Panic x) ∧
  (∀ x, r = Ok x → healed j writers writers') ∧
  (∀ err, r = Err err → err = errErasureReadQuorum ∧ ¬ enough_good e D 0 (zlen D / blockSize e) (pr_orgReaders p) ∨ ∀ i s, writers !! i = Some (Some s) → ∃ k, net k i ≠ None).
Proof.
  revert j p writers de. induction blocks as [|blocks IH]; intros j p writers de Hj Hat.
  { intros [= <- <-]. split_and!; [done| |done]. intros _ _. split; [|by eauto]. intros i s Hs. exists s. split; [done|].
    rewrite drop_ge by lia. unfold shard_stream. cbn. by rewrite app_nil_r. }
  destruct (lookup_lt_is_Some_2 B j) as [b Hb]; [lia|]. specialize (Hat ltac:(lia)).
  destruct (pr_Read (scheds (Z.of_nat j)) p) as [[r1 p1]|] eqn:Hread; [|cbn [heal_loop]; by rewrite Hread].
  destruct (read_block e D data_pos parity_pos block_pos 0 (zlen D / blockSize e) _ j b p r1 p1 (block_index j b Hb) Hb Hat Hread) as [(bufs & err & -> & _ & Hpart & Hpres & Hnext & Hkeeps)|[-> Hbad]].
  2: { cbn [heal_loop]. rewrite Hread. intros [= <- <-]. split_and!; [done|done|]. intros err [= <-]. by left. }
  destruct (heal_step scheds blocks j b p writers de bufs err p1 Hb Hread Hpart Hpres) as (r2 & w & Hw & ->).
  destruct (heal_write _ _ _ _ _ Hw) as (Hlen & Hint & Hok).
  assert (∀ i s, writers !! i = Some (Some s) → (∀ k, net k i = None) → r2 = Ok ()) as Hok'.
  { intros i s Hs Hn. apply Hok. exists i, (s ++ shard e i b). apply Hint. exists s. by rewrite Hn. }
  destruct r2 as [[]|er|x]; [| |by apply pw_Write_total in Hw].
  - intros Hloop. apply IH in Hloop as (H1 & H2 & H3); [|lia|].
    2: { intros Hne. apply Hnext. destruct (lookup_lt_is_Some_2 B (S j)) as [b' Hb']; [lia|].
         pose proof (block_lookup e D data_pos parity_pos block_pos _ _ Hb) as (_ & _ & _ & ->).
         pose proof (block_lookup e D data_pos parity_pos block_pos _ _ Hb') as (_ & Hlt & _). lia. }
    split_and!; [done| |].
    + intros x Hx. destruct (H2 x Hx) as [Hfrom Hto]. split.
      * intros i s' Hs'. destruct (Hfrom i s' Hs') as (s1 & Hs1 & ->). apply Hint in Hs1 as (s & Hs & _ & ->).
        exists s. split; [done|]. rewrite (drop_S _ b j) by done. unfold shard_stream. cbn. by rewrite app_assoc.
      * intros i s Hs Hn. apply (Hto i (s ++ shard e i b)); [|done]. apply Hint. exists s. by rewrite Hn.
    + intros er Her. destruct (H3 er Her) as [[-> Hng]|Hall]; [left; split; [done|]; intros Hg; by eapply Hng, keeps_enough|right].
      intros i s Hs. destruct (net j i) eqn:Hni; [exists j; by rewrite Hni|]. apply (Hall i (s ++ shard e i b)), Hint. by exists s.
  - intros [= <- <-]. split_and!; [done|done|]. intros er' _. right. intros i s Hs.
    destruct (net j i) eqn:Hni; [exists j; by rewrite Hni|]. discriminate Hok.
    exists i, (s ++ shard e i b). apply Hint. by exists s.
Qed.

Lemma heal_loop_ext scheds scheds' blocks j p writers de :
  (∀ i, Z.of_nat j ≤ i → scheds i = scheds' i) →
  heal_loop walk scheds net blocks e j p writers de = heal_loop walk scheds' net blocks e j p writers de.
Proof.
  revert j p writers de. induction blocks as [|blocks IH]; intros j p writers de Heq; [done|]. cbn [heal_loop].
  rewrite (Heq (Z.of_nat j)) by lia. destruct (pr_Read _ p) as [[[[bufs err]|err|w] p1]|]; cbn [mbind option_bind]; try done.
  destruct (DecodeDataAndParityBlocks e bufs) as [bufs'|?|?]; [|done|done].
  destruct (pw_Write _ _ _ _ _) as [[[]|?|?] w]; [|done|done]. apply IH. intros i Hi. apply Heq. lia.
Qed.

Lemma heal_loop_ends blocks j p writers de :
  (j + blocks = length B)%nat → (blocks ≠ O → at_block e D j p) →
  ∃ scheds, is_Some (heal_loop walk scheds net blocks e j p writers de).
Proof.
  revert j p writers de. induction blocks as [|blocks IH]; intros j p writers de Hj Hat; [by exists (λ _, [])|].
  destruct (lookup_lt_is_Some_2 B j) as [b Hb]; [lia|]. specialize (Hat ltac:(lia)).
  destruct (read_ends e D data_pos parity_pos block_pos j b p Hb Hat) as (sched & r1 & p1 & Hread).
  destruct (read_block e D data_pos parity_pos block_pos 0 (zlen D / blockSize e) _ j b p r1 p1 (block_index j b Hb) Hb Hat Hread) as [(bufs & err & -> & _ & Hpart & Hpres & Hnext & _)|[-> _]].
  2: { exists (λ _, sched). cbn [heal_loop]. by rewrite Hread. }
  pose (here := λ (later : Z → list rd_event) i, if i =? Z.of_nat j then sched else later i).
  assert (∀ later, here later (Z.of_nat j) = sched) as Hhere by (intros later; unfold here; by rewrite Z.eqb_refl).
  destruct (heal_step (here (λ _, [])) blocks j b p writers de bufs err p1 Hb) as (r2 & w & Hw & _); [by rewrite Hhere|done|done|].
  destruct (IH (S j) p1 (pw_writers w) (match de with None => err | _ => de end)) as (later & Hlater); [lia| |].
  { intros Hne. apply Hnext. destruct (lookup_lt_is_Some_2 B (S j)) as [b' Hb']; [lia|].
    pose proof (block_lookup e D data_pos parity_pos block_pos _ _ Hb) as (_ & _ & _ & ->).
    pose proof (block_lookup e D data_pos parity_pos block_pos _ _ Hb') as (_ & Hlt & _). lia. }
  exists (here later). destruct (heal_step (here later) blocks j b p writers de bufs err p1 Hb) as (r3 & w3 & Hw3 & ->); [by rewrite Hhere|done|done|].
  rewrite Hw in Hw3. injection Hw3 as <- <-. destruct r2; [|by eexists|by eexists].
  rewrite (heal_loop_ext _ later); [done|]. intros i Hi. unfold here. by rewrite (proj2 (Z.eqb_neq i _)) by lia.
Qed.

Lemma blocks_count :
  Z.to_nat (if negb (zlen D `rem` blockSize e =? 0) then zlen D `quot` blockSize e + 1 else zlen D `quot` blockSize e) = length B.
Proof.
  pose proof (zlen_nonneg D) as H0D. rewrite Z.rem_mod_nonneg, Z.quot_div_nonneg by lia.
  set (m := Z.to_nat _).
  assert (∀ k, (k < m)%nat ↔ Z.of_nat k * blockSize e < zlen D) as Hm.
  { intros k. pose proof (Z.div_mod (zlen D) (blockSize e) ltac:(lia)) as Hdm.
    pose proof (Z.mod_pos_bound (zlen D) (blockSize e) ltac:(lia)) as Hmod. pose proof (Z.div_pos (zlen D) (blockSize e) ltac:(lia) ltac:(lia)).
    unfold m. destruct (Z.eqb_spec (zlen D mod blockSize e) 0); cbn [negb]; split; intros; nia. }
  assert (∀ k, (k < length B)%nat ↔ Z.of_nat k * blockSize e < zlen D) as HB.
  { intros k. rewrite <- lookup_lt_is_Some. unfold B. rewrite chunks_lookup by done. case_decide; split; try done. }
  apply Nat.le_antisymm; apply Nat.nlt_ge; intros Hlt.
  - apply Hm, HB in Hlt. lia.
  - apply HB, Hm in Hlt. lia.
Qed.

End HealLoop.

Lemma heal_start D readers : readers_ok e D readers → at_block e D 0 (newParallelReader readers e 0 (zlen D)).
Proof.
  intros Hr. split; [done|]. split_and!; try done. apply routes_refl.
Qed.

End Store.

(** ** A concrete code: two data shards and their exclusive or *)

Definition xor_byte (a b : Byte.byte) : Byte.byte :=
  let '(a0, (a1, (a2, (a3, (a4, (a5, (a6, a7))))))) := Byte.to_bits a in
  let '(b0, (b1, (b2, (b3, (b4, (b5, (b6, b7))))))) := Byte.to_bits b in
  Byte.of_bits (xorb a0 b0, (xorb a1 b1, (xorb a2 b2, (xorb a3 b3, (xorb a4 b4, (xorb a5 b5, (xorb a6 b6, xorb a7 b7))))))).

Definition xor_bytes (x y : bytes) : bytes := zip_with xor_byte x y.

Definition xor_fill (bufs : list bytes) : list bytes :=
  match bufs with
  | [[]; y; z] => [xor_bytes y z; y; z]
  | [x; []; z] => [x; xor_bytes x z; z]
  | [x; y; _] => [x; y; xor_bytes x y]
  | _ => bufs
  end.

#[export] Instance xor_code : ReedSolomon := {
  rs_Split data parity block :=
    let size := Z.to_nat (ceilFrac (zlen block) 2) in
    Ok [take size block; drop size block ++ replicate (2 * size - length block) Byte.x00; []];
  rs_Encode data parity shards := Ok (match shards with [x; y; _] => [x; y; xor_bytes x y] | _ => shards end);
  rs_ReconstructData data parity bufs := Ok (xor_fill bufs);
  rs_Reconstruct data parity bufs := Ok (xor_fill bufs);
}.

Lemma xor_byte_cancel a b : xor_byte a (xor_byte a b) = b.
Proof.
  unfold xor_byte. destruct (Byte.to_bits a) as (a0 & a1 & a2 & a3 & a4 & a5 & a6 & a7).
  destruct (Byte.to_bits b) as (b0 & b1 & b2 & b3 & b4 & b5 & b6 & b7) eqn:Hb. rewrite Byte.to_bits_of_bits.
  rewrite <- !Bool.xorb_assoc, !Bool.xorb_nilpotent, !Bool.xorb_false_l, <- Hb. apply Byte.of_bits_to_bits.
Qed.

Lemma xor_byte_comm a b : xor_byte a b = xor_byte b a.
Proof.
  unfold xor_byte. destruct (Byte.to_bits a) as (a0 & a1 & a2 & a3 & a4 & a5 & a6 & a7).
  destruct (Byte.to_bits b) as (b0 & b1 & b2 & b3 & b4 & b5 & b6 & b7). f_equal. by rewrite (xorb_comm a0), (xorb_comm a1),
    (xorb_comm a2), (xorb_comm a3), (xorb_comm a4), (xorb_comm a5), (xorb_comm a6), (xorb_comm a7).
Qed.

Lemma xor_cancel_l x y : length x = length y → xor_bytes x (xor_bytes x y) = y.
Proof.
  revert y. induction x as [|a x IH]; intros [|b y] Hl; try done. unfold xor_bytes in *. cbn. rewrite xor_byte_cancel, IH by (cbn in Hl; lia).
  done.
Qed.

Lemma xor_cancel_r x y : length x = length y → xor_bytes y (xor_bytes x y) = x.
Proof.
  intros Hl. assert (xor_bytes x y = xor_bytes y x) as ->; [|by apply xor_cancel_l].
  revert y Hl. induction x as [|a x IH]; intros [|b y] Hl; try done. unfold xor_bytes in *. cbn. rewrite xor_byte_comm, IH by (cbn in Hl; lia).
  done.
Qed.

Lemma xor_fill_ok x y bufs :
  length x = length y → x ≠ [] → y ≠ [] → partial_of [x; y; xor_bytes x y] bufs → 2 ≤ present bufs →
  xor_fill bufs = [x; y; xor_bytes x y].
Proof.
  intros Hl Hx Hy Hp. inversion_clear Hp as [|? a ? l1 Ha Hp1]. inversion_clear Hp1 as [|? b ? l2 Hb Hp2].
  inversion_clear Hp2 as [|? c ? l3 Hc Hp3]. inversion_clear Hp3. rewrite !present_cons. unfold present. cbn [List.filter length].
  destruct Ha as [->| ->], Hb as [->| ->], Hc as [->| ->]; cbn [zlen length Z.of_nat Z.eqb]; intros Hpr; try lia.
  all: unfold xor_fill; destruct x as [|x0 x], y as [|y0 y]; try done.
  all: rewrite ?xor_cancel_l, ?xor_cancel_r by done; try done.
  all: revert Hpr; repeat match goal with |- context [zlen ?l =? 0] => destruct (zlen l =? 0) end; lia.
Qed.

Lemma xor_split block :
  block ≠ [] → ∃ x y z, rs_Split 2 1 block = Ok [x; y; []] ∧ x ++ y = block ++ z ∧
    zlen x = ceilFrac (zlen block) 2 ∧ zlen y = ceilFrac (zlen block) 2 ∧ x ≠ [] ∧ y ≠ [].
Proof.
  intros Hb. pose proof (zlen_pos _ Hb) as Hpos. pose proof (ceilFrac_bounds (zlen block) 2 ltac:(lia) ltac:(lia)) as (_ & Hc & Hc').
  specialize (Hc' Hpos). cbn [rs_Split xor_code]. set (size := Z.to_nat (ceilFrac (zlen block) 2)).
  exists (take size block), (drop size block ++ replicate (2 * size - length block) Byte.x00), (replicate (2 * size - length block) Byte.x00).
  assert (length (take size block) = size) as H1 by (rewrite length_take; unfold size, zlen in *; lia).
  assert (length (drop size block ++ replicate (2 * size - length block) Byte.x00) = size) as H2.
  { rewrite length_app, length_drop, length_replicate. unfold size, zlen in *; lia. }
  split_and!; [done|by rewrite app_assoc, take_drop| | | |].
  - unfold zlen at 1. rewrite H1. lia.
  - unfold zlen at 1. rewrite H2. lia.
  - intros E. rewrite E in H1. cbn in H1. lia.
  - intros E. rewrite E in H2. cbn in H2. lia.
Qed.

#[export] Instance xor_laws : ReedSolomonLaws 2 1.
Proof.
  assert (∀ x y : bytes, zlen x = zlen y → length x = length y) as Hll by (unfold zlen; lia).
  assert (∀ block shards cw bufs, block ≠ [] → rs_Split 2 1 block = Ok shards → rs_Encode 2 1 shards = Ok cw →
    partial_of cw bufs → 2 ≤ present bufs → xor_fill bufs = cw) as Hfill.
  { intros block shards cw bufs Hb Hs Hc Hp Hd. destruct (xor_split block Hb) as (x & y & z & Hs' & _ & Hx & Hy & Hxe & Hye).
    rewrite Hs' in Hs. injection Hs as <-. injection Hc as <-. apply xor_fill_ok; try done. apply Hll. congruence. }
  split.
  - intros block Hb. destruct (xor_split block Hb) as (x & y & z & Hs & Happ & Hx & Hy & _). exists [x; y; []], z.
    split_and!; [done|done| |].
    + by repeat constructor.
    + change (Z.to_nat 2) with 2%nat. cbn [take concat]. by rewrite app_nil_r.
  - intros block shards Hb Hs. destruct (xor_split block Hb) as (x & y & z & Hs' & _ & Hx & Hy & _). rewrite Hs' in Hs. injection Hs as <-.
    eexists. split_and!; [done|done|done|]. repeat constructor; try done. unfold xor_bytes, zlen at 1. rewrite length_zip_with.
    unfold zlen in Hx at 1. unfold zlen in Hy at 1. lia.
  - intros block shards cw bufs Hb Hs Hc Hp Hd. exists cw. cbn [rs_ReconstructData xor_code]. rewrite (Hfill block shards cw bufs) by done.
    split_and!; [done| |done]. destruct (xor_split block Hb) as (x & y & z & Hs' & _). rewrite Hs' in Hs. injection Hs as <-.
    by injection Hc as <-.
  - intros block shards cw bufs Hb Hs Hc Hp Hd. cbn [rs_Reconstruct xor_code]. by rewrite (Hfill block shards cw bufs).
Qed.

(** ** Theorems *)

Lemma NewErasure_ok data parity size e :
  NewErasure data parity size = Ok e → dataBlocks e = data ∧ parityBlocks e = parity ∧ blockSize e = size ∧ 0 < data ∧ 0 < parity.
Proof.
  unfold NewErasure. destruct (_ || _) eqn:E1; [done|]. destruct (_ <? _); [done|]. intros [= <-]. destruct_bools. cbn. split_and!; try done; lia.
Qed.

(** C9: what [Encode] has written with its quorum can be read: whatever drives failed
    while it was written, and whatever drives fail or answer late now, as long as
    as many as there are data blocks still give what they took, [Decode] writes
    the bytes of the object in the range asked for and no others, under every
    schedule of its goroutines that completes it, and some schedule does. The drives
    that are read are all preferred, or none is (with some of them preferred a read
    can hang, see [preferred_read_hangs]); the object is shorter than 2^63 bytes. When
    [Encode] has written an object, its source has been read to the end: it has given no error. *)
Theorem stored_object_readable `{ReedSolomonLaws data parity} walk size e net D rerr quorum t w readers prefer offset len :
  map_walk walk → NewErasure data parity size = Ok e → 0 < size → zlen D < 2 ^ 63 →
  Encode walk net e D rerr (replicate (Z.to_nat (data + parity)) (Some [])) size quorum = (Ok t, w) →
  reads_stored (Z.to_nat (data + parity)) w readers → enough_good e D (offset / size) ((offset + len) / size) readers → uniform readers prefer →
  0 ≤ offset → 0 ≤ len → offset + len ≤ zlen D →
  t = zlen D ∧ rerr = None ∧ (∃ scheds, is_Some (Decode scheds e readers offset len (zlen D) prefer)) ∧
  ∀ scheds r out rs, Decode scheds e readers offset len (zlen D) prefer = Some (r, out, rs) →
    (∃ err, r = Ok err) ∧ out = slice D offset len.
Proof.
  intros Hwalk (<- & <- & <- & Hd & Hp)%NewErasure_ok Hs HD He Hst Hgood Hpref Ho Hl Hin.
  pose proof (stored_readers e walk Hwalk Hs _ _ _ _ _ _ _ He Hst) as Hr.
  destruct (Encode_spec e walk Hwalk Hs _ _ _ _ _ _ He) as (_ & Hok & _). destruct (Hok t eq_refl) as (? & ? & _). split_and!; [done|done|by apply Decode_ends|].
  intros scheds r out rs Hdec. apply (Decode_spec e D) in Hdec as [((de & -> & _) & -> & _)|(_ & Hng & _)]; [|done..]. split; [by eexists|done].
Qed.

(** [Heal] puts back the files that were lost. It is given the drives that still
    have their file of an object and the drives to write to. If it reports no
    failure, every writer that has not failed has exactly the file that
    [Encode] wrote for its drive, and none is left with a part of it. It fails only when too few
    drives can be read, or when every drive it writes to has failed; and it is never
    stuck. *)
Theorem heal_restores_shards `{ReedSolomonLaws data parity} walk size e net D readers writers :
  map_walk walk → NewErasure data parity size = Ok e → 0 < size →
  readers_ok e D readers → zlen writers = data + parity → Forall (λ w, w = None ∨ w = Some []) writers →
  (∃ scheds, is_Some (Heal walk scheds net e writers readers (zlen D))) ∧
  ∀ scheds r ws, Heal walk scheds net e writers readers (zlen D) = Some (r, ws) →
    (∀ x, r = Ok x →
       (∀ i s, ws !! i = Some (Some s) → s = shard_file e D i) ∧
       (∀ i, writers !! i = Some (Some []) → (∀ k, net k i = None) → ws !! i = Some (Some (shard_file e D i)))) ∧
    (enough_good e D 0 (zlen D / size) readers → (∃ i, writers !! i = Some (Some []) ∧ ∀ k, net k i = None) → ∃ x, r = Ok x).
Proof.
  intros Hwalk (<- & <- & <- & Hd & Hp)%NewErasure_ok Hs Hr Hl Hnew.
  pose proof (heal_start e D readers Hr) as Hat. unfold Heal. rewrite (proj2 (Z.eqb_eq _ _)) by lia. cbn [negb].
  rewrite blocks_count by done. split; [by eapply heal_loop_ends|].
  intros scheds r ws Hh. eapply (heal_loop_spec e walk) in Hh as (Hnp & Hok & Herr); try done.
  assert (∀ i s, writers !! i = Some (Some s) → s = []) as Hempty.
  { intros i s Hi. rewrite Forall_lookup in Hnew. by destruct (Hnew _ _ Hi) as [?|[= ->]]. }
  split.
  - intros x Hx. destruct (Hok x Hx) as [Hfrom Hto].
    assert (∀ i s, ws !! i = Some (Some s) → s = shard_file e D i) as Hfile.
    { intros i s Hi. destruct (Hfrom i s Hi) as (s0 & Hs0%Hempty & ->). by rewrite Hs0, drop_0. }
    split; [done|]. intros i Hi Hn. destruct (Hto i [] Hi Hn) as (s & Hs'). by rewrite Hs', (Hfile i s Hs').
  - intros Hg (i & Hi & Hn). destruct r as [x|err|x]; [by exists x| |by destruct (Hnp x)].
    destruct (Herr err eq_refl) as [[_ Hng]|Hall]; [done|]. destruct (Hall i [] Hi) as (k & Hk). by rewrite Hn in Hk.
Qed.

(** *** Witnesses *)

Definition demo_code : Erasure := mkErasure 2 1 4.
Definition demo_data : bytes := [Byte.x61; Byte.x62; Byte.x63; Byte.x64; Byte.x65; Byte.x66; Byte.x67; Byte.x68; Byte.x69].

(** The first drive fails in the second block. *)
Definition demo_net (k i : nat) : option (option derr) := if (k =? 1)%nat && (i =? 0)%nat then Some (Some errDiskNotFound) else None.

Definition demo_stored : parallelWriter := (Encode (λ l, l) demo_net demo_code demo_data None (replicate 3 (Some [])) 4 2).2.

Definition file_reader (s : bytes) : reader := λ off len, Ok (slice s off len).

(** The drives that took everything. *)
Definition demo_readers : list (option reader) :=
  [None; file_reader <$> default None (pw_writers demo_stored !! 1%nat); file_reader <$> default None (pw_writers demo_stored !! 2%nat)].

Lemma file_reads s : reads s (file_reader s).
Proof. intros off len _ _. by right. Qed.

Lemma demo_enough lo hi : enough_good demo_code demo_data lo hi demo_readers.
Proof.
  exists [1%nat; 2%nat]. split_and!; [by apply (bool_decide_unpack _)|done|]. intros i Hi. apply elem_of_cons in Hi as [->|Hi].
  - eexists. split; [vm_compute; reflexivity|]. intros j b _ _. by eexists.
  - apply list_elem_of_singleton in Hi as ->. eexists. split; [vm_compute; reflexivity|]. intros j b _ _. by eexists.
Qed.

Lemma demo_reads : reads_stored 3 demo_stored demo_readers.
Proof.
  split; [done|]. intros [|[|[|i]]] r Hr; [done| | |done].
  - assert (∃ s, intact demo_stored 1 s) as (s & Hs) by (eexists; vm_compute; done).
    exists s. split; [done|]. unfold demo_readers in Hr. cbn [lookup list_lookup] in Hr. rewrite (proj1 Hs) in Hr. injection Hr as <-. apply file_reads.
  - assert (∃ s, intact demo_stored 2 s) as (s & Hs) by (eexists; vm_compute; done).
    exists s. split; [done|]. unfold demo_readers in Hr. cbn [lookup list_lookup] in Hr. rewrite (proj1 Hs) in Hr. injection Hr as <-. apply file_reads.
Qed.

Lemma stored_object_readable_witness :
  ∃ scheds, is_Some (Decode scheds demo_code demo_readers 3 5 (zlen demo_data) [false; true; true]).
Proof.
  apply (stored_object_readable (data := 2) (parity := 1) (λ l, l) 4 demo_code demo_net demo_data None 2 9 demo_stored
    demo_readers [false; true; true] 3 5); try (vm_compute; congruence).
  - intros l. done.
  - apply demo_reads.
  - apply demo_enough.
  - right. right. intros [|[|[|i]]] r Hr; done.
Defined.

Lemma heal_restores_shards_witness :
  ∃ scheds, is_Some (Heal (λ l, l) scheds (λ _ _, None) demo_code [Some []; None; None] demo_readers (zlen demo_data)).
Proof.
  apply (heal_restores_shards (data := 2) (parity := 1) (λ l, l) 4 demo_code (λ _ _, None) demo_data demo_readers [Some []; None; None]);
    try (vm_compute; congruence).
  - intros l. done.
  - assert (map_walk (λ l, l)) as Hw by (by intros l).
    apply (stored_readers (H0 := xor_laws) demo_code (λ l, l) Hw eq_refl demo_net demo_data None 2 9 demo_stored);
      [vm_compute; reflexivity|apply demo_reads].
  - constructor; [by right|]. constructor; [by left|]. constructor; [by left|constructor].
Defined.

(** ** Preferred drives *)

(** No schedule of at most [fuel] steps completes the read, and none has more steps. *)
Fixpoint never_completes (fuel : nat) (p : parallelReader) (s : reading) : bool :=
  match fuel with
  | O => false
  | S fuel =>
      negb (rd_complete s) &&
      forallb (λ ev, match rd_step p s ev with Some s => never_completes fuel p s | None => true end)
        (Loop :: (Finish <$> seq 0 (length (rd_running s))))
  end.

Lemma never_completes_ok fuel p s evs s' :
  never_completes fuel p s = true → rd_run p s evs = Some s' → rd_complete s' = false.
Proof.
  revert s evs. induction fuel as [|fuel IH]; intros s evs; cbn [never_completes]; [done|]. intros [Hc Hall]%andb_true_iff.
  apply negb_true_iff in Hc. destruct evs as [|ev evs]; cbn [rd_run]; [by intros [= <-]|].
  intros (s1 & Hs1 & Hr)%bind_Some. eapply IH; [|exact Hr]. rewrite forallb_forall in Hall.
  assert (In ev (Loop :: (Finish <$> seq 0 (length (rd_running s))))) as Hin.
  { destruct ev as [|k]; [by left|right]. apply list_elem_of_In, list_elem_of_fmap. exists k. split; [done|].
    apply elem_of_seq. split; [lia|]. cbn [rd_step] in Hs1. destruct (rd_running s !! k) eqn:Hk; [|done]. by apply lookup_lt_Some in Hk. }
  specialize (Hall ev Hin). by rewrite Hs1 in Hall.
Qed.

(** When some drives are preferred and others are not, a read of an object all of
    whose drives are healthy can wait for ever: with three data blocks, one parity
    block and the second and third drive preferred, [preferReaders] gives two of
    the first three readers the same buffer. Three reads succeed and fill two
    buffers, nobody asks for a fourth, and no schedule completes the read. *)
Theorem preferred_read_hangs `{ReedSolomon} scheds :
  let e := mkErasure 3 1 3 in
  let D := [Byte.x61; Byte.x61; Byte.x61] in
  let readers := replicate 4 (Some (file_reader [Byte.x61])) in
  enough_good e D 0 1 readers ∧ Decode scheds e readers 0 3 3 [false; true; true; false] = None.
Proof.
  cbv zeta. split.
  - exists [0; 1; 2; 3]%nat. split_and!; [by apply (bool_decide_unpack _)|done|]. intros i Hi. exists (file_reader [Byte.x61]). split; [|by eexists].
    apply lookup_replicate_2. rewrite !elem_of_cons, elem_of_nil in Hi. lia.
  - set (e := mkErasure 3 1 3). set (readers := replicate 4 _).
    pose (p := preferReaders [false; true; true; false] (newParallelReader readers e 0 3)).
    assert (∀ sched, pr_Read sched p = None) as Hread.
    { intros sched. unfold pr_Read. change (pr_shardFileSize p <? pr_offset p + pr_shardSize p) with false. cbv iota.
      change (pr_shardSize p =? 0) with false. cbv iota. destruct (rd_run p (start_reading p) sched) as [s|] eqn:Hs; [|done].
      cbn [mbind option_bind]. rewrite (never_completes_ok 20 p (start_reading p) sched s); [done|vm_compute; reflexivity|done]. }
    unfold Decode. change (decode_loop _ _ _ _ _ _ _ _ _ _ _) with
      (decode_loop scheds 2 e 0 3 0 1 0 p [] None).
    cbn [decode_loop]. by rewrite Hread.
Qed.
