(* ===== verification/Bitrot.v ===== *)
(** * Bit rot (cmd/bitrot.go, cmd/bitrot-streaming.go, cmd/bitrot-whole.go)

    The file of a drive has a hash before every shard. [ReadAt] verifies the
    hash of what it reads, [bitrotVerify] a whole file. The hash functions are
    external: a class, with what Go's [hash.Hash] promises. *)

From Stdlib Require Import ZArith Lia Bool.
From S2P Require Import Prelude ErasureErrs Erasure ErasureRead ErasureStore.

Local Open Scope go_scope.
Local Open Scope Z_scope.

(** ** The algorithms *)

Abbreviation BitrotAlgorithm := Z (only parsing).
Definition SHA256 : BitrotAlgorithm := 1.
Definition HighwayHash256 : BitrotAlgorithm := 2.
Definition HighwayHash256S : BitrotAlgorithm := 3.
Definition BLAKE2b512 : BitrotAlgorithm := 4.
Definition DefaultBitrotAlgorithm : BitrotAlgorithm := HighwayHash256S.

Definition bitrotAlgorithms : list (BitrotAlgorithm * string) :=
  [(SHA256, "sha256"); (BLAKE2b512, "blake2b"); (HighwayHash256, "highwayhash256"); (HighwayHash256S, "highwayhash256S")]%string.

Definition algorithm_name (a : BitrotAlgorithm) : option string := snd <$> List.find (λ '(b, _), b =? a) bitrotAlgorithms.

Definition Available (a : BitrotAlgorithm) : bool := bool_decide (is_Some (algorithm_name a)).

(** [CriticalIf] panics. *)
Definition BitrotAlgorithm_String (a : BitrotAlgorithm) : outcome derr string :=
  match algorithm_name a with Some name => Ok name | None => Panic "Unsupported bitrot algorithm" end.

(** The names are different, so that the order of the map does not matter. *)
Definition BitrotAlgorithmFromString (s : string) : BitrotAlgorithm :=
  match List.find (λ '(_, name), String.eqb name s) bitrotAlgorithms with Some (a, _) => a | None => 0 end.

Class BitrotHash := {
  Sum : BitrotAlgorithm → bytes → bytes;
  Size : BitrotAlgorithm → Z;
}.

(** "Size returns the number of bytes Sum will return." *)
Class BitrotHashLaws `{BitrotHash} := {
  Size_pos a : 0 < Size a;
  Sum_length a x : zlen (Sum a x) = Size a;
}.


(** ** Streams *)

(** What is left to read, and the error that comes after it. *)
Record stream := mkStream { st_bytes : bytes; st_end : derr }.

Definition EOF : derr := OtherErr "EOF".
Definition ErrUnexpectedEOF : derr := OtherErr "unexpected EOF".

(** [io.ReadFull] of [n] bytes. *)
Definition ReadFull (r : stream) (n : Z) : outcome derr bytes * stream :=
  if n <=? zlen (st_bytes r) then (Ok (slice (st_bytes r) 0 n), mkStream (drop (Z.to_nat n) (st_bytes r)) (st_end r))
  else (Err (if bool_decide (st_end r = EOF) && negb (zlen (st_bytes r) =? 0) then ErrUnexpectedEOF else st_end r),
        mkStream [] (st_end r)).

(** [io.CopyBuffer] from a [LimitReader] of [n] bytes. *)
Definition CopyLimit (r : stream) (n : Z) : outcome derr bytes * stream :=
  if n <=? zlen (st_bytes r) then (Ok (slice (st_bytes r) 0 n), mkStream (drop (Z.to_nat n) (st_bytes r)) (st_end r))
  else (if bool_decide (st_end r = EOF) then Ok (st_bytes r) else Err (st_end r), mkStream [] (st_end r)).

Definition Copy (r : stream) : outcome derr bytes :=
  if bool_decide (st_end r = EOF) then Ok (st_bytes r) else Err (st_end r).

Section Bitrot.
Context `{BitrotHash}.

(** ** Sizes and verification *)

Definition bitrotShardFileSize (size shardSize : Z) (algo : BitrotAlgorithm) : Z :=
  if negb (algo =? HighwayHash256S) then size else ceilFrac size shardSize * Size algo + size.

(** The loop of [bitrotVerify]. *)
Fixpoint verify_loop (fuel : nat) (algo : BitrotAlgorithm) (r : stream) (left shardSize : Z) : outcome derr () :=
  match fuel with
  | O => Panic "out of fuel"
  | S fuel =>
      if left <=? 0 then Ok ()
      else
        let '(x, r) := ReadFull r (Size algo) in
        hashBuf ←? x;
        let left := left - zlen hashBuf in
        let shardSize := if left <? shardSize then left else shardSize in
        let '(x, r) := CopyLimit r shardSize in
        match x with
        | Ok read =>
            let left := left - zlen read in
            if negb (bool_decide (Sum algo read = hashBuf)) then Err errFileCorrupt
            else verify_loop fuel algo r left shardSize
        | _ => Err errFileCorrupt
        end
  end.

Definition bitrotVerify (r : stream) (wantSize partSize : Z) (algo : BitrotAlgorithm) (want : bytes) (shardSize : Z) : outcome derr () :=
  if negb (algo =? HighwayHash256S) then
    match Copy r with
    | Ok x => if negb (zlen x =? wantSize) then Err errFileCorrupt
              else if negb (bool_decide (Sum algo x = want)) then Err errFileCorrupt else Ok ()
    | _ => Err errFileCorrupt
    end
  else if negb (wantSize =? bitrotShardFileSize partSize shardSize algo) then Err errFileCorrupt
  else verify_loop (S (Z.to_nat wantSize)) algo r wantSize shardSize.

(** ** The streaming writer *)

(** What has been written, and the error it was closed with. *)
Record streamingBitrotWriter := mkBW { bw_iow : bytes; bw_closedWith : option derr }.

(** [net] is what a write to the pipe answers: how many bytes it took, and an error. *)
Definition bw_Write (net : bytes → Z * option derr) (algo : BitrotAlgorithm) (p : bytes) (b : streamingBitrotWriter)
    : Z * option derr * streamingBitrotWriter :=
  if zlen p =? 0 then (0, None, b)
  else
    let hashBytes := Sum algo p in
    let '(n, err) := net hashBytes in
    let b := mkBW (bw_iow b ++ slice hashBytes 0 n) (bw_closedWith b) in
    match err with
    | Some e => (0, err, mkBW (bw_iow b) err)
    | None =>
        let '(n, err) := net p in
        let b := mkBW (bw_iow b ++ slice p 0 n) (bw_closedWith b) in
        match err with
        | Some e => (n, err, mkBW (bw_iow b) err)
        | None => if negb (n =? zlen p) then (n, Some ErrShortWrite, mkBW (bw_iow b) (Some ErrShortWrite)) else (n, None, b)
        end
    end.

(** A writer that is given shards one after the other, when the drive takes every byte of them. *)
Definition bw_all (shards : list bytes) (b : streamingBitrotWriter) : streamingBitrotWriter :=
  foldl (λ w p, (bw_Write (λ x, (zlen x, None)) HighwayHash256S p w).2) b shards.

(** The size [newStreamingBitrotWriter] tells the drive. *)
Definition totalFileSize (length shardSize : Z) (algo : BitrotAlgorithm) : Z :=
  if length =? -1 then -1 else ceilFrac length shardSize * Size algo + length.

(** ** The streaming reader *)

Record streamingBitrotReader := mkBR {
  br_data : bytes;
  br_rc : option stream;
  br_tillOffset : Z;
  br_currOffset : Z;
  br_algo : BitrotAlgorithm;
  br_shardSize : Z;
}.

Definition newStreamingBitrotReader (data : bytes) (tillOffset : Z) (algo : BitrotAlgorithm) (shardSize : Z) : streamingBitrotReader :=
  mkBR data None (ceilFrac tillOffset shardSize * Size algo + tillOffset) 0 algo shardSize.

(** The stream is opened by the first [ReadAt]; [disk] is [ReadFileStream]: a stream of the
    file from an offset, of a length. *)
Definition br_open (disk : Z → Z → outcome derr stream) (offset : Z) (b : streamingBitrotReader)
    : outcome derr stream * streamingBitrotReader :=
  match br_rc b with
  | Some rc => (Ok rc, b)
  | None =>
      let streamOffset := offset `quot` br_shardSize b * Size (br_algo b) + offset in
      let opened rc := mkBR (br_data b) rc (br_tillOffset b) offset (br_algo b) (br_shardSize b) in
      if (zlen (br_data b) =? 0) && negb (br_tillOffset b =? streamOffset) then
        match disk streamOffset (br_tillOffset b - streamOffset) with
        | Ok rc => (Ok rc, opened (Some rc))
        | Err err => (Err err, opened None)
        | Panic w => (Panic w, b)
        end
      else
        let rc := mkStream (slice (br_data b) streamOffset (br_tillOffset b - streamOffset)) EOF in
        (Ok rc, opened (Some rc))
  end.

Definition br_ReadAt (disk : Z → Z → outcome derr stream) (len offset : Z) (b : streamingBitrotReader)
    : outcome derr bytes * streamingBitrotReader :=
  if br_shardSize b =? 0 then (Panic "integer divide by zero", b)
  else if negb (offset `rem` br_shardSize b =? 0) then (Err errUnexpected, b)
  else
    match br_open disk offset b with
    | (Ok rc, b) =>
        if negb (offset =? br_currOffset b) then (Err errUnexpected, b)
        else
          let with_rc rc curr := mkBR (br_data b) (Some rc) (br_tillOffset b) curr (br_algo b) (br_shardSize b) in
          match ReadFull rc (Size (br_algo b)) with
          | (Ok hashBytes, rc) =>
              match ReadFull rc len with
              | (Ok buf, rc) =>
                  if negb (bool_decide (Sum (br_algo b) buf = hashBytes)) then (Err errFileCorrupt, with_rc rc (br_currOffset b))
                  else (Ok buf, with_rc rc (br_currOffset b + len))
              | (Err err, rc) => (Err err, with_rc rc (br_currOffset b))
              | (Panic w, rc) => (Panic w, b)
              end
          | (Err err, rc) => (Err err, with_rc rc (br_currOffset b))
          | (Panic w, rc) => (Panic w, b)
          end
    | (Err err, b) => (Err err, b)
    | (Panic w, b) => (Panic w, b)
    end.

(** ** The whole-file reader *)

Record wholeBitrotReader := mkWR { wr_tillOffset : Z; wr_buf : option bytes }.

(** [disk] is [ReadFile]: it fills the buffer and verifies the hash of the file. *)
Definition wr_ReadAt (disk : Z → Z → bytes * option derr) (len offset : Z) (b : wholeBitrotReader)
    : outcome derr bytes * wholeBitrotReader :=
  let take_buf buf :=
    if zlen buf <? len then (Err errLessData, mkWR (wr_tillOffset b) (Some buf))
    else (Ok (slice buf 0 len), mkWR (wr_tillOffset b) (Some (drop (Z.to_nat len) buf))) in
  match wr_buf b with
  | Some buf => take_buf buf
  | None =>
      if wr_tillOffset b - offset <? 0 then (Panic "makeslice: len out of range", b)
      else
        match disk offset (wr_tillOffset b - offset) with
        | (buf, None) => take_buf buf
        | (buf, Some err) => (Err err, mkWR (wr_tillOffset b) (Some buf))
        end
  end.

End Bitrot.

(** ** The layout of a file *)

Section Layout.
Context `{BitrotHashLaws}.
Context (shardSize : Z).
Hypothesis shard_pos : 0 < shardSize.

Let algo := HighwayHash256S.
Let hs := Size algo.

(** A shard with its hash. *)
Definition framed (c : bytes) : bytes := Sum algo c ++ c.

(** The file that has this content. *)
Definition bitrot_file (content : bytes) : bytes := concat (framed <$> chunks shardSize content).

(** What the writer sends the drive. *)
Lemma bw_all_framed shards b :
  Forall (λ x, x ≠ []) shards → bw_all shards b = mkBW (bw_iow b ++ concat (framed <$> shards)) (bw_closedWith b).
Proof.
  unfold bw_all. intros Hne. revert b.
  induction Hne as [|p shards Hp _ IH]; intros b; cbn [foldl concat fmap list_fmap]; [rewrite app_nil_r; by destruct b|].
  rewrite IH. unfold bw_Write. rewrite (proj2 (Z.eqb_neq _ 0)) by (by rewrite zlen_nil). rewrite Z.eqb_refl. cbn.
  rewrite !slice_whole by lia. unfold framed. by rewrite <- !app_assoc.
Qed.

Lemma bw_all_file content : bw_iow (bw_all (chunks shardSize content) (mkBW [] None)) = bitrot_file content.
Proof. by rewrite bw_all_framed by (by apply chunks_nonempty). Qed.

Lemma framed_length c : zlen (framed c) = hs + zlen c.
Proof. unfold framed. by rewrite zlen_app, Sum_length. Qed.

Lemma bitrot_file_nil : bitrot_file [] = [].
Proof. done. Qed.

Lemma bitrot_file_cons content :
  content ≠ [] →
  bitrot_file content = framed (slice content 0 shardSize) ++ bitrot_file (drop (Z.to_nat shardSize) content).
Proof. intros Hc. unfold bitrot_file. by rewrite chunks_cons by done. Qed.

Lemma ceil_step n : 0 < n → ceilFrac n shardSize = 1 + ceilFrac (Z.max 0 (n - shardSize)) shardSize.
Proof.
  intros Hn. rewrite !ceilFrac_pos by lia. destruct (Z.le_gt_cases n shardSize) as [Hle|Hgt].
  - rewrite Z.max_l by lia. rewrite (Z.div_small (0 + shardSize - 1)) by lia. symmetry.
    apply (Z.div_unique _ _ _ (n - 1)); lia.
  - rewrite Z.max_r by lia. replace (n + shardSize - 1) with (n - shardSize + shardSize - 1 + 1 * shardSize) by lia.
    rewrite Z.div_add by lia. lia.
Qed.

Lemma drop_shorter (content : bytes) : content ≠ [] → (length (drop (Z.to_nat shardSize) content) < length content)%nat.
Proof. intros Hc. rewrite length_drop. destruct content; [done|cbn; lia]. Qed.

Lemma bitrot_file_size content : zlen (bitrot_file content) = bitrotShardFileSize (zlen content) shardSize algo.
Proof.
  unfold bitrotShardFileSize. change (negb (algo =? HighwayHash256S)) with false. cbv iota.
  remember (length content) as n eqn:Hn. revert content Hn. induction (lt_wf n) as [n _ IH]. intros content ->.
  destruct (decide (content = [])) as [->|Hc].
  { rewrite bitrot_file_nil. change (zlen []) with 0. by rewrite ceilFrac_pos, Z.div_small by lia. }
  pose proof (zlen_pos _ Hc).
  rewrite bitrot_file_cons, zlen_app, framed_length, (IH _ (drop_shorter _ Hc) _ eq_refl) by done.
  rewrite zlen_drop, zlen_slice0, (ceil_step (zlen content)) by lia. fold hs.
  set (m := Z.max 0 (zlen content - shardSize)). rewrite Z.mul_add_distr_r. lia.
Qed.

(** Shard [k] and its hash in the file. *)
Lemma bitrot_file_drop k content :
  drop (Z.to_nat (Z.of_nat k * (hs + shardSize))) (bitrot_file content) = bitrot_file (drop (Z.to_nat (Z.of_nat k * shardSize)) content).
Proof.
  revert content. induction k as [|k IH]; intros content; [by rewrite !Z.mul_0_l, !drop_0|].
  pose proof (Size_pos algo) as Hhs. fold hs in Hhs.
  replace (Z.to_nat (Z.of_nat (S k) * (hs + shardSize))) with (Z.to_nat (hs + shardSize) + Z.to_nat (Z.of_nat k * (hs + shardSize)))%nat by nia.
  replace (Z.to_nat (Z.of_nat (S k) * shardSize)) with (Z.to_nat shardSize + Z.to_nat (Z.of_nat k * shardSize))%nat by nia.
  rewrite <- !drop_drop. destruct (decide (content = [])) as [->|Hc]; [by rewrite bitrot_file_nil, !drop_nil|].
  rewrite bitrot_file_cons by done. rewrite <- IH. f_equal.
  pose proof (framed_length (slice content 0 shardSize)) as Hf. rewrite zlen_slice0 in Hf by lia.
  destruct (Z.le_gt_cases shardSize (zlen content)).
  - rewrite Z.min_l in Hf by lia. apply drop_app_length'. unfold zlen in Hf. lia.
  - rewrite (drop_ge content) by (unfold zlen in *; lia). rewrite bitrot_file_nil, app_nil_r. apply drop_ge. unfold zlen in Hf at 1. lia.
Qed.

Lemma bitrot_file_nth k content :
  Z.of_nat k * shardSize < zlen content →
  let c := slice content (Z.of_nat k * shardSize) shardSize in
  slice (bitrot_file content) (Z.of_nat k * (hs + shardSize)) hs = Sum algo c ∧
  slice (bitrot_file content) (Z.of_nat k * (hs + shardSize) + hs) (zlen c) = c.
Proof.
  intros Hk. cbv zeta. pose proof (Size_pos algo) as Hhs. fold hs in Hhs.
  set (rest := drop (Z.to_nat (Z.of_nat k * shardSize)) content).
  assert (slice content (Z.of_nat k * shardSize) shardSize = slice rest 0 shardSize) as Hc by (unfold slice, rest; by rewrite drop_0).
  assert (rest ≠ []) as Hne.
  { intros E. assert (zlen rest = 0) as Hz by (by rewrite E). unfold rest in Hz. rewrite zlen_drop in Hz by nia. lia. }
  pose proof (bitrot_file_cons rest Hne) as Hf. unfold framed in Hf. rewrite Hc. unfold slice at 1 3.
  replace (Z.to_nat (Z.of_nat k * (hs + shardSize) + hs)) with (Z.to_nat (Z.of_nat k * (hs + shardSize)) + Z.to_nat hs)%nat by nia.
  rewrite <- drop_drop, bitrot_file_drop. fold rest. rewrite Hf, <- app_assoc.
  pose proof (Sum_length algo (slice rest 0 shardSize)) as Hl. fold hs in Hl. split.
  - rewrite take_app_length'; [done|]. unfold zlen in Hl. lia.
  - rewrite drop_app_length' by (unfold zlen in Hl; lia). apply take_app_length'. unfold zlen. lia.
Qed.

(** *** Verification *)

Let size n := bitrotShardFileSize n shardSize algo.

Lemma size_def n : size n = ceilFrac n shardSize * hs + n.
Proof. done. Qed.

Lemma size_step n : 0 < n → size n = hs + Z.min shardSize n + size (Z.max 0 (n - shardSize)).
Proof. intros Hn. rewrite !size_def, (ceil_step n Hn). set (m := Z.max 0 (n - shardSize)). rewrite Z.mul_add_distr_r. lia. Qed.

Lemma size_bounds n : 0 ≤ n → 0 ≤ size n ∧ (size n = 0 ↔ n = 0) ∧ n ≤ size n.
Proof.
  intros Hn. rewrite size_def. pose proof (ceilFrac_bounds n shardSize Hn shard_pos) as (? & ? & Hc).
  pose proof (Size_pos algo). fold hs in H3. destruct (Z.eq_dec n 0) as [->|]; [|specialize (Hc ltac:(lia)); nia].
  assert (ceilFrac 0 shardSize = 0) as -> by nia. lia.
Qed.

Lemma ReadFull_spec r n x r' :
  ReadFull r n = (x, r') → 0 ≤ n →
  (n ≤ zlen (st_bytes r) ∧ x = Ok (slice (st_bytes r) 0 n) ∧ r' = mkStream (drop (Z.to_nat n) (st_bytes r)) (st_end r)) ∨
  (zlen (st_bytes r) < n ∧ ∃ err, x = Err err).
Proof.
  unfold ReadFull. destruct (Z.leb_spec n (zlen (st_bytes r))); intros [= <- <-] Hn; [left|right]; [done|].
  split; [lia|]. by eexists.
Qed.

(** A stream that has ended is not a shard any more. *)
Lemma verify_ended fuel e left s : 0 < left → verify_loop fuel algo (mkStream [] e) left s ≠ Ok ().
Proof.
  intros Hl. destruct fuel; cbn [verify_loop]; [done|]. rewrite (proj2 (Z.leb_gt _ _)) by done.
  unfold ReadFull. cbn [st_bytes]. change (zlen []) with 0. pose proof (Size_pos algo). by rewrite (proj2 (Z.leb_gt _ _)) by done.
Qed.

Lemma verify_step fuel r n :
  0 < n → verify_loop (S fuel) algo r (size n) shardSize = Ok () ↔
  (let m := Z.min shardSize n in
   hs + m ≤ zlen (st_bytes r) ∧ Sum algo (slice (st_bytes r) hs m) = slice (st_bytes r) 0 hs ∧
   verify_loop fuel algo (mkStream (drop (Z.to_nat (hs + m)) (st_bytes r)) (st_end r)) (size (Z.max 0 (n - shardSize))) m = Ok ()).
Proof.
  intros Hn. cbv zeta. set (m := Z.min shardSize n). pose proof (size_step n Hn) as Hs. fold m in Hs.
  pose proof (size_bounds (Z.max 0 (n - shardSize)) ltac:(lia)) as (Hr0 & _ & Hr1). pose proof (Size_pos algo) as Hh. fold hs in Hh.
  cbn [verify_loop]. rewrite (proj2 (Z.leb_gt _ _)) by lia.
  destruct (ReadFull r (Size algo)) as [x r1] eqn:Hx. apply ReadFull_spec in Hx as [(Hle & -> & ->)|(Hlt & err & ->)]; [| |lia].
  2: { cbn [obind]. split; [done|]. fold hs in Hlt. intros [? _]. lia. }
  fold hs in Hle |- *. cbn [obind]. rewrite zlen_slice0, Z.min_l by lia.
  assert ((if size n - hs <? shardSize then size n - hs else shardSize) = m) as ->.
  { destruct (Z.le_gt_cases shardSize n); [rewrite (proj2 (Z.ltb_ge _ _)); lia|].
    assert (size (Z.max 0 (n - shardSize)) = 0) as E by (apply size_bounds; lia). rewrite (proj2 (Z.ltb_lt _ _)); lia. }
  unfold CopyLimit. cbn [st_bytes st_end]. rewrite zlen_drop by lia.
  destruct (Z.leb_spec m (Z.max 0 (zlen (st_bytes r) - hs))) as [Hm|Hm].
  - assert (slice (drop (Z.to_nat hs) (st_bytes r)) 0 m = slice (st_bytes r) hs m) as E by (unfold slice; by rewrite drop_0).
    rewrite zlen_slice0, zlen_drop, Z.min_l by lia. rewrite E, drop_drop, <- Z2Nat.inj_add by lia.
    replace (size n - hs - m) with (size (Z.max 0 (n - shardSize))) by lia.
    destruct (bool_decide_reflect (Sum algo (slice (st_bytes r) hs m) = slice (st_bytes r) 0 hs)); cbn [negb]; split; try done; [|by intros (_ & _ & ?)|by intros (_ & ? & _)].
    intros Hv. split_and!; [lia|done|done].
  - split; [|intros [? _]; lia]. destruct (bool_decide _); [|done]. destruct (negb _); [done|].
    intros Hv. exfalso. revert Hv. apply verify_ended. unfold zlen. rewrite length_drop. unfold zlen in *. lia.
Qed.

Lemma verify_loop_spec fuel r n :
  0 ≤ n → size n < Z.of_nat fuel →
  verify_loop fuel algo r (size n) shardSize = Ok () ↔ ∃ content, zlen content = n ∧ slice (st_bytes r) 0 (size n) = bitrot_file content.
Proof.
  revert r n. induction fuel as [|fuel IH]; intros r n Hn Hf; [pose proof (size_bounds n Hn); lia|].
  destruct (Z.eq_dec n 0) as [->|Hne].
  { assert (size 0 = 0) as -> by (by apply size_bounds). cbn [verify_loop Z.leb Z.compare]. split; [|done]. intros _. by exists []. }
  rewrite verify_step by lia. cbv zeta. set (m := Z.min shardSize n).
  set (rest := mkStream (drop (Z.to_nat (hs + m)) (st_bytes r)) (st_end r)). set (n' := Z.max 0 (n - shardSize)).
  pose proof (size_step n ltac:(lia)) as Hs. fold m n' in Hs. pose proof (Size_pos algo) as Hh. fold hs in Hh.
  pose proof (size_bounds n' ltac:(lia)) as (Hn0 & _).
  assert (verify_loop fuel algo rest (size n') m = Ok () ↔ ∃ content, zlen content = n' ∧ slice (st_bytes rest) 0 (size n') = bitrot_file content) as ->.
  { destruct (Z.le_gt_cases shardSize n); [replace m with shardSize by lia; apply IH; lia|].
    assert (n' = 0) as -> by lia. assert (size 0 = 0) as -> by (by apply size_bounds). destruct fuel; [lia|].
    split; [intros _; by exists []|done]. }
  assert (hs + m ≤ zlen (st_bytes r) → slice (st_bytes r) 0 (size n) = slice (st_bytes r) 0 hs ++ slice (st_bytes r) hs m ++ slice (st_bytes rest) 0 (size n')) as Hsplit.
  { intros Hle. pose proof (size_bounds n' ltac:(lia)). rewrite Hs. rewrite <- (slice_app_seq _ 0 (hs + m)), <- (slice_app_seq _ 0 hs) by lia.
    by rewrite <- app_assoc. }
  split.
  - intros (Hle & Hsum & content & Hc & Hrest). exists (slice (st_bytes r) hs m ++ content).
    assert (zlen (slice (st_bytes r) hs m) = m) as Hm by (apply zlen_slice; lia). split; [rewrite zlen_app; lia|].
    assert (slice (st_bytes r) hs m ++ content ≠ []) as Hne'.
    { intros E. apply (f_equal zlen) in E. rewrite zlen_app in E. change (zlen []) with 0 in E. lia. }
    rewrite Hsplit, Hrest, <- Hsum, (bitrot_file_cons _ Hne') by done. unfold framed. rewrite <- app_assoc.
    destruct (Z.le_gt_cases shardSize n).
    + rewrite slice_app_l, (drop_app_length' (slice (st_bytes r) hs m)) by (unfold zlen in *; lia).
      rewrite (slice_whole (slice (st_bytes r) hs m)) by lia. done.
    + assert (content = []) as -> by (apply zlen_nil; lia). rewrite !app_nil_r.
      rewrite (slice_whole (slice (st_bytes r) hs m)) by lia. rewrite drop_ge by (unfold zlen in *; lia). by rewrite bitrot_file_nil, app_nil_r.
  - intros (content & Hc & Hfile).
    assert (content ≠ []) as Hcne by (intros ->; change (zlen []) with 0 in Hc; lia).
    assert (hs + m ≤ zlen (st_bytes r)) as Hle.
    { apply (f_equal zlen) in Hfile. rewrite bitrot_file_size, Hc, zlen_slice0 in Hfile by lia. fold (size n) in Hfile. lia. }
    rewrite (Hsplit Hle), (bitrot_file_cons _ Hcne) in Hfile. unfold framed in Hfile. rewrite <- app_assoc in Hfile.
    apply app_inj_1 in Hfile as [Hhash Hfile].
    2: { pose proof (Sum_length algo (slice content 0 shardSize)) as Hl. pose proof (zlen_slice (st_bytes r) 0 hs ltac:(lia) ltac:(lia) ltac:(lia)).
         unfold zlen in *. fold hs in Hl. lia. }
    apply app_inj_1 in Hfile as [Hdata Hfile].
    2: { pose proof (zlen_slice (st_bytes r) hs m ltac:(lia) ltac:(lia) ltac:(lia)). pose proof (zlen_slice0 content shardSize ltac:(lia)). unfold zlen in *. lia. }
    split_and!; [done|by rewrite Hdata, Hhash|]. exists (drop (Z.to_nat shardSize) content). split; [|done]. rewrite zlen_drop; lia.
Qed.

(** *** Reading a file that may be damaged *)

Section Damaged.
Context (content file : bytes) (disk : Z → Z → outcome derr stream).

Let chunk k := slice content (Z.of_nat k * shardSize) shardSize.
Let pos k := Z.of_nat k * (hs + shardSize).

(** The hashes are as they were written. *)
Definition hashes_kept : Prop :=
  zlen file = zlen (bitrot_file content) ∧
  ∀ k, Z.of_nat k * shardSize < zlen content → slice file (pos k) hs = Sum algo (chunk k).

(** What is in the place of a shard does not have the hash of the shard, unless it is the shard. *)
Definition no_collision : Prop :=
  ∀ k n, Z.of_nat k * shardSize < zlen content →
    Sum algo (slice file (pos k + hs) n) = Sum algo (chunk k) → slice file (pos k + hs) n = chunk k.

(** The drive gives the bytes of the file from the offset on, and may fail before or while it does. *)
Definition serves : Prop :=
  ∀ off len, (∃ err, disk off len = Err err) ∨ ∃ st, disk off len = Ok st ∧ st_bytes st `prefix_of` drop (Z.to_nat off) file.

Hypothesis Hkept : hashes_kept.
Hypothesis Hcoll : no_collision.
Hypothesis Hserves : serves.

(** A reader none of whose calls has failed. *)
Definition br_ok (b : streamingBitrotReader) : Prop :=
  br_algo b = algo ∧ br_shardSize b = shardSize ∧ (br_data b = [] ∨ br_data b = file) ∧
  ∀ st, br_rc b = Some st → ∀ k, br_currOffset b = Z.of_nat k * shardSize → st_bytes st `prefix_of` drop (Z.to_nat (pos k)) file.

Lemma new_ok data till : data = [] ∨ data = file → br_ok (newStreamingBitrotReader data till algo shardSize).
Proof. intros Hd. by repeat split. Qed.

Lemma aligned off : 0 ≤ off → off `rem` shardSize = 0 → ∃ k, off = Z.of_nat k * shardSize ∧ off `quot` shardSize * hs + off = pos k.
Proof.
  intros Ho Hr. pose proof (Z.quot_rem' off shardSize) as Hq. pose proof (Z.quot_pos off shardSize Ho shard_pos).
  exists (Z.to_nat (off `quot` shardSize)). unfold pos. rewrite Z2Nat.id by lia. split; lia.
Qed.

(** The stream is at the shard that was asked for. *)
Lemma br_open_spec k b r b' :
  br_ok b → br_open disk (Z.of_nat k * shardSize) b = (r, b') →
  (∃ err, r = Err err) ∨
  ∃ st, r = Ok st ∧ br_ok b' ∧ br_rc b' = Some st ∧ (br_rc b = None → br_currOffset b' = Z.of_nat k * shardSize).
Proof.
  intros Hb. pose proof Hb as (Ha & Hs & Hd & Hrc). unfold br_open. destruct (br_rc b) as [st|] eqn:Hst.
  { intros [= <- <-]. right. exists st. by rewrite Hst. }
  rewrite Ha, Hs. fold hs. destruct (aligned (Z.of_nat k * shardSize) ltac:(nia)) as (k' & Hk' & Hp).
  { rewrite Z.rem_mul; lia. }
  assert (k' = k) as -> by nia. rewrite Hp.
  assert (∀ st, st_bytes st `prefix_of` drop (Z.to_nat (pos k)) file →
    br_ok (mkBR (br_data b) (Some st) (br_tillOffset b) (Z.of_nat k * shardSize) algo shardSize)) as Hok.
  { intros st Hpre. split_and!; try done. intros st' [= <-] j Hj. cbn in Hj. assert (j = k) as -> by nia. done. }
  destruct (_ && _).
  - destruct (Hserves (pos k) (br_tillOffset b - pos k)) as [[err ->]|(st & -> & Hpre)]; intros [= <- <-]; [left; by eexists|right].
    exists st. split_and!; try done. by apply Hok.
  - intros [= <- <-]. right. eexists. split_and!; try done. apply Hok. cbn [st_bytes].
    destruct Hd as [->| ->]; [|apply slice_prefix]. unfold slice. rewrite drop_nil, take_nil. apply prefix_nil.
Qed.

Lemma prefix_slice (x y : bytes) n : x `prefix_of` y → n ≤ zlen x → slice x 0 n = slice y 0 n.
Proof. intros [z ->] Hn. unfold slice, zlen in *. rewrite !drop_0. rewrite take_app_le by lia. done. Qed.

Lemma prefix_drop (x y : bytes) n : x `prefix_of` y → drop n x `prefix_of` drop n y.
Proof.
  intros [z ->]. destruct (decide (n ≤ length x)%nat); [rewrite drop_app_le by done; by eexists|].
  rewrite (drop_ge x) by lia. apply prefix_nil.
Qed.

Lemma slice_drop (x : bytes) from n : 0 ≤ from → slice (drop (Z.to_nat from) x) 0 n = slice x from n.
Proof. intros Hf. unfold slice. by rewrite drop_0. Qed.

(** The hash of a shard that can be read is the one of the content. *)
Lemma in_content k st :
  st_bytes st `prefix_of` drop (Z.to_nat (pos k)) file → hs ≤ zlen (st_bytes st) → Z.of_nat k * shardSize < zlen content.
Proof.
  intros [z Hz] Hl. apply Z.nle_gt. intros Hle. apply (f_equal zlen) in Hz. rewrite zlen_app in Hz. pose proof (zlen_nonneg z).
  pose proof (Size_pos algo) as Hh. fold hs in Hh. unfold pos in Hz. rewrite zlen_drop, (proj1 Hkept), bitrot_file_size in Hz by nia.
  fold (size (zlen content)) in Hz. rewrite size_def in Hz. pose proof (zlen_nonneg content).
  pose proof (ceilFrac_bounds (zlen content) shardSize ltac:(lia) shard_pos) as (? & ? & ?).
  assert (ceilFrac (zlen content) shardSize ≤ Z.of_nat k); [|nia].
  rewrite ceilFrac_pos by lia. apply Z.lt_succ_r, Z.div_lt_upper_bound; lia.
Qed.

Lemma br_ReadAt_spec len offset b r b' :
  br_ok b → 0 ≤ offset → 0 ≤ len → br_ReadAt disk len offset b = (r, b') →
  (∃ err, r = Err err) ∨ r = Ok (slice content offset len) ∧ br_ok b'.
Proof.
  intros Hb Ho Hl. pose proof Hb as (_ & Hs & _). unfold br_ReadAt. rewrite Hs, (proj2 (Z.eqb_neq _ _)) by lia.
  destruct (Z.eqb_spec (offset `rem` shardSize) 0) as [Hr|Hr]; cbn [negb]; [|intros [= <- <-]; left; by eexists].
  destruct (aligned offset Ho Hr) as (k & -> & _). destruct (br_open disk _ b) as [r1 b1] eqn:Hopen.
  apply (br_open_spec k b) in Hopen as [[err ->]|(st & -> & Hb1 & Hst & _)]; [intros [= <- <-]; left; by eexists| |done].
  pose proof Hb1 as (Ha & Hs1 & Hd & Hpre). rewrite Ha, Hs1. destruct (Z.eqb_spec (Z.of_nat k * shardSize) (br_currOffset b1)) as [Hk|Hk];
    cbn [negb]; [|intros [= <- <-]; left; by eexists]. specialize (Hpre st Hst k (eq_sym Hk)). fold hs.
  pose proof (Size_pos algo) as Hh. fold hs in Hh. assert (0 ≤ pos k) as Hp0 by (unfold pos; nia).
  destruct (ReadFull st hs) as [x1 st1] eqn:H1. apply ReadFull_spec in H1 as [(Hle & -> & ->)|(_ & err & ->)];
    [|intros [= <- <-]; left; by eexists|lia].
  destruct (ReadFull _ len) as [x2 st2] eqn:H2. apply ReadFull_spec in H2 as [(Hle2 & -> & ->)|(_ & err & ->)];
    [|intros [= <- <-]; left; by eexists|lia].
  cbn [st_bytes st_end] in *. destruct (bool_decide_reflect (Sum algo (slice (drop (Z.to_nat hs) (st_bytes st)) 0 len) = slice (st_bytes st) 0 hs)) as [Heq|];
    cbn [negb]; intros [= <- <-]; [right|left; by eexists].
  pose proof (in_content k st Hpre Hle) as Hin.
  rewrite (prefix_slice _ _ hs Hpre Hle), (slice_drop file), (proj2 Hkept k Hin) in Heq by done.
  assert (drop (Z.to_nat hs) (st_bytes st) `prefix_of` drop (Z.to_nat (pos k + hs)) file) as Hpre2.
  { rewrite Z2Nat.inj_add, <- drop_drop by lia. by apply prefix_drop. }
  rewrite (prefix_slice _ _ len Hpre2 Hle2), slice_drop in Heq |- * by lia.
  pose proof (Hcoll k len Hin Heq) as Hchunk. rewrite Hchunk.
  assert (zlen (slice file (pos k + hs) len) = len) as Hlen.
  { rewrite <- (slice_drop file) by lia. rewrite zlen_slice0 by done. pose proof (prefix_length _ _ Hpre2). unfold zlen in *. lia. }
  rewrite Hchunk in Hlen. assert (slice content (Z.of_nat k * shardSize) len = chunk k) as Hsame.
  { unfold chunk, slice in Hlen |- *. unfold zlen in Hlen. rewrite length_take in Hlen.
    set (rest := drop _ content) in *. destruct (Z.le_gt_cases shardSize (zlen rest)) as [Hle'|Hgt]; unfold zlen in *; [f_equal; lia|].
    rewrite !take_ge; [done|lia|lia]. }
  rewrite Hsame. split; [done|]. split_and!; try done. intros st' [= <-] j Hj. cbn [br_currOffset st_bytes] in *.
  assert (0 < len ≤ shardSize) as Hlen2.
  { unfold chunk, slice, zlen in Hlen. rewrite length_take, length_drop in Hlen. unfold zlen in Hin. lia. }
  rewrite <- Hk in Hj. assert ((Z.of_nat j - Z.of_nat k) * shardSize = len) as Hjk by lia.
  assert (Z.of_nat j - Z.of_nat k = 1) as Hone by nia. assert (j = S k) as -> by lia. assert (len = shardSize) as -> by nia.
  replace (pos (S k)) with (pos k + hs + shardSize) by (unfold pos; lia).
  rewrite Z2Nat.inj_add, <- drop_drop by lia. by apply prefix_drop.
Qed.

End Damaged.

End Layout.

(** ** Theorems *)

(** C25: [bitrotVerify], for the streaming algorithm, accepts the files that [streamingBitrotWriter] makes, and no others:
    it answers nil exactly when [wantSize] is the size of the file of a part of [partSize]
    bytes and the first [wantSize] bytes of the file are what a [streamingBitrotWriter] sends the drive
    when it is given some [partSize] bytes shard by shard and every write goes well. *)
Theorem bitrot_verify_iff `{BitrotHashLaws} r wantSize partSize want shardSize :
  0 < shardSize → 0 ≤ partSize →
  bitrotVerify r wantSize partSize HighwayHash256S want shardSize = Ok () ↔
  wantSize = bitrotShardFileSize partSize shardSize HighwayHash256S ∧
  ∃ content, zlen content = partSize ∧ slice (st_bytes r) 0 wantSize = bw_iow (bw_all (chunks shardSize content) (mkBW [] None)).
Proof.
  intros Hs Hp. setoid_rewrite (bw_all_file shardSize Hs). unfold bitrotVerify. change (negb (HighwayHash256S =? HighwayHash256S)) with false. cbv iota.
  destruct (Z.eqb_spec wantSize (bitrotShardFileSize partSize shardSize HighwayHash256S)) as [->|Hne]; cbn [negb]; [|by split; [|intros [? _]]].
  pose proof (size_bounds shardSize Hs partSize Hp) as [H1 _].
  rewrite verify_loop_spec by (done || lia). split; [by intros ?|by intros [_ ?]].
Qed.

(** The names of the algorithms stand for them: what [String] gives for an available algorithm is
    read back as that algorithm, [String] gives no name to any other, and no other
    string is read as an algorithm. *)
Theorem bitrot_names_roundtrip :
  (∀ a, Available a = true → ∃ s, BitrotAlgorithm_String a = Ok s ∧ BitrotAlgorithmFromString s = a) ∧
  (∀ a, Available a = false → ∀ s, BitrotAlgorithm_String a ≠ Ok s) ∧
  ∀ s, BitrotAlgorithmFromString s ≠ 0 → BitrotAlgorithm_String (BitrotAlgorithmFromString s) = Ok s.
Proof.
  split_and!.
  - intros a. unfold Available, BitrotAlgorithm_String, algorithm_name. cbn [List.find bitrotAlgorithms].
    repeat match goal with |- context [?x =? a] => destruct (Z.eqb_spec x a) as [<-|_]; [by eexists|] end. done.
  - intros a. unfold Available, BitrotAlgorithm_String. destruct (algorithm_name a); [|done]. by rewrite bool_decide_true.
  - intros s. unfold BitrotAlgorithmFromString. cbn [List.find bitrotAlgorithms].
    repeat match goal with |- context [String.eqb ?x s] => destruct (String.eqb_spec x s) as [<-|_]; [done|] end. done.
Qed.

(** *** A concrete hash: the number of bytes and their exclusive or *)

Definition demo_sum (x : bytes) : bytes :=
  [default Byte.x00 (Byte.of_N (N.of_nat (length x) mod 256)); foldl xor_byte Byte.x00 x].

#[export] Instance demo_hash : BitrotHash := { Sum _ x := demo_sum x; Size _ := 2 }.
#[export] Instance demo_hash_laws : BitrotHashLaws.
Proof. by split. Qed.

Lemma bitrot_verify_iff_witness :
  bitrotVerify (mkStream (bw_iow (bw_all [[Byte.x61; Byte.x62]; [Byte.x63]] (mkBW [] None))) EOF) 7 3 HighwayHash256S [] 2 = Ok ().
Proof.
  apply bitrot_verify_iff; [done|done|]. split; [done|]. exists [Byte.x61; Byte.x62; Byte.x63]. split; [done|vm_compute; reflexivity].
Defined.
