(* ===== verification/Msgp.v ===== *)
(** * MessagePack (the library github.com/tinylib/msgp)

    Versions of objects are stored in MessagePack. The functions of the library that the
    code calls are the class [Msgp]; what it relies on are the laws [MsgpLaws]: values are
    read back as they were written, lengths have 32 bits, and two forms of the format that
    the code writes itself, byte by byte. [MessagePack] is an instance that follows the
    published format. *)

From Stdlib Require Import ZArith Lia Bool.
From Stdlib.Strings Require Import Byte.
From S2P Require Import Prelude Erasure.

Local Open Scope Z_scope.

(** ** Bytes as numbers *)

Definition byte_of (z : Z) : byte := default x00 (Byte.of_N (Z.to_N (z mod 256))).
Definition byte_val (b : byte) : Z := Z.of_N (Byte.to_N b).

(** [binary.BigEndian], for numbers of [n] bytes. *)
Fixpoint be_bytes (n : nat) (z : Z) : bytes :=
  match n with O => [] | S n => be_bytes n (z / 256) ++ [byte_of z] end.
Definition be_val (b : bytes) : Z := foldl (λ acc c, acc * 256 + byte_val c) 0 b.

Lemma byte_val_of z : byte_val (byte_of z) = z mod 256.
Proof.
  unfold byte_val, byte_of. pose proof (Z.mod_pos_bound z 256). destruct (Byte.of_N (Z.to_N (z mod 256))) as [b|] eqn:E.
  - cbn [from_option id]. rewrite (Byte.to_of_N _ E). lia.
  - apply Byte.of_N_None_iff in E. lia.
Qed.

Lemma byte_val_range b : 0 ≤ byte_val b < 256.
Proof. unfold byte_val. pose proof (Byte.to_N_bounded b). lia. Qed.

Lemma byte_of_val b : byte_of (byte_val b) = b.
Proof. unfold byte_of. rewrite Z.mod_small by apply byte_val_range. unfold byte_val. rewrite N2Z.id, Byte.of_to_N. done. Qed.

Lemma be_bytes_length n z : length (be_bytes n z) = n.
Proof. revert z. induction n as [|n IH]; intros z; cbn [be_bytes]; [done|]. rewrite length_app, IH. cbn. lia. Qed.

Lemma be_val_snoc b c : be_val (b ++ [c]) = be_val b * 256 + byte_val c.
Proof. unfold be_val. by rewrite foldl_app. Qed.

Lemma be_val_bytes n z : be_val (be_bytes n z) = z mod 256 ^ Z.of_nat n.
Proof.
  revert z. induction n as [|n IH]; intros z; cbn [be_bytes]; [by rewrite Z.mod_1_r|].
  rewrite be_val_snoc, byte_val_of, IH, Nat2Z.inj_succ, Z.pow_succ_r by lia.
  pose proof (Z.pow_pos_nonneg 256 (Z.of_nat n)). rewrite Z.rem_mul_r by lia. lia.
Qed.

Lemma be_val_range b : 0 ≤ be_val b < 256 ^ zlen b.
Proof.
  unfold zlen. induction b as [|c b IH] using rev_ind; [done|]. rewrite be_val_snoc, length_app, Nat2Z.inj_add, Z.pow_add_r by lia.
  pose proof (byte_val_range c). cbn [length]. lia.
Qed.

Lemma be_bytes_val b : be_bytes (length b) (be_val b) = b.
Proof.
  induction b as [|c b IH] using rev_ind; [done|]. rewrite length_app, Nat.add_comm. cbn [length Nat.add be_bytes]. rewrite be_val_snoc.
  pose proof (byte_val_range c). rewrite Z.div_add_l, (Z.div_small (byte_val c)), Z.add_0_r, IH by lia. f_equal. f_equal.
  rewrite <- (byte_of_val c) at 2. unfold byte_of. rewrite (Z.add_comm (_ * _)), Z.mod_add by lia. done.
Qed.

(** ** The library *)

(** Go's [AppendX(dst, v)] is [dst ++ AppendX v]. A read gives the value and the rest of the
    buffer, or an error, with a zero value and the whole buffer. *)
Class Msgp := {
  AppendMapHeader : Z → bytes;
  AppendString : bytes → bytes;
  AppendBytes : bytes → bytes;
  AppendUint : Z → bytes;
  AppendInt : Z → bytes;
  AppendArrayHeader : Z → bytes;
  AppendNil : bytes;
  ReadMapHeaderBytes : bytes → option (Z * bytes);
  ReadArrayHeaderBytes : bytes → option (Z * bytes);
  ReadMapKeyZC : bytes → option (bytes * bytes);
  ReadStringBytes : bytes → option (bytes * bytes);
  ReadBytesZC : bytes → option (bytes * bytes);
  ReadBytesHeader : bytes → option (Z * bytes);
  ReadExactBytes : Z → bytes → option (bytes * bytes);
  IsNil : bytes → bool;
  Skip : bytes → option bytes;
  ReadUint8Bytes : bytes → option (Z * bytes);
  ReadUint32Bytes : bytes → option (Z * bytes);
  ReadIntBytes : bytes → option (Z * bytes);
}.

Definition max_uint32 : Z := 2 ^ 32 - 1.

(** Forms that the code writes itself: short strings, and headers of maps. *)
Definition fixstr (s : bytes) : bytes := byte_of (0xa0 + zlen s) :: s.
Definition fixmap (n : Z) : bytes := [byte_of (0x80 + n)].
Definition map16 (n : Z) : bytes := xde :: be_bytes 2 n.

(** Complete values. *)
Inductive msg_value `{Msgp} : bytes → Prop :=
  | mv_string s : zlen s ≤ max_uint32 → msg_value (AppendString s)
  | mv_bytes b : zlen b ≤ max_uint32 → msg_value (AppendBytes b)
  | mv_uint n : 0 ≤ n < 256 → msg_value (AppendUint n)
  | mv_int n : in_int64 n → msg_value (AppendInt n)
  | mv_nil : msg_value AppendNil
  | mv_array l : zlen l ≤ max_uint32 → Forall msg_value l → msg_value (AppendArrayHeader (zlen l) ++ concat l)
  | mv_map l : zlen l ≤ max_uint32 → Forall (λ kv, msg_value kv.1 ∧ msg_value kv.2) l →
      msg_value (AppendMapHeader (zlen l) ++ concat ((λ kv, kv.1 ++ kv.2) <$> l)).

Class MsgpLaws `{Msgp} := {
  read_map_header n rest : 0 ≤ n ≤ max_uint32 → ReadMapHeaderBytes (AppendMapHeader n ++ rest) = Some (n, rest);
  read_key s rest : zlen s ≤ max_uint32 → ReadMapKeyZC (AppendString s ++ rest) = Some (s, rest);
  read_bytes b rest : zlen b ≤ max_uint32 → ReadBytesZC (AppendBytes b ++ rest) = Some (b, rest);
  read_uint8 n rest : 0 ≤ n < 256 → ReadUint8Bytes (AppendUint n ++ rest) = Some (n, rest);
  read_int n rest : in_int64 n → ReadIntBytes (AppendInt n ++ rest) = Some (n, rest);
  read_bin32 b rest : zlen b ≤ max_uint32 → ReadBytesZC (xc6 :: be_bytes 4 (zlen b) ++ b ++ rest) = Some (b, rest);
  read_bin32_header n rest : 0 ≤ n ≤ max_uint32 → ReadBytesHeader (xc6 :: be_bytes 4 n ++ rest) = Some (n, rest);
  read_uint32 n rest : 0 ≤ n ≤ max_uint32 → ReadUint32Bytes (xce :: be_bytes 4 n ++ rest) = Some (n, rest);
  read_fixarray rest : ReadArrayHeaderBytes (x95 :: rest) = Some (5, rest);
  read_fixstr s rest : zlen s ≤ 31 → ReadMapKeyZC (fixstr s ++ rest) = Some (s, rest);
  read_fixmap n rest : 0 ≤ n ≤ 15 → ReadMapHeaderBytes (fixmap n ++ rest) = Some (n, rest) ∧ IsNil (fixmap n ++ rest) = false;
  read_map16 n rest : 0 ≤ n < 2 ^ 16 → ReadMapHeaderBytes (map16 n ++ rest) = Some (n, rest) ∧ IsNil (map16 n ++ rest) = false;
  read_array_header n rest : 0 ≤ n ≤ max_uint32 → ReadArrayHeaderBytes (AppendArrayHeader n ++ rest) = Some (n, rest) ∧ IsNil (AppendArrayHeader n ++ rest) = false;
  map_not_nil n rest : 0 ≤ n ≤ max_uint32 → IsNil (AppendMapHeader n ++ rest) = false;
  read_string s rest : zlen s ≤ max_uint32 → ReadStringBytes (AppendString s ++ rest) = Some (s, rest);
  read_exact n b rest : zlen b = n → n ≤ max_uint32 → ReadExactBytes n (AppendBytes b ++ rest) = Some (b, rest);
  read_nil rest : IsNil (AppendNil ++ rest) = true ∧ tail (AppendNil ++ rest) = rest;
  skip_value v rest : msg_value v → Skip (v ++ rest) = Some rest;
  map_header_empty : ReadMapHeaderBytes [] = None;
  map_header_range b n rest : ReadMapHeaderBytes b = Some (n, rest) → 0 ≤ n ≤ max_uint32;
  key_short b s rest : ReadMapKeyZC b = Some (s, rest) → zlen s ≤ max_uint32;
  bytes_short b v rest : ReadBytesZC b = Some (v, rest) → zlen v ≤ max_uint32;
}.

(** ** The published format *)

Section Format.

Definition read_be (n : nat) (b : bytes) : option (Z * bytes) :=
  if (n <=? length b)%nat then Some (be_val (take n b), drop n b) else None.

Definition signed (n : nat) (z : Z) : Z := if z <? 256 ^ Z.of_nat n / 2 then z else z - 256 ^ Z.of_nat n.

(** A block of the length just read. *)
Definition read_block (p : option (Z * bytes)) : option (bytes * bytes) :=
  '(n, b) ← p; if zlen b <? n then None else Some (take (Z.to_nat n) b, drop (Z.to_nat n) b).

(** The first byte decides. *)
Definition by_lead {A} (b : bytes) (f : Z → bytes → option A) : option A :=
  match b with [] => None | lead :: b => f (byte_val lead) b end.

Definition mp_AppendMapHeader (n : Z) : bytes :=
  if n <=? 15 then [byte_of (0x80 + n)] else if n <? 2 ^ 16 then xde :: be_bytes 2 n else xdf :: be_bytes 4 n.

Definition mp_AppendString (s : bytes) : bytes :=
  let n := zlen s in
  (if n <=? 31 then [byte_of (0xa0 + n)] else if n <? 2 ^ 8 then xd9 :: be_bytes 1 n
   else if n <? 2 ^ 16 then xda :: be_bytes 2 n else xdb :: be_bytes 4 n) ++ s.

Definition mp_AppendBytes (b : bytes) : bytes :=
  let n := zlen b in
  (if n <? 2 ^ 8 then xc4 :: be_bytes 1 n else if n <? 2 ^ 16 then xc5 :: be_bytes 2 n else xc6 :: be_bytes 4 n) ++ b.

Definition mp_AppendUint (n : Z) : bytes :=
  if n <? 128 then [byte_of n] else if n <? 2 ^ 8 then xcc :: be_bytes 1 n else if n <? 2 ^ 16 then xcd :: be_bytes 2 n
  else if n <? 2 ^ 32 then xce :: be_bytes 4 n else xcf :: be_bytes 8 n.

Definition mp_AppendInt (n : Z) : bytes :=
  if (0 <=? n) && (n <? 128) then [byte_of n] else if (-32 <=? n) && (n <? 0) then [byte_of n]
  else if (- 2 ^ 15 <=? n) && (n <? 2 ^ 15) then xd1 :: be_bytes 2 n
  else if (- 2 ^ 31 <=? n) && (n <? 2 ^ 31) then xd2 :: be_bytes 4 n else xd3 :: be_bytes 8 n.

Definition mp_ReadMapHeader (b : bytes) : option (Z * bytes) :=
  by_lead b (λ l b, if l / 16 =? 8 then Some (l mod 16, b) else if l =? 0xde then read_be 2 b else if l =? 0xdf then read_be 4 b else None).

Definition mp_ReadArrayHeader (b : bytes) : option (Z * bytes) :=
  by_lead b (λ l b, if l / 16 =? 9 then Some (l mod 16, b) else if l =? 0xdc then read_be 2 b else if l =? 0xdd then read_be 4 b else None).

Definition mp_ReadBytesHeader (b : bytes) : option (Z * bytes) :=
  by_lead b (λ l b, if l =? 0xc4 then read_be 1 b else if l =? 0xc5 then read_be 2 b else if l =? 0xc6 then read_be 4 b else None).

Definition mp_ReadBytes (b : bytes) : option (bytes * bytes) :=
  by_lead b (λ l b, read_block (if l =? 0xc4 then read_be 1 b else if l =? 0xc5 then read_be 2 b else if l =? 0xc6 then read_be 4 b else None)).

Definition mp_ReadMapKey (b : bytes) : option (bytes * bytes) :=
  by_lead b (λ l b', if l / 32 =? 5 then read_block (Some (l mod 32, b')) else if l =? 0xd9 then read_block (read_be 1 b')
                     else if l =? 0xda then read_block (read_be 2 b') else if l =? 0xdb then read_block (read_be 4 b') else mp_ReadBytes b).

Definition mp_ReadInt (b : bytes) : option (Z * bytes) :=
  by_lead b (λ l b,
    let read_signed n := '(z, b) ← read_be n b; Some (signed n z, b) in
    if l <? 128 then Some (l, b) else if 224 <=? l then Some (l - 256, b)
    else if l =? 0xcc then read_be 1 b else if l =? 0xcd then read_be 2 b else if l =? 0xce then read_be 4 b
    else if l =? 0xcf then ('(z, b) ← read_be 8 b; if z <=? max_int64 then Some (z, b) else None)
    else if l =? 0xd0 then read_signed 1%nat else if l =? 0xd1 then read_signed 2%nat
    else if l =? 0xd2 then read_signed 4%nat else if l =? 0xd3 then read_signed 8%nat else None).

Definition mp_AppendArrayHeader (n : Z) : bytes :=
  if n <=? 15 then [byte_of (0x90 + n)] else if n <? 2 ^ 16 then xdc :: be_bytes 2 n else xdd :: be_bytes 4 n.

Definition mp_ReadString (b : bytes) : option (bytes * bytes) :=
  by_lead b (λ l b, read_block (if l / 32 =? 5 then Some (l mod 32, b) else if l =? 0xd9 then read_be 1 b
                                else if l =? 0xda then read_be 2 b else if l =? 0xdb then read_be 4 b else None)).

Definition mp_ReadExact (n : Z) (b : bytes) : option (bytes * bytes) :=
  '(v, b) ← mp_ReadBytes b; if zlen v =? n then Some (v, b) else None.

Definition mp_IsNil (b : bytes) : bool := match b with xc0 :: _ => true | _ => false end.

(** What follows a first byte: a number of bytes, and of values. *)
Definition mp_size (l : Z) (b : bytes) : option (Z * Z) :=
  let block n := '(z, _) ← read_be n b; Some (Z.of_nat n + z, 0) in
  let items n k := '(z, _) ← read_be n b; Some (Z.of_nat n, k * z) in
  if (l <? 128) || (224 <=? l) then Some (0, 0)
  else if l / 16 =? 8 then Some (0, 2 * (l mod 16)) else if l / 16 =? 9 then Some (0, l mod 16)
  else if l / 32 =? 5 then Some (l mod 32, 0)
  else if (l =? 0xc0) || (l =? 0xc2) || (l =? 0xc3) then Some (0, 0)
  else if (l =? 0xc4) || (l =? 0xd9) then block 1%nat else if (l =? 0xc5) || (l =? 0xda) then block 2%nat else if (l =? 0xc6) || (l =? 0xdb) then block 4%nat
  else if (l =? 0xcc) || (l =? 0xd0) then Some (1, 0) else if (l =? 0xcd) || (l =? 0xd1) then Some (2, 0)
  else if (l =? 0xca) || (l =? 0xce) || (l =? 0xd2) then Some (4, 0) else if (l =? 0xcb) || (l =? 0xcf) || (l =? 0xd3) then Some (8, 0)
  else if l =? 0xdc then items 2%nat 1 else if l =? 0xdd then items 4%nat 1 else if l =? 0xde then items 2%nat 2 else if l =? 0xdf then items 4%nat 2
  else None.

(** [n] values; every step takes a byte. *)
Fixpoint mp_skip_n (fuel : nat) (n : Z) (b : bytes) : option bytes :=
  if n <=? 0 then Some b
  else match fuel with
       | O => None
       | S fuel => by_lead b (λ l b, '(sz, items) ← mp_size l b; if zlen b <? sz then None else mp_skip_n fuel (n - 1 + items) (drop (Z.to_nat sz) b))
       end.

Definition mp_Skip (b : bytes) : option bytes := mp_skip_n (length b) 1 b.

(** A number of at most [max], if it is not negative. *)
Definition mp_ReadUint (max : Z) (b : bytes) : option (Z * bytes) :=
  '(z, b) ← mp_ReadInt b; if (0 <=? z) && (z <=? max) then Some (z, b) else None.

Lemma read_be_app n z rest : 0 ≤ z < 256 ^ Z.of_nat n → read_be n (be_bytes n z ++ rest) = Some (z, rest).
Proof.
  intros Hz. unfold read_be. rewrite length_app, be_bytes_length, (proj2 (Nat.leb_le _ _)) by lia.
  rewrite take_app_length', drop_app_length', be_val_bytes, Z.mod_small by (rewrite ?be_bytes_length; lia). done.
Qed.

Lemma read_be_range n b z rest : read_be n b = Some (z, rest) → 0 ≤ z < 256 ^ Z.of_nat n.
Proof.
  unfold read_be. destruct (n <=? length b)%nat eqn:E; [|done]. intros [= <- _]. pose proof (be_val_range (take n b)) as H.
  unfold zlen in H. rewrite length_take, Nat.min_l in H by (by apply Nat.leb_le). done.
Qed.

Lemma read_be_signed n z rest : (0 < n)%nat → - (256 ^ Z.of_nat n / 2) ≤ z < 256 ^ Z.of_nat n / 2 →
  ('(z, b) ← read_be n (be_bytes n z ++ rest); Some (signed n z, b)) = Some (z, rest).
Proof.
  intros Hn Hz. unfold read_be. rewrite length_app, be_bytes_length, (proj2 (Nat.leb_le _ _)) by lia.
  rewrite take_app_length', drop_app_length', be_val_bytes by (rewrite ?be_bytes_length; lia). cbn [mbind option_bind].
  do 2 f_equal. unfold signed.
  assert (256 ^ Z.of_nat n = 2 * (256 ^ Z.of_nat n / 2)) as Hev.
  { destruct n as [|n]; [lia|]. rewrite Nat2Z.inj_succ, Z.pow_succ_r by lia.
    replace (256 * 256 ^ Z.of_nat n) with ((128 * 256 ^ Z.of_nat n) * 2) by lia. rewrite Z.div_mul by lia. lia. }
  set (h := 256 ^ Z.of_nat n / 2) in *. rewrite Hev. destruct (decide (0 ≤ z)).
  - rewrite Z.mod_small by lia. by rewrite (proj2 (Z.ltb_lt _ _)) by lia.
  - rewrite <- (Z.mod_unique z (2 * h) (-1) (z + 2 * h)) by lia. rewrite (proj2 (Z.ltb_ge _ _)) by lia. lia.
Qed.

Lemma read_block_app s rest : read_block (Some (zlen s, s ++ rest)) = Some (s, rest).
Proof.
  unfold read_block, zlen. cbn [mbind option_bind]. rewrite length_app, (proj2 (Z.ltb_ge _ _)) by lia.
  by rewrite Nat2Z.id, take_app_length, drop_app_length.
Qed.

Lemma read_block_short p n b s rest : p = Some (n, b) → 0 ≤ n → read_block p = Some (s, rest) → zlen s ≤ n.
Proof.
  intros -> Hn. unfold read_block, zlen. cbn [mbind option_bind]. destruct (_ <? _) eqn:E; [done|]. intros [= <- _]. rewrite length_take. apply Z.ltb_ge in E. lia.
Qed.

Lemma by_lead_const {A} c b (f : Z → bytes → option A) : by_lead (c :: b) f = f (byte_val c) b.
Proof. done. Qed.

Lemma by_lead_of {A} z b (f : Z → bytes → option A) : 0 ≤ z < 256 → by_lead (byte_of z :: b) f = f z b.
Proof. intros Hz. cbn [by_lead]. by rewrite byte_val_of, Z.mod_small. Qed.

End Format.

#[global] Instance MessagePack : Msgp := {|
  AppendMapHeader := mp_AppendMapHeader;
  AppendString := mp_AppendString;
  AppendBytes := mp_AppendBytes;
  AppendUint := mp_AppendUint;
  AppendInt := mp_AppendInt;
  AppendArrayHeader := mp_AppendArrayHeader;
  AppendNil := [xc0];
  ReadMapHeaderBytes := mp_ReadMapHeader;
  ReadArrayHeaderBytes := mp_ReadArrayHeader;
  ReadMapKeyZC := mp_ReadMapKey;
  ReadStringBytes := mp_ReadString;
  ReadExactBytes := mp_ReadExact;
  IsNil := mp_IsNil;
  Skip := mp_Skip;
  ReadBytesZC := mp_ReadBytes;
  ReadBytesHeader := mp_ReadBytesHeader;
  ReadUint8Bytes := mp_ReadUint 255;
  ReadUint32Bytes := mp_ReadUint max_uint32;
  ReadIntBytes := mp_ReadInt;
|}.

(** Reads whose first byte is a constant. *)
Ltac by_first_byte :=
  repeat match goal with
  | |- context [by_lead (?c :: ?b) ?f] => rewrite (by_lead_const c b f); let v := eval vm_compute in (byte_val c) in change (byte_val c) with v; cbn -[be_bytes read_be zlen read_block Z.pow signed]
  end.

Lemma mp_map_header n rest : 0 ≤ n ≤ max_uint32 → mp_ReadMapHeader (mp_AppendMapHeader n ++ rest) = Some (n, rest).
Proof.
  unfold max_uint32. intros Hn. unfold mp_AppendMapHeader, mp_ReadMapHeader. destruct (n <=? 15) eqn:E; [|destruct (n <? 2 ^ 16) eqn:E2]; destruct_bools; cbn [app].
  - rewrite by_lead_of by lia. replace ((128 + n) / 16) with 8 by (apply (Z.div_unique _ _ _ n); lia).
    replace ((128 + n) mod 16) with n by (apply (Z.mod_unique _ _ 8); lia). done.
  - by_first_byte. apply read_be_app. lia.
  - by_first_byte. apply read_be_app. lia.
Qed.

Lemma mp_bytes b rest : zlen b ≤ max_uint32 → mp_ReadBytes (mp_AppendBytes b ++ rest) = Some (b, rest).
Proof.
  unfold max_uint32. intros Hn. assert (0 ≤ zlen b) by (unfold zlen; lia). unfold mp_AppendBytes, mp_ReadBytes.
  destruct (zlen b <? 2 ^ 8) eqn:E; [|destruct (zlen b <? 2 ^ 16) eqn:E2]; destruct_bools; rewrite <- app_assoc; cbn [app];
    by_first_byte; rewrite read_be_app by lia; apply read_block_app.
Qed.

Lemma mp_key s rest : zlen s ≤ max_uint32 → mp_ReadMapKey (mp_AppendString s ++ rest) = Some (s, rest).
Proof.
  unfold max_uint32. intros Hn. assert (0 ≤ zlen s) by (unfold zlen; lia). unfold mp_AppendString, mp_ReadMapKey.
  destruct (zlen s <=? 31) eqn:E; [|destruct (zlen s <? 2 ^ 8) eqn:E1; [|destruct (zlen s <? 2 ^ 16) eqn:E2]]; destruct_bools; rewrite <- app_assoc; cbn [app].
  - rewrite by_lead_of by lia. replace ((160 + zlen s) / 32) with 5 by (apply (Z.div_unique _ _ _ (zlen s)); lia).
    replace ((160 + zlen s) mod 32) with (zlen s) by (apply (Z.mod_unique _ _ 5); lia). apply read_block_app.
  - by_first_byte. rewrite read_be_app by lia. apply read_block_app.
  - by_first_byte. rewrite read_be_app by lia. apply read_block_app.
  - by_first_byte. rewrite read_be_app by lia. apply read_block_app.
Qed.

Lemma mp_int n rest : in_int64 n → mp_ReadInt (mp_AppendInt n ++ rest) = Some (n, rest).
Proof.
  unfold in_int64, min_int64, max_int64. intros Hn. unfold mp_AppendInt, mp_ReadInt.
  destruct ((0 <=? n) && (n <? 128)) eqn:E; [|destruct ((-32 <=? n) && (n <? 0)) eqn:E1; [|destruct ((- 2 ^ 15 <=? n) && (n <? 2 ^ 15)) eqn:E2;
    [|destruct ((- 2 ^ 31 <=? n) && (n <? 2 ^ 31)) eqn:E3]]]; destruct_bools; cbn [app].
  - rewrite by_lead_of by lia. by rewrite (proj2 (Z.ltb_lt _ _)) by lia.
  - replace (byte_of n) with (byte_of (n + 256)) by (unfold byte_of; by rewrite <- (Z.mod_add n 1 256)). rewrite by_lead_of by lia.
    rewrite (proj2 (Z.ltb_ge _ _)), (proj2 (Z.leb_le _ _)) by lia. do 2 f_equal. lia.
  - by_first_byte. apply (read_be_signed 2); [lia|]. change (256 ^ Z.of_nat 2 / 2) with (2 ^ 15). lia.
  - by_first_byte. apply (read_be_signed 4); [lia|]. change (256 ^ Z.of_nat 4 / 2) with (2 ^ 31). lia.
  - by_first_byte. apply (read_be_signed 8); [lia|]. change (256 ^ Z.of_nat 8 / 2) with (2 ^ 63). lia.
Qed.

Lemma mp_uint8 n rest : 0 ≤ n < 256 → mp_ReadUint 255 (mp_AppendUint n ++ rest) = Some (n, rest).
Proof.
  intros Hn. unfold mp_AppendUint, mp_ReadUint, mp_ReadInt. destruct (n <? 128) eqn:E; [|destruct (n <? 2 ^ 8) eqn:E1]; destruct_bools; cbn [app]; [| |lia].
  - rewrite by_lead_of by lia. rewrite (proj2 (Z.ltb_lt _ _)) by lia. cbn [mbind option_bind].
    rewrite (proj2 (Z.leb_le 0 n)), (proj2 (Z.leb_le n 255)) by lia. done.
  - by_first_byte. rewrite read_be_app by lia. cbn [mbind option_bind]. rewrite (proj2 (Z.leb_le 0 n)), (proj2 (Z.leb_le n 255)) by lia. done.
Qed.

Lemma block_be_short n b v rest : (n ≤ 4)%nat → read_block (read_be n b) = Some (v, rest) → zlen v ≤ max_uint32.
Proof.
  unfold max_uint32. intros Hn. destruct (read_be n b) as [[z b']|] eqn:E; [|done]. pose proof (read_be_range _ _ _ _ E) as Hz.
  intros Hr. apply (read_block_short _ _ _ _ _ eq_refl) in Hr; [|lia]. pose proof (Z.pow_le_mono_r 256 (Z.of_nat n) 4). lia.
Qed.

Lemma mp_bytes_short b v rest : mp_ReadBytes b = Some (v, rest) → zlen v ≤ max_uint32.
Proof.
  unfold mp_ReadBytes, by_lead. destruct b as [|l b]; [done|]. repeat case_if; try (apply block_be_short; lia). done.
Qed.

Lemma mp_key_short b s rest : mp_ReadMapKey b = Some (s, rest) → zlen s ≤ max_uint32.
Proof.
  unfold mp_ReadMapKey, by_lead. destruct b as [|l b]; [done|]. repeat case_if; try (apply block_be_short; lia); [|apply mp_bytes_short].
  pose proof (Z.mod_pos_bound (byte_val l) 32). intros Hr%(read_block_short _ _ _ _ _ eq_refl); unfold max_uint32; lia.
Qed.

Lemma mp_string s rest : zlen s ≤ max_uint32 → mp_ReadString (mp_AppendString s ++ rest) = Some (s, rest).
Proof.
  unfold max_uint32. intros Hn. assert (0 ≤ zlen s) by (unfold zlen; lia). unfold mp_AppendString, mp_ReadString.
  destruct (zlen s <=? 31) eqn:E; [|destruct (zlen s <? 2 ^ 8) eqn:E1; [|destruct (zlen s <? 2 ^ 16) eqn:E2]]; destruct_bools; rewrite <- app_assoc; cbn [app].
  - rewrite by_lead_of by lia. replace ((160 + zlen s) / 32) with 5 by (apply (Z.div_unique _ _ _ (zlen s)); lia).
    replace ((160 + zlen s) mod 32) with (zlen s) by (apply (Z.mod_unique _ _ 5); lia). apply read_block_app.
  - by_first_byte. rewrite read_be_app by lia. apply read_block_app.
  - by_first_byte. rewrite read_be_app by lia. apply read_block_app.
  - by_first_byte. rewrite read_be_app by lia. apply read_block_app.
Qed.

Lemma not_nil_lead z rest : 0 ≤ z < 256 → z ≠ 0xc0 → mp_IsNil (byte_of z :: rest) = false.
Proof.
  intros Hz Hne. destruct (Byte.byte_eq_dec (byte_of z) xc0) as [E|E].
  - apply (f_equal byte_val) in E. rewrite byte_val_of, Z.mod_small in E by done. change (byte_val xc0) with 192 in E. lia.
  - cbn. by destruct (byte_of z).
Qed.

Lemma mp_array_header n rest : 0 ≤ n ≤ max_uint32 →
  mp_ReadArrayHeader (mp_AppendArrayHeader n ++ rest) = Some (n, rest) ∧ mp_IsNil (mp_AppendArrayHeader n ++ rest) = false.
Proof.
  unfold max_uint32. intros Hn. unfold mp_AppendArrayHeader, mp_ReadArrayHeader. destruct (n <=? 15) eqn:E; [|destruct (n <? 2 ^ 16) eqn:E2]; destruct_bools; cbn [app].
  - rewrite by_lead_of, not_nil_lead by lia. replace ((144 + n) / 16) with 9 by (apply (Z.div_unique _ _ _ n); lia).
    replace ((144 + n) mod 16) with n by (apply (Z.mod_unique _ _ 9); lia). done.
  - split; [|done]. by_first_byte. apply read_be_app. lia.
  - split; [|done]. by_first_byte. apply read_be_app. lia.
Qed.

Lemma mp_map_not_nil n rest : 0 ≤ n ≤ max_uint32 → mp_IsNil (mp_AppendMapHeader n ++ rest) = false.
Proof.
  unfold max_uint32. intros Hn. unfold mp_AppendMapHeader. destruct (n <=? 15) eqn:E; [|destruct (n <? 2 ^ 16) eqn:E2]; destruct_bools; cbn [app]; [|done|done].
  apply not_nil_lead; lia.
Qed.

(** *** Skipping *)

(** [v] is skipped as one value. *)
Definition skips (v : bytes) : Prop :=
  ∃ steps, (steps ≤ length v)%nat ∧ ∀ fuel n rest, 0 ≤ n → mp_skip_n (steps + fuel) (n + 1) (v ++ rest) = mp_skip_n fuel n rest.

(** A first byte, a body, and values. *)
Lemma skips_items c body l :
  (∀ rest, mp_size (byte_val c) (body ++ rest) = Some (zlen body, zlen l)) → Forall skips l → skips (c :: body ++ concat l).
Proof.
  intros Hsz Hl. assert (∃ steps, (steps ≤ length (concat l))%nat ∧ ∀ fuel n rest, 0 ≤ n → mp_skip_n (steps + fuel) (n + zlen l) (concat l ++ rest) = mp_skip_n fuel n rest) as (steps & Hs & Hk).
  { clear Hsz. induction Hl as [|v l (s1 & Hs1 & Hk1) _ (s2 & Hs2 & Hk2)]; [exists 0%nat; split; [cbn; lia|]; intros; cbn; by rewrite Z.add_0_r|].
    exists (s1 + s2)%nat. cbn [concat]. split; [rewrite length_app; lia|]. intros fuel n rest Hn. rewrite <- app_assoc, <- Nat.add_assoc.
    replace (n + zlen (v :: l)) with ((n + zlen l) + 1) by (unfold zlen; cbn [length]; lia). rewrite Hk1 by (unfold zlen; lia). by apply Hk2. }
  exists (S steps). split; [cbn [length]; rewrite length_app; lia|]. intros fuel n rest Hn. cbn [Nat.add mp_skip_n app]. rewrite (proj2 (Z.leb_gt _ _)) by lia.
  rewrite by_lead_const, <- app_assoc, Hsz. cbn [mbind option_bind]. rewrite (proj2 (Z.ltb_ge _ _)) by (unfold zlen; rewrite length_app; lia).
  unfold zlen at 2. rewrite Nat2Z.id, drop_app_length. replace (n + 1 - 1 + zlen l) with (n + zlen l) by lia. by apply Hk.
Qed.

Lemma skips_leaf c body : (∀ rest, mp_size (byte_val c) (body ++ rest) = Some (zlen body, 0)) → skips (c :: body).
Proof. intros Hsz. rewrite <- (app_nil_r (c :: body)). apply (skips_items c body []); [done|constructor]. Qed.

Lemma skips_Skip v rest : skips v → mp_Skip (v ++ rest) = Some rest.
Proof.
  intros (steps & Hs & Hk). unfold mp_Skip. replace (length (v ++ rest)) with (steps + (length (v ++ rest) - steps))%nat by (rewrite length_app; lia).
  change 1 with (0 + 1). rewrite Hk by lia. by destruct (length (v ++ rest) - steps)%nat.
Qed.

Ltac const_lead := match goal with |- context [mp_size (byte_val ?c)] => let v := eval vm_compute in (byte_val c) in change (byte_val c) with v end; unfold mp_size; cbn -[read_be be_bytes zlen app].

Lemma zlen_be n z : zlen (be_bytes n z) = Z.of_nat n.
Proof. unfold zlen. by rewrite be_bytes_length. Qed.

Lemma zlen_block n z s : zlen (be_bytes n z ++ s) = Z.of_nat n + zlen s.
Proof. unfold zlen. rewrite length_app, be_bytes_length. lia. Qed.

Lemma skips_string s : zlen s ≤ max_uint32 → skips (mp_AppendString s).
Proof.
  unfold max_uint32. intros Hn. assert (0 ≤ zlen s) by (unfold zlen; lia). unfold mp_AppendString.
  destruct (zlen s <=? 31) eqn:E; [|destruct (zlen s <? 2 ^ 8) eqn:E1; [|destruct (zlen s <? 2 ^ 16) eqn:E2]]; destruct_bools; cbn [app]; apply skips_leaf; intros rest.
  - rewrite byte_val_of, Z.mod_small by lia. unfold mp_size. rewrite (proj2 (Z.ltb_ge _ _)), (proj2 (Z.leb_gt _ _)) by lia. cbn [orb].
    assert ((160 + zlen s) / 16 = 10 ∨ (160 + zlen s) / 16 = 11) as [-> | ->].
    { destruct (decide (zlen s < 16)); [left; symmetry; apply (Z.div_unique _ _ _ (zlen s)); lia|right; symmetry; apply (Z.div_unique _ _ _ (zlen s - 16)); lia]. }
    all: replace ((160 + zlen s) / 32) with 5 by (apply (Z.div_unique _ _ _ (zlen s)); lia);
      replace ((160 + zlen s) mod 32) with (zlen s) by (apply (Z.mod_unique _ _ 5); lia); done.
  - const_lead. rewrite <- app_assoc, read_be_app, zlen_block by lia. done.
  - const_lead. rewrite <- app_assoc, read_be_app, zlen_block by lia. done.
  - const_lead. rewrite <- app_assoc, read_be_app, zlen_block by lia. done.
Qed.

Lemma skips_bytes b : zlen b ≤ max_uint32 → skips (mp_AppendBytes b).
Proof.
  unfold max_uint32. intros Hn. assert (0 ≤ zlen b) by (unfold zlen; lia). unfold mp_AppendBytes.
  destruct (zlen b <? 2 ^ 8) eqn:E1; [|destruct (zlen b <? 2 ^ 16) eqn:E2]; destruct_bools; cbn [app]; apply skips_leaf; intros rest;
    const_lead; rewrite <- app_assoc, read_be_app, zlen_block by lia; done.
Qed.

Lemma small_size z b : 0 ≤ z < 256 → z < 128 ∨ 224 ≤ z → mp_size (byte_val (byte_of z)) b = Some (0, 0).
Proof.
  intros Hz Hs. rewrite byte_val_of, Z.mod_small by lia. unfold mp_size.
  replace ((z <? 128) || (224 <=? z)) with true; [done|]. symmetry. apply orb_true_iff. rewrite Z.ltb_lt, Z.leb_le. lia.
Qed.

Lemma skips_uint n : 0 ≤ n < 256 → skips (mp_AppendUint n).
Proof.
  intros Hn. unfold mp_AppendUint. destruct (n <? 128) eqn:E; [|destruct (n <? 2 ^ 8) eqn:E1]; destruct_bools; [| |lia]; apply skips_leaf; intros rest.
  - apply small_size; lia.
  - by const_lead.
Qed.

Lemma skips_int n : in_int64 n → skips (mp_AppendInt n).
Proof.
  intros Hn. unfold mp_AppendInt. repeat case_if; destruct_bools; apply skips_leaf; intros rest; try (by const_lead).
  - apply small_size; lia.
  - replace (byte_of n) with (byte_of (n + 256)) by (unfold byte_of; by rewrite <- (Z.mod_add n 1 256)). apply small_size; lia.
Qed.

Lemma skips_array l : zlen l ≤ max_uint32 → Forall skips l → skips (mp_AppendArrayHeader (zlen l) ++ concat l).
Proof.
  unfold max_uint32. intros Hn Hl. assert (0 ≤ zlen l) by (unfold zlen; lia). unfold mp_AppendArrayHeader.
  destruct (zlen l <=? 15) eqn:E; [|destruct (zlen l <? 2 ^ 16) eqn:E2]; destruct_bools; cbn [app].
  - apply (skips_items (byte_of (0x90 + zlen l)) []); [|done]. intros rest. rewrite byte_val_of, Z.mod_small by lia. unfold mp_size.
    rewrite (proj2 (Z.ltb_ge _ _)), (proj2 (Z.leb_gt _ _)) by lia. cbn [orb]. replace ((144 + zlen l) / 16) with 9 by (apply (Z.div_unique _ _ _ (zlen l)); lia).
    replace ((144 + zlen l) mod 16) with (zlen l) by (apply (Z.mod_unique _ _ 9); lia). done.
  - apply skips_items; [|done]. intros rest. const_lead. rewrite read_be_app, zlen_be by lia. cbn [mbind option_bind]. by rewrite Z.mul_1_l.
  - apply skips_items; [|done]. intros rest. const_lead. rewrite read_be_app, zlen_be by lia. cbn [mbind option_bind]. by rewrite Z.mul_1_l.
Qed.

Lemma skips_map l : zlen l ≤ max_uint32 → Forall (λ kv, skips kv.1 ∧ skips kv.2) l →
  skips (mp_AppendMapHeader (zlen l) ++ concat ((λ kv : bytes * bytes, kv.1 ++ kv.2) <$> l)).
Proof.
  unfold max_uint32. intros Hn Hl. assert (0 ≤ zlen l) by (unfold zlen; lia). pose (flat := concat ((λ kv : bytes * bytes, [kv.1; kv.2]) <$> l)).
  assert (Forall skips flat ∧ concat flat = concat ((λ kv : bytes * bytes, kv.1 ++ kv.2) <$> l) ∧ zlen flat = 2 * zlen l) as (Hf & <- & Hz).
  { unfold flat, zlen. clear -Hl. induction Hl as [|kv l [Hk Hv] _ (IH1 & IH2 & IH3)]; [done|]. cbn [fmap list_fmap concat app]. split; [by repeat constructor|].
    split; [cbn [concat]; by rewrite IH2, app_assoc|]. cbn [length] in *. lia. }
  unfold mp_AppendMapHeader. destruct (zlen l <=? 15) eqn:E; [|destruct (zlen l <? 2 ^ 16) eqn:E2]; destruct_bools; cbn [app].
  - apply (skips_items (byte_of (0x80 + zlen l)) []); [|done]. intros rest. rewrite byte_val_of, Z.mod_small by lia. unfold mp_size.
    rewrite (proj2 (Z.ltb_ge _ _)), (proj2 (Z.leb_gt _ _)) by lia. cbn [orb]. replace ((128 + zlen l) / 16) with 8 by (apply (Z.div_unique _ _ _ (zlen l)); lia).
    replace ((128 + zlen l) mod 16) with (zlen l) by (apply (Z.mod_unique _ _ 8); lia). by rewrite Hz.
  - apply skips_items; [|done]. intros rest. const_lead. rewrite read_be_app, zlen_be, Hz by lia. done.
  - apply skips_items; [|done]. intros rest. const_lead. rewrite read_be_app, zlen_be, Hz by lia. done.
Qed.

Lemma value_skips (v : bytes) : msg_value v → skips v.
Proof.
  revert v. fix IH 2. intros v [s Hs|b Hb|n Hn|n Hn| |l Hn Hl|l Hn Hl].
  - by apply skips_string.
  - by apply skips_bytes.
  - by apply skips_uint.
  - by apply skips_int.
  - by apply (skips_leaf xc0 []).
  - apply skips_array; [done|]. clear Hn. induction Hl as [|w l Hv _ IHl]; constructor; [by apply IH|done].
  - apply skips_map; [done|]. clear Hn. induction Hl as [|kv l [Hk Hv] _ IHl]; constructor; [split; by apply IH|done].
Qed.

#[global] Instance MessagePack_laws : MsgpLaws.
Proof.
  split; cbn [ReadMapHeaderBytes AppendMapHeader ReadMapKeyZC AppendString ReadBytesZC AppendBytes ReadUint8Bytes AppendUint ReadIntBytes AppendInt
              ReadUint32Bytes ReadArrayHeaderBytes AppendArrayHeader AppendNil ReadStringBytes ReadBytesHeader ReadExactBytes IsNil Skip MessagePack].
  - apply mp_map_header.
  - apply mp_key.
  - apply mp_bytes.
  - apply mp_uint8.
  - apply mp_int.
  - unfold max_uint32. intros b rest Hb. assert (0 ≤ zlen b) by (unfold zlen; lia). unfold mp_ReadBytes. by_first_byte. rewrite read_be_app by lia. apply read_block_app.
  - unfold max_uint32. intros n rest Hn. unfold mp_ReadBytesHeader. by_first_byte. apply read_be_app. lia.
  - unfold max_uint32. intros n rest Hn. unfold mp_ReadUint, mp_ReadInt. by_first_byte. rewrite read_be_app by lia. cbn [mbind option_bind].
    rewrite (proj2 (Z.leb_le 0 n)), (proj2 (Z.leb_le n _)) by lia. done.
  - done.
  - intros s rest Hs. replace (fixstr s) with (mp_AppendString s) by (unfold mp_AppendString; by rewrite (proj2 (Z.leb_le _ _)) by done). apply mp_key. unfold max_uint32. lia.
  - intros n rest Hn. replace (fixmap n) with (mp_AppendMapHeader n) by (unfold mp_AppendMapHeader; by rewrite (proj2 (Z.leb_le n 15)) by lia).
    split; [apply mp_map_header|apply mp_map_not_nil]; unfold max_uint32; lia.
  - intros n rest Hn. split; [|done]. unfold map16, mp_ReadMapHeader. cbn [app]. by_first_byte. apply read_be_app. lia.
  - apply mp_array_header.
  - apply mp_map_not_nil.
  - apply mp_string.
  - intros n b rest <- Hb. unfold mp_ReadExact. rewrite mp_bytes by done. cbn [mbind option_bind]. by rewrite Z.eqb_refl.
  - done.
  - intros v rest Hv. by apply skips_Skip, value_skips.
  - done.
  - intros [|l b] n rest; cbn [mp_ReadMapHeader by_lead]; [done|]. unfold mp_ReadMapHeader, by_lead, max_uint32. pose proof (byte_val_range l).
    repeat case_if; try done; [intros [= <- _]; pose proof (Z.mod_pos_bound (byte_val l) 16); lia|..]; intros Hr%read_be_range; lia.
  - intros b s rest. apply mp_key_short.
  - intros b v rest. apply mp_bytes_short.
Qed.
