(* ===== verification/GoBase64.v ===== *)
(** * Bytes, strings and their encodings (Go's [encoding/base64], [encoding/hex], [encoding/binary]) *)

From Stdlib Require Import ZArith Lia Bool Ascii.
From Stdlib.Strings Require Import Byte.
From S2P Require Import Prelude GoStrings Erasure Msgp.

Local Open Scope Z_scope.

(** [[]byte(s)] and [string(b)] *)
Definition string_bytes (s : string) : bytes := String.list_byte_of_string s.
Definition bytes_string (b : bytes) : string := String.string_of_list_byte b.

Lemma string_of_bytes b : string_bytes (bytes_string b) = b.
Proof. apply String.list_byte_of_string_of_list_byte. Qed.

Lemma bytes_of_string s : bytes_string (string_bytes s) = s.
Proof. apply String.string_of_list_byte_of_string. Qed.

Lemma string_bytes_inj s t : string_bytes s = string_bytes t → s = t.
Proof. intros H. by rewrite <- (bytes_of_string s), H, bytes_of_string. Qed.

Lemma string_bytes_app s t : string_bytes (s +:+ t) = string_bytes s ++ string_bytes t.
Proof.
  unfold string_bytes, String.list_byte_of_string. induction s as [|a s IH]; [done|]. cbn [String.append String.list_ascii_of_string map app]. by f_equal.
Qed.

(** [hex.EncodeToString], [hex.DecodeString] *)
Definition EncodeHex (b : bytes) : string := hex_encode (bytes_string b).
Definition DecodeHex (s : string) : option bytes := string_bytes <$> hex_decode s.

(** [binary.LittleEndian.PutUint32] *)
Definition le_uint32 (z : Z) : bytes := reverse (be_bytes 4 (z mod 2 ^ 32)).

(** ** [base64.StdEncoding] *)

Definition b64_alphabet : string := "ABCDEFGHIJKLMNOPQRSTUVWXYZabcdefghijklmnopqrstuvwxyz0123456789+/".

Definition b64_char (z : Z) : ascii := default zero (String.get (Z.to_nat z) b64_alphabet).

Definition b64_val (a : ascii) : option Z := Z.of_nat <$> index_char a b64_alphabet.

Definition pad : ascii := "="%char.

Fixpoint EncodeToString (b : bytes) : string :=
  match b with
  | [] => ""
  | [x] => let v := byte_val x * 65536 in String (b64_char (v / 2 ^ 18)) (String (b64_char (v / 2 ^ 12 mod 64)) (String pad (String pad "")))
  | [x; y] =>
      let v := byte_val x * 65536 + byte_val y * 256 in
      String (b64_char (v / 2 ^ 18)) (String (b64_char (v / 2 ^ 12 mod 64)) (String (b64_char (v / 2 ^ 6 mod 64)) (String pad "")))
  | x :: y :: z :: b =>
      let v := byte_val x * 65536 + byte_val y * 256 + byte_val z in
      String (b64_char (v / 2 ^ 18)) (String (b64_char (v / 2 ^ 12 mod 64))
        (String (b64_char (v / 2 ^ 6 mod 64)) (String (b64_char (v mod 64)) (EncodeToString b))))
  end.

(** Groups of four; the last one may be padded. Bits that are left over are ignored. *)
Fixpoint decode_quads (s : string) : option bytes :=
  match s with
  | "" => Some []
  | String a (String b (String c (String d s))) =>
      p ← b64_val a; q ← b64_val b;
      match b64_val c, b64_val d with
      | Some r, Some t =>
          rest ← decode_quads s;
          let v := p * 2 ^ 18 + q * 2 ^ 12 + r * 2 ^ 6 + t in
          Some (byte_of (v / 65536) :: byte_of (v / 256) :: byte_of v :: rest)
      | Some r, None =>
          if Ascii.eqb d pad && String.eqb s "" then
            let v := p * 2 ^ 18 + q * 2 ^ 12 + r * 2 ^ 6 in Some [byte_of (v / 65536); byte_of (v / 256)]
          else None
      | None, _ =>
          if Ascii.eqb c pad && Ascii.eqb d pad && String.eqb s "" then Some [byte_of ((p * 2 ^ 18 + q * 2 ^ 12) / 65536)] else None
      end
  | _ => None
  end.

(** Line ends are skipped. *)
Definition DecodeString (s : string) : option bytes := decode_quads (remove_char (ascii_of_N 10) (remove_char (ascii_of_N 13) s)).

Lemma b64_val_char z : 0 ≤ z < 64 → b64_val (b64_char z) = Some z.
Proof.
  intros Hz. rewrite <- (Z2Nat.id z) by lia. assert (Z.to_nat z < 64)%nat as Hn by lia. revert Hn. generalize (Z.to_nat z). clear z Hz. intros n Hn.
  do 64 (destruct n as [|n]; [vm_compute; reflexivity|]). lia.
Qed.

Lemma b64_no_char c z : 0 ≤ z < 64 → no_char c b64_alphabet = true → c ≠ b64_char z.
Proof.
  intros Hz Hc ->. pose proof (b64_val_char z Hz) as Hv. apply no_char_index in Hc. unfold b64_val in Hv. by rewrite Hc in Hv.
Qed.

(** The digits of a group of 24 bits. *)
Lemma quad_bits v : 0 ≤ v < 2 ^ 24 →
  0 ≤ v / 2 ^ 18 < 64 ∧ v / 2 ^ 18 * 2 ^ 18 + v / 2 ^ 12 mod 64 * 2 ^ 12 + v / 2 ^ 6 mod 64 * 2 ^ 6 + v mod 64 = v.
Proof.
  intros Hv. pose proof (Z.div_mod v 64). pose proof (Z.div_mod (v / 64) 64). pose proof (Z.div_mod (v / 64 / 64) 64).
  change (2 ^ 18) with (64 * (64 * 64)). change (2 ^ 12) with (64 * 64). change (2 ^ 6) with 64. rewrite <- !Z.div_div by lia.
  split; [|lia]. split; [apply Z.div_pos; [|lia]; apply Z.div_pos; [|lia]; apply Z.div_pos; lia|].
  apply Z.div_lt_upper_bound; [lia|]. apply Z.div_lt_upper_bound; [lia|]. apply Z.div_lt_upper_bound; lia.
Qed.

Lemma group_bytes x y z v : v = byte_val x * 65536 + byte_val y * 256 + byte_val z →
  0 ≤ v < 2 ^ 24 ∧ byte_of (v / 65536) = x ∧ byte_of (v / 256) = y ∧ byte_of v = z.
Proof.
  intros ->. pose proof (byte_val_range x). pose proof (byte_val_range y). pose proof (byte_val_range z). split; [lia|].
  assert (∀ b w, w mod 256 = byte_val b → byte_of w = b) as Hb.
  { intros b w Hw. rewrite <- (byte_of_val b), <- Hw. unfold byte_of. by rewrite Z.mod_mod. }
  split; [|split]; apply Hb.
  - rewrite <- Z.add_assoc, Z.div_add_l, Z.div_small by lia. rewrite Z.add_0_r. apply Z.mod_small. lia.
  - replace (_ + byte_val z) with ((byte_val x * 256 + byte_val y) * 256 + byte_val z) by lia. rewrite Z.div_add_l, (Z.div_small (byte_val z)) by lia.
    rewrite Z.add_0_r, Z.add_comm, Z.mod_add by lia. apply Z.mod_small. lia.
  - replace (_ + byte_val z) with (byte_val z + (byte_val x * 256 + byte_val y) * 256) by lia. rewrite Z.mod_add by lia. apply Z.mod_small. lia.
Qed.

Lemma b64_pad : b64_val pad = None.
Proof. done. Qed.

Lemma mod64 z : 0 ≤ z mod 64 < 64.
Proof. apply Z.mod_pos_bound. lia. Qed.

(** One step of an induction over groups of three bytes. *)
Lemma groups_ind (P : bytes → Prop) :
  P [] → (∀ x, P [x]) → (∀ x y, P [x; y]) → (∀ x y z b, P b → P (x :: y :: z :: b)) → ∀ b, P b.
Proof.
  intros H0 H1 H2 H3 b. remember (length b) as n eqn:Hn. revert b Hn. induction (lt_wf n) as [n _ IH]. intros [|x [|y [|z b]]] ->; [done..|].
  apply H3. apply (IH (length b)); [cbn [length]; lia|done].
Qed.

Lemma decode_encode b : decode_quads (EncodeToString b) = Some b.
Proof.
  induction b as [|x|x y|x y z b IH] using groups_ind; [done|..]; cbn [EncodeToString decode_quads].
  - destruct (group_bytes x x00 x00 _ eq_refl) as (Hv & Hx & _). change (byte_val x00) with 0 in *. rewrite Z.mul_0_l, !Z.add_0_r in *.
    destruct (quad_bits _ Hv) as (Hq & Hs). rewrite !b64_val_char, b64_pad by (done || apply mod64). cbn [mbind option_bind Ascii.eqb Bool.eqb pad andb String.eqb].
    assert (byte_val x * 65536 / 2 ^ 6 mod 64 = 0) as E1 by (replace (byte_val x * 65536) with (byte_val x * 16 * 64 * 2 ^ 6) by lia; by rewrite Z.div_mul, Z.mod_mul).
    assert (byte_val x * 65536 mod 64 = 0) as E2 by (replace (byte_val x * 65536) with (byte_val x * 1024 * 64) by lia; by rewrite Z.mod_mul).
    rewrite E1, E2, Z.mul_0_l, !Z.add_0_r in Hs. by rewrite Hs, Hx.
  - destruct (group_bytes x y x00 _ eq_refl) as (Hv & Hx & Hy & _). change (byte_val x00) with 0 in *. rewrite !Z.add_0_r in *.
    destruct (quad_bits _ Hv) as (Hq & Hs). rewrite !b64_val_char, b64_pad by (done || apply mod64). cbn [mbind option_bind Ascii.eqb Bool.eqb pad andb String.eqb].
    assert ((byte_val x * 65536 + byte_val y * 256) mod 64 = 0) as E2 by (replace (_ + _) with ((byte_val x * 1024 + byte_val y * 4) * 64) by lia; by rewrite Z.mod_mul).
    rewrite E2, !Z.add_0_r in Hs. by rewrite Hs, Hx, Hy.
  - destruct (group_bytes x y z _ eq_refl) as (Hv & Hx & Hy & Hz). destruct (quad_bits _ Hv) as (Hq & Hs).
    rewrite !b64_val_char by (done || apply mod64). rewrite IH. cbn [mbind option_bind]. by rewrite Hs, Hx, Hy, Hz.
Qed.

Lemma encode_no_char c b : no_char c b64_alphabet = true → c ≠ pad → no_char c (EncodeToString b) = true.
Proof.
  intros Hc Hp. assert (∀ z, 0 ≤ z < 64 → Ascii.eqb (b64_char z) c = false) as Hz.
  { intros z Hz. apply Ascii.eqb_neq. intros E. by apply (b64_no_char c z). }
  assert (Ascii.eqb pad c = false) as Hpad by (by apply Ascii.eqb_neq).
  induction b as [|x|x y|x y z b IH] using groups_ind; [done|..]; cbn [EncodeToString no_char].
  - destruct (group_bytes x x00 x00 _ eq_refl) as (Hv & _). change (byte_val x00) with 0 in *. rewrite Z.mul_0_l, !Z.add_0_r in *. destruct (quad_bits _ Hv) as (Hq & _).
    by rewrite !Hz, Hpad by (done || apply mod64).
  - destruct (group_bytes x y x00 _ eq_refl) as (Hv & _). change (byte_val x00) with 0 in *. rewrite !Z.add_0_r in *. destruct (quad_bits _ Hv) as (Hq & _).
    by rewrite !Hz, Hpad by (done || apply mod64).
  - destruct (group_bytes x y z _ eq_refl) as (Hv & _). destruct (quad_bits _ Hv) as (Hq & _). by rewrite !Hz, IH by (done || apply mod64).
Qed.

Lemma remove_char_id c s : no_char c s = true → remove_char c s = s.
Proof.
  induction s as [|a s IH]; [done|]. cbn [no_char remove_char]. intros [Ha Hs]%andb_true_iff. apply negb_true_iff in Ha. rewrite Ha, IH; done.
Qed.

Lemma DecodeString_encode b : DecodeString (EncodeToString b) = Some b.
Proof. unfold DecodeString. rewrite !(remove_char_id _ (EncodeToString b)), decode_encode; done || by apply encode_no_char. Qed.

Lemma EncodeToString_inj b c : EncodeToString b = EncodeToString c → b = c.
Proof. intros H. pose proof (DecodeString_encode b) as Hb. rewrite H, DecodeString_encode in Hb. by injection Hb. Qed.
