(* ===== verification/KMS.v ===== *)
(** * Key management (internal/kms)

    Data keys come from a key management service, each bound to a context: a set of key-value pairs.
    [MarshalText] writes a context in its canonical form, which the single-key service authenticates
    together with the data key it seals. [KMS] is the interface of internal/kms/kms.go; the single-key
    service implements it. *)

From Stdlib Require Import ZArith Lia Bool Ascii.
From Stdlib.Strings Require Import Byte.
From stdpp Require Import sorting.
From S2P Require Import Prelude GoStrings GoHeap GoSort ObjectNames Erasure Msgp GoBase64.

Local Open Scope go_scope.
Local Open Scope Z_scope.

(** ** Contexts (internal/kms/context.go) *)

Abbreviation KmsContext := (gmap string string).

Definition quote : ascii := ascii_of_N 34.
Definition backslash : ascii := ascii_of_N 92.

Definition hexTable : string := "0123456789abcdef".
Definition hex_of (n : N) : ascii := default zero (String.get (N.to_nat n) hexTable).

(** The characters of ASCII that are written as they are. *)
Definition htmlSafeSet (b : ascii) : bool :=
  ascii_in 32 127 b && negb (existsb (Ascii.eqb b) [quote; "&"%char; "<"%char; ">"%char; backslash]).

(** One character of ASCII. *)
Definition escape_ascii (b : ascii) : string :=
  if htmlSafeSet b then String b ""
  else String backslash
    (if Ascii.eqb b backslash || Ascii.eqb b quote then String b ""
     else if Ascii.eqb b (ascii_of_N 10) then "n"
     else if Ascii.eqb b (ascii_of_N 13) then "r"
     else if Ascii.eqb b (ascii_of_N 9) then "t"
     else "u00" +:+ String (hex_of (N_of_ascii b / 16)) (String (hex_of (N_of_ascii b mod 16)) "")).

(** U+2028 and U+2029 *)
Definition line_separator (s : string) : option N :=
  match s with
  | String a (String b (String c _)) =>
      if Ascii.eqb a (ascii_of_N 226) && Ascii.eqb b (ascii_of_N 128) && ascii_in 168 169 c then Some (N_of_ascii c - 160)%N else None
  | _ => None
  end.

Fixpoint escape_loop (fuel : nat) (s : string) : string :=
  match fuel, s with
  | S fuel, String b s' =>
      if ascii_in 0 127 b then escape_ascii b +:+ escape_loop fuel s'
      else if (rune_width s =? 1)%nat then String backslash "ufffd" +:+ escape_loop fuel s'
      else match line_separator s with
           | Some c => String backslash "u202" +:+ String (hex_of c) "" +:+ escape_loop fuel (str_drop 3 s)
           | None => str_take (rune_width s) s +:+ escape_loop fuel (str_drop (rune_width s) s)
           end
  | _, _ => ""
  end.

Definition escapeStringJSON (s : string) : string := escape_loop (String.length s) s.

Definition quoted (s : string) : string := String quote (escapeStringJSON s) +:+ String quote "".

Definition ctx_pair (kv : string * string) : string := quoted kv.1 +:+ ":" +:+ quoted kv.2.

(** Keys in order, as [sort.Strings] gives them, with their values. *)
Definition sorted_pairs (c : KmsContext) : list (string * string) := sort_Slice (λ a b, str_ltb a.1 b.1) (map_to_list c).

Definition MarshalText (c : KmsContext) : string :=
  if (size c =? 0)%nat then "{}" else "{" +:+ str_join "," (ctx_pair <$> sorted_pairs c) +:+ "}".

(** *** The text determines the context *)

(** The value of a string literal up to the quote that ends it, and what follows. *)
Fixpoint read_literal (s : string) : option (string * string) :=
  match s with
  | "" => None
  | String a s =>
      if Ascii.eqb a quote then Some ("", s)
      else if negb (Ascii.eqb a backslash) then '(t, r) ← read_literal s; Some (String a t, r)
      else match s with
      | "" => None
      | String b s =>
          if Ascii.eqb b backslash || Ascii.eqb b quote then '(t, r) ← read_literal s; Some (String b t, r)
          else if Ascii.eqb b "n"%char then '(t, r) ← read_literal s; Some (String (ascii_of_N 10) t, r)
          else if Ascii.eqb b "r"%char then '(t, r) ← read_literal s; Some (String (ascii_of_N 13) t, r)
          else if Ascii.eqb b "t"%char then '(t, r) ← read_literal s; Some (String (ascii_of_N 9) t, r)
          else match s with
          | String h0 (String _ (String h2 (String h3 s))) =>
              x ← hex_val h2; y ← hex_val h3; '(t, r) ← read_literal s;
              Some (if Ascii.eqb h0 "0"%char then (String (ascii_of_N (x * 16 + y)) t, r)
                    else (String (ascii_of_N 226) (String (ascii_of_N 128) (String (ascii_of_N (160 + y)) t)), r))
          | _ => None
          end
      end
  end.

Lemma read_ascii a s t r : ascii_in 0 127 a = true → read_literal s = Some (t, r) → read_literal (escape_ascii a +:+ s) = Some (String a t, r).
Proof.
  intros Ha Hs. destruct a as [[] [] [] [] [] [] [] []]; try discriminate Ha;
    match goal with |- context [escape_ascii ?a] => let e := eval vm_compute in (escape_ascii a) in change (escape_ascii a) with e end;
    cbn; by rewrite Hs.
Qed.

(** Bytes that need no escape. *)
Definition raw_byte (a : ascii) : Prop := a ≠ quote ∧ a ≠ backslash.

Lemma read_raw u s t r :
  Forall raw_byte (String.list_ascii_of_string u) → read_literal s = Some (t, r) → read_literal (u +:+ s) = Some (u +:+ t, r).
Proof.
  intros Hu Hs. induction u as [|a u IH]; [done|]. cbn [String.list_ascii_of_string] in Hu. inversion_clear Hu as [|? ? [Hq Hb] Hu']. cbn [String.append read_literal].
  rewrite (proj2 (Ascii.eqb_neq _ _) Hq), (proj2 (Ascii.eqb_neq _ _) Hb). cbn [negb]. by rewrite IH.
Qed.

Lemma high_raw a : ascii_in 0 127 a = false → raw_byte a.
Proof. intros Ha. split; intros ->; discriminate Ha. Qed.

Lemma cont_raw lo hi a : (128 <=? lo)%N = true → cont lo hi a = true → raw_byte a.
Proof.
  intros Hl Hc. apply high_raw. unfold cont, ascii_in in *. apply andb_true_iff in Hc as [H1 _]. apply N.leb_le in H1, Hl.
  apply andb_false_iff. right. apply N.leb_gt. lia.
Qed.

(** The first rune of a valid string that does not start with a character of ASCII. *)
Lemma utf8_rune b s :
  ascii_in 0 127 b = false → utf8_valid (String b s) = true →
  let w := rune_width (String b s) in
  (2 ≤ w ≤ 4)%nat ∧ utf8_valid (str_drop w (String b s)) = true ∧ Forall raw_byte (String.list_ascii_of_string (str_take w (String b s))).
Proof.
  intros Hb Hv. pose proof (high_raw b Hb) as Hr. revert Hv. unfold rune_width. cbn [utf8_valid str_take]. rewrite Hb. destruct s as [|c s]; [done|]. cbn [String.length str_take].
  assert (∀ lo hi a, (128 <=? lo)%N = true → cont lo hi a = true → raw_byte a) as Hc by apply cont_raw.
  destruct (ascii_in 194 223 b) eqn:E1.
  { intros [H1 H2]%andb_true_iff. rewrite H1. change (utf8_valid "") with true. cbn -[utf8_valid]. split; [lia|]. split; [done|]. constructor; [done|]. constructor; [eapply Hc; [|eassumption]; done|constructor]. }
  cbn [andb]. destruct s as [|d s]; [done|]. cbn [String.length str_take].
  destruct (ascii_in 224 224 b) eqn:E2; [|destruct (ascii_in 237 237 b) eqn:E3; [|destruct (ascii_in 225 239 b) eqn:E4]].
  1-3: intros [[H1 H2]%andb_true_iff H3]%andb_true_iff; rewrite H1, H2; change (utf8_valid "") with true; cbn -[utf8_valid]; (split; [lia|]); (split; [done|]);
    constructor; [done|]; constructor; [eapply Hc; [|eassumption]; done|]; constructor; [eapply Hc; [|eassumption]; done|constructor].
  cbn [andb]. destruct s as [|e s]; [done|]. cbn [String.length str_take].
  destruct (ascii_in 240 240 b) eqn:E5; [|destruct (ascii_in 241 243 b) eqn:E6; [|destruct (ascii_in 244 244 b) eqn:E7; [|done]]].
  all: intros [[[H1 H2]%andb_true_iff H3]%andb_true_iff H4]%andb_true_iff; rewrite H1, H2, H3; change (utf8_valid "") with true; cbn -[utf8_valid]; (split; [lia|]); (split; [done|]);
    constructor; [done|]; constructor; [eapply Hc; [|eassumption]; done|]; constructor; [eapply Hc; [|eassumption]; done|]; constructor; [eapply Hc; [|eassumption]; done|constructor].
Qed.

Lemma line_separator_spec s c :
  line_separator s = Some c → ∃ a rest, s = String (ascii_of_N 226) (String (ascii_of_N 128) (String a rest)) ∧ ascii_in 168 169 a = true ∧ c = (N_of_ascii a - 160)%N.
Proof.
  destruct s as [|x [|y [|z s]]]; cbn [line_separator]; [done..|]. destruct (Ascii.eqb_spec x (ascii_of_N 226)) as [->|]; [|done].
  destruct (Ascii.eqb_spec y (ascii_of_N 128)) as [->|]; [|done]. cbn [andb]. destruct (ascii_in 168 169 z) eqn:E; [|done]. intros [= <-]. by eexists _, _.
Qed.

Lemma read_separator a s t r :
  ascii_in 168 169 a = true → read_literal s = Some (t, r) →
  read_literal (String backslash "u202" +:+ String (hex_of (N_of_ascii a - 160)) "" +:+ s) =
    Some (String (ascii_of_N 226) (String (ascii_of_N 128) (String a t)), r).
Proof.
  intros Ha Hs. destruct a as [[] [] [] [] [] [] [] []]; try discriminate Ha;
    match goal with |- context [hex_of ?a] => let e := eval vm_compute in (hex_of a) in change (hex_of a) with e end; cbn; by rewrite Hs.
Qed.

(** A literal is read back, whatever comes after it. *)
Lemma read_escaped fuel s rest :
  (String.length s ≤ fuel)%nat → utf8_valid s = true → read_literal (escape_loop fuel s +:+ String quote rest) = Some (s, rest).
Proof.
  revert s. induction fuel as [|fuel IH]; intros [|b s] Hf Hv; cbn [String.length] in Hf; try lia; try done.
  cbn [escape_loop]. destruct (ascii_in 0 127 b) eqn:Hb.
  { cbn [utf8_valid] in Hv. rewrite Hb in Hv. rewrite str_app_assoc. apply read_ascii; [done|]. apply IH; [lia|done]. }
  destruct (utf8_rune b s Hb Hv) as (Hw & Hd & Hraw). rewrite (proj2 (Nat.eqb_neq _ 1)) by lia.
  destruct (line_separator (String b s)) as [c|] eqn:Hc.
  - apply line_separator_spec in Hc as (a & s' & Hs & Ha & ->). rewrite !Hs in *. rewrite !str_app_assoc. cbn [str_drop]. rewrite read_separator with (t := s') (r := rest); [done|done|].
    injection Hs as -> ->. apply IH; [cbn [String.length] in Hf; lia|]. cbn [utf8_valid] in Hv. by apply andb_true_iff in Hv as [_ Hv].
  - rewrite str_app_assoc. rewrite <- (str_take_drop (rune_width (String b s)) (String b s)) at 5. apply read_raw; [done|]. apply IH; [|done].
    rewrite str_length_drop. cbn [String.length]. lia.
Qed.

Lemma quoted_inj s t r r' :
  utf8_valid s = true → utf8_valid t = true → quoted s +:+ r = quoted t +:+ r' → s = t ∧ r = r'.
Proof.
  intros Hs Ht. unfold quoted. cbn [String.append]. rewrite !str_app_assoc. cbn [String.append]. intros [= E].
  pose proof (read_escaped _ s r (le_n _) Hs) as H1. pose proof (read_escaped _ t r' (le_n _) Ht) as H2.
  unfold escapeStringJSON in E. rewrite E, H2 in H1. by simplify_eq.
Qed.

Definition text_ok (kv : string * string) : Prop := utf8_valid kv.1 = true ∧ utf8_valid kv.2 = true.

Lemma ctx_pair_inj p q r r' : text_ok p → text_ok q → ctx_pair p +:+ r = ctx_pair q +:+ r' → p = q ∧ r = r'.
Proof.
  destruct p as [k v], q as [k' v']. intros [Hk Hv] [Hk' Hv']. cbn [fst snd] in *. unfold ctx_pair. rewrite !str_app_assoc. cbn [fst snd].
  intros [-> E%str_app_inj]%quoted_inj; [|done..]. by apply quoted_inj in E as [-> ->].
Qed.

Lemma pairs_text_inj l l' :
  Forall text_ok l → Forall text_ok l' → str_join "," (ctx_pair <$> l) +:+ "}" = str_join "," (ctx_pair <$> l') +:+ "}" → l = l'.
Proof.
  intros Hl. revert l'. induction Hl as [|p l Hp _ IH]; intros [|q l'] Hl'; [done|..].
  - destruct q as [k v]. cbn [fmap list_fmap]. destruct l' as [|q l']; [done|]. rewrite (str_join_cons "," (ctx_pair (k, v))) by done. done.
  - destruct p as [k v]. cbn [fmap list_fmap]. destruct l as [|q l]; [done|]. rewrite (str_join_cons "," (ctx_pair (k, v))) by done. done.
  - inversion_clear Hl' as [|? ? Hq Hl'']. specialize (IH l' Hl''). cbn [fmap list_fmap]. destruct l as [|p2 l], l' as [|q2 l']; cbn [fmap list_fmap str_join].
    + intros [-> _]%ctx_pair_inj; done.
    + rewrite !str_app_assoc. intros [-> E]%ctx_pair_inj; done.
    + rewrite !str_app_assoc. intros [-> E]%ctx_pair_inj; done.
    + rewrite !str_app_assoc. intros [-> E%str_app_inj]%ctx_pair_inj; [|done..]. f_equal. apply IH. exact E.
Qed.

(** Sorting by keys does not depend on the order in which the map is visited. *)
Lemma sorted_pairs_order (c : KmsContext) l : l ≡ₚ map_to_list c → sort_Slice (λ a b, str_ltb a.1 b.1) l = sorted_pairs c.
Proof.
  intros Hl. unfold sorted_pairs. apply (StronglySorted_unique_strong (λ a b, str_ltb b.1 a.1 = false)).
  - intros x y Hx Hy H1 H2. rewrite sort_Slice_elem, Hl in Hx. rewrite sort_Slice_elem in Hy. destruct x as [k v], y as [k' v']. cbn [fst] in *.
    pose proof (str_ltb_total _ _ H2 H1) as ->. apply elem_of_map_to_list in Hx, Hy. congruence.
  - apply sort_Slice_sorted with (P := λ _, True); [..|by apply Forall_true]; intros; eauto using str_ltb_asym, str_ltb_neg_trans.
  - apply sort_Slice_sorted with (P := λ _, True); [..|by apply Forall_true]; intros; eauto using str_ltb_asym, str_ltb_neg_trans.
  - by rewrite !sort_Slice_perm.
Qed.

Lemma sorted_pairs_inj c d : sorted_pairs c = sorted_pairs d → c = d.
Proof.
  intros H. rewrite <- (list_to_map_to_list c), <- (list_to_map_to_list d). apply list_to_map_proper; [apply NoDup_fst_map_to_list|].
  rewrite <- (sort_Slice_perm (λ a b, str_ltb a.1 b.1) (map_to_list c)), <- (sort_Slice_perm (λ a b, str_ltb a.1 b.1) (map_to_list d)). fold (sorted_pairs c) (sorted_pairs d). by rewrite H.
Qed.

Definition context_ok (c : KmsContext) : Prop := map_Forall (λ k v, utf8_valid k = true ∧ utf8_valid v = true) c.

Lemma sorted_pairs_ok c : context_ok c → Forall text_ok (sorted_pairs c).
Proof. intros Hc. unfold sorted_pairs. rewrite sort_Slice_perm. by apply map_Forall_to_list in Hc; apply (Forall_impl _ _ _ Hc); intros [k v]. Qed.

Lemma sorted_pairs_cons c : size c ≠ 0%nat → ∃ p l, sorted_pairs c = p :: l.
Proof.
  intros Hs. destruct (sorted_pairs c) as [|p l] eqn:E; [|by eexists _, _]. destruct Hs. rewrite <- length_map_to_list.
  pose proof (sort_Slice_perm (λ a b, str_ltb a.1 b.1) (map_to_list c)) as Hp. fold (sorted_pairs c) in Hp. rewrite E in Hp. by rewrite <- Hp.
Qed.

(** Contexts of valid UTF-8 with the same text are the same. *)
Lemma MarshalText_inj c d : context_ok c → context_ok d → MarshalText c = MarshalText d → c = d.
Proof.
  intros Hc Hd. unfold MarshalText.
  destruct (size c) eqn:Ec, (size d) eqn:Ed; cbn [Nat.eqb].
  - intros _. apply map_size_empty_inv in Ec as ->. by apply map_size_empty_inv in Ed as ->.
  - destruct (sorted_pairs_cons d) as ([k v] & [|q l] & ->); [lia|done|]. cbn [fmap list_fmap]. rewrite (str_join_cons "," (ctx_pair (k, v))) by done. done.
  - destruct (sorted_pairs_cons c) as ([k v] & [|q l] & ->); [lia|done|]. cbn [fmap list_fmap]. rewrite (str_join_cons "," (ctx_pair (k, v))) by done. done.
  - intros E%str_app_inj. apply sorted_pairs_inj. apply pairs_text_inj; auto using sorted_pairs_ok.
Qed.

(** A reader of the texts that [MarshalText] writes. *)
Fixpoint read_ctx_pairs (fuel : nat) (s : string) : option (list (string * string)) :=
  match fuel, s with
  | S fuel, String q s =>
      if negb (Ascii.eqb q quote) then None
      else
        '(k, s) ← read_literal s;
        match s with
        | String c1 (String c2 s) =>
            if negb (Ascii.eqb c1 ":"%char && Ascii.eqb c2 quote) then None
            else
              '(v, s) ← read_literal s;
              match s with
              | String c s => if Ascii.eqb c "}"%char then Some [(k, v)] else if Ascii.eqb c ","%char then cons (k, v) <$> read_ctx_pairs fuel s else None
              | "" => None
              end
        | _ => None
        end
  | _, _ => None
  end.

Definition read_context (s : string) : option KmsContext :=
  if String.eqb s "{}" then Some ∅
  else match s with String _ s => list_to_map <$> read_ctx_pairs (String.length s) s | "" => None end.

Lemma read_quoted s rest : utf8_valid s = true → read_literal (escapeStringJSON s +:+ String quote rest) = Some (s, rest).
Proof. intros Hs. by apply read_escaped. Qed.

Lemma read_ctx_pairs_text fuel p l :
  Forall text_ok (p :: l) → (length l < fuel)%nat → read_ctx_pairs fuel (str_join "," (ctx_pair <$> p :: l) +:+ "}") = Some (p :: l).
Proof.
  revert p l. induction fuel as [|fuel IH]; intros [k v] l Hl Hf; [lia|]. inversion_clear Hl as [|? ? [Hk Hv] Hl']. cbn [fst snd] in *.
  assert (∀ rest, ctx_pair (k, v) +:+ rest = String quote (escapeStringJSON k +:+ String quote (String ":" (String quote (escapeStringJSON v +:+ String quote rest))))) as Hp.
  { intros rest. unfold ctx_pair, quoted. cbn [fst snd]. rewrite !str_app_assoc. cbn [String.append]. rewrite ?str_app_assoc. done. }
  cbn [fmap list_fmap]. destruct l as [|q l].
  - cbn [str_join]. rewrite Hp. cbn [read_ctx_pairs Ascii.eqb negb]. change (Ascii.eqb quote quote) with true. cbn [negb]. rewrite read_quoted by done. cbn [mbind option_bind].
    change (Ascii.eqb ":" ":" && Ascii.eqb quote quote) with true. cbn [negb]. rewrite read_quoted by done. done.
  - cbn [fmap list_fmap]. rewrite (str_join_cons "," (ctx_pair (k, v))) by done. rewrite !str_app_assoc, Hp. cbn [read_ctx_pairs]. change (Ascii.eqb quote quote) with true. cbn [negb].
    rewrite read_quoted by done. cbn [mbind option_bind]. change (Ascii.eqb ":" ":" && true) with true. cbn [negb]. rewrite read_quoted by done. cbn [mbind option_bind String.append].
    change (Ascii.eqb "," "}") with false. change (Ascii.eqb "," ",") with true. cbv iota. change (ctx_pair q :: (ctx_pair <$> l)) with (ctx_pair <$> q :: l).
    rewrite IH; [done|done|cbn [length] in Hf; lia].
Qed.

Lemma length_join l : (length l ≤ String.length (str_join "," (ctx_pair <$> l) +:+ "}"))%nat.
Proof.
  induction l as [|p l IH]; [cbn; lia|]. cbn [fmap list_fmap]. destruct l as [|q l]; [rewrite str_length_app; cbn [str_join length String.length]; lia|].
  cbn [fmap list_fmap] in *. rewrite (str_join_cons "," (ctx_pair p)) by done. rewrite !str_length_app in *. cbn [String.length length] in *. lia.
Qed.

Lemma read_context_text c : context_ok c → read_context (MarshalText c) = Some c.
Proof.
  intros Hc. unfold read_context, MarshalText. destruct (Nat.eqb_spec (size c) 0) as [Hs|Hs]; [by apply map_size_empty_inv in Hs as ->|].
  destruct (sorted_pairs_cons c Hs) as (p & l & E). pose proof (sorted_pairs_ok c Hc) as Hok. rewrite E in Hok.
  assert (str_join "," (ctx_pair <$> p :: l) +:+ "}" ≠ "}") as Hne.
  { destruct p as [k v]. destruct l as [|q l]; cbn [fmap list_fmap]; [done|]. rewrite (str_join_cons "," (ctx_pair (k, v))) by done. done. }
  rewrite E. cbn [String.append]. rewrite (proj2 (String.eqb_neq _ _)) by (intros [= Hx]; exact (Hne Hx)).
  rewrite read_ctx_pairs_text; [|done|pose proof (length_join (p :: l)); cbn [length] in *; lia]. cbn [fmap option_fmap option_map]. f_equal. rewrite <- E.
  rewrite <- (list_to_map_to_list c) at 2. apply list_to_map_proper; [|apply sort_Slice_perm].
  unfold sorted_pairs. rewrite sort_Slice_perm. apply NoDup_fst_map_to_list.
Qed.

(** ** The interface (internal/kms/kms.go) *)

Record DEK := mkDEK { dek_KeyID : string; dek_Plaintext : bytes; dek_Ciphertext : bytes }.

(** Randomness is an argument: the bytes the call reads from the system. *)
Class KMS := {
  GenerateKey : bytes → string → KmsContext → outcome string DEK;
  DecryptKey : string → bytes → KmsContext → outcome string bytes;
}.

(** What the callers rely on: a data key of 256 bits can be decrypted under the context it was
    generated for, with the key ID that came with it. *)
Class KMSLaws (K : KMS) := {
  decrypt_generated random keyID ctx dek :
    GenerateKey random keyID ctx = Ok dek → DecryptKey (dek_KeyID dek) (dek_Ciphertext dek) ctx = Ok (dek_Plaintext dek);
  generated_length random keyID ctx dek : GenerateKey random keyID ctx = Ok dek → length (dek_Plaintext dek) = 32%nat;
  generated_named random keyID ctx dek : GenerateKey random keyID ctx = Ok dek → dek_KeyID dek ≠ "" ∧ dek_Ciphertext dek ≠ [];
}.

(** ** The single-key service (internal/kms/single-key.go) *)

Record encryptedKey := mkEncryptedKey { ek_Algorithm : string; ek_IV : bytes; ek_Nonce : bytes; ek_Bytes : bytes }.

Definition algorithmAESGCM : string := "AES-256-GCM-HMAC-SHA-256".
Definition algorithmChaCha20Poly1305 : string := "ChaCha20Poly1305".

(** The primitives: HMAC-SHA256, HChaCha20, the two ciphers for authenticated encryption by name and key,
    and the JSON form of a sealed key. *)
Class Primitives := {
  hmac_sha256 : bytes → bytes → bytes;
  HChaCha20 : bytes → bytes → outcome string bytes;
  aead_Seal : string → bytes → bytes → bytes → string → bytes;
  aead_Open : string → bytes → bytes → bytes → string → option bytes;
  key_Marshal : encryptedKey → bytes;
  key_Unmarshal : bytes → option encryptedKey;
}.

Class PrimitivesLaws `{Primitives} := {
  open_sealed alg key nonce text ad : aead_Open alg key nonce (aead_Seal alg key nonce text ad) ad = Some text;
  open_other_data alg key nonce text ad ad' : ad ≠ ad' → aead_Open alg key nonce (aead_Seal alg key nonce text ad) ad' = None;
  unmarshal_key k : key_Unmarshal (key_Marshal k) = Some k;
  marshal_not_empty k : key_Marshal k ≠ [];
}.

(** Both ciphers have nonces of 12 bytes. *)
Definition NonceSize : nat := 12.

Section SingleKey.
Context `{Primitives} (NativeAES : bool).

Record secretKey := mkSecretKey { sk_keyID : string; sk_key : bytes }.

Definition New (keyID : string) (key : bytes) : outcome string secretKey :=
  if (length key =? 32)%nat then Ok (mkSecretKey keyID key) else Err ("kms: invalid key length " +:+ itoa (zlen key)).

Definition Parse (s : string) : outcome string secretKey :=
  match split2 ":"%char s with
  | (keyID, Some b64Key) => match DecodeString b64Key with Some key => New keyID key | None => Err "illegal base64 data" end
  | (_, None) => Err "kms: invalid master key format"
  end.

(** [sioutil.Random]: [n] bytes of what is left of the randomness. *)
Definition Random (n : nat) (random : bytes) : outcome string (bytes * bytes) :=
  if (length random <? n)%nat then Err "EOF" else Ok (take n random, drop n random).

(** The key that seals data keys. *)
Definition sealing_key (key : bytes) (algorithm : string) (iv : bytes) : outcome string bytes :=
  if String.eqb algorithm algorithmAESGCM then Ok (hmac_sha256 key iv)
  else if String.eqb algorithm algorithmChaCha20Poly1305 then HChaCha20 key iv
  else Err ("kms: invalid algorithm: " +:+ algorithm).

Definition sk_GenerateKey (kms : secretKey) (random : bytes) (keyID : string) (context : KmsContext) : outcome string DEK :=
  let keyID := if String.eqb keyID "" then sk_keyID kms else keyID in
  if negb (String.eqb keyID (sk_keyID kms)) then Err "kms: key does not exist"
  else
    '(iv, random) ←? Random 16 random;
    let algorithm := if NativeAES then algorithmAESGCM else algorithmChaCha20Poly1305 in
    sealingKey ←? sealing_key (sk_key kms) algorithm iv;
    '(nonce, random) ←? Random NonceSize random;
    '(plaintext, _) ←? Random 32 random;
    let associatedData := MarshalText context in
    let ciphertext := aead_Seal algorithm sealingKey nonce plaintext associatedData in
    Ok (mkDEK keyID plaintext (key_Marshal (mkEncryptedKey algorithm iv nonce ciphertext))).

Definition sk_DecryptKey (kms : secretKey) (keyID : string) (ciphertext : bytes) (context : KmsContext) : outcome string bytes :=
  if negb (String.eqb keyID (sk_keyID kms)) then Err "kms: key does not exist"
  else match key_Unmarshal ciphertext with
  | None => Err "kms: invalid JSON"
  | Some k =>
      if negb (length (ek_IV k) =? 16)%nat then Err "kms: invalid iv size"
      else
        sealingKey ←? sealing_key (sk_key kms) (ek_Algorithm k) (ek_IV k);
        if negb (length (ek_Nonce k) =? NonceSize)%nat then Err "kms: invalid nonce size"
        else match aead_Open (ek_Algorithm k) sealingKey (ek_Nonce k) (ek_Bytes k) (MarshalText context) with
        | Some plaintext => Ok plaintext
        | None => Err "kms: encrypted key is not authentic"
        end
  end.

#[export] Instance single_key_kms (kms : secretKey) : KMS := {| GenerateKey := sk_GenerateKey kms; DecryptKey := sk_DecryptKey kms |}.

End SingleKey.

(** ** What the service promises *)

Section Promises.
Context `{PrimitivesLaws} (NativeAES : bool) (kms : secretKey).

Lemma Random_inv n random b rest : Random n random = Ok (b, rest) → length b = n ∧ random = b ++ rest.
Proof.
  unfold Random. destruct (length random <? n)%nat eqn:E; [done|]. intros [= <- <-]. apply Nat.ltb_ge in E. by rewrite length_take_le, take_drop.
Qed.

(** What a generated key is made of. *)
Lemma GenerateKey_inv random keyID c dek :
  sk_GenerateKey NativeAES kms random keyID c = Ok dek →
  dek_KeyID dek = sk_keyID kms ∧ length (dek_Plaintext dek) = 32%nat ∧
  ∃ alg iv nonce key, length iv = 16%nat ∧ length nonce = NonceSize ∧ sealing_key (sk_key kms) alg iv = Ok key ∧
    dek_Ciphertext dek = key_Marshal (mkEncryptedKey alg iv nonce (aead_Seal alg key nonce (dek_Plaintext dek) (MarshalText c))).
Proof.
  unfold sk_GenerateKey. set (id := if String.eqb keyID "" then sk_keyID kms else keyID). destruct (String.eqb_spec id (sk_keyID kms)) as [Hid|]; [|done]. cbn [negb].
  set (alg := if NativeAES then algorithmAESGCM else algorithmChaCha20Poly1305).
  intros ([iv r1] & Hiv & Hk)%obind_ok. apply obind_ok in Hk as (key & Hkey & Hk). apply obind_ok in Hk as ([nonce r2] & Hn & Hk).
  apply obind_ok in Hk as ([plain r3] & Hp & Hk). assert (dek = mkDEK id plain (key_Marshal (mkEncryptedKey alg iv nonce (aead_Seal alg key nonce plain (MarshalText c))))) as -> by congruence.
  apply Random_inv in Hiv as [Hiv _], Hn as [Hn _], Hp as [Hp _]. cbn [dek_KeyID dek_Plaintext dek_Ciphertext]. split; [done|]. split; [done|]. by exists alg, iv, nonce, key.
Qed.

Lemma decrypt_data_key random keyID c d dek :
  sk_GenerateKey NativeAES kms random keyID c = Ok dek →
  sk_DecryptKey kms (dek_KeyID dek) (dek_Ciphertext dek) d =
    if decide (MarshalText c = MarshalText d) then Ok (dek_Plaintext dek) else Err "kms: encrypted key is not authentic".
Proof.
  intros (Hid & _ & alg & iv & nonce & key & Hiv & Hn & Hkey & Hct)%GenerateKey_inv. unfold sk_DecryptKey.
  rewrite Hid, String.eqb_refl, Hct, unmarshal_key. cbn [negb ek_IV ek_Algorithm ek_Nonce ek_Bytes]. rewrite Hiv, Hkey, Hn. cbn [Nat.eqb negb obind].
  destruct (decide (MarshalText c = MarshalText d)) as [<-|Hne]; [by rewrite open_sealed|by rewrite open_other_data].
Qed.

#[export] Instance single_key_laws : sk_keyID kms ≠ "" → KMSLaws (single_key_kms NativeAES kms).
Proof.
  intros Hid. split; intros random keyID ctx dek Hg; cbn [GenerateKey DecryptKey single_key_kms] in *.
  - rewrite (decrypt_data_key _ _ _ ctx _ Hg). by rewrite decide_True.
  - by apply GenerateKey_inv in Hg as (_ & Hl & _).
  - apply GenerateKey_inv in Hg as (-> & _ & alg & iv & nonce & key & _ & _ & _ & ->). split; [done|apply marshal_not_empty].
Qed.

End Promises.

(** ** Theorems *)

(** C22: a data key of the single-key service is bound to the context it was generated for: it can be decrypted under the contexts
    that have the same text as JSON, and under every other context the ciphertext is not authentic. Contexts of valid UTF-8 have the same
    text only if they are equal; in others every invalid byte is written in the same way. *)
Theorem data_key_bound_to_context `{PrimitivesLaws} NativeAES kms random keyID c d dek :
  sk_GenerateKey NativeAES kms random keyID c = Ok dek →
  sk_DecryptKey kms (dek_KeyID dek) (dek_Ciphertext dek) d =
    (if decide (MarshalText c = MarshalText d) then Ok (dek_Plaintext dek) else Err "kms: encrypted key is not authentic") ∧
  (context_ok c → context_ok d → (MarshalText c = MarshalText d ↔ c = d)).
Proof.
  intros Hg. split; [by apply (decrypt_data_key NativeAES kms random keyID)|]. intros Hc Hd. split; [by apply MarshalText_inj|by intros ->].
Qed.

(** ** Examples *)

(** A list with its length in front, in unary. *)
Definition prefixed (b : bytes) : bytes := repeat x01 (length b) ++ x00 :: b.

Fixpoint cut_prefixed (n : nat) (b : bytes) : option (bytes * bytes) :=
  match b with
  | x01 :: b => cut_prefixed (S n) b
  | x00 :: b => Some (take n b, drop n b)
  | _ => None
  end.

Lemma cut_prefixed_app b rest : cut_prefixed 0 (prefixed b ++ rest) = Some (b, rest).
Proof.
  unfold prefixed. rewrite <- app_assoc. cbn [app].
  enough (∀ m n, cut_prefixed n (repeat x01 m ++ x00 :: b ++ rest) = Some (take (n + m) (b ++ rest), drop (n + m) (b ++ rest))) as Hc.
  { rewrite Hc. cbn [Nat.add]. by rewrite take_app_length, drop_app_length. }
  induction m as [|m IH]; intros n; cbn [repeat app cut_prefixed]; [by rewrite Nat.add_0_r|]. rewrite IH. by rewrite <- Nat.add_succ_comm.
Qed.

(** Seals that show everything: laws can be met. *)
#[local] Instance open_primitives : Primitives := {|
  hmac_sha256 key b := take 32 (key ++ b ++ repeat x00 32);
  HChaCha20 key b := Ok key;
  aead_Seal alg key nonce text ad := prefixed (string_bytes ad) ++ text;
  aead_Open alg key nonce sealed ad := '(ad', text) ← cut_prefixed 0 sealed; if String.eqb (bytes_string ad') ad then Some text else None;
  key_Marshal k := prefixed (string_bytes (ek_Algorithm k)) ++ prefixed (ek_IV k) ++ prefixed (ek_Nonce k) ++ ek_Bytes k;
  key_Unmarshal b := '(alg, b) ← cut_prefixed 0 b; '(iv, b) ← cut_prefixed 0 b; '(nonce, b) ← cut_prefixed 0 b; Some (mkEncryptedKey (bytes_string alg) iv nonce b);
|}.

#[local] Instance open_primitives_laws : PrimitivesLaws.
Proof.
  split; cbn [aead_Open aead_Seal key_Marshal key_Unmarshal open_primitives]; intros.
  - rewrite cut_prefixed_app. cbn [mbind option_bind]. by rewrite bytes_of_string, String.eqb_refl.
  - rewrite cut_prefixed_app. cbn [mbind option_bind]. rewrite bytes_of_string. by rewrite (proj2 (String.eqb_neq _ _)).
  - rewrite cut_prefixed_app. cbn [mbind option_bind]. rewrite cut_prefixed_app. cbn [mbind option_bind]. rewrite cut_prefixed_app. cbn [mbind option_bind].
    rewrite bytes_of_string. by destruct k.
  - unfold prefixed. by destruct (length (string_bytes (ek_Algorithm k))).
Qed.

Definition demo_master : secretKey := mkSecretKey "key-1" (repeat x07 32).
Definition demo_random : bytes := repeat x2a 60.
Definition demo_context : KmsContext := {["bucket" := "bucket/object"]}.

Lemma demo_generated : ∃ dek, sk_GenerateKey true demo_master demo_random "" demo_context = Ok dek.
Proof. eexists. vm_compute. reflexivity. Qed.

Lemma data_key_bound_to_context_witness :
  ∃ dek, sk_GenerateKey true demo_master demo_random "" demo_context = Ok dek ∧
    sk_DecryptKey demo_master (dek_KeyID dek) (dek_Ciphertext dek) ∅ =
      (if decide (MarshalText demo_context = MarshalText ∅) then Ok (dek_Plaintext dek) else Err "kms: encrypted key is not authentic") ∧
    (MarshalText demo_context = MarshalText ∅ ↔ demo_context = ∅).
Proof.
  destruct demo_generated as [dek Hg]. exists dek. split; [exact Hg|].
  destruct (data_key_bound_to_context true demo_master demo_random "" demo_context ∅ dek Hg) as [Hd Hc]. split; [exact Hd|].
  refine (Hc _ _); [apply map_Forall_singleton; split; reflexivity|apply map_Forall_empty].
Defined.
