(* ===== verification/SSE.v ===== *)
(** * Server-side encryption: keys and metadata (internal/crypto, cmd/encryption-v1.go)

    Every encrypted object has a key of its own. It is sealed with a key that comes from the client
    (SSE-C) or from the key management service (SSE-S3, SSE-KMS), and what is needed to unseal it is kept
    in the metadata of the object. The file models the request headers, the metadata, sealing
    and unsealing, and the operations of the object layer on top: new keys, reading keys back, and
    their rotation. *)

From Stdlib Require Import ZArith Lia Bool Ascii.
From Stdlib.Strings Require Import Byte.
From S2P Require Import Prelude GoStrings GoPath ObjectNames SSEMeta Erasure Msgp GoBase64 KMS.

Local Open Scope go_scope.
Local Open Scope Z_scope.

Definition IsETagSealed (etag : bytes) : bool := 16 <? zlen etag.

(** ** Errors *)

Inductive sse_error :=
  | ErrInvalidEncryptionMethod | ErrInvalidCustomerAlgorithm | ErrMissingCustomerKey | ErrMissingCustomerKeyMD5 | ErrInvalidCustomerKey
  | ErrSecretKeyMismatch | ErrCustomerKeyMD5Mismatch | ErrIncompatibleEncryptionMethod
  | errMissingInternalIV | errMissingInternalSealAlgorithm | errInvalidInternalIV | errInvalidInternalSealAlgorithm
  | errEncryptedObject | errInvalidSSEParameters | errKMSNotConfigured | errObjectTampered | errInvalidEncryptionParameters
  | OtherError (text : string).

#[export] Instance sse_error_eq_dec : EqDecision sse_error.
Proof. solve_decision. Defined.

(** Errors of the key management service are passed on. *)
Definition from_kms {A} (m : outcome string A) : outcome sse_error A := match m with Ok a => Ok a | Err e => Err (OtherError e) | Panic w => Panic w end.

(** ** Sealing (key.go) *)

(** SHA-256 and MD5, and the library github.com/minio/sio on whole buffers: encryption with a key, and
    decryption of what was encrypted with at least the given version of the format. *)
Class Sealing := {
  sha256_Sum : bytes → bytes;
  md5_Sum : bytes → bytes;
  sio_Encrypt : bytes → bytes → outcome string bytes;
  sio_DecryptBuffer : Z → bytes → bytes → option bytes;
}.

Definition Version10 : Z := 0x10.
Definition Version20 : Z := 0x20.

(** What the code relies on: keys of 256 bits are accepted, the encryption of a single package has 32 bytes more,
    decryption with the key gives the text back, and with another key it fails. *)
Class SealingLaws `{Primitives} `{Sealing} := {
  hmac_length key b : length (hmac_sha256 key b) = 32%nat;
  sha_length b : length (sha256_Sum b) = 32%nat;
  encrypt_small key b : length key = 32%nat → 0 < zlen b ≤ 65536 → ∃ c, sio_Encrypt key b = Ok c ∧ zlen c = zlen b + 32;
  decrypt_encrypted key b c v : sio_Encrypt key b = Ok c → v ≤ Version20 → sio_DecryptBuffer v key c = Some b;
  decrypt_other_key key key' b c v : sio_Encrypt key b = Ok c → key ≠ key' → sio_DecryptBuffer v key' c = None;
}.

Definition SealAlgorithm : string := "DAREv2-HMAC-SHA256".
Definition InsecureSealAlgorithm : string := "DARE-SHA256".

Record SealedKey := mkSealed { sk_Key : bytes; sk_IV : bytes; sk_Algorithm : string }.

Definition criticalIf {A} (text : string) : outcome sse_error A := Panic text.

Section Keys.
Context `{Primitives} `{!Sealing}.

(** The 32 random bytes are the argument [nonce]. *)
Definition GenerateObjectKey (extKey nonce : bytes) : outcome sse_error bytes :=
  if negb (length extKey =? 32)%nat then criticalIf "crypto: invalid key length"
  else if negb (length nonce =? 32)%nat then criticalIf "Unable to read enough randomness from the system"
  else Ok (sha256_Sum (extKey ++ nonce)).

(** The key that seals the object key: bound to the initialisation vector, the kind, and the name of the object. *)
Definition sealing_key (extKey iv : bytes) (domain bucket object : string) : bytes :=
  hmac_sha256 extKey (iv ++ string_bytes domain ++ string_bytes SealAlgorithm ++ string_bytes (Join [bucket; object])).

Definition Seal (key extKey iv : bytes) (domain bucket object : string) : outcome sse_error SealedKey :=
  if negb (length extKey =? 32)%nat then criticalIf "crypto: invalid key length"
  else match sio_Encrypt (sealing_key extKey iv domain bucket object) key with
  | Ok encryptedKey => if zlen encryptedKey =? 64 then Ok (mkSealed encryptedKey iv SealAlgorithm) else criticalIf "Unable to generate sealed key"
  | _ => criticalIf "Unable to generate sealed key"
  end.

Definition unseal_with (v : Z) (key sealed : bytes) : outcome sse_error bytes :=
  match sio_DecryptBuffer v key sealed with
  | Some out => if (length out =? 32)%nat then Ok out else Err ErrSecretKeyMismatch
  | None => Err ErrSecretKeyMismatch
  end.

Definition Unseal (extKey : bytes) (sealedKey : SealedKey) (domain bucket object : string) : outcome sse_error bytes :=
  if String.eqb (sk_Algorithm sealedKey) SealAlgorithm then
    unseal_with Version20 (sealing_key extKey (sk_IV sealedKey) domain bucket object) (sk_Key sealedKey)
  else if String.eqb (sk_Algorithm sealedKey) InsecureSealAlgorithm then
    unseal_with Version10 (sha256_Sum (extKey ++ sk_IV sealedKey)) (sk_Key sealedKey)
  else Err (OtherError ("The sealing algorithm '" +:+ sk_Algorithm sealedKey +:+ "' is not supported")).

Definition DerivePartKey (key : bytes) (id : Z) : bytes := hmac_sha256 key (le_uint32 id).

Definition etag_key (key : bytes) : bytes := hmac_sha256 key (string_bytes "SSE-etag").

Definition SealETag (key etag : bytes) : outcome sse_error bytes :=
  match etag with
  | [] => Ok etag
  | _ => match sio_Encrypt (etag_key key) etag with Ok c => Ok c | _ => criticalIf "Unable to encrypt ETag using object key" end
  end.

Definition UnsealETag (key etag : bytes) : outcome sse_error bytes :=
  if negb (IsETagSealed etag) then Ok etag
  else match sio_DecryptBuffer Version10 (etag_key key) etag with Some b => Ok b | None => Err (OtherError "sio: data is not authentic") end.

(** ** Customer keys (sse-c.go, header.go) *)

Definition parse_customer_key (h : Header) (algorithm key md5 : string) : outcome sse_error bytes :=
  if negb (String.eqb (header_Get h algorithm) AmzEncryptionAES) then Err ErrInvalidCustomerAlgorithm
  else if String.eqb (header_Get h key) "" then Err ErrMissingCustomerKey
  else if String.eqb (header_Get h md5) "" then Err ErrMissingCustomerKeyMD5
  else match DecodeString (header_Get h key) with
  | None => Err ErrInvalidCustomerKey
  | Some clientKey =>
      if negb (length clientKey =? 32)%nat then Err ErrInvalidCustomerKey
      else match DecodeString (header_Get h md5) with
      | Some keyMD5 => if bool_decide (md5_Sum clientKey = keyMD5) then Ok clientKey else Err ErrCustomerKeyMD5Mismatch
      | None => Err ErrCustomerKeyMD5Mismatch
      end
  end.

Definition SSEC_ParseHTTP (h : Header) : outcome sse_error bytes :=
  parse_customer_key h AmzServerSideEncryptionCustomerAlgorithm AmzServerSideEncryptionCustomerKey AmzServerSideEncryptionCustomerKeyMD5.

Definition SSECopy_ParseHTTP (h : Header) : outcome sse_error bytes :=
  parse_customer_key h AmzServerSideEncryptionCopyCustomerAlgorithm AmzServerSideEncryptionCopyCustomerKey AmzServerSideEncryptionCopyCustomerKeyMD5.

Definition ParseSSECustomerHeader (h : Header) : outcome sse_error bytes :=
  if S3_IsRequested h && SSEC_IsRequested h then Err ErrIncompatibleEncryptionMethod else SSEC_ParseHTTP h.

Definition ParseSSECopyCustomerRequest (h : Header) (metadata : Metadata) : outcome sse_error bytes :=
  if S3_IsEncrypted metadata && SSECopy_IsRequested h then Err ErrIncompatibleEncryptionMethod else SSECopy_ParseHTTP h.

(** ** The metadata of an object (sse-c.go, sse-s3.go, sse-kms.go) *)

Definition SSEC_CreateMetadata (metadata : Metadata) (sealedKey : SealedKey) : outcome sse_error Metadata :=
  if negb (String.eqb (sk_Algorithm sealedKey) SealAlgorithm) then criticalIf "The seal algorithm is invalid for SSE-C"
  else Ok (<[MetaSealedKeySSEC := EncodeToString (sk_Key sealedKey)]> (<[MetaIV := EncodeToString (sk_IV sealedKey)]> (<[MetaAlgorithm := SealAlgorithm]> metadata))).

(** A value in base64 with the given number of bytes. *)
Definition decode_exact (n : nat) (s : string) : option bytes :=
  b ← DecodeString s; if (length b =? n)%nat then Some b else None.

Definition or_err {E A} (e : E) (o : option A) : outcome E A := match o with Some a => Ok a | None => Err e end.

Definition SSEC_ParseMetadata (metadata : Metadata) : outcome sse_error SealedKey :=
  b64IV ←? or_err errMissingInternalIV (metadata !! MetaIV);
  algorithm ←? or_err errMissingInternalSealAlgorithm (metadata !! MetaAlgorithm);
  b64SealedKey ←? or_err (OtherError "The object metadata is missing the internal sealed key for SSE-C") (metadata !! MetaSealedKeySSEC);
  iv ←? or_err errInvalidInternalIV (decode_exact 32 b64IV);
  if negb (String.eqb algorithm SealAlgorithm) && negb (String.eqb algorithm InsecureSealAlgorithm) then Err errInvalidInternalSealAlgorithm
  else
    encryptedKey ←? or_err (OtherError "The internal sealed key for SSE-C is invalid") (decode_exact 64 b64SealedKey);
    Ok (mkSealed encryptedKey iv algorithm).

(** The entries that SSE-S3 and SSE-KMS share: [name] is the entry of the sealed key. *)
Definition create_kms_entries (name : string) (metadata : Metadata) (keyID : string) (kmsKey : bytes) (sealedKey : SealedKey) : Metadata :=
  let metadata := <[name := EncodeToString (sk_Key sealedKey)]> (<[MetaIV := EncodeToString (sk_IV sealedKey)]> (<[MetaAlgorithm := sk_Algorithm sealedKey]> metadata)) in
  if negb (length kmsKey =? 0)%nat && negb (String.eqb keyID "") then
    <[MetaDataEncryptionKey := EncodeToString kmsKey]> (<[MetaKeyID := keyID]> metadata)
  else metadata.

Definition check_kms_arguments (keyID : string) (kmsKey : bytes) (sealedKey : SealedKey) : outcome sse_error () :=
  if negb (String.eqb (sk_Algorithm sealedKey) SealAlgorithm) then criticalIf "The seal algorithm is invalid for SSE-S3"
  else if String.eqb keyID "" && negb (length kmsKey =? 0)%nat then criticalIf "The key ID must not be empty if a KMS data key is present"
  else if negb (String.eqb keyID "") && (length kmsKey =? 0)%nat then criticalIf "The KMS data key must not be empty if a key ID is present"
  else Ok ().

Definition S3_CreateMetadata (metadata : Metadata) (keyID : string) (kmsKey : bytes) (sealedKey : SealedKey) : outcome sse_error Metadata :=
  _ ←? check_kms_arguments keyID kmsKey sealedKey;
  Ok (create_kms_entries MetaSealedKeyS3 metadata keyID kmsKey sealedKey).

Definition S3KMS_CreateMetadata (metadata : Metadata) (keyID : string) (kmsKey : bytes) (sealedKey : SealedKey) (ctx : KmsContext) : outcome sse_error Metadata :=
  _ ←? check_kms_arguments keyID kmsKey sealedKey;
  let metadata := create_kms_entries MetaSealedKeyKMS metadata keyID kmsKey sealedKey in
  Ok (if (size ctx =? 0)%nat then metadata else <[MetaContext := EncodeToString (string_bytes (MarshalText ctx))]> metadata).

(** The key ID, the data key of the service, and the sealed key. *)
Definition parse_kms_entries (name kind : string) (metadata : Metadata) : outcome sse_error (string * bytes * SealedKey) :=
  b64IV ←? or_err errMissingInternalIV (metadata !! MetaIV);
  algorithm ←? or_err errMissingInternalSealAlgorithm (metadata !! MetaAlgorithm);
  b64SealedKey ←? or_err (OtherError "The object metadata is missing the internal sealed key for SSE-S3") (metadata !! name);
  let keyID := metadata !! MetaKeyID in
  let b64KMSSealedKey := metadata !! MetaDataEncryptionKey in
  match keyID, b64KMSSealedKey with
  | None, Some _ => Err (OtherError "The object metadata is missing the internal KMS key-ID for SSE-S3")
  | Some _, None => Err (OtherError "The object metadata is missing the internal sealed KMS data key for SSE-S3")
  | _, _ =>
      iv ←? or_err errInvalidInternalIV (decode_exact 32 b64IV);
      if negb (String.eqb algorithm SealAlgorithm) then Err errInvalidInternalSealAlgorithm
      else
        encryptedKey ←? or_err (OtherError ("The internal sealed key for " +:+ kind +:+ " is invalid")) (decode_exact 64 b64SealedKey);
        kmsKey ←? (match b64KMSSealedKey with
                   | Some k => or_err (OtherError ("The internal sealed KMS data key for " +:+ kind +:+ " is invalid")) (DecodeString k)
                   | None => Ok []
                   end);
        Ok (default "" keyID, kmsKey, mkSealed encryptedKey iv algorithm)
  end.

Definition S3_ParseMetadata : Metadata → outcome sse_error (string * bytes * SealedKey) := parse_kms_entries MetaSealedKeyS3 "SSE-S3".

End Keys.

(** [json.Unmarshal] into a context; nil is the empty context. Text that is not valid UTF-8 is replaced. *)
Class ContextJSON := {
  ctx_Unmarshal : bytes → option KmsContext;
}.
Class ContextJSONLaws `{ContextJSON} := {
  ctx_read_back c : context_ok c → ctx_Unmarshal (string_bytes (MarshalText c)) = Some c;
  ctx_valid_text b c : ctx_Unmarshal b = Some c → context_ok c;
}.

Section Objects.
Context `{Primitives} `{!Sealing} `{!ContextJSON}.

(** The context that is stored. *)
Definition parse_context (metadata : Metadata) : outcome sse_error KmsContext :=
  match metadata !! MetaContext with
  | None => Ok ∅
  | Some b64Ctx =>
      b ←? or_err (OtherError "The internal KMS context is not base64-encoded") (DecodeString b64Ctx);
      or_err (OtherError "The internal sealed KMS context is invalid") (ctx_Unmarshal b)
  end.

Definition S3KMS_ParseMetadata (metadata : Metadata) : outcome sse_error (string * bytes * SealedKey * KmsContext) :=
  '(keyID, kmsKey, sealedKey) ←? parse_kms_entries MetaSealedKeyKMS "SSE-KMS" metadata;
  ctx ←? parse_context metadata;
  Ok (keyID, kmsKey, sealedKey, ctx).

Definition S3KMS_ParseHTTP (h : Header) : outcome sse_error (string * KmsContext) :=
  if negb (String.eqb (header_Get h AmzServerSideEncryption) AmzEncryptionKMS) then Err ErrInvalidEncryptionMethod
  else
    ctx ←? (match h !! AmzServerSideEncryptionKmsContext with
            | None => Ok ∅
            | Some [] => Panic "index out of range"
            | Some (context :: _) =>
                b ←? or_err (OtherError "illegal base64 data") (DecodeString context);
                or_err (OtherError "invalid JSON") (ctx_Unmarshal b)
            end);
    Ok (header_Get h AmzServerSideEncryptionKmsID, ctx).

(** The context of a data key: the entry of the bucket is added if it is missing. *)
Definition object_context (bucket object : string) (ctx : KmsContext) : KmsContext :=
  match ctx !! bucket with Some _ => ctx | None => <[bucket := Join [bucket; object]]> ctx end.

Definition S3_UnsealObjectKey (K : KMS) (metadata : Metadata) (bucket object : string) : outcome sse_error bytes :=
  '(keyID, kmsKey, sealedKey) ←? S3_ParseMetadata metadata;
  unsealKey ←? from_kms (DecryptKey keyID kmsKey {[bucket := Join [bucket; object]]});
  Unseal unsealKey sealedKey (Type_String S3) bucket object.

Definition S3KMS_UnsealObjectKey (K : KMS) (metadata : Metadata) (bucket object : string) : outcome sse_error bytes :=
  '(keyID, kmsKey, sealedKey, ctx) ←? S3KMS_ParseMetadata metadata;
  unsealKey ←? from_kms (DecryptKey keyID kmsKey (object_context bucket object ctx));
  Unseal unsealKey sealedKey (Type_String S3KMS) bucket object.

Definition SSEC_unsealObjectKey (clientKey : bytes) (metadata : Metadata) (bucket object : string) : outcome sse_error bytes :=
  sealedKey ←? SSEC_ParseMetadata metadata;
  Unseal clientKey sealedKey (Type_String SSEC) bucket object.

(** ** The object layer (cmd/encryption-v1.go) *)

(** What is random in a call: what the service reads, the nonce of the object key and the initialisation vector. *)
Record randomness := mkRandom { r_kms : bytes; r_nonce : bytes; r_iv : bytes }.

Definition kms_or_err (K : option KMS) : outcome sse_error KMS := or_err errKMSNotConfigured K.

(** [GlobalKMS] and [globalCacheKMS], if they are configured. *)
Record services := mkServices { GlobalKMS : option KMS; globalCacheKMS : option KMS }.

Definition SSECacheEncrypted : string := "X-Minio-Internal-Encrypted-Cache".
Definition isCacheEncrypted (metadata : Metadata) : bool := has_key metadata SSECacheEncrypted.

(** A data key of the service, a new object key, and the object key sealed with it. *)
Definition new_sealed_key (rnd : randomness) (kind : Type_) (extKey : bytes) (bucket object : string) : outcome sse_error (bytes * SealedKey) :=
  objectKey ←? GenerateObjectKey extKey (r_nonce rnd);
  sealedKey ←? Seal objectKey extKey (r_iv rnd) (Type_String kind) bucket object;
  Ok (objectKey, sealedKey).

Definition newEncryptMetadata (sys : services) (rnd : randomness) (kind : option Type_) (keyID : string) (key : bytes) (bucket object : string)
    (metadata : Metadata) (ctx : KmsContext) : outcome sse_error (bytes * Metadata) :=
  match kind with
  | Some S3 =>
      K ←? kms_or_err (GlobalKMS sys);
      key ←? from_kms (GenerateKey (r_kms rnd) "" {[bucket := Join [bucket; object]]});
      '(objectKey, sealedKey) ←? new_sealed_key rnd S3 (dek_Plaintext key) bucket object;
      metadata ←? S3_CreateMetadata metadata (dek_KeyID key) (dek_Ciphertext key) sealedKey;
      Ok (objectKey, metadata)
  | Some S3KMS =>
      K ←? kms_or_err (GlobalKMS sys);
      key ←? from_kms (GenerateKey (r_kms rnd) keyID (object_context bucket object ctx));
      '(objectKey, sealedKey) ←? new_sealed_key rnd S3KMS (dek_Plaintext key) bucket object;
      metadata ←? S3KMS_CreateMetadata metadata (dek_KeyID key) (dek_Ciphertext key) sealedKey ctx;
      Ok (objectKey, metadata)
  | Some SSEC =>
      '(objectKey, sealedKey) ←? new_sealed_key rnd SSEC key bucket object;
      metadata ←? SSEC_CreateMetadata metadata sealedKey;
      Ok (objectKey, metadata)
  | None => Err (OtherError "encryption type '<nil>' not supported")
  end.

(** The key of a request, for the two callers of [newEncryptMetadata]. *)
Definition request_key (h : Header) : outcome sse_error (bytes * string * KmsContext) :=
  match IsRequested h with
  | Some SSEC => key ←? ParseSSECustomerHeader h; Ok (key, "", ∅)
  | Some S3KMS => '(keyID, ctx) ←? S3KMS_ParseHTTP h; Ok ([], keyID, ctx)
  | _ => Ok ([], "", ∅)
  end.

Definition setEncryptionMetadata (sys : services) (rnd : randomness) (h : Header) (bucket object : string) (metadata : Metadata) : outcome sse_error Metadata :=
  '(key, keyID, ctx) ←? request_key h;
  '(_, metadata) ←? newEncryptMetadata sys rnd (IsRequested h) keyID key bucket object metadata ctx;
  Ok metadata.

(** [EncryptRequest]: the key of the reader it gives, and the metadata. *)
Definition EncryptRequest (sys : services) (rnd : randomness) (h : Header) (bucket object : string) (metadata : Metadata) : outcome sse_error (bytes * Metadata) :=
  '(key, keyID, ctx) ←? request_key h;
  newEncryptMetadata sys rnd (IsRequested h) keyID key bucket object metadata ctx.

Definition decryptObjectInfo (sys : services) (key : bytes) (bucket object : string) (metadata : Metadata) : outcome sse_error bytes :=
  match (IsEncrypted metadata).1 with
  | Some S3 =>
      K ←? kms_or_err (if isCacheEncrypted metadata then globalCacheKMS sys else GlobalKMS sys);
      S3_UnsealObjectKey K metadata bucket object
  | Some S3KMS => K ←? kms_or_err (GlobalKMS sys); S3KMS_UnsealObjectKey K metadata bucket object
  | Some SSEC => SSEC_unsealObjectKey key metadata bucket object
  | None => Err errObjectTampered
  end.

(** The metadata is changed in place; here it is the result. *)
Definition rotateKey (sys : services) (rnd : randomness) (oldKey : bytes) (newKeyID : string) (newKey : bytes) (bucket object : string)
    (metadata : Metadata) (ctx : KmsContext) : outcome sse_error Metadata :=
  match (IsEncrypted metadata).1 with
  | Some S3 =>
      K ←? kms_or_err (GlobalKMS sys);
      objectKey ←? S3_UnsealObjectKey K metadata bucket object;
      newKey ←? from_kms (GenerateKey (r_kms rnd) "" {[bucket := Join [bucket; object]]});
      sealedKey ←? Seal objectKey (dek_Plaintext newKey) (r_iv rnd) (Type_String S3) bucket object;
      S3_CreateMetadata metadata (dek_KeyID newKey) (dek_Ciphertext newKey) sealedKey
  | Some S3KMS =>
      K ←? kms_or_err (GlobalKMS sys);
      objectKey ←? S3KMS_UnsealObjectKey K metadata bucket object;
      ctx ←? (if (size ctx =? 0)%nat then '(_, ctx) ←? S3KMS_ParseMetadata metadata; Ok ctx else Ok ctx);
      newKey ←? from_kms (GenerateKey (r_kms rnd) newKeyID (object_context bucket object ctx));
      sealedKey ←? Seal objectKey (dek_Plaintext newKey) (r_iv rnd) (Type_String S3KMS) bucket object;
      S3KMS_CreateMetadata metadata (dek_KeyID newKey) (dek_Ciphertext newKey) sealedKey ctx
  | Some SSEC =>
      sealedKey ←? SSEC_ParseMetadata metadata;
      match Unseal oldKey sealedKey (Type_String SSEC) bucket object with
      | Err _ => Err (if bool_decide (oldKey = newKey) then errInvalidSSEParameters else ErrInvalidCustomerKey)
      | Panic w => Panic w
      | Ok objectKey =>
          if bool_decide (oldKey = newKey) && String.eqb (sk_Algorithm sealedKey) SealAlgorithm then Ok metadata
          else
            sealedKey ←? Seal objectKey newKey (sk_IV sealedKey) (Type_String SSEC) bucket object;
            SSEC_CreateMetadata metadata sealedKey
      end
  | None => Err errObjectTampered
  end.

End Objects.

(** ** Sealing and unsealing *)

Section Sealed.
Context `{SealingLaws}.

Lemma Seal_ok key extKey iv domain bucket object :
  length key = 32%nat → length extKey = 32%nat →
  ∃ c, sio_Encrypt (sealing_key extKey iv domain bucket object) key = Ok c ∧ length c = 64%nat ∧
    Seal key extKey iv domain bucket object = Ok (mkSealed c iv SealAlgorithm).
Proof.
  intros Hk He. unfold Seal. rewrite He. cbn [Nat.eqb negb].
  destruct (encrypt_small (sealing_key extKey iv domain bucket object) key) as (c & Hc & Hl); [apply hmac_length|unfold zlen; lia|].
  exists c. rewrite Hc. unfold zlen in *. rewrite Hk in Hl. rewrite (proj2 (Z.eqb_eq _ _)) by lia. split; [done|]. split; [lia|done].
Qed.

Lemma Seal_inv key extKey iv domain bucket object sealed :
  Seal key extKey iv domain bucket object = Ok sealed →
  length extKey = 32%nat ∧ sio_Encrypt (sealing_key extKey iv domain bucket object) key = Ok (sk_Key sealed) ∧ length (sk_Key sealed) = 64%nat ∧
  sk_IV sealed = iv ∧ sk_Algorithm sealed = SealAlgorithm.
Proof.
  unfold Seal. destruct (Nat.eqb_spec (length extKey) 32) as [He|]; [|done]. cbn [negb]. destruct (sio_Encrypt _ key) as [c| |] eqn:E; [|done..].
  destruct (Z.eqb_spec (zlen c) 64) as [Hl|]; [|done]. intros [= <-]. unfold zlen in Hl. cbn. split_and!; (done || lia).
Qed.

(** A sealed key is unsealed with the same sealing key, and with no other. *)
Lemma unseal_sealed key extKey iv domain bucket object sealed extKey' domain' bucket' object' :
  length key = 32%nat → Seal key extKey iv domain bucket object = Ok sealed →
  Unseal extKey' sealed domain' bucket' object' =
    if decide (sealing_key extKey iv domain bucket object = sealing_key extKey' iv domain' bucket' object') then Ok key else Err ErrSecretKeyMismatch.
Proof.
  intros Hk (He & Henc & _ & Hiv & Halg)%Seal_inv. unfold Unseal, unseal_with. rewrite Halg, Hiv, String.eqb_refl.
  destruct (decide _) as [<-|Hne].
  - rewrite (decrypt_encrypted _ _ _ _ Henc) by done. by rewrite Hk.
  - by rewrite (decrypt_other_key _ _ _ _ _ Henc Hne).
Qed.

Lemma unseal_length extKey sealed domain bucket object key : Unseal extKey sealed domain bucket object = Ok key → length key = 32%nat.
Proof.
  unfold Unseal, unseal_with. repeat (case_match; try done); intros [= <-]; by apply Nat.eqb_eq.
Qed.

(** The tag of an object is read back. *)
Lemma etag_unsealed key etag :
  zlen etag ≤ 65536 → ∃ sealed, SealETag key etag = Ok sealed ∧ UnsealETag key sealed = Ok etag.
Proof.
  intros Hl. unfold SealETag. destruct etag as [|b etag]; [by exists []|].
  destruct (encrypt_small (etag_key key) (b :: etag)) as (c & Hc & Hcl); [apply hmac_length|unfold zlen in *; cbn [length] in *; lia|].
  rewrite Hc. exists c. split; [done|]. unfold UnsealETag, IsETagSealed. rewrite (proj2 (Z.ltb_lt _ _)) by (unfold zlen in *; cbn [length] in *; lia). cbn [negb].
  by rewrite (decrypt_encrypted _ _ _ _ Hc).
Qed.

Lemma decode_exact_encode n b : length b = n → decode_exact n (EncodeToString b) = Some b.
Proof. intros <-. unfold decode_exact. rewrite DecodeString_encode. cbn [mbind option_bind]. by rewrite Nat.eqb_refl. Qed.

Lemma decode_exact_length n s b : decode_exact n s = Some b → length b = n.
Proof. unfold decode_exact. intros (b' & _ & Hb)%bind_Some. destruct (Nat.eqb_spec (length b') n); [|done]. by simplify_eq. Qed.

Lemma or_err_ok {E A} (e : E) (o : option A) a : or_err e o = Ok a → o = Some a.
Proof. destruct o; cbn; congruence. Qed.

Lemma from_kms_ok {A} (m : outcome string A) a : from_kms m = Ok a → m = Ok a.
Proof. destruct m; cbn; congruence. Qed.

End Sealed.

(** ** The metadata is read back *)

Ltac meta_lookup := repeat (rewrite lookup_insert_eq || rewrite lookup_insert_ne by done); cbn [or_err obind].

Section Metadata.
Context `{Primitives} `{!Sealing} `{!ContextJSON} `{!ContextJSONLaws}.

(** Lengths and algorithm of a key that was sealed just now. *)
Record sealed_ok (sk : SealedKey) : Prop := {
  so_key : length (sk_Key sk) = 64%nat;
  so_iv : length (sk_IV sk) = 32%nat;
  so_alg : sk_Algorithm sk = SealAlgorithm;
}.

Lemma SSEC_read_back metadata sk : sealed_ok sk → ∃ metadata', SSEC_CreateMetadata metadata sk = Ok metadata' ∧ SSEC_ParseMetadata metadata' = Ok sk.
Proof.
  intros [Hk Hiv Ha]. unfold SSEC_CreateMetadata. rewrite Ha, String.eqb_refl. eexists. split; [done|]. unfold SSEC_ParseMetadata. meta_lookup.
  rewrite !decode_exact_encode by done. cbn [or_err obind]. rewrite String.eqb_refl. cbn [negb andb]. destruct sk; cbn in *; by subst.
Qed.

Lemma kms_entries_read_back name kind metadata keyID kmsKey sk :
  name ≠ MetaIV → name ≠ MetaAlgorithm → name ≠ MetaKeyID → name ≠ MetaDataEncryptionKey →
  sealed_ok sk → keyID ≠ "" → kmsKey ≠ [] →
  parse_kms_entries name kind (create_kms_entries name metadata keyID kmsKey sk) = Ok (keyID, kmsKey, sk).
Proof.
  intros N1 N2 N3 N4 [Hk Hiv Ha] Hid Hne. unfold create_kms_entries, parse_kms_entries.
  rewrite (proj2 (Nat.eqb_neq _ 0)) by (by destruct kmsKey). rewrite (proj2 (String.eqb_neq _ _) Hid). cbn [negb andb]. meta_lookup.
  rewrite !decode_exact_encode, Ha, String.eqb_refl, DecodeString_encode by done. cbn [or_err obind negb default from_option]. unfold id. destruct sk; cbn in *; by subst.
Qed.

Lemma check_arguments_ok keyID kmsKey sk : sealed_ok sk → keyID ≠ "" → kmsKey ≠ [] → check_kms_arguments keyID kmsKey sk = Ok ().
Proof.
  intros [_ _ Ha] Hid Hne. unfold check_kms_arguments. rewrite Ha, String.eqb_refl, (proj2 (String.eqb_neq _ _) Hid), (proj2 (Nat.eqb_neq _ 0)) by (by destruct kmsKey). done.
Qed.

(** Other entries are left alone. *)
Lemma kms_entries_other name metadata keyID kmsKey sk k :
  k ∉ [name; MetaIV; MetaAlgorithm; MetaKeyID; MetaDataEncryptionKey] → create_kms_entries name metadata keyID kmsKey sk !! k = metadata !! k.
Proof.
  intros Hk. unfold create_kms_entries. destruct (_ && _); rewrite !lookup_insert_ne by (intros <-; apply Hk; set_solver); done.
Qed.

Lemma kms_entries_name name metadata keyID kmsKey sk :
  name ≠ MetaKeyID → name ≠ MetaDataEncryptionKey → create_kms_entries name metadata keyID kmsKey sk !! name = Some (EncodeToString (sk_Key sk)).
Proof. intros N1 N2. unfold create_kms_entries. destruct (_ && _); by meta_lookup. Qed.

Lemma S3_read_back metadata keyID kmsKey sk :
  sealed_ok sk → keyID ≠ "" → kmsKey ≠ [] →
  S3_CreateMetadata metadata keyID kmsKey sk = Ok (create_kms_entries MetaSealedKeyS3 metadata keyID kmsKey sk) ∧
  S3_ParseMetadata (create_kms_entries MetaSealedKeyS3 metadata keyID kmsKey sk) = Ok (keyID, kmsKey, sk).
Proof.
  intros Hsk Hid Hne. unfold S3_CreateMetadata. rewrite check_arguments_ok by done. split; [done|]. by apply kms_entries_read_back.
Qed.

Lemma S3KMS_read_back metadata keyID kmsKey sk ctx :
  sealed_ok sk → keyID ≠ "" → kmsKey ≠ [] → context_ok ctx → (ctx = ∅ → parse_context metadata = Ok ∅) →
  ∃ metadata', S3KMS_CreateMetadata metadata keyID kmsKey sk ctx = Ok metadata' ∧ S3KMS_ParseMetadata metadata' = Ok (keyID, kmsKey, sk, ctx) ∧
    metadata' !! MetaSealedKeyKMS = Some (EncodeToString (sk_Key sk)).
Proof.
  intros Hsk Hid Hne Hctx Hnone. unfold S3KMS_CreateMetadata. rewrite check_arguments_ok by done. eexists. split; [done|].
  set (m := create_kms_entries MetaSealedKeyKMS metadata keyID kmsKey sk).
  assert (∀ m', (∀ k, k ≠ MetaContext → m' !! k = m !! k) → parse_kms_entries MetaSealedKeyKMS "SSE-KMS" m' = Ok (keyID, kmsKey, sk)) as Hparse.
  { intros m' Hm'. rewrite <- (kms_entries_read_back MetaSealedKeyKMS "SSE-KMS" metadata keyID kmsKey sk); [|done..]. unfold parse_kms_entries. by rewrite !Hm'. }
  unfold S3KMS_ParseMetadata. destruct (Nat.eqb_spec (size ctx) 0) as [Hs|Hs].
  - apply map_size_empty_inv in Hs as ->. rewrite Hparse by done. cbn [obind]. split; [|by apply kms_entries_name].
    unfold m, parse_context. rewrite kms_entries_other by (intros Hin; vm_compute in Hin; set_solver). fold (parse_context metadata). by rewrite Hnone.
  - rewrite Hparse by (intros k Hk; by rewrite lookup_insert_ne). cbn [obind]. unfold parse_context. rewrite lookup_insert_eq, DecodeString_encode. cbn [or_err obind]. rewrite ctx_read_back by done.
    split; [done|]. rewrite lookup_insert_ne by done. by apply kms_entries_name.
Qed.

End Metadata.
