(* ===== verification/SSEProofs.v ===== *)
(** * Keys of encrypted objects are recovered

    Proofs about SSE: a new object key can be read back from the metadata, by whoever has the key it was sealed
    with, and a rotation keeps it. *)

From Stdlib Require Import ZArith Lia Bool Ascii.
From Stdlib.Strings Require Import Byte.
From S2P Require Import Prelude GoStrings GoPath ObjectNames SSEMeta Erasure Msgp GoBase64 KMS SSE.

Local Open Scope go_scope.
Local Open Scope Z_scope.

Section Recover.
Context `{SealingLaws} `{!ContextJSON} `{!ContextJSONLaws}.

Lemma has_key_some {A} (m : gmap string A) k v : m !! k = Some v → has_key m k = true.
Proof. intros E. apply bool_decide_eq_true_2. by rewrite E. Qed.

Lemma has_key_none {A} (m : gmap string A) k : has_key m k = false ↔ m !! k = None.
Proof. unfold has_key. by rewrite bool_decide_eq_false, eq_None_not_Some. Qed.

Lemma fresh_inv metadata :
  IsEncrypted metadata = (None, false) →
  metadata !! MetaSealedKeyKMS = None ∧ metadata !! MetaSealedKeyS3 = None ∧ metadata !! MetaSealedKeySSEC = None ∧ metadata !! MetaContext = None.
Proof.
  unfold IsEncrypted, S3KMS_IsEncrypted, S3_IsEncrypted, SSEC_IsEncrypted. repeat (case_match; try done). intros _. by rewrite <- !has_key_none.
Qed.

(** The kind that the sealed keys show. *)
Lemma kind_of metadata :
  IsEncrypted metadata = if has_key metadata MetaSealedKeyKMS then (Some S3KMS, true) else if has_key metadata MetaSealedKeyS3 then (Some S3, true)
    else if has_key metadata MetaSealedKeySSEC then (Some SSEC, true) else (None, (IsEncrypted metadata).2).
Proof. unfold IsEncrypted, S3KMS_IsEncrypted, S3_IsEncrypted, SSEC_IsEncrypted. repeat (case_match; try done). Qed.

Lemma no_context metadata : metadata !! MetaContext = None → parse_context metadata = Ok ∅.
Proof. intros E. unfold parse_context. by rewrite E. Qed.

Lemma parse_context_ok metadata ctx : parse_context metadata = Ok ctx → context_ok ctx.
Proof.
  unfold parse_context. destruct (metadata !! MetaContext) as [t|]; [|intros [= <-]; apply map_Forall_empty].
  intros (b & _ & Hb%or_err_ok)%obind_ok. by eapply ctx_valid_text.
Qed.

Lemma new_sealed_key_ok rnd kind extKey bucket object :
  length (r_nonce rnd) = 32%nat → length (r_iv rnd) = 32%nat → length extKey = 32%nat →
  ∃ key sk, new_sealed_key rnd kind extKey bucket object = Ok (key, sk) ∧ length key = 32%nat ∧ sealed_ok sk ∧
    Seal key extKey (r_iv rnd) (Type_String kind) bucket object = Ok sk.
Proof.
  intros Hn Hiv He. unfold new_sealed_key, GenerateObjectKey. rewrite He, Hn. cbn [Nat.eqb negb obind].
  destruct (Seal_ok (sha256_Sum (extKey ++ r_nonce rnd)) extKey (r_iv rnd) (Type_String kind) bucket object) as (c & Hc & Hl & Hs); [apply sha_length|done|].
  rewrite Hs. cbn [obind]. eexists _, _. split; [done|]. split; [apply sha_length|]. split; [by split|done].
Qed.

Lemma unseal_same key extKey iv domain bucket object sk :
  length key = 32%nat → Seal key extKey iv domain bucket object = Ok sk → Unseal extKey sk domain bucket object = Ok key.
Proof. intros Hk Hs. rewrite (unseal_sealed key extKey iv domain bucket object sk extKey domain bucket object Hk Hs). by rewrite decide_True. Qed.

(** Entries written for SSE-S3 and SSE-KMS are decrypted with the service. *)
Lemma S3_recovers K `{!KMSLaws K} random keyID ctx dek metadata bucket object key iv sk :
  GenerateKey random keyID ctx = Ok dek → ctx = {[bucket := Join [bucket; object]]} → length key = 32%nat → sealed_ok sk →
  Seal key (dek_Plaintext dek) iv (Type_String S3) bucket object = Ok sk →
  ∃ metadata', S3_CreateMetadata metadata (dek_KeyID dek) (dek_Ciphertext dek) sk = Ok metadata' ∧ S3_UnsealObjectKey K metadata' bucket object = Ok key ∧
    has_key metadata' MetaSealedKeyS3 = true ∧ (∀ k, k ∉ [MetaSealedKeyS3; MetaIV; MetaAlgorithm; MetaKeyID; MetaDataEncryptionKey] → metadata' !! k = metadata !! k).
Proof.
  intros Hg -> Hk Hsk Hs. destruct (generated_named _ _ _ _ Hg) as [Hid Hne]. destruct (S3_read_back metadata (dek_KeyID dek) (dek_Ciphertext dek) sk Hsk Hid Hne) as [Hc Hp].
  eexists. split; [exact Hc|]. unfold S3_UnsealObjectKey. rewrite Hp. cbn [obind]. rewrite (decrypt_generated _ _ _ _ Hg). cbn [from_kms obind].
  split; [by eapply unseal_same|]. split; [|intros k; apply kms_entries_other]. eapply has_key_some. by apply kms_entries_name.
Qed.

Lemma S3KMS_recovers K `{!KMSLaws K} random keyID ctx dek metadata bucket object key iv sk :
  GenerateKey random keyID (object_context bucket object ctx) = Ok dek → context_ok ctx → (ctx = ∅ → parse_context metadata = Ok ∅) →
  length key = 32%nat → sealed_ok sk → Seal key (dek_Plaintext dek) iv (Type_String S3KMS) bucket object = Ok sk →
  ∃ metadata', S3KMS_CreateMetadata metadata (dek_KeyID dek) (dek_Ciphertext dek) sk ctx = Ok metadata' ∧ S3KMS_UnsealObjectKey K metadata' bucket object = Ok key ∧
    has_key metadata' MetaSealedKeyKMS = true.
Proof.
  intros Hg Hctx Hnone Hk Hsk Hs. destruct (generated_named _ _ _ _ Hg) as [Hid Hne].
  destruct (S3KMS_read_back metadata (dek_KeyID dek) (dek_Ciphertext dek) sk ctx Hsk Hid Hne Hctx Hnone) as (m' & Hc & Hp & Hn).
  exists m'. split; [exact Hc|]. unfold S3KMS_UnsealObjectKey. rewrite Hp. cbn [obind]. rewrite (decrypt_generated _ _ _ _ Hg). cbn [from_kms obind].
  split; [by eapply unseal_same|by eapply has_key_some].
Qed.

Lemma SSEC_recovers metadata bucket object key extKey iv sk :
  length key = 32%nat → sealed_ok sk → Seal key extKey iv (Type_String SSEC) bucket object = Ok sk →
  ∃ metadata', SSEC_CreateMetadata metadata sk = Ok metadata' ∧
    (∀ extKey' bucket' object', SSEC_unsealObjectKey extKey' metadata' bucket' object' =
       if decide (sealing_key extKey iv (Type_String SSEC) bucket object = sealing_key extKey' iv (Type_String SSEC) bucket' object') then Ok key else Err ErrSecretKeyMismatch) ∧
    has_key metadata' MetaSealedKeySSEC = true ∧ (∀ k, k ∉ [MetaSealedKeySSEC; MetaIV; MetaAlgorithm] → metadata' !! k = metadata !! k).
Proof.
  intros Hk Hsk Hs. destruct (SSEC_read_back metadata sk Hsk) as (m' & Hc & Hp). exists m'. split; [exact Hc|]. split.
  { intros extKey' bucket' object'. unfold SSEC_unsealObjectKey. rewrite Hp. cbn [obind]. by apply unseal_sealed. }
  unfold SSEC_CreateMetadata in Hc. rewrite (so_alg _ Hsk), String.eqb_refl in Hc. cbn [negb] in Hc. match type of Hc with Ok ?m = _ => assert (m' = m) as -> by congruence end.
  split; [eapply has_key_some; by rewrite lookup_insert_eq|]. intros k Hk'. rewrite !lookup_insert_ne by (intros <-; apply Hk'; set_solver). done.
Qed.

End Recover.

(** ** Theorems *)

Section Theorems.
Context `{SealingLaws} `{!ContextJSON} `{!ContextJSONLaws}.

Definition services_ok (sys : services) : Prop := ∀ K, GlobalKMS sys = Some K → KMSLaws K.
Definition random_ok (rnd : randomness) : Prop := length (r_nonce rnd) = 32%nat ∧ length (r_iv rnd) = 32%nat.

(** C13: a new encryption: the object shows its kind, and the key it was encrypted with is recovered from the metadata; for a
    customer key, with this key and the name of the object, and with nothing else that derives another sealing key. It fails only if
    there is no kind, or no key management service, or the service fails, and it panics only if a customer key has not 256 bits. *)
Theorem object_key_recovered sys rnd kind keyID key bucket object metadata ctx :
  services_ok sys → random_ok rnd → IsEncrypted metadata = (None, false) → isCacheEncrypted metadata = false → context_ok ctx →
  match newEncryptMetadata sys rnd kind keyID key bucket object metadata ctx with
  | Ok (objectKey, metadata') =>
      IsEncrypted metadata' = (kind, true) ∧ decryptObjectInfo sys key bucket object metadata' = Ok objectKey ∧
      (kind = Some SSEC → ∀ key' bucket' object',
         sealing_key key' (r_iv rnd) (Type_String SSEC) bucket' object' ≠ sealing_key key (r_iv rnd) (Type_String SSEC) bucket object →
         decryptObjectInfo sys key' bucket' object' metadata' = Err ErrSecretKeyMismatch)
  | Err e => kind = None ∨ kind ≠ Some SSEC ∧ (GlobalKMS sys = None ∧ e = errKMSNotConfigured ∨
      ∃ K keyID ctx, GlobalKMS sys = Some K ∧ from_kms (GenerateKey (r_kms rnd) keyID ctx) = Err e)
  | Panic _ => kind = Some SSEC ∧ length key ≠ 32%nat ∨ ∃ K keyID ctx w, GlobalKMS sys = Some K ∧ GenerateKey (r_kms rnd) keyID ctx = Panic w
  end.
Proof.
  intros Hsys [Hn Hiv] Hfresh Hcache Hctx. destruct (fresh_inv _ Hfresh) as (F1 & F2 & F3 & F4). unfold newEncryptMetadata. destruct kind as [[]|]; [| | |by left].
  - destruct (decide (length key = 32%nat)) as [Hk|Hk].
    + destruct (new_sealed_key_ok rnd SSEC key bucket object Hn Hiv Hk) as (okey & sk & -> & Hl & Hsk & Hs). cbn [obind].
      destruct (SSEC_recovers metadata bucket object okey key (r_iv rnd) sk Hl Hsk Hs) as (m' & -> & Hu & Hhas & Hother). cbn [obind].
      assert (IsEncrypted m' = (Some SSEC, true)) as Hkind.
      { rewrite kind_of, Hhas. unfold has_key. rewrite !Hother, F1, F2 by (intros Hin; vm_compute in Hin; set_solver). done. }
      split; [done|]. unfold decryptObjectInfo. rewrite Hkind. cbn [fst]. split; [rewrite Hu; by rewrite decide_True|].
      intros _ key' bucket' object' Hne. rewrite Hu, decide_False; [done|]. by apply not_eq_sym.
    + unfold new_sealed_key, GenerateObjectKey. rewrite (proj2 (Nat.eqb_neq _ _) Hk). cbn. by left.
  - destruct (GlobalKMS sys) as [K|] eqn:EK; cbn [kms_or_err or_err obind]; [|right; split; [done|by left]]. pose proof (Hsys K EK) as HK.
    destruct (GenerateKey (r_kms rnd) "" _) as [dek|e|w] eqn:Hg; cbn [from_kms obind]; [|right; split; [done|]; right; eexists K, _, _; by rewrite Hg|right; by eexists K, _, _, _].
    pose proof (generated_length _ _ _ _ Hg) as Hlen.
    destruct (new_sealed_key_ok rnd S3 (dek_Plaintext dek) bucket object Hn Hiv Hlen) as (okey & sk & -> & Hl & Hsk & Hs). cbn [obind].
    destruct (S3_recovers K _ _ _ dek metadata bucket object okey (r_iv rnd) sk Hg eq_refl Hl Hsk Hs) as (m' & -> & Hu & Hhas & Hother). cbn [obind].
    assert (IsEncrypted m' = (Some S3, true)) as Hkind.
    { rewrite kind_of, Hhas. unfold has_key. rewrite !Hother, F1 by (intros Hin; vm_compute in Hin; set_solver). done. }
    split; [done|]. split; [|done]. unfold decryptObjectInfo. rewrite Hkind. cbn [fst].
    assert (isCacheEncrypted m' = false) as ->.
    { unfold isCacheEncrypted, has_key in *. rewrite Hother; [done|]. intros Hin. vm_compute in Hin. set_solver. }
    rewrite EK. cbn [kms_or_err or_err obind]. done.
  - destruct (GlobalKMS sys) as [K|] eqn:EK; cbn [kms_or_err or_err obind]; [|right; split; [done|by left]]. pose proof (Hsys K EK) as HK.
    destruct (GenerateKey (r_kms rnd) keyID _) as [dek|e|w] eqn:Hg; cbn [from_kms obind]; [|right; split; [done|]; right; eexists K, _, _; by rewrite Hg|right; by eexists K, _, _, _].
    pose proof (generated_length _ _ _ _ Hg) as Hlen.
    destruct (new_sealed_key_ok rnd S3KMS (dek_Plaintext dek) bucket object Hn Hiv Hlen) as (okey & sk & -> & Hl & Hsk & Hs). cbn [obind].
    destruct (S3KMS_recovers K _ _ ctx dek metadata bucket object okey (r_iv rnd) sk Hg Hctx (λ _, no_context metadata F4) Hl Hsk Hs) as (m' & -> & Hu & Hhas). cbn [obind].
    assert (IsEncrypted m' = (Some S3KMS, true)) as Hkind by (by rewrite kind_of, Hhas).
    split; [done|]. split; [|done]. unfold decryptObjectInfo. rewrite Hkind, EK. cbn [fst kms_or_err or_err obind]. done.
Qed.

(** What a rotation needs of the metadata, if the object key can be read. *)
Lemma SSEC_sealed_iv metadata sk : SSEC_ParseMetadata metadata = Ok sk → length (sk_IV sk) = 32%nat.
Proof.
  unfold SSEC_ParseMetadata. intros (b64 & _ & Hp)%obind_ok. apply obind_ok in Hp as (alg & _ & Hp). apply obind_ok in Hp as (key & _ & Hp).
  apply obind_ok in Hp as (iv & Hiv%or_err_ok & Hp). destruct (_ && _); [done|]. apply obind_ok in Hp as (ek & _ & [= <-]). by eapply decode_exact_length.
Qed.

Lemma S3_length K metadata bucket object key : S3_UnsealObjectKey K metadata bucket object = Ok key → length key = 32%nat.
Proof. intros ([[id k] sk] & _ & (u & _ & Hu)%obind_ok)%obind_ok. by eapply unseal_length. Qed.

Lemma S3KMS_length K metadata bucket object key :
  S3KMS_UnsealObjectKey K metadata bucket object = Ok key → length key = 32%nat ∧ ∃ id k sk ctx, S3KMS_ParseMetadata metadata = Ok (id, k, sk, ctx).
Proof. intros ([[[id k] sk] ctx] & Hp & (u & _ & Hu)%obind_ok)%obind_ok. split; [by eapply unseal_length|]. by eexists _, _, _, _. Qed.

Lemma S3KMS_parse_context metadata id k sk ctx : S3KMS_ParseMetadata metadata = Ok (id, k, sk, ctx) → parse_context metadata = Ok ctx.
Proof. intros ([[id' k'] sk'] & _ & (c & Hc & [= _ _ _ ->])%obind_ok)%obind_ok. done. Qed.

Lemma seal_new_key key extKey iv kind bucket object :
  length key = 32%nat → length extKey = 32%nat → length iv = 32%nat → ∃ sk, Seal key extKey iv (Type_String kind) bucket object = Ok sk ∧ sealed_ok sk.
Proof. intros Hk He Hiv. destruct (Seal_ok key extKey iv (Type_String kind) bucket object Hk He) as (c & _ & Hl & ->). eexists. split; [done|by split]. Qed.

(** How a rotation may end. *)
Definition rotation_result sys rnd newKey bucket object metadata objectKey (r : outcome sse_error Metadata) : Prop :=
  match r with
  | Ok metadata' => (IsEncrypted metadata').1 = (IsEncrypted metadata).1 ∧ decryptObjectInfo sys newKey bucket object metadata' = Ok objectKey
  | Err e => (IsEncrypted metadata).1 ≠ Some SSEC ∧ ∃ K keyID ctx, GlobalKMS sys = Some K ∧ from_kms (GenerateKey (r_kms rnd) keyID ctx) = Err e
  | Panic _ => (IsEncrypted metadata).1 = Some SSEC ∧ length newKey ≠ 32%nat ∨ ∃ K keyID ctx w, GlobalKMS sys = Some K ∧ GenerateKey (r_kms rnd) keyID ctx = Panic w
  end.

Lemma kind_SSEC metadata : (IsEncrypted metadata).1 = Some SSEC → has_key metadata MetaSealedKeyKMS = false ∧ has_key metadata MetaSealedKeyS3 = false.
Proof. rewrite kind_of. by repeat case_match. Qed.

Lemma kind_S3 metadata : (IsEncrypted metadata).1 = Some S3 → has_key metadata MetaSealedKeyKMS = false.
Proof. rewrite kind_of. by repeat case_match. Qed.

Lemma rotate_SSEC sys rnd oldKey newKeyID newKey bucket object metadata ctx objectKey :
  (IsEncrypted metadata).1 = Some SSEC → decryptObjectInfo sys oldKey bucket object metadata = Ok objectKey →
  rotation_result sys rnd newKey bucket object metadata objectKey (rotateKey sys rnd oldKey newKeyID newKey bucket object metadata ctx).
Proof.
  intros Ek. destruct (kind_SSEC _ Ek) as [F1 F2]. unfold decryptObjectInfo, rotateKey, rotation_result. rewrite Ek. intros (sk & Hp & Hu)%obind_ok. rewrite Hp. cbn [obind]. rewrite Hu.
  destruct (bool_decide (oldKey = newKey) && _) eqn:E.
  { apply andb_true_iff in E as [->%bool_decide_eq_true _]. split; [by rewrite Ek|]. unfold decryptObjectInfo. rewrite Ek. unfold SSEC_unsealObjectKey. rewrite Hp. done. }
  clear E. destruct (decide (length newKey = 32%nat)) as [Hk|Hk]; [|unfold Seal; rewrite (proj2 (Nat.eqb_neq _ _) Hk); by left].
  pose proof (unseal_length _ _ _ _ _ _ Hu) as Hl. destruct (seal_new_key objectKey newKey (sk_IV sk) SSEC bucket object Hl Hk (SSEC_sealed_iv _ _ Hp)) as (sk' & Hs & Hsk).
  rewrite Hs. cbn [obind]. destruct (SSEC_recovers metadata bucket object objectKey newKey (sk_IV sk) sk' Hl Hsk Hs) as (m' & -> & Hu' & Hhas & Hother).
  assert (IsEncrypted m' = (Some SSEC, true)) as Hkind'.
  { rewrite kind_of, Hhas. unfold has_key in *. by rewrite !Hother, F1, F2 by (intros Hin; vm_compute in Hin; set_solver). }
  unfold decryptObjectInfo. rewrite Hkind', Hu'. cbn [fst]. by rewrite decide_True.
Qed.

Lemma rotate_S3 sys rnd oldKey newKeyID newKey bucket object metadata ctx objectKey :
  services_ok sys → random_ok rnd → isCacheEncrypted metadata = false →
  (IsEncrypted metadata).1 = Some S3 → decryptObjectInfo sys oldKey bucket object metadata = Ok objectKey →
  rotation_result sys rnd newKey bucket object metadata objectKey (rotateKey sys rnd oldKey newKeyID newKey bucket object metadata ctx).
Proof.
  intros Hsys [Hn Hiv] Hcache Ek. pose proof (kind_S3 _ Ek) as F1. unfold decryptObjectInfo, rotateKey, rotation_result. rewrite Ek, Hcache.
  intros (K & EK%or_err_ok & Hu)%obind_ok. rewrite EK. cbn [kms_or_err or_err obind]. rewrite Hu. cbn [obind]. pose proof (Hsys K EK) as HK.
  destruct (GenerateKey (r_kms rnd) "" _) as [dek|e|w] eqn:Hg; cbn [from_kms obind]; [|split; [done|]; eexists K, _, _; by rewrite Hg|right; by eexists K, _, _, _].
  pose proof (S3_length _ _ _ _ _ Hu) as Hl. destruct (seal_new_key objectKey (dek_Plaintext dek) (r_iv rnd) S3 bucket object Hl (generated_length _ _ _ _ Hg) Hiv) as (sk & Hs & Hsk).
  rewrite Hs. cbn [obind]. destruct (S3_recovers K _ _ _ dek metadata bucket object objectKey (r_iv rnd) sk Hg eq_refl Hl Hsk Hs) as (m' & -> & Hu' & Hhas & Hother).
  assert (IsEncrypted m' = (Some S3, true)) as Hkind' by (rewrite kind_of, Hhas; unfold has_key in *; by rewrite Hother, F1 by (intros Hin; vm_compute in Hin; set_solver)).
  assert (isCacheEncrypted m' = false) as Hc' by (unfold isCacheEncrypted, has_key in *; rewrite Hother; [done|]; intros Hin; vm_compute in Hin; set_solver).
  unfold decryptObjectInfo. rewrite Hkind', Hc', EK. cbn [fst kms_or_err or_err obind]. done.
Qed.

Lemma rotate_S3KMS sys rnd oldKey newKeyID newKey bucket object metadata ctx objectKey :
  services_ok sys → random_ok rnd → context_ok ctx →
  (IsEncrypted metadata).1 = Some S3KMS → decryptObjectInfo sys oldKey bucket object metadata = Ok objectKey →
  rotation_result sys rnd newKey bucket object metadata objectKey (rotateKey sys rnd oldKey newKeyID newKey bucket object metadata ctx).
Proof.
  intros Hsys [Hn Hiv] Hctx Ek. unfold decryptObjectInfo, rotateKey, rotation_result. rewrite Ek.
  intros (K & EK%or_err_ok & Hu)%obind_ok. rewrite EK. cbn [kms_or_err or_err obind]. rewrite Hu. cbn [obind]. pose proof (Hsys K EK) as HK.
  destruct (S3KMS_length _ _ _ _ _ Hu) as (Hl & id & k & sk0 & ctx0 & Hp). pose proof (S3KMS_parse_context _ _ _ _ _ Hp) as Hpc.
  assert (∃ c, (if (size ctx =? 0)%nat then '(_, ctx) ←? S3KMS_ParseMetadata metadata; Ok ctx else Ok ctx) = Ok c ∧ context_ok c ∧ (c = ∅ → parse_context metadata = Ok ∅)) as (c & Hcc & Hc & Hc0).
  { destruct (Nat.eqb_spec (size ctx) 0) as [|Hs].
    - rewrite Hp. exists ctx0. split; [done|]. split; [by eapply parse_context_ok|by intros <-].
    - exists ctx. split; [done|]. split; [done|]. by intros ->. }
  rewrite Hcc. cbn [obind]. destruct (GenerateKey (r_kms rnd) newKeyID _) as [dek|e|w] eqn:Hg; cbn [from_kms obind]; [|split; [done|]; eexists K, _, _; by rewrite Hg|right; by eexists K, _, _, _].
  destruct (seal_new_key objectKey (dek_Plaintext dek) (r_iv rnd) S3KMS bucket object Hl (generated_length _ _ _ _ Hg) Hiv) as (sk & Hs & Hsk).
  rewrite Hs. cbn [obind]. destruct (S3KMS_recovers K _ _ c dek metadata bucket object objectKey (r_iv rnd) sk Hg Hc Hc0 Hl Hsk Hs) as (m' & -> & Hu' & Hhas).
  assert (IsEncrypted m' = (Some S3KMS, true)) as Hkind' by (by rewrite kind_of, Hhas).
  unfold decryptObjectInfo. rewrite Hkind', EK. cbn [fst kms_or_err or_err obind]. done.
Qed.

(** C21: a rotation keeps the key of the object: if it could be read with the old key, then after the rotation it is read with the new one,
    and the kind of encryption is the same. A rotation fails only if the service fails, and panics only if the new customer key has not 256 bits. *)
Theorem rotation_keeps_object_key sys rnd oldKey newKeyID newKey bucket object metadata ctx objectKey :
  services_ok sys → random_ok rnd → isCacheEncrypted metadata = false → context_ok ctx →
  decryptObjectInfo sys oldKey bucket object metadata = Ok objectKey →
  rotation_result sys rnd newKey bucket object metadata objectKey (rotateKey sys rnd oldKey newKeyID newKey bucket object metadata ctx).
Proof.
  intros Hsys Hrnd Hcache Hctx Hd. destruct (IsEncrypted metadata).1 as [[]|] eqn:Ek.
  - by apply rotate_SSEC.
  - by apply rotate_S3.
  - by apply rotate_S3KMS.
  - unfold decryptObjectInfo in Hd. by rewrite Ek in Hd.
Qed.

End Theorems.

(** ** Examples *)

#[local] Existing Instances open_primitives open_primitives_laws.

(** A cipher that shows its key in front of the text. *)
#[local] Instance open_sealing : Sealing := {|
  sha256_Sum b := take 32 (b ++ repeat x00 32);
  md5_Sum b := take 16 b;
  sio_Encrypt key b := if (length key =? 32)%nat then Ok (key ++ b) else Err "sio: invalid key size";
  sio_DecryptBuffer v key c := if bool_decide (take 32 c = key) then Some (drop 32 c) else None;
|}.

#[local] Instance open_sealing_laws : SealingLaws.
Proof.
  split; cbn [hmac_sha256 open_primitives sha256_Sum sio_Encrypt sio_DecryptBuffer open_sealing].
  - intros key b. rewrite length_take, !length_app, repeat_length. lia.
  - intros b. rewrite length_take, length_app, repeat_length. lia.
  - intros key b Hk _. rewrite Hk. exists (key ++ b). split; [done|]. unfold zlen. rewrite length_app. lia.
  - intros key b c v. destruct (Nat.eqb_spec (length key) 32) as [Hk|]; [|done]. intros [= <-] _. rewrite take_app_length' by done. rewrite bool_decide_eq_true_2 by done.
    by rewrite drop_app_length' by done.
  - intros key key' b c v. destruct (Nat.eqb_spec (length key) 32) as [Hk|]; [|done]. intros [= <-] Hne. rewrite take_app_length' by done. by rewrite bool_decide_eq_false_2.
Qed.

#[local] Instance demo_ctx_json : ContextJSON := {|
  ctx_Unmarshal b := c ← read_context (bytes_string b); if bool_decide (context_ok c) then Some c else None;
|}.

#[local] Instance demo_ctx_json_laws : ContextJSONLaws.
Proof.
  split; cbn [ctx_Unmarshal demo_ctx_json].
  - intros c Hc. rewrite bytes_of_string, read_context_text by done. cbn [mbind option_bind]. by rewrite bool_decide_eq_true_2.
  - intros b c (c' & _ & Hc)%bind_Some. destruct (bool_decide (context_ok c')) eqn:E; [|done]. apply bool_decide_eq_true in E. by simplify_eq.
Qed.

Definition demo_services : services := mkServices (Some (single_key_kms true demo_master)) None.
Definition demo_rnd : randomness := mkRandom demo_random (repeat x11 32) (repeat x22 32).
Definition demo_sse_metadata : Metadata := {["content-type" := "text/plain"]}.
Definition demo_customer_key : bytes := repeat x33 32.

Lemma demo_services_ok : services_ok demo_services.
Proof. intros K [= <-]. by apply single_key_laws. Qed.

Lemma demo_rnd_ok : random_ok demo_rnd.
Proof. done. Qed.

Lemma demo_context_ok : context_ok demo_context.
Proof. apply map_Forall_singleton. done. Qed.

(** An object encrypted with SSE-KMS, and what the new keys were. *)
Definition demo_encrypted : outcome sse_error (bytes * Metadata) :=
  newEncryptMetadata demo_services demo_rnd (Some S3KMS) "key-1" [] "bucket" "object" demo_sse_metadata demo_context.
Definition demo_encrypted_key : bytes := match demo_encrypted with Ok p => p.1 | _ => [] end.
Definition demo_encrypted_metadata : Metadata := match demo_encrypted with Ok p => p.2 | _ => ∅ end.

Lemma demo_decrypted : decryptObjectInfo demo_services [] "bucket" "object" demo_encrypted_metadata = Ok demo_encrypted_key.
Proof. vm_compute. reflexivity. Qed.

Lemma demo_customer_ok : is_ok (newEncryptMetadata demo_services demo_rnd (Some SSEC) "" demo_customer_key "bucket" "object" demo_sse_metadata ∅) = true.
Proof. vm_compute. reflexivity. Qed.

Lemma object_key_recovered_witness :
  match newEncryptMetadata demo_services demo_rnd (Some SSEC) "" demo_customer_key "bucket" "object" demo_sse_metadata ∅ with
  | Ok (objectKey, metadata') => decryptObjectInfo demo_services demo_customer_key "bucket" "object" metadata' = Ok objectKey
  | _ => False
  end.
Proof.
  pose proof (object_key_recovered demo_services demo_rnd (Some SSEC) "" demo_customer_key "bucket" "object" demo_sse_metadata ∅ demo_services_ok demo_rnd_ok
    eq_refl eq_refl (map_Forall_empty _)) as Hk.
  pose proof demo_customer_ok as Hok. revert Hk Hok. generalize (newEncryptMetadata demo_services demo_rnd (Some SSEC) "" demo_customer_key "bucket" "object" demo_sse_metadata ∅).
  intros [[key m]|e|w] Hk Hok; [exact (proj1 (proj2 Hk))|discriminate Hok..].
Defined.

Lemma rotation_keeps_object_key_witness :
  rotation_result demo_services demo_rnd [] "bucket" "object" demo_encrypted_metadata demo_encrypted_key
    (rotateKey demo_services demo_rnd [] "key-1" [] "bucket" "object" demo_encrypted_metadata ∅).
Proof.
  exact (rotation_keeps_object_key demo_services demo_rnd [] "key-1" [] "bucket" "object" demo_encrypted_metadata ∅ demo_encrypted_key
    demo_services_ok demo_rnd_ok eq_refl (map_Forall_empty _) demo_decrypted).
Defined.
