(* ===== verification/XLInline.v ===== *)
(** * Data kept inside xl.meta (cmd/xl-storage-meta-inline.go)

    Small objects have no file of their own: their data is stored behind the versions in
    xl.meta, as a version byte and a MessagePack map from version IDs to data. The file
    models the operations on these bytes; the theorems relate them to a list of keys
    and values, whatever the bytes are. *)

From Stdlib Require Import ZArith Lia Bool.
From Stdlib.Strings Require Import Byte.
From S2P Require Import Prelude Erasure Bitrot Msgp.

Local Open Scope Z_scope.

Section Inline.
Context `{Msgp}.

Definition xlMetaInlineDataVer : Z := 1.

Definition versionOK (x : bytes) : bool :=
  match x with [] => true | v :: _ => (0 <? byte_val v) && (byte_val v <=? xlMetaInlineDataVer) end.

Definition afterVersion (x : bytes) : bytes := tail x.

(** The error texts are those of the code without what they wrap. *)
Inductive inline_error := UnknownVersion | BadHeader | BadKey | EmptyKey | BadValue.

(** ** Reading *)

Fixpoint find_loop (n : nat) (key buf : bytes) : option bytes :=
  match n with
  | O => None
  | S n =>
      match ReadMapKeyZC buf with
      | None => None
      | Some (found, buf) =>
          if decide (found = key) then fst <$> ReadBytesZC buf
          else match ReadBytesZC buf with None => None | Some (_, buf) => find_loop n key buf end
      end
  end.

(** [None] is the nil slice. *)
Definition find (x : bytes) (key : bytes) : option bytes :=
  if (length x =? 0)%nat || negb (versionOK x) then None
  else match ReadMapHeaderBytes (afterVersion x) with
       | None => None
       | Some (sz, buf) => if sz =? 0 then None else find_loop (Z.to_nat sz) key buf
       end.

Fixpoint list_loop (n : nat) (buf : bytes) : list bytes * option inline_error :=
  match n with
  | O => ([], None)
  | S n =>
      match ReadMapKeyZC buf with
      | None => ([], Some BadKey)
      | Some (key, buf) =>
          if (length key =? 0)%nat then ([], Some EmptyKey)
          else match ReadBytesZC buf with
               | None => ([key], Some BadValue)
               | Some (_, buf) => let '(keys, err) := list_loop n buf in (key :: keys, err)
               end
      end
  end.

Definition list_keys (x : bytes) : list bytes * option inline_error :=
  if (length x =? 0)%nat then ([], None)
  else if negb (versionOK x) then ([], Some UnknownVersion)
  else match ReadMapHeaderBytes (afterVersion x) with
       | None => ([], Some BadHeader)
       | Some (sz, buf) => list_loop (Z.to_nat sz) buf
       end.

Fixpoint validate_loop (n : nat) (buf : bytes) : option inline_error :=
  match n with
  | O => None
  | S n =>
      match ReadMapKeyZC buf with
      | None => Some BadKey
      | Some (key, buf) =>
          if (length key =? 0)%nat then Some EmptyKey
          else match ReadBytesZC buf with None => Some BadValue | Some (_, buf) => validate_loop n buf end
      end
  end.

Definition validate (x : bytes) : option inline_error :=
  if (length x =? 0)%nat then None
  else if negb (versionOK x) then Some UnknownVersion
  else match ReadMapHeaderBytes (afterVersion x) with
       | None => Some BadHeader
       | Some (sz, buf) => validate_loop (Z.to_nat sz) buf
       end.

Definition entries (x : bytes) : Z :=
  if (length x =? 0)%nat || negb (versionOK x) then 0
  else from_option fst 0 (ReadMapHeaderBytes (afterVersion x)).

(** ** Writing *)

Abbreviation pairs := (list (bytes * bytes)).

Definition put_pair (kv : bytes * bytes) : bytes := AppendString kv.1 ++ AppendBytes kv.2.

Definition serialize (kvs : pairs) : bytes :=
  if (length kvs =? 0)%nat then []
  else byte_of xlMetaInlineDataVer :: AppendMapHeader (zlen kvs mod 2 ^ 32) ++ concat (put_pair <$> kvs).

(** The loop that [replace], [rename] and [remove] share: entries up to the first that cannot be read. *)
Fixpoint read_pairs (n : nat) (buf : bytes) : pairs :=
  match n with
  | O => []
  | S n =>
      match ReadMapKeyZC buf with
      | None => []
      | Some (found, buf) =>
          match ReadBytesZC buf with None => [] | Some (foundVal, buf) => (found, foundVal) :: read_pairs n buf end
      end
  end.

Definition all_pairs (x : bytes) : pairs :=
  match ReadMapHeaderBytes (afterVersion x) with None => [] | Some (sz, buf) => read_pairs (Z.to_nat sz) buf end.

Definition replace (key value : bytes) (x : bytes) : bytes :=
  let kvs := all_pairs x in
  let replaced := existsb (λ kv, bool_decide (kv.1 = key)) kvs in
  let kvs := (λ kv, if decide (kv.1 = key) then (kv.1, value) else kv) <$> kvs in
  serialize (if replaced then kvs else kvs ++ [(key, value)]).

Definition rename (oldKey newKey : bytes) (x : bytes) : bool * bytes :=
  let kvs := all_pairs x in
  if existsb (λ kv, bool_decide (kv.1 = oldKey)) kvs
  then (true, serialize ((λ kv, if decide (kv.1 = oldKey) then (newKey, kv.2) else kv) <$> kvs))
  else (false, x).

Definition remove (keys : list bytes) (x : bytes) : bool * bytes :=
  let kvs := all_pairs x in
  if existsb (λ kv, bool_decide (kv.1 ∈ keys)) kvs
  then (true, serialize (filter (λ kv, kv.1 ∉ keys) kvs))
  else (false, x).

(** The loop of [repair] also stops at an empty key. *)
Fixpoint repair_pairs (n : nat) (buf : bytes) : pairs :=
  match n with
  | O => []
  | S n =>
      match ReadMapKeyZC buf with
      | None => []
      | Some (key, buf) =>
          if (length key =? 0)%nat then []
          else match ReadBytesZC buf with None => [] | Some (val, buf) => (key, val) :: repair_pairs n buf end
      end
  end.

Definition repair (data : bytes) : bytes :=
  if (length data =? 0)%nat then data
  else if negb (versionOK data) then []
  else match ReadMapHeaderBytes (afterVersion data) with
       | None => []
       | Some (sz, buf) => serialize (repair_pairs (Z.to_nat sz) buf)
       end.

(** ** The keys and values *)

(** The first value of a key. *)
Fixpoint assoc (key : bytes) (kvs : pairs) : option bytes :=
  match kvs with [] => None | (k, v) :: kvs => if decide (k = key) then Some v else assoc key kvs end.

Definition short (kv : bytes * bytes) : Prop := zlen kv.1 ≤ max_uint32 ∧ zlen kv.2 ≤ max_uint32.
Definition storable (kvs : pairs) : Prop := Forall short kvs ∧ zlen kvs ≤ max_uint32.

Context `{!MsgpLaws}.

Lemma read_put_pair kv rest : short kv → ∀ {A} (f : bytes → bytes → bytes → A) (z : A),
  match ReadMapKeyZC (put_pair kv ++ rest) with
  | None => z
  | Some (k, buf) => match ReadBytesZC buf with None => z | Some (v, buf) => f k v buf end
  end = f kv.1 kv.2 rest.
Proof. intros [Hk Hv] A f z. unfold put_pair. rewrite <- app_assoc, read_key, read_bytes by done. done. Qed.

Lemma serialize_open kvs : storable kvs → kvs ≠ [] →
  versionOK (serialize kvs) = true ∧ (length (serialize kvs) =? 0)%nat = false ∧
  ReadMapHeaderBytes (afterVersion (serialize kvs)) = Some (zlen kvs, concat (put_pair <$> kvs)).
Proof.
  intros [_ Hn] Hne. unfold serialize. destruct kvs as [|kv kvs]; [done|]. split; [|split]; [|done|].
  - cbn -[byte_of]. by rewrite byte_val_of.
  - cbn [length Nat.eqb afterVersion tail]. unfold max_uint32 in Hn. rewrite Z.mod_small by (unfold zlen in *; lia).
    apply read_map_header. unfold max_uint32, zlen in *; lia.
Qed.

Lemma serialize_nil_iff kvs : serialize kvs = [] ↔ kvs = [].
Proof. unfold serialize. by destruct kvs. Qed.

Lemma read_pairs_put kvs rest : Forall short kvs → read_pairs (length kvs) (concat (put_pair <$> kvs) ++ rest) = kvs.
Proof.
  induction 1 as [|kv kvs Hs _ IH]; [done|]. cbn [length read_pairs fmap list_fmap concat]. rewrite <- app_assoc.
  rewrite (read_put_pair kv _ Hs (λ k v buf, (k, v) :: read_pairs (length kvs) buf) []), IH. by destruct kv.
Qed.

(** What is written is read back. *)
Lemma all_pairs_serialize kvs : storable kvs → all_pairs (serialize kvs) = kvs.
Proof.
  intros Hst. unfold all_pairs. destruct (decide (kvs = [])) as [->|Hne]; [cbn; by rewrite map_header_empty|].
  destruct (serialize_open kvs Hst Hne) as (_ & _ & ->). unfold zlen. rewrite Nat2Z.id, <- (app_nil_r (concat _)). apply read_pairs_put, Hst.
Qed.

(** A search is a search among the pairs that can be read, if the format is known. *)
Lemma find_loop_pairs n key buf v : assoc key (read_pairs n buf) = Some v → find_loop n key buf = Some v.
Proof.
  revert buf. induction n as [|n IH]; intros buf; cbn [read_pairs find_loop]; [done|].
  destruct (ReadMapKeyZC buf) as [[k buf1]|]; [|done]. destruct (ReadBytesZC buf1) as [[v' buf2]|]; [|done]. cbn [assoc]. case_decide; [done|apply IH].
Qed.

Lemma find_loop_none n key buf : assoc key (read_pairs n buf) = None → find_loop n key buf = None.
Proof.
  revert buf. induction n as [|n IH]; intros buf; cbn [read_pairs find_loop]; [done|].
  destruct (ReadMapKeyZC buf) as [[k buf1]|]; [|done]. destruct (ReadBytesZC buf1) as [[v' buf2]|]; [|by case_decide]. cbn [assoc]. case_decide; [done|apply IH].
Qed.

Lemma find_pairs key x : versionOK x = true → find x key = assoc key (all_pairs x).
Proof.
  intros Hv. unfold find, all_pairs. rewrite Hv, orb_false_r. destruct (length x =? 0)%nat eqn:E.
  { apply Nat.eqb_eq, nil_length_inv in E as ->. cbn. by rewrite map_header_empty. }
  destruct (ReadMapHeaderBytes (afterVersion x)) as [[sz buf]|]; [|done]. destruct (sz =? 0) eqn:Hz.
  { apply Z.eqb_eq in Hz as ->. done. }
  destruct (assoc key (read_pairs (Z.to_nat sz) buf)) eqn:Ha; [by apply find_loop_pairs|by apply find_loop_none].
Qed.

Lemma versionOK_serialize kvs : storable kvs → versionOK (serialize kvs) = true.
Proof. intros Hst. destruct (decide (kvs = [])) as [->|Hne]; [done|]. by apply serialize_open. Qed.

Lemma find_serialize key kvs : storable kvs → find (serialize kvs) key = assoc key kvs.
Proof. intros Hst. by rewrite find_pairs, all_pairs_serialize by (done || by apply versionOK_serialize). Qed.

Lemma read_pairs_short n buf : Forall short (read_pairs n buf).
Proof.
  revert buf. induction n as [|n IH]; intros buf; cbn [read_pairs]; [done|].
  destruct (ReadMapKeyZC buf) as [[k buf1]|] eqn:Ek; [|done]. destruct (ReadBytesZC buf1) as [[v buf2]|] eqn:Ev; [|done].
  constructor; [|apply IH]. split; [by eapply key_short|by eapply bytes_short].
Qed.

Lemma read_pairs_length n buf : (length (read_pairs n buf) ≤ n)%nat.
Proof.
  revert buf. induction n as [|n IH]; intros buf; cbn [read_pairs]; [done|].
  destruct (ReadMapKeyZC buf) as [[k buf1]|]; [|cbn; lia]. destruct (ReadBytesZC buf1) as [[v buf2]|]; cbn [length]; [|lia]. specialize (IH buf2). lia.
Qed.

Lemma all_pairs_storable x : storable (all_pairs x).
Proof.
  unfold all_pairs. destruct (ReadMapHeaderBytes (afterVersion x)) as [[sz buf]|] eqn:E; [|by split; [constructor|]].
  split; [apply read_pairs_short|]. apply map_header_range in E. pose proof (read_pairs_length (Z.to_nat sz) buf). unfold zlen. lia.
Qed.

Lemma assoc_app key l1 l2 : assoc key (l1 ++ l2) = match assoc key l1 with Some v => Some v | None => assoc key l2 end.
Proof. induction l1 as [|[k v] l1 IH]; cbn [assoc app]; [done|]. by case_decide. Qed.

Lemma assoc_absent key kvs : existsb (λ kv, bool_decide (kv.1 = key)) kvs = false ↔ assoc key kvs = None.
Proof.
  induction kvs as [|[k v] kvs IH]; cbn [existsb assoc fst]; [done|]. rewrite orb_false_iff, IH, bool_decide_eq_false.
  case_decide; [by split; [intros []|]|tauto].
Qed.

Lemma assoc_filter (keys : list bytes) kvs key : assoc key (filter (λ kv, kv.1 ∉ keys) kvs) = if decide (key ∈ keys) then None else assoc key kvs.
Proof.
  induction kvs as [|[k v] kvs IH]; [by case_decide|]. rewrite filter_cons. cbn [fst assoc].
  destruct (decide (k ∉ keys)) as [Hk|Hk]; cbn [assoc]; rewrite IH; repeat case_decide; subst; naive_solver.
Qed.

(** The pairs after a replacement. *)
Definition replaced_pairs (key value : bytes) (kvs : pairs) : pairs :=
  let kvs' := (λ kv, if decide (kv.1 = key) then (kv.1, value) else kv) <$> kvs in
  if existsb (λ kv, bool_decide (kv.1 = key)) kvs then kvs' else kvs' ++ [(key, value)].

Lemma replaced_short key value kvs : short (key, value) → Forall short kvs → Forall short (replaced_pairs key value kvs).
Proof.
  intros [Hk Hv] Hs. assert (Forall short ((λ kv, if decide (kv.1 = key) then (kv.1, value) else kv) <$> kvs)) as Hf.
  { apply Forall_fmap. apply (Forall_impl _ _ _ Hs). intros [k v] [Hk' Hv']. cbn. case_decide; by split. }
  unfold replaced_pairs. case_match; [done|]. apply Forall_app_2; [done|]. constructor; [by split|done].
Qed.

Lemma replaced_assoc key value kvs k' : assoc k' (replaced_pairs key value kvs) = if decide (k' = key) then Some value else assoc k' kvs.
Proof.
  assert (∀ k', assoc k' ((λ kv, if decide (kv.1 = key) then (kv.1, value) else kv) <$> kvs) =
    if decide (k' = key) then (λ _, value) <$> assoc key kvs else assoc k' kvs) as Hf.
  { clear k'. intros k'. induction kvs as [|[k v] kvs IH]; cbn [fmap list_fmap assoc fst]; [by case_decide|].
    destruct (decide (k = key)) as [->|Hne]; cbn [assoc]; rewrite IH; repeat case_decide; subst; done. }
  unfold replaced_pairs. destruct (existsb _ kvs) eqn:E.
  - rewrite Hf. destruct (assoc key kvs) eqn:Ha; [done|]. apply assoc_absent in Ha. congruence.
  - apply assoc_absent in E. rewrite assoc_app, Hf, E. cbn [assoc]. repeat case_decide; subst; try done. by destruct (assoc k' kvs).
Qed.

Lemma replaced_length key value kvs : zlen (replaced_pairs key value kvs) ≤ zlen kvs + 1.
Proof. unfold replaced_pairs, zlen. case_match; rewrite ?length_app, length_fmap; cbn [length]; lia. Qed.

Lemma replace_pairs key value x : replace key value x = serialize (replaced_pairs key value (all_pairs x)).
Proof. done. Qed.

Lemma replaced_storable key value x :
  short (key, value) → zlen (all_pairs x) < max_uint32 → storable (replaced_pairs key value (all_pairs x)).
Proof.
  intros Hs Hn. pose proof (all_pairs_storable x) as [Hp _]. split; [by apply replaced_short|].
  pose proof (replaced_length key value (all_pairs x)). lia.
Qed.

(** *** Validity *)

Lemma validate_loop_pairs n buf : validate_loop n buf = None ↔ length (read_pairs n buf) = n ∧ Forall (λ kv, kv.1 ≠ []) (read_pairs n buf).
Proof.
  revert buf. induction n as [|n IH]; intros buf; cbn [read_pairs validate_loop]; [done|].
  destruct (ReadMapKeyZC buf) as [[k buf1]|]; [|by split; [|intros []]]. destruct (length k =? 0)%nat eqn:Ek.
  - apply Nat.eqb_eq, nil_length_inv in Ek as ->. split; [done|]. destruct (ReadBytesZC buf1) as [[v buf2]|]; [|intros []; done].
    intros [_ Hf]. by inversion Hf.
  - apply Nat.eqb_neq in Ek. destruct (ReadBytesZC buf1) as [[v buf2]|]; [|by split; [|intros []]]. rewrite IH. cbn [length]. rewrite Forall_cons. cbn [fst].
    split; [intros [? ?]; split_and!; [lia|by intros ->|done]|intros (? & ? & ?); split; [lia|done]].
Qed.

Lemma validate_iff x : validate x = None ↔
  x = [] ∨ versionOK x = true ∧ ∃ sz buf, ReadMapHeaderBytes (afterVersion x) = Some (sz, buf) ∧ zlen (all_pairs x) = sz ∧ Forall (λ kv, kv.1 ≠ []) (all_pairs x).
Proof.
  unfold validate. destruct x as [|c x]; [by split; [left|]|]. cbn [length Nat.eqb]. destruct (versionOK (c :: x)); cbn [negb]; [|by split; [|intros [|[]]]].
  unfold all_pairs. destruct (ReadMapHeaderBytes (afterVersion (c :: x))) as [[sz buf]|] eqn:E.
  - apply map_header_range in E as Hr. rewrite validate_loop_pairs. unfold zlen. split.
    + intros [Hn Hf]. right. split; [done|]. exists sz, buf. split_and!; [done|lia|done].
    + intros [?|(_ & ? & ? & [= <- <-] & Hn & Hf)]; [done|]. split; [lia|done].
  - split; [done|]. intros [?|(_ & ? & ? & ? & _)]; done.
Qed.

Lemma validate_serialize kvs : storable kvs → Forall (λ kv, kv.1 ≠ []) kvs → validate (serialize kvs) = None.
Proof.
  intros Hst Hne. apply validate_iff. destruct (decide (kvs = [])) as [->|Hk]; [by left|]. right. destruct (serialize_open kvs Hst Hk) as (Hv & _ & Ho).
  split; [done|]. exists (zlen kvs), (concat (put_pair <$> kvs)). rewrite all_pairs_serialize by done. done.
Qed.

Lemma repair_pairs_prefix n buf : repair_pairs n buf `prefix_of` read_pairs n buf.
Proof.
  revert buf. induction n as [|n IH]; intros buf; cbn [read_pairs repair_pairs]; [done|].
  destruct (ReadMapKeyZC buf) as [[k buf1]|]; [|done]. case_if; [apply prefix_nil|].
  destruct (ReadBytesZC buf1) as [[v buf2]|]; [|done]. by apply prefix_cons.
Qed.

Lemma repair_pairs_keys n buf : Forall (λ kv, kv.1 ≠ []) (repair_pairs n buf).
Proof.
  revert buf. induction n as [|n IH]; intros buf; cbn [repair_pairs]; [done|].
  destruct (ReadMapKeyZC buf) as [[k buf1]|]; [|done]. destruct (length k =? 0)%nat eqn:E; [done|].
  destruct (ReadBytesZC buf1) as [[v buf2]|]; [|done]. constructor; [|apply IH]. intros Hk. cbn in Hk. by rewrite Hk in E.
Qed.

Lemma prefix_storable kvs kvs' : kvs `prefix_of` kvs' → storable kvs' → storable kvs.
Proof.
  intros [l ->] [Hs Hn]. apply Forall_app in Hs as [Hs _]. split; [done|]. unfold zlen in *. rewrite length_app in Hn. lia.
Qed.

Lemma repair_spec x : ∃ kvs, repair x = serialize kvs ∧ kvs `prefix_of` all_pairs x ∧ Forall (λ kv, kv.1 ≠ []) kvs ∧ (versionOK x = true ∨ kvs = []).
Proof.
  unfold repair, all_pairs. destruct (length x =? 0)%nat eqn:E.
  { apply Nat.eqb_eq, nil_length_inv in E as ->. exists []. split_and!; [done|apply prefix_nil|done|by left]. }
  destruct (versionOK x) eqn:Hv; cbn [negb]; [|exists []; split_and!; [done|apply prefix_nil|done|by right]].
  destruct (ReadMapHeaderBytes (afterVersion x)) as [[sz buf]|]; [|exists []; split_and!; [done|done|done|by right]].
  exists (repair_pairs (Z.to_nat sz) buf). split_and!; [done|apply repair_pairs_prefix|apply repair_pairs_keys|by left].
Qed.

Lemma repair_valid_pairs n buf : validate_loop n buf = None → repair_pairs n buf = read_pairs n buf.
Proof.
  revert buf. induction n as [|n IH]; intros buf; cbn [read_pairs repair_pairs validate_loop]; [done|].
  destruct (ReadMapKeyZC buf) as [[k buf1]|]; [|done]. case_if; [done|]. destruct (ReadBytesZC buf1) as [[v buf2]|]; [|done]. intros Hv. by rewrite IH.
Qed.

Lemma assoc_prefix key kvs kvs' v : kvs `prefix_of` kvs' → assoc key kvs = Some v → assoc key kvs' = Some v.
Proof. intros [l ->] Hv. by rewrite assoc_app, Hv. Qed.

End Inline.

(** ** Theorems *)

Section Theorems.
Context `{MsgpLaws}.

(** Storing data under a key keeps valid inline data valid; the key then has that data,
    and every other key what it had. *)
Lemma inline_replace x key value :
  validate x = None → entries x < max_uint32 → key ≠ [] → zlen key ≤ max_uint32 → zlen value ≤ max_uint32 →
  validate (replace key value x) = None ∧
  ∀ key', find (replace key value x) key' = if decide (key' = key) then Some value else find x key'.
Proof.
  intros Hv Hn Hk Hlk Hlv. assert (zlen (all_pairs x) < max_uint32 ∧ versionOK x = true ∧ Forall (λ kv, kv.1 ≠ []) (all_pairs x)) as (Hp & Hok & Hf).
  { apply validate_iff in Hv as [->|(Hok & sz & buf & Hr & Hl & Hf)].
    - unfold all_pairs. cbn [afterVersion tail]. rewrite map_header_empty. done.
    - unfold entries in Hn. rewrite Hok, Hr, orb_false_r in Hn. cbn [from_option fst] in Hn. split_and!; [|done|done].
      destruct (length x =? 0)%nat eqn:E; [|lia]. apply Nat.eqb_eq, nil_length_inv in E as ->. cbn [afterVersion tail] in Hr. by rewrite map_header_empty in Hr. }
  assert (storable (replaced_pairs key value (all_pairs x))) as Hst by (apply replaced_storable; [by split|done]).
  rewrite replace_pairs. split.
  - apply validate_serialize; [done|]. unfold replaced_pairs. assert (Forall (λ kv : bytes * bytes, kv.1 ≠ []) ((λ kv, if decide (kv.1 = key) then (kv.1, value) else kv) <$> all_pairs x)).
    { apply Forall_fmap. apply (Forall_impl _ _ _ Hf). intros [k v] Hne. cbn. by case_decide. }
    case_match; [done|]. apply Forall_app_2; [done|]. by constructor.
  - intros key'. rewrite find_serialize, replaced_assoc, (find_pairs key' x) by done. done.
Qed.

(** Removed keys have no data any more, the others what they had. *)
Lemma inline_remove keys x :
  validate x = None → validate (remove keys x).2 = None ∧
  ∀ key, find (remove keys x).2 key = if decide (key ∈ keys) then None else find x key.
Proof.
  intros Hv. assert (versionOK x = true ∧ Forall (λ kv, kv.1 ≠ []) (all_pairs x)) as [Hok Hf].
  { apply validate_iff in Hv as [->|(Hok & _ & _ & _ & _ & Hf)]; [|done]. unfold all_pairs. cbn [afterVersion tail]. by rewrite map_header_empty. }
  unfold remove. destruct (existsb _ (all_pairs x)) eqn:E; cbn [snd].
  - assert (storable (filter (λ kv, kv.1 ∉ keys) (all_pairs x))) as Hst.
    { destruct (all_pairs_storable x) as [Hs Hn]. split; [by apply Forall_filter|]. unfold zlen in *. pose proof (length_filter (λ kv, kv.1 ∉ keys) (all_pairs x)). lia. }
    split; [apply validate_serialize; [done|by apply Forall_filter]|]. intros key. rewrite find_serialize, (find_pairs key x) by done. apply assoc_filter.
  - split; [done|]. intros key. rewrite find_pairs by done. case_decide as Hin; [|done]. apply assoc_absent. apply not_true_is_false. intros Hex.
    apply existsb_exists in Hex as (kv & Hkv & Hkey%bool_decide_eq_true). apply not_true_iff_false in E. apply E, existsb_exists.
    exists kv. split; [done|]. apply bool_decide_eq_true. by rewrite Hkey.
Qed.

(** Whatever the bytes are, repaired inline data is valid and holds only data that was
    there; data that was valid already keeps every entry. *)
Theorem inline_repair x :
  validate (repair x) = None ∧ (∀ key v, find (repair x) key = Some v → find x key = Some v) ∧
  (validate x = None → ∀ key, find (repair x) key = find x key).
Proof.
  destruct (repair_spec x) as (kvs & Hr & Hpre & Hf & Hok). pose proof (prefix_storable _ _ Hpre (all_pairs_storable x)) as Hst. split; [|split].
  - rewrite Hr. by apply validate_serialize.
  - intros key v. rewrite Hr, find_serialize by done. destruct Hok as [Hok| ->]; [|done]. rewrite find_pairs by done. by apply assoc_prefix.
  - intros Hv key. unfold repair, validate in *. destruct (length x =? 0)%nat; [done|]. destruct (versionOK x) eqn:Hvx; cbn [negb] in *; [|done].
    rewrite (find_pairs key x) by done. unfold all_pairs. destruct (ReadMapHeaderBytes (afterVersion x)) as [[sz buf]|] eqn:E; [|done].
    rewrite (repair_valid_pairs _ _ Hv). apply find_serialize. pose proof (all_pairs_storable x) as Hp. unfold all_pairs in Hp. by rewrite E in Hp.
Qed.

End Theorems.

(** Two entries, of which the second is cut off. *)
Definition demo_damaged : bytes := take 9 (serialize [([x6e], [x01]); ([x6f], [x02])]).

Lemma inline_repair_witness :
  validate demo_damaged = Some BadValue ∧ validate (repair demo_damaged) = None ∧ find (repair demo_damaged) [x6e] = Some [x01] ∧
  (∀ key v, find (repair demo_damaged) key = Some v → find demo_damaged key = Some v).
Proof. split; [vm_compute; reflexivity|]. split; [apply (inline_repair demo_damaged)|]. split; [vm_compute; reflexivity|]. apply (inline_repair demo_damaged). Defined.
