(* ===== verification/BitrotStore.v ===== *)
(** * Erasure-coded objects on drives with bit rot (cmd/erasure-encode.go, cmd/bitrot-streaming.go, cmd/erasure-decode.go)

    The writers of [Encode] are streaming bitrot writers and the readers of [Decode]
    streaming bitrot readers. A reader is asked for one shard after the other, from
    the first block of the range on; when it fails it is not asked again. *)

From Stdlib Require Import ZArith Lia Bool.
From S2P Require Import Prelude ErasureErrs Erasure ErasureRead ErasureStore Bitrot.

Local Open Scope go_scope.
Local Open Scope Z_scope.

Section Reader.
Context `{BitrotHash}.

(** The state after [n] shards that were read from shard [lo] on. *)
Fixpoint br_after (disk : Z → Z → outcome derr stream) (shardSize : Z) (b : streamingBitrotReader) (lo n : nat)
    : outcome derr streamingBitrotReader :=
  match n with
  | O => Ok b
  | S n =>
      match br_ReadAt disk shardSize (Z.of_nat lo * shardSize) b with
      | (Ok _, b) => br_after disk shardSize b (S lo) n
      | (Err err, _) => Err err
      | (Panic w, _) => Panic w
      end
  end.

(** The reader of a drive for a request that starts in block [lo]. *)
Definition bitrot_reader (disk : Z → Z → outcome derr stream) (data : bytes) (till shardSize : Z) (lo : nat) : reader :=
  λ off len,
    let k := Z.to_nat (off / shardSize) in
    let lo := Nat.min lo k in
    b ←? br_after disk shardSize (newStreamingBitrotReader data till HighwayHash256S shardSize) lo (k - lo);
    (br_ReadAt disk len off b).1.

End Reader.

(** ** A reader gives the content or an error *)

Section Honest.
Context `{BitrotHashLaws}.
Context (shardSize : Z) (content file : bytes) (disk : Z → Z → outcome derr stream).
Hypothesis shard_pos : 0 < shardSize.
Hypothesis Hkept : hashes_kept shardSize content file.
Hypothesis Hcoll : no_collision shardSize content file.
Hypothesis Hserves : serves file disk.

Lemma br_after_spec b lo n :
  br_ok shardSize file b → (∃ err, br_after disk shardSize b lo n = Err err) ∨ ∃ b', br_after disk shardSize b lo n = Ok b' ∧ br_ok shardSize file b'.
Proof.
  revert b lo. induction n as [|n IH]; intros b lo Hb; cbn [br_after]; [right; by exists b|].
  destruct (br_ReadAt _ _ _ b) as [r b1] eqn:Hr.
  eapply (br_ReadAt_spec shardSize shard_pos content file disk Hkept Hcoll Hserves) in Hr as [[err ->]|[-> Hb1]]; [| |done|nia|lia].
  - left. by eexists.
  - by apply IH.
Qed.

Lemma bitrot_reader_reads data till lo : data = [] ∨ data = file → reads content (bitrot_reader disk data till shardSize lo).
Proof.
  intros Hd off len Ho Hl. unfold bitrot_reader. cbv zeta.
  destruct (br_after_spec (newStreamingBitrotReader data till HighwayHash256S shardSize) (Nat.min lo (Z.to_nat (off / shardSize)))
    (Z.to_nat (off / shardSize) - Nat.min lo (Z.to_nat (off / shardSize)))) as [[err ->]|(b & -> & Hb)]; [by apply new_ok|left; by eexists|].
  cbn [obind]. destruct (br_ReadAt disk len off b) as [r b'] eqn:Hr.
  destruct (br_ReadAt_spec shardSize shard_pos content file disk Hkept Hcoll Hserves _ _ _ _ _ Hb Ho Hl Hr) as [?|[-> _]]; [by left|by right].
Qed.

End Honest.

(** ** A healthy drive gives every shard *)

Section Healthy.
Context `{BitrotHashLaws}.
Context (shardSize : Z) (content data : bytes) (disk : Z → Z → outcome derr stream) (till : Z).
Hypothesis shard_pos : 0 < shardSize.

Let algo := HighwayHash256S.
Let hs := Size algo.
Let file := bitrot_file shardSize content.
Let chunk k := slice content (Z.of_nat k * shardSize) shardSize.
Let pos k := Z.of_nat k * (hs + shardSize).
Let T := ceilFrac till shardSize * hs + till.

(** The drive gives what it is asked for. *)
Definition healthy (f : bytes) (d : Z → Z → outcome derr stream) : Prop :=
  ∀ off len, 0 ≤ off → 0 ≤ len → d off len = Ok (mkStream (slice f off len) EOF).

(** The shards are in the metadata, or on the drive. *)
Hypothesis Hsrc : data = [] ∧ healthy file disk ∨ data = file.

(** The reader is before shard [k]. *)
Definition br_at (k : nat) (b : streamingBitrotReader) : Prop :=
  br_algo b = algo ∧ br_shardSize b = shardSize ∧ br_data b = data ∧ br_tillOffset b = T ∧
  (br_rc b = None ∨ br_currOffset b = Z.of_nat k * shardSize ∧ ∃ e, br_rc b = Some (mkStream (slice file (pos k) (T - pos k)) e)).

Lemma in_till k :
  0 ≤ till → Z.of_nat k * shardSize < zlen content → Z.of_nat k * shardSize + zlen (chunk k) ≤ till →
  0 < zlen (chunk k) ≤ shardSize ∧ pos k + hs + zlen (chunk k) ≤ T ∧ 0 ≤ pos k.
Proof.
  intros Ht Hk Hin. assert (0 < zlen (chunk k) ≤ shardSize) as Hc.
  { unfold chunk, slice, zlen in *. rewrite length_take, length_drop. lia. }
  pose proof (Size_pos algo) as Hh. fold hs in Hh. split_and!; [lia|lia| |unfold pos; nia].
  assert (Z.of_nat k + 1 ≤ ceilFrac till shardSize); [|unfold pos, T; nia].
  rewrite ceilFrac_pos by lia. apply Z.div_le_lower_bound; lia.
Qed.

Lemma healthy_step k b :
  0 ≤ till → br_at k b → Z.of_nat k * shardSize < zlen content → Z.of_nat k * shardSize + zlen (chunk k) ≤ till →
  ∃ b', br_ReadAt disk (zlen (chunk k)) (Z.of_nat k * shardSize) b = (Ok (chunk k), b') ∧ (zlen (chunk k) = shardSize → br_at (S k) b').
Proof.
  intros Ht (Ha & Hs & Hd & HT & Hrc) Hk Hin. destruct (in_till k Ht Hk Hin) as (Hc & Hpos & Hp0).
  pose proof (Size_pos algo) as Hh. fold hs in Hh. destruct (bitrot_file_nth shardSize shard_pos k content Hk) as [Hhash Hdata].
  fold algo hs file in Hhash, Hdata. fold (pos k) (chunk k) in Hhash, Hdata.
  assert (pos k + hs + zlen (chunk k) ≤ zlen file) as Hfile.
  { apply Z.nlt_ge. intros Hlt. assert (zlen (slice file (pos k + hs) (zlen (chunk k))) < zlen (chunk k)) as Hz; [|rewrite Hdata in Hz; lia].
    unfold slice, zlen at 1. rewrite length_take, length_drop. unfold zlen in *. lia. }
  assert (∃ e b1, br_open disk (Z.of_nat k * shardSize) b = (Ok (mkStream (slice file (pos k) (T - pos k)) e), b1) ∧
    br_currOffset b1 = Z.of_nat k * shardSize ∧ br_algo b1 = algo ∧ br_shardSize b1 = shardSize ∧ br_data b1 = data ∧ br_tillOffset b1 = T)
    as (e & b1 & Hopen & E1 & E2 & E3 & E4 & E5).
  { unfold br_open. destruct Hrc as [Hn|(Hcur & e & He)]; [|rewrite He; by exists e, b].
    rewrite Hn, Ha, Hs, Hd, HT. fold hs. rewrite Z.quot_mul by lia.
    replace (Z.of_nat k * hs + Z.of_nat k * shardSize) with (pos k) by (unfold pos; lia).
    rewrite (proj2 (Z.eqb_neq T (pos k))) by lia. destruct Hsrc as [[-> Hdisk]| ->].
    - change (zlen [] =? 0) with true. cbn [negb andb]. rewrite Hdisk by lia. by eexists _, _.
    - rewrite (proj2 (Z.eqb_neq (zlen file) 0)) by lia. cbn [negb andb]. by eexists _, _. }
  assert (∀ n, 0 ≤ n ≤ T - pos k → pos k + n ≤ zlen file → n ≤ zlen (slice file (pos k) (T - pos k))) as Hroom.
  { intros n Hn1 Hn2. unfold slice, zlen at 1. rewrite length_take, length_drop. unfold zlen in Hn2. lia. }
  unfold br_ReadAt. rewrite Hs, (proj2 (Z.eqb_neq _ _)), Z.rem_mul, Hopen, E1, E2, E3, !Z.eqb_refl by lia. cbn [negb]. fold hs.
  unfold ReadFull. cbn [st_bytes st_end]. rewrite (proj2 (Z.leb_le hs _)) by (apply Hroom; lia).
  rewrite slice_front, Hhash, drop_slice by lia. cbn [st_bytes st_end].
  rewrite (proj2 (Z.leb_le (zlen (chunk k)) _)).
  2: { specialize (Hroom (hs + zlen (chunk k)) ltac:(lia) ltac:(lia)). unfold slice, zlen in *. rewrite length_take, length_drop in *. lia. }
  rewrite slice_front, Hdata, bool_decide_true, drop_slice by (done || lia). cbn [negb]. eexists. split; [done|].
  intros Hfull. split_and!; try done; cbn. right. split; [lia|]. rewrite Hfull.
  replace (pos k + hs + shardSize) with (pos (S k)) by (unfold pos; lia). eexists. do 3 f_equal. unfold pos. lia.
Qed.

Lemma healthy_after lo n :
  0 ≤ till → (∀ k, (lo ≤ k < lo + n)%nat → (Z.of_nat k + 1) * shardSize ≤ Z.min till (zlen content)) →
  ∀ b, br_at lo b → ∃ b', br_after disk shardSize b lo n = Ok b' ∧ br_at (lo + n) b'.
Proof.
  intros Ht. revert lo. induction n as [|n IH]; intros lo Hk b Hb; cbn [br_after]; [exists b; by rewrite Nat.add_0_r|].
  pose proof (Hk lo ltac:(lia)) as Hlo.
  assert (zlen (chunk lo) = shardSize) as Hfull. { unfold chunk. apply zlen_slice; lia. }
  destruct (healthy_step lo b Ht Hb) as (b1 & Hr & Hb1); [lia|rewrite Hfull; lia|]. rewrite Hfull in Hr. rewrite Hr.
  destruct (IH (S lo) ltac:(intros k Hk'; apply Hk; lia) b1 (Hb1 Hfull)) as (b' & Hb' & Hat). exists b'. split; [done|].
  by replace (lo + S n)%nat with (S lo + n)%nat by lia.
Qed.

Lemma bitrot_reader_healthy lo k :
  0 ≤ till → Z.of_nat k * shardSize < zlen content → Z.of_nat k * shardSize + zlen (chunk k) ≤ till →
  bitrot_reader disk data till shardSize lo (Z.of_nat k * shardSize) (zlen (chunk k)) = Ok (chunk k).
Proof.
  intros Ht Hk Hin. unfold bitrot_reader. rewrite Z.div_mul, Nat2Z.id by lia. cbv zeta. set (l := Nat.min lo k).
  pose proof (in_till k Ht Hk Hin) as (Hc & _).
  destruct (healthy_after l (k - l) Ht) with (b := newStreamingBitrotReader data till HighwayHash256S shardSize) as (b & -> & Hb).
  - intros j Hj. assert (Z.of_nat j + 1 ≤ Z.of_nat k) by lia. nia.
  - split_and!; try done. by left.
  - cbn [obind]. replace (l + (k - l))%nat with k in Hb by lia. by destruct (healthy_step k b Ht Hb Hk Hin) as (b' & -> & _).
Qed.

End Healthy.

(** ** The files of a set *)

Section Files.
Context (e : Erasure) `{ReedSolomonLaws (dataBlocks e) (parityBlocks e)}.
Hypothesis data_pos : 0 < dataBlocks e.
Hypothesis parity_pos : 0 < parityBlocks e.
Hypothesis block_pos : 0 < blockSize e.

Let d := dataBlocks e.
Let bs := blockSize e.
Let n := Z.to_nat (dataBlocks e + parityBlocks e).
Let ss := ShardSize e.

Lemma shard_file_cons D i :
  D ≠ [] → shard_file e D i = shard e i (slice D 0 bs) ++ shard_file e (drop (Z.to_nat bs) D) i.
Proof. intros HD. unfold shard_file. by rewrite chunks_cons by done. Qed.

(** The shards of a file are its chunks. *)
Lemma shard_chunks D i : (i < n)%nat → chunks ss (shard_file e D i) = shard e i <$> chunks bs D.
Proof.
  intros Hi. pose proof (shard_size_pos e data_pos block_pos) as Hss. fold ss in Hss.
  remember (length D) as m eqn:Hm. revert D Hm. induction (lt_wf m) as [m _ IH]. intros D ->.
  destruct (decide (D = [])) as [->|HD]; [done|]. rewrite shard_file_cons, (chunks_cons bs) by done. cbn [fmap list_fmap].
  set (b := slice D 0 bs). set (rest := drop (Z.to_nat bs) D).
  assert (b ≠ []) as Hb. { unfold b. intros E. by apply slice_0_nil in E. }
  pose proof (shard_length e data_pos parity_pos i b Hb Hi) as Hl. fold d in Hl.
  assert (shard e i b ≠ []) as Hs.
  { intros E. rewrite E in Hl. change (zlen []) with 0 in Hl. pose proof (ceilFrac_bounds (zlen b) d (zlen_nonneg b) data_pos) as (_ & _ & Hp).
    specialize (Hp (zlen_pos b Hb)). lia. }
  rewrite chunks_cons by (done || by intros [? _]%app_nil).
  destruct (Z.le_gt_cases bs (zlen D)) as [Hle|Hgt].
  - assert (zlen (shard e i b) = ss) as Hfull. { rewrite Hl. unfold b. by rewrite zlen_slice0, Z.min_l by lia. }
    rewrite slice_app_l, slice_whole, drop_app_length' by (unfold zlen in *; lia). f_equal. apply (IH (length rest)); [|done].
    unfold rest. rewrite length_drop. destruct D; [done|cbn; lia].
  - assert (rest = []) as -> by (unfold rest; apply drop_ge; unfold zlen in *; lia).
    change (shard_file e [] i) with (@nil Byte.byte). rewrite !app_nil_r. change (shard e i <$> chunks bs []) with (@nil bytes).
    assert (zlen (shard e i b) ≤ ss) as Hle.
    { rewrite Hl. apply (ceilFrac_mono e data_pos parity_pos). pose proof (zlen_nonneg b). unfold b in *. rewrite zlen_slice0 in * by lia. fold bs. lia. }
    rewrite slice_whole, drop_ge by (unfold zlen in *; lia). done.
Qed.

Lemma shard_file_length D i : (i < n)%nat → zlen (shard_file e D i) = ShardFileSize e (zlen D).
Proof.
  intros Hi. remember (length D) as m eqn:Hm. revert D Hm. induction (lt_wf m) as [m _ IH]. intros D ->.
  destruct (decide (D = [])) as [->|HD]; [done|]. rewrite shard_file_cons, zlen_app by done. pose proof (zlen_pos D HD) as HDp.
  rewrite (IH (length (drop (Z.to_nat bs) D)) ltac:(rewrite length_drop; destruct D; [done|cbn; lia]) _ eq_refl).
  rewrite zlen_drop by lia. rewrite (shard_length e data_pos parity_pos i) by (done || (intros E; by apply slice_0_nil in E)).
  rewrite zlen_slice0 by lia. unfold ShardFileSize. rewrite (proj2 (Z.eqb_neq (zlen D) 0)), (proj2 (Z.eqb_neq (zlen D) (-1))) by lia.
  fold bs d ss. rewrite (Z.quot_div_nonneg (zlen D)), (Z.rem_mod_nonneg (zlen D)) by lia. destruct (Z.le_gt_cases bs (zlen D)) as [Hle|Hgt].
  - rewrite Z.min_l, Z.max_r by lia. change (ceilFrac bs d) with ss.
    assert (zlen D / bs = (zlen D - bs) / bs + 1 ∧ zlen D mod bs = (zlen D - bs) mod bs) as [-> ->].
    { replace (zlen D) with ((zlen D - bs) + 1 * bs) at 1 3 by lia. rewrite Z.div_add, Z.mod_add by lia. done. }
    destruct (Z.eqb_spec (zlen D - bs) 0) as [E0|E0].
    + rewrite E0, Z.div_0_l, Z.mod_0_l by lia. rewrite (ceilFrac_pos 0), Z.div_small by lia. lia.
    + rewrite (proj2 (Z.eqb_neq _ (-1))), Z.quot_div_nonneg, Z.rem_mod_nonneg by lia. lia.
  - rewrite Z.min_r, Z.max_l by lia. change (0 =? 0) with true. cbv iota. rewrite Z.div_small, Z.mod_small by lia. lia.
Qed.

Lemma shard_chunk D i j b :
  (i < n)%nat → chunks bs D !! j = Some b →
  slice (shard_file e D i) (Z.of_nat j * ss) ss = shard e i b ∧ Z.of_nat j * ss < zlen (shard_file e D i).
Proof.
  intros Hi Hb. pose proof (shard_size_pos e data_pos block_pos) as Hss. fold ss in Hss.
  assert (chunks ss (shard_file e D i) !! j = Some (shard e i b)) as Hc by (by rewrite shard_chunks, list_lookup_fmap, Hb).
  rewrite chunks_lookup in Hc by done. case_decide; [|done]. by injection Hc as Hc.
Qed.

(** What the drive of a shard has been sent when every write of its [streamingBitrotWriter] has gone well. *)
Lemma bitrot_writes `{BitrotHashLaws} D i b0 :
  (i < n)%nat →
  bw_all (shard e i <$> chunks bs D) b0 =
  mkBW (bw_iow b0 ++ bitrot_file ss (shard_file e D i)) (bw_closedWith b0).
Proof.
  intros Hi. unfold bitrot_file. rewrite shard_chunks by done.
  apply bw_all_framed. rewrite <- shard_chunks by done. apply chunks_nonempty. by apply shard_size_pos.
Qed.

End Files.

(** ** Damaged drives *)

(** A drive: the file of its shard as it is now, what of it is in the metadata (inline data, or
    nothing), and how the drive answers. *)
Record drive := mkDrive { dr_file : bytes; dr_data : bytes; dr_disk : Z → Z → outcome derr stream }.

Section Set_.
Context `{BitrotHash} `{ReedSolomon} (e : Erasure) (D : bytes).

(** Anything may have happened to the shards of the file, and the drive may fail at
    any time; the hashes are as they were written. *)
Definition drive_ok (i : nat) (dr : drive) : Prop :=
  serves (dr_file dr) (dr_disk dr) ∧ (dr_data dr = [] ∨ dr_data dr = dr_file dr) ∧ hashes_kept (ShardSize e) (shard_file e D i) (dr_file dr) ∧
  no_collision (ShardSize e) (shard_file e D i) (dr_file dr).

(** The file is as it was written and the drive gives it. *)
Definition drive_healthy (i : nat) (dr : drive) : Prop :=
  dr_file dr = bitrot_file (ShardSize e) (shard_file e D i) ∧ (dr_data dr = [] ∧ healthy (dr_file dr) (dr_disk dr) ∨ dr_data dr = dr_file dr).

(** The reader of a drive for a request, and the readers ([None] is a drive that is offline). *)
Definition open_drive (offset len : Z) (dr : drive) : reader :=
  bitrot_reader (dr_disk dr) (dr_data dr) (ShardFileOffset e offset len (zlen D)) (ShardSize e) (Z.to_nat (offset / blockSize e)).

Definition bitrot_readers (offset len : Z) (drives : list (option drive)) : list (option reader) :=
  (λ od : option drive, open_drive offset len <$> od) <$> drives.

End Set_.

Section Damage.
Context (e : Erasure) `{ReedSolomonLaws (dataBlocks e) (parityBlocks e)} `{BitrotHashLaws} (D : bytes).
Hypothesis data_pos : 0 < dataBlocks e.
Hypothesis parity_pos : 0 < parityBlocks e.
Hypothesis block_pos : 0 < blockSize e.
Context (offset len : Z).
Hypothesis Hoff : 0 ≤ offset.
Hypothesis Hlen : 0 ≤ len.

Let n := Z.to_nat (dataBlocks e + parityBlocks e).

Lemma open_drive_honest i dr : drive_ok e D i dr → honest e D i (open_drive e D offset len dr).
Proof.
  intros (Hs & Hdata & Hk & Hc).
  apply (bitrot_reader_reads (ShardSize e) (shard_file e D i) (dr_file dr)); try done; by apply shard_size_pos.
Qed.

(** The request reads up to the end of its last block. *)
Lemma till_covers i j b :
  (i < n)%nat → chunks (blockSize e) D !! j = Some b → Z.of_nat j ≤ (offset + len) / blockSize e →
  0 ≤ ShardFileOffset e offset len (zlen D) ∧
  Z.of_nat j * ShardSize e + zlen (shard e i b) ≤ ShardFileOffset e offset len (zlen D).
Proof.
  intros Hi Hb Hj. pose proof (shard_size_pos e data_pos block_pos) as Hss.
  destruct (shard_chunk e data_pos parity_pos block_pos D i j b Hi Hb) as [Hc Hlt].
  assert (zlen (shard e i b) = Z.min (ShardSize e) (zlen (shard_file e D i) - Z.of_nat j * ShardSize e)) as Hl.
  { rewrite <- Hc. unfold slice, zlen in *. rewrite length_take, length_drop. lia. }
  unfold ShardFileOffset. rewrite Z.quot_div_nonneg by lia. pose proof (Z.div_pos (offset + len) (blockSize e) ltac:(lia) ltac:(lia)).
  rewrite <- (shard_file_length e data_pos parity_pos block_pos D i Hi).
  destruct (Z.ltb_spec (zlen (shard_file e D i)) ((offset + len) / blockSize e * ShardSize e + ShardSize e)); split; nia.
Qed.

Lemma open_drive_good i dr :
  (i < n)%nat → drive_healthy e D i dr →
  good_reader e D (offset / blockSize e) ((offset + len) / blockSize e) (open_drive e D offset len dr).
Proof.
  intros Hlt [Hfile Hsrc] j b Hj Hb. destruct (till_covers i j b Hlt Hb (proj2 Hj)) as [Ht1 Ht2].
  destruct (shard_chunk e data_pos parity_pos block_pos D i j b Hlt Hb) as [Hc Hin].
  pose proof (block_lookup e D data_pos parity_pos block_pos j b Hb) as (_ & _ & Hne & _).
  rewrite <- (shard_length e data_pos parity_pos i b Hne Hlt), <- Hc.
  eexists. apply bitrot_reader_healthy; [by apply shard_size_pos|by rewrite <- Hfile|done|done|by rewrite Hc].
Qed.

Context (drives : list (option drive)).
Hypothesis Hn : length drives = n.

Lemma bitrot_readers_ok :
  (∀ i dr, drives !! i = Some (Some dr) → drive_ok e D i dr) → readers_ok e D (bitrot_readers e D offset len drives).
Proof.
  intros Hd. split; [unfold bitrot_readers; by rewrite length_fmap|]. intros i r. unfold bitrot_readers. rewrite list_lookup_fmap.
  destruct (drives !! i) as [[dr|]|] eqn:Hi; cbn; [|done|done]. intros [= <-]. by apply open_drive_honest, Hd.
Qed.

Lemma healthy_enough :
  (∃ gs, NoDup gs ∧ dataBlocks e ≤ zlen gs ∧ ∀ i, i ∈ gs → ∃ dr, drives !! i = Some (Some dr) ∧ drive_healthy e D i dr) →
  enough_good e D (offset / blockSize e) ((offset + len) / blockSize e) (bitrot_readers e D offset len drives).
Proof.
  intros (gs & Hnd & Hd & Hgs). exists gs. split_and!; [done|done|]. intros i Hi. destruct (Hgs i Hi) as (dr & Hdr & Hh).
  unfold bitrot_readers. rewrite list_lookup_fmap, Hdr. cbn. eexists. split; [done|].
  apply (open_drive_good i); [|done]. rewrite <- Hn. by eapply lookup_lt_Some.
Qed.

End Damage.

(** Bit rot does not reach the client: whatever has happened to the shards in the
    files of any drives, and whichever drives are offline or fail while they are
    read, as long as as many drives as there are data blocks are healthy, [Decode]
    over the streaming bitrot readers writes exactly the bytes of the object in
    the range; and it is never stuck. The hashes in the files are as they were
    written, and what replaced a shard does not have its hash. *)
Theorem bitrot_protected_read `{ReedSolomonLaws data parity} `{BitrotHashLaws} size e D drives offset len prefer :
  NewErasure data parity size = Ok e → 0 < size → zlen D < 2 ^ 63 →
  zlen drives = data + parity → (∀ i dr, drives !! i = Some (Some dr) → drive_ok e D i dr) →
  (∃ gs, NoDup gs ∧ data ≤ zlen gs ∧ ∀ i, i ∈ gs → ∃ dr, drives !! i = Some (Some dr) ∧ drive_healthy e D i dr) →
  0 ≤ offset → 0 ≤ len → offset + len ≤ zlen D →
  let readers := bitrot_readers e D offset len drives in
  uniform readers prefer →
  (∃ scheds, is_Some (Decode scheds e readers offset len (zlen D) prefer)) ∧
  ∀ scheds r out rs, Decode scheds e readers offset len (zlen D) prefer = Some (r, out, rs) →
    (∃ err, r = Ok err) ∧ out = slice D offset len.
Proof.
  intros (<- & <- & <- & Hd & Hp)%NewErasure_ok Hs HD Hn Hdr Hgood Ho Hl Hin readers Hpref.
  assert (length drives = Z.to_nat (dataBlocks e + parityBlocks e)) as Hn' by (unfold zlen in Hn; lia).
  pose proof (bitrot_readers_ok e D Hd Hs offset len drives Hn' Hdr) as Hr.
  pose proof (healthy_enough e D Hd Hp Hs offset len Ho Hl drives Hn' Hgood) as Hg. split; [by apply Decode_ends|].
  intros scheds r out rs Hdec. apply (Decode_spec e D) in Hdec as [((de & -> & _) & -> & _)|(_ & Hng & _)]; [|done..]. split; [by eexists|done].
Qed.

(** *** Witness *)

Definition file_drive (f : bytes) : drive := mkDrive f [] (λ off len, Ok (mkStream (slice f off len) EOF)).

Definition demo_file (i : nat) : bytes := bitrot_file (ShardSize demo_code) (shard_file demo_code demo_data i).

(** The first drive has a byte changed. *)
Definition demo_drives : list (option drive) :=
  [Some (file_drive (<[3%nat := Byte.x00]> (demo_file 0))); Some (file_drive (demo_file 1)); Some (file_drive (demo_file 2))].

(** The shards of a file, checked one by one. *)
Definition drive_check (i : nat) (f : bytes) : bool :=
  let content := shard_file demo_code demo_data i in
  let ss := ShardSize demo_code in
  let chunk k := slice content (Z.of_nat k * ss) ss in
  let pos k := Z.of_nat k * (2 + ss) in
  (zlen f =? zlen (demo_file i)) && (zlen content <=? 3 * ss) &&
  forallb (λ k,
    negb (Z.of_nat k * ss <? zlen content) ||
    (bool_decide (slice f (pos k) 2 = demo_sum (chunk k)) &&
     forallb (λ n, negb (bool_decide (demo_sum (slice f (pos k + 2) (Z.of_nat n)) = demo_sum (chunk k)))
                   || bool_decide (slice f (pos k + 2) (Z.of_nat n) = chunk k)) (seq 0 (S (length f))))) (seq 0 3).

Lemma slice_clip (f : bytes) p n : ∃ m, (m ≤ length f)%nat ∧ slice f p n = slice f p (Z.of_nat m).
Proof.
  exists (Nat.min (Z.to_nat n) (length f)). split; [lia|]. unfold slice. rewrite Nat2Z.id.
  destruct (decide (Z.to_nat n ≤ length f)%nat); [by rewrite Nat.min_l by done|].
  rewrite !take_ge; [done| |]; rewrite length_drop; lia.
Qed.

Lemma drive_check_ok i f : drive_check i f = true → drive_ok demo_code demo_data i (file_drive f).
Proof.
  unfold drive_check. cbv zeta. intros Hc. apply andb_true_iff in Hc as [[Hl Hn]%andb_true_iff Hc]. rewrite forallb_forall in Hc.
  apply Z.eqb_eq in Hl. apply Z.leb_le in Hn.
  assert (∀ k, Z.of_nat k * ShardSize demo_code < zlen (shard_file demo_code demo_data i) → In k (seq 0 3)) as Hk.
  { intros k Hlt. apply List.in_seq. change (ShardSize demo_code) with 2 in Hlt, Hn. lia. }
  split; [intros off len; right; eexists; split; [done|apply slice_prefix]|]. split; [by left|]. split; [split; [done|]|].
  - intros k Hlt. specialize (Hc k (Hk k Hlt)). rewrite (proj2 (Z.ltb_lt _ _) Hlt) in Hc. apply andb_true_iff in Hc as [Hc _].
    by apply bool_decide_eq_true in Hc.
  - intros k n Hlt Hsum. specialize (Hc k (Hk k Hlt)). rewrite (proj2 (Z.ltb_lt _ _) Hlt) in Hc. apply andb_true_iff in Hc as [_ Hc].
    rewrite forallb_forall in Hc. destruct (slice_clip f (Z.of_nat k * (2 + ShardSize demo_code) + 2) n) as (m & Hm & E).
    change (Size HighwayHash256S) with 2 in *. cbn [dr_file file_drive] in *. rewrite E in Hsum |- *.
    assert (In m (seq 0 (S (length f)))) as Hin by (apply List.in_seq; lia). specialize (Hc m Hin). apply orb_true_iff in Hc as [Hc|Hc]; [|by apply bool_decide_eq_true in Hc].
    apply negb_true_iff, bool_decide_eq_false in Hc. by destruct Hc.
Qed.

Lemma bitrot_protected_read_witness :
  ∃ scheds, is_Some (Decode scheds demo_code (bitrot_readers demo_code demo_data 3 5 demo_drives) 3 5 9 [true; true; true]).
Proof.
  apply (bitrot_protected_read (data := 2) (parity := 1) 4 demo_code demo_data demo_drives 3 5 [true; true; true]); try done.
  - intros [|[|[|i]]] dr Hdr; [injection Hdr as <-|injection Hdr as <-|injection Hdr as <-|done]; apply drive_check_ok; vm_compute; reflexivity.
  - exists [1%nat; 2%nat]. split_and!; [by apply (bool_decide_unpack _)|done|]. intros i Hi. apply elem_of_cons in Hi as [->|Hi%list_elem_of_singleton]; [|subst i].
    all: eexists; split; [done|]; split; [done|]; left; split; [done|]; by intros off len.
  - right. right. intros [|[|[|i]]] r Hr; done.
Defined.
