(* ===== verification/ErasureMeta.v ===== *)
(** * Metadata of erasure-coded objects (cmd/erasure-metadata.go, cmd/erasure-metadata-utils.go, cmd/erasure-healing-common.go)

    Every drive of a set has its copy of an object's metadata. The copies may be
    missing, damaged or old. The code finds the one that a quorum agrees on, the
    drives that have it, the quorums of the object, and the place of every drive
    in the erasure code. *)

From Stdlib Require Import ZArith Lia Bool Sorted.
From S2P Require Import Prelude GoStrings GoTime HttpTime Replication ErasureErrs Erasure StorageClass.

Local Open Scope go_scope.
Local Open Scope Z_scope.

(** ** Data (cmd/storage-datatypes.go, cmd/xl-storage-format-v1.go) *)

Record ObjectPartInfo := mkPart { part_ETag : string; part_Number : Z; part_Size : Z; part_ActualSize : Z }.
Record ChecksumInfo := mkChecksum { ck_PartNumber : Z; ck_Algorithm : Z; ck_Hash : bytes }.

Record ErasureInfo := mkEI {
  ei_DataBlocks : Z;
  ei_ParityBlocks : Z;
  ei_BlockSize : Z;
  ei_Index : Z;
  ei_Distribution : list Z;
  ei_Checksums : list ChecksumInfo;
}.

(** Fields that are only passed on (file mode, position in a request) are left out. *)
Record FileInfo := mkFI {
  fi_Volume : string;
  fi_Name : string;
  fi_VersionID : string;
  fi_IsLatest : bool;
  fi_Deleted : bool;
  fi_TransitionStatus : string;
  fi_TransitionedObjName : string;
  fi_TransitionTier : string;
  fi_TransitionVersionID : string;
  fi_ExpireRestored : bool;
  fi_DataDir : string;
  fi_XLV1 : bool;
  fi_ModTime : Z;
  fi_Size : Z;
  fi_Metadata : gmap string string;
  fi_Parts : list ObjectPartInfo;
  fi_Erasure : ErasureInfo;
  fi_MarkDeleted : bool;
  fi_ReplicationState : ReplicationState;
  fi_Data : bytes;
  fi_NumVersions : Z;
  fi_SuccessorModTime : Z;
  fi_DiskMTime : Z;
}.

(** [FileInfo{}] *)
Definition FileInfo_zero : FileInfo :=
  mkFI "" "" "" false false "" "" "" "" false "" false 0 0 ∅ [] (mkEI 0 0 0 0 [] []) false ReplicationState_zero [] 0 0 0.

Definition meta_str (m : gmap string string) (k : string) : string := default ""%string (m !! k).

Definition GetDataDir (fi : FileInfo) : string :=
  if fi_Deleted fi then "delete-marker"
  else if fi_XLV1 fi && String.eqb (fi_DataDir fi) "" then "legacy"
  else fi_DataDir fi.

(** ** Parts and checksums *)

Fixpoint AddChecksumInfo (sums : list ChecksumInfo) (ck : ChecksumInfo) : list ChecksumInfo :=
  match sums with
  | [] => [ck]
  | sum :: sums => if ck_PartNumber sum =? ck_PartNumber ck then ck :: sums else sum :: AddChecksumInfo sums ck
  end.

Definition GetChecksumInfo (sums : list ChecksumInfo) (partNumber : Z) : ChecksumInfo :=
  default (mkChecksum 0 0 []) (List.find (λ sum, ck_PartNumber sum =? partNumber) sums).

Definition IsValid (fi : FileInfo) : bool :=
  if fi_Deleted fi then true
  else
    let dataBlocks := ei_DataBlocks (fi_Erasure fi) in
    let parityBlocks := ei_ParityBlocks (fi_Erasure fi) in
    let correctIndexes := (0 <? ei_Index (fi_Erasure fi)) && (ei_Index (fi_Erasure fi) <=? dataBlocks + parityBlocks) &&
                          (zlen (ei_Distribution (fi_Erasure fi)) =? dataBlocks + parityBlocks) in
    (parityBlocks <=? dataBlocks) && negb (dataBlocks =? 0) && negb (parityBlocks =? 0) && correctIndexes.

Fixpoint objectPartIndex_from (i : Z) (parts : list ObjectPartInfo) (partNumber : Z) : Z :=
  match parts with
  | [] => -1
  | part :: parts => if partNumber =? part_Number part then i else objectPartIndex_from (i + 1) parts partNumber
  end.
Definition objectPartIndex (parts : list ObjectPartInfo) (partNumber : Z) : Z := objectPartIndex_from 0 parts partNumber.

(** The first part with the number is replaced; [None] if there is none. *)
Fixpoint replace_part (parts : list ObjectPartInfo) (p : ObjectPartInfo) : option (list ObjectPartInfo) :=
  match parts with
  | [] => None
  | part :: parts =>
      if part_Number p =? part_Number part then Some (p :: parts) else (λ l, part :: l) <$> replace_part parts p
  end.

(** [sort.Sort(byObjectPartNumber(…))]; the numbers are different, so that there is one way to sort them. *)
Fixpoint insert_part (p : ObjectPartInfo) (parts : list ObjectPartInfo) : list ObjectPartInfo :=
  match parts with
  | [] => [p]
  | q :: parts => if part_Number p <=? part_Number q then p :: q :: parts else q :: insert_part p parts
  end.
Definition sort_parts (parts : list ObjectPartInfo) : list ObjectPartInfo := foldr insert_part [] parts.

Definition AddObjectPart (partNumber : Z) (partETag : string) (partSize actualSize : Z) (parts : list ObjectPartInfo) : list ObjectPartInfo :=
  let partInfo := mkPart partETag partNumber partSize actualSize in
  match replace_part parts partInfo with
  | Some parts => parts
  | None => sort_parts (parts ++ [partInfo])
  end.

(** The loop of [ObjectToPartOffset]. *)
Fixpoint part_offset (i : nat) (parts : list ObjectPartInfo) (partOffset : Z) : outcome derr (nat * Z) :=
  match parts with
  | [] => Err InvalidRange
  | part :: parts => if partOffset <? part_Size part then Ok (i, partOffset) else part_offset (S i) parts (partOffset - part_Size part)
  end.

Definition ObjectToPartOffset (parts : list ObjectPartInfo) (offset : Z) : outcome derr (nat * Z) :=
  if offset =? 0 then Ok (O, 0) else part_offset 0 parts offset.

(** The size -1 is one that is not known. *)
Definition calculatePartSizeFromIdx (totalSize partSize partIndex : Z) : outcome derr Z :=
  if totalSize <? -1 then Err errInvalidArgument
  else if partSize =? 0 then Err (OtherErr "Part size cannot be zero")
  else if partIndex <? 1 then Err (OtherErr "Part index cannot be smaller than 1")
  else if totalSize =? -1 then Ok (-1)
  else if 0 <? totalSize then
    let partsCount := wrap64 (wrap64 (totalSize `quot` partSize) + 1) in
    Ok (if partIndex <? partsCount then partSize else if partIndex =? partsCount then totalSize `rem` partSize else 0)
  else Ok 0.

(** ** The common time *)

(** Times are nanoseconds since the zero time. *)
Definition UnixNano (t : Z) : Z := wrap64 (t - unix_epoch).

(** One time is counted: it also counts for the times within [group] of it. *)
Definition count_time (group : Z) (m : gmap Z Z) (t : Z) : gmap Z Z :=
  if t =? timeSentinel then m
  else
    let nano := UnixNano t in
    let m := if 0 <? group
             then map_imap (λ k c, Some (if k =? nano then c
                                         else let diff := wrap64 (k - nano) in
                                              let diff := if diff <? 0 then wrap64 (- diff) else diff in
                                              if diff <? group then c + 1 else c)) m
             else m in
    <[nano := default 0 (m !! nano) + 1]> m.

Definition max_step (acc : Z * Z) (entry : Z * Z) : Z * Z :=
  let '(maxima, latest) := acc in
  let '(nano, count) := entry in
  if count <? maxima then acc
  else if (maxima <? count) || (latest <? nano) then (count, nano)
  else acc.

(** [walk] is the order in which the map is walked. *)
Definition commonTimeAndOccurence (walk : list (Z * Z) → list (Z * Z)) (times : list Z) (group : Z) : Z * Z :=
  let m := foldl (count_time group) ∅ times in
  let '(maxima, latest) := foldl max_step (0, 0) (walk (map_to_list m)) in
  (latest + unix_epoch, maxima).

Definition commonTime walk (modTimes : list Z) : Z := (commonTimeAndOccurence walk modTimes 0).1.

(** ** The metadata of all drives *)

(** What [readAllFileInfo] got from a drive: the metadata and the error. *)
Abbreviation drive_meta := (FileInfo * option derr)%type.

Definition listObjectModtimes (ms : list drive_meta) : list Z :=
  (λ m : drive_meta, match m.2 with Some _ => timeSentinel | None => fi_ModTime m.1 end) <$> ms.

(** The drives that have the common metadata; [None] is a nil drive. *)
Definition listOnlineDisks {disk} walk (disks : list (option disk)) (ms : list drive_meta) : list (option disk) * Z :=
  let modTimes := listObjectModtimes ms in
  let modTime := commonTime walk modTimes in
  (imap (λ i m, if IsValid m.1 && (default timeSentinel (modTimes !! i) =? modTime) then default None (disks !! i) else None) ms, modTime).

Definition latest_step (modTime : Z) (acc : FileInfo * Z) (mt : drive_meta * Z) : FileInfo * Z :=
  let '(latest, count) := acc in
  let '(m, t) := mt in
  if IsValid m.1 && (t =? modTime) then (m.1, count + 1) else acc.

Definition getLatestFileInfo ewalk walk (ms : list drive_meta) : outcome derr FileInfo :=
  match reduceReadQuorumErrs ewalk ms.*2 objectOpIgnoredErrs (zlen ms `quot` 2) with
  | Some err => Err err
  | None =>
      let modTimes := listObjectModtimes ms in
      let modTime := commonTime walk modTimes in
      if (modTime =? 0) || (modTime =? timeSentinel) then Err errErasureReadQuorum
      else
        let '(latest, count) := foldl (latest_step modTime) (FileInfo_zero, 0) (zip ms modTimes) in
        if negb (IsValid latest) then Err errErasureReadQuorum
        else if count <? ei_DataBlocks (fi_Erasure latest) then Err errErasureReadQuorum
        else Ok latest
  end.

(** The read and the write quorum of an object. *)
Definition objectQuorumFromMeta ewalk walk (sCfg : Config) (ms : list drive_meta) (defaultParityCount : Z) : outcome derr (Z * Z) :=
  latest ←? getLatestFileInfo ewalk walk ms;
  let parityBlocks := GetParityForSC sCfg (meta_str (fi_Metadata latest) "x-amz-storage-class") in
  let parityBlocks := if parityBlocks <=? 0 then defaultParityCount else parityBlocks in
  let dataBlocks := ei_DataBlocks (fi_Erasure latest) in
  let dataBlocks := if dataBlocks =? 0 then zlen ms - parityBlocks else dataBlocks in
  let writeQuorum := if dataBlocks =? parityBlocks then dataBlocks + 1 else dataBlocks in
  Ok (dataBlocks, writeQuorum).

(** *** The metadata that a quorum agrees on *)

Definition go_bool (b : bool) : string := if b then "true" else "false".

(** [fmt.Fprintf(h, "%v", l)] for a slice of integers. *)
Definition go_ints (l : list Z) : string := "[" +:+ str_join " " (itoa <$> l) +:+ "]".

(** What is written to the hash for a drive's metadata. *)
Definition metaKey (m : FileInfo) : string :=
  let rs := fi_ReplicationState m in
  str_join "" (
    [go_bool (fi_XLV1 m); GetDataDir m] ++ ((λ part, "part." +:+ itoa (part_Number part)) <$> fi_Parts m) ++
    [go_ints (ei_Distribution (fi_Erasure m)); itoa (zlen (fi_Data m));
     fi_TransitionStatus m; fi_TransitionTier m; fi_TransitionedObjName m; fi_TransitionVersionID m;
     go_bool (fi_MarkDeleted m);
     meta_str (fi_Metadata m) (rs_ReplicaStatus rs); meta_str (fi_Metadata m) (FormatHTTP (rs_ReplicationTimeStamp rs));
     meta_str (fi_Metadata m) (FormatHTTP (rs_ReplicaTimeStamp rs)); meta_str (fi_Metadata m) (rs_ReplicationStatusInternal rs);
     meta_str (fi_Metadata m) (rs_VersionPurgeStatusInternal rs)]).

(** The hashes, empty for metadata that is not valid or of another time. [sha256] gives the hash in hexadecimal. *)
Definition metaHashes (sha256 : string → string) (metaArr : list FileInfo) (modTime : Z) : list string :=
  (λ m, if IsValid m && (fi_ModTime m =? modTime) then sha256 (metaKey m) else ""%string) <$> metaArr.

Definition hash_counts (hashes : list string) : gmap string Z :=
  foldl (λ m h, if String.eqb h "" then m else <[h := default 0 (m !! h) + 1]> m) ∅ hashes.

Definition findFileInfoInQuorum (sha256 : string → string) (walk : list (string * Z) → list (string * Z)) (metaArr : list FileInfo)
    (modTime quorum : Z) : outcome derr FileInfo :=
  if quorum <? 2 then Err errErasureReadQuorum
  else
    let hashes := metaHashes sha256 metaArr modTime in
    let '(maxHash, maxCount) :=
      foldl (λ (acc : string * Z) '(hash, count), if acc.2 <? count then (hash, count) else acc) (""%string, 0)
        (walk (map_to_list (hash_counts hashes))) in
    if maxCount <? quorum then Err errErasureReadQuorum
    else match List.find (λ '(m, hash), String.eqb hash maxHash && IsValid m) (zip metaArr hashes) with
         | Some (m, _) => Ok m
         | None => Err errErasureReadQuorum
         end.

Definition filterOnlineDisksInplace {disk} (fi : FileInfo) (metaArr : list FileInfo) (onlineDisks : list (option disk)) : list (option disk) :=
  imap (λ i d, match metaArr !! i with Some m => if eqb (fi_XLV1 fi) (fi_XLV1 m) then d else None | None => d end) onlineDisks.

(** ** The order of the drives *)

(** [crc32] is the IEEE checksum of the key, of 32 bits. *)
Definition hashOrder (crc32 : string → Z) (key : string) (cardinality : Z) : list Z :=
  if cardinality <=? 0 then []
  else
    let start := crc32 key mod cardinality in
    (λ i, 1 + (start + Z.of_nat i) `rem` cardinality) <$> seq 1 (Z.to_nat cardinality).

Definition blockSizeV2 : Z := 1048576.

Definition newFileInfo (crc32 : string → Z) (object : string) (dataBlocks parityBlocks : Z) : FileInfo :=
  mkFI "" "" "" false false "" "" "" "" false "" false 0 0 ∅ []
    (mkEI dataBlocks parityBlocks blockSizeV2 0 (hashOrder crc32 object (dataBlocks + parityBlocks)) []) false ReplicationState_zero [] 0 0 0.

(** [shuffled[blockIndex-1] = x] for every element; an index that is not one of the slices panics. *)
Fixpoint shuffle_with {A} (index : nat) (l : list A) (distribution : list Z) (shuffled : list A) : outcome derr (list A) :=
  match l with
  | [] => Ok shuffled
  | x :: l =>
      match distribution !! index with
      | None => Panic "index out of range"
      | Some blockIndex =>
          if (0 <? blockIndex) && (blockIndex <=? zlen shuffled)
          then shuffle_with (S index) l distribution (<[Z.to_nat (blockIndex - 1) := x]> shuffled)
          else Panic "index out of range"
      end
  end.

(** [None] is a nil slice. *)
Definition shuffleDisks {disk} (disks : list (option disk)) (distribution : option (list Z)) : outcome derr (list (option disk)) :=
  match distribution with
  | None => Ok disks
  | Some distribution => shuffle_with 0 disks distribution (replicate (length disks) None)
  end.

Definition shufflePartsMetadata (partsMetadata : list FileInfo) (distribution : option (list Z)) : outcome derr (list FileInfo) :=
  match distribution with
  | None => Ok partsMetadata
  | Some distribution => shuffle_with 0 partsMetadata distribution (replicate (length partsMetadata) FileInfo_zero)
  end.

(** [shuffledDisks[blockIndex-1] = d; shuffledPartsMetadata[blockIndex-1] = m]. *)
Definition place {disk} (ds : list (option disk)) (ms : list FileInfo) (blockIndex : Z) (d : disk) (m : FileInfo)
    : outcome derr (list (option disk) * list FileInfo) :=
  if (0 <? blockIndex) && (blockIndex <=? zlen ds) && (blockIndex <=? zlen ms)
  then Ok (<[Z.to_nat (blockIndex - 1) := Some d]> ds, <[Z.to_nat (blockIndex - 1) := m]> ms)
  else Panic "index out of range".

(** One iteration of [shuffleDisksAndPartsMetadata]. *)
Definition shuffle_step {disk} (disks : list (option disk)) (fi : FileInfo)
    (acc : outcome derr (list (option disk) * list FileInfo)) (im : nat * FileInfo) : outcome derr (list (option disk) * list FileInfo) :=
  '(ds, ms) ←? acc;
  let '(index, m) := im in
  let init := fi_ModTime fi =? 0 in
  match disks !! index with
  | None => Panic "index out of range"
  | Some None => Ok (ds, ms)
  | Some (Some d) =>
      if negb init && negb (IsValid m) then Ok (ds, ms)
      else if negb init && negb (zlen (fi_Data fi) =? zlen (fi_Data m)) then Ok (ds, ms)
      else if negb init && negb (eqb (fi_XLV1 fi) (fi_XLV1 m)) then Ok (ds, ms)
      else match ei_Distribution (fi_Erasure fi) !! index with
           | None => Panic "index out of range"
           | Some blockIndex => place ds ms blockIndex d m
           end
  end.

Definition shuffleDisksAndPartsMetadata {disk} (disks : list (option disk)) (partsMetadata : list FileInfo) (fi : FileInfo)
    : outcome derr (list (option disk) * list FileInfo) :=
  foldl (shuffle_step disks fi) (Ok (replicate (length disks) None, replicate (length partsMetadata) FileInfo_zero)) (imap pair partsMetadata).

(** One iteration of [shuffleDisksAndPartsMetadataByIndex]. *)
Definition by_index_step {disk} (disks : list (option disk)) (fi : FileInfo)
    (acc : outcome derr (list (option disk) * list FileInfo * Z)) (im : nat * FileInfo) : outcome derr (list (option disk) * list FileInfo * Z) :=
  '(ds, ms, inconsistent) ←? acc;
  let '(i, meta) := im in
  match disks !! i with
  | None => Panic "index out of range"
  | Some None => Ok (ds, ms, inconsistent + 1)
  | Some (Some d) =>
      if negb (IsValid meta) then Ok (ds, ms, inconsistent + 1)
      else if negb (zlen (fi_Data fi) =? zlen (fi_Data meta)) then Ok (ds, ms, inconsistent + 1)
      else if negb (eqb (fi_XLV1 meta) (fi_XLV1 fi)) then Ok (ds, ms, inconsistent + 1)
      else match ei_Distribution (fi_Erasure fi) !! i with
           | None => Panic "index out of range"
           | Some x =>
               if negb (x =? ei_Index (fi_Erasure meta)) then Ok (ds, ms, inconsistent + 1)
               else '(ds, ms) ←? place ds ms (ei_Index (fi_Erasure meta)) d meta; Ok (ds, ms, inconsistent)
           end
  end.

Definition shuffleDisksAndPartsMetadataByIndex {disk} (disks : list (option disk)) (metaArr : list FileInfo) (fi : FileInfo)
    : outcome derr (list (option disk) * list FileInfo) :=
  let start := Ok (replicate (length disks) None, replicate (length disks) FileInfo_zero, 0) in
  '(ds, ms, inconsistent) ←? foldl (by_index_step disks fi) start (imap pair metaArr);
  if inconsistent <? ei_ParityBlocks (fi_Erasure fi) then Ok (ds, ms)
  else shuffleDisksAndPartsMetadata disks metaArr fi.

(** [None] is nil: the lengths are different. *)
Definition evalDisks {disk} (disks : list (option disk)) (errs : list (option derr)) : option (list (option disk)) :=
  if negb (length errs =? length disks)%nat then None
  else Some (zip_with (λ d err, match err with None => d | Some _ => None end) disks errs).

(** ** The drives of a new object (putObject) *)

(** What [putObject] asks of a drive. *)
Record drive_state := mkDS { ds_online : bool; ds_info : option string }.

(** The drive counts as lost: nil, offline, or without an ID. *)
Definition drive_lost (d : option drive_state) : bool :=
  match d with
  | None => true
  | Some d => negb (ds_online d) || match ds_info d with None => true | Some id => String.eqb id "" end
  end.

(** Parity drives, data drives, write quorum, and the note that the parity was raised. *)
Definition putObject_drives (sCfg : Config) (MaxParity : bool) (storageClass : string) (defaultParityCount : Z)
    (storageDisks : list (option drive_state)) : Z * Z * Z * option string :=
  let n := zlen storageDisks in
  let '(parityDrives, upgraded) :=
    if MaxParity then (n `quot` 2, None)
    else
      let parityOrig := GetParityForSC sCfg storageClass in
      let parityOrig := if parityOrig <=? 0 then defaultParityCount else parityOrig in
      let parityDrives := parityOrig + zlen (List.filter drive_lost storageDisks) in
      let parityDrives := if n `quot` 2 <=? parityDrives then n `quot` 2 else parityDrives in
      (parityDrives, if negb (parityOrig =? parityDrives) then Some (itoa parityOrig +:+ "->" +:+ itoa parityDrives)%string else None) in
  let dataDrives := n - parityDrives in
  let writeQuorum := if dataDrives =? parityDrives then dataDrives + 1 else dataDrives in
  (parityDrives, dataDrives, writeQuorum, upgraded).

(** ** The common time *)

(** The times that are counted, by their nanoseconds. *)
Definition counted (times : list Z) : list Z := UnixNano <$> filter (λ t, t ≠ timeSentinel) times.

Definition times_of (times : list Z) (k : Z) : Z := Z.of_nat (count (λ x, x = k) (counted times)).

Lemma counted_snoc times t : counted (times ++ [t]) = counted times ++ (if decide (t = timeSentinel) then [] else [UnixNano t]).
Proof.
  unfold counted. rewrite filter_app, fmap_app. f_equal. rewrite filter_cons, filter_nil.
  destruct (decide (t = timeSentinel)) as [E|E]; [by rewrite decide_False by (intros H; by apply H)|by rewrite decide_True].
Qed.

Lemma count_time_0 m t :
  count_time 0 m t = if t =? timeSentinel then m else <[UnixNano t := default 0 (m !! UnixNano t) + 1]> m.
Proof. done. Qed.

Lemma count_times times k :
  foldl (count_time 0) ∅ times !! k = if times_of times k =? 0 then None else Some (times_of times k).
Proof.
  induction times as [|t times IH] using rev_ind; [cbn [foldl]; by rewrite lookup_empty|].
  rewrite foldl_app. cbn [foldl]. rewrite count_time_0. unfold times_of in *. rewrite counted_snoc, count_app.
  destruct (Z.eqb_spec t timeSentinel) as [E|E]; [rewrite decide_True by done; by rewrite Nat.add_0_r|].
  rewrite decide_False by done. rewrite count_cons. change (count _ []) with 0%nat.
  destruct (decide (k = UnixNano t)) as [->|Hne].
  - rewrite lookup_insert_eq, one_if_true by done. rewrite IH. destruct (Z.eqb_spec (Z.of_nat (count (λ x, x = UnixNano t) (counted times))) 0) as [E0|];
      cbn [default from_option id]; rewrite (proj2 (Z.eqb_neq _ 0)) by lia; f_equal; lia.
  - rewrite lookup_insert_ne by done. rewrite one_if_false by done. by rewrite !Nat.add_0_r.
Qed.

(** The entry with the largest count, the latest of these. *)
Lemma max_step_spec entries acc :
  (∀ k c, (k, c) ∈ entries → 0 < c) → acc = (0, 0) ∨ 0 < acc.1 →
  let '(c, k) := foldl max_step acc entries in
  ((c, k) = acc ∨ (k, c) ∈ entries) ∧
  (acc.1 < c ∨ acc.1 = c ∧ (acc.2 ≤ k ∨ c = 0)) ∧
  ∀ k' c', (k', c') ∈ entries → c' < c ∨ c' = c ∧ k' ≤ k.
Proof.
  revert acc. induction entries as [|[k c] entries IH]; intros [mx lt] Hpos Hacc.
  { cbn. split_and!; [by left|lia|]. by intros k' c' ?%elem_of_nil. }
  cbn [foldl]. assert (0 < c) as Hc by (eapply Hpos; by left).
  assert (∀ k c, (k, c) ∈ entries → 0 < c) as Hpos' by (intros ?? Hin; eapply Hpos; by right).
  assert (max_step (mx, lt) (k, c) = (0, 0) ∨ 0 < (max_step (mx, lt) (k, c)).1) as Hacc'.
  { cbn. repeat case_match; cbn; [done|lia|destruct Hacc as [[= -> ->]|?]; destruct_bools; cbn in *; lia]. }
  specialize (IH (max_step (mx, lt) (k, c)) Hpos' Hacc'). destruct (foldl max_step _ entries) as [c1 k1].
  destruct IH as (H1 & H2 & H3).
  assert (max_step (mx, lt) (k, c) = (mx, lt) ∧ (c < mx ∨ c = mx ∧ k ≤ lt) ∨ max_step (mx, lt) (k, c) = (c, k) ∧ (mx < c ∨ mx = c ∧ lt < k)) as Hstep.
  { cbn. destruct (Z.ltb_spec c mx); [left; split; [done|lia]|]. destruct (Z.ltb_spec mx c); cbn [orb]; [right; split; [done|lia]|].
    destruct (Z.ltb_spec lt k); [right|left]; (split; [done|lia]). }
  cbn [fst snd] in *. destruct Hstep as [[E Hle]|[E Hgt]]; rewrite E in *; cbn [fst snd] in *.
  - split_and!; [destruct H1 as [?|?]; [by left|right; by right]|done|]. intros k' c' [[= -> ->]|Hin]%elem_of_cons; [lia|by apply H3].
  - split_and!; [right; destruct H1 as [[= -> ->]|?]; [by left|by right]|lia|].
    intros k' c' [[= -> ->]|Hin]%elem_of_cons; [lia|by apply H3].
Qed.

Lemma commonTime_spec walk times :
  (∀ l, walk l ≡ₚ l) →
  let '(t, c) := commonTimeAndOccurence walk times 0 in
  counted times = [] ∧ c = 0 ∧ t = timeSentinel ∨
  0 < c ∧ times_of times (t - unix_epoch) = c ∧ ∀ k, 0 < times_of times k → times_of times k < c ∨ times_of times k = c ∧ k ≤ t - unix_epoch.
Proof.
  intros Hwalk. unfold commonTimeAndOccurence. set (m := foldl (count_time 0) ∅ times).
  assert (∀ k c, (k, c) ∈ walk (map_to_list m) ↔ times_of times k = c ∧ 0 < c) as Hin.
  { intros k c. rewrite Hwalk, elem_of_map_to_list. unfold m. rewrite count_times. assert (0 ≤ times_of times k) by (unfold times_of; lia).
    destruct (Z.eqb_spec (times_of times k) 0); split; try done; [intros [? ?]; lia|intros [= <-]; lia|intros [-> _]; done]. }
  pose proof (max_step_spec (walk (map_to_list m)) (0, 0)) as Hmax.
  destruct (foldl max_step (0, 0) (walk (map_to_list m))) as [c k]. destruct Hmax as (H1 & H2 & H3); [intros ?? ?%Hin; tauto|by left|].
  replace (k + unix_epoch - unix_epoch) with k by lia. destruct H1 as [[= -> ->]|Hk%Hin].
  - left. split_and!; [|done|done]. destruct (counted times) as [|x l] eqn:Hc; [done|]. exfalso.
    assert (0 < times_of times x) as Hx. { unfold times_of. rewrite Hc, count_cons, one_if_true by done. lia. }
    destruct (H3 x (times_of times x)) as [?|?]; [by apply Hin|lia|lia].
  - right. split_and!; [tauto|tauto|]. intros k' Hk'. apply H3, Hin. done.
Qed.

(** ** The quorums of new objects *)

(** The parity of a storage class, or the default one. *)
Lemma class_parity n sCfg sc dflt :
  config_ok n sCfg → 0 < dflt ≤ n `quot` 2 → 0 < (if GetParityForSC sCfg sc <=? 0 then dflt else GetParityForSC sCfg sc) ≤ n `quot` 2.
Proof. intros Hc Hd. destruct (GetParityForSC_bound _ _ sc Hc) as [Hb _]. destruct (Z.leb_spec (GetParityForSC sCfg sc) 0); lia. Qed.

Lemma put_quorum sCfg maxp sc dflt disks parity data wq up :
  putObject_drives sCfg maxp sc dflt disks = (parity, data, wq, up) → wq = if data =? parity then data + 1 else data.
Proof.
  unfold putObject_drives. intros H. destruct maxp; cbv zeta in H; by injection H as <- <- <- <-.
Qed.

Lemma putObject_drives_spec sCfg maxp sc dflt disks parity data wq up :
  config_ok (zlen disks) sCfg → 0 < dflt ≤ zlen disks `quot` 2 →
  putObject_drives sCfg maxp sc dflt disks = (parity, data, wq, up) →
  0 < parity ≤ data ∧ data + parity = zlen disks ∧ data ≤ wq ∧ zlen disks < data + wq ∧ zlen disks < wq + wq ∧ wq ≤ data + 1.
Proof.
  intros Hcfg Hd. unfold putObject_drives. destruct (GetParityForSC_bound _ _ sc Hcfg) as [Hb _].
  pose proof (zlen_nonneg (List.filter drive_lost disks)) as Hlost. pose proof (zlen_nonneg disks) as Hn.
  set (lost := zlen (List.filter drive_lost disks)) in *. set (n := zlen disks) in *.
  rewrite Z.quot_div_nonneg in * by lia. pose proof (Z.div_mod n 2 ltac:(lia)). pose proof (Z.mod_pos_bound n 2 ltac:(lia)).
  set (orig := if GetParityForSC sCfg sc <=? 0 then dflt else GetParityForSC sCfg sc).
  assert (0 < orig ≤ n / 2) as Ho by (unfold orig; destruct (Z.leb_spec (GetParityForSC sCfg sc) 0); lia).
  destruct maxp.
  - intros [= <- <- <- <-]. destruct (Z.eqb_spec (n - n / 2) (n / 2)); lia.
  - destruct (Z.leb_spec (n / 2) (orig + lost)); intros [= <- <- <- <-]; case_if; destruct_bools; lia.
Qed.

(** ** The order of the drives *)

Lemma hashOrder_length crc key n : length (hashOrder crc key n) = Z.to_nat n.
Proof. unfold hashOrder. destruct (Z.leb_spec n 0); [cbn; lia|]. by rewrite length_fmap, length_seq. Qed.

Lemma hashOrder_lookup crc key n i x :
  hashOrder crc key n !! i = Some x → (i < Z.to_nat n)%nat ∧ x = 1 + (crc key mod n + Z.of_nat i + 1) mod n.
Proof.
  unfold hashOrder. destruct (Z.leb_spec n 0); [done|]. rewrite list_lookup_fmap. intros (j & Hj & ->)%fmap_Some.
  apply lookup_seq in Hj as [-> Hj]. split; [done|]. pose proof (Z.mod_pos_bound (crc key) n ltac:(lia)).
  rewrite Z.rem_mod_nonneg by lia. do 2 f_equal. lia.
Qed.

Lemma hashOrder_range crc key n x : x ∈ hashOrder crc key n → 1 ≤ x ≤ n.
Proof.
  intros (i & Hi)%list_elem_of_lookup. apply hashOrder_lookup in Hi as [Hi ->].
  pose proof (Z.mod_pos_bound (crc key mod n + Z.of_nat i + 1) n ltac:(lia)). lia.
Qed.

Lemma hashOrder_NoDup crc key n : NoDup (hashOrder crc key n).
Proof.
  apply NoDup_alt. intros i j x [Hi ->]%hashOrder_lookup [Hj E]%hashOrder_lookup.
  set (a := crc key mod n + 1) in *.
  replace (crc key mod n + Z.of_nat i + 1) with (a + Z.of_nat i) in E by lia.
  replace (crc key mod n + Z.of_nat j + 1) with (a + Z.of_nat j) in E by lia.
  assert ((a + Z.of_nat i) mod n = (a + Z.of_nat j) mod n) as E' by lia.
  pose proof (Z.div_mod (a + Z.of_nat i) n ltac:(lia)) as H1. pose proof (Z.div_mod (a + Z.of_nat j) n ltac:(lia)) as H2.
  rewrite E' in H1. assert (n * ((a + Z.of_nat i) / n - (a + Z.of_nat j) / n) = Z.of_nat i - Z.of_nat j) by lia.
  assert ((a + Z.of_nat i) / n - (a + Z.of_nat j) / n = 0) by nia. nia.
Qed.

(** A distribution: the numbers from 1 to [n], each once. *)
Definition distribution_ok (n : nat) (dist : list Z) : Prop :=
  length dist = n ∧ NoDup dist ∧ Forall (λ x, 1 ≤ x ≤ Z.of_nat n) dist.

Lemma hashOrder_ok crc key n : 0 ≤ n → distribution_ok (Z.to_nat n) (hashOrder crc key n).
Proof.
  intros Hn. split_and!; [apply hashOrder_length|apply hashOrder_NoDup|]. apply Forall_forall. intros x Hx%hashOrder_range. lia.
Qed.

(** What is moved goes to the place that the distribution says, and nothing is moved over it. *)
Lemma shuffle_with_spec {A} index (l : list A) dist shuffled n :
  distribution_ok n dist → length shuffled = n → (index + length l ≤ n)%nat →
  ∃ res, shuffle_with index l dist shuffled = Ok res ∧ length res = n ∧
    (∀ k x b, l !! k = Some x → dist !! (index + k)%nat = Some b → res !! Z.to_nat (b - 1) = Some x) ∧
    (∀ b, (∀ k, (k < length l)%nat → dist !! (index + k)%nat ≠ Some (Z.of_nat b + 1)) → res !! b = shuffled !! b).
Proof.
  intros (Hl & Hnd & Hr). revert index shuffled. induction l as [|x l IH]; intros index shuffled Hs Hle.
  { exists shuffled. split_and!; try done. }
  cbn [shuffle_with length] in *. destruct (lookup_lt_is_Some_2 dist index) as [b Hb]; [lia|]. rewrite Hb.
  rewrite Forall_lookup in Hr. pose proof (Hr _ _ Hb) as Hb'. cbn in Hb'.
  rewrite (proj2 (Z.ltb_lt 0 b)), (proj2 (Z.leb_le b _)) by (unfold zlen; lia). cbn [andb].
  destruct (IH (S index) (<[Z.to_nat (b - 1) := x]> shuffled)) as (res & -> & Hlen & H1 & H2); [by rewrite length_insert|lia|].
  exists res. split_and!; [done|done| |].
  - intros [|k] y c Hy Hc; cbn in Hy.
    + injection Hy as <-. rewrite Nat.add_0_r, Hb in Hc. injection Hc as <-. rewrite H2.
      * apply list_lookup_insert_eq. lia.
      * intros k Hk E. assert (index = S index + k)%nat; [|lia]. eapply (proj1 (NoDup_alt dist)); [done|exact Hb|]. rewrite E. f_equal. lia.
    + apply (H1 k); [done|]. by replace (S index + k)%nat with (index + S k)%nat by lia.
  - intros c Hc. rewrite H2.
    + apply list_lookup_insert_ne. intros E. apply (Hc O); [lia|]. rewrite Nat.add_0_r, Hb. f_equal. lia.
    + intros k Hk. replace (S index + k)%nat with (index + S k)%nat by lia. apply Hc. lia.
Qed.

(** *** Drives with their metadata *)

(** Every drive in the result is where the distribution puts it, with its metadata. *)
Definition placed {disk} (disks : list (option disk)) (metas : list FileInfo) (dist : list Z) (ds : list (option disk)) (ms : list FileInfo) : Prop :=
  ∀ k d, ds !! k = Some (Some d) →
    ∃ i m, disks !! i = Some (Some d) ∧ metas !! i = Some m ∧ ms !! k = Some m ∧ dist !! i = Some (Z.of_nat k + 1).

Lemma place_ok {disk} (ds ds' : list (option disk)) ms ms' b d m :
  place ds ms b d m = Ok (ds', ms') →
  1 ≤ b ≤ zlen ds ∧ ds' = <[Z.to_nat (b - 1) := Some d]> ds ∧ ms' = <[Z.to_nat (b - 1) := m]> ms ∧ b ≤ zlen ms.
Proof. unfold place. case_if; [|done]. intros [= <- <-]. destruct_bools. split_and!; try done; lia. Qed.

Lemma placed_insert {disk} (disks : list (option disk)) metas dist ds ms ds' ms' i b d m :
  placed disks metas dist ds ms → place ds ms b d m = Ok (ds', ms') →
  disks !! i = Some (Some d) → metas !! i = Some m → dist !! i = Some b → placed disks metas dist ds' ms'.
Proof.
  intros Hp (Hb & -> & -> & Hbm)%place_ok Hd Hm Hdist k d'. unfold zlen in *.
  destruct (decide (k = Z.to_nat (b - 1))) as [->|Hne].
  - rewrite !list_lookup_insert_eq by lia. intros [= <-]. exists i, m. split_and!; try done. rewrite Hdist. f_equal. lia.
  - rewrite !list_lookup_insert_ne by done. apply Hp.
Qed.

Lemma placed_start {disk} (disks : list (option disk)) metas dist n m : placed disks metas dist (replicate n None) (replicate m FileInfo_zero).
Proof. intros k d Hk. by apply lookup_replicate in Hk as [? _]. Qed.

(** A step for every metadata, in order. *)
Lemma foldl_imap_inv {A B} (f : outcome derr A → nat * B → outcome derr A) (P : A → Prop) (l : list B) a r :
  (∀ i x a r, l !! i = Some x → P a → f (Ok a) (i, x) = Ok r → P r) → (∀ ix e, f (Err e) ix = Err e) → (∀ ix w, f (Panic w) ix = Panic w) →
  P a → foldl f (Ok a) (imap pair l) = Ok r → P r.
Proof.
  intros Hstep Herr Hpan.
  enough (∀ k l' a, (∀ i, l' !! i = l !! (k + i)%nat) → P a → foldl f (Ok a) (imap (λ i x, (k + i, x)%nat) l') = Ok r → P r) as Hk.
  { intros Ha Hf. apply (Hk O l a); [done|done|]. by rewrite (imap_ext _ pair) by done. }
  intros k l'. revert k. induction l' as [|x l' IH]; intros k a' Hl Ha; [by intros [= <-]|].
  rewrite imap_cons. cbn [foldl]. rewrite Nat.add_0_r. destruct (f (Ok a') (k, x)) as [a1|e|w] eqn:Hf.
  - intros Hr. apply (IH (S k) a1).
    + intros i. specialize (Hl (S i)). change (l' !! i = l !! (k + S i)%nat) in Hl. rewrite Hl. f_equal. lia.
    + eapply Hstep; [|exact Ha|exact Hf]. specialize (Hl O). change (Some x = l !! (k + 0)%nat) in Hl. by rewrite Hl, Nat.add_0_r.
    + rewrite <- Hr. f_equal. apply imap_ext. intros i y _. cbn. f_equal. lia.
  - intros Hr. exfalso. revert Hr. generalize (imap ((λ i x0, (k + i, x0)%nat) ∘ S) l'). intros l2. induction l2 as [|y l2 IH2]; [done|]. cbn. by rewrite Herr.
  - intros Hr. exfalso. revert Hr. generalize (imap ((λ i x0, (k + i, x0)%nat) ∘ S) l'). intros l2. induction l2 as [|y l2 IH2]; [done|]. cbn. by rewrite Hpan.
Qed.

Lemma shuffle_placed {disk} (disks : list (option disk)) metas fi ds ms :
  shuffleDisksAndPartsMetadata disks metas fi = Ok (ds, ms) → placed disks metas (ei_Distribution (fi_Erasure fi)) ds ms.
Proof.
  intros Hs. apply (foldl_imap_inv _ (λ r, placed disks metas (ei_Distribution (fi_Erasure fi)) r.1 r.2)) in Hs; [done| |done|done|apply placed_start].
  intros i m [ds0 ms0] [ds1 ms1] Hm Hp. cbn [shuffle_step obind fst snd] in *. destruct (disks !! i) as [[d|]|] eqn:Hd; [|by intros [= <- <-]|done].
  repeat (case_if; [by intros [= <- <-]|]). destruct (ei_Distribution (fi_Erasure fi) !! i) as [b|] eqn:Hb; [|done]. intros Hpl. by apply (placed_insert _ _ _ _ _ _ _ i _ d m Hp Hpl).
Qed.

Lemma by_index_placed {disk} (disks : list (option disk)) metas fi ds ms :
  shuffleDisksAndPartsMetadataByIndex disks metas fi = Ok (ds, ms) → placed disks metas (ei_Distribution (fi_Erasure fi)) ds ms.
Proof.
  unfold shuffleDisksAndPartsMetadataByIndex. intros H. apply obind_ok in H as ([[ds0 ms0] inc] & Hs & H).
  destruct (inc <? _); [|by apply shuffle_placed]. injection H as <- <-.
  apply (foldl_imap_inv _ (λ r, placed disks metas (ei_Distribution (fi_Erasure fi)) r.1.1 r.1.2)) in Hs; [done| |done|done|apply placed_start].
  intros i m [[ds1 ms1] inc1] [[ds2 ms2] inc2] Hm Hp. cbn [by_index_step obind fst snd] in *. destruct (disks !! i) as [[d|]|] eqn:Hd; [|by intros [= <- <- <-]|done].
  repeat (case_if; [by intros [= <- <- <-]|]). destruct (ei_Distribution (fi_Erasure fi) !! i) as [b|] eqn:Hb; [|done]. case_if; [by intros [= <- <- <-]|].
  intros H. apply obind_ok in H as ([ds3 ms3] & Hpl & H). injection H as <- <- <-. destruct_bools. subst b. by apply (placed_insert _ _ _ _ _ _ _ i _ d m Hp Hpl).
Qed.

(** The metadata of a drive fits the object, and the drive is where the distribution says. *)
Definition usable (fi m : FileInfo) (b : Z) : Prop :=
  IsValid m = true ∧ zlen (fi_Data fi) = zlen (fi_Data m) ∧ fi_XLV1 m = fi_XLV1 fi ∧ ei_Index (fi_Erasure m) = b.

(** The drives before [k] that can be used have been placed. *)
Definition placed_before {disk} (disks : list (option disk)) (metas : list FileInfo) (fi : FileInfo) (n k : nat)
    (ds : list (option disk)) (ms : list FileInfo) : Prop :=
  length ds = n ∧ length ms = n ∧
  ∀ i d m b, (i < k)%nat → disks !! i = Some (Some d) → metas !! i = Some m → ei_Distribution (fi_Erasure fi) !! i = Some b → usable fi m b →
    ds !! Z.to_nat (b - 1) = Some (Some d) ∧ ms !! Z.to_nat (b - 1) = Some m.

Lemma foldl_imap_total {A B} (f : outcome derr A → nat * B → outcome derr A) (P : nat → A → Prop) (l : list B) a :
  (∀ i x a, l !! i = Some x → P i a → ∃ r, f (Ok a) (i, x) = Ok r ∧ P (S i) r) →
  P O a → ∃ r, foldl f (Ok a) (imap pair l) = Ok r ∧ P (length l) r.
Proof.
  induction l as [|x l IH] using rev_ind; intros Hstep Ha; [by exists a|]. destruct IH as (r & Hr & HP); [|done|].
  - intros i y a' Hy. apply Hstep. by apply lookup_app_l_Some.
  - rewrite imap_app, foldl_app, Hr. cbn. rewrite Nat.add_0_r, length_app. cbn. rewrite Nat.add_1_r. apply Hstep; [|done].
    by rewrite lookup_app_r, Nat.sub_diag by done.
Qed.

Section Placing.
Context {disk : Type} (disks : list (option disk)) (metas : list FileInfo) (fi : FileInfo) (n : nat).
Let dist := ei_Distribution (fi_Erasure fi).
Hypothesis Hdist : distribution_ok n dist.
Hypothesis Hdisks : length disks = n.
Hypothesis Hmetas : length metas = n.

Lemma placed_before_start : placed_before disks metas fi n 0 (replicate n None) (replicate n FileInfo_zero).
Proof. split_and!; [by rewrite length_replicate..|lia]. Qed.

Lemma placed_before_skip k ds ms :
  placed_before disks metas fi n k ds ms →
  (∀ d m b, disks !! k = Some (Some d) → metas !! k = Some m → dist !! k = Some b → ¬ usable fi m b) →
  placed_before disks metas fi n (S k) ds ms.
Proof.
  intros (H1 & H2 & H3) Hskip. split_and!; [done..|]. intros i d m b Hi Hd Hm Hb Hu.
  destruct (decide (i = k)) as [->|]; [by destruct (Hskip d m b)|apply (H3 i); (done || lia)].
Qed.

Lemma placed_before_place k ds ms d m b :
  placed_before disks metas fi n k ds ms → disks !! k = Some (Some d) → metas !! k = Some m → dist !! k = Some b →
  ∃ ds' ms', place ds ms b d m = Ok (ds', ms') ∧ placed_before disks metas fi n (S k) ds' ms'.
Proof.
  intros (H1 & H2 & H3) Hd Hm Hb. destruct Hdist as (Hl & Hnd & Hr). rewrite Forall_lookup in Hr. pose proof (Hr _ _ Hb) as Hbr. cbn in Hbr.
  unfold place, zlen. rewrite (proj2 (Z.ltb_lt 0 b)), !(proj2 (Z.leb_le b _)) by lia. cbn [andb]. eexists _, _. split; [done|].
  split_and!; [by rewrite length_insert..|]. intros i d' m' b' Hi Hd' Hm' Hb' Hu. fold dist in Hb'. destruct (decide (i = k)) as [->|Hne].
  - simplify_eq. rewrite !list_lookup_insert_eq by lia. done.
  - assert (b ≠ b') as Hbb by (intros ->; apply Hne; by eapply (proj1 (NoDup_alt dist))). pose proof (Hr _ _ Hb') as Hbr'. cbn in Hbr'.
    rewrite !list_lookup_insert_ne by lia. apply (H3 i); (done || lia).
Qed.

(** The test [E] of the loop says that the drive cannot be used. *)
Local Ltac skip_drive :=
  eexists; split; [reflexivity|]; apply placed_before_skip; [done|];
  intros ? m' ? _ Hm' Hb' (U1 & U2 & U3 & U4); simplify_eq;
  match goal with E : context [negb _] |- _ => rewrite ?U1, ?U2, ?U3, ?Z.eqb_refl, ?eqb_reflx in E; cbn [negb] in E; rewrite ?andb_false_r in E; done end.

Lemma shuffle_total :
  ∃ ds ms, shuffleDisksAndPartsMetadata disks metas fi = Ok (ds, ms) ∧ placed_before disks metas fi n n ds ms.
Proof.
  destruct (foldl_imap_total (shuffle_step disks fi) (λ k r, placed_before disks metas fi n k r.1 r.2) metas (replicate n None, replicate n FileInfo_zero))
    as ([ds ms] & Hf & HP); [|apply placed_before_start|unfold shuffleDisksAndPartsMetadata; rewrite Hdisks, Hmetas in *; by exists ds, ms].
  intros k m [ds ms] Hm HP. cbn [shuffle_step obind fst snd] in *. pose proof (lookup_lt_Some _ _ _ Hm) as Hk.
  destruct (lookup_lt_is_Some_2 disks k) as [[d|] Hd]; [lia| |]; rewrite Hd.
  2: { eexists. split; [done|]. apply placed_before_skip; [done|]. intros; simplify_eq. }
  repeat (case_if; [skip_drive|]).
  fold dist. destruct (lookup_lt_is_Some_2 dist k) as [b Hb]; [destruct Hdist; lia|]. rewrite Hb.
  destruct (placed_before_place k ds ms d m b HP Hd Hm Hb) as (ds' & ms' & -> & HP').
  eexists. split; [done|exact HP'].
Qed.

(** Every drive that can be used is in its place. *)
Lemma by_index_total :
  ∃ ds ms, shuffleDisksAndPartsMetadataByIndex disks metas fi = Ok (ds, ms) ∧ placed_before disks metas fi n n ds ms.
Proof.
  destruct (foldl_imap_total (by_index_step disks fi) (λ k r, placed_before disks metas fi n k r.1.1 r.1.2) metas (replicate n None, replicate n FileInfo_zero, 0))
    as ([[ds ms] inc] & Hf & HP); [|apply placed_before_start|unfold shuffleDisksAndPartsMetadataByIndex; rewrite Hdisks, Hmetas in *; rewrite Hf; cbn [obind]].
  2: { case_if; [by exists ds, ms|apply shuffle_total]. }
  intros k m [[ds ms] inc] Hm HP. cbn [by_index_step obind fst snd] in *. pose proof (lookup_lt_Some _ _ _ Hm) as Hk.
  destruct (lookup_lt_is_Some_2 disks k) as [[d|] Hd]; [lia| |]; rewrite Hd.
  2: { eexists. split; [done|]. apply placed_before_skip; [done|]. intros; simplify_eq. }
  destruct (lookup_lt_is_Some_2 dist k) as [b Hb]; [destruct Hdist; lia|]. fold dist. rewrite Hb.
  repeat (case_if; [skip_drive|]).
  assert (b = ei_Index (fi_Erasure m)) as <- by (by destruct_bools).
  destruct (placed_before_place k ds ms d m b HP Hd Hm Hb) as (ds' & ms' & -> & HP').
  eexists. split; [done|exact HP'].
Qed.

End Placing.

(** ** The metadata that a quorum agrees on *)

Lemma hash_counts_lookup hashes h :
  hash_counts hashes !! h = if decide (h = ""%string) then None else
    let c := Z.of_nat (count (λ x, x = h) hashes) in if c =? 0 then None else Some c.
Proof.
  unfold hash_counts. induction hashes as [|x hashes IH] using rev_ind; [cbn [foldl]; rewrite lookup_empty; by case_decide|].
  rewrite foldl_app. cbn [foldl]. rewrite count_app, count_cons. change (count _ []) with 0%nat. cbv zeta in *.
  destruct (String.eqb_spec x "") as [->|Hx].
  { rewrite IH. destruct (decide (h = ""%string)) as [|Hne]; [done|]. rewrite one_if_false by done. by rewrite !Nat.add_0_r. }
  destruct (decide (h = x)) as [->|Hne].
  - rewrite lookup_insert_eq, IH, decide_False, one_if_true by done. rewrite decide_False by done.
    destruct (Z.eqb_spec (Z.of_nat (count (λ y, y = x) hashes)) 0); cbn [default from_option id]; rewrite (proj2 (Z.eqb_neq _ 0)) by lia; f_equal; lia.
  - rewrite lookup_insert_ne, IH by done. rewrite one_if_false by done. by rewrite !Nat.add_0_r.
Qed.

(** The largest count of the map. *)
Lemma max_hash_spec (entries : list (string * Z)) acc :
  (∀ h c, (h, c) ∈ entries → 0 < c) → 0 ≤ acc.2 →
  let r := foldl (λ (acc : string * Z) '(hash, count), if acc.2 <? count then (hash, count) else acc) acc entries in
  (r = acc ∨ r ∈ entries) ∧ acc.2 ≤ r.2 ∧ ∀ h c, (h, c) ∈ entries → c ≤ r.2.
Proof.
  cbv zeta. revert acc. induction entries as [|[h c] entries IH]; intros acc Hpos Ha; [split_and!; [by left|done|by intros ?? ?%elem_of_nil]|].
  cbn [foldl]. set (acc' := if acc.2 <? c then (h, c) else acc).
  assert (acc.2 ≤ acc'.2 ∧ c ≤ acc'.2 ∧ (acc' = acc ∨ acc' = (h, c))) as (H1 & H2 & H3).
  { unfold acc'. destruct (Z.ltb_spec acc.2 c); cbn; split_and!; auto; lia. }
  destruct (IH acc') as (H4 & H5 & H6); [intros ?? Hin; eapply Hpos; by right|lia|].
  split_and!; [|lia|].
  - destruct H4 as [->|H4]; [|right; by right]. destruct H3 as [->| ->]; [by left|right; by left].
  - intros h' c' [[= -> ->]|Hin]%elem_of_cons; [lia|by eapply H6].
Qed.

(** The number of drives whose metadata is valid, of the time, and has this hash. *)
Definition agreeing (sha256 : string → string) (metaArr : list FileInfo) (modTime : Z) (h : string) : Z :=
  Z.of_nat (count (λ x, x = h) (metaHashes sha256 metaArr modTime)).

Lemma findFileInfo_spec sha256 walk metaArr modTime quorum :
  (∀ l, walk l ≡ₚ l) → (∀ s, sha256 s ≠ ""%string) → 2 ≤ quorum →
  match findFileInfoInQuorum sha256 walk metaArr modTime quorum with
  | Ok fi => fi ∈ metaArr ∧ IsValid fi = true ∧ fi_ModTime fi = modTime ∧ quorum ≤ agreeing sha256 metaArr modTime (sha256 (metaKey fi)) ∧
             ∀ h, h ≠ ""%string → agreeing sha256 metaArr modTime h ≤ agreeing sha256 metaArr modTime (sha256 (metaKey fi))
  | Err err => err = errErasureReadQuorum ∧ ∀ h, h ≠ ""%string → agreeing sha256 metaArr modTime h < quorum
  | Panic _ => False
  end.
Proof.
  intros Hwalk Hsha Hq. unfold findFileInfoInQuorum. rewrite (proj2 (Z.ltb_ge quorum 2)) by done. cbv zeta.
  set (hashes := metaHashes sha256 metaArr modTime).
  assert (∀ h c, (h, c) ∈ walk (map_to_list (hash_counts hashes)) ↔ h ≠ ""%string ∧ agreeing sha256 metaArr modTime h = c ∧ 0 < c) as Hin.
  { intros h c. rewrite Hwalk, elem_of_map_to_list, hash_counts_lookup. fold hashes. unfold agreeing. fold hashes. cbv zeta.
    destruct (decide (h = ""%string)) as [->|Hne]; [split; [done|tauto]|].
    destruct (Z.eqb_spec (Z.of_nat (count (λ x, x = h) hashes)) 0); split; try done; [intros (_ & ? & ?); lia|intros [= <-]; split_and!; [done|done|lia]|by intros (_ & -> & _)]. }
  pose proof (max_hash_spec (walk (map_to_list (hash_counts hashes))) (""%string, 0)) as Hmax. cbv zeta in Hmax.
  destruct (foldl _ _ _) as [maxHash maxCount]. destruct Hmax as (H1 & _ & H3); [intros ?? ?%Hin; tauto|done|]. cbn [snd] in H3.
  assert (∀ h, h ≠ ""%string → agreeing sha256 metaArr modTime h ≤ maxCount) as Hmax.
  { intros h Hh. destruct (Z.le_gt_cases (agreeing sha256 metaArr modTime h) 0) as [Hz|Hp].
    - destruct H1 as [[= -> ->]|(_ & _ & ?)%Hin]; lia.
    - eapply H3. by apply Hin. }
  destruct (Z.ltb_spec maxCount quorum) as [Hlt|Hge].
  { split; [done|]. intros h Hh. specialize (Hmax h Hh). lia. }
  destruct H1 as [[= -> ->]|(Hne & Hc & _)%Hin]; [lia|].
  destruct (List.find _ _) as [[m h]|] eqn:Hfind.
  - apply List.find_some in Hfind as [Hzip [Heq%String.eqb_eq Hv]%andb_true_iff]. subst h.
    apply list_elem_of_In, list_elem_of_lookup in Hzip as (i & Hi). apply lookup_zip_with_Some in Hi as (x & y & [= <- <-] & Hm & Hh).
    unfold hashes, metaHashes in Hh. rewrite list_lookup_fmap, Hm in Hh. injection Hh as Hh.
    destruct (IsValid m && (fi_ModTime m =? modTime)) eqn:Hg; [|congruence]. apply andb_true_iff in Hg as [_ Ht%Z.eqb_eq].
    rewrite Hh. split_and!; [by eapply list_elem_of_lookup_2|done|done|lia|]. intros h Hh'. rewrite Hc. by apply Hmax.
  - exfalso. assert (0 < agreeing sha256 metaArr modTime maxHash)%Z as Hpos by lia. unfold agreeing in Hpos. fold hashes in Hpos.
    destruct (count_elem (λ x, x = maxHash) hashes) as (x & (i & Hi)%list_elem_of_lookup & ->); [lia|].
    pose proof Hi as Hi'. unfold hashes, metaHashes in Hi. rewrite list_lookup_fmap in Hi. apply fmap_Some in Hi as (m & Hm & Heq).
    destruct (IsValid m && (fi_ModTime m =? modTime)) eqn:Hg; [|congruence]. apply andb_true_iff in Hg as [Hv _].
    assert (In (m, maxHash) (zip metaArr hashes)) as Hinz.
    { apply list_elem_of_In, list_elem_of_lookup. exists i. apply lookup_zip_with_Some. by exists m, maxHash. }
    apply (List.find_none _ _ Hfind) in Hinz. by rewrite String.eqb_refl, Hv in Hinz.
Qed.

(** ** Parts *)

Definition parts_sorted (parts : list ObjectPartInfo) : Prop := StronglySorted (λ p q, part_Number p < part_Number q) parts.

Lemma replace_part_some parts p parts' :
  replace_part parts p = Some parts' →
  part_Number <$> parts' = part_Number <$> parts ∧ p ∈ parts' ∧
  (parts_sorted parts → ∀ q, q ∈ parts' ↔ q = p ∨ q ∈ parts ∧ part_Number q ≠ part_Number p).
Proof.
  revert parts'. induction parts as [|x parts IH]; intros parts'; [done|]. cbn [replace_part].
  destruct (Z.eqb_spec (part_Number p) (part_Number x)) as [E|E].
  - intros [= <-]. split_and!; [cbn; by rewrite E|by left|]. intros [_ Hlt]%StronglySorted_inv q.
    rewrite !elem_of_cons. rewrite Forall_forall in Hlt. split; [|intuition congruence].
    intros [->|Hq]; [by left|right]. specialize (Hlt q Hq). cbn in Hlt. split; [by right|lia].
  - intros (l & Hl & ->)%fmap_Some. destruct (IH l Hl) as (H1 & H2 & H3). split_and!; [cbn; by rewrite H1|by right|].
    intros [Hs Hlt]%StronglySorted_inv q. rewrite !elem_of_cons, (H3 Hs). intuition congruence.
Qed.

Lemma replace_part_none parts p : replace_part parts p = None → ∀ q, q ∈ parts → part_Number q ≠ part_Number p.
Proof.
  induction parts as [|x parts IH]; cbn [replace_part]; [by intros _ q ?%elem_of_nil|].
  destruct (Z.eqb_spec (part_Number p) (part_Number x)); [done|]. intros Hn%fmap_None q [->|Hq]%elem_of_cons; [done|by apply IH].
Qed.

Lemma insert_part_elem p parts q : q ∈ insert_part p parts ↔ q = p ∨ q ∈ parts.
Proof.
  induction parts as [|x parts IH]; cbn [insert_part]; [by rewrite elem_of_cons|]. destruct (_ <=? _); rewrite !elem_of_cons; [tauto|].
  rewrite IH. tauto.
Qed.

Lemma insert_part_sorted p parts :
  parts_sorted parts → (∀ q, q ∈ parts → part_Number q ≠ part_Number p) → parts_sorted (insert_part p parts).
Proof.
  induction parts as [|x parts IH]; intros Hs Hne; cbn [insert_part]; [repeat constructor|].
  pose proof (StronglySorted_inv Hs) as [Hs' Hlt]. destruct (Z.leb_spec (part_Number p) (part_Number x)) as [Hle|Hgt].
  - assert (part_Number p < part_Number x) by (pose proof (Hne x (list_elem_of_here _ _)); lia). constructor; [done|].
    constructor; [done|]. eapply Forall_impl; [exact Hlt|]. cbn. lia.
  - constructor; [apply IH; [done|intros q Hq; apply Hne; by right]|]. apply Forall_forall. intros q [->|Hq]%insert_part_elem; [lia|].
    rewrite Forall_forall in Hlt. by apply Hlt.
Qed.

Lemma sort_parts_elem parts q : q ∈ sort_parts parts ↔ q ∈ parts.
Proof.
  induction parts as [|x parts IH]; cbn [sort_parts foldr]; [done|]. fold (sort_parts parts). by rewrite insert_part_elem, IH, elem_of_cons.
Qed.

Lemma sort_parts_sorted parts : NoDup (part_Number <$> parts) → parts_sorted (sort_parts parts).
Proof.
  induction parts as [|x parts IH]; cbn [sort_parts foldr fmap list_fmap]; [constructor|]. intros [Hx Hnd]%NoDup_cons. fold (sort_parts parts).
  apply insert_part_sorted; [by apply IH|]. intros q Hq E. apply (proj1 (sort_parts_elem _ _)) in Hq. apply Hx. apply list_elem_of_fmap. exists q. by rewrite E.
Qed.

Lemma sorted_NoDup parts : parts_sorted parts → NoDup (part_Number <$> parts).
Proof.
  induction 1 as [|x parts _ IH Hlt]; cbn [fmap list_fmap]; [constructor|]. constructor; [|done].
  intros (q & E & Hq)%list_elem_of_fmap. rewrite Forall_forall in Hlt. specialize (Hlt q Hq). cbn in Hlt. lia.
Qed.

Lemma sorted_numbers parts parts' : part_Number <$> parts' = part_Number <$> parts → parts_sorted parts → parts_sorted parts'.
Proof.
  intros E Hs. revert parts' E. induction Hs as [|x parts _ IH Hlt]; intros [|y parts'] E; try done; [constructor|].
  injection E as E1 E2. constructor; [by apply IH|]. apply Forall_forall. intros q Hq. rewrite Forall_forall in Hlt.
  assert (part_Number q ∈ part_Number <$> parts) as (r & Hr & Hin)%list_elem_of_fmap.
  { change (part_Number <$> parts' = part_Number <$> parts) in E2. rewrite <- E2. apply list_elem_of_fmap. by exists q. }
  specialize (Hlt r Hin). cbn in Hlt. lia.
Qed.

(** The bytes before part [i]. *)
Definition size_before (parts : list ObjectPartInfo) (i : nat) : Z := foldr Z.add 0 (part_Size <$> take i parts).

Lemma part_offset_spec parts offset i0 :
  0 ≤ offset → Forall (λ p, 0 ≤ part_Size p) parts →
  match part_offset i0 parts offset with
  | Ok (i, o) => ∃ k p, i = (i0 + k)%nat ∧ parts !! k = Some p ∧ offset = size_before parts k + o ∧ 0 ≤ o < part_Size p
  | Err err => err = InvalidRange ∧ size_before parts (length parts) ≤ offset
  | Panic _ => False
  end.
Proof.
  intros Ho Hs. revert offset i0 Ho. induction Hs as [|p parts Hp Hs IH]; intros offset i0 Ho; cbn [part_offset]; [split; [done|cbn; lia]|].
  destruct (Z.ltb_spec offset (part_Size p)) as [Hlt|Hge].
  - exists O, p. split_and!; [lia|done|cbn; lia|lia|lia].
  - specialize (IH (offset - part_Size p) (S i0) ltac:(lia)). destruct (part_offset _ _ _) as [[i o]|err|]; [| |done].
    + destruct IH as (k & q & -> & Hq & Hoff & Ho'). exists (S k), q. split_and!; [lia|done| |lia|lia].
      unfold size_before in *. cbn [take fmap list_fmap foldr]. lia.
    + destruct IH as [-> Hle]. split; [done|]. unfold size_before in *. cbn [length take fmap list_fmap foldr]. lia.
Qed.

(** ** The latest metadata *)

(** The drives that have valid metadata of this time. *)
Definition has_latest (modTime : Z) (m : drive_meta) : Prop := IsValid m.1 = true ∧ m.2 = None ∧ fi_ModTime m.1 = modTime.
#[global] Instance has_latest_dec modTime m : Decision (has_latest modTime m).
Proof. unfold has_latest. apply _. Defined.

Lemma latest_fold modTime ms acc :
  modTime ≠ timeSentinel →
  let r := foldl (latest_step modTime) acc (zip ms (listObjectModtimes ms)) in
  r.2 = acc.2 + Z.of_nat (count (has_latest modTime) ms) ∧ (r = acc ∨ ∃ m, m ∈ ms ∧ has_latest modTime m ∧ r.1 = m.1).
Proof.
  intros Hne. cbv zeta. revert acc. induction ms as [|m ms IH]; intros [l c]; [cbn; split; [lia|by left]|].
  set (t := match m.2 with Some _ => timeSentinel | None => fi_ModTime m.1 end).
  change (zip (m :: ms) (listObjectModtimes (m :: ms))) with ((m, t) :: zip ms (listObjectModtimes ms)). cbn [foldl]. rewrite count_cons.
  assert (IsValid m.1 && (t =? modTime) = true ↔ has_latest modTime m) as Hiff.
  { unfold has_latest, t. rewrite andb_true_iff, Z.eqb_eq. destruct m.2; [|tauto]. split; [intros [_ ?]; congruence|by intros (_ & ? & _)]. }
  destruct (decide (has_latest modTime m)) as [Hh|Hh].
  - assert (latest_step modTime (l, c) (m, t) = (m.1, c + 1)) as -> by (unfold latest_step; by rewrite (proj2 Hiff Hh)).
    rewrite one_if_true by done. destruct (IH (m.1, c + 1)) as [H1 H2]. split; [cbn [snd] in *; lia|].
    right. destruct H2 as [->|(m' & Hm' & Hl & Hr)]; [exists m; split_and!; [by left|done|done]|exists m'; split_and!; [by right|done|done]].
  - assert (latest_step modTime (l, c) (m, t) = (l, c)) as ->.
    { unfold latest_step. destruct (IsValid m.1 && (t =? modTime)); [by destruct Hh; apply Hiff|done]. }
    rewrite one_if_false by done. destruct (IH (l, c)) as [H1 H2]. split; [cbn [snd] in *; lia|].
    destruct H2 as [->|(m' & Hm' & Hl & Hr)]; [by left|right]. exists m'. split_and!; [by right|done|done].
Qed.

Lemma getLatest_spec ewalk walk ms fi :
  getLatestFileInfo ewalk walk ms = Ok fi →
  let modTime := commonTime walk (listObjectModtimes ms) in
  IsValid fi = true ∧ modTime ≠ timeSentinel ∧ (∃ m, m ∈ ms ∧ has_latest modTime m ∧ fi = m.1) ∧
  ei_DataBlocks (fi_Erasure fi) ≤ Z.of_nat (count (has_latest modTime) ms).
Proof.
  unfold getLatestFileInfo. destruct (reduceReadQuorumErrs _ _ _ _); [done|]. cbv zeta.
  set (modTime := commonTime walk (listObjectModtimes ms)). destruct (_ || _) eqn:Hz; [done|]. destruct_bools.
  pose proof (latest_fold modTime ms (FileInfo_zero, 0)) as Hf. cbv zeta in Hf. destruct (foldl _ _ _) as [latest c].
  destruct (IsValid latest) eqn:Hv; cbn [negb]; [|done]. destruct (Z.ltb_spec c (ei_DataBlocks (fi_Erasure latest))); [done|].
  intros [= <-]. destruct Hf as [Hc Hr]; [done|]. cbn [fst snd] in *. split_and!; [done|done| |lia].
  destruct Hr as [[= -> ->]|?]; [done|done].
Qed.

Lemma has_latest_nil modTime ms : Z.of_nat (count (has_latest modTime) ms) ≤ countErrs ms.*2 None.
Proof.
  unfold countErrs. apply Nat2Z.inj_le. induction ms as [|m ms IH]; [done|]. cbn [fmap list_fmap]. rewrite !count_cons.
  etrans; [apply Nat.add_le_mono_l, IH|]. apply Nat.add_le_mono_r, one_if_le. by intros (_ & ? & _).
Qed.

(** ** Theorems *)

(** C26: the quorums of a new object protect it: with a storage class configuration that was
    accepted for the set, [putObject] uses at least one parity drive and no more
    than data drives, all the drives of the set, however many drives are lost;
    and every two writes, and every read and every write, have a drive in common. *)
Theorem put_quorums_intersect Comment env kvs sCfg maxp sc dflt disks parity data wq up :
  LookupConfig Comment env kvs (zlen disks) = Ok sCfg → 0 < dflt ≤ zlen disks `quot` 2 →
  putObject_drives sCfg maxp sc dflt disks = (parity, data, wq, up) →
  0 < parity ≤ data ∧ data + parity = zlen disks ∧ zlen disks < data + wq ∧ zlen disks < wq + wq ∧ data ≤ wq ≤ data + 1.
Proof.
  intros Hc%LookupConfig_ok Hd Hp. destruct (putObject_drives_spec _ _ _ _ _ _ _ _ _ Hc Hd Hp) as (? & ? & ? & ? & ? & ?). lia.
Qed.

Lemma put_quorums_intersect_witness :
  let disks := replicate 12 (Some (mkDS true (Some "id"%string))) ++ replicate 4 None in
  ∃ sCfg parity data wq up, putObject_drives sCfg false "STANDARD" 4 disks = (parity, data, wq, up) ∧ 0 < parity ≤ data ∧ zlen disks < data + wq.
Proof.
  cbv zeta. set (disks := replicate 12 _ ++ replicate 4 None).
  pose (sCfg := mkConfig (mkSC 0) (mkSC 2)). exists sCfg, 8, 8, 9, (Some "4->8"%string). split; [vm_compute; reflexivity|].
  destruct (put_quorums_intersect "comment" (λ _, None) DefaultKVS sCfg false "STANDARD" 4 disks 8 8 9 (Some "4->8"%string)) as (H1 & _ & H2 & _);
    [vm_compute; reflexivity|vm_compute; split; congruence|vm_compute; reflexivity|]. done.
Defined.

(** C27: the metadata that is used is the one of a quorum: [findFileInfoInQuorum] gives valid metadata
    of the time asked for whose hash at least [quorum] drives have, and no hash is
    had by more drives; it fails exactly when the quorum is less than two drives or no hash reaches it.
    The order in which Go walks its map does not matter for this. *)
Theorem metadata_quorum sha256 walk metaArr modTime quorum :
  (∀ l, walk l ≡ₚ l) → (∀ s, sha256 s ≠ ""%string) →
  match findFileInfoInQuorum sha256 walk metaArr modTime quorum with
  | Ok fi => 2 ≤ quorum ∧ fi ∈ metaArr ∧ IsValid fi = true ∧ fi_ModTime fi = modTime ∧
             quorum ≤ agreeing sha256 metaArr modTime (sha256 (metaKey fi)) ∧
             ∀ h, h ≠ ""%string → agreeing sha256 metaArr modTime h ≤ agreeing sha256 metaArr modTime (sha256 (metaKey fi))
  | Err err => err = errErasureReadQuorum ∧ (quorum < 2 ∨ ∀ h, h ≠ ""%string → agreeing sha256 metaArr modTime h < quorum)
  | Panic _ => False
  end.
Proof.
  intros Hw Hs. destruct (Z.lt_ge_cases quorum 2) as [Hlt|Hge].
  - unfold findFileInfoInQuorum. rewrite (proj2 (Z.ltb_lt quorum 2)) by done. auto.
  - pose proof (findFileInfo_spec sha256 walk metaArr modTime quorum Hw Hs Hge) as H.
    destruct (findFileInfoInQuorum sha256 walk metaArr modTime quorum); [done|by destruct H; auto|done].
Qed.

(** Metadata of a drive of a set of [2 * d] drives, with as much data as parity. *)
Definition demo_meta (d modTime index : Z) : FileInfo :=
  mkFI "" "" "" false false "" "" "" "" false "dir" false modTime 10 ∅ [mkPart "" 1 10 10]
    (mkEI d d blockSizeV2 index (hashOrder (λ _, 7) "object" (d + d)) []) false ReplicationState_zero [] 0 0 0.

Lemma metadata_quorum_witness :
  ∃ fi, findFileInfoInQuorum (λ s, "#" +:+ s) (λ l, l) [demo_meta 2 5 1; demo_meta 2 5 2; demo_meta 2 4 3; FileInfo_zero] 5 2 = Ok fi ∧ fi_ModTime fi = 5.
Proof.
  pose proof (metadata_quorum (λ s, "#" +:+ s) (λ l, l) [demo_meta 2 5 1; demo_meta 2 5 2; demo_meta 2 4 3; FileInfo_zero] 5 2) as H.
  exists (demo_meta 2 5 1). assert (findFileInfoInQuorum (λ s, "#" +:+ s) (λ l, l) [demo_meta 2 5 1; demo_meta 2 5 2; demo_meta 2 4 3; FileInfo_zero] 5 2
    = Ok (demo_meta 2 5 1)) as E by (vm_compute; reflexivity).
  rewrite E in H. destruct H as (_ & _ & _ & Ht & _); [done|done|]. split; [exact E|exact Ht].
Defined.

(** Every drive has its place: the order that [hashOrder] gives to the drives of a set has every
    number from 1 on once, so that [shuffleDisks] never panics and moves the drives
    without losing one; and the drives that [shuffleDisksAndPartsMetadataByIndex] gives
    for reading are where the distribution puts them, each with its own metadata. *)
Theorem drives_in_place {disk} crc32 key (disks : list (option disk)) :
  let dist := hashOrder crc32 key (zlen disks) in
  (∃ res, shuffleDisks disks (Some dist) = Ok res ∧ length res = length disks ∧
     ∀ i d b, disks !! i = Some d → dist !! i = Some b → 1 ≤ b ≤ zlen disks ∧ res !! Z.to_nat (b - 1) = Some d) ∧
  (∀ i j b, dist !! i = Some b → dist !! j = Some b → i = j) ∧
  ∀ metas fi ds ms, shuffleDisksAndPartsMetadataByIndex disks metas fi = Ok (ds, ms) →
    placed disks metas (ei_Distribution (fi_Erasure fi)) ds ms.
Proof.
  cbv zeta. pose proof (hashOrder_ok crc32 key (zlen disks) (zlen_nonneg disks)) as Hok.
  assert (Z.to_nat (zlen disks) = length disks) as En by (unfold zlen; lia). rewrite En in Hok. split_and!.
  - destruct (shuffle_with_spec 0 disks _ (replicate (length disks) None) (length disks) Hok) as (res & Hr & Hl & H1 & _);
      [by rewrite length_replicate|lia|]. exists res. split_and!; [done|done|]. intros i d b Hd Hb. split; [|by apply (H1 i)].
    apply list_elem_of_lookup_2, hashOrder_range in Hb. done.
  - apply NoDup_alt, hashOrder_NoDup.
  - intros metas fi ds ms. apply by_index_placed.
Qed.

(** Adding a part keeps the parts of an object sorted by their numbers, each number
    once: the new part is there, in place of the one with its number if there was one,
    and the others are not changed. *)
Theorem add_object_part parts n etag size actual :
  parts_sorted parts →
  let parts' := AddObjectPart n etag size actual parts in
  parts_sorted parts' ∧ NoDup (part_Number <$> parts') ∧
  ∀ q, q ∈ parts' ↔ q = mkPart etag n size actual ∨ q ∈ parts ∧ part_Number q ≠ n.
Proof.
  intros Hs. cbv zeta. unfold AddObjectPart. set (p := mkPart etag n size actual).
  assert (∃ parts', match replace_part parts p with Some l => l | None => sort_parts (parts ++ [p]) end = parts' ∧ parts_sorted parts' ∧
    ∀ q, q ∈ parts' ↔ q = p ∨ q ∈ parts ∧ part_Number q ≠ part_Number p) as (parts' & -> & H1 & H2).
  { destruct (replace_part parts p) as [l|] eqn:E.
    - destruct (replace_part_some _ _ _ E) as (H1 & _ & H3). exists l. split_and!; [done|by eapply sorted_numbers|by apply H3].
    - pose proof (replace_part_none _ _ E) as Hnone. exists (sort_parts (parts ++ [p])). split_and!; [done| |].
      + apply sort_parts_sorted. rewrite fmap_app, NoDup_app. split_and!; [by apply sorted_NoDup| |apply NoDup_singleton].
        intros x (q & -> & Hq)%list_elem_of_fmap Hx%list_elem_of_singleton. by apply (Hnone q).
      + intros q. rewrite sort_parts_elem, elem_of_app, list_elem_of_singleton. split; [|tauto]. intros [Hq|?]; [right; split; auto|by left]. }
  split_and!; [done|by apply sorted_NoDup|done].
Qed.

Lemma add_object_part_witness :
  parts_sorted (AddObjectPart 2 "e" 5 5 [mkPart "a" 1 3 3; mkPart "b" 3 4 4]).
Proof.
  apply (add_object_part [mkPart "a" 1 3 3; mkPart "b" 3 4 4] 2 "e" 5 5). repeat constructor.
Defined.

(** [ObjectToPartOffset] finds the part that has the byte: for an offset in the object other than 0 the part
    and the offset in it add up to the offset, and the offset in the part is one of its
    bytes; it fails exactly when the offset is not in the object. *)
Theorem object_to_part_offset parts offset :
  0 < offset → Forall (λ p, 0 ≤ part_Size p) parts →
  match ObjectToPartOffset parts offset with
  | Ok (i, o) => ∃ p, parts !! i = Some p ∧ offset = size_before parts i + o ∧ 0 ≤ o < part_Size p
  | Err err => err = InvalidRange ∧ size_before parts (length parts) ≤ offset
  | Panic _ => False
  end.
Proof.
  intros Ho Hs. unfold ObjectToPartOffset. rewrite (proj2 (Z.eqb_neq offset 0)) by lia.
  pose proof (part_offset_spec parts offset 0 ltac:(lia) Hs) as H. destruct (part_offset 0 parts offset) as [[i o]|err|]; [|done|done].
  destruct H as (k & p & -> & H). by exists p.
Qed.

Lemma object_to_part_offset_witness :
  ∃ p, [mkPart "a" 1 3 3; mkPart "b" 2 4 4] !! 1%nat = Some p ∧ 5 = size_before [mkPart "a" 1 3 3; mkPart "b" 2 4 4] 1 + 2 ∧ 0 ≤ 2 < part_Size p.
Proof.
  apply (object_to_part_offset [mkPart "a" 1 3 3; mkPart "b" 2 4 4] 5); [done|]. repeat constructor; done.
Defined.

(** C40: the quorums that are computed from the metadata of an object are those it was written with, with one exception.
    When [putObject] has chosen the drives of an object, every valid metadata is that of the object, and the configuration is still the same,
    [objectQuorumFromMeta] gives its data drives as the read quorum and the write quorum of [putObject], so that a later
    write and a read have a drive in common. But when [putObject] has raised the parity to half of the drives,
    above the parity of the storage class, because drives were lost or the most parity was asked for, [objectQuorumFromMeta] compares the data drives with the parity of the storage class: its
    write quorum is one drive less than that of [putObject], and a write and a read together need no more drives than the set has. *)
Theorem quorums_of_raised_parity Comment env kvs sCfg maxp sc dflt disks parity data wq up ewalk walk ms rq' wq' :
  LookupConfig Comment env kvs (zlen disks) = Ok sCfg → 0 < dflt ≤ zlen disks `quot` 2 →
  putObject_drives sCfg maxp sc dflt disks = (parity, data, wq, up) →
  (∀ m, m ∈ ms → m.2 = None → IsValid m.1 = true →
     ei_DataBlocks (fi_Erasure m.1) = data ∧ meta_str (fi_Metadata m.1) "x-amz-storage-class" = sc) →
  objectQuorumFromMeta ewalk walk sCfg ms dflt = Ok (rq', wq') →
  let class := if GetParityForSC sCfg sc <=? 0 then dflt else GetParityForSC sCfg sc in
  rq' = data ∧
  if decide (parity = data ∧ class < parity) then wq' = wq - 1 ∧ rq' + wq' = zlen disks else wq' = wq ∧ zlen disks < rq' + wq'.
Proof.
  intros Hc%LookupConfig_ok Hd Hp Hms Hq. cbv zeta. pose proof (class_parity _ _ sc _ Hc Hd) as Hcl.
  set (class := if GetParityForSC sCfg sc <=? 0 then dflt else GetParityForSC sCfg sc) in *.
  destruct (putObject_drives_spec _ _ _ _ _ _ _ _ _ Hc Hd Hp) as (H1 & H2 & H3 & H4 & H5 & H6).
  pose proof (put_quorum _ _ _ _ _ _ _ _ _ Hp) as Hwq. apply obind_ok in Hq as (fi & Hl & Hq).
  apply getLatest_spec in Hl as (Hv & _ & (m & Hm & (_ & Hnil & _) & ->) & _).
  destruct (Hms m Hm Hnil Hv) as [Ed Esc]. cbv zeta in Hq. rewrite Esc, Ed in Hq. fold class in Hq.
  rewrite (proj2 (Z.eqb_neq data 0)) in Hq by lia. injection Hq as <- <-. split; [done|].
  rewrite Z.quot_div_nonneg in Hcl by lia. pose proof (Z.div_mod (zlen disks) 2 ltac:(lia)). pose proof (Z.mod_pos_bound (zlen disks) 2 ltac:(lia)).
  case_decide; destruct (Z.eqb_spec data class), (Z.eqb_spec data parity); lia.
Qed.

Lemma quorums_of_raised_parity_witness :
  let disks := replicate 12 (Some (mkDS true (Some "id"%string))) ++ replicate 4 None in
  let ms := (λ i, (demo_meta 8 (timeSentinel + 1) (Z.of_nat i), @None derr)) <$> seq 1 16 in
  ∃ sCfg, putObject_drives sCfg false "" 4 disks = (8, 8, 9, Some "4->8"%string) ∧ objectQuorumFromMeta (λ l, l) (λ l, l) sCfg ms 4 = Ok (8, 8) ∧ 8 + 8 = zlen disks.
Proof.
  cbv zeta. set (disks := replicate 12 _ ++ replicate 4 None). set (ms := _ <$> seq 1 16). exists (mkConfig (mkSC 0) (mkSC 2)).
  assert (objectQuorumFromMeta (λ l, l) (λ l, l) (mkConfig (mkSC 0) (mkSC 2)) ms 4 = Ok (8, 8)) as E by (vm_compute; reflexivity).
  split; [vm_compute; reflexivity|]. split; [exact E|].
  destruct (quorums_of_raised_parity "comment" (λ _, None) DefaultKVS (mkConfig (mkSC 0) (mkSC 2)) false "" 4 disks 8 8 9 (Some "4->8"%string) (λ l, l) (λ l, l) ms 8 8)
    as [_ H]; [vm_compute; reflexivity|vm_compute; split; congruence|vm_compute; reflexivity| |exact E|].
  - intros m (i & -> & _)%list_elem_of_fmap _ _. split; [reflexivity|vm_compute; reflexivity].
  - exact (proj2 H).
Defined.

(** Once the quorum of an object is known there is no read quorum error left to handle: when
    [objectQuorumFromMeta] has succeeded for an object that is not a delete marker,
    at least as many drives as its read quorum gave valid metadata of the latest time,
    so that [reduceReadQuorumErrs] does not answer [errErasureReadQuorum]. The branch
    of [getObjectFileInfo] that removes dangling objects is not reached for objects. *)
Theorem quorum_error_unreachable ewalk walk sCfg ms dflt rq wq :
  map_walk ewalk → objectQuorumFromMeta ewalk walk sCfg ms dflt = Ok (rq, wq) →
  (∀ m, m ∈ ms → m.2 = None → IsValid m.1 = true → fi_Deleted m.1 = false) → Forall (λ e, e ≠ Some errErasureReadQuorum) ms.*2 →
  rq ≤ Z.of_nat (count (has_latest (commonTime walk (listObjectModtimes ms))) ms) ∧
  reduceReadQuorumErrs ewalk ms.*2 objectOpIgnoredErrs rq ≠ Some errErasureReadQuorum.
Proof.
  intros Hw Hq Hdel Herrs. unfold objectQuorumFromMeta in Hq. apply obind_ok in Hq as (fi & Hl & Hq).
  apply getLatest_spec in Hl as (Hv & _ & (m & Hm & (_ & Hnil & _) & ->) & Hd). cbv zeta in Hd.
  pose proof (Hdel m Hm Hnil Hv) as Hnd. unfold IsValid in Hv. rewrite Hnd in Hv. cbv zeta in Hv. destruct_bools.
  cbv zeta in Hq. rewrite (proj2 (Z.eqb_neq (ei_DataBlocks (fi_Erasure m.1)) 0)) in Hq by lia. injection Hq as <- _. split; [done|].
  unfold reduceReadQuorumErrs, reduceQuorumErrs. pose proof (reduceErrs_best ewalk ms.*2 objectOpIgnoredErrs Hw) as (Hmax & Hin & _).
  pose proof (has_latest_nil (commonTime walk (listObjectModtimes ms)) ms) as Hle.
  destruct (reduceErrs ewalk ms.*2 objectOpIgnoredErrs) as [mx e]. cbn [fst snd] in *.
  assert (0 < errCount (countedErrs ms.*2 objectOpIgnoredErrs) None ∧
    ei_DataBlocks (fi_Erasure m.1) ≤ errCount (countedErrs ms.*2 objectOpIgnoredErrs) None) as [Hpos Hge].
  { rewrite countedErrs_nil. lia. }
  assert (errCount (countedErrs ms.*2 objectOpIgnoredErrs) None ≤ mx) as Hmx.
  { apply (Hmax None), errorCounts_elem. split; [|done]. by apply errCount_elem. }
  rewrite (proj2 (Z.leb_le _ mx)) by lia. intros ->. destruct Hin as [|Hin]; [done|]. apply errorCounts_elem in Hin as [Hin _].
  unfold countedErrs in Hin. apply list_elem_of_fmap in Hin as (err & Hkey & Herr%list_elem_of_In).
  apply List.filter_In in Herr as [Herr%list_elem_of_In _]. rewrite Forall_forall in Herrs. apply (Herrs _ Herr).
  destruct err as [[]|]; done.
Qed.

Lemma quorum_error_unreachable_witness :
  2 ≤ Z.of_nat (count (has_latest (timeSentinel + 1)) [(demo_meta 2 (timeSentinel + 1) 1, None); (demo_meta 2 (timeSentinel + 1) 2, None);
    (FileInfo_zero, Some errFileNotFound); (FileInfo_zero, Some errDiskNotFound)]).
Proof.
  apply (quorum_error_unreachable (λ l, l) (λ l, l) (mkConfig (mkSC 2) (mkSC 2)) [(demo_meta 2 (timeSentinel + 1) 1, None);
    (demo_meta 2 (timeSentinel + 1) 2, None); (FileInfo_zero, Some errFileNotFound); (FileInfo_zero, Some errDiskNotFound)] 2 2 3).
  - by intros l.
  - vm_compute. reflexivity.
  - intros m Hm Hn _. rewrite !elem_of_cons, elem_of_nil in Hm. destruct Hm as [->|[->|[->|[->|[]]]]]; done.
  - repeat constructor; done.
Defined.

