(* ===== verification/ErasureGet.v ===== *)
(** * Reading an erasure-coded object (cmd/erasure-object.go, getObjectWithFileInfo)

    The parts of an object are read one after the other, each from the drives that
    have not failed so far. A part that was read although some of its shards were
    missing or damaged asks for the object to be healed. *)

From Stdlib Require Import ZArith Lia Bool.
From S2P Require Import Prelude Replication ErasureErrs Erasure ErasureRead ErasureStore Bitrot BitrotStore StorageClass ErasureMeta.

Local Open Scope go_scope.
Local Open Scope Z_scope.

(** ** The readers of a part *)

(** A drive: its host name (empty for a local drive), and the files of the parts of the
    object, by part number, as a stream and as a verified whole. *)
Record get_drive := mkGD {
  gd_Hostname : string;
  gd_ReadFileStream : Z → Z → Z → outcome derr stream;
  gd_ReadFile : Z → Z → Z → bytes * option derr;
}.

Section Readers.
Context `{BitrotHash}.

(** The state of a whole-file reader after [n] shards, and the reader. *)
Fixpoint wr_after (disk : Z → Z → bytes * option derr) (shardSize : Z) (b : wholeBitrotReader) (lo n : nat) : outcome derr wholeBitrotReader :=
  match n with
  | O => Ok b
  | S n =>
      match wr_ReadAt disk shardSize (Z.of_nat lo * shardSize) b with
      | (Ok _, b) => wr_after disk shardSize b (S lo) n
      | (Err err, _) => Err err
      | (Panic w, _) => Panic w
      end
  end.

Definition whole_reader (disk : Z → Z → bytes * option derr) (till shardSize : Z) (lo : nat) : reader :=
  λ off len,
    let k := Z.to_nat (off / shardSize) in
    let lo := Nat.min lo k in
    b ←? wr_after disk shardSize (mkWR till None) lo (k - lo);
    (wr_ReadAt disk len off b).1.

(** [lo] is the block that is read first. *)
Definition newBitrotReader (dr : get_drive) (data : bytes) (partNumber tillOffset : Z) (algo : Z) (shardSize : Z) (lo : nat) : reader :=
  if algo =? HighwayHash256S then bitrot_reader (gd_ReadFileStream dr partNumber) data tillOffset shardSize lo
  else whole_reader (gd_ReadFile dr partNumber) tillOffset shardSize lo.

(** A drive that is online has its metadata: [place] puts both at the same index. *)
Definition part_reader (e : Erasure) (ms : list FileInfo) (partNumber partOffset tillOffset : Z) (i : nat) (od : option get_drive) : option reader :=
  match od, ms !! i with
  | Some dr, Some m =>
      if negb (IsValid m) then None
      else
        let checksumInfo := GetChecksumInfo (ei_Checksums (fi_Erasure m)) partNumber in
        Some (newBitrotReader dr (fi_Data m) partNumber tillOffset (ck_Algorithm checksumInfo) (ShardSize e) (Z.to_nat (partOffset / blockSize e)))
  | _, _ => None
  end.

Definition part_readers (e : Erasure) (ds : list (option get_drive)) (ms : list FileInfo) (partNumber partOffset tillOffset : Z) : list (option reader) :=
  imap (part_reader e ms partNumber partOffset tillOffset) ds.

(** "Prefer local disks" *)
Definition part_prefer (ds : list (option get_drive)) (ms : list FileInfo) : list bool :=
  imap (λ i od, match od, ms !! i with Some dr, Some m => IsValid m && String.eqb (gd_Hostname dr) "" | _, _ => false end) ds.

(** ** The parts *)

Inductive HealScanMode := HealUnknownScan | HealNormalScan | HealDeepScan.

(** The heal that [healOnce] has started: [None] when it has not run, [Some None] when
    healing was under way already. *)
Abbreviation heal_once := (option (option HealScanMode)).

Definition scan_of (err : derr) : option HealScanMode :=
  match err with errFileNotFound => Some HealNormalScan | errFileCorrupt => Some HealDeepScan | _ => None end.

Context `{ReedSolomon}.

(** The loop over the parts; [count] of them are left, [out] has been written. *)
Fixpoint get_loop (scheds : nat → Z → list rd_event) (healing : bool) (count : nat) (e : Erasure) (parts : list ObjectPartInfo) (length : Z)
    (partIndex : nat) (partOffset totalBytesRead : Z) (ds : list (option get_drive)) (ms : list FileInfo) (out : bytes) (heal : heal_once)
    : option (outcome derr () * bytes * heal_once) :=
  match count with
  | O => Some (Ok (), out, heal)
  | S count =>
      if length =? totalBytesRead then Some (Ok (), out, heal)
      else match parts !! partIndex with
      | None => Some (Panic "index out of range", out, heal)
      | Some part =>
          let partLength := part_Size part - partOffset in
          let partLength := if length - totalBytesRead <? partLength then length - totalBytesRead else partLength in
          let tillOffset := ShardFileOffset e partOffset partLength (part_Size part) in
          let readers := part_readers e ds ms (part_Number part) partOffset tillOffset in
          '(r, w, readers) ← Decode (scheds partIndex) e readers partOffset partLength (part_Size part) (part_prefer ds ms);
          match r with
          | Panic x => Some (Panic x, out ++ w, heal)
          | Err err => Some (Err err, out ++ w, heal)
          | Ok derror =>
              let asks := if zlen w =? partLength then derror ≫= scan_of else None in
              let failed := match derror with None => false | Some _ => bool_decide (asks = None) end in
              let heal := match asks, heal with Some scan, None => Some (if healing then None else Some scan) | _, _ => heal end in
              if failed then Some (match derror with Some err => Err err | None => Ok () end, out ++ w, heal)
              else
                let ds := imap (λ i od, match readers !! i with Some None => None | _ => od end) ds in
                get_loop scheds healing count e parts length (S partIndex) 0 (totalBytesRead + partLength) ds ms (out ++ w) heal
          end
      end
  end.

Definition getObjectWithFileInfo (scheds : nat → Z → list rd_event) (healing : bool) (startOffset length : Z) (fi : FileInfo) (metaArr : list FileInfo)
    (onlineDisks : list (option get_drive)) : option (outcome derr () * bytes * heal_once) :=
  match shuffleDisksAndPartsMetadataByIndex onlineDisks metaArr fi with
  | Err err => Some (Err err, [], None)
  | Panic w => Some (Panic w, [], None)
  | Ok (ds, ms) =>
      let length := if length <? 0 then wrap64 (fi_Size fi - startOffset) else length in
      if (fi_Size fi <? startOffset) || (fi_Size fi <? wrap64 (startOffset + length)) then Some (Err InvalidRange, [], None)
      else match ObjectToPartOffset (fi_Parts fi) startOffset with
      | Ok (partIndex, partOffset) =>
          let endOffset := if 0 <? length then wrap64 (startOffset + (length - 1)) else startOffset in
          match ObjectToPartOffset (fi_Parts fi) endOffset with
          | Ok (lastPartIndex, _) =>
              let ei := fi_Erasure fi in
              match NewErasure (ei_DataBlocks ei) (ei_ParityBlocks ei) (ei_BlockSize ei) with
              | Ok e => get_loop scheds healing (S lastPartIndex - partIndex) e (fi_Parts fi) length partIndex partOffset 0 ds ms [] None
              | Err err => Some (Err err, [], None)
              | Panic w => Some (Panic w, [], None)
              end
          | _ => Some (Err InvalidRange, [], None)
          end
      | _ => Some (Err InvalidRange, [], None)
      end
  end.

End Readers.

(** ** The parts of an object *)

Lemma concat_zlen_take (parts : list ObjectPartInfo) (Ds : list bytes) i :
  Forall2 (λ p D, part_Size p = zlen D) parts Ds → zlen (concat (take i Ds)) = size_before parts i.
Proof.
  intros HF. revert i. induction HF as [|p D parts Ds Hp HF IH]; intros [|i]; [done..|].
  unfold size_before in *. cbn [take concat fmap list_fmap foldr]. by rewrite zlen_app, IH, Hp.
Qed.

Lemma concat_split (Ds : list bytes) i : concat Ds = concat (take i Ds) ++ concat (drop i Ds).
Proof. by rewrite <- concat_app, take_drop. Qed.

Lemma slice_skip (a b : bytes) o n : 0 ≤ o → slice (a ++ b) (zlen a + o) n = slice b o n.
Proof.
  intros Ho. unfold slice, zlen. f_equal. rewrite drop_app_ge by lia. f_equal. lia.
Qed.

(** A range is a range of the first part and one of the rest. *)
Lemma slice_first (a b : bytes) o n :
  0 ≤ o ≤ zlen a → 0 ≤ n → slice (a ++ b) o n = slice a o (Z.min (zlen a - o) n) ++ slice b 0 (n - Z.min (zlen a - o) n).
Proof.
  intros Ho Hn. unfold slice, zlen in *. change (Z.to_nat 0) with O. rewrite drop_0, drop_app_le by lia.
  destruct (Z.le_gt_cases n (Z.of_nat (length a) - o)) as [Hle|Hgt].
  - rewrite Z.min_r, Z.sub_diag by lia. change (Z.to_nat 0) with O. rewrite take_0, app_nil_r. apply take_app_le. rewrite length_drop. lia.
  - rewrite Z.min_l by lia. rewrite (take_ge _ (Z.to_nat (Z.of_nat (length a) - o))) by (rewrite length_drop; lia).
    rewrite take_app, length_drop, take_ge by (rewrite length_drop; lia). do 2 f_equal. lia.
Qed.

Section Ranges.
Context (fi : FileInfo) (Ds : list bytes).
Hypothesis Hparts : Forall2 (λ p D, part_Size p = zlen D) (fi_Parts fi) Ds.
Hypothesis Hsize : fi_Size fi = zlen (concat Ds).
Hypothesis Hfull : Forall (λ D, D ≠ []) Ds ∨ fi_Size fi = 0.

Lemma sizes_nonneg : Forall (λ p, 0 ≤ part_Size p) (fi_Parts fi).
Proof.
  apply Forall_lookup. intros q p Hp. destruct (Forall2_lookup_l _ _ _ _ _ Hparts Hp) as (D & _ & ->). apply zlen_nonneg.
Qed.

(** The part of a byte of the object. *)
Lemma byte_part offset :
  0 ≤ offset < fi_Size fi →
  ∃ i o D, ObjectToPartOffset (fi_Parts fi) offset = Ok (i, o) ∧ Ds !! i = Some D ∧ 0 ≤ o < zlen D ∧ offset = zlen (concat (take i Ds)) + o.
Proof.
  intros Ho. unfold ObjectToPartOffset. destruct (Z.eqb_spec offset 0) as [->|Hne].
  - destruct Hfull as [HF|]; [|lia]. rewrite Hsize in Ho. destruct Ds as [|D Ds']; [change (zlen (concat [])) with 0 in Ho; lia|].
    apply Forall_cons in HF as [HD _]. exists O, 0, D. split_and!; try done. by apply zlen_pos.
  - pose proof (part_offset_spec (fi_Parts fi) offset 0 (proj1 Ho) sizes_nonneg) as Hs. destruct (part_offset 0 (fi_Parts fi) offset) as [[i o]|err|]; [| |done].
    + destruct Hs as (k & p & -> & Hp & Hoff & Hop). destruct (Forall2_lookup_l _ _ _ _ _ Hparts Hp) as (D & HD & Hs).
      exists k, o, D. rewrite (concat_zlen_take _ _ _ Hparts). split_and!; try done; lia.
    + destruct Hs as [_ Hs]. rewrite <- (concat_zlen_take _ _ _ Hparts), (Forall2_length _ _ _ Hparts), firstn_all in Hs. lia.
Qed.

(** The parts from that of the first byte to that of the last have the range. *)
Lemma range_parts startOffset length i o j o' D D' :
  0 < length → Ds !! i = Some D → Ds !! j = Some D' → 0 ≤ o → 0 ≤ o' < zlen D' → startOffset = zlen (concat (take i Ds)) + o →
  startOffset + (length - 1) = zlen (concat (take j Ds)) + o' →
  o + (length - 0) ≤ zlen (concat (take (S j - i) (drop i Ds))) ∧ slice (concat (drop i Ds)) o (length - 0) = slice (concat Ds) startOffset length.
Proof.
  intros Hl Hi Hj Ho Ho' Hs He. rewrite Z.sub_0_r. split.
  - assert (zlen (concat (take (S j) Ds)) = zlen (concat (take j Ds)) + zlen D') as HSj
      by (rewrite (take_S_r Ds j D') by done; rewrite concat_app, zlen_app; cbn; by rewrite app_nil_r).
    assert (i ≤ S j)%nat as Hij.
    { apply Nat.nlt_ge. intros Hlt. assert (zlen (concat (take (S j) Ds)) ≤ zlen (concat (take i Ds))); [|lia].
      replace i with (S j + (i - S j))%nat by lia. rewrite <- take_take_drop, concat_app, zlen_app. pose proof (zlen_nonneg (concat (take (i - S j) (drop (S j) Ds)))). lia. }
    replace (S j) with (i + (S j - i))%nat in HSj by lia. rewrite <- take_take_drop, concat_app, zlen_app in HSj. lia.
  - rewrite (concat_split Ds i), Hs. by rewrite slice_skip.
Qed.

End Ranges.

(** ** Reading the parts *)

Section Get.
Context (e : Erasure) `{ReedSolomonLaws (dataBlocks e) (parityBlocks e)} `{BitrotHashLaws}.
Hypothesis data_pos : 0 < dataBlocks e.
Hypothesis parity_pos : 0 < parityBlocks e.
Hypothesis block_pos : 0 < blockSize e.

Let n := Z.to_nat (dataBlocks e + parityBlocks e).

Context (parts : list ObjectPartInfo) (Ds : list bytes) (healing : bool).
Hypothesis Hparts : Forall2 (λ p D, part_Size p = zlen D) parts Ds.
Hypothesis Hwidth : zlen (concat Ds) < 2 ^ 63.

(** The drives in their places, with their metadata. *)
Context (ds0 : list (option get_drive)) (ms : list FileInfo) (gs : list nat).
Hypothesis Hn : length ds0 = n.

(** What is on the drives of part [q]. *)
Hypothesis Hdrives : ∀ k dr m q p D,
  ds0 !! k = Some (Some dr) → ms !! k = Some m → IsValid m = true → parts !! q = Some p → Ds !! q = Some D →
  ck_Algorithm (GetChecksumInfo (ei_Checksums (fi_Erasure m)) (part_Number p)) = HighwayHash256S ∧
  ∃ f, drive_ok e D k (mkDrive f (fi_Data m) (gd_ReadFileStream dr (part_Number p))).

(** The healthy drives. *)
Hypothesis Hgs : NoDup gs ∧ dataBlocks e ≤ zlen gs.
Hypothesis Hhealthy : ∀ k, k ∈ gs → ∃ dr m, ds0 !! k = Some (Some dr) ∧ ms !! k = Some m ∧ IsValid m = true ∧
  ∀ q p D, parts !! q = Some p → Ds !! q = Some D → ∃ f, drive_healthy e D k (mkDrive f (fi_Data m) (gd_ReadFileStream dr (part_Number p))).

(** All drives are local or none is. *)
Hypothesis Hlocal : (∀ k dr, ds0 !! k = Some (Some dr) → gd_Hostname dr = ""%string) ∨ (∀ k dr, ds0 !! k = Some (Some dr) → gd_Hostname dr ≠ ""%string).

(** The drives that are left: the healthy ones are among them. *)
Definition survivors (ds : list (option get_drive)) : Prop :=
  length ds = n ∧ (∀ k, ds !! k = ds0 !! k ∨ ds !! k = Some None) ∧ ∀ k, k ∈ gs → ds !! k = ds0 !! k.

Lemma survivors_refl : survivors ds0.
Proof. split_and!; auto. Qed.

Lemma survivor ds k dr : survivors ds → ds !! k = Some (Some dr) → ds0 !! k = Some (Some dr).
Proof. intros (_ & Hs & _) Hk. destruct (Hs k) as [E|E]; congruence. Qed.

Section Part.
Context (ds : list (option get_drive)) (q : nat) (p : ObjectPartInfo) (D : bytes) (offset len : Z).
Hypothesis Hds : survivors ds.
Hypothesis Hp : parts !! q = Some p.
Hypothesis HD : Ds !! q = Some D.
Hypothesis Hoff : 0 ≤ offset.
Hypothesis Hlen : 0 ≤ len.
Hypothesis Hin : offset + len ≤ zlen D.

Let readers := part_readers e ds ms (part_Number p) offset (ShardFileOffset e offset len (part_Size p)).

Lemma part_size : part_Size p = zlen D.
Proof. by apply (Forall2_lookup_lr _ _ _ _ _ _ Hparts Hp HD). Qed.

Lemma part_reader_open k dr m f :
  ds !! k = Some (Some dr) → ms !! k = Some m → IsValid m = true →
  readers !! k = Some (Some (open_drive e D offset len (mkDrive f (fi_Data m) (gd_ReadFileStream dr (part_Number p))))).
Proof.
  intros Hk Hm Hv. unfold readers, part_readers. rewrite list_lookup_imap, Hk. cbn. rewrite Hm, Hv. cbn [negb]. do 2 f_equal.
  unfold newBitrotReader. destruct (Hdrives k dr m q p D) as [-> _]; [by apply (survivor ds)|done..|]. by rewrite part_size, Z.eqb_refl.
Qed.

Lemma part_readers_some k r :
  readers !! k = Some (Some r) → ∃ dr m, ds !! k = Some (Some dr) ∧ ms !! k = Some m ∧ IsValid m = true.
Proof.
  unfold readers, part_readers, part_reader. rewrite list_lookup_imap. destruct (ds !! k) as [[dr|]|]; [|done|done]. cbn.
  destruct (ms !! k) as [m|]; [|done]. destruct (IsValid m) eqn:Hv; [|done]. intros _. by exists dr, m.
Qed.

Lemma part_readers_ok : readers_ok e D readers.
Proof.
  split; [unfold readers, part_readers; rewrite length_imap; by destruct Hds|]. intros k r Hr.
  destruct (part_readers_some k r Hr) as (dr & m & Hk & Hm & Hv).
  destruct (Hdrives k dr m q p D) as (_ & f & Hf); [by apply (survivor ds)|done..|].
  rewrite (part_reader_open k dr m f) in Hr by done. injection Hr as <-. by apply open_drive_honest.
Qed.

Lemma part_good k :
  k ∈ gs → ∃ r, readers !! k = Some (Some r) ∧ good_reader e D (offset / blockSize e) ((offset + len) / blockSize e) r.
Proof.
  intros Hk. destruct (Hhealthy k Hk) as (dr & m & Hdr & Hm & Hv & Hh). destruct (Hh q p D Hp HD) as [f Hf].
  eexists. split; [apply (part_reader_open k dr m f); [|done..]|apply (open_drive_good e D data_pos parity_pos block_pos offset len Hoff Hlen k); [|done]].
  - destruct Hds as (_ & _ & Hs). by rewrite Hs.
  - apply lookup_lt_Some in Hdr. unfold n in Hn. lia.
Qed.

Lemma part_enough : enough_good e D (offset / blockSize e) ((offset + len) / blockSize e) readers.
Proof. exists gs. destruct Hgs. split_and!; [done|done|apply part_good]. Qed.

Lemma part_uniform : uniform readers (part_prefer ds ms).
Proof.
  right. destruct Hlocal as [Hl|Hl].
  - right. intros k r Hr. destruct (part_readers_some k r Hr) as (dr & m & Hk & Hm & Hv).
    unfold part_prefer. rewrite list_lookup_imap, Hk. cbn. rewrite Hm, Hv. by rewrite (Hl k dr) by (by apply (survivor ds)).
  - left. apply Forall_lookup. intros k b. unfold part_prefer. rewrite list_lookup_imap. destruct (ds !! k) as [[dr|]|] eqn:Hk; cbn; [|by intros [= <-]|done].
    destruct (ms !! k) as [m|]; [|by intros [= <-]]. intros [= <-]. apply andb_false_iff. right. apply String.eqb_neq. apply (Hl k). by apply (survivor ds).
Qed.

Lemma part_narrow : zlen D < 2 ^ 63.
Proof.
  apply Z.le_lt_trans with (zlen (concat Ds)); [|done]. rewrite (concat_split Ds q), (drop_S Ds D q) by done.
  cbn [concat]. rewrite !zlen_app. pose proof (zlen_nonneg (concat (take q Ds))). pose proof (zlen_nonneg (concat (drop (S q) Ds))). lia.
Qed.

Lemma part_decoded sched r out rs :
  Decode sched e readers offset len (part_Size p) (part_prefer ds ms) = Some (r, out, rs) →
  (∃ de, r = Ok de ∧ soft_error de) ∧ out = slice D offset len ∧
  survivors (imap (λ i od, match rs !! i with Some None => None | _ => od end) ds).
Proof.
  rewrite part_size. intros Hdec. pose proof part_narrow.
  apply (Decode_spec e D) in Hdec as [(Hr & Hout & (Hl & Hk1 & Hk2))|(_ & Hng & _)]; try done;
    [|by destruct (Hng part_enough)|apply part_readers_ok|apply part_uniform].
  split_and!; [done|done|]. destruct Hds as (S1 & S2 & S3). split_and!; [by rewrite length_imap| |].
  - intros k. rewrite list_lookup_imap. destruct (S2 k) as [E|E]; rewrite E; [|right; cbn; by destruct (rs !! k) as [[]|]].
    destruct (ds0 !! k) as [od|] eqn:Hod; cbn; [|by left]. destruct (rs !! k) as [[]|]; auto.
  - intros k Hk. destruct (part_good k Hk) as (r' & Hr' & Hg). rewrite list_lookup_imap, (Hk2 k r' Hr' Hg), S3 by done.
    by destruct (ds0 !! k).
Qed.

Lemma part_decode_ends : ∃ sched, is_Some (Decode sched e readers offset len (part_Size p) (part_prefer ds ms)).
Proof.
  rewrite part_size. pose proof part_narrow. apply Decode_ends; try done; [apply part_readers_ok|apply part_uniform].
Qed.

End Part.

(** What is read of a part. *)
Lemma part_length (a o m : Z) : 0 ≤ o ≤ a → 0 ≤ m → (if m <? a - o then m else a - o) = Z.min (a - o) m.
Proof. intros. destruct (Z.ltb_spec m (a - o)); lia. Qed.

Lemma part_here count q o m :
  0 ≤ o → 0 < m → o + m ≤ zlen (concat (take (S count) (drop q Ds))) →
  ∃ p D, parts !! q = Some p ∧ Ds !! q = Some D ∧ drop q Ds = D :: drop (S q) Ds.
Proof.
  intros Ho Hm Hle. destruct (Ds !! q) as [D|] eqn:HD.
  - destruct (Forall2_lookup_r _ _ _ _ _ Hparts HD) as (p & Hp & _). exists p, D. by rewrite (drop_S Ds D q).
  - rewrite drop_ge in Hle by (by apply lookup_ge_None). change (o + m ≤ 0) in Hle. lia.
Qed.

Lemma rest_fits count q D o m :
  drop q Ds = D :: drop (S q) Ds → 0 ≤ o ≤ zlen D → 0 ≤ m → o + m ≤ zlen (concat (take (S count) (drop q Ds))) →
  0 + (m - Z.min (zlen D - o) m) ≤ zlen (concat (take count (drop (S q) Ds))).
Proof.
  intros Hd Ho Hm. rewrite Hd. cbn [take concat]. rewrite zlen_app. pose proof (zlen_nonneg (concat (take count (drop (S q) Ds)))). lia.
Qed.

Lemma get_loop_spec scheds length count q o t ds out heal r out' heal' :
  survivors ds → 0 ≤ o → (∀ D, Ds !! q = Some D → o ≤ zlen D) → t ≤ length →
  o + (length - t) ≤ zlen (concat (take count (drop q Ds))) →
  get_loop scheds healing count e parts length q o t ds ms out heal = Some (r, out', heal') →
  r = Ok () ∧ out' = out ++ slice (concat (drop q Ds)) o (length - t).
Proof.
  revert q o t ds out heal. induction count as [|count IH]; intros q o t ds out heal Hds Ho HoD Ht Hle; cbn [get_loop].
  { change (zlen (concat (take 0 (drop q Ds)))) with 0 in Hle. intros [= <- <- <-]. replace (length - t) with 0 by lia. by rewrite app_nil_r. }
  destruct (Z.eqb_spec length t) as [->|Hne]. { intros [= <- <- <-]. by rewrite Z.sub_diag, app_nil_r. }
  destruct (part_here count q o (length - t)) as (p & D & Hp & HD & Hd); [lia|lia|done|]. rewrite Hp. specialize (HoD D HD).
  pose proof (part_size q p D Hp HD) as Hs. cbv zeta. rewrite part_length by lia. set (pl := Z.min (part_Size p - o) (length - t)) in *.
  intros ([[r1 w] rs] & Hdec & Hres)%bind_Some.
  apply (part_decoded ds q p D o pl Hds Hp HD) in Hdec as ((de & -> & Hsoft) & -> & Hds'); [|lia..].
  assert (zlen (slice D o pl) = pl) as Hw by (apply zlen_slice; lia). rewrite Hw, Z.eqb_refl in Hres.
  rewrite Hd. cbn [concat]. rewrite slice_first by lia. rewrite <- Hs. fold pl. rewrite app_assoc.
  rewrite <- (Z.sub_add_distr length t pl).
  destruct Hsoft as [->|[->| ->]]; cbn in Hres; eapply IH in Hres; try done; try lia; try (intros; apply zlen_nonneg);
    rewrite Z.sub_add_distr; subst pl; rewrite Hs; apply (rest_fits count q D); (done || lia).
Qed.

Lemma get_loop_ext scheds scheds' length count q o t ds out heal :
  (∀ k, (q ≤ k)%nat → scheds k = scheds' k) →
  get_loop scheds healing count e parts length q o t ds ms out heal = get_loop scheds' healing count e parts length q o t ds ms out heal.
Proof.
  revert q o t ds out heal. induction count as [|count IH]; intros q o t ds out heal Heq; [done|]. cbn [get_loop].
  rewrite (Heq q) by lia. destruct (length =? t); [done|]. destruct (parts !! q); [|done].
  destruct (Decode _ _ _ _ _ _ _) as [[[r w] rs]|]; [|done]. cbn [mbind option_bind]. destruct r as [de| |]; [|done|done].
  case_if; [done|]. apply IH. intros k Hk. apply Heq. lia.
Qed.

Lemma get_loop_ends length count q o t ds out heal :
  survivors ds → 0 ≤ o → (∀ D, Ds !! q = Some D → o ≤ zlen D) → t ≤ length →
  o + (length - t) ≤ zlen (concat (take count (drop q Ds))) →
  ∃ scheds, is_Some (get_loop scheds healing count e parts length q o t ds ms out heal).
Proof.
  revert q o t ds out heal. induction count as [|count IH]; intros q o t ds out heal Hds Ho HoD Ht Hle.
  { exists (λ _ _, []). by eexists. }
  destruct (Z.eqb_spec length t) as [->|Hne]. { exists (λ _ _, []). cbn [get_loop]. rewrite Z.eqb_refl. by eexists. }
  destruct (part_here count q o (length - t)) as (p & D & Hp & HD & Hd); [lia|lia|done|]. specialize (HoD D HD).
  pose proof (part_size q p D Hp HD) as Hs. set (pl := Z.min (part_Size p - o) (length - t)).
  destruct (part_decode_ends ds q p D o pl Hds Hp HD) as (sched & [[r1 w] rs] & Hdec); [lia..|].
  pose proof Hdec as Hspec. apply (part_decoded ds q p D o pl Hds Hp HD) in Hspec as ((de & -> & Hsoft) & -> & Hds'); [|lia..].
  assert (zlen (slice D o pl) = pl) as Hw by (apply zlen_slice; lia).
  assert (∃ heal1 scheds, is_Some (get_loop scheds healing count e parts length (S q) 0 (t + pl)
     (imap (λ i od, match rs !! i with Some None => None | _ => od end) ds) ms (out ++ slice D o pl) heal1) ∧
     get_loop (λ k, if (k =? q)%nat then sched else scheds k) healing (S count) e parts length q o t ds ms out heal =
     get_loop scheds healing count e parts length (S q) 0 (t + pl)
     (imap (λ i od, match rs !! i with Some None => None | _ => od end) ds) ms (out ++ slice D o pl) heal1) as (heal1 & scheds & Hsome & Heq).
  2: { eexists. by rewrite Heq. }
  set (heal1 := match de ≫= scan_of, heal with Some scan, None => Some (if healing then None else Some scan) | _, _ => heal end).
  destruct (IH (S q) 0 (t + pl) (imap (λ i od, match rs !! i with Some None => None | _ => od end) ds) (out ++ slice D o pl) heal1)
    as [scheds Hsome]; [done|done|intros; apply zlen_nonneg|lia| |].
  { rewrite Z.sub_add_distr. unfold pl. rewrite Hs. apply (rest_fits count q D); (done || lia). }
  exists heal1, scheds. split; [done|]. cbn [get_loop]. rewrite (proj2 (Z.eqb_neq length t)), Hp by done. cbv zeta. rewrite part_length by lia. fold pl.
  rewrite Nat.eqb_refl, Hdec. cbn [mbind option_bind]. rewrite Hw, Z.eqb_refl.
  assert ((match de with None => false | Some _ => bool_decide (de ≫= scan_of = None) end) = false) as -> by (destruct Hsoft as [->|[->| ->]]; done).
  unfold heal1. apply get_loop_ext. intros k Hk. by rewrite (proj2 (Nat.eqb_neq k q)) by lia.
Qed.

End Get.

(** ** Reading an object *)

Section Object.
Context `{BitrotHash} `{ReedSolomon} (e : Erasure) (fi : FileInfo) (disks : list (option get_drive)) (metas : list FileInfo) (Ds : list bytes).

Let dist := ei_Distribution (fi_Erasure fi).

(** Every drive with valid metadata has, for every part, a file whose hashes are those of its shards. *)
Definition parts_stored : Prop := ∀ i dr m b q p D,
  disks !! i = Some (Some dr) → metas !! i = Some m → IsValid m = true → dist !! i = Some b → fi_Parts fi !! q = Some p → Ds !! q = Some D →
  ck_Algorithm (GetChecksumInfo (ei_Checksums (fi_Erasure m)) (part_Number p)) = HighwayHash256S ∧
  ∃ f, drive_ok e D (Z.to_nat (b - 1)) (mkDrive f (fi_Data m) (gd_ReadFileStream dr (part_Number p))).

(** Drive [i] has metadata that fits the object and gives its shard of every part. *)
Definition parts_healthy (i : nat) : Prop :=
  ∃ dr m b, disks !! i = Some (Some dr) ∧ metas !! i = Some m ∧ dist !! i = Some b ∧ usable fi m b ∧
  ∀ q p D, fi_Parts fi !! q = Some p → Ds !! q = Some D →
    ∃ f, drive_healthy e D (Z.to_nat (b - 1)) (mkDrive f (fi_Data m) (gd_ReadFileStream dr (part_Number p))).

Definition same_locality : Prop :=
  (∀ i dr, disks !! i = Some (Some dr) → gd_Hostname dr = ""%string) ∨ (∀ i dr, disks !! i = Some (Some dr) → gd_Hostname dr ≠ ""%string).

(** The place of a drive. *)
Definition place_of (i : nat) : nat := Z.to_nat (default 1 (dist !! i) - 1).

End Object.

Section Whole.
Context (e : Erasure) `{ReedSolomonLaws (dataBlocks e) (parityBlocks e)} `{BitrotHashLaws}.
Context (fi : FileInfo) (metaArr : list FileInfo) (onlineDisks : list (option get_drive)) (Ds : list bytes) (gs : list nat) (healing : bool).

Let n := Z.to_nat (dataBlocks e + parityBlocks e).
Let dist := ei_Distribution (fi_Erasure fi).

Hypothesis Hdist : distribution_ok n dist.
Hypothesis Hdisks : length onlineDisks = n.
Hypothesis Hmetas : length metaArr = n.
Hypothesis Hstored : parts_stored e fi onlineDisks metaArr Ds.
Hypothesis Hgs : NoDup gs ∧ dataBlocks e ≤ zlen gs.
Hypothesis Hhealthy : ∀ i, i ∈ gs → parts_healthy e fi onlineDisks metaArr Ds i.
Hypothesis Hlocal : same_locality onlineDisks.

Lemma places_differ : NoDup (place_of fi <$> gs).
Proof.
  apply NoDup_fmap_2_strong; [|apply Hgs]. intros i j Hi Hj. unfold place_of. fold dist.
  destruct (Hhealthy i Hi) as (_ & _ & b & _ & _ & Hb & _). destruct (Hhealthy j Hj) as (_ & _ & c & _ & _ & Hc & _).
  fold dist in Hb, Hc. rewrite Hb, Hc. cbn. destruct Hdist as (_ & Hnd & Hr). rewrite Forall_lookup in Hr.
  pose proof (Hr _ _ Hb). pose proof (Hr _ _ Hc). cbn in *. intros E. assert (b = c) as -> by lia. by eapply (proj1 (NoDup_alt dist)).
Qed.

(** The drives in their places are as the loop wants them. *)
Lemma shuffled_drives :
  ∃ ds ms, shuffleDisksAndPartsMetadataByIndex onlineDisks metaArr fi = Ok (ds, ms) ∧ length ds = n ∧
  (∀ k dr m q p D, ds !! k = Some (Some dr) → ms !! k = Some m → IsValid m = true → fi_Parts fi !! q = Some p → Ds !! q = Some D →
    ck_Algorithm (GetChecksumInfo (ei_Checksums (fi_Erasure m)) (part_Number p)) = HighwayHash256S ∧
    ∃ f, drive_ok e D k (mkDrive f (fi_Data m) (gd_ReadFileStream dr (part_Number p)))) ∧
  (∀ k, k ∈ place_of fi <$> gs → ∃ dr m, ds !! k = Some (Some dr) ∧ ms !! k = Some m ∧ IsValid m = true ∧
    ∀ q p D, fi_Parts fi !! q = Some p → Ds !! q = Some D → ∃ f, drive_healthy e D k (mkDrive f (fi_Data m) (gd_ReadFileStream dr (part_Number p)))) ∧
  same_locality ds.
Proof.
  destruct (by_index_total onlineDisks metaArr fi n Hdist Hdisks Hmetas) as (ds & ms & Hs & Hl & _ & Hplaced).
  pose proof (by_index_placed _ _ _ _ _ Hs) as Hp. exists ds, ms. split_and!; [done|done| | |].
  - intros k dr m q p D Hk Hm Hv Hq HD. destruct (Hp k dr Hk) as (i & m' & Hi & Hm' & Hk' & Hb). rewrite Hm in Hk'. injection Hk' as <-.
    destruct (Hstored i dr m _ q p D Hi Hm' Hv Hb Hq HD) as (Ha & f & Hf). split; [done|]. exists f.
    by replace (Z.to_nat (Z.of_nat k + 1 - 1)) with k in Hf by lia.
  - intros k (i & -> & Hi)%list_elem_of_fmap. destruct (Hhealthy i Hi) as (dr & m & b & Hd & Hm & Hb & Hu & Hh). exists dr, m.
    pose proof (lookup_lt_Some _ _ _ Hd) as Hlt. rewrite Hdisks in Hlt. destruct (Hplaced i dr m b Hlt Hd Hm Hb Hu) as [H1' H2'].
    unfold place_of. rewrite Hb. destruct Hu as (Hv & _). by split_and!.
  - destruct Hlocal as [Hl'|Hl']; [left|right]; intros k dr Hk; destruct (Hp k dr Hk) as (i & _ & Hi & _); by apply (Hl' i).
Qed.

End Whole.

Lemma get_unfold `{BitrotHash} `{ReedSolomon} e scheds healing startOffset length fi metaArr disks ds ms i o j o' :
  let len := if length <? 0 then fi_Size fi - startOffset else length in
  let last := if 0 <? len then startOffset + (len - 1) else startOffset in
  shuffleDisksAndPartsMetadataByIndex disks metaArr fi = Ok (ds, ms) →
  NewErasure (ei_DataBlocks (fi_Erasure fi)) (ei_ParityBlocks (fi_Erasure fi)) (ei_BlockSize (fi_Erasure fi)) = Ok e →
  0 ≤ startOffset → 0 ≤ len → startOffset + len ≤ fi_Size fi → fi_Size fi < 2 ^ 63 →
  ObjectToPartOffset (fi_Parts fi) startOffset = Ok (i, o) → ObjectToPartOffset (fi_Parts fi) last = Ok (j, o') →
  getObjectWithFileInfo scheds healing startOffset length fi metaArr disks =
  get_loop scheds healing (S j - i) e (fi_Parts fi) len i o 0 ds ms [] None.
Proof.
  intros len last Hs He Ho Hl Hin Hw Hi Hj. unfold getObjectWithFileInfo. rewrite Hs. cbv zeta.
  replace (if length <? 0 then wrap64 (fi_Size fi - startOffset) else length) with len by (unfold len; case_if; [int64; done|done]).
  int64. rewrite !(proj2 (Z.ltb_ge (fi_Size fi) _)) by lia. cbn [orb]. rewrite Hi.
  fold last. by rewrite Hj, He.
Qed.

Lemma get_refused `{BitrotHash} `{ReedSolomon} scheds healing startOffset length fi metaArr disks ds ms (Ds : list bytes) :
  let len := if length <? 0 then fi_Size fi - startOffset else length in
  shuffleDisksAndPartsMetadataByIndex disks metaArr fi = Ok (ds, ms) →
  Forall2 (λ p D, part_Size p = zlen D) (fi_Parts fi) Ds → fi_Size fi = zlen (concat Ds) → fi_Size fi < 2 ^ 63 →
  0 ≤ startOffset < 2 ^ 63 → startOffset + length < 2 ^ 63 →
  ¬ (0 ≤ len ∧ startOffset + len ≤ fi_Size fi ∧ (startOffset < fi_Size fi ∨ startOffset = 0)) →
  getObjectWithFileInfo scheds healing startOffset length fi metaArr disks = Some (Err InvalidRange, [], None).
Proof.
  intros len Hs Hparts Hsize Hw Hst Hfit Hr. unfold getObjectWithFileInfo. rewrite Hs. cbv zeta. pose proof (zlen_nonneg (concat Ds)) as H0'.
  replace (if length <? 0 then wrap64 (fi_Size fi - startOffset) else length) with len by (unfold len; case_if; [int64; done|done]).
  assert (startOffset + len < 2 ^ 63 ∧ - 2 ^ 63 < len ∧ (len < 0 → fi_Size fi < startOffset)) as (Hl & Hl' & Hneg).
  { unfold len. destruct (Z.ltb_spec length 0); lia. }
  int64. destruct (Z.ltb_spec (fi_Size fi) startOffset) as [|Hle]; [done|]. destruct (Z.ltb_spec (fi_Size fi) (startOffset + len)) as [|Hle']; [done|]. cbn [orb].
  assert (startOffset = fi_Size fi ∧ startOffset ≠ 0) as [-> Hne] by lia.
  unfold ObjectToPartOffset. rewrite (proj2 (Z.eqb_neq _ 0)) by done.
  pose proof (part_offset_spec (fi_Parts fi) (fi_Size fi) 0 (proj1 Hst) (sizes_nonneg fi Ds Hparts)) as Hp.
  destruct (part_offset 0 (fi_Parts fi) (fi_Size fi)) as [[i o]|err|]; [|done|done].
  destruct Hp as (k & p & _ & Hp & Hoff & Ho). exfalso.
  destruct (Forall2_lookup_l _ _ _ _ _ Hparts Hp) as (D & HD & HpD). rewrite Hsize, (concat_split Ds k), (drop_S Ds D k) in Hoff by done. cbn [concat] in Hoff.
  rewrite !zlen_app, (concat_zlen_take _ _ _ Hparts) in Hoff. pose proof (zlen_nonneg (concat (drop (S k) Ds))). lia.
Qed.

(** C2: reading an object gives its bytes: [getObjectWithFileInfo] of any range of an
    object of several parts writes exactly the bytes of the range, under every
    schedule of its goroutines that completes it, and some schedule does, whatever
    has happened to the files of some drives and whichever of them are offline or
    fail on the way, as long as as many drives as there are data blocks have the
    object's metadata in their place and give their shards of its parts. A range
    that is not in the object is refused and nothing is written. The range asked
    for starts at 0 or later and its end is below 2^63. Every file has the hashes
    that were written with it, what replaced a shard does not have its hash, no part
    is empty unless the object is, and all drives are local or none is. *)
Theorem get_object_reads e `{ReedSolomonLaws (dataBlocks e) (parityBlocks e)} `{BitrotHashLaws}
    fi metaArr disks Ds gs healing startOffset length :
  let n := Z.to_nat (dataBlocks e + parityBlocks e) in
  let len := if length <? 0 then fi_Size fi - startOffset else length in
  NewErasure (ei_DataBlocks (fi_Erasure fi)) (ei_ParityBlocks (fi_Erasure fi)) (ei_BlockSize (fi_Erasure fi)) = Ok e → 0 < ei_BlockSize (fi_Erasure fi) →
  distribution_ok n (ei_Distribution (fi_Erasure fi)) → List.length disks = n → List.length metaArr = n →
  Forall2 (λ p D, part_Size p = zlen D) (fi_Parts fi) Ds → fi_Size fi = zlen (concat Ds) → fi_Size fi < 2 ^ 63 →
  Forall (λ D, D ≠ []) Ds ∨ fi_Size fi = 0 →
  parts_stored e fi disks metaArr Ds → NoDup gs ∧ dataBlocks e ≤ zlen gs → (∀ i, i ∈ gs → parts_healthy e fi disks metaArr Ds i) → same_locality disks →
  0 ≤ startOffset < 2 ^ 63 → startOffset + length < 2 ^ 63 →
  if bool_decide (0 ≤ len ∧ startOffset + len ≤ fi_Size fi ∧ (startOffset < fi_Size fi ∨ startOffset = 0))
  then (∃ scheds, is_Some (getObjectWithFileInfo scheds healing startOffset length fi metaArr disks)) ∧
       ∀ scheds r out heal, getObjectWithFileInfo scheds healing startOffset length fi metaArr disks = Some (r, out, heal) →
         r = Ok () ∧ out = slice (concat Ds) startOffset len
  else ∀ scheds, getObjectWithFileInfo scheds healing startOffset length fi metaArr disks = Some (Err InvalidRange, [], None).
Proof.
  intros n len Hnew Hbs Hdist Hdisks Hmetas Hparts Hsize Hwidth Hfull Hstored Hgs Hhealthy Hlocal Hstart Hfit.
  destruct (shuffled_drives e fi metaArr disks Ds gs Hdist Hdisks Hmetas Hstored Hhealthy Hlocal) as (ds & ms & Hs & Hl & Hok & Hh & Hloc).
  pose proof (places_differ e fi metaArr disks Ds gs Hdist Hdisks Hmetas Hgs Hhealthy) as Hnd.
  pose proof (sizes_nonneg fi Ds Hparts) as Hnn. pose proof (NewErasure_ok _ _ _ _ Hnew) as (Hd & Hp & Hb & Hd0 & Hp0).
  rewrite <- Hb in Hbs. rewrite <- Hd in Hd0. rewrite <- Hp in Hp0. rewrite Hsize in Hwidth.
  assert (NoDup (place_of fi <$> gs) ∧ dataBlocks e ≤ zlen (place_of fi <$> gs)) as Hgs' by (unfold zlen in *; rewrite length_fmap; tauto).
  case_bool_decide as Hr.
  - destruct Hr as (Hl0 & Hin & Hst). destruct (Z.eq_dec len 0) as [E0|Hne].
    + assert (∃ i o, ObjectToPartOffset (fi_Parts fi) startOffset = Ok (i, o)) as (i & o & Hi).
      { destruct (Z.eq_dec startOffset 0) as [->|]; [by eexists _, _|].
        destruct (byte_part fi Ds Hparts Hsize Hfull startOffset) as (i & o & _ & Hi & _); [lia|]. by exists i, o. }
      assert (∀ scheds, getObjectWithFileInfo scheds healing startOffset length fi metaArr disks = Some (Ok (), [], None)) as Hget.
      { intros scheds. erewrite get_unfold; try done; fold len; try lia; [|by rewrite E0].
        replace (S i - i)%nat with 1%nat by lia. cbn [get_loop]. by rewrite E0. }
      rewrite E0. split; [exists (λ _ _, []); by rewrite Hget|]. intros scheds r out heal. rewrite Hget. by intros [= <- <- <-].
    + destruct (byte_part fi Ds Hparts Hsize Hfull startOffset) as (i & o & D & Hi & HD & Ho & Hso); [lia|].
      destruct (byte_part fi Ds Hparts Hsize Hfull (startOffset + (len - 1))) as (j & o' & D' & Hj & HD' & Ho' & Hso'); [lia|].
      destruct (range_parts Ds startOffset len i o j o' D D') as [Hfits Hslice]; [lia|done|done|lia|lia|done|done|].
      pose proof (survivors_refl e ds (place_of fi <$> gs) Hl) as Hsv.
      assert (∀ scheds, getObjectWithFileInfo scheds healing startOffset length fi metaArr disks =
        get_loop scheds healing (S j - i) e (fi_Parts fi) len i o 0 ds ms [] None) as Hget.
      { intros scheds. eapply get_unfold; try done; fold len; try lia. by rewrite (proj2 (Z.ltb_lt 0 len)) by lia. }
      split.
      * destruct (get_loop_ends e Hd0 Hp0 Hbs (fi_Parts fi) Ds healing Hparts Hwidth ds ms _ Hl Hok Hgs' Hh Hloc len (S j - i) i o 0 ds [] None)
          as [scheds Hsome]; try done; try lia; [intros; simplify_eq; lia|]. exists scheds. by rewrite Hget.
      * intros scheds r out heal. rewrite Hget. rewrite <- Hslice.
        intros Hr. eapply (get_loop_spec e Hd0 Hp0 Hbs (fi_Parts fi) Ds healing Hparts Hwidth ds ms _ Hl Hok Hgs' Hh Hloc) in Hr; try done; try lia. intros; simplify_eq; lia.
  - intros scheds. rewrite <- Hsize in Hwidth. apply (get_refused scheds healing startOffset length fi metaArr disks ds ms Ds); done.
Qed.

(** *** Witness *)

(** An object of two parts on three drives; the drive of the first data shard has a byte of part 1 changed. *)
Definition demo_parts : list ObjectPartInfo := [mkPart "a" 1 9 9; mkPart "b" 2 9 9].
Definition demo_object (index : Z) : FileInfo :=
  mkFI "" "" "" false false "" "" "" "" false "" false 5 18 ∅ demo_parts
    (mkEI 2 1 4 index [2; 3; 1] [mkChecksum 1 HighwayHash256S []; mkChecksum 2 HighwayHash256S []]) false ReplicationState_zero [] 0 0 0.
Definition demo_metas : list FileInfo := [demo_object 2; demo_object 3; demo_object 1].

Definition demo_disk_file (k : nat) (N : Z) : bytes :=
  if (k =? 0)%nat && (N =? 1) then <[3%nat := Byte.x00]> (demo_file 0) else demo_file k.
Definition demo_disk (k : nat) : get_drive :=
  mkGD "" (λ N off len, Ok (mkStream (slice (demo_disk_file k N) off len) EOF)) (λ _ _ _, ([], Some errFileNotFound)).
Definition demo_disks : list (option get_drive) := [Some (demo_disk 1); Some (demo_disk 2); Some (demo_disk 0)].

Lemma demo_part_lookup q p D : demo_parts !! q = Some p → [demo_data; demo_data] !! q = Some D → D = demo_data ∧ (part_Number p = 1 ∨ part_Number p = 2).
Proof. destruct q as [|[|q]]; cbn; intros [= <-] [= <-]; auto. Qed.

Lemma demo_stored_parts : parts_stored demo_code (demo_object 0) demo_disks demo_metas [demo_data; demo_data].
Proof.
  intros i dr m b q p D Hd Hm _ Hb Hp HD. destruct (demo_part_lookup q p D Hp HD) as [-> HN].
  destruct i as [|[|[|i]]]; try done; injection Hd as <-; injection Hm as <-; injection Hb as <-.
  all: destruct HN as [-> | ->]; (split; [done|eexists; apply drive_check_ok; vm_compute; reflexivity]).
Qed.

Lemma get_object_reads_witness :
  (∃ scheds, is_Some (getObjectWithFileInfo scheds false 7 6 (demo_object 0) demo_metas demo_disks)) ∧
  ∀ scheds r out heal, getObjectWithFileInfo scheds false 7 6 (demo_object 0) demo_metas demo_disks = Some (r, out, heal) →
    r = Ok () ∧ out = slice (demo_data ++ demo_data) 7 6.
Proof.
  apply (get_object_reads demo_code (demo_object 0) demo_metas demo_disks [demo_data; demo_data] [0%nat; 1%nat] false 7 6); try done.
  - split_and!; [done|by apply (bool_decide_unpack _)|by repeat constructor].
  - by repeat constructor.
  - left. by repeat constructor.
  - apply demo_stored_parts.
  - split; [by apply (bool_decide_unpack _)|done].
  - intros i Hi. apply elem_of_cons in Hi as [->|Hi%list_elem_of_singleton]; [|subst i].
    all: eexists _, _, _; do 3 (split; [done|]); split; [by vm_compute|]; intros q p D Hp HD; destruct (demo_part_lookup q p D Hp HD) as [-> _].
    all: eexists; split; [done|]; left; split; [done|]; by intros off len.
  - left. intros [|[|[|i]]] dr Hd; try done; by injection Hd as <-.
Defined.
