(* ===== verification/Healing.v ===== *)
(** * Healing an object: which drives, from what (cmd/erasure-healing.go, cmd/erasure-healing-common.go)

    The metadata and the data of an object are checked on every drive. The drives that have both are read, the ones that
    lack something are written again; an object of which too much is lost is removed. *)

From Stdlib Require Import ZArith Lia Bool.
From S2P Require Import Prelude GoStrings GoTime Replication Restore ErasureErrs Erasure ErasureRead ErasureStore Bitrot BitrotStore StorageClass ErasureMeta ErasureGet.

Local Open Scope go_scope.
Local Open Scope Z_scope.

(** ** Comparing metadata (erasure-metadata.go, storage-datatypes.go) *)

Definition MetadataEquals (fi ofi : FileInfo) : bool :=
  bool_decide (size (fi_Metadata fi) = size (fi_Metadata ofi)) && bool_decide (map_Forall (λ k v, fi_Metadata ofi !! k = Some v) (fi_Metadata fi)).

Definition ReplicationInfoEquals (fi ofi : FileInfo) : bool :=
  eqb (fi_MarkDeleted fi) (fi_MarkDeleted ofi) && rs_Equal (fi_ReplicationState fi) (fi_ReplicationState ofi).

Definition TransitionInfoEquals (fi ofi : FileInfo) : bool :=
  String.eqb (fi_TransitionStatus fi) (fi_TransitionStatus ofi) && String.eqb (fi_TransitionTier fi) (fi_TransitionTier ofi) &&
  String.eqb (fi_TransitionedObjName fi) (fi_TransitionedObjName ofi) && String.eqb (fi_TransitionVersionID fi) (fi_TransitionVersionID ofi).

Definition fi_Equals (fi ofi : FileInfo) : bool :=
  MetadataEquals fi ofi && ReplicationInfoEquals fi ofi && TransitionInfoEquals fi ofi && (fi_ModTime fi =? fi_ModTime ofi).

Definition fi_IsRemote (now : Z) (fi : FileInfo) : bool := IsRemote now (fi_TransitionStatus fi) (fi_Metadata fi).

(** The difference of two times is a [time.Duration], which saturates. *)
Definition time_sub (t u : Z) : Z := Z.max min_int64 (Z.min max_int64 (t - u)).

Definition AcceptableDelta (fi : FileInfo) (maxTime delta : Z) : bool :=
  let diff := time_sub maxTime (fi_DiskMTime fi) in
  let diff := if diff <? 0 then wrap64 (- diff) else diff in
  diff <? delta.

Definition DataShardFixed (fi : FileInfo) : bool := String.eqb (meta_str (fi_Metadata fi) "x-minio-internal-data-shard-fix") "true".

Definition listObjectDiskMtimes (partsMetadata : list FileInfo) : list Z :=
  (λ m, if IsValid m then fi_DiskMTime m else timeSentinel) <$> partsMetadata.

Definition pickValidDiskTimeWithQuorum walk (delta : Z) (metaArr : list FileInfo) (quorum : Z) : Z :=
  let '(diskMTime, diskMaxima) := commonTimeAndOccurence walk (listObjectDiskMtimes metaArr) delta in
  if quorum <=? diskMaxima then diskMTime else timeSentinel.

(** The time the drives agree on, for objects whose shards were not repaired by a later release; the zero time for the others. *)
Definition common_disk_time walk (delta : Z) (ms : list drive_meta) (latest : FileInfo) : Z :=
  if DataShardFixed latest then 0 else pickValidDiskTimeWithQuorum walk delta ms.*1 (ei_DataBlocks (fi_Erasure latest)).

(** ** Drives *)

(** A drive: what the checks of its files answer, and how it is read. *)
Record heal_drive := mkHD {
  hd_VerifyFile : FileInfo → option derr;
  hd_CheckParts : FileInfo → option derr;
  hd_get : get_drive;
}.

Definition erasure_of (ei : ErasureInfo) : Erasure := mkErasure (ei_DataBlocks ei) (ei_ParityBlocks ei) (ei_BlockSize ei).

(** The files of the parts, as the scan mode asks; without a scan mode ([HealOpts] that set none) nothing is looked at. *)
Definition scan_files (scan : HealScanMode) (d : heal_drive) (meta : FileInfo) : option derr :=
  match scan with HealDeepScan => hd_VerifyFile d meta | HealNormalScan => hd_CheckParts d meta | HealUnknownScan => None end.

(** The number of the drive is not the one its metadata has for it; [n] is the number of drives. *)
Definition wrong_index (n : Z) (i : nat) (m : FileInfo) : bool :=
  let ei := fi_Erasure m in
  negb (fi_Deleted m) && (negb (zlen (ei_Distribution ei) =? n) || negb (default 0 (ei_Distribution ei !! i) =? ei_Index ei)).

(** What the check of a drive finds: whether its data is available, the error, the metadata that is kept, and whether it was skipped for its time. *)
Record drive_report := mkDC { dc_available : bool; dc_err : option derr; dc_meta : FileInfo; dc_shardFix : bool }.

Section Check.
Context `{BitrotHash}.

(** The hash of data that is kept with the metadata. *)
Definition inline_check (meta : FileInfo) (part : ObjectPartInfo) : outcome derr drive_report :=
  let ei := fi_Erasure meta in
  let checksumInfo := GetChecksumInfo (ei_Checksums ei) (part_Number part) in
  match bitrotVerify (mkStream (fi_Data meta) EOF) (zlen (fi_Data meta)) (ShardFileSize (erasure_of ei) (fi_Size meta)) (ck_Algorithm checksumInfo) (ck_Hash checksumInfo)
          (ShardSize (erasure_of ei)) with
  | Ok _ => Ok (mkDC true None meta false)
  | Err e => Ok (mkDC false (Some e) FileInfo_zero false)
  | Panic w => Panic w
  end.

(** One iteration of the loop of [disksWithAllParts]. *)
Definition check_drive (now delta : Z) (scan : HealScanMode) (latest : FileInfo) (reliable : bool) (diskMTime n : Z) (i : nat) (od : option heal_drive) (dm : drive_meta)
    : outcome derr drive_report :=
  let '(meta, err) := dm in
  match err, od with
  | Some e, _ => Ok (mkDC false (Some e) meta false)
  | None, None => Ok (mkDC false (Some errDiskNotFound) meta false)
  | None, Some d =>
      if negb (fi_ModTime meta =? fi_ModTime latest) || negb (String.eqb (fi_DataDir meta) (fi_DataDir latest))
      then Ok (mkDC false (Some errFileCorrupt) FileInfo_zero false)
      else if reliable && (negb (IsValid meta) || wrong_index n i meta) then Ok (mkDC false (Some errFileCorrupt) FileInfo_zero false)
      else if negb (diskMTime =? timeSentinel) && negb (diskMTime =? 0) && negb (AcceptableDelta meta diskMTime delta)
      then Ok (mkDC false (Some errFileCorrupt) FileInfo_zero true)
      else match fi_Parts meta, (0 <? zlen (fi_Data meta)) || (fi_Size meta =? 0) with
      | part :: _, true => inline_check meta part
      | _, _ =>
          let dataErr :=
            if negb (fi_Deleted meta) && negb (fi_IsRemote now meta)
            then scan_files scan d meta
            else None in
          match dataErr with
          | None => Ok (mkDC true None meta false)
          | Some e => Ok (mkDC false (Some e) FileInfo_zero false)
          end
      end
  end.

(** All outcomes, or the first one that is a panic. *)
Fixpoint all_checks (l : list (outcome derr drive_report)) : outcome derr (list drive_report) :=
  match l with
  | [] => Ok []
  | c :: l => c ←? c; l ←? all_checks l; Ok (c :: l)
  end.

(** The checks of the drives, and the time of the drives if one was skipped for it. *)
Definition disksWithAllParts walk (now delta : Z) (scan : HealScanMode) (onlineDisks : list (option heal_drive)) (ms : list drive_meta) (latest : FileInfo)
    : outcome derr (list drive_report * Z) :=
  let diskMTime := common_disk_time walk delta ms latest in
  let n := zlen onlineDisks in
  let inconsistent := zlen (List.filter id (imap (λ i m, IsValid m && wrong_index n i m) ms.*1)) in
  let reliable := inconsistent <=? zlen ms `quot` 2 in
  cs ←? all_checks (imap (λ i '(od, dm), check_drive now delta scan latest reliable diskMTime n i od dm) (zip onlineDisks ms));
  Ok (cs, if existsb dc_shardFix cs then diskMTime else timeSentinel).

End Check.

(** ** Decisions *)

Definition lost_err (err : option derr) : bool :=
  match err with Some errFileNotFound | Some errFileVersionNotFound | Some errFileCorrupt => true | _ => false end.

Definition shouldHealObjectOnDisk (now : Z) (erErr dataErr : option derr) (meta latestMeta : FileInfo) : bool :=
  if lost_err erErr then true
  else match erErr with
  | Some _ => false
  | None =>
      if fi_XLV1 meta then true
      else if negb (fi_Deleted meta) && negb (fi_IsRemote now meta) && lost_err dataErr then true
      else negb (fi_Equals latestMeta meta)
  end.

Definition not_found (err : option derr) : bool :=
  match err with Some errFileNotFound | Some errVolumeNotFound | Some errFileVersionNotFound => true | _ => false end.

Definition isAllNotFound (errs : list (option derr)) : bool := forallb not_found errs && negb (length errs =? 0)%nat.

Definition isObjectDirDangling (errs : list (option derr)) : bool :=
  let missing err := match err with Some errFileNotFound | Some errVolumeNotFound => true | _ => false end in
  let notFound := zlen (List.filter missing errs) in
  let found := zlen (List.filter (λ err, negb (missing err)) errs) in
  (found <? notFound) && (0 <? found).

(** Files that were not found and files that are corrupted. *)
Definition danglingErrsCount (errs : list (option derr)) : Z * Z :=
  (zlen (List.filter (λ e, match e with Some errFileNotFound | Some errFileVersionNotFound => true | _ => false end) errs),
   zlen (List.filter (λ e, bool_decide (e = Some errFileCorrupt)) errs)).

(** [errs[i]] for an index of [dataErrs]; out of range it would panic. *)
Definition isObjectDangling (now : Z) (metaArr : list FileInfo) (errs dataErrs : list (option derr)) : FileInfo * bool :=
  let ndataErrs := imap (λ i e, if bool_decide (errs !! i = Some e) then None else e) dataErrs in
  let '(notFoundMetaErrs, corruptedMetaErrs) := danglingErrsCount errs in
  let '(notFoundPartsErrs, corruptedPartsErrs) := danglingErrsCount ndataErrs in
  match List.find IsValid metaArr with
  | None => (FileInfo_zero, false)
  | Some validMeta =>
      if fi_Deleted validMeta then (validMeta, zlen errs `quot` 2 <? corruptedMetaErrs + notFoundMetaErrs)
      else
        let totalErrs := notFoundMetaErrs + corruptedMetaErrs + notFoundPartsErrs + corruptedPartsErrs in
        let totalErrs := if fi_IsRemote now validMeta then notFoundMetaErrs + corruptedMetaErrs else totalErrs in
        (validMeta, ei_ParityBlocks (fi_Erasure validMeta) <? totalErrs)
  end.

(** What [healObject] goes on to do: nothing is left; the object is dangling or not, and is removed if it is and the caller asked for it; an error; all is well;
    the drives to read, the drives to write, and the metadata. *)
Inductive heal_action :=
  | HealGone
  | HealPurge (m : FileInfo) (dangling : bool)
  | HealFailed (err : derr)
  | HealNothing
  | HealRepair (latest : FileInfo) (available outdated : list (option heal_drive)) (metas : list FileInfo).

Section Plan.
Context `{BitrotHash}.
Context (ewalk : list (option derr * Z) → list (option derr * Z)) (walk : list (Z * Z) → list (Z * Z)) (hwalk : list (string * Z) → list (string * Z)).
Context (sha256 : string → string) (sCfg : Config) (defaultParityCount now delta : Z).

Definition heal_plan (scan : HealScanMode) (storageDisks : list (option heal_drive)) (ms : list drive_meta) : outcome derr heal_action :=
  let errs := ms.*2 in
  if isAllNotFound errs then Ok HealGone
  else match objectQuorumFromMeta ewalk walk sCfg ms defaultParityCount with
  | Panic w => Panic w
  | Err _ => let '(m, ok) := isObjectDangling now ms.*1 errs [] in Ok (HealPurge m ok)
  | Ok (readQuorum, _) =>
      let '(onlineDisks, modTime) := listOnlineDisks walk storageDisks ms in
      match findFileInfoInQuorum sha256 hwalk ms.*1 modTime readQuorum with
      | Panic w => Panic w
      | Err e => Ok (HealFailed e)
      | Ok latest =>
          '(cs, _) ←? disksWithAllParts walk now delta scan onlineDisks ms latest;
          let available := zip_with (λ c od, if dc_available c then od else None) cs onlineDisks in
          let heals := zip_with (λ c err, shouldHealObjectOnDisk now err (dc_err c) (dc_meta c) latest) cs errs in
          let outdated := zip_with (λ (h : bool) od, if h then od else None) heals storageDisks in
          if zlen (List.filter dc_available cs) <? readQuorum
          then let '(m, ok) := isObjectDangling now (dc_meta <$> cs) errs (dc_err <$> cs) in Ok (HealPurge m ok)
          else if negb (existsb id heals) then Ok HealNothing
          else Ok (HealRepair latest available outdated (dc_meta <$> cs))
      end
  end.

End Plan.

(** ** What is read *)

(** [Data] stays. *)
Definition cleanFileInfo (now : Z) (fi : FileInfo) : FileInfo :=
  if fi_IsRemote now fi then fi
  else
    let ei := fi_Erasure fi in
    mkFI (fi_Volume fi) (fi_Name fi) (fi_VersionID fi) (fi_IsLatest fi) (fi_Deleted fi) (fi_TransitionStatus fi) (fi_TransitionedObjName fi) (fi_TransitionTier fi)
      (fi_TransitionVersionID fi) (fi_ExpireRestored fi) (fi_DataDir fi) (fi_XLV1 fi) (fi_ModTime fi) (fi_Size fi) (fi_Metadata fi) (fi_Parts fi)
      (mkEI (ei_DataBlocks ei) (ei_ParityBlocks ei) (ei_BlockSize ei) 0 (ei_Distribution ei) []) (fi_MarkDeleted fi) (fi_ReplicationState fi) (fi_Data fi)
      (fi_NumVersions fi) (fi_SuccessorModTime fi) (fi_DiskMTime fi).

(** The metadata of the drives that are written is the latest one, cleaned. *)
Definition heal_metas (now : Z) (latest : FileInfo) (outdated : list (option heal_drive)) (metas : list FileInfo) : list FileInfo :=
  zip_with (λ (od : option heal_drive) m, match od with Some _ => cleanFileInfo now latest | None => m end) outdated metas.

(** [nil] for a slice that was never set. *)
Definition distribution_of (fi : FileInfo) : option (list Z) :=
  match ei_Distribution (fi_Erasure fi) with [] => None | d => Some d end.

Section Sources.
Context `{BitrotHash}.

(** The readers for a part; [ms] is the metadata in the order of the shards. *)
Definition heal_readers (e : Erasure) (latest : FileInfo) (latestDisks : list (option heal_drive)) (ms : list FileInfo) (part : ObjectPartInfo) : list (option reader) :=
  let tillOffset := ShardFileOffset e 0 (part_Size part) (part_Size part) in
  let checksumAlgo := ck_Algorithm (GetChecksumInfo (ei_Checksums (fi_Erasure latest)) (part_Number part)) in
  imap (λ i (od : option heal_drive), match od, ms !! i with
                | Some d, Some m => Some (newBitrotReader (hd_get d) (fi_Data m) (part_Number part) tillOffset checksumAlgo (ShardSize e) 0)
                | _, _ => None
                end) latestDisks.

(** A new file on every drive. *)
Definition new_writers (ds : list (option heal_drive)) : list (option bytes) :=
  map (λ od : option heal_drive, match od with Some _ => Some [] | None => None end) ds.

(** The readers and the writers of a part, in the order of the shards. *)
Definition heal_sources (now : Z) (latest : FileInfo) (available outdated : list (option heal_drive)) (metas : list FileInfo) (part : ObjectPartInfo)
    : outcome derr (Erasure * list (option reader) * list (option bytes)) :=
  latestDisks ←? shuffleDisks available (distribution_of latest);
  outDatedDisks ←? shuffleDisks outdated (distribution_of latest);
  ms ←? shufflePartsMetadata (heal_metas now latest outdated metas) (distribution_of latest);
  e ←? NewErasure (ei_DataBlocks (fi_Erasure latest)) (ei_ParityBlocks (fi_Erasure latest)) (ei_BlockSize (fi_Erasure latest));
  Ok (e, heal_readers e latest latestDisks ms part, new_writers outDatedDisks).

End Sources.

(** ** Counting losses *)

Lemma filter_zlen_cons {A} (f : A → bool) x l : zlen (List.filter f (x :: l)) = (if f x then 1 else 0) + zlen (List.filter f l).
Proof. cbn. destruct (f x); [rewrite zlen_cons; lia|lia]. Qed.




Lemma filter_complement {A} (f : A → bool) l : zlen (List.filter f l) + zlen (List.filter (λ x, negb (f x)) l) = zlen l.
Proof. induction l as [|x l IH]; [done|]. rewrite !filter_zlen_cons, zlen_cons. destruct (f x); cbn [negb]; lia. Qed.


Section Checks.
Context `{BitrotHash}.

Lemma all_checks_ok l cs : all_checks l = Ok cs → length cs = length l ∧ ∀ i o, l !! i = Some o → ∃ c, o = Ok c ∧ cs !! i = Some c.
Proof.
  revert cs. induction l as [|o l IH]; intros cs; cbn [all_checks]; [by intros [= <-]|]. intros (c & -> & (l' & Hl & Hr)%obind_ok)%obind_ok. injection Hr as <-.
  destruct (IH _ Hl) as [Hlen Hall]. split; [cbn; by f_equal|]. intros [|i] x Hx; [by injection Hx as <-; exists c|]. by apply Hall.
Qed.


Lemma checks_ok walk now delta scan disks ms latest cs t :
  disksWithAllParts walk now delta scan disks ms latest = Ok (cs, t) → length disks = length ms →
  ∃ reliable, length cs = length ms ∧
    ∀ i od dm, disks !! i = Some od → ms !! i = Some dm → ∃ c, cs !! i = Some c ∧ check_drive now delta scan latest reliable (common_disk_time walk delta ms latest) (zlen disks) i od dm = Ok c.
Proof.
  unfold disksWithAllParts. intros (cs' & Hall & Hr)%obind_ok Hl. injection Hr as <- _. apply all_checks_ok in Hall as [Hlen Hall]. rewrite length_imap, length_zip_with in Hlen.
  eexists. split; [lia|]. intros i od dm Hod Hdm. edestruct (Hall i) as (c & Hc & Hi).
  - rewrite list_lookup_imap. assert (zip disks ms !! i = Some (od, dm)) as -> by (apply lookup_zip_Some; done). done.
  - exists c. split; [done|exact Hc].
Qed.

(** Every result is the one of a drive. *)
Lemma checks_at walk now delta scan disks ms latest cs t :
  disksWithAllParts walk now delta scan disks ms latest = Ok (cs, t) → length disks = length ms →
  length cs = length ms ∧ ∃ reliable, ∀ i c, cs !! i = Some c →
    ∃ m err od, ms !! i = Some (m, err) ∧ disks !! i = Some od ∧ check_drive now delta scan latest reliable (common_disk_time walk delta ms latest) (zlen disks) i od (m, err) = Ok c.
Proof.
  intros Hd Hl. destruct (checks_ok _ _ _ _ _ _ _ _ _ Hd Hl) as (rel & Hlen & Hc). split; [done|]. exists rel. intros i c Hi.
  destruct (lookup_lt_is_Some_2 ms i) as [[m err] Hm]; [rewrite <- Hlen; by eapply lookup_lt_Some|]. destruct (lookup_lt_is_Some_2 disks i) as [od Hod]; [rewrite Hl; by eapply lookup_lt_Some|].
  destruct (Hc i od _ Hod Hm) as (c' & Hci & Hcheck). rewrite Hi in Hci. injection Hci as <-. by exists m, err, od.
Qed.


End Checks.

Section PlanProofs.
Context `{BitrotHash}.
Context (ewalk : list (option derr * Z) → list (option derr * Z)) (walk : list (Z * Z) → list (Z * Z)) (hwalk : list (string * Z) → list (string * Z)).
Context (sha256 : string → string) (sCfg : Config) (defaultParityCount now delta : Z).

Abbreviation plan := (heal_plan ewalk walk hwalk sha256 sCfg defaultParityCount now delta).

Lemma online_length (disks : list (option heal_drive)) ms ds t : listOnlineDisks walk disks ms = (ds, t) → length ds = length ms.
Proof. unfold listOnlineDisks. intros [= <- _]. by rewrite length_imap. Qed.

Lemma online_drive (disks : list (option heal_drive)) ms online t i d : listOnlineDisks walk disks ms = (online, t) → online !! i = Some (Some d) → disks !! i = Some (Some d).
Proof.
  unfold listOnlineDisks. intros [= <- <-]. rewrite list_lookup_imap. destruct (ms !! i); [|done]. cbn [fmap option_fmap option_map]. destruct (_ && _); [|done].
  intros [= Hd]. by destruct (disks !! i) as [[]|]; cbn in Hd; simplify_eq.
Qed.

(** What the check of a drive whose data is available has found. *)
Definition data_checked (scan : HealScanMode) (latest : FileInfo) (d : heal_drive) (m : FileInfo) : Prop :=
  fi_ModTime m = fi_ModTime latest ∧ fi_DataDir m = fi_DataDir latest ∧
  match fi_Parts m, (0 <? zlen (fi_Data m)) || (fi_Size m =? 0) with
  | part :: _, true =>
      let ei := fi_Erasure m in
      let ck := GetChecksumInfo (ei_Checksums ei) (part_Number part) in
      bitrotVerify (mkStream (fi_Data m) EOF) (zlen (fi_Data m)) (ShardFileSize (erasure_of ei) (fi_Size m)) (ck_Algorithm ck) (ck_Hash ck) (ShardSize (erasure_of ei)) = Ok ()
  | _, _ => fi_Deleted m = true ∨ fi_IsRemote now m = true ∨ scan_files scan d m = None
  end.








Lemma check_drive_available scan latest reliable t n i od m err c :
  check_drive now delta scan latest reliable t n i od (m, err) = Ok c → dc_available c = true →
  err = None ∧ dc_meta c = m ∧ dc_err c = None ∧ ∃ d, od = Some d ∧ data_checked scan latest d m.
Proof.
  unfold check_drive. destruct err as [e|]; [by intros [= <-]|]. destruct od as [d|]; [|by intros [= <-]].
  destruct (negb (_ =? _) || _) eqn:E1; [by intros [= <-]|]. destruct (reliable && _); [by intros [= <-]|]. destruct (_ && negb (AcceptableDelta _ _ _)); [by intros [= <-]|].
  apply orb_false_iff in E1 as [Et%negb_false_iff%Z.eqb_eq Ed%negb_false_iff%String.eqb_eq]. unfold data_checked.
  destruct (fi_Parts m) as [|part parts] eqn:Ep; [|destruct ((0 <? _) || _) eqn:Ei].
  2: { unfold inline_check. cbv zeta. destruct (bitrotVerify _ _ _ _ _ _) as [[]| |] eqn:Eb; intros [= <-]; [|done]. intros _. split_and!; try done. exists d. by split_and!. }
  all: intros Hc Ha; cbv zeta in Hc; destruct (negb (fi_Deleted m) && negb (fi_IsRemote now m)) eqn:Er.
  all: try (apply andb_false_iff in Er as [Er%negb_false_iff|Er%negb_false_iff]; injection Hc as <-; split_and!; try done; exists d; split_and!; by auto).
  all: destruct (scan_files scan d m) eqn:Ec; injection Hc as <-; [done|].
  all: split_and!; try done; exists d; split_and!; by auto.
Qed.

Lemma latest_time_nonzero ms rq wq : objectQuorumFromMeta ewalk walk sCfg ms defaultParityCount = Ok (rq, wq) → commonTime walk (listObjectModtimes ms) ≠ 0.
Proof.
  unfold objectQuorumFromMeta, getLatestFileInfo. destruct (reduceReadQuorumErrs _ _ _ _); [done|]. cbv zeta. intros Hq Hz. rewrite Hz in Hq. done.
Qed.

(** A drive that is neither read nor written again. *)
Lemma drive_left scan latest reliable t n i (d : heal_drive) (online : bool) m err c :
  check_drive now delta scan latest reliable t n i (if online then Some d else None) (m, err) = Ok c → dc_available c = false →
  shouldHealObjectOnDisk now err (dc_err c) (dc_meta c) latest = false → fi_ModTime latest ≠ 0 →
  (∃ e, err = Some e ∧ lost_err (Some e) = false) ∨ err = None ∧ online = false ∧ fi_ModTime m = fi_ModTime latest.
Proof.
  unfold shouldHealObjectOnDisk. intros Hc Ha. destruct err as [e|]; [destruct (lost_err (Some e)) eqn:El; [done|]; intros _ _; left; by exists e|]. cbn [lost_err].
  destruct (fi_XLV1 (dc_meta c)); [done|]. destruct (_ && lost_err (dc_err c)); [done|]. intros Heq%negb_false_iff Hz. right.
  assert (fi_ModTime latest = fi_ModTime (dc_meta c)) as Ht by (unfold fi_Equals in Heq; destruct_bools; done).
  split; [done|]. destruct online; [|by injection Hc as <-]. exfalso. revert Hc. unfold check_drive, inline_check.
  repeat case_match; intros [= <-]; try done; by cbn in Ht.
Qed.

Lemma plan_latest ms disks online t rq wq latest :
  (∀ l, hwalk l ≡ₚ l) → (∀ s, sha256 s ≠ ""%string) → objectQuorumFromMeta ewalk walk sCfg ms defaultParityCount = Ok (rq, wq) →
  listOnlineDisks (disk := heal_drive) walk disks ms = (online, t) → findFileInfoInQuorum sha256 hwalk ms.*1 t rq = Ok latest → fi_ModTime latest = t ∧ t ≠ 0.
Proof.
  intros Hw Hsha Hq Ho Hf. apply latest_time_nonzero in Hq. unfold listOnlineDisks in Ho. injection Ho as _ <-. split; [|done].
  destruct (Z.lt_ge_cases rq 2) as [Hlt|Hge]; [unfold findFileInfoInQuorum in Hf; by rewrite (proj2 (Z.ltb_lt _ _)) in Hf|].
  pose proof (findFileInfo_spec sha256 hwalk ms.*1 (commonTime walk (listObjectModtimes ms)) rq Hw Hsha Hge) as Hs. rewrite Hf in Hs. apply Hs.
Qed.

Lemma online_at (disks : list (option heal_drive)) ms online t i d m err :
  listOnlineDisks walk disks ms = (online, t) → disks !! i = Some (Some d) → ms !! i = Some (m, err) →
  online !! i = Some (if IsValid m && (match err with Some _ => timeSentinel | None => fi_ModTime m end =? t) then Some d else None).
Proof.
  unfold listOnlineDisks. intros [= <- <-] Hd Hm. rewrite list_lookup_imap, Hm. cbn [fmap option_fmap option_map]. unfold listObjectModtimes at 1. rewrite list_lookup_fmap, Hm, Hd. done.
Qed.

Lemma available_count (cs : list drive_report) (online : list (option heal_drive)) :
  length cs = length online → (∀ i c od, cs !! i = Some c → online !! i = Some od → dc_available c = true → is_Some od) →
  zlen (List.filter (λ od, bool_decide (is_Some od)) (zip_with (λ c od, if dc_available c then od else None) cs online)) = zlen (List.filter dc_available cs).
Proof.
  revert online. induction cs as [|c cs IH]; intros [|od online] Hl Hav; try done. cbn [zip_with]. rewrite !filter_zlen_cons. rewrite IH; [|by injection Hl|intros i; apply (Hav (S i))].
  f_equal. destruct (dc_available c) eqn:Ea; [|done]. rewrite bool_decide_eq_true_2; [done|]. by apply (Hav 0%nat c od).
Qed.

(** C15: the plan of a repair. At least the read quorum of drives is read. Each of these is a drive of the set that gave its metadata without an error; it is of the
    time and the data directory of the object, and its data passed the check: the hashes of data that is kept with the metadata, otherwise the check of the files that the
    scan mode asks for, which is none with [HealUnknownScan], for a delete marker or for data kept remotely. Every other drive is written again, unless its metadata could
    not be read for a reason that does not mean that it is lost, or is not valid although it is of the time of the object. *)
Theorem repair_plan_sound scan disks ms latest available outdated metas :
  (∀ l, hwalk l ≡ₚ l) → (∀ s, sha256 s ≠ ""%string) → length disks = length ms →
  plan scan disks ms = Ok (HealRepair latest available outdated metas) →
  (∃ rq wq, objectQuorumFromMeta ewalk walk sCfg ms defaultParityCount = Ok (rq, wq) ∧ rq ≤ zlen (List.filter (λ od, bool_decide (is_Some od)) available)) ∧
  (∀ i d, available !! i = Some (Some d) → disks !! i = Some (Some d) ∧ ∃ m, ms !! i = Some (m, None) ∧ metas !! i = Some m ∧ data_checked scan latest d m) ∧
  (∀ i d m err, disks !! i = Some (Some d) → ms !! i = Some (m, err) →
     available !! i = Some (Some d) ∨ outdated !! i = Some (Some d) ∨ (∃ e, err = Some e ∧ lost_err (Some e) = false) ∨ err = None ∧ IsValid m = false ∧ fi_ModTime m = fi_ModTime latest).
Proof.
  intros Hw Hsha Hl. unfold heal_plan. destruct (isAllNotFound _); [done|]. destruct (objectQuorumFromMeta _ _ _ _ _) as [[rq wq]|e|w] eqn:Eq; [|by destruct (isObjectDangling _ _ _ _)|done].
  destruct (listOnlineDisks walk disks ms) as [online t] eqn:Eo. destruct (findFileInfoInQuorum _ _ _ _ _) as [latest'| |] eqn:Ef; [|done..].
  intros ([cs tt] & Hd & Hp)%obind_ok. destruct (_ <? rq) eqn:Erq; [by destruct (isObjectDangling _ _ _ _)|]. apply Z.ltb_ge in Erq.
  destruct (negb (existsb _ _)); [done|]. injection Hp as -> <- <- <-. pose proof (online_length _ _ _ _ Eo) as Hol.
  destruct (checks_at _ _ _ _ _ _ _ _ _ Hd Hol) as (Hlen & rel & Hc). assert (zlen online = zlen disks) as Hz by (unfold zlen; lia).
  assert (∀ i c od, cs !! i = Some c → online !! i = Some od → dc_available c = true → ∃ m d, od = Some d ∧ ms !! i = Some (m, None) ∧ dc_meta c = m ∧ data_checked scan latest d m) as Hav.
  { intros i c od Hi Hod Ha. destruct (Hc i c Hi) as (m & err & od' & Hm & Hod' & Hch). apply check_drive_available in Hch as (-> & Hmeta & _ & d & -> & Hdc); [|done].
    assert (od = Some d) as -> by congruence. by exists m, d. }
  split_and!.
  - exists rq, wq. split; [done|]. etrans; [exact Erq|]. rewrite (available_count cs online); [lia|lia|]. intros i c od Hi Hod Ha. destruct (Hav i c od Hi Hod Ha) as (m & d & -> & _). done.
  - intros i d (c & od & Hcd & Hi & Hod)%lookup_zip_with_Some. destruct (dc_available c) eqn:Ea; [|done]. subst od. destruct (Hav i c _ Hi Hod Ea) as (m & d' & [= <-] & Hm & Hmeta & Hdc).
    split; [by apply (online_drive disks ms online t i d)|]. exists m. split; [done|]. split; [|done]. rewrite list_lookup_fmap, Hi. cbn. by rewrite Hmeta.
  - intros i d m err Hdi Hmi. destruct (lookup_lt_is_Some_2 cs i) as [c Hi]; [rewrite Hlen; by eapply lookup_lt_Some|].
    destruct (Hc i c Hi) as (m' & err' & od & Hm' & Hod & Hch). rewrite Hmi in Hm'. injection Hm' as <- <-. pose proof (online_at disks ms online t i d m err Eo Hdi Hmi) as Hon. rewrite Hon in Hod. injection Hod as <-.
    destruct (dc_available c) eqn:Ea.
    + left. apply lookup_zip_with_Some. exists c, (Some d). rewrite Ea. split_and!; try done. destruct (Hav i c _ Hi Hon Ea) as (_ & d' & Hd' & _). rewrite Hon. by destruct (_ && _).
    + right. destruct (shouldHealObjectOnDisk now err (dc_err c) (dc_meta c) latest) eqn:Es.
      * left. apply lookup_zip_with_Some. exists true, (Some d). split_and!; try done. apply lookup_zip_with_Some. exists c, err. split_and!; try done. by rewrite list_lookup_fmap, Hmi.
      * right. assert (fi_ModTime latest = t ∧ t ≠ 0) as [Ht Ht0] by (by eapply plan_latest). apply drive_left in Hch as [?|(-> & Hoff & Htm)]; [by left| |done|done|by rewrite Ht].
        right. split_and!; try done. apply andb_false_iff in Hoff as [?|Hoff%Z.eqb_neq]; [done|]. by rewrite Htm in Hoff.
Qed.

End PlanProofs.

(** ** What the readers read *)

Lemma shuffled_at {A} (l : list A) dist blank i x b :
  distribution_ok (length l) dist → l !! i = Some x → dist !! i = Some b →
  ∃ res, shuffle_with 0 l dist (replicate (length l) blank) = Ok res ∧ res !! Z.to_nat (b - 1) = Some x.
Proof.
  intros Hok Hx Hb. destruct (shuffle_with_spec 0 l dist (replicate (length l) blank) (length l) Hok) as (res & Hr & _ & H1 & _); [by rewrite length_replicate|lia|].
  exists res. split; [done|]. by apply (H1 i).
Qed.

Lemma cleaned_data now fi : fi_Data (cleanFileInfo now fi) = fi_Data fi.
Proof. unfold cleanFileInfo. by destruct (fi_IsRemote now fi). Qed.

(** The reader for the shard of a drive: it has the data of the drive's own metadata, unless the drive is written as well; then it has the data of the latest metadata. *)
Lemma heal_reader_at `{BitrotHash} now latest available outdated metas part e readers writers i d od m b :
  heal_sources now latest available outdated metas part = Ok (e, readers, writers) →
  distribution_ok (length available) (ei_Distribution (fi_Erasure latest)) → length outdated = length available → length metas = length available →
  available !! i = Some (Some d) → outdated !! i = Some od → metas !! i = Some m → ei_Distribution (fi_Erasure latest) !! i = Some b →
  readers !! Z.to_nat (b - 1) = Some (Some (newBitrotReader (hd_get d) (fi_Data (match od with Some _ => latest | None => m end)) (part_Number part)
    (ShardFileOffset e 0 (part_Size part) (part_Size part)) (ck_Algorithm (GetChecksumInfo (ei_Checksums (fi_Erasure latest)) (part_Number part))) (ShardSize e) 0)).
Proof.
  intros Hsrc Hok Hlo Hlm Hd Hod Hm Hb. unfold heal_sources in Hsrc. apply obind_ok in Hsrc as (ds & Hds & (os & _ & (ms & Hms & (e' & _ & Hr)%obind_ok)%obind_ok)%obind_ok).
  assert (distribution_of latest = Some (ei_Distribution (fi_Erasure latest))) as Hdist by (unfold distribution_of; by destruct (ei_Distribution _)).
  rewrite Hdist in Hds, Hms. unfold shuffleDisks in Hds. unfold shufflePartsMetadata in Hms.
  destruct (shuffled_at available _ None i (Some d) b Hok Hd Hb) as (ds' & Hds' & Hat). rewrite Hds' in Hds. injection Hds as ->.
  assert (length (heal_metas now latest outdated metas) = length available) as Hlh by (unfold heal_metas; rewrite length_zip_with; lia).
  destruct (shuffled_at (heal_metas now latest outdated metas) (ei_Distribution (fi_Erasure latest)) FileInfo_zero i (match od with Some _ => cleanFileInfo now latest | None => m end) b)
    as (ms' & Hms' & Hatm); [by rewrite Hlh|apply lookup_zip_with_Some; by exists od, m|done|]. rewrite Hms' in Hms. injection Hms as ->.
  injection Hr as -> <- _. unfold heal_readers. rewrite list_lookup_imap, Hat. cbn [fmap option_fmap option_map]. rewrite Hatm. by destruct od; rewrite ?cleaned_data.
Qed.

(** A drive that is read after the drives were put in order was one of them. *)
Lemma shuffled_from {A} (l : list (option A)) dist res j x :
  distribution_ok (length l) dist → shuffle_with 0 l dist (replicate (length l) None) = Ok res → res !! j = Some (Some x) →
  ∃ i, dist !! i = Some (Z.of_nat j + 1) ∧ l !! i = Some (Some x).
Proof.
  intros Hok Hr Hj. destruct (shuffle_with_spec 0 l dist (replicate (length l) None) (length l) Hok) as (res' & Hr' & _ & H1 & H2); [by rewrite length_replicate|lia|].
  rewrite Hr in Hr'. injection Hr' as <-. destruct (decide (Z.of_nat j + 1 ∈ dist)) as [[i Hi]%list_elem_of_lookup|Hn].
  - exists i. split; [done|]. assert (i < length l)%nat as Hlt by (destruct Hok as [<- _]; by eapply lookup_lt_Some). destruct (lookup_lt_is_Some_2 l i Hlt) as [y Hy].
    pose proof (H1 i y _ Hy Hi) as Hat. replace (Z.to_nat (Z.of_nat j + 1 - 1)) with j in Hat by lia. congruence.
  - rewrite H2 in Hj; [apply lookup_replicate in Hj as [Hj _]; done|]. intros k _ Hk. apply Hn. by apply list_elem_of_lookup_2 in Hk.
Qed.

Lemma shuffled_length {A} (l : list A) dist blank res :
  distribution_ok (length l) dist → shuffle_with 0 l dist (replicate (length l) blank) = Ok res → length res = length l.
Proof.
  intros Hok Hr. destruct (shuffle_with_spec 0 l dist (replicate (length l) blank) (length l) Hok) as (res' & Hr' & Hl & _); [by rewrite length_replicate|lia|]. congruence.
Qed.

Section Repair.
Context `{ReedSolomonLaws data parity} `{BitrotHashLaws}.
Context (now : Z) (latest : FileInfo) (available outdated : list (option heal_drive)) (metas : list FileInfo) (part : ObjectPartInfo) (D : bytes).
Context (e : Erasure) (readers : list (option reader)) (writers : list (option bytes)).
Hypothesis Hsources : heal_sources now latest available outdated metas part = Ok (e, readers, writers).
Hypothesis Hdist : distribution_ok (length available) (ei_Distribution (fi_Erasure latest)).
Hypothesis Hlo : length outdated = length available.
Hypothesis Hlm : length metas = length available.

Hypothesis Hne : available ≠ [].

Lemma distribution_set : distribution_of latest = Some (ei_Distribution (fi_Erasure latest)).
Proof. unfold distribution_of. destruct Hdist as [Hl _]. destruct (ei_Distribution _); [|done]. by destruct available. Qed.

Lemma sources_inv :
  ∃ ds os, shuffle_with 0 available (ei_Distribution (fi_Erasure latest)) (replicate (length available) None) = Ok ds ∧
    shuffle_with 0 outdated (ei_Distribution (fi_Erasure latest)) (replicate (length outdated) None) = Ok os ∧
    writers = new_writers os ∧ length readers = length ds ∧ (∀ j r, readers !! j = Some (Some r) → ∃ d, ds !! j = Some (Some d)) ∧
    NewErasure (ei_DataBlocks (fi_Erasure latest)) (ei_ParityBlocks (fi_Erasure latest)) (ei_BlockSize (fi_Erasure latest)) = Ok e.
Proof.
  pose proof Hsources as Hsrc. unfold heal_sources in Hsrc. rewrite distribution_set in Hsrc. apply obind_ok in Hsrc as (ds & Hds & (os & Hos & (ms & _ & (e' & He & Hr)%obind_ok)%obind_ok)%obind_ok).
  exists ds, os. injection Hr as -> <- <-. split_and!; try done; [unfold heal_readers; by rewrite length_imap|]. intros j r. unfold heal_readers. rewrite list_lookup_imap.
  destruct (ds !! j) as [[d|]|]; [by exists d|done..].
Qed.

(** The drives that are read have their shards of the part, in the file or with the metadata; anything may have happened to the shards, but not to the hashes. *)
Hypothesis Hdrives : ∀ i d m b, available !! i = Some (Some d) → metas !! i = Some m → ei_Distribution (fi_Erasure latest) !! i = Some b →
  ∃ file, drive_ok e D (Z.to_nat (b - 1)) (mkDrive file (fi_Data m) (gd_ReadFileStream (hd_get d) (part_Number part))).

(** A drive that is read and written as well (its data is there, its metadata is out of date) has the same data with its metadata as the latest metadata has: none,
    if the object is kept in files. *)
Hypothesis Hmixed : ∀ i d d' m, available !! i = Some (Some d) → outdated !! i = Some (Some d') → metas !! i = Some m → fi_Data m = fi_Data latest.

Hypothesis Halgo : ck_Algorithm (GetChecksumInfo (ei_Checksums (fi_Erasure latest)) (part_Number part)) = HighwayHash256S.
Hypothesis Hcode : ei_DataBlocks (fi_Erasure latest) = data ∧ ei_ParityBlocks (fi_Erasure latest) = parity ∧ 0 < ei_BlockSize (fi_Erasure latest).
Hypothesis Hset : zlen available = data + parity.
Hypothesis Hsize : part_Size part = zlen D.

Lemma repair_readers_ok : readers_ok e D readers.
Proof.
  destruct sources_inv as (ds & os & Hds & Hos & _ & Hlr & Hr & He). pose proof He as (Hd1 & Hd2 & Hd3 & Hpos)%NewErasure_ok. split.
  - rewrite Hlr, (shuffled_length _ _ _ _ Hdist Hds). destruct Hcode as (E1 & E2 & _). unfold zlen in Hset. lia.
  - intros j r Hj. destruct (Hr j r Hj) as [d Hd]. destruct (shuffled_from _ _ _ _ _ Hdist Hds Hd) as (i & Hi & Hav).
    assert (i < length available)%nat by by eapply lookup_lt_Some. destruct (lookup_lt_is_Some_2 outdated i) as [od Hod]; [lia|]. destruct (lookup_lt_is_Some_2 metas i) as [m Hm]; [lia|].
    pose proof (heal_reader_at _ _ _ _ _ _ _ _ _ i d od m _ Hsources Hdist Hlo Hlm Hav Hod Hm Hi) as Hat. destruct (Hdrives i d m _ Hav Hm Hi) as [file Hok].
    replace (Z.to_nat (Z.of_nat j + 1 - 1)) with j in * by lia. rewrite Hj in Hat. injection Hat as ->. rewrite Halgo. unfold newBitrotReader. cbn [Z.eqb HighwayHash256S].
    assert (fi_Data (match od with Some _ => latest | None => m end) = fi_Data m) as ->.
    { destruct od as [d'|]; [|done]. symmetry. by eapply Hmixed. }
    assert (0 < dataBlocks e ∧ 0 < blockSize e) as [Hp1 Hp2] by lia.
    pose proof (open_drive_honest e D Hp1 Hp2 0 (zlen D) j _ Hok) as Hh. unfold open_drive in Hh. cbn [dr_disk dr_data] in Hh. rewrite Hsize. exact Hh.
Qed.

(** C10: a repair writes the right shards. The drives that are read are given to the erasure code in the order of the shards, with the readers of their own data, and
    the drives that are written in the same order: if the code succeeds, every drive that is written without a failure has the shard of its place, whatever was damaged on
    the drives that are read, as long as their hashes are those written; and some schedule completes the repair. No drive that is both read and written may keep data with
    its metadata other than the latest metadata has: such data would be replaced by that of another drive (see [heal_mixes_shards]). The part has streaming
    hashes. *)
Theorem repair_restores_shards walk net :
  map_walk walk →
  (∃ scheds, is_Some (Heal walk scheds net e writers readers (zlen D))) ∧
  ∀ scheds x ws i d b, Heal walk scheds net e writers readers (zlen D) = Some (Ok x, ws) →
    outdated !! i = Some (Some d) → ei_Distribution (fi_Erasure latest) !! i = Some b → (∀ k, net k (Z.to_nat (b - 1)) = None) →
    ws !! Z.to_nat (b - 1) = Some (Some (shard_file e D (Z.to_nat (b - 1)))).
Proof.
  intros Hwalk. destruct sources_inv as (ds & os & _ & Hos & Hw & _ & _ & He). destruct Hcode as (E1 & E2 & Hbs). rewrite E1, E2 in He. pose proof Hdist as Hdist'. rewrite <- Hlo in Hdist'.
  assert (length os = length available) as Hlos by (rewrite (shuffled_length _ _ _ _ Hdist' Hos); lia).
  destruct (heal_restores_shards walk _ e net D readers writers Hwalk He Hbs repair_readers_ok) as [Hends Hheal].
  - subst writers. unfold new_writers, zlen in *. rewrite length_map. lia.
  - subst writers. apply Forall_forall. intros w (od & <- & _)%list_elem_of_In%in_map_iff. destruct od; auto.
  - split; [done|]. intros scheds x ws i d b Hh Hod Hb Hnet. apply (proj2 (proj1 (Hheal _ _ _ Hh) x eq_refl)); [|done]. rewrite Hw.
    destruct (shuffled_at outdated _ None i (Some d) b Hdist' Hod Hb) as (os' & Hos' & Hat). rewrite Hos in Hos'. injection Hos' as <-.
    unfold new_writers. change (map ?f ?l) with (f <$> l). rewrite list_lookup_fmap, Hat. done.
Qed.

End Repair.

(** ** Examples *)

Definition demo_time : Z := unix_epoch + 1000.

(** A drive without files, whose checks answer [check]. *)
Definition demo_drive (check : option derr) : heal_drive :=
  mkHD (λ _, check) (λ _, check) (mkGD "" (λ _ _ _, Err errFileNotFound) (λ _ _ _, ([], Some errFileNotFound))).

(** The object of the other examples, kept with its metadata: [i] is the shard. *)
Definition inline_meta (tags : gmap string string) (i : nat) : FileInfo :=
  mkFI "" "object" "" true false "" "" "" "" false "" false demo_time 9 tags [mkPart "" 1 9 9]
    (mkEI 2 1 4 (Z.of_nat i + 1) [1; 2; 3] [mkChecksum 1 HighwayHash256S []]) false ReplicationState_zero (demo_file i) 1 0 demo_time.

Definition demo_tags : gmap string string := {["X-Amz-Tagging" := "a=b"]}.
Definition demo_set : list (option heal_drive) := replicate 3 (Some (demo_drive None)).
Definition demo_plan := heal_plan (λ l, l) (λ l, l) (λ l, l) (λ s, "#" +:+ s) (mkConfig (mkSC 0) (mkSC 0)) 1 0 1.

(** The object is on two drives, with or without the same tags. *)
Definition demo_ms (tags : gmap string string) : list drive_meta := [(inline_meta demo_tags 0, None); (inline_meta tags 1, None); (FileInfo_zero, Some errFileNotFound)].

Definition demo_available : list (option heal_drive) := [Some (demo_drive None); Some (demo_drive None); None].
Definition demo_outdated : list (option heal_drive) := [None; None; Some (demo_drive None)].
Definition demo_metas : list FileInfo := [inline_meta demo_tags 0; inline_meta demo_tags 1; FileInfo_zero].
Definition demo_repair : heal_action := HealRepair (inline_meta demo_tags 0) demo_available demo_outdated demo_metas.

Lemma demo_repair_planned : demo_plan HealNormalScan demo_set (demo_ms demo_tags) = Ok demo_repair.
Proof. vm_compute. reflexivity. Qed.

Lemma repair_plan_sound_witness :
  ∃ m, demo_ms demo_tags !! 1%nat = Some (m, None) ∧ data_checked 0 HealNormalScan (inline_meta demo_tags 0) (demo_drive None) m.
Proof.
  destruct (repair_plan_sound (λ l, l) (λ l, l) (λ l, l) (λ s, "#" +:+ s) (mkConfig (mkSC 0) (mkSC 0)) 1 0 1 HealNormalScan demo_set (demo_ms demo_tags) (inline_meta demo_tags 0)
    demo_available demo_outdated demo_metas) as (_ & Hav & _); [done|done|done|exact demo_repair_planned|].
  destruct (Hav 1%nat (demo_drive None) eq_refl) as (_ & m & Hm & _ & Hd). exists m. split; [exact Hm|exact Hd].
Defined.





Lemma inline_drive_ok i f disk :
  drive_check i f = true → (∀ off len, ∃ err, disk off len = Err err) → drive_ok demo_code demo_data i (mkDrive f f disk).
Proof. intros (_ & _ & Hk & Hc)%drive_check_ok Hd. split; [by left|]. split; [by right|]. by split. Qed.

Definition demo_sources : outcome derr (Erasure * list (option reader) * list (option bytes)) :=
  heal_sources 0 (inline_meta demo_tags 0) demo_available demo_outdated demo_metas (mkPart "" 1 9 9).
Definition demo_heal_readers : list (option reader) := match demo_sources with Ok (_, rs, _) => rs | _ => [] end.

Lemma demo_sources_ok : demo_sources = Ok (demo_code, demo_heal_readers, [None; None; Some []]).
Proof. reflexivity. Qed.

Lemma demo_drives_ok i d m b :
  demo_available !! i = Some (Some d) → demo_metas !! i = Some m → [1; 2; 3] !! i = Some b →
  ∃ file, drive_ok demo_code demo_data (Z.to_nat (b - 1)) (mkDrive file (fi_Data m) (gd_ReadFileStream (hd_get d) 1)).
Proof.
  destruct i as [|[|[|i]]]; intros Hd Hm Hb; [injection Hd as <-; injection Hm as <-; injection Hb as <-..|done|done].
  - exists (demo_file 0). apply inline_drive_ok; [vm_compute; reflexivity|]. intros off len. by eexists.
  - exists (demo_file 1). apply inline_drive_ok; [vm_compute; reflexivity|]. intros off len. by eexists.
Qed.

Lemma repair_restores_shards_witness :
  ∃ scheds, is_Some (Heal (λ l, l) scheds (λ _ _, None) demo_code [None; None; Some []] demo_heal_readers 9).
Proof.
  apply (repair_restores_shards (data := 2) (parity := 1) 0 (inline_meta demo_tags 0) demo_available demo_outdated demo_metas (mkPart "" 1 9 9) demo_data demo_code
    demo_heal_readers [None; None; Some []] demo_sources_ok); try done.
  - split_and!; [done|by apply (bool_decide_unpack _)|by apply (bool_decide_unpack _)].
  - exact demo_drives_ok.
  - intros [|[|[|i]]] d d' m Hd Hd' _; done.
  - intros l. done.
Defined.

(** The second drive has missed a change of the tags, so that it is read and written as well. It is read with the data of the first drive: the repair reports success,
    and the second drive is left with the first shard in place of its own, the third with a shard that is not its own either. *)
Theorem heal_mixes_shards :
  ∃ latest available outdated metas e readers writers,
    demo_plan HealNormalScan demo_set (demo_ms ∅) = Ok (HealRepair latest available outdated metas) ∧
    heal_sources 0 latest available outdated metas (mkPart "" 1 9 9) = Ok (e, readers, writers) ∧
    match Heal (λ l, l) (λ _, [Loop; Loop; Finish 0; Finish 0; Loop]) (λ _ _, None) e writers readers 9 with
    | Some (Ok None, [None; Some x; Some y]) =>
        x = shard_file demo_code demo_data 0 ∧ x ≠ shard_file demo_code demo_data 1 ∧ y ≠ shard_file demo_code demo_data 2
    | _ => False
    end.
Proof.
  eexists _, _, _, _, _, _, _. split; [vm_compute; reflexivity|]. split; [reflexivity|]. vm_compute. split_and!; congruence.
Qed.

Definition plain_meta (data parity modTime index : Z) : FileInfo :=
  mkFI "" "object" "" true false "" "" "" "" false "dir" false modTime 9 ∅ [mkPart "" 1 9 9]
    (mkEI data parity 4 index [1; 2; 3; 4; 5; 6; 7; 8] [mkChecksum 1 HighwayHash256S []]) false ReplicationState_zero [] 1 0 demo_time.

(** The first drive was offline when the object was written again, with more parity. Two drives have lost the parts of the object and one its metadata; two are offline. *)
Definition old_parity_ms : list drive_meta :=
  [(plain_meta 6 2 (demo_time - 1) 1, None); (plain_meta 4 4 demo_time 2, None); (plain_meta 4 4 demo_time 3, None); (plain_meta 4 4 demo_time 4, None);
   (plain_meta 4 4 demo_time 5, None); (FileInfo_zero, Some errFileNotFound); (FileInfo_zero, Some errDiskNotFound); (FileInfo_zero, Some errDiskNotFound)].

Definition old_parity_set : list (option heal_drive) :=
  Some ∘ demo_drive <$> [None; None; None; Some errFileNotFound; Some errFileNotFound; None; None; None].

(** Four of the eight drives may have their shards of the object, and four are enough; it is purged all the same, because
    the first valid metadata is of the old object, which had a parity of two. *)
Theorem purge_by_old_parity :
  demo_plan HealNormalScan old_parity_set old_parity_ms = Ok (HealPurge (plain_meta 6 2 (demo_time - 1) 1) true) ∧
  ∃ latest, findFileInfoInQuorum (λ s, "#" +:+ s) (λ l, l) old_parity_ms.*1 demo_time 4 = Ok latest ∧ ei_DataBlocks (fi_Erasure latest) = 4 ∧ ei_ParityBlocks (fi_Erasure latest) = 4.
Proof. split; [vm_compute; reflexivity|]. eexists. split; [vm_compute; reflexivity|done]. Qed.
