(* ===== verification/Event.v ===== *)
(** * Bucket notifications (internal/event, cmd/notification.go)

    A bucket's notification configuration says which events on which objects are sent
    to which targets. The configuration becomes a map of rules: for every event the
    patterns of object names, and for every pattern the targets. *)

From Stdlib Require Import ZArith Lia Bool Ascii.
From stdpp Require Import sets.
From S2P Require Import Prelude GoStrings GoPath ObjectNames.

Local Open Scope go_scope.

(** ** Event names (name.go) *)

Inductive Name :=
  | ObjectAccessedAll | ObjectAccessedGet | ObjectAccessedGetRetention | ObjectAccessedGetLegalHold | ObjectAccessedHead
  | ObjectCreatedAll | ObjectCreatedCompleteMultipartUpload | ObjectCreatedCopy | ObjectCreatedPost | ObjectCreatedPut
  | ObjectCreatedPutRetention | ObjectCreatedPutLegalHold | ObjectCreatedPutTagging | ObjectCreatedDeleteTagging
  | ObjectRemovedAll | ObjectRemovedDelete | ObjectRemovedDeleteMarkerCreated | BucketCreated | BucketRemoved
  | ObjectReplicationAll | ObjectReplicationFailed | ObjectReplicationComplete | ObjectReplicationMissedThreshold
  | ObjectReplicationReplicatedAfterThreshold | ObjectReplicationNotTracked | ObjectRestorePostInitiated
  | ObjectRestorePostCompleted | ObjectRestorePostAll | ObjectTransitionAll | ObjectTransitionFailed | ObjectTransitionComplete.

Definition all_names : list Name :=
  [ObjectAccessedAll; ObjectAccessedGet; ObjectAccessedGetRetention; ObjectAccessedGetLegalHold; ObjectAccessedHead;
   ObjectCreatedAll; ObjectCreatedCompleteMultipartUpload; ObjectCreatedCopy; ObjectCreatedPost; ObjectCreatedPut;
   ObjectCreatedPutRetention; ObjectCreatedPutLegalHold; ObjectCreatedPutTagging; ObjectCreatedDeleteTagging;
   ObjectRemovedAll; ObjectRemovedDelete; ObjectRemovedDeleteMarkerCreated; BucketCreated; BucketRemoved;
   ObjectReplicationAll; ObjectReplicationFailed; ObjectReplicationComplete; ObjectReplicationMissedThreshold;
   ObjectReplicationReplicatedAfterThreshold; ObjectReplicationNotTracked; ObjectRestorePostInitiated;
   ObjectRestorePostCompleted; ObjectRestorePostAll; ObjectTransitionAll; ObjectTransitionFailed; ObjectTransitionComplete].

#[global] Instance Name_eq_dec : EqDecision Name.
Proof. solve_decision. Defined.

Definition Name_code (n : Name) : nat := default 0%nat (fst <$> list_find (n =.) all_names).

#[global] Instance Name_countable : Countable Name.
Proof. refine (inj_countable' Name_code (λ c, default ObjectAccessedAll (all_names !! c)) _). by intros []. Defined.

Definition Expand (name : Name) : list Name :=
  match name with
  | BucketCreated => [BucketCreated]
  | BucketRemoved => [BucketRemoved]
  | ObjectAccessedAll => [ObjectAccessedGet; ObjectAccessedHead; ObjectAccessedGetRetention; ObjectAccessedGetLegalHold]
  | ObjectCreatedAll =>
      [ObjectCreatedCompleteMultipartUpload; ObjectCreatedCopy; ObjectCreatedPost; ObjectCreatedPut;
       ObjectCreatedPutRetention; ObjectCreatedPutLegalHold; ObjectCreatedPutTagging; ObjectCreatedDeleteTagging]
  | ObjectRemovedAll => [ObjectRemovedDelete; ObjectRemovedDeleteMarkerCreated]
  | ObjectReplicationAll =>
      [ObjectReplicationFailed; ObjectReplicationComplete; ObjectReplicationNotTracked; ObjectReplicationMissedThreshold;
       ObjectReplicationReplicatedAfterThreshold]
  | ObjectRestorePostAll => [ObjectRestorePostInitiated; ObjectRestorePostCompleted]
  | ObjectTransitionAll => [ObjectTransitionFailed; ObjectTransitionComplete]
  | name => [name]
  end.

Definition Name_String (name : Name) : string :=
  match name with
  | BucketCreated => "s3:BucketCreated:*"
  | BucketRemoved => "s3:BucketRemoved:*"
  | ObjectAccessedAll => "s3:ObjectAccessed:*"
  | ObjectAccessedGet => "s3:ObjectAccessed:Get"
  | ObjectAccessedGetRetention => "s3:ObjectAccessed:GetRetention"
  | ObjectAccessedGetLegalHold => "s3:ObjectAccessed:GetLegalHold"
  | ObjectAccessedHead => "s3:ObjectAccessed:Head"
  | ObjectCreatedAll => "s3:ObjectCreated:*"
  | ObjectCreatedCompleteMultipartUpload => "s3:ObjectCreated:CompleteMultipartUpload"
  | ObjectCreatedCopy => "s3:ObjectCreated:Copy"
  | ObjectCreatedPost => "s3:ObjectCreated:Post"
  | ObjectCreatedPut => "s3:ObjectCreated:Put"
  | ObjectCreatedPutTagging => "s3:ObjectCreated:PutTagging"
  | ObjectCreatedDeleteTagging => "s3:ObjectCreated:DeleteTagging"
  | ObjectCreatedPutRetention => "s3:ObjectCreated:PutRetention"
  | ObjectCreatedPutLegalHold => "s3:ObjectCreated:PutLegalHold"
  | ObjectRemovedAll => "s3:ObjectRemoved:*"
  | ObjectRemovedDelete => "s3:ObjectRemoved:Delete"
  | ObjectRemovedDeleteMarkerCreated => "s3:ObjectRemoved:DeleteMarkerCreated"
  | ObjectReplicationAll => "s3:Replication:*"
  | ObjectReplicationFailed => "s3:Replication:OperationFailedReplication"
  | ObjectReplicationComplete => "s3:Replication:OperationCompletedReplication"
  | ObjectReplicationNotTracked => "s3:Replication:OperationNotTracked"
  | ObjectReplicationMissedThreshold => "s3:Replication:OperationMissedThreshold"
  | ObjectReplicationReplicatedAfterThreshold => "s3:Replication:OperationReplicatedAfterThreshold"
  | ObjectRestorePostInitiated => "s3:ObjectRestore:Post"
  | ObjectRestorePostCompleted => "s3:ObjectRestore:Completed"
  | ObjectTransitionAll => "s3:ObjectTransition:*"
  | ObjectTransitionFailed => "s3:ObjectTransition:Failed"
  | ObjectTransitionComplete => "s3:ObjectTransition:Complete"
  | ObjectRestorePostAll => ""
  end.

Inductive ev_err :=
  | ErrInvalidEventName
  | ErrInvalidFilterName
  | ErrFilterNamePrefix
  | ErrFilterNameSuffix
  | ErrInvalidFilterValue
  | ErrMissingEventNames
  | ErrDuplicateEventName
  | ErrUnsupportedConfiguration
  | ErrDuplicateQueueConfiguration
  | ErrUnknownRegion
  | ErrARNNotFound
  | ErrInvalidARN
  | ErrInvalidTargetID
  | ErrTargetExists.

Definition parse_table : list (string * Name) :=
  [("s3:BucketCreated:*", BucketCreated);
   ("s3:BucketRemoved:*", BucketRemoved);
   ("s3:ObjectAccessed:*", ObjectAccessedAll);
   ("s3:ObjectAccessed:Get", ObjectAccessedGet);
   ("s3:ObjectAccessed:GetRetention", ObjectAccessedGetRetention);
   ("s3:ObjectAccessed:GetLegalHold", ObjectAccessedGetLegalHold);
   ("s3:ObjectAccessed:Head", ObjectAccessedHead);
   ("s3:ObjectCreated:*", ObjectCreatedAll);
   ("s3:ObjectCreated:CompleteMultipartUpload", ObjectCreatedCompleteMultipartUpload);
   ("s3:ObjectCreated:Copy", ObjectCreatedCopy);
   ("s3:ObjectCreated:Post", ObjectCreatedPost);
   ("s3:ObjectCreated:Put", ObjectCreatedPut);
   ("s3:ObjectCreated:PutRetention", ObjectCreatedPutRetention);
   ("s3:ObjectCreated:PutLegalHold", ObjectCreatedPutLegalHold);
   ("s3:ObjectCreated:PutTagging", ObjectCreatedPutTagging);
   ("s3:ObjectCreated:DeleteTagging", ObjectCreatedDeleteTagging);
   ("s3:ObjectRemoved:*", ObjectRemovedAll);
   ("s3:ObjectRemoved:Delete", ObjectRemovedDelete);
   ("s3:ObjectRemoved:DeleteMarkerCreated", ObjectRemovedDeleteMarkerCreated);
   ("s3:Replication:*", ObjectReplicationAll);
   ("s3:Replication:OperationFailedReplication", ObjectReplicationFailed);
   ("s3:Replication:OperationCompletedReplication", ObjectReplicationComplete);
   ("s3:Replication:OperationMissedThreshold", ObjectReplicationMissedThreshold);
   ("s3:Replication:OperationReplicatedAfterThreshold", ObjectReplicationReplicatedAfterThreshold);
   ("s3:Replication:OperationNotTracked", ObjectReplicationNotTracked);
   ("s3:ObjectRestore:*", ObjectRestorePostAll);
   ("s3:ObjectRestore:Post", ObjectRestorePostInitiated);
   ("s3:ObjectRestore:Completed", ObjectRestorePostCompleted);
   ("s3:ObjectTransition:Failed", ObjectTransitionFailed);
   ("s3:ObjectTransition:Complete", ObjectTransitionComplete);
   ("s3:ObjectTransition:*", ObjectTransitionAll)].

Definition ParseName (s : string) : outcome ev_err Name :=
  match List.find (λ p, String.eqb (fst p) s) parse_table with Some (_, name) => Ok name | None => Err ErrInvalidEventName end.

(** ** Targets (targetid.go, arn.go, targetidset.go, targetlist.go) *)

Record TargetID := mkTID { tid_ID : string; tid_Name : string }.

#[global] Instance TargetID_eq_dec : EqDecision TargetID.
Proof. solve_decision. Defined.
#[global] Instance TargetID_countable : Countable TargetID.
Proof. refine (inj_countable' (λ t, (tid_ID t, tid_Name t)) (λ p, mkTID p.1 p.2) _). by intros []. Defined.

Definition colon : ascii := ":".

Definition TargetID_String (tid : TargetID) : string := tid_ID tid +:+ ":" +:+ tid_Name tid.

Definition parseTargetID (s : string) : outcome ev_err TargetID :=
  match split_char colon s with
  | [id; name] => Ok (mkTID id name)
  | _ => Err ErrInvalidTargetID
  end.

Record ARN := mkARN { arn_TargetID : TargetID; arn_region : string }.

#[global] Instance ARN_eq_dec : EqDecision ARN.
Proof. solve_decision. Defined.

Definition ARN_String (arn : ARN) : string :=
  let tid := arn_TargetID arn in
  if String.eqb (tid_ID tid) "" && String.eqb (tid_Name tid) "" && String.eqb (arn_region arn) "" then ""
  else "arn:minio:sqs:" +:+ arn_region arn +:+ ":" +:+ TargetID_String tid.

Definition parseARN (s : string) : outcome ev_err ARN :=
  if negb (HasPrefix s "arn:minio:sqs:") then Err ErrInvalidARN
  else match split_char colon s with
  | [_; _; _; region; id; name] =>
      if String.eqb id "" || String.eqb name "" then Err ErrInvalidARN else Ok (mkARN (mkTID id name) region)
  | _ => Err ErrInvalidARN
  end.

Abbreviation TargetIDSet := (gset TargetID).

(** [IsEmpty] says the opposite of its name. *)
Definition set_IsEmpty (set : TargetIDSet) : bool := negb (size set =? 0)%nat.

(** The targets that are there, by their IDs. *)
Section TargetList.
Context {target : Type} (ID : target → TargetID).

Fixpoint TargetList_Add (l : gmap TargetID target) (targets : list target) : gmap TargetID target * option ev_err :=
  match targets with
  | [] => (l, None)
  | t :: targets =>
      match l !! ID t with
      | Some _ => (l, Some ErrTargetExists)
      | None => TargetList_Add (<[ID t := t]> l) targets
      end
  end.

Definition TargetList_Exists (l : gmap TargetID target) (id : TargetID) : bool := bool_decide (is_Some (l !! id)).

Definition TargetList_Remove (l : gmap TargetID target) (ids : TargetIDSet) : gmap TargetID target :=
  filter (λ p, p.1 ∉ ids) l.

(** The targets whose [Save] is called with the event. *)
Definition TargetList_Send (l : gmap TargetID target) (ids : TargetIDSet) : gmap TargetID target :=
  filter (λ p, p.1 ∈ ids) l.

End TargetList.

(** ** Rules (rules.go, rulesmap.go) *)

(** [strings.ReplaceAll(s, "**", "*")] *)
Fixpoint single_stars (s : string) : string :=
  match s with
  | String a (String b s' as s1) => if Ascii.eqb a "*" && Ascii.eqb b "*" then String "*" (single_stars s') else String a (single_stars s1)
  | s => s
  end.

Definition NewPattern (prefix suffix : string) : string :=
  let pattern := if String.eqb prefix "" then "" else if HasSuffix prefix "*" then prefix else prefix +:+ "*" in
  let pattern := if String.eqb suffix "" then pattern else pattern +:+ (if HasPrefix suffix "*" then suffix else "*" +:+ suffix) in
  single_stars pattern.

(** A nil map is the empty map. *)
Abbreviation Rules := (gmap string TargetIDSet).
Abbreviation RulesMap := (gmap Name Rules).

Definition Rules_Add (rules : Rules) (pattern : string) (targetID : TargetID) : Rules :=
  <[pattern := {[targetID]} ∪ default ∅ (rules !! pattern)]> rules.

Definition Rules_Union (rules rules2 : Rules) : Rules := union_with (λ s s2, Some (s ∪ s2)) rules rules2.

Definition Rules_Difference (rules rules2 : Rules) : Rules :=
  map_imap (λ pattern set, let nv := set ∖ default ∅ (rules2 !! pattern) in if (0 <? size nv)%nat then Some nv else None) rules.

Definition rm_rules (rulesMap : RulesMap) (eventName : Name) : Rules := default ∅ (rulesMap !! eventName).

Definition rm_add (rulesMap : RulesMap) (eventNames : list Name) (pattern : string) (targetID : TargetID) : RulesMap :=
  let rules := Rules_Add ∅ pattern targetID in
  foldl (λ rm name, <[name := Rules_Union (rm_rules rm name) rules]> rm) rulesMap (concat (Expand <$> eventNames)).

Definition rm_Add (rulesMap rulesMap2 : RulesMap) : RulesMap :=
  union_with (λ rules rules2, Some (Rules_Union rules2 rules)) rulesMap rulesMap2.

Definition rm_Remove (rulesMap rulesMap2 : RulesMap) : RulesMap :=
  map_imap (λ eventName rules, let nr := Rules_Difference rules (rm_rules rulesMap2 eventName) in if (size nr =? 0)%nat then None else Some nr) rulesMap.

Definition NewRulesMap (eventNames : list Name) (pattern : string) (targetID : TargetID) : RulesMap :=
  rm_add ∅ eventNames (if String.eqb pattern "" then "*" else pattern) targetID.

Section Match.
Context `{!Wildcard}.

Definition Rules_MatchSimple (rules : Rules) (objectName : string) : bool :=
  existsb (λ p, MatchSimple p.1 objectName) (map_to_list rules).

Definition Rules_Match (rules : Rules) (objectName : string) : TargetIDSet :=
  map_fold (λ pattern set ids, if MatchSimple pattern objectName then ids ∪ set else ids) ∅ rules.

Definition rm_MatchSimple (rulesMap : RulesMap) (eventName : Name) (objectName : string) : bool := Rules_MatchSimple (rm_rules rulesMap eventName) objectName.
Definition rm_Match (rulesMap : RulesMap) (eventName : Name) (objectName : string) : TargetIDSet := Rules_Match (rm_rules rulesMap eventName) objectName.

End Match.

(** ** Configuration (config.go) *)

Definition ValidateFilterRuleValue (value : string) : option ev_err :=
  if existsb (λ segment, String.eqb segment "." || String.eqb segment "..") (split_char slash value) then Some ErrInvalidFilterValue
  else if (Z.of_nat (String.length value) <=? 1024)%Z && utf8_valid value && negb (Contains value "\") then None
  else Some ErrInvalidFilterValue.

Record FilterRule := mkFR { fr_Name : string; fr_Value : string }.

#[global] Instance FilterRule_eq_dec : EqDecision FilterRule.
Proof. solve_decision. Defined.

(** What [UnmarshalXML] does with the decoded [rule]; [filter] is what it decodes into. *)
Definition FilterRule_Unmarshal (filter rule : FilterRule) : outcome ev_err FilterRule :=
  if negb (String.eqb (fr_Name rule) "prefix") && negb (String.eqb (fr_Name rule) "suffix") then Err ErrInvalidFilterName
  else match ValidateFilterRuleValue (fr_Value filter) with
       | Some err => Err err
       | None => Ok rule
       end.

(** The names so far are in [seen]. *)
Fixpoint check_rules (seen : list string) (rules : list FilterRule) : option ev_err :=
  match rules with
  | [] => None
  | rule :: rules =>
      if existsb (String.eqb (fr_Name rule)) seen then Some (if String.eqb (fr_Name rule) "prefix" then ErrFilterNamePrefix else ErrFilterNameSuffix)
      else check_rules (fr_Name rule :: seen) rules
  end.

(** Every rule is decoded into a new element of the slice. *)
Fixpoint unmarshal_rules (rules : list FilterRule) : outcome ev_err (list FilterRule) :=
  match rules with
  | [] => Ok []
  | rule :: rules => rule ←? FilterRule_Unmarshal (mkFR "" "") rule; rules ←? unmarshal_rules rules; Ok (rule :: rules)
  end.

Definition FilterRuleList_Unmarshal (rules : list FilterRule) : outcome ev_err (list FilterRule) :=
  rules ←? unmarshal_rules rules;
  match check_rules [] rules with Some err => Err err | None => Ok rules end.

(** The last value of the name. *)
Definition rule_value (name : string) (rules : list FilterRule) : string :=
  foldl (λ v rule, if String.eqb (fr_Name rule) name then fr_Value rule else v) "" rules.

Definition FilterRuleList_Pattern (rules : list FilterRule) : string := NewPattern (rule_value "prefix" rules) (rule_value "suffix" rules).

Record Queue := mkQueue { q_ID : string; q_Filter : list FilterRule; q_Events : list Name; q_ARN : ARN }.

#[global] Instance Queue_eq_dec : EqDecision Queue.
Proof. solve_decision. Defined.

Fixpoint check_events (seen : list string) (events : list Name) : option ev_err :=
  match events with
  | [] => None
  | name :: events =>
      if existsb (String.eqb (Name_String name)) seen then Some ErrDuplicateEventName
      else check_events (Name_String name :: seen) events
  end.

Definition Queue_Unmarshal (q : Queue) : outcome ev_err Queue :=
  rules ←? FilterRuleList_Unmarshal (q_Filter q);
  match q_Events q with
  | [] => Err ErrMissingEventNames
  | events => match check_events [] events with Some err => Err err | None => Ok (mkQueue (q_ID q) rules events (q_ARN q)) end
  end.

Definition Queue_SetRegion (region : string) (q : Queue) : Queue :=
  mkQueue (q_ID q) (q_Filter q) (q_Events q) (mkARN (arn_TargetID (q_ARN q)) region).

Definition Queue_Validate (exists_ : TargetID → bool) (region : string) (q : Queue) : option ev_err :=
  let arn := q_ARN q in
  if String.eqb (arn_region arn) "" then if exists_ (arn_TargetID arn) then None else Some ErrARNNotFound
  else if negb (String.eqb region "") && negb (String.eqb (arn_region arn) region) then Some ErrUnknownRegion
  else if exists_ (arn_TargetID arn) then None else Some ErrARNNotFound.

Definition Queue_ToRulesMap (q : Queue) : RulesMap :=
  NewRulesMap (q_Events q) (FilterRuleList_Pattern (q_Filter q)) (arn_TargetID (q_ARN q)).

(** The queues, and whether there are cloud functions or topics. *)
Record Config := mkEvConfig { c_QueueList : list Queue; c_unsupported : bool }.

Definition same_queue (q1 q2 : Queue) : bool :=
  let q2 := if negb (String.eqb (arn_region (q_ARN q2)) "") && String.eqb (arn_region (q_ARN q1)) "" then Queue_SetRegion "" q2 else q2 in
  bool_decide (q1 = q2).

Fixpoint duplicate_queue (queues : list Queue) : bool :=
  match queues with
  | [] => false
  | q1 :: queues => existsb (same_queue q1) queues || duplicate_queue queues
  end.

Fixpoint unmarshal_queues (queues : list Queue) : outcome ev_err (list Queue) :=
  match queues with
  | [] => Ok []
  | q :: queues => q ←? Queue_Unmarshal q; queues ←? unmarshal_queues queues; Ok (q :: queues)
  end.

Definition Config_Unmarshal (conf : Config) : outcome ev_err Config :=
  queues ←? unmarshal_queues (c_QueueList conf);
  if duplicate_queue queues then Err ErrDuplicateQueueConfiguration
  else if c_unsupported conf then Err ErrUnsupportedConfiguration
  else Ok (mkEvConfig queues false).

Fixpoint validate_queues (exists_ : TargetID → bool) (region : string) (queues : list Queue) : option ev_err :=
  match queues with
  | [] => None
  | q :: queues => match Queue_Validate exists_ region q with Some err => Some err | None => validate_queues exists_ region queues end
  end.

Definition Config_Validate (exists_ : TargetID → bool) (region : string) (conf : Config) : option ev_err :=
  validate_queues exists_ region (c_QueueList conf).

Definition Config_SetRegion (region : string) (conf : Config) : Config :=
  mkEvConfig (Queue_SetRegion region <$> c_QueueList conf) (c_unsupported conf).

Definition Config_ToRulesMap (conf : Config) : RulesMap := foldl (λ rm q, rm_Add rm (Queue_ToRulesMap q)) ∅ (c_QueueList conf).

(** From the decoded XML. *)
Definition ParseConfig (exists_ : TargetID → bool) (region : string) (decoded : Config) : outcome ev_err Config :=
  conf ←? Config_Unmarshal decoded;
  match Config_Validate exists_ region conf with
  | Some err => Err err
  | None => Ok (Config_SetRegion region conf)
  end.

(** ** The notification system (cmd/notification.go) *)

Record NotificationSys {target : Type} := mkNS {
  ns_targetList : gmap TargetID target;
  ns_bucketRulesMap : gmap string RulesMap;
  ns_bucketRemoteTargetRulesMap : gmap string (gmap TargetID RulesMap);
}.
Arguments NotificationSys : clear implicits.
Arguments mkNS {target}.

Section Notify.
Context {target : Type} `{!Wildcard}.
Abbreviation sys := (NotificationSys target).

Definition bucket_rules (s : sys) (bucket : string) : RulesMap := default ∅ (ns_bucketRulesMap s !! bucket).

Definition with_rules (s : sys) (m : gmap string RulesMap) : sys := mkNS (ns_targetList s) m (ns_bucketRemoteTargetRulesMap s).

(** A map without rules is not kept. *)
Definition put_rules (s : sys) (bucket : string) (rm : RulesMap) : sys :=
  with_rules s (if (size rm =? 0)%nat then delete bucket (ns_bucketRulesMap s) else <[bucket := rm]> (ns_bucketRulesMap s)).

Definition AddRulesMap (s : sys) (bucket : string) (rulesMap : RulesMap) : sys :=
  let remote := default ∅ (ns_bucketRemoteTargetRulesMap s !! bucket) in
  put_rules s bucket (foldl rm_Add rulesMap (map_to_list remote).*2).

Definition RemoveRulesMap (s : sys) (bucket : string) (rulesMap : RulesMap) : sys :=
  put_rules s bucket (rm_Remove (bucket_rules s bucket) rulesMap).

Definition RemoveNotification (s : sys) (bucket : string) : sys :=
  let remote := default ∅ (ns_bucketRemoteTargetRulesMap s !! bucket) in
  mkNS (TargetList_Remove (ns_targetList s) (dom remote)) (delete bucket (ns_bucketRulesMap s)) (delete bucket (ns_bucketRemoteTargetRulesMap s)).

(** [set]: errors of [Validate] are only logged. *)
Definition ns_set (s : sys) (region bucket : string) (config : option Config) : sys :=
  match config with
  | None => s
  | Some config => AddRulesMap s bucket (Config_ToRulesMap (Config_SetRegion region config))
  end.

(** The targets that save the event. *)
Definition ns_Send (s : sys) (bucket : string) (eventName : Name) (object : string) : gmap TargetID target :=
  let targetIDSet := rm_Match (bucket_rules s bucket) eventName object in
  if (size targetIDSet =? 0)%nat then ∅ else TargetList_Send (ns_targetList s) targetIDSet.

End Notify.

(** ** The rules of a map *)

(** The map sends event [e] on the names of pattern [p] to target [t]. *)
Definition has_rule (rm : RulesMap) (e : Name) (p : string) (t : TargetID) : Prop := t ∈ (default ∅ (rm_rules rm e !! p) : TargetIDSet).

Lemma Rules_Match_elem `{!Wildcard} (rules : Rules) o t :
  t ∈ Rules_Match rules o ↔ ∃ p, MatchSimple p o = true ∧ t ∈ (default ∅ (rules !! p) : TargetIDSet).
Proof.
  unfold Rules_Match. apply (map_fold_weak_ind (λ ids m, t ∈ ids ↔ ∃ p, MatchSimple p o = true ∧ t ∈ (default ∅ (m !! p) : TargetIDSet))).
  - split; [set_solver|]. intros (p & _ & Hp). rewrite lookup_empty in Hp. set_solver.
  - intros p set m ids Hp IH. assert (t ∈ ids ↔ ∃ p', MatchSimple p' o = true ∧ p' ≠ p ∧ t ∈ (default ∅ (m !! p') : TargetIDSet)) as Hids.
    { rewrite IH. split; intros (p' & H1 & H2); exists p'; [|tauto]. split_and!; [done| |done]. intros ->. rewrite Hp in H2. set_solver. }
    split.
    + destruct (MatchSimple p o) eqn:Hm; [rewrite elem_of_union; intros [Ht|Ht]|intros Ht].
      2: { exists p. by rewrite lookup_insert_eq. }
      all: apply Hids in Ht as (p' & H1 & H2 & H3); exists p'; by rewrite lookup_insert_ne.
    + intros (p' & H1 & H2). destruct (decide (p' = p)) as [->|Hne].
      * rewrite lookup_insert_eq in H2. rewrite H1. set_solver.
      * rewrite lookup_insert_ne in H2 by done. assert (t ∈ ids) by (apply Hids; by exists p'). destruct (MatchSimple p o); set_solver.
Qed.

Lemma rm_Match_elem `{!Wildcard} rm e o t : t ∈ rm_Match rm e o ↔ ∃ p, MatchSimple p o = true ∧ has_rule rm e p t.
Proof. apply Rules_Match_elem. Qed.

Lemma Rules_Union_elem (r1 r2 : Rules) p t :
  t ∈ (default ∅ (Rules_Union r1 r2 !! p) : TargetIDSet) ↔ t ∈ (default ∅ (r1 !! p) : TargetIDSet) ∨ t ∈ (default ∅ (r2 !! p) : TargetIDSet).
Proof. unfold Rules_Union. rewrite lookup_union_with. destruct (r1 !! p), (r2 !! p); cbn; set_solver. Qed.

Lemma has_rule_Add rm rm2 e p t : has_rule (rm_Add rm rm2) e p t ↔ has_rule rm e p t ∨ has_rule rm2 e p t.
Proof.
  unfold has_rule, rm_Add, rm_rules. rewrite lookup_union_with. destruct (rm !! e) as [r|], (rm2 !! e) as [r2|]; cbn.
  - rewrite Rules_Union_elem. tauto.
  - rewrite lookup_empty. set_solver.
  - rewrite lookup_empty. set_solver.
  - rewrite lookup_empty. set_solver.
Qed.

Lemma has_rule_empty e p t : ¬ has_rule ∅ e p t.
Proof. unfold has_rule, rm_rules. rewrite lookup_empty. cbn. rewrite lookup_empty. set_solver. Qed.

Lemma has_rule_add rm names p0 t0 e p t :
  has_rule (rm_add rm names p0 t0) e p t ↔ has_rule rm e p t ∨ (∃ name, name ∈ names ∧ e ∈ Expand name) ∧ p = p0 ∧ t = t0.
Proof.
  assert ((∃ name, name ∈ names ∧ e ∈ Expand name) ↔ e ∈ concat (Expand <$> names)) as ->.
  { rewrite list_elem_of_In, in_concat. setoid_rewrite <- list_elem_of_In. split.
    - intros (name & Hn & He). exists (Expand name). split; [|done]. apply list_elem_of_fmap. by exists name.
    - intros (l & Hl & He). apply list_elem_of_fmap in Hl as (name & -> & Hn). by exists name. }
  unfold rm_add. generalize (concat (Expand <$> names)) as l. intros l. revert rm. induction l as [|n l IH]; intros rm; cbn [foldl].
  { rewrite elem_of_nil. tauto. }
  rewrite IH, elem_of_cons.
  assert (has_rule (<[n:=Rules_Union (rm_rules rm n) (Rules_Add ∅ p0 t0)]> rm) e p t ↔ has_rule rm e p t ∨ e = n ∧ p = p0 ∧ t = t0) as ->; [|tauto].
  unfold has_rule, rm_rules. destruct (decide (e = n)) as [->|Hne]; [|rewrite lookup_insert_ne by done; tauto].
  rewrite lookup_insert_eq. cbn. rewrite Rules_Union_elem. unfold Rules_Add. destruct (decide (p = p0)) as [->|Hp].
  - rewrite lookup_insert_eq. cbn. rewrite lookup_empty. set_solver.
  - rewrite lookup_insert_ne, lookup_empty by done. set_solver.
Qed.

Lemma gset_empty (s : TargetIDSet) : (0 <? size s)%nat = false → s = ∅.
Proof. intros H. apply Nat.ltb_ge in H. apply leibniz_equiv, size_empty_inv. lia. Qed.

Lemma has_rule_Remove rm rm2 e p t : has_rule (rm_Remove rm rm2) e p t ↔ has_rule rm e p t ∧ ¬ has_rule rm2 e p t.
Proof.
  unfold has_rule, rm_Remove, rm_rules. rewrite map_lookup_imap. destruct (rm !! e) as [r|]; cbn; [|rewrite lookup_empty; set_solver].
  set (r2 := default ∅ (rm2 !! e)).
  assert (t ∈ (default ∅ (Rules_Difference r r2 !! p) : TargetIDSet) ↔ t ∈ (default ∅ (r !! p) : TargetIDSet) ∧ t ∉ (default ∅ (r2 !! p) : TargetIDSet)) as Hd.
  { unfold Rules_Difference. rewrite map_lookup_imap. destruct (r !! p) as [s|]; cbn; [|set_solver].
    case_if; cbn; [set_solver|]. match goal with E : _ = false |- _ => apply gset_empty in E end. set_solver. }
  rewrite <- Hd. destruct (size (Rules_Difference r r2) =? 0)%nat eqn:E; cbn; [|done].
  apply Nat.eqb_eq, map_size_empty_inv in E. rewrite E, lookup_empty. done.
Qed.

(** The queue asks for this event on this object. *)
Definition subscribes `{!Wildcard} (q : Queue) (e : Name) (o : string) : Prop :=
  (∃ name, name ∈ q_Events q ∧ e ∈ Expand name) ∧
  let pattern := FilterRuleList_Pattern (q_Filter q) in MatchSimple (if String.eqb pattern "" then "*"%string else pattern) o = true.

Lemma queue_rules `{!Wildcard} q e o t :
  (∃ p, MatchSimple p o = true ∧ has_rule (Queue_ToRulesMap q) e p t) ↔ subscribes q e o ∧ t = arn_TargetID (q_ARN q).
Proof.
  unfold Queue_ToRulesMap, NewRulesMap, subscribes. setoid_rewrite has_rule_add. split.
  - intros (p & Hm & [[]%has_rule_empty|(He & -> & ->)]). by split_and!.
  - intros ((He & Hm) & ->). eexists. split; [exact Hm|]. by right.
Qed.

Lemma fold_rules {A} `{!Wildcard} (f : A → RulesMap) l rm e o t :
  (∃ p, MatchSimple p o = true ∧ has_rule (foldl (λ rm x, rm_Add rm (f x)) rm l) e p t) ↔
  (∃ p, MatchSimple p o = true ∧ has_rule rm e p t) ∨ ∃ x, x ∈ l ∧ ∃ p, MatchSimple p o = true ∧ has_rule (f x) e p t.
Proof.
  revert rm. induction l as [|x l IH]; intros rm; cbn [foldl].
  { split; [by left|]. intros [Hr|(x & Hx & _)]; [done|]. by apply elem_of_nil in Hx. }
  rewrite IH. setoid_rewrite has_rule_Add. setoid_rewrite elem_of_cons. split.
  - intros [(p & Hm & [Hr|Hr])|(y & Hy & Hr)]; [left; by exists p|right; exists x; split; [by left|by exists p]|right; exists y; split; [by right|done]].
  - intros [(p & Hm & Hr)|(y & [->|Hy] & Hr)]; [left; exists p; tauto| |right; by exists y].
    destruct Hr as (p & Hm & Hr). left. exists p. tauto.
Qed.

Section Notified.
Context {target : Type} `{!Wildcard}.
Implicit Types s : NotificationSys target.

Lemma put_rules_same s bucket rm : bucket_rules (put_rules s bucket rm) bucket = rm.
Proof.
  unfold put_rules, bucket_rules. cbn. destruct (size rm =? 0)%nat eqn:E.
  - rewrite lookup_delete_eq. apply Nat.eqb_eq, map_size_empty_inv in E. by rewrite E.
  - by rewrite lookup_insert_eq.
Qed.

Lemma put_rules_other s bucket b rm : b ≠ bucket → bucket_rules (put_rules s bucket rm) b = bucket_rules s b.
Proof. intros Hb. unfold put_rules, bucket_rules. cbn. case_if; [by rewrite lookup_delete_ne|by rewrite lookup_insert_ne]. Qed.

Lemma ns_Send_lookup s bucket e o t x :
  ns_Send s bucket e o !! t = Some x ↔ ns_targetList s !! t = Some x ∧ ∃ p, MatchSimple p o = true ∧ has_rule (bucket_rules s bucket) e p t.
Proof.
  unfold ns_Send. rewrite <- rm_Match_elem. set (ids := rm_Match _ _ _). destruct (size ids =? 0)%nat eqn:E.
  - apply Nat.eqb_eq in E. apply size_empty_inv in E. rewrite lookup_empty. split; [done|]. intros [_ Ht]. set_solver.
  - unfold TargetList_Send. rewrite map_lookup_filter_Some. done.
Qed.

End Notified.

(** C30: an event reaches exactly the targets that ask for it: after the configuration of a
    bucket is set, [Send] has an event on an object saved by a target if and only if the target
    is in the list and is that of a queue of the configuration with the event among its
    events (an abbreviation stands for its events) and a filter that matches the name of
    the object, or has a remote rule for it. The events of other buckets go where
    they went. *)
Theorem notifications_routed {target} `{!Wildcard} (s : NotificationSys target) region bucket conf :
  let s' := ns_set s region bucket (Some conf) in
  (∀ e o t x, ns_Send s' bucket e o !! t = Some x ↔
     ns_targetList s !! t = Some x ∧
     ((∃ q, q ∈ c_QueueList conf ∧ subscribes q e o ∧ t = arn_TargetID (q_ARN q)) ∨
      ∃ id rm, default ∅ (ns_bucketRemoteTargetRulesMap s !! bucket) !! id = Some rm ∧ t ∈ rm_Match rm e o)) ∧
  ∀ b e o, b ≠ bucket → ns_Send s' b e o = ns_Send s b e o.
Proof.
  cbv zeta. cbn [ns_set]. unfold AddRulesMap. split; [intros e o t x|intros b e o Hb; unfold ns_Send; by rewrite put_rules_other].
  rewrite ns_Send_lookup, put_rules_same. cbn [put_rules with_rules ns_targetList].
  enough ((∃ p, MatchSimple p o = true ∧ has_rule (foldl rm_Add (Config_ToRulesMap (Config_SetRegion region conf))
     (map_to_list (default ∅ (ns_bucketRemoteTargetRulesMap s !! bucket))).*2) e p t) ↔
     (∃ q, q ∈ c_QueueList conf ∧ subscribes q e o ∧ t = arn_TargetID (q_ARN q)) ∨
      ∃ id rm, default ∅ (ns_bucketRemoteTargetRulesMap s !! bucket) !! id = Some rm ∧ t ∈ rm_Match rm e o) by tauto.
  rewrite (fold_rules (λ rm, rm)). unfold Config_ToRulesMap. rewrite fold_rules. apply Morphisms_Prop.or_iff_morphism.
  - split.
    + intros [(p & _ & []%has_rule_empty)|(q & Hq & Hr)]. apply queue_rules in Hr as [Hr ->]. cbn in Hq. apply list_elem_of_fmap in Hq as (q0 & -> & Hq). by exists q0.
    + intros (q & Hq & Hr & ->). right. exists (Queue_SetRegion region q). split; [cbn; apply list_elem_of_fmap; by exists q|]. by apply queue_rules.
  - setoid_rewrite list_elem_of_fmap. setoid_rewrite rm_Match_elem. split.
    + intros (rm & ([id rm'] & -> & Hin) & Hr). apply elem_of_map_to_list in Hin. by exists id, rm'.
    + intros (id & rm & Hin & Hr). exists rm. split; [|done]. exists (id, rm). split; [done|]. by apply elem_of_map_to_list.
Qed.

(** Removing rules takes away what they say and nothing else: after [RemoveRulesMap] a target is
    told of an event on an object if and only if a pattern that matches the name sends it there
    by the old rules and not by the removed ones. *)
Theorem removed_rules {target} `{!Wildcard} (s : NotificationSys target) bucket rm2 e o t :
  t ∈ rm_Match (bucket_rules (RemoveRulesMap s bucket rm2) bucket) e o ↔
  ∃ p, MatchSimple p o = true ∧ has_rule (bucket_rules s bucket) e p t ∧ ¬ has_rule rm2 e p t.
Proof. unfold RemoveRulesMap. rewrite put_rules_same, rm_Match_elem. by setoid_rewrite has_rule_Remove. Qed.

(** The names of events can be read back: [ParseName] gives the event that [String] printed, for every
    event but [ObjectRestorePostAll], whose name is accepted and printed as the empty string. *)
Theorem event_names_roundtrip :
  (∀ name, name ≠ ObjectRestorePostAll → ParseName (Name_String name) = Ok name) ∧
  (∀ s name, ParseName s = Ok name → name ≠ ObjectRestorePostAll → Name_String name = s) ∧
  ParseName "s3:ObjectRestore:*" = Ok ObjectRestorePostAll ∧ ParseName (Name_String ObjectRestorePostAll) = Err ErrInvalidEventName.
Proof.
  split_and!; [intros []; done| |done|done].
  intros s name. unfold ParseName. destruct (List.find _ parse_table) as [[s' n]|] eqn:Hf; [|done]. intros [= ->].
  apply List.find_some in Hf as [Hin Heq]. cbn in Heq. apply String.eqb_eq in Heq as <-.
  assert (Forall (λ p : string * Name, p.2 ≠ ObjectRestorePostAll → Name_String p.2 = p.1) parse_table) as Ht by (repeat constructor; done).
  rewrite Forall_forall in Ht. by apply (Ht (s', name)), list_elem_of_In.
Qed.

(** The name of a target can be read back from its ARN. *)
Lemma arn_roundtrip arn :
  no_char colon (tid_ID (arn_TargetID arn)) = true → no_char colon (tid_Name (arn_TargetID arn)) = true → no_char colon (arn_region arn) = true →
  tid_ID (arn_TargetID arn) ≠ ""%string → tid_Name (arn_TargetID arn) ≠ ""%string → parseARN (ARN_String arn) = Ok arn.
Proof.
  destruct arn as [[id name] region]. cbn. intros Hid Hname Hreg Hid0 Hname0. unfold ARN_String, TargetID_String. cbn [arn_TargetID tid_ID tid_Name arn_region].
  rewrite (proj2 (String.eqb_neq id "")) by done. cbn [andb]. unfold parseARN. unfold HasPrefix. rewrite prefix_app. cbn [negb].
  change ("arn:minio:sqs:" +:+ region +:+ ":" +:+ id +:+ ":" +:+ name)
    with ("arn" +:+ String colon ("minio" +:+ String colon ("sqs" +:+ String colon (region +:+ String colon (id +:+ String colon name))))).
  rewrite !split_char_app by done. rewrite split_char_single by done.
  by rewrite (proj2 (String.eqb_neq id "")), (proj2 (String.eqb_neq name "")) by done.
Qed.

(** Values of filters are not checked: [UnmarshalXML] looks at the value of what it decodes into. *)
Lemma filter_values_unchecked value :
  FilterRule_Unmarshal (mkFR "" "") (mkFR "prefix" value) = Ok (mkFR "prefix" value) ∧ ValidateFilterRuleValue "../x" = Some ErrInvalidFilterValue.
Proof. done. Qed.
