(* ===== verification/ChunkedReader.v ===== *)
(** * Signed uploads in chunks (cmd/streaming-signature-v4.go)

    The body of a streaming upload is a sequence of chunks, each with a signature
    that covers its content and the signature before it; an empty chunk ends it. The
    reader checks every chunk before it gives out its content. *)

From Stdlib Require Import ZArith Lia Bool Ascii.
From S2P Require Import Prelude GoStrings.

Local Open Scope go_scope.

Abbreviation data := (list ascii).

(** ** Signatures (cmd/signature-v4.go) *)

(** HMAC-SHA256 and SHA-256. *)
Class Signing := {
  sumHMAC : string → string → string;
  sha256_Sum : data → string;
}.

(** What is fixed for a request: the secret key, the region, and the date of the
    seed signature in the formats 20060102T150405Z and 20060102. *)
Record credentials := mkCred { SecretKey : string; region : string; date_iso8601 : string; date_yyyymmdd : string }.

Definition LF : ascii := ascii_of_N 10.
Definition CR : ascii := ascii_of_N 13.
Definition nl : string := String LF "".

Definition emptySHA256 : string := "e3b0c44298fc1c149afbf4c8996fb92427ae41e4649b934ca495991b7852b855".
Definition signV4ChunkedAlgorithm : string := "AWS4-HMAC-SHA256-PAYLOAD".

Definition getScope (cred : credentials) : string := str_join "/" [date_yyyymmdd cred; region cred; "s3"; "aws4_request"].

Section Sign.
Context {signing : Signing} (cred : credentials).

Definition getSigningKey : string :=
  let date := sumHMAC ("AWS4" +:+ SecretKey cred) (date_yyyymmdd cred) in
  let regionBytes := sumHMAC date (region cred) in
  let service := sumHMAC regionBytes "s3" in
  sumHMAC service "aws4_request".

Definition getSignature (signingKey stringToSign : string) : string := hex_encode (sumHMAC signingKey stringToSign).

Definition getChunkSignature (seedSignature hashedChunk : string) : string :=
  let stringToSign :=
    signV4ChunkedAlgorithm +:+ nl +:+ date_iso8601 cred +:+ nl +:+ getScope cred +:+ nl +:+ seedSignature +:+ nl +:+
    emptySHA256 +:+ nl +:+ hashedChunk in
  getSignature getSigningKey stringToSign.

(** The signature of a chunk with this content. *)
Definition chunk_signature (seedSignature : string) (content : data) : string :=
  getChunkSignature seedSignature (hex_encode (sha256_Sum content)).

End Sign.

Definition compareSignatureV4 (sig1 sig2 : string) : bool := String.eqb sig1 sig2.

(** ** Reading the body *)

Inductive cr_error :=
  | io_EOF
  | io_ErrUnexpectedEOF
  | errMalformedEncoding
  | errChunkTooBig
  | errSignatureMismatch
  | BodyErr (msg : string).

Definition maxChunkSize : Z := Z.shiftl 16 20.

Definition signature_prefix : data := String.list_ascii_of_string "chunk-signature=".

(** [reader]: what is left of the body; [body_end] is the error after it. [hashed] is what was written to
    the hash since its last [Reset]. *)
Record s3ChunkedReader := mkCR {
  cr_reader : data;
  cr_seedSignature : string;
  cr_hashed : data;
  cr_buffer : data;
  cr_offset : nat;
  cr_err : option cr_error;
}.

Section Reader.
Context {signing : Signing} (cred : credentials) (body_end : cr_error).

(** [err == io.EOF] becomes [io.ErrUnexpectedEOF]. *)
Definition no_eof (err : cr_error) : cr_error := match err with io_EOF => io_ErrUnexpectedEOF | err => err end.

Definition rdM := M data cr_error.

Definition ReadByte : rdM ascii :=
  λ r, match r with b :: r => (Ok b, r) | [] => (Err (no_eof body_end), []) end.

(** [io.ReadFull] of [n] bytes, with [io.EOF] changed as the code does. *)
Definition ReadFull (n : nat) : rdM data :=
  λ r, if (n <=? length r)%nat then (Ok (take n r), drop n r) else (Err (no_eof body_end), []).

(** The size, up to the separator. *)
Fixpoint read_size (size : Z) (r : data) : outcome cr_error Z * data :=
  match r with
  | [] => (Err (no_eof body_end), [])
  | b :: r =>
      if Ascii.eqb b ";" then (Ok size, r)
      else match hex_val b with
      | None => (Err errMalformedEncoding, r)
      | Some d =>
          let size := Z.lor (Z.shiftl size 4) (Z.of_N d) in
          if (maxChunkSize <? size)%Z then (Err errChunkTooBig, r) else read_size size r
      end
  end.

Definition expect (c : ascii) : rdM () :=
  b ←! ReadByte; if Ascii.eqb b c then mret_ok () else mfail errMalformedEncoding.

(** The byte after the content: its error is not looked at. *)
Definition expect_cr : rdM () :=
  λ r, match r with
       | b :: r => if Ascii.eqb b CR then (Ok (), r) else (Err errMalformedEncoding, r)
       | [] => (Err errMalformedEncoding, [])
       end.

(** A chunk: the signature that was received and the content. *)
Definition read_chunk : rdM (data * data) :=
  size ←! read_size 0;
  signature ←! ReadFull 80;
  if negb (bool_decide (take 16 signature = signature_prefix)) then mfail errMalformedEncoding
  else
    _ ←! expect CR;
    _ ←! expect LF;
    content ←! ReadFull (Z.to_nat size);
    _ ←! expect_cr;
    _ ←! expect LF;
    mret_ok (drop 16 signature, content).

(** With [offset] 0 nothing of the buffer is given out any more. *)
Definition failed (out : data) (err : cr_error) (reader : data) (hashed : data) (cr : s3ChunkedReader) : data * option cr_error * s3ChunkedReader :=
  (out, Some err, mkCR reader (cr_seedSignature cr) hashed (cr_buffer cr) 0 (Some err)).

(** The next chunk, for a buffer with room for [len] bytes more; [out] has been copied. *)
Definition next_chunk (out : data) (len : nat) (cr : s3ChunkedReader) : data * option cr_error * s3ChunkedReader :=
  match read_chunk (cr_reader cr) with
  | (Ok (signature, content), reader) =>
      let hashed := cr_hashed cr ++ content in
      let newSignature := chunk_signature cred (cr_seedSignature cr) hashed in
      if negb (compareSignatureV4 (String.string_of_list_ascii signature) newSignature) then failed out errSignatureMismatch reader hashed cr
      else if (length content =? 0)%nat then (out, Some io_EOF, mkCR reader newSignature [] content 0 (Some io_EOF))
      else (out ++ take len content, None, mkCR reader newSignature [] content (Nat.min len (length content)) (cr_err cr))
  | (Err err, reader) => failed out err reader (cr_hashed cr) cr
  | (Panic _, reader) => failed out errMalformedEncoding reader (cr_hashed cr) cr
  end.

(** [Read] with a buffer of [len] bytes: what was copied to it, and the error. *)
Definition cr_Read (len : nat) (cr : s3ChunkedReader) : data * option cr_error * s3ChunkedReader :=
  if (0 <? cr_offset cr)%nat then
    let out := take len (drop (cr_offset cr) (cr_buffer cr)) in
    if (length out =? len)%nat
    then (out, None, mkCR (cr_reader cr) (cr_seedSignature cr) (cr_hashed cr) (cr_buffer cr) (cr_offset cr + length out) (cr_err cr))
    else next_chunk out (len - length out) cr
  else next_chunk [] len cr.

Definition newSignV4ChunkedReader (seedSignature : string) (body : data) : s3ChunkedReader := mkCR body seedSignature [] [] 0 None.

(** Calls of [Read] with buffers of these sizes. An error does not stop the reader: [cr.err] is set but never looked at. *)
Fixpoint cr_reads (sizes : list nat) (cr : s3ChunkedReader) : list (data * option cr_error) * s3ChunkedReader :=
  match sizes with
  | [] => ([], cr)
  | len :: sizes =>
      let '(out, err, cr) := cr_Read len cr in
      let '(rs, cr) := cr_reads sizes cr in ((out, err) :: rs, cr)
  end.

End Reader.

(** What a caller has that stops at the first error, as one of an [io.Reader] does. *)
Fixpoint received (rs : list (data * option cr_error)) : data * option cr_error :=
  match rs with
  | [] => ([], None)
  | (out, Some err) :: _ => (out, Some err)
  | (out, None) :: rs => let '(out2, err) := received rs in (out ++ out2, err)
  end.

(** ** Chunks *)

(** The size that a sequence of hexadecimal digits stands for. *)
Fixpoint hex_number (size : Z) (h : data) : option Z :=
  match h with
  | [] => Some size
  | b :: h => d ← hex_val b; hex_number (size * 16 + Z.of_N d) h
  end.

(** A chunk as it is sent: [h] is its size in hexadecimal. *)
Definition chunk_text (h : data) (signature content : data) : data :=
  h ++ [";"%char] ++ signature_prefix ++ signature ++ [CR; LF] ++ content ++ [CR; LF].

Definition well_formed (h signature content : data) : Prop :=
  hex_number 0 h = Some (Z.of_nat (length content)) ∧ (Z.of_nat (length content) ≤ maxChunkSize)%Z ∧ length signature = 64%nat.

Section Chunks.
Context (body_end : cr_error).

Lemma hex_val_bound b d : hex_val b = Some d → (d < 16)%N.
Proof. destruct b as [[] [] [] [] [] [] [] []]; cbn; intros [= <-]; lia. Qed.

Lemma hex_val_semi : hex_val ";" = None.
Proof. done. Qed.

Lemma shift_digit size d : (0 ≤ size)%Z → (d < 16)%N → Z.lor (Z.shiftl size 4) (Z.of_N d) = (size * 16 + Z.of_N d)%Z.
Proof.
  intros Hs Hd. rewrite Z.shiftl_mul_pow2 by lia. change (2 ^ 4)%Z with 16%Z.
  assert (Z.land (size * 16) (Z.of_N d) = 0)%Z as Hl; [|by rewrite <- Z.lxor_lor, <- Z.add_nocarry_lxor by done].
  apply Z.bits_inj'. intros k Hk. rewrite Z.land_spec, Z.bits_0. destruct (Z.lt_ge_cases k 4) as [Hlt|Hge].
  - change 16%Z with (2 ^ 4)%Z. by rewrite Z.mul_pow2_bits_low by lia.
  - assert (Z.testbit (Z.of_N d) k = false) as ->; [|apply andb_false_r]. apply Z.testbit_false; [lia|]. rewrite Z.div_small; [done|].
    split; [lia|]. apply Z.lt_le_trans with (2 ^ 4)%Z; [lia|]. apply Z.pow_le_mono_r; lia.
Qed.

Lemma hex_number_mono size h n : (0 ≤ size)%Z → hex_number size h = Some n → (size ≤ n)%Z.
Proof.
  revert size. induction h as [|b h IH]; intros size Hs; cbn [hex_number]; [by intros [= ->]|].
  intros (d & Hd & Hn)%bind_Some. pose proof (hex_val_bound b d Hd). apply IH in Hn; lia.
Qed.

Lemma hex_digit_not_semi b d : hex_val b = Some d → Ascii.eqb b ";" = false.
Proof. intros Hd. apply Ascii.eqb_neq. by intros ->. Qed.

Lemma read_size_text size h n rest :
  (0 ≤ size)%Z → hex_number size h = Some n → (n ≤ maxChunkSize)%Z → read_size body_end size (h ++ [";"%char] ++ rest) = (Ok n, rest).
Proof.
  revert size. induction h as [|b h IH]; intros size Hs; cbn [hex_number app]; [by intros [= ->]|].
  intros (d & Hd & Hn)%bind_Some Hmax. cbn [read_size]. rewrite (hex_digit_not_semi b d Hd), Hd. pose proof (hex_val_bound b d Hd).
  rewrite shift_digit by done. pose proof (hex_number_mono (size * 16 + Z.of_N d) h n ltac:(lia) Hn). rewrite (proj2 (Z.ltb_ge _ _)) by lia. apply IH; [lia|done|done].
Qed.

Lemma read_size_inv size r n rest :
  (0 ≤ size ≤ maxChunkSize)%Z → read_size body_end size r = (Ok n, rest) →
  ∃ h, r = h ++ [";"%char] ++ rest ∧ hex_number size h = Some n ∧ (0 ≤ n ≤ maxChunkSize)%Z.
Proof.
  revert size. induction r as [|b r IH]; intros size Hs; cbn [read_size]; [done|].
  destruct (Ascii.eqb_spec b ";") as [->|Hb]; [intros [= -> ->]; by exists []|]. destruct (hex_val b) as [d|] eqn:Hd; [|done].
  pose proof (hex_val_bound b d Hd). rewrite shift_digit by lia. case_if; [done|]. destruct_bools. intros Hr.
  destruct (IH (size * 16 + Z.of_N d)%Z ltac:(lia) Hr) as (h & -> & Hn & Hle). exists (b :: h). split_and!; try done; try lia. cbn [hex_number]. by rewrite Hd.
Qed.

Lemma ReadFull_app n (a rest : data) : length a = n → ReadFull body_end n (a ++ rest) = (Ok a, rest).
Proof.
  intros <-. unfold ReadFull. rewrite length_app, (proj2 (Nat.leb_le _ _)) by lia. by rewrite take_app_length, drop_app_length.
Qed.

Lemma ReadFull_inv n r a rest : ReadFull body_end n r = (Ok a, rest) → r = a ++ rest ∧ length a = n.
Proof. unfold ReadFull. case_if; [|done]. apply Nat.leb_le in E. intros [= <- <-]. by rewrite take_drop, length_take, Nat.min_l. Qed.

Lemma expect_inv c r u rest : expect body_end c r = (Ok u, rest) → r = c :: rest.
Proof.
  unfold expect, mbind_ok, ReadByte. destruct r as [|b r]; [done|]. destruct (Ascii.eqb_spec b c) as [->|]; [|done]. by intros [= _ ->].
Qed.

Lemma expect_cr_inv r u rest : expect_cr r = (Ok u, rest) → r = CR :: rest.
Proof. unfold expect_cr. destruct r as [|b r]; [done|]. destruct (Ascii.eqb_spec b CR) as [->|]; [|done]. by intros [= _ ->]. Qed.

(** What is read as a chunk is one. *)
Lemma read_chunk_text h signature content rest :
  well_formed h signature content → read_chunk body_end (chunk_text h signature content ++ rest) = (Ok (signature, content), rest).
Proof.
  intros (Hh & Hmax & Hsig). unfold read_chunk, chunk_text, mbind_ok. rewrite <- !app_assoc.
  rewrite (read_size_text 0 h _ _ ltac:(lia) Hh Hmax). rewrite (app_assoc signature_prefix signature).
  rewrite (ReadFull_app 80 (signature_prefix ++ signature)) by (rewrite length_app, Hsig; done).
  rewrite (take_app_length' _ _ 16), bool_decide_true by done. cbn [negb]. rewrite (drop_app_length' _ _ 16) by done.
  cbn [app expect mbind_ok ReadByte]. cbn. rewrite Nat2Z.id, ReadFull_app by done. done.
Qed.

Lemma read_chunk_inv r signature content rest :
  read_chunk body_end r = (Ok (signature, content), rest) → ∃ h, r = chunk_text h signature content ++ rest ∧ well_formed h signature content.
Proof.
  unfold read_chunk, mbind_ok. destruct (read_size body_end 0 r) as [[n| |] r1] eqn:H1; [|done..].
  apply read_size_inv in H1 as (h & -> & Hh & Hn); [|by vm_compute].
  destruct (ReadFull body_end 80 r1) as [[s| |] r2] eqn:H2; [|done..]. apply ReadFull_inv in H2 as [-> Hs].
  case_bool_decide as Hp; [|done]. cbn [negb].
  destruct (expect body_end CR r2) as [[[]| |] r3] eqn:H3; [|done..]. apply expect_inv in H3 as ->.
  destruct (expect body_end LF r3) as [[[]| |] r4] eqn:H4; [|done..]. apply expect_inv in H4 as ->.
  destruct (ReadFull body_end (Z.to_nat n) r4) as [[c| |] r5] eqn:H5; [|done..]. apply ReadFull_inv in H5 as [-> Hc].
  destruct (expect_cr r5) as [[[]| |] r6] eqn:H6; [|done..]. apply expect_cr_inv in H6 as ->.
  destruct (expect body_end LF r6) as [[[]| |] r7] eqn:H7; [|done..]. apply expect_inv in H7 as ->.
  intros [= <- <- <-]. exists h. split.
  - unfold chunk_text. rewrite <- (take_drop 16 s) at 1. rewrite Hp. by rewrite <- !app_assoc.
  - split_and!; [rewrite Hh; f_equal; lia|lia|rewrite length_drop; lia].
Qed.

End Chunks.

(** ** What a reader gives out *)

(** The chunks of these contents, each signed after the one before it, from signature [s] to [s']. *)
Inductive signed {signing : Signing} (cred : credentials) : string → list data → data → string → data → Prop :=
  | signed_nil s rest : signed cred s [] rest s rest
  | signed_cons s h signature content contents body s' rest :
      well_formed h signature content → String.string_of_list_ascii signature = chunk_signature cred s content →
      signed cred (chunk_signature cred s content) contents body s' rest →
      signed cred s (content :: contents) (chunk_text h signature content ++ body) s' rest.

Section Reads.
Context {signing : Signing} (cred : credentials) (body_end : cr_error).

(** What has been read and not yet given out. *)
Definition pending (cr : s3ChunkedReader) : data := if (0 <? cr_offset cr)%nat then drop (cr_offset cr) (cr_buffer cr) else [].

Lemma read_size_eof size r err rest : read_size body_end size r = (Err err, rest) → err ≠ io_EOF.
Proof.
  revert size. induction r as [|b r IH]; intros size; cbn [read_size]; [intros [= <- _]; by destruct body_end|].
  case_if; [done|]. destruct (hex_val b); [|by intros [= <- _]]. case_if; [by intros [= <- _]|apply IH].
Qed.

Lemma ReadFull_eof n r err rest : ReadFull body_end n r = (Err err, rest) → err ≠ io_EOF.
Proof. unfold ReadFull. case_if; [done|]. intros [= <- _]. by destruct body_end. Qed.

Lemma expect_eof c r err rest : expect body_end c r = (Err err, rest) → err ≠ io_EOF.
Proof.
  unfold expect, mbind_ok, ReadByte. destruct r as [|b r]; [intros [= <- _]; by destruct body_end|]. case_if; [done|]. by intros [= <- _].
Qed.

Lemma expect_cr_eof r err rest : expect_cr r = (Err err, rest) → err ≠ io_EOF.
Proof. unfold expect_cr. destruct r as [|b r]; [by intros [= <- _]|]. case_if; [done|]. by intros [= <- _]. Qed.

(** A body that ends inside a chunk is not taken for a complete one. *)
Lemma read_chunk_eof r err rest : read_chunk body_end r = (Err err, rest) → err ≠ io_EOF.
Proof.
  unfold read_chunk, mbind_ok.
  repeat first
    [ match goal with
      | |- context [match ?m with _ => _ end] =>
          match m with
          | read_size _ _ _ => idtac | ReadFull _ _ _ => idtac | expect _ _ _ => idtac | expect_cr _ => idtac
          end; let r := fresh "r" in let E := fresh "E" in destruct m as [[| |] r] eqn:E
      end
    | done
    | (intros [= <- <-]; eauto using read_size_eof, ReadFull_eof, expect_eof, expect_cr_eof; fail)
    | case_if ].
  all: by intros [= <- <-].
Qed.

(** The reads before the first one with room in its buffer. *)
Fixpoint empty_first (sizes : list nat) : nat := match sizes with O :: sizes => S (empty_first sizes) | _ => O end.

(** There is room in the buffer, or something of a chunk has been given out: no chunk is lost. *)
Definition keeps (len : nat) (cr : s3ChunkedReader) : Prop := (0 < len)%nat ∨ (0 < cr_offset cr)%nat.

Lemma next_chunk_spec out len cr out' err cr' :
  cr_hashed cr = [] → next_chunk cred body_end out len cr = (out', err, cr') →
  (∃ h signature content, cr_reader cr = chunk_text h signature content ++ cr_reader cr' ∧ well_formed h signature content ∧
    String.string_of_list_ascii signature = chunk_signature cred (cr_seedSignature cr) content ∧
    cr_seedSignature cr' = chunk_signature cred (cr_seedSignature cr) content ∧ cr_hashed cr' = [] ∧
    (content = [] ∧ err = Some io_EOF ∧ out' = out ∨
     content ≠ [] ∧ err = None ∧ out' = out ++ take len content ∧
       if decide (len = O) then cr_offset cr' = O else (0 < cr_offset cr')%nat ∧ pending cr' = drop len content)) ∨
  (∃ e, err = Some e ∧ e ≠ io_EOF ∧ out' = out).
Proof.
  intros Hh. unfold next_chunk, failed. rewrite Hh. cbn [app]. destruct (read_chunk body_end (cr_reader cr)) as [[[signature content]|e|] r] eqn:Hr.
  - apply read_chunk_inv in Hr as (h & Hr & Hwf). unfold compareSignatureV4. case_if; [intros [= <- <- <-]; right; by eexists|]. destruct_bools.
    apply String.eqb_eq in E. intros Hres. left. exists h, signature, content.
    destruct content as [|c content]; cbn in Hres; injection Hres as <- <- <-; split_and!; try done; [by left|right].
    split_and!; try done. destruct len as [|len]; [done|]. cbn. split; [lia|]. unfold pending. cbn.
    destruct (Nat.min_spec len (length content)) as [[_ ->]|[Hle ->]]; [done|]. by rewrite !drop_ge by lia.
  - apply read_chunk_eof in Hr. intros [= <- <- <-]. right. by exists e.
  - intros [= <- <- <-]. right. by eexists.
Qed.

Lemma cr_Read_spec len cr out err cr' :
  cr_hashed cr = [] → keeps len cr → cr_Read cred body_end len cr = (out, err, cr') →
  (err = None ∧ (len ≤ length (pending cr))%nat ∧ out = take len (pending cr) ∧ pending cr' = drop len (pending cr) ∧
    cr_reader cr' = cr_reader cr ∧ cr_seedSignature cr' = cr_seedSignature cr ∧ cr_hashed cr' = [] ∧ (0 < cr_offset cr')%nat) ∨
  (∃ h signature content, cr_reader cr = chunk_text h signature content ++ cr_reader cr' ∧ well_formed h signature content ∧
    String.string_of_list_ascii signature = chunk_signature cred (cr_seedSignature cr) content ∧
    cr_seedSignature cr' = chunk_signature cred (cr_seedSignature cr) content ∧ cr_hashed cr' = [] ∧
    (content = [] ∧ err = Some io_EOF ∧ out = pending cr ∨
     content ≠ [] ∧ err = None ∧ (0 < cr_offset cr')%nat ∧
       ∃ k, (0 < k)%nat ∧ out = pending cr ++ take k content ∧ pending cr' = drop k content)) ∨
  (∃ e, err = Some e ∧ e ≠ io_EOF ∧ out = pending cr).
Proof.
  intros Hh Hlen. unfold cr_Read. destruct (Nat.ltb_spec 0 (cr_offset cr)) as [Ho|Ho].
  - assert (pending cr = drop (cr_offset cr) (cr_buffer cr)) as HP by (unfold pending; by rewrite (proj2 (Nat.ltb_lt _ _))). rewrite <- HP.
    rewrite length_take. destruct (Nat.eqb_spec (Nat.min len (length (pending cr))) len) as [E|E].
    + rewrite E. intros [= <- <- <-]. left. split_and!; try done; [lia| |cbn; lia]. rewrite HP, drop_drop. unfold pending at 1. cbn [cr_offset cr_buffer].
      by rewrite (proj2 (Nat.ltb_lt _ _)) by lia.
    + rewrite take_ge by lia. intros Hn. right. apply next_chunk_spec in Hn as [(h & sg & c & H1 & H2 & H3 & H4 & H5 & H6)|H6]; [left|by right|done].
      exists h, sg, c. split_and!; try done. rewrite decide_False in H6 by lia. destruct H6 as [?|(? & ? & -> & ? & ->)]; [by left|right].
      split_and!; try done. eexists. split; [|done]. lia.
  - assert (pending cr = []) as -> by (unfold pending; by rewrite (proj2 (Nat.ltb_ge _ _))).
    destruct Hlen as [Hlen|?]; [|lia].
    intros Hn. right. apply next_chunk_spec in Hn as [(h & sg & c & H1 & H2 & H3 & H4 & H5 & H6)|H6]; [left|by right|done].
    exists h, sg, c. split_and!; try done. rewrite decide_False in H6 by lia. destruct H6 as [?|(? & ? & -> & ? & ->)]; [by left|right].
    split_and!; try done. by exists len.
Qed.

Lemma received_cons len sizes cr out err cr1 :
  cr_Read cred body_end len cr = (out, err, cr1) →
  received (cr_reads cred body_end (len :: sizes) cr).1 =
    match err with Some e => (out, Some e) | None => let '(out2, e) := received (cr_reads cred body_end sizes cr1).1 in (out ++ out2, e) end.
Proof. intros Hr. cbn [cr_reads]. rewrite Hr. destruct (cr_reads cred body_end sizes cr1). by destruct err. Qed.

Lemma reads_safe sizes cr out err :
  cr_hashed cr = [] → from_option (λ len, keeps len cr) True (head sizes) → received (cr_reads cred body_end sizes cr).1 = (out, err) →
  ∃ contents s rest, signed cred (cr_seedSignature cr) contents (cr_reader cr) s rest ∧ out `prefix_of` pending cr ++ concat contents ∧
    (err = Some io_EOF → out = pending cr ++ concat contents ∧ last contents = Some []).
Proof.
  revert cr out err. induction sizes as [|len sizes IH]; intros cr out err Hh Hk.
  { intros [= <- <-]. eexists [], _, _. split_and!; [constructor|apply prefix_nil|done]. }
  destruct (cr_Read cred body_end len cr) as [[o e] cr1] eqn:Hr. rewrite (received_cons _ _ _ _ _ _ Hr). apply cr_Read_spec in Hr; [|done|done].
  assert ((0 < cr_offset cr1)%nat → from_option (λ len, keeps len cr1) True (head sizes)) as Hk1 by (intros; destruct sizes; [done|by right]).
  destruct Hr as [(-> & Hl & -> & Hp & E1 & E2 & E3 & Ho)|[(h & sg & c & E1 & Hwf & Hsig & E2 & E3 & Hc)|(e0 & -> & He & ->)]].
  - destruct (received _) as [o2 e2] eqn:Hr2. destruct (IH cr1 _ _ E3 (Hk1 Ho) Hr2) as (cs & s & rest & Hsd & Hpre & Heof).
    rewrite E1, E2, Hp in *. intros [= <- <-]. exists cs, s, rest.
    assert (pending cr ++ concat cs = take len (pending cr) ++ drop len (pending cr) ++ concat cs) as -> by (by rewrite app_assoc, take_drop).
    split_and!; [done|by apply list.prefix_app|]. intros He. by destruct (Heof He) as [-> ?].
  - destruct Hc as [(-> & -> & ->)|(Hne & -> & Ho & k & Hpos & -> & Hp)].
    + intros [= <- <-]. eexists [[]], _, _. rewrite E1. split_and!; [econstructor; [done|done|constructor]|cbn; by rewrite app_nil_r|].
      intros _. split; [cbn; by rewrite app_nil_r|done].
    + destruct (received _) as [o2 e2] eqn:Hr2. destruct (IH cr1 _ _ E3 (Hk1 Ho) Hr2) as (cs & s & rest & Hsd & Hpre & Heof).
      rewrite E2, Hp in *. intros [= <- <-]. exists (c :: cs), s, rest. rewrite E1. cbn [concat]. rewrite <- !app_assoc.
      assert (c ++ concat cs = take k c ++ drop k c ++ concat cs) as -> by (by rewrite app_assoc, take_drop).
      split_and!; [by econstructor|by do 2 apply list.prefix_app|]. intros He. destruct (Heof He) as [-> Hl]. split; [done|]. by destruct cs.
  - intros [= <- <-]. eexists [], _, _. split_and!; [constructor|by apply prefix_app_r|]. intros [= ->]. done.
Qed.

(** From the start: every read before the first one with room loses a chunk. *)
Lemma reads_safe_first sizes cr out err :
  cr_hashed cr = [] → cr_offset cr = O → received (cr_reads cred body_end sizes cr).1 = (out, err) →
  ∃ contents s rest, signed cred (cr_seedSignature cr) contents (cr_reader cr) s rest ∧ out `prefix_of` concat (drop (empty_first sizes) contents) ∧
    (err = Some io_EOF → out = concat (drop (empty_first sizes) contents) ∧ last contents = Some []).
Proof.
  revert cr out err. induction sizes as [|[|len] sizes IH]; intros cr out err Hh Ho.
  - intros [= <- <-]. eexists [], _, _. split_and!; [constructor|apply prefix_nil|done].
  - destruct (cr_Read cred body_end 0 cr) as [[o e] cr1] eqn:Hr. rewrite (received_cons _ _ _ _ _ _ Hr).
    unfold cr_Read in Hr. rewrite Ho in Hr. change (0 <? 0)%nat with false in Hr. cbv iota in Hr.
    apply next_chunk_spec in Hr as [(h & sg & c & E1 & Hwf & Hsig & E2 & E3 & Hc)|(e0 & -> & He & ->)]; [| |done].
    + destruct Hc as [(-> & -> & ->)|(Hne & -> & -> & Ho1)].
      * intros [= <- <-]. eexists [[]], _, _. rewrite E1. split_and!; [econstructor; [done|done|constructor]|apply prefix_nil|]. cbn. by rewrite drop_nil.
      * destruct (received _) as [o2 e2] eqn:Hr2. destruct (IH cr1 _ _ E3 Ho1 Hr2) as (cs & s & rest & Hsd & Hpre & Heof).
        rewrite E2 in Hsd. intros [= <- <-]. exists (c :: cs), s, rest. rewrite E1. split_and!; [by econstructor|done|].
        intros He. destruct (Heof He) as [-> Hl]. split; [done|]. by destruct cs.
    + intros [= <- <-]. eexists [], _, _. split_and!; [constructor|apply prefix_nil|]. intros [= ->]. done.
  - intros Hr. destruct (reads_safe (S len :: sizes) cr out err Hh (or_introl (Nat.lt_0_succ len)) Hr) as (cs & s & rest & Hsd & Hpre & Heof).
    assert (pending cr = []) as Hp by (unfold pending; by rewrite Ho). rewrite Hp in *. by exists cs, s, rest.
Qed.

(** A signed chunk is read. *)
Lemma cr_Read_signed len cr h signature content body :
  cr_hashed cr = [] → cr_reader cr = chunk_text h signature content ++ body → well_formed h signature content →
  String.string_of_list_ascii signature = chunk_signature cred (cr_seedSignature cr) content →
  (cr_Read cred body_end len cr).1.2 = None ∨ (cr_Read cred body_end len cr).1.2 = Some io_EOF.
Proof.
  intros Hh Hr Hwf Hsig.
  assert (∀ out l, (next_chunk cred body_end out l cr).1.2 = None ∨ (next_chunk cred body_end out l cr).1.2 = Some io_EOF) as Hn.
  { intros out l. unfold next_chunk. rewrite Hr, Hh, read_chunk_text by done. cbn [app]. unfold compareSignatureV4. rewrite Hsig, String.eqb_refl. cbn [negb].
    case_if; auto. }
  unfold cr_Read. case_if; [|done]. cbv zeta. case_if; [by left|done].
Qed.

Lemma chunk_text_inj h s c r h' s' c' r' :
  chunk_text h s c ++ r = chunk_text h' s' c' ++ r' → well_formed h s c → well_formed h' s' c' → c = c' ∧ r = r'.
Proof.
  intros E H1 H2. pose proof (read_chunk_text body_end h s c r H1) as Hr. rewrite E, read_chunk_text in Hr by done. by injection Hr as -> -> ->.
Qed.

(** The reads with room in their buffers. *)
Fixpoint roomy (sizes : list nat) : nat := match sizes with [] => O | O :: sizes => roomy sizes | _ :: sizes => S (roomy sizes) end.

Lemma signed_first s cs body s' rest c0 cs0 :
  signed cred s cs body s' rest → cs = c0 :: cs0 →
  ∃ h sg b, body = chunk_text h sg c0 ++ b ∧ well_formed h sg c0 ∧ String.string_of_list_ascii sg = chunk_signature cred s c0 ∧
    signed cred (chunk_signature cred s c0) cs0 b s' rest.
Proof. intros Hsd ->. inversion Hsd as [|? h sg c cs body']; subst. by exists h, sg, body'. Qed.

Lemma reads_complete sizes cr contents s rest :
  cr_hashed cr = [] → from_option (λ len, keeps len cr) True (head sizes) → signed cred (cr_seedSignature cr) (contents ++ [[]]) (cr_reader cr) s rest →
  Forall (λ c, c ≠ []) contents → (length (pending cr) + length (concat contents) < roomy sizes)%nat →
  received (cr_reads cred body_end sizes cr).1 = (pending cr ++ concat contents, Some io_EOF).
Proof.
  revert cr contents. induction sizes as [|len sizes IH]; intros cr contents Hh Hk Hsd Hne Hl; [cbn in Hl; lia|].
  assert (∃ c cs, contents ++ [[]] = c :: cs) as (c & cs & Hcs) by (destruct contents; by eexists _, _).
  destruct (signed_first _ _ _ _ _ _ _ Hsd Hcs) as (h & sg & body & Hb & Hwf & Hsig & Hsd').
  pose proof (cr_Read_signed len cr h sg c body Hh Hb Hwf Hsig) as Hok.
  destruct (cr_Read cred body_end len cr) as [[o e] cr1] eqn:Hr. cbn in Hok. rewrite (received_cons _ _ _ _ _ _ Hr). apply cr_Read_spec in Hr; [|done|done].
  assert ((0 < cr_offset cr1)%nat → from_option (λ len, keeps len cr1) True (head sizes)) as Hk1 by (intros; destruct sizes; [done|by right]).
  destruct Hr as [(-> & Hle & -> & Hp & E1 & E2 & E3 & Ho)|[(h' & sg' & c' & E1 & Hwf' & Hsig' & E2 & E3 & Hc)|(e0 & -> & He & ->)]]; [| |by destruct Hok as [|[= ->]]].
  { rewrite (IH cr1 contents E3 (Hk1 Ho)); [|by rewrite E1, E2|done|rewrite Hp, length_drop; destruct len; cbn in Hl; lia].
    rewrite Hp. by rewrite app_assoc, take_drop. }
  rewrite Hb in E1. apply chunk_text_inj in E1 as [<- ->]; [|done|done]. destruct contents as [|c0 contents].
  - injection Hcs as <- <-. destruct Hc as [(_ & -> & ->)|(? & _)]; [|done]. by rewrite app_nil_r.
  - apply Forall_cons in Hne as [Hc0 Hne]. injection Hcs as <- <-. destruct Hc as [(? & _)|(_ & -> & Ho & k & Hpos & -> & Hp)]; [done|].
    rewrite (IH cr1 contents E3 (Hk1 Ho)); [|by rewrite E2|done|].
    + rewrite Hp. cbn [concat]. by rewrite <- !app_assoc, (app_assoc (take k c0)), take_drop.
    + rewrite Hp, length_drop. cbn [concat] in Hl. rewrite length_app in Hl. destruct c0; [done|]. destruct len; cbn [length roomy] in *; lia.
Qed.

Lemma reads_complete_first sizes cr contents s rest :
  cr_hashed cr = [] → cr_offset cr = O → signed cred (cr_seedSignature cr) (contents ++ [[]]) (cr_reader cr) s rest →
  Forall (λ c, c ≠ []) contents → (length (concat contents) < roomy sizes)%nat →
  received (cr_reads cred body_end sizes cr).1 = (concat (drop (empty_first sizes) contents), Some io_EOF).
Proof.
  revert cr contents. induction sizes as [|[|len] sizes IH]; intros cr contents Hh Ho Hsd Hne Hl; [cbn in Hl; lia| |].
  - assert (∃ c cs, contents ++ [[]] = c :: cs) as (c & cs & Hcs) by (destruct contents; by eexists _, _).
    destruct (signed_first _ _ _ _ _ _ _ Hsd Hcs) as (h & sg & body & Hb & Hwf & Hsig & Hsd').
    pose proof (cr_Read_signed 0 cr h sg c body Hh Hb Hwf Hsig) as Hok.
    destruct (cr_Read cred body_end 0 cr) as [[o e] cr1] eqn:Hr. cbn in Hok. rewrite (received_cons _ _ _ _ _ _ Hr).
    unfold cr_Read in Hr. rewrite Ho in Hr. change (0 <? 0)%nat with false in Hr. cbv iota in Hr.
    apply next_chunk_spec in Hr as [(h' & sg' & c' & E1 & Hwf' & Hsig' & E2 & E3 & Hc)|(e0 & -> & He & ->)]; [|by destruct Hok as [|[= ->]]|done].
    rewrite Hb in E1. apply chunk_text_inj in E1 as [<- ->]; [|done|done]. destruct contents as [|c0 contents]; injection Hcs as <- <-.
    + destruct Hc as [(_ & -> & ->)|(? & _)]; [by rewrite drop_nil|done].
    + apply Forall_cons in Hne as [Hc0 Hne]. destruct Hc as [(? & _)|(_ & -> & -> & Ho1)]; [done|]. cbn [concat] in Hl. rewrite length_app in Hl.
      rewrite (IH cr1 contents E3 Ho1); [done|by rewrite E2|done|cbn [roomy] in Hl; lia].
  - assert (pending cr = []) as Hp by (unfold pending; by rewrite Ho).
    rewrite (reads_complete (S len :: sizes) cr contents s rest Hh (or_introl (Nat.lt_0_succ len)) Hsd Hne); [by rewrite Hp|by rewrite Hp].
Qed.

(** [cr.err] makes no difference. *)
Lemma Read_ignores_err len r sd hs b o e1 e2 :
  (cr_Read cred body_end len (mkCR r sd hs b o e1)).1 = (cr_Read cred body_end len (mkCR r sd hs b o e2)).1 ∧
  ∃ r' sd' hs' b' o' e1' e2', (cr_Read cred body_end len (mkCR r sd hs b o e1)).2 = mkCR r' sd' hs' b' o' e1' ∧
    (cr_Read cred body_end len (mkCR r sd hs b o e2)).2 = mkCR r' sd' hs' b' o' e2'.
Proof.
  assert (∀ out l, (next_chunk cred body_end out l (mkCR r sd hs b o e1)).1 = (next_chunk cred body_end out l (mkCR r sd hs b o e2)).1 ∧
    ∃ r' sd' hs' b' o' e1' e2', (next_chunk cred body_end out l (mkCR r sd hs b o e1)).2 = mkCR r' sd' hs' b' o' e1' ∧
      (next_chunk cred body_end out l (mkCR r sd hs b o e2)).2 = mkCR r' sd' hs' b' o' e2') as Hn.
  { intros out l. unfold next_chunk, failed. cbn [cr_reader cr_hashed cr_seedSignature cr_buffer cr_err].
    destruct (read_chunk body_end r) as [[[sg c]| |] r']; [|split; [done|by repeat eexists]..]. repeat case_if; (split; [done|by repeat eexists]). }
  unfold cr_Read. cbn [cr_offset cr_buffer]. case_if; [|done]. cbv zeta. case_if; [|done]. split; [done|by repeat eexists].
Qed.

Lemma reads_ignore_err sizes r sd hs b o e1 e2 :
  (cr_reads cred body_end sizes (mkCR r sd hs b o e1)).1 = (cr_reads cred body_end sizes (mkCR r sd hs b o e2)).1.
Proof.
  revert r sd hs b o e1 e2. induction sizes as [|len sizes IH]; intros; [done|]. cbn [cr_reads].
  destruct (Read_ignores_err len r sd hs b o e1 e2) as (H1 & r' & sd' & hs' & b' & o' & e1' & e2' & H2 & H3).
  destruct (cr_Read _ _ len (mkCR r sd hs b o e1)) as [[o1 x1] c1], (cr_Read _ _ len (mkCR r sd hs b o e2)) as [[o2 x2] c2]. cbn [fst snd] in *.
  injection H1 as <- <-. subst c1 c2. specialize (IH r' sd' hs' b' o' e1' e2').
  destruct (cr_reads _ _ sizes (mkCR r' sd' hs' b' o' e1')), (cr_reads _ _ sizes (mkCR r' sd' hs' b' o' e2')). cbn [fst] in *. by f_equal.
Qed.

End Reads.

(** C28: only signed content is given out: whatever the body of a streaming upload and whatever
    buffers it is read with, what a caller has that reads until the first error is the beginning of the contents of chunks
    that follow each other in the body, each with the signature of its content after the
    one before it, from the seed signature on; but every read with an empty buffer before the first one with room loses one chunk.
    The end of the upload is reported only after all the rest was given out and an empty chunk, signed as well, was
    read: a body that was cut off is not taken for a complete one. *)
Theorem signed_upload_safe {signing : Signing} cred body_end seed body sizes out err :
  received (cr_reads cred body_end sizes (newSignV4ChunkedReader seed body)).1 = (out, err) →
  ∃ contents s rest, signed cred seed contents body s rest ∧ out `prefix_of` concat (drop (empty_first sizes) contents) ∧
    (err = Some io_EOF → out = concat (drop (empty_first sizes) contents) ∧ last contents = Some []).
Proof. by apply reads_safe_first. Qed.

(** C29: a signed upload is received as it was sent: the chunks of any contents that are not empty, with their
    sizes in hexadecimal and their signatures in a chain from the seed signature, and the signed empty chunk
    after them, are read as the contents and the end of the upload, when there are enough reads with room in their
    buffers, one more than there are bytes at most. If the first reads have empty buffers, each of them loses one of the chunks; later ones do no harm. *)
Theorem signed_upload_roundtrip {signing : Signing} cred body_end seed contents body s rest sizes :
  signed cred seed (contents ++ [[]]) body s rest → Forall (λ c, c ≠ []) contents → (length (concat contents) < roomy sizes)%nat →
  received (cr_reads cred body_end sizes (newSignV4ChunkedReader seed body)).1 = (concat (drop (empty_first sizes) contents), Some io_EOF).
Proof. intros Hsd Hne Hl. by apply (reads_complete_first cred body_end sizes (newSignV4ChunkedReader seed body) contents s rest). Qed.

(** An error does not stop the reader: when the body begins with a byte that can be in no chunk, a caller that goes on after the
    error of the first read has what it would have without the byte. *)
Theorem read_on_after_error {signing : Signing} cred body_end seed b body len sizes :
  hex_val b = None → b ≠ ";"%char →
  (cr_reads cred body_end (len :: sizes) (newSignV4ChunkedReader seed (b :: body))).1 =
    ([], Some errMalformedEncoding) :: (cr_reads cred body_end sizes (newSignV4ChunkedReader seed body)).1.
Proof.
  intros Hb Hs.
  assert (read_chunk body_end (b :: body) = (Err errMalformedEncoding, body)) as Hr.
  { unfold read_chunk, mbind_ok. cbn [read_size]. by rewrite (proj2 (Ascii.eqb_neq b ";") Hs), Hb. }
  assert (cr_Read cred body_end len (newSignV4ChunkedReader seed (b :: body)) =
    ([], Some errMalformedEncoding, mkCR body seed [] [] 0 (Some errMalformedEncoding))) as Hread.
  { unfold cr_Read, next_chunk, newSignV4ChunkedReader. cbn [cr_offset cr_reader]. by rewrite Hr. }
  cbn [cr_reads]. rewrite Hread. pose proof (reads_ignore_err cred body_end sizes body seed [] [] 0 (Some errMalformedEncoding) None) as He.
  unfold newSignV4ChunkedReader. rewrite <- He. by destruct (cr_reads _ _ _ _).
Qed.

(** *** Witnesses *)

Definition demo_signing : Signing :=
  {| sumHMAC k m := String (ascii_of_nat (String.length k + 3 * String.length m)) "0123456789abcdef0123456789abcde";
     sha256_Sum c := String (ascii_of_nat (length c)) "0123456789abcdef0123456789abcde" |}.

Definition demo_cred : credentials := mkCred "secret" "us-east-1" "20221116T000000Z" "20221116".
Definition demo_sig1 : string := @chunk_signature demo_signing demo_cred "seed" ["a"; "b"]%char.
Definition demo_sig2 : string := @chunk_signature demo_signing demo_cred demo_sig1 [].
Definition demo_body : data :=
  chunk_text ["2"]%char (String.list_ascii_of_string demo_sig1) ["a"; "b"]%char ++ chunk_text ["0"]%char (String.list_ascii_of_string demo_sig2) [] ++ [].

Lemma demo_signed : @signed demo_signing demo_cred "seed" ([["a"; "b"]%char] ++ [[]]) demo_body demo_sig2 [].
Proof.
  apply (@signed_cons demo_signing); [split_and!; by vm_compute|by rewrite String.string_of_list_ascii_of_string|].
  apply (@signed_cons demo_signing); [split_and!; by vm_compute|by rewrite String.string_of_list_ascii_of_string|]. apply signed_nil.
Qed.

Lemma signed_upload_safe_witness :
  ∃ contents s rest, @signed demo_signing demo_cred "seed" contents demo_body s rest ∧ ["a"; "b"]%char `prefix_of` concat (drop 0 contents) ∧
    (Some io_EOF = Some io_EOF → ["a"; "b"]%char = concat (drop 0 contents) ∧ last contents = Some []).
Proof.
  apply (signed_upload_safe (signing := demo_signing) demo_cred io_EOF "seed" demo_body [1; 0; 1; 1]%nat ["a"; "b"]%char (Some io_EOF)).
  vm_compute. reflexivity.
Defined.

Lemma signed_upload_roundtrip_witness :
  received (@cr_reads demo_signing demo_cred io_EOF [0; 1; 1; 1]%nat (newSignV4ChunkedReader "seed" demo_body)).1 = ([], Some io_EOF).
Proof.
  apply (signed_upload_roundtrip (signing := demo_signing) demo_cred io_EOF "seed" [["a"; "b"]%char] demo_body demo_sig2 [] [0; 1; 1; 1]%nat demo_signed);
    [by repeat constructor|cbn; lia].
Defined.

Lemma read_on_after_error_witness :
  received (drop 1 (@cr_reads demo_signing demo_cred io_EOF [5; 1; 1; 1]%nat (newSignV4ChunkedReader "seed" ("x"%char :: demo_body))).1) = (["a"; "b"]%char, Some io_EOF).
Proof.
  rewrite (read_on_after_error (signing := demo_signing) demo_cred io_EOF "seed" "x" demo_body 5 [1; 1; 1]%nat); [vm_compute; reflexivity|done|done].
Defined.
