(* ===== verification/Preconditions.v ===== *)
(** * Conditional requests (cmd/object-handlers-common.go)

    A client that has a copy of an object asks for it with the date or the entity tag of
    its copy. The dates are in the format of HTTP, in seconds. *)

From Stdlib Require Import ZArith Lia Bool Ascii.
From S2P Require Import Prelude GoStrings GoTime HttpTime.

Local Open Scope go_scope.

(** ** Entity tags *)

(** The double quotes at the end. *)
Definition dquote : ascii := ascii_of_N 34.

(** [canonicalizeETag]: the match of the regular expression is the last run of other characters with the double quotes
    around it; it is replaced by the run. *)
Fixpoint strip_quotes (l : list ascii) : list ascii :=
  match l with a :: l' => if Ascii.eqb a dquote then strip_quotes l' else l | [] => [] end.
Fixpoint take_unquoted (l : list ascii) : list ascii * list ascii :=
  match l with
  | a :: l' => if Ascii.eqb a dquote then ([], l) else let '(w, p) := take_unquoted l' in (a :: w, p)
  | [] => ([], [])
  end.
Definition canonicalizeETag (etag : string) : string :=
  let '(w, p) := take_unquoted (strip_quotes (reverse (String.list_ascii_of_string etag))) in
  String.string_of_list_ascii (reverse (w ++ strip_quotes p)).

Definition isETagEqual (left right : string) : bool := String.eqb (canonicalizeETag left) (canonicalizeETag right).

(** ** The checks *)

Definition ifModifiedSince (objTime givenTime : Z) : bool := (givenTime + Second <? objTime)%Z.

(** What the checks look at of the object, the options and the request; a header that is not there is empty. *)
Record object_info := mkOI { oi_ModTime : Z; oi_ETag : string; oi_parts : nat }.

Record conditions := mkConds { IfModifiedSince : string; IfUnmodifiedSince : string; IfMatch : string; IfNoneMatch : string }.

(** The headers [Last-Modified] and [ETag] of the answer. *)
Record answer_headers := mkAH { ah_LastModified : string; ah_ETag : option string }.

Inductive precondition :=
  | Proceed
  | InvalidPartNumber
  | StatusNotModified (h : answer_headers)
  | PreconditionFailed (h : answer_headers).

Definition writeHeaders (objInfo : object_info) : answer_headers :=
  mkAH (FormatHTTP (oi_ModTime objInfo))
    (if String.eqb (oi_ETag objInfo) "" then None else Some (String dquote "" +:+ oi_ETag objInfo +:+ String dquote "")).

Definition no_modtime (objInfo : object_info) : bool := (oi_ModTime objInfo =? 0)%Z || (oi_ModTime objInfo =? unix_epoch)%Z.

(** A header with a date: [test] decides when the date can be read. *)
Definition date_fails (header : string) (test : Z → bool) : bool :=
  negb (String.eqb header "") && match ParseHTTP header with Some givenTime => test givenTime | None => false end.

Definition checkCopyObjectPreconditions (method : string) (c : conditions) (objInfo : object_info) : precondition :=
  if negb (String.eqb method "PUT") then Proceed
  else if no_modtime objInfo then Proceed
  else if date_fails (IfModifiedSince c) (λ t, negb (ifModifiedSince (oi_ModTime objInfo) t)) then PreconditionFailed (writeHeaders objInfo)
  else if date_fails (IfUnmodifiedSince c) (ifModifiedSince (oi_ModTime objInfo)) then PreconditionFailed (writeHeaders objInfo)
  else if negb (String.eqb (IfMatch c) "") && negb (isETagEqual (oi_ETag objInfo) (IfMatch c)) then PreconditionFailed (writeHeaders objInfo)
  else if negb (String.eqb (IfNoneMatch c) "") && isETagEqual (oi_ETag objInfo) (IfNoneMatch c) then PreconditionFailed (writeHeaders objInfo)
  else Proceed.

Definition checkPreconditions (method : string) (c : conditions) (objInfo : object_info) (partNumber : Z) : precondition :=
  if negb (String.eqb method "GET") && negb (String.eqb method "HEAD") then Proceed
  else if no_modtime objInfo then Proceed
  else if (1 <? partNumber)%Z && (Z.of_nat (oi_parts objInfo) <? partNumber)%Z then InvalidPartNumber
  else if date_fails (IfModifiedSince c) (λ t, negb (ifModifiedSince (oi_ModTime objInfo) t)) then StatusNotModified (writeHeaders objInfo)
  else if date_fails (IfUnmodifiedSince c) (ifModifiedSince (oi_ModTime objInfo)) then PreconditionFailed (writeHeaders objInfo)
  else if negb (String.eqb (IfMatch c) "") && negb (isETagEqual (oi_ETag objInfo) (IfMatch c)) then PreconditionFailed (writeHeaders objInfo)
  else if negb (String.eqb (IfNoneMatch c) "") && isETagEqual (oi_ETag objInfo) (IfNoneMatch c) then StatusNotModified (writeHeaders objInfo)
  else Proceed.

(** ** Entity tags are compared without their quotes *)

Lemma strip_quotes_cons l : strip_quotes (dquote :: l) = strip_quotes l.
Proof. done. Qed.

Lemma strip_quotes_none l p : Forall (λ a, a ≠ dquote) l → l ≠ [] → strip_quotes (l ++ p) = l ++ p.
Proof. intros [|a l' Ha _] Hne; [done|]. cbn [strip_quotes app]. by rewrite (proj2 (Ascii.eqb_neq a dquote)). Qed.

Lemma take_unquoted_all l p : Forall (λ a, a ≠ dquote) l → take_unquoted (l ++ p) = (l ++ (take_unquoted p).1, (take_unquoted p).2).
Proof.
  induction 1 as [|a l Ha _ IH]; cbn [take_unquoted app]; [by destruct (take_unquoted p)|]. by rewrite (proj2 (Ascii.eqb_neq a dquote)), IH by done.
Qed.

Definition unquoted (s : string) : Prop := Forall (λ a, a ≠ dquote) (String.list_ascii_of_string s).

(** Quotes around a tag without quotes are taken away. *)
Lemma canonicalize_list (m q1 q2 : list ascii) :
  Forall (λ a, a ≠ dquote) m → (q1 = [] ∨ q1 = [dquote]) → (q2 = [] ∨ q2 = [dquote]) →
  (let '(w, p) := take_unquoted (strip_quotes (reverse (q1 ++ m ++ q2))) in reverse (w ++ strip_quotes p)) = m.
Proof.
  intros Hm H1 H2. assert (Forall (λ a, a ≠ dquote) (reverse m)) as Hr by (by apply Forall_reverse).
  assert (strip_quotes (reverse (q1 ++ m ++ q2)) = strip_quotes (reverse m ++ q1)) as ->.
  { rewrite !reverse_app. destruct H1 as [->| ->], H2 as [->| ->]; try done; rewrite <- !app_assoc; try done; apply strip_quotes_cons. }
  destruct (decide (m = [])) as [->|Hne]; [by destruct H1 as [->| ->]|].
  assert (reverse m ≠ []) as Hne' by (intros E; apply Hne; by rewrite <- (reverse_involutive m), E).
  rewrite strip_quotes_none by done.
  rewrite take_unquoted_all by done. destruct H1 as [->| ->]; cbn; by rewrite !app_nil_r, reverse_involutive.
Qed.

Lemma canonicalize_as s q1 q2 :
  unquoted s → (q1 = [] ∨ q1 = [dquote]) → (q2 = [] ∨ q2 = [dquote]) →
  canonicalizeETag (String.string_of_list_ascii q1 +:+ s +:+ String.string_of_list_ascii q2) = s.
Proof.
  intros Hs H1 H2. unfold canonicalizeETag. rewrite !list_ascii_app, !String.list_ascii_of_string_of_list_ascii.
  pose proof (canonicalize_list _ q1 q2 Hs H1 H2) as Hc. destruct (take_unquoted _) as [w p]. rewrite Hc. apply String.string_of_list_ascii_of_string.
Qed.

Lemma etag_equal_iff s s' : unquoted s → unquoted s' → isETagEqual s (String dquote "" +:+ s' +:+ String dquote "") = String.eqb s s'.
Proof.
  intros Hs Hs'. unfold isETagEqual. f_equal; [|apply (canonicalize_as s' [dquote] [dquote] Hs'); tauto].
  pose proof (canonicalize_as s [] [] Hs ltac:(tauto) ltac:(tauto)) as Hc. cbn [String.string_of_list_ascii String.append] in Hc. by rewrite str_app_nil_r in Hc.
Qed.

(** A date that was printed by the server. *)
Lemma date_fails_format t test : (0 <= t < year10000)%Z → date_fails (FormatHTTP t) test = test (t - t mod Second)%Z.
Proof.
  intros Ht. unfold date_fails. rewrite ParseHTTP_Format by done. destruct (String.eqb_spec (FormatHTTP t) "") as [E|]; [|done].
  exfalso. pose proof (ParseHTTP_Format t Ht) as Hp. by rewrite E in Hp.
Qed.

(** A client that has a copy of an object asks with the [Last-Modified] date and the [ETag] of the
    answer it got. If the object is the same, it is told that it was not modified, and a request that wants it unchanged
    goes on. If the object has another tag, a request for a changed object goes on
    and one that wants it unchanged fails; the same if it was modified more than a
    second after the date. *)
Theorem cached_copy_revalidated method had now parts :
  method = "GET"%string ∨ method = "HEAD"%string → no_modtime now = false → (0 <= oi_ModTime had < year10000)%Z →
  oi_ETag had ≠ ""%string → unquoted (oi_ETag had) → unquoted (oi_ETag now) → (parts <= 1)%Z →
  let date := ah_LastModified (writeHeaders had) in
  let etag := default "" (ah_ETag (writeHeaders had)) in
  let check c := checkPreconditions method c now parts in
  (now = had →
    check (mkConds date "" "" "") = StatusNotModified (writeHeaders now) ∧ check (mkConds "" "" "" etag) = StatusNotModified (writeHeaders now) ∧
    check (mkConds "" date etag "") = Proceed) ∧
  (oi_ETag now ≠ oi_ETag had →
    check (mkConds "" "" "" etag) = Proceed ∧ check (mkConds "" "" etag "") = PreconditionFailed (writeHeaders now)) ∧
  (oi_ModTime had + Second < oi_ModTime now →
    check (mkConds date "" "" "") = Proceed ∧ check (mkConds "" date "" "") = PreconditionFailed (writeHeaders now))%Z.
Proof.
  intros Hm Hz Ht Hne Hq Hq' Hparts date etag check.
  assert (negb (String.eqb method "GET") && negb (String.eqb method "HEAD") = false) as Hmeth by (by destruct Hm as [->| ->]).
  assert (etag = String dquote "" +:+ oi_ETag had +:+ String dquote "") as Hetag by (unfold etag, writeHeaders; cbn; by rewrite (proj2 (String.eqb_neq _ ""))).
  assert (String.eqb etag "" = false) as He0 by (by rewrite Hetag).
  assert (∀ test, date_fails date test = test (oi_ModTime had - oi_ModTime had mod Second)%Z) as Hdate by (intros; by apply date_fails_format).
  assert (isETagEqual (oi_ETag now) etag = String.eqb (oi_ETag now) (oi_ETag had)) as Heq by (rewrite Hetag; by apply etag_equal_iff).
  assert (0 <= oi_ModTime had mod Second < Second)%Z as Hmod by (unfold Second; div_lia).
  assert (∀ c, check c =
    if date_fails (IfModifiedSince c) (λ t, negb (ifModifiedSince (oi_ModTime now) t)) then StatusNotModified (writeHeaders now)
    else if date_fails (IfUnmodifiedSince c) (ifModifiedSince (oi_ModTime now)) then PreconditionFailed (writeHeaders now)
    else if negb (String.eqb (IfMatch c) "") && negb (isETagEqual (oi_ETag now) (IfMatch c)) then PreconditionFailed (writeHeaders now)
    else if negb (String.eqb (IfNoneMatch c) "") && isETagEqual (oi_ETag now) (IfNoneMatch c) then StatusNotModified (writeHeaders now)
    else Proceed) as Hcheck.
  { intros c. unfold check, checkPreconditions. rewrite Hmeth, Hz. by rewrite (proj2 (Z.ltb_ge 1 parts)) by done. }
  unfold ifModifiedSince in *. split_and!; intros Hcase; rewrite !Hcheck; cbn [IfModifiedSince IfUnmodifiedSince IfMatch IfNoneMatch].
  - subst now. rewrite !Hdate, He0, Heq, !String.eqb_refl. rewrite (proj2 (Z.ltb_ge _ (oi_ModTime had))) by lia. done.
  - rewrite He0, Heq, (proj2 (String.eqb_neq (oi_ETag now) (oi_ETag had))) by done. done.
  - rewrite !Hdate. rewrite (proj2 (Z.ltb_lt _ (oi_ModTime now))) by lia. done.
Qed.

Lemma cached_copy_revalidated_witness :
  checkPreconditions "GET" (mkConds (FormatHTTP (700000 * DayNs + 5)) "" "" "") (mkOI (700000 * DayNs + 5) "abc" 1) 0 =
  StatusNotModified (writeHeaders (mkOI (700000 * DayNs + 5) "abc" 1)).
Proof.
  refine (proj1 (proj1 (cached_copy_revalidated "GET" (mkOI (700000 * DayNs + 5) "abc" 1) (mkOI (700000 * DayNs + 5) "abc" 1) 0 _ _ _ _ _ _ _) eq_refl));
    [by left|done|by vm_compute|done|by repeat constructor|by repeat constructor|done].
Defined.

(** An object that was modified exactly one second after the date counts as unmodified;
    the comment in [ifModifiedSince] wants it to count as modified. *)
Lemma one_second_later_unmodified t : ifModifiedSince (t + Second) t = false.
Proof. unfold ifModifiedSince. apply Z.ltb_ge. lia. Qed.
