(* ===== verification/XLMerge.v ===== *)
(** * Merging the version journals of several drives (cmd/xl-storage-format-v2.go)

    Every drive has the versions of an object in a journal, newest first, each with a
    short header. A listing reads the journals of all drives and merges them into
    one: [mergeXLV2Versions] takes round by round the newest of the topmost versions and
    keeps it if a quorum of the drives has it. This file has the headers with
    their order, and the merge, for any type of the data behind a header. *)

From Stdlib Require Import ZArith Lia Bool Sorted.
From stdpp Require Import sorting.
From S2P Require Import Prelude.

Local Open Scope go_scope.
Local Open Scope Z_scope.

(** ** Headers *)

Definition invalidVersionType : Z := 0.
Definition ObjectType : Z := 1.
Definition DeleteType : Z := 2.
Definition LegacyType : Z := 3.
Definition lastVersionType : Z := 4.

Definition VersionType_valid (e : Z) : bool := (invalidVersionType <? e) && (e <? lastVersionType).

(** The 16 bytes of a version ID and the 4 of a signature are numbers, most significant
    byte first, so that [bytes.Compare] is the order of the numbers. *)
Record xlMetaV2VersionHeader := mkHeader {
  h_VersionID : Z;
  h_ModTime : Z;
  h_Signature : Z;
  h_Type : Z;
  h_Flags : Z;
}.

#[global] Instance header_eq_dec : EqDecision xlMetaV2VersionHeader.
Proof. solve_decision. Defined.

Definition header_zero : xlMetaV2VersionHeader := mkHeader 0 0 0 0 0.

Definition matchesNotStrict (x o : xlMetaV2VersionHeader) : bool :=
  negb (h_VersionID x =? 0) && (h_VersionID x =? h_VersionID o) && (h_Type x =? h_Type o).

Definition sortsBefore (x o : xlMetaV2VersionHeader) : bool :=
  if decide (x = o) then false
  else if negb (h_ModTime x =? h_ModTime o) then h_ModTime o <? h_ModTime x
  else if negb (h_Type x =? h_Type o) then h_Type x <? h_Type o
  else if negb (h_Signature x =? h_Signature o) then h_Signature o <? h_Signature x
  else if negb (h_VersionID x =? h_VersionID o) then h_VersionID o <? h_VersionID x
  else if negb (h_Flags x =? h_Flags o) then h_Flags o <? h_Flags x
  else false.

(** ** The merge *)

Section Merge.
Context {M : Type} (nil_meta : M).

Record xlMetaV2ShallowVersion := mkShallow { header : xlMetaV2VersionHeader; meta : M }.

Abbreviation shallow := xlMetaV2ShallowVersion.

(** Step 1: the topmost versions, and whether their IDs and signatures agree. *)
Record top_state := mkTop { t_tops : list shallow; t_sig : Z; t_id : Z; t_consistent : bool }.

Definition top_step (st : top_state) (vers : list shallow) : top_state :=
  match vers with
  | [] => mkTop (t_tops st) (t_sig st) (t_id st) false
  | ver :: _ =>
      let h := header ver in
      if (length (t_tops st) =? 0)%nat then mkTop (t_tops st ++ [ver]) (h_Signature h) (h_VersionID h) true
      else mkTop (t_tops st ++ [ver]) (t_sig st) (t_id st) (t_consistent st && (t_sig st =? h_Signature h) && (t_id st =? h_VersionID h))
  end.

Definition top_versions (versions : list (list shallow)) : top_state := foldl top_step (mkTop [] 0 0 true) versions.

(** "Find latest": the newest version so far and how many have it; [i] is the index. *)
Definition latest_step (strict : bool) (i : nat) (latest : shallow) (latestCount : Z) (ver : shallow) : shallow * Z :=
  if decide (header ver = header latest) then (latest, latestCount + 1)
  else if (i =? 0)%nat || sortsBefore (header ver) (header latest) then
    (ver, if (i =? 0)%nat then 1
          else if negb strict && matchesNotStrict (header ver) (header latest) then latestCount + 1
          else 1)
  else if negb strict && matchesNotStrict (header ver) (header latest) then
    (if sortsBefore (header ver) (header latest) then ver else latest, latestCount + 1)
  else (latest, latestCount).

Fixpoint find_latest (strict : bool) (i : nat) (latest : shallow) (latestCount : Z) (tops : list shallow) : shallow * Z :=
  match tops with
  | [] => (latest, latestCount)
  | ver :: tops => let '(latest, latestCount) := latest_step strict i latest latestCount ver in find_latest strict (S i) latest latestCount tops
  end.

(** [versions[i] = versions[i][1:]] *)
Definition cut_first (vers : list shallow) : outcome () (list shallow) :=
  match vers with [] => Panic "slice bounds out of range" | _ :: vers => Ok vers end.

(** "Skip versions with version id we already emitted": [continue] goes on with the next emitted
    version, so that every one of them with this ID cuts a version off. *)
Fixpoint skip_emitted (ver : shallow) (merged cur : list shallow) : outcome () (list shallow) :=
  match merged with
  | [] => Ok cur
  | m :: merged =>
      if h_VersionID (header ver) =? h_VersionID (header m)
      then obind (cut_first cur) (skip_emitted ver merged)
      else skip_emitted ver merged cur
  end.

(** "Remove from all streams up until latest modtime or if selected": the loop runs
    over [vers], what it cuts is [cur]. *)
Fixpoint trim_stream (latest : shallow) (merged vers cur : list shallow) : outcome () (list shallow) :=
  match vers with
  | [] => Ok cur
  | ver :: vers =>
      if (h_ModTime (header latest) <? h_ModTime (header ver)) || bool_decide (header ver = header latest)
         || (h_VersionID (header latest) =? h_VersionID (header ver))
      then obind (cut_first cur) (trim_stream latest merged vers)
      else skip_emitted ver merged cur
  end.

Fixpoint trim_streams (latest : shallow) (merged : list shallow) (versions : list (list shallow)) : outcome () (list (list shallow)) :=
  match versions with
  | [] => Ok []
  | vers :: versions => obind (trim_stream latest merged vers vers) (λ cur, obind (trim_streams latest merged versions) (λ versions, Ok (cur :: versions)))
  end.

(** What a round selects: the newest version, and whether it goes to the result. *)
Definition round_latest (quorum : Z) (strict : bool) (t : top_state) : shallow * bool :=
  if t_consistent t then (default (mkShallow header_zero nil_meta) (head (t_tops t)), true)
  else let '(latest, latestCount) := find_latest strict 0 (mkShallow header_zero nil_meta) 0 (t_tops t) in
       (latest, quorum <=? latestCount).

(** The loop; [None] when [fuel] rounds were not enough. *)
Fixpoint merge_loop (fuel : nat) (quorum : Z) (strict : bool) (merged : list shallow) (versions : list (list shallow)) : option (outcome () (list shallow)) :=
  match fuel with
  | O => None
  | S fuel =>
      let t := top_versions versions in
      if Z.of_nat (length (t_tops t)) <? quorum then Some (Ok merged)
      else
        let '(latest, selected) := round_latest quorum strict t in
        let merged := if selected then merged ++ [latest] else merged in
        match trim_streams latest merged versions with
        | Ok versions => merge_loop fuel quorum strict merged versions
        | Err err => Some (Err err)
        | Panic w => Some (Panic w)
        end
  end.

Definition mergeXLV2Versions (quorum : Z) (strict : bool) (versions : list (list shallow)) : option (outcome () (list shallow)) :=
  if (Z.of_nat (length versions) <? quorum) || (length versions =? 0)%nat then Some (Ok [])
  else match versions with
  | [vers] => Some (Ok vers)
  | _ =>
      let strict := if quorum =? 1 then true else strict in
      merge_loop (S (length (concat versions))) quorum strict [] versions
  end.

End Merge.

Arguments xlMetaV2ShallowVersion : clear implicits.
Arguments top_state : clear implicits.

(** ** The order of headers *)

Definition before (x o : xlMetaV2VersionHeader) : Prop :=
  h_ModTime o < h_ModTime x ∨ h_ModTime x = h_ModTime o ∧
  (h_Type x < h_Type o ∨ h_Type x = h_Type o ∧
   (h_Signature o < h_Signature x ∨ h_Signature x = h_Signature o ∧
    (h_VersionID o < h_VersionID x ∨ h_VersionID x = h_VersionID o ∧ h_Flags o < h_Flags x))).

Lemma sortsBefore_iff x o : sortsBefore x o = true ↔ before x o.
Proof.
  unfold sortsBefore, before. case_decide as E; [subst o; split; [done|lia]|].
  repeat (case_if; [destruct_bools; rewrite ?Z.ltb_lt; lia|]; destruct_bools). split; [done|lia].
Qed.

Lemma before_irrefl x : ¬ before x x.
Proof. unfold before. lia. Qed.

Lemma before_trans x y z : before x y → before y z → before x z.
Proof. unfold before. lia. Qed.

Lemma before_total x y : x = y ∨ before x y ∨ before y x.
Proof.
  destruct x as [a b c d e], y as [a' b' c' d' e']. unfold before; cbn [h_VersionID h_ModTime h_Signature h_Type h_Flags].
  destruct (decide (a = a' ∧ b = b' ∧ c = c' ∧ d = d' ∧ e = e')) as [(-> & -> & -> & -> & ->)|Hne]; [by left|right; lia].
Qed.

Lemma before_modtime x y : before x y → h_ModTime y ≤ h_ModTime x.
Proof. unfold before. lia. Qed.

(** ** Rounds *)

Section Rounds.
Context {M : Type} (nil_meta : M).
Implicit Types (v latest ver : xlMetaV2ShallowVersion M) (vers merged tops seen : list (xlMetaV2ShallowVersion M))
  (versions : list (list (xlMetaV2ShallowVersion M))) (h : xlMetaV2VersionHeader).

Abbreviation id_of v := (h_VersionID (header v)).

Lemma top_versions_spec versions :
  let t := top_versions versions in
  t_tops t = omap head versions ∧
  (t_consistent t = true → t_tops t ≠ [] → ∀ v, v ∈ t_tops t → id_of v = t_id t).
Proof.
  cbv zeta. unfold top_versions.
  apply (foldl_app_inv top_step (λ st (pre : list (list (xlMetaV2ShallowVersion M))), t_tops st = omap head pre ∧
    (t_consistent st = true → t_tops st ≠ [] → ∀ v, v ∈ t_tops st → id_of v = t_id st))) with (seen := []); [|done].
  intros st pre vers [Ht Hc]. unfold top_step. rewrite omap_app.
  destruct vers as [|ver vers]; cbn [omap list_omap head t_tops t_consistent t_id]; [by rewrite app_nil_r, Ht|].
  destruct (t_tops st) as [|t0 tops] eqn:E; cbn [length Nat.eqb t_tops t_consistent t_id]; rewrite <- Ht; (split; [done|]).
  - intros _ _ v ->%list_elem_of_singleton. done.
  - intros Hcc _ v [Hv| ->%list_elem_of_singleton]%elem_of_app; destruct_bools; [by apply Hc|done].
Qed.

(** [latest] is the newest of the versions [seen], and at most those with its ID were counted. *)
Definition newest_of seen latest (c : Z) : Prop :=
  header latest ∈ header <$> seen ∧
  (∀ v, v ∈ seen → header v = header latest ∨ before (header latest) (header v)) ∧
  c ≤ Z.of_nat (count (λ v, id_of v = id_of latest) seen).

Lemma latest_step_newest strict i seen latest c ver :
  i ≠ 0%nat → newest_of seen latest c → let '(latest', c') := latest_step strict i latest c ver in newest_of (seen ++ [ver]) latest' c'.
Proof.
  intros Hi (Hin & Hmax & Hc). unfold latest_step.
  assert (∀ l : xlMetaV2ShallowVersion M, count (λ v, id_of v = id_of l) (seen ++ [ver]) = (count (λ v, id_of v = id_of l) seen + one_if (id_of ver = id_of l))%nat) as Ec
    by (intros l; by rewrite count_snoc).
  assert (∀ l : xlMetaV2ShallowVersion M, header l = header latest ∨ before (header l) (header latest) → header ver = header l ∨ before (header l) (header ver) →
    ∀ v, v ∈ seen ++ [ver] → header v = header l ∨ before (header l) (header v)) as Hold.
  { intros l Hl Hver v [Hv| ->%list_elem_of_singleton]%elem_of_app; [|done]. destruct (Hmax v Hv) as [Ev|Ev], Hl as [El|El].
    - left. congruence.
    - right. by rewrite Ev.
    - right. by rewrite El.
    - right. by eapply before_trans. }
  assert (∀ l : xlMetaV2ShallowVersion M, header l ∈ header <$> seen → header l ∈ header <$> (seen ++ [ver])) as Hmem by (intros l Hl; rewrite fmap_app; apply elem_of_app; by left).
  assert (header ver ∈ header <$> (seen ++ [ver])) as Hlast by (rewrite fmap_app; apply elem_of_app; right; by apply list_elem_of_singleton).
  case_decide as E.
  { split_and!; [by apply Hmem|apply Hold; auto|]. rewrite Ec, one_if_true; [lia|by rewrite E]. }
  rewrite (proj2 (Nat.eqb_neq i 0)) by done. cbn [orb].
  destruct (sortsBefore (header ver) (header latest)) eqn:Es.
  - apply sortsBefore_iff in Es. split_and!; [done|apply Hold; auto|]. rewrite Ec, one_if_true by done.
    case_if; [|lia]. destruct_bools. unfold matchesNotStrict in *. destruct_bools.
    enough (count (λ v, id_of v = id_of ver) seen = count (λ v, id_of v = id_of latest) seen) by lia.
    replace (id_of ver) with (id_of latest) by done. done.
  - assert (before (header latest) (header ver)) as Hb.
    { destruct (before_total (header ver) (header latest)) as [?|[Hb|?]]; [done| |done].
      apply sortsBefore_iff in Hb. congruence. }
    case_if; destruct_bools.
    + unfold matchesNotStrict in *. destruct_bools. split_and!; [by apply Hmem|apply Hold; auto|]. rewrite Ec, one_if_true by done. lia.
    + split_and!; [by apply Hmem|apply Hold; auto|]. rewrite Ec. lia.
Qed.

(** If IDs determine headers exactly the equal headers are counted. *)
Definition agree (l : list (xlMetaV2ShallowVersion M)) : Prop :=
  ∀ v w, v ∈ l → w ∈ l → id_of v = id_of w → header v = header w.

Definition exact_count seen latest (c : Z) : Prop := c = Z.of_nat (count (λ v, header v = header latest) seen).

Lemma latest_step_exact strict i seen latest c ver :
  i ≠ 0%nat → newest_of seen latest c → exact_count seen latest c → agree (seen ++ [ver]) →
  let '(latest', c') := latest_step strict i latest c ver in exact_count (seen ++ [ver]) latest' c'.
Proof.
  intros Hi (Hin & Hmax & _) Hc Hagree. unfold exact_count in *. unfold latest_step.
  assert (matchesNotStrict (header ver) (header latest) = true → header ver = header latest) as Hm.
  { intros Em. unfold matchesNotStrict in Em. destruct_bools. apply list_elem_of_fmap in Hin as (w & Ew & Hw).
    rewrite Ew. apply Hagree; [apply elem_of_app; right; by apply list_elem_of_singleton|apply elem_of_app; by left|by rewrite <- Ew]. }
  case_decide as E.
  { rewrite count_snoc, one_if_true by done. lia. }
  rewrite (proj2 (Nat.eqb_neq i 0)) by done. cbn [orb].
  assert (negb strict && matchesNotStrict (header ver) (header latest) = false) as ->.
  { apply andb_false_iff. right. apply not_true_iff_false. auto. }
  destruct (sortsBefore (header ver) (header latest)) eqn:Es.
  - apply sortsBefore_iff in Es. rewrite count_snoc, one_if_true by done.
    replace (count (λ v, header v = header ver) seen) with 0%nat; [done|]. symmetry. apply count_zero, Forall_forall.
    intros v Hv Ev. destruct (Hmax v Hv) as [Ev'|Hb]; [congruence|]. rewrite Ev in Hb.
    apply (before_irrefl (header ver)). by eapply before_trans.
  - rewrite count_snoc, one_if_false by done. lia.
Qed.

Lemma find_latest_spec strict tops seen latest c L c' :
  seen ≠ [] → newest_of seen latest c → find_latest strict (length seen) latest c tops = (L, c') →
  newest_of (seen ++ tops) L c' ∧ (agree (seen ++ tops) → exact_count seen latest c → exact_count (seen ++ tops) L c').
Proof.
  revert seen latest c. induction tops as [|ver tops IH]; intros seen latest c Hne Hn; cbn [find_latest].
  { intros [= -> ->]. by rewrite app_nil_r. }
  assert (length seen ≠ 0%nat) as Hlen by (destruct seen; [done|cbn; lia]).
  pose proof (latest_step_newest strict _ seen latest c ver Hlen Hn) as H1.
  pose proof (latest_step_exact strict _ seen latest c ver Hlen Hn) as H2.
  destruct (latest_step strict (length seen) latest c ver) as [l1 c1]. intros HL.
  replace (S (length seen)) with (length (seen ++ [ver])) in HL by (rewrite length_app; cbn; lia).
  apply IH in HL as [HL1 HL2]; [|by destruct seen|done]. rewrite <- app_assoc in HL1, HL2. split; [done|].
  intros Ha He. apply HL2; [done|]. apply H2; [done|]. intros v w Hv Hw. apply Ha; rewrite cons_middle, app_assoc; apply elem_of_app; by left.
Qed.

Lemma round_latest_spec quorum strict versions L selected :
  let t := top_versions versions in
  t_tops t ≠ [] → round_latest nil_meta quorum strict t = (L, selected) →
  header L ∈ header <$> t_tops t ∧
  (selected = true → quorum ≤ Z.of_nat (length (t_tops t)) → quorum ≤ Z.of_nat (count (λ v, id_of v = id_of L) (t_tops t))) ∧
  (agree (t_tops t) → (∀ v, v ∈ t_tops t → header v = header L ∨ before (header L) (header v)) ∧
    (quorum ≤ Z.of_nat (length (t_tops t)) → selected = (quorum <=? Z.of_nat (count (λ v, header v = header L) (t_tops t))))).
Proof.
  cbv zeta. pose proof (top_versions_spec versions) as [_ Hc]. unfold round_latest.
  destruct (t_tops (top_versions versions)) as [|v0 tops] eqn:Et; [done|]. intros _.
  destruct (t_consistent (top_versions versions)) eqn:Econ.
  - cbn [head default]. intros [= <- <-]. specialize (Hc eq_refl ltac:(done)).
    assert (∀ v, v ∈ v0 :: tops → id_of v = id_of v0) as Hid by (intros v Hv; rewrite (Hc v Hv); symmetry; apply Hc, list_elem_of_here).
    assert (∀ (P : _ → Prop) `{∀ x, Decision (P x)}, (∀ v, v ∈ v0 :: tops → P v) → count P (v0 :: tops) = length (v0 :: tops)) as Hall.
    { intros P ? HP. unfold count. rewrite filter_all; [done|]. by apply Forall_forall. }
    split_and!; [apply list_elem_of_here|intros _ Hq; by rewrite Hall|].
    intros Ha. assert (∀ v, v ∈ v0 :: tops → header v = header v0) as Hh by (intros v Hv; apply Ha; [done|apply list_elem_of_here|by apply Hid]).
    split; [by auto|]. intros Hq. rewrite Hall by done. symmetry. by apply Z.leb_le.
  - cbn [find_latest].
    destruct (latest_step strict 0 (mkShallow header_zero nil_meta) 0 v0) as [l1 c1] eqn:E1.
    assert (header l1 = header v0 ∧ c1 = 1) as [Hl1 ->].
    { unfold latest_step in E1. cbn [header Nat.eqb orb] in E1. case_decide as Ez; injection E1 as <- <-; by rewrite ?Ez. }
    destruct (find_latest strict 1 l1 1 tops) as [L1 c] eqn:EL. intros [= <- <-].
    apply (find_latest_spec strict tops [v0]) in EL as [(Hin & Hmax & Hcount) Hex]; [|done|].
    + cbn [app] in *. split_and!; [done|intros Hs%Z.leb_le _; lia|]. intros Ha. split; [done|]. intros _.
      rewrite (Hex Ha); [done|]. unfold exact_count, count. rewrite filter_cons_True by done. done.
    + split_and!; [rewrite Hl1; apply list_elem_of_here|intros v ->%list_elem_of_singleton; by left|].
      unfold count. rewrite filter_cons_True by (by rewrite Hl1). cbn. lia.
Qed.

End Rounds.

(** ** Trimming *)

Section Trimming.
Context {M : Type} (nil_meta : M).
Implicit Types (v latest ver : xlMetaV2ShallowVersion M) (vers merged cur : list (xlMetaV2ShallowVersion M))
  (versions : list (list (xlMetaV2ShallowVersion M))).

(** Newest first. *)
Definition by_modtime vers : Prop := StronglySorted (λ v w, h_ModTime (header w) ≤ h_ModTime (header v)) vers.

Lemma suffix_elem {A} (x : A) l1 l2 : l1 `suffix_of` l2 → x ∈ l1 → x ∈ l2.
Proof. intros [k ->] Hx. apply elem_of_app. by right. Qed.

Lemma suffix_by_modtime vers vers' : vers' `suffix_of` vers → by_modtime vers → by_modtime vers'.
Proof. intros [k ->]. unfold by_modtime. apply StronglySorted_app_1_r. Qed.

Lemma skip_emitted_suffix ver merged cur cur' : skip_emitted ver merged cur = Ok cur' → cur' `suffix_of` cur.
Proof.
  revert cur. induction merged as [|m merged IH]; intros cur; cbn [skip_emitted]; [by intros [= ->]|].
  case_if; [|by apply IH]. destruct cur as [|c cur]; [done|]. intros Hs%IH. by apply suffix_cons_r.
Qed.

Lemma trim_stream_spec latest merged vers cur :
  trim_stream latest merged vers vers = Ok cur →
  cur `suffix_of` vers ∧ (by_modtime vers → ∀ v, v ∈ cur → h_ModTime (header v) ≤ h_ModTime (header latest)) ∧
  (header <$> head vers = Some (header latest) → (length cur < length vers)%nat).
Proof.
  induction vers as [|ver vers IH]; cbn [trim_stream]; [intros [= <-]; split_and!; [done|by intros _ v Hv%elem_of_nil|done]|].
  case_if; destruct_bools.
  - cbn [cut_first obind]. intros (Hsuf & Hmod & _)%IH. split_and!.
    + by apply suffix_cons_r.
    + intros Hs. apply Hmod. by inversion Hs.
    + intros _. apply suffix_length in Hsuf. cbn. lia.
  - intros Hs%skip_emitted_suffix. split_and!; [done| |].
    + intros Hsort v Hv. apply (suffix_elem _ _ _ Hs) in Hv. inversion Hsort as [|? ? _ Hall]; subst.
      apply elem_of_cons in Hv as [->|Hv]; [done|]. rewrite Forall_forall in Hall. specialize (Hall v Hv). lia.
    + cbn. intros [= E]. done.
Qed.

Lemma trim_streams_spec latest merged versions versions' :
  trim_streams latest merged versions = Ok versions' →
  Forall2 (λ vers cur, trim_stream latest merged vers vers = Ok cur) versions versions'.
Proof.
  revert versions'. induction versions as [|vers versions IH]; intros versions'; cbn [trim_streams]; [by intros [= <-]|].
  intros (cur & Hc & (rest & Hr & [= <-])%obind_ok)%obind_ok. constructor; auto.
Qed.

(** Every round removes a version. *)
Lemma trim_streams_shorter latest merged versions versions' :
  trim_streams latest merged versions = Ok versions' → header latest ∈ header <$> omap head versions →
  (length (concat versions') < length (concat versions))%nat.
Proof.
  intros Ht%trim_streams_spec Hin.
  induction Ht as [|vers cur versions versions' Hc Ht IH]; [by apply elem_of_nil in Hin|]. cbn [concat]. rewrite !length_app.
  pose proof (trim_stream_spec _ _ _ _ Hc) as (Hs%suffix_length & _ & Hlt).
  assert (length (concat versions') ≤ length (concat versions))%nat as Hle.
  { clear -Ht. induction Ht as [|vers cur versions versions' Hc _ IH]; [done|]. cbn [concat]. rewrite !length_app.
    apply trim_stream_spec in Hc as (Hs%suffix_length & _). lia. }
  destruct vers as [|v vers]; cbn [omap list_omap head] in Hin; [specialize (IH Hin); lia|].
  apply elem_of_cons in Hin as [E|Hin]; [|specialize (IH Hin); lia]. cbn in Hlt. rewrite E in Hlt. specialize (Hlt eq_refl). cbn [length] in *. lia.
Qed.

Lemma merge_loop_ends fuel quorum strict merged versions :
  1 ≤ quorum → (length (concat versions) < fuel)%nat → is_Some (merge_loop nil_meta fuel quorum strict merged versions).
Proof.
  intros Hq. revert merged versions. induction fuel as [|fuel IH]; intros merged versions Hf; [lia|]. cbn [merge_loop].
  destruct (Z.of_nat (length (t_tops (top_versions versions))) <? quorum) eqn:Hlen; [by eexists|]. apply Z.ltb_ge in Hlen.
  destruct (top_versions_spec versions) as [Htops _].
  destruct (round_latest nil_meta quorum strict (top_versions versions)) as [L sel] eqn:HL.
  apply round_latest_spec in HL as (Hin & _); [|intros E; rewrite E in Hlen; cbn in Hlen; lia].
  destruct (trim_streams L (if sel then merged ++ [L] else merged) versions) as [versions'| |] eqn:Ht; [|by eexists..].
  apply IH. rewrite Htops in Hin. apply trim_streams_shorter in Ht; [lia|done].
Qed.

End Trimming.

(** ** What the merge gives *)

Section Results.
Context {M : Type} (nil_meta : M).
Implicit Types (v latest ver m : xlMetaV2ShallowVersion M) (vers merged res : list (xlMetaV2ShallowVersion M))
  (versions Vs : list (list (xlMetaV2ShallowVersion M))) (h : xlMetaV2VersionHeader).

(** The number of journals with a version of this ID, and with this very version. *)
Definition holders (a : Z) Vs : nat := count (λ vers, Exists (λ v, h_VersionID (header v) = a) vers) Vs.
Definition held h Vs : nat := count (λ vers, Exists (λ v, header v = h) vers) Vs.

Definition supported (quorum : Z) Vs m : Prop :=
  header m ∈ header <$> concat Vs ∧ quorum ≤ Z.of_nat (holders (h_VersionID (header m)) Vs).

Lemma tops_holders a versions : (count (λ v, h_VersionID (header v) = a) (omap head versions) ≤ holders a versions)%nat.
Proof.
  unfold holders. induction versions as [|vers versions IH]; [done|]. rewrite count_cons.
  destruct vers as [|v vers]; cbn [omap list_omap head]; [lia|]. rewrite count_cons.
  pose proof (one_if_le (h_VersionID (header v) = a) (Exists (λ v, h_VersionID (header v) = a) (v :: vers)) ltac:(by left)). lia.
Qed.

Lemma holders_suffix a versions Vs : Forall2 suffix versions Vs → (holders a versions ≤ holders a Vs)%nat.
Proof.
  unfold holders. induction 1 as [|vers V versions Vs Hs _ IH]; [done|]. rewrite !count_cons.
  enough (one_if (Exists (λ v, h_VersionID (header v) = a) vers) ≤ one_if (Exists (λ v, h_VersionID (header v) = a) V))%nat by lia.
  apply one_if_le. destruct Hs as [k ->]. rewrite Exists_app. by right.
Qed.

Lemma tops_elem v versions : v ∈ omap head versions → v ∈ concat versions.
Proof.
  intros (vers & Hv & Hh)%list_elem_of_omap. apply elem_concat. exists vers.
  split; [done|]. destruct vers; [done|]. injection Hh as ->. by left.
Qed.

Lemma concat_suffix v versions Vs : Forall2 suffix versions Vs → v ∈ concat versions → v ∈ concat Vs.
Proof.
  induction 1 as [|vers V versions Vs Hs _ IH]; [done|]. cbn. rewrite !elem_of_app.
  intros [Hv|Hv]; [left; by eapply suffix_elem|right; auto].
Qed.

Lemma trim_streams_suffix latest merged versions versions' : trim_streams latest merged versions = Ok versions' → Forall2 suffix versions' versions.
Proof.
  intros Ht%trim_streams_spec. apply Forall2_flip. eapply Forall2_impl; [done|]. intros vers cur Hc.
  by apply trim_stream_spec in Hc as (? & _).
Qed.

Lemma merge_loop_sound Vs fuel quorum strict merged versions res :
  1 ≤ quorum → Forall2 suffix versions Vs → Forall (supported quorum Vs) merged →
  merge_loop nil_meta fuel quorum strict merged versions = Some (Ok res) → Forall (supported quorum Vs) res.
Proof.
  intros Hq. revert merged versions. induction fuel as [|fuel IH]; intros merged versions Hsuf Hm; cbn [merge_loop]; [done|].
  destruct (Z.of_nat (length (t_tops (top_versions versions))) <? quorum) eqn:Hlen; [by intros [= <-]|]. apply Z.ltb_ge in Hlen.
  destruct (top_versions_spec versions) as [Htops _].
  destruct (round_latest nil_meta quorum strict (top_versions versions)) as [L sel] eqn:HL.
  apply round_latest_spec in HL as (Hin & Hsel & _); [|intros E; rewrite E in Hlen; cbn in Hlen; lia].
  destruct (trim_streams L (if sel then merged ++ [L] else merged) versions) as [versions'| |] eqn:Ht; [|done..].
  apply IH.
  - apply trim_streams_suffix in Ht. clear -Ht Hsuf. revert Vs Hsuf. induction Ht as [|a b ? ? H1 _ IH]; intros Vs Hs; inversion Hs; subst; constructor.
    + by etrans.
    + by apply IH.
  - destruct sel; [|done]. apply Forall_app. split; [done|]. constructor; [|done]. rewrite Htops in *. split.
    + apply list_elem_of_fmap in Hin as (v & -> & Hv). apply list_elem_of_fmap. exists v. split; [done|]. by eapply concat_suffix, tops_elem.
    + specialize (Hsel eq_refl Hlen). pose proof (tops_holders (h_VersionID (header L)) versions).
      pose proof (holders_suffix (h_VersionID (header L)) _ _ Hsuf). lia.
Qed.

Lemma by_modtime_snoc merged m :
  by_modtime merged → (∀ v, v ∈ merged → h_ModTime (header m) ≤ h_ModTime (header v)) → by_modtime (merged ++ [m]).
Proof.
  intros Hs Hm. apply StronglySorted_app_2; [|done|by repeat constructor]. intros v w Hv ->%list_elem_of_singleton. by apply Hm.
Qed.

Lemma merge_loop_newest_first fuel quorum strict merged versions res :
  1 ≤ quorum → Forall by_modtime versions → by_modtime merged →
  (∀ m v, m ∈ merged → v ∈ concat versions → h_ModTime (header v) ≤ h_ModTime (header m)) →
  merge_loop nil_meta fuel quorum strict merged versions = Some (Ok res) → by_modtime res.
Proof.
  intros Hq. revert merged versions. induction fuel as [|fuel IH]; intros merged versions Hs Hm Hle; cbn [merge_loop]; [done|].
  destruct (Z.of_nat (length (t_tops (top_versions versions))) <? quorum) eqn:Hlen; [by intros [= <-]|]. apply Z.ltb_ge in Hlen.
  destruct (top_versions_spec versions) as [Htops _].
  destruct (round_latest nil_meta quorum strict (top_versions versions)) as [L sel] eqn:HL.
  apply round_latest_spec in HL as (Hin & _); [|intros E; rewrite E in Hlen; cbn in Hlen; lia].
  rewrite Htops in Hin. apply list_elem_of_fmap in Hin as (v0 & Hv0 & Hin%tops_elem).
  destruct (trim_streams L (if sel then merged ++ [L] else merged) versions) as [versions'| |] eqn:Ht; [|done..].
  pose proof (trim_streams_suffix _ _ _ _ Ht) as Hsuf.
  assert (∀ v, v ∈ concat versions' → h_ModTime (header v) ≤ h_ModTime (header L)) as Hcut.
  { apply trim_streams_spec in Ht. clear -Ht Hs. induction Ht as [|vers cur versions versions' Hc _ IH]; [by intros v Hv%elem_of_nil|].
    inversion Hs; subst. cbn. intros v [Hv|Hv]%elem_of_app; [|by apply IH]. apply trim_stream_spec in Hc as (_ & Hmod & _). by apply Hmod. }
  apply IH.
  - clear -Hs Hsuf. induction Hsuf; inversion Hs; subst; constructor; [by eapply suffix_by_modtime|auto].
  - destruct sel; [|done]. apply by_modtime_snoc; [done|]. intros m Hm'. rewrite Hv0. by apply Hle.
  - intros m v Hm' Hv. destruct sel.
    + apply elem_of_app in Hm' as [Hm'| ->%list_elem_of_singleton]; [|by apply Hcut]. apply Hle; [done|]. by eapply concat_suffix.
    + apply Hle; [done|]. by eapply concat_suffix.
Qed.

End Results.

(** ** Journals that agree *)

Section Agreeing.
Context {M : Type} (nil_meta : M).
Implicit Types (v latest ver m : xlMetaV2ShallowVersion M) (vers merged res : list (xlMetaV2ShallowVersion M))
  (versions Vs : list (list (xlMetaV2ShallowVersion M))) (h : xlMetaV2VersionHeader).

Definition sorted_versions vers : Prop := StronglySorted (λ v w, before (header v) (header w)) vers.

Definition drop_top h vers : list (xlMetaV2ShallowVersion M) :=
  match vers with v :: rest => if decide (header v = h) then rest else vers | [] => [] end.

Lemma skip_emitted_none ver merged cur :
  (∀ m, m ∈ merged → h_VersionID (header ver) ≠ h_VersionID (header m)) → skip_emitted ver merged cur = Ok cur.
Proof.
  induction merged as [|m merged IH]; intros Hm; cbn [skip_emitted]; [done|].
  rewrite (proj2 (Z.eqb_neq _ _)) by (apply Hm, list_elem_of_here). apply IH. intros m' Hm'. apply Hm. by right.
Qed.

(** A stream whose versions are not newer than [L] and have IDs of their own is cut only where [L] is. *)
Lemma trim_stream_clean L merged vers :
  sorted_versions vers → (∀ v, v ∈ vers → header v = header L ∨ before (header L) (header v)) →
  (∀ v, v ∈ vers → header v ≠ header L → h_VersionID (header v) ≠ h_VersionID (header L) ∧
     ∀ m, m ∈ merged → h_VersionID (header v) ≠ h_VersionID (header m)) →
  trim_stream L merged vers vers = Ok (drop_top (header L) vers).
Proof.
  intros Hs Hmax Hid. destruct vers as [|v vers]; [done|]. cbn [drop_top].
  assert (∀ r rest, r ∈ v :: vers → header r ≠ header L → trim_stream L merged (r :: rest) (r :: rest) = Ok (r :: rest)) as Hstop.
  { intros r rest Hr Hne. cbn [trim_stream]. destruct (Hid r Hr Hne) as [Hi1 Hi2]. destruct (Hmax r Hr) as [?|Hb%before_modtime]; [done|].
    rewrite (proj2 (Z.ltb_ge _ _)), bool_decide_false, (proj2 (Z.eqb_neq _ _)) by done. cbn [orb]. by apply skip_emitted_none. }
  destruct (decide (header v = header L)) as [E|E]; [|by apply Hstop; [left|]].
  cbn [trim_stream]. rewrite (bool_decide_true _ E), orb_true_r. cbn [orb cut_first obind].
  destruct vers as [|r rest]; [done|]. apply Hstop; [by right; left|]. inversion Hs as [|? ? _ Hall]; subst. inversion Hall as [|? ? Hb _]; subst.
  intros E'. rewrite E, E' in Hb. by apply before_irrefl in Hb.
Qed.

Lemma trim_streams_clean L merged versions :
  Forall sorted_versions versions → (∀ v, v ∈ concat versions → header v = header L ∨ before (header L) (header v)) →
  (∀ v, v ∈ concat versions → header v ≠ header L → h_VersionID (header v) ≠ h_VersionID (header L) ∧
     ∀ m, m ∈ merged → h_VersionID (header v) ≠ h_VersionID (header m)) →
  trim_streams L merged versions = Ok (drop_top (header L) <$> versions).
Proof.
  induction versions as [|vers versions IH]; intros Hs Hmax Hid; [done|]. cbn [trim_streams concat] in *. inversion Hs; subst.
  rewrite trim_stream_clean, IH; [done|done| | |done| |]; intros; (apply Hmax || apply Hid); try done; apply elem_of_app; auto.
Qed.

Lemma sorted_drop_top h vers : sorted_versions vers → sorted_versions (drop_top h vers).
Proof. destruct vers; [done|]. cbn. case_decide; [|done]. by inversion 1. Qed.

Lemma drop_top_suffix h vers : drop_top h vers `suffix_of` vers.
Proof. destruct vers as [|v vers]; [done|]. cbn. case_decide; [by apply suffix_cons_r|done]. Qed.

(** Cutting the newest version [h] takes [h] away and nothing else. *)
Lemma drop_top_elem h vers :
  sorted_versions vers → (∀ v, v ∈ vers → header v = h ∨ before h (header v)) →
  ∀ v, v ∈ drop_top h vers ↔ v ∈ vers ∧ header v ≠ h.
Proof.
  intros Hs Hmax v. destruct vers as [|w vers]; cbn [drop_top]; [rewrite elem_of_nil; tauto|].
  inversion Hs as [|? ? _ Hall]; subst. rewrite Forall_forall in Hall. rewrite elem_of_cons. case_decide as E.
  - split; [|by intros [[->|?] ?]]. intros Hv. split; [by right|]. intros E'. specialize (Hall v Hv). rewrite E, E' in Hall. by apply before_irrefl in Hall.
  - rewrite elem_of_cons. split; [|tauto]. intros Hv. split; [done|]. intros E'. destruct Hv as [->|Hv]; [done|].
    specialize (Hall v Hv). destruct (Hmax w ltac:(by left)) as [?|Hb]; [done|]. rewrite E' in Hall. apply (before_irrefl h). by eapply before_trans.
Qed.

Lemma held_drop h h' versions :
  Forall sorted_versions versions → (∀ v, v ∈ concat versions → header v = h ∨ before h (header v)) →
  held h' (drop_top h <$> versions) = if decide (h' = h) then 0%nat else held h' versions.
Proof.
  intros Hs Hmax. unfold held.
  assert (∀ vers, vers ∈ versions → Exists (λ v, header v = h') (drop_top h vers) ↔ h' ≠ h ∧ Exists (λ v, header v = h') vers) as He.
  { intros vers Hv. rewrite !Exists_exists. setoid_rewrite drop_top_elem.
    - split; [intros (v & (? & ?) & E); subst h'; by eauto|intros (? & v & ? & E); exists v; by rewrite E].
    - rewrite Forall_forall in Hs. auto.
    - intros v Hv'. apply Hmax, elem_concat. by exists vers. }
  clear Hs Hmax. induction versions as [|vers versions IH]; [by case_decide|]. rewrite fmap_cons, !count_cons, IH by (intros vers' Hv; apply He; by right).
  specialize (He vers ltac:(by left)). case_decide.
  - rewrite one_if_false by tauto. done.
  - f_equal. unfold one_if. do 2 case_decide; tauto.
Qed.

(** Who has the newest version has it on top. *)
Lemma tops_held h versions :
  Forall sorted_versions versions → (∀ v, v ∈ omap head versions → header v = h ∨ before h (header v)) →
  count (λ v, header v = h) (omap head versions) = held h versions.
Proof.
  unfold held. induction versions as [|vers versions IH]; intros Hs Hmax; [done|]. inversion Hs as [|? ? Hv Hs']; subst. rewrite count_cons.
  destruct vers as [|v vers]; cbn [omap list_omap head] in *.
  - rewrite one_if_false by (by intros ?%Exists_nil). by apply IH.
  - rewrite count_cons, IH; [|done|intros w Hw; apply Hmax; by right]. f_equal. unfold one_if.
    inversion Hv as [|? ? _ Hall]; subst. rewrite Forall_forall in Hall.
    destruct (decide (header v = h)) as [E|E]; destruct (decide (Exists _ _)) as [E'|E']; [done| |exfalso|done].
    + destruct E'. by left.
    + apply Exists_exists in E' as (w & Hw & Ew). apply elem_of_cons in Hw as [->|Hw]; [done|]. specialize (Hall w Hw). rewrite Ew in Hall.
      destruct (Hmax v ltac:(by left)) as [?|Hb]; [done|]. apply (before_irrefl h). by eapply before_trans.
Qed.

Lemma held_tops_bound h versions : (held h versions ≤ length (omap head versions))%nat.
Proof.
  unfold held. induction versions as [|vers versions IH]; [done|]. rewrite count_cons. destruct vers as [|v vers]; cbn [omap list_omap head length].
  - rewrite one_if_false by (by intros ?%Exists_nil). done.
  - unfold one_if. case_decide; lia.
Qed.

Lemma held_elem h versions : (0 < held h versions)%nat → h ∈ header <$> concat versions.
Proof.
  intros (vers & Hv & (v & Hv' & <-)%Exists_exists)%count_elem. apply list_elem_of_fmap. exists v. split; [done|].
  apply elem_concat. by exists vers.
Qed.

Lemma newest_of_all h versions :
  Forall sorted_versions versions → (∀ v, v ∈ omap head versions → header v = h ∨ before h (header v)) →
  ∀ v, v ∈ concat versions → header v = h ∨ before h (header v).
Proof.
  induction versions as [|vers versions IH]; intros Hs Hmax; [by intros v Hv%elem_of_nil|]. inversion Hs as [|? ? Hv Hs']; subst.
  cbn [concat]. intros v [Hin|Hin]%elem_of_app; destruct vers as [|w vers]; cbn [omap list_omap head] in *.
  - by apply elem_of_nil in Hin.
  - inversion Hv as [|? ? _ Hall]; subst. rewrite Forall_forall in Hall. apply elem_of_cons in Hin as [->|Hin]; [apply Hmax; by left|].
    right. destruct (Hmax w ltac:(by left)) as [<-|Hb]; [by apply Hall|]. eapply before_trans; [done|by apply Hall].
  - by apply IH.
  - apply IH; [done| |done]. intros u Hu. apply Hmax. by right.
Qed.

Lemma concat_drop_top h versions :
  Forall sorted_versions versions → (∀ v, v ∈ concat versions → header v = h ∨ before h (header v)) →
  ∀ v, v ∈ concat (drop_top h <$> versions) → v ∈ concat versions ∧ header v ≠ h.
Proof.
  intros Hs Hall v (cur & (vers & -> & Hvers)%list_elem_of_fmap & Hv)%elem_concat.
  assert (∀ u, u ∈ vers → u ∈ concat versions) as Hsub by (intros u Hu; apply elem_concat; by exists vers).
  rewrite Forall_forall in Hs. apply drop_top_elem in Hv as [Hv Hne]; [by auto|by apply Hs|]. intros u Hu. by apply Hall, Hsub.
Qed.

(** The loop gives exactly the versions that a quorum of the journals has. *)
Lemma merge_loop_exact fuel quorum strict merged versions :
  1 ≤ quorum → (length (concat versions) < fuel)%nat → Forall sorted_versions versions →
  (∀ v w, v ∈ concat versions → w ∈ concat versions → h_VersionID (header v) = h_VersionID (header w) → header v = header w) →
  (∀ m v, m ∈ merged → v ∈ concat versions → h_VersionID (header v) ≠ h_VersionID (header m)) →
  ∃ res, merge_loop nil_meta fuel quorum strict merged versions = Some (Ok (merged ++ res)) ∧ sorted_versions res ∧
    ∀ h, h ∈ header <$> res ↔ quorum ≤ Z.of_nat (held h versions).
Proof.
  intros Hq. revert merged versions. induction fuel as [|fuel IH]; intros merged versions Hf Hs Ha Hm; [lia|]. cbn [merge_loop].
  destruct (top_versions_spec versions) as [Htops _]. rewrite Htops.
  destruct (Z.of_nat (length (omap head versions)) <? quorum) eqn:Hlen.
  { apply Z.ltb_lt in Hlen. exists []. rewrite app_nil_r. split_and!; [done|constructor|]. intros h. pose proof (held_tops_bound h versions).
    split; [by intros ?%elem_of_nil|lia]. }
  apply Z.ltb_ge in Hlen. destruct (round_latest nil_meta quorum strict (top_versions versions)) as [L sel] eqn:HL.
  apply round_latest_spec in HL as (Hin & _ & Hex); [|intros E; rewrite <- Htops, E in Hlen; cbn in Hlen; lia]. rewrite Htops in *.
  destruct Hex as [Hmax Hsel]; [intros v w Hv Hw; apply Ha; by apply tops_elem|]. specialize (Hsel Hlen). rewrite tops_held in Hsel by done.
  pose proof (newest_of_all _ _ Hs Hmax) as Hall. apply list_elem_of_fmap in Hin as (v0 & Hv0 & Hin). pose proof (tops_elem _ _ Hin) as Hin'.
  assert (∀ v, v ∈ concat versions → header v ≠ header L → h_VersionID (header v) ≠ h_VersionID (header L)) as HneL.
  { intros v Hv Hne E. apply Hne. rewrite Hv0 in *. by apply Ha. }
  assert (∀ m v, m ∈ (if sel then merged ++ [L] else merged) → v ∈ concat versions → header v ≠ header L → h_VersionID (header v) ≠ h_VersionID (header m)) as Hm'.
  { intros m v Hmm Hv Hne. destruct sel; [|by apply Hm]. apply elem_of_app in Hmm as [Hmm| ->%list_elem_of_singleton]; [by apply Hm|by apply HneL]. }
  pose proof (trim_streams_clean L (if sel then merged ++ [L] else merged) versions Hs Hall ltac:(intros; split; [by apply HneL|intros; by apply Hm'])) as Ht. rewrite Ht.
  pose proof (concat_drop_top (header L) versions Hs Hall) as Hdrop.
  destruct (IH (if sel then merged ++ [L] else merged) (drop_top (header L) <$> versions)) as (res & -> & Hsr & Hres).
  - apply trim_streams_shorter in Ht; [lia|]. rewrite Hv0. by apply list_elem_of_fmap_2.
  - apply Forall_fmap. eapply Forall_impl; [done|]. intros vers. apply sorted_drop_top.
  - intros v w [Hv _]%Hdrop [Hw _]%Hdrop. by apply Ha.
  - intros m v Hmm [Hv Hne]%Hdrop. by apply Hm'.
  - assert (∀ h, h ∈ header <$> res ↔ h ≠ header L ∧ quorum ≤ Z.of_nat (held h versions)) as Hres'.
    { intros h. rewrite Hres, held_drop by done. case_decide; [|tauto]. split; [lia|tauto]. }
    destruct sel; symmetry in Hsel.
    + exists (L :: res). rewrite <- app_assoc. split_and!; [done| |].
      * constructor; [done|]. apply Forall_forall. intros r Hr. assert (header r ∈ header <$> res) as Hr' by by apply list_elem_of_fmap_2.
        apply Hres' in Hr' as [Hne Hheld]. assert (header r ∈ header <$> concat versions) as (v & Ev & Hv)%list_elem_of_fmap by (apply held_elem; lia).
        rewrite Ev in *. by destruct (Hall v Hv).
      * intros h. rewrite fmap_cons, elem_of_cons, Hres'. apply Z.leb_le in Hsel. split; [intros [->|[]]; done|]. destruct (decide (h = header L)); tauto.
    + exists res. split_and!; [done..|]. intros h. rewrite Hres'. apply Z.leb_gt in Hsel. split; [tauto|]. intros Hh. split; [|done]. intros ->. lia.
Qed.

End Agreeing.

(** ** Properties *)

Lemma supported_self {M} quorum (vers : list (xlMetaV2ShallowVersion M)) : quorum ≤ 1 → Forall (supported quorum [vers]) vers.
Proof.
  intros Hq. apply Forall_forall. intros v Hv. split; [cbn; rewrite app_nil_r; by apply list_elem_of_fmap_2|].
  unfold holders. rewrite count_cons, one_if_true; [lia|]. apply Exists_exists. by exists v.
Qed.

(** Merging ends, and gives only what a quorum has: whatever the journals of the drives are, as long as each
    is newest first, the loop ends; every version of the result is a version of one of the
    journals, at least [quorum] journals have a version with its ID, and the result is newest
    first again. *)
Theorem merged_versions_supported {M} (nil_meta : M) quorum strict versions :
  1 ≤ quorum → Forall by_modtime versions →
  ∃ r, mergeXLV2Versions nil_meta quorum strict versions = Some r ∧
    ∀ res, r = Ok res → Forall (supported quorum versions) res ∧ by_modtime res.
Proof.
  intros Hq Hs. unfold mergeXLV2Versions. case_if.
  { exists (Ok []). split; [done|]. intros res [= <-]. split; constructor. }
  apply orb_false_iff in E as [Hlen%Z.ltb_ge _].
  assert (∃ r, merge_loop nil_meta (S (length (concat versions))) quorum (if quorum =? 1 then true else strict) [] versions = Some r ∧
    ∀ res, r = Ok res → Forall (supported quorum versions) res ∧ by_modtime res) as Hloop.
  { destruct (merge_loop_ends nil_meta (S (length (concat versions))) quorum (if quorum =? 1 then true else strict) [] versions Hq) as [r Hr]; [lia|].
    exists r. split; [done|]. intros res ->. split.
    - eapply merge_loop_sound; [done| |constructor|done]. clear. induction versions; constructor; done.
    - eapply merge_loop_newest_first; [done|done|constructor| |done]. by intros m v Hm%elem_of_nil. }
  destruct versions as [|vers [|vers' versions]]; [by cbn in Hlen; lia| |exact Hloop].
  exists (Ok vers). split; [done|]. intros res [= <-]. inversion Hs; subst. split; [|done]. apply supported_self. cbn in Hlen. lia.
Qed.

(** A version [id] of time [t], with signature [sig]. *)
Definition demo_version (id t sig : Z) : xlMetaV2ShallowVersion () := mkShallow (mkHeader id t sig ObjectType 2) tt.

Definition demo_journals : list (list (xlMetaV2ShallowVersion ())) :=
  [[demo_version 1 10 1; demo_version 2 9 2]; [demo_version 1 10 1; demo_version 2 9 2]; [demo_version 3 12 3; demo_version 1 10 1]].

Lemma merged_versions_supported_witness :
  ∃ r, mergeXLV2Versions tt 2 true demo_journals = Some r ∧
    ∀ res, r = Ok res → Forall (supported 2 demo_journals) res ∧ by_modtime res.
Proof. apply (merged_versions_supported tt 2 true demo_journals); [done|]. repeat constructor; cbn; lia. Defined.

(** C20: journals that agree are merged exactly: when every journal is sorted and a version ID stands
    for one version in all of them, the result has exactly the versions that at
    least [quorum] journals have, in order, each once. *)
Theorem agreeing_journals_merged {M} (nil_meta : M) quorum strict versions :
  1 ≤ quorum → Forall sorted_versions versions → agree (concat versions) →
  ∃ res, mergeXLV2Versions nil_meta quorum strict versions = Some (Ok res) ∧ sorted_versions res ∧
    ∀ h, h ∈ header <$> res ↔ quorum ≤ Z.of_nat (held h versions).
Proof.
  intros Hq Hs Ha. unfold mergeXLV2Versions. case_if.
  { exists []. split_and!; [done|constructor|]. intros h. split; [by intros ?%elem_of_nil|].
    pose proof (count_le (λ vers, Exists (λ v, header v = h) vers) versions) as Hle. change (count _ versions) with (held h versions) in Hle.
    apply orb_true_iff in E as [E%Z.ltb_lt|E%Nat.eqb_eq]; lia. }
  destruct (merge_loop_exact nil_meta (S (length (concat versions))) quorum (if quorum =? 1 then true else strict) [] versions) as (res & Hr & Hres);
    [done|lia|done|done|by intros m v Hm%elem_of_nil|]. cbn [app] in Hr.
  destruct versions as [|vers [|vers' versions]]; [by apply orb_false_iff in E as [_ E]| |by eauto].
  apply orb_false_iff in E as [Hlen%Z.ltb_ge _]. cbn in Hlen. exists vers. inversion Hs; subst. split_and!; [done..|]. intros h.
  unfold held. rewrite count_cons. change (count _ []) with 0%nat. rewrite list_elem_of_fmap. unfold one_if. case_decide as Hex; rewrite Exists_exists in Hex.
  - split; [lia|]. intros _. destruct Hex as (v & Hv & <-). eauto.
  - split; [|lia]. intros (v & -> & Hv). destruct Hex. eauto.
Qed.

Lemma agreeing_journals_merged_witness :
  ∃ res, mergeXLV2Versions tt 2 false demo_journals = Some (Ok res) ∧ sorted_versions res ∧
    ∀ h, h ∈ header <$> res ↔ 2 ≤ Z.of_nat (held h demo_journals).
Proof.
  apply (agreeing_journals_merged tt 2 false demo_journals); [done| |].
  - repeat constructor; cbn; lia.
  - intros v w Hv Hw E. cbn in Hv, Hw. repeat (apply elem_of_cons in Hv as [->|Hv]; [|]); try by apply elem_of_nil in Hv.
    all: repeat (apply elem_of_cons in Hw as [->|Hw]; [done|]); by apply elem_of_nil in Hw.
Defined.

(** Journals that do not agree are merged badly: a version can come out twice, since the
    loop that skips the versions already emitted stops after one; with a version emitted
    twice that loop cuts twice and runs off the end of a journal, a panic; and in strict
    mode a version that two of three journals agree on is lost, because the third has a
    newer copy of it. *)
Theorem diverging_journals :
  let v := demo_version in
  let journals := [[v 1 10 1; v 2 9 2]; [v 1 10 1; v 2 9 2]; [v 3 8 3; v 1 5 1; v 2 4 2]; [v 3 8 3; v 1 5 1; v 2 4 2]] in
  Forall by_modtime journals ∧
  mergeXLV2Versions tt 2 true journals = Some (Ok [v 1 10 1; v 2 9 2; v 3 8 3; v 2 4 2]) ∧
  mergeXLV2Versions tt 2 true (journals ++ [[v 4 3 4; v 2 2 2]; [v 5 1 5]]) = Some (Panic "slice bounds out of range") ∧
  mergeXLV2Versions tt 2 true [[v 1 10 1]; [v 1 10 1]; [v 1 11 2]] = Some (Ok []).
Proof. cbv zeta. split_and!; [repeat constructor; cbn; lia|vm_compute; reflexivity..]. Qed.
