(* ===== verification/XLMeta.v ===== *)
(** * The journal of versions of an object (cmd/xl-storage-format-v2.go)

    All versions of an object are in one journal, xl.meta: objects, delete markers, and
    objects of the format before this one; free-versions, delete markers with a special
    key, remember data in another tier that is still to be deleted. This file has the
    versions, and the operations of [xlMetaV2] on the journal in memory. How a version
    is encoded is the class [VersionCodec]; the file XLFile has the journal as a file.

    Values of type []byte of the metadata maps are strings here, and nil maps are empty
    maps: the code would panic when it writes to a nil map that an older release stored.
    Where the loop over a map makes a map or a number the order does not matter; states of
    replication are read in the order of [map_to_list]. *)

From Stdlib Require Import ZArith Lia Bool Sorted.
From stdpp Require Import sorting.
From S2P Require Import Prelude GoStrings GoSort GoTime HttpTime Replication Restore ErasureErrs Erasure Bitrot Msgp GoBase64 XLInline ErasureMeta XLMerge.

Local Open Scope go_scope.
Local Open Scope Z_scope.

(** ** Version IDs *)

(** The library github.com/google/uuid; the 16 bytes of a UUID are a number, most significant byte first. *)
Class UUID := {
  uuid_Parse : string → option Z;
  uuid_String : Z → string;
}.

Definition uuid_range (u : Z) : Prop := 0 ≤ u < 2 ^ 128.

Class UUIDLaws `{UUID} := {
  parse_String u : uuid_range u → uuid_Parse (uuid_String u) = Some u;
  String_not_empty u : uuid_String u ≠ "";
  Parse_range s u : uuid_Parse s = Some u → uuid_range u;
}.

Definition nullVersionID : string := "null".

(** ** Versions *)

Definition ReedSolomon_algo : Z := 1.
Definition lastErasureAlgo : Z := 2.
Definition HighwayHash_algo : Z := 1.
Definition lastChecksumAlgo : Z := 2.

Definition ErasureAlgo_valid (e : Z) : bool := (0 <? e) && (e <? lastErasureAlgo).
Definition ChecksumAlgo_valid (e : Z) : bool := (0 <? e) && (e <? lastChecksumAlgo).

Record xlMetaV2DeleteMarker := mkDM { dm_VersionID : Z; dm_ModTime : Z; dm_MetaSys : gmap string string }.

Record xlMetaV2Object := mkV2 {
  o_VersionID : Z;
  o_DataDir : Z;
  o_ErasureAlgorithm : Z;
  o_ErasureM : Z;
  o_ErasureN : Z;
  o_ErasureBlockSize : Z;
  o_ErasureIndex : Z;
  o_ErasureDist : list Z;
  o_BitrotChecksumAlgo : Z;
  o_PartNumbers : list Z;
  o_PartETags : list string;
  o_PartSizes : list Z;
  o_PartActualSizes : list Z;
  o_Size : Z;
  o_ModTime : Z;
  o_MetaSys : gmap string string;
  o_MetaUser : gmap string string;
}.

(** The fields of [StatInfo] that are read. *)
Record xlMetaV1Object := mkV1 {
  v1_Version : string;
  v1_Format : string;
  v1_Size : Z;
  v1_ModTime : Z;
  v1_Erasure : ErasureInfo;
  v1_Meta : gmap string string;
  v1_Parts : list ObjectPartInfo;
  v1_VersionID : string;
  v1_DataDir : string;
}.

(** A version with the payload of its type. [VOther] is one of an unknown type, or of a known type
    whose payload is nil; to read the payload then is a panic. *)
Inductive xlMetaV2Version :=
  | VObject (o : xlMetaV2Object)
  | VDelete (d : xlMetaV2DeleteMarker)
  | VLegacy (v : xlMetaV1Object)
  | VOther (t : Z).

Definition nil_deref {E A} : outcome E A := Panic "nil pointer dereference".

Definition ver_Type (j : xlMetaV2Version) : Z :=
  match j with VObject _ => ObjectType | VDelete _ => DeleteType | VLegacy _ => LegacyType | VOther t => t end.

(** *** Objects of the old format (cmd/xl-storage-format-v1.go) *)

Definition isXLMetaFormatValid (version format : string) : bool :=
  (String.eqb version "1.0.1" || String.eqb version "1.0.0") && String.eqb format "xl".

Definition isXLMetaErasureInfoValid (data parity : Z) : bool := (parity <=? data) && negb (data =? 0) && negb (parity =? 0).

Definition v1_valid (m : xlMetaV1Object) : bool :=
  isXLMetaFormatValid (v1_Version m) (v1_Format m) && isXLMetaErasureInfoValid (ei_DataBlocks (v1_Erasure m)) (ei_ParityBlocks (v1_Erasure m)).

Definition v1_ToFileInfo (volume path : string) (m : xlMetaV1Object) : outcome derr FileInfo :=
  if negb (v1_valid m) then Err errFileCorrupt
  else Ok (mkFI volume path (v1_VersionID m) false false "" "" "" "" false (v1_DataDir m) true (v1_ModTime m) (v1_Size m) (v1_Meta m)
             (v1_Parts m) (v1_Erasure m) false ReplicationState_zero [] 1 0 0).

(** *** Validity, times, IDs *)

Definition Valid (j : xlMetaV2Version) : bool :=
  match j with
  | VLegacy m => v1_valid m
  | VObject o =>
      ErasureAlgo_valid (o_ErasureAlgorithm o) && ChecksumAlgo_valid (o_BitrotChecksumAlgo o)
      && isXLMetaErasureInfoValid (o_ErasureM o) (o_ErasureN o) && (0 <? o_ModTime o)
  | VDelete d => 0 <? dm_ModTime d
  | VOther _ => false
  end.

(** [time.Unix(0, ns)] *)
Definition unix_nano_time (ns : Z) : Z := ns + unix_epoch.

Definition getModTime (j : xlMetaV2Version) : Z :=
  match j with
  | VObject o => unix_nano_time (o_ModTime o)
  | VDelete d => unix_nano_time (dm_ModTime d)
  | VLegacy m => v1_ModTime m
  | VOther _ => 0
  end.

Definition getVersionID (j : xlMetaV2Version) : Z :=
  match j with VObject o => o_VersionID o | VDelete d => dm_VersionID d | VLegacy _ | VOther _ => 0 end.

(** *** Keys of the metadata *)

Definition TransitionStatus : string := "transition-status".
Definition TransitionedObjectName : string := "transitioned-object".
Definition TransitionedVersionID : string := "transitioned-versionID".
Definition TransitionTier : string := "transition-tier".
Definition tierFVID : string := "tier-free-versionID".
Definition tierFVMarker : string := "tier-free-marker".
Definition freeVersion : string := "free-version".
Definition AmzMetaUnencryptedContentLength : string := "X-Amz-Meta-X-Amz-Unencrypted-Content-Length".
Definition AmzMetaUnencryptedContentMD5 : string := "X-Amz-Meta-X-Amz-Unencrypted-Content-Md5".

(** The key with the reserved prefix. *)
Abbreviation rkey k := (ReservedMetadataPrefixLower +:+ k).

(** *** Free versions (cmd/xl-storage-free-version.go, cmd/erasure-metadata.go) *)

Definition dm_FreeVersion (d : xlMetaV2DeleteMarker) : bool := bool_decide (is_Some (dm_MetaSys d !! rkey freeVersion)).

Definition ver_FreeVersion (j : xlMetaV2Version) : bool := match j with VDelete d => dm_FreeVersion d | _ => false end.

Definition TierFreeVersionID (fi : FileInfo) : string := meta_str (fi_Metadata fi) (rkey tierFVID).
Definition TierFreeVersion (fi : FileInfo) : bool := bool_decide (is_Some (fi_Metadata fi !! rkey tierFVMarker)).

Definition VersionPurgeStatus (fi : FileInfo) : string := CompositeVersionPurgeStatus (fi_ReplicationState fi).
Definition DeleteMarkerReplicationStatus (fi : FileInfo) : string :=
  if fi_Deleted fi then CompositeReplicationStatus (fi_ReplicationState fi) else "".

Section Versions.
Context `{UUID}.

(** [None]: the version has no data in another tier. *)
Definition InitFreeVersion (j : xlMetaV2Object) (fi : FileInfo) : outcome derr (option xlMetaV2Version) :=
  match o_MetaSys j !! rkey TransitionStatus with
  | Some status =>
      if String.eqb status TransitionComplete then
        match uuid_Parse (TierFreeVersionID fi) with
        | None => Panic "Invalid Tier Object delete marker versionId"
        | Some vID =>
            let tier := filter (λ kv, kv.1 ∈ [rkey TransitionTier; rkey TransitionedObjectName; rkey TransitionedVersionID]) (o_MetaSys j) in
            Ok (Some (VDelete (mkDM vID (o_ModTime j) (tier ∪ {[rkey freeVersion := ""%string]}))))
        end
      else Ok None
  | None => Ok None
  end.

(** *** Objects *)

Definition UsesDataDir (now : Z) (j : xlMetaV2Object) : bool :=
  if negb (String.eqb (meta_str (o_MetaSys j) (rkey TransitionStatus)) TransitionComplete) then true
  else isRestoredObjectOnDisk now (o_MetaUser j).

Definition InlineData (j : xlMetaV2Object) : bool := bool_decide (is_Some (o_MetaSys j !! rkey "inline-data")).

Definition o_set_MetaSys (m : gmap string string) (j : xlMetaV2Object) : xlMetaV2Object :=
  mkV2 (o_VersionID j) (o_DataDir j) (o_ErasureAlgorithm j) (o_ErasureM j) (o_ErasureN j) (o_ErasureBlockSize j) (o_ErasureIndex j) (o_ErasureDist j)
    (o_BitrotChecksumAlgo j) (o_PartNumbers j) (o_PartETags j) (o_PartSizes j) (o_PartActualSizes j) (o_Size j) (o_ModTime j) m (o_MetaUser j).

Definition o_set_MetaUser (m : gmap string string) (j : xlMetaV2Object) : xlMetaV2Object :=
  mkV2 (o_VersionID j) (o_DataDir j) (o_ErasureAlgorithm j) (o_ErasureM j) (o_ErasureN j) (o_ErasureBlockSize j) (o_ErasureIndex j) (o_ErasureDist j)
    (o_BitrotChecksumAlgo j) (o_PartNumbers j) (o_PartETags j) (o_PartSizes j) (o_PartActualSizes j) (o_Size j) (o_ModTime j) (o_MetaSys j) m.

Definition o_set_ModTime (t : Z) (j : xlMetaV2Object) : xlMetaV2Object :=
  mkV2 (o_VersionID j) (o_DataDir j) (o_ErasureAlgorithm j) (o_ErasureM j) (o_ErasureN j) (o_ErasureBlockSize j) (o_ErasureIndex j) (o_ErasureDist j)
    (o_BitrotChecksumAlgo j) (o_PartNumbers j) (o_PartETags j) (o_PartSizes j) (o_PartActualSizes j) (o_Size j) t (o_MetaSys j) (o_MetaUser j).

Definition SetTransition (fi : FileInfo) (j : xlMetaV2Object) : xlMetaV2Object :=
  o_set_MetaSys (<[rkey TransitionTier := fi_TransitionTier fi]> (<[rkey TransitionedVersionID := fi_TransitionVersionID fi]>
    (<[rkey TransitionedObjectName := fi_TransitionedObjName fi]> (<[rkey TransitionStatus := fi_TransitionStatus fi]> (o_MetaSys j))))) j.

Definition RemoveRestoreHdrs (j : xlMetaV2Object) : xlMetaV2Object :=
  o_set_MetaUser (delete AmzRestoreRequestDate (delete AmzRestoreExpiryDays (delete AmzRestore (o_MetaUser j)))) j.

(** *** [FileInfo] of a version *)

Definition version_id_string (u : Z) : string := if u =? 0 then "" else uuid_String u.

Definition dm_ToFileInfo (volume path : string) (j : xlMetaV2DeleteMarker) : outcome derr FileInfo :=
  let free := dm_FreeVersion j in
  let tier k := if free then meta_str (dm_MetaSys j) (rkey k) else ""%string in
  Ok (mkFI volume path (version_id_string (dm_VersionID j)) false true "" (tier TransitionedObjectName) (tier TransitionTier) (tier TransitionedVersionID)
        false "" false (unix_nano_time (dm_ModTime j)) 0 (if free then {[rkey tierFVMarker := ""%string]} else ∅) [] (mkEI 0 0 0 0 [] []) false
        (getInternalReplicationState (map_to_list (dm_MetaSys j))) [] 0 0 0).

(** Part [i] of the object: an index that is out of range is a panic. *)
Definition part_at (j : xlMetaV2Object) (i : nat) (number : Z) : option ObjectPartInfo :=
  size ← o_PartSizes j !! i;
  etag ← (if (0 <? zlen (o_PartETags j)) then o_PartETags j !! i else Some ""%string);
  actual ← o_PartActualSizes j !! i;
  Some (mkPart etag number size actual).

Fixpoint parts_from (j : xlMetaV2Object) (i : nat) (numbers : list Z) : option (list ObjectPartInfo) :=
  match numbers with
  | [] => Some []
  | n :: numbers => p ← part_at j i n; ps ← parts_from j (S i) numbers; Some (p :: ps)
  end.

Definition checksum_of (p : ObjectPartInfo) : ChecksumInfo := mkChecksum (part_Number p) HighwayHash256S [].

(** The metadata of [FileInfo]: that of the user without two headers, then that of the system. *)
Definition shown_metadata (user sys : gmap string string) : gmap string string :=
  filter (λ kv, HasPrefix (ToLower kv.1) ReservedMetadataPrefixLower || equals kv.1 [VersionPurgeStatusKey] = true) sys
  ∪ filter (λ kv, negb (equals kv.1 [AmzMetaUnencryptedContentLength; AmzMetaUnencryptedContentMD5]) = true) user.

Definition o_ToFileInfo (volume path : string) (j : xlMetaV2Object) : outcome derr FileInfo :=
  match parts_from j 0 (o_PartNumbers j) with
  | None => Panic "index out of range"
  | Some parts =>
      if (0 <? zlen parts) && negb (o_BitrotChecksumAlgo j =? HighwayHash_algo) then Err (OtherErr "unknown BitrotChecksumAlgo")
      else
        let checksums := (checksum_of <$> parts) ++ replicate (length (o_PartSizes j) - length parts) (mkChecksum 0 0 []) in
        let metadata := shown_metadata (o_MetaUser j) (o_MetaSys j) in
        let state := getInternalReplicationState (map_to_list metadata) in
        let replStatus := CompositeReplicationStatus state in
        let metadata := if String.eqb replStatus "" then metadata else <[AmzBucketReplicationStatus := replStatus]> metadata in
        let sys k := meta_str (o_MetaSys j) (rkey k) in
        Ok (mkFI volume path (version_id_string (o_VersionID j)) false false (sys TransitionStatus) (sys TransitionedObjectName) (sys TransitionTier)
              (sys TransitionedVersionID) false (uuid_String (o_DataDir j)) false (unix_nano_time (o_ModTime j)) (o_Size j) metadata parts
              (mkEI (o_ErasureM j) (o_ErasureN j) (o_ErasureBlockSize j) (o_ErasureIndex j) (o_ErasureDist j) checksums) false state [] 0 0 0)
  end.

Definition ver_ToFileInfo (volume path : string) (j : xlMetaV2Version) : outcome derr FileInfo :=
  match j with
  | VObject o => o_ToFileInfo volume path o
  | VDelete d => dm_ToFileInfo volume path d
  | VLegacy m => v1_ToFileInfo volume path m
  | VOther t => if VersionType_valid t then nil_deref else Err errFileNotFound
  end.

End Versions.

(** ** The journal *)

(** How versions are encoded, in the type [B] of what is stored, and their signatures. *)
Class VersionCodec (B : Type) := {
  MarshalMsg : xlMetaV2Version → B;
  UnmarshalMsg : B → option xlMetaV2Version;
  UnmarshalDataDir : B → option (option Z);
  Signature : xlMetaV2Version → Z;
  nil_meta : B;
  Fits : xlMetaV2Version → Prop;
}.

(** What is written is read back, if numbers and lengths fit the format; [xlMetaDataDirDecoder] reads the data
    directory of an object only. *)
Class VersionCodecLaws (B : Type) `{VersionCodec B} := {
  unmarshal_marshal v : Fits v → UnmarshalMsg (MarshalMsg v) = Some v;
  unmarshal_data_dir o : Fits (VObject o) → UnmarshalDataDir (MarshalMsg (VObject o)) = Some (Some (o_DataDir o));
}.

Definition xlFlagFreeVersion : Z := 1.
Definition xlFlagUsesDataDir : Z := 2.
Definition xlFlagInlineData : Z := 4.

Definition h_FreeVersion (x : xlMetaV2VersionHeader) : bool := negb (Z.land (h_Flags x) xlFlagFreeVersion =? 0).
Definition h_UsesDataDir (x : xlMetaV2VersionHeader) : bool := negb (Z.land (h_Flags x) xlFlagUsesDataDir =? 0).
Definition h_InlineData (x : xlMetaV2VersionHeader) : bool := negb (Z.land (h_Flags x) xlFlagInlineData =? 0).

Record xlMetaV2 (B : Type) := mkXL { versions : list (xlMetaV2ShallowVersion B); data : bytes; metaV : Z }.
Arguments mkXL {B} versions data metaV.
Arguments versions {B} x : rename.
Arguments data {B} x : rename.
Arguments metaV {B} x : rename.

Section Journal.
Context {B : Type} `{VersionCodec B} `{UUID} `{Msgp}.
Context (now : Z).

Abbreviation shallow := (xlMetaV2ShallowVersion B).
Abbreviation journal := (M (xlMetaV2 B) derr).

Definition set_versions (x : xlMetaV2 B) (vs : list shallow) : xlMetaV2 B := mkXL vs (data x) (metaV x).

Definition ver_header (j : xlMetaV2Version) : xlMetaV2VersionHeader :=
  let flags := if ver_FreeVersion j then xlFlagFreeVersion else 0 in
  let flags := match j with
    | VObject o =>
        let flags := if UsesDataDir now o then Z.lor flags xlFlagUsesDataDir else flags in
        if InlineData o then Z.lor flags xlFlagInlineData else flags
    | _ => flags end in
  mkHeader (getVersionID j) (UnixNano (getModTime j)) (Signature j) (ver_Type j) flags.

(** Reading the state, and the payload of a version. *)
Definition reads {A} (f : xlMetaV2 B → outcome derr A) : journal A := λ x, (f x, x).

Definition as_object (j : xlMetaV2Version) : outcome derr xlMetaV2Object := match j with VObject o => Ok o | _ => nil_deref end.
Definition as_marker (j : xlMetaV2Version) : outcome derr xlMetaV2DeleteMarker := match j with VDelete d => Ok d | _ => nil_deref end.
Definition as_legacy (j : xlMetaV2Version) : outcome derr xlMetaV1Object := match j with VLegacy m => Ok m | _ => nil_deref end.

(** A version for the current [metaV]: 0 counts as the latest. *)
Definition unmarshalV (v : Z) (b : B) : outcome derr xlMetaV2Version :=
  if (v =? 0) || (v =? 1) then match UnmarshalMsg b with Some ver => Ok ver | None => Err (OtherErr "msgp") end
  else Err (OtherErr "unknown xlMetaVersion").

Definition latestModtime (x : xlMetaV2 B) : Z :=
  match versions x with [] => 0 | v :: _ => unix_nano_time (h_ModTime (header v)) end.

(** *** Adding a version *)

(** In front of the first version that is not newer; what follows moves by one and the last one is dropped. *)
Fixpoint insert_version (modTime : Z) (new : shallow) (vs : list shallow) : option (list shallow) :=
  match vs with
  | [] => None
  | v :: vs' => if h_ModTime (header v) <=? modTime then Some (new :: removelast vs) else cons v <$> insert_version modTime new vs'
  end.

Definition addVersion (ver : xlMetaV2Version) : journal () := λ x,
  let modTime := UnixNano (getModTime ver) in
  if negb (Valid ver) then (Err (OtherErr "attempted to add invalid version"), x)
  else
    let vs := versions x ++ [mkShallow (mkHeader 0 (-1) 0 0 0) nil_meta] in
    match insert_version modTime (mkShallow (ver_header ver) (MarshalMsg ver)) vs with
    | Some vs => (Ok (), set_versions x vs)
    | None => (Err (OtherErr "addVersion: Internal error, unable to add version"), set_versions x vs)
    end.

(** *** Reading and replacing by index *)

Definition getIdx (idx : Z) (x : xlMetaV2 B) : outcome derr xlMetaV2Version :=
  if (idx <? 0) || (zlen (versions x) <=? idx) then Err errFileNotFound
  else match versions x !! Z.to_nat idx with
       | Some v => unmarshalV (metaV x) (meta v)
       | None => Panic "index out of range"
       end.

Definition findVersion (key : Z) (x : xlMetaV2 B) : outcome derr (Z * xlMetaV2Version) :=
  match list_find (λ v, key = h_VersionID (header v)) (versions x) with
  | Some (i, _) => ver ←? getIdx (Z.of_nat i) x; Ok (Z.of_nat i, ver)
  | None => Err errFileVersionNotFound
  end.

Definition sorts_before (v w : shallow) : bool := sortsBefore (header v) (header w).

Definition sortByModTime (vs : list shallow) : list shallow :=
  if (length vs <=? 1)%nat || SliceIsSorted sorts_before vs then vs else sort_Slice sorts_before vs.

Definition setIdx (idx : Z) (ver : xlMetaV2Version) : journal () := λ x,
  if (idx <? 0) || (zlen (versions x) <=? idx) then (Err errFileNotFound, x)
  else match versions x !! Z.to_nat idx with
       | Some old =>
           let new := mkShallow (ver_header ver) (MarshalMsg ver) in
           let vs := <[Z.to_nat idx := new]> (versions x) in
           (Ok (), set_versions x (if negb (h_ModTime (header old) =? h_ModTime (header new)) then sortByModTime vs else vs))
       | None => (Panic "index out of range", x)
       end.

(** *** Data directories that versions share *)

Definition SharedDataDirCount (versionID dataDir : Z) (x : xlMetaV2 B) : Z :=
  if (0 <? entries (data x)) && bool_decide (is_Some (XLInline.find (data x) (string_bytes (uuid_String versionID)))) then 0
  else
    Z.of_nat (count (λ v,
      h_Type (header v) = ObjectType ∧ h_VersionID (header v) ≠ versionID ∧ h_UsesDataDir (header v) = true
      ∧ UnmarshalDataDir (meta v) = Some (Some dataDir)) (versions x)).

Definition SharedDataDirCountStr (versionID dataDir : string) (x : xlMetaV2 B) : Z :=
  let versionID := if String.eqb versionID nullVersionID then ""%string else versionID in
  match (if String.eqb versionID "" then Some 0 else uuid_Parse versionID), uuid_Parse dataDir with
  | Some uv, Some ddir => SharedDataDirCount uv ddir x
  | _, _ => 0
  end.

(** *** Requests *)

(** The version ID of a request; the empty string and "null" mean the version without an ID. *)
Definition request_id (versionID : string) : option Z :=
  if String.eqb versionID "" || String.eqb versionID nullVersionID then Some 0 else uuid_Parse versionID.

(** Keys of the system: the reserved prefix, in any case, and more. *)
Definition reserved_key (k : string) : bool :=
  (String.length ReservedMetadataPrefixLower <? String.length k)%nat
  && EqualFold (str_take (String.length ReservedMetadataPrefixLower) k) ReservedMetadataPrefixLower.

Definition tier_keys : list string := [rkey tierFVID; rkey tierFVMarker].

Definition set_nonempty (k v : string) (m : gmap string string) : gmap string string := if String.eqb v "" then m else <[k := v]> m.

(** The version that [AddVersion] makes of a request. *)
Definition version_of (uv dd : Z) (fi : FileInfo) : xlMetaV2Version :=
  if fi_Deleted fi then VDelete (mkDM uv (UnixNano (fi_ModTime fi)) ∅)
  else
    let sys := filter (λ kv, reserved_key kv.1 = true ∧ kv.1 ∉ tier_keys) (fi_Metadata fi) in
    let sys := set_nonempty (rkey TransitionStatus) (fi_TransitionStatus fi) sys in
    let sys := set_nonempty (rkey TransitionedObjectName) (fi_TransitionedObjName fi) sys in
    let sys := set_nonempty (rkey TransitionedVersionID) (fi_TransitionVersionID fi) sys in
    let sys := set_nonempty (rkey TransitionTier) (fi_TransitionTier fi) sys in
    let etags := part_ETag <$> fi_Parts fi in
    VObject (mkV2 uv dd ReedSolomon_algo (ei_DataBlocks (fi_Erasure fi)) (ei_ParityBlocks (fi_Erasure fi)) (ei_BlockSize (fi_Erasure fi))
      (ei_Index (fi_Erasure fi)) ((λ d, d mod 256) <$> ei_Distribution (fi_Erasure fi)) HighwayHash_algo (part_Number <$> fi_Parts fi)
      (if existsb (λ e, negb (String.eqb e "")) etags then etags else []) (part_Size <$> fi_Parts fi) (part_ActualSize <$> fi_Parts fi)
      (fi_Size fi) (UnixNano (fi_ModTime fi)) sys (filter (λ kv, reserved_key kv.1 = false) (fi_Metadata fi))).

Definition AddVersion (fi : FileInfo) : journal () := λ x,
  match request_id (fi_VersionID fi), (if String.eqb (fi_DataDir fi) "" then Some 0 else uuid_Parse (fi_DataDir fi)) with
  | Some uv, Some dd =>
      let key := if String.eqb (fi_VersionID fi) "" then nullVersionID else fi_VersionID fi in
      let ventry := version_of uv dd fi in
      let x := if negb (fi_Deleted fi) && ((0 <? zlen (fi_Data fi)) || (fi_Size fi =? 0))
               then mkXL (versions x) (replace (string_bytes key) (fi_Data fi) (data x)) (metaV x) else x in
      if negb (Valid ventry) then (Err (OtherErr "internal error: invalid version entry generated"), x)
      else match list_find (λ v, h_VersionID (header v) = uv ∧ VersionType_valid (h_Type (header v)) = true) (versions x) with
           | Some (i, _) => setIdx (Z.of_nat i) ventry x
           | None => addVersion ventry x
           end
  | _, _ => (Err (OtherErr "invalid UUID"), x)
  end.

Definition updated_object (fi : FileInfo) (o : xlMetaV2Object) : xlMetaV2Object :=
  let o := o_set_MetaSys (filter (λ kv, reserved_key kv.1 = true) (fi_Metadata fi) ∪ o_MetaSys o) o in
  let o := o_set_MetaUser (filter (λ kv, reserved_key kv.1 = false) (fi_Metadata fi) ∪ o_MetaUser o) o in
  if fi_ModTime fi =? 0 then o else o_set_ModTime (UnixNano (fi_ModTime fi)) o.

Definition UpdateObjectVersion (fi : FileInfo) : journal () := λ x,
  match request_id (fi_VersionID fi) with
  | None => (Err (OtherErr "invalid UUID"), x)
  | Some uv =>
      match list_find (λ v, h_VersionID (header v) = uv ∧ VersionType_valid (h_Type (header v)) = true) (versions x) with
      | None => (Err errFileVersionNotFound, x)
      | Some (i, v) =>
          if h_Type (header v) =? ObjectType then
            (o ←! reads (λ x, ver ←? getIdx (Z.of_nat i) x; as_object ver); setIdx (Z.of_nat i) (VObject (updated_object fi o))) x
          else (Err errMethodNotAllowed, x)
      end
  end.

Definition AddLegacy (m : xlMetaV1Object) : journal () := λ x,
  if negb (v1_valid m) then (Err errFileCorrupt, x)
  else addVersion (VLegacy (mkV1 (v1_Version m) (v1_Format m) (v1_Size m) (v1_ModTime m) (v1_Erasure m) (v1_Meta m) (v1_Parts m) nullVersionID (v1_DataDir m))) x.

Definition AddFreeVersion (fi : FileInfo) : journal () := λ x,
  match request_id (fi_VersionID fi) with
  | None => (Err (OtherErr "invalid UUID"), x)
  | Some uv =>
      match list_find (λ v, h_VersionID (header v) = uv ∧ h_Type (header v) = ObjectType) (versions x) with
      | None => (Ok (), x)
      | Some (i, _) =>
          (fv ←! reads (λ x, ver ←? getIdx (Z.of_nat i) x; o ←? as_object ver; InitFreeVersion o fi);
           match fv with Some fv => addVersion fv | None => mret_ok () end) x
      end
  end.

(** *** Deleting a version *)

(** The state of replication, written into the metadata of a delete marker. *)
Definition set_replication (fi : FileInfo) (m : gmap string string) : gmap string string :=
  let rs := fi_ReplicationState fi in
  let status := DeleteMarkerReplicationStatus fi in
  let m :=
    if String.eqb status "" then m
    else if String.eqb status StatusReplica
    then <[rkey ReplicaTimestamp := FormatHTTP (rs_ReplicaTimeStamp rs)]> (<[rkey ReplicaStatus := rs_ReplicaStatus rs]> m)
    else <[rkey ReplicationTimestamp := FormatHTTP (rs_ReplicationTimeStamp rs)]> (<[rkey ReplicationStatus := rs_ReplicationStatusInternal rs]> m) in
  let m := if String.eqb (VersionPurgeStatus fi) "" then m else <[VersionPurgeStatusKey := rs_VersionPurgeStatusInternal rs]> m in
  default ∅ (rs_ResetStatusesMap rs) ∪ m.

(** The delete marker that a request asks for; without one, [xlMetaV2Version{}]. *)
Definition delete_entry (uv : Z) (fi : FileInfo) : xlMetaV2Version :=
  if fi_Deleted fi then VDelete (mkDM uv (UnixNano (fi_ModTime fi)) (set_replication fi ∅)) else VOther 0.

(** Whether the version stays, with a new state of replication. *)
Definition update_version (fi : FileInfo) : bool :=
  let purge := VersionPurgeStatus fi in
  let status := DeleteMarkerReplicationStatus fi in
  if String.eqb purge "" && (String.eqb status StatusReplica || String.eqb status "") then fi_MarkDeleted fi
  else
    fi_Deleted fi && negb (String.eqb purge PurgeComplete) && (negb (String.eqb purge "") || String.eqb status "")
    || negb (String.eqb purge "") && negb (String.eqb purge PurgeComplete).

Definition no_versions : journal bool := reads (λ x, Ok (length (versions x) =? 0)%nat).

Definition remove_at (i : nat) : journal () := λ x, (Ok (), set_versions x (delete i (versions x))).

(** The first loop returns at a delete marker, a legacy object, or an object that stays. *)
Definition delete_in_place (fi : FileInfo) (ventry : xlMetaV2Version) (i : nat) (v : shallow) : journal (string * bool) :=
  if h_Type (header v) =? LegacyType then
    m ←! reads (λ x, ver ←? getIdx (Z.of_nat i) x; as_legacy ver);
    _ ←! remove_at i;
    _ ←! (if fi_Deleted fi then addVersion ventry else mret_ok ());
    last ←! no_versions;
    mret_ok (v1_DataDir m, last)
  else if h_Type (header v) =? DeleteType then
    if update_version fi then
      d ←! reads (λ x, ver ←? getIdx (Z.of_nat i) x; as_marker ver);
      _ ←! setIdx (Z.of_nat i) (VDelete (mkDM (dm_VersionID d) (dm_ModTime d) (set_replication fi (dm_MetaSys d))));
      last ←! no_versions;
      mret_ok (""%string, last)
    else
      _ ←! remove_at i;
      _ ←! (if fi_MarkDeleted fi && (String.eqb (VersionPurgeStatus fi) "" || negb (String.eqb (VersionPurgeStatus fi) PurgeComplete))
            then addVersion ventry else mret_ok ());
      last ←! no_versions;
      mret_ok (""%string, last)
  else
    o ←! reads (λ x, ver ←? getIdx (Z.of_nat i) x; as_object ver);
    _ ←! setIdx (Z.of_nat i) (VObject (o_set_MetaSys
           (default ∅ (rs_ResetStatusesMap (fi_ReplicationState fi))
            ∪ <[VersionPurgeStatusKey := rs_VersionPurgeStatusInternal (fi_ReplicationState fi)]> (o_MetaSys o)) o));
    last ←! no_versions;
    mret_ok (""%string, last).

(** What becomes of the object itself; the error is only logged if a delete marker follows. *)
Definition change_object (fi : FileInfo) (i : nat) (o : xlMetaV2Object) : journal () :=
  if fi_ExpireRestored fi then setIdx (Z.of_nat i) (VObject (RemoveRestoreHdrs o))
  else if String.eqb (fi_TransitionStatus fi) TransitionComplete then setIdx (Z.of_nat i) (VObject (SetTransition fi o))
  else
    _ ←! remove_at i;
    fv ←! reads (λ _, InitFreeVersion o fi);
    match fv with Some fv => addVersion fv | None => mret_ok () end.

(** A Go error that is kept in a variable, while a panic ends the call. *)
Definition keep_error {A} (m : journal ()) (k : option derr → journal A) : journal A :=
  r ←r m; match r with Ok _ => k None | Err e => k (Some e) | Panic w => λ x, (Panic w, x) end.

Definition delete_object (fi : FileInfo) (ventry : xlMetaV2Version) (i : nat) : journal (string * bool) :=
  o ←! reads (λ x, ver ←? getIdx (Z.of_nat i) x; as_object ver);
  keep_error (change_object fi i o) (λ err,
  keep_error (if fi_Deleted fi then addVersion ventry else match err with Some e => mfail e | None => mret_ok () end) (λ err,
  shared ←! reads (λ x, Ok (SharedDataDirCount (o_VersionID o) (o_DataDir o) x));
  last ←! no_versions;
  if 0 <? shared then mret_ok (""%string, last)
  else match err with Some e => mfail e | None => mret_ok (uuid_String (o_DataDir o), last) end)).

(** [returns_at fi uv]: where the first loop returns. *)
Definition returns_at (fi : FileInfo) (uv : Z) (v : shallow) : Prop :=
  h_VersionID (header v) = uv ∧
  (h_Type (header v) = LegacyType ∨ h_Type (header v) = DeleteType
   ∨ h_Type (header v) = ObjectType ∧ update_version fi = true ∧ fi_Deleted fi = false).

#[global] Instance returns_at_dec fi uv v : Decision (returns_at fi uv v).
Proof. apply _. Defined.

(** The data directory to delete, and whether the journal is empty now. *)
Definition DeleteVersion (fi : FileInfo) : journal (string * bool) := λ x,
  match request_id (fi_VersionID fi) with
  | None => (Err errFileVersionNotFound, x)
  | Some uv =>
      let ventry := delete_entry uv fi in
      if fi_Deleted fi && negb (Valid ventry) then (Err (OtherErr "internal error: invalid version entry generated"), x)
      else match list_find (returns_at fi uv) (versions x) with
      | Some (i, v) => delete_in_place fi ventry i v x
      | None =>
          match list_find (λ v, h_Type (header v) = ObjectType ∧ h_VersionID (header v) = uv) (versions x) with
          | Some (i, _) => delete_object fi ventry i x
          | None =>
              if fi_Deleted fi then (_ ←! addVersion ventry; mret_ok (""%string, false)) x
              else (Err errFileVersionNotFound, x)
          end
      end
  end.

(** *** Reading the journal *)

Record lookup_state := mkLook { l_succ : Z; l_latest : bool; l_nonfree : Z; l_found : option FileInfo }.

Definition set_reported (latest : bool) (num succ : Z) (fi : FileInfo) : FileInfo :=
  mkFI (fi_Volume fi) (fi_Name fi) (fi_VersionID fi) latest (fi_Deleted fi) (fi_TransitionStatus fi) (fi_TransitionedObjName fi) (fi_TransitionTier fi)
    (fi_TransitionVersionID fi) (fi_ExpireRestored fi) (fi_DataDir fi) (fi_XLV1 fi) (fi_ModTime fi) (fi_Size fi) (fi_Metadata fi) (fi_Parts fi) (fi_Erasure fi)
    (fi_MarkDeleted fi) (fi_ReplicationState fi) (fi_Data fi) num succ (fi_DiskMTime fi).

Definition lookup_step (volume path versionID : string) (uv metaV : Z) (st : lookup_state) (ver : shallow) : outcome derr lookup_state :=
  let h := header ver in
  let nonfree := if h_FreeVersion h then l_nonfree st - 1 else l_nonfree st in
  if h_FreeVersion h && negb (h_VersionID h =? uv) then Ok (mkLook (l_succ st) (l_latest st) nonfree (l_found st))
  else match l_found st with
  | Some _ => Ok (mkLook (l_succ st) (l_latest st) nonfree (l_found st))
  | None =>
      if negb (String.eqb versionID "") && negb (uv =? h_VersionID h) then Ok (mkLook (h_ModTime h) false nonfree None)
      else
        version ←? unmarshalV metaV (meta ver);
        fi ←? ver_ToFileInfo volume path version;
        let succ := if l_succ st =? 0 then fi_SuccessorModTime fi else unix_nano_time (l_succ st) in
        Ok (mkLook (l_succ st) (l_latest st) nonfree (Some (set_reported (l_latest st) (fi_NumVersions fi) succ fi)))
  end.

Fixpoint lookup_loop (volume path versionID : string) (uv metaV : Z) (st : lookup_state) (vs : list shallow) : outcome derr lookup_state :=
  match vs with
  | [] => Ok st
  | v :: vs => st ←? lookup_step volume path versionID uv metaV st v; lookup_loop volume path versionID uv metaV st vs
  end.

Definition xl_ToFileInfo (volume path versionID : string) (x : xlMetaV2 B) : outcome derr FileInfo :=
  match request_id versionID with
  | None => Err errFileVersionNotFound
  | Some uv =>
      st ←? lookup_loop volume path versionID uv (metaV x) (mkLook 0 true (zlen (versions x)) None) (versions x);
      match l_found st with
      | None => Err (if String.eqb versionID "" then errFileNotFound else errFileVersionNotFound)
      | Some fi => Ok (set_reported (fi_IsLatest fi) (l_nonfree st) (fi_SuccessorModTime fi) fi)
      end
  end.

Fixpoint file_infos (volume path : string) (metaV : Z) (vs : list shallow) : outcome derr (list FileInfo) :=
  match vs with
  | [] => Ok []
  | v :: vs =>
      version ←? unmarshalV metaV (meta v);
      fi ←? ver_ToFileInfo volume path version;
      fis ←? file_infos volume path metaV vs;
      Ok (fi :: fis)
  end.

(** The first one is the latest, the successor of each is the one before it. *)
Fixpoint number_versions (latest : bool) (n succ : Z) (fis : list FileInfo) : list FileInfo :=
  match fis with
  | [] => []
  | fi :: fis => set_reported (latest || fi_IsLatest fi) n (if latest then fi_SuccessorModTime fi else succ) fi :: number_versions false n (fi_ModTime fi) fis
  end.

Definition ListVersions (volume path : string) (x : xlMetaV2 B) : outcome derr (list FileInfo) :=
  fis ←? file_infos volume path (metaV x) (versions x);
  Ok (number_versions true (zlen fis) 0 fis).

End Journal.
