(* ===== verification/XLMetaProofs.v ===== *)
(** * Properties of the journal of versions

    Proofs about XLMeta: the order of the journal and the uniqueness of version IDs are kept by
    every operation; the journal implements a finite map from version IDs to versions; what is
    stored is read back; a data directory is given up only if no other version uses it. *)

From Stdlib Require Import ZArith Lia Bool Sorted.
From stdpp Require Import sorting.
From Stdlib.Strings Require Import Byte.
From S2P Require Import Prelude GoStrings GoSort GoTime HttpTime ETag Replication Restore ErasureErrs Erasure Bitrot Msgp GoBase64 XLInline ErasureMeta XLMerge XLMeta.

Local Open Scope go_scope.
Local Open Scope Z_scope.

(** ** Times *)

Lemma UnixNano_unix ns : in_int64 ns → UnixNano (unix_nano_time ns) = ns.
Proof. intros Hn. unfold UnixNano, unix_nano_time. replace (ns + unix_epoch - unix_epoch) with ns by lia. by apply wrap64_small. Qed.

(** The range of the times of a version. *)
Definition time_ok (j : xlMetaV2Version) : Prop :=
  match j with
  | VObject o => in_int64 (o_ModTime o)
  | VDelete d => in_int64 (dm_ModTime d)
  | VLegacy m => unix_epoch < v1_ModTime m ≤ unix_epoch + max_int64
  | VOther _ => False
  end.

Lemma valid_time j : Valid j = true → time_ok j → 0 < UnixNano (getModTime j).
Proof.
  destruct j as [o|d|m|t]; cbn [Valid time_ok getModTime]; try done.
  - intros [_ Ht%Z.ltb_lt]%andb_true_iff Hr. by rewrite UnixNano_unix.
  - intros Ht%Z.ltb_lt Hr. by rewrite UnixNano_unix.
  - intros _ Hr. unfold UnixNano. rewrite wrap64_small; [lia|]. unfold in_int64, min_int64, max_int64 in *. lia.
Qed.

(** ** Lists of versions *)

Section Lists.
Context {B : Type}.
Implicit Types (v w new ph : xlMetaV2ShallowVersion B) (vs : list (xlMetaV2ShallowVersion B)).

Lemma by_modtime_cons v vs : by_modtime (v :: vs) ↔ Forall (λ w, h_ModTime (header w) ≤ h_ModTime (header v)) vs ∧ by_modtime vs.
Proof. unfold by_modtime. split; [by inversion 1|intros []; by constructor]. Qed.

Lemma insert_version_spec new ph vs :
  by_modtime vs → h_ModTime (header ph) ≤ h_ModTime (header new) →
  ∃ vs', insert_version (h_ModTime (header new)) new (vs ++ [ph]) = Some vs' ∧ vs' ≡ₚ new :: vs ∧ by_modtime vs'.
Proof.
  intros Hs Hph. induction vs as [|v vs IH]; cbn [app insert_version].
  - rewrite (proj2 (Z.leb_le _ _)) by done. eexists. split; [done|]. split; [done|]. repeat constructor.
  - apply by_modtime_cons in Hs as [Hv Hs]. destruct (h_ModTime (header v) <=? h_ModTime (header new)) eqn:E.
    + apply Z.leb_le in E. eexists. split; [done|]. change (v :: vs ++ [ph]) with ((v :: vs) ++ [ph]). rewrite removelast_last. split; [done|].
      apply by_modtime_cons. split; [|by apply by_modtime_cons]. constructor; [done|]. apply (Forall_impl _ _ _ Hv). intros w Hw. cbn in Hw. lia.
    + apply Z.leb_gt in E. destruct (IH Hs) as (vs' & -> & Hp & Hs'). eexists. split; [done|]. split; [by rewrite Hp, Permutation_swap|].
      apply by_modtime_cons. split; [|done]. rewrite Hp. constructor; [lia|done].
Qed.

Lemma sorts_before_total v w : sorts_before v w = false → h_ModTime (header v) ≤ h_ModTime (header w).
Proof.
  unfold sorts_before. intros Hs. destruct (before_total (header v) (header w)) as [->|[Hb|Hb%before_modtime]]; [done| |done].
  apply sortsBefore_iff in Hb. congruence.
Qed.

Lemma SliceIsSorted_modtime vs : SliceIsSorted sorts_before vs = true → by_modtime vs.
Proof.
  intros Hs. unfold by_modtime. apply Sorted_StronglySorted; [intros ? ? ?; lia|].
  induction vs as [|v [|w vs] IH]; [constructor|repeat constructor|]. cbn [SliceIsSorted] in Hs. apply andb_true_iff in Hs as [H1%negb_true_iff H2].
  constructor; [by apply IH|]. constructor. by apply sorts_before_total.
Qed.

Lemma sortByModTime_spec vs : sortByModTime vs ≡ₚ vs ∧ by_modtime (sortByModTime vs).
Proof.
  unfold sortByModTime. destruct (length vs <=? 1)%nat eqn:E1; cbn [orb].
  { split; [done|]. destruct vs as [|v [|w vs]]; [constructor|repeat constructor|done]. }
  destruct (SliceIsSorted sorts_before vs) eqn:E2; [split; [done|by apply SliceIsSorted_modtime]|]. split; [apply sort_Slice_perm|].
  pose proof (sort_Slice_sorted (A := xlMetaV2ShallowVersion B) sorts_before (λ _, True)) as Hsort.
  assert (StronglySorted (λ a b, sorts_before b a = false) (sort_Slice sorts_before vs)) as Hst.
  { apply Hsort; [| |by apply Forall_true].
    - unfold sorts_before. intros v w _ _ Hvw%sortsBefore_iff. apply not_true_is_false. intros Hwv%sortsBefore_iff. eapply before_irrefl, before_trans; done.
    - unfold sorts_before. intros v w z _ _ _ H1 H2. apply not_true_is_false. intros Hvz%sortsBefore_iff.
      apply not_true_iff_false in H1, H2. rewrite sortsBefore_iff in H1, H2.
      destruct (before_total (header v) (header w)) as [Ha|[Ha|Ha]]; [rewrite Ha in Hvz; done|done|]. apply H2. by eapply before_trans. }
  clear -Hst. unfold by_modtime. induction Hst as [|v vs' Hs IH Hall]; [constructor|]. constructor; [done|].
  apply (Forall_impl _ _ _ Hall). intros w. apply sorts_before_total.
Qed.

(** The journal as a map by version ID. *)
Definition by_id vs : gmap Z (xlMetaV2ShallowVersion B) := list_to_map ((λ v, (h_VersionID (header v), v)) <$> vs).

Definition ids vs : list Z := (λ v, h_VersionID (header v)) <$> vs.

Lemma ids_fst vs : ((λ v, (h_VersionID (header v), v)) <$> vs).*1 = ids vs.
Proof. unfold ids. by rewrite <- list_fmap_compose. Qed.

Lemma by_id_perm vs vs' : NoDup (ids vs) → vs ≡ₚ vs' → by_id vs = by_id vs'.
Proof. intros Hn Hp. apply list_to_map_proper; [by rewrite ids_fst|by rewrite Hp]. Qed.

Lemma ids_perm vs vs' : vs ≡ₚ vs' → NoDup (ids vs) → NoDup (ids vs').
Proof. intros Hp Hn. unfold ids in *. by rewrite <- Hp. Qed.

Lemma by_id_lookup vs id v : NoDup (ids vs) → by_id vs !! id = Some v ↔ v ∈ vs ∧ h_VersionID (header v) = id.
Proof.
  intros Hn. unfold by_id. rewrite <- elem_of_list_to_map by (by rewrite ids_fst). rewrite list_elem_of_fmap.
  split; [intros (w & [= -> ->] & Hw); done|intros [Hv <-]; by exists v].
Qed.

Lemma by_id_cons v vs : by_id (v :: vs) = <[h_VersionID (header v) := v]> (by_id vs).
Proof. done. Qed.

Lemma by_id_none vs id : by_id vs !! id = None ↔ id ∉ ids vs.
Proof. unfold by_id. by rewrite <- not_elem_of_list_to_map, ids_fst. Qed.

End Lists.

Section ListOps.
Context {B : Type}.
Implicit Types (v w old new : xlMetaV2ShallowVersion B) (vs : list (xlMetaV2ShallowVersion B)).

Lemma by_modtime_times vs : by_modtime vs ↔ StronglySorted (λ a b, b ≤ a) ((λ v, h_ModTime (header v)) <$> vs).
Proof.
  induction vs as [|v vs IH]; [split; constructor|]. rewrite by_modtime_cons, IH. cbn [fmap list_fmap].
  split; [intros []; constructor; [done|by apply Forall_fmap]|inversion 1 as [|? ? ? Hf]; subst; by rewrite Forall_fmap in Hf].
Qed.

Lemma by_modtime_insert i old new vs :
  vs !! i = Some old → h_ModTime (header new) = h_ModTime (header old) → by_modtime vs → by_modtime (<[i := new]> vs).
Proof.
  intros Hi He. rewrite !by_modtime_times, list_fmap_insert, list_insert_id; [done|]. by rewrite list_lookup_fmap, Hi, He.
Qed.

Lemma by_modtime_delete i vs : by_modtime vs → by_modtime (delete i vs).
Proof.
  revert i. induction vs as [|v vs IH]; intros i; [by destruct i|]. rewrite by_modtime_cons. intros [Hv Hs]. destruct i as [|i]; cbn [delete list_delete]; [done|].
  apply by_modtime_cons. split; [by apply Forall_delete|by apply IH].
Qed.

Lemma ids_insert i old new vs : vs !! i = Some old → h_VersionID (header new) = h_VersionID (header old) → ids (<[i := new]> vs) = ids vs.
Proof. intros Hi He. unfold ids. rewrite list_fmap_insert, list_insert_id; [done|]. by rewrite list_lookup_fmap, Hi, He. Qed.

Lemma ids_split i old vs : vs !! i = Some old → NoDup (ids vs) → h_VersionID (header old) ∉ ids (delete i vs) ∧ NoDup (ids (delete i vs)).
Proof. intros Hi Hn. apply (ids_perm _ (old :: delete i vs)) in Hn; [by apply NoDup_cons in Hn|]. by apply delete_Permutation. Qed.

Lemma by_id_delete i old vs : vs !! i = Some old → NoDup (ids vs) → by_id (delete i vs) = delete (h_VersionID (header old)) (by_id vs).
Proof.
  intros Hi Hn. rewrite (by_id_perm vs (old :: delete i vs)) by (done || by apply delete_Permutation). rewrite by_id_cons, delete_insert_id; [done|].
  apply by_id_none. by apply ids_split.
Qed.

Lemma by_id_insert i old new vs : vs !! i = Some old → NoDup (ids vs) → h_VersionID (header new) = h_VersionID (header old) →
  by_id (<[i := new]> vs) = <[h_VersionID (header new) := new]> (by_id vs).
Proof.
  intros Hi Hn He. assert (<[i := new]> vs ≡ₚ new :: delete i vs) as Hp.
  { rewrite (delete_Permutation (<[i := new]> vs) i new) by (apply list_lookup_insert_eq; by eapply lookup_lt_Some). by rewrite !delete_take_drop, take_insert_ge, drop_insert_lt by lia. }
  rewrite (by_id_perm (<[i := new]> vs) _) by (done || by erewrite ids_insert). rewrite by_id_cons, (by_id_delete i old) by done.
  rewrite He. by rewrite insert_delete_eq.
Qed.

End ListOps.

(** ** Operations *)

Section Operations.
Context {B : Type} `{VersionCodecLaws B} `{UUIDLaws} `{MsgpLaws}.
Implicit Types (v w old new : xlMetaV2ShallowVersion B) (x : xlMetaV2 B) (ver : xlMetaV2Version).

(** A version in the journal is well-formed, and its header was made from it at some time. *)
Definition entry_ok v : Prop :=
  ∃ ver t, UnmarshalMsg (meta v) = Some ver ∧ Valid ver = true ∧ time_ok ver ∧ header v = ver_header t ver ∧
           match ver with VObject o => UnmarshalDataDir (meta v) = Some (Some (o_DataDir o)) | _ => True end.

Record journal_ok x : Prop := {
  jo_sorted : by_modtime (versions x);
  jo_ids : NoDup (ids (versions x));
  jo_entries : Forall entry_ok (versions x);
  jo_metaV : metaV x = 0 ∨ metaV x = 1;
}.

(** A version that may be written. *)
Definition writable ver : Prop := Valid ver = true ∧ time_ok ver ∧ Fits ver.

Definition shallow_of (t : Z) ver : xlMetaV2ShallowVersion B := mkShallow (ver_header t ver) (MarshalMsg ver).

Lemma entry_new t ver : writable ver → entry_ok (shallow_of t ver).
Proof.
  intros (Hv & Ht & Hf). exists ver, t. split; [by apply unmarshal_marshal|]. split; [done|]. split; [done|]. split; [done|].
  destruct ver; try done. by apply unmarshal_data_dir.
Qed.

Lemma addVersion_ok now ver x :
  journal_ok x → writable ver → getVersionID ver ∉ ids (versions x) →
  ∃ x', addVersion now ver x = (Ok (), x') ∧ journal_ok x' ∧ data x' = data x ∧ versions x' ≡ₚ shallow_of now ver :: versions x ∧
        by_id (versions x') = <[getVersionID ver := shallow_of now ver]> (by_id (versions x)).
Proof.
  intros [Hs Hn He Hm] Hw Hid. destruct Hw as (Hv & Ht & Hf). unfold addVersion. rewrite Hv. cbn [negb].
  pose proof (valid_time ver Hv Ht) as Hpos.
  destruct (insert_version_spec (shallow_of now ver) (mkShallow (mkHeader 0 (-1) 0 0 0) nil_meta) (versions x) Hs) as (vs' & Hins & Hp & Hs'); [cbn; lia|].
  change (h_ModTime (header (shallow_of now ver))) with (UnixNano (getModTime ver)) in Hins. unfold shallow_of in Hins. rewrite Hins.
  assert (NoDup (ids (shallow_of now ver :: versions x))) as Hn' by (apply NoDup_cons; done).
  eexists. split; [done|]. cbn [set_versions versions data]. split; [|split; [done|]]; [|split; [done|]].
  - split; cbn [set_versions versions metaV]; [done|by eapply ids_perm|rewrite Hp; constructor; [by apply entry_new|done]|done].
  - rewrite (by_id_perm _ _ (ids_perm _ _ (symmetry Hp) Hn') Hp). done.
Qed.

Lemma setIdx_ok now i old ver x :
  journal_ok x → versions x !! i = Some old → writable ver → getVersionID ver = h_VersionID (header old) →
  ∃ x', setIdx now (Z.of_nat i) ver x = (Ok (), x') ∧ journal_ok x' ∧ data x' = data x ∧
        versions x' ≡ₚ <[i := shallow_of now ver]> (versions x) ∧
        by_id (versions x') = <[getVersionID ver := shallow_of now ver]> (by_id (versions x)).
Proof.
  intros [Hs Hn He Hm] Hi Hw Hid. unfold setIdx. pose proof (lookup_lt_Some _ _ _ Hi). unfold zlen.
  rewrite (proj2 (Z.ltb_ge _ _)), (proj2 (Z.leb_gt _ _)), Nat2Z.id, Hi by lia. cbn [orb]. eexists. split; [done|]. cbn [set_versions versions data].
  change (mkShallow (ver_header now ver) (MarshalMsg ver)) with (shallow_of now ver).
  assert (ids (<[i := shallow_of now ver]> (versions x)) = ids (versions x)) as Hids by (by eapply ids_insert).
  set (vs := if negb _ then _ else _).
  assert (vs ≡ₚ <[i := shallow_of now ver]> (versions x) ∧ by_modtime vs) as [Hp Hs'].
  { subst vs. destruct (negb _) eqn:E; [apply sortByModTime_spec|]. apply negb_false_iff, Z.eqb_eq in E. split; [done|]. by eapply by_modtime_insert. }
  split; [|split; [done|]]; [|split; [done|]].
  - split; cbn [set_versions versions metaV]; [done|eapply ids_perm; [by symmetry|]; by rewrite Hids|rewrite Hp; apply Forall_insert; [done|by apply entry_new]|done].
  - rewrite (by_id_perm vs _) by (done || (eapply ids_perm; [by symmetry|]; by rewrite Hids)). rewrite (by_id_insert i old) by done. done.
Qed.

Lemma remove_at_ok i old x :
  journal_ok x → versions x !! i = Some old →
  ∃ x', remove_at i x = (Ok (), x') ∧ journal_ok x' ∧ data x' = data x ∧ versions x' = delete i (versions x) ∧
        by_id (versions x') = delete (h_VersionID (header old)) (by_id (versions x)).
Proof.
  intros [Hs Hn He Hm] Hi. eexists. split; [done|]. cbn [set_versions versions data]. split; [|split; [done|split; [done|by apply by_id_delete]]].
  split; cbn [set_versions versions metaV]; [by apply by_modtime_delete|by eapply ids_split|by apply Forall_delete|done].
Qed.

Lemma getIdx_ok i v x :
  journal_ok x → versions x !! i = Some v →
  ∃ ver t, getIdx (Z.of_nat i) x = Ok ver ∧ UnmarshalMsg (meta v) = Some ver ∧ Valid ver = true ∧ time_ok ver ∧ header v = ver_header t ver.
Proof.
  intros [Hs Hn He Hm] Hi. rewrite Forall_lookup in He. destruct (He i v Hi) as (ver & t & Hu & Hv & Ht & Hh & _). exists ver, t. split; [|done].
  unfold getIdx, zlen. pose proof (lookup_lt_Some _ _ _ Hi). rewrite (proj2 (Z.ltb_ge _ _)), (proj2 (Z.leb_gt _ _)), Nat2Z.id, Hi by lia. cbn [orb].
  unfold unmarshalV. rewrite Hu. by destruct Hm as [-> | ->].
Qed.

Lemma entry_type v : entry_ok v → VersionType_valid (h_Type (header v)) = true.
Proof. intros ([o|d|m|t] & t' & _ & Hv & _ & -> & _); done. Qed.

Lemma version_of_id uv dd fi : getVersionID (version_of uv dd fi) = uv.
Proof. unfold version_of. by destruct (fi_Deleted fi). Qed.

Lemma version_of_time uv dd fi : time_ok (version_of uv dd fi).
Proof. unfold version_of. destruct (fi_Deleted fi); apply wrap64_range. Qed.

(** The inline data after [AddVersion]. *)
Definition stored_data (fi : FileInfo) (d : bytes) : bytes :=
  if negb (fi_Deleted fi) && ((0 <? zlen (fi_Data fi)) || (fi_Size fi =? 0))
  then replace (string_bytes (if String.eqb (fi_VersionID fi) "" then nullVersionID else fi_VersionID fi)) (fi_Data fi) d else d.

Lemma AddVersion_ok now fi x uv dd :
  journal_ok x → request_id (fi_VersionID fi) = Some uv → (if String.eqb (fi_DataDir fi) "" then Some 0 else uuid_Parse (fi_DataDir fi)) = Some dd →
  Valid (version_of uv dd fi) = true → Fits (version_of uv dd fi) →
  ∃ x', AddVersion now fi x = (Ok (), x') ∧ journal_ok x' ∧ data x' = stored_data fi (data x) ∧
        by_id (versions x') = <[uv := shallow_of now (version_of uv dd fi)]> (by_id (versions x)).
Proof.
  intros Hx Huv Hdd Hv Hf. unfold AddVersion. rewrite Huv, Hdd. set (x1 := if _ && _ then _ else x).
  assert (journal_ok x1 ∧ data x1 = stored_data fi (data x) ∧ versions x1 = versions x) as (Hx1 & Hd & Hvs).
  { subst x1. unfold stored_data. destruct (negb (fi_Deleted fi) && _); [|done]. split; [|done]. by destruct Hx; split. }
  clearbody x1. cbv zeta. rewrite Hv. cbn [negb]. rewrite <- Hd, <- Hvs. clear Hd Hvs Hx x.
  assert (writable (version_of uv dd fi)) as Hw by (split; [done|split; [apply version_of_time|done]]). pose proof (version_of_id uv dd fi) as Hid.
  destruct (list_find _ (versions x1)) as [[i v]|] eqn:E.
  - apply list_find_Some in E as (Hi & [Hv1 _] & _). destruct (setIdx_ok now i v (version_of uv dd fi) x1) as (x' & ? & ? & ? & _ & Hb); [done|done|done|congruence|].
    rewrite Hid in Hb. eauto.
  - apply list_find_None in E. destruct (addVersion_ok now (version_of uv dd fi) x1) as (x' & ? & ? & ? & _ & Hb); [done|done| |rewrite Hid in Hb; eauto].
    rewrite Hid. intros (v & -> & Hin)%list_elem_of_fmap. rewrite Forall_forall in E. apply (E v Hin). split; [done|].
    apply entry_type. pose proof (jo_entries _ Hx1) as He. rewrite Forall_forall in He. by apply He.
Qed.

(** *** Reading *)

Abbreviation free v := (h_FreeVersion (header v) = true).

Definition pre_succ (s : Z) (pre : list (xlMetaV2ShallowVersion B)) : Z :=
  foldl (λ s v, if h_FreeVersion (header v) then s else h_ModTime (header v)) s pre.

Lemma lookup_before volume path versionID uv mv pre post st :
  versionID ≠ "" → Forall (λ v, h_VersionID (header v) ≠ uv) pre → l_found st = None →
  lookup_loop volume path versionID uv mv st (pre ++ post) =
  lookup_loop volume path versionID uv mv
    (mkLook (pre_succ (l_succ st) pre) (l_latest st && forallb (λ v, h_FreeVersion (header v)) pre)
       (l_nonfree st - Z.of_nat (count (λ v, free v) pre)) None) post.
Proof.
  intros Hne Hpre. apply String.eqb_neq in Hne. revert st. induction Hpre as [|v pre Hv _ IH]; intros st Hst; cbn [app lookup_loop].
  - cbn. rewrite andb_true_r. by destruct st; cbn in *; subst; rewrite Z.sub_0_r.
  - unfold lookup_step at 1. rewrite Hst, Hne, (proj2 (Z.eqb_neq _ _) Hv), (Z.eqb_sym uv), (proj2 (Z.eqb_neq _ _) Hv). cbn [negb andb].
    rewrite count_cons. unfold pre_succ. cbn [foldl forallb]. destruct (h_FreeVersion (header v)) eqn:E; cbn [andb obind]; rewrite IH by done; cbn [l_succ l_latest l_nonfree].
    + rewrite one_if_true, Nat2Z.inj_add, Z.sub_add_distr by done. done.
    + rewrite one_if_false, andb_false_r by done. done.
Qed.

Lemma lookup_after volume path versionID uv mv post st fi :
  l_found st = Some fi →
  lookup_loop volume path versionID uv mv st post =
  Ok (mkLook (l_succ st) (l_latest st) (l_nonfree st - Z.of_nat (count (λ v, free v) post)) (Some fi)).
Proof.
  revert st. induction post as [|v post IH]; intros st Hst; cbn [lookup_loop].
  - destruct st; cbn in *; subst. by rewrite Z.sub_0_r.
  - unfold lookup_step. rewrite Hst, count_cons. destruct (h_FreeVersion (header v)) eqn:E; cbn [andb].
    + rewrite one_if_true by done. destruct (negb _); cbn [obind]; rewrite IH by done; cbn [l_succ l_latest l_nonfree];
        by rewrite Nat2Z.inj_add, Z.sub_add_distr.
    + rewrite one_if_false by done. cbn [obind]. by rewrite IH.
Qed.

(** A version that is in the journal is found by its ID. *)
Lemma ToFileInfo_version volume path versionID uv x v ver fi :
  journal_ok x → versionID ≠ "" → request_id versionID = Some uv → by_id (versions x) !! uv = Some v →
  UnmarshalMsg (meta v) = Some ver → ver_ToFileInfo volume path ver = Ok fi →
  ∃ pre post, versions x = pre ++ v :: post ∧
    xl_ToFileInfo volume path versionID x =
    Ok (set_reported (forallb (λ v, h_FreeVersion (header v)) pre) (zlen (versions x) - Z.of_nat (count (λ v, free v) (versions x)))
          (if pre_succ 0 pre =? 0 then fi_SuccessorModTime fi else unix_nano_time (pre_succ 0 pre)) fi).
Proof.
  intros Hx Hne Huv Hv Hu Hfi. apply by_id_lookup in Hv as [Hin Hid]; [|apply Hx]. apply list_elem_of_split in Hin as (pre & post & Hs). exists pre, post. split; [done|].
  pose proof (jo_ids _ Hx) as Hn. unfold xl_ToFileInfo. rewrite Huv. rewrite Hs in Hn |- *.
  assert (Forall (λ w, h_VersionID (header w) ≠ uv) pre) as Hpre.
  { apply Forall_forall. intros w Hw Heq. unfold ids in Hn. rewrite fmap_app in Hn. apply NoDup_app in Hn as (_ & Hd & _). apply (Hd uv).
    - rewrite <- Heq. apply list_elem_of_fmap. by exists w.
    - rewrite fmap_cons, Hid. by left. }
  rewrite lookup_before by done. cbn [lookup_loop l_succ l_latest l_nonfree l_found]. unfold lookup_step at 1. cbn [l_succ l_latest l_nonfree l_found andb].
  rewrite Hid, Z.eqb_refl. cbn [negb]. rewrite !andb_false_r. cbv iota. unfold unmarshalV. rewrite Hu.
  replace ((metaV x =? 0) || (metaV x =? 1)) with true by (by destruct (jo_metaV _ Hx) as [-> | ->]). cbn [obind]. rewrite Hfi. cbn [obind].
  erewrite lookup_after by done. cbn [obind l_found l_succ l_latest l_nonfree fi_IsLatest fi_SuccessorModTime set_reported]. unfold set_reported. cbn.
  do 2 f_equal. rewrite count_app, count_cons. destruct (h_FreeVersion (header v)) eqn:E; [rewrite one_if_true by done|rewrite one_if_false by done]; lia.
Qed.

(** Free versions in front are passed over. *)
Lemma lookup_free volume path mv pre post st :
  Forall (λ v, free v ∧ h_VersionID (header v) ≠ 0) pre →
  lookup_loop volume path "" 0 mv st (pre ++ post) =
  lookup_loop volume path "" 0 mv (mkLook (l_succ st) (l_latest st) (l_nonfree st - Z.of_nat (length pre)) (l_found st)) post.
Proof.
  intros Hpre. revert st. induction Hpre as [|v pre [Hf Hv] _ IH]; intros st; cbn [app lookup_loop].
  - cbn. rewrite Z.sub_0_r. by destruct st.
  - unfold lookup_step at 1. rewrite Hf, (proj2 (Z.eqb_neq _ _) Hv). cbn [negb andb obind]. rewrite IH. cbn [l_succ l_latest l_nonfree l_found length].
    by rewrite Nat2Z.inj_succ, <- Z.add_1_l, Z.sub_add_distr.
Qed.

(** The versions up to the first that is not free. *)
Lemma first_real (vs : list (xlMetaV2ShallowVersion B)) :
  Forall (λ v, free v) vs ∨ ∃ pre v post, vs = pre ++ v :: post ∧ Forall (λ v, free v) pre ∧ h_FreeVersion (header v) = false.
Proof.
  induction vs as [|v vs IH]; [by left; constructor|]. destruct (h_FreeVersion (header v)) eqn:E.
  - destruct IH as [?|(pre & w & post & -> & Hp & Hw)]; [by left; constructor|]. right. exists (v :: pre), w, post. split; [done|]. by split; [constructor|].
  - right. exists [], v, vs. done.
Qed.

End Operations.

(** *** Objects are read back *)

Lemma ToLower_take n k : ToLower (str_take n k) = str_take n (ToLower k).
Proof. revert k. induction n as [|n IH]; intros [|a k]; cbn; [done..|]. f_equal. apply IH. Qed.

Lemma reserved_lower k : reserved_key k = true → HasPrefix (ToLower k) ReservedMetadataPrefixLower = true.
Proof.
  unfold reserved_key, EqualFold, HasPrefix. intros [_ He%String.eqb_eq]%andb_true_iff. rewrite ToLower_take in He.
  change (ToLower ReservedMetadataPrefixLower) with ReservedMetadataPrefixLower in He. rewrite <- (str_take_drop (String.length ReservedMetadataPrefixLower) (ToLower k)), He.
  apply prefix_app.
Qed.

(** The parts of the request, from the lists in the version. *)
Lemma parts_back o parts :
  o_PartSizes o = part_Size <$> parts → o_PartActualSizes o = part_ActualSize <$> parts →
  (o_PartETags o = part_ETag <$> parts ∨ o_PartETags o = [] ∧ Forall (λ p, part_ETag p = "") parts) →
  parts_from o 0 (part_Number <$> parts) = Some parts.
Proof.
  intros Hs Ha He. assert (∀ i p, parts !! i = Some p → part_at o i (part_Number p) = Some p) as Hat.
  { intros i p Hi. unfold part_at. rewrite Hs, Ha, !list_lookup_fmap, Hi. cbn [fmap option_fmap option_map mbind option_bind]. destruct He as [-> | [-> Hf]].
    - rewrite list_lookup_fmap, Hi. unfold zlen. rewrite length_fmap. pose proof (lookup_lt_Some _ _ _ Hi). rewrite (proj2 (Z.ltb_lt _ _)) by lia. by destruct p.
    - cbn. rewrite Forall_lookup in Hf. specialize (Hf i p Hi). destruct p; cbn in *. by subst. }
  assert (∀ suf i, drop i parts = suf → parts_from o i (part_Number <$> suf) = Some suf) as Hgen; [|by apply (Hgen parts 0%nat)].
  induction suf as [|p suf IH]; intros i Hd; cbn [fmap list_fmap parts_from]; [done|]. assert (parts !! i = Some p) as Hi.
  { rewrite <- (Nat.add_0_r i), <- lookup_drop, Hd. done. }
  rewrite (Hat i p Hi). cbn [mbind option_bind]. rewrite IH; [done|]. rewrite <- Nat.add_1_r, <- drop_drop, Hd. done.
Qed.

Lemma etags_back (parts : list ObjectPartInfo) :
  let etags := part_ETag <$> parts in
  let stored := if existsb (λ e, negb (String.eqb e "")) etags then etags else [] in
  stored = part_ETag <$> parts ∨ stored = [] ∧ Forall (λ p, part_ETag p = "") parts.
Proof.
  cbv zeta. destruct (existsb _ _) eqn:E; [by left|right]. split; [done|]. apply Forall_forall. intros p Hp. apply not_true_iff_false in E.
  destruct (String.eqb (part_ETag p) "") eqn:Ep; [by apply String.eqb_eq in Ep|]. exfalso. apply E, existsb_exists.
  exists (part_ETag p). rewrite Ep. split; [|done]. apply list_elem_of_In, list_elem_of_fmap. by exists p.
Qed.

(** Keys of the metadata that [AddVersion] or [ToFileInfo] set, or drop. *)
Definition transition_keys : list string :=
  [rkey TransitionStatus; rkey TransitionedObjectName; rkey TransitionedVersionID; rkey TransitionTier].
Definition special_keys : list string := AmzBucketReplicationStatus :: transition_keys ++ tier_keys.

Lemma set_nonempty_other k k' v m : k ≠ k' → set_nonempty k' v m !! k = m !! k.
Proof. intros Hne. unfold set_nonempty. destruct (String.eqb v ""); [done|]. by rewrite lookup_insert_ne. Qed.

Lemma meta_str_set k k' v m :
  meta_str (set_nonempty k' v m) k = if decide (k = k') then (if String.eqb v "" then meta_str m k else v) else meta_str m k.
Proof.
  unfold meta_str. case_decide as E; [subst k'|by rewrite set_nonempty_other]. unfold set_nonempty. destruct (String.eqb v "") eqn:Ev; [done|].
  by rewrite lookup_insert_eq.
Qed.

Lemma rkey_inj a b : rkey a = rkey b → a = b.
Proof. apply str_app_inj. Qed.

Lemma rkey_reserved a : a ≠ "" → reserved_key (rkey a) = true.
Proof.
  intros Ha. unfold reserved_key. rewrite str_take_app, str_length_app. destruct a as [|c a]; [done|].
  rewrite (proj2 (Nat.ltb_lt _ _)) by (cbn; lia). done.
Qed.

(** The metadata of the system that [AddVersion] stores. *)
Lemma stored_transition fi m k :
  let sys := set_nonempty (rkey TransitionTier) (fi_TransitionTier fi) (set_nonempty (rkey TransitionedVersionID) (fi_TransitionVersionID fi)
    (set_nonempty (rkey TransitionedObjectName) (fi_TransitionedObjName fi) (set_nonempty (rkey TransitionStatus) (fi_TransitionStatus fi) m))) in
  (∀ k, k ∈ transition_keys → m !! k = None) →
  meta_str sys (rkey TransitionStatus) = fi_TransitionStatus fi ∧ meta_str sys (rkey TransitionedObjectName) = fi_TransitionedObjName fi ∧
  meta_str sys (rkey TransitionTier) = fi_TransitionTier fi ∧ meta_str sys (rkey TransitionedVersionID) = fi_TransitionVersionID fi ∧
  (k ∉ transition_keys → sys !! k = m !! k).
Proof.
  cbv zeta. intros Hm. assert (∀ k, k ∈ transition_keys → meta_str m k = "") as Hstr by (intros k' Hk'; unfold meta_str; by rewrite Hm).
  assert (∀ s, (if String.eqb s "" then ""%string else s) = s) as Hs by (intros s; destruct (String.eqb s "") eqn:E; [by apply String.eqb_eq in E|done]).
  rewrite !meta_str_set, !(Hstr _) by (unfold transition_keys; set_solver). rewrite !Hs.
  split; [|split; [|split; [|split]]]; [repeat (rewrite decide_False by (intros E%rkey_inj; discriminate E)); by rewrite decide_True..|].
  intros Hk. unfold transition_keys in Hk. rewrite !set_nonempty_other; set_solver.
Qed.

(** What is left of a request when its version is read. *)
Record read_back (uv dd : Z) (fi fi' : FileInfo) `{UUID} : Prop := {
  rb_Deleted : fi_Deleted fi' = fi_Deleted fi;
  rb_VersionID : fi_VersionID fi' = version_id_string uv;
  rb_DataDir : fi_Deleted fi = false → fi_DataDir fi' = uuid_String dd;
  rb_ModTime : fi_ModTime fi' = fi_ModTime fi;
  rb_Size : fi_Deleted fi = false → fi_Size fi' = fi_Size fi;
  rb_Parts : fi_Deleted fi = false → fi_Parts fi' = fi_Parts fi;
  rb_Erasure : fi_Deleted fi = false → fi_Erasure fi' =
    mkEI (ei_DataBlocks (fi_Erasure fi)) (ei_ParityBlocks (fi_Erasure fi)) (ei_BlockSize (fi_Erasure fi)) (ei_Index (fi_Erasure fi))
      (ei_Distribution (fi_Erasure fi)) (checksum_of <$> fi_Parts fi);
  rb_Transition : fi_Deleted fi = false →
    fi_TransitionStatus fi' = fi_TransitionStatus fi ∧ fi_TransitionedObjName fi' = fi_TransitionedObjName fi ∧
    fi_TransitionTier fi' = fi_TransitionTier fi ∧ fi_TransitionVersionID fi' = fi_TransitionVersionID fi;
  rb_Metadata k : fi_Deleted fi = false → k ∉ special_keys → fi_Metadata fi' !! k = fi_Metadata fi !! k;
}.

(** A request whose values fit the fields of a version, and whose metadata has no keys that are set or dropped on the way. *)
Record plain_request (fi : FileInfo) : Prop := {
  pr_ModTime : in_int64 (fi_ModTime fi - unix_epoch);
  pr_Distribution : Forall (λ d, 0 ≤ d < 256) (ei_Distribution (fi_Erasure fi));
  pr_special k : k ∈ special_keys → fi_Metadata fi !! k = None;
  pr_unencrypted k : equals k [AmzMetaUnencryptedContentLength; AmzMetaUnencryptedContentMD5] = true → fi_Metadata fi !! k = None;
}.

Lemma shown_stored fi sys k :
  plain_request fi → k ∉ special_keys →
  sys !! k = filter (λ kv, reserved_key kv.1 = true ∧ kv.1 ∉ tier_keys) (fi_Metadata fi) !! k →
  shown_metadata (filter (λ kv, reserved_key kv.1 = false) (fi_Metadata fi)) sys !! k = fi_Metadata fi !! k.
Proof.
  intros Hp Hk Hsys. unfold shown_metadata. assert (k ∉ tier_keys) as Ht by (unfold special_keys in Hk; set_solver).
  destruct (fi_Metadata fi !! k) as [v|] eqn:E.
  - destruct (reserved_key k) eqn:Er.
    + apply lookup_union_Some_l. apply map_lookup_filter_Some. split; [|cbn [fst]; by rewrite (reserved_lower k Er)].
      rewrite Hsys. by apply map_lookup_filter_Some.
    + rewrite lookup_union_r.
      * apply map_lookup_filter_Some. split; [by apply map_lookup_filter_Some|]. apply negb_true_iff, not_true_is_false.
        intros Hu%(pr_unencrypted _ Hp). cbn [fst] in Hu. congruence.
      * apply map_lookup_filter_None. left. rewrite Hsys. apply map_lookup_filter_None. right. cbn [fst]. intros v' _ [Hr _]. congruence.
  - apply lookup_union_None. split; apply map_lookup_filter_None; left; [rewrite Hsys|]; apply map_lookup_filter_None; by left.
Qed.

Section ReadBack.
Context `{UUIDLaws}.

Lemma version_back volume path uv dd fi :
  plain_request fi → ∃ fi', ver_ToFileInfo volume path (version_of uv dd fi) = Ok fi' ∧ read_back uv dd fi fi' ∧ fi_Volume fi' = volume ∧ fi_Name fi' = path.
Proof.
  intros Hp. assert (unix_nano_time (UnixNano (fi_ModTime fi)) = fi_ModTime fi) as Ht.
  { unfold unix_nano_time, UnixNano. rewrite wrap64_small by apply Hp. lia. }
  unfold version_of. destruct (fi_Deleted fi) eqn:Ed; cbn [ver_ToFileInfo].
  - eexists. split; [done|]. split; [|done]. split; cbn; congruence.
  - set (sys := set_nonempty (rkey TransitionTier) _ _). unfold o_ToFileInfo. cbn [o_PartNumbers].
    rewrite (parts_back _ (fi_Parts fi)) by (done || apply etags_back). cbn [o_BitrotChecksumAlgo]. rewrite andb_false_r.
    assert (∀ k, k ∈ transition_keys → filter (λ kv, reserved_key kv.1 = true ∧ kv.1 ∉ tier_keys) (fi_Metadata fi) !! k = None) as Hnone.
    { intros k Hk. rewrite map_lookup_filter, (pr_special _ Hp); [done|]. unfold special_keys. right. apply elem_of_app. by left. }
    eexists. split; [done|]. cbv zeta. cbn [o_MetaSys o_MetaUser]. split; [|done]. split; cbn; try done.
    + intros _. f_equal.
      * rewrite <- (list_fmap_id (ei_Distribution (fi_Erasure fi))) at 2. apply list_fmap_ext. intros i d Hd. cbn.
        pose proof (pr_Distribution _ Hp) as Hr. rewrite Forall_lookup in Hr. specialize (Hr i d Hd). by rewrite Z.mod_small.
      * rewrite length_fmap, Nat.sub_diag. cbn. apply app_nil_r.
    + intros _. pose proof (stored_transition fi _ "" Hnone) as (? & ? & ? & ? & _). done.
    + intros k _ Hk. pose proof (stored_transition fi _ k Hnone) as (_ & _ & _ & _ & Hother).
      assert (k ∉ transition_keys ∧ k ≠ AmzBucketReplicationStatus) as [Hkt Hka] by (unfold special_keys in Hk; set_solver).
      assert (shown_metadata (filter (λ kv, reserved_key kv.1 = false) (fi_Metadata fi)) sys !! k = fi_Metadata fi !! k) as Hsh.
      { apply shown_stored; [done|done|]. by apply Hother. }
      destruct (String.eqb (CompositeReplicationStatus _) ""); [done|]. rewrite lookup_insert_ne by done. done.
Qed.

End ReadBack.

(** ** Deleting *)

(** The versions that a request to delete or to update may write in place of one. *)
Inductive changed `{UUID} (fi : FileInfo) : xlMetaV2Version → xlMetaV2Version → Prop :=
  | changed_marker d : changed fi (VDelete d) (VDelete (mkDM (dm_VersionID d) (dm_ModTime d) (set_replication fi (dm_MetaSys d))))
  | changed_purge o : changed fi (VObject o) (VObject (o_set_MetaSys (default ∅ (rs_ResetStatusesMap (fi_ReplicationState fi))
      ∪ <[VersionPurgeStatusKey := rs_VersionPurgeStatusInternal (fi_ReplicationState fi)]> (o_MetaSys o)) o))
  | changed_restore o : changed fi (VObject o) (VObject (RemoveRestoreHdrs o))
  | changed_transition o : changed fi (VObject o) (VObject (SetTransition fi o))
  | changed_update o : changed fi (VObject o) (VObject (updated_object fi o)).

Lemma changed_id `{UUID} fi ver ver' : changed fi ver ver' → getVersionID ver' = getVersionID ver ∧ ver_Type ver' = ver_Type ver.
Proof. destruct 1; try done. unfold updated_object. by destruct (fi_ModTime fi =? 0). Qed.

(** Time stamps of requests: none, or after 1970. *)
Definition stamp_ok (fi : FileInfo) : Prop := fi_ModTime fi = 0 ∨ 0 < UnixNano (fi_ModTime fi).

Lemma changed_valid `{UUID} fi ver ver' : stamp_ok fi → changed fi ver ver' → Valid ver = true → time_ok ver → Valid ver' = true ∧ time_ok ver'.
Proof.
  intros Hs. destruct 1 as [d|o|o|o|o]; try done. intros Hv Ht. unfold updated_object. destruct (fi_ModTime fi =? 0) eqn:E; [done|].
  apply Z.eqb_neq in E. destruct Hs as [?|Hs]; [done|]. cbn in *. destruct_bools. split; [|apply wrap64_range].
  rewrite !andb_true_iff, Z.ltb_lt. done.
Qed.

Section Deleting.
Context {B : Type} `{VersionCodecLaws B} `{UUIDLaws} `{MsgpLaws}.
Implicit Types (v w old new : xlMetaV2ShallowVersion B) (x : xlMetaV2 B) (ver : xlMetaV2Version).

(** What a request writes fits the format. *)
Definition fits_changes (fi : FileInfo) x : Prop :=
  ∀ v ver ver', v ∈ versions x → UnmarshalMsg (meta v) = Some ver → changed fi ver ver' → Fits ver'.

Lemma InitFreeVersion_inv o fi fv : InitFreeVersion o fi = Ok (Some fv) →
  o_MetaSys o !! rkey TransitionStatus = Some TransitionComplete ∧ uuid_Parse (TierFreeVersionID fi) = Some (getVersionID fv) ∧
  ∃ d, fv = VDelete d ∧ dm_ModTime d = o_ModTime o ∧ dm_FreeVersion d = true.
Proof.
  unfold InitFreeVersion. destruct (o_MetaSys o !! rkey TransitionStatus) as [status|]; [|done].
  destruct (String.eqb_spec status TransitionComplete) as [->|]; [|done]. destruct (uuid_Parse (TierFreeVersionID fi)) as [u|]; [|done]. intros [= <-].
  split; [done|]. split; [done|]. eexists. split; [done|]. split; [done|]. unfold dm_FreeVersion. apply bool_decide_eq_true. cbn [dm_MetaSys].
  rewrite lookup_union_r; [rewrite lookup_singleton_eq; by eexists|]. apply map_lookup_filter_None. right. intros s _. cbn [fst].
  intros Hin. repeat (apply elem_of_cons in Hin as [Hin%rkey_inj|Hin]; [discriminate Hin|]). by apply elem_of_nil in Hin.
Qed.

(** The free version of a request is new, and fits. *)
Definition free_ok (fi : FileInfo) x : Prop :=
  (∀ u, uuid_Parse (TierFreeVersionID fi) = Some u → u ∉ ids (versions x)) ∧
  (∀ v o fv, v ∈ versions x → UnmarshalMsg (meta v) = Some (VObject o) → InitFreeVersion o fi = Ok (Some fv) → Fits fv).

Lemma set_changed now fi i v ver ver' x :
  journal_ok x → stamp_ok fi → fits_changes fi x → versions x !! i = Some v → UnmarshalMsg (meta v) = Some ver → changed fi ver ver' →
  ∃ x', setIdx now (Z.of_nat i) ver' x = (Ok (), x') ∧ journal_ok x' ∧ data x' = data x ∧ ids (versions x') ≡ₚ ids (versions x) ∧
        by_id (versions x') = <[h_VersionID (header v) := shallow_of now ver']> (by_id (versions x)).
Proof.
  intros Hx Hs Hf Hi Hu Hc. pose proof (jo_entries _ Hx) as He. rewrite Forall_lookup in He. destruct (He i v Hi) as (ver0 & t & Hu0 & Hv & Ht & Hh & _).
  assert (ver0 = ver) as -> by congruence. destruct (changed_valid fi ver ver' Hs Hc Hv Ht) as [Hv' Ht']. destruct (changed_id fi ver ver' Hc) as [Hid _].
  assert (h_VersionID (header v) = getVersionID ver) as Hvid by (by rewrite Hh).
  destruct (setIdx_ok now i v ver' x) as (x' & Hset & Hx' & Hd & Hp & Hb); [done|done| |congruence|].
  { split; [done|]. split; [done|]. eapply Hf; [by eapply list_elem_of_lookup_2|done|done]. }
  exists x'. rewrite Hid, <- Hvid in Hb. split; [done|]. split; [done|]. split; [done|]. split; [|done]. unfold ids in *. rewrite Hp.
  fold (ids (<[i := shallow_of now ver']> (versions x))). rewrite (ids_insert i v); [done|done|]. cbn. congruence.
Qed.

(** *** The journal as a map of versions *)

Definition view x : gmap Z xlMetaV2Version := omap (λ v, UnmarshalMsg (meta v)) (by_id (versions x)).

Lemma view_insert now ver x x' id :
  writable ver → by_id (versions x') = <[id := shallow_of now ver]> (by_id (versions x)) → view x' = <[id := ver]> (view x).
Proof. intros (_ & _ & Hf) Hb. unfold view. rewrite Hb. erewrite omap_insert_Some; [done|]. cbn. by apply unmarshal_marshal. Qed.

Lemma view_lookup x i v ver : journal_ok x → versions x !! i = Some v → UnmarshalMsg (meta v) = Some ver → view x !! h_VersionID (header v) = Some ver.
Proof.
  intros Hx Hi Hu. unfold view. rewrite lookup_omap. replace (by_id (versions x) !! h_VersionID (header v)) with (Some v); [done|].
  symmetry. apply by_id_lookup; [apply Hx|]. split; [by eapply list_elem_of_lookup_2|done].
Qed.

Lemma view_none x id : journal_ok x → view x !! id = None ↔ id ∉ ids (versions x).
Proof.
  intros Hx. rewrite <- by_id_none. unfold view. rewrite lookup_omap. destruct (by_id (versions x) !! id) as [v|] eqn:E; [|done].
  apply by_id_lookup in E as [Hv _]; [|apply Hx]. pose proof (jo_entries _ Hx) as He. rewrite Forall_forall in He.
  destruct (He v Hv) as (ver & t & Hu & _). cbn. rewrite Hu. done.
Qed.

Lemma add_view now ver x :
  journal_ok x → writable ver → view x !! getVersionID ver = None →
  ∃ x', addVersion now ver x = (Ok (), x') ∧ journal_ok x' ∧ data x' = data x ∧ view x' = <[getVersionID ver := ver]> (view x).
Proof.
  intros Hx Hw Hn%view_none; [|done]. destruct (addVersion_ok now ver x Hx Hw Hn) as (x' & Ha & Hx' & Hd & _ & Hb).
  exists x'. split_and!; [done|done|done|]. by eapply view_insert.
Qed.

Lemma set_view now fi i v ver ver' x :
  journal_ok x → stamp_ok fi → fits_changes fi x → versions x !! i = Some v → UnmarshalMsg (meta v) = Some ver → changed fi ver ver' →
  ∃ x', setIdx now (Z.of_nat i) ver' x = (Ok (), x') ∧ journal_ok x' ∧ data x' = data x ∧ view x' = <[h_VersionID (header v) := ver']> (view x).
Proof.
  intros Hx Hs Hf Hi Hu Hc. destruct (set_changed now fi i v ver ver' x Hx Hs Hf Hi Hu Hc) as (x' & Ha & Hx' & Hd & _ & Hb).
  exists x'. split; [done|]. split; [done|]. split; [done|]. eapply (view_insert now); [|done].
  pose proof (jo_entries _ Hx) as He. rewrite Forall_lookup in He. destruct (He i v Hi) as (ver0 & t & Hu0 & Hv & Ht & _).
  assert (ver0 = ver) as -> by congruence. destruct (changed_valid fi ver ver' Hs Hc Hv Ht). split; [done|]. split; [done|].
  eapply Hf; [by eapply list_elem_of_lookup_2|done|done].
Qed.

Lemma remove_view i v x :
  journal_ok x → versions x !! i = Some v →
  ∃ x', remove_at i x = (Ok (), x') ∧ journal_ok x' ∧ data x' = data x ∧ view x' = delete (h_VersionID (header v)) (view x) ∧
        ids (versions x') = ids (delete i (versions x)).
Proof.
  intros Hx Hi. destruct (remove_at_ok i v x Hx Hi) as (x' & Ha & Hx' & Hd & Hv & Hb). exists x'. split; [done|]. split; [done|]. split; [done|].
  split; [|by rewrite Hv]. unfold view. rewrite Hb. apply omap_delete.
Qed.

Lemma getIdx_type i v x :
  journal_ok x → versions x !! i = Some v →
  ∃ ver, getIdx (Z.of_nat i) x = Ok ver ∧ UnmarshalMsg (meta v) = Some ver ∧ getVersionID ver = h_VersionID (header v) ∧ ver_Type ver = h_Type (header v) ∧
         Valid ver = true ∧ time_ok ver.
Proof. intros Hx Hi. destruct (getIdx_ok i v x Hx Hi) as (ver & t & Hg & Hu & Hv & Ht & Hh). exists ver. rewrite Hh. done. Qed.

(** The abstract operations. *)

Definition spec_change (fi : FileInfo) (uv : Z) (o : xlMetaV2Object) (m : gmap Z xlMetaV2Version) : gmap Z xlMetaV2Version :=
  if fi_ExpireRestored fi then <[uv := VObject (RemoveRestoreHdrs o)]> m
  else if String.eqb (fi_TransitionStatus fi) TransitionComplete then <[uv := VObject (SetTransition fi o)]> m
  else match InitFreeVersion o fi with
       | Ok (Some fv) => <[getVersionID fv := fv]> (delete uv m)
       | _ => delete uv m
       end.

(** The delete marker of a request in a map without this version. *)
Definition spec_mark (fi : FileInfo) (uv : Z) (m : gmap Z xlMetaV2Version) : gmap Z xlMetaV2Version :=
  if fi_Deleted fi then <[uv := delete_entry uv fi]> m else m.

Definition spec_delete (fi : FileInfo) (uv : Z) (m : gmap Z xlMetaV2Version) : gmap Z xlMetaV2Version :=
  match m !! uv with
  | Some (VLegacy _) => spec_mark fi uv (delete uv m)
  | Some (VDelete d) =>
      if update_version fi then <[uv := VDelete (mkDM (dm_VersionID d) (dm_ModTime d) (set_replication fi (dm_MetaSys d)))]> m
      else if fi_MarkDeleted fi && negb (String.eqb (VersionPurgeStatus fi) PurgeComplete) then spec_mark fi uv (delete uv m)
      else delete uv m
  | Some (VObject o) =>
      if update_version fi && negb (fi_Deleted fi) then
        <[uv := VObject (o_set_MetaSys (default ∅ (rs_ResetStatusesMap (fi_ReplicationState fi))
                  ∪ <[VersionPurgeStatusKey := rs_VersionPurgeStatusInternal (fi_ReplicationState fi)]> (o_MetaSys o)) o)]> m
      else match InitFreeVersion o fi with
           | Panic _ => if fi_ExpireRestored fi || String.eqb (fi_TransitionStatus fi) TransitionComplete then spec_mark fi uv (spec_change fi uv o m)
                        else delete uv m
           | _ => spec_mark fi uv (spec_change fi uv o m)
           end
  | _ => spec_mark fi uv m
  end.

(** Requests whose time is none or after 1970, whose free version is new, and which do not ask for a delete
    marker together with the end of a restored copy or a transition: the latter keep the version under its ID, and the
    marker would be added with the same ID. *)
Record delete_ok (fi : FileInfo) x : Prop := {
  dl_stamp : stamp_ok fi;
  dl_fits : fits_changes fi x;
  dl_free : free_ok fi x;
  dl_entry uv : fi_Deleted fi = true → Fits (delete_entry uv fi);
  dl_one : fi_Deleted fi = true → fi_ExpireRestored fi = false ∧ fi_TransitionStatus fi ≠ TransitionComplete;
}.

Lemma delete_entry_writable fi uv x : delete_ok fi x → fi_Deleted fi = true → Valid (delete_entry uv fi) = true → writable (delete_entry uv fi) ∧ getVersionID (delete_entry uv fi) = uv.
Proof.
  intros Hok Hd Hv. split; [split; [done|]; split; [|by apply Hok]|]; unfold delete_entry; rewrite Hd; [apply wrap64_range|done].
Qed.

(** Adding the marker when no version has its ID. *)
Lemma mark_view now fi uv x0 x :
  journal_ok x → delete_ok fi x0 → fi_Deleted fi && negb (Valid (delete_entry uv fi)) = false → (fi_Deleted fi = true → view x !! uv = None) →
  ∃ x', (if fi_Deleted fi then addVersion now (delete_entry uv fi) else mret_ok ()) x = (Ok (), x') ∧ journal_ok x' ∧ data x' = data x ∧
        view x' = spec_mark fi uv (view x).
Proof.
  intros Hx Hok Hval Hn. unfold spec_mark. destruct (fi_Deleted fi) eqn:Hd; [|by exists x]. cbn [andb] in Hval. apply negb_false_iff in Hval.
  destruct (delete_entry_writable fi uv x0 Hok Hd Hval) as [Hw Hid]. specialize (Hn eq_refl). rewrite <- Hid in Hn.
  destruct (add_view now (delete_entry uv fi) x Hx Hw Hn) as (x' & Ha & Hx' & Hda & Hb). rewrite Hid in Hb. by exists x'.
Qed.

Lemma in_place_view now fi uv x i v :
  journal_ok x → delete_ok fi x → fi_Deleted fi && negb (Valid (delete_entry uv fi)) = false → versions x !! i = Some v → returns_at fi uv v →
  let x' := (delete_in_place now fi (delete_entry uv fi) i v x).2 in
  journal_ok x' ∧ data x' = data x ∧ view x' = spec_delete fi uv (view x).
Proof.
  intros Hx Hok Hval Hi [Hid Hty]. cbv zeta. destruct (getIdx_type i v x Hx Hi) as (ver & Hg & Hu & Hvid & Hvt & Hvalid & _).
  pose proof (view_lookup x i v ver Hx Hi Hu) as Hview. rewrite Hid in *. destruct (remove_view i v x Hx Hi) as (x1 & Hr & Hx1 & Hd1 & Hb1 & _). rewrite Hid in Hb1.
  assert (fi_Deleted fi = true → view x1 !! uv = None) as Hnone by (intros _; by rewrite Hb1, lookup_delete_eq).
  destruct (mark_view now fi uv x x1 Hx1 Hok Hval Hnone) as (x2 & Hm & Hx2 & Hd2 & Hb2).
  unfold delete_in_place, spec_delete. rewrite Hview. destruct Hty as [Hty|[Hty|(Hty & Hup & Hdel)]]; rewrite Hty in *.
  - destruct ver as [o|d|m|t]; try done. cbn [Z.eqb LegacyType Pos.eqb]. unfold mbind_ok, reads. rewrite Hg. cbn [obind as_legacy]. rewrite Hr, Hm.
    cbn [snd no_versions reads mret_ok]. rewrite Hb2, Hb1. split; [done|]. split; [congruence|done].
  - destruct ver as [o|d|m|t]; try done. change (DeleteType =? LegacyType) with false. change (DeleteType =? DeleteType) with true. cbv iota.
    destruct (update_version fi).
    + destruct (set_view now fi i v (VDelete d) _ x Hx (dl_stamp _ _ Hok) (dl_fits _ _ Hok) Hi Hu (changed_marker fi d)) as (x3 & Hs & Hx3 & Hd3 & Hb3).
      unfold mbind_ok, reads. rewrite Hg. cbn [obind as_marker]. rewrite Hs. cbn [snd no_versions reads mret_ok]. rewrite Hb3, Hid. done.
    + unfold mbind_ok. rewrite Hr. replace (String.eqb (VersionPurgeStatus fi) "" || negb (String.eqb (VersionPurgeStatus fi) PurgeComplete))
        with (negb (String.eqb (VersionPurgeStatus fi) PurgeComplete)) by (by destruct (String.eqb_spec (VersionPurgeStatus fi) "") as [->|]).
      destruct (fi_MarkDeleted fi && _) eqn:Emd; [|cbn [mret_ok no_versions reads snd]; by rewrite Hb1].
      unfold spec_mark in *. destruct (fi_Deleted fi) eqn:Edel.
      * rewrite Hm. cbn [snd no_versions reads mret_ok]. rewrite Hb2, Hb1. split; [done|]. split; [congruence|done].
      * unfold addVersion, delete_entry. rewrite Edel. cbn [Valid negb snd]. by rewrite Hb1.
  - destruct ver as [o|d|m|t]; try done. change (ObjectType =? LegacyType) with false. change (ObjectType =? DeleteType) with false. cbv iota.
    rewrite Hup, Hdel. cbn [andb negb]. unfold mbind_ok, reads. rewrite Hg. cbn [obind as_object].
    destruct (set_view now fi i v (VObject o) _ x Hx (dl_stamp _ _ Hok) (dl_fits _ _ Hok) Hi Hu (changed_purge fi o)) as (x3 & Hs & Hx3 & Hd3 & Hb3).
    rewrite Hs. cbn [snd no_versions reads mret_ok]. rewrite Hb3, Hid. done.
Qed.

(** What becomes of the object itself. *)
Lemma change_view now fi uv x i v o :
  journal_ok x → delete_ok fi x → versions x !! i = Some v → h_VersionID (header v) = uv → UnmarshalMsg (meta v) = Some (VObject o) →
  ∃ r x', change_object now fi i o x = (r, x') ∧ journal_ok x' ∧ data x' = data x ∧ view x' = spec_change fi uv o (view x) ∧
    (r = Ok () ∨ fi_ExpireRestored fi = false ∧ fi_TransitionStatus fi ≠ TransitionComplete ∧ (∃ why, InitFreeVersion o fi = Panic why ∧ r = Panic why)) ∧
    (fi_ExpireRestored fi = false → fi_TransitionStatus fi ≠ TransitionComplete → view x' !! uv = None).
Proof.
  intros Hx Hok Hi Hid Hu. unfold change_object, spec_change.
  destruct (fi_ExpireRestored fi) eqn:E1; [|destruct (String.eqb_spec (fi_TransitionStatus fi) TransitionComplete) as [E2|E2]].
  - destruct (set_view now fi i v (VObject o) _ x Hx (dl_stamp _ _ Hok) (dl_fits _ _ Hok) Hi Hu (changed_restore fi o)) as (x3 & Hs & Hx3 & Hd3 & Hb3).
    exists (Ok ()), x3. rewrite <- Hid. split_and!; try done. by left.
  - destruct (set_view now fi i v (VObject o) _ x Hx (dl_stamp _ _ Hok) (dl_fits _ _ Hok) Hi Hu (changed_transition fi o)) as (x3 & Hs & Hx3 & Hd3 & Hb3).
    exists (Ok ()), x3. rewrite <- Hid. split_and!; try done. by left.
  - destruct (remove_view i v x Hx Hi) as (x1 & Hr & Hx1 & Hd1 & Hb1 & Hids). rewrite Hid in Hb1. unfold mbind_ok, reads. rewrite Hr.
    destruct (InitFreeVersion o fi) as [[fv|]|e|w] eqn:Ef.
    + destruct (InitFreeVersion_inv o fi fv Ef) as (_ & Hp & d & -> & Hmt & _). destruct (dl_free _ _ Hok) as [Hfresh Hfits].
      pose proof (jo_entries _ Hx) as He. rewrite Forall_lookup in He. destruct (He i v Hi) as (ver & t & Hu0 & Hv & Ht & _).
      assert (ver = VObject o) as -> by congruence. cbn [Valid time_ok] in Hv, Ht. apply andb_true_iff in Hv as [_ Hpos].
      assert (writable (VDelete d)) as Hw.
      { split; [cbn; by rewrite Hmt|]. split; [cbn; by rewrite Hmt|]. eapply Hfits; [by eapply list_elem_of_lookup_2|done|done]. }
      specialize (Hfresh _ Hp). apply (view_none x _ Hx) in Hfresh. assert (view x1 !! getVersionID (VDelete d) = None) as Hn1.
      { rewrite Hb1. apply lookup_delete_None. by right. }
      destruct (add_view now (VDelete d) x1 Hx1 Hw Hn1) as (x2 & Ha & Hx2 & Hd2 & Hb2). exists (Ok ()), x2. rewrite Hb1 in Hb2.
      split; [done|]. split; [done|]. split; [congruence|]. split; [done|]. split; [by left|]. intros _ _. rewrite Hb2, lookup_insert_ne, lookup_delete_eq; [done|].
      intros Heq. rewrite Heq in Hfresh. pose proof (view_lookup x i v _ Hx Hi Hu). congruence.
    + exists (Ok ()), x1. split; [done|]. split; [done|]. split; [done|]. split; [done|]. split; [by left|]. intros _ _. by rewrite Hb1, lookup_delete_eq.
    + unfold InitFreeVersion in Ef. repeat case_match; done.
    + exists (Panic w), x1. split; [done|]. split; [done|]. split; [done|]. split; [done|]. split; [right; eauto|]. intros _ _. by rewrite Hb1, lookup_delete_eq.
Qed.

Lemma delete_object_view now fi uv x i v r x' :
  journal_ok x → delete_ok fi x → fi_Deleted fi && negb (Valid (delete_entry uv fi)) = false → versions x !! i = Some v →
  h_Type (header v) = ObjectType → h_VersionID (header v) = uv → update_version fi && negb (fi_Deleted fi) = false →
  delete_object now fi (delete_entry uv fi) i x = (r, x') →
  journal_ok x' ∧ data x' = data x ∧ view x' = spec_delete fi uv (view x) ∧
  ∃ o, UnmarshalMsg (meta v) = Some (VObject o) ∧ o_VersionID o = uv ∧
    (∀ dir last, r = Ok (dir, last) → dir = "" ∨ dir = uuid_String (o_DataDir o) ∧ SharedDataDirCount uv (o_DataDir o) x' ≤ 0).
Proof.
  intros Hx Hok Hval Hi Hty Hid Hup. destruct (getIdx_type i v x Hx Hi) as (ver & Hg & Hu & Hvid & Hvt & Hvalid & _).
  pose proof (view_lookup x i v ver Hx Hi Hu) as Hview. rewrite Hid, Hty in *. destruct ver as [o|d|m|t]; try done. cbn [getVersionID] in Hvid.
  destruct (change_view now fi uv x i v o Hx Hok Hi Hid Hu) as (r1 & x1 & Hc & Hx1 & Hd1 & Hb1 & Hr1 & Hnone).
  unfold delete_object, mbind_ok, reads at 1. rewrite Hg. cbn [obind as_object]. unfold keep_error, mtry. rewrite Hc. unfold spec_delete. rewrite Hview, Hup.
  destruct Hr1 as [-> | (He & Ht & why & Hinit & ->)].
  2: { rewrite Hinit, He, (proj2 (String.eqb_neq _ _) Ht). cbn [orb]. intros [= <- <-]. split; [done|]. split; [done|]. split.
       - rewrite Hb1. unfold spec_change. by rewrite He, (proj2 (String.eqb_neq _ _) Ht), Hinit.
       - exists o. split_and!; [done|done|]. by intros. }
  assert (fi_Deleted fi = true → view x1 !! uv = None) as Hn1 by (intros Hdel; destruct (dl_one _ _ Hok Hdel); auto).
  destruct (mark_view now fi uv x x1 Hx1 Hok Hval Hn1) as (x2 & Hm & Hx2 & Hd2 & Hb2). rewrite Hm. unfold no_versions, reads.
  assert (view x2 = match InitFreeVersion o fi with
    | Panic _ => if fi_ExpireRestored fi || String.eqb (fi_TransitionStatus fi) TransitionComplete then spec_mark fi uv (spec_change fi uv o (view x)) else delete uv (view x)
    | _ => spec_mark fi uv (spec_change fi uv o (view x)) end) as Hb.
  { rewrite Hb2, Hb1. destruct (InitFreeVersion o fi) as [fv|e|why] eqn:Ef; [done|done|]. destruct (fi_ExpireRestored fi) eqn:E1; [done|].
    destruct (String.eqb (fi_TransitionStatus fi) TransitionComplete) eqn:E2; [done|]. cbn [orb]. exfalso.
    unfold change_object in Hc. rewrite E1, E2 in Hc. unfold mbind_ok, reads, remove_at in Hc. rewrite Ef in Hc. done. }
  rewrite Hvid. destruct (0 <? SharedDataDirCount uv (o_DataDir o) x2) eqn:Es; intros [= <- <-]; (split; [done|]; split; [congruence|]; split; [done|]).
  - exists o. split_and!; [done|done|]. intros dir last [= <- _]. by left.
  - exists o. split_and!; [done|done|]. intros dir last [= <- _]. right. split; [done|]. by apply Z.ltb_ge in Es.
Qed.

(** Where the loops of [DeleteVersion] stop. *)
Lemma DeleteVersion_cases fi uv x :
  journal_ok x →
  match list_find (returns_at fi uv) (versions x) with
  | Some (i, v) => versions x !! i = Some v ∧ returns_at fi uv v
  | None =>
      match list_find (λ v, h_Type (header v) = ObjectType ∧ h_VersionID (header v) = uv) (versions x) with
      | Some (i, v) => versions x !! i = Some v ∧ h_Type (header v) = ObjectType ∧ h_VersionID (header v) = uv ∧ update_version fi && negb (fi_Deleted fi) = false
      | None => view x !! uv = None
      end
  end.
Proof.
  intros Hx. destruct (list_find (returns_at fi uv) (versions x)) as [[i v]|] eqn:E1; [by apply list_find_Some in E1 as (? & ? & _)|].
  apply list_find_None in E1. rewrite Forall_forall in E1. destruct (list_find _ (versions x)) as [[i v]|] eqn:E2.
  - apply list_find_Some in E2 as (Hi & [Hty Hid] & _). split_and!; [done|done|done|]. apply not_true_is_false. intros [Hu Hd%negb_true_iff]%andb_true_iff.
    apply (E1 v); [by eapply list_elem_of_lookup_2|]. split; [done|]. right. by right.
  - apply list_find_None in E2. rewrite Forall_forall in E2. apply (view_none x uv Hx). intros (v & Hid & Hv)%list_elem_of_fmap.
    pose proof (jo_entries _ Hx) as He. rewrite Forall_forall in He. specialize (He v Hv) as Hty%entry_type. specialize (E1 v Hv). specialize (E2 v Hv).
    unfold VersionType_valid, invalidVersionType, lastVersionType in Hty. destruct_bools. unfold returns_at, LegacyType, DeleteType, ObjectType in *.
    destruct (decide (h_Type (header v) = 1)); [by apply E2|]. apply E1. split; [done|]. lia.
Qed.

(** [DeleteVersion] does what [spec_delete] says, and keeps the journal well-formed. *)
Lemma DeleteVersion_view now fi x :
  journal_ok x → delete_ok fi x →
  let x' := (DeleteVersion now fi x).2 in
  journal_ok x' ∧ data x' = data x ∧
  view x' = match request_id (fi_VersionID fi) with
            | Some uv => if fi_Deleted fi && negb (Valid (delete_entry uv fi)) then view x else spec_delete fi uv (view x)
            | None => view x
            end.
Proof.
  intros Hx Hok. cbv zeta. unfold DeleteVersion. destruct (request_id (fi_VersionID fi)) as [uv|]; [|done].
  destruct (fi_Deleted fi && negb (Valid (delete_entry uv fi))) eqn:Hval; [done|]. pose proof (DeleteVersion_cases fi uv x Hx) as Hcases.
  destruct (list_find (returns_at fi uv) (versions x)) as [[i v]|]; [destruct Hcases; by apply in_place_view|].
  destruct (list_find _ (versions x)) as [[i v]|].
  - destruct Hcases as (Hi & Hty & Hid & Hup). destruct (delete_object now fi (delete_entry uv fi) i x) as [r x'] eqn:Ed.
    destruct (delete_object_view now fi uv x i v r x' Hx Hok Hval Hi Hty Hid Hup Ed) as (? & ? & ? & _). done.
  - destruct (mark_view now fi uv x x Hx Hok Hval (λ _, Hcases)) as (x1 & Hm & Hx1 & Hd1 & Hb1). unfold spec_delete. rewrite Hcases.
    destruct (fi_Deleted fi) eqn:Hdel; [|by unfold spec_mark; rewrite Hdel]. unfold mbind_ok. rewrite Hm. done.
Qed.

(** *** The other operations *)

Inductive request := RAdd (fi : FileInfo) | RUpdate (fi : FileInfo) | RDelete (fi : FileInfo) | RFree (fi : FileInfo) | RLegacy (m : xlMetaV1Object).

Definition run (now : Z) (q : request) (x : xlMetaV2 B) : xlMetaV2 B :=
  match q with
  | RAdd fi => (AddVersion now fi x).2
  | RUpdate fi => (UpdateObjectVersion now fi x).2
  | RDelete fi => (DeleteVersion now fi x).2
  | RFree fi => (AddFreeVersion now fi x).2
  | RLegacy m => (AddLegacy now m x).2
  end.

Definition request_dir (fi : FileInfo) : option Z := if String.eqb (fi_DataDir fi) "" then Some 0 else uuid_Parse (fi_DataDir fi).

Definition null_legacy (m : xlMetaV1Object) : xlMetaV2Version :=
  VLegacy (mkV1 (v1_Version m) (v1_Format m) (v1_Size m) (v1_ModTime m) (v1_Erasure m) (v1_Meta m) (v1_Parts m) nullVersionID (v1_DataDir m)).

Definition spec_run (q : request) (m : gmap Z xlMetaV2Version) : gmap Z xlMetaV2Version :=
  match q with
  | RAdd fi =>
      match request_id (fi_VersionID fi), request_dir fi with
      | Some uv, Some dd => if Valid (version_of uv dd fi) then <[uv := version_of uv dd fi]> m else m
      | _, _ => m
      end
  | RUpdate fi =>
      match request_id (fi_VersionID fi) with
      | Some uv => match m !! uv with Some (VObject o) => <[uv := VObject (updated_object fi o)]> m | _ => m end
      | None => m
      end
  | RDelete fi =>
      match request_id (fi_VersionID fi) with
      | Some uv => if fi_Deleted fi && negb (Valid (delete_entry uv fi)) then m else spec_delete fi uv m
      | None => m
      end
  | RFree fi =>
      match request_id (fi_VersionID fi) with
      | Some uv =>
          match m !! uv with
          | Some (VObject o) => match InitFreeVersion o fi with Ok (Some fv) => <[getVersionID fv := fv]> m | _ => m end
          | _ => m
          end
      | None => m
      end
  | RLegacy l => if v1_valid l then <[0 := null_legacy l]> m else m
  end.

Definition request_ok (q : request) x : Prop :=
  match q with
  | RAdd fi => ∀ uv dd, request_id (fi_VersionID fi) = Some uv → request_dir fi = Some dd → Fits (version_of uv dd fi)
  | RUpdate fi => stamp_ok fi ∧ fits_changes fi x
  | RDelete fi => delete_ok fi x
  | RFree fi => free_ok fi x
  | RLegacy m => view x !! 0 = None ∧ time_ok (VLegacy m) ∧ Fits (null_legacy m)
  end.

Lemma AddVersion_view now fi x : journal_ok x → request_ok (RAdd fi) x → journal_ok (run now (RAdd fi) x) ∧ view (run now (RAdd fi) x) = spec_run (RAdd fi) (view x).
Proof.
  intros Hx Hok. cbn [run spec_run request_ok] in *. destruct (request_id (fi_VersionID fi)) as [uv|] eqn:Euv; [|by unfold AddVersion; rewrite Euv].
  destruct (request_dir fi) as [dd|] eqn:Edd; [|unfold AddVersion; rewrite Euv; unfold request_dir in Edd; by rewrite Edd].
  destruct (Valid (version_of uv dd fi)) eqn:Hv.
  - pose proof (Hok uv dd eq_refl eq_refl) as Hf. destruct (AddVersion_ok now fi x uv dd Hx Euv Edd Hv Hf) as (x' & -> & Hx' & _ & Hb). cbn [snd]. split; [done|].
    eapply (view_insert now); [|done]. split; [done|]. split; [apply version_of_time|done].
  - unfold AddVersion. rewrite Euv. unfold request_dir in Edd. rewrite Edd. rewrite Hv. cbn [negb snd]. destruct (negb (fi_Deleted fi) && _); [|done].
    split; [by destruct Hx; split|done].
Qed.

(** The object that a request is about. *)
Lemma find_by_type (P : Z → Prop) `{∀ t, Decision (P t)} uv x :
  journal_ok x → (∀ t, P t → VersionType_valid t = true) →
  match list_find (λ v, h_VersionID (header v) = uv ∧ P (h_Type (header v))) (versions x) with
  | Some (i, v) => ∃ ver, versions x !! i = Some v ∧ h_VersionID (header v) = uv ∧ P (ver_Type ver) ∧ ver_Type ver = h_Type (header v) ∧ getIdx (Z.of_nat i) x = Ok ver
                     ∧ UnmarshalMsg (meta v) = Some ver ∧ view x !! uv = Some ver ∧ Valid ver = true ∧ time_ok ver
  | None => match view x !! uv with Some ver => ¬ P (ver_Type ver) | None => True end
  end.
Proof.
  intros Hx HP. destruct (list_find _ (versions x)) as [[i v]|] eqn:E.
  - apply list_find_Some in E as (Hi & [Hid Hp] & _). destruct (getIdx_type i v x Hx Hi) as (ver & Hg & Hu & Hvid & Hvt & Hval & Ht). exists ver.
    pose proof (view_lookup x i v ver Hx Hi Hu) as Hview. rewrite Hid in Hview. rewrite <- Hvt in Hp. done.
  - apply list_find_None in E. rewrite Forall_forall in E. destruct (view x !! uv) as [ver|] eqn:Ev; [|done]. unfold view in Ev. rewrite lookup_omap in Ev.
    destruct (by_id (versions x) !! uv) as [v|] eqn:Eb; [|done]. apply by_id_lookup in Eb as [Hin Hid]; [|apply Hx]. cbn in Ev. intros Hp. apply (E v Hin). split; [done|].
    pose proof (jo_entries _ Hx) as He. rewrite Forall_forall in He. destruct (He v Hin) as (ver0 & t & Hu & _ & _ & Hh & _).
    assert (ver0 = ver) as -> by congruence. by rewrite Hh.
Qed.

Lemma UpdateObjectVersion_view now fi x :
  journal_ok x → request_ok (RUpdate fi) x → journal_ok (run now (RUpdate fi) x) ∧ view (run now (RUpdate fi) x) = spec_run (RUpdate fi) (view x).
Proof.
  intros Hx [Hs Hf]. cbn [run spec_run]. unfold UpdateObjectVersion. destruct (request_id (fi_VersionID fi)) as [uv|]; [|done].
  pose proof (find_by_type (λ t, VersionType_valid t = true) uv x Hx (λ t Ht, Ht)) as Hfind. destruct (list_find _ (versions x)) as [[i v]|].
  - destruct Hfind as (ver & Hi & Hid & _ & Hty & Hg & Hu & -> & Hval & _). rewrite <- Hty. destruct ver as [o|d|m|t]; try done. cbn [ver_Type]. change (ObjectType =? ObjectType) with true. cbv iota.
    unfold mbind_ok, reads. rewrite Hg. cbn [obind as_object].
    destruct (set_view now fi i v (VObject o) _ x Hx Hs Hf Hi Hu (changed_update fi o)) as (x' & -> & Hx' & _ & Hb). cbn [snd]. by rewrite Hb, Hid.
  - destruct (view x !! uv) as [[o|d|m|t]|]; done.
Qed.

Lemma AddFreeVersion_view now fi x :
  journal_ok x → request_ok (RFree fi) x → journal_ok (run now (RFree fi) x) ∧ view (run now (RFree fi) x) = spec_run (RFree fi) (view x).
Proof.
  intros Hx [Hfresh Hfits]. cbn [run spec_run]. unfold AddFreeVersion. destruct (request_id (fi_VersionID fi)) as [uv|]; [|done].
  pose proof (find_by_type (λ t, t = ObjectType) uv x Hx) as Hfind. destruct (list_find _ (versions x)) as [[i v]|].
  - destruct Hfind as (ver & Hi & Hid & Hp & Hty & Hg & Hu & -> & Hval & Ht); [by intros t ->|]. destruct ver as [o|d|m|t]; try done.
    unfold mbind_ok, reads. rewrite Hg. cbn [obind as_object]. destruct (InitFreeVersion o fi) as [[fv|]|e|w] eqn:Ef; [|done..].
    destruct (InitFreeVersion_inv o fi fv Ef) as (_ & Hpa & d & -> & Hmt & _). cbn [Valid] in Hval. apply andb_true_iff in Hval as [_ Hpos].
    assert (writable (VDelete d)) as Hw.
    { split; [cbn; by rewrite Hmt|]. split; [cbn; by rewrite Hmt|]. eapply Hfits; [by eapply list_elem_of_lookup_2|done|done]. }
    specialize (Hfresh _ Hpa). apply (view_none x _ Hx) in Hfresh. destruct (add_view now (VDelete d) x Hx Hw Hfresh) as (x' & -> & Hx' & _ & Hb). done.
  - specialize (Hfind ltac:(by intros t ->)). destruct (view x !! uv) as [[o|d|m|t]|]; done.
Qed.

Lemma AddLegacy_view now m x :
  journal_ok x → request_ok (RLegacy m) x → journal_ok (run now (RLegacy m) x) ∧ view (run now (RLegacy m) x) = spec_run (RLegacy m) (view x).
Proof.
  intros Hx (Hn & Ht & Hf). cbn [run spec_run]. unfold AddLegacy. destruct (v1_valid m) eqn:Hv; [|done]. cbn [negb].
  destruct (add_view now (null_legacy m) x Hx) as (x' & Ha & Hx' & _ & Hb); [by split; [|split]|done|]. unfold null_legacy in Ha. rewrite Ha. done.
Qed.

(** *** The last version *)

Definition says_last (m : M (xlMetaV2 B) derr (string * bool)) : Prop := ∀ x dir x', m x = (Ok (dir, true), x') → versions x' = [].

Lemma no_versions_last dir : says_last (last ←! no_versions; mret_ok (dir, last)).
Proof. intros x d x' Hm. cbn in Hm. injection Hm as _ Hl <-. apply Nat.eqb_eq in Hl. by apply nil_length_inv. Qed.

Lemma says_last_bind {A} (m : M (xlMetaV2 B) derr A) k : (∀ a, says_last (k a)) → says_last (a ←! m; k a).
Proof. intros Hk x dir x' (a & x1 & _ & Hf)%mbind_inv. by eapply Hk. Qed.

Lemma says_last_keep (m : M (xlMetaV2 B) derr ()) k : (∀ a, says_last (k a)) → says_last (keep_error m k).
Proof. intros Hk x dir x'. unfold keep_error, mtry. destruct (m x) as [[a|e|w] x1]; [apply Hk|apply Hk|done]. Qed.

Lemma DeleteVersion_last now fi : says_last (DeleteVersion now fi).
Proof.
  intros x dir x'. unfold DeleteVersion. destruct (request_id (fi_VersionID fi)) as [uv|]; [|done]. destruct (fi_Deleted fi && _); [done|].
  destruct (list_find (returns_at fi uv) (versions x)) as [[i v]|].
  - revert x dir x'. unfold delete_in_place.
    repeat case_if; repeat first [apply no_versions_last|apply says_last_bind; intros].
  - destruct (list_find _ (versions x)) as [[i v]|].
    + revert x dir x'. unfold delete_object. apply says_last_bind. intros o. apply says_last_keep. intros err. apply says_last_keep. intros err'.
      apply says_last_bind. intros shared x dir x' (l & x1 & [= <- <-] & Hm)%mbind_inv. destruct (0 <? shared); [|destruct err'; [done|]];
        injection Hm as _ Hl <-; apply Nat.eqb_eq in Hl; by apply nil_length_inv.
    + destruct (fi_Deleted fi); [|done]. intros (a & x1 & _ & Hf)%mbind_inv. done.
Qed.

Lemma delete_in_place_dir now fi ventry i v x dir last x' :
  delete_in_place now fi ventry i v x = (Ok (dir, last), x') → (∃ m, getIdx (Z.of_nat i) x = Ok (VLegacy m) ∧ dir = v1_DataDir m) ∨ dir = "".
Proof.
  unfold delete_in_place. destruct (h_Type (header v) =? LegacyType).
  - intros (m & x1 & Hm & Hk)%mbind_inv. left. apply mbind_inv in Hk as (u1 & x2 & _ & Hk). apply mbind_inv in Hk as (u2 & x3 & _ & Hk).
    apply mbind_inv in Hk as (l & x4 & _ & Hk). unfold mret_ok in Hk. injection Hk as <- _ _. exists m. split; [|done].
    unfold reads in Hm. destruct (getIdx (Z.of_nat i) x) as [[o|d|m'|t]|e|w]; try done. injection Hm as <- _. done.
  - destruct (h_Type (header v) =? DeleteType); [destruct (update_version fi)|]; intros (d & x1 & _ & Hk)%mbind_inv; right;
      apply mbind_inv in Hk as (u2 & x3 & _ & Hk); apply mbind_inv in Hk as (l & x4 & _ & Hk); unfold mret_ok in Hk; by injection Hk as <- _ _.
Qed.

(** *** The directory of a version *)

(** A request that keeps the version takes its directory out of use. *)
Definition dir_released (fi : FileInfo) x : Prop := ∀ uv o, request_id (fi_VersionID fi) = Some uv → view x !! uv = Some (VObject o) →
  (fi_ExpireRestored fi = true → meta_str (o_MetaSys o) (rkey TransitionStatus) = TransitionComplete) ∧
  (fi_TransitionStatus fi = TransitionComplete → o_MetaUser o !! AmzRestore = None).

Lemma released_restore t o : meta_str (o_MetaSys o) (rkey TransitionStatus) = TransitionComplete → UsesDataDir t (RemoveRestoreHdrs o) = false.
Proof.
  intros Hs. unfold UsesDataDir, RemoveRestoreHdrs, isRestoredObjectOnDisk. cbn [o_MetaSys o_MetaUser o_set_MetaUser]. rewrite Hs, String.eqb_refl. cbn [negb].
  do 2 rewrite lookup_delete_ne by done. by rewrite lookup_delete_eq.
Qed.

Lemma released_transition t fi o :
  fi_TransitionStatus fi = TransitionComplete → o_MetaUser o !! AmzRestore = None → UsesDataDir t (SetTransition fi o) = false.
Proof.
  intros Hs Hr. unfold UsesDataDir, SetTransition, isRestoredObjectOnDisk. cbn [o_MetaSys o_MetaUser o_set_MetaSys]. rewrite Hr. unfold meta_str.
  rewrite !lookup_insert_ne, lookup_insert_eq, Hs by (intros E%rkey_inj; discriminate E). done.
Qed.

(** The version that stays under the ID of the request. *)
Lemma spec_delete_stays fi uv o o' m :
  m !! uv = Some (VObject o) → update_version fi && negb (fi_Deleted fi) = false → spec_delete fi uv m !! uv = Some (VObject o') →
  fi_ExpireRestored fi = true ∧ o' = RemoveRestoreHdrs o ∨ fi_TransitionStatus fi = TransitionComplete ∧ o' = SetTransition fi o.
Proof.
  intros Hm Hup. unfold spec_delete. rewrite Hm, Hup. assert (spec_mark fi uv (spec_change fi uv o m) !! uv = Some (VObject o') →
    fi_ExpireRestored fi = true ∧ o' = RemoveRestoreHdrs o ∨ fi_TransitionStatus fi = TransitionComplete ∧ o' = SetTransition fi o) as Hgo.
  { unfold spec_mark. destruct (fi_Deleted fi) eqn:Ed; [rewrite lookup_insert_eq; unfold delete_entry; by rewrite Ed|]. unfold spec_change.
    destruct (fi_ExpireRestored fi); [rewrite lookup_insert_eq; intros [= <-]; by left|].
    destruct (String.eqb_spec (fi_TransitionStatus fi) TransitionComplete) as [Et|_]; [rewrite lookup_insert_eq; intros [= <-]; by right|].
    destruct (InitFreeVersion o fi) as [[fv|]|e|w] eqn:Ef; rewrite ?lookup_delete_eq; try done.
    apply InitFreeVersion_inv in Ef as (_ & _ & d & -> & _). destruct (decide (getVersionID (VDelete d) = uv)) as [->|Hne]; [by rewrite lookup_insert_eq|].
    by rewrite lookup_insert_ne, lookup_delete_eq. }
  destruct (InitFreeVersion o fi); [exact Hgo|exact Hgo|]. destruct (_ || _); [exact Hgo|]. by rewrite lookup_delete_eq.
Qed.

Lemma view_member x w ver : journal_ok x → w ∈ versions x → UnmarshalMsg (meta w) = Some ver → view x !! getVersionID ver = Some ver ∧ entry_ok w.
Proof.
  intros Hx Hw Hu. pose proof (jo_entries _ Hx) as He. rewrite Forall_forall in He. split; [|by apply He]. destruct (He w Hw) as (ver0 & t & Hu0 & _ & _ & Hh & _).
  assert (ver0 = ver) as -> by congruence. apply list_elem_of_lookup in Hw as [i Hi]. pose proof (view_lookup x i w ver Hx Hi Hu) as Hv. by rewrite Hh in Hv.
Qed.

Lemma uses_flag x w o : journal_ok x → w ∈ versions x → UnmarshalMsg (meta w) = Some (VObject o) → h_UsesDataDir (header w) = true → ∃ t, UsesDataDir t o = true.
Proof.
  intros Hx Hw Hu. pose proof (jo_entries _ Hx) as He. rewrite Forall_forall in He. destruct (He w Hw) as (ver & t & Hu0 & _ & _ & Hh & _).
  assert (ver = VObject o) as -> by congruence. rewrite Hh. unfold h_UsesDataDir, ver_header. cbn [h_Flags ver_FreeVersion]. exists t.
  destruct (UsesDataDir t o); [done|]. by destruct (InlineData o).
Qed.

(** A directory that [SharedDataDirCount] does not count is not used by the other versions, unless the data is inline. *)
Lemma not_shared_unused uv dd x :
  journal_ok x → SharedDataDirCount uv dd x ≤ 0 →
  XLInline.find (data x) (string_bytes (uuid_String uv)) ≠ None ∨
  ∀ v o', v ∈ versions x → UnmarshalMsg (meta v) = Some (VObject o') → o_VersionID o' ≠ uv → h_UsesDataDir (header v) = true → o_DataDir o' ≠ dd.
Proof.
  intros Hx Hs. unfold SharedDataDirCount in Hs. destruct (_ && bool_decide _) eqn:Ein.
  { left. apply andb_true_iff in Ein as [_ [f Hf]%bool_decide_eq_true]. congruence. }
  right. intros w o' Hw Hu' Hne Huses Heq. assert (count (λ v0, h_Type (header v0) = ObjectType ∧ h_VersionID (header v0) ≠ uv ∧ h_UsesDataDir (header v0) = true
    ∧ UnmarshalDataDir (meta v0) = Some (Some dd)) (versions x) = 0%nat) as Hc by lia.
  rewrite count_zero, Forall_forall in Hc. apply (Hc w Hw). pose proof (jo_entries _ Hx) as He. rewrite Forall_forall in He.
  destruct (He w Hw) as (ver & t & Hu0 & _ & _ & Hh & Hdd). assert (ver = VObject o') as -> by congruence. rewrite Hh in *. rewrite <- Heq. done.
Qed.

End Deleting.

(** ** Theorems *)

Section Theorems.
Context {B : Type} `{VersionCodecLaws B} `{UUIDLaws} `{MsgpLaws}.

(** C12: the journal implements a map from version IDs to versions. Every operation, whatever it
    returns, keeps the journal well-formed (newest first, no ID twice, headers that belong to
    their versions), and changes its map of versions as the abstract operation says, for requests
    of the following kind ([request_ok]): what they write fits the format; their time is none or after 1970; the ID
    they give for a free version is new; a deletion that writes a delete marker is not an expiry of a restored copy or a
    transition at the same time (that would leave two versions with one ID, see [marker_with_expiry_doubles_id]); a
    legacy object comes into a journal without a null version, and its time is after 1970 and fits 64 bits. *)
Theorem journal_refines_map now q (x : xlMetaV2 B) :
  journal_ok x → request_ok q x → journal_ok (run now q x) ∧ view (run now q x) = spec_run q (view x).
Proof.
  intros Hx Hq. destruct q as [fi|fi|fi|fi|m].
  - by apply AddVersion_view.
  - by apply UpdateObjectVersion_view.
  - destruct (DeleteVersion_view now fi x Hx Hq) as (? & _ & ?). done.
  - by apply AddFreeVersion_view.
  - by apply AddLegacy_view.
Qed.

(** A version that was added is read back as it was given: size, parts, erasure coding,
    times, tiers and metadata; small data is found in the journal; no other version changes. *)
Theorem added_version_read_back now fi (x : xlMetaV2 B) uv dd volume path :
  journal_ok x → plain_request fi → request_id (fi_VersionID fi) = Some uv → request_dir fi = Some dd →
  Valid (version_of uv dd fi) = true → Fits (version_of uv dd fi) →
  let versionID := if String.eqb (fi_VersionID fi) "" then nullVersionID else fi_VersionID fi in
  ∃ x' fi', AddVersion now fi x = (Ok (), x') ∧ xl_ToFileInfo volume path versionID x' = Ok fi' ∧ read_back uv dd fi fi' ∧
    (∀ id, id ≠ uv → view x' !! id = view x !! id) ∧
    (fi_Deleted fi = false → 0 < zlen (fi_Data fi) ∨ fi_Size fi = 0 → validate (data x) = None → entries (data x) < max_uint32 →
     zlen (string_bytes versionID) ≤ max_uint32 → zlen (fi_Data fi) ≤ max_uint32 →
     XLInline.find (data x') (string_bytes versionID) = Some (fi_Data fi)).
Proof.
  intros Hx Hp Huv Hdd Hv Hf. cbv zeta. set (versionID := if String.eqb (fi_VersionID fi) "" then _ else _).
  assert (versionID ≠ "" ∧ request_id versionID = Some uv) as [Hne Hrq].
  { subst versionID. destruct (String.eqb_spec (fi_VersionID fi) "") as [E|E]; [|done]. rewrite E in Huv. done. }
  destruct (AddVersion_ok now fi x uv dd Hx Huv Hdd Hv Hf) as (x' & Ha & Hx' & Hd & Hb). destruct (version_back volume path uv dd fi Hp) as (fi' & Hfi & Hrb & _).
  assert (by_id (versions x') !! uv = Some (shallow_of now (version_of uv dd fi))) as Hl by (by rewrite Hb, lookup_insert_eq).
  destruct (ToFileInfo_version volume path versionID uv x' _ _ fi' Hx' Hne Hrq Hl (unmarshal_marshal _ Hf) Hfi) as (pre & post & _ & Hread).
  eexists x', _. split; [done|]. split; [exact Hread|]. split; [by destruct Hrb; split|]. split.
  - intros id Hid. unfold view. by rewrite !lookup_omap, Hb, lookup_insert_ne.
  - intros Hdel Hst Hval Hent Hk Hl'. rewrite Hd. unfold stored_data. rewrite Hdel. fold versionID. cbn [negb andb].
    replace ((0 <? zlen (fi_Data fi)) || (fi_Size fi =? 0)) with true by (symmetry; apply orb_true_iff; destruct Hst; [left; by apply Z.ltb_lt|right; by apply Z.eqb_eq]).
    destruct (inline_replace (data x) (string_bytes versionID) (fi_Data fi)) as [_ ->]; [done|done| |done|done|by rewrite decide_True].
    intros Hnil. apply Hne. rewrite <- (String.string_of_list_byte_of_string versionID). unfold string_bytes in Hnil. by rewrite Hnil.
Qed.

(** C19: a data directory that [DeleteVersion] gives up belonged to the version of the request. If that is an
    object whose data is not inline, no version that is left uses the directory, also not the one that stays
    under the same ID when a restored copy expires or the object is transitioned; the object whose restored copy
    expires has been transitioned, and the object that is transitioned is not marked as restored. Of a legacy object
    the directory is given up without a look at the other versions. "Last version" is said only of an empty journal.
    The request is one that [journal_refines_map] allows. *)
Theorem freed_data_dir_unused now fi (x x' : xlMetaV2 B) dir last :
  journal_ok x → delete_ok fi x → dir_released fi x → DeleteVersion now fi x = (Ok (dir, last), x') →
  (last = true → versions x' = []) ∧
  (dir ≠ "" → ∃ uv, request_id (fi_VersionID fi) = Some uv ∧
    ((∃ m, view x !! uv = Some (VLegacy m) ∧ dir = v1_DataDir m) ∨
     (∃ o, view x !! uv = Some (VObject o) ∧ dir = uuid_String (o_DataDir o) ∧
        (XLInline.find (data x) (string_bytes (uuid_String uv)) ≠ None ∨
         ∀ v o', v ∈ versions x' → UnmarshalMsg (meta v) = Some (VObject o') → h_UsesDataDir (header v) = true →
                 o_DataDir o' ≠ o_DataDir o)))).
Proof.
  intros Hx Hok Hrel Hdel. split; [intros ->; by eapply DeleteVersion_last|]. intros Hdir. unfold DeleteVersion in Hdel.
  destruct (request_id (fi_VersionID fi)) as [uv|] eqn:Euv; [|done]. exists uv. split; [done|]. destruct (fi_Deleted fi && negb _) eqn:Hval; [done|].
  pose proof (DeleteVersion_cases fi uv x Hx) as Hcases. destruct (list_find (returns_at fi uv) (versions x)) as [[i v]|].
  - left. destruct Hcases as [Hi [Hid Hty]]. destruct (getIdx_type i v x Hx Hi) as (ver & Hg & Hu & Hvid & Hvt & Hvalid & _).
    pose proof (view_lookup x i v ver Hx Hi Hu) as Hview. rewrite Hid in Hview.
    destruct (delete_in_place_dir now fi _ i v x dir last x' Hdel) as [(m & Hg' & ->)|?]; [|done]. exists m. split; [|done]. congruence.
  - destruct (list_find _ (versions x)) as [[i v]|].
    + right. destruct Hcases as (Hi & Hty & Hid & Hup). destruct (delete_object_view now fi uv x i v _ x' Hx Hok Hval Hi Hty Hid Hup Hdel) as (Hx' & Hd & Hv' & o & Hu & Ho & Hr).
      pose proof (view_lookup x i v _ Hx Hi Hu) as Hview. rewrite Hid in Hview. exists o. split; [done|]. destruct (Hr dir last eq_refl) as [?|[-> Hs]]; [done|].
      split; [done|]. destruct (not_shared_unused uv (o_DataDir o) x' Hx' Hs) as [?|Hun]; [left; congruence|]. right. intros w o' Hw Hu' Huses.
      destruct (decide (o_VersionID o' = uv)) as [E|E]; [|by eapply Hun]. exfalso.
      destruct (view_member x' w _ Hx' Hw Hu') as [Hvw _]. cbn [getVersionID] in Hvw. rewrite E, Hv' in Hvw.
      destruct (Hrel uv o Euv Hview) as [Hexp Htr]. destruct (uses_flag x' w o' Hx' Hw Hu' Huses) as [t Hut].
      destruct (spec_delete_stays fi uv o o' _ Hview Hup Hvw) as [[He ->]|[He ->]]; [by rewrite released_restore in Hut; auto|by rewrite released_transition in Hut; auto].
    + destruct (fi_Deleted fi); [|done]. apply mbind_inv in Hdel as (? & ? & _ & Hdel). by injection Hdel as <- _ _.
Qed.

(** Without a version ID the newest version that is not a free version is reported, as the latest and with
    the number of such versions; if there is none the object is not found. *)
Theorem latest_version_reported (x : xlMetaV2 B) volume path :
  journal_ok x → (∀ v, v ∈ versions x → h_FreeVersion (header v) = true → h_VersionID (header v) ≠ 0) →
  (Forall (λ v, h_FreeVersion (header v) = true) (versions x) ∧ xl_ToFileInfo volume path "" x = Err errFileNotFound) ∨
  (∃ v ver, v ∈ versions x ∧ UnmarshalMsg (meta v) = Some ver ∧ h_FreeVersion (header v) = false ∧
     (∀ w, w ∈ versions x → h_FreeVersion (header w) = true ∨ h_ModTime (header w) ≤ h_ModTime (header v)) ∧
     xl_ToFileInfo volume path "" x =
       (fi ←? ver_ToFileInfo volume path ver;
        Ok (set_reported true (zlen (versions x) - Z.of_nat (count (λ v, h_FreeVersion (header v) = true) (versions x))) (fi_SuccessorModTime fi) fi))).
Proof.
  intros Hx Hfree. assert (∀ pre post, versions x = pre ++ post → Forall (λ v, h_FreeVersion (header v) = true) pre →
    Forall (λ v, h_FreeVersion (header v) = true ∧ h_VersionID (header v) ≠ 0) pre) as Hpre0.
  { intros pre post Hs Hp. rewrite Forall_forall in *. intros v Hv. split; [by apply Hp|]. apply Hfree; [|by apply Hp]. rewrite Hs. apply elem_of_app. by left. }
  unfold xl_ToFileInfo. cbn [request_id String.eqb orb]. destruct (first_real (versions x)) as [Hall|(pre & v & post & Hs & Hp & Hv)].
  - left. split; [done|]. rewrite <- (app_nil_r (versions x)) at 2. rewrite lookup_free by (by apply (Hpre0 _ []); [rewrite app_nil_r|]). done.
  - right. assert (v ∈ versions x) as Hin by (rewrite Hs; apply elem_of_app; right; left).
    pose proof (jo_entries _ Hx) as He. rewrite Forall_forall in He. destruct (He v Hin) as (ver & t & Hu & _). exists v, ver. split; [done|]. split; [done|]. split; [done|]. split.
    + intros w Hw. pose proof (jo_sorted _ Hx) as Hsort. rewrite Hs in Hw, Hsort. apply elem_of_app in Hw as [Hw|Hw]; [left; rewrite Forall_forall in Hp; by apply Hp|right].
      apply StronglySorted_app_1_r, by_modtime_cons in Hsort as [Hf _]. apply elem_of_cons in Hw as [->|Hw]; [done|]. rewrite Forall_forall in Hf. by apply Hf.
    + rewrite Hs at 2. rewrite lookup_free by (by eapply Hpre0). cbn [lookup_loop l_succ l_latest l_nonfree l_found]. unfold lookup_step at 1. rewrite Hv. cbn [l_succ l_latest l_nonfree l_found andb negb String.eqb].
      unfold unmarshalV. rewrite Hu. replace ((metaV x =? 0) || (metaV x =? 1)) with true by (by destruct (jo_metaV _ Hx) as [-> | ->]). cbn [obind].
      destruct (ver_ToFileInfo volume path ver) as [fi|e|w]; cbn [obind]; [|done|done]. erewrite lookup_after by done. cbn [obind l_found l_nonfree set_reported fi_IsLatest fi_SuccessorModTime Z.eqb].
      assert (count (λ v, h_FreeVersion (header v) = true) pre = length pre) as Hcp by (unfold count; by rewrite filter_all).
      unfold set_reported. cbn. do 2 f_equal. rewrite Hs, count_app, count_cons, Hcp, one_if_false by congruence. lia.
Qed.

End Theorems.

(** ** Examples *)

(** The canonical form of a UUID: 32 hexadecimal digits in five groups; it is read in either case. *)
Definition uuid_format (h : string) : string :=
  str_take 8 h +:+ "-" +:+ str_take 4 (str_drop 8 h) +:+ "-" +:+ str_take 4 (str_drop 12 h) +:+ "-" +:+ str_take 4 (str_drop 16 h) +:+ "-" +:+ str_drop 20 h.

Definition uuid_digits (s : string) : string :=
  str_take 8 s +:+ str_take 4 (str_drop 9 s) +:+ str_take 4 (str_drop 14 s) +:+ str_take 4 (str_drop 19 s) +:+ str_drop 24 s.

#[export] Instance canonical_uuid : UUID := {|
  uuid_Parse s :=
    b ← hex_decode (uuid_digits s);
    if (String.length b =? 16)%nat && EqualFold s (uuid_format (hex_encode b)) then Some (be_val (String.list_byte_of_string b)) else None;
  uuid_String u := uuid_format (hex_encode (String.string_of_list_byte (be_bytes 16 u)));
|}.

Lemma uuid_digits_format h : String.length h = 32%nat → uuid_digits (uuid_format h) = h.
Proof.
  intros Hl. do 32 (destruct h as [|? h]; [discriminate Hl|]). destruct h; [reflexivity|discriminate Hl].
Qed.

Lemma string_of_bytes_length b : String.length (String.string_of_list_byte b) = length b.
Proof. induction b as [|c b IH]; [done|]. cbn. by rewrite <- IH. Qed.

Lemma list_byte_length s : length (String.list_byte_of_string s) = String.length s.
Proof. induction s as [|c s IH]; [done|]. cbn. by rewrite <- IH. Qed.

#[export] Instance canonical_uuid_laws : UUIDLaws.
Proof.
  split; cbn [uuid_Parse uuid_String canonical_uuid].
  - intros u Hu. set (b := String.string_of_list_byte (be_bytes 16 u)).
    assert (String.length b = 16%nat) as Hb by (unfold b; by rewrite string_of_bytes_length, be_bytes_length).
    rewrite uuid_digits_format, hex_roundtrip by (rewrite hex_length, Hb; done). cbn [mbind option_bind]. unfold EqualFold. rewrite Hb, String.eqb_refl. cbn [Nat.eqb andb]. f_equal. unfold b.
    rewrite String.list_byte_of_string_of_list_byte, be_val_bytes. apply Z.mod_small, Hu.
  - intros u. unfold uuid_format. by destruct (str_take 8 _).
  - intros s u. destruct (hex_decode (uuid_digits s)) as [b|]; [|done]. cbn [mbind option_bind]. destruct (String.length b =? 16)%nat eqn:E; [|done]. cbn [andb].
    destruct (EqualFold _ _); [|done]. intros [= <-]. pose proof (be_val_range (String.list_byte_of_string b)) as Hr. apply Nat.eqb_eq in E.
    unfold zlen in Hr. rewrite list_byte_length, E in Hr. exact Hr.
Qed.

(** Versions stored as they are. *)
#[local] Instance plain_codec : VersionCodec xlMetaV2Version := {|
  MarshalMsg v := v;
  UnmarshalMsg v := Some v;
  UnmarshalDataDir v := match v with VObject o => Some (Some (o_DataDir o)) | _ => Some None end;
  Signature v := 0;
  nil_meta := VOther 0;
  Fits v := True;
|}.

#[local] Instance plain_codec_laws : VersionCodecLaws xlMetaV2Version.
Proof. done. Qed.

Definition demo_now : Z := unix_epoch + 2 * 10 ^ 18.
Definition demo_dir : string := "00000000-0000-0000-0000-0000000000aa".
Definition demo_fi (data : bytes) (versionID : string) (stamp : Z) : FileInfo :=
  mkFI "bucket" "object" versionID false false "" "" "" "" false demo_dir false (unix_epoch + stamp) 3 {["content-type" := "text/plain"]}
    [mkPart "etag" 1 3 3] (mkEI 2 2 1048576 1 [1; 2; 3; 4] []) false ReplicationState_zero data 0 0 0.
Definition demo_id : string := "00000000-0000-0000-0000-000000000001".

(** Two versions that share a data directory. *)
Definition demo_journal : xlMetaV2 xlMetaV2Version :=
  run demo_now (RAdd (demo_fi [] demo_id 200)) (run demo_now (RAdd (demo_fi [] "" 100)) (mkXL [] [] 1)).

Lemma empty_ok : journal_ok (B := xlMetaV2Version) (mkXL [] [] 1).
Proof. split; [constructor|constructor|constructor|by right]. Qed.

Lemma demo_ok : journal_ok demo_journal.
Proof. apply AddVersion_view; [|done]. apply AddVersion_view; [apply empty_ok|done]. Qed.

Lemma demo_delete_ok stamp x : 0 < stamp ≤ max_int64 → delete_ok (B := xlMetaV2Version) (demo_fi [] demo_id stamp) x.
Proof.
  intros Hs. split; [|done| |done|done].
  - right. unfold UnixNano. cbn [fi_ModTime demo_fi]. replace (unix_epoch + stamp - unix_epoch) with stamp by lia.
    rewrite wrap64_small; [lia|]. unfold in_int64, min_int64. lia.
  - split; [|done]. intros u Hu. vm_compute in Hu. discriminate Hu.
Qed.

Lemma demo_plain data id stamp : 0 ≤ stamp ≤ max_int64 → plain_request (demo_fi data id stamp).
Proof.
  intros Hs. split; cbn [fi_ModTime fi_Erasure fi_Metadata demo_fi ei_Distribution].
  - replace (unix_epoch + stamp - unix_epoch) with stamp by lia. unfold in_int64, min_int64. lia.
  - repeat constructor; done.
  - intros k Hk. apply lookup_singleton_ne. intros <-.
    assert (bool_decide ("content-type" ∈ special_keys) = false) as Hn by (vm_compute; reflexivity). by apply bool_decide_eq_false in Hn.
  - intros k Hk. apply lookup_singleton_ne. intros <-. vm_compute in Hk. discriminate Hk.
Qed.

Lemma journal_refines_map_witness :
  journal_ok (run demo_now (RDelete (demo_fi [] demo_id 200)) demo_journal) ∧
  view (run demo_now (RDelete (demo_fi [] demo_id 200)) demo_journal) = spec_run (RDelete (demo_fi [] demo_id 200)) (view demo_journal).
Proof. apply journal_refines_map; [exact demo_ok|apply demo_delete_ok; done]. Defined.

Lemma added_version_read_back_witness :
  ∃ x' fi', AddVersion demo_now (demo_fi [x61; x62; x63] "" 300) demo_journal = (Ok (), x') ∧ xl_ToFileInfo "bucket" "object" "null" x' = Ok fi' ∧
    read_back 0 170 (demo_fi [x61; x62; x63] "" 300) fi' ∧ (∀ id, id ≠ 0 → view x' !! id = view demo_journal !! id) ∧
    (false = false → 0 < zlen [x61; x62; x63] ∨ 3 = 0 → validate [] = None → entries [] < max_uint32 →
     zlen (string_bytes "null") ≤ max_uint32 → zlen [x61; x62; x63] ≤ max_uint32 → XLInline.find (data x') (string_bytes "null") = Some [x61; x62; x63]).
Proof.
  apply (added_version_read_back demo_now (demo_fi [x61; x62; x63] "" 300) demo_journal 0 170 "bucket" "object");
    [exact demo_ok|apply demo_plain; done|vm_compute; reflexivity|vm_compute; reflexivity|vm_compute; reflexivity|exact I].
Defined.

(** The only version: its directory is given up. *)
Definition demo_single : xlMetaV2 xlMetaV2Version := run demo_now (RAdd (demo_fi [] demo_id 200)) (mkXL [] [] 1).

Lemma demo_single_ok : journal_ok demo_single.
Proof. apply AddVersion_view; [apply empty_ok|done]. Qed.

Lemma demo_deletion : DeleteVersion demo_now (demo_fi [] demo_id 200) demo_single = (Ok (demo_dir, true), mkXL [] [] 1).
Proof. vm_compute. reflexivity. Qed.

Lemma demo_single_delete_ok : delete_ok (demo_fi [] demo_id 200) demo_single.
Proof. apply demo_delete_ok; done. Qed.

Lemma demo_dir_not_empty : demo_dir ≠ "".
Proof. done. Qed.

Lemma demo_single_released : dir_released (demo_fi [] demo_id 200) demo_single.
Proof. done. Qed.

Lemma freed_data_dir_unused_witness :
  ∃ uv, request_id demo_id = Some uv ∧
    ((∃ m, view demo_single !! uv = Some (VLegacy m) ∧ demo_dir = v1_DataDir m) ∨
     (∃ o, view demo_single !! uv = Some (VObject o) ∧ demo_dir = uuid_String (o_DataDir o) ∧
        (XLInline.find (data demo_single) (string_bytes (uuid_String uv)) ≠ None ∨
         ∀ v o', v ∈ versions (mkXL (B := xlMetaV2Version) [] [] 1) → UnmarshalMsg (meta v) = Some (VObject o') →
                 h_UsesDataDir (header v) = true → o_DataDir o' ≠ o_DataDir o))).
Proof.
  exact (proj2 (freed_data_dir_unused demo_now (demo_fi [] demo_id 200) demo_single (mkXL [] [] 1) demo_dir true demo_single_ok demo_single_delete_ok demo_single_released demo_deletion)
           demo_dir_not_empty).
Defined.

(** A request that expires a restored copy, with or without a delete marker. *)
Definition demo_expire (marker : bool) : FileInfo :=
  mkFI "bucket" "object" demo_id false marker "" "" "" "" true demo_dir false (unix_epoch + 300) 3 ∅ [] (mkEI 2 2 1048576 1 [1; 2; 3; 4] []) false ReplicationState_zero [] 0 0 0.

(** With a delete marker as well, the version and the marker have the same ID afterwards. *)
Theorem marker_with_expiry_doubles_id :
  ids (versions (run demo_now (RDelete (demo_expire true)) demo_single)) = [1; 1].
Proof. vm_compute. reflexivity. Qed.

(** Of an object that was never transitioned, the directory is given up although the version stays and uses it. *)
Theorem expiry_frees_used_dir :
  ∃ x' v, DeleteVersion demo_now (demo_expire false) demo_single = (Ok (demo_dir, false), x') ∧ versions x' = [v] ∧ h_UsesDataDir (header v) = true ∧
    UnmarshalDataDir (meta v) = Some (uuid_Parse demo_dir).
Proof. eexists _, _. split; [vm_compute; reflexivity|]. split; [reflexivity|]. vm_compute. done. Qed.

Lemma latest_version_reported_witness :
  (Forall (λ v, h_FreeVersion (header v) = true) (versions demo_journal) ∧ xl_ToFileInfo "bucket" "object" "" demo_journal = Err errFileNotFound) ∨
  (∃ v ver, v ∈ versions demo_journal ∧ UnmarshalMsg (meta v) = Some ver ∧ h_FreeVersion (header v) = false ∧
     (∀ w, w ∈ versions demo_journal → h_FreeVersion (header w) = true ∨ h_ModTime (header w) ≤ h_ModTime (header v)) ∧
     xl_ToFileInfo "bucket" "object" "" demo_journal =
       (fi ←? ver_ToFileInfo "bucket" "object" ver;
        Ok (set_reported true (zlen (versions demo_journal) - Z.of_nat (count (λ v, h_FreeVersion (header v) = true) (versions demo_journal))) (fi_SuccessorModTime fi) fi))).
Proof.
  apply latest_version_reported; [exact demo_ok|]. intros v Hv Hf.
  assert (Forall (λ v, h_FreeVersion (header v) = false) (versions demo_journal)) as Hall by (vm_compute; repeat constructor).
  rewrite Forall_forall in Hall. rewrite (Hall v Hv) in Hf. discriminate Hf.
Defined.
