(* ===== verification/XLCodec.v ===== *)
(** * How versions are stored (cmd/xl-storage-format-v2_gen.go, cmd/xl-storage-format-v2-legacy.go)

    The encoders and decoders of versions and of their headers, in MessagePack, and the
    signatures of versions. They are the codec that the journal of XLMeta works with. The
    codec of objects of the old format and the hash functions are classes.

    The records do not tell a nil map from an empty one. Versions are stored with empty maps, as
    [AddVersion] makes them; the signature is computed with nil maps. *)

From Stdlib Require Import ZArith Lia Bool.
From Stdlib.Strings Require Import Byte.
From S2P Require Import Prelude ErasureErrs Erasure Msgp GoBase64 ErasureMeta XLMerge XLMeta.

Local Open Scope Z_scope.

(** ** Fields, arrays and maps *)

Section Generic.
Context `{Msgp}.

(** The loop over the fields of a map: read a key, and what belongs to it. *)
Fixpoint decode_fields {S} (field : string → S → bytes → option (S * bytes)) (n : nat) (st : S) (b : bytes) : option (S * bytes) :=
  match n with
  | O => Some (st, b)
  | Datatypes.S n => '(key, b) ← ReadMapKeyZC b; '(st, b) ← field (bytes_string key) st b; decode_fields field n st b
  end.

Definition decode_map {S} (field : string → S → bytes → option (S * bytes)) (st : S) (b : bytes) : option (S * bytes) :=
  '(n, b) ← ReadMapHeaderBytes b; decode_fields field (Z.to_nat n) st b.

(** A key and its value. *)
Definition put_field (key : string) (val : bytes) : bytes := fixstr (string_bytes key) ++ val.

Definition put_array {A} (put : A → bytes) (l : list A) : bytes := AppendArrayHeader (zlen l mod 2 ^ 32) ++ concat (put <$> l).

Fixpoint read_n {A} (read : bytes → option (A * bytes)) (n : nat) (b : bytes) : option (list A * bytes) :=
  match n with
  | O => Some ([], b)
  | S n => '(a, b) ← read b; '(l, b) ← read_n read n b; Some (a :: l, b)
  end.

Definition read_array {A} (read : bytes → option (A * bytes)) (b : bytes) : option (list A * bytes) :=
  '(n, b) ← ReadArrayHeaderBytes b; read_n read (Z.to_nat n) b.

(** Arrays and maps that may be nil. *)
Definition or_nil {A} (empty : A) (read : bytes → option (A * bytes)) (b : bytes) : option (A * bytes) :=
  if IsNil b then Some (empty, tail b) else read b.

Definition put_map (put : bytes → bytes) (m : gmap string string) : bytes :=
  AppendMapHeader (Z.of_nat (size m) mod 2 ^ 32) ++ concat ((λ kv, AppendString (string_bytes kv.1) ++ put (string_bytes kv.2)) <$> map_to_list m).

Fixpoint read_pairs_n (read : bytes → option (bytes * bytes)) (n : nat) (m : gmap string string) (b : bytes) : option (gmap string string * bytes) :=
  match n with
  | O => Some (m, b)
  | S n => '(k, b) ← ReadStringBytes b; '(v, b) ← read b; read_pairs_n read n (<[bytes_string k := bytes_string v]> m) b
  end.

Definition read_map (read : bytes → option (bytes * bytes)) (b : bytes) : option (gmap string string * bytes) :=
  '(n, b) ← ReadMapHeaderBytes b; read_pairs_n read (Z.to_nat n) ∅ b.

Definition ReadStr (b : bytes) : option (string * bytes) := '(s, b) ← ReadStringBytes b; Some (bytes_string s, b).
Definition AppendStr (s : string) : bytes := AppendString (string_bytes s).

(** Sixteen bytes of a UUID. *)
Definition AppendUUID (u : Z) : bytes := AppendBytes (be_bytes 16 u).
Definition ReadUUID (b : bytes) : option (Z * bytes) := '(v, b) ← ReadExactBytes 16 b; Some (be_val v, b).

Context `{!MsgpLaws}.

Lemma fields_step {S} (field : string → S → bytes → option (S * bytes)) n st key val rest st' :
  zlen (string_bytes key) ≤ 31 → field key st (val ++ rest) = Some (st', rest) →
  decode_fields field (Datatypes.S n) st (put_field key val ++ rest) = decode_fields field n st' rest.
Proof.
  intros Hk Hf. unfold put_field. rewrite <- app_assoc. cbn [decode_fields]. rewrite read_fixstr by done. cbn [mbind option_bind]. by rewrite bytes_of_string, Hf.
Qed.

Lemma read_UUID u rest : uuid_range u → ReadUUID (AppendUUID u ++ rest) = Some (u, rest).
Proof.
  intros Hu. unfold ReadUUID, AppendUUID. rewrite read_exact; [|unfold zlen; by rewrite be_bytes_length|done]. cbn [mbind option_bind].
  rewrite be_val_bytes, Z.mod_small; [done|]. exact Hu.
Qed.

Lemma read_n_put {A} (put : A → bytes) (read : bytes → option (A * bytes)) l rest :
  Forall (λ a, ∀ rest, read (put a ++ rest) = Some (a, rest)) l → read_n read (length l) (concat (put <$> l) ++ rest) = Some (l, rest).
Proof.
  induction 1 as [|a l Ha _ IH]; [done|]. cbn [length read_n fmap list_fmap concat]. rewrite <- app_assoc, Ha. cbn [mbind option_bind]. by rewrite IH.
Qed.

Lemma read_array_put {A} (put : A → bytes) (read : bytes → option (A * bytes)) l rest :
  zlen l ≤ max_uint32 → Forall (λ a, ∀ rest, read (put a ++ rest) = Some (a, rest)) l →
  read_array read (put_array put l ++ rest) = Some (l, rest) ∧ IsNil (put_array put l ++ rest) = false.
Proof.
  intros Hn Hl. unfold read_array, put_array. rewrite <- app_assoc. assert (0 ≤ zlen l) by (unfold zlen; lia).
  rewrite Z.mod_small by (unfold max_uint32 in Hn; lia). destruct (read_array_header (zlen l) (concat (put <$> l) ++ rest)) as [-> ->]; [done|]. split; [|done].
  cbn [mbind option_bind]. unfold zlen. rewrite Nat2Z.id. by apply read_n_put.
Qed.

Lemma read_or_nil {A} (empty a : A) read b rest :
  read (b ++ rest) = Some (a, rest) ∧ IsNil (b ++ rest) = false → or_nil empty read (b ++ rest) = Some (a, rest).
Proof. intros [Hr Hn]. unfold or_nil. by rewrite Hn. Qed.

Lemma read_or_nil_nil {A} (empty : A) read rest : or_nil empty read (AppendNil ++ rest) = Some (empty, rest).
Proof. unfold or_nil. by destruct (read_nil rest) as [-> ->]. Qed.

(** Lengths of keys and values fit 32 bits. *)
Definition short_str (s : string) : Prop := zlen (string_bytes s) ≤ max_uint32.
Definition small_map (m : gmap string string) : Prop := Z.of_nat (size m) ≤ max_uint32 ∧ map_Forall (λ k v, short_str k ∧ short_str v) m.

Lemma read_pairs_n_put (put : bytes → bytes) (read : bytes → option (bytes * bytes)) (kvs : list (string * string)) m rest :
  (∀ v rest, zlen v ≤ max_uint32 → read (put v ++ rest) = Some (v, rest)) → Forall (λ kv, short_str kv.1 ∧ short_str kv.2) kvs →
  read_pairs_n read (length kvs) m (concat ((λ kv, AppendString (string_bytes kv.1) ++ put (string_bytes kv.2)) <$> kvs) ++ rest) =
  Some (foldl (λ m kv, <[kv.1 := kv.2]> m) m kvs, rest).
Proof.
  intros Hread Hs. revert m. induction Hs as [|[k v] kvs [Hk Hv] _ IH]; intros m; [done|]. cbn [length read_pairs_n fmap list_fmap concat fst snd foldl].
  rewrite <- !app_assoc, read_string by done. cbn [mbind option_bind]. rewrite Hread by done. cbn [mbind option_bind]. by rewrite !bytes_of_string, IH.
Qed.

Lemma foldl_insert_map (kvs : list (string * string)) (m : gmap string string) :
  NoDup kvs.*1 → (∀ k, k ∈ kvs.*1 → m !! k = None) → foldl (λ m kv, <[kv.1 := kv.2]> m) m kvs = list_to_map kvs ∪ m.
Proof.
  revert m. induction kvs as [|[k v] kvs IH]; intros m; cbn [foldl fmap list_fmap fst snd]; [by rewrite (left_id_L _ _)|].
  intros [Hk Hn]%NoDup_cons Hm. rewrite IH; [|done|].
  - cbn [list_to_map foldr]. change (list_to_map ((k, v) :: kvs)) with (<[k := v]> (list_to_map kvs : gmap string string)).
    rewrite <- insert_union_r, insert_union_l; [done|]. by apply not_elem_of_list_to_map.
  - intros k' Hk'. rewrite lookup_insert_ne; [apply Hm; by right|]. intros ->. done.
Qed.

Lemma read_map_put (put : bytes → bytes) (read : bytes → option (bytes * bytes)) m rest :
  (∀ v rest, zlen v ≤ max_uint32 → read (put v ++ rest) = Some (v, rest)) → small_map m →
  read_map read (put_map put m ++ rest) = Some (m, rest) ∧ IsNil (put_map put m ++ rest) = false.
Proof.
  intros Hread [Hn Hs]. unfold read_map, put_map. rewrite <- app_assoc, Z.mod_small by (unfold max_uint32 in Hn; lia).
  rewrite read_map_header, map_not_nil by lia. split; [|done]. cbn [mbind option_bind]. rewrite Nat2Z.id, <- length_map_to_list.
  rewrite read_pairs_n_put; [|done|by apply map_Forall_to_list in Hs; apply (Forall_impl _ _ _ Hs); intros [k v]].
  rewrite foldl_insert_map, list_to_map_to_list, (right_id_L _ _); [done|apply NoDup_fst_map_to_list|done].
Qed.

End Generic.

(** ** Headers *)

Section Codec.
Context `{Msgp}.

Definition header_MarshalMsg (z : xlMetaV2VersionHeader) : bytes :=
  x95 :: AppendUUID (h_VersionID z) ++ AppendInt (h_ModTime z) ++ AppendBytes (be_bytes 4 (h_Signature z)) ++ AppendUint (h_Type z) ++ AppendUint (h_Flags z).

Definition header_UnmarshalMsg (b : bytes) : option (xlMetaV2VersionHeader * bytes) :=
  '(n, b) ← ReadArrayHeaderBytes b;
  if negb (n =? 5) then None
  else
    '(id, b) ← ReadUUID b;
    '(modTime, b) ← ReadIntBytes b;
    '(sig, b) ← ReadExactBytes 4 b;
    '(type, b) ← ReadUint8Bytes b;
    '(flags, b) ← ReadUint8Bytes b;
    Some (mkHeader id modTime (be_val sig) type flags, b).

(** Version 1 had no signature. *)
Definition header_unmarshalV1 (b : bytes) : option (xlMetaV2VersionHeader * bytes) :=
  '(n, b) ← ReadArrayHeaderBytes b;
  if negb (n =? 4) then None
  else
    '(id, b) ← ReadUUID b;
    '(modTime, b) ← ReadIntBytes b;
    '(type, b) ← ReadUint8Bytes b;
    '(flags, b) ← ReadUint8Bytes b;
    Some (mkHeader id modTime 0 type flags, b).

Definition xlHeaderVersion : Z := 2.

Definition header_unmarshalV (v : Z) (b : bytes) : option (xlMetaV2VersionHeader * bytes) :=
  if v =? 1 then header_unmarshalV1 b else if v =? xlHeaderVersion then header_UnmarshalMsg b else None.

(** ** Delete markers *)

Definition dm_zero : xlMetaV2DeleteMarker := mkDM 0 0 ∅.

(** With [nil_maps] as for the signature. *)
Definition dm_MarshalMsg (nil_maps : bool) (z : xlMetaV2DeleteMarker) : bytes :=
  fixmap (if nil_maps then 2 else 3) ++ put_field "ID" (AppendUUID (dm_VersionID z)) ++ put_field "MTime" (AppendInt (dm_ModTime z)) ++
  (if nil_maps then [] else put_field "MetaSys" (put_map AppendBytes (dm_MetaSys z))).

Definition marker_field (key : string) (z : xlMetaV2DeleteMarker) (b : bytes) : option (xlMetaV2DeleteMarker * bytes) :=
  if String.eqb key "ID" then '(v, b) ← ReadUUID b; Some (mkDM v (dm_ModTime z) (dm_MetaSys z), b)
  else if String.eqb key "MTime" then '(v, b) ← ReadIntBytes b; Some (mkDM (dm_VersionID z) v (dm_MetaSys z), b)
  else if String.eqb key "MetaSys" then '(v, b) ← read_map ReadBytesZC b; Some (mkDM (dm_VersionID z) (dm_ModTime z) v, b)
  else b ← Skip b; Some (z, b).

Definition dm_UnmarshalMsg (z : xlMetaV2DeleteMarker) (b : bytes) : option (xlMetaV2DeleteMarker * bytes) := decode_map marker_field z b.

(** ** Objects *)

Definition o_zero : xlMetaV2Object := mkV2 0 0 0 0 0 0 0 [] 0 [] [] [] [] 0 0 ∅ ∅.

Definition o_MarshalMsg (nil_maps : bool) (z : xlMetaV2Object) : bytes :=
  map16 17 ++
  put_field "ID" (AppendUUID (o_VersionID z)) ++
  put_field "DDir" (AppendUUID (o_DataDir z)) ++
  put_field "EcAlgo" (AppendUint (o_ErasureAlgorithm z)) ++
  put_field "EcM" (AppendInt (o_ErasureM z)) ++
  put_field "EcN" (AppendInt (o_ErasureN z)) ++
  put_field "EcBSize" (AppendInt (o_ErasureBlockSize z)) ++
  put_field "EcIndex" (AppendInt (o_ErasureIndex z)) ++
  put_field "EcDist" (put_array AppendUint (o_ErasureDist z)) ++
  put_field "CSumAlgo" (AppendUint (o_BitrotChecksumAlgo z)) ++
  put_field "PartNums" (put_array AppendInt (o_PartNumbers z)) ++
  put_field "PartETags" (if (length (o_PartETags z) =? 0)%nat then AppendNil else put_array AppendStr (o_PartETags z)) ++
  put_field "PartSizes" (put_array AppendInt (o_PartSizes z)) ++
  put_field "PartASizes" (if nil_maps && (length (o_PartActualSizes z) =? 0)%nat then AppendNil else put_array AppendInt (o_PartActualSizes z)) ++
  put_field "Size" (AppendInt (o_Size z)) ++
  put_field "MTime" (AppendInt (o_ModTime z)) ++
  put_field "MetaSys" (if nil_maps then AppendNil else put_map AppendBytes (o_MetaSys z)) ++
  put_field "MetaUsr" (if nil_maps then AppendNil else put_map AppendString (o_MetaUser z)).

Definition object_field (key : string) (z : xlMetaV2Object) (b : bytes) : option (xlMetaV2Object * bytes) :=
  let '(mkV2 id dd alg m n bs ix dist csum nums etags sizes asizes sz mt sys usr) := z in
  if String.eqb key "ID" then '(v, b) ← ReadUUID b; Some (mkV2 v dd alg m n bs ix dist csum nums etags sizes asizes sz mt sys usr, b)
  else if String.eqb key "DDir" then '(v, b) ← ReadUUID b; Some (mkV2 id v alg m n bs ix dist csum nums etags sizes asizes sz mt sys usr, b)
  else if String.eqb key "EcAlgo" then '(v, b) ← ReadUint8Bytes b; Some (mkV2 id dd v m n bs ix dist csum nums etags sizes asizes sz mt sys usr, b)
  else if String.eqb key "EcM" then '(v, b) ← ReadIntBytes b; Some (mkV2 id dd alg v n bs ix dist csum nums etags sizes asizes sz mt sys usr, b)
  else if String.eqb key "EcN" then '(v, b) ← ReadIntBytes b; Some (mkV2 id dd alg m v bs ix dist csum nums etags sizes asizes sz mt sys usr, b)
  else if String.eqb key "EcBSize" then '(v, b) ← ReadIntBytes b; Some (mkV2 id dd alg m n v ix dist csum nums etags sizes asizes sz mt sys usr, b)
  else if String.eqb key "EcIndex" then '(v, b) ← ReadIntBytes b; Some (mkV2 id dd alg m n bs v dist csum nums etags sizes asizes sz mt sys usr, b)
  else if String.eqb key "EcDist" then '(v, b) ← read_array ReadUint8Bytes b; Some (mkV2 id dd alg m n bs ix v csum nums etags sizes asizes sz mt sys usr, b)
  else if String.eqb key "CSumAlgo" then '(v, b) ← ReadUint8Bytes b; Some (mkV2 id dd alg m n bs ix dist v nums etags sizes asizes sz mt sys usr, b)
  else if String.eqb key "PartNums" then '(v, b) ← read_array ReadIntBytes b; Some (mkV2 id dd alg m n bs ix dist csum v etags sizes asizes sz mt sys usr, b)
  else if String.eqb key "PartETags" then '(v, b) ← or_nil [] (read_array ReadStr) b; Some (mkV2 id dd alg m n bs ix dist csum nums v sizes asizes sz mt sys usr, b)
  else if String.eqb key "PartSizes" then '(v, b) ← read_array ReadIntBytes b; Some (mkV2 id dd alg m n bs ix dist csum nums etags v asizes sz mt sys usr, b)
  else if String.eqb key "PartASizes" then '(v, b) ← or_nil [] (read_array ReadIntBytes) b; Some (mkV2 id dd alg m n bs ix dist csum nums etags sizes v sz mt sys usr, b)
  else if String.eqb key "Size" then '(v, b) ← ReadIntBytes b; Some (mkV2 id dd alg m n bs ix dist csum nums etags sizes asizes v mt sys usr, b)
  else if String.eqb key "MTime" then '(v, b) ← ReadIntBytes b; Some (mkV2 id dd alg m n bs ix dist csum nums etags sizes asizes sz v sys usr, b)
  else if String.eqb key "MetaSys" then '(v, b) ← or_nil ∅ (read_map ReadBytesZC) b; Some (mkV2 id dd alg m n bs ix dist csum nums etags sizes asizes sz mt v usr, b)
  else if String.eqb key "MetaUsr" then '(v, b) ← or_nil ∅ (read_map ReadStringBytes) b; Some (mkV2 id dd alg m n bs ix dist csum nums etags sizes asizes sz mt sys v, b)
  else b ← Skip b; Some (z, b).

Definition o_UnmarshalMsg (z : xlMetaV2Object) (b : bytes) : option (xlMetaV2Object * bytes) := decode_map object_field z b.

(** ** Versions *)

(** Objects of the old format (cmd/xl-storage-format-v1_gen.go). *)
Class LegacyCodec := {
  v1_MarshalMsg : xlMetaV1Object → bytes;
  v1_UnmarshalMsg : bytes → option (xlMetaV1Object * bytes);
  v1_Fits : xlMetaV1Object → Prop;
}.

Class LegacyCodecLaws `{LegacyCodec} := {
  v1_read_back v rest : v1_Fits v → v1_UnmarshalMsg (v1_MarshalMsg v ++ rest) = Some (v, rest) ∧ IsNil (v1_MarshalMsg v ++ rest) = false;
}.

Context `{LegacyCodec}.

Definition ver_MarshalMsg (z : xlMetaV2Version) : bytes :=
  match z with
  | VObject o => fixmap 2 ++ put_field "Type" (AppendUint ObjectType) ++ put_field "V2Obj" (o_MarshalMsg false o)
  | VDelete d => fixmap 2 ++ put_field "Type" (AppendUint DeleteType) ++ put_field "DelObj" (dm_MarshalMsg false d)
  | VLegacy v => fixmap 2 ++ put_field "Type" (AppendUint LegacyType) ++ put_field "V1Obj" (v1_MarshalMsg v)
  | VOther t => fixmap 1 ++ put_field "Type" (AppendUint t)
  end.

(** The fields of [xlMetaV2Version]; the payload for the type becomes the version. *)
Record version_fields := mkVF { vf_Type : Z; vf_V1 : option xlMetaV1Object; vf_V2 : option xlMetaV2Object; vf_Del : option xlMetaV2DeleteMarker }.

Definition vf_version (f : version_fields) : xlMetaV2Version :=
  match (if vf_Type f =? ObjectType then VObject <$> vf_V2 f else if vf_Type f =? DeleteType then VDelete <$> vf_Del f
         else if vf_Type f =? LegacyType then VLegacy <$> vf_V1 f else None) with
  | Some v => v
  | None => VOther (vf_Type f)
  end.

Definition version_field (key : string) (z : version_fields) (b : bytes) : option (version_fields * bytes) :=
  if String.eqb key "Type" then '(v, b) ← ReadUint8Bytes b; Some (mkVF v (vf_V1 z) (vf_V2 z) (vf_Del z), b)
  else if String.eqb key "V1Obj" then
    '(v, b) ← or_nil None (λ b, '(v, b) ← v1_UnmarshalMsg b; Some (Some v, b)) b; Some (mkVF (vf_Type z) v (vf_V2 z) (vf_Del z), b)
  else if String.eqb key "V2Obj" then
    '(v, b) ← or_nil None (λ b, '(v, b) ← o_UnmarshalMsg (default o_zero (vf_V2 z)) b; Some (Some v, b)) b; Some (mkVF (vf_Type z) (vf_V1 z) v (vf_Del z), b)
  else if String.eqb key "DelObj" then
    '(v, b) ← or_nil None (λ b, '(v, b) ← dm_UnmarshalMsg (default dm_zero (vf_Del z)) b; Some (Some v, b)) b; Some (mkVF (vf_Type z) (vf_V1 z) (vf_V2 z) v, b)
  else b ← Skip b; Some (z, b).

Definition ver_UnmarshalMsg (b : bytes) : option (xlMetaV2Version * bytes) :=
  '(f, b) ← decode_map version_field (mkVF 0 None None None) b; Some (vf_version f, b).

(** *** The data directory only: [xlMetaDataDirDecoder] *)

Definition data_dir_object_field (key : string) (z : Z) (b : bytes) : option (Z * bytes) :=
  if String.eqb key "DDir" then ReadUUID b else b ← Skip b; Some (z, b).

Definition data_dir_field (key : string) (z : option Z) (b : bytes) : option (option Z * bytes) :=
  if String.eqb key "V2Obj" then or_nil None (λ b, '(v, b) ← decode_map data_dir_object_field (default 0 z) b; Some (Some v, b)) b
  else b ← Skip b; Some (z, b).

Definition data_dir_UnmarshalMsg (b : bytes) : option (option Z) := fst <$> decode_map data_dir_field None b.

(** ** Signatures *)

(** github.com/cespare/xxhash and github.com/zeebo/xxh3. *)
Class Hashes := { xxhash_Sum64 : bytes → Z; xxh3_Hash : bytes → Z }.

Context `{Hashes}.

Definition hash_step (crc : Z) (kv : string * string) : Z :=
  Z.lxor crc (to_uint64 (Z.lxor (xxh3_Hash (string_bytes kv.1)) 0x4ee3bbaf7ab2506b + Z.lxor (xxh3_Hash (string_bytes kv.2)) 0x8da4c8da66194257)).

Definition hashDeterministicString (m : gmap string string) : Z := foldl hash_step 0xc2b40bbac11a7295 (map_to_list m).
Definition hashDeterministicBytes (m : gmap string string) : Z := foldl hash_step 0x1bbc7e1dde654743 (map_to_list m).

(** "Combine upper and lower part": four bytes, the least significant first. *)
Definition fold_crc (crc : Z) : Z := be_val (reverse (be_bytes 4 (Z.lxor crc (Z.shiftr crc 32)))).

Definition signatureErr : Z := be_val [x65; x72; x72; x00].

Definition o_Signature (j : xlMetaV2Object) : Z :=
  let c := mkV2 (o_VersionID j) (o_DataDir j) (o_ErasureAlgorithm j) (o_ErasureM j) (o_ErasureN j) (o_ErasureBlockSize j) 0 (o_ErasureDist j)
    (o_BitrotChecksumAlgo j) (o_PartNumbers j) (o_PartETags j) (o_PartSizes j) (o_PartActualSizes j) (o_Size j) (o_ModTime j) ∅ ∅ in
  fold_crc (Z.lxor (Z.lxor (hashDeterministicString (o_MetaUser j)) (hashDeterministicBytes (o_MetaSys j))) (xxhash_Sum64 (o_MarshalMsg true c))).

Definition dm_Signature (j : xlMetaV2DeleteMarker) : Z :=
  fold_crc (Z.lxor (hashDeterministicBytes (dm_MetaSys j)) (xxhash_Sum64 (dm_MarshalMsg true (mkDM (dm_VersionID j) (dm_ModTime j) ∅)))).

(** The index of the drive and the metadata, which is hashed by itself, are cleared. *)
Definition v1_Signature (m : xlMetaV1Object) : Z :=
  let e := v1_Erasure m in
  let c := mkV1 (v1_Version m) (v1_Format m) (v1_Size m) (v1_ModTime m)
    (mkEI (ei_DataBlocks e) (ei_ParityBlocks e) (ei_BlockSize e) 0 (ei_Distribution e) (ei_Checksums e)) ∅ (v1_Parts m) (v1_VersionID m) (v1_DataDir m) in
  fold_crc (Z.lxor (hashDeterministicString (v1_Meta m)) (xxhash_Sum64 (v1_MarshalMsg c))).

Definition getSignature (j : xlMetaV2Version) : Z :=
  match j with VObject o => o_Signature o | VDelete d => dm_Signature d | VLegacy m => v1_Signature m | VOther _ => signatureErr end.

End Codec.

(** ** What is written is read back *)

Section ReadBack.
Context `{MsgpLaws} `{!LegacyCodec} `{!LegacyCodecLaws}.

Definition byte_range (z : Z) : Prop := 0 ≤ z < 256.

Record header_fits (h : xlMetaV2VersionHeader) : Prop := {
  hf_id : uuid_range (h_VersionID h);
  hf_time : in_int64 (h_ModTime h);
  hf_sig : 0 ≤ h_Signature h < 2 ^ 32;
  hf_type : byte_range (h_Type h);
  hf_flags : byte_range (h_Flags h);
}.

Lemma header_read_back h rest : header_fits h → header_UnmarshalMsg (header_MarshalMsg h ++ rest) = Some (h, rest).
Proof.
  intros [Hid Ht Hs Hty Hf]. unfold header_UnmarshalMsg, header_MarshalMsg. cbn [app]. rewrite read_fixarray. cbn [mbind option_bind Z.eqb Pos.eqb negb].
  rewrite <- !app_assoc, read_UUID by done. cbn [mbind option_bind]. rewrite read_int by done. cbn [mbind option_bind].
  rewrite read_exact by (done || unfold zlen; by rewrite be_bytes_length). cbn [mbind option_bind]. rewrite read_uint8 by done. cbn [mbind option_bind].
  rewrite read_uint8 by done. cbn [mbind option_bind]. rewrite be_val_bytes, Z.mod_small by exact Hs. by destruct h.
Qed.

Record marker_fits (d : xlMetaV2DeleteMarker) : Prop := {
  mf_id : uuid_range (dm_VersionID d);
  mf_time : in_int64 (dm_ModTime d);
  mf_sys : small_map (dm_MetaSys d);
}.

Record object_fits (o : xlMetaV2Object) : Prop := {
  of_id : uuid_range (o_VersionID o);
  of_dir : uuid_range (o_DataDir o);
  of_alg : byte_range (o_ErasureAlgorithm o);
  of_m : in_int64 (o_ErasureM o);
  of_n : in_int64 (o_ErasureN o);
  of_bs : in_int64 (o_ErasureBlockSize o);
  of_ix : in_int64 (o_ErasureIndex o);
  of_dist : zlen (o_ErasureDist o) ≤ max_uint32 ∧ Forall byte_range (o_ErasureDist o);
  of_csum : byte_range (o_BitrotChecksumAlgo o);
  of_nums : zlen (o_PartNumbers o) ≤ max_uint32 ∧ Forall in_int64 (o_PartNumbers o);
  of_etags : zlen (o_PartETags o) ≤ max_uint32 ∧ Forall short_str (o_PartETags o);
  of_sizes : zlen (o_PartSizes o) ≤ max_uint32 ∧ Forall in_int64 (o_PartSizes o);
  of_asizes : zlen (o_PartActualSizes o) ≤ max_uint32 ∧ Forall in_int64 (o_PartActualSizes o);
  of_size : in_int64 (o_Size o);
  of_time : in_int64 (o_ModTime o);
  of_sys : small_map (o_MetaSys o);
  of_usr : small_map (o_MetaUser o);
}.

Lemma ints_back l rest : zlen l ≤ max_uint32 ∧ Forall in_int64 l →
  read_array ReadIntBytes (put_array AppendInt l ++ rest) = Some (l, rest) ∧ IsNil (put_array AppendInt l ++ rest) = false.
Proof. intros [Hn Hl]. apply read_array_put; [done|]. apply (Forall_impl _ _ _ Hl). intros z Hz r. by apply read_int. Qed.

Lemma read_ints l rest : zlen l ≤ max_uint32 ∧ Forall in_int64 l → read_array ReadIntBytes (put_array AppendInt l ++ rest) = Some (l, rest).
Proof. apply ints_back. Qed.

Lemma read_uints l rest : zlen l ≤ max_uint32 ∧ Forall byte_range l → read_array ReadUint8Bytes (put_array AppendUint l ++ rest) = Some (l, rest).
Proof. intros [Hn Hl]. apply read_array_put; [done|]. apply (Forall_impl _ _ _ Hl). intros z Hz r. by apply read_uint8. Qed.

Lemma read_strs l rest : zlen l ≤ max_uint32 ∧ Forall short_str l →
  or_nil [] (read_array ReadStr) ((if (length l =? 0)%nat then AppendNil else put_array AppendStr l) ++ rest) = Some (l, rest).
Proof.
  intros [Hn Hl]. destruct l as [|s l]; [apply read_or_nil_nil|]. cbn [length Nat.eqb]. apply read_or_nil, read_array_put; [done|].
  apply (Forall_impl _ _ _ Hl). intros z Hz r. unfold ReadStr, AppendStr. rewrite read_string by done. cbn [mbind option_bind]. by rewrite bytes_of_string.
Qed.

Lemma read_asizes l rest : zlen l ≤ max_uint32 ∧ Forall in_int64 l → or_nil [] (read_array ReadIntBytes) (put_array AppendInt l ++ rest) = Some (l, rest).
Proof. intros Hl. by apply read_or_nil, ints_back. Qed.

Lemma read_sys m rest : small_map m → or_nil ∅ (read_map ReadBytesZC) (put_map AppendBytes m ++ rest) = Some (m, rest).
Proof. intros Hm. apply read_or_nil, read_map_put; [|done]. intros v r Hv. by apply read_bytes. Qed.

Lemma read_usr m rest : small_map m → or_nil ∅ (read_map ReadStringBytes) (put_map AppendString m ++ rest) = Some (m, rest).
Proof. intros Hm. apply read_or_nil, read_map_put; [|done]. intros v r Hv. by apply read_string. Qed.

(** One field: its decoder finds its own key, and reads with the given law. *)
Ltac next_field law := erewrite fields_step; [| |cbn [object_field marker_field version_field String.eqb Ascii.eqb Bool.eqb]; rewrite law by done; cbn [mbind option_bind]; reflexivity]; [|vm_compute; discriminate].

Lemma marker_read_back d rest : marker_fits d → dm_UnmarshalMsg dm_zero (dm_MarshalMsg false d ++ rest) = Some (d, rest) ∧ IsNil (dm_MarshalMsg false d ++ rest) = false.
Proof.
  intros [Hid Ht Hs]. unfold dm_UnmarshalMsg, dm_MarshalMsg, decode_map. rewrite <- !app_assoc.
  destruct (read_fixmap 3 (put_field "ID" (AppendUUID (dm_VersionID d)) ++ put_field "MTime" (AppendInt (dm_ModTime d)) ++ put_field "MetaSys" (put_map AppendBytes (dm_MetaSys d)) ++ rest)) as [-> ->]; [done|].
  split; [|done]. cbn [mbind option_bind]. change (Z.to_nat 3) with 3%nat. next_field read_UUID. next_field read_int.
  next_field (proj1 (read_map_put AppendBytes ReadBytesZC (dm_MetaSys d) rest (λ v r Hv, read_bytes v r Hv) Hs)). by destruct d.
Qed.

Lemma object_read_back o rest : object_fits o → o_UnmarshalMsg o_zero (o_MarshalMsg false o ++ rest) = Some (o, rest) ∧ IsNil (o_MarshalMsg false o ++ rest) = false.
Proof.
  intros []. unfold o_UnmarshalMsg, o_MarshalMsg, decode_map. cbn [andb]. rewrite <- app_assoc.
  match goal with |- context [map16 17 ++ ?r] => destruct (read_map16 17 r) as [-> ->]; [done|] end. split; [|done].
  cbn [mbind option_bind]. change (Z.to_nat 17) with 17%nat. rewrite <- !app_assoc. unfold o_zero.
  do 2 next_field read_UUID. next_field read_uint8. do 4 next_field read_int. next_field read_uints. next_field read_uint8.
  next_field read_ints. next_field read_strs. next_field read_ints. next_field read_asizes. do 2 next_field read_int. next_field read_sys. next_field read_usr.
  by destruct o.
Qed.

Definition version_fits (v : xlMetaV2Version) : Prop :=
  match v with VObject o => object_fits o | VDelete d => marker_fits d | VLegacy m => v1_Fits m | VOther _ => False end.

Lemma version_read_back v rest : version_fits v → ver_UnmarshalMsg (ver_MarshalMsg v ++ rest) = Some (v, rest).
Proof.
  unfold ver_UnmarshalMsg, ver_MarshalMsg, decode_map. destruct v as [o|d|m|t]; cbn [version_fits]; [..|done]; intros Hf; rewrite <- !app_assoc;
    (rewrite (proj1 (read_fixmap 2 _ ltac:(done))); cbn [mbind option_bind]; change (Z.to_nat 2) with 2%nat; next_field read_uint8).
  - destruct (object_read_back o rest Hf) as [Hr Hn].
    erewrite fields_step; [|vm_compute; discriminate|cbn [version_field String.eqb Ascii.eqb Bool.eqb]; unfold or_nil; rewrite Hn; cbn [vf_V2 default from_option]; unfold id; rewrite Hr; reflexivity]. done.
  - destruct (marker_read_back d rest Hf) as [Hr Hn].
    erewrite fields_step; [|vm_compute; discriminate|cbn [version_field String.eqb Ascii.eqb Bool.eqb]; unfold or_nil; rewrite Hn; cbn [vf_Del default from_option]; unfold id; rewrite Hr; reflexivity]. done.
  - destruct (v1_read_back m rest Hf) as [Hr Hn].
    erewrite fields_step; [|vm_compute; discriminate|cbn [version_field String.eqb Ascii.eqb Bool.eqb]; unfold or_nil; rewrite Hn, Hr; reflexivity]. done.
Qed.

(** *** Values to skip *)

Lemma uuid_value u : msg_value (AppendUUID u).
Proof. apply mv_bytes. unfold zlen. rewrite be_bytes_length. done. Qed.

Lemma array_value {A} (put : A → bytes) l : zlen l ≤ max_uint32 → Forall (λ a, msg_value (put a)) l → msg_value (put_array put l).
Proof.
  intros Hn Hl. unfold put_array. rewrite Z.mod_small by (unfold max_uint32, zlen in *; lia).
  replace (zlen l) with (zlen (put <$> l)) by (unfold zlen; by rewrite length_fmap). apply mv_array; [unfold zlen in *; by rewrite length_fmap|by apply Forall_fmap].
Qed.

Lemma map_value (put : bytes → bytes) m : (∀ v, zlen v ≤ max_uint32 → msg_value (put v)) → small_map m → msg_value (put_map put m).
Proof.
  intros Hput [Hn Hs]. unfold put_map. rewrite Z.mod_small by (unfold max_uint32 in *; lia).
  pose (l := (λ kv : string * string, (AppendString (string_bytes kv.1), put (string_bytes kv.2))) <$> map_to_list m).
  replace (Z.of_nat (size m)) with (zlen l) by (unfold l, zlen; by rewrite length_fmap, length_map_to_list).
  replace ((λ kv : string * string, AppendString (string_bytes kv.1) ++ put (string_bytes kv.2)) <$> map_to_list m) with ((λ kv : bytes * bytes, kv.1 ++ kv.2) <$> l)
    by (unfold l; by rewrite <- list_fmap_compose).
  apply mv_map; [unfold l, zlen; by rewrite length_fmap, length_map_to_list|]. unfold l. apply Forall_fmap. apply map_Forall_to_list in Hs.
  apply (Forall_impl _ _ _ Hs). intros [k v] [Hk Hv]. cbn. split; [by apply mv_string|by apply Hput].
Qed.

Lemma skip_ints l rest : zlen l ≤ max_uint32 ∧ Forall in_int64 l → Skip (put_array AppendInt l ++ rest) = Some rest.
Proof. intros [Hn Hl]. apply skip_value, array_value; [done|]. apply (Forall_impl _ _ _ Hl). intros z. apply mv_int. Qed.

Lemma skip_uints l rest : zlen l ≤ max_uint32 ∧ Forall byte_range l → Skip (put_array AppendUint l ++ rest) = Some rest.
Proof. intros [Hn Hl]. apply skip_value, array_value; [done|]. apply (Forall_impl _ _ _ Hl). intros z. apply mv_uint. Qed.

Lemma skip_strs l rest : zlen l ≤ max_uint32 ∧ Forall short_str l →
  Skip ((if (length l =? 0)%nat then AppendNil else put_array AppendStr l) ++ rest) = Some rest.
Proof.
  intros [Hn Hl]. apply skip_value. destruct (length l =? 0)%nat; [apply mv_nil|]. apply array_value; [done|]. apply (Forall_impl _ _ _ Hl). intros z. apply mv_string.
Qed.

Lemma skip_map (put : bytes → bytes) m rest : (∀ v, zlen v ≤ max_uint32 → msg_value (put v)) → small_map m → Skip (put_map put m ++ rest) = Some rest.
Proof. intros Hput Hm. by apply skip_value, map_value. Qed.

Lemma skip_int z rest : in_int64 z → Skip (AppendInt z ++ rest) = Some rest.
Proof. intros Hz. by apply skip_value, mv_int. Qed.

Lemma skip_uint z rest : byte_range z → Skip (AppendUint z ++ rest) = Some rest.
Proof. intros Hz. by apply skip_value, mv_uint. Qed.

Lemma skip_uuid u rest : Skip (AppendUUID u ++ rest) = Some rest.
Proof. by apply skip_value, uuid_value. Qed.

Ltac skip_field law := erewrite fields_step; [| |cbn [data_dir_object_field data_dir_field String.eqb Ascii.eqb Bool.eqb]; rewrite law by done; cbn [mbind option_bind]; reflexivity]; [|vm_compute; discriminate].

Lemma data_dir_object_back o rest : object_fits o → decode_map data_dir_object_field 0 (o_MarshalMsg false o ++ rest) = Some (o_DataDir o, rest).
Proof.
  intros []. unfold o_MarshalMsg, decode_map. cbn [andb]. rewrite <- app_assoc.
  match goal with |- context [map16 17 ++ ?r] => destruct (read_map16 17 r) as [-> _]; [done|] end.
  cbn [mbind option_bind]. change (Z.to_nat 17) with 17%nat. rewrite <- !app_assoc.
  skip_field skip_uuid. erewrite fields_step; [|vm_compute; discriminate|cbn [data_dir_object_field String.eqb Ascii.eqb Bool.eqb]; by apply read_UUID].
  skip_field skip_uint. do 4 skip_field skip_int. skip_field skip_uints. skip_field skip_uint. skip_field skip_ints. skip_field skip_strs. do 2 skip_field skip_ints.
  do 2 skip_field skip_int. skip_field (skip_map AppendBytes (o_MetaSys o) (put_field "MetaUsr" (put_map AppendString (o_MetaUser o)) ++ rest) mv_bytes of_sys0).
  skip_field (skip_map AppendString (o_MetaUser o) rest mv_string of_usr0). done.
Qed.

Lemma data_dir_back o : object_fits o → data_dir_UnmarshalMsg (ver_MarshalMsg (VObject o)) = Some (Some (o_DataDir o)).
Proof.
  intros Hf. unfold data_dir_UnmarshalMsg, ver_MarshalMsg, decode_map. rewrite (proj1 (read_fixmap 2 _ ltac:(done))). cbn [mbind option_bind].
  change (Z.to_nat 2) with 2%nat. skip_field skip_uint. rewrite <- (app_nil_r (put_field "V2Obj" _)).
  destruct (object_read_back o [] Hf) as [_ Hn]. pose proof (data_dir_object_back o [] Hf) as Hr.
  erewrite fields_step; [|vm_compute; discriminate|cbn [data_dir_field String.eqb Ascii.eqb Bool.eqb]; unfold or_nil; rewrite Hn; cbn [default from_option]; rewrite Hr; reflexivity].
  done.
Qed.

End ReadBack.

(** The codec of the journal. *)
#[global] Instance file_codec `{Msgp} `{LegacyCodec} `{Hashes} : VersionCodec bytes := {|
  MarshalMsg := ver_MarshalMsg;
  UnmarshalMsg b := fst <$> ver_UnmarshalMsg b;
  UnmarshalDataDir := data_dir_UnmarshalMsg;
  Signature := getSignature;
  nil_meta := [];
  Fits := version_fits;
|}.

#[global] Instance file_codec_laws `{MsgpLaws} `{!LegacyCodec} `{!LegacyCodecLaws} `{!Hashes} : VersionCodecLaws bytes.
Proof.
  split; cbn [Fits MarshalMsg UnmarshalMsg UnmarshalDataDir file_codec].
  - intros v Hf. rewrite <- (app_nil_r (ver_MarshalMsg v)), version_read_back by done. done.
  - intros o Hf. by apply data_dir_back.
Qed.

(** Signatures are the same on all drives: they do not depend on the index of the drive. *)
Lemma signature_same_on_drives `{Msgp} `{LegacyCodec} `{Hashes} o o' :
  o_Signature o = o_Signature (mkV2 (o_VersionID o) (o_DataDir o) (o_ErasureAlgorithm o) (o_ErasureM o) (o_ErasureN o) (o_ErasureBlockSize o) (o_ErasureIndex o')
    (o_ErasureDist o) (o_BitrotChecksumAlgo o) (o_PartNumbers o) (o_PartETags o) (o_PartSizes o) (o_PartActualSizes o) (o_Size o) (o_ModTime o) (o_MetaSys o) (o_MetaUser o)).
Proof. done. Qed.
