(* ===== verification/XLFile.v ===== *)
(** * The file xl.meta (cmd/xl-storage-format-v2.go, cmd/xl-storage-format-utils.go, cmd/xl-storage-meta-inline.go)

    A journal as a file: a header with the version of the format, the versions with their
    headers in one block, a checksum of the block, and the inline data. Current files
    can be read without loading all of them; older files are converted. *)

From Stdlib Require Import ZArith Lia Bool.
From Stdlib.Strings Require Import Byte.
From S2P Require Import Prelude GoStrings GoTime Replication ErasureErrs Erasure Bitrot Msgp GoBase64 XLInline ErasureMeta XLMerge XLMeta XLMetaProofs XLCodec.

Local Open Scope go_scope.
Local Open Scope Z_scope.

(** ** The header of the file *)

Definition xlHeader : bytes := [x58; x4c; x32; x20].
Definition xlVersionMajor : Z := 1.
Definition xlVersionMinor : Z := 3.
Definition xlMetaVersion : Z := 1.

(** [binary.LittleEndian], two bytes. *)
Definition le16_bytes (z : Z) : bytes := reverse (be_bytes 2 z).
Definition le16_val (b : bytes) : Z := be_val (reverse b).

Definition xlVersionCurrent : bytes := le16_bytes xlVersionMajor ++ le16_bytes xlVersionMinor.

Definition checkXL2V1 (buf : bytes) : outcome derr (bytes * Z * Z) :=
  if zlen buf <=? 8 then Err (OtherErr "xlMeta: no data")
  else if negb (bool_decide (take 4 buf = xlHeader)) then Err (OtherErr "xlMeta: unknown XLv2 header")
  else
    let version := take 4 (drop 4 buf) in
    let '(major, minor) := if bool_decide (version = string_bytes "1   ") then (1, 0) else (le16_val (take 2 version), le16_val (drop 2 version)) in
    if xlVersionMajor <? major then Err (OtherErr "xlMeta: unknown major version")
    else Ok (drop 8 buf, major, minor).

Definition isXL2V1Format (buf : bytes) : bool := is_ok (checkXL2V1 buf).

Definition msgp_error {A} : outcome derr A := Err (OtherErr "msgp").

Definition read {A} (r : option A) : outcome derr A := match r with Some a => Ok a | None => msgp_error end.

Section File.
Context `{Msgp} `{LegacyCodec} `{Hashes} `{UUID}.
Context (now : Z).

Definition uint32 (z : Z) : Z := z mod 2 ^ 32.

(** The block of versions, if the file has it and its checksum is right, and the inline data. *)
Definition isIndexedMetaV2 (buf : bytes) : option (bytes * bytes) :=
  match checkXL2V1 buf with
  | Ok (buf, major, minor) =>
      if negb (major =? 1) || (minor <? 3) then None
      else
        '(meta, buf) ← ReadBytesZC buf;
        '(crc, buf) ← ReadUint32Bytes buf;
        if negb (uint32 (xxhash_Sum64 meta) =? crc) then None
        else Some (meta, match validate buf with Some _ => repair buf | None => buf end)
  | _ => None
  end.

Definition decodeXLHeaders (buf : bytes) : outcome derr (Z * Z * Z * bytes) :=
  '(hdrVer, buf) ←? read (ReadUint8Bytes buf);
  '(metaVer, buf) ←? read (ReadUint8Bytes buf);
  if xlHeaderVersion <? hdrVer then Err (OtherErr "decodeXLHeaders: Unknown xl header version")
  else if xlMetaVersion <? metaVer then Err (OtherErr "decodeXLHeaders: Unknown xl meta version")
  else
    '(versions, buf) ←? read (ReadIntBytes buf);
    if versions <? 0 then Err (OtherErr "decodeXLHeaders: Negative version count")
    else Ok (versions, hdrVer, metaVer, buf).

(** The callback has the state [S], and says whether to stop ([errDoneForNow]). *)
Fixpoint decodeVersions {S} (n : nat) (fn : bytes → bytes → M S derr bool) (buf : bytes) : M S derr () :=
  match n with
  | O => mret_ok ()
  | Datatypes.S n =>
      '(tHdr, buf) ←! (λ s, (read (ReadBytesZC buf), s));
      '(tMeta, buf) ←! (λ s, (read (ReadBytesZC buf), s));
      done ←! fn tHdr tMeta;
      if done then mret_ok () else decodeVersions n fn buf
  end.

(** ** Loading *)

Definition load_version (headerV : Z) (hdr meta : bytes) : M (list (xlMetaV2ShallowVersion bytes)) derr bool := λ vs,
  match header_unmarshalV headerV hdr with
  | Some (h, _) => (Ok false, vs ++ [mkShallow h meta])
  | None => (msgp_error, vs)
  end.

Definition repaired (data : bytes) : bytes := match validate data with Some _ => repair data | None => data end.

Definition loadIndexed (buf data : bytes) : outcome derr (xlMetaV2 bytes) :=
  '(versions, headerV, metaV, buf) ←? decodeXLHeaders buf;
  match decodeVersions (Z.to_nat versions) (load_version headerV) buf [] with
  | (Ok _, vs) => Ok (mkXL vs (repaired data) metaV)
  | (Err e, _) => Err e
  | (Panic w, _) => Panic w
  end.

(** The versions of an older file follow each other, without headers of their own. *)
Fixpoint legacy_versions (n : nat) (bts : bytes) : outcome derr (list (xlMetaV2ShallowVersion bytes) * bytes) :=
  match n with
  | O => Ok ([], bts)
  | S n =>
      '(tmp, rest) ←? read (ver_UnmarshalMsg bts);
      match tmp with
      | VOther t => if VersionType_valid t then nil_deref else
          '(vs, rest') ←? legacy_versions n rest; Ok (mkShallow (ver_header now tmp) (take (length bts - length rest) bts) :: vs, rest')
      | _ => '(vs, rest') ←? legacy_versions n rest; Ok (mkShallow (ver_header now tmp) (take (length bts - length rest) bts) :: vs, rest')
      end
  end.

Fixpoint legacy_fields (n : nat) (versions : list (xlMetaV2ShallowVersion bytes)) (bts : bytes) : outcome derr (list (xlMetaV2ShallowVersion bytes)) :=
  match n with
  | O => Ok versions
  | S n =>
      '(field, bts) ←? read (ReadMapKeyZC bts);
      if String.eqb (bytes_string field) "Versions" then
        '(count, bts) ←? read (ReadArrayHeaderBytes bts);
        '(versions, bts) ←? legacy_versions (Z.to_nat count) bts;
        legacy_fields n versions bts
      else
        bts ←? read (Skip bts);
        legacy_fields n versions bts
  end.

Definition loadLegacy (buf : bytes) : outcome derr (xlMetaV2 bytes) :=
  '(buf, major, minor) ←? checkXL2V1 buf;
  if negb (major =? 1) then Err (OtherErr "unknown major metadata version")
  else if (minor <? 0) || (2 <? minor) then Err (OtherErr "unknown minor metadata version")
  else
    '(allMeta, data) ←?
      (if minor =? 0 then Ok (buf, [])
       else
         '(v, buf) ←? read (ReadBytesZC buf);
         buf ←? (if 2 <=? minor then
                   '(crc, nbuf) ←? read (ReadUint32Bytes buf);
                   if negb (uint32 (xxhash_Sum64 v) =? crc) then Err (OtherErr "xlMetaV2.Load version, CRC mismatch") else Ok nbuf
                 else Ok buf);
         Ok (v, repaired buf));
    '(fields, bts) ←? read (ReadMapHeaderBytes allMeta);
    versions ←? legacy_fields (Z.to_nat fields) [] bts;
    Ok (mkXL (sortByModTime versions) data 1).

Definition Load (buf : bytes) : outcome derr (xlMetaV2 bytes) :=
  match isIndexedMetaV2 buf with
  | Some (meta, data) => loadIndexed meta data
  | None => loadLegacy buf
  end.

(** The JSON decoder of objects of the old format. *)
Class LegacyJSON := { json_Unmarshal : bytes → option xlMetaV1Object }.
Context `{LegacyJSON}.

Definition LoadOrConvert (buf : bytes) : outcome derr (xlMetaV2 bytes) :=
  if isXL2V1Format buf then Load buf
  else match json_Unmarshal buf with
       | None => Err errFileCorrupt
       | Some xlMeta =>
           match AddLegacy now xlMeta (mkXL [] [] xlMetaVersion) with
           | (Ok _, x) => Ok x
           | (Err e, _) => Err e
           | (Panic w, _) => Panic w
           end
       end.

(** ** Writing *)

Definition put_version (v : xlMetaV2ShallowVersion bytes) : bytes := AppendBytes (header_MarshalMsg (header v)) ++ AppendBytes (meta v).

Definition version_block (x : xlMetaV2 bytes) : bytes :=
  AppendUint xlHeaderVersion ++ AppendUint xlMetaVersion ++ AppendInt (zlen (versions x)) ++ concat (put_version <$> versions x).

(** Appends to [dst]; the size of the block is filled in when it is known. *)
Definition AppendTo (dst : bytes) (x : xlMetaV2 bytes) : outcome derr bytes :=
  match validate (data x) with
  | Some _ => Err (OtherErr "xlMetaInlineData")
  | None =>
      let block := version_block x in
      Ok (dst ++ xlHeader ++ xlVersionCurrent ++ (xc6 :: be_bytes 4 (uint32 (zlen block))) ++ block ++ (xce :: be_bytes 4 (uint32 (xxhash_Sum64 block))) ++ data x)
  end.

(** ** Reading without loading *)

(** [xlMetaV2TrimData]; what the code calls [min] is the major version, and [maj] the minor one. *)
Definition xlMetaV2TrimData (buf : bytes) : bytes :=
  match checkXL2V1 buf with
  | Ok (metaBuf, min, maj) =>
      if (maj =? 1) && (min <? 1) then buf
      else match ReadBytesZC metaBuf with
           | None => buf
           | Some (_, metaBuf) =>
               let metaBuf := if (1 <? maj) || (2 <=? min) then match ReadUint32Bytes metaBuf with Some (_, b) => b | None => metaBuf end else metaBuf in
               let ends := zlen buf - zlen metaBuf in
               if zlen buf <? ends then buf else take (Z.to_nat ends) buf
           end
  | _ => buf
  end.

Definition metaDataReadDefault : Z := 4096.

(** [readMore]: [buf] has been read of the stream [r]. *)
Definition readMore (r : bytes) (size : Z) (hasFull : bool) (buf : bytes) (n : Z) : outcome derr bytes :=
  if n <=? zlen buf then Ok buf
  else if hasFull || (size <? n) then Err (OtherErr "unexpected EOF")
  else if zlen r <? n then Err (OtherErr "readXLMetaNoData.readMore")
  else Ok (take (Z.to_nat n) r).

Definition readXLMetaNoData (r : bytes) (size : Z) : outcome derr bytes :=
  let hasFull := size <=? metaDataReadDefault in
  let initial := if metaDataReadDefault <? size then metaDataReadDefault else size in
  if zlen r <? initial then Err (OtherErr "readXLMetaNoData.ReadFull")
  else
    let buf := take (Z.to_nat initial) r in
    let readMore := readMore r size hasFull in
    match checkXL2V1 buf with
    | Ok (tmp, major, minor) =>
        if negb (major =? 1) then Err (OtherErr "unknown major metadata version")
        else if minor =? 0 then readMore buf size
        else if (1 <=? minor) && (minor <=? 3) then
          '(sz, tmp) ←? read (ReadBytesHeader tmp);
          let want := sz + (zlen buf - zlen tmp) in
          if minor <? 2 then buf ←? readMore buf want; Ok (take (Z.to_nat want) buf)
          else
            let wantMax := if size <? want + 5 then size else want + 5 in
            buf ←? readMore buf wantMax;
            if zlen buf <? want then Panic "slice bounds out of range"
            else
              let tmp := drop (Z.to_nat want) buf in
              '(_, after) ←? read (ReadUint32Bytes tmp);
              Ok (take (Z.to_nat (want + (zlen tmp - zlen after))) buf)
        else Err (OtherErr "unknown minor metadata version")
    | _ => readMore buf size
    end.

Definition buf_lookup (volume path versionID : string) (uv headerV metaV : Z) (hdr meta : bytes) : M lookup_state derr bool := λ st,
  match header_unmarshalV headerV hdr with
  | None => (msgp_error, st)
  | Some (h, _) =>
      match lookup_step volume path versionID uv metaV st (mkShallow h meta) with
      | Ok st' => (Ok false, st')
      | Err e => (Err e, mkLook (l_succ st) (l_latest st) (l_nonfree st) (Some FileInfo_zero))
      | Panic w => (Panic w, st)
      end
  end.

(** [xlMetaBuf.ToFileInfo]: a failure after the version was found is returned, any other means that it was not found. *)
Definition buf_ToFileInfo (volume path versionID : string) (x : bytes) : outcome derr FileInfo :=
  match request_id versionID with
  | None => Err errFileVersionNotFound
  | Some uv =>
      '(versions, headerV, metaV, buf) ←? decodeXLHeaders x;
      let '(r, st) := decodeVersions (Z.to_nat versions) (buf_lookup volume path versionID uv headerV metaV) buf (mkLook 0 true versions None) in
      match r, l_found st with
      | Panic w, _ => Panic w
      | _, None => Err (if String.eqb versionID "" then errFileNotFound else errFileVersionNotFound)
      | Err e, Some _ => Err e
      | Ok _, Some fi => Ok (set_reported (fi_IsLatest fi) (l_nonfree st) (fi_SuccessorModTime fi) fi)
      end
  end.

Record list_state := mkLS { ls_latest : bool; ls_succ : Z; ls_fis : list FileInfo }.

Definition buf_list (volume path : string) (vers metaV : Z) (hdr meta : bytes) : M list_state derr bool := λ st,
  match unmarshalV metaV meta with
  | Ok xl =>
      if negb (Valid xl) then (Err errFileCorrupt, st)
      else match ver_ToFileInfo volume path xl with
           | Ok fi => (Ok false, mkLS false (getModTime xl) (ls_fis st ++ [set_reported (ls_latest st) vers (ls_succ st) fi]))
           | Err e => (Err e, st)
           | Panic w => (Panic w, st)
           end
  | Err e => (Err e, st)
  | Panic w => (Panic w, st)
  end.

Definition buf_ListVersions (volume path : string) (x : bytes) : outcome derr (list FileInfo) :=
  '(vers, _, metaV, buf) ←? decodeXLHeaders x;
  match decodeVersions (Z.to_nat vers) (buf_list volume path vers metaV) buf (mkLS true 0 []) with
  | (Ok _, st) => Ok (ls_fis st)
  | (Err e, _) => Err e
  | (Panic w, _) => Panic w
  end.

Definition IsLatestDeleteMarker (x : bytes) : bool :=
  match decodeXLHeaders x with
  | Ok (vers, headerV, _, buf) =>
      if vers =? 0 then true
      else (decodeVersions (Z.to_nat vers) (λ hdr _ st,
              match header_unmarshalV headerV hdr with
              | None => (Ok true, st)
              | Some (xl, _) => (Ok true, h_Type xl =? DeleteType)
              end) buf false).2
  | _ => false
  end.

(** ** [FileInfo] from a file (cmd/xl-storage-format-utils.go) *)

Record FileInfoVersions := mkFIVs {
  fivs_Volume : string; fivs_Name : string; fivs_LatestModTime : Z; fivs_Versions : list FileInfo; fivs_FreeVersions : list FileInfo }.

Definition getAllFileInfoVersions (xlMetaBuf : bytes) (volume path : string) : outcome derr FileInfoVersions :=
  versions ←? match isIndexedMetaV2 xlMetaBuf with
              | Some (buf, _) => buf_ListVersions volume path buf
              | None => xlMeta ←? LoadOrConvert xlMetaBuf; ListVersions volume path xlMeta
              end;
  Ok match versions with
     | [] => mkFIVs "" "" 0 [] []
     | fi :: _ => mkFIVs volume path (fi_ModTime fi) versions []
     end.

Definition set_num (n : Z) (fi : FileInfo) : FileInfo := set_reported (fi_IsLatest fi) n (fi_SuccessorModTime fi) fi.

Definition getFileInfoVersions (xlMetaBuf : bytes) (volume path : string) : outcome derr FileInfoVersions :=
  fivs ←? getAllFileInfoVersions xlMetaBuf volume path;
  let real := filter (λ fi, TierFreeVersion fi = false) (fivs_Versions fivs) in
  Ok (mkFIVs (fivs_Volume fivs) (fivs_Name fivs) (fivs_LatestModTime fivs) (set_num (zlen real) <$> real)
        (fivs_FreeVersions fivs ++ filter (λ fi, TierFreeVersion fi = true) (fivs_Versions fivs))).

Definition set_data (d : bytes) (fi : FileInfo) : FileInfo :=
  mkFI (fi_Volume fi) (fi_Name fi) (fi_VersionID fi) (fi_IsLatest fi) (fi_Deleted fi) (fi_TransitionStatus fi) (fi_TransitionedObjName fi) (fi_TransitionTier fi)
    (fi_TransitionVersionID fi) (fi_ExpireRestored fi) (fi_DataDir fi) (fi_XLV1 fi) (fi_ModTime fi) (fi_Size fi) (fi_Metadata fi) (fi_Parts fi) (fi_Erasure fi)
    (fi_MarkDeleted fi) (fi_ReplicationState fi) d (fi_NumVersions fi) (fi_SuccessorModTime fi) (fi_DiskMTime fi).

Definition getFileInfo (xlMetaBuf : bytes) (volume path versionID : string) (data : bool) : outcome derr FileInfo :=
  '(fi, inData) ←?
    match isIndexedMetaV2 xlMetaBuf with
    | Some (buf, inData) => fi ←? buf_ToFileInfo volume path versionID buf; Ok (fi, inData)
    | None => xlMeta ←? LoadOrConvert xlMetaBuf; fi ←? xl_ToFileInfo volume path versionID xlMeta; Ok (fi, XLMeta.data xlMeta)
    end;
  if negb data then Ok fi
  else
    let versionID := if String.eqb (fi_VersionID fi) "" then nullVersionID else fi_VersionID fi in
    let d := default [] (XLInline.find inData (string_bytes versionID)) in
    Ok (set_data (if (length d =? 0)%nat then default [] (XLInline.find inData (string_bytes (fi_DataDir fi))) else d) fi).

End File.
