(* ===== verification/XLFileProofs.v ===== *)
(** * Properties of the file xl.meta

    Proofs about XLFile: a journal that was written is loaded as it was; reading a version out of
    the bytes is the same as loading them; a version that was added is found in the file; the file
    without its inline data. *)

From Stdlib Require Import ZArith Lia Bool.
From Stdlib.Strings Require Import Byte.
From S2P Require Import Prelude GoStrings GoTime Replication Restore ErasureErrs Erasure Bitrot Msgp GoBase64 XLInline ErasureMeta XLMerge XLMeta XLMetaProofs XLCodec XLFile.

Local Open Scope go_scope.
Local Open Scope Z_scope.

(** ** Writing and loading *)

Section Files.
Context `{MsgpLaws} `{!LegacyCodec} `{!LegacyCodecLaws} `{!Hashes} `{!UUID} `{!UUIDLaws} `{!LegacyJSON}.
Implicit Types (x : xlMetaV2 bytes) (v : xlMetaV2ShallowVersion bytes).

(** The inline data is valid, and numbers and lengths fit the format. *)
Record file_fits x : Prop := {
  ff_data : validate (data x) = None;
  ff_count : zlen (versions x) ≤ max_int64;
  ff_versions : Forall (λ v, header_fits (header v) ∧ zlen (header_MarshalMsg (header v)) ≤ max_uint32 ∧ zlen (meta v) ≤ max_uint32) (versions x);
  ff_block : zlen (version_block x) ≤ max_uint32;
}.

Lemma check_current rest : rest ≠ [] → checkXL2V1 (xlHeader ++ xlVersionCurrent ++ rest) = Ok (rest, 1, 3).
Proof.
  intros Hne. unfold checkXL2V1. rewrite (proj2 (Z.leb_gt _ _)); [done|]. unfold zlen. rewrite !length_app. destruct rest; [done|]. cbn [length]. change (length xlHeader) with 4%nat.
  change (length xlVersionCurrent) with 4%nat. lia.
Qed.

Lemma uint32_range z : 0 ≤ uint32 z ≤ max_uint32.
Proof. unfold uint32, max_uint32. pose proof (Z.mod_pos_bound z (2 ^ 32)). lia. Qed.

Lemma indexed_file x buf : file_fits x → AppendTo [] x = Ok buf → isIndexedMetaV2 buf = Some (version_block x, data x).
Proof.
  intros Hf. unfold AppendTo. rewrite (ff_data _ Hf). intros Hbuf. cbv zeta in Hbuf.
  match type of Hbuf with Ok ?b = _ => assert (buf = b) as -> by congruence end. unfold isIndexedMetaV2. rewrite app_nil_l, check_current by done. cbn [Z.eqb Pos.eqb negb orb Z.ltb Z.compare Pos.compare Pos.compare_cont].
  pose proof (ff_block _ Hf) as Hb. assert (uint32 (zlen (version_block x)) = zlen (version_block x)) as -> by (apply Z.mod_small; unfold zlen, max_uint32 in *; lia).
  cbn [app]. rewrite read_bin32 by done. cbn [mbind option_bind]. rewrite read_uint32 by apply uint32_range. cbn [mbind option_bind].
  rewrite Z.eqb_refl. cbn [negb]. by rewrite (ff_data _ Hf).
Qed.

Lemma decodeVersions_load vs vs0 rest :
  Forall (λ v, header_fits (header v) ∧ zlen (header_MarshalMsg (header v)) ≤ max_uint32 ∧ zlen (meta v) ≤ max_uint32) vs →
  decodeVersions (length vs) (load_version xlHeaderVersion) (concat (put_version <$> vs) ++ rest) vs0 = (Ok (), vs0 ++ vs).
Proof.
  intros Hvs. revert vs0. induction Hvs as [|v vs (Hh & Hl & Hm) _ IH]; intros vs0; [cbn; by rewrite app_nil_r|].
  cbn [length decodeVersions fmap list_fmap concat]. unfold put_version at 1. rewrite <- !app_assoc. unfold mbind_ok. rewrite read_bytes by done. cbn [read].
  rewrite read_bytes by done. cbn [read]. unfold load_version at 1. change (header_unmarshalV xlHeaderVersion) with header_UnmarshalMsg.
  rewrite <- (app_nil_r (header_MarshalMsg (header v))), header_read_back by done. rewrite IH, <- app_assoc. by destruct v.
Qed.

Lemma decode_version_block x : file_fits x → decodeXLHeaders (version_block x) = Ok (zlen (versions x), xlHeaderVersion, xlMetaVersion, concat (put_version <$> versions x)).
Proof.
  intros Hf. unfold decodeXLHeaders, version_block. rewrite read_uint8 by done. cbn [read obind]. rewrite read_uint8 by done. cbn [read obind].
  change (xlHeaderVersion <? xlHeaderVersion) with false. change (xlMetaVersion <? xlMetaVersion) with false. cbv iota.
  rewrite read_int by (pose proof (ff_count _ Hf); unfold in_int64, min_int64, zlen in *; lia). cbn [read obind]. rewrite (proj2 (Z.ltb_ge _ _)) by (unfold zlen; lia). done.
Qed.

(** A file always has the current version of the metadata. *)
Definition as_written x : xlMetaV2 bytes := mkXL (versions x) (data x) xlMetaVersion.

Lemma loadIndexed_block x : file_fits x → loadIndexed (version_block x) (data x) = Ok (as_written x).
Proof.
  intros Hf. unfold loadIndexed. rewrite decode_version_block by done. cbn [obind]. unfold zlen. rewrite Nat2Z.id, <- (app_nil_r (concat _)), decodeVersions_load by apply Hf.
  cbn [app]. unfold repaired. by rewrite (ff_data _ Hf).
Qed.

(** The older version of the metadata is read in the same way. *)
Lemma lookup_as_written volume path versionID uv mv st (vs : list (xlMetaV2ShallowVersion bytes)) :
  mv = 0 ∨ mv = 1 → lookup_loop volume path versionID uv mv st vs = lookup_loop volume path versionID uv xlMetaVersion st vs.
Proof.
  intros Hmv. revert st. induction vs as [|v vs IH]; intros st; [done|]. cbn [lookup_loop].
  assert (lookup_step volume path versionID uv mv st v = lookup_step volume path versionID uv xlMetaVersion st v) as ->
    by (unfold lookup_step, unmarshalV; by destruct Hmv as [-> | ->]).
  destruct (lookup_step _ _ _ _ _ _ _); [apply IH|done..].
Qed.

Lemma ToFileInfo_as_written volume path versionID x :
  metaV x = 0 ∨ metaV x = 1 → xl_ToFileInfo volume path versionID (as_written x) = xl_ToFileInfo volume path versionID x.
Proof. intros Hmv. unfold xl_ToFileInfo. destruct (request_id versionID) as [uv|]; [|done]. by rewrite (lookup_as_written _ _ _ _ (metaV x)). Qed.

(** ** Reading out of the bytes *)

Lemma load_length n hv buf vs0 vs : decodeVersions n (load_version hv) buf vs0 = (Ok (), vs) → length vs = (length vs0 + n)%nat.
Proof.
  revert buf vs0. induction n as [|n IH]; intros buf vs0; cbn [decodeVersions]; [intros [= <-]; lia|]. unfold mbind_ok.
  destruct (ReadBytesZC buf) as [[h b1]|]; [|done]. cbn [read]. destruct (ReadBytesZC b1) as [[m b2]|]; [|done]. cbn [read]. unfold load_version at 1.
  destruct (header_unmarshalV hv h) as [[hd r]|]; [|done]. intros Hl%IH. rewrite length_app in Hl. cbn in Hl. lia.
Qed.

Lemma load_prefix n hv buf vs0 vs : decodeVersions n (load_version hv) buf vs0 = (Ok (), vs) → vs0 `prefix_of` vs.
Proof.
  revert buf vs0. induction n as [|n IH]; intros buf vs0; cbn [decodeVersions]; [by intros [= <-]|]. unfold mbind_ok.
  destruct (ReadBytesZC buf) as [[h b1]|]; [|done]. cbn [read]. destruct (ReadBytesZC b1) as [[m b2]|]; [|done]. cbn [read]. unfold load_version at 1.
  destruct (header_unmarshalV hv h) as [[hd r]|]; [|done]. intros Hp%IH. by apply prefix_app_l in Hp.
Qed.

(** The two loops go through the same versions. *)
Lemma lookup_same volume path versionID uv hv mv n buf vs0 vs st :
  decodeVersions n (load_version hv) buf vs0 = (Ok (), vs0 ++ vs) →
  match lookup_loop volume path versionID uv mv st vs with
  | Ok st' => decodeVersions n (buf_lookup volume path versionID uv hv mv) buf st = (Ok (), st')
  | Err e => ∃ st', decodeVersions n (buf_lookup volume path versionID uv hv mv) buf st = (Err e, st') ∧ l_found st' ≠ None
  | Panic w => ∃ st', decodeVersions n (buf_lookup volume path versionID uv hv mv) buf st = (Panic w, st')
  end.
Proof.
  revert buf vs0 vs st. induction n as [|n IH]; intros buf vs0 vs st; cbn [decodeVersions].
  { intros [= Hvs]. rewrite <- (app_nil_r vs0) in Hvs at 1. by apply app_inv_head in Hvs as <-. }
  unfold mbind_ok. destruct (ReadBytesZC buf) as [[h b1]|]; [|done]. cbn [read]. destruct (ReadBytesZC b1) as [[m b2]|]; [|done]. cbn [read]. unfold load_version at 1, buf_lookup at 1 3 5.
  destruct (header_unmarshalV hv h) as [[hd r]|]; [|done]. intros Hl. pose proof (load_length _ _ _ _ _ Hl) as Hlen. rewrite !length_app in Hlen. cbn [length] in Hlen.
  destruct vs as [|v vs]; [cbn in Hlen; lia|]. assert (v = mkShallow hd m) as ->.
  { assert ((vs0 ++ [mkShallow hd m]) `prefix_of` (vs0 ++ v :: vs)) as [k Hk] by (by eapply load_prefix).
    rewrite <- app_assoc in Hk. apply app_inv_head in Hk. cbn in Hk. congruence. }
  cbn [lookup_loop]. destruct (lookup_step volume path versionID uv mv st (mkShallow hd m)) as [st1|e|w]; cbn [obind].
  - apply (IH b2 (vs0 ++ [mkShallow hd m]) vs st1). by rewrite <- app_assoc.
  - eexists. split; [done|]. done.
  - by eexists.
Qed.

Lemma ToFileInfo_plain volume path ver fi :
  ver_ToFileInfo volume path ver = Ok fi → fi_IsLatest fi = false ∧ fi_SuccessorModTime fi = 0 ∧ fi_ModTime fi = getModTime ver.
Proof.
  destruct ver as [o|d|m|t]; cbn [ver_ToFileInfo getModTime].
  - unfold o_ToFileInfo. destruct (parts_from o 0 (o_PartNumbers o)); [|done]. destruct (_ && _); [done|]. by intros [= <-].
  - by intros [= <-].
  - unfold v1_ToFileInfo. destruct (negb _); [done|]. by intros [= <-].
  - by destruct (VersionType_valid t).
Qed.

(** All versions are valid ones. *)
Definition all_valid mv (vs : list (xlMetaV2ShallowVersion bytes)) : Prop := Forall (λ v, ∀ ver, unmarshalV mv (meta v) = Ok ver → Valid ver = true) vs.

Lemma list_same volume path hv mv N n buf vs0 vs st :
  decodeVersions n (load_version hv) buf vs0 = (Ok (), vs0 ++ vs) → all_valid mv vs → (ls_latest st = true → ls_succ st = 0) →
  match file_infos volume path mv vs with
  | Ok fis => ∃ st', decodeVersions n (buf_list volume path N mv) buf st = (Ok (), st') ∧ ls_fis st' = ls_fis st ++ number_versions (ls_latest st) N (ls_succ st) fis
  | Err e => ∃ st', decodeVersions n (buf_list volume path N mv) buf st = (Err e, st')
  | Panic w => ∃ st', decodeVersions n (buf_list volume path N mv) buf st = (Panic w, st')
  end.
Proof.
  revert buf vs0 vs st. induction n as [|n IH]; intros buf vs0 vs st; cbn [decodeVersions].
  { intros [= Hvs]. rewrite <- (app_nil_r vs0) in Hvs at 1. apply app_inv_head in Hvs as <-. intros _ _. cbn. eexists. split; [done|]. by rewrite app_nil_r. }
  unfold mbind_ok. destruct (ReadBytesZC buf) as [[h b1]|]; [|done]. cbn [read]. destruct (ReadBytesZC b1) as [[m b2]|]; [|done]. cbn [read]. unfold load_version at 1.
  destruct (header_unmarshalV hv h) as [[hd r]|]; [|done]. intros Hl Hval Hst. pose proof (load_length _ _ _ _ _ Hl) as Hlen. rewrite !length_app in Hlen. cbn [length] in Hlen.
  destruct vs as [|v vs]; [cbn in Hlen; lia|]. assert (v = mkShallow hd m) as ->.
  { assert ((vs0 ++ [mkShallow hd m]) `prefix_of` (vs0 ++ v :: vs)) as [k Hk] by (by eapply load_prefix).
    rewrite <- app_assoc in Hk. apply app_inv_head in Hk. cbn in Hk. congruence. }
  apply Forall_cons in Hval as [Hv Hval]. cbn [meta] in Hv. unfold buf_list at 1 3 5. cbn [file_infos meta].
  destruct (unmarshalV mv m) as [ver|e|w]; cbn [obind]; [|by eexists..]. rewrite (Hv ver eq_refl). cbn [negb].
  destruct (ver_ToFileInfo volume path ver) as [fi|e|w] eqn:Efi; cbn [obind]; [|by eexists..]. destruct (ToFileInfo_plain _ _ _ _ Efi) as (Hlat & Hsu & Hmt).
  specialize (IH b2 (vs0 ++ [mkShallow hd m]) vs (mkLS false (getModTime ver) (ls_fis st ++ [set_reported (ls_latest st) N (ls_succ st) fi]))).
  rewrite <- app_assoc in IH. specialize (IH Hl Hval ltac:(done)). destruct (file_infos volume path mv vs) as [fis|e|w]; cbn [obind]; [|done|done].
  destruct IH as (st' & Hd & Hf). exists st'. split; [done|]. rewrite Hf. cbn [ls_fis ls_latest ls_succ number_versions]. rewrite <- app_assoc. cbn [app].
  rewrite Hlat, Hsu, Hmt, orb_false_r. destruct (ls_latest st) eqn:El; [by rewrite (Hst eq_refl)|done].
Qed.

Lemma file_infos_length volume path mv (vs : list (xlMetaV2ShallowVersion bytes)) fis : file_infos volume path mv vs = Ok fis → length fis = length vs.
Proof.
  revert fis. induction vs as [|v vs IH]; intros fis; cbn [file_infos]; [by intros [= <-]|]. destruct (unmarshalV mv (meta v)); cbn [obind]; try done.
  destruct (ver_ToFileInfo _ _ _); cbn [obind]; try done. destruct (file_infos volume path mv vs); cbn [obind]; try done. intros [= <-]. cbn. by rewrite (IH _ eq_refl).
Qed.

(** What loading says about the block. *)
Lemma loadIndexed_inv meta inline x :
  loadIndexed meta inline = Ok x →
  ∃ hv buf, decodeXLHeaders meta = Ok (zlen (versions x), hv, metaV x, buf) ∧ decodeVersions (length (versions x)) (load_version hv) buf [] = (Ok (), versions x).
Proof.
  unfold loadIndexed. destruct (decodeXLHeaders meta) as [[[[n hv] mv] buf]|e|w] eqn:Ed; cbn [obind]; [|done|done].
  destruct (decodeVersions (Z.to_nat n) (load_version hv) buf []) as [[[]|e|w] vs] eqn:El; [|done|done]. intros [= <-]. cbn [versions metaV].
  assert (0 ≤ n) as Hn.
  { unfold decodeXLHeaders in Ed. destruct (read (ReadUint8Bytes meta)) as [[h b1]|?|?]; try done. cbn [obind] in Ed. destruct (read (ReadUint8Bytes b1)) as [[m b2]|?|?]; try done.
    cbn [obind] in Ed. destruct (xlHeaderVersion <? h); [done|]. destruct (xlMetaVersion <? m); [done|]. destruct (read (ReadIntBytes b2)) as [[k b3]|?|?]; try done.
    cbn [obind] in Ed. destruct (k <? 0) eqn:Ek; [done|]. injection Ed as -> _ _ _. by apply Z.ltb_ge. }
  pose proof (load_length _ _ _ _ _ El) as Hlen. cbn [length Nat.add] in Hlen. exists hv, buf. unfold zlen. rewrite Hlen, Z2Nat.id by done. done.
Qed.

Lemma buf_ToFileInfo_same volume path versionID meta inline x :
  loadIndexed meta inline = Ok x → buf_ToFileInfo volume path versionID meta = xl_ToFileInfo volume path versionID x.
Proof.
  intros (hv & buf & Hd & El)%loadIndexed_inv. unfold buf_ToFileInfo, xl_ToFileInfo. destruct (request_id versionID) as [uv|]; [|done]. rewrite Hd. cbn [obind].
  unfold zlen at 1. rewrite Nat2Z.id.
  pose proof (lookup_same volume path versionID uv hv (metaV x) _ buf [] (versions x) (mkLook 0 true (zlen (versions x)) None) El) as Hs.
  destruct (lookup_loop volume path versionID uv (metaV x) _ (versions x)) as [st|e|w]; cbn [obind].
  - rewrite Hs. by destruct (l_found st).
  - destruct Hs as (st' & -> & Hne). by destruct (l_found st').
  - destruct Hs as (st' & ->). done.
Qed.

Lemma buf_ListVersions_same volume path meta inline x :
  loadIndexed meta inline = Ok x → all_valid (metaV x) (versions x) → buf_ListVersions volume path meta = ListVersions volume path x.
Proof.
  intros (hv & buf & Hd & El)%loadIndexed_inv Hval. unfold buf_ListVersions, ListVersions. rewrite Hd. cbn [obind]. unfold zlen at 1. rewrite Nat2Z.id.
  pose proof (list_same volume path hv (metaV x) (zlen (versions x)) _ buf [] (versions x) (mkLS true 0 []) El Hval ltac:(done)) as Hs.
  destruct (file_infos volume path (metaV x) (versions x)) as [fis|e|w] eqn:Ef; cbn [obind].
  - destruct Hs as (st' & -> & Hf). rewrite Hf. cbn [ls_fis ls_latest ls_succ app]. apply file_infos_length in Ef. unfold zlen. by rewrite Ef.
  - destruct Hs as (st' & ->). done.
  - destruct Hs as (st' & ->). done.
Qed.

(** *** The file without its data *)

(** The first 13 bytes, and all up to the data. *)
Definition file_start x : bytes := xlHeader ++ xlVersionCurrent ++ (xc6 :: be_bytes 4 (uint32 (zlen (version_block x)))).
Definition file_meta x : bytes := file_start x ++ version_block x ++ (xce :: be_bytes 4 (uint32 (xxhash_Sum64 (version_block x)))).

Lemma file_start_length x : length (file_start x) = 13%nat.
Proof. unfold file_start. rewrite !length_app. cbn [length]. rewrite be_bytes_length. done. Qed.

Lemma file_meta_length x : length (file_meta x) = (18 + length (version_block x))%nat.
Proof. unfold file_meta. rewrite !length_app, file_start_length. cbn [length]. rewrite be_bytes_length. lia. Qed.

Lemma AppendTo_split x buf : AppendTo [] x = Ok buf → buf = file_meta x ++ data x.
Proof.
  unfold AppendTo. destruct (validate (data x)); [done|]. intros Hb. cbv zeta in Hb. match type of Hb with Ok ?b = _ => assert (buf = b) as -> by congruence end.
  unfold file_meta, file_start. by rewrite <- !app_assoc.
Qed.

Lemma check_start x rest : checkXL2V1 (file_start x ++ rest) = Ok ((xc6 :: be_bytes 4 (uint32 (zlen (version_block x)))) ++ rest, 1, 3).
Proof. unfold file_start. rewrite <- !app_assoc. by apply check_current. Qed.

Lemma block_uint32 x : file_fits x → uint32 (zlen (version_block x)) = zlen (version_block x).
Proof. intros Hf. apply Z.mod_small. pose proof (ff_block _ Hf). unfold zlen, max_uint32 in *. lia. Qed.

Lemma trim_file x : file_fits x → xlMetaV2TrimData (file_meta x ++ data x) = file_meta x.
Proof.
  intros Hf. unfold xlMetaV2TrimData. unfold file_meta at 1. rewrite <- !app_assoc, check_start, (block_uint32 x Hf). cbn [Z.eqb Pos.eqb andb app].
  rewrite read_bin32 by apply Hf. cbn [app]. rewrite read_uint32 by apply uint32_range. change ((1 <? 3) || (2 <=? 1)) with true. cbv iota.
  assert (zlen (file_meta x ++ data x) - zlen (data x) = zlen (file_meta x)) as -> by (unfold zlen; rewrite length_app; lia).
  rewrite (proj2 (Z.ltb_ge _ _)) by (unfold zlen; rewrite length_app; lia). unfold zlen. rewrite Nat2Z.id. apply take_app_length.
Qed.

Lemma readMore_enough r size hasFull buf n :
  size = zlen r → (hasFull = true → buf = r) → (∃ k, buf = take k r) → 0 ≤ n ≤ size →
  ∃ k, readMore r size hasFull buf n = Ok (take k r) ∧ (Z.to_nat n ≤ k)%nat.
Proof.
  intros -> Hfull [k ->] Hn. unfold readMore. destruct (n <=? zlen (take k r)) eqn:E1.
  - exists k. split; [done|]. apply Z.leb_le in E1. unfold zlen in E1. rewrite length_take in E1. lia.
  - apply Z.leb_gt in E1. destruct hasFull.
    { rewrite (Hfull eq_refl) in E1. lia. }
    rewrite (proj2 (Z.ltb_ge _ n)) by lia. cbn [orb]. by exists (Z.to_nat n).
Qed.

Lemma read_no_data x : file_fits x → readXLMetaNoData (file_meta x ++ data x) (zlen (file_meta x ++ data x)) = Ok (file_meta x).
Proof.
  intros Hf. set (r := file_meta x ++ data x). pose proof (file_meta_length x) as Hl. assert (18 + zlen (version_block x) ≤ zlen r) as Hr by (unfold r, zlen; rewrite length_app; lia).
  assert (0 ≤ zlen (version_block x)) as Hb0 by (unfold zlen; lia). unfold readXLMetaNoData. set (initial := if metaDataReadDefault <? zlen r then _ else _).
  assert (13 ≤ initial ≤ zlen r ∧ ((zlen r <=? metaDataReadDefault) = true → initial = zlen r)) as [Hi Hfull].
  { subst initial. unfold metaDataReadDefault. destruct (4096 <? zlen r) eqn:E; destruct_bools; split; try lia; intros ?%Z.leb_le; lia. }
  rewrite (proj2 (Z.ltb_ge _ _)) by lia.
  assert (∃ r0, take (Z.to_nat initial) r = file_start x ++ r0) as [r0 Hr0].
  { unfold r, file_meta. rewrite <- !app_assoc, take_app_ge by (rewrite file_start_length; lia). by eexists. }
  cbv zeta. rewrite Hr0, check_start, (block_uint32 x Hf). cbn [Z.eqb Pos.eqb negb andb Z.leb Z.compare Pos.compare Pos.compare_cont app].
  rewrite read_bin32_header by (pose proof (ff_block _ Hf); lia). cbn [read obind].
  assert (zlen (file_start x ++ r0) - zlen r0 = 13) as -> by (unfold zlen; rewrite length_app, file_start_length; lia). change (3 <? 2) with false. cbv iota.
  assert ((if zlen r <? zlen (version_block x) + 13 + 5 then zlen r else zlen (version_block x) + 13 + 5) = zlen (version_block x) + 18) as ->.
  { destruct (zlen r <? _) eqn:E; destruct_bools; lia. }
  rewrite <- Hr0. destruct (readMore_enough r (zlen r) (zlen r <=? metaDataReadDefault) (take (Z.to_nat initial) r) (zlen (version_block x) + 18)) as (k & -> & Hk);
    [done| |by eexists|lia|].
  { intros Hh. rewrite (Hfull Hh). unfold zlen. rewrite Nat2Z.id. apply firstn_all. }
  cbn [obind]. assert (take k r = file_meta x ++ take (k - length (file_meta x)) (data x)) as Htk by (unfold r; rewrite take_app_ge; [done|unfold zlen in Hk; lia]). rewrite Htk.
  rewrite (proj2 (Z.ltb_ge _ _)) by (unfold zlen; rewrite length_app; lia). set (rest := take _ (data x)).
  assert (drop (Z.to_nat (zlen (version_block x) + 13)) (file_meta x ++ rest) = (xce :: be_bytes 4 (uint32 (xxhash_Sum64 (version_block x)))) ++ rest) as ->.
  { unfold file_meta. rewrite !app_assoc, <- (app_assoc _ _ rest). apply drop_app_length'. rewrite length_app, file_start_length. unfold zlen. lia. }
  cbn [app]. rewrite read_uint32 by apply uint32_range. cbn [read obind]. f_equal. apply take_app_length'. rewrite Hl. unfold zlen. cbn [length]. rewrite length_app, be_bytes_length. lia.
Qed.

End Files.

(** ** Theorems *)

Section Theorems.
Context `{MsgpLaws} `{!LegacyCodec} `{!LegacyCodecLaws} `{!Hashes} `{!UUID} `{!UUIDLaws} `{!LegacyJSON}.

(** C17: a journal that is written to a file is loaded from it: with the same versions in the same order, the
    same headers and the same inline data, and with the current version of the metadata, whichever it had. [AppendTo] leaves what the
    buffer had before in place, and fails exactly when the inline data is not valid. The journal has less than 2^63 versions, and
    the lengths of its versions and of the block of all versions, and the numbers in its headers, fit the format. *)
Theorem journal_file_roundtrip now dst (x : xlMetaV2 bytes) :
  (validate (data x) ≠ None → AppendTo dst x = Err (OtherErr "xlMetaInlineData")) ∧
  (file_fits x → ∃ buf, AppendTo dst x = Ok (dst ++ buf) ∧ isXL2V1Format buf = true ∧ Load now buf = Ok (mkXL (versions x) (data x) xlMetaVersion)).
Proof.
  split; [unfold AppendTo; by destruct (validate (data x))|]. intros Hf. assert (∃ buf, AppendTo [] x = Ok buf) as [buf Hb] by (unfold AppendTo; rewrite (ff_data _ Hf); by eexists).
  exists buf. split.
  - unfold AppendTo in *. rewrite (ff_data _ Hf) in *. cbv zeta in *. match type of Hb with Ok ?b = _ => assert (buf = b) as -> by congruence end. done.
  - split; [|unfold Load; rewrite (indexed_file x buf Hf Hb); by apply loadIndexed_block].
    unfold AppendTo in Hb. rewrite (ff_data _ Hf) in Hb. cbv zeta in Hb. match type of Hb with Ok ?b = _ => assert (buf = b) as -> by congruence end.
    unfold isXL2V1Format. by rewrite app_nil_l, check_current.
Qed.

(** C18: where the journal of a file can be loaded, reading a version straight from the bytes gives what looking it up in the loaded
    journal gives, be it the version or an error; and listing the versions straight from the bytes gives what listing those of the
    loaded journal gives, if every version that can be decoded is a valid one (the listing from the bytes refuses others, the listing of a
    loaded journal does not). *)
Theorem read_from_bytes_same volume path versionID meta inline (x : xlMetaV2 bytes) :
  loadIndexed meta inline = Ok x →
  buf_ToFileInfo volume path versionID meta = xl_ToFileInfo volume path versionID x ∧
  (all_valid (metaV x) (versions x) → buf_ListVersions volume path meta = ListVersions volume path x).
Proof.
  intros Hl. split; [by eapply buf_ToFileInfo_same|by eapply buf_ListVersions_same].
Qed.

(** A version that is added to a journal and written to the file is found there with everything that was given, its
    inline data included, if its ID is spelled in the canonical way. *)
Theorem added_version_in_file now fi (x x' : xlMetaV2 bytes) uv dd buf volume path :
  journal_ok x → plain_request fi → fi_VersionID fi = version_id_string uv → uuid_range uv → request_dir fi = Some dd → uuid_String uv ≠ nullVersionID →
  Valid (version_of uv dd fi) = true → version_fits (version_of uv dd fi) →
  validate (data x) = None → entries (data x) < max_uint32 → zlen (string_bytes (fi_VersionID fi)) ≤ max_uint32 → zlen (fi_Data fi) ≤ max_uint32 →
  AddVersion now fi x = (Ok (), x') → file_fits x' → AppendTo [] x' = Ok buf →
  ∃ fi', getFileInfo now buf volume path (if String.eqb (fi_VersionID fi) "" then nullVersionID else fi_VersionID fi) true = Ok fi' ∧ read_back uv dd fi fi' ∧
    (fi_Deleted fi = false → fi_Data fi ≠ [] → fi_Data fi' = fi_Data fi).
Proof.
  intros Hx Hp Hid Hu Hdd Hnull Hv Hf Hval Hent Hlk Hld Hadd Hff Hbuf.
  assert (request_id (fi_VersionID fi) = Some uv) as Huv.
  { rewrite Hid. unfold request_id, version_id_string. destruct (Z.eqb_spec uv 0) as [->|Hne]; [done|].
    rewrite (proj2 (String.eqb_neq _ _) (String_not_empty uv)), (proj2 (String.eqb_neq _ _) Hnull). by apply parse_String. }
  set (versionID := if String.eqb (fi_VersionID fi) "" then nullVersionID else fi_VersionID fi).
  assert (versionID ≠ "" ∧ request_id versionID = Some uv) as [Hne Hrq].
  { subst versionID. destruct (String.eqb_spec (fi_VersionID fi) "") as [E|E]; [|done]. rewrite E in Huv. done. }
  destruct (AddVersion_ok now fi x uv dd Hx Huv Hdd Hv Hf) as (x1 & Ha & Hx' & Hd & Hb). assert (x1 = x') as -> by congruence.
  destruct (version_back volume path uv dd fi Hp) as (fi1 & Hfi & Hrb & _).
  assert (by_id (versions x') !! uv = Some (shallow_of now (version_of uv dd fi))) as Hl by (by rewrite Hb, lookup_insert_eq).
  assert (UnmarshalMsg (meta (shallow_of (B := bytes) now (version_of uv dd fi))) = Some (version_of uv dd fi)) as Hum by (cbn [meta shallow_of]; by apply unmarshal_marshal).
  destruct (ToFileInfo_version volume path versionID uv x' _ _ fi1 Hx' Hne Hrq Hl Hum Hfi) as (pre & post & _ & Hread).
  unfold getFileInfo. rewrite (indexed_file x' buf Hff Hbuf).
  rewrite (buf_ToFileInfo_same volume path versionID _ _ _ (loadIndexed_block x' Hff)), ToFileInfo_as_written, Hread by apply Hx'. cbn [obind negb]. eexists. split; [done|]. split; [by destruct Hrb; split|]. intros Hdel Hne'.
  set (fir := set_reported _ _ _ _). assert (fi_VersionID fir = fi_VersionID fi1) as Hfv by done. rewrite Hfv, (rb_VersionID _ _ _ _ Hrb), <- Hid. fold versionID.
  assert (XLInline.find (data x') (string_bytes versionID) = Some (fi_Data fi)) as Hfind.
  { rewrite Hd. unfold stored_data. rewrite Hdel. fold versionID. cbn [negb andb]. rewrite (proj2 (Z.ltb_lt _ _)) by (unfold zlen; destruct (fi_Data fi); [done|cbn; lia]). cbn [orb].
    destruct (inline_replace (data x) (string_bytes versionID) (fi_Data fi)) as [_ ->]; [done|done| | |done|by rewrite decide_True].
    - intros Hnil. apply Hne. rewrite <- (String.string_of_list_byte_of_string versionID). unfold string_bytes in Hnil. by rewrite Hnil.
    - subst versionID. by destruct (String.eqb (fi_VersionID fi) ""). }
  rewrite Hfind. cbn [default from_option fi_Data set_data]. unfold id. destruct (fi_Data fi) eqn:Edata; [done|]. done.
Qed.

(** The file without its inline data: cutting it off, and reading only what comes before it, give
    the same bytes; they load as the same journal without data. *)
Theorem file_without_data now (x : xlMetaV2 bytes) buf :
  file_fits x → AppendTo [] x = Ok buf →
  readXLMetaNoData buf (zlen buf) = Ok (xlMetaV2TrimData buf) ∧ xlMetaV2TrimData buf ++ data x = buf ∧
  Load now (xlMetaV2TrimData buf) = Ok (mkXL (versions x) [] xlMetaVersion).
Proof.
  intros Hf ->%AppendTo_split. rewrite trim_file, read_no_data by done. split; [done|]. split; [done|].
  pose (x0 := mkXL (versions x) [] (metaV x)). assert (file_fits x0) as Hf0 by (destruct Hf; split; done).
  assert (AppendTo [] x0 = Ok (file_meta x)) as Ha.
  { unfold AppendTo. cbn [data x0]. change (validate []) with (@None inline_error). cbv iota zeta. by f_equal. }
  unfold Load. rewrite (indexed_file x0 _ Hf0 Ha). by apply loadIndexed_block.
Qed.

End Theorems.

(** ** Examples *)

(** No objects of the old format, and hash functions for examples. *)
#[local] Instance no_legacy : LegacyCodec := {| v1_MarshalMsg _ := []; v1_UnmarshalMsg _ := None; v1_Fits _ := False |}.
#[local] Instance no_legacy_laws : LegacyCodecLaws.
Proof. done. Qed.
#[local] Instance demo_hashes : Hashes := {| xxhash_Sum64 b := zlen b * 1000003; xxh3_Hash b := be_val b mod 2 ^ 64 |}.
#[local] Instance demo_json : LegacyJSON := {| json_Unmarshal _ := None |}.

Definition file_journal (id : string) : xlMetaV2 bytes := run demo_now (RAdd (demo_fi [x61; x62; x63] id 100)) (mkXL [] [] 1).

(** The version ID in capitals is accepted; the data is stored under the ID as it is spelled. *)
Definition upper_id : string := "0000000A-0000-0000-0000-000000000001".

(** An object that is stored under an ID in capitals is found, but without its inline data, which is looked for under the ID in small letters. *)
Lemma capital_id_loses_data :
  request_id upper_id ≠ None ∧
  ∃ buf fi, AppendTo [] (file_journal upper_id) = Ok buf ∧ getFileInfo demo_now buf "bucket" "object" upper_id true = Ok fi ∧ fi_Size fi = 3 ∧ fi_Data fi = [].
Proof.
  split; [vm_compute; discriminate|]. eexists _, _. split; [vm_compute; reflexivity|]. split; [vm_compute; reflexivity|]. split; vm_compute; reflexivity.
Qed.

Definition demo_file : xlMetaV2 bytes := file_journal demo_id.

Lemma empty_file_ok : journal_ok (B := bytes) (mkXL [] [] 1).
Proof. split; [constructor|constructor|constructor|by right]. Qed.

(** The version [demo_file] has, and its bytes. *)
Lemma demo_file_fits : file_fits demo_file.
Proof.
  split; [vm_compute; reflexivity|vm_compute; discriminate| |vm_compute; discriminate].
  assert (versions demo_file = [shallow_of demo_now (version_of 1 170 (demo_fi [x61; x62; x63] demo_id 100))]) as -> by (vm_compute; reflexivity).
  constructor; [|constructor]. split; [|split; vm_compute; discriminate].
  split; vm_compute; split; discriminate || reflexivity.
Qed.

Lemma demo_file_bytes : AppendTo [] demo_file = Ok (file_meta demo_file ++ data demo_file).
Proof. vm_compute. reflexivity. Qed.

Lemma demo_file_loads : loadIndexed (version_block demo_file) (data demo_file) = Ok demo_file.
Proof. vm_compute. reflexivity. Qed.

Lemma journal_file_roundtrip_witness : ∃ buf, AppendTo [x61] demo_file = Ok (x61 :: buf) ∧ isXL2V1Format buf = true ∧ Load demo_now buf = Ok demo_file.
Proof. exact (proj2 (journal_file_roundtrip demo_now [x61] demo_file) demo_file_fits). Defined.

Lemma read_from_bytes_same_witness :
  buf_ToFileInfo "bucket" "object" demo_id (version_block demo_file) = xl_ToFileInfo "bucket" "object" demo_id demo_file ∧
  (all_valid (metaV demo_file) (versions demo_file) →
   buf_ListVersions "bucket" "object" (version_block demo_file) = ListVersions "bucket" "object" demo_file).
Proof. exact (read_from_bytes_same "bucket" "object" demo_id _ _ demo_file demo_file_loads). Defined.

Lemma file_without_data_witness :
  readXLMetaNoData (file_meta demo_file ++ data demo_file) (zlen (file_meta demo_file ++ data demo_file))
    = Ok (xlMetaV2TrimData (file_meta demo_file ++ data demo_file)) ∧
  xlMetaV2TrimData (file_meta demo_file ++ data demo_file) ++ data demo_file = file_meta demo_file ++ data demo_file ∧
  Load demo_now (xlMetaV2TrimData (file_meta demo_file ++ data demo_file)) = Ok (mkXL (versions demo_file) [] xlMetaVersion).
Proof. exact (file_without_data demo_now demo_file _ demo_file_fits demo_file_bytes). Defined.

Definition demo_request : FileInfo := demo_fi [x61; x62; x63] demo_id 100.

Lemma demo_request_added : AddVersion demo_now demo_request (mkXL (B := bytes) [] [] 1) = (Ok (), demo_file).
Proof. vm_compute. reflexivity. Qed.

Lemma demo_maps_fit (m : gmap string string) :
  (zlen (map_to_list m) <=? max_uint32) && forallb (λ kv, (zlen (string_bytes kv.1) <=? max_uint32) && (zlen (string_bytes kv.2) <=? max_uint32)) (map_to_list m) = true →
  small_map m.
Proof.
  rewrite andb_true_iff, Z.leb_le, forallb_forall. intros [Hn Hall]. split; [unfold zlen in Hn; by rewrite length_map_to_list in Hn|]. intros k v Hkv.
  specialize (Hall (k, v)). rewrite andb_true_iff, !Z.leb_le in Hall. apply Hall. apply list_elem_of_In. by apply elem_of_map_to_list.
Qed.

Lemma demo_request_fits : version_fits (version_of 1 170 demo_request).
Proof.
  cbn [version_fits version_of].
  split;
    match goal with
    | |- small_map _ => apply demo_maps_fit; vm_compute; reflexivity
    | |- _ ∧ Forall _ _ => split; [vm_compute; discriminate|]; repeat constructor; vm_compute; discriminate || reflexivity
    | _ => split; vm_compute; discriminate || reflexivity
    end.
Qed.

Lemma added_version_in_file_witness :
  ∃ fi', getFileInfo demo_now (file_meta demo_file ++ data demo_file) "bucket" "object" demo_id true = Ok fi' ∧ read_back 1 170 demo_request fi' ∧
    (false = false → [x61; x62; x63] ≠ [] → fi_Data fi' = [x61; x62; x63]).
Proof.
  apply (added_version_in_file demo_now demo_request (mkXL [] [] 1) demo_file 1 170 (file_meta demo_file ++ data demo_file) "bucket" "object");
    [exact empty_file_ok|apply demo_plain; done|vm_compute; reflexivity|done|vm_compute; reflexivity|vm_compute; discriminate
    |vm_compute; reflexivity|exact demo_request_fits|done|done|done|done|exact demo_request_added|exact demo_file_fits|exact demo_file_bytes].
Defined.
