(* ===== verification/HttpRange.v ===== *)
(** * HTTP range requests (cmd/httprange.go, cmd/copy-part-range.go) *)

From Stdlib Require Import ZArith Lia Bool Ascii.
From S2P Require Import Prelude GoStrings.

Local Open Scope Z_scope.

Definition byteRangePrefix : string := "bytes=".

(** The errors of the package, up to their texts. *)
Inductive range_error :=
  | ErrNoPrefix | ErrNoRangeValue | ErrSign | ErrFirstByte | ErrFirstNegative
  | ErrLastByte | ErrLastNegative | ErrInvalidRange | ErrInvalidRangeSource
  | ErrNegativeSize | ErrUnexpectedSpec.

#[export] Instance range_error_eq_dec : EqDecision range_error.
Proof. solve_decision. Defined.

Record HTTPRangeSpec := mkRange { IsSuffixLength : bool; Start : Z; End_ : Z }.

#[export] Instance HTTPRangeSpec_eq_dec : EqDecision HTTPRangeSpec.
Proof. solve_decision. Defined.

(** [None] is a nil receiver. *)
Definition GetLength (h : option HTTPRangeSpec) (resourceSize : Z) : outcome range_error Z :=
  if resourceSize <? 0 then Err ErrNegativeSize
  else match h with
  | None => Ok resourceSize
  | Some h =>
      if IsSuffixLength h then
        let specifiedLen := wrap64 (- Start h) in
        Ok (if resourceSize <? specifiedLen then resourceSize else specifiedLen)
      else if resourceSize <=? Start h then Err ErrInvalidRange
      else if -1 <? End_ h then
        let last := if resourceSize <=? End_ h then wrap64 (resourceSize - 1) else End_ h in
        Ok (wrap64 (wrap64 (last - Start h) + 1))
      else if End_ h =? -1 then Ok (wrap64 (resourceSize - Start h))
      else Err ErrUnexpectedSpec
  end.

Definition GetOffsetLength (h : option HTTPRangeSpec) (resourceSize : Z)
    : outcome range_error (Z * Z) :=
  match h with
  | None => Ok (0, resourceSize)
  | Some h =>
      match GetLength (Some h) resourceSize with
      | Err e => Err e
      | Panic w => Panic w
      | Ok length =>
          let start :=
            if IsSuffixLength h then
              let s := wrap64 (resourceSize + Start h) in if s <? 0 then 0 else s
            else Start h in
          Ok (start, length)
      end
  end.

(** One of the two numbers of a range: absent is -1. *)
Definition parseOffset (bad negative : range_error) (s : string) : outcome range_error Z :=
  match s with
  | EmptyString => Ok (-1)
  | String a _ =>
      if Ascii.eqb a "+"%char then Err ErrSign
      else match ParseInt s with
      | None => Err bad
      | Some v => if v <? 0 then Err negative else Ok v
      end
  end.

Definition parseRequestRangeSpec (rangeString : string) : outcome range_error HTTPRangeSpec :=
  if negb (HasPrefix rangeString byteRangePrefix) then Err ErrNoPrefix
  else
    let byteRangeString := TrimPrefix rangeString byteRangePrefix in
    match index_char "-"%char byteRangeString with
    | None => Err ErrNoRangeValue
    | Some sepIndex =>
        obind (parseOffset ErrFirstByte ErrFirstNegative (str_take sepIndex byteRangeString))
          (λ offsetBegin,
        obind (parseOffset ErrLastByte ErrLastNegative (str_drop (S sepIndex) byteRangeString))
          (λ offsetEnd,
        if (-1 <? offsetBegin) && (-1 <? offsetEnd) then
          if offsetEnd <? offsetBegin then Err ErrInvalidRange
          else Ok (mkRange false offsetBegin offsetEnd)
        else if -1 <? offsetBegin then Ok (mkRange false offsetBegin (-1))
        else if -1 <? offsetEnd then
          if offsetEnd =? 0 then Err ErrInvalidRange
          else Ok (mkRange true (wrap64 (- offsetEnd)) (-1))
        else Err ErrNoRangeValue))
    end.

(** The [String] method of [*HTTPRangeSpec]. *)
Definition range_String (h : option HTTPRangeSpec) (resourceSize : Z) : string :=
  match h with
  | None => ""
  | Some _ =>
      match GetOffsetLength h resourceSize with
      | Ok (off, length) => itoa off +:+ "-" +:+ itoa (wrap64 (wrap64 (off + length) - 1))
      | _ => ""
      end
  end.

Definition parseCopyPartRangeSpec (rangeString : string) : outcome range_error HTTPRangeSpec :=
  obind (parseRequestRangeSpec rangeString) (λ hrange,
  if IsSuffixLength hrange || (Start hrange <? 0) || (End_ hrange <? 0) then Err ErrInvalidRange
  else Ok hrange).

Definition checkCopyPartRangeWithSize (rs : option HTTPRangeSpec) (resourceSize : Z)
    : option range_error :=
  match rs with
  | None => None
  | Some rs =>
      if IsSuffixLength rs || (resourceSize <=? Start rs) || (resourceSize <=? End_ rs)
      then Some ErrInvalidRangeSource else None
  end.

(** ** Specification *)

(** The specs of the three documented forms. *)
Definition range_wf (h : HTTPRangeSpec) : Prop :=
  if IsSuffixLength h then - max_int64 ≤ Start h < 0 ∧ End_ h = -1
  else 0 ≤ Start h ≤ max_int64 ∧ (End_ h = -1 ∨ Start h ≤ End_ h ≤ max_int64).

(** The byte positions a spec asks for of a resource of the given size. *)
Definition selected (h : HTTPRangeSpec) (size i : Z) : Prop :=
  0 ≤ i < size ∧
  (if IsSuffixLength h then size + Start h ≤ i
   else Start h ≤ i ∧ (End_ h = -1 ∨ i ≤ End_ h)).

(** The header a client sends for a spec. *)
Definition range_header (h : HTTPRangeSpec) : string :=
  byteRangePrefix +:+
  (if IsSuffixLength h then "-" +:+ itoa (- Start h)
   else itoa (Start h) +:+ "-" +:+ (if End_ h =? -1 then "" else itoa (End_ h))).

(** ** Lemmas *)
Lemma ParseInt_range s v : ParseInt s = Some v → in_int64 v.
Proof.
  unfold ParseInt. destruct (match s with EmptyString => _ | _ => _ end) as [neg body].
  destruct body; [done|]. destruct (digits_val _ _); [|done].
  cbv zeta. destruct (_ && _) eqn:E; [|done]. intros [= <-]. destruct_bools. unfold in_int64. lia.
Qed.

Lemma parseOffset_range b n s v : parseOffset b n s = Ok v → -1 ≤ v ≤ max_int64.
Proof.
  unfold parseOffset. destruct s as [|a s]; [intros [= <-]; unfold max_int64; lia|].
  destruct (Ascii.eqb a "+"); [done|]. destruct (ParseInt _) as [z|] eqn:E; [|done].
  apply ParseInt_range in E. unfold in_int64 in E.
  destruct (Z.ltb_spec z 0); [done|]. intros [= <-]. lia.
Qed.

Lemma parseOffset_itoa b n v : 0 ≤ v ≤ max_int64 → parseOffset b n (itoa v) = Ok v.
Proof.
  intros Hv. destruct (itoa_digits v) as (H1 & _ & H3); [lia|]. unfold parseOffset.
  pose proof (ParseInt_itoa v Hv) as Hp. destruct (itoa v) as [|a r] eqn:E; [done|].
  apply andb_true_iff in H1 as [Ha _].
  assert (Ascii.eqb a "+"%char = false) as -> by (apply Ascii.eqb_neq; intros ->; done).
  rewrite Hp. by rewrite (proj2 (Z.ltb_ge v 0)) by lia.
Qed.

(** The parser on a header with the two parts [a] and [b]. *)
Lemma parse_parts a b :
  no_char "-"%char a = true →
  parseRequestRangeSpec (byteRangePrefix +:+ a +:+ "-" +:+ b) =
  obind (parseOffset ErrFirstByte ErrFirstNegative a) (λ x,
  obind (parseOffset ErrLastByte ErrLastNegative b) (λ y,
    if (-1 <? x) && (-1 <? y) then
      if y <? x then Err ErrInvalidRange else Ok (mkRange false x y)
    else if -1 <? x then Ok (mkRange false x (-1))
    else if -1 <? y then if y =? 0 then Err ErrInvalidRange else Ok (mkRange true (wrap64 (- y)) (-1))
    else Err ErrNoRangeValue)).
Proof.
  intros Ha. unfold parseRequestRangeSpec.
  assert (HasPrefix (byteRangePrefix +:+ a +:+ "-" +:+ b) byteRangePrefix = true) as ->
    by apply prefix_app.
  cbn [negb]. rewrite TrimPrefix_app. cbv zeta.
  change ("-" +:+ b) with (String "-" b). rewrite index_char_app by done.
  assert (str_take (String.length a) (a +:+ String "-" b) = a) as -> by apply str_take_app.
  assert (str_drop (S (String.length a)) (a +:+ String "-" b) = b) as ->; [|done].
  clear Ha. induction a; simpl; auto.
Qed.

Lemma parse_wf s h : parseRequestRangeSpec s = Ok h → range_wf h.
Proof.
  unfold parseRequestRangeSpec. case_if; [done|]. destruct (index_char _ _) as [k|]; [|done].
  destruct (parseOffset _ _ (str_take _ _)) as [x| |] eqn:Ex; [|done..]. cbn [obind].
  destruct (parseOffset _ _ (str_drop _ _)) as [y| |] eqn:Ey; [|done..]. cbn [obind].
  apply parseOffset_range in Ex, Ey. unfold range_wf.
  destruct (Z.ltb_spec (-1) x), (Z.ltb_spec (-1) y); cbn [andb].
  - destruct (Z.ltb_spec y x); [done|]. intros [= <-]; cbn. lia.
  - intros [= <-]; cbn. lia.
  - destruct (Z.eqb_spec y 0); [done|]. intros [= <-]; cbn. int64. lia.
  - done.
Qed.

(** ** What the range code promises *)

(** Every range specification survives the trip through the HTTP header: the
    parser reads back exactly what the three documented header forms mean. *)
Theorem range_roundtrip h : range_wf h → parseRequestRangeSpec (range_header h) = Ok h.
Proof.
  destruct h as [suffix s e]. unfold range_wf, range_header; cbn [IsSuffixLength Start End_].
  destruct suffix; intros [Hs He].
  - subst e. change (byteRangePrefix +:+ "-" +:+ itoa (- s)) with (byteRangePrefix +:+ "" +:+ "-" +:+ itoa (- s)).
    rewrite parse_parts, parseOffset_itoa by (done || lia). cbn [obind parseOffset].
    rewrite (proj2 (Z.ltb_lt (-1) (- s))), (proj2 (Z.eqb_neq (- s) 0)) by lia. cbn.
    rewrite Z.opp_involutive. by int64.
  - rewrite parse_parts.
    2: { apply all_digits_no_char; [done|]. apply itoa_digits. lia. }
    rewrite parseOffset_itoa by done. cbn [obind]. rewrite (proj2 (Z.ltb_lt (-1) s)) by lia.
    destruct (Z.eqb_spec e (-1)) as [->|Hne]; [done|].
    destruct He as [|He]; [done|]. rewrite parseOffset_itoa by lia. cbn [obind].
    by rewrite (proj2 (Z.ltb_lt (-1) e)), (proj2 (Z.ltb_ge e s)) by lia.
Qed.

(** [GetOffsetLength] computes exactly the bytes the specification asks for:
    an interval inside the resource that contains a position if and only if it
    is selected. It fails only for a start at or beyond the end, and no [int64]
    operation on the way overflows. *)
Theorem range_selects h size :
  range_wf h → 0 ≤ size ≤ max_int64 →
  match GetOffsetLength (Some h) size with
  | Ok (off, len) =>
      0 ≤ off ∧ 0 ≤ len ∧ off + len ≤ size ∧ ∀ i, off ≤ i < off + len ↔ selected h size i
  | Err e => e = ErrInvalidRange ∧ IsSuffixLength h = false ∧ size ≤ Start h
  | Panic _ => False
  end.
Proof.
  destruct h as [suffix s e]. unfold range_wf, GetOffsetLength, GetLength, selected;
    cbn [IsSuffixLength Start End_]. unfold max_int64 in *. intros Hwf Hsz.
  rewrite (proj2 (Z.ltb_ge size 0)) by lia. destruct suffix; cbv iota in *.
  - int64. destruct (Z.ltb_spec size (- s)), (Z.ltb_spec (size + s) 0); split_and!; intros; lia.
  - destruct (Z.leb_spec size s); [done|].
    destruct (Z.ltb_spec (-1) e).
    + destruct (Z.leb_spec size e); int64; split_and!; intros; lia.
    + rewrite (proj2 (Z.eqb_eq e (-1))) by lia. int64. split_and!; intros; lia.
Qed.

(** A copy-source range that passes both checks of CopyObjectPart denotes
    exactly the bytes from its first to its last offset, all of them inside the
    source. *)
Theorem copy_part_range_inside s h size :
  parseCopyPartRangeSpec s = Ok h → checkCopyPartRangeWithSize (Some h) size = None →
  size ≤ max_int64 →
  0 ≤ Start h ≤ End_ h ∧ End_ h < size ∧
  GetOffsetLength (Some h) size = Ok (Start h, End_ h - Start h + 1).
Proof.
  unfold parseCopyPartRangeSpec, checkCopyPartRangeWithSize.
  destruct (parseRequestRangeSpec s) as [h'| |] eqn:E; [|done..]. cbn [obind].
  destruct (IsSuffixLength h' || _ || _) eqn:Eb; [done|]. intros [= ->].
  destruct (IsSuffixLength h || (size <=? Start h) || (size <=? End_ h)) eqn:Ec; [done|].
  intros _ Hsz. apply parse_wf in E. destruct h as [suffix st e]; unfold range_wf in E;
    cbn [IsSuffixLength Start End_] in *. destruct_bools. subst suffix. destruct E as [Hs [?|He]]; [lia|].
  split_and!; try lia. unfold GetOffsetLength, GetLength; cbn [IsSuffixLength Start End_].
  unfold max_int64 in *.
  rewrite (proj2 (Z.ltb_ge size 0)), (proj2 (Z.leb_gt size st)), (proj2 (Z.ltb_lt (-1) e)),
    (proj2 (Z.leb_gt size e)) by lia. by int64.
Qed.

Lemma range_roundtrip_witness :
  parseRequestRangeSpec (range_header (mkRange false 10 (-1))) = Ok (mkRange false 10 (-1)) ∧
  range_header (mkRange false 10 (-1)) = "bytes=10-".
Proof.
  split; [|done]. apply (range_roundtrip (mkRange false 10 (-1))).
  unfold range_wf, max_int64; cbn. lia.
Defined.

Lemma range_selects_witness :
  match GetOffsetLength (Some (mkRange true (-3) (-1))) 10 with
  | Ok (off, len) =>
      0 ≤ off ∧ 0 ≤ len ∧ off + len ≤ 10 ∧
      ∀ i, off ≤ i < off + len ↔ selected (mkRange true (-3) (-1)) 10 i
  | Err e => e = ErrInvalidRange ∧ true = false ∧ 10 ≤ -3
  | Panic _ => False
  end.
Proof.
  apply (range_selects (mkRange true (-3) (-1)) 10).
  - unfold range_wf, max_int64; cbn. lia.
  - unfold max_int64. lia.
Defined.

Lemma copy_part_range_inside_witness :
  0 ≤ 3 ≤ 10 ∧ 10 < 11 ∧ GetOffsetLength (Some (mkRange false 3 10)) 11 = Ok (3, 10 - 3 + 1).
Proof.
  apply (copy_part_range_inside "bytes=3-10" (mkRange false 3 10) 11).
  - by vm_compute.
  - by vm_compute.
  - unfold max_int64. lia.
Defined.
