(* ===== verification/Dare.v ===== *)
(** * Reading encrypted objects (cmd/encryption-v1.go, internal/ioutil/ioutil.go)

    Encrypted data is a sequence of packages of the format DARE: 64 KiB of content each, except for the last, and 32
    bytes besides. An object that was uploaded in parts is a sequence of such streams, each with a key of
    its own. To read a range of the content the packages that hold it are read, decrypted from the
    first one on, and what comes before the range is skipped. *)

From Stdlib Require Import ZArith Lia Bool Ascii.
From Stdlib.Strings Require Import Byte.
From S2P Require Import Prelude GoStrings SSEMeta Erasure Msgp GoBase64 KMS SSE HttpRange.

Local Open Scope go_scope.
Local Open Scope Z_scope.

Definition SSEDAREPackageBlockSize : Z := 64 * 1024.
Definition SSEDAREPackageMetaSize : Z := 32.

(** ** The library github.com/minio/sio *)

(** Sizes ([None] is an error), and streams: what the encryption of a content is, and what a decrypting reader with
    this key and the number of its first package gives for what it reads. *)
Class Sio := {
  EncryptedSize : Z → option Z;
  DecryptedSize : Z → option Z;
  EncryptStream : bytes → bytes → bytes;
  DecryptStream : bytes → Z → bytes → bytes;
}.

Definition package : Z := SSEDAREPackageBlockSize + SSEDAREPackageMetaSize.

(** The size of the encryption of [n] bytes: 32 bytes for every package that was begun. *)
Definition dare_size (n : Z) : Z := n + SSEDAREPackageMetaSize * ((n + (SSEDAREPackageBlockSize - 1)) / SSEDAREPackageBlockSize).

(** The format has numbers of 32 bits for packages. *)
Definition max_content : Z := SSEDAREPackageBlockSize * 2 ^ 32.

(** What the code relies on: the sizes of the format, inverse to each other; a reader that starts with
    package [i] gives the content of the packages it gets, if it gets whole packages or all that is left. *)
Class SioLaws `{Sio} := {
  encrypted_size n : 0 ≤ n ≤ max_content → EncryptedSize n = Some (dare_size n);
  decrypted_size n : 0 ≤ n ≤ max_content → DecryptedSize (dare_size n) = Some n;
  decrypted_size_inv m n : 0 ≤ m → DecryptedSize m = Some n → 0 ≤ n ≤ max_content ∧ m = dare_size n;
  encrypt_length key p : zlen p ≤ max_content → zlen (EncryptStream key p) = dare_size (zlen p);
  decrypt_from key p i m :
    zlen p ≤ max_content → 0 ≤ i → i * SSEDAREPackageBlockSize ≤ zlen p → 0 ≤ m → (m mod package = 0 ∨ zlen (EncryptStream key p) ≤ i * package + m) →
    DecryptStream key i (slice (EncryptStream key p) (i * package) m) =
      slice p (i * SSEDAREPackageBlockSize) (if zlen (EncryptStream key p) <=? i * package + m then zlen p else m / package * SSEDAREPackageBlockSize);
}.

(** ** Objects *)

(** The fields of [ObjectInfo] that matter here: parts have a number and a size. *)
Record enc_info := mkEncInfo {
  en_Bucket : string;
  en_Name : string;
  en_Size : Z;
  en_ETag : string;
  en_Parts : list (Z * Z);
  en_UserDefined : Metadata;
  en_backendErasure : bool;
}.

Inductive dec_error := SseErr (e : sse_error) | RangeErr (e : range_error) | ReadErr (text : string).

Section Objects.
Context `{Sio}.

Definition isMultipart (o : enc_info) : bool :=
  if (length (en_Parts o) =? 0)%nat then false
  else
    let '(_, encrypted) := IsEncrypted (en_UserDefined o) in
    if encrypted && negb (IsMultiPart (en_UserDefined o)) then false
    else if encrypted && existsb (λ part, match DecryptedSize (to_uint64 part.2) with None => true | Some _ => false end) (en_Parts o) then false
    else negb (en_backendErasure o && (String.length (en_ETag o) =? 32)%nat).

(** [int64] of an unsigned number. *)
Definition to_int64 (z : Z) : Z := wrap64 z.

Fixpoint decrypted_sizes (parts : list (Z * Z)) : outcome dec_error (list Z) :=
  match parts with
  | [] => Ok []
  | part :: parts =>
      match DecryptedSize (to_uint64 part.2) with
      | None => Err (SseErr errObjectTampered)
      | Some partSize => sizes ←? decrypted_sizes parts; Ok (to_int64 partSize :: sizes)
      end
  end.

Definition sum64 (l : list Z) : Z := foldl (λ acc z, wrap64 (acc + z)) 0 l.

Definition oi_DecryptedSize (o : enc_info) : outcome dec_error Z :=
  if negb (IsEncrypted (en_UserDefined o)).2 then Err (SseErr (OtherError "Cannot compute decrypted size of an unencrypted object"))
  else if negb (isMultipart o) then
    match DecryptedSize (to_uint64 (en_Size o)) with Some size => Ok (to_int64 size) | None => Err (SseErr errObjectTampered) end
  else sizes ←? decrypted_sizes (en_Parts o); Ok (sum64 sizes).

(** The loops that look for the part of an offset: its index if it is found, and the sizes of the parts before it, decrypted and encrypted. *)
Fixpoint locate (i : nat) (off cumulativeSum encCumulativeSum : Z) (sizes : list Z) : option nat * Z * Z :=
  match sizes with
  | [] => (None, cumulativeSum, encCumulativeSum)
  | size :: sizes =>
      if off <? wrap64 (cumulativeSum + size) then (Some i, cumulativeSum, encCumulativeSum)
      else locate (S i) off (wrap64 (cumulativeSum + size)) (wrap64 (encCumulativeSum + to_int64 (default 0 (EncryptedSize (to_uint64 size))))) sizes
  end.

Definition lift_range {A} (m : outcome range_error A) : outcome dec_error A :=
  match m with Ok a => Ok a | Err e => Err (RangeErr e) | Panic w => Panic w end.

(** What to read: offset and length of the encrypted bytes, what to skip, the number of the first package, and the index of the first part. *)
Record enc_range := mkEncRange { er_encOff : Z; er_encLength : Z; er_skipLen : Z; er_seqNumber : Z; er_partStart : nat }.

(** From the sizes of the parts and the range of the content. *)
Definition decrypted_range (sizes : list Z) (off length : Z) : outcome dec_error enc_range :=
  let '(start, cumulativeSum, encCumulativeSum) := locate 0 off 0 0 sizes in
  let partStart := default 0%nat start in
  let startPkgNum := wrap64 (off - cumulativeSum) `quot` SSEDAREPackageBlockSize in
  let skipLen := wrap64 (off - cumulativeSum) `rem` SSEDAREPackageBlockSize in
  let encOff := wrap64 (encCumulativeSum + wrap64 (startPkgNum * package)) in
  let endOffset := wrap64 (wrap64 (off + length) - 1) in
  let '(fin, cumulativeSum, encCumulativeSum) := locate partStart endOffset cumulativeSum encCumulativeSum (drop partStart sizes) in
  let partEnd := default 0%nat fin in
  let endPkgNum := wrap64 (endOffset - cumulativeSum) `quot` SSEDAREPackageBlockSize in
  let endEncOffset := wrap64 (encCumulativeSum + wrap64 (wrap64 (endPkgNum + 1) * package)) in
  match sizes !! partEnd with
  | None => Panic "index out of range"
  | Some size =>
      let lastPartSize := to_int64 (default 0 (EncryptedSize (to_uint64 size))) in
      let endEncOffset := if wrap64 (encCumulativeSum + lastPartSize) <? endEncOffset then wrap64 (encCumulativeSum + lastPartSize) else endEncOffset in
      Ok (mkEncRange encOff (wrap64 (endEncOffset - encOff)) skipLen (startPkgNum mod 2 ^ 32) partStart)
  end.

Definition GetDecryptedRange (o : enc_info) (rs : option HTTPRangeSpec) : outcome dec_error enc_range :=
  if negb (IsEncrypted (en_UserDefined o)).2 then Err (SseErr (OtherError "Object is not encrypted"))
  else match rs with
  | None => Ok (mkEncRange 0 (en_Size o) 0 0 0)
  | Some _ =>
      sizes ←? (if isMultipart o then decrypted_sizes (en_Parts o)
                else match DecryptedSize (to_uint64 (en_Size o)) with Some partSize => Ok [to_int64 partSize] | None => Err (SseErr errObjectTampered) end);
      '(off, length) ←? lift_range (GetOffsetLength rs (sum64 sizes));
      decrypted_range sizes off length
  end.

Definition oi_EncryptedSize (o : enc_info) : outcome dec_error Z :=
  match EncryptedSize (to_uint64 (en_Size o)) with Some size => Ok (to_int64 size) | None => Panic "critical error" end.

(** What is stored of a part (internal/crypto/sse.go). *)
Definition EncryptMultiPart `{Primitives} (content : bytes) (partID : Z) (key : bytes) : bytes := EncryptStream (DerivePartKey key partID) content.

(** ** The decrypting reader *)

(** [reader]: what is left of the encrypted bytes after the part that is being read; [decrypter]: what the reader of this part will give. The bytes of
    a part are taken from [reader] when its decrypter is made: the code goes on to the next part only when all of this one has been read. *)
Record DecryptBlocksReader := mkDBR {
  d_reader : bytes;
  d_decrypter : bytes;
  d_startSeqNum : Z;
  d_partIndex : nat;
  d_partDecRelOffset : Z;
  d_partEncRelOffset : Z;
}.

(** The key of the object, and the number and size of every part. *)
Context `{Primitives} (objectKey : bytes) (parts : list (Z * Z)).

Definition buildDecrypter (partID : Z) (d : DecryptBlocksReader) : outcome dec_error DecryptBlocksReader :=
  match parts !! d_partIndex d with
  | None => Panic "index out of range"
  | Some part =>
      let encLenToRead := wrap64 (part.2 - d_partEncRelOffset d) in
      Ok (mkDBR (drop (Z.to_nat encLenToRead) (d_reader d)) (DecryptStream (DerivePartKey objectKey partID) (d_startSeqNum d) (take (Z.to_nat encLenToRead) (d_reader d)))
            (d_startSeqNum d) (d_partIndex d) (d_partDecRelOffset d) (d_partEncRelOffset d))
  end.

(** [Read] of [n] bytes: what it writes to the buffer, the number it returns, and whether it returns [io.EOF].
    A [Read] of the decrypter is taken to fill its buffer unless the stream ends before. *)
Definition dbr_Read (n : Z) (d : DecryptBlocksReader) : outcome dec_error (bytes * Z * bool) * DecryptBlocksReader :=
  match parts !! d_partIndex d with
  | None => (Panic "index out of range", d)
  | Some part =>
      let decPartSize := default 0 (DecryptedSize (to_uint64 part.2)) in
      let unreadPartLen := wrap64 (to_int64 decPartSize - d_partDecRelOffset d) in
      if n <? unreadPartLen then
        let got := take (Z.to_nat n) (d_decrypter d) in
        if (0 <? n) && (zlen got =? 0) then (Err (ReadErr "EOF"), d)
        else (Ok (got, n, false),
              mkDBR (d_reader d) (drop (Z.to_nat n) (d_decrypter d)) (d_startSeqNum d) (d_partIndex d) (wrap64 (d_partDecRelOffset d + zlen got)) (d_partEncRelOffset d))
      else if zlen (d_decrypter d) <? unreadPartLen then (Err (ReadErr "unexpected EOF"), d)
      else
        let got := take (Z.to_nat unreadPartLen) (d_decrypter d) in
        let d' := mkDBR (d_reader d) [] 0 (S (d_partIndex d)) 0 0 in
        match parts !! S (d_partIndex d) with
        | None => (Ok (got, unreadPartLen, true), d')
        | Some part' =>
            match buildDecrypter part'.1 d' with
            | Ok d' =>
                let more := take (Z.to_nat (n - unreadPartLen)) (d_decrypter d') in
                if (0 <? n - unreadPartLen) && (zlen more =? 0) then (Err (ReadErr "EOF"), d')
                else (Ok (got ++ more, n, false),
                      mkDBR (d_reader d') (drop (Z.to_nat (n - unreadPartLen)) (d_decrypter d')) (d_startSeqNum d') (d_partIndex d') (wrap64 (d_partDecRelOffset d' + zlen more)) (d_partEncRelOffset d'))
            | Err e => (Err e, d')
            | Panic w => (Panic w, d')
            end
        end
  end.

(** [DecryptBlocksRequestR] for an object in parts. *)
Definition DecryptBlocksRequestR (inputReader : bytes) (seqNumber : Z) (partStart : nat) : outcome dec_error DecryptBlocksReader :=
  match parts !! partStart with
  | None => Panic "index out of range"
  | Some part =>
      buildDecrypter part.1 (mkDBR inputReader [] seqNumber partStart (wrap64 (seqNumber * SSEDAREPackageBlockSize)) (wrap64 (seqNumber * package)))
  end.

(** Reads of these sizes, one after the other: all that was written. *)
Fixpoint dbr_reads (ns : list Z) (d : DecryptBlocksReader) : outcome dec_error (bytes * DecryptBlocksReader) :=
  match ns with
  | [] => Ok ([], d)
  | n :: ns =>
      match dbr_Read n d with
      | (Ok (got, _, _), d) => '(more, d) ←? dbr_reads ns d; Ok (got ++ more, d)
      | (Err e, _) => Err e
      | (Panic w, _) => Panic w
      end
  end.

End Objects.
