(* ===== verification/DareProofs.v ===== *)
(** * Ranges of encrypted objects

    Proofs about Dare: what [GetDecryptedRange] selects lies inside the encrypted object, starts and ends with whole
    packages, and decrypted, skipped and cut it is the range of the content that was asked for. *)

From Stdlib Require Import ZArith Lia Bool.
From Stdlib.Strings Require Import Byte.
From S2P Require Import Prelude GoStrings SSEMeta Erasure ErasureRead ErasureGet Msgp GoBase64 KMS SSE HttpRange Dare.

Local Open Scope go_scope.
Local Open Scope Z_scope.

(** ** Sizes *)

Definition zsum (l : list Z) : Z := foldr Z.add 0 l.

Lemma zsum_app l k : zsum (l ++ k) = zsum l + zsum k.
Proof. induction l as [|x l IH]; cbn [zsum foldr app]; [done|]. fold (zsum (l ++ k)) (zsum l). lia. Qed.

Lemma zsum_nonneg l : Forall (λ z, 0 ≤ z) l → 0 ≤ zsum l.
Proof. induction 1 as [|x l Hx _ IH]; cbn [zsum foldr]; [done|]. fold (zsum l). lia. Qed.

(** All sizes are positive and fit the format. *)
Definition sizes_ok (l : list Z) : Prop := Forall (λ z, 0 < z ≤ max_content) l.

Lemma sizes_ok_nonneg l : sizes_ok l → 0 ≤ zsum l.
Proof. intros Hl. apply zsum_nonneg. apply (Forall_impl _ _ _ Hl). intros z. lia. Qed.

Lemma dare_size_bounds n : 0 ≤ n → n ≤ dare_size n ∧ (0 < n → n + 32 ≤ dare_size n) ∧ dare_size n ≤ n + 32 * (n / 65536 + 1).
Proof.
  intros Hn. unfold dare_size, SSEDAREPackageMetaSize, SSEDAREPackageBlockSize. change (64 * 1024) with 65536. pose proof (Z.div_mod (n + (65536 - 1)) 65536). pose proof (Z.mod_pos_bound (n + (65536 - 1)) 65536).
  pose proof (Z.div_mod n 65536). pose proof (Z.mod_pos_bound n 65536). lia.
Qed.

Lemma dare_size_int64 n : 0 ≤ n ≤ max_content → 0 ≤ dare_size n ≤ max_int64 ∧ package = 65568.
Proof.
  intros Hn. pose proof (dare_size_bounds n). pose proof (Z.div_mod n 65536). pose proof (Z.mod_pos_bound n 65536).
  split; [|done]. assert (max_content * 2 + 64 ≤ max_int64) by done. lia.
Qed.

Lemma dare_size_whole n q : 0 ≤ q → q * 65536 ≤ n → q * package ≤ dare_size n.
Proof.
  intros Hq Hn. unfold dare_size, package, SSEDAREPackageMetaSize, SSEDAREPackageBlockSize. change (64 * 1024) with 65536.
  pose proof (Z.div_mod (n + (65536 - 1)) 65536). pose proof (Z.mod_pos_bound (n + (65536 - 1)) 65536). lia.
Qed.

Lemma dare_size_over n q : 0 ≤ q → q * 65536 < n → q * package < dare_size n.
Proof.
  intros Hq Hn. unfold dare_size, package, SSEDAREPackageMetaSize, SSEDAREPackageBlockSize. change (64 * 1024) with 65536.
  pose proof (Z.div_mod (n + (65536 - 1)) 65536). pose proof (Z.mod_pos_bound (n + (65536 - 1)) 65536). lia.
Qed.

Definition dsum (l : list Z) : Z := zsum (dare_size <$> l).

Lemma dsum_app l k : dsum (l ++ k) = dsum l + dsum k.
Proof. unfold dsum. by rewrite fmap_app, zsum_app. Qed.

Lemma dsum_cons x l : dsum (x :: l) = dare_size x + dsum l.
Proof. done. Qed.

Lemma zsum_le_dsum l : sizes_ok l → 0 ≤ zsum l ≤ dsum l.
Proof.
  intros Hl. split; [by apply sizes_ok_nonneg|]. induction Hl as [|x l Hx _ IH]; [done|]. rewrite dsum_cons. cbn [zsum foldr]. fold (zsum l).
  pose proof (dare_size_bounds x). lia.
Qed.

(** ** The parts of the range *)

Section Ranges.
Context `{SioLaws}.

Lemma locate_spec i off cum enc sizes :
  sizes_ok sizes → 0 ≤ cum → 0 ≤ enc → cum + zsum sizes ≤ max_int64 → enc + dsum sizes ≤ max_int64 →
  cum ≤ off < cum + zsum sizes →
  ∃ pre size post, sizes = pre ++ size :: post ∧ cum + zsum pre ≤ off < cum + zsum pre + size ∧
    locate i off cum enc sizes = (Some (i + length pre)%nat, cum + zsum pre, enc + dsum pre).
Proof.
  intros Hs. revert i cum enc. induction Hs as [|x l Hx Hl IH]; intros i cum enc Hc He Hb1 Hb2 Hoff; cbn [zsum foldr] in *; [lia|]. fold (zsum l) in *. rewrite dsum_cons in Hb2.
  pose proof (zsum_le_dsum l Hl). pose proof (dare_size_bounds x). cbn [locate].
  assert (to_uint64 x = x) as -> by (unfold to_uint64; apply Z.mod_small; unfold max_content, SSEDAREPackageBlockSize in *; lia).
  rewrite encrypted_size by lia. cbn [default from_option]. unfold to_int64, id. int64. destruct (Z.ltb_spec off (cum + x)) as [Hlt|Hge].
  - exists [], x, l. cbn. rewrite Nat.add_0_r, !Z.add_0_r. split; [done|]. split; [lia|done].
  - destruct (IH (S i) (cum + x) (enc + dare_size x)) as (pre & size & post & -> & Hr & ->); [lia..|]. exists (x :: pre), size, post.
    split; [done|]. cbn [zsum foldr length]. fold (zsum pre). rewrite dsum_cons. split; [lia|]. by rewrite Nat.add_succ_r, !Z.add_assoc.
Qed.
(** The calculation, once the parts in which the range starts and ends are found. *)
Lemma decrypted_range_calc sizes off len pre a mp pre2 b post :
  sizes_ok sizes → dsum sizes ≤ 2 ^ 62 → 0 < len → sizes = pre ++ a :: mp → a :: mp = pre2 ++ b :: post →
  zsum pre ≤ off < zsum pre + a → zsum pre + zsum pre2 ≤ off + len - 1 < zsum pre + zsum pre2 + b →
  locate 0 off 0 0 sizes = (Some (length pre), zsum pre, dsum pre) →
  locate (length pre) (off + len - 1) (zsum pre) (dsum pre) (a :: mp) = (Some (length pre + length pre2)%nat, zsum pre + zsum pre2, dsum pre + dsum pre2) →
  decrypted_range sizes off len =
    Ok (mkEncRange (dsum pre + (off - zsum pre) / 65536 * package)
          (dsum pre2 + Z.min (((off + len - 1 - (zsum pre + zsum pre2)) / 65536 + 1) * package) (dare_size b) - (off - zsum pre) / 65536 * package)
          ((off - zsum pre) mod 65536) ((off - zsum pre) / 65536) (length pre)).
Proof.
  intros Hs Hd Hl Heq Heq2 Hoff Hend Hloc Hloc2. assert (2 ^ 62 < max_int64 - 2 ^ 20) as Hmax by done.
  assert (sizes_ok pre ∧ 0 < a ≤ max_content) as (Hpre & Ha) by (rewrite Heq in Hs; apply Forall_app in Hs as [? Hs]; by inversion_clear Hs).
  assert (sizes_ok pre2 ∧ 0 < b ≤ max_content) as (Hpre2 & Hb) by (rewrite Heq, Heq2 in Hs; apply Forall_app in Hs as [_ Hs]; apply Forall_app in Hs as [? Hs]; by inversion_clear Hs).
  assert (sizes_ok post ∧ sizes_ok mp) as [Hpost Hmp].
  { split; [rewrite Heq, Heq2 in Hs|rewrite Heq in Hs]; apply Forall_app in Hs as [_ Hs]; [apply Forall_app in Hs as [_ Hs]|]; by inversion_clear Hs. }
  pose proof (zsum_le_dsum pre Hpre). pose proof (zsum_le_dsum pre2 Hpre2). pose proof (zsum_le_dsum post Hpost). pose proof (zsum_le_dsum mp Hmp).
  pose proof (dare_size_bounds a). pose proof (dare_size_bounds b).
  assert (dsum pre + dare_size a + dsum mp ≤ 2 ^ 62) by (rewrite Heq, dsum_app, dsum_cons in Hd; lia).
  assert (dsum pre + dsum pre2 + dare_size b + dsum post ≤ 2 ^ 62) by (rewrite Heq, Heq2, !dsum_app, dsum_cons in Hd; lia).
  set (x := off - zsum pre) in *. set (y := off + len - 1 - (zsum pre + zsum pre2)) in *.
  pose proof (Z.div_mod x 65536). pose proof (Z.mod_pos_bound x 65536). pose proof (Z.div_mod y 65536). pose proof (Z.mod_pos_bound y 65536).
  pose proof (dare_size_whole a (x / 65536)). pose proof (dare_size_whole b (y / 65536)). assert (package = 65568) as Hpk by done.
  unfold decrypted_range. rewrite Hloc. cbn [default from_option]. unfold id. change SSEDAREPackageBlockSize with 65536.
  rewrite (wrap64_small (off - zsum pre)) by (unfold in_int64, min_int64; lia). fold x. rewrite Z.quot_div_nonneg, Z.rem_mod_nonneg by lia.
  rewrite (wrap64_small (off + len)) by (unfold in_int64, min_int64; lia). rewrite (wrap64_small (off + len - 1)) by (unfold in_int64, min_int64; lia).
  assert (drop (length pre) sizes = a :: mp) as -> by (rewrite Heq; apply drop_app_length). rewrite Hloc2. cbn [default from_option].
  assert (sizes !! (length pre + length pre2)%nat = Some b) as ->.
  { rewrite Heq, Heq2. rewrite lookup_app_r by lia. rewrite lookup_app_r by lia. by replace (length pre + length pre2 - length pre - length pre2)%nat with 0%nat by lia. }
  rewrite (wrap64_small (off + len - 1 - (zsum pre + zsum pre2))) by (unfold in_int64, min_int64; lia). fold y. rewrite Z.quot_div_nonneg by lia.
  assert (to_uint64 b = b) as -> by (unfold to_uint64; apply Z.mod_small; unfold max_content, SSEDAREPackageBlockSize in *; lia).
  rewrite encrypted_size by lia. cbn [default from_option]. unfold to_int64, id. rewrite Hpk in *. int64.
  assert (x / 65536 mod 2 ^ 32 = x / 65536) as -> by (apply Z.mod_small; unfold max_content, SSEDAREPackageBlockSize in *; lia).
  do 2 f_equal. destruct (Z.ltb_spec (dsum pre + dsum pre2 + dare_size b) (dsum pre + dsum pre2 + (y / 65536 + 1) * 65568)); int64; lia.
Qed.

(** What the calculation gives, by the parts in which the range starts and ends. *)
Lemma decrypted_range_spec sizes off len :
  sizes_ok sizes → dsum sizes ≤ 2 ^ 62 → 0 ≤ off → 0 < len → off + len ≤ zsum sizes →
  ∃ pre a mp pre2 b post, sizes = pre ++ a :: mp ∧ a :: mp = pre2 ++ b :: post ∧
    zsum pre ≤ off < zsum pre + a ∧ zsum pre + zsum pre2 ≤ off + len - 1 < zsum pre + zsum pre2 + b ∧
    decrypted_range sizes off len =
      Ok (mkEncRange (dsum pre + (off - zsum pre) / 65536 * package)
            (dsum pre2 + Z.min (((off + len - 1 - (zsum pre + zsum pre2)) / 65536 + 1) * package) (dare_size b) - (off - zsum pre) / 65536 * package)
            ((off - zsum pre) mod 65536) ((off - zsum pre) / 65536) (length pre)).
Proof.
  intros Hs Hd Ho Hl Hsum. pose proof (zsum_le_dsum sizes Hs) as Hz. assert (2 ^ 62 < max_int64) by done.
  destruct (locate_spec 0 off 0 0 sizes) as (pre & a & mp & Heq & Hoff & Hloc); [done|lia..|]. rewrite Z.add_0_l in Hoff. rewrite Nat.add_0_l, !Z.add_0_l in Hloc.
  assert (sizes_ok pre ∧ sizes_ok (a :: mp)) as (Hpre & Hmp) by (rewrite Heq in Hs; by apply Forall_app in Hs).
  assert (zsum sizes = zsum pre + zsum (a :: mp) ∧ dsum sizes = dsum pre + dsum (a :: mp)) as [Hz1 Hd1] by (by rewrite Heq, zsum_app, dsum_app).
  pose proof (zsum_le_dsum pre Hpre). pose proof (zsum_le_dsum _ Hmp).
  destruct (locate_spec (length pre) (off + len - 1) (zsum pre) (dsum pre) (a :: mp)) as (pre2 & b & post & Heq2 & Hend & Hloc2); [done|lia..|].
  exists pre, a, mp, pre2, b, post. split_and!; try done; try lia. by eapply decrypted_range_calc.
Qed.

Lemma range_not_empty pre b post a mp x y :
  a :: mp = pre ++ b :: post → sizes_ok (a :: mp) → 0 ≤ x < a → 0 ≤ y < b → (pre = [] → x ≤ y) →
  0 < dsum pre + Z.min ((y / 65536 + 1) * package) (dare_size b) - x / 65536 * package.
Proof.
  intros Heq Hs Hx Hy Hxy. assert (package = 65568) by done. pose proof (Z.div_mod x 65536). pose proof (Z.mod_pos_bound x 65536). pose proof (dare_size_over a (x / 65536)).
  pose proof (Z.div_pos y 65536). destruct pre as [|c pre]; injection Heq as -> ->.
  - specialize (Hxy eq_refl). pose proof (Z.div_le_mono x y 65536). change (dsum []) with 0. lia.
  - inversion_clear Hs as [|? ? Hc Hs']. apply Forall_app in Hs' as [Hs' Hb]. inversion_clear Hb. pose proof (zsum_le_dsum _ Hs'). pose proof (dare_size_bounds b). rewrite dsum_cons. lia.
Qed.

End Ranges.

(** ** Reading the packages *)

Section Reader.
Context `{SioLaws} `{Primitives} (objectKey : bytes).

(** A part of the object: its number and its content. *)
Abbreviation content_part := (Z * bytes)%type.
Implicit Types (Ps post : list content_part).

Definition stored_part (p : content_part) : Z * Z := (p.1, dare_size (zlen p.2)).
Definition encrypted_part (p : content_part) : bytes := EncryptMultiPart p.2 p.1 objectKey.
Definition encrypted_object Ps : bytes := concat (encrypted_part <$> Ps).
Definition plain_object Ps : bytes := concat (snd <$> Ps).

Definition part_sizes Ps : list Z := (λ p, zlen p.2) <$> Ps.

(** [m] encrypted bytes end with a package, and the content they hold. *)
Fixpoint aligned Ps (m : Z) : Prop :=
  match Ps with
  | [] => m = 0
  | p :: Ps => if m <? dare_size (zlen p.2) then m mod package = 0 else aligned Ps (m - dare_size (zlen p.2))
  end.

Fixpoint held_content Ps (m : Z) : bytes :=
  match Ps with
  | [] => []
  | p :: Ps => if m <? dare_size (zlen p.2) then take (Z.to_nat (m / package * 65536)) p.2 else p.2 ++ held_content Ps (m - dare_size (zlen p.2))
  end.

Lemma encrypted_part_length p : zlen p.2 ≤ max_content → zlen (encrypted_part p) = dare_size (zlen p.2).
Proof. intros Hp. unfold encrypted_part, EncryptMultiPart. by apply encrypt_length. Qed.

(** A decrypter that starts inside a part, with what the reader still has for it. *)
Lemma decrypt_part p i m :
  zlen p.2 ≤ max_content → 0 ≤ i → i * 65536 ≤ zlen p.2 → 0 ≤ m → (m mod package = 0 ∨ dare_size (zlen p.2) ≤ i * package + m) →
  DecryptStream (DerivePartKey objectKey p.1) i (slice (encrypted_part p) (i * package) m) =
    slice p.2 (i * 65536) (if dare_size (zlen p.2) <=? i * package + m then zlen p.2 else m / package * 65536).
Proof.
  intros Hp Hi Hle Hm Ha. pose proof (encrypted_part_length p Hp) as Hl. unfold encrypted_part, EncryptMultiPart in *.
  rewrite decrypt_from; [by rewrite Hl|done|done|exact Hle|done|by rewrite Hl].
Qed.

Lemma decrypt_start p m :
  zlen p.2 ≤ max_content → 0 ≤ m → (m mod package = 0 ∨ dare_size (zlen p.2) ≤ m) →
  DecryptStream (DerivePartKey objectKey p.1) 0 (take (Z.to_nat m) (encrypted_part p)) =
    take (Z.to_nat (if dare_size (zlen p.2) <=? m then zlen p.2 else m / package * 65536)) p.2.
Proof.
  intros Hp Hm Ha. pose proof (decrypt_part p 0 m Hp) as Hdec. rewrite !Z.mul_0_l, !Z.add_0_l in Hdec. unfold slice in Hdec.
  rewrite !drop_0 in Hdec. apply Hdec; try done. unfold zlen. lia.
Qed.

(** The same for a reader that starts with package [s] of the part. *)
Definition aligned_from (s : Z) (p : content_part) post (m : Z) : Prop :=
  if m <? dare_size (zlen p.2) - s * package then m mod package = 0 else aligned post (m - (dare_size (zlen p.2) - s * package)).

Definition held_from (s : Z) (p : content_part) post (m : Z) : bytes :=
  if m <? dare_size (zlen p.2) - s * package then slice p.2 (s * 65536) (m / package * 65536)
  else drop (Z.to_nat (s * 65536)) p.2 ++ held_content post (m - (dare_size (zlen p.2) - s * package)).

Lemma aligned_from_0 p post m : aligned_from 0 p post m = aligned (p :: post) m.
Proof. unfold aligned_from. by rewrite Z.mul_0_l, Z.sub_0_r. Qed.

Lemma held_from_0 p post m : held_from 0 p post m = held_content (p :: post) m.
Proof. unfold held_from, slice. by rewrite !Z.mul_0_l, Z.sub_0_r, drop_0. Qed.

Lemma nothing_held post : sizes_ok (part_sizes post) → aligned post 0 ∧ held_content post 0 = [].
Proof.
  destruct post as [|q post]; [done|]. cbn [aligned held_content]. inversion_clear 1. pose proof (dare_size_bounds (zlen q.2)).
  by rewrite (proj2 (Z.ltb_lt 0 (dare_size (zlen q.2)))) by lia.
Qed.

(** The decrypter of a part: what it will give, and what is left for the parts after it. *)
Lemma build_decrypter Ps pre p post s m :
  Ps = pre ++ p :: post → 0 ≤ s → s * 65536 < zlen p.2 ≤ max_content → sizes_ok (part_sizes post) → 0 ≤ m → aligned_from s p post m →
  ∃ dec m', buildDecrypter objectKey (stored_part <$> Ps) p.1
      (mkDBR (take (Z.to_nat m) (drop (Z.to_nat (s * package)) (encrypted_part p) ++ encrypted_object post)) [] s (length pre) (s * 65536) (s * package)) =
      Ok (mkDBR (take (Z.to_nat m') (encrypted_object post)) dec s (length pre) (s * 65536) (s * package)) ∧
    0 ≤ m' ∧ aligned post m' ∧ held_from s p post m = dec ++ held_content post m' ∧
    (dec = drop (Z.to_nat (s * 65536)) p.2 ∨ zlen dec ≤ zlen p.2 - s * 65536 ∧ held_content post m' = []).
Proof.
  intros -> Hs Hp Hpost Hm Ha. unfold buildDecrypter. cbn [d_partIndex d_partEncRelOffset d_reader d_startSeqNum d_partDecRelOffset].
  rewrite list_lookup_fmap, list_lookup_middle by done. cbn [fmap option_fmap option_map stored_part snd].
  pose proof (dare_size_bounds (zlen p.2)). pose proof (dare_size_whole (zlen p.2) s). pose proof (encrypted_part_length p ltac:(lia)) as Hl.
  pose proof (dare_size_int64 (zlen p.2)).
  rewrite (wrap64_small (_ - _)) by (unfold in_int64, min_int64; lia).
  set (E := drop _ (encrypted_part p)). set (L := dare_size (zlen p.2) - s * package) in *.
  assert (length E = Z.to_nat L) as HE by (subst E L; rewrite length_drop, <- Hl; unfold zlen; lia).
  pose proof (decrypt_part p s) as Hdec. unfold slice at 1 in Hdec. fold E in Hdec. rewrite take_take.
  unfold aligned_from, held_from in *. fold L in Ha |- *. destruct (Z.ltb_spec m L) as [Hlt|Hge].
  - destruct (nothing_held post Hpost) as [Ha0 Hh0]. exists (slice p.2 (s * 65536) (m / package * 65536)), 0. split.
    + rewrite Nat.min_r by lia. rewrite take_app_le by lia. rewrite Hdec by (lia || by left). rewrite (proj2 (Z.leb_gt _ _)) by lia.
      rewrite drop_ge by (rewrite length_take; lia). done.
    + rewrite Hh0, app_nil_r. split_and!; try done. right. split; [|done]. unfold slice, zlen in *. rewrite length_take, length_drop. lia.
  - exists (drop (Z.to_nat (s * 65536)) p.2), (m - L). split; [|split; [lia|]; split; [done|]; split; [done|by left]].
    specialize (Hdec L ltac:(lia) Hs ltac:(lia) ltac:(lia) ltac:(right; lia)). rewrite (proj2 (Z.leb_le _ _)) in Hdec by lia.
    unfold slice in Hdec. rewrite !take_ge in Hdec by (rewrite ?HE, ?length_drop; unfold zlen; lia).
    rewrite Nat.min_l by lia. rewrite (take_app_length' _ _ (Z.to_nat L)) by done.
    rewrite Hdec, take_app_ge by lia. rewrite drop_app_length' by (by rewrite HE). rewrite HE. do 3 f_equal. lia.
Qed.

(** ** The state of the reader *)

(** The reader is inside a part and will give [rest]. *)
Definition reads Ps (d : DecryptBlocksReader) (rest : bytes) : Prop :=
  ∃ pre p post m, Ps = pre ++ p :: post ∧ d_partIndex d = length pre ∧ 0 ≤ d_partDecRelOffset d < zlen p.2 ∧
    d_reader d = take (Z.to_nat m) (encrypted_object post) ∧ 0 ≤ m ∧ aligned post m ∧ rest = d_decrypter d ++ held_content post m ∧
    (d_decrypter d = drop (Z.to_nat (d_partDecRelOffset d)) p.2 ∨
     zlen (d_decrypter d) ≤ zlen p.2 - d_partDecRelOffset d ∧ held_content post m = []).

(** A buffer is no larger than the parts, the last one aside. *)
Definition fits Ps (n : Z) : Prop := 0 < n ∧ Forall (λ p, n ≤ zlen p.2) (removelast Ps).

Lemma fits_part Ps pre q post n : fits Ps n → Ps = pre ++ q :: post → post ≠ [] → n ≤ zlen q.2.
Proof.
  intros [_ Hn] -> Hpost. rewrite Forall_forall in Hn. apply Hn. rewrite removelast_app by done. destruct post as [|r post]; [done|].
  cbn [removelast]. apply elem_of_app. right. apply elem_of_cons. by left.
Qed.

Lemma sizes_middle pre p post : sizes_ok (part_sizes (pre ++ p :: post)) → 0 < zlen p.2 ≤ max_content ∧ sizes_ok (part_sizes post).
Proof. unfold part_sizes. rewrite fmap_app. intros Hs. apply Forall_app in Hs as [_ Hs]. by inversion_clear Hs. Qed.

(** What [Read] finds about its part. *)
Lemma stored_part_size p : 0 < zlen p.2 ≤ max_content → DecryptedSize (to_uint64 (stored_part p).2) = Some (zlen p.2).
Proof.
  intros Hp. pose proof (dare_size_int64 (zlen p.2)). cbn [stored_part snd]. unfold to_uint64. rewrite Z.mod_small by (unfold max_int64 in *; lia).
  apply decrypted_size. lia.
Qed.

(** A read that ends inside the part. *)
Lemma read_inside Ps d rest pre p post m n :
  sizes_ok (part_sizes Ps) → 0 < n ≤ zlen rest → n < zlen p.2 - d_partDecRelOffset d →
  Ps = pre ++ p :: post → d_partIndex d = length pre → 0 ≤ d_partDecRelOffset d < zlen p.2 →
  d_reader d = take (Z.to_nat m) (encrypted_object post) → 0 ≤ m → aligned post m → rest = d_decrypter d ++ held_content post m →
  (d_decrypter d = drop (Z.to_nat (d_partDecRelOffset d)) p.2 ∨
     zlen (d_decrypter d) ≤ zlen p.2 - d_partDecRelOffset d ∧ held_content post m = []) →
  ∃ k eof d', dbr_Read objectKey (stored_part <$> Ps) n d = (Ok (slice rest 0 n, k, eof), d') ∧ reads Ps d' (drop (Z.to_nat n) rest).
Proof.
  intros Hs Hn Hlt -> Hidx Hrel Hrd Hm Ha Hrest Hdec. destruct (sizes_middle _ _ _ Hs) as [Hp Hpost].
  unfold dbr_Read. rewrite Hidx, list_lookup_fmap, list_lookup_middle by done. cbn [fmap option_fmap option_map]. rewrite stored_part_size by done.
  cbn [default from_option]. unfold to_int64, id. assert (max_content ≤ max_int64) by done. int64. rewrite (proj2 (Z.ltb_lt _ _)) by done.
  assert (n ≤ zlen (d_decrypter d)) as Hle.
  { destruct Hdec as [E|[_ E]]; [rewrite E, zlen_drop by lia; lia|]. rewrite Hrest, E, app_nil_r in Hn. lia. }
  assert (take (Z.to_nat n) (d_decrypter d) = slice rest 0 n) as Hgot by (unfold slice; rewrite drop_0, Hrest, take_app_le by (unfold zlen in Hle; lia); done).
  rewrite Hgot. rewrite zlen_slice by lia. rewrite (proj2 (Z.eqb_neq n 0)), andb_false_r by lia. int64. eexists _, _, _. split; [done|].
  exists pre, p, post, m. cbn. split_and!; try done; try lia.
  - by rewrite Hrest, drop_app_le by (unfold zlen in Hle; lia).
  - destruct Hdec as [E|[E1 E2]]; [left|right].
    + rewrite E, drop_drop. f_equal. lia.
    + split; [|done]. rewrite zlen_drop by lia. lia.
Qed.

(** The state after [k] bytes of a new part. *)
Lemma reads_new_part Ps pre q post m dec k :
  Ps = pre ++ q :: post → 0 ≤ m → aligned post m → (dec = q.2 ∨ zlen dec ≤ zlen q.2 ∧ held_content post m = []) →
  0 ≤ k ≤ zlen (dec ++ held_content post m) → (post ≠ [] → k < zlen q.2) →
  k ≤ zlen dec ∧ (reads Ps (mkDBR (take (Z.to_nat m) (encrypted_object post)) (drop (Z.to_nat k) dec) 0 (length pre) k 0) (drop (Z.to_nat k) (dec ++ held_content post m)) ∨
                  drop (Z.to_nat k) (dec ++ held_content post m) = []).
Proof.
  intros -> Hm Ha Hdec Hk Hq. assert (k ≤ zlen dec) as Hle.
  { destruct Hdec as [->|[_ E]]; [|rewrite E, app_nil_r in Hk; lia]. destruct post as [|r post]; [rewrite app_nil_r in Hk; lia|]. assert (k < zlen q.2) by by apply Hq. lia. }
  split; [done|]. destruct (decide (k = zlen (dec ++ held_content post m))) as [->|Hne]; [right; apply drop_ge; unfold zlen; lia|left].
  exists pre, q, post, m. cbn [d_partIndex d_partDecRelOffset d_reader d_decrypter]. split_and!; try done; try lia.
  - destruct post as [|r post]; [|by apply Hq]. rewrite app_nil_r in Hne, Hk. destruct Hdec as [->|[? _]]; lia.
  - by rewrite drop_app_le by (unfold zlen in Hle; lia).
  - destruct Hdec as [->|[E1 E2]]; [by left|right]. split; [|done]. rewrite zlen_drop by lia. lia.
Qed.

(** A read that goes on with the next part. *)
Lemma read_next Ps d rest pre p post m n :
  sizes_ok (part_sizes Ps) → fits Ps n → n ≤ zlen rest → zlen p.2 - d_partDecRelOffset d ≤ n →
  Ps = pre ++ p :: post → d_partIndex d = length pre → 0 ≤ d_partDecRelOffset d < zlen p.2 →
  d_reader d = take (Z.to_nat m) (encrypted_object post) → 0 ≤ m → aligned post m → rest = d_decrypter d ++ held_content post m →
  zlen (d_decrypter d) = zlen p.2 - d_partDecRelOffset d →
  ∃ k eof d', dbr_Read objectKey (stored_part <$> Ps) n d = (Ok (slice rest 0 n, k, eof), d') ∧
    (reads Ps d' (drop (Z.to_nat n) rest) ∨ drop (Z.to_nat n) rest = []).
Proof.
  intros Hs Hfit Hn Hge HPs Hidx Hrel Hrd Hm Ha Hrest Hlen. assert (Hs' := Hs). rewrite HPs in Hs'. destruct (sizes_middle _ _ _ Hs') as [Hp Hpost].
  unfold dbr_Read. rewrite Hidx, list_lookup_fmap. assert (Ps !! length pre = Some p) as -> by (rewrite HPs; by apply list_lookup_middle).
  cbn [fmap option_fmap option_map]. rewrite stored_part_size by done.
  cbn [default from_option]. unfold to_int64, id. assert (max_content ≤ max_int64) by done. int64. rewrite <- Hlen in *. set (u := zlen (d_decrypter d)) in *.
  rewrite (proj2 (Z.ltb_ge n u)), Z.ltb_irrefl by done. rewrite (take_ge (d_decrypter d)) by (subst u; unfold zlen; lia).
  rewrite list_lookup_fmap. destruct post as [|q post].
  - assert (Ps !! S (length pre) = None) as -> by (rewrite HPs; apply lookup_ge_None; rewrite length_app; cbn; lia). cbn.
    assert (rest = d_decrypter d) as -> by (rewrite Hrest; apply app_nil_r). assert (n = u) as -> by lia.
    rewrite slice_whole by done. do 3 eexists. split; [done|right]. apply drop_ge. subst u. unfold zlen. lia.
  - assert (Ps = (pre ++ [p]) ++ q :: post) as HPs2 by (by rewrite HPs, <- app_assoc). destruct (sizes_middle (pre ++ [p]) q post) as [Hq Hpost2]; [by rewrite <- HPs2|].
    assert (Ps !! S (length pre) = Some q) as -> by (rewrite HPs2; apply list_lookup_middle; rewrite length_app; cbn; lia). cbn [fmap option_fmap option_map].
    rewrite <- aligned_from_0 in Ha. destruct (build_decrypter Ps (pre ++ [p]) q post 0 m) as (dec & m' & Hb & Hm' & Ha' & Hheld & Hdec); [done..|lia|done|done|done|].
    rewrite !Z.mul_0_l in *. cbn [Z.to_nat] in Hb. change (Z.to_nat 0) with 0%nat in *. rewrite drop_0 in *. rewrite length_app in Hb. cbn [length] in Hb. rewrite Nat.add_1_r in Hb.
    rewrite held_from_0 in Hheld. rewrite Hheld in Hrest. rewrite Hrd. cbn [stored_part fst] in Hb |- *. unfold encrypted_object in Hb |- *. cbn [fmap list_fmap concat] in Hb |- *. rewrite Hb.
    fold (encrypted_object post). cbn [d_decrypter d_reader d_startSeqNum d_partIndex d_partDecRelOffset d_partEncRelOffset].
    rewrite Z.sub_0_r in Hdec. destruct (reads_new_part Ps (pre ++ [p]) q post m' dec (n - u)) as [Hk Hreads]; [done..| | |].
    + subst rest. rewrite zlen_app in Hn. fold u in Hn. lia.
    + intros Hne. pose proof (fits_part Ps _ q post n Hfit HPs2 Hne). lia.
    + assert (zlen (take (Z.to_nat (n - u)) dec) = n - u) as Hz by (unfold zlen in Hk |- *; rewrite length_take; lia). rewrite Hz.
      replace ((0 <? n - u) && (n - u =? 0)) with false by (destruct (Z.ltb_spec 0 (n - u)); [rewrite (proj2 (Z.eqb_neq _ _)) by lia|]; done).
      assert (zlen dec ≤ zlen q.2) by (destruct Hdec as [->|[? _]]; lia). rewrite Z.add_0_l, (wrap64_small (n - u)) by (unfold in_int64, min_int64; lia).
      assert (length (d_decrypter d) = Z.to_nat u) as Hu by (subst u; unfold zlen; lia). assert (slice rest 0 n = d_decrypter d ++ take (Z.to_nat (n - u)) dec) as Hsl.
      { unfold slice. rewrite drop_0, Hrest. rewrite take_app_ge by lia. f_equal. rewrite take_app_le by (unfold zlen in Hk; lia). f_equal. lia. }
      do 3 eexists. split; [by rewrite Hsl|]. rewrite Hrest. rewrite (drop_app_ge (d_decrypter d)) by lia. rewrite Hu. replace (Z.to_nat n - Z.to_nat u)%nat with (Z.to_nat (n - u)) by lia.
      rewrite length_app, Nat.add_1_r in Hreads. exact Hreads.
Qed.

Lemma read_step Ps d rest n :
  sizes_ok (part_sizes Ps) → fits Ps n → n ≤ zlen rest → reads Ps d rest →
  ∃ k eof d', dbr_Read objectKey (stored_part <$> Ps) n d = (Ok (slice rest 0 n, k, eof), d') ∧
    (reads Ps d' (drop (Z.to_nat n) rest) ∨ drop (Z.to_nat n) rest = []).
Proof.
  intros Hs Hfit Hn (pre & p & post & m & HPs & Hidx & Hrel & Hrd & Hm & Ha & Hrest & Hdec). assert (0 < n) by apply Hfit.
  destruct (Z.lt_ge_cases n (zlen p.2 - d_partDecRelOffset d)) as [Hlt|Hge].
  - destruct (read_inside Ps d rest pre p post m n) as (k & eof & d' & Hr & Hreads); try done. eauto 10.
  - apply (read_next Ps d rest pre p post m n); try done. destruct Hdec as [->|[Hle E]]; [rewrite zlen_drop by lia; lia|].
    rewrite Hrest, E, app_nil_r in Hn. lia.
Qed.

(** Reads one after the other give what is left, in order. *)
Lemma reads_all Ps ns d rest :
  sizes_ok (part_sizes Ps) → Forall (fits Ps) ns → zsum ns ≤ zlen rest → reads Ps d rest →
  ∃ d', dbr_reads objectKey (stored_part <$> Ps) ns d = Ok (slice rest 0 (zsum ns), d').
Proof.
  intros Hs Hns. revert d rest. induction Hns as [|n ns Hn Hns IH]; intros d rest Hsum Hd; [by exists d|]. cbn [zsum foldr] in *. fold (zsum ns) in *.
  assert (0 ≤ zsum ns) by (apply zsum_nonneg, (Forall_impl _ _ _ Hns); intros k [? _]; lia). assert (0 < n) by apply Hn.
  destruct (read_step Ps d rest n) as (k & eof & d' & Hr & Hd'); [done..|lia|done|]. cbn [dbr_reads]. rewrite Hr.
  assert (zlen (drop (Z.to_nat n) rest) = zlen rest - n) as Hz by (rewrite zlen_drop by lia; lia).
  destruct Hd' as [Hd'|Hnil].
  - destruct (IH d' (drop (Z.to_nat n) rest)) as [d'' Hds]; [lia|done|]. rewrite Hds. cbn. exists d''. do 2 f_equal.
    rewrite <- (slice_app_seq rest 0 n (zsum ns)) by lia. f_equal.
  - assert (ns = []) as ->.
    { destruct ns as [|k' ns]; [done|]. rewrite Hnil in Hz. cbn [zsum foldr] in *. fold (zsum ns) in *. inversion_clear Hns as [|? ? [Hk' _] Hns'].
      assert (0 ≤ zsum ns) by (apply zsum_nonneg, (Forall_impl _ _ _ Hns'); intros j [? _]; lia). change (zlen (@nil byte)) with 0 in Hz. lia. }
    cbn. exists d'. by rewrite app_nil_r, Z.add_0_r.
Qed.

(** ** The packages of a range *)

(** The first [k] packages of a part, from package [s] on. *)
Lemma held_last s q post k :
  sizes_ok (part_sizes (q :: post)) → 0 ≤ s < k → (k - 1) * 65536 < zlen q.2 →
  aligned_from s q post (Z.min (k * package) (dare_size (zlen q.2)) - s * package) ∧
  held_from s q post (Z.min (k * package) (dare_size (zlen q.2)) - s * package) = drop (Z.to_nat (s * 65536)) (take (Z.to_nat (k * 65536)) q.2).
Proof.
  intros Hs Hsk Hk. inversion_clear Hs as [|? ? Hq Hpost]. pose proof (dare_size_whole (zlen q.2) k). pose proof (dare_size_int64 (zlen q.2)). assert (package = 65568) as Hpk by done.
  unfold aligned_from, held_from. destruct (Z.min_spec (k * package) (dare_size (zlen q.2))) as [[Hlt ->]|[Hge ->]].
  - rewrite (proj2 (Z.ltb_lt _ _)) by lia. rewrite <- Z.mul_sub_distr_r. rewrite Z_mod_mult, Z.div_mul by lia. split; [done|]. unfold slice. rewrite skipn_firstn_comm. f_equal. lia.
  - rewrite (proj2 (Z.ltb_ge _ _)) by lia. rewrite Z.sub_diag. destruct (nothing_held post Hpost) as [? ->]. split; [done|]. rewrite app_nil_r, take_ge; [done|].
    pose proof (dare_size_over (zlen q.2) k). unfold zlen in *. lia.
Qed.

Lemma held_whole A q post k :
  sizes_ok (part_sizes (A ++ q :: post)) → 0 < k → (k - 1) * 65536 < zlen q.2 →
  aligned (A ++ q :: post) (dsum (part_sizes A) + Z.min (k * package) (dare_size (zlen q.2))) ∧
  held_content (A ++ q :: post) (dsum (part_sizes A) + Z.min (k * package) (dare_size (zlen q.2))) = plain_object A ++ take (Z.to_nat (k * 65536)) q.2.
Proof.
  intros Hs Hk Hq. induction A as [|p A IH].
  - destruct (held_last 0 q post k) as [H1' H2']; [done|lia|done|]. rewrite Z.mul_0_l, Z.sub_0_r, aligned_from_0 in *. rewrite held_from_0, drop_0 in H2'. done.
  - inversion_clear Hs as [|? ? Hp HA]. destruct (IH HA) as [IH1 IH2]. cbn [app aligned held_content part_sizes fmap list_fmap]. fold (part_sizes A). rewrite dsum_cons.
    pose proof (dare_size_int64 (zlen q.2)). assert (0 < zlen q.2) by (apply sizes_middle in HA as [? _]; lia).
    assert (0 ≤ dsum (part_sizes A)) by (unfold part_sizes in HA; rewrite fmap_app in HA; apply Forall_app in HA as [HA _]; pose proof (zsum_le_dsum _ HA); unfold part_sizes; lia).
    assert (sizes_ok (part_sizes (q :: post))) as Hq' by (unfold part_sizes in *; rewrite fmap_app in HA; by apply Forall_app in HA as [_ HA]). inversion_clear Hq'.
    assert (package = 65568) by done. rewrite (proj2 (Z.ltb_ge _ _)) by lia.
    match goal with |- context [held_content _ ?m] => replace m with (dsum (part_sizes A) + Z.min (k * package) (dare_size (zlen q.2))) by lia end.
    split; [done|]. rewrite IH2. unfold plain_object. cbn. by rewrite app_assoc.
Qed.

Lemma held_range s p post A q B k :
  p :: post = A ++ q :: B → sizes_ok (part_sizes (p :: post)) → 0 ≤ s → s * 65536 < zlen p.2 → (A = [] → s < k) → 0 < k → (k - 1) * 65536 < zlen q.2 →
  let m := dsum (part_sizes A) + Z.min (k * package) (dare_size (zlen q.2)) - s * package in
  0 ≤ m ∧ aligned_from s p post m ∧ held_from s p post m = drop (Z.to_nat (s * 65536)) (plain_object A ++ take (Z.to_nat (k * 65536)) q.2).
Proof.
  intros Heq Hs Hs0 Hsp HA Hk Hq m. subst m. pose proof (dare_size_whole (zlen p.2) s). assert (package = 65568) by done. destruct A as [|p' A]; injection Heq as <- ->.
  - specialize (HA eq_refl). destruct (held_last s p B k) as [H1' H2']; [done|lia|done|]. change (dsum (part_sizes [])) with 0. rewrite Z.add_0_l. split; [|done].
    lia.
  - inversion_clear Hs as [|? ? Hp HAs]. destruct (held_whole A q B k HAs Hk Hq) as [IH1 IH2]. cbn [part_sizes fmap list_fmap]. fold (part_sizes A). rewrite dsum_cons.
    pose proof (dare_size_int64 (zlen q.2)). unfold part_sizes in HAs. rewrite fmap_app in HAs. apply Forall_app in HAs as [HAs HqB]. inversion_clear HqB. pose proof (zsum_le_dsum _ HAs).
    unfold aligned_from, held_from. fold (part_sizes A) in *. rewrite (proj2 (Z.ltb_ge _ _)) by lia.
    match goal with |- context [held_content _ ?m] => replace m with (dsum (part_sizes A) + Z.min (k * package) (dare_size (zlen q.2))) by lia end.
    split; [lia|]. split; [done|]. rewrite IH2. unfold plain_object. cbn. rewrite <- app_assoc, (drop_app_le p.2) by (unfold zlen in Hsp; lia). done.
Qed.

(** ** Objects in parts *)

(** An encrypted object in parts, with its contents. *)
Definition stored_object Ps (o : enc_info) : Prop :=
  en_Parts o = stored_part <$> Ps ∧ (IsEncrypted (en_UserDefined o)).2 = true ∧ isMultipart o = true ∧
  sizes_ok (part_sizes Ps) ∧ dsum (part_sizes Ps) ≤ 2 ^ 62.

Lemma decrypted_sizes_stored Ps : sizes_ok (part_sizes Ps) → decrypted_sizes (stored_part <$> Ps) = Ok (part_sizes Ps).
Proof.
  induction Ps as [|p Ps IH]; intros Hs; [done|]. inversion_clear Hs as [|? ? Hp HPs]. change (stored_part <$> p :: Ps) with (stored_part p :: (stored_part <$> Ps)).
  cbn [decrypted_sizes]. rewrite stored_part_size by done. rewrite IH by done. cbn [obind]. unfold to_int64. assert (max_content ≤ max_int64) by done. by int64.
Qed.

Lemma sum64_small l acc : Forall (λ z, 0 ≤ z) l → 0 ≤ acc → acc + zsum l ≤ max_int64 → foldl (λ acc z, wrap64 (acc + z)) acc l = acc + zsum l.
Proof.
  intros Hl. revert acc. induction Hl as [|x l Hx Hl IH]; intros acc Ha Hm; cbn [zsum foldr foldl] in *; [lia|]. fold (zsum l) in *.
  pose proof (zsum_nonneg l Hl). int64. rewrite IH; lia.
Qed.

Lemma offset_length_inside h size off len :
  range_wf h → 0 < size ≤ max_int64 → GetOffsetLength (Some h) size = Ok (off, len) → 0 ≤ off ∧ 0 < len ∧ off + len ≤ size.
Proof.
  destruct h as [suffix s e]. unfold range_wf, GetOffsetLength, GetLength; cbn [IsSuffixLength Start End_]. unfold max_int64 in *. intros Hwf Hsz.
  rewrite (proj2 (Z.ltb_ge size 0)) by lia. destruct suffix; cbv iota in *.
  - int64. destruct (Z.ltb_spec size (- s)), (Z.ltb_spec (size + s) 0); intros [= <- <-]; lia.
  - destruct (Z.leb_spec size s); [done|]. destruct (Z.ltb_spec (-1) e).
    + destruct (Z.leb_spec size e); int64; intros [= <- <-]; lia.
    + rewrite (proj2 (Z.eqb_eq e (-1))) by lia. int64. intros [= <- <-]; lia.
Qed.

Lemma range_of_object Ps o h r :
  stored_object Ps o → Ps ≠ [] → range_wf h → GetDecryptedRange o (Some h) = Ok r →
  ∃ off len, GetOffsetLength (Some h) (zsum (part_sizes Ps)) = Ok (off, len) ∧ 0 ≤ off ∧ 0 < len ∧ off + len ≤ zsum (part_sizes Ps) ∧
    decrypted_range (part_sizes Ps) off len = Ok r.
Proof.
  intros (Hparts & Henc & Hmulti & Hs & Hd) HPs Hwf. unfold GetDecryptedRange. rewrite Henc, Hmulti, Hparts, decrypted_sizes_stored by done. cbn [negb obind].
  assert (0 < zsum (part_sizes Ps)) as Hpos.
  { destruct Ps as [|p Ps]; [done|]. inversion_clear Hs as [|? ? Hp HPs']. cbn [part_sizes fmap list_fmap zsum foldr]. pose proof (sizes_ok_nonneg _ HPs'). unfold part_sizes, zsum in *. lia. }
  pose proof (zsum_le_dsum _ Hs). assert (2 ^ 62 < max_int64) by done.
  assert (sum64 (part_sizes Ps) = zsum (part_sizes Ps)) as ->.
  { unfold sum64. rewrite sum64_small; [lia| |done|lia]. apply (Forall_impl _ _ _ Hs). intros z. lia. }
  destruct (GetOffsetLength (Some h) _) as [[off len]| |] eqn:Hoff; [|done..]. cbn [lift_range obind]. intros Hr. exists off, len. split; [done|].
  apply offset_length_inside in Hoff as (? & ? & ?); [|done|lia]. by split_and!.
Qed.

Lemma encrypted_object_length Ps : sizes_ok (part_sizes Ps) → zlen (encrypted_object Ps) = dsum (part_sizes Ps).
Proof.
  unfold encrypted_object. induction Ps as [|p Ps IH]; intros Hs; [done|]. inversion_clear Hs as [|? ? Hp HPs]. cbn [fmap list_fmap concat part_sizes]. rewrite zlen_app, dsum_cons.
  rewrite IH by done. by rewrite encrypted_part_length by lia.
Qed.

Lemma part_sizes_split Ps pre a mp :
  part_sizes Ps = pre ++ a :: mp → ∃ P1 p P2, Ps = P1 ++ p :: P2 ∧ part_sizes P1 = pre ∧ zlen p.2 = a ∧ part_sizes P2 = mp.
Proof.
  unfold part_sizes. intros (P1 & P' & -> & Hrest & ->)%fmap_app_inv. symmetry in Hrest. apply fmap_cons_inv in Hrest as (p & P2 & -> & -> & ->). eauto 10.
Qed.

Lemma plain_object_length Ps : zlen (plain_object Ps) = zsum (part_sizes Ps).
Proof.
  unfold plain_object. induction Ps as [|p Ps IH]; [done|]. cbn [fmap list_fmap concat part_sizes zsum foldr]. rewrite zlen_app, IH. done.
Qed.

Lemma plain_object_app Ps1 Ps2 : plain_object (Ps1 ++ Ps2) = plain_object Ps1 ++ plain_object Ps2.
Proof. unfold plain_object. by rewrite fmap_app, concat_app. Qed.

Lemma split_at Ps P1 p P2 : Ps = P1 ++ p :: P2 → Ps !! length P1 = Some p ∧ take (length P1) Ps = P1.
Proof. intros ->. split; [apply list_lookup_middle; lia|]. by rewrite take_app_length. Qed.

(** C16: what is read for a range of an encrypted object in parts lies inside the encrypted object, and is calculated without an overflow: as numbers without a width,
    the offset is that of a package of the part in which the reading starts, the one with the first byte of the range, and its sequence number is the number of that
    package in the part and fits 32 bits; less than a package is skipped, down to the first byte of the range; something is read, up to the
    end of the package with the last byte of the range. The parts are not empty and no longer than the format allows, and the encrypted object
    is not longer than 2^62 bytes. *)
Theorem encrypted_range_bounds Ps o h r :
  stored_object Ps o → Ps ≠ [] → range_wf h → GetDecryptedRange o (Some h) = Ok r →
  ∃ off len first lastIndex last,
    GetOffsetLength (Some h) (zlen (plain_object Ps)) = Ok (off, len) ∧
    Ps !! er_partStart r = Some first ∧ Ps !! lastIndex = Some last ∧
    0 ≤ er_seqNumber r < 2 ^ 32 ∧ er_seqNumber r * package < zlen (encrypted_part first) ∧
    er_encOff r = zlen (encrypted_object (take (er_partStart r) Ps)) + er_seqNumber r * package ∧
    0 ≤ er_skipLen r < SSEDAREPackageBlockSize ∧
    off = zlen (plain_object (take (er_partStart r) Ps)) + er_seqNumber r * SSEDAREPackageBlockSize + er_skipLen r ∧
    (let y := off + len - 1 - zlen (plain_object (take lastIndex Ps)) in
     0 ≤ y < zlen last.2 ∧
     er_encOff r + er_encLength r =
       zlen (encrypted_object (take lastIndex Ps)) + Z.min ((y / SSEDAREPackageBlockSize + 1) * package) (zlen (encrypted_part last))) ∧
    0 < er_encLength r ∧ er_encOff r + er_encLength r ≤ zlen (encrypted_object Ps).
Proof.
  intros Ho HPs Hwf Hr. destruct (range_of_object Ps o h r Ho HPs Hwf Hr) as (off & len & Hgol & H0' & Hl & Hsum & Hdr). destruct Ho as (Hparts & _ & _ & Hs & Hd).
  destruct (decrypted_range_spec (part_sizes Ps) off len) as (pre & a & mp & pre2 & b & post & Heq & Heq2 & Hoff & Hend & Hspec); [done..|].
  rewrite Hspec in Hdr. injection Hdr as <-. cbn [er_encOff er_encLength er_skipLen er_seqNumber er_partStart]. rewrite (encrypted_object_length Ps Hs), (plain_object_length Ps).
  assert (Hs' := Hs). rewrite Heq in Hs'. apply Forall_app in Hs' as [Hpre Hmp]. inversion_clear Hmp as [|? ? Ha Hmp'].
  assert (sizes_ok (a :: mp)) as Hmp2 by (by constructor). assert (Hpost := Hmp2). rewrite Heq2 in Hpost. apply Forall_app in Hpost as [Hpre2 Hpost]. inversion_clear Hpost as [|? ? Hb Hpost'].
  pose proof (zsum_le_dsum pre Hpre). pose proof (zsum_le_dsum post Hpost').
  pose proof (range_not_empty pre2 b post a mp (off - zsum pre) (off + len - 1 - (zsum pre + zsum pre2)) Heq2 Hmp2 ltac:(lia) ltac:(lia)) as Hpos.
  assert (part_sizes Ps = (pre ++ pre2) ++ b :: post) as Hq by (by rewrite Heq, Heq2, app_assoc).
  destruct (part_sizes_split Ps pre a mp Heq) as (P1 & p & P2 & HP & HP1 & Hp & _). destruct (part_sizes_split Ps _ b post Hq) as (Q1 & q & Q2 & HQ & HQ1 & Hqb & _).
  destruct (split_at Ps P1 p P2 HP) as [Hlp Htp]. destruct (split_at Ps Q1 q Q2 HQ) as [Hlq Htq].
  assert (length pre = length P1) as -> by (rewrite <- HP1; unfold part_sizes; apply length_fmap). exists off, len, p, (length Q1), q. rewrite Htp, Htq.
  assert (sizes_ok (part_sizes P1) ∧ sizes_ok (part_sizes Q1)) as [Hs1 Hs2] by (rewrite HP1, HQ1; split; [done|by apply Forall_app]).
  rewrite (encrypted_object_length P1 Hs1), (encrypted_object_length Q1 Hs2), (encrypted_part_length p), (encrypted_part_length q) by lia.
  rewrite !plain_object_length, HP1, HQ1, zsum_app, dsum_app, Hp, Hqb.
  change SSEDAREPackageBlockSize with 65536.
  pose proof (Z.div_mod (off - zsum pre) 65536). pose proof (Z.mod_pos_bound (off - zsum pre) 65536). assert (package = 65568 ∧ max_content = 65536 * 2 ^ 32) as [Hpk Hmax] by done.
  pose proof (dare_size_over a ((off - zsum pre) / 65536)).
  assert (dsum (part_sizes Ps) = dsum pre + dsum pre2 + (dare_size b + dsum post)) as -> by (rewrite Heq, Heq2, !dsum_app, dsum_cons; lia).
  split_and!; try done; try lia. apply Hpos. intros ->. change (zsum []) with 0. lia.
Qed.

(** The encrypted bytes from package [s] of a part on. *)
Lemma encrypted_slice P1 p P2 s m :
  sizes_ok (part_sizes (P1 ++ p :: P2)) → 0 ≤ s → s * 65536 < zlen p.2 →
  slice (encrypted_object (P1 ++ p :: P2)) (dsum (part_sizes P1) + s * package) m =
    take (Z.to_nat m) (drop (Z.to_nat (s * package)) (encrypted_part p) ++ encrypted_object P2).
Proof.
  intros Hs Hs0 Hsp. assert (sizes_ok (part_sizes P1)) as H1' by (unfold part_sizes in Hs; rewrite fmap_app in Hs; by apply Forall_app in Hs as [? _]).
  destruct (sizes_middle _ _ _ Hs) as [Hp _]. pose proof (dare_size_whole (zlen p.2) s). pose proof (encrypted_part_length p ltac:(lia)). assert (package = 65568) by done.
  unfold encrypted_object at 1. rewrite fmap_app, concat_app. fold (encrypted_object P1). cbn [fmap list_fmap concat]. fold (encrypted_object P2).
  rewrite <- encrypted_object_length by done. rewrite slice_skip by lia. unfold slice. rewrite drop_app_le by (unfold zlen in *; lia). done.
Qed.

(** What is left after the bytes to skip is the range. *)
Lemma range_content P1 A q B x s skip len k :
  0 ≤ s → 0 ≤ skip → 0 < len → x = s * 65536 + skip → x + len ≤ zsum (part_sizes A) + Z.min (k * 65536) (zlen q.2) → 0 ≤ k →
  let rest := drop (Z.to_nat (s * 65536)) (plain_object A ++ take (Z.to_nat (k * 65536)) q.2) in
  skip + len ≤ zlen rest ∧ drop (Z.to_nat skip) (slice rest 0 (skip + len)) = slice (plain_object (P1 ++ A ++ q :: B)) (zsum (part_sizes P1) + x) len.
Proof.
  intros Hs Hskip Hlen Hx Hle Hk rest. set (PA := plain_object A ++ take (Z.to_nat (k * 65536)) q.2) in *.
  assert (zlen PA = zsum (part_sizes A) + Z.min (k * 65536) (zlen q.2)) as HPA by (subst PA; rewrite zlen_app, plain_object_length; unfold zlen; rewrite length_take; lia).
  split; [subst rest; rewrite zlen_drop by lia; lia|]. rewrite plain_object_app, <- plain_object_length, slice_skip by lia.
  assert (plain_object (A ++ q :: B) = PA ++ drop (Z.to_nat (k * 65536)) q.2 ++ plain_object B) as ->.
  { subst PA. rewrite plain_object_app, <- app_assoc. f_equal. rewrite app_assoc, take_drop. done. }
  rewrite slice_app_l by lia. subst rest. unfold slice. rewrite drop_0, skipn_firstn_comm, drop_drop. f_equal; [lia|]. f_equal. lia.
Qed.

Lemma range_reads Ps off len r :
  sizes_ok (part_sizes Ps) → dsum (part_sizes Ps) ≤ 2 ^ 62 → 0 ≤ off → 0 < len → off + len ≤ zsum (part_sizes Ps) → decrypted_range (part_sizes Ps) off len = Ok r →
  ∃ d rest, DecryptBlocksRequestR objectKey (stored_part <$> Ps) (slice (encrypted_object Ps) (er_encOff r) (er_encLength r)) (er_seqNumber r) (er_partStart r) = Ok d ∧
    reads Ps d rest ∧ er_skipLen r + len ≤ zlen rest ∧
    drop (Z.to_nat (er_skipLen r)) (slice rest 0 (er_skipLen r + len)) = slice (plain_object Ps) off len.
Proof.
  intros Hs Hd H0' Hl Hsum Hdr. destruct (decrypted_range_spec (part_sizes Ps) off len) as (pre & a & mp & pre2 & b & post & Heq & Heq2 & Hoff & Hend & Hspec); [done..|].
  rewrite Hspec in Hdr. injection Hdr as <-. cbn [er_encOff er_encLength er_skipLen er_seqNumber er_partStart].
  apply part_sizes_split in Heq as (P1 & p & P2 & -> & <- & <- & <-). change (zlen p.2 :: part_sizes P2) with (part_sizes (p :: P2)) in Heq2.
  apply part_sizes_split in Heq2 as (A & q & B & HAB & <- & <- & <-). set (x := off - zsum (part_sizes P1)) in *. set (y := off + len - 1 - _) in *.
  destruct (sizes_middle _ _ _ Hs) as [Hp HP2]. assert (sizes_ok (part_sizes (p :: P2))) as HpP2 by (by constructor).
  assert (0 < zlen q.2 ≤ max_content) as [Hq Hq2] by (rewrite HAB in HpP2; by apply sizes_middle in HpP2 as [? _]).
  pose proof (Z.div_mod x 65536). pose proof (Z.mod_pos_bound x 65536). pose proof (Z.div_mod y 65536). pose proof (Z.mod_pos_bound y 65536).
  pose proof (dare_size_int64 (zlen p.2)). assert (max_content ≤ max_int64) by done. pose proof (dare_size_whole (zlen p.2) (x / 65536)).
  destruct (held_range (x / 65536) p P2 A q B (y / 65536 + 1)) as (Hm & Ha & Hheld); [done|done|lia|lia| |lia|lia|].
  { intros ->. change (zsum (part_sizes [])) with 0 in *. pose proof (Z.div_le_mono x y 65536). lia. }
  rewrite encrypted_slice by (done || lia). replace (length (part_sizes P1)) with (length P1) by (unfold part_sizes; by rewrite length_fmap).
  unfold DecryptBlocksRequestR. rewrite list_lookup_fmap, list_lookup_middle by done. cbn [fmap option_fmap option_map].
  change SSEDAREPackageBlockSize with 65536. rewrite (wrap64_small (x / 65536 * 65536)), (wrap64_small (x / 65536 * package)) by (unfold in_int64, min_int64; lia).
  destruct (build_decrypter (P1 ++ p :: P2) P1 p P2 (x / 65536) _ eq_refl ltac:(lia) ltac:(lia) HP2 Hm Ha) as (dec & m' & Hb & Hm' & Ha' & Hh & Hdec).
  eexists _, (dec ++ held_content P2 m'). split; [exact Hb|]. split.
  - exists P1, p, P2, m'. cbn [d_partIndex d_partDecRelOffset d_reader d_decrypter]. split_and!; try done; try lia.
  - rewrite <- Hh, Hheld, HAB. replace off with (zsum (part_sizes P1) + x) by lia. apply range_content; lia.
Qed.

(** C11: reading a range of an encrypted object in parts. The bytes that [GetDecryptedRange] selects are decrypted by the reader for blocks, with buffers that
    are not larger than a part, the last one aside; what the reads give, after the bytes to skip, is the range of the content that was asked for. *)
Theorem encrypted_range_read Ps o s h r ns :
  stored_object Ps o → Ps ≠ [] → parseRequestRangeSpec s = Ok h → GetDecryptedRange o (Some h) = Ok r →
  ∃ off len, GetOffsetLength (Some h) (zlen (plain_object Ps)) = Ok (off, len) ∧
    (Forall (fits Ps) ns → zsum ns = er_skipLen r + len →
     ∃ d d' data, DecryptBlocksRequestR objectKey (en_Parts o) (slice (encrypted_object Ps) (er_encOff r) (er_encLength r)) (er_seqNumber r) (er_partStart r) = Ok d ∧
       dbr_reads objectKey (en_Parts o) ns d = Ok (data, d') ∧ drop (Z.to_nat (er_skipLen r)) data = slice (plain_object Ps) off len).
Proof.
  intros Ho HPs Hparse Hr. destruct (range_of_object Ps o h r Ho HPs (parse_wf _ _ Hparse) Hr) as (off & len & Hgol & H0' & Hl & Hsum & Hdr).
  destruct Ho as (-> & _ & _ & Hs & Hd). rewrite plain_object_length. exists off, len. split; [done|]. intros Hns Hsumns.
  destruct (range_reads Ps off len r Hs Hd H0' Hl Hsum Hdr) as (d & rest & Hreq & Hreads & Hle & Hdata).
  destruct (reads_all Ps ns d rest) as [d' Hrs]; [done|done|lia|done|]. exists d, d', (slice rest 0 (zsum ns)). by rewrite Hsumns in Hrs |- *.
Qed.

End Reader.

(** ** An instance of the format *)

Definition tag : bytes := replicate 32 x00.

Section Blocks.
Context (block : nat) (Hblock : (0 < block)%nat).

(** Packages of [block] bytes of content and 32 more bytes, and their content. *)
Fixpoint seal_blocks (fuel : nat) (p : bytes) : bytes :=
  match fuel, p with
  | O, _ | _, [] => []
  | S fuel, _ => (take block p ++ tag) ++ seal_blocks fuel (drop block p)
  end.

Fixpoint open_blocks (fuel : nat) (c : bytes) : bytes :=
  match fuel, c with
  | O, _ | _, [] => []
  | S fuel, _ =>
      let chunk := take (block + 32) c in
      take (length chunk - 32) chunk ++ open_blocks fuel (drop (block + 32) c)
  end.

Lemma seal_drop i fuel p :
  (length p <= fuel)%nat → (i * block <= length p)%nat → drop (i * (block + 32)) (seal_blocks fuel p) = seal_blocks (fuel - i) (drop (i * block) p).
Proof.
  revert fuel p. induction i as [|i IH]; intros fuel p Hp Hi; [by rewrite Nat.sub_0_r|].
  destruct fuel as [|fuel]; [destruct p; [|cbn in Hp; lia]; cbn in Hi; lia|]. destruct p as [|b p]; [cbn in Hi; lia|].
  cbn [seal_blocks]. set (l := b :: p) in *. cbn [Nat.mul Nat.sub] in *. rewrite <- (drop_drop l (i * block) block), <- (drop_drop _ (i * (block + 32)) (block + 32)).
  rewrite drop_app_length' by (rewrite length_app, length_take; change (length tag) with 32%nat; lia). apply IH; rewrite length_drop; lia.
Qed.

Lemma open_empty fuel : open_blocks fuel [] = [].
Proof. by destruct fuel. Qed.

Lemma open_cons fuel c : (0 < length c)%nat →
  open_blocks (S fuel) c = take (length (take (block + 32) c) - 32) (take (block + 32) c) ++ open_blocks fuel (drop (block + 32) c).
Proof. destruct c; [cbn; lia|done]. Qed.

Lemma open_seal j fuel fuel' p :
  (length p <= fuel)%nat → (length (take (j * (block + 32)) (seal_blocks fuel p)) <= fuel')%nat →
  open_blocks fuel' (take (j * (block + 32)) (seal_blocks fuel p)) = take (j * block) p.
Proof.
  revert fuel fuel' p. induction j as [|j IH]; intros fuel fuel' p Hf Hf'; [by rewrite !Nat.mul_0_l, !take_0, open_empty|].
  destruct p as [|b p]; [destruct fuel; cbn [seal_blocks]; by rewrite !take_nil, open_empty|].
  destruct fuel as [|fuel]; [cbn in Hf; lia|]. cbn [seal_blocks] in *. set (l := b :: p) in *. assert (0 < length l)%nat by (subst l; cbn; lia).
  set (c := take block l ++ tag) in *. assert (length c = (Nat.min block (length l) + 32)%nat) as Hc by (subst c; rewrite length_app, length_take; done).
  assert (take (length c - 32) c = take block l) as Hcut by (subst c; apply take_app_length'; rewrite length_take; lia). cbn [Nat.mul] in *.
  destruct fuel' as [|fuel']; [rewrite take_app, length_app, length_take in Hf'; lia|].
  destruct (Nat.le_gt_cases (length l) block) as [Hle|Hgt].
  - rewrite (drop_ge l block) in * by done. replace (seal_blocks fuel []) with (@nil byte) by (by destruct fuel). rewrite app_nil_r. rewrite (take_ge c) by lia.
    rewrite open_cons by lia. rewrite (take_ge c), drop_ge, open_empty, Hcut, app_nil_r by lia. rewrite !take_ge by lia. done.
  - assert (take (block + 32 + j * (block + 32)) (c ++ seal_blocks fuel (drop block l)) = c ++ take (j * (block + 32)) (seal_blocks fuel (drop block l))) as Htake
      by (rewrite take_app_ge by lia; do 2 f_equal; lia).
    rewrite Htake in *. rewrite length_app in Hf'. rewrite open_cons by (rewrite length_app; lia).
    rewrite (take_app_length' c), (drop_app_length' c) by lia. rewrite Hcut, IH by (rewrite ?length_drop; lia). by rewrite take_take_drop.
Qed.

Lemma seal_length fuel p : Z.of_nat block = 65536 → (length p <= fuel)%nat → zlen (seal_blocks fuel p) = dare_size (zlen p).
Proof.
  intros Hb. revert p. induction fuel as [|fuel IH]; intros [|b p] Hp; try done; [cbn in Hp; lia|]. cbn [seal_blocks]. set (l := b :: p) in *.
  assert (0 < length l)%nat by (subst l; cbn; lia). rewrite !zlen_app, IH by (rewrite length_drop; lia).
  assert (zlen (take block l) = Z.min 65536 (zlen l) ∧ zlen (drop block l) = Z.max 0 (zlen l - 65536) ∧ zlen tag = 32) as (-> & -> & ->).
  { unfold zlen. rewrite length_take, length_drop. split_and!; [lia..|done]. }
  assert (0 < zlen l) by (unfold zlen; lia). unfold dare_size, SSEDAREPackageMetaSize, SSEDAREPackageBlockSize. change (64 * 1024) with 65536.
  destruct (Z.le_gt_cases (zlen l) 65536).
  - rewrite Z.max_l, Z.min_r by lia. pose proof (Z.div_unique (zlen l + (65536 - 1)) 65536 1 (zlen l - 1)). change ((0 + (65536 - 1)) / 65536) with 0. lia.
  - rewrite Z.max_r, Z.min_l by lia. replace (zlen l + (65536 - 1)) with (zlen l - 65536 + (65536 - 1) + 1 * 65536) by lia. rewrite Z.div_add by lia. lia.
Qed.

End Blocks.

Definition block_size : nat := Z.to_nat SSEDAREPackageBlockSize.

Lemma block_size_Z : Z.of_nat block_size = 65536.
Proof. apply (Z2Nat.id SSEDAREPackageBlockSize). done. Qed.

#[global] Opaque block_size.

Lemma sealed_length fuel p : (length p <= fuel)%nat → zlen (seal_blocks block_size fuel p) = dare_size (zlen p).
Proof. pose proof block_size_Z. apply seal_length; lia. Qed.

Lemma dare_size_blocks n : 0 ≤ n → (dare_size n + (package - 1)) / package = (n + 65535) / 65536.
Proof.
  intros Hn. unfold dare_size, package, SSEDAREPackageMetaSize, SSEDAREPackageBlockSize. change (64 * 1024) with 65536. change (65536 - 1) with 65535.
  pose proof (Z.div_mod (n + 65535) 65536). pose proof (Z.mod_pos_bound (n + 65535) 65536). set (k := (n + 65535) / 65536) in *.
  symmetry. apply (Z.div_unique _ _ k (n + 32 * k + (65536 + 32 - 1) - (65536 + 32) * k)); lia.
Qed.

Lemma mul_block i : 0 ≤ i → (Z.to_nat i * block_size)%nat = Z.to_nat (i * 65536) ∧ (Z.to_nat i * (block_size + 32))%nat = Z.to_nat (i * package).
Proof.
  intros Hi. pose proof block_size_Z as Hb. change package with 65568. split; apply Nat2Z.inj; rewrite Nat2Z.inj_mul, ?Nat2Z.inj_add, Hb, !Z2Nat.id by lia; lia.
Qed.

#[export] Instance block_sio : Sio := {
  EncryptedSize n := if (0 <=? n) && (n <=? max_content) then Some (dare_size n) else None;
  DecryptedSize m :=
    let n := m - 32 * ((m + (package - 1)) / package) in
    if (0 <=? n) && (n <=? max_content) && (dare_size n =? m) then Some n else None;
  EncryptStream _ p := seal_blocks block_size (length p) p;
  DecryptStream _ _ c := open_blocks block_size (length c) c;
}.

(** A reader that starts with package [i]. *)
Lemma open_from p i m :
  0 ≤ i → i * 65536 ≤ zlen p → 0 ≤ m → (m mod package = 0 ∨ dare_size (zlen p) ≤ i * package + m) →
  let c := slice (seal_blocks block_size (length p) p) (i * package) m in
  open_blocks block_size (length c) c = slice p (i * 65536) (if dare_size (zlen p) <=? i * package + m then zlen p else m / package * 65536).
Proof.
  intros Hi Hle Hm Ha c. subst c. pose proof block_size_Z as Hb. assert (package = 65568) as Hpk by done. destruct (mul_block i Hi) as [Hi1 Hi2].
  pose proof (seal_drop block_size ltac:(lia) (Z.to_nat i) (length p) p ltac:(reflexivity) ltac:(rewrite Hi1; unfold zlen in Hle; lia)) as Hdrop. rewrite Hi1, Hi2 in Hdrop.
  unfold slice. rewrite Hdrop. set (p' := drop _ p) in *. set (f := (length p - Z.to_nat i)%nat) in *.
  assert (length p' <= f)%nat as Hf by (subst p' f; rewrite length_drop; lia). pose proof (sealed_length f p' Hf) as Hlen.
  assert (zlen (seal_blocks block_size f p') = dare_size (zlen p) - i * package) as Hlen'.
  { rewrite <- Hdrop. rewrite zlen_drop, sealed_length by lia. pose proof (dare_size_whole (zlen p) i). lia. }
  destruct (Z.leb_spec (dare_size (zlen p)) (i * package + m)) as [Hall|Hpart].
  - set (w := seal_blocks block_size f p') in *. change (zlen w) with (Z.of_nat (length w)) in Hlen, Hlen'. rewrite (take_ge w) by lia. pose proof (open_seal block_size ltac:(lia) (length w) f (length w) p' Hf) as Ho. fold w in Ho.
    pose proof (dare_size_bounds (zlen p')). assert (zlen p' = Z.of_nat (length p')) as Hp' by done.
    pose proof (Nat.le_mul_r (length w) (block_size + 32) ltac:(lia)). pose proof (Nat.le_mul_r (length w) block_size ltac:(lia)).
    rewrite (take_ge w), (take_ge p') in Ho by lia. rewrite Ho by reflexivity. rewrite take_ge; [done|]. subst p'. rewrite length_drop. unfold zlen. lia.
  - destruct Ha as [Ha|?]; [|lia]. pose proof (Z.div_mod m package) as Hdm. destruct (mul_block (m / package)) as [Hm1 Hm2]; [apply Z.div_pos; lia|].
    replace (Z.to_nat m) with (Z.to_nat (m / package) * (block_size + 32))%nat by (rewrite Hm2; f_equal; lia).
    rewrite open_seal by lia. by rewrite Hm1.
Qed.

#[export] Instance block_sio_laws : SioLaws.
Proof.
  constructor; cbn [EncryptedSize DecryptedSize EncryptStream DecryptStream block_sio].
  - intros n Hn. rewrite (proj2 (Z.leb_le 0 n)), (proj2 (Z.leb_le n _)) by lia. done.
  - intros n Hn. rewrite dare_size_blocks by lia. cbv zeta.
    replace (dare_size n - 32 * ((n + 65535) / 65536)) with n by (unfold dare_size, SSEDAREPackageMetaSize, SSEDAREPackageBlockSize; change (64 * 1024 - 1) with 65535; change (64 * 1024) with 65536; lia).
    rewrite (proj2 (Z.leb_le 0 n)), (proj2 (Z.leb_le n _)), Z.eqb_refl by lia. done.
  - intros m n Hm. cbv zeta. set (k := m - _). destruct (Z.leb_spec 0 k), (Z.leb_spec k max_content), (Z.eqb_spec (dare_size k) m); cbn [andb]; try done. intros [= <-]. lia.
  - intros _ p Hp. by apply sealed_length.
  - intros _ p i m Hp Hi Hle Hm Ha. rewrite sealed_length in * by done. by apply open_from.
Qed.

(** ** An object of two parts *)

#[local] Existing Instance open_primitives.

Definition demo_parts : list (Z * bytes) := [(1, [x61; x62; x63; x64; x65]); (2, [x66; x67; x68; x69])].

Definition demo_object : enc_info :=
  mkEncInfo "bucket" "object" 73 "etag-2" [(1, 37); (2, 36)] {[MetaMultipart := ""; MetaIV := ""; MetaSealedKeySSEC := ""]} true.

Definition demo_range : HTTPRangeSpec := mkRange false 3 6.
Definition demo_selected : enc_range := mkEncRange 0 73 3 0 0.

Lemma demo_object_stored : stored_object demo_parts demo_object.
Proof. split_and!; [vm_compute; reflexivity..| |vm_compute; discriminate]. repeat constructor; vm_compute; congruence. Qed.

Lemma demo_object_range : GetDecryptedRange demo_object (Some demo_range) = Ok demo_selected.
Proof. vm_compute. reflexivity. Qed.

Lemma demo_fits : Forall (fits demo_parts) [4; 3].
Proof. repeat constructor; vm_compute; congruence. Qed.

Lemma encrypted_range_bounds_witness :
  er_encOff demo_selected + er_encLength demo_selected ≤ zlen (encrypted_object [] demo_parts) ∧ 0 ≤ er_skipLen demo_selected < 65536.
Proof.
  destruct (encrypted_range_bounds [] demo_parts demo_object demo_range demo_selected) as (off & len & first & lastIndex & last & _ & _ & _ & _ & _ & _ & Hskip & _ & _ & _ & Hlen);
    [apply demo_object_stored|done|vm_compute; intuition discriminate|apply demo_object_range|].
  split; [exact Hlen|exact Hskip].
Defined.

Lemma encrypted_range_read_witness :
  ∃ off len, GetOffsetLength (Some demo_range) (zlen (plain_object demo_parts)) = Ok (off, len) ∧
    (zsum [4; 3] = er_skipLen demo_selected + len →
     ∃ d d' data, DecryptBlocksRequestR [] (en_Parts demo_object) (slice (encrypted_object [] demo_parts) 0 73) 0 0 = Ok d ∧
       dbr_reads [] (en_Parts demo_object) [4; 3] d = Ok (data, d') ∧ drop 3 data = slice (plain_object demo_parts) off len).
Proof.
  destruct (encrypted_range_read [] demo_parts demo_object "bytes=3-6" demo_range demo_selected [4; 3]) as (off & len & Hoff & Hread);
    [apply demo_object_stored|done|vm_compute; reflexivity|apply demo_object_range|].
  exists off, len. split; [exact Hoff|]. exact (Hread demo_fits).
Defined.
