(* ===== verification/SSEETag.v ===== *)
(** * ETags of encrypted objects (cmd/encryption-v1.go, cmd/object-api-utils.go, cmd/object-handlers.go)

    The ETag of an upload is sealed with the key of the object before it is stored. What the response to the upload shows
    and what a later request shows are computed in different places; here they are the same, if the ETag is a hash of the content. *)

From Stdlib Require Import ZArith Lia Bool Ascii.
From Stdlib.Strings Require Import Byte.
From S2P Require Import Prelude GoStrings GoPath ETag SSEMeta Erasure Msgp GoBase64 KMS SSE SSEProofs HttpRange Dare DareProofs.

Local Open Scope go_scope.
Local Open Scope Z_scope.

Definition AmzCopySource : string := "X-Amz-Copy-Source".

(** [strings.Count] of a character. *)
Fixpoint count_char (c : ascii) (s : string) : nat :=
  match s with EmptyString => 0%nat | String a s => if Ascii.eqb a c then S (count_char c s) else count_char c s end.

(** [s[len(s)-32:]] *)
Definition last32 (s : string) : outcome sse_error string :=
  if (String.length s <? 32)%nat then Panic "slice bounds out of range" else Ok (str_drop (String.length s - 32) s).

Definition zero_key : bytes := replicate 32 x00.

(** [strconv.ParseInt(s, 10, 32)] succeeds. *)
Definition int32_ok (s : string) : bool :=
  match ParseInt s with Some v => (- 2 ^ 31 <=? v) && (v <? 2 ^ 31) | None => false end.

Section ETags.
Context `{Primitives} `{!Sealing} `{!ContextJSON}.

(** ** Uploads *)

Definition sealETag (encKey md5CurrSum : bytes) : outcome sse_error bytes :=
  if bool_decide (encKey = zero_key) then Ok md5CurrSum else SealETag encKey md5CurrSum.

(** The key is the one of [WithEncryption], if it was called; [md5] is the hash of the reader, and [random] the 16 bytes that are read if there is none. *)
Definition MD5CurrentHexString (sealKey : option bytes) (md5 random : bytes) : outcome sse_error string :=
  let '(md5sumCurr, appendHyphen) := if (length md5 =? 0)%nat then (random, true) else (md5, false) in
  md5sumCurr ←? match sealKey with Some key => sealETag key md5sumCurr | None => Ok md5sumCurr end;
  if appendHyphen : bool then
    if (String.length (EncodeHex md5sumCurr) <? 32)%nat then Panic "slice bounds out of range" else Ok (str_take 32 (EncodeHex md5sumCurr) +:+ "-1")
  else Ok (EncodeHex md5sumCurr).

(** ** Reading ETags *)

Definition DecryptETag (key : bytes) (etag : string) : outcome sse_error string :=
  let n := count_char "-"%char etag in
  if (0 <? n)%nat then
    if negb (n =? 1)%nat then Err errObjectTampered
    else
      let i := default 0%nat (index_char "-"%char etag) in
      if negb (i =? 32)%nat then Err errObjectTampered
      else match DecodeHex (str_take 32 etag) with
      | None => Err errObjectTampered
      | Some _ => if int32_ok (str_drop (S i) etag) then Ok etag else Err errObjectTampered
      end
  else match DecodeHex etag with
  | None => Err (OtherError "encoding/hex: invalid byte")
  | Some b => b ←? UnsealETag key b; Ok (EncodeHex b)
  end.

Definition tryDecryptETag (key : bytes) (encryptedETag : string) (ssec : bool) : outcome sse_error string :=
  if ssec then last32 encryptedETag
  else match DecodeHex encryptedETag with
  | None => Ok encryptedETag
  | Some encBytes =>
      match UnsealETag key encBytes with
      | Ok etagBytes => Ok (EncodeHex etagBytes)
      | _ => Ok encryptedETag
      end
  end.

Definition getDecryptedETag (sys : services) (h : Header) (o : enc_info) (copySource : bool) : outcome sse_error string :=
  if (String.length (en_ETag o) =? 32)%nat then Ok (en_ETag o)
  else if IsMultiPart (en_UserDefined o) then Ok (en_ETag o)
  else match (if SSECopy_IsRequested h then SSECopy_ParseHTTP h else Ok zero_key) with
  | Ok key =>
      if (SSEC_IsEncrypted (en_UserDefined o) || S3KMS_IsEncrypted (en_UserDefined o)) && negb copySource then last32 (en_ETag o)
      else match decryptObjectInfo sys key (en_Bucket o) (en_Name o) (en_UserDefined o) with
      | Ok objectEncryptionKey => tryDecryptETag objectEncryptionKey (en_ETag o) false
      | Err _ => Ok (en_ETag o)
      | Panic w => Panic w
      end
  | Err _ => Ok (en_ETag o)
  | Panic w => Panic w
  end.

Definition lift_sse {A} (m : outcome sse_error A) : outcome dec_error A :=
  match m with Ok a => Ok a | Err e => Err (SseErr e) | Panic w => Panic w end.

(** The request is its method and its header; the results are whether the object is encrypted, and its ETag, which is changed in place. *)
Definition DecryptObjectInfo `{!Sio} (sys : services) (isDir : bool) (o : enc_info) (request : option (string * Header)) : outcome dec_error (bool * string) :=
  if isDir then Ok (false, en_ETag o)
  else match request with
  | None => Err (SseErr (OtherError "Invalid arguments specified"))
  | Some (method, headers) =>
      if (String.eqb method "GET" || String.eqb method "HEAD") && (S3_IsRequested headers || S3KMS_IsRequested headers) then Err (SseErr errInvalidEncryptionParameters)
      else
        let encrypted := (IsEncrypted (en_UserDefined o)).2 in
        let no_copy := String.eqb (header_Get headers AmzCopySource) "" in
        let customer := SSEC_IsRequested headers || SSECopy_IsRequested headers in
        if negb encrypted && SSEC_IsRequested headers && no_copy then Err (SseErr errInvalidEncryptionParameters)
        else if negb encrypted then Ok (false, en_ETag o)
        else if SSEC_IsEncrypted (en_UserDefined o) && negb customer then Err (SseErr errEncryptedObject)
        else if S3_IsEncrypted (en_UserDefined o) && no_copy && customer then Err (SseErr errEncryptedObject)
        else if S3KMS_IsEncrypted (en_UserDefined o) && no_copy && customer then Err (SseErr errEncryptedObject)
        else
          _ ←? oi_DecryptedSize o;
          if IsMultiPart (en_UserDefined o) then Ok (true, en_ETag o)
          else etag ←? lift_sse (getDecryptedETag sys headers o false); Ok (true, etag)
  end.

(** The ETag in the response to an upload (PutObjectHandler). *)
Definition put_response_etag (metadata : Metadata) (objectEncryptionKey : bytes) (etag : string) : string :=
  match (IsEncrypted metadata).1 with
  | Some S3 => match DecryptETag objectEncryptionKey etag with Ok etag => etag | _ => "" end
  | Some _ =>
      if (32 <=? String.length etag)%nat && negb (count_char "-"%char etag =? 1)%nat then str_drop (String.length etag - 32) etag else etag
  | None => etag
  end.

Definition deriveClientKey (clientKey : bytes) (bucket object : string) : bytes :=
  hmac_sha256 clientKey (string_bytes (Type_String SSEC) ++ string_bytes (Join [bucket; object])).

(** ** What is reported *)

Lemma count_no_char c s : no_char c s = true → count_char c s = 0%nat.
Proof. induction s as [|a s IH]; [done|]. cbn. destruct (Ascii.eqb a c); [done|]. exact IH. Qed.

Lemma count_char_app c a b : count_char c (a +:+ b) = (count_char c a + count_char c b)%nat.
Proof. induction a as [|x a IH]; [done|]. cbn. rewrite IH. by destruct (Ascii.eqb x c). Qed.

Lemma no_char_take c n s : no_char c s = true → no_char c (str_take n s) = true.
Proof. rewrite <- (str_take_drop n s) at 1. rewrite no_char_app. by intros [? _]%andb_true_iff. Qed.

Lemma bytes_string_length b : String.length (bytes_string b) = length b.
Proof. induction b as [|x b IH]; [done|]. unfold bytes_string in *. cbn. by f_equal. Qed.

Lemma EncodeHex_length b : String.length (EncodeHex b) = (2 * length b)%nat.
Proof. unfold EncodeHex. by rewrite hex_length, bytes_string_length. Qed.

Lemma DecodeHex_encode b : DecodeHex (EncodeHex b) = Some b.
Proof. unfold DecodeHex, EncodeHex. rewrite hex_roundtrip. cbn. by rewrite string_of_bytes. Qed.

Lemma EncodeHex_dashes b : count_char "-"%char (EncodeHex b) = 0%nat.
Proof. apply count_no_char. unfold EncodeHex. apply hex_no_dash. Qed.

Context `{!SealingLaws}.

(** The stored ETag of an upload whose hash is known. *)
Lemma stored_etag key md5 random etag :
  key ≠ zero_key → length md5 = 16%nat → MD5CurrentHexString (Some key) md5 random = Ok etag →
  ∃ sealed, etag = EncodeHex sealed ∧ length sealed = 48%nat ∧ UnsealETag key sealed = Ok md5.
Proof.
  intros Hkey Hmd5. unfold MD5CurrentHexString. rewrite Hmd5. cbn [Nat.eqb]. unfold sealETag. rewrite bool_decide_eq_false_2 by done.
  destruct (etag_unsealed key md5) as (sealed & Hs & Hu); [unfold zlen; rewrite Hmd5; lia|]. rewrite Hs. cbn [obind]. intros [= <-]. exists sealed. split_and!; try done.
  unfold SealETag in Hs. destruct md5 as [|b md5]; [done|]. destruct (encrypt_small (etag_key key) (b :: md5)) as (c & Hc & Hcl); [apply hmac_length|unfold zlen; rewrite Hmd5; lia|].
  rewrite Hc in Hs. injection Hs as <-. unfold zlen in Hcl. rewrite Hmd5 in Hcl. lia.
Qed.

(** For SSE-S3 no key is sent. *)
Lemma decrypt_S3_any_key sys key key' bucket object metadata :
  (IsEncrypted metadata).1 = Some S3 → decryptObjectInfo sys key bucket object metadata = decryptObjectInfo sys key' bucket object metadata.
Proof. intros Hk. unfold decryptObjectInfo. by rewrite Hk. Qed.

Lemma last32_sealed sealed : length sealed = 48%nat → last32 (EncodeHex sealed) = Ok (str_drop 64 (EncodeHex sealed)).
Proof. intros Hl. unfold last32. by rewrite EncodeHex_length, Hl. Qed.

Lemma read_etag `{!Sio} sys o method h encrypted etag' :
  SSECopy_IsRequested h = false → IsMultiPart (en_UserDefined o) = false → (IsEncrypted (en_UserDefined o)).2 = true → String.length (en_ETag o) ≠ 32%nat →
  DecryptObjectInfo sys false o (Some (method, h)) = Ok (encrypted, etag') →
  encrypted = true ∧
  (if SSEC_IsEncrypted (en_UserDefined o) || S3KMS_IsEncrypted (en_UserDefined o) then last32 (en_ETag o)
   else match decryptObjectInfo sys zero_key (en_Bucket o) (en_Name o) (en_UserDefined o) with
        | Ok key => tryDecryptETag key (en_ETag o) false | Err _ => Ok (en_ETag o) | Panic w => Panic w end) = Ok etag'.
Proof.
  intros Hcopy Hm Henc Hlen. unfold DecryptObjectInfo. rewrite Henc, Hm. cbn [negb andb]. case_if; [done|]. do 3 (case_if; [done|]).
  intros (size & _ & Hr)%obind_ok. revert Hr. unfold getDecryptedETag. rewrite Hm, Hcopy, (proj2 (Nat.eqb_neq _ _) Hlen). rewrite andb_true_r.
  match goal with |- context [lift_sse ?m] => destruct m as [e| |] eqn:Em end; [|done..]. cbn [lift_sse obind]. intros [= <- <-]. done.
Qed.

(** C23: the ETag that a later request shows for an encrypted object is the one in the response to its upload, if the ETag is a hash of the content; for
    SSE-S3 it is this hash. *)
Theorem reported_etag_agrees `{!Sio} sys kind key md5 random o method h encrypted etag' :
  (IsEncrypted (en_UserDefined o)).1 = Some kind → (kind ≠ SSEC → SSEC_IsEncrypted (en_UserDefined o) = false) → IsMultiPart (en_UserDefined o) = false →
  key ≠ zero_key → length md5 = 16%nat → MD5CurrentHexString (Some key) md5 random = Ok (en_ETag o) →
  decryptObjectInfo sys key (en_Bucket o) (en_Name o) (en_UserDefined o) = Ok key ∨ kind ≠ S3 →
  SSECopy_IsRequested h = false → DecryptObjectInfo sys false o (Some (method, h)) = Ok (encrypted, etag') →
  encrypted = true ∧ etag' = put_response_etag (en_UserDefined o) key (en_ETag o) ∧ (kind = S3 → etag' = EncodeHex md5).
Proof.
  intros Hkind Hssec Hmulti Hkey Hmd5 Hetag Hdec Hcopy Hd. destruct (stored_etag _ _ _ _ Hkey Hmd5 Hetag) as (sealed & He & Hlen & Hu).
  assert ((IsEncrypted (en_UserDefined o)).2 = true) as Henc by (revert Hkind; unfold IsEncrypted; repeat case_match; done).
  apply read_etag in Hd as [-> Hr]; [|done..|]; [|rewrite He, EncodeHex_length, Hlen; done]. split; [done|].
  unfold put_response_etag. rewrite Hkind. rewrite He in *. rewrite EncodeHex_length, EncodeHex_dashes, Hlen. cbn [Nat.mul Nat.add Nat.leb Nat.eqb negb andb Nat.sub].
  rewrite (last32_sealed _ Hlen) in Hr. destruct kind.
  - assert (SSEC_IsEncrypted (en_UserDefined o) = true) as Es by (revert Hkind; unfold IsEncrypted; repeat case_match; done). rewrite Es in Hr. injection Hr as <-. done.
  - rewrite Hssec in Hr by done. assert (S3KMS_IsEncrypted (en_UserDefined o) = false) as Ek by (revert Hkind; unfold IsEncrypted; repeat case_match; done).
    destruct Hdec as [Hdec|?]; [|done]. rewrite (decrypt_S3_any_key _ _ key), Hdec, Ek in Hr by done. cbn [orb] in Hr. unfold tryDecryptETag in Hr. rewrite DecodeHex_encode, Hu in Hr. injection Hr as <-.
    unfold DecryptETag. rewrite EncodeHex_dashes, DecodeHex_encode. cbn [Nat.ltb Nat.leb]. rewrite Hu. done.
  - assert (S3KMS_IsEncrypted (en_UserDefined o) = true) as Ek by (revert Hkind; unfold IsEncrypted; repeat case_match; done). rewrite Ek, orb_true_r in Hr. injection Hr as <-. done.
Qed.

(** A random ETag of an object encrypted with a customer key loses its first two characters when it is read; the response to the upload has all of it. *)
Theorem random_etag_cut `{!Sio} sys key random o method h encrypted etag' :
  (IsEncrypted (en_UserDefined o)).1 = Some SSEC → IsMultiPart (en_UserDefined o) = false → MD5CurrentHexString (Some key) [] random = Ok (en_ETag o) →
  SSECopy_IsRequested h = false → DecryptObjectInfo sys false o (Some (method, h)) = Ok (encrypted, etag') →
  put_response_etag (en_UserDefined o) key (en_ETag o) = en_ETag o ∧ String.length (en_ETag o) = 34%nat ∧ etag' = str_drop 2 (en_ETag o).
Proof.
  intros Hkind Hmulti Hetag Hcopy Hd. unfold MD5CurrentHexString in Hetag. cbn [length Nat.eqb] in Hetag. apply obind_ok in Hetag as (sealed & _ & Hetag).
  destruct (String.length (EncodeHex sealed) <? 32)%nat eqn:El; [done|]. apply Nat.ltb_ge in El. match type of Hetag with Ok ?b = _ => assert (en_ETag o = b) as He by congruence end. clear Hetag.
  assert (String.length (en_ETag o) = 34%nat) as Hlen by (rewrite He, str_length_app, str_length_take by done; done).
  assert ((IsEncrypted (en_UserDefined o)).2 = true ∧ SSEC_IsEncrypted (en_UserDefined o) = true) as [Henc Es] by (revert Hkind; unfold IsEncrypted; repeat case_match; done).
  apply read_etag in Hd as [_ Hr]; [|done..|]; [|by rewrite Hlen]. rewrite Es in Hr. cbn [orb] in Hr. unfold last32 in Hr. rewrite Hlen in Hr. injection Hr as <-. split_and!; try done.
  unfold put_response_etag. rewrite Hkind, Hlen, He at 1. rewrite count_char_app, count_no_char; [done|]. by apply no_char_take, hex_no_dash.
Qed.

End ETags.

(** ** An object encrypted with SSE-S3 *)

#[local] Existing Instances open_primitives open_sealing open_sealing_laws demo_ctx_json.

Definition demo_s3 : outcome sse_error (bytes * Metadata) :=
  newEncryptMetadata demo_services demo_rnd (Some S3) "" [] "bucket" "object" demo_sse_metadata ∅.
Definition demo_s3_key : bytes := match demo_s3 with Ok p => p.1 | _ => [] end.
Definition demo_s3_metadata : Metadata := match demo_s3 with Ok p => p.2 | _ => ∅ end.
Definition demo_md5 : bytes := repeat x44 16.
Definition demo_s3_etag : string := match MD5CurrentHexString (Some demo_s3_key) demo_md5 [] with Ok e => e | _ => "" end.
Definition demo_s3_object : enc_info := mkEncInfo "bucket" "object" 37 demo_s3_etag [] demo_s3_metadata true.

Lemma demo_s3_read : DecryptObjectInfo demo_services false demo_s3_object (Some ("GET", ∅)) = Ok (true, EncodeHex demo_md5).
Proof. vm_compute. reflexivity. Qed.

Lemma demo_s3_opens : decryptObjectInfo demo_services demo_s3_key "bucket" "object" demo_s3_metadata = Ok demo_s3_key.
Proof. vm_compute. reflexivity. Qed.

Lemma demo_s3_key_nonzero : bool_decide (demo_s3_key = zero_key) = false.
Proof. vm_compute. reflexivity. Qed.

Lemma reported_etag_agrees_witness : EncodeHex demo_md5 = put_response_etag demo_s3_metadata demo_s3_key demo_s3_etag.
Proof.
  refine (proj1 (proj2 (reported_etag_agrees demo_services S3 demo_s3_key demo_md5 [] demo_s3_object "GET" ∅ true (EncodeHex demo_md5) _ _ _ _ _ _ _ _ demo_s3_read))).
  - vm_compute. reflexivity.
  - intros _. vm_compute. reflexivity.
  - vm_compute. reflexivity.
  - exact (bool_decide_eq_false_1 _ demo_s3_key_nonzero).
  - reflexivity.
  - vm_compute. reflexivity.
  - left. exact demo_s3_opens.
  - reflexivity.
Defined.

(** ** An object encrypted with a customer key, without a hash *)

Definition demo_ssec : outcome sse_error (bytes * Metadata) :=
  newEncryptMetadata demo_services demo_rnd (Some SSEC) "" demo_customer_key "bucket" "object" demo_sse_metadata ∅.
Definition demo_ssec_key : bytes := match demo_ssec with Ok p => p.1 | _ => [] end.
Definition demo_ssec_metadata : Metadata := match demo_ssec with Ok p => p.2 | _ => ∅ end.
Definition demo_ssec_etag : string := match MD5CurrentHexString (Some demo_ssec_key) [] demo_md5 with Ok e => e | _ => "" end.
Definition demo_ssec_object : enc_info := mkEncInfo "bucket" "object" 37 demo_ssec_etag [] demo_ssec_metadata true.
Definition demo_ssec_header : Header := {[AmzServerSideEncryptionCustomerAlgorithm := [AmzEncryptionAES]]}.

Lemma random_etag_cut_example :
  DecryptObjectInfo demo_services false demo_ssec_object (Some ("GET", demo_ssec_header)) = Ok (true, str_drop 2 demo_ssec_etag) ∧
  put_response_etag demo_ssec_metadata demo_ssec_key demo_ssec_etag = demo_ssec_etag ∧ String.length demo_ssec_etag = 34%nat.
Proof. vm_compute. auto. Qed.
