(* ===== verification/Lifecycle.v ===== *)
(** * Bucket lifecycle rules (internal/bucket/lifecycle)

    The data of a lifecycle configuration after XML decoding, its validation, and
    the functions that decide what happens to an object. A [time.Time] is the
    number of nanoseconds since the zero time (January 1, year 1, UTC), so that
    zero is [IsZero]; [now] is what [time.Now()] returns during the call.
    Decoding and encoding of XML are not modelled. *)

From Stdlib Require Import ZArith Lia Bool Ascii.
From S2P Require Import Prelude GoStrings ObjectNames Restore.

Local Open Scope Z_scope.

(** ** Data *)
Record Prefix := mkPrefix { prefix_string : string; prefix_set : bool }.
Record Tag := mkTag { tag_Key : string; tag_Value : string }.
Record And := mkAnd { and_Prefix : Prefix; and_Tags : list Tag }.
Record Filter := mkFilter {
  filter_set : bool; filter_Prefix : Prefix; filter_And : And; filter_Tag : Tag
}.
Record Expiration := mkExpiration {
  exp_Days : Z; exp_Date : Z; exp_DeleteMarker_val : bool; exp_DeleteMarker_set : bool; exp_set : bool
}.
Record Transition := mkTransition {
  tr_Days : Z; tr_Date : Z; tr_StorageClass : string; tr_set : bool
}.
Record NoncurrentVersionExpiration := mkNVE {
  nve_NoncurrentDays : Z; nve_NewerNoncurrentVersions : Z; nve_set : bool
}.
Record NoncurrentVersionTransition := mkNVT {
  nvt_NoncurrentDays : Z; nvt_StorageClass : string; nvt_set : bool
}.

Definition Enabled : string := "Enabled".
Definition Disabled : string := "Disabled".

Record Rule := mkRule {
  rule_ID : string;
  rule_Status : string;
  rule_Filter : Filter;
  rule_Prefix : Prefix;
  rule_Expiration : Expiration;
  rule_Transition : Transition;
  rule_NVE : NoncurrentVersionExpiration;
  rule_NVT : NoncurrentVersionTransition;
}.

Abbreviation Lifecycle := (list Rule).

Record ObjectOpts := mkObject {
  obj_Name : string;
  obj_UserTags : string;
  obj_ModTime : Z;
  obj_VersionID : string;
  obj_IsLatest : bool;
  obj_DeleteMarker : bool;
  obj_NumVersions : Z;
  obj_SuccessorModTime : Z;
  obj_TransitionStatus : string;
  obj_RestoreExpires : Z;
}.

Inductive Action :=
  | NoneAction | DeleteAction | DeleteVersionAction | TransitionAction
  | TransitionVersionAction | DeleteRestoredAction | DeleteRestoredVersionAction.

#[export] Instance Action_eq_dec : EqDecision Action.
Proof. solve_decision. Defined.

(** ** Errors *)
Inductive lc_error :=
  | errLifecycleTooManyRules | errLifecycleNoRule | errLifecycleDuplicateID | errXMLNotWellFormed
  | errInvalidRuleID | errEmptyRuleStatus | errInvalidRuleStatus | errUUID
  | errLifecycleInvalidDeleteMarker | errLifecycleInvalidExpiration | errTransitionInvalid
  | errInvalidFilter | errDuplicateTagKey | errInvalidTagKey | errInvalidTagValue.

Definition tag_String (t : Tag) : string := tag_Key t +:+ "=" +:+ tag_Value t.
Definition tag_IsEmpty (t : Tag) : bool := String.eqb (tag_Key t) "".
Definition tag_Validate (t : Tag) : option lc_error :=
  if (String.length (tag_Key t) =? 0)%nat || (128 <? RuneCountInString (tag_Key t))%nat
  then Some errInvalidTagKey
  else if (256 <? RuneCountInString (tag_Value t))%nat then Some errInvalidTagValue
  else None.

Definition and_isEmpty (a : And) : bool :=
  (length (and_Tags a) =? 0)%nat && negb (prefix_set (and_Prefix a)).

Fixpoint duplicate_key (seen : list string) (tags : list Tag) : bool :=
  match tags with
  | [] => false
  | t :: tags => bool_decide (tag_Key t ∈ seen) || duplicate_key (tag_Key t :: seen) tags
  end.
Definition ContainsDuplicateTag (a : And) : bool := duplicate_key [] (and_Tags a).

Definition and_Validate (a : And) : option lc_error :=
  let emptyPrefix := negb (prefix_set (and_Prefix a)) in
  let emptyTags := (length (and_Tags a) =? 0)%nat in
  if emptyPrefix && emptyTags then None
  else if (emptyPrefix && negb emptyTags) || (negb emptyPrefix && emptyTags) then Some errXMLNotWellFormed
  else if ContainsDuplicateTag a then Some errDuplicateTagKey
  else first_error (tag_Validate <$> and_Tags a).

Definition filter_IsEmpty (f : Filter) : bool := negb (filter_set f).

Definition filter_Validate (f : Filter) : option lc_error :=
  if filter_IsEmpty f then Some errXMLNotWellFormed
  else
    first_error
      [ if negb (and_isEmpty (filter_And f)) then
          if prefix_set (filter_Prefix f) then Some errInvalidFilter
          else if negb (tag_IsEmpty (filter_Tag f)) then Some errInvalidFilter
          else and_Validate (filter_And f)
        else None;
        if prefix_set (filter_Prefix f) && negb (tag_IsEmpty (filter_Tag f))
        then Some errInvalidFilter else None;
        if negb (tag_IsEmpty (filter_Tag f)) then
          if prefix_set (filter_Prefix f) then Some errInvalidFilter
          else tag_Validate (filter_Tag f)
        else None ].

Definition TestTags (f : Filter) (tags : list string) : bool :=
  let wanted :=
    tag_String <$> List.filter (λ t, negb (tag_IsEmpty t)) (and_Tags (filter_And f) ++ [filter_Tag f]) in
  forallb (λ ct, existsb (String.eqb ct) tags) wanted.

(** ** The actions of a rule *)
Definition exp_IsDaysNull (e : Expiration) : bool := exp_Days e =? 0.
Definition exp_IsDateNull (e : Expiration) : bool := exp_Date e =? 0.
Definition exp_IsNull (e : Expiration) : bool := exp_IsDaysNull e && exp_IsDateNull e.

Definition exp_Validate (e : Expiration) : option lc_error :=
  if negb (exp_set e) then None
  else if (negb (exp_IsDaysNull e) || negb (exp_IsDateNull e)) && exp_DeleteMarker_set e
  then Some errLifecycleInvalidDeleteMarker
  else if negb (exp_DeleteMarker_set e) && exp_IsDaysNull e && exp_IsDateNull e
  then Some errXMLNotWellFormed
  else if negb (exp_IsDaysNull e) && negb (exp_IsDateNull e) then Some errLifecycleInvalidExpiration
  else None.

Definition Day : Z := 24 * 3600 * 1000000000.

(** [time.Duration(days+1) * 24 * time.Hour] in 64 bits; [Truncate] rounds down
    to a multiple since the zero time. *)
Definition ExpectedExpiryTime (modTime days : Z) : Z :=
  if days =? 0 then modTime
  else
    let t := modTime + wrap64 (wrap64 (wrap64 (days + 1) * 24) * (3600 * 1000000000)) in
    t - t mod Day.

Definition tr_IsDateNull (t : Transition) : bool := tr_Date t =? 0.
Definition tr_IsNull (t : Transition) : bool := String.eqb (tr_StorageClass t) "".

Definition tr_Validate (t : Transition) : option lc_error :=
  if negb (tr_set t) then None
  else if negb (tr_IsDateNull t) && (0 <? tr_Days t) then Some errTransitionInvalid
  else if String.eqb (tr_StorageClass t) "" then Some errXMLNotWellFormed
  else None.

(** [None] for [false]. *)
Definition tr_NextDue (t : Transition) (obj : ObjectOpts) : option Z :=
  if negb (obj_IsLatest obj) || tr_IsNull t then None
  else if negb (tr_IsDateNull t) then Some (tr_Date t)
  else if tr_Days t =? 0 then Some (obj_ModTime obj)
  else Some (ExpectedExpiryTime (obj_ModTime obj) (tr_Days t)).

Definition nve_IsDaysNull (n : NoncurrentVersionExpiration) : bool := nve_NoncurrentDays n =? 0.
Definition nve_Validate (n : NoncurrentVersionExpiration) : option lc_error :=
  if negb (nve_set n) then None
  else if (nve_NoncurrentDays n =? 0) && (nve_NewerNoncurrentVersions n =? 0)
  then Some errXMLNotWellFormed
  else if (nve_NoncurrentDays n <? 0) || (nve_NewerNoncurrentVersions n <? 0)
  then Some errXMLNotWellFormed
  else None.

Definition nvt_IsNull (n : NoncurrentVersionTransition) : bool := String.eqb (nvt_StorageClass n) "".
Definition nvt_Validate (n : NoncurrentVersionTransition) : option lc_error :=
  if negb (nvt_set n) then None
  else if String.eqb (nvt_StorageClass n) "" then Some errXMLNotWellFormed else None.

Definition nvt_NextDue (n : NoncurrentVersionTransition) (obj : ObjectOpts) : option Z :=
  if obj_IsLatest obj || String.eqb (nvt_StorageClass n) "" then None
  else if nvt_NoncurrentDays n =? 0 then Some (obj_SuccessorModTime obj)
  else Some (ExpectedExpiryTime (obj_SuccessorModTime obj) (nvt_NoncurrentDays n)).

(** ** Rules *)
(** The generated id is assigned to the method's copy of the rule; [uuid_ok] is
    whether the random source works. *)
Definition validateID (uuid_ok : bool) (r : Rule) : option lc_error :=
  if (String.length (rule_ID r) =? 0)%nat then if uuid_ok then None else Some errUUID
  else if (255 <? String.length (rule_ID r))%nat then Some errInvalidRuleID else None.

Definition validateStatus (r : Rule) : option lc_error :=
  if (String.length (rule_Status r) =? 0)%nat then Some errEmptyRuleStatus
  else if negb (String.eqb (rule_Status r) Enabled) && negb (String.eqb (rule_Status r) Disabled)
  then Some errInvalidRuleStatus else None.

Definition validatePrefixAndFilter (r : Rule) : option lc_error :=
  let pset := prefix_set (rule_Prefix r) in
  let fempty := filter_IsEmpty (rule_Filter r) in
  if (negb pset && fempty) || (pset && negb fempty) then Some errXMLNotWellFormed
  else if negb pset then filter_Validate (rule_Filter r)
  else None.

Definition rule_Validate (uuid_ok : bool) (r : Rule) : option lc_error :=
  first_error
    [ validateID uuid_ok r; validateStatus r; exp_Validate (rule_Expiration r);
      nve_Validate (rule_NVE r); validatePrefixAndFilter r; tr_Validate (rule_Transition r);
      nvt_Validate (rule_NVT r);
      if negb (exp_set (rule_Expiration r)) && negb (tr_set (rule_Transition r))
         && negb (nve_set (rule_NVE r)) && negb (nvt_set (rule_NVT r))
      then Some errXMLNotWellFormed else None ].

Definition GetPrefix (r : Rule) : string :=
  let p := prefix_string (rule_Prefix r) in
  if negb (String.eqb p "") then p
  else
    let p := prefix_string (filter_Prefix (rule_Filter r)) in
    if negb (String.eqb p "") then p
    else prefix_string (and_Prefix (filter_And (rule_Filter r))).

(** The rule's [Tags] method. *)
Definition rule_Tags (r : Rule) : string :=
  let f := rule_Filter r in
  if negb (tag_IsEmpty (filter_Tag f)) then tag_String (filter_Tag f)
  else str_join "&" (tag_String <$> and_Tags (filter_And f)).

(** ** Lifecycle *)
Fixpoint duplicate_id (rules : list Rule) : bool :=
  match rules with
  | [] => false
  | r :: rules => existsb (λ o, String.eqb (rule_ID r) (rule_ID o)) rules || duplicate_id rules
  end.

Definition Validate (uuid_ok : bool) (lc : Lifecycle) : option lc_error :=
  if (1000 <? length lc)%nat then Some errLifecycleTooManyRules
  else if (length lc =? 0)%nat then Some errLifecycleNoRule
  else match first_error (rule_Validate uuid_ok <$> lc) with
       | Some e => Some e
       | None => if duplicate_id lc then Some errLifecycleDuplicateID else None
       end.

Definition HasTransition (lc : Lifecycle) : bool := existsb (λ r, tr_set (rule_Transition r)) lc.

(** Whether one rule makes [HasActiveRules] true. *)
Definition active_rule (now : Z) (prefix : string) (recursive : bool) (r : Rule) : bool :=
  let rp := GetPrefix r in
  if String.eqb (rule_Status r) Disabled then false
  else if (0 <? String.length prefix)%nat && (0 <? String.length rp)%nat
          && (if recursive then negb (HasPrefix prefix rp) && negb (HasPrefix rp prefix)
              else negb (HasPrefix prefix rp))
  then false
  else if 0 <? nve_NoncurrentDays (rule_NVE r) then true
  else if 0 <? nve_NewerNoncurrentVersions (rule_NVE r) then true
  else if negb (nvt_IsNull (rule_NVT r)) then true
  else if exp_IsNull (rule_Expiration r) && tr_IsNull (rule_Transition r) then false
  else if negb (exp_IsDateNull (rule_Expiration r)) && (exp_Date (rule_Expiration r) <? now) then true
  else if negb (exp_IsDaysNull (rule_Expiration r)) then true
  else if negb (tr_IsDateNull (rule_Transition r)) && (tr_Date (rule_Transition r) <? now) then true
  else negb (tr_IsNull (rule_Transition r)).
Definition HasActiveRules (now : Z) (prefix : string) (recursive : bool) (lc : Lifecycle) : bool :=
  existsb (active_rule now prefix recursive) lc.

(** What one rule contributes to [FilterActionableRules]: nothing, itself, or
    itself twice. *)
Definition actionable (obj : ObjectOpts) (r : Rule) : list Rule :=
  if String.eqb (rule_Status r) Disabled then []
  else if negb (HasPrefix (obj_Name obj) (GetPrefix r)) then []
  else if exp_DeleteMarker_val (rule_Expiration r) then [r]
  else if negb (nve_IsDaysNull (rule_NVE r)) then [r]
  else if 0 <? nve_NewerNoncurrentVersions (rule_NVE r) then [r]
  else if negb (nvt_IsNull (rule_NVT r)) then [r]
  else (if TestTags (rule_Filter r) (split_char "&"%char (obj_UserTags obj)) then [r] else [])
       ++ (if negb (tr_IsNull (rule_Transition r)) then [r] else []).

Definition FilterActionableRules (lc : Lifecycle) (obj : ObjectOpts) : list Rule :=
  if String.eqb (obj_Name obj) "" then [] else concat (actionable obj <$> lc).

Definition ExpiredObjectDeleteMarker (o : ObjectOpts) : bool :=
  obj_DeleteMarker o && (obj_NumVersions o =? 1).

(** What one rule decides in [ComputeAction]: [inl] is a [return], [inr] the value
    of [action] after the rule ([continue] included). *)
Definition rule_action (now : Z) (obj : ObjectOpts) (r : Rule) (action : Action) : Action + Action :=
  let e := rule_Expiration r in
  let n := rule_NVE r in
  let noncurrent :=
    negb (String.eqb (obj_VersionID obj) "") && negb (obj_IsLatest obj)
    && negb (obj_SuccessorModTime obj =? 0) in
  if ExpiredObjectDeleteMarker obj && exp_DeleteMarker_val e then inl DeleteVersionAction
  else if ExpiredObjectDeleteMarker obj && negb (exp_IsDaysNull e)
          && (ExpectedExpiryTime (obj_ModTime obj) (exp_Days e) <? now)
  then inl DeleteVersionAction
  else if negb (nve_IsDaysNull n) && negb (obj_IsLatest obj) && (0 <? nve_NewerNoncurrentVersions n)
  then inr action
  else if negb (nve_IsDaysNull n) && noncurrent
          && (ExpectedExpiryTime (obj_SuccessorModTime obj) (nve_NoncurrentDays n) <? now)
  then inl DeleteVersionAction
  else if negb (nvt_IsNull (rule_NVT r)) && noncurrent && negb (obj_DeleteMarker obj)
          && negb (String.eqb (obj_TransitionStatus obj) TransitionComplete)
          && match nvt_NextDue (rule_NVT r) obj with Some due => due <? now | None => false end
  then inl TransitionVersionAction
  else if String.eqb (obj_VersionID obj) "" || (obj_IsLatest obj && negb (obj_DeleteMarker obj)) then
    if (if negb (exp_IsDateNull e) then exp_Date e <? now
        else if negb (exp_IsDaysNull e)
        then ExpectedExpiryTime (obj_ModTime obj) (exp_Days e) <? now else false)
    then inl DeleteAction
    else
      let action :=
        if negb (String.eqb (obj_TransitionStatus obj) TransitionComplete)
           && match tr_NextDue (rule_Transition r) obj with Some due => due <? now | None => false end
        then TransitionAction else action in
      inr (if negb (obj_RestoreExpires obj =? 0) && (obj_RestoreExpires obj <? now)
           then if negb (String.eqb (obj_VersionID obj) "") then DeleteRestoredVersionAction
                else DeleteRestoredAction
           else action)
  else inr action.

Fixpoint actions_loop (now : Z) (obj : ObjectOpts) (rules : list Rule) (action : Action) : Action :=
  match rules with
  | [] => action
  | r :: rules =>
      match rule_action now obj r action with
      | inl a => a
      | inr action => actions_loop now obj rules action
      end
  end.

Definition ComputeAction (now : Z) (lc : Lifecycle) (obj : ObjectOpts) : Action :=
  if obj_ModTime obj =? 0 then NoneAction
  else actions_loop now obj (FilterActionableRules lc obj) NoneAction.

(** The earlier of the date found so far and a candidate. *)
Definition earlier (best : string * Z) (id : string) (t : Z) : string * Z :=
  if (best.2 =? 0) || (t <? best.2) then (id, t) else best.

Fixpoint expiry_loop (obj : ObjectOpts) (rules : list Rule) (best : string * Z) : string * Z :=
  match rules with
  | [] => best
  | r :: rules =>
      let e := rule_Expiration r in
      let n := rule_NVE r in
      if negb (obj_IsLatest obj) && (0 <? nve_NewerNoncurrentVersions n) then expiry_loop obj rules best
      else if negb (nve_IsDaysNull n) && negb (obj_IsLatest obj) && negb (String.eqb (obj_VersionID obj) "")
      then (rule_ID r, ExpectedExpiryTime (obj_SuccessorModTime obj) (nve_NoncurrentDays n))
      else
        let best := if negb (exp_IsDateNull e) then earlier best (rule_ID r) (exp_Date e) else best in
        let best := if negb (exp_IsDaysNull e)
                    then earlier best (rule_ID r) (ExpectedExpiryTime (obj_ModTime obj) (exp_Days e))
                    else best in
        expiry_loop obj rules best
  end.

Definition PredictExpiryTime (lc : Lifecycle) (obj : ObjectOpts) : string * Z :=
  if obj_DeleteMarker obj then ("", 0)
  else expiry_loop obj (FilterActionableRules lc obj) ("", 0).

Fixpoint transition_loop (obj : ObjectOpts) (rules : list Rule) (best : string * Z) : string * Z :=
  match rules with
  | [] => best
  | r :: rules =>
      let best := match tr_NextDue (rule_Transition r) obj with
                  | Some due => earlier best (rule_ID r) due | None => best end in
      let best := match nvt_NextDue (rule_NVT r) obj with
                  | Some due => earlier best (rule_ID r) due | None => best end in
      transition_loop obj rules best
  end.

Definition PredictTransitionTime (lc : Lifecycle) (obj : ObjectOpts) : string * Z :=
  if obj_DeleteMarker obj then ("", 0)
  else if String.eqb (obj_TransitionStatus obj) TransitionComplete then ("", 0)
  else transition_loop obj (FilterActionableRules lc obj) ("", 0).

Fixpoint tier_loop (obj : ObjectOpts) (rules : list Rule) : string :=
  match rules with
  | [] => ""
  | r :: rules =>
      if obj_IsLatest obj && negb (String.eqb (tr_StorageClass (rule_Transition r)) "")
      then tr_StorageClass (rule_Transition r)
      else if negb (obj_IsLatest obj) && negb (String.eqb (nvt_StorageClass (rule_NVT r)) "")
      then nvt_StorageClass (rule_NVT r)
      else tier_loop obj rules
  end.
Definition TransitionTier (lc : Lifecycle) (obj : ObjectOpts) : string :=
  tier_loop obj (FilterActionableRules lc obj).

(** Rule id, days, limit. *)
Fixpoint limit_loop (rules : list Rule) (ruleID : string) (days lim : Z) : string * Z * Z :=
  match rules with
  | [] => (ruleID, days, lim)
  | r :: rules =>
      let n := nve_NewerNoncurrentVersions (rule_NVE r) in
      if n =? 0 then limit_loop rules ruleID days lim
      else
        let lim := if (lim =? 0) || (lim <? n) then n else lim in
        let ndays := nve_NoncurrentDays (rule_NVE r) in
        if (days =? 0) || (ndays <? days) then limit_loop rules (rule_ID r) ndays lim
        else limit_loop rules ruleID days lim
  end.
Definition NoncurrentVersionsExpirationLimit (lc : Lifecycle) (obj : ObjectOpts) : string * Z * Z :=
  limit_loop (FilterActionableRules lc obj) "" 0 0.

(** ** Lemmas *)
Lemma expiry_product days :
  0 ≤ days ≤ 10 ^ 6 →
  wrap64 (wrap64 (wrap64 (days + 1) * 24) * (3600 * 1000000000)) = wrap64 ((days + 1) * Day).
Proof.
  intros H. rewrite (wrap64_small (days + 1)), (wrap64_small ((days + 1) * 24))
    by (unfold in_int64, min_int64, max_int64; lia).
  unfold Day. f_equal. lia.
Qed.

Lemma ExpectedExpiryTime_small m days :
  1 ≤ days ≤ 106750 →
  ExpectedExpiryTime m days = (m + (days + 1) * Day) - (m + (days + 1) * Day) mod Day.
Proof.
  intros H. unfold ExpectedExpiryTime. rewrite (proj2 (Z.eqb_neq days 0)) by lia.
  rewrite expiry_product by lia. rewrite wrap64_small; [done|].
  unfold in_int64, min_int64, max_int64, Day. lia.
Qed.

Lemma ExpectedExpiryTime_overflow m days :
  106751 ≤ days ≤ 213502 → ExpectedExpiryTime m days < m.
Proof.
  intros H. unfold ExpectedExpiryTime. rewrite (proj2 (Z.eqb_neq days 0)) by lia.
  rewrite expiry_product by lia. rewrite wrap64_over by (unfold max_int64, Day; lia).
  cbv zeta. set (t := m + _). pose proof (Z.mod_pos_bound t Day ltac:(unfold Day; lia)).
  assert (t < m) by (unfold t, Day; lia). lia.
Qed.

Lemma elem_actionable obj r x :
  x ∈ actionable obj r →
  x = r ∧ rule_Status r ≠ Disabled ∧ HasPrefix (obj_Name obj) (GetPrefix r) = true.
Proof.
  unfold actionable. destruct (String.eqb_spec (rule_Status r) Disabled); [by intros ?%not_elem_of_nil|].
  destruct (HasPrefix (obj_Name obj) (GetPrefix r)); cbn [negb]; [|by intros ?%not_elem_of_nil].
  intros Hx. split_and!; [|done|done]. revert Hx.
  repeat (case_if; [by intros ->%list_elem_of_singleton|]). intros Hx.
  apply elem_of_app in Hx as [Hx|Hx]; revert Hx; case_if;
    by (intros ->%list_elem_of_singleton || intros ?%not_elem_of_nil).
Qed.

Lemma elem_FilterActionable lc obj r :
  r ∈ FilterActionableRules lc obj →
  r ∈ lc ∧ rule_Status r ≠ Disabled ∧ HasPrefix (obj_Name obj) (GetPrefix r) = true.
Proof.
  unfold FilterActionableRules. case_if; [by intros ?%not_elem_of_nil|].
  intros (l & Hl & Hr)%list_elem_of_In%in_concat. apply list_elem_of_In in Hl, Hr.
  apply list_elem_of_fmap in Hl as (r' & -> & ?). by apply elem_actionable in Hr as (-> & ? & ?).
Qed.

(** ** When an action is justified *)

(** The object's expiry date according to a rule. *)
Definition expiry_of (obj : ObjectOpts) (r : Rule) : option Z :=
  let e := rule_Expiration r in
  if negb (exp_IsDateNull e) then Some (exp_Date e)
  else if negb (exp_IsDaysNull e) then Some (ExpectedExpiryTime (obj_ModTime obj) (exp_Days e))
  else None.

Definition expired (now : Z) (obj : ObjectOpts) (r : Rule) : Prop :=
  ∃ t, expiry_of obj r = Some t ∧ t < now.

(** The current version, or the only one of an unversioned object. *)
Definition is_current (obj : ObjectOpts) : Prop :=
  obj_VersionID obj = "" ∨ (obj_IsLatest obj = true ∧ obj_DeleteMarker obj = false).
Definition is_noncurrent (obj : ObjectOpts) : Prop :=
  obj_VersionID obj ≠ "" ∧ obj_IsLatest obj = false ∧ obj_SuccessorModTime obj ≠ 0.

(** What must hold of the object and a rule for an action. *)
Definition justified (now : Z) (obj : ObjectOpts) (r : Rule) (a : Action) : Prop :=
  match a with
  | NoneAction => True
  | DeleteAction => is_current obj ∧ expired now obj r
  | DeleteVersionAction =>
      (ExpiredObjectDeleteMarker obj = true ∧
       (exp_DeleteMarker_val (rule_Expiration r) = true ∨
        exp_Days (rule_Expiration r) ≠ 0 ∧
        ExpectedExpiryTime (obj_ModTime obj) (exp_Days (rule_Expiration r)) < now)) ∨
      (is_noncurrent obj ∧ nve_NoncurrentDays (rule_NVE r) ≠ 0 ∧
       ExpectedExpiryTime (obj_SuccessorModTime obj) (nve_NoncurrentDays (rule_NVE r)) < now)
  | TransitionAction =>
      is_current obj ∧ obj_TransitionStatus obj ≠ TransitionComplete ∧
      ∃ due, tr_NextDue (rule_Transition r) obj = Some due ∧ due < now
  | TransitionVersionAction =>
      is_noncurrent obj ∧ obj_DeleteMarker obj = false ∧
      obj_TransitionStatus obj ≠ TransitionComplete ∧
      ∃ due, nvt_NextDue (rule_NVT r) obj = Some due ∧ due < now
  | DeleteRestoredAction =>
      obj_VersionID obj = "" ∧ obj_RestoreExpires obj ≠ 0 ∧ obj_RestoreExpires obj < now
  | DeleteRestoredVersionAction =>
      obj_VersionID obj ≠ "" ∧ obj_RestoreExpires obj ≠ 0 ∧ obj_RestoreExpires obj < now
  end.

Lemma current_true obj :
  String.eqb (obj_VersionID obj) "" || (obj_IsLatest obj && negb (obj_DeleteMarker obj)) = true ↔
  is_current obj.
Proof.
  unfold is_current. rewrite orb_true_iff, andb_true_iff, negb_true_iff, String.eqb_eq. tauto.
Qed.

Lemma noncurrent_true obj :
  negb (String.eqb (obj_VersionID obj) "") && negb (obj_IsLatest obj)
    && negb (obj_SuccessorModTime obj =? 0) = true ↔ is_noncurrent obj.
Proof.
  unfold is_noncurrent. rewrite !andb_true_iff, !negb_true_iff, String.eqb_neq, Z.eqb_neq. tauto.
Qed.

Lemma expired_true now obj r :
  (if negb (exp_IsDateNull (rule_Expiration r)) then exp_Date (rule_Expiration r) <? now
   else if negb (exp_IsDaysNull (rule_Expiration r))
   then ExpectedExpiryTime (obj_ModTime obj) (exp_Days (rule_Expiration r)) <? now else false) = true ↔
  expired now obj r.
Proof.
  unfold expired, expiry_of. case_if; [|case_if].
  - rewrite Z.ltb_lt. split; [intros ?; by eexists|]. by intros (t & [= <-] & ?).
  - rewrite Z.ltb_lt. split; [intros ?; by eexists|]. by intros (t & [= <-] & ?).
  - split; [done|]. by intros (t & [=] & _).
Qed.

Lemma due_true now (d : option Z) :
  match d with Some due => due <? now | None => false end = true ↔ ∃ due, d = Some due ∧ due < now.
Proof.
  destruct d as [t|]; [|by split; [|intros (? & [=] & _)]]. rewrite Z.ltb_lt.
  split; [intros ?; by eexists|by intros (? & [= <-] & ?)].
Qed.

(** One rule: a returned action is justified by it; otherwise the running action
    is kept or replaced by a justified one. *)
Lemma rule_action_justified now obj r action :
  match rule_action now obj r action with
  | inl a => justified now obj r a
  | inr a => a = action ∨ justified now obj r a
  end.
Proof.
  unfold rule_action. set (nc := negb (String.eqb (obj_VersionID obj) "") && _ && _).
  case_if. { destruct_bools. left. auto. }
  case_if. { destruct_bools. left. unfold exp_IsDaysNull in *. destruct_bools. auto. }
  case_if; [by left|].
  case_if.
  { destruct_bools. right. unfold nve_IsDaysNull in *. destruct_bools. split_and!; try done.
    by apply noncurrent_true. }
  case_if.
  { rewrite !andb_true_iff, !negb_true_iff, due_true, String.eqb_neq in E3.
    destruct E3 as ((((_ & Hnc) & Hdm) & Hts) & Hd). split_and!; try done. by apply noncurrent_true. }
  case_if; [|by left]. apply current_true in E4.
  destruct (if negb (exp_IsDateNull _) then _ else _) eqn:E5.
  { split; [done|]. by apply expired_true. }
  destruct (negb (obj_RestoreExpires obj =? 0) && (obj_RestoreExpires obj <? now)) eqn:E6.
  { right. destruct_bools. destruct (String.eqb_spec (obj_VersionID obj) ""); cbn; auto. }
  case_if; [|by left]. right. rewrite andb_true_iff, negb_true_iff, due_true, String.eqb_neq in E7.
  destruct E7. done.
Qed.

Lemma actions_loop_justified now obj rules action :
  actions_loop now obj rules action = action ∨
  ∃ r, r ∈ rules ∧ justified now obj r (actions_loop now obj rules action).
Proof.
  revert action. induction rules as [|r rules IH]; intros action; [by left|]. cbn [actions_loop].
  pose proof (rule_action_justified now obj r action) as Hr.
  destruct (rule_action now obj r action) as [a|a].
  { right. exists r. split; [by left|done]. }
  destruct (IH a) as [-> | (r' & ? & ?)]; [|right; exists r'; split; [by right|done]].
  destruct Hr as [-> | ?]; [by left|]. right. exists r. split; [by left|done].
Qed.

(** The current version that is not a delete marker. *)
Lemma rule_action_latest now obj r action :
  obj_IsLatest obj = true → obj_DeleteMarker obj = false →
  (expired now obj r ∧ rule_action now obj r action = inl DeleteAction) ∨
  (¬ expired now obj r ∧ ∃ a, rule_action now obj r action = inr a ∧ (action ≠ DeleteAction → a ≠ DeleteAction)).
Proof.
  intros Hl Hd. unfold rule_action, ExpiredObjectDeleteMarker. rewrite Hl, Hd. cbn [negb andb].
  rewrite !andb_false_r, orb_true_r. cbn [andb]. rewrite ?andb_false_r. cbn [andb].
  pose proof (expired_true now obj r) as He. revert He.
  destruct (if negb (exp_IsDateNull _) then _ else _); intros He; [left|right].
  { split; [by apply He|done]. }
  split; [intros ?%He; done|]. eexists. split; [done|]. repeat case_if; done.
Qed.

Lemma actions_loop_latest now obj rules action :
  obj_IsLatest obj = true → obj_DeleteMarker obj = false → action ≠ DeleteAction →
  actions_loop now obj rules action = DeleteAction ↔ ∃ r, r ∈ rules ∧ expired now obj r.
Proof.
  intros Hl Hd. revert action. induction rules as [|r rules IH]; intros action Ha; cbn [actions_loop].
  { split; [done|]. by intros (? & ?%not_elem_of_nil & _). }
  destruct (rule_action_latest now obj r action Hl Hd) as [(He & ->) | (He & a & -> & Ha')].
  { split; [|done]. intros _. exists r. split; [by left|done]. }
  rewrite (IH a) by auto. split; intros (r' & Hr & Hx).
  - exists r'. split; [by right|done].
  - apply elem_of_cons in Hr as [-> | Hr]; [done|by exists r'].
Qed.

Definition before (now : Z) (best : string * Z) : Prop := best.2 ≠ 0 ∧ best.2 < now.

Lemma earlier_before now best id t :
  0 < t → 0 ≤ best.2 → 0 ≤ (earlier best id t).2 ∧
  (before now (earlier best id t) ↔ before now best ∨ t < now).
Proof.
  intros Ht Hb. unfold earlier, before. destruct best as [i b]. cbn in *.
  case_if; cbn; [apply orb_true_iff in E as [E|E]|]; destruct_bools; lia.
Qed.

(** A rule names a date or a number of days, and its dates are after the zero time. *)
Definition dated (obj : ObjectOpts) (r : Rule) : Prop :=
  (exp_Date (rule_Expiration r) = 0 ∨ exp_Days (rule_Expiration r) = 0) ∧
  ∀ t, expiry_of obj r = Some t → 0 < t.

Lemma expiry_loop_before now obj rules best :
  obj_IsLatest obj = true → Forall (dated obj) rules → 0 ≤ best.2 →
  before now (expiry_loop obj rules best) ↔ before now best ∨ ∃ r, r ∈ rules ∧ expired now obj r.
Proof.
  intros Hl Hr. revert best. induction Hr as [|r rules [Hone Hpos] Hr IH]; intros best Hb; cbn [expiry_loop].
  { split; [by left|]. intros [?|(? & ?%not_elem_of_nil & _)]; done. }
  rewrite Hl. cbn [negb andb]. rewrite andb_false_r. cbn [andb].
  set (best' := if negb (exp_IsDaysNull _) then _ else _).
  assert (0 ≤ best'.2 ∧ (before now best' ↔ before now best ∨ expired now obj r)) as [Hb' Hbb].
  { unfold best', expired. revert Hpos. unfold expiry_of, exp_IsDateNull, exp_IsDaysNull.
    destruct (Z.eqb_spec (exp_Date (rule_Expiration r)) 0); cbn [negb].
    - destruct (Z.eqb_spec (exp_Days (rule_Expiration r)) 0); cbn [negb]; intros Hpos.
      + split; [done|]. split; [by left|]. intros [?|(? & [=] & _)]; done.
      + destruct (earlier_before now best (rule_ID r)
          (ExpectedExpiryTime (obj_ModTime obj) (exp_Days (rule_Expiration r))) (Hpos _ eq_refl) Hb) as [? ->].
        split; [done|]. split; (intros [?|Hx]; [by left|right]); [by eexists|by destruct Hx as (? & [= <-] & ?)].
    - destruct (Z.eqb_spec (exp_Days (rule_Expiration r)) 0); cbn [negb]; [|by destruct Hone]. intros Hpos.
      destruct (earlier_before now best (rule_ID r) (exp_Date (rule_Expiration r)) (Hpos _ eq_refl) Hb) as [? ->].
      split; [done|]. split; (intros [?|Hx]; [by left|right]); [by eexists|by destruct Hx as (? & [= <-] & ?)]. }
  rewrite (IH best' Hb'), Hbb. setoid_rewrite elem_of_cons. split.
  - intros [[?|?]|(r' & ? & ?)]; [by left|right; exists r; auto|right; exists r'; auto].
  - intros [?|(r' & [->|?] & ?)]; [by left; left|by left; right|right; by exists r'].
Qed.

Lemma validateID_ok uuid_ok r : (1 ≤ String.length (rule_ID r) ≤ 255)%nat → validateID uuid_ok r = None.
Proof.
  intros Hid. unfold validateID.
  by rewrite (proj2 (Nat.eqb_neq _ _)), (proj2 (Nat.ltb_ge 255 _)) by lia.
Qed.

Lemma duplicate_id_pair l1 l2 l3 r1 r2 :
  rule_ID r1 = rule_ID r2 → duplicate_id (l1 ++ r1 :: l2 ++ r2 :: l3) = true.
Proof.
  intros Hid. induction l1 as [|r l1 IH]; cbn [app duplicate_id]; [|by rewrite IH, orb_true_r].
  apply orb_true_iff. left. apply existsb_exists. exists r2. split; [|by apply String.eqb_eq].
  apply in_or_app. right. by left.
Qed.

(** ** Properties *)

(** For a rule of 1 to 106750 days the expiry is the first midnight more than
    [days] days after the modification: never early, and at most a day late. *)
Theorem expiry_is_next_midnight m days :
  1 ≤ days ≤ 106750 →
  let t := ExpectedExpiryTime m days in
  t mod Day = 0 ∧ m + days * Day < t ≤ m + (days + 1) * Day.
Proof.
  intros H t. unfold t. rewrite ExpectedExpiryTime_small by done.
  set (x := m + (days + 1) * Day). pose proof (Z.mod_pos_bound x Day ltac:(unfold Day; lia)).
  split; [|unfold x in *; lia]. rewrite Zminus_mod, Zmod_mod, Z.sub_diag. done.
Qed.

Lemma expiry_is_next_midnight_witness :
  ExpectedExpiryTime (10 * Day + 5) 3 = 14 * Day ∧
  (ExpectedExpiryTime (10 * Day + 5) 3) mod Day = 0.
Proof.
  split; [vm_compute; reflexivity|]. apply (expiry_is_next_midnight (10 * Day + 5) 3). lia.
Defined.

(** A rule that expires the objects under a prefix after a number of days. *)
Definition expire_after (id prefix : string) (days : Z) : Rule :=
  mkRule id Enabled (mkFilter false (mkPrefix "" false) (mkAnd (mkPrefix "" false) []) (mkTag "" ""))
    (mkPrefix prefix true) (mkExpiration days 0 false false true) (mkTransition 0 0 "" false)
    (mkNVE 0 0 false) (mkNVT 0 "" false).

Lemma expire_after_actionable id prefix days obj :
  obj_Name obj ≠ "" → HasPrefix (obj_Name obj) prefix = true →
  FilterActionableRules [expire_after id prefix days] obj = [expire_after id prefix days].
Proof.
  intros Hn Hp. unfold FilterActionableRules. rewrite (proj2 (String.eqb_neq _ _) Hn).
  cbn [fmap list_fmap concat]. unfold actionable, GetPrefix. cbn.
  destruct (String.eqb_spec prefix ""); subst; cbn; by rewrite Hp.
Qed.

(** A rule of 106751 to 213502 days, which [Validate] accepts, overflows the
    64-bit duration: the expiry lies before the modification and an object under
    the prefix is to be deleted as soon as it is written. *)
Theorem long_expiry_deletes_at_once id prefix days now obj :
  106751 ≤ days ≤ 213502 → (1 ≤ String.length id ≤ 255)%nat →
  obj_Name obj ≠ "" → HasPrefix (obj_Name obj) prefix = true →
  obj_IsLatest obj = true → obj_DeleteMarker obj = false →
  0 < obj_ModTime obj ≤ now →
  Validate true [expire_after id prefix days] = None ∧
  ComputeAction now [expire_after id prefix days] obj = DeleteAction.
Proof.
  intros Hd Hid Hn Hp Hl Hm Ht. split.
  - unfold Validate. cbn [length Nat.ltb Nat.leb Nat.eqb fmap list_fmap]. unfold rule_Validate.
    rewrite validateID_ok by done. unfold exp_Validate, exp_IsDaysNull. cbn.
    rewrite (proj2 (Z.eqb_neq _ _)) by lia. done.
  - unfold ComputeAction. rewrite (proj2 (Z.eqb_neq _ _)) by lia.
    rewrite expire_after_actionable by done.
    apply actions_loop_latest; [done..|]. eexists. split; [by left|].
    unfold expired, expiry_of, exp_IsDateNull, exp_IsDaysNull. cbn.
    rewrite (proj2 (Z.eqb_neq days 0)) by lia. eexists. split; [done|].
    pose proof (ExpectedExpiryTime_overflow (obj_ModTime obj) days Hd). lia.
Qed.

(** An object modified (with its name) at a time, current and without tags. *)
Definition fresh_object (name tags : string) (t : Z) : ObjectOpts :=
  mkObject name tags t "" true false 1 0 "" 0.

Lemma long_expiry_deletes_at_once_witness :
  ComputeAction (738000 * Day) [expire_after "keep" "logs/" 110000] (fresh_object "logs/a" "" (738000 * Day))
  = DeleteAction.
Proof.
  apply (long_expiry_deletes_at_once "keep" "logs/" 110000 (738000 * Day));
    try (cbn; lia); try done.
Defined.

(** C37: no action without a reason: whatever [ComputeAction] returns other than
    [NoneAction] is justified by an enabled rule of the configuration whose prefix
    the object has — an expiry that passed for [DeleteAction] on a current
    version, a lone delete marker or the age of a noncurrent version for
    [DeleteVersionAction], a due transition, an expired restored copy. *)
Theorem actions_justified now lc obj :
  let a := ComputeAction now lc obj in
  a ≠ NoneAction →
  ∃ r, r ∈ lc ∧ rule_Status r ≠ Disabled ∧ HasPrefix (obj_Name obj) (GetPrefix r) = true ∧
    justified now obj r a.
Proof.
  cbn zeta. unfold ComputeAction. case_if; [done|]. intros Ha.
  destruct (actions_loop_justified now obj (FilterActionableRules lc obj) NoneAction) as [?|(r & Hr & Hj)];
    [done|].
  apply elem_FilterActionable in Hr as (? & ? & ?). by exists r.
Qed.

Lemma actions_justified_witness :
  let obj := fresh_object "logs/a" "" (738000 * Day) in
  ComputeAction (738005 * Day) [expire_after "short" "logs/" 3] obj = DeleteAction ∧
  ∃ r, r ∈ [expire_after "short" "logs/" 3] ∧ rule_Status r ≠ Disabled ∧
    HasPrefix (obj_Name obj) (GetPrefix r) = true ∧
    justified (738005 * Day) obj r (ComputeAction (738005 * Day) [expire_after "short" "logs/" 3] obj).
Proof.
  split; [vm_compute; reflexivity|].
  apply (actions_justified (738005 * Day) [expire_after "short" "logs/" 3]). by vm_compute.
Defined.

(** C38: what a client is told agrees with what is done: for the latest version of
    an object [ComputeAction] says delete exactly when the date of
    [PredictExpiryTime] (the expiration header) has passed. *)
Theorem predicted_expiry_is_deletion_time now lc obj :
  obj_ModTime obj ≠ 0 → obj_IsLatest obj = true → obj_DeleteMarker obj = false →
  Forall (dated obj) (FilterActionableRules lc obj) →
  ComputeAction now lc obj = DeleteAction ↔
  (PredictExpiryTime lc obj).2 ≠ 0 ∧ (PredictExpiryTime lc obj).2 < now.
Proof.
  intros Ht Hl Hm Hd. unfold ComputeAction, PredictExpiryTime.
  rewrite (proj2 (Z.eqb_neq _ _) Ht), Hm, actions_loop_latest by done.
  pose proof (expiry_loop_before now obj _ ("", 0) Hl Hd) as He. unfold before in He.
  rewrite He by done. cbn. split; [by right|]. intros [[]|]; done.
Qed.

Lemma predicted_expiry_is_deletion_time_witness :
  let obj := fresh_object "logs/a" "" (738000 * Day) in
  let lc := [expire_after "short" "logs/" 3] in
  PredictExpiryTime lc obj = ("short", 738004 * Day) ∧
  (ComputeAction (738004 * Day + 1) lc obj = DeleteAction ↔
   (PredictExpiryTime lc obj).2 ≠ 0 ∧ (PredictExpiryTime lc obj).2 < 738004 * Day + 1).
Proof.
  split; [vm_compute; reflexivity|].
  apply (predicted_expiry_is_deletion_time (738004 * Day + 1)); [done..|].
  rewrite expire_after_actionable by done. repeat constructor.
  intros t [= <-]. by vm_compute.
Defined.

(** Two rules without an ID are rejected, although the ID of a rule may be
    left out: the ID generated for each is lost with the method's copy. *)
Theorem two_unnamed_rules_rejected uuid_ok l1 l2 l3 r1 r2 :
  rule_ID r1 = "" → rule_ID r2 = "" →
  Validate uuid_ok (l1 ++ r1 :: l2 ++ r2 :: l3) ≠ None.
Proof.
  intros H1 H2. unfold Validate. rewrite duplicate_id_pair by congruence.
  repeat case_if; try done. by destruct (first_error _).
Qed.

Lemma two_unnamed_rules_rejected_witness :
  Validate true [expire_after "" "a/" 3] = None ∧
  Validate true [expire_after "" "a/" 3; expire_after "" "b/" 5] ≠ None.
Proof.
  split; [vm_compute; reflexivity|].
  by apply (two_unnamed_rules_rejected true [] [] [] (expire_after "" "a/" 3) (expire_after "" "b/" 5)).
Defined.

(** A rule that has both an expiration and a transition deletes an expired
    object whose tags do not match the rule's filter. *)
Theorem transition_bypasses_tag_filter now r obj :
  rule_Status r ≠ Disabled → obj_Name obj ≠ "" → HasPrefix (obj_Name obj) (GetPrefix r) = true →
  tr_IsNull (rule_Transition r) = false → TestTags (rule_Filter r) (split_char "&"%char (obj_UserTags obj)) = false →
  obj_ModTime obj ≠ 0 → obj_IsLatest obj = true → obj_DeleteMarker obj = false →
  expired now obj r →
  ComputeAction now [r] obj = DeleteAction.
Proof.
  intros Hs Hn Hp Ht Htags Hm Hl Hd He. unfold ComputeAction.
  rewrite (proj2 (Z.eqb_neq _ _) Hm). apply actions_loop_latest; [done..|]. exists r. split; [|done].
  unfold FilterActionableRules. rewrite (proj2 (String.eqb_neq _ _) Hn). cbn [fmap list_fmap concat].
  unfold actionable. rewrite (proj2 (String.eqb_neq _ _) Hs), Hp, Ht. cbn [negb].
  repeat (case_if; [by left|]). rewrite app_nil_r. apply elem_of_app. right. by left.
Qed.

(** A rule for the objects tagged [class=temp], with and without a transition. *)
Definition tagged_rule (tier : string) : Rule :=
  mkRule "temp" Enabled
    (mkFilter true (mkPrefix "" false) (mkAnd (mkPrefix "" false) []) (mkTag "class" "temp"))
    (mkPrefix "" false) (mkExpiration 3 0 false false true)
    (mkTransition 1 0 tier (negb (String.eqb tier ""))) (mkNVE 0 0 false) (mkNVT 0 "" false).

Lemma transition_bypasses_tag_filter_witness :
  let obj := fresh_object "a" "class=keep" (738000 * Day) in
  Validate true [tagged_rule "COLD"] = None ∧
  ComputeAction (738005 * Day) [tagged_rule ""] obj = NoneAction ∧
  ComputeAction (738005 * Day) [tagged_rule "COLD"] obj = DeleteAction.
Proof.
  split; [vm_compute; reflexivity|]. split; [vm_compute; reflexivity|].
  apply (transition_bypasses_tag_filter (738005 * Day)); try done.
  exists (738004 * Day). split; vm_compute; reflexivity.
Defined.
