(* ===== verification/ZcnPath.v ===== *)
(** * Bucket and object names as remote paths
    (cmd/gateway/zcn/gateway-zcn.go, cmd/gateway/zcn/dStorage.go)

    The gateway keeps a bucket as a directory of the allocation's root and an
    object as a file below it; the bucket named "root" stands for the root
    directory itself. *)

From Stdlib Require Import ZArith Lia Bool Ascii.
From S2P Require Import Prelude GoStrings GoPath ObjectNames.

Definition rootPath : string := "/".
Definition rootBucketName : string := "root".
Definition dirType : string := "d".
Definition fileType : string := "f".
Definition s3DirectoryContentType : string := "application/x-directory; charset=UTF-8".
Definition s3ContentHash : string := "d41d8cd98f00b204e9800998ecf8427e".

(** The [remotePath] every object handler begins with. *)
Definition objectRemotePath (bucket object : string) : string :=
  if String.eqb bucket rootBucketName then Join [rootPath; object]
  else Join [rootPath; bucket; object].

(** The [remotePath] of the bucket handlers. *)
Definition bucketRemotePath (bucket : string) : string :=
  if String.eqb bucket rootBucketName then rootPath else Join [rootPath; bucket].

Definition getCommonPrefix (remotePath : string) : string :=
  let pSlice := split_char slash (TrimSuffix remotePath "/") in
  if (length pSlice <? 2)%nat then "" else str_join "/" (drop 2 pSlice).

Definition getRelativePathOfObj (refPath bucketName : string) : string :=
  if String.eqb bucketName rootPath || String.eqb bucketName rootBucketName
  then TrimPrefix refPath rootPath
  else getCommonPrefix refPath.

(** ** Lemmas *)

(** The elements of the remote path of an object. *)
Definition remote_elems (bucket object : string) : list string :=
  clean_elems true
    ((if String.eqb bucket rootBucketName then [] else elems bucket) ++ elems object).

Lemma objectRemotePath_elems bucket object :
  objectRemotePath bucket object = abs_path (remote_elems bucket object).
Proof.
  unfold objectRemotePath, remote_elems, rootPath.
  destruct (String.eqb bucket rootBucketName); rewrite Join_abs; simpl; by rewrite app_nil_r.
Qed.

Lemma remote_elems_plain bucket object :
  Forall (λ e, plain e = true) (remote_elems bucket object).
Proof.
  apply clean_elems_rooted_plain. destruct (String.eqb bucket rootBucketName); simpl.
  - apply split_char_no_char.
  - apply Forall_app; split; apply split_char_no_char.
Qed.

Lemma objectRemotePath_clean bucket object :
  Clean (objectRemotePath bucket object) = objectRemotePath bucket object.
Proof. rewrite objectRemotePath_elems. apply Clean_abs_path, remote_elems_plain. Qed.

Lemma elems_plain_name b : plain b = true → elems b = [b].
Proof. intros (_ & _ & _ & H)%plain_inv. by apply split_char_single. Qed.

Lemma remote_elems_bucket bucket object :
  plain bucket = true → bucket ≠ rootBucketName → no_dotdot (elems object) →
  remote_elems bucket object = bucket :: filter (λ e, kept e = true) (elems object).
Proof.
  intros Hb Hr Ho. unfold remote_elems.
  rewrite (proj2 (String.eqb_neq _ _) Hr), elems_plain_name by done.
  rewrite clean_elems_no_dotdot.
  - simpl. rewrite filter_cons_True; [done|].
    apply plain_inv in Hb as (H1 & H2 & _). unfold kept.
    by rewrite (proj2 (String.eqb_neq _ _) H1), (proj2 (String.eqb_neq _ _) H2).
  - simpl. constructor; [|done]. by apply plain_inv in Hb as (_ & _ & ? & _).
Qed.

(** [under dir p]: [p] is [dir] itself or lies below it. *)
Definition under (dir p : string) : Prop := p = dir ∨ HasPrefix p (dir +:+ "/") = true.

Lemma under_abs_path b es : under (abs_path [b]) (abs_path (b :: es)).
Proof.
  destruct es as [|e es]; [by left|right]. unfold HasPrefix.
  apply prefix_spec. exists (str_join "/" (e :: es)). unfold abs_path.
  rewrite (str_join_cons "/" b (e :: es)) by done. by rewrite !str_app_assoc.
Qed.

(** A relative object name in the form [Clean] leaves it in. *)
Definition clean_name (object : string) : Prop :=
  Forall (λ e, plain e = true) (elems object).

Lemma clean_name_join object : clean_name object → str_join "/" (elems object) = object.
Proof. intros _. apply join_split. Qed.

Lemma clean_name_no_dotdot object : clean_name object → no_dotdot (elems object).
Proof. intros H. eapply Forall_impl; [done|]. by intros x (_ & _ & H3 & _)%plain_inv. Qed.

Lemma TrimSuffix_slash_abs es :
  es ≠ [] → Forall (λ e, plain e = true) es → TrimSuffix (abs_path es) "/" = abs_path es.
Proof.
  intros Hne Hes. unfold TrimSuffix. destruct (HasSuffix _ _) eqn:E; [|done]. exfalso.
  apply HasSuffix_spec in E as [r Hr].
  assert (He : elems (abs_path es) = elems r ++ [""]).
  { rewrite Hr. unfold elems. change (r +:+ "/") with (r +:+ String slash "").
    by rewrite split_char_sep. }
  rewrite elems_abs_path in He by done.
  assert (Hlast : "" ∈ es).
  { destruct (elems r) as [|x l] eqn:Er; simpl in He.
    - by injection He as ->.
    - injection He as _ ->. apply elem_of_app. right. by left. }
  rewrite Forall_forall in Hes. by specialize (Hes _ Hlast).
Qed.

Lemma getCommonPrefix_abs b es :
  Forall (λ e, plain e = true) (b :: es) → getCommonPrefix (abs_path (b :: es)) = str_join "/" es.
Proof.
  intros H. unfold getCommonPrefix. rewrite TrimSuffix_slash_abs by done.
  fold (elems (abs_path (b :: es))). by rewrite elems_abs_path.
Qed.

#[export] Hint Resolve remote_elems_plain : go.

Lemma bucketRemotePath_plain b :
  plain b = true → b ≠ rootBucketName → bucketRemotePath b = abs_path [b].
Proof.
  intros Hb Hr. unfold bucketRemotePath. rewrite (proj2 (String.eqb_neq _ _) Hr).
  unfold rootPath. rewrite Join_abs. simpl. rewrite elems_plain_name by done.
  by rewrite clean_elems_plain by by repeat constructor.
Qed.

(** The names the request checks let through. *)
Definition valid_bucket (b : string) : Prop :=
  IsValidBucketName b = true ∧ isMinioMetaBucketName b = false.
Definition valid_object (o : string) : Prop :=
  IsValidObjectName o = true ∧ HasPrefix o "/" = false.

Lemma valid_remote_elems b o :
  valid_bucket b → valid_object o → b ≠ rootBucketName →
  remote_elems b o = b :: elems o.
Proof.
  intros [Hb Hm] [Ho Hp] Hr. pose proof (valid_name_plain o Ho Hp) as Hpl.
  rewrite remote_elems_bucket; [|by apply valid_bucket_plain|done|by apply clean_name_no_dotdot].
  f_equal. apply filter_all. eapply Forall_impl; [done|].
  intros x (H1 & H2 & _)%plain_inv. unfold kept.
  by rewrite (proj2 (String.eqb_neq _ _) H1), (proj2 (String.eqb_neq _ _) H2).
Qed.

Lemma valid_remote_plain b o :
  valid_bucket b → valid_object o → Forall (λ e, plain e = true) (b :: elems o).
Proof.
  intros [Hb Hm] [Ho Hp]. constructor; [by apply valid_bucket_plain|by apply valid_name_plain].
Qed.

Lemma relative_of_remote bucket object :
  valid_bucket bucket → valid_object object →
  getRelativePathOfObj (objectRemotePath bucket object) bucket = object.
Proof.
  intros Hb Ho. pose proof (valid_remote_plain _ _ Hb Ho) as Hpl.
  rewrite objectRemotePath_elems. unfold getRelativePathOfObj.
  destruct (String.eqb_spec bucket rootBucketName) as [->|Hr].
  - unfold remote_elems. simpl app. rewrite clean_elems_plain by by inversion Hpl.
    unfold abs_path. rewrite orb_true_r. unfold rootPath. rewrite TrimPrefix_app. apply join_split.
  - rewrite orb_false_r. destruct (String.eqb_spec bucket rootPath) as [->|_].
    { by destruct Hb as [? _]. }
    rewrite valid_remote_elems, getCommonPrefix_abs by done. apply join_split.
Qed.

(** ** Properties *)

(** C31: a request whose bucket and object (or prefix) names pass the name checks
    never leaves the directory of its bucket: the remote path the gateway builds
    is the bucket's directory or lies below it. *)
Theorem valid_object_confined bucket object :
  valid_bucket bucket → bucket ≠ rootBucketName → IsValidObjectPrefix object = true →
  under (bucketRemotePath bucket) (objectRemotePath bucket object).
Proof.
  intros [Hb Hm] Hr (Hbad & _ & _)%IsValidObjectPrefix_inv.
  pose proof (valid_bucket_plain bucket Hb Hm) as Hpl.
  rewrite bucketRemotePath_plain, objectRemotePath_elems, remote_elems_bucket; try done.
  - apply under_abs_path.
  - apply Forall_forall. intros e He. by apply (hasBadPathComponent_false object).
Qed.

Lemma valid_object_confined_witness :
  valid_bucket "photos" ∧ IsValidObjectPrefix "2024/cat.png" = true ∧
  under (bucketRemotePath "photos") (objectRemotePath "photos" "2024/cat.png").
Proof.
  split; [by vm_compute|]. split; [by vm_compute|].
  apply valid_object_confined; by vm_compute.
Defined.

(** The relative name the gateway reports for a stored object is the name it
    was stored under, in a regular bucket and in the root bucket alike. *)
Theorem remote_path_roundtrip bucket object :
  valid_bucket bucket → valid_object object →
  getRelativePathOfObj (objectRemotePath bucket object) bucket = object.
Proof. apply relative_of_remote. Qed.

Lemma remote_path_roundtrip_witness :
  getRelativePathOfObj (objectRemotePath "photos" "a/b.txt") "photos" = "a/b.txt".
Proof. apply remote_path_roundtrip; by vm_compute. Defined.

(** Two accepted names of objects in regular buckets that get the same remote
    path are the same bucket and the same object: no two objects share a file. *)
Theorem remote_path_injective b1 o1 b2 o2 :
  valid_bucket b1 → valid_object o1 → valid_bucket b2 → valid_object o2 →
  b1 ≠ rootBucketName → b2 ≠ rootBucketName →
  objectRemotePath b1 o1 = objectRemotePath b2 o2 → b1 = b2 ∧ o1 = o2.
Proof.
  intros Hb1 Ho1 Hb2 Ho2 Hr1 Hr2. rewrite !objectRemotePath_elems.
  intros [= He]%abs_path_inj; auto with go.
  rewrite !valid_remote_elems in He by done. injection He as -> He. split; [done|].
  rewrite <- (join_split slash o1), <- (join_split slash o2). unfold elems in He. by rewrite He.
Qed.

Lemma remote_path_injective_witness :
  ("photos" = "photos" ∧ "a/b.txt" = "a/b.txt").
Proof. apply (remote_path_injective "photos" "a/b.txt" "photos" "a/b.txt"); by vm_compute. Defined.

(** The relative name of a file that lies directly under the root is the empty
    string for every regular bucket name, where the comment of the function
    promises the file's name. *)
Theorem relative_path_drops_root_file file bucket :
  plain file = true → bucket ≠ rootPath → bucket ≠ rootBucketName →
  getRelativePathOfObj (Join [rootPath; file]) bucket = "".
Proof.
  intros Hf H1 H2. unfold rootPath at 1. rewrite Join_abs. simpl.
  rewrite elems_plain_name, clean_elems_plain by (try done; by repeat constructor).
  unfold getRelativePathOfObj.
  rewrite (proj2 (String.eqb_neq _ _) H1), (proj2 (String.eqb_neq _ _) H2). simpl.
  by rewrite getCommonPrefix_abs by by repeat constructor.
Qed.

Lemma relative_path_drops_root_file_witness :
  getRelativePathOfObj (Join [rootPath; "myFile.txt"]) "abc" = "".
Proof. apply relative_path_drops_root_file; by vm_compute. Defined.
