(* ===== verification/ZcnTypes.v ===== *)
(** * Data of the object layer that the gateway fills in

    The fields of [minio.ObjectInfo], [minio.BucketInfo] and the other result
    types of cmd/object-api-datatypes.go that the 0chain gateway sets. Times are
    Unix nanoseconds; [time.Now()] is an argument of the handlers that call it.
    A nil map is the empty map. *)

From Stdlib Require Import ZArith Lia Bool Ascii.
From S2P Require Import Prelude GoStrings.

Abbreviation StringMap := (gmap string string).

Record ObjectInfo := mkObjectInfo {
  oi_Bucket : string;
  oi_Name : string;
  oi_ModTime : Z;
  oi_Size : Z;
  oi_IsDir : bool;
  oi_ETag : string;
  oi_ContentType : string;
  oi_StorageClass : string;
  oi_UserDefined : StringMap;
  oi_AccTime : Z;
}.

(** [minio.ObjectInfo{}] *)
Definition noObjectInfo : ObjectInfo := mkObjectInfo "" "" 0 0 false "" "" "" ∅ 0.

Record BucketInfo := mkBucketInfo { bi_Name : string; bi_Created : Z }.

Record DeletedObject := mkDeleted { ObjectName : string }.

Record ListObjectsInfo := mkListObjects {
  lo_IsTruncated : bool;
  lo_NextMarker : string;
  lo_Objects : list ObjectInfo;
  lo_Prefixes : list string;
}.

Record ListObjectsV2Info := mkListObjectsV2 {
  lv_IsTruncated : bool;
  lv_ContinuationToken : string;
  lv_NextContinuationToken : string;
  lv_Objects : list ObjectInfo;
  lv_Prefixes : list string;
}.

(** [encoding/json] on maps of strings. [Unmarshal] gives the value of the map
    variable afterwards, which was empty before; a text that is not an object of
    strings leaves what could be decoded. Invalid UTF-8 is not preserved, so the
    round trip is promised for the maps that [json_safe] accepts. *)
Class Json := {
  json_Marshal : StringMap → string;
  json_Unmarshal : string → StringMap;
  json_safe : StringMap → Prop;
  json_Marshal_ne m : json_Marshal m ≠ "";
  json_roundtrip m : json_safe m → json_Unmarshal (json_Marshal m) = m;
}.

(** An encoding that meets the laws: the bits of the map's number. *)
Module BitJson.
Fixpoint bits (p : positive) : string :=
  match p with
  | xH => "1"
  | xO p => String "0" (bits p)
  | xI p => String "1" (bits p)
  end.
Fixpoint unbits (s : string) : positive :=
  match s with
  | EmptyString => xH
  | String a EmptyString => xH
  | String a s => if Ascii.eqb a "0" then xO (unbits s) else xI (unbits s)
  end.

Lemma bits_ne p : bits p ≠ "".
Proof. by destruct p. Qed.

Lemma unbits_bits p : unbits (bits p) = p.
Proof.
  induction p as [p IH|p IH|]; [..|done]; pose proof (bits_ne p); cbn [bits unbits];
    destruct (bits p); try done; by rewrite IH.
Qed.

#[global] Program Instance json : Json := {|
  json_Marshal m := bits (encode m);
  json_Unmarshal s := default ∅ (decode (unbits s));
  json_safe _ := True;
|}.
Next Obligation. intros m. apply bits_ne. Qed.
Next Obligation. intros m _. cbv beta. by rewrite unbits_bits, decode_encode. Qed.
End BitJson.
