(* ===== verification/ObjectLock.v ===== *)
(** * Object lock (internal/bucket/object/lock, cmd/bucket-object-lock.go)

    Retention and legal hold of object versions: the configuration of a bucket,
    the request headers, the metadata of a version, and the checks that put,
    retention, delete and expiry requests go through. A [time.Time] is the number
    of nanoseconds since the zero time, a call of [UTCNowNTP] an argument that is
    [None] when the NTP server fails. The decoding of XML is not modelled: the
    functions that decode start from the decoded value. What the request
    authentication, the IAM policies and the object layer answer is an argument. *)

From Stdlib Require Import ZArith Lia Bool Ascii.
From S2P Require Import Prelude GoStrings GoTime Replication ZcnTypes.

Local Open Scope Z_scope.

(** ** Modes *)

(** [strings.ToUpper] as far as it yields ASCII letters: besides [a-z] the
    dotless i and the long s have one. *)
Fixpoint to_upper (s : string) : string :=
  match s with
  | "" => ""
  | String a t =>
      match t with
      | String b r =>
          if (N_of_ascii a =? 196)%N && (N_of_ascii b =? 177)%N then String "I" (to_upper r)
          else if (N_of_ascii a =? 197)%N && (N_of_ascii b =? 191)%N then String "S" (to_upper r)
          else String (upper_char a) (to_upper t)
      | "" => String (upper_char a) ""
      end
  end.

Abbreviation RetMode := string.
Definition RetGovernance : RetMode := "GOVERNANCE".
Definition RetCompliance : RetMode := "COMPLIANCE".

Definition RetMode_Valid (r : RetMode) : bool :=
  String.eqb r RetGovernance || String.eqb r RetCompliance.

Definition parseRetMode (modeStr : string) : RetMode :=
  if String.eqb (to_upper modeStr) "GOVERNANCE" then RetGovernance
  else if String.eqb (to_upper modeStr) "COMPLIANCE" then RetCompliance
  else "".

Abbreviation LegalHoldStatus := string.
Definition LegalHoldOn : LegalHoldStatus := "ON".
Definition LegalHoldOff : LegalHoldStatus := "OFF".

Definition LegalHold_Valid (l : LegalHoldStatus) : bool :=
  String.eqb l LegalHoldOn || String.eqb l LegalHoldOff.

Definition parseLegalHoldStatus (holdStr : string) : LegalHoldStatus :=
  if String.eqb (to_upper holdStr) "ON" then LegalHoldOn
  else if String.eqb (to_upper holdStr) "OFF" then LegalHoldOff
  else "".

Definition AmzObjectLockBypassRetGovernance : string := "X-Amz-Bypass-Governance-Retention".
Definition AmzObjectLockRetainUntilDate : string := "X-Amz-Object-Lock-Retain-Until-Date".
Definition AmzObjectLockMode : string := "X-Amz-Object-Lock-Mode".
Definition AmzObjectLockLegalHold : string := "X-Amz-Object-Lock-Legal-Hold".

Inductive lock_error :=
  | ErrInvalidRetentionDate
  | ErrPastObjectLockRetainDate
  | ErrUnknownWORMModeDirective
  | ErrObjectLockInvalidHeaders
  | ErrMalformedXML
  | lockErrorf (msg : string).

(** ** The configuration of a bucket *)
Record Retention := mkRetention { r_Mode : RetMode; r_Validity : Z; r_LockEnabled : bool }.

Definition Retain (now : option Z) (r : Retention) (created : Z) : bool :=
  match now with
  | None => true
  | Some t => t <? created + r_Validity r
  end.

(** [Days] and [Years] are pointers to [uint64]. *)
Record DefaultRetention := mkDefaultRetention {
  dr_Mode : RetMode; dr_Days : option N; dr_Years : option N
}.

Definition maximumRetentionDays : N := 36500.
Definition maximumRetentionYears : N := 100.

(** [UnmarshalXML] after decoding. *)
Definition checkDefaultRetention (d : DefaultRetention) : option lock_error :=
  if negb (RetMode_Valid (dr_Mode d)) then Some (lockErrorf ("unknown retention mode " +:+ dr_Mode d))
  else match dr_Days d, dr_Years d with
  | None, None => Some (lockErrorf "either Days or Years must be specified")
  | Some _, Some _ => Some (lockErrorf "either Days or Years must be specified, not both")
  | Some days, None =>
      if (days =? 0)%N
      then Some (lockErrorf "Default retention period must be a positive integer value for 'Days'")
      else if (maximumRetentionDays <? days)%N
      then Some (lockErrorf ("Default retention period too large for 'Days' " +:+ itoa (Z.of_N days)))
      else None
  | None, Some years =>
      if (years =? 0)%N
      then Some (lockErrorf "Default retention period must be a positive integer value for 'Years'")
      else if (maximumRetentionYears <? years)%N
      then Some (lockErrorf ("Default retention period too large for 'Years' " +:+ itoa (Z.of_N years)))
      else None
  end.

Record Config := mkConfig { cfg_ObjectLockEnabled : string; cfg_Rule : option DefaultRetention }.

(** [UnmarshalXML] after decoding: the rule has been checked by its own. *)
Definition checkConfig (c : Config) : option lock_error :=
  match (match cfg_Rule c with Some d => checkDefaultRetention d | None => None end) with
  | Some e => Some e
  | None =>
      if negb (String.eqb (cfg_ObjectLockEnabled c) "Enabled")
      then Some (lockErrorf "only 'Enabled' value is allowed to ObjectLockEnabled element")
      else None
  end.

(** The time of [UTCNowNTP] is taken in UTC, and the difference of the two times
    is below the 292 years at which [Sub] saturates. Without days and years the
    code dereferences a nil pointer. *)
Definition ToRetention (now : option Z) (c : Config) : outcome lock_error Retention :=
  let enabled := String.eqb (cfg_ObjectLockEnabled c) "Enabled" in
  match cfg_Rule c with
  | None => Ok (mkRetention "" 0 enabled)
  | Some d =>
      match now with
      | None => Ok (mkRetention (dr_Mode d) 0 enabled)
      | Some t =>
          match dr_Days d, dr_Years d with
          | Some days, _ => Ok (mkRetention (dr_Mode d) (AddDate t 0 (wrap64 (Z.of_N days)) - t) enabled)
          | None, Some years => Ok (mkRetention (dr_Mode d) (AddDate t (wrap64 (Z.of_N years)) 0 - t) enabled)
          | None, None => Panic "nil pointer dereference"
          end
      end
  end.

Definition NewObjectLockConfig : Config := mkConfig "Enabled" None.

(** ** Retention and legal hold of a version *)
Record ObjectRetention := mkObjectRetention { or_Mode : RetMode; or_RetainUntilDate : Z }.
Definition noObjectRetention : ObjectRetention := mkObjectRetention "" 0.

(** [ParseObjectRetention] after decoding. *)
Definition ParseObjectRetention (now : option Z) (ret : ObjectRetention) : option lock_error :=
  let valid := RetMode_Valid (or_Mode ret) in
  let zero := or_RetainUntilDate ret =? 0 in
  if negb (String.eqb (or_Mode ret) "") && negb valid then Some ErrUnknownWORMModeDirective
  else if valid && zero then Some ErrMalformedXML
  else if negb valid && negb zero then Some ErrMalformedXML
  else match now with
  | None => Some ErrPastObjectLockRetainDate
  | Some t => if negb zero && (or_RetainUntilDate ret <? t) then Some ErrPastObjectLockRetainDate else None
  end.

(** [http.Header]; [Get] is the first value of a canonical name. *)
Abbreviation Header := (gmap string (list string)).
Definition header_Get (h : Header) (k : string) : string :=
  match h !! k with Some (v :: _) => v | _ => "" end.
Definition has_header (h : Header) (k : string) : bool := bool_decide (is_Some (h !! k)).

Definition IsObjectLockRetentionRequested (h : Header) : bool :=
  if has_header h AmzObjectLockMode then true
  else if has_header h AmzObjectLockRetainUntilDate then true else false.

Definition IsObjectLockLegalHoldRequested (h : Header) : bool := has_header h AmzObjectLockLegalHold.

Definition IsObjectLockGovernanceBypassSet (h : Header) : bool :=
  EqualFold (header_Get h AmzObjectLockBypassRetGovernance) "true".

Definition IsObjectLockRequested (h : Header) : bool :=
  IsObjectLockLegalHoldRequested h || IsObjectLockRetentionRequested h.

Definition ParseObjectLockRetentionHeaders (now : option Z) (h : Header) : outcome lock_error (RetMode * Z) :=
  let retMode := header_Get h AmzObjectLockMode in
  let dateStr := header_Get h AmzObjectLockRetainUntilDate in
  if String.eqb retMode "" || String.eqb dateStr "" then Err ErrObjectLockInvalidHeaders
  else
    let rmode := parseRetMode retMode in
    if negb (RetMode_Valid rmode) then Err ErrUnknownWORMModeDirective
    else match ParseRFC3339 dateStr with
    | None => Err ErrInvalidRetentionDate
    | Some retDate =>
        match now with
        | None => Err ErrPastObjectLockRetainDate
        | Some t => if retDate <? t then Err ErrPastObjectLockRetainDate else Ok (rmode, retDate)
        end
    end.

(** A metadata entry, under the lower-case name first. *)
Definition meta_get (meta : StringMap) (k : string) : option string :=
  match meta !! ToLower k with
  | Some v => Some v
  | None => meta !! k
  end.

Definition GetObjectRetentionMeta (meta : StringMap) : ObjectRetention :=
  match meta_get meta AmzObjectLockMode with
  | None => noObjectRetention
  | Some modeStr =>
      let retainTill :=
        match meta_get meta AmzObjectLockRetainUntilDate with
        | Some tillStr => default 0 (ParseRFC3339 tillStr)
        | None => 0
        end in
      mkObjectRetention (parseRetMode modeStr) retainTill
  end.

(** The status of [ObjectLegalHold]; the zero value has the empty one. *)
Definition GetObjectLegalHoldMeta (meta : StringMap) : LegalHoldStatus :=
  match meta_get meta AmzObjectLockLegalHold with
  | Some holdStr => parseLegalHoldStatus holdStr
  | None => ""
  end.

Definition ParseObjectLockLegalHoldHeaders (h : Header) : outcome lock_error LegalHoldStatus :=
  match h !! AmzObjectLockLegalHold with
  | None => Ok ""
  | Some [] => Panic "index out of range"
  | Some (v :: _) =>
      let lh := parseLegalHoldStatus v in
      if LegalHold_Valid lh then Ok lh else Err ErrUnknownWORMModeDirective
  end.

Definition LegalHold_IsEmpty (l : LegalHoldStatus) : bool := negb (LegalHold_Valid l).

(** [ParseObjectLegalHold] after decoding. *)
Definition ParseObjectLegalHold (hold : LegalHoldStatus) : outcome lock_error LegalHoldStatus :=
  if negb (LegalHold_Valid hold) then Err ErrMalformedXML else Ok hold.

(** The map that is returned; the argument is copied before a key is deleted. *)
Definition FilterObjectLockMetadata (metadata : StringMap) (filterRetention filterLegalHold : bool) : StringMap :=
  let dst :=
    if negb (LegalHold_Valid (GetObjectLegalHoldMeta metadata)) || filterLegalHold
    then delete AmzObjectLockLegalHold metadata else metadata in
  if negb (RetMode_Valid (or_Mode (GetObjectRetentionMeta metadata))) || filterRetention
  then delete AmzObjectLockRetainUntilDate (delete AmzObjectLockMode dst) else dst.

(** ** The checks of requests (cmd/bucket-object-lock.go) *)

(** The codes these checks return themselves; any other code of [APIErrorCode]
    is [OtherCode]. *)
Inductive APIErrorCode :=
  | ErrNone
  | ErrObjectLocked
  | ErrAccessDenied
  | ErrInvalidBucketObjectLockConfiguration
  | ErrMethodNotAllowed
  | ErrServerNotInitialized
  | LockErrorCode (e : lock_error)
  | OtherCode (n : Z).
#[global] Instance lock_error_eq_dec : EqDecision lock_error.
Proof. solve_decision. Defined.
#[global] Instance APIErrorCode_eq_dec : EqDecision APIErrorCode.
Proof. solve_decision. Defined.

(** The errors of [GetObjectInfo] that are told apart. *)
Inductive get_error :=
  | MethodNotAllowed
  | ObjectOrVersionNotFound
  | OtherGetError (code : APIErrorCode).

(** The fields of an [ObjectInfo] that matter here. *)
Record Version := mkVersion {
  v_UserDefined : StringMap; v_DeleteMarker : bool; v_PurgePending : bool
}.

(** [BucketObjectLockSys.Get]: a gateway has no lock configuration; [None] for
    [BucketObjectLockConfigNotFound]. *)
Definition lockSys_Get (globalIsGateway objectLayer : bool) (now : option Z)
    (config : outcome APIErrorCode (option Config)) : outcome APIErrorCode Retention :=
  let none := mkRetention "" 0 false in
  if globalIsGateway then if objectLayer then Ok none else Err ErrServerNotInitialized
  else match config with
  | Ok None => Ok none
  | Ok (Some c) => match ToRetention now c with
                   | Ok r => Ok r
                   | Err e => Err (LockErrorCode e)
                   | Panic w => Panic w
                   end
  | Err e => Err e
  | Panic w => Panic w
  end.

Definition enforceRetentionForDeletion (now : option Z) (oi : Version) : bool :=
  if v_DeleteMarker oi then false
  else
    let lhold := GetObjectLegalHoldMeta (v_UserDefined oi) in
    if LegalHold_Valid lhold && String.eqb lhold LegalHoldOn then true
    else
      let ret := GetObjectRetentionMeta (v_UserDefined oi) in
      if RetMode_Valid (or_Mode ret)
         && (String.eqb (or_Mode ret) RetCompliance || String.eqb (or_Mode ret) RetGovernance)
      then match now with
           | None => true
           | Some t => if t <? or_RetainUntilDate ret then true else false
           end
      else false.

(** [opts] is the error of [getOpts], [mayBypass] and [mayGetConfig] what
    [checkRequestAuthType] answers for the two permissions. *)
Definition enforceRetentionBypassForDelete (now : option Z) (h : Header) (opts : option APIErrorCode)
    (mayBypass mayGetConfig : APIErrorCode) (oi : Version) (gerr : option get_error) : APIErrorCode :=
  match opts with
  | Some e => e
  | None =>
      match gerr with
      | Some MethodNotAllowed =>
          if v_DeleteMarker oi || v_PurgePending oi then ErrNone else ErrMethodNotAllowed
      | Some ObjectOrVersionNotFound => ErrNone
      | Some (OtherGetError code) => code
      | None =>
          let lhold := GetObjectLegalHoldMeta (v_UserDefined oi) in
          if LegalHold_Valid lhold && String.eqb lhold LegalHoldOn then ErrObjectLocked
          else
            let ret := GetObjectRetentionMeta (v_UserDefined oi) in
            let held :=
              match now with
              | None => ErrObjectLocked
              | Some t => if negb (or_RetainUntilDate ret <? t) then ErrObjectLocked else ErrNone
              end in
            if RetMode_Valid (or_Mode ret) then
              if String.eqb (or_Mode ret) RetCompliance then held
              else if String.eqb (or_Mode ret) RetGovernance then
                if negb (IsObjectLockGovernanceBypassSet h) then held
                else if negb (bool_decide (mayBypass = ErrNone)) && negb (bool_decide (mayGetConfig = ErrNone))
                then ErrAccessDenied
                else ErrNone
              else ErrNone
            else ErrNone
      end
  end.

(** The requester of a retention change: the access key and whether the IAM
    policies allow the two actions for the requested mode and date. *)
Record Requester := mkRequester {
  rq_AccessKey : string; iam_Bypass : RetMode → Z → bool; iam_PutRetention : RetMode → Z → bool
}.

Definition isPutRetentionAllowed (rq : Requester) (retDate : Z) (retMode : RetMode) (byPassSet : bool) : APIErrorCode :=
  if String.eqb (rq_AccessKey rq) "" then ErrAccessDenied
  else
    let byPassSet :=
      if String.eqb retMode RetGovernance && byPassSet then iam_Bypass rq retMode retDate else byPassSet in
    let retSet := iam_PutRetention rq retMode retDate in
    if byPassSet || retSet then ErrNone else ErrAccessDenied.

Inductive put_error := ObjectLocked | errAuthentication.

Definition enforceRetentionBypassForPut (now : option Z) (h : Header) (rq : Requester) (oi : Version)
    (objRetention : ObjectRetention) : option put_error :=
  let byPassSet := IsObjectLockGovernanceBypassSet h in
  let allowed bypass :=
    match isPutRetentionAllowed rq (or_RetainUntilDate objRetention) (or_Mode objRetention) bypass with
    | ErrAccessDenied => Some errAuthentication
    | _ => None
    end in
  match now with
  | None => Some ObjectLocked
  | Some t =>
      let ret := GetObjectRetentionMeta (v_UserDefined oi) in
      if RetMode_Valid (or_Mode ret) then
        if or_RetainUntilDate ret <? t then allowed byPassSet
        else if String.eqb (or_Mode ret) RetGovernance then
          if negb byPassSet
             && (negb (String.eqb (or_Mode objRetention) RetGovernance)
                 || (or_RetainUntilDate objRetention <? or_RetainUntilDate ret))
          then Some ObjectLocked
          else allowed byPassSet
        else if String.eqb (or_Mode ret) RetCompliance then
          if negb (String.eqb (or_Mode objRetention) RetCompliance)
             || (or_RetainUntilDate objRetention <? or_RetainUntilDate ret)
          then Some ObjectLocked
          else allowed false
        else None
      else allowed byPassSet
  end.

(** The metadata keys the handlers write besides the lock entries. *)
Definition ObjectLockRetentionTimestamp : string := "objectlock-retention-timestamp".
Definition ObjectLockLegalHoldTimestamp : string := "objectlock-legalhold-timestamp".

(** [dsc] is the pending status when the version is to be replicated, with the
    time stamps as printed. *)
Definition mark_replication (dsc : option (string * string)) (meta : StringMap) : StringMap :=
  match dsc with
  | Some (stamp, status) =>
      <[ReservedMetadataPrefixLower +:+ ReplicationStatus := status]>
        (<[ReservedMetadataPrefixLower +:+ ReplicationTimestamp := stamp]> meta)
  | None => meta
  end.

(** [EvalMetadataFn] of [PutObjectRetentionHandler]. *)
Definition evalRetention (now : option Z) (h : Header) (rq : Requester) (objRetention : ObjectRetention)
    (stamp : string) (dsc : option (string * string)) (oi : Version) : outcome put_error StringMap :=
  match enforceRetentionBypassForPut now h rq oi objRetention with
  | Some e => Err e
  | None =>
      let '(mode, date) :=
        if RetMode_Valid (or_Mode objRetention)
        then (or_Mode objRetention, FormatRFC3339 (or_RetainUntilDate objRetention)) else ("", "") in
      let meta := <[ToLower AmzObjectLockMode := mode]> (v_UserDefined oi) in
      let meta := <[ToLower AmzObjectLockRetainUntilDate := date]> meta in
      let meta := <[ReservedMetadataPrefixLower +:+ ObjectLockRetentionTimestamp := stamp]> meta in
      Ok (mark_replication dsc meta)
  end.

(** [EvalMetadataFn] of [PutObjectLegalHoldHandler]. *)
Definition evalLegalHold (status : LegalHoldStatus) (stamp : string) (dsc : option (string * string))
    (oi : Version) : StringMap :=
  let meta := <[ToLower AmzObjectLockLegalHold := to_upper status]> (v_UserDefined oi) in
  let meta := <[ReservedMetadataPrefixLower +:+ ObjectLockLegalHoldTimestamp := stamp]> meta in
  mark_replication dsc meta.

(** [toAPIErrorCode] of the errors that reach it here. *)
Definition toAPIErrorCode (err : option lock_error) : APIErrorCode :=
  match err with None => ErrNone | Some e => LockErrorCode e end.

(** What [checkPutObjectLockAllowed] returns. *)
Record PutLock := mkPutLock {
  pl_Mode : RetMode; pl_Date : Z; pl_LegalHold : LegalHoldStatus; pl_Code : APIErrorCode
}.

(** [cfg] is the result of [globalBucketObjectLockSys.Get], [opts] the version id
    of [getOpts] or its error, [existing] the object [getObjectInfoFn] finds;
    [now] and [now'] are the two calls of [UTCNowNTP]. [legalHoldPermErr] is not
    used. *)
Definition checkPutObjectLockAllowed (now now' : option Z) (h : Header) (cfg : outcome APIErrorCode Retention)
    (opts : outcome APIErrorCode string) (existing : option Version)
    (retentionPermErr legalHoldPermErr : APIErrorCode) : outcome lock_error PutLock :=
  let retentionRequested := IsObjectLockRetentionRequested h in
  let legalHoldRequested := IsObjectLockLegalHoldRequested h in
  let none code := Ok (mkPutLock "" 0 "" code) in
  match cfg with
  | Panic w => Panic w
  | Err _ => none ErrInvalidBucketObjectLockConfiguration
  | Ok retentionCfg =>
      if negb (r_LockEnabled retentionCfg) then
        none (if legalHoldRequested || retentionRequested then ErrInvalidBucketObjectLockConfiguration else ErrNone)
      else match opts with
      | Panic w => Panic w
      | Err e => none e
      | Ok versionID =>
          let replica := String.eqb (header_Get h "X-Amz-Replication-Status") "REPLICA" in
          let found :=
            if negb (String.eqb versionID "") && negb replica then
              match existing with
              | None => inr ("", 0, "")
              | Some oi =>
                  let r := GetObjectRetentionMeta (v_UserDefined oi) in
                  match now with
                  | None => inl (mkPutLock "" 0 "" ErrObjectLocked)
                  | Some t =>
                      if String.eqb (or_Mode r) RetCompliance && (t <? or_RetainUntilDate r)
                      then inl (mkPutLock "" 0 "" ErrObjectLocked)
                      else
                        let legalHold := GetObjectLegalHoldMeta (v_UserDefined oi) in
                        if String.eqb legalHold LegalHoldOn
                        then inl (mkPutLock (or_Mode r) (or_RetainUntilDate r) legalHold ErrObjectLocked)
                        else inr (or_Mode r, or_RetainUntilDate r, legalHold)
                  end
              end
            else inr ("", 0, "") in
          match found with
          | inl result => Ok result
          | inr (mode, retainDate, legalHold) =>
              let result code legalHold := Ok (mkPutLock mode retainDate legalHold code) in
              let held :=
                if legalHoldRequested then
                  match ParseObjectLockLegalHoldHeaders h with
                  | Panic w => inl (Panic w)
                  | Err _ => inl (result (toAPIErrorCode None) "")
                  | Ok lh => inr lh
                  end
                else inr legalHold in
              match held with
              | inl result => result
              | inr legalHold =>
                  if retentionRequested then
                    match ParseObjectLockLegalHoldHeaders h with
                    | Panic w => Panic w
                    | Err e => result (LockErrorCode e) ""
                    | Ok legalHold =>
                        match ParseObjectLockRetentionHeaders now' h with
                        | Panic w => Panic w
                        | Err e => result (LockErrorCode e) legalHold
                        | Ok (rMode, rDate) =>
                            if negb (bool_decide (retentionPermErr = ErrNone))
                            then result retentionPermErr legalHold
                            else Ok (mkPutLock rMode rDate legalHold ErrNone)
                        end
                    end
                  else if replica then Ok (mkPutLock "" 0 legalHold ErrNone)
                  else if 0 <? r_Validity retentionCfg then
                    if negb (bool_decide (retentionPermErr = ErrNone)) then result retentionPermErr legalHold
                    else match now' with
                    | None => result ErrObjectLocked legalHold
                    | Some t =>
                        if negb legalHoldRequested && r_LockEnabled retentionCfg
                        then Ok (mkPutLock (r_Mode retentionCfg) (t + r_Validity retentionCfg) legalHold ErrNone)
                        else Ok (mkPutLock "" 0 legalHold ErrNone)
                    end
                  else result ErrNone legalHold
              end
          end
      end
  end.

(** ** A version under its requests *)

(** What [DeleteObjectHandler] knows besides the version and the headers: whether
    the bucket is locked ([rcfg.LockEnabled]), whether a whole prefix is to be
    deleted ([opts.DeletePrefix]), what [checkRequestAuthType] answers for
    [ReplicateDeleteAction], and [opts.VersionPurgeStatus().Empty()]: no target
    asks for the deletion to be replicated. *)
Record DeleteContext := mkDeleteContext {
  dc_LockEnabled : bool; dc_DeletePrefix : bool; dc_MayReplicate : APIErrorCode; dc_PurgeEmpty : bool
}.

(** Whether [DeleteObjectHandler] goes on to delete the version the request
    names. For a replica, [vID] becomes empty and the retention is not looked at. *)
Definition deleteObject_reached (now : option Z) (h : Header) (dc : DeleteContext)
    (mayBypass mayGetConfig : APIErrorCode) (oi : Version) : bool :=
  let replica := String.eqb (header_Get h "X-Amz-Replication-Status") "REPLICA" in
  if replica && negb (bool_decide (dc_MayReplicate dc = ErrNone)) then false
  else
    let vID_empty := replica && dc_PurgeEmpty dc in
    if dc_LockEnabled dc then
      if dc_DeletePrefix dc then false
      else if vID_empty then true
      else bool_decide (enforceRetentionBypassForDelete now h None mayBypass mayGetConfig oi None = ErrNone)
    else true.

(** Requests for one version, each with the time its check reads. *)
Inductive lock_request :=
  | PutRetention (now : option Z) (h : Header) (rq : Requester) (ret : ObjectRetention)
      (stamp : string) (dsc : option (string * string))
  | PutLegalHold (hold : LegalHoldStatus) (stamp : string) (dsc : option (string * string))
  | DeleteVersion (now : option Z) (h : Header) (dc : DeleteContext) (mayBypass mayGetConfig : APIErrorCode)
  | ExpireVersion (now : option Z).

Definition with_meta (oi : Version) (meta : StringMap) : Version :=
  mkVersion meta (v_DeleteMarker oi) (v_PurgePending oi).

(** [None] once the version is gone. *)
Definition lock_request_step (s : option Version) (r : lock_request) : option Version :=
  oi ← s;
  match r with
  | PutRetention now h rq ret stamp dsc =>
      match ParseObjectRetention now ret with
      | Some _ => Some oi
      | None =>
          match evalRetention now h rq ret stamp dsc oi with
          | Ok meta => Some (with_meta oi meta)
          | _ => Some oi
          end
      end
  | PutLegalHold hold stamp dsc =>
      match ParseObjectLegalHold hold with
      | Ok hold => Some (with_meta oi (evalLegalHold hold stamp dsc oi))
      | _ => Some oi
      end
  | DeleteVersion now h dc mayBypass mayGetConfig =>
      if deleteObject_reached now h dc mayBypass mayGetConfig oi then None else Some oi
  | ExpireVersion now => if enforceRetentionForDeletion now oi then Some oi else None
  end.

Definition lock_requests_run (s : option Version) (rs : list lock_request) : option Version :=
  foldl lock_request_step s rs.

(** Held in compliance mode at least until [T]. *)
Definition compliant (T : Z) (oi : Version) : Prop :=
  v_DeleteMarker oi = false ∧
  or_Mode (GetObjectRetentionMeta (v_UserDefined oi)) = RetCompliance ∧
  T ≤ or_RetainUntilDate (GetObjectRetentionMeta (v_UserDefined oi)).

(** A deletion whose retention check is made: the bucket is locked, and the
    request does not replicate a deletion that is to be replicated no further. *)
Definition retention_checked (h : Header) (dc : DeleteContext) : Prop :=
  dc_LockEnabled dc = true ∧
  (header_Get h "X-Amz-Replication-Status" = "REPLICA" → dc_PurgeEmpty dc = false).

(** A request whose clock, if it works, is before [T], which asks for a date
    before year 10000, and whose deletion is checked. *)
Definition clock_before (T : Z) (now : option Z) : Prop := ∀ t, now = Some t → t < T.
Definition early (T : Z) (r : lock_request) : Prop :=
  match r with
  | PutRetention now _ _ ret _ _ => clock_before T now ∧ or_RetainUntilDate ret < year10000
  | PutLegalHold _ _ _ => True
  | DeleteVersion now h dc _ _ => clock_before T now ∧ retention_checked h dc
  | ExpireVersion now => clock_before T now
  end.

(** ** Lemmas *)
Lemma RetMode_Valid_true m : RetMode_Valid m = true ↔ m = RetGovernance ∨ m = RetCompliance.
Proof. unfold RetMode_Valid. by rewrite orb_true_iff, !String.eqb_eq. Qed.

Lemma parseRetMode_valid m : RetMode_Valid m = true → parseRetMode m = m.
Proof. by intros [-> | ->]%RetMode_Valid_true. Qed.

(** Entries under other names do not touch the retention. *)
Lemma retention_insert_other k v (meta : StringMap) :
  k ≠ ToLower AmzObjectLockMode → k ≠ AmzObjectLockMode →
  k ≠ ToLower AmzObjectLockRetainUntilDate → k ≠ AmzObjectLockRetainUntilDate →
  GetObjectRetentionMeta (<[k := v]> meta) = GetObjectRetentionMeta meta.
Proof. intros. unfold GetObjectRetentionMeta, meta_get. by rewrite !lookup_insert_ne. Qed.

Lemma retention_mark_replication dsc meta :
  GetObjectRetentionMeta (mark_replication dsc meta) = GetObjectRetentionMeta meta.
Proof. destruct dsc as [[]|]; [|done]. by cbn [mark_replication]; rewrite !retention_insert_other. Qed.

Lemma retention_evalLegalHold hold stamp dsc oi :
  GetObjectRetentionMeta (evalLegalHold hold stamp dsc oi) = GetObjectRetentionMeta (v_UserDefined oi).
Proof. unfold evalLegalHold. by rewrite retention_mark_replication, !retention_insert_other. Qed.

(** What a retention request stores is what is read back, in whole seconds. *)
Lemma retention_evalRetention now h rq ret stamp dsc oi meta :
  evalRetention now h rq ret stamp dsc oi = Ok meta →
  GetObjectRetentionMeta meta =
    if RetMode_Valid (or_Mode ret)
    then mkObjectRetention (or_Mode ret) (default 0 (ParseRFC3339 (FormatRFC3339 (or_RetainUntilDate ret))))
    else noObjectRetention.
Proof.
  unfold evalRetention. destruct (enforceRetentionBypassForPut _ _ _ _ _); [done|].
  destruct (RetMode_Valid (or_Mode ret)) eqn:Hv; intros [= <-];
    rewrite retention_mark_replication, retention_insert_other by done;
    unfold GetObjectRetentionMeta, meta_get; rewrite lookup_insert_ne, !lookup_insert_eq by done;
    [by rewrite parseRetMode_valid|done].
Qed.

Lemma compliant_delete T oi now h a b :
  compliant T oi → clock_before T now →
  enforceRetentionBypassForDelete now h None a b oi None ≠ ErrNone ∧ enforceRetentionForDeletion now oi = true.
Proof.
  intros (Hd & Hm & Ht) Hnow. unfold enforceRetentionBypassForDelete, enforceRetentionForDeletion.
  rewrite Hd, Hm. cbn [String.eqb]. destruct (LegalHold_Valid _ && _); [done|]. cbn.
  destruct now as [t|]; [|done]. specialize (Hnow t eq_refl).
  by rewrite (proj2 (Z.ltb_ge _ t)), (proj2 (Z.ltb_lt t _)) by lia.
Qed.

(** A retention change of a compliant version keeps the mode and the date. *)
Lemma compliant_put T oi now h rq ret :
  compliant T oi → clock_before T now → enforceRetentionBypassForPut now h rq oi ret = None →
  or_Mode ret = RetCompliance ∧ or_RetainUntilDate (GetObjectRetentionMeta (v_UserDefined oi)) ≤ or_RetainUntilDate ret.
Proof.
  intros (Hd & Hm & Ht) Hnow. unfold enforceRetentionBypassForPut. rewrite Hm. cbn.
  destruct now as [t|]; [|done]. specialize (Hnow t eq_refl).
  rewrite (proj2 (Z.ltb_ge _ t)) by lia. case_if; [done|]. intros _.
  apply orb_false_iff in E as [Hmode%negb_false_iff Hdate%Z.ltb_ge]. by apply String.eqb_eq in Hmode.
Qed.

Lemma floor_second_le T x : T mod Second = 0 → T ≤ x → T ≤ x - x mod Second.
Proof. unfold Second. intros. div_lia. Qed.

Lemma compliant_step T oi r :
  0 ≤ T → T mod Second = 0 → compliant T oi → early T r →
  ∃ oi', lock_request_step (Some oi) r = Some oi' ∧ compliant T oi'.
Proof.
  intros HT0 HTs Hc He. destruct r as [now h rq ret stamp dsc|hold stamp dsc|now h dc a b|now];
    cbn [lock_request_step mbind option_bind]; cbn [early] in He.
  - destruct He as [Hnow Hy]. destruct (ParseObjectRetention now ret); [by exists oi|].
    destruct (evalRetention now h rq ret stamp dsc oi) as [meta|e|w] eqn:Hev; [|by exists oi..].
    eexists. split; [done|].
    assert (enforceRetentionBypassForPut now h rq oi ret = None) as Hput
      by (revert Hev; unfold evalRetention; by destruct (enforceRetentionBypassForPut _ _ _ _ _)).
    destruct (compliant_put T oi now h rq ret Hc Hnow Hput) as [Hm Hle].
    apply retention_evalRetention in Hev. unfold compliant. cbn [with_meta v_UserDefined v_DeleteMarker].
    rewrite Hev, Hm. destruct Hc as (Hd & _ & Ht). cbn. split_and!; [done|done|].
    rewrite ParseRFC3339_Format by lia. apply floor_second_le; [done|lia].
  - destruct (ParseObjectLegalHold hold); [|by exists oi..]. eexists. split; [done|].
    unfold compliant. cbn [with_meta v_UserDefined v_DeleteMarker]. by rewrite retention_evalLegalHold.
  - destruct He as [He [Hl Hrep]]. destruct (compliant_delete T oi now h a b Hc He) as [Hne _].
    unfold deleteObject_reached. rewrite Hl, (bool_decide_eq_false_2 _ Hne).
    destruct (String.eqb_spec (header_Get h "X-Amz-Replication-Status") "REPLICA") as [E|_]; cbn;
      [rewrite (Hrep E)|]; exists oi; by repeat case_match.
  - destruct (compliant_delete T oi now ∅ ErrNone ErrNone Hc He) as [_ ->]. by exists oi.
Qed.

(** The retention period of a valid configuration. *)
Lemma ToRetention_valid c d t :
  cfg_Rule c = Some d → checkConfig c = None →
  ∃ r, ToRetention (Some t) c = Ok r ∧ r_Mode r = dr_Mode d ∧ r_LockEnabled r = true ∧ 0 < r_Validity r ∧
    (∀ n, dr_Days d = Some n → r_Validity r = Z.of_N n * DayNs) ∧
    (∀ n, dr_Years d = Some n → 365 * Z.of_N n * DayNs ≤ r_Validity r ≤ 366 * Z.of_N n * DayNs).
Proof.
  intros Hr. unfold checkConfig, ToRetention, checkDefaultRetention. rewrite Hr.
  destruct (negb (RetMode_Valid (dr_Mode d))); [done|].
  destruct (dr_Days d) as [n|], (dr_Years d) as [m|]; try done;
    repeat (case_if; [done|]); intros _; apply negb_false_iff in E1; rewrite E1;
    apply N.eqb_neq in E; apply N.ltb_ge in E0; unfold maximumRetentionDays, maximumRetentionYears in E0;
    rewrite wrap64_small by (unfold in_int64, min_int64, max_int64; lia);
    eexists; (split; [done|]); cbn [r_Mode r_LockEnabled r_Validity].
  - rewrite AddDate_days. split_and!; try done; [unfold DayNs, Second; lia|]. intros ? [= <-]. lia.
  - pose proof (AddDate_years t (Z.of_N m)) as Hy. split_and!; try done; [unfold DayNs, Second in *; lia|].
    intros ? [= <-]. apply Hy. lia.
Qed.

(** Entries under other names do not touch the legal hold. *)
Lemma legalhold_insert_other k v (meta : StringMap) :
  k ≠ ToLower AmzObjectLockLegalHold → k ≠ AmzObjectLockLegalHold →
  GetObjectLegalHoldMeta (<[k := v]> meta) = GetObjectLegalHoldMeta meta.
Proof. intros. unfold GetObjectLegalHoldMeta, meta_get. by rewrite !lookup_insert_ne. Qed.

Lemma legalhold_evalRetention now h rq ret stamp dsc oi meta :
  evalRetention now h rq ret stamp dsc oi = Ok meta →
  GetObjectLegalHoldMeta meta = GetObjectLegalHoldMeta (v_UserDefined oi).
Proof.
  unfold evalRetention. destruct (enforceRetentionBypassForPut _ _ _ _ _); [done|].
  destruct (if RetMode_Valid _ then _ else _) as [mode date]. intros [= <-].
  destruct dsc as [[]|]; cbn [mark_replication]; by rewrite !legalhold_insert_other.
Qed.

(** The end of a retention. *)
Lemma expired_delete oi t h a b :
  GetObjectLegalHoldMeta (v_UserDefined oi) ≠ LegalHoldOn →
  or_RetainUntilDate (GetObjectRetentionMeta (v_UserDefined oi)) < t →
  or_Mode (GetObjectRetentionMeta (v_UserDefined oi)) = RetCompliance →
  enforceRetentionBypassForDelete (Some t) h None a b oi None = ErrNone.
Proof.
  intros Hh Hd Hm. unfold enforceRetentionBypassForDelete.
  rewrite (proj2 (String.eqb_neq _ _) Hh), andb_false_r, Hm, (proj2 (Z.ltb_lt _ _) Hd). done.
Qed.

(** ** A retained version to try the properties on *)
Definition held_version (mode : RetMode) : Version :=
  mkVersion {[ToLower AmzObjectLockMode := mode;
              ToLower AmzObjectLockRetainUntilDate := "2030-01-02T03:04:05Z"]} false false.
Definition y2025 : Z := dateDays 2025 1 1 * DayNs.
Definition y2030 : Z := dateDays 2030 1 1 * DayNs.
Definition anyone : Requester := mkRequester "key" (λ _ _, true) (λ _ _, true).
Definition nobody : Requester := mkRequester "key" (λ _ _, false) (λ _ _, false).
Definition bypass_header : Header := {[AmzObjectLockBypassRetGovernance := ["true"]]}.

Lemma held_version_compliant : compliant y2030 (held_version RetCompliance).
Proof. unfold compliant. split_and!; vm_compute; done. Qed.

(** ** Properties *)

(** C5: compliance mode is write once, read many, in a bucket with object lock
    enabled: whatever requests arrive before [T] — retention changes, legal holds,
    [DeleteObject] requests with any permissions, expiry — a version held in
    compliance mode until [T] (in whole seconds) or later is still there and still
    held until [T], also when the clock fails. The dates asked for are before year
    10000, and excepted are the deletions whose retention the handler does not
    check: those with the header X-Amz-Replication-Status: REPLICA which no target
    asks to be replicated further. *)
Theorem compliance_is_worm T oi rs :
  0 ≤ T → T mod Second = 0 → compliant T oi → Forall (early T) rs →
  ∃ oi', lock_requests_run (Some oi) rs = Some oi' ∧ compliant T oi'.
Proof.
  intros HT Hs Hc Hrs. revert oi Hc. induction Hrs as [|r rs Hr Hrs IH]; intros oi Hc; [by exists oi|].
  destruct (compliant_step T oi r HT Hs Hc Hr) as (oi' & Hstep & Hc').
  unfold lock_requests_run. cbn [foldl]. rewrite Hstep. by apply IH.
Qed.

Lemma compliance_is_worm_witness :
  let ret := mkObjectRetention RetCompliance (y2030 + 400 * DayNs) in
  ∃ oi', lock_requests_run (Some (held_version RetCompliance))
    [ PutRetention (Some y2025) bypass_header anyone ret "2025-01-01T00:00:00Z" None;
      DeleteVersion (Some (y2025 + DayNs)) bypass_header (mkDeleteContext true false ErrNone true) ErrNone ErrNone;
      PutLegalHold "OFF" "" None; ExpireVersion None ] = Some oi' ∧ compliant y2030 oi'.
Proof.
  apply (compliance_is_worm y2030).
  - vm_compute; done.
  - vm_compute; done.
  - apply held_version_compliant.
  - repeat constructor; try (intros t [= <-]); vm_compute; done.
Defined.

(** The year 10000 breaks compliance mode: a retention date after the end of
    9999, which extends the retention and which a date in a time zone west of
    Greenwich can name, is stored in a form that is not read back, and the version
    can be deleted at once. *)
Theorem year_10000_ends_compliance T oi t t' ret rq h h' a b stamp dsc :
  compliant T oi → t < T → 0 < t' →
  GetObjectLegalHoldMeta (v_UserDefined oi) ≠ LegalHoldOn →
  or_RetainUntilDate (GetObjectRetentionMeta (v_UserDefined oi)) ≤ year10000 →
  or_Mode ret = RetCompliance → year10000 ≤ or_RetainUntilDate ret < year10000 + 2 * DayNs →
  rq_AccessKey rq ≠ "" → iam_PutRetention rq RetCompliance (or_RetainUntilDate ret) = true →
  lock_requests_run (Some oi) [PutRetention (Some t) h rq ret stamp dsc; DeleteVersion (Some t') h' (mkDeleteContext true false ErrNone true) a b] = None.
Proof.
  intros (Hdm & Hm & Ht) Hnow Ht' Hhold Hd Hmr Hr Hk Hiam.
  assert (enforceRetentionBypassForPut (Some t) h rq oi ret = None) as Hput.
  { unfold enforceRetentionBypassForPut, isPutRetentionAllowed. rewrite Hm, Hmr, Hiam, (proj2 (String.eqb_neq _ _) Hk).
    rewrite (proj2 (Z.ltb_ge _ t)), (proj2 (Z.ltb_ge (or_RetainUntilDate ret) _)) by lia. done. }
  destruct (evalRetention (Some t) h rq ret stamp dsc oi) as [meta| |] eqn:Hev;
    [|unfold evalRetention in Hev; rewrite Hput, Hmr in Hev; done..].
  pose proof (legalhold_evalRetention _ _ _ _ _ _ _ _ Hev) as Hlh.
  unfold lock_requests_run. cbn [foldl lock_request_step mbind option_bind].
  replace (ParseObjectRetention (Some t) ret) with (@None lock_error).
  2:{ unfold ParseObjectRetention. rewrite Hmr, (proj2 (Z.eqb_neq (or_RetainUntilDate ret) 0)),
        (proj2 (Z.ltb_ge (or_RetainUntilDate ret) t)) by (unfold year10000, DayNs, Second in *; lia). done. }
  rewrite Hev. apply retention_evalRetention in Hev.
  rewrite Hmr, ParseRFC3339_year10000 in Hev by done. cbn [mbind option_bind].
  unfold deleteObject_reached. cbn [dc_LockEnabled dc_DeletePrefix dc_MayReplicate dc_PurgeEmpty].
  rewrite expired_delete; [by destruct (String.eqb (header_Get h' _) _)|cbn [with_meta v_UserDefined]; rewrite ?Hlh, ?Hev; done..].
Qed.

Lemma year_10000_ends_compliance_witness :
  let ret := mkObjectRetention RetCompliance (default 0 (ParseRFC3339 "9999-12-31T23:59:59-12:00")) in
  lock_requests_run (Some (held_version RetCompliance))
    [ PutRetention (Some y2025) ∅ anyone ret "" None;
      DeleteVersion (Some y2025) ∅ (mkDeleteContext true false ErrNone true) ErrAccessDenied ErrAccessDenied ] = None.
Proof.
  apply (year_10000_ends_compliance y2030); try (vm_compute; done).
Defined.

(** The status of a replica stands for the end of the retention: whoever is
    allowed to replicate deletions deletes a version held in compliance mode, or
    under a legal hold, with the header X-Amz-Replication-Status: REPLICA. *)
Theorem replica_delete_ignores_retention now h a b oi :
  header_Get h "X-Amz-Replication-Status" = "REPLICA" →
  lock_requests_run (Some oi) [DeleteVersion now h (mkDeleteContext true false ErrNone true) a b] = None.
Proof.
  intros Hh. unfold lock_requests_run. cbn [foldl lock_request_step mbind option_bind].
  unfold deleteObject_reached. by rewrite Hh.
Qed.

Lemma replica_delete_ignores_retention_witness :
  lock_requests_run (Some (held_version RetCompliance))
    [DeleteVersion (Some y2025) {["X-Amz-Replication-Status" := ["REPLICA"]]}
       (mkDeleteContext true false ErrNone true) ErrAccessDenied ErrAccessDenied] = None.
Proof. by apply (replica_delete_ignores_retention (Some y2025)). Defined.

(** When the deletion of a version is allowed: no legal hold is on, and the
    version is not retained, its retention has ended (in governance mode only
    without the bypass header), or it is held in governance mode and the request
    has the bypass header and one of the two permissions. *)
Theorem delete_allowed_iff t h a b oi :
  let ret := GetObjectRetentionMeta (v_UserDefined oi) in
  enforceRetentionBypassForDelete (Some t) h None a b oi None = ErrNone ↔
  GetObjectLegalHoldMeta (v_UserDefined oi) ≠ LegalHoldOn ∧
  (RetMode_Valid (or_Mode ret) = false ∨
   or_RetainUntilDate ret < t ∧ (or_Mode ret = RetGovernance → IsObjectLockGovernanceBypassSet h = false) ∨
   or_Mode ret = RetGovernance ∧ IsObjectLockGovernanceBypassSet h = true ∧ (a = ErrNone ∨ b = ErrNone)).
Proof.
  cbn zeta. unfold enforceRetentionBypassForDelete.
  set (lh := GetObjectLegalHoldMeta _). set (ret := GetObjectRetentionMeta _).
  destruct (String.eqb_spec lh LegalHoldOn) as [->|Hlh]; [split; [done|by intros [? _]]|]. rewrite andb_false_r.
  destruct (RetMode_Valid (or_Mode ret)) eqn:Hv; [|intuition congruence].
  assert (RetCompliance ≠ RetGovernance) by done.
  apply RetMode_Valid_true in Hv as [-> | ->]; cbn.
  - destruct (IsObjectLockGovernanceBypassSet h); cbn.
    + destruct (bool_decide_reflect (a = ErrNone)), (bool_decide_reflect (b = ErrNone)); cbn;
        intuition congruence.
    + destruct (Z.ltb_spec (or_RetainUntilDate ret) t); cbn; intuition (lia || congruence).
  - destruct (Z.ltb_spec (or_RetainUntilDate ret) t); cbn; intuition (lia || congruence).
Qed.

(** The bypass header stands for the permission: whoever is authenticated,
    without any permission, removes the retention of a version held in governance
    mode by asking for no retention with the bypass header set. *)
Theorem bypass_header_needs_no_permission t h rq oi :
  IsObjectLockGovernanceBypassSet h = true → rq_AccessKey rq ≠ "" →
  (∀ m d, iam_Bypass rq m d = false ∧ iam_PutRetention rq m d = false) →
  or_Mode (GetObjectRetentionMeta (v_UserDefined oi)) = RetGovernance →
  ∃ meta, evalRetention (Some t) h rq noObjectRetention "" None oi = Ok meta ∧
    GetObjectRetentionMeta meta = noObjectRetention.
Proof.
  intros Hh Hk Hiam Hm.
  assert (enforceRetentionBypassForPut (Some t) h rq oi noObjectRetention = None) as Hput.
  { unfold enforceRetentionBypassForPut, isPutRetentionAllowed.
    rewrite Hm, Hh, (proj2 (String.eqb_neq _ _) Hk). cbn. by destruct (_ <? t). }
  destruct (evalRetention (Some t) h rq noObjectRetention "" None oi) as [meta| |] eqn:Hev;
    [|unfold evalRetention in Hev; rewrite Hput in Hev; done..].
  exists meta. split; [done|]. by apply retention_evalRetention in Hev.
Qed.

Lemma bypass_header_needs_no_permission_witness :
  ∃ meta, evalRetention (Some y2025) bypass_header nobody noObjectRetention "" None (held_version RetGovernance)
            = Ok meta ∧ GetObjectRetentionMeta meta = noObjectRetention.
Proof. by apply (bypass_header_needs_no_permission y2025 bypass_header nobody). Defined.

(** A legal hold header with an unknown value switches the default retention
    of the bucket off: the upload is accepted with neither. *)
Theorem bad_legal_hold_skips_retention now now' h v cfg retPerm holdPerm :
  h !! AmzObjectLockLegalHold = Some [v] → parseLegalHoldStatus v = "" →
  h !! AmzObjectLockMode = None → h !! AmzObjectLockRetainUntilDate = None →
  r_LockEnabled cfg = true →
  checkPutObjectLockAllowed now now' h (Ok cfg) (Ok "") None retPerm holdPerm = Ok (mkPutLock "" 0 "" ErrNone).
Proof.
  intros Hlh Hv Hm Hd Hen. unfold checkPutObjectLockAllowed, IsObjectLockRetentionRequested,
    IsObjectLockLegalHoldRequested, ParseObjectLockLegalHoldHeaders, has_header.
  rewrite Hlh, Hm, Hd, Hen, Hv. done.
Qed.

Lemma bad_legal_hold_skips_retention_witness :
  checkPutObjectLockAllowed (Some y2025) (Some y2025) {[AmzObjectLockLegalHold := ["yes"]]}
    (Ok (mkRetention RetCompliance (30 * DayNs) true)) (Ok "") None ErrNone ErrNone
  = Ok (mkPutLock "" 0 "" ErrNone).
Proof. by apply (bad_legal_hold_skips_retention _ _ _ "yes"). Defined.

(** The default retention of a bucket reaches every plain upload: with a valid
    configuration, the permission and no lock headers, the version is retained in
    the mode of the configuration for exactly the days, or between 365 and 366
    days for each of the years, that it names. *)
Theorem default_retention_applies c d t now h existing holdPerm :
  cfg_Rule c = Some d → checkConfig c = None →
  IsObjectLockRequested h = false → header_Get h "X-Amz-Replication-Status" ≠ "REPLICA" →
  ∃ p, checkPutObjectLockAllowed now (Some t) h (lockSys_Get false true (Some t) (Ok (Some c))) (Ok "")
         existing ErrNone holdPerm = Ok p ∧
    pl_Code p = ErrNone ∧ pl_Mode p = dr_Mode d ∧ pl_LegalHold p = "" ∧
    (∀ n, dr_Days d = Some n → pl_Date p = t + Z.of_N n * DayNs) ∧
    (∀ n, dr_Years d = Some n → t + 365 * Z.of_N n * DayNs ≤ pl_Date p ≤ t + 366 * Z.of_N n * DayNs).
Proof.
  intros Hr Hc Hh Hrep. destruct (ToRetention_valid c d t Hr Hc) as (r & Hto & Hm & He & Hv & Hdays & Hyears).
  unfold IsObjectLockRequested in Hh. apply orb_false_iff in Hh as [Hh1 Hh2].
  unfold checkPutObjectLockAllowed, lockSys_Get. rewrite Hto, Hh1, Hh2, He, (proj2 (String.eqb_neq _ _) Hrep). cbn.
  rewrite (proj2 (Z.ltb_lt 0 _) Hv). eexists. split; [done|]. cbn [pl_Code pl_Mode pl_LegalHold pl_Date].
  split_and!; try done; intros n Hn; [rewrite (Hdays n Hn); done|specialize (Hyears n Hn); lia].
Qed.

Lemma default_retention_applies_witness :
  let c := mkConfig "Enabled" (Some (mkDefaultRetention RetGovernance (Some 30%N) None)) in
  ∃ p, checkPutObjectLockAllowed None (Some y2025) ∅ (lockSys_Get false true (Some y2025) (Ok (Some c))) (Ok "")
         None ErrNone ErrNone = Ok p ∧
    pl_Code p = ErrNone ∧ pl_Mode p = RetGovernance ∧ pl_LegalHold p = "" ∧
    (∀ n, Some 30%N = Some n → pl_Date p = y2025 + Z.of_N n * DayNs) ∧
    (∀ n, None = Some n → y2025 + 365 * Z.of_N n * DayNs ≤ pl_Date p ≤ y2025 + 366 * Z.of_N n * DayNs).
Proof.
  by apply (default_retention_applies _ (mkDefaultRetention RetGovernance (Some 30%N) None) y2025 None ∅ None ErrNone).
Defined.
