(* ===== verification/ZcnAlloc.v ===== *)
(** * The interface of the 0chain SDK the gateway uses

    [sdk.Allocation] (github.com/0chain/gosdk) is not part of the repository: an
    [Allocation] is its operations as parameters, over an unspecified state [St]
    of the network and of the SDK. Every call takes and returns that state, so
    two identical calls may answer differently (a retry may succeed). What the
    gateway relies on is stated where it is used, as classes over this one. *)

From Stdlib Require Import ZArith Lia Bool Ascii.
From S2P Require Import Prelude GoStrings GoPath ZcnErrors ZcnPath.

(** [sdk.ORef]: the metadata of one remote file or directory. *)
Record ORef := mkORef {
  ref_Type : string;
  ref_Name : string;
  ref_Path : string;
  ref_Size : Z;
  ref_ActualFileSize : Z;
  ref_ActualFileHash : string;
  ref_MimeType : string;
  ref_CustomMeta : string;
  ref_EncryptedKey : string;
  ref_CreatedAt : Z;
  ref_UpdatedAt : Z;
}.

#[export] Instance ORef_eq_dec : EqDecision ORef.
Proof. solve_decision. Defined.

(** [ref.Name = name] *)
Definition ref_set_Name (name : string) (r : ORef) : ORef :=
  mkORef (ref_Type r) name (ref_Path r) (ref_Size r) (ref_ActualFileSize r) (ref_ActualFileHash r)
    (ref_MimeType r) (ref_CustomMeta r) (ref_EncryptedKey r) (ref_CreatedAt r) (ref_UpdatedAt r).

(** The three assignments the handlers make when the reference is a directory. *)
Definition ref_as_directory (r : ORef) : ORef :=
  mkORef (ref_Type r) (ref_Name r) (ref_Path r) (ref_Size r) 0 s3ContentHash
    s3DirectoryContentType (ref_CustomMeta r) (ref_EncryptedKey r) (ref_CreatedAt r) (ref_UpdatedAt r).

Definition is_dir (r : ORef) : bool := String.eqb (ref_Type r) dirType.
Definition is_file (r : ORef) : bool := String.eqb (ref_Type r) fileType.

(** [sdk.ObjectTreeResult] *)
Record ObjectTreeResult := mkTree { Refs : list ORef; OffsetPath : string }.

(** [constants.FileOperation*] *)
Inductive FileOperation :=
  | FileOperationInsert | FileOperationUpdate | FileOperationDelete
  | FileOperationCreateDir | FileOperationCopy.

#[export] Instance FileOperation_eq_dec : EqDecision FileOperation.
Proof. solve_decision. Defined.

(** [sdk.FileMeta] *)
Record FileMeta := mkFileMeta {
  fm_RemotePath : string;
  fm_RemoteName : string;
  fm_ActualSize : Z;
  fm_MimeType : string;
  fm_CustomMeta : string;
}.
Definition noFileMeta : FileMeta := mkFileMeta "" "" 0 "" "".

(** [sdk.OperationRequest]; [op_FileReader] is the bytes its reader delivers,
    [op_ChunkNumber] and [op_Encrypt] the two upload options. *)
Record OperationRequest := mkOp {
  op_OperationType : FileOperation;
  op_RemotePath : string;
  op_DestPath : string;
  op_FileMeta : FileMeta;
  op_FileReader : option string;
  op_StreamUpload : bool;
  op_ChunkNumber : option Z;
  op_Encrypt : option bool;
}.

(** A request with only a type and a path, as [DeleteBucket] and
    [MakeBucketWithLocation] build it. *)
Definition pathOp (ty : FileOperation) (remotePath : string) : OperationRequest :=
  mkOp ty remotePath "" noFileMeta None false None None.

Class Allocation (St : Type) := {
  (** path, offsetPath, updatedDate, offsetDate, fileType, refType, level, pageLimit *)
  GetRefs : string → string → string → string → string → string → Z → Z →
            M St error ObjectTreeResult;
  DoMultiOperation : list OperationRequest → M St error ();
}.
