(* ===== verification/ZcnRefs.v ===== *)
(** * Looking up and listing remote references (cmd/gateway/zcn/dStorage.go) *)

From Stdlib Require Import ZArith Lia Bool Ascii.
From S2P Require Import Prelude GoStrings GoPath GoHeap ZcnErrors ZcnPath ZcnAlloc.

Local Open Scope go_scope.

Definition pageLimit : Z := 1000.

(** [len(strings.Split(strings.TrimSuffix(p, "/"), "/"))] *)
Definition pathLevel (p : string) : Z := Z.of_nat (length (split_char slash (TrimSuffix p "/"))).

Section refs.
Context {St : Type} `{!Allocation St}.

(** The two calls to [alloc.GetRefs] of [getSingleRegularRef]. *)
Definition singleRefs (remotePath : string) (level : Z) : M St error ObjectTreeResult :=
  GetRefs remotePath "" "" "" "" "regular" level 1.

(** A consensus failure is retried once; a second one means that the path does
    not exist. *)
Definition getSingleRegularRef (remotePath : string) : M St error ORef :=
  let level := pathLevel remotePath in
  let remotePath := Clean remotePath in
  let first_ref (oResult : ObjectTreeResult) : M St error ORef :=
    match Refs oResult with
    | [] => mfail (not_exist_error remotePath)
    | ref :: _ => mret_ok ref
    end in
  r ←r singleRefs remotePath level;
  match r with
  | Ok oResult => first_ref oResult
  | Panic w => λ s, (Panic w, s)
  | Err err =>
      if isConsensusFailedError (Some err) then
        r ←r singleRefs remotePath level;
        match r with
        | Ok oResult => first_ref oResult
        | Panic w => λ s, (Panic w, s)
        | Err err =>
            if isConsensusFailedError (Some err) then mfail (not_exist_error remotePath)
            else mfail err
        end
      else mfail err
  end.

Definition refsLevel (remotePath offsetPath objFileType : string) : Z :=
  let level := (pathLevel remotePath + 1)%Z in
  let level :=
    if String.eqb offsetPath "" then level
    else if (level <? pathLevel offsetPath)%Z then 0%Z else level in
  if String.eqb objFileType fileType then 0%Z else level.

Definition getRegularRefs (remotePath offsetPath objFileType : string) (limit : Z)
    : M St error ObjectTreeResult :=
  GetRefs (Clean remotePath) offsetPath "" "" objFileType "regular"
    (refsLevel remotePath offsetPath objFileType) limit.

(** The loop of [listRootDir]: page after page until an empty one. *)
Fixpoint listRootDir_loop (fuel : nat) (ftype : string) (refs : list ORef) (offsetPath : string)
    : M St error (list ORef) :=
  match fuel with
  | 0 => λ s, (Panic "out of fuel", s)
  | S fuel =>
      oResult ←! getRegularRefs rootPath offsetPath ftype pageLimit;
      if (length (Refs oResult) =? 0)%nat then mret_ok refs
      else listRootDir_loop fuel ftype (refs ++ Refs oResult) (OffsetPath oResult)
  end.
Definition listRootDir (fuel : nat) (ftype : string) : M St error (list ORef) :=
  listRootDir_loop fuel ftype [] "".

(** ** [listRegularRefs] *)

(** The variables of the function that its loops assign. *)
Record LState := mkLState {
  l_refs : list ORef;
  l_prefixes : list string;
  l_dirMap : gset string;
  l_directories : list string;
  l_limit : Z;
  l_marker : string;
  l_truncated : bool;
  l_markedPath : string;
}.

(** One reference of a page; [true] is the jump to [breakLoop]. *)
Definition listRef (isDelimited : bool) (maxRefs : Z) (current : string) (st : LState) (ref : ORef)
    : LState * bool :=
  let commonPrefix := getCommonPrefix current in
  let trimmedPath := TrimPrefix (ref_Path ref) (current +:+ "/") in
  let append (st : LState) :=
    let ref := ref_set_Name (Join [commonPrefix; trimmedPath]) ref in
    let refs := l_refs st ++ [ref] in
    let full := negb (maxRefs =? 0)%Z && (maxRefs <=? Z.of_nat (length refs))%Z in
    (mkLState refs (l_prefixes st) (l_dirMap st) (l_directories st) (l_limit st) (l_marker st)
       (full || l_truncated st) (if full then ref_Path ref else l_markedPath st), full) in
  if is_dir ref then
    if bool_decide (ref_Path ref ∈ l_dirMap st) then (st, false)
    else if isDelimited then
      (mkLState (l_refs st) (l_prefixes st ++ [Join [commonPrefix; trimmedPath] +:+ "/"])
         (l_dirMap st) (l_directories st) (l_limit st) (l_marker st)
         (l_truncated st) (l_markedPath st), false)
    else
      append (mkLState (l_refs st) (l_prefixes st) ({[ref_Path ref]} ∪ l_dirMap st)
         (heap_push str_ltb (l_directories st) (ref_Path ref)) (l_limit st) (l_marker st)
         (l_truncated st) (l_markedPath st))
  else append st.

Fixpoint listPage (isDelimited : bool) (maxRefs : Z) (current : string) (st : LState)
    (page : list ORef) : LState * bool :=
  match page with
  | [] => (st, false)
  | ref :: page =>
      let '(st, stop) := listRef isDelimited maxRefs current st ref in
      if stop : bool then (st, true) else listPage isDelimited maxRefs current st page
  end.

Definition set_limit (lim : Z) (st : LState) : LState :=
  mkLState (l_refs st) (l_prefixes st) (l_dirMap st) (l_directories st) lim (l_marker st)
    (l_truncated st) (l_markedPath st).

(** The inner [for]: the pages of one directory. *)
Fixpoint listPages (fuel : nat) (ftype : string) (isDelimited : bool) (maxRefs : Z)
    (current offsetPath : string) (st : LState) : M St error (LState * bool) :=
  match fuel with
  | 0 => λ s, (Panic "out of fuel", s)
  | S fuel =>
      let st :=
        if (maxRefs <? Z.of_nat (length (l_refs st)) + l_limit st)%Z
        then set_limit (maxRefs - Z.of_nat (length (l_refs st)))%Z st else st in
      oResult ←! getRegularRefs current offsetPath ftype (l_limit st);
      if (length (Refs oResult) =? 0)%nat then mret_ok (st, false)
      else
        let '(st', stop) := listPage isDelimited maxRefs current st (Refs oResult) in
        if stop : bool then mret_ok (st', true)
        else if (Z.of_nat (length (Refs oResult)) <? l_limit st')%Z then mret_ok (st', false)
        else listPages fuel ftype isDelimited maxRefs current (OffsetPath oResult) st'
  end.

(** The outer [for]: the directories in the order of the heap. *)
Fixpoint listDirs (fuel : nat) (ftype : string) (isDelimited : bool) (maxRefs : Z) (st : LState)
    : M St error LState :=
  match fuel with
  | 0 => λ s, (Panic "out of fuel", s)
  | S fuel' =>
      match heap_pop str_ltb (l_directories st) with
      | None => mret_ok st
      | Some (current, rest) =>
          if l_truncated st then mret_ok st
          else
            let offsetPath :=
              if String.eqb (l_marker st) "" then current else Join [current; l_marker st] in
            let st := mkLState (l_refs st) (l_prefixes st) (l_dirMap st) rest (l_limit st) ""
                        (l_truncated st) (l_markedPath st) in
            r ←! listPages fuel ftype isDelimited maxRefs current offsetPath st;
            if r.2 : bool then mret_ok r.1
            else listDirs fuel' ftype isDelimited maxRefs r.1
      end
  end.

(** The result: references, whether truncated, the marker, the prefixes. *)
Definition listRegularRefs (fuel : nat) (remotePath marker ftype : string) (maxRefs : Z)
    (isDelimited : bool) : M St error (list ORef * bool * string * list string) :=
  let remotePath := Clean remotePath in
  let st0 := mkLState [] [] ∅ (heap_push str_ltb [] remotePath) pageLimit marker false "" in
  st ←! listDirs fuel ftype isDelimited maxRefs st0;
  let marker :=
    if l_truncated st then TrimPrefix (l_markedPath st) (remotePath +:+ "/") else "" in
  mret_ok (l_refs st, l_truncated st, marker, l_prefixes st).
End refs.
