(* ===== verification/ZcnStore.v ===== *)
(** * What the gateway relies on from the SDK, and a store that provides it

    [StoreLaws] states the documented behaviour of [sdk.Allocation] on a healthy
    network: a query for one path answers with the reference stored under it, a
    missing path is a consensus failure or an empty answer (the comment in
    [getSingleRegularRef] says so), and a multi-operation that returns no error
    has performed its requests. [PagedLaws] adds the paging of [GetRefs].
    [MemStore] is an allocation kept in a finite map that satisfies both, so that
    the theorems proved from the laws apply to something. *)

From Stdlib Require Import ZArith Lia Bool Ascii.
From stdpp Require Import sorting.
From S2P Require Import Prelude GoStrings GoPath GoHeap ZcnErrors ZcnPath ZcnAlloc ZcnRefs.

Abbreviation plains es := (Forall (λ e, plain e = true) es).

Definition underb (dir p : string) : bool := String.eqb p dir || HasPrefix p (dir +:+ "/").

Lemma underb_spec dir p : underb dir p = true ↔ under dir p.
Proof. unfold underb, under. by rewrite orb_true_iff, String.eqb_eq. Qed.

(** The effect of one request on the stored references, [t] before, [t'] after.
    Creating a path may create its ancestors; nothing else changes. *)
Definition op_effect (op : OperationRequest) (t t' : gmap string ORef) : Prop :=
  match op_OperationType op with
  | FileOperationDelete =>
      ∀ q, t' !! q = if underb (op_RemotePath op) q then None else t !! q
  | FileOperationCreateDir =>
      (∃ r, t' !! op_RemotePath op = Some r ∧ is_dir r = true ∧ ref_Path r = op_RemotePath op
            ∧ ref_Name r = Base (op_RemotePath op)
            ∧ (t !! op_RemotePath op = None → ref_Size r = 0%Z)) ∧
      (∀ q, underb q (op_RemotePath op) = false → t' !! q = t !! q)
  | FileOperationInsert | FileOperationUpdate =>
      let fm := op_FileMeta op in
      (∃ r, t' !! fm_RemotePath fm = Some r ∧ is_dir r = false ∧ ref_Path r = fm_RemotePath fm
            ∧ ref_Name r = fm_RemoteName fm ∧ ref_MimeType r = fm_MimeType fm
            ∧ ref_CustomMeta r = fm_CustomMeta fm
            ∧ (op_StreamUpload op = false → ref_ActualFileSize r = fm_ActualSize fm)) ∧
      (∀ q, underb q (fm_RemotePath fm) = false → t' !! q = t !! q)
  | FileOperationCopy => True
  end.

Inductive ops_effect : list OperationRequest → gmap string ORef → gmap string ORef → Prop :=
  | ops_nil t : ops_effect [] t t
  | ops_cons op ops t t1 t2 :
      op_effect op t t1 → ops_effect ops t1 t2 → ops_effect (op :: ops) t t2.

Class StoreLaws (St : Type) `{!Allocation St} := {
  tree : St → gmap string ORef;
  GetRefs_found st es r :
    plains es → tree st !! abs_path es = Some r →
    ∃ off, GetRefs (abs_path es) "" "" "" "" "regular" (pathLevel (abs_path es)) 1 st
           = (Ok (mkTree [r] off), st);
  GetRefs_missing st es :
    plains es → tree st !! abs_path es = None →
    (∃ msg, GetRefs (abs_path es) "" "" "" "" "regular" (pathLevel (abs_path es)) 1 st
            = (Err (ZError consensusFailed msg), st)) ∨
    (∃ off, GetRefs (abs_path es) "" "" "" "" "regular" (pathLevel (abs_path es)) 1 st
            = (Ok (mkTree [] off), st));
  DoMultiOperation_ok st ops st' :
    DoMultiOperation ops st = (Ok (), st') → ops_effect ops (tree st) (tree st');
}.

(** Paging: a query with an offset answers the first [limit] references after
    it, in path order, and the offset for the next page. *)
Definition after (off : string) (r : ORef) : bool := str_ltb off (ref_Path r).

Fixpoint sorted_refs (l : list ORef) : Prop :=
  match l with
  | [] => True
  | r :: l => Forall (λ r', str_ltb (ref_Path r) (ref_Path r') = true) l ∧ sorted_refs l
  end.

Definition page_of (limit : Z) (off : string) (l : list ORef) : list ORef :=
  take (Z.to_nat limit) (filter (λ r, after off r = true) l).

Class PagedLaws (St : Type) `{!Allocation St} := {
  (** what lies below a path, for a file type and a level *)
  listing : St → string → string → Z → list ORef;
  listing_sorted st p ft lv : sorted_refs (listing st p ft lv);
  listing_type st p ft lv r : r ∈ listing st p ft lv → ft ≠ "" → ref_Type r = ft;
  listing_level st p ft lv r : r ∈ listing st p ft lv → lv ≠ 0%Z → pathLevel (ref_Path r) = lv;
  listing_under st es ft lv r :
    plains es → r ∈ listing st (abs_path es) ft lv →
    ∃ fs, fs ≠ [] ∧ plains fs ∧ ref_Path r = abs_path (es ++ fs);
  GetRefs_page st p off ft lv limit :
    (0 < limit)%Z → limit ≠ 1%Z ∨ off ≠ "" →
    GetRefs p off "" "" ft "regular" lv limit st =
    (let page := page_of limit off (listing st p ft lv) in
     (Ok (mkTree page (last_elem off (ref_Path <$> page))), st));
}.

(** ** Consequences for [getSingleRegularRef] *)
Section single.
Context {St} `{!Allocation St, !StoreLaws St}.

(** On a clean absolute path the lookup returns the stored reference, or the
    gateway's own "does not exist" error; the store is not changed. *)
Lemma getSingleRegularRef_abs st es :
  plains es →
  getSingleRegularRef (abs_path es) st =
  (match tree st !! abs_path es with
   | Some r => Ok r
   | None => Err (not_exist_error (abs_path es))
   end, st).
Proof.
  intros Hes. unfold getSingleRegularRef. rewrite Clean_abs_path by done.
  unfold singleRefs. destruct (tree st !! abs_path es) as [r|] eqn:E.
  - destruct (GetRefs_found st es r Hes E) as [off Hg].
    run_m. rewrite Hg. done.
  - destruct (GetRefs_missing st es Hes E) as [[msg Hg]|[off Hg]].
    + run_m. rewrite Hg. simpl. rewrite Hg. done.
    + run_m. rewrite Hg. done.
Qed.

Lemma getSingleRegularRef_object st bucket object :
  let p := objectRemotePath bucket object in
  getSingleRegularRef p st =
  (match tree st !! p with Some r => Ok r | None => Err (not_exist_error p) end, st).
Proof.
  simpl. rewrite objectRemotePath_elems. apply getSingleRegularRef_abs, remote_elems_plain.
Qed.

Lemma bucketRemotePath_elems bucket :
  ∃ es, plains es ∧ bucketRemotePath bucket = abs_path es.
Proof.
  unfold bucketRemotePath, rootPath. destruct (String.eqb bucket rootBucketName).
  - exists []. done.
  - rewrite Join_abs. eexists. split; [|done]. auto with go.
Qed.

Lemma getSingleRegularRef_bucket st bucket :
  let p := bucketRemotePath bucket in
  getSingleRegularRef p st =
  (match tree st !! p with Some r => Ok r | None => Err (not_exist_error p) end, st).
Proof.
  simpl. destruct (bucketRemotePath_elems bucket) as (es & Hes & ->).
  by apply getSingleRegularRef_abs.
Qed.

Lemma DoMultiOperation_one st op st' :
  DoMultiOperation [op] st = (Ok (), st') → op_effect op (tree st) (tree st').
Proof.
  intros H%DoMultiOperation_ok. inversion H as [|? ? ? ? ? Ho Hn]; subst.
  by inversion Hn; subst.
Qed.
End single.

(** ** A concrete store *)
Module MemStore.
Abbreviation t := (gmap string ORef).

Definition le_key (a b : string * ORef) : Prop := str_ltb b.1 a.1 = false.
#[export] Instance le_key_dec : RelDecision le_key.
Proof. intros a b. unfold le_key. apply _. Defined.

Definition matches (p ft : string) (lv : Z) (kr : string * ORef) : bool :=
  String.eqb (ref_Path kr.2) kr.1 && String.eqb (abs_path (path_elems kr.1)) kr.1
  && bool_decide (path_elems p `prefix_of` path_elems kr.1 ∧ path_elems p ≠ path_elems kr.1)
  && (String.eqb ft "" || String.eqb (ref_Type kr.2) ft)
  && ((lv =? 0)%Z || (pathLevel kr.1 =? lv)%Z).

Definition list_under (st : t) (p ft : string) (lv : Z) : list ORef :=
  snd <$> merge_sort le_key (filter (λ kr, matches p ft lv kr = true) (map_to_list st)).

Definition get_refs (p off ud od ft rt : string) (lv limit : Z) : M t error ObjectTreeResult :=
  λ st,
    if (limit =? 1)%Z && String.eqb off "" then
      (match st !! p with
       | Some r => Ok (mkTree [r] p)
       | None => Err (ZError consensusFailed "consensus failed")
       end, st)
    else
      let page := page_of limit off (list_under st p ft lv) in
      (Ok (mkTree page (last_elem off (ref_Path <$> page))), st).

Definition new_dir (p cm : string) : ORef := mkORef dirType (Base p) p 0 0 "" "" cm "" 0 0.
Definition new_file (fm : FileMeta) (data : option string) (stream : bool) : ORef :=
  let size := if stream then Z.of_nat (String.length (default "" data)) else fm_ActualSize fm in
  mkORef fileType (fm_RemoteName fm) (fm_RemotePath fm) size size "" (fm_MimeType fm)
    (fm_CustomMeta fm) "" 0 0.

Definition ref_move (p : string) (r : ORef) : ORef :=
  mkORef (ref_Type r) (Base p) p (ref_Size r) (ref_ActualFileSize r) (ref_ActualFileHash r)
    (ref_MimeType r) (ref_CustomMeta r) (ref_EncryptedKey r) (ref_CreatedAt r) (ref_UpdatedAt r).

Definition do_op (op : OperationRequest) (st : t) : t :=
  match op_OperationType op with
  | FileOperationDelete => filter (λ kr, underb (op_RemotePath op) kr.1 = false) st
  | FileOperationCreateDir =>
      <[op_RemotePath op := new_dir (op_RemotePath op) (fm_CustomMeta (op_FileMeta op))]> st
  | FileOperationInsert | FileOperationUpdate =>
      <[fm_RemotePath (op_FileMeta op) :=
          new_file (op_FileMeta op) (op_FileReader op) (op_StreamUpload op)]> st
  | FileOperationCopy =>
      match st !! op_RemotePath op with
      | Some r => <[op_DestPath op := ref_move (op_DestPath op) r]> st
      | None => st
      end
  end.

#[global] Instance allocation : Allocation t := {|
  GetRefs := get_refs;
  DoMultiOperation ops st := (Ok (), foldl (λ st op, do_op op st) st ops);
|}.

Lemma underb_refl p : underb p p = true.
Proof. unfold underb. by rewrite String.eqb_refl. Qed.

Lemma do_op_effect op st : op_effect op st (do_op op st).
Proof.
  unfold op_effect, do_op. destruct (op_OperationType op); [| | | |done].
  - split.
    + eexists. rewrite lookup_insert_eq. split_and!; try done. unfold new_file; simpl. by intros ->.
    + intros q Hq. rewrite lookup_insert_ne; [done|]. intros <-. by rewrite underb_refl in Hq.
  - split.
    + eexists. rewrite lookup_insert_eq. split_and!; try done. unfold new_file; simpl. by intros ->.
    + intros q Hq. rewrite lookup_insert_ne; [done|]. intros <-. by rewrite underb_refl in Hq.
  - intros q. destruct (st !! q) as [r|] eqn:E.
    + destruct (underb (op_RemotePath op) q) eqn:Eu.
      * apply map_lookup_filter_None. right. intros r' _. simpl. by rewrite Eu.
      * by apply map_lookup_filter_Some.
    + rewrite (map_lookup_filter_None_2 _ st q) by by left. by case_match.
  - split.
    + eexists. by rewrite lookup_insert_eq.
    + intros q Hq. rewrite lookup_insert_ne; [done|]. intros <-. by rewrite underb_refl in Hq.
Qed.

Lemma do_ops_effect ops st : ops_effect ops st (foldl (λ st op, do_op op st) st ops).
Proof.
  revert st. induction ops as [|op ops IH]; intros st; simpl; econstructor; [|done].
  apply do_op_effect.
Qed.

#[global] Program Instance laws : StoreLaws t := {| tree st := st |}.
Next Obligation.
  intros st es r Hes E. exists (abs_path es). simpl. unfold get_refs. simpl. by rewrite E.
Qed.
Next Obligation.
  intros st es Hes E. left. exists "consensus failed". simpl. unfold get_refs. simpl. by rewrite E.
Qed.
Next Obligation. intros st ops st'. simpl. intros [= <-]. apply do_ops_effect. Qed.

#[local] Instance le_key_trans : Transitive le_key.
Proof. intros a b c H1 H2. unfold le_key in *. eapply str_ltb_neg_trans; eauto. Qed.
#[local] Instance le_key_total : Total le_key.
Proof.
  intros a b. unfold le_key. destruct (str_ltb b.1 a.1) eqn:E; [|by left].
  right. by apply str_ltb_asym.
Qed.

Lemma sorted_snd l :
  StronglySorted le_key l → NoDup l.*1 → Forall (λ kr, ref_Path kr.2 = kr.1) l →
  sorted_refs (snd <$> l).
Proof.
  induction 1 as [|kr l Hl IH Hk]; simpl; [done|]. intros [Hn Hnd]%NoDup_cons [Hp Hps]%Forall_cons.
  split; [|by apply IH]. apply Forall_fmap, Forall_forall. intros kr' Hin. simpl.
  rewrite Forall_forall in Hps, Hk. specialize (Hps _ Hin). specialize (Hk _ Hin).
  rewrite Hp, Hps. destruct (str_ltb kr.1 kr'.1) eqn:E; [done|]. destruct Hn.
  unfold le_key in Hk. rewrite (str_ltb_total kr.1 kr'.1) by done.
  by apply list_elem_of_fmap_2.
Qed.

Lemma matches_inv p ft lv k r :
  matches p ft lv (k, r) = true →
  ref_Path r = k ∧ abs_path (path_elems k) = k ∧
  (path_elems p `prefix_of` path_elems k ∧ path_elems p ≠ path_elems k) ∧
  (ft = "" ∨ ref_Type r = ft) ∧ (lv = 0%Z ∨ pathLevel k = lv).
Proof.
  unfold matches; cbn [fst snd].
  rewrite !andb_true_iff, !orb_true_iff, bool_decide_eq_true, !Z.eqb_eq, !String.eqb_eq. tauto.
Qed.

Lemma list_under_matches st p ft lv r :
  r ∈ list_under st p ft lv → matches p ft lv (ref_Path r, r) = true.
Proof.
  unfold list_under. intros ((k & r') & -> & Hin)%list_elem_of_fmap.
  rewrite merge_sort_Permutation in Hin. apply list_elem_of_filter in Hin as [Hm _].
  simpl. by destruct (matches_inv _ _ _ _ _ Hm) as (-> & _).
Qed.

#[global] Program Instance paged : PagedLaws t := {| listing := list_under |}.
Next Obligation.
  intros st p ft lv. unfold list_under.
  set (l := filter (λ kr, matches p ft lv kr = true) (map_to_list st)).
  pose proof (merge_sort_Permutation le_key l) as Hperm.
  apply sorted_snd.
  - apply StronglySorted_merge_sort; apply _.
  - rewrite Hperm. unfold l. eapply sublist_NoDup; [apply (NoDup_fst_map_to_list st)|].
    apply fmap_sublist, sublist_filter.
  - rewrite Hperm. unfold l. apply Forall_forall. intros kr [Hm _]%list_elem_of_filter.
    destruct kr. by apply matches_inv in Hm as (<- & _).
Qed.
Next Obligation.
  intros st p ft lv r Hr Hft.
  by apply list_under_matches, matches_inv in Hr as (_ & _ & _ & [?|?] & _).
Qed.
Next Obligation.
  intros st p ft lv r Hr Hft.
  by apply list_under_matches, matches_inv in Hr as (_ & _ & _ & _ & [?|?]).
Qed.
Next Obligation.
  intros st es ft lv r Hes Hr. apply list_under_matches, matches_inv in Hr as (_ & Hk & [[fs Hfs] Hne] & _).
  rewrite path_elems_abs in Hfs, Hne by done. exists fs. rewrite <- Hk, Hfs. split_and!; [|..|done].
  - intros ->. by rewrite app_nil_r in Hfs.
  - pose proof (path_elems_plain (ref_Path r)) as Hp. rewrite Hfs in Hp.
    by apply Forall_app in Hp as [_ ?].
Qed.
Next Obligation.
  intros st p off ft lv limit Hpos Hne. simpl. unfold get_refs.
  destruct (Z.eqb_spec limit 1) as [->|]; [|done]. destruct Hne as [|Hne]; [done|].
  simpl. destruct (String.eqb_spec off ""); done.
Qed.
End MemStore.
