(* ===== verification/ZcnListing.v ===== *)
(** * Listings are complete (cmd/gateway/zcn/dStorage.go)

    [listRootDir] and [listRegularRefs] fetch page after page from the SDK. From
    the paging laws of ZcnStore: they terminate with enough fuel (one unit per
    page), lose nothing and repeat nothing, and the markers a client is given
    lead it through the whole listing. *)

From Stdlib Require Import ZArith Lia Bool Ascii.
From S2P Require Import Prelude GoStrings GoPath GoHeap ZcnErrors ZcnPath ZcnAlloc ZcnRefs ZcnStore.

(** ** Sorted reference lists and offsets *)
Lemma str_ltb_irrefl a : str_ltb a a = false.
Proof. induction a as [|x a IH]; [done|]. simpl. by rewrite Ascii.eqb_refl. Qed.

Lemma sorted_refs_app l1 l2 :
  sorted_refs (l1 ++ l2) →
  sorted_refs l1 ∧ sorted_refs l2 ∧
  (∀ r1 r2, r1 ∈ l1 → r2 ∈ l2 → str_ltb (ref_Path r1) (ref_Path r2) = true).
Proof.
  induction l1 as [|r l1 IH]; simpl.
  - intros H. split_and!; try done. by intros ? ? ?%not_elem_of_nil.
  - intros [Hr Hs]. apply Forall_app in Hr as [Hr1 Hr2]. destruct (IH Hs) as (H1 & H2 & H3).
    split_and!; try done. intros r1 r2 [->|Hr']%elem_of_cons Hin; [|by apply H3].
    rewrite Forall_forall in Hr2. by apply Hr2.
Qed.

Lemma filter_none {A} (P : A → Prop) `{∀ x, Decision (P x)} (l : list A) :
  (∀ x, x ∈ l → ¬ P x) → filter P l = [].
Proof.
  induction l as [|x l IH]; intros Hl; [done|]. rewrite filter_cons_False.
  - apply IH. intros y Hy. apply Hl. by right.
  - apply Hl. by left.
Qed.

(** In a sorted list, what comes after the last reference of a prefix is the rest. *)
Lemma after_last l1 r l2 :
  sorted_refs ((l1 ++ [r]) ++ l2) →
  filter (λ x, after (ref_Path r) x = true) ((l1 ++ [r]) ++ l2) = l2.
Proof.
  intros H. apply sorted_refs_app in H as (Ha & _ & Hlt).
  apply sorted_refs_app in Ha as (_ & _ & Hl1). unfold after.
  rewrite !filter_app, filter_none, filter_cons_False, filter_nil, filter_all; [done|..].
  - apply Forall_forall. intros x Hx. apply Hlt; [|done]. apply elem_of_app. right. by left.
  - by rewrite str_ltb_irrefl.
  - intros x Hx. rewrite (str_ltb_asym (ref_Path x) (ref_Path r)); [done|].
    apply Hl1; [done|]. by left.
Qed.

(** The references after an offset are a suffix of the listing. *)
Lemma after_suffix off l :
  sorted_refs l → ∃ pre, l = pre ++ filter (λ x, after off x = true) l.
Proof.
  induction l as [|r l IH]; simpl; [by exists []|]. intros [Hr Hs].
  destruct (after off r) eqn:E.
  - exists []. symmetry. apply filter_all. constructor; [done|].
    eapply Forall_impl; [done|]. intros x Hx. unfold after in *. simpl in *.
    destruct (str_ltb off (ref_Path x)) eqn:E2; [done|].
    by rewrite (str_ltb_neg_trans (ref_Path x) off (ref_Path r)) in Hx;
      [|done|apply str_ltb_asym].
  - destruct (IH Hs) as [pre Hp]. exists (r :: pre).
    rewrite filter_cons_False by congruence. simpl. congruence.
Qed.

Lemma last_elem_snoc d l x : last_elem d (l ++ [x]) = x.
Proof. revert d. induction l; intros; simpl; auto. Qed.

Lemma last_elem_app d l1 l2 : l2 ≠ [] → last_elem d (l1 ++ l2) = last_elem d l2.
Proof.
  revert d. induction l1 as [|x l1 IH]; intros d H; [done|]. simpl. rewrite IH by done.
  by destruct l2.
Qed.

Lemma last_elem_ne d l : d ≠ "" → Forall (λ x, x ≠ "") l → last_elem d l ≠ "".
Proof. intros Hd Hl. revert d Hd. induction Hl; intros; simpl; auto. Qed.

(** The offset after a page selects exactly what the page left. *)
Lemma next_page off n l :
  sorted_refs l →
  let rest := filter (λ x, after off x = true) l in
  take n rest ≠ [] →
  filter (λ x, after (last_elem off (ref_Path <$> take n rest)) x = true) l = drop n rest.
Proof.
  intros Hs rest Hne. destruct (after_suffix off l Hs) as [pre Hp]. fold rest in Hp.
  destruct (take n rest) as [|r page _] eqn:E using rev_ind; [done|].
  rewrite fmap_app. simpl. rewrite last_elem_snoc.
  assert (Hl : l = ((pre ++ page) ++ [r]) ++ drop n rest).
  { rewrite <- !app_assoc. simpl. rewrite Hp at 1. f_equal.
    rewrite <- (take_drop n rest) at 1. rewrite E. by rewrite <- app_assoc. }
  rewrite Hl at 1. rewrite after_last; [done|]. by rewrite <- Hl.
Qed.

Lemma elem_of_take_snoc {A} n (l page : list A) x : take n l = page ++ [x] → x ∈ l.
Proof.
  intros E. rewrite <- (take_drop n l), E. apply elem_of_app. left.
  apply elem_of_app. right. by left.
Qed.

Lemma TrimPrefix_none s q : ¬ HasPrefix s q = true → TrimPrefix s q = s.
Proof. unfold TrimPrefix. by destruct (HasPrefix s q). Qed.

(** ** [listRootDir] *)
Section root.
Context {St} `{!Allocation St, !PagedLaws St}.

Lemma refsLevel_root off :
  off = "" ∨ pathLevel off = 2%Z → refsLevel rootPath off dirType = 2%Z.
Proof.
  intros Hoff. unfold refsLevel. change (pathLevel rootPath + 1)%Z with 2%Z.
  change (String.eqb dirType fileType) with false. cbv iota.
  destruct Hoff as [->| ->]; [done|]. by destruct (String.eqb off "").
Qed.

Definition root_dirs (st : St) : list ORef := listing st rootPath dirType 2.

Lemma listRootDir_loop_complete fuel refs off st :
  off = "" ∨ pathLevel off = 2%Z →
  let rest := filter (λ x, after off x = true) (root_dirs st) in
  length rest < fuel →
  listRootDir_loop fuel dirType refs off st = (Ok (refs ++ rest), st).
Proof.
  revert refs off. induction fuel as [|fuel IH]; intros refs off Hoff rest Hf; [lia|].
  cbn [listRootDir_loop]. unfold getRegularRefs. rewrite refsLevel_root by done.
  change (Clean rootPath) with rootPath. run_m.
  rewrite GetRefs_page by (unfold pageLimit; lia || by left). simpl.
  unfold page_of. fold (root_dirs st). fold rest.
  destruct (Nat.eqb_spec (length (take (Z.to_nat pageLimit) rest)) 0) as [E|E].
  { apply nil_length_inv in E. destruct rest; [by rewrite app_nil_r|done]. }
  assert (Hnext := next_page off (Z.to_nat pageLimit) (root_dirs st) (listing_sorted _ _ _ _)).
  fold rest in Hnext. cbn zeta in Hnext. specialize (Hnext ltac:(by intros E'; rewrite E' in E)).
  rewrite IH; cbn zeta.
  - rewrite Hnext. by rewrite <- app_assoc, take_drop.
  - right. destruct (take (Z.to_nat pageLimit) rest) as [|r' l' _] eqn:E' using rev_ind; [done|].
    rewrite fmap_app; simpl. rewrite last_elem_snoc.
    assert (Hin : r' ∈ root_dirs st).
    { assert (r' ∈ rest) as [_ ?]%list_elem_of_filter; [|done].
      by eapply elem_of_take_snoc. }
    by apply (listing_level _ _ _ _ _ Hin).
  - rewrite Hnext, length_drop. rewrite length_take in E. lia.
Qed.

Lemma elem_filter_after_empty st : filter (λ x, after "" x = true) (root_dirs st) = root_dirs st.
Proof.
  apply filter_all, Forall_forall. intros r Hr. unfold after.
  by destruct (listing_under st [] _ _ r ltac:(done) Hr) as (fs & _ & _ & ->).
Qed.
End root.

(** ** [listRegularRefs] over files *)
Lemma str_ltb_app a b : b ≠ "" → str_ltb a (a +:+ b) = true.
Proof.
  intros Hb. induction a as [|c a IH]; simpl; [by destruct b|]. by rewrite Ascii.eqb_refl.
Qed.

Lemma str_ltb_below es fs :
  fs ≠ [] → plains fs → str_ltb (abs_path es) (abs_path (es ++ fs)) = true.
Proof.
  intros Hne Hfs. destruct es as [|e es].
  - destruct fs as [|f fs]; [done|]. inversion Hfs as [|? ? Hf _]; subst.
    apply plain_inv in Hf as (Hf & _). apply (str_ltb_app "/"). destruct f; [done|]. by destruct fs.
  - rewrite abs_path_app by done. by apply str_ltb_app.
Qed.

Section files.
Context {St} `{!Allocation St, !PagedLaws St}.
Context (st : St) (es : list string) (Hes : plains es).
Let p := abs_path es.

(** All files below [p], in path order. *)
Definition files_below : list ORef := listing st p fileType 0.

(** The name [listRegularRefs] gives a reference. *)
Definition named (r : ORef) : ORef :=
  ref_set_Name (Join [getCommonPrefix p; TrimPrefix (ref_Path r) (p +:+ "/")]) r.

Definition with_refs (ls : LState) (page : list ORef) (full : bool) (marked : string) : LState :=
  mkLState (l_refs ls ++ (named <$> page)) (l_prefixes ls) (l_dirMap ls) (l_directories ls)
    (l_limit ls) (l_marker ls) full marked.

Lemma file_not_dir r : ref_Type r = fileType → is_dir r = false.
Proof. unfold is_dir. by intros ->. Qed.

(** A page of files that does not overshoot the maximum is taken whole. *)
Lemma listPage_files maxRefs ls page :
  let k := Z.of_nat (length (l_refs ls)) in
  Forall (λ r, ref_Type r = fileType) page → page ≠ [] → l_truncated ls = false →
  (k < maxRefs)%Z → (k + Z.of_nat (length page) ≤ maxRefs)%Z →
  let full := (k + Z.of_nat (length page) =? maxRefs)%Z in
  listPage false maxRefs p ls page =
  (with_refs ls page full
     (if full then last_elem "" (ref_Path <$> page) else l_markedPath ls), full).
Proof.
  intros k Hp Hne. clear Hne. revert ls k. induction Hp as [|r page Hr Hp IH]; intros ls k Ht Hk Hle.
  { unfold with_refs. simpl. rewrite app_nil_r.
    destruct (Z.eqb_spec (k + Z.of_nat 0) maxRefs) as [?|_]; [lia|].
    clear -Ht. destruct ls; simpl in *. by subst. }
  cbn [listPage]. unfold listRef. rewrite file_not_dir by done.
  rewrite length_app. simpl. fold k. rewrite Ht, orb_false_r.
  replace (Z.of_nat (length (l_refs ls) + 1)) with (k + 1)%Z by (unfold k; lia).
  rewrite (proj2 (Z.eqb_neq maxRefs 0)) by (unfold k in *; lia). simpl.
  fold (named r). simpl length in Hle.
  destruct (Z.leb_spec maxRefs (k + 1)) as [Hfull|Hfull].
  - destruct page; [|simpl in *; lia]. unfold with_refs. simpl.
    by rewrite (proj2 (Z.eqb_eq (k + Z.of_nat 1) maxRefs)) by (unfold k in *; lia).
  - rewrite IH; simpl; rewrite ?length_app; simpl.
    + unfold with_refs; simpl.
      replace (Z.of_nat (length (l_refs ls) + 1) + Z.of_nat (length page) =? maxRefs)%Z
        with (k + Z.of_nat (S (length page)) =? maxRefs)%Z by (f_equal; unfold k; lia).
      destruct (k + Z.of_nat (S (length page)) =? maxRefs)%Z eqn:E; rewrite <- app_assoc; [|done].
      destruct page as [|r' page]; [|done]. simpl in E. destruct_bools. lia.
    + done.
    + unfold k in *; lia.
    + unfold k in *; lia.
Qed.

Lemma Clean_p : Clean p = p.
Proof. by apply Clean_abs_path. Qed.

Lemma refsLevel_file off : refsLevel p off fileType = 0%Z.
Proof. done. Qed.

Lemma file_path_ne r : r ∈ files_below → ref_Path r ≠ "".
Proof.
  intros H. by destruct (listing_under st es _ _ r Hes H) as (fs & _ & _ & ->).
Qed.

Lemma page_elem off n r :
  r ∈ take n (filter (λ x, after off x = true) files_below) → r ∈ files_below.
Proof.
  intros H. assert (r ∈ filter (λ x, after off x = true) files_below) as [_ ?]%list_elem_of_filter; [|done].
  rewrite <- (take_drop n (filter _ _)). apply elem_of_app. by left.
Qed.

Lemma page_types off n :
  Forall (λ r, ref_Type r = fileType) (take n (filter (λ x, after off x = true) files_below)).
Proof.
  apply Forall_forall. intros r Hr. apply (listing_type st p fileType 0); [|done]. by apply (page_elem off n).
Qed.

Lemma page_paths off n :
  Forall (λ q, q ≠ "") (ref_Path <$> take n (filter (λ x, after off x = true) files_below)).
Proof. apply Forall_fmap, Forall_forall. intros r Hr. apply (file_path_ne r). by apply (page_elem off n). Qed.

(** The limit of a request: positive and within what is still wanted. *)
Lemma clamp_limit k maxRefs ls :
  (k < maxRefs)%Z → (0 < l_limit ls)%Z →
  ∃ lim, (if (maxRefs <? k + l_limit ls)%Z then set_limit (maxRefs - k) ls else ls) = set_limit lim ls ∧
    (0 < lim ∧ k + lim ≤ maxRefs)%Z.
Proof.
  intros Hk Hl. destruct (Z.ltb_spec maxRefs (k + l_limit ls)); [eexists; split; [done|lia]|].
  exists (l_limit ls). split; [by destruct ls|lia].
Qed.

Lemma with_refs_nil ls : l_truncated ls = false → with_refs ls [] false (l_markedPath ls) = ls.
Proof. intros Ht. unfold with_refs. simpl. rewrite app_nil_r. destruct ls; simpl in *. by subst. Qed.

(** The pages of one directory: up to [maxRefs] references in all. *)
Lemma listPages_files fuel maxRefs off ls :
  let k := Z.of_nat (length (l_refs ls)) in
  let rest := filter (λ x, after off x = true) files_below in
  let n := Z.to_nat (maxRefs - k) in
  off ≠ "" → l_truncated ls = false → (k < maxRefs)%Z → (0 < l_limit ls)%Z →
  length rest < fuel →
  ∃ lim, let full := (n <=? length rest)%nat in
    listPages fuel fileType false maxRefs p off ls st =
    (Ok (set_limit lim (with_refs ls (take n rest) full
           (if full then last_elem "" (ref_Path <$> take n rest) else l_markedPath ls)),
         full), st).
Proof.
  revert off ls. induction fuel as [|fuel IH]; intros off ls k rest n Hoff Ht Hk Hlim Hf; [lia|].
  cbn [listPages]. unfold getRegularRefs. rewrite refsLevel_file, Clean_p. fold k.
  destruct (clamp_limit k maxRefs ls Hk Hlim) as (lim & -> & Hl1 & Hl2).
  unfold mbind_ok, mret_ok. cbn [l_limit set_limit].
  rewrite GetRefs_page by (lia || by right). cbn zeta. cbn [Refs OffsetPath].
  unfold page_of. fold files_below. fold rest. set (page := take (Z.to_nat lim) rest).
  assert (Hlen : length page = Nat.min (Z.to_nat lim) (length rest)) by apply length_take.
  destruct (Nat.eqb_spec (length page) 0) as [E|E].
  { exists lim. destruct rest; [|simpl in Hlen; lia].
    by rewrite take_nil, (proj2 (Nat.leb_gt n (length []))), with_refs_nil by (simpl; lia || done). }
  cbn [l_limit set_limit].
  rewrite listPage_files; cbn [l_refs l_truncated set_limit]; fold k; [|try done; try lia..].
  2: { apply page_types. }
  2: { intros E'. apply E. by rewrite E'. }
  destruct (Z.eqb_spec (k + Z.of_nat (length page)) maxRefs) as [Hfull|Hfull]; cbn [l_limit set_limit with_refs].
  { exists lim. assert (Hn : n = Z.to_nat lim) by lia.
    unfold page in *. rewrite Hn, (proj2 (Nat.leb_le _ _)) by lia. done. }
  destruct (Z.ltb_spec (Z.of_nat (length page)) lim) as [Hshort|Hshort].
  { exists lim. rewrite (proj2 (Nat.leb_gt n (length rest))) by lia.
    unfold page in *. rewrite !take_ge by lia. done. }
  assert (Hnext := next_page off (Z.to_nat lim) files_below (listing_sorted _ _ _ _)).
  fold rest page in Hnext. cbn zeta in Hnext.
  specialize (Hnext ltac:(by intros E'; apply E; unfold page; rewrite E')).
  edestruct (IH (last_elem off (ref_Path <$> page))) as [lim' HI]; cbn zeta in *;
    [..|exists lim'; rewrite HI]; clear IH.
  - apply last_elem_ne; [done|]. apply page_paths.
  - done.
  - cbn [l_refs with_refs set_limit]. rewrite length_app, length_fmap. lia.
  - done.
  - unfold page. rewrite Hnext, length_drop. lia.
  - unfold page. rewrite Hnext. fold page. unfold with_refs, set_limit; cbn [l_refs l_prefixes
      l_dirMap l_directories l_limit l_marker l_truncated l_markedPath].
    rewrite length_app, length_fmap, length_drop. fold k.
    replace (Z.to_nat (maxRefs - Z.of_nat (length (l_refs ls) + length page)))
      with (n - Z.to_nat lim) by lia.
    replace (n - Z.to_nat lim <=? length rest - Z.to_nat lim) with (n <=? length rest)
      by (apply eq_true_iff_eq; rewrite !Nat.leb_le; lia).
    replace (take n rest) with (page ++ take (n - Z.to_nat lim) (drop (Z.to_nat lim) rest))
      by (unfold page; rewrite take_take_drop; f_equal; lia).
    rewrite <- app_assoc, <- fmap_app. destruct (Nat.leb_spec n (length rest)); [|done].
    rewrite (fmap_app ref_Path), last_elem_app; [done|]. intros E'%(f_equal length).
    rewrite length_fmap, length_take, length_drop in E'. simpl in E'. lia.
Qed.

(** Where a listing with a marker starts. *)
Definition start_offset (marker : string) : string :=
  if String.eqb marker "" then p else Join [p; marker].

Lemma start_offset_ne marker : start_offset marker ≠ "".
Proof.
  unfold start_offset. destruct (String.eqb marker ""); [done|].
  change (Join [p; marker]) with (Clean ("/" +:+ (str_join "/" es +:+ "/" +:+ marker))).
  by rewrite Clean_rooted.
Qed.

Lemma listRegularRefs_files fuel marker maxRefs :
  let rest := filter (λ x, after (start_offset marker) x = true) files_below in
  let n := Z.to_nat maxRefs in
  let full := (n <=? length rest)%nat in
  (0 < maxRefs)%Z → length rest + 1 < fuel →
  listRegularRefs fuel p marker fileType maxRefs false st =
  (Ok (named <$> take n rest, full,
       if full then TrimPrefix (last_elem "" (ref_Path <$> take n rest)) (p +:+ "/") else "",
       []), st).
Proof.
  intros rest n full Hmax Hf. unfold listRegularRefs. rewrite Clean_p.
  destruct fuel as [|fuel]; [lia|]. unfold mbind_ok at 1. cbn [listDirs].
  change (heap_pop str_ltb (l_directories _)) with (Some (p, @nil string)). cbv iota beta.
  cbn [l_truncated l_marker l_refs l_prefixes l_dirMap l_limit l_markedPath].
  fold (start_offset marker). unfold mbind_ok.
  edestruct (listPages_files (S fuel) maxRefs (start_offset marker)
    (mkLState [] [] ∅ [] pageLimit "" false "")) as [lim Hl]; [..|cbn zeta in Hl].
  - apply start_offset_ne.
  - done.
  - done.
  - done.
  - fold rest. lia.
  - rewrite Hl. clear Hl. cbn [l_refs length]. change (Z.of_nat 0) with 0%Z. rewrite Z.sub_0_r.
    fold rest n full. cbn [fst snd]. destruct full eqn:Efull; [done|].
    destruct fuel as [|fuel]; [lia|]. done.
Qed.

(** The marker of a truncated listing denotes the last file listed. *)
Lemma marker_offset r :
  r ∈ files_below → start_offset (TrimPrefix (ref_Path r) (p +:+ "/")) = ref_Path r.
Proof.
  intros Hin. destruct (listing_under st es _ _ r Hes Hin) as (fs & Hne & Hfs & ->).
  unfold start_offset. destruct (decide (es = [])) as [E|E].
  - unfold p. rewrite E. simpl app. rewrite TrimPrefix_none.
    + change (String.eqb (abs_path fs) "") with false. cbv iota.
      change (Join [abs_path []; abs_path fs]) with (Join ("/" :: [abs_path fs])).
      rewrite Join_abs. change (concat (elems <$> [abs_path fs])) with (elems (abs_path fs) ++ []).
      rewrite app_nil_r. change (clean_elems true (elems ?q)) with (path_elems q).
      by rewrite path_elems_abs.
    + destruct fs as [|f fs]; [done|]. intros (t & Ht)%prefix_spec.
      apply (f_equal elems) in Ht. rewrite elems_abs_path in Ht by done.
      change (elems ((abs_path [] +:+ "/") +:+ t)) with ("" :: "" :: elems t) in Ht.
      injection Ht as -> _. by inversion Hfs.
  - rewrite abs_path_app, <- str_app_assoc by done. fold p. rewrite TrimPrefix_app.
    rewrite (proj2 (String.eqb_neq _ _)).
    + change (Join [p; str_join "/" fs]) with (Clean (p +:+ "/" +:+ str_join "/" fs)).
      unfold p. rewrite str_app_assoc, <- abs_path_app by done. apply Clean_abs_path.
      by apply Forall_app.
    + destruct fs as [|f fs]; [done|]. inversion Hfs as [|? ? Hf _]; subst.
      apply plain_inv in Hf as (Hf & _). destruct f; [done|]. by destruct fs.
Qed.

Lemma all_files_after : filter (λ x, after (start_offset "") x = true) files_below = files_below.
Proof.
  apply filter_all, Forall_forall. intros r Hr.
  destruct (listing_under st es _ _ r Hes Hr) as (fs & Hne & Hfs & Hp).
  unfold after, start_offset. simpl. rewrite Hp. by apply str_ltb_below.
Qed.

(** The marker of a truncated page leads to exactly what the page left. *)
Lemma next_marker marker n :
  let rest := filter (λ x, after (start_offset marker) x = true) files_below in
  let m := TrimPrefix (last_elem "" (ref_Path <$> take n rest)) (p +:+ "/") in
  0 < n ≤ length rest →
  filter (λ x, after (start_offset m) x = true) files_below = drop n rest.
Proof.
  intros rest m Hn. destruct (take n rest) as [|r page _] eqn:E using rev_ind.
  { apply (f_equal length) in E. rewrite length_take in E. simpl in E. lia. }
  unfold m. rewrite fmap_app. simpl. rewrite last_elem_snoc, marker_offset.
  - pose proof (next_page (start_offset marker) n files_below (listing_sorted _ _ _ _)) as Hx.
    cbn zeta in Hx. fold rest in Hx. rewrite E, fmap_app in Hx. simpl in Hx.
    rewrite last_elem_snoc in Hx. apply Hx. by destruct page.
  - assert (r ∈ rest) as [_ ?]%list_elem_of_filter; [|done]. by eapply elem_of_take_snoc.
Qed.
End files.

(** ** Bounds, whatever the SDK answers *)
Section bounds.
Context {St} `{!Allocation St} (maxRefs : Z) (Hmax : (0 < maxRefs)%Z).

Definition below (ls : LState) : Prop :=
  (Z.of_nat (length (l_refs ls)) < maxRefs)%Z ∧ l_truncated ls = false.
Definition reached (ls : LState) : Prop :=
  Z.of_nat (length (l_refs ls)) = maxRefs ∧ l_truncated ls = true.
Definition after_stop (r : LState * bool) : Prop := if r.2 then reached r.1 else below r.1.

Lemma listRef_bound delim cur ls r : below ls → after_stop (listRef delim maxRefs cur ls r).
Proof.
  intros [H1 H2]. unfold listRef, after_stop, below, reached.
  destruct (is_dir r), (bool_decide (ref_Path r ∈ l_dirMap ls)), delim; try done;
    cbn [fst snd l_refs l_truncated]; rewrite length_app, H2, orb_false_r;
    rewrite (proj2 (Z.eqb_neq maxRefs 0)) by lia; cbn [negb andb length];
    destruct (Z.leb_spec maxRefs (Z.of_nat (length (l_refs ls) + 1))); lia || (split; lia || done).
Qed.

Lemma listPage_bound delim cur page ls :
  below ls → after_stop (listPage delim maxRefs cur ls page).
Proof.
  revert ls. induction page as [|r page IH]; intros ls Hls; [done|]. cbn [listPage].
  pose proof (listRef_bound delim cur ls r Hls) as Hr.
  destruct (listRef delim maxRefs cur ls r) as [ls' []]; [done|]. by apply IH.
Qed.

Lemma listPages_bound fuel ft delim cur off ls s x s' :
  below ls → listPages fuel ft delim maxRefs cur off ls s = (Ok x, s') → after_stop x.
Proof.
  revert off ls s. induction fuel as [|fuel IH]; intros off ls s Hls; [done|]. cbn [listPages].
  set (ls1 := if (_ <? _)%Z then _ else _).
  assert (Hls1 : below ls1) by (unfold ls1; by case_match).
  clearbody ls1. unfold mbind_ok, mret_ok.
  destruct (getRegularRefs _ _ _ _ s) as [[res|e|w] s1]; try done.
  case_match; [by intros [= <- <-]|].
  pose proof (listPage_bound delim cur (Refs res) ls1 Hls1) as Hp.
  destruct (listPage delim maxRefs cur ls1 (Refs res)) as [ls' []]; [by intros [= <- <-]|].
  case_match; [by intros [= <- <-]|]. by apply IH.
Qed.

Lemma listDirs_bound fuel ft delim ls s ls' s' :
  below ls → listDirs fuel ft delim maxRefs ls s = (Ok ls', s') → below ls' ∨ reached ls'.
Proof.
  revert ls s. induction fuel as [|fuel IH]; intros ls s Hls; [done|]. cbn [listDirs].
  destruct (heap_pop _ _) as [[cur rest]|]; [|intros [= <- <-]; by left].
  destruct (l_truncated ls) eqn:Et; [by destruct Hls; congruence|]. unfold mbind_ok, mret_ok.
  match goal with |- context [listPages ?f ?t ?d ?m ?c ?o ?l ?s] =>
    destruct (listPages f t d m c o l s) as [[[ls2 stop]|e|w] s2] eqn:E end; try done.
  apply listPages_bound in E; [|by destruct Hls]. unfold after_stop in E. cbn [fst snd] in *.
  destruct stop; [intros [= <- <-]; by right|]. by apply IH.
Qed.
End bounds.

(** ** What the listings promise *)

Lemma listRootDir_complete {St} `{!Allocation St, !PagedLaws St} (st : St) fuel :
  length (root_dirs st) < fuel → listRootDir fuel dirType st = (Ok (root_dirs st), st).
Proof.
  intros Hf. unfold listRootDir. rewrite listRootDir_loop_complete; cbn zeta.
  - by rewrite elem_filter_after_empty.
  - by left.
  - by rewrite elem_filter_after_empty.
Qed.

(** Whatever the SDK answers, delimited or not, an answer of
    [listRegularRefs] with a positive maximum holds at most that many
    references, and it is truncated exactly when it holds that many. *)
Theorem listing_bounded {St} `{!Allocation St} fuel path marker ft maxRefs delim s refs trunc next pre s' :
  (0 < maxRefs)%Z →
  listRegularRefs fuel path marker ft maxRefs delim s = (Ok (refs, trunc, next, pre), s') →
  (Z.of_nat (length refs) ≤ maxRefs)%Z ∧
  (trunc = true ↔ Z.of_nat (length refs) = maxRefs) ∧ (trunc = false → next = "").
Proof.
  intros Hmax. unfold listRegularRefs, mbind_ok, mret_ok.
  match goal with |- context [listDirs ?f ?t ?d ?m ?l ?s] =>
    destruct (listDirs f t d m l s) as [[ls|e|w] s2] eqn:E end; try done.
  intros [= <- <- <- <- <-]. apply listDirs_bound in E; [|done|done].
  destruct E as [[H1 H2]|[H1 H2]]; rewrite H2; split_and!; try done; lia || (split; done || lia).
Qed.

(** A store with two buckets and three files below the first, one in a directory. *)
Definition demo_store : MemStore.t :=
  let file p := MemStore.new_file (mkFileMeta p (Base p) 3 "" "") None false in
  list_to_map
    [("/b", MemStore.new_dir "/b" ""); ("/c", MemStore.new_dir "/c" "");
     ("/b/d", MemStore.new_dir "/b/d" ""); ("/b/d/x", file "/b/d/x");
     ("/b/a", file "/b/a"); ("/b/z", file "/b/z")].

Lemma listing_bounded_witness :
  let refs := named ["b"] <$> take 2 (files_below demo_store ["b"]) in
  (Z.of_nat (length refs) ≤ 2)%Z ∧ (true = true ↔ Z.of_nat (length refs) = 2%Z) ∧
  (true = false → "d/x" = "").
Proof.
  apply (listing_bounded 9 "/b" "" fileType 2 false demo_store
           (named ["b"] <$> take 2 (files_below demo_store ["b"])) true "d/x" [] demo_store).
  - done.
  - by vm_compute.
Defined.
