(* ===== verification/ZcnRange.v ===== *)
(** * Reading objects and ranges of objects
    (getObjectRef, getFileReader of cmd/gateway/zcn/dStorage.go, getTimeOut of
    helper.go, GetObjectNInfo of gateway-zcn.go)

    The SDK downloads whole blocks: [Download] is its call with the block numbers
    the gateway computes, [DownloadLaws] what it delivers. A reader is the bytes
    it yields and the error it ends with, [None] for [io.EOF]. *)

From Stdlib Require Import ZArith Lia Bool Ascii.
From S2P Require Import Prelude GoStrings GoPath HttpRange ZcnErrors ZcnPath ZcnTypes ZcnAlloc ZcnRefs ZcnStore.

Local Open Scope go_scope.
Local Open Scope Z_scope.

Abbreviation bytes := (list ascii).

Definition defaultChunkSize : Z := 64 * 1024.
Definition maxSizeForMemoryFile : Z := 16 * 1024 * 1024.
Definition oneMB : Z := 1024 * 1024.
Definition hundredMB : Z := 100 * oneMB.
Definition oneGB : Z := 1024 * oneMB.
Definition Minute : Z := 60 * 1000000000.
Definition lz4MimeType : string := "application/x-lz4".

(** [size] is unsigned. *)
Definition getTimeOut (size : Z) : Z :=
  if oneGB <=? size then Minute * 30
  else if 500 * oneMB <=? size then Minute * 10
  else if hundredMB <=? size then Minute * 5
  else Minute * 2.

Record Reader := mkReader { rd_data : bytes; rd_err : option error }.

(** [Download timeout remotePath startBlock endBlock] is
    [alloc.DownloadByBlocksToFileHandler] followed by the wait for its callback:
    the bytes written to the file handler, and the error that was returned, that
    the callback reported, or that the timeout expired. *)
Class Downloader (St : Type) := {
  DataShards : Z;
  EncryptionHeaderSize : Z;
  EncryptedDataPaddingSize : Z;
  Download : Z → string → Z → Z → St → (bytes * option error) * St;
  os_Create : M St error ();
}.

Section reading.
Context {St : Type} `{!Allocation St, !Downloader St}.

Definition getObjectRef (bucket object remotePath : string) : M St error (ObjectInfo * bool) :=
  r ←r getSingleRegularRef remotePath;
  match r with
  | Panic w => λ s, (Panic w, s)
  | Err err =>
      if isPathNoExistError (Some err) then mfail (ObjectNotFound bucket object) else mfail err
  | Ok ref =>
      let isEncrypted := negb (String.eqb (ref_EncryptedKey ref) "") in
      let ref := if is_dir ref then ref_as_directory ref else ref in
      mret_ok (mkObjectInfo bucket (ref_Name ref) (ref_UpdatedAt ref) (ref_ActualFileSize ref)
                 (is_dir ref) (ref_ActualFileHash ref) (ref_MimeType ref) "" ∅ 0,
               isEncrypted)
  end.

Definition effectiveChunkSize (isEncrypted : bool) : Z :=
  wrap64 ((if isEncrypted
           then defaultChunkSize - (EncryptionHeaderSize + EncryptedDataPaddingSize)
           else defaultChunkSize) * DataShards).

(** [startBlock] of a range that begins at [rangeStart]. *)
Definition firstBlock (rangeStart chunk : Z) : Z :=
  let b := Z.quot rangeStart chunk in if b =? 0 then 1 else b.

(** The blocks to download and the number of bytes to serve. *)
Definition blockRange (chunk size rangeStart rangeEnd : Z) : Z * Z * Z :=
  let fileRangeSize :=
    if rangeEnd <? rangeStart then size else wrap64 (wrap64 (rangeEnd - rangeStart) + 1) in
  let '(startBlock, endBlock) :=
    if rangeStart <=? rangeEnd then
      (firstBlock rangeStart chunk,
       if rangeEnd <? fileRangeSize
       then Z.quot (wrap64 (wrap64 (fileRangeSize + chunk) - 1)) chunk
       else Z.quot (wrap64 (wrap64 (rangeEnd + chunk) - 1)) chunk)
    else (1, 0) in
  if rangeEnd =? -1 then (firstBlock rangeStart chunk, 0, wrap64 (size - rangeStart))
  else (startBlock, endBlock, fileRangeSize).

Definition getFileReader (bucket object remotePath : string) (rangeStart rangeEnd : Z)
    : M St error (Reader * ObjectInfo) :=
  r ←! getObjectRef bucket object remotePath;
  let '(objectInfo, isEncrypted) := r in
  let fileRangeSize0 :=
    if rangeEnd <? rangeStart then oi_Size objectInfo
    else wrap64 (wrap64 (rangeEnd - rangeStart) + 1) in
  let timeout :=
    if String.eqb (oi_ContentType objectInfo) lz4MimeType then Minute * 30
    else getTimeOut (to_uint64 fileRangeSize0) in
  let chunk := effectiveChunkSize isEncrypted in
  if (chunk =? 0) && ((rangeStart <=? rangeEnd) || (rangeEnd =? -1))
  then λ s, (Panic "integer divide by zero", s)
  else
    let '(startBlock, endBlock, fileRangeSize) :=
      blockRange chunk (oi_Size objectInfo) rangeStart rangeEnd in
    if (startBlock =? 1) && (endBlock =? 0) then
      λ s, let '((data, err), s) := Download timeout remotePath startBlock endBlock s in
           (Ok (mkReader data err, objectInfo), s)
    else
      _ ←! (if maxSizeForMemoryFile <? fileRangeSize then os_Create else mret_ok ());
      λ s,
        match Download timeout remotePath startBlock endBlock s with
        | ((_, Some err), s) => (Err err, s)
        | ((data, None), s) =>
            let startOffset := wrap64 (rangeStart - wrap64 (wrap64 (startBlock - 1) * chunk)) in
            let startOffset := if startOffset <? 0 then 0 else startOffset in
            (Ok (mkReader (take (Z.to_nat fileRangeSize) (drop (Z.to_nat startOffset) data)) None,
                 objectInfo), s)
        end.

(** The two numbers [GetObjectNInfo] makes of the request's range. *)
Definition requestRange (rs : option HTTPRangeSpec) : Z * Z :=
  match rs with
  | None => (1, 0)
  | Some rs =>
      if IsSuffixLength rs then
        let rangeStart := wrap64 (- Start rs) in
        (rangeStart,
         if 0 <? wrap64 (End_ rs - Start rs)
         then wrap64 (rangeStart + wrap64 (End_ rs - Start rs))
         else wrap64 (rangeStart + wrap64 (Start rs - End_ rs)))
      else (Start rs, End_ rs)
  end.

(** [checkPrecond] is [opts.CheckPrecondFn]. *)
Definition GetObjectNInfo (bucket object : string) (rs : option HTTPRangeSpec)
    (checkPrecond : option (ObjectInfo → bool)) : M St error (Reader * ObjectInfo) :=
  let remotePath := objectRemotePath bucket object in
  let '(rangeStart, rangeEnd) := requestRange rs in
  r ←! getFileReader bucket object remotePath rangeStart rangeEnd;
  match checkPrecond with
  | Some f => if f r.2 then mfail PreConditionFailed else mret_ok r
  | None => mret_ok r
  end.
End reading.

(** ** What the SDK delivers *)

(** The bytes of the blocks [s] to [e], counted from one; [e = 0] is the end of
    the file. *)
Definition block_slice (chunk s e : Z) (c : bytes) : bytes :=
  let d := drop (Z.to_nat ((s - 1) * chunk)) c in
  if e =? 0 then d else take (Z.to_nat ((e - s + 1) * chunk)) d.

Definition encrypted (r : ORef) : bool := negb (String.eqb (ref_EncryptedKey r) "").

Class DownloadLaws (St : Type) `{!Allocation St, !StoreLaws St, !Downloader St} := {
  content : St → string → bytes;
  content_size st p r :
    tree st !! p = Some r → is_dir r = false →
    ref_ActualFileSize r = Z.of_nat (length (content st p)) ∧ ref_ActualFileSize r ≤ 2 ^ 62;
  chunk_range b : 0 < effectiveChunkSize b ≤ 2 ^ 40;
  Download_ok st timeout p r s e :
    tree st !! p = Some r → is_dir r = false →
    let chunk := effectiveChunkSize (encrypted r) in
    let blocks := (ref_ActualFileSize r + chunk - 1) / chunk in
    1 ≤ s ≤ Z.max 1 blocks → e = 0 ∨ s ≤ e ≤ blocks →
    Download timeout p s e st = ((block_slice chunk s e (content st p), None), st);
  os_Create_ok st : os_Create st = (Ok (), st);
}.

(** ** Block arithmetic *)
Lemma take_drop_slice {A} (c : list A) (off n l : nat) :
  take l (drop off (take n c)) = take (l `min` (n - off)) (drop off c).
Proof. by rewrite skipn_firstn_comm, take_take. Qed.

Lemma firstBlock_spec S chunk :
  0 ≤ S → 0 < chunk →
  1 ≤ firstBlock S chunk ∧ (firstBlock S chunk - 1) * chunk ≤ S ∧
  firstBlock S chunk <= Z.max 1 (S / chunk) ∧
  (firstBlock S chunk = 1 ↔ S < 2 * chunk).
Proof.
  intros HS HC. unfold firstBlock. rewrite Z.quot_div_nonneg by lia.
  pose proof (Z.div_mod S chunk ltac:(lia)) as Hd. pose proof (Z.mod_pos_bound S chunk HC).
  pose proof (Z.div_pos S chunk HS HC).
  destruct (Z.eqb_spec (S / chunk) 0); split_and!; try split; nia.
Qed.

Lemma ceil_div_spec a chunk :
  0 ≤ a → 0 < chunk →
  let q := (a + chunk - 1) / chunk in a ≤ q * chunk < a + chunk ∧ 0 ≤ q.
Proof.
  intros Ha HC q. pose proof (Z.div_mod (a + chunk - 1) chunk ltac:(lia)) as Hd.
  pose proof (Z.mod_pos_bound (a + chunk - 1) chunk HC). fold q in Hd. split; [nia|].
  apply Z.div_pos; lia.
Qed.

(** The last block the gateway asks for a closed range. *)
Definition lastBlock (chunk S E : Z) : Z :=
  ((if S =? 0 then E + 1 else E) + chunk - 1) / chunk.

Lemma blockRange_closed chunk size S E :
  0 < chunk ≤ 2 ^ 40 → 0 ≤ S ≤ E → E < size ≤ 2 ^ 62 →
  blockRange chunk size S E = (firstBlock S chunk, lastBlock chunk S E, E - S + 1).
Proof.
  intros HC HS HE. unfold blockRange, lastBlock. cbv zeta.
  rewrite (proj2 (Z.ltb_ge E S)), (proj2 (Z.leb_le S E)), (proj2 (Z.eqb_neq E (-1))) by lia.
  int64. f_equal. f_equal.
  destruct (Z.eqb_spec S 0) as [->|Hne].
  - rewrite (proj2 (Z.ltb_lt E (E - 0 + 1))) by lia. int64.
    rewrite Z.quot_div_nonneg by lia. f_equal. lia.
  - rewrite (proj2 (Z.ltb_ge E (E - S + 1))) by lia. int64.
    by rewrite Z.quot_div_nonneg by lia.
Qed.

Lemma blockRange_open chunk size S :
  0 ≤ S ≤ size → size ≤ 2 ^ 62 →
  blockRange chunk size S (-1) = (firstBlock S chunk, 0, size - S).
Proof.
  intros HS Hz. unfold blockRange. rewrite Z.eqb_refl. cbv zeta. int64. by case_match.
Qed.

Lemma lastBlock_spec chunk S E size :
  0 < chunk → 0 ≤ S ≤ E → E < size →
  firstBlock S chunk ≤ lastBlock chunk S E ≤ (size + chunk - 1) / chunk ∧
  1 ≤ lastBlock chunk S E ∧
  (S = 0 ∨ E mod chunk ≠ 0 → E < lastBlock chunk S E * chunk) ∧
  (S ≠ 0 → E mod chunk = 0 → lastBlock chunk S E * chunk = E).
Proof.
  intros HC HS HE. unfold lastBlock.
  pose proof (ceil_div_spec (if S =? 0 then E + 1 else E) chunk) as Hq.
  set (q := (_ + chunk - 1) / chunk) in *. destruct Hq as [Hq Hq0]; [case_match; lia|done|].
  destruct (firstBlock_spec S chunk) as (F1 & F2 & F3 & F4); [lia|done|].
  pose proof (Z.div_mod S chunk ltac:(lia)). pose proof (Z.mod_pos_bound S chunk HC).
  assert (q ≤ (size + chunk - 1) / chunk).
  { unfold q. apply Z.div_le_mono; [done|]. case_match; lia. }
  pose proof (Z.div_mod E chunk ltac:(lia)) as HE'.
  destruct (Z.eqb_spec S 0) as [E0|Hne].
  - assert (1 ≤ q) by nia. assert (firstBlock S chunk = 1) by (apply F4; lia).
    split_and!; intros; lia.
  - assert (1 ≤ q) by nia. assert (S / chunk ≤ q) by nia.
    assert (firstBlock S chunk ≤ q) by lia. split_and!; try done.
    + intros [?|Hm]; [done|]. destruct (decide (q * chunk = E)) as [Heq|]; [|lia].
      destruct Hm. rewrite <- Heq. apply Z.mod_mul. lia.
    + intros _ Hm. rewrite Hm in HE'. assert (q - E / chunk = 0); [|nia].
      assert (0 ≤ (q - E / chunk) * chunk < chunk) by lia. nia.
Qed.

(** ** What is served *)
Definition file_info (bucket : string) (r : ORef) : ObjectInfo :=
  mkObjectInfo bucket (ref_Name r) (ref_UpdatedAt r) (ref_ActualFileSize r) false
    (ref_ActualFileHash r) (ref_MimeType r) "" ∅ 0.

(** The bytes a range asks for (closed and open ranges; suffixes are separate). *)
Definition wanted (rs : option HTTPRangeSpec) (c : bytes) : bytes :=
  match rs with
  | None => c
  | Some h =>
      if End_ h =? -1 then drop (Z.to_nat (Start h)) c
      else take (Z.to_nat (End_ h - Start h + 1)) (drop (Z.to_nat (Start h)) c)
  end.

(** The requests whose bytes the block computation gets right. *)
Definition supported (chunk size : Z) (rs : option HTTPRangeSpec) : Prop :=
  match rs with
  | None => True
  | Some h =>
      IsSuffixLength h = false ∧ 0 ≤ Start h ≤ size ∧
      (End_ h = -1 ∧ (Start h = 0 ∨ 2 * chunk ≤ Start h) ∨
       Start h ≤ End_ h < size ∧ (Start h = 0 ∨ End_ h mod chunk ≠ 0))
  end.

Section served.
Context {St} `{!Allocation St, !StoreLaws St, !Downloader St, !DownloadLaws St}.
Context (st : St) (bucket object : string) (r : ORef).
Let p := objectRemotePath bucket object.
Context (Hr : tree st !! p = Some r) (Hfile : is_dir r = false).
Let c := content st p.
Let chunk := effectiveChunkSize (encrypted r).

Lemma getObjectRef_file : getObjectRef bucket object p st = (Ok (file_info bucket r, encrypted r), st).
Proof.
  unfold getObjectRef, mtry. pose proof (getSingleRegularRef_object st bucket object) as Hg.
  cbn zeta in Hg. fold p in Hg. rewrite Hg, Hr, Hfile.
  unfold mret_ok, file_info. by rewrite Hfile.
Qed.

Lemma getFileReader_start S E :
  getFileReader bucket object p S E st =
  let '(startBlock, endBlock, n) := blockRange chunk (ref_ActualFileSize r) S E in
  let off := wrap64 (S - wrap64 (wrap64 (startBlock - 1) * chunk)) in
  let off := if off <? 0 then 0 else off in
  match Download (if String.eqb (ref_MimeType r) lz4MimeType then Minute * 30
                  else getTimeOut (to_uint64 (if E <? S then ref_ActualFileSize r
                                              else wrap64 (wrap64 (E - S) + 1))))
          p startBlock endBlock st with
  | ((data, err), s) =>
      if (startBlock =? 1) && (endBlock =? 0) then (Ok (mkReader data err, file_info bucket r), s)
      else match err with
           | Some e => (Err e, s)
           | None => (Ok (mkReader (take (Z.to_nat n) (drop (Z.to_nat off) data)) None,
                          file_info bucket r), s)
           end
  end.
Proof.
  unfold getFileReader, mbind_ok at 1. rewrite getObjectRef_file. cbv zeta.
  cbn [oi_Size oi_ContentType file_info]. fold chunk.
  pose proof (chunk_range (encrypted r)) as Hc. fold chunk in Hc.
  rewrite (proj2 (Z.eqb_neq chunk 0)) by lia. cbn [andb].
  destruct (blockRange _ _ _ _) as [[sb eb] n]. destruct ((sb =? 1) && (eb =? 0)).
  - by destruct (Download _ _ _ _ st) as [[data err] s'].
  - unfold mbind_ok, mret_ok. case_if; rewrite ?os_Create_ok;
      by destruct (Download _ _ _ _ st) as [[data [e|]] s'].
Qed.

Lemma size_spec : ref_ActualFileSize r = Z.of_nat (length c) ∧ ref_ActualFileSize r ≤ 2 ^ 62.
Proof. by apply content_size. Qed.
Lemma chunk_spec : 0 < chunk ≤ 2 ^ 40.
Proof. apply chunk_range. Qed.

Lemma block_slice_all : block_slice chunk 1 0 c = c.
Proof. done. Qed.

Lemma getFileReader_whole :
  getFileReader bucket object p 1 0 st = (Ok (mkReader c None, file_info bucket r), st).
Proof.
  rewrite getFileReader_start. cbn.
  rewrite (Download_ok st _ p r) by (done || lia || by left). done.
Qed.

Lemma getFileReader_closed S E :
  0 ≤ S ≤ E → E < ref_ActualFileSize r →
  getFileReader bucket object p S E st =
  (Ok (mkReader (take (Z.to_nat (Z.min (E - S + 1) (lastBlock chunk S E * chunk - S)))
                   (drop (Z.to_nat S) c)) None, file_info bucket r), st).
Proof.
  intros HS HE. pose proof size_spec as [Hsz Hmax]. pose proof chunk_spec as Hch.
  rewrite getFileReader_start, blockRange_closed by lia.
  destruct (lastBlock_spec chunk S E (ref_ActualFileSize r)) as (HL1 & HL2 & _); [lia..|].
  destruct (firstBlock_spec S chunk) as (F1 & F2 & F3 & F4); [lia..|].
  set (fb := firstBlock S chunk) in *. set (lb := lastBlock chunk S E) in *. cbv zeta.
  assert (fb - 1 ≤ S) by nia.
  assert (0 ≤ (fb - 1) * chunk) by nia.
  int64. rewrite (proj2 (Z.ltb_ge (S - (fb - 1) * chunk) 0)) by lia.
  rewrite (Download_ok st _ p r) by (done || fold chunk; lia).
  rewrite (proj2 (Z.eqb_neq lb 0)), andb_false_r by lia.
  fold chunk c. unfold block_slice. rewrite (proj2 (Z.eqb_neq lb 0)) by lia.
  rewrite take_drop_slice, drop_drop.
  repeat f_equal; nia.
Qed.

Lemma getFileReader_open S :
  0 ≤ S ≤ ref_ActualFileSize r →
  getFileReader bucket object p S (-1) st =
  (Ok (mkReader (if S <? 2 * chunk then c else drop (Z.to_nat S) c) None, file_info bucket r), st).
Proof.
  intros HS. pose proof size_spec as [Hsz Hmax]. pose proof chunk_spec as Hch.
  destruct (firstBlock_spec S chunk) as (F1 & F2 & F3 & F4); [lia..|].
  pose proof (ceil_div_spec (ref_ActualFileSize r) chunk) as [Hq _]; [lia..|].
  pose proof (Z.div_mod S chunk ltac:(lia)). pose proof (Z.mod_pos_bound S chunk ltac:(lia)).
  rewrite getFileReader_start, blockRange_open by lia.
  set (fb := firstBlock S chunk) in *. cbv zeta iota.
  assert (fb - 1 ≤ S) by nia. assert (0 ≤ (fb - 1) * chunk) by nia. int64.
  rewrite (proj2 (Z.ltb_ge (S - (fb - 1) * chunk) 0)) by lia.
  rewrite (Download_ok st _ p r); [|done|done|fold chunk; nia|by left].
  fold chunk c. unfold block_slice. cbn [Z.eqb]. rewrite andb_true_r.
  destruct (Z.ltb_spec S (2 * chunk)) as [Hlt|Hge].
  - rewrite (proj2 F4 Hlt). done.
  - rewrite (proj2 (Z.eqb_neq fb 1)) by lia. rewrite drop_drop, take_ge.
    + repeat f_equal. lia.
    + rewrite length_drop. lia.
Qed.
End served.

Section range_properties.
Context {St} `{!Allocation St, !StoreLaws St, !Downloader St, !DownloadLaws St}.

(** C32: a read of the whole object, of a closed range inside it whose last byte
    does not begin a block (or that starts at the first byte), or of an open
    range from the third block on (or from the first byte) delivers exactly the
    requested bytes and the object's metadata, and leaves the store unchanged. *)
Theorem range_request_served st bucket object r rs :
  let p := objectRemotePath bucket object in
  tree st !! p = Some r → is_dir r = false →
  supported (effectiveChunkSize (encrypted r)) (ref_ActualFileSize r) rs →
  GetObjectNInfo bucket object rs None st =
  (Ok (mkReader (wanted rs (content st p)) None, file_info bucket r), st).
Proof.
  intros p Hr Hf Hs. unfold GetObjectNInfo. destruct rs as [[suffix S E]|].
  2: { unfold requestRange, mbind_ok. by rewrite (getFileReader_whole st bucket object r). }
  destruct Hs as (Hsuf & HS & Hs). cbn [IsSuffixLength Start End_ requestRange wanted] in *.
  rewrite Hsuf. unfold mbind_ok, mret_ok.
  pose proof (chunk_range (encrypted r)) as Hch.
  destruct Hs as [[-> Hs]|[HE Hs]].
  - rewrite (getFileReader_open st bucket object r) by done. cbn [Z.eqb Z.opp].
    destruct (Z.ltb_spec S (2 * effectiveChunkSize (encrypted r))); [|done].
    assert (S = 0) as -> by lia. done.
  - rewrite (getFileReader_closed st bucket object r) by (done || lia).
    rewrite (proj2 (Z.eqb_neq E (-1))) by lia.
    destruct (lastBlock_spec (effectiveChunkSize (encrypted r)) S E (ref_ActualFileSize r))
      as (_ & _ & HL & _); [lia..|]. by rewrite Z.min_l by (apply HL in Hs; lia).
Qed.

(** A closed range that does not start at the first byte and whose last
    byte is the first of a block is served without that last byte. *)
Theorem closed_range_loses_last_byte st bucket object r S E :
  let p := objectRemotePath bucket object in
  tree st !! p = Some r → is_dir r = false →
  1 ≤ S ≤ E → E < ref_ActualFileSize r → E mod effectiveChunkSize (encrypted r) = 0 →
  GetObjectNInfo bucket object (Some (mkRange false S E)) None st =
  (Ok (mkReader (take (Z.to_nat (E - S)) (drop (Z.to_nat S) (content st p))) None,
       file_info bucket r), st).
Proof.
  intros p Hr Hf HS HE Hm. unfold GetObjectNInfo. cbn [requestRange IsSuffixLength Start End_].
  unfold mbind_ok, mret_ok. pose proof (chunk_range (encrypted r)) as Hch.
  rewrite (getFileReader_closed st bucket object r) by (done || lia).
  destruct (lastBlock_spec (effectiveChunkSize (encrypted r)) S E (ref_ActualFileSize r))
    as (_ & _ & _ & HL); [lia..|]. rewrite HL by (done || lia). by rewrite Z.min_r by lia.
Qed.

(** An open range that starts inside the first two blocks, but not at the
    first byte, is served with the whole object: the start is ignored. *)
Theorem open_range_ignores_start st bucket object r S :
  let p := objectRemotePath bucket object in
  tree st !! p = Some r → is_dir r = false →
  0 < S < 2 * effectiveChunkSize (encrypted r) → S ≤ ref_ActualFileSize r →
  GetObjectNInfo bucket object (Some (mkRange false S (-1))) None st =
  (Ok (mkReader (content st p) None, file_info bucket r), st).
Proof.
  intros p Hr Hf HS HE. unfold GetObjectNInfo. cbn [requestRange IsSuffixLength Start End_].
  unfold mbind_ok, mret_ok. rewrite (getFileReader_open st bucket object r) by (done || lia).
  by rewrite (proj2 (Z.ltb_lt _ _)) by lia.
Qed.

(** A request for the last [N] bytes is served with the [N] bytes from
    offset [N] on instead. *)
Theorem suffix_range_served_wrongly st bucket object r N :
  let p := objectRemotePath bucket object in
  tree st !! p = Some r → is_dir r = false →
  1 ≤ N → 2 * N ≤ ref_ActualFileSize r → (2 * N - 1) mod effectiveChunkSize (encrypted r) ≠ 0 →
  GetObjectNInfo bucket object (Some (mkRange true (- N) (-1))) None st =
  (Ok (mkReader (take (Z.to_nat N) (drop (Z.to_nat N) (content st p))) None,
       file_info bucket r), st).
Proof.
  intros p Hr Hf HN HE Hm. unfold GetObjectNInfo. cbn [requestRange IsSuffixLength Start End_].
  destruct (content_size st p r Hr Hf) as [_ Hmax]. rewrite Z.opp_involutive. int64.
  assert (Hend : (if 0 <? -1 - - N then N + (-1 - - N) else N + (- N - -1)) = 2 * N - 1)
    by (destruct (Z.ltb_spec 0 (-1 - - N)); lia).
  rewrite Hend. unfold mbind_ok, mret_ok.
  pose proof (chunk_range (encrypted r)) as Hch.
  rewrite (getFileReader_closed st bucket object r) by (done || lia).
  destruct (lastBlock_spec (effectiveChunkSize (encrypted r)) N (2 * N - 1) (ref_ActualFileSize r))
    as (_ & _ & HL & _); [lia..|]. rewrite Z.min_l by (specialize (HL (or_intror Hm)); lia).
  repeat f_equal. lia.
Qed.
End range_properties.

(** ** A read-only allocation that meets the laws

    Files are encrypted and their blocks hold four bytes. *)
Module FileStore.
Abbreviation t := (gmap string bytes).

Definition ref_of (p : string) (c : bytes) : option ORef :=
  let n := Z.of_nat (length c) in
  if n <=? 2 ^ 62 then Some (mkORef fileType (Base p) p n n "" "text/plain" "" "key" 0 0) else None.

Definition refs (st : t) : gmap string ORef := map_imap ref_of st.

#[global] Instance allocation : Allocation t := {|
  GetRefs p _ _ _ _ _ _ _ st :=
    (match refs st !! p with
     | Some r => Ok (mkTree [r] p)
     | None => Err (ZError consensusFailed "consensus failed")
     end, st);
  DoMultiOperation _ st := (Err (ErrorString "read only"), st);
|}.

#[global] Program Instance laws : StoreLaws t := {| tree := refs |}.
Next Obligation. intros st es r _ E. exists (abs_path es). simpl. by rewrite E. Qed.
Next Obligation. intros st es _ E. left. exists "consensus failed". simpl. by rewrite E. Qed.
Next Obligation. done. Qed.

#[global] Instance downloader : Downloader t := {|
  DataShards := 1;
  EncryptionHeaderSize := 65276;
  EncryptedDataPaddingSize := 256;
  Download _ p s e st := ((block_slice 4 s e (default [] (st !! p)), None), st);
  os_Create := mret_ok ();
|}.

Lemma refs_file (st : t) p r :
  refs st !! p = Some r →
  ∃ c, st !! p = Some c ∧ Z.of_nat (length c) ≤ 2 ^ 62 ∧ ref_of p c = Some r.
Proof.
  unfold refs. rewrite map_lookup_imap. destruct (st !! p) as [c|]; [|done]. cbn.
  intros E. exists c. split_and!; [done| |done]. unfold ref_of in E.
  destruct (Z.leb_spec (Z.of_nat (length c)) (2 ^ 62)); done.
Qed.

#[global] Program Instance download : DownloadLaws t :=
  {| content st p := default [] (st !! p) |}.
Next Obligation.
  intros st p r (c & -> & Hc & E)%refs_file _. unfold ref_of in E.
  rewrite (proj2 (Z.leb_le _ _) Hc) in E. injection E as <-. cbn. done.
Qed.
Next Obligation. intros []; by vm_compute. Qed.
Next Obligation.
  intros st tm p r s e (c & Hst & Hc & E)%refs_file _ Hs He. unfold ref_of in E.
  rewrite (proj2 (Z.leb_le _ _) Hc) in E. injection E as <-. done.
Qed.
Next Obligation. done. Qed.

Definition demo : t := {["/b/x" := String.list_ascii_of_string "abcdefghij"]}.
Definition demo_ref : ORef := mkORef fileType "x" "/b/x" 10 10 "" "text/plain" "" "key" 0 0.
End FileStore.

(** The four theorems on the object [abcdefghij] with blocks of four bytes. *)
Definition served (rs : option HTTPRangeSpec) (text : string) : Prop :=
  GetObjectNInfo "b" "x" rs None FileStore.demo =
  (Ok (mkReader (String.list_ascii_of_string text) None, file_info "b" FileStore.demo_ref),
   FileStore.demo).

Lemma range_request_served_witness : served (Some (mkRange false 2 7)) "cdefgh".
Proof.
  unfold served. rewrite (range_request_served FileStore.demo "b" "x" FileStore.demo_ref).
  - by vm_compute.
  - by vm_compute.
  - by vm_compute.
  - cbn. split_and!; [done|lia|lia|]. right. split; [lia|]. right. by vm_compute.
Defined.

Lemma closed_range_loses_last_byte_witness : served (Some (mkRange false 2 8)) "cdefgh".
Proof.
  unfold served.
  rewrite (closed_range_loses_last_byte FileStore.demo "b" "x" FileStore.demo_ref 2 8);
    by vm_compute.
Defined.

Lemma open_range_ignores_start_witness : served (Some (mkRange false 3 (-1))) "abcdefghij".
Proof.
  unfold served.
  rewrite (open_range_ignores_start FileStore.demo "b" "x" FileStore.demo_ref 3); by vm_compute.
Defined.

Lemma suffix_range_served_wrongly_witness : served (Some (mkRange true (-3) (-1))) "def".
Proof.
  unfold served.
  rewrite (suffix_range_served_wrongly FileStore.demo "b" "x" FileStore.demo_ref 3); by vm_compute.
Defined.
