(* ===== verification/ZcnWorker.v ===== *)
(** * The batch uploader (cmd/gateway/zcn/worker.go and putFile of dStorage.go)

    [putFile] hands every upload of known size to a channel. One goroutine groups
    what arrives into batches ([IntiBatchUploadWorkers]), a fixed number of
    workers execute the batches ([batchUploadWorker]) and report the outcome
    through the cancel function of each request.

    The goroutines are one transition system. Each event is one action of one
    goroutine between two points where it can block; [None] means that the action
    is not enabled. [sent] is a history variable: the batches in the order they
    were handed to the workers. What the SDK answers is part of the event
    (ZcnUpload computes it from the store). [ctxDone] tells whether the context of
    the gateway has been cancelled ([Shutdown]): from then on a [select] may take
    its [ctx.Done()] case, also when its other case is ready. *)

From Stdlib Require Import ZArith Lia Bool.
From S2P Require Import Prelude GoStrings ZcnErrors ZcnAlloc.

(** A request in flight; [b_id] stands for the identity of its cancel function. *)
Record batchOp := mkBatchOp { b_id : nat; b_req : OperationRequest }.

(** Where the grouping goroutine is: at its [select], between the receive and the
    test of the channel's length, in [time.Sleep], sending to [workerChan], or
    gone. *)
Inductive PC := AtSelect | Checking | Sleeping | Sending | Returned.

#[export] Instance PC_eq_dec : EqDecision PC.
Proof. solve_decision. Defined.

(** A worker: at its [select], executing a batch, or gone. *)
Inductive Worker := Idle | Busy (ops : list batchOp) | Gone.

Record World := mkWorld {
  ctxDone : bool;
  batchUploadChan : list batchOp;
  opRequest : list batchOp;
  iterations : Z;
  pc : PC;
  workerChan : list (list batchOp);
  workers : list Worker;
  finished : list (batchOp * option error);
  sent : list (list batchOp);
}.

Inductive event :=
  | EPut (op : batchOp)                  (** [batchUploadChan <- opRequest] in [putFile] *)
  | ERecv                                (** [op := <-batchUploadChan] *)
  | ECheck                               (** the first [len(batchUploadChan) == 0] *)
  | EWake                                (** [time.Sleep] returns *)
  | ESend                                (** [workerChan <- opRequest] succeeds *)
  | ETake (i : nat)                      (** worker [i] receives a batch *)
  | EFinish (i : nat) (err : option error) (** [DoMultiOperation] of worker [i] returns *)
  | ECancel                              (** [ctxCancel()] in [Shutdown] *)
  | EReturn                              (** [case <-ctx.Done(): return] of the grouping goroutine *)
  | EWorkerReturn (i : nat).             (** [case <-ctx.Done(): return] of worker [i] *)

(** The error a worker passes to the cancel functions. *)
Definition batchError `{!ZErrorPkg} (err : option error) : option error :=
  match err with
  | None => None
  | Some e =>
      if isSameRootError (Some e) then None
      else match e with Canceled => Some (ErrorString "operation canceled") | _ => Some e end
  end.

Section worker.
Context `{HZ : !ZErrorPkg} (maxOperations : Z) (maxWorkers : nat).

Definition worker_init : World :=
  mkWorld false [] [] 0 AtSelect [] (replicate maxWorkers Idle) [] [].

Definition worker_step (w : World) (ev : event) : option World :=
  match w with
  | mkWorld dn ch ops it pc wch ws fin snt =>
      match ev with
      | EPut op =>
          if (Z.of_nat (length ch) <? maxOperations * Z.of_nat maxWorkers)%Z
          then Some (mkWorld dn (ch ++ [op]) ops it pc wch ws fin snt) else None
      | ERecv =>
          match pc, ch with
          | AtSelect, op :: ch =>
              let ops := ops ++ [op] in
              if (Z.of_nat (length ops) =? maxOperations)%Z || (2 <? it)%Z
              then Some (mkWorld dn ch ops it Sending wch ws fin snt)
              else Some (mkWorld dn ch ops it Checking wch ws fin snt)
          | _, _ => None
          end
      | ECheck =>
          match pc with
          | Checking =>
              if (length ch =? 0)%nat
              then Some (mkWorld dn ch ops (it + 1) Sleeping wch ws fin snt)
              else Some (mkWorld dn ch ops it AtSelect wch ws fin snt)
          | _ => None
          end
      | EWake =>
          match pc with
          | Sleeping =>
              if (length ch =? 0)%nat
              then Some (mkWorld dn ch ops it Sending wch ws fin snt)
              else Some (mkWorld dn ch ops it AtSelect wch ws fin snt)
          | _ => None
          end
      | ESend =>
          match pc with
          | Sending =>
              if (length wch <? maxWorkers)%nat
              then Some (mkWorld dn ch [] 0 AtSelect (wch ++ [ops]) ws fin (snt ++ [ops]))
              else None
          | _ => None
          end
      | ETake i =>
          match ws !! i, wch with
          | Some Idle, b :: wch => Some (mkWorld dn ch ops it pc wch (<[i := Busy b]> ws) fin snt)
          | _, _ => None
          end
      | EFinish i err =>
          match ws !! i with
          | Some (Busy b) =>
              Some (mkWorld dn ch ops it pc wch (<[i := Idle]> ws)
                      (fin ++ ((λ op, (op, batchError err)) <$> b)) snt)
          | _ => None
          end
      | ECancel => Some (mkWorld true ch ops it pc wch ws fin snt)
      | EReturn =>
          match dn, pc with
          | true, AtSelect => Some (mkWorld dn ch ops it Returned wch ws fin snt)
          | _, _ => None
          end
      | EWorkerReturn i =>
          match dn, ws !! i with
          | true, Some Idle => Some (mkWorld dn ch ops it pc wch (<[i := Gone]> ws) fin snt)
          | _, _ => None
          end
      end
  end.

Fixpoint worker_run (w : World) (evs : list event) : option World :=
  match evs with
  | [] => Some w
  | ev :: evs => match worker_step w ev with Some w => worker_run w evs | None => None end
  end.
End worker.

(** The requests put into the channel, in order. *)
Fixpoint puts (evs : list event) : list batchOp :=
  match evs with
  | [] => []
  | EPut op :: evs => op :: puts evs
  | _ :: evs => puts evs
  end.

(** The actions of the uploader itself: not a new request, not [Shutdown]. *)
Definition internal (ev : event) : Prop :=
  match ev with EPut _ | ECancel => False | _ => True end.

(** ** [putFile] *)

(** How the context of a request ended: its own cancel function was called, or
    the context of the request it derives from is done, with that cause. *)
Inductive CtxEnd := OwnCancel (err : option error) | ParentDone (cause : error).

(** [context.Cause]: a nil error given to the cancel function becomes
    [context.Canceled]. *)
Definition Cause (e : CtxEnd) : error :=
  match e with
  | OwnCancel (Some err) => err
  | OwnCancel None => Canceled
  | ParentDone cause => cause
  end.

(** The result of the [else] branch of [putFile] once the context is done. *)
Definition putFile_result (e : CtxEnd) : option error :=
  match Cause e with Canceled => None | err => Some err end.

(** ** Invariant *)
Definition batch_of (x : Worker) : option (list batchOp) :=
  match x with Busy b => Some b | _ => None end.
Definition busy (ws : list Worker) : list (list batchOp) := omap batch_of ws.
#[global] Arguments busy : simpl never.

Section inv.
Context `{HZ : !ZErrorPkg} (maxOperations : Z) (maxWorkers : nat).
Context (Hops : (1 ≤ maxOperations)%Z).
Abbreviation step := (worker_step maxOperations maxWorkers).
Abbreviation run := (worker_run maxOperations maxWorkers).

Definition batch_ok (b : list batchOp) : Prop :=
  b ≠ [] ∧ (Z.of_nat (length b) ≤ maxOperations)%Z.

(** The grouping goroutine: how many requests it holds, and that it waits for
    the channel only when it holds none or the channel has more. *)
Definition pc_ok (w : World) : Prop :=
  match pc w with
  | AtSelect =>
      (Z.of_nat (length (opRequest w)) < maxOperations)%Z ∧
      (opRequest w ≠ [] → batchUploadChan w ≠ [])
  | Checking | Sleeping =>
      (0 < length (opRequest w))%nat ∧ (Z.of_nat (length (opRequest w)) < maxOperations)%Z
  | Sending => batch_ok (opRequest w)
  | Returned => ctxDone w = true
  end.

Record worker_inv (hist : list batchOp) (w : World) : Prop := {
  inv_pc : pc_ok w;
  inv_iter : (0 ≤ iterations w ≤ 3)%Z;
  inv_check : pc w = Checking → (iterations w ≤ 2)%Z;
  inv_fifo : concat (sent w) ++ opRequest w ++ batchUploadChan w = hist;
  inv_batches : Forall batch_ok (sent w);
  inv_workers : length (workers w) = maxWorkers;
  inv_conserved : concat (sent w) ≡ₚ (finished w).*1 ++ concat (busy (workers w)) ++ concat (workerChan w);
  inv_inflight : Forall batch_ok (busy (workers w) ++ workerChan w);
}.

Lemma busy_replicate n : busy (replicate n Idle) = [].
Proof. by induction n. Qed.

Lemma worker_inv_init : worker_inv [] (worker_init maxWorkers).
Proof.
  split; simpl; rewrite ?busy_replicate; try done; try lia.
  - unfold pc_ok. simpl. split; [lia|done].
  - by rewrite length_replicate.
Qed.

Lemma busy_take ws i b :
  ws !! i = Some Idle → busy (<[i := Busy b]> ws) ≡ₚ b :: busy ws.
Proof.
  revert i. induction ws as [|x ws IH]; intros [|i]; simpl; try done.
  - by intros [= ->].
  - intros H. destruct x as [|c|]; simpl; unfold busy in *; simpl; [by apply IH| |by apply IH].
    by rewrite IH, Permutation_swap.
Qed.

Lemma busy_finish ws i b :
  ws !! i = Some (Busy b) → busy ws ≡ₚ b :: busy (<[i := Idle]> ws).
Proof.
  revert i. induction ws as [|x ws IH]; intros [|i]; simpl; try done.
  - by intros [= ->].
  - intros H. destruct x as [|c|]; unfold busy in *; simpl; [by apply IH| |by apply IH].
    by rewrite Permutation_swap, <- (IH i).
Qed.

Lemma busy_return ws i : ws !! i = Some Idle → busy (<[i := Gone]> ws) = busy ws.
Proof.
  revert i. induction ws as [|x ws IH]; intros [|i]; simpl; try done.
  - by intros [= ->].
  - intros H. unfold busy in *. simpl. by rewrite IH.
Qed.

#[export] Instance concat_perm {A} : Proper ((≡ₚ) ==> (≡ₚ)) (@concat A).
Proof.
  induction 1 as [|x l l' _ IH|x y l|l1 l2 l3 _ IH1 _ IH2]; simpl; [done|by rewrite IH|..].
  - by rewrite !app_assoc, (Permutation_app_comm y x).
  - by etrans.
Qed.

Lemma fst_tagged {A B} (l : list A) (x : B) : ((λ a, (a, x)) <$> l).*1 = l.
Proof. induction l; simpl; by f_equal. Qed.

(** One lemma per goroutine: the producers, the grouping loop, the workers. *)
Lemma put_inv hist w op w' :
  worker_inv hist w → step w (EPut op) = Some w' → worker_inv (hist ++ [op]) w'.
Proof.
  destruct w as [dn ch ops it p wch ws fin snt]. intros [H1 H2 H3 H4 H5 H6 H7 H8]; cbn in *.
  case_if; [|done]. intros [= <-]. split; cbn; try done.
  - unfold pc_ok in *; cbn in *. destruct p; try done. destruct H1 as [H1 H1'].
    split; [done|]. intros _. by destruct ch.
  - by rewrite <- H4, <- !app_assoc.
Qed.

Lemma recv_inv hist w w' : worker_inv hist w → step w ERecv = Some w' → worker_inv hist w'.
Proof.
  destruct w as [dn ch ops it p wch ws fin snt]. intros [H1 H2 H3 H4 H5 H6 H7 H8]; cbn in *.
  destruct p, ch as [|op ch]; try done. destruct H1 as [H1 _]. cbn in H1.
  assert (Hf : concat snt ++ (ops ++ [op]) ++ ch = hist) by by rewrite <- H4, <- !app_assoc.
  assert (Hl : length (ops ++ [op]) = S (length ops)) by (rewrite length_app; simpl; lia).
  destruct (_ || _) eqn:E; intros [= <-]; split; cbn; try done; unfold pc_ok; cbn.
  - split; [by destruct ops|]. rewrite Hl. lia.
  - rewrite Hl in *. destruct_bools. lia.
  - intros _. destruct_bools. lia.
Qed.

Lemma check_inv hist w w' : worker_inv hist w → step w ECheck = Some w' → worker_inv hist w'.
Proof.
  destruct w as [dn ch ops it p wch ws fin snt]. intros [H1 H2 H3 H4 H5 H6 H7 H8]; cbn in *.
  destruct p; try done. specialize (H3 eq_refl). cbn in H1.
  destruct (Nat.eqb_spec (length ch) 0) as [E|E]; intros [= <-]; split; cbn; try done.
  - lia.
  - unfold pc_ok; cbn. split; [lia|]. intros _ ->. done.
Qed.

Lemma wake_inv hist w w' : worker_inv hist w → step w EWake = Some w' → worker_inv hist w'.
Proof.
  destruct w as [dn ch ops it p wch ws fin snt]. intros [H1 H2 H3 H4 H5 H6 H7 H8]; cbn in *.
  destruct p; try done. cbn in H1.
  destruct (Nat.eqb_spec (length ch) 0) as [E|E]; intros [= <-]; split; cbn; try done.
  - unfold pc_ok; cbn. split; [by intros ->; simpl in *; lia|lia].
  - unfold pc_ok; cbn. split; [lia|]. intros _ ->. done.
Qed.

Lemma send_inv hist w w' : worker_inv hist w → step w ESend = Some w' → worker_inv hist w'.
Proof.
  destruct w as [dn ch ops it p wch ws fin snt]. intros [H1 H2 H3 H4 H5 H6 H7 H8]; cbn in *.
  destruct p; try done. cbn in H1. case_if; [|done]. intros [= <-]; split; cbn; try done; try lia.
  - unfold pc_ok; cbn. split; [lia|done].
  - by rewrite concat_snoc, <- app_assoc.
  - apply Forall_app; split; [done|]. by constructor.
  - rewrite !concat_snoc, H7. by rewrite <- !app_assoc.
  - rewrite app_assoc. apply Forall_app; split; [done|]. by constructor.
Qed.

Lemma take_inv hist w i w' : worker_inv hist w → step w (ETake i) = Some w' → worker_inv hist w'.
Proof.
  destruct w as [dn ch ops it p wch ws fin snt]. intros [H1 H2 H3 H4 H5 H6 H7 H8]; cbn in *.
  destruct (ws !! i) as [[]|] eqn:E, wch as [|b wch]; try done. intros [= <-].
  split; cbn; try done.
  - by rewrite length_insert.
  - rewrite H7. f_equiv. rewrite (concat_perm _ _ (busy_take ws i b E)). simpl.
    by rewrite Permutation_app_swap_app, app_assoc.
  - rewrite (busy_take ws i b E). simpl. by rewrite Permutation_middle.
Qed.

Lemma finish_inv hist w i err w' :
  worker_inv hist w → step w (EFinish i err) = Some w' → worker_inv hist w'.
Proof.
  destruct w as [dn ch ops it p wch ws fin snt]. intros [H1 H2 H3 H4 H5 H6 H7 H8]; cbn in *.
  destruct (ws !! i) as [[|b|]|] eqn:E; try done. intros [= <-]. split; cbn; try done.
  - by rewrite length_insert.
  - rewrite H7, (concat_perm _ _ (busy_finish ws i b E)). simpl.
    rewrite fmap_app, fst_tagged. by rewrite <- !app_assoc.
  - rewrite (busy_finish ws i b E) in H8. by inversion H8.
Qed.

Lemma cancel_inv hist w w' : worker_inv hist w → step w ECancel = Some w' → worker_inv hist w'.
Proof.
  destruct w as [dn ch ops it p wch ws fin snt]. intros [H1 H2 H3 H4 H5 H6 H7 H8] [= <-].
  split; cbn in *; try done. unfold pc_ok in *; cbn in *. by destruct p.
Qed.

Lemma return_inv hist w w' : worker_inv hist w → step w EReturn = Some w' → worker_inv hist w'.
Proof.
  destruct w as [dn ch ops it p wch ws fin snt]. intros [H1 H2 H3 H4 H5 H6 H7 H8]; cbn in *.
  destruct dn, p; try done. intros [= <-]. by split.
Qed.

Lemma worker_return_inv hist w i w' :
  worker_inv hist w → step w (EWorkerReturn i) = Some w' → worker_inv hist w'.
Proof.
  destruct w as [dn ch ops it p wch ws fin snt]. intros [H1 H2 H3 H4 H5 H6 H7 H8]; cbn in *.
  destruct dn, (ws !! i) as [[]|] eqn:E; try done. intros [= <-].
  split; cbn; rewrite ?length_insert, ?(busy_return _ _ E); done.
Qed.

Lemma step_inv hist w ev w' :
  worker_inv hist w → step w ev = Some w' → worker_inv (hist ++ puts [ev]) w'.
Proof.
  destruct ev; cbn [puts]; rewrite ?app_nil_r;
    [apply put_inv|apply recv_inv|apply check_inv|apply wake_inv|apply send_inv
    |apply take_inv|apply finish_inv|apply cancel_inv|apply return_inv|apply worker_return_inv].
Qed.

Lemma puts_app evs evs' : puts (evs ++ evs') = puts evs ++ puts evs'.
Proof. induction evs as [|[] evs IH]; simpl; by rewrite ?IH. Qed.

Lemma run_inv hist w evs w' :
  worker_inv hist w → run w evs = Some w' → worker_inv (hist ++ puts evs) w'.
Proof.
  revert hist w. induction evs as [|ev evs IH]; intros hist w Hw; cbn [worker_run].
  { intros [= <-]. by rewrite app_nil_r. }
  destruct (step w ev) as [w1|] eqn:E; [|done]. intros Hr.
  rewrite (puts_app [ev] evs : puts (ev :: evs) = _), app_assoc.
  eapply IH; [|done]. by eapply step_inv.
Qed.

(** ** Progress *)
Definition pc_weight (p : PC) : nat :=
  match p with Returned => 0 | AtSelect => 1 | Sending => 2 | Sleeping => 3 | Checking => 4 end.

Definition alive (x : Worker) : bool := match x with Gone => false | _ => true end.
Definition live (ws : list Worker) : nat := sum_list_with (λ x, if alive x then 1 else 0) ws.
#[local] Arguments live : simpl never.

(** A bound on the actions the uploader can still take. *)
Definition work_left (w : World) : nat :=
  8 * length (batchUploadChan w) + 3 * length (opRequest w) + pc_weight (pc w)
  + 2 * length (concat (workerChan w)) + length (concat (busy (workers w))) + live (workers w).

(** The requests not reported yet. *)
Definition outstanding (w : World) : list batchOp :=
  concat (busy (workers w)) ++ concat (workerChan w) ++ opRequest w ++ batchUploadChan w.

Lemma live_insert ws i x y :
  ws !! i = Some x →
  live (<[i := y]> ws) + (if alive x then 1 else 0) = live ws + (if alive y then 1 else 0).
Proof.
  revert i. unfold live. induction ws as [|z ws IH]; intros [|i]; simpl; try done.
  - intros [= ->]. lia.
  - intros H. specialize (IH _ H). lia.
Qed.

Lemma batch_ok_length b : batch_ok b → 1 ≤ length b.
Proof. intros [? _]. destruct b; [done|simpl; lia]. Qed.

Lemma work_decreases hist w ev w' :
  worker_inv hist w → internal ev → step w ev = Some w' → work_left w' < work_left w.
Proof.
  destruct w as [dn ch ops it p wch ws fin snt]. intros [H1 _ _ _ _ _ _ H8] Hi; cbn in *.
  unfold work_left; cbn. destruct ev as [op| | | | |i|i err| | |i]; [done|..]; cbn in *.
  - destruct p, ch as [|op ch]; try done. case_match; intros [= <-]; cbn; rewrite length_app; simpl; lia.
  - destruct p; try done. case_match; intros [= <-]; cbn; lia.
  - destruct p; try done. case_match; intros [= <-]; cbn; lia.
  - destruct p; try done. case_match; [|done]. intros [= <-]; cbn.
    apply batch_ok_length in H1. cbn in H1. rewrite concat_snoc, length_app. lia.
  - destruct (ws !! i) as [[]|] eqn:E, wch as [|b wch]; try done. intros [= <-]; cbn.
    rewrite (concat_perm _ _ (busy_take ws i b E)). simpl. rewrite !length_app.
    pose proof (live_insert _ _ _ (Busy b) E) as Hl. simpl in Hl.
    apply Forall_app in H8 as [_ [Hb%batch_ok_length _]%Forall_cons]. lia.
  - destruct (ws !! i) as [[|b|]|] eqn:E; try done. intros [= <-]; cbn.
    rewrite (concat_perm _ _ (busy_finish ws i b E)). simpl. rewrite !length_app.
    pose proof (live_insert _ _ _ Idle E) as Hl. simpl in Hl.
    rewrite (busy_finish ws i b E) in H8. simpl in H8.
    apply Forall_cons in H8 as [Hb%batch_ok_length _]. lia.
  - done.
  - destruct dn, p; try done. intros [= <-]; cbn. lia.
  - destruct dn, (ws !! i) as [[]|] eqn:E; try done. intros [= <-]; cbn.
    rewrite (busy_return _ _ E). pose proof (live_insert _ _ _ Gone E) as Hl. simpl in Hl. lia.
Qed.

Lemma busy_cons ws b bs : busy ws = b :: bs → ∃ i c, ws !! i = Some (Busy c).
Proof.
  induction ws as [|[|c|] ws IH]; unfold busy in *; simpl; try done; intros E.
  - destruct (IH E) as (i & c & Hi). by exists (S i), c.
  - by exists 0, c.
  - destruct (IH E) as (i & c' & Hi). by exists (S i), c'.
Qed.

(** No worker is gone before the context is cancelled. *)
Lemma gone_after_cancel hist w ev w' :
  (ctxDone w = false → Forall (λ x, x ≠ Gone) (workers w)) → worker_inv hist w →
  step w ev = Some w' → ctxDone w' = false → Forall (λ x, x ≠ Gone) (workers w').
Proof.
  destruct w as [dn ch ops it p wch ws fin snt]. cbn. intros Hg _ Hs Hd.
  destruct ev as [op| | | | |i|i err| | |i]; cbn in *; repeat case_match; simplify_eq; cbn in *;
    try done; try (by apply Hg); apply Forall_insert; try done; by apply Hg.
Qed.

(** When no goroutine can act, none is executing a batch, and before the context
    is cancelled nothing is outstanding. *)
Lemma stuck_idle w : (∀ ev, internal ev → step w ev = None) → busy (workers w) = [].
Proof.
  intros Hs. destruct (busy (workers w)) as [|b bs] eqn:Eb; [done|].
  destruct (busy_cons _ _ _ Eb) as (i & c & Hi). specialize (Hs (EFinish i None) I).
  destruct w; cbn in *. by rewrite Hi in Hs.
Qed.

Lemma stuck_done hist w :
  worker_inv hist w → (1 ≤ maxWorkers)%nat → Forall (λ x, x ≠ Gone) (workers w) →
  ctxDone w = false → (∀ ev, internal ev → step w ev = None) → outstanding w = [].
Proof.
  intros [H1 _ _ _ _ H6 _ _] Hw Hg Hd Hs. pose proof (stuck_idle w Hs) as Hb. unfold outstanding.
  destruct w as [dn ch ops it p wch ws fin snt]; cbn in *. subst dn. rewrite Hb. cbn.
  assert (wch = []) as ->.
  { destruct wch as [|b wch]; [done|]. destruct ws as [|x ws]; [simpl in *; lia|].
    apply Forall_cons in Hg as [Hx _]. destruct x; [by specialize (Hs (ETake 0) I)|done..]. }
  unfold pc_ok in H1. cbn in H1. destruct p.
  - specialize (Hs ERecv I). cbn in Hs. destruct ch; [|by case_match].
    destruct ops; [done|]. by destruct H1 as [_ []].
  - specialize (Hs ECheck I). cbn in Hs. by case_match.
  - specialize (Hs EWake I). cbn in Hs. by case_match.
  - specialize (Hs ESend I). cbn in Hs. destruct maxWorkers; [lia|done].
  - done.
Qed.

Lemma stuck_gone w :
  ctxDone w = true → (∀ ev, internal ev → step w ev = None) → Forall (λ x, x = Gone) (workers w).
Proof.
  intros Hd Hs. apply Forall_lookup. intros i x Hi.
  pose proof (Hs (EWorkerReturn i) I) as H1. pose proof (Hs (EFinish i None) I) as H2.
  destruct w; cbn in *. subst. rewrite Hi in H1, H2. by destruct x.
Qed.

Lemma conserved_all hist w : worker_inv hist w → hist ≡ₚ (finished w).*1 ++ outstanding w.
Proof.
  intros [_ _ _ H4 _ _ H7 _]. rewrite <- H4, H7. unfold outstanding. by rewrite <- !app_assoc.
Qed.

Lemma gone_init : ctxDone (worker_init maxWorkers) = false → Forall (λ x, x ≠ Gone) (workers (worker_init maxWorkers)).
Proof. intros _. by apply Forall_replicate. Qed.

Lemma run_gone hist w evs w' :
  worker_inv hist w → (ctxDone w = false → Forall (λ x, x ≠ Gone) (workers w)) →
  run w evs = Some w' → ctxDone w' = false → Forall (λ x, x ≠ Gone) (workers w').
Proof.
  revert hist w. induction evs as [|ev evs IH]; intros hist w Hw Hg; cbn [worker_run].
  { by intros [= <-]. }
  destruct (step w ev) as [w1|] eqn:E; [|done]. apply (IH (hist ++ puts [ev])).
  - by eapply step_inv.
  - intros Hd. by eapply gone_after_cancel.
Qed.

Lemma internal_puts evs : Forall internal evs → puts evs = [].
Proof. induction 1 as [|[] evs Hev Hi IH]; by simpl. Qed.

Lemma run_bounded hist w evs w' :
  worker_inv hist w → Forall internal evs → run w evs = Some w' →
  length evs + work_left w' ≤ work_left w.
Proof.
  intros Hw Hi. revert hist w Hw. induction Hi as [|ev evs Hev Hi IH]; intros hist w Hw; simpl.
  { intros [= <-]. lia. }
  destruct (step w ev) as [w1|] eqn:E; [|done]. intros Hr.
  pose proof (work_decreases _ _ _ _ Hw Hev E). apply (IH (hist ++ puts [ev])) in Hr; [lia|].
  by eapply step_inv.
Qed.
End inv.

(** ** What the uploader promises *)
Section promises.
Context `{HZ : !ZErrorPkg} (maxOperations : Z) (maxWorkers : nat).

(** C6: in every execution the batches handed to the workers are not empty and
    hold at most [maxOperations] requests, and the requests are neither lost,
    repeated nor reordered: the batches followed by what is still waiting are
    the requests in the order they were submitted, and the requests of the
    batches sent are those reported, in the hands of a worker, or queued. *)
Theorem batches_conserve_requests evs w :
  (1 ≤ maxOperations)%Z →
  worker_run maxOperations maxWorkers (worker_init maxWorkers) evs = Some w →
  concat (sent w) ++ opRequest w ++ batchUploadChan w = puts evs ∧
  Forall (λ b, b ≠ [] ∧ (Z.of_nat (length b) ≤ maxOperations)%Z) (sent w) ∧
  concat (sent w) ≡ₚ (finished w).*1 ++ concat (busy (workers w)) ++ concat (workerChan w).
Proof.
  intros Hm Hr. pose proof (worker_inv_init maxOperations maxWorkers Hm) as Hi.
  apply (run_inv _ _ Hm _ _ _ _ Hi) in Hr as []. done.
Qed.

(** C34: the uploader cannot stall: from every reachable state, whatever the SDK
    answers, the goroutines take at most [work_left] further actions. When none of
    them can act any more, then, unless the gateway was shut down, every submitted
    request has been reported exactly once. After a shutdown the workers are gone,
    what they had taken is reported, and the requests never reported are exactly
    those no worker had taken: in a batch not taken, held for the next batch, or
    in the channel. *)
Theorem uploads_complete evs w evs' w' :
  (1 ≤ maxOperations)%Z → (1 ≤ maxWorkers)%nat →
  worker_run maxOperations maxWorkers (worker_init maxWorkers) evs = Some w →
  Forall internal evs' → worker_run maxOperations maxWorkers w evs' = Some w' →
  length evs' + work_left w' ≤ work_left w ∧
  ((∀ ev, internal ev → worker_step maxOperations maxWorkers w' ev = None) →
   if ctxDone w' then
     Forall (λ x, x = Gone) (workers w') ∧
     puts evs ≡ₚ (finished w').*1 ++ concat (workerChan w') ++ opRequest w' ++ batchUploadChan w'
   else (finished w').*1 ≡ₚ puts evs).
Proof.
  intros Hm Hw Hr Hi Hr'. pose proof (worker_inv_init maxOperations maxWorkers Hm) as H0.
  pose proof (run_inv _ _ Hm _ _ _ _ H0 Hr) as Hinv. simpl in Hinv.
  pose proof (run_gone _ _ Hm _ _ _ _ H0 (gone_init maxWorkers) Hr) as Hg.
  pose proof (run_inv _ _ Hm _ _ _ _ Hinv Hr') as Hinv'.
  pose proof (run_gone _ _ Hm _ _ _ _ Hinv Hg Hr') as Hg'.
  rewrite (internal_puts evs'), app_nil_r in Hinv' by done.
  split; [by eapply run_bounded|]. intros Hs. pose proof (conserved_all _ _ _ _ Hinv') as Hc.
  destruct (ctxDone w') eqn:Hd.
  - split; [by eapply stuck_gone|]. rewrite Hc. unfold outstanding.
    by rewrite (stuck_idle maxOperations maxWorkers w' Hs).
  - rewrite Hc, (stuck_done _ _ _ _ Hinv' Hw (Hg' eq_refl) Hd Hs). by rewrite app_nil_r.
Qed.

(** After a shutdown has ended the goroutines, nothing is reported any more,
    whatever is still submitted: [putFile] then waits until the context of its own
    caller ends. *)
Theorem shutdown_strands_requests w evs w' :
  pc w = Returned → Forall (λ x, x = Gone) (workers w) →
  worker_run maxOperations maxWorkers w evs = Some w' →
  finished w' = finished w ∧ ∃ more, batchUploadChan w' = batchUploadChan w ++ more.
Proof.
  revert w. induction evs as [|ev evs IH]; intros w Hp Hg; cbn [worker_run].
  { intros [= <-]. split; [done|]. exists []. by rewrite app_nil_r. }
  destruct (worker_step _ _ w ev) as [w1|] eqn:E; [|done].
  assert (H1 : pc w1 = Returned ∧ workers w1 = workers w ∧ finished w1 = finished w ∧
            ∃ more, batchUploadChan w1 = batchUploadChan w ++ more).
  { destruct w as [dn ch ops it p wch ws fin snt]; cbn in *. subst p. rewrite Forall_lookup in Hg.
    destruct ev as [op| | | | |i|i err| | |i]; cbn in E; repeat case_match; simplify_eq; cbn;
      try (match goal with H : ws !! _ = Some _ |- _ => apply Hg in H; by simplify_eq end);
      split_and!; try done; by (exists [op] || (exists []; rewrite app_nil_r)). }
  destruct H1 as (Hp1 & Hw1 & Hf1 & more & Hm). intros Hr.
  destruct (IH w1 Hp1 ltac:(by rewrite Hw1) Hr) as (Hf & more' & Hm').
  rewrite Hf, Hm', Hm, Hf1, <- app_assoc. by eauto.
Qed.
End promises.

(** As long as the caller's own context is alive, [putFile] reports success
    exactly when the SDK executed the batch without an error or found the
    allocation root unchanged; in particular a cancelled SDK operation is an
    error. *)
Theorem putFile_reports_batch `{HZ : !ZErrorPkg} (err : option error) :
  putFile_result (OwnCancel (batchError err)) = None ↔
  err = None ∨ isSameRootError err = true.
Proof.
  destruct err as [e|]; cbn; [|by split; [left|]].
  destruct (Contains (Error_text e) _) eqn:E; cbn; [by split; [right|]|].
  destruct e; cbn; (split; [done|by intros [?|?]]).
Qed.

(** Three requests, two per batch: a full batch is sent, the third is waiting. *)
Definition demo_op (i : nat) : batchOp := mkBatchOp i (pathOp FileOperationInsert "/b/x").
Definition demo_events : list event :=
  [EPut (demo_op 0); EPut (demo_op 1); ERecv; EPut (demo_op 2); ECheck; ERecv; ESend; ERecv; ETake 0].
Definition demo_world : World :=
  mkWorld false [] [demo_op 2] 0 Checking [] [Busy [demo_op 0; demo_op 1]; Idle] []
    [[demo_op 0; demo_op 1]].

Lemma batches_conserve_requests_witness :
  concat (sent demo_world) ++ opRequest demo_world ++ batchUploadChan demo_world =
    [demo_op 0; demo_op 1; demo_op 2] ∧
  Forall (λ b, b ≠ [] ∧ (Z.of_nat (length b) ≤ 2)%Z) (sent demo_world) ∧
  concat (sent demo_world) ≡ₚ
    (finished demo_world).*1 ++ concat (busy (workers demo_world)) ++ concat (workerChan demo_world).
Proof.
  apply (batches_conserve_requests 2 2 demo_events demo_world).
  - done.
  - by vm_compute.
Defined.

Definition demo_rest : list event :=
  [ECheck; EWake; EFinish 0 None; ESend; ETake 1; EFinish 1 (Some Canceled)].

Lemma uploads_complete_witness :
  ∃ w', outstanding w' = [] ∧ length demo_rest + work_left w' ≤ work_left demo_world ∧
  ((∀ ev, internal ev → worker_step 2 2 w' ev = None) →
   if ctxDone w' then
     Forall (λ x, x = Gone) (workers w') ∧
     [demo_op 0; demo_op 1; demo_op 2] ≡ₚ
       (finished w').*1 ++ concat (workerChan w') ++ opRequest w' ++ batchUploadChan w'
   else (finished w').*1 ≡ₚ [demo_op 0; demo_op 1; demo_op 2]).
Proof.
  eexists. split; cycle 1.
  - apply (uploads_complete 2 2 demo_events demo_world demo_rest).
    + done.
    + lia.
    + by vm_compute.
    + by repeat constructor.
    + by vm_compute.
  - by vm_compute.
Defined.
