(* ===== verification/ZcnLocks.v ===== *)
(** * Path locks (lockPath and unlockPath of cmd/gateway/zcn/gateway-zcn.go)

    [PutObject] takes a lock per remote path: a semaphore of weight one in
    [contentMap], the map itself guarded by the mutex [contentLock]. [lockPath]
    keeps the mutex while it waits for the semaphore.

    The callers are threads of a transition system. A thread calls [lockPath]
    and, when that has succeeded, [unlockPath]; the points where it can wait are
    its program counters. [None] means that the action is not enabled. *)

From Stdlib Require Import ZArith Lia Bool.
From S2P Require Import Prelude.

Inductive tpc :=
  | Outside                               (** in neither function, holding nothing *)
  | Locking (path : string)               (** [lockPath], before [contentLock.Lock()] returns *)
  | Acquiring (path : string) (sem : nat) (** [lockPath], in [Acquire], with [contentLock] *)
  | Holding (path : string)               (** [lockPath] returned nil *)
  | Unlocking (path : string).            (** [unlockPath], before [contentLock.Lock()] returns *)

#[export] Instance tpc_eq_dec : EqDecision tpc.
Proof. solve_decision. Defined.

Record Locks := mkLocks {
  contentLock : option nat;      (** the thread that holds the mutex between two events *)
  contentMap : gmap string nat;  (** path to semaphore *)
  sems : list bool;              (** the semaphores created so far: acquired or not *)
  threads : list tpc;
  panicked : bool;               (** [Release] of a semaphore that is not acquired *)
}.

Inductive lock_event :=
  | LCall (i : nat) (path : string)  (** a call of [lockPath] *)
  | LEnter (i : nat)                 (** [contentLock.Lock()] returns in [lockPath] *)
  | LAcquire (i : nat)               (** [Acquire] and [lockPath] return nil *)
  | LCancel (i : nat)                (** the context is done: [Acquire] and [lockPath] fail *)
  | UCall (i : nat)                  (** a call of [unlockPath] *)
  | UEnter (i : nat).                (** [contentLock.Lock()] returns, [unlockPath] runs *)

Definition locks_init (n : nat) : Locks := mkLocks None ∅ [] (replicate n Outside) false.

(** [contentMap[path]], created when it is missing. *)
Definition lookup_sem (path : string) (cm : gmap string nat) (ss : list bool)
    : nat * gmap string nat * list bool :=
  match cm !! path with
  | Some s => (s, cm, ss)
  | None => (length ss, <[path := length ss]> cm, ss ++ [false])
  end.

Definition lock_step (w : Locks) (ev : lock_event) : option Locks :=
  match w with
  | mkLocks cl cm ss ts pk =>
      match ev with
      | LCall i path =>
          match ts !! i with
          | Some Outside => Some (mkLocks cl cm ss (<[i := Locking path]> ts) pk)
          | _ => None
          end
      | LEnter i =>
          match ts !! i, cl with
          | Some (Locking path), None =>
              let '(s, cm, ss) := lookup_sem path cm ss in
              Some (mkLocks (Some i) cm ss (<[i := Acquiring path s]> ts) pk)
          | _, _ => None
          end
      | LAcquire i =>
          match ts !! i with
          | Some (Acquiring path s) =>
              match ss !! s with
              | Some false => Some (mkLocks None cm (<[s := true]> ss) (<[i := Holding path]> ts) pk)
              | _ => None
              end
          | _ => None
          end
      | LCancel i =>
          match ts !! i with
          | Some (Acquiring path s) => Some (mkLocks None cm ss (<[i := Outside]> ts) pk)
          | _ => None
          end
      | UCall i =>
          match ts !! i with
          | Some (Holding path) => Some (mkLocks cl cm ss (<[i := Unlocking path]> ts) pk)
          | _ => None
          end
      | UEnter i =>
          match ts !! i, cl with
          | Some (Unlocking path), None =>
              match cm !! path with
              | Some s =>
                  Some (mkLocks None (delete path cm) (<[s := false]> ss) (<[i := Outside]> ts)
                          (pk || negb (default false (ss !! s))))
              | None => Some (mkLocks None cm ss (<[i := Outside]> ts) pk)
              end
          | _, _ => None
          end
      end
  end.

Fixpoint lock_run (w : Locks) (evs : list lock_event) : option Locks :=
  match evs with
  | [] => Some w
  | ev :: evs => match lock_step w ev with Some w => lock_run w evs | None => None end
  end.

(** Thread [i] is between the return of [lockPath] and the work of [unlockPath]. *)
Definition holds (w : Locks) (i : nat) (path : string) : Prop :=
  threads w !! i = Some (Holding path) ∨ threads w !! i = Some (Unlocking path).

(** ** Invariant *)
Record lock_inv (w : Locks) : Prop := {
  li_mutex i path s : threads w !! i = Some (Acquiring path s) → contentLock w = Some i;
  li_hold i path : holds w i path → ∃ s, contentMap w !! path = Some s ∧ sems w !! s = Some true;
  li_acquiring i path s : threads w !! i = Some (Acquiring path s) → contentMap w !! path = Some s;
  li_excl i j path : holds w i path → holds w j path → i = j;
  li_sem path s : contentMap w !! path = Some s → (s < length (sems w))%nat;
  li_inj p q s : contentMap w !! p = Some s → contentMap w !! q = Some s → p = q;
  li_panic : panicked w = false;
}.

(** What a thread other than [i] is doing is not changed by a step of [i]. *)
Lemma lookup_other (ts : list tpc) i j x y :
  <[i := x]> ts !! j = Some y → x ≠ y → ts !! j = Some y.
Proof.
  intros H Hne. destruct (decide (i = j)) as [->|Hij].
  - apply list_lookup_insert_Some in H as [(_ & -> & _)|[? _]]; done.
  - by rewrite list_lookup_insert_ne in H.
Qed.

Lemma holds_other w i x j path cl cm ss pk :
  holds (mkLocks cl cm ss (<[i := x]> (threads w)) pk) j path →
  (∀ p, x ≠ Holding p ∧ x ≠ Unlocking p) → holds w j path.
Proof.
  intros H Hx. destruct (Hx path). unfold holds in *. simpl in H.
  destruct H as [H|H]; apply lookup_other in H; auto.
Qed.

Lemma lock_inv_init n : lock_inv (locks_init n).
Proof.
  assert (Ht : ∀ i x, replicate n Outside !! i = Some x → x = Outside)
    by by intros i x [-> _]%lookup_replicate.
  split; unfold holds; simpl; try done;
    repeat intros ?; repeat match goal with
    | H : _ ∨ _ |- _ => destruct H
    | H : replicate _ _ !! _ = Some _ |- _ => apply Ht in H
    end; done.
Qed.

(** Steps that leave the semaphores alone and make no thread hold or acquire. *)
Lemma lock_inv_thread w i x cl :
  lock_inv w → (∀ p s, x ≠ Acquiring p s) → (∀ p, x ≠ Holding p) →
  (∀ p, x = Unlocking p → threads w !! i = Some (Holding p)) →
  (cl = contentLock w ∨ contentLock w = Some i) → i < length (threads w) →
  lock_inv (mkLocks cl (contentMap w) (sems w) (<[i := x]> (threads w)) (panicked w)).
Proof.
  intros Hw Ha Hh Hu Hcl Hi.
  assert (Hold : ∀ j p, holds (mkLocks cl (contentMap w) (sems w) (<[i := x]> (threads w)) (panicked w)) j p →
                        holds w j p).
  { intros j p H. destruct (decide (i = j)) as [<-|Hij]; unfold holds in *; simpl in H.
    - rewrite list_lookup_insert_eq in H by done.
      destruct H as [[= H]|[= H]]; [by destruct (Hh p)|]. left. by apply Hu.
    - by rewrite list_lookup_insert_ne in H. }
  assert (Hacq : ∀ j p s, <[i := x]> (threads w) !! j = Some (Acquiring p s) →
                          j ≠ i ∧ threads w !! j = Some (Acquiring p s)).
  { intros j p s H. split; [|by apply lookup_other in H].
    intros ->. rewrite list_lookup_insert_eq in H by done. injection H as H. by destruct (Ha p s). }
  split; simpl; try apply Hw.
  - intros j p s [Hj H]%Hacq. pose proof (li_mutex _ Hw _ _ _ H) as Hm.
    destruct Hcl as [->|Hc]; [done|congruence].
  - intros j p H%Hold. by apply (li_hold _ Hw j).
  - intros j p s [_ H]%Hacq. by apply (li_acquiring _ Hw j).
  - intros j k p H1%Hold H2%Hold. by apply (li_excl _ Hw j k p).
Qed.

Lemma enter_inv w i w' : lock_inv w → lock_step w (LEnter i) = Some w' → lock_inv w'.
Proof.
  destruct w as [cl cm ss ts pk]. intros Hw; simpl.
  destruct (ts !! i) as [[|p| | |]|] eqn:Ei, cl as [|]; try done.
  assert (Hi : i < length ts) by by eapply lookup_lt_Some.
  assert (Hna : ∀ j q t, ts !! j = Some (Acquiring q t) → False)
    by by intros j q t H%(li_mutex _ Hw).
  assert (Hold : ∀ j q cm' ss' t, holds (mkLocks (Some i) cm' ss' (<[i := Acquiring p t]> ts) pk) j q →
                        holds (mkLocks None cm ss ts pk) j q).
  { intros j q cm' ss' t H. by eapply (holds_other (mkLocks None cm ss ts pk)) in H. }
  assert (Hacq : ∀ j q s t, <[i := Acquiring p s]> ts !! j = Some (Acquiring q t) →
                          j = i ∧ q = p ∧ t = s).
  { intros j q s t H. apply list_lookup_insert_Some in H as [(-> & [= -> ->] & _)|[_ H]]; [done|].
    by apply Hna in H. }
  unfold lookup_sem. destruct (cm !! p) as [s|] eqn:Ep; intros [= <-]; split; simpl; try apply Hw.
  - by intros j q t (-> & _)%Hacq.
  - intros j q H%Hold. by apply (li_hold _ Hw j).
  - by intros j q t (_ & -> & ->)%Hacq.
  - intros j k q H1%Hold H2%Hold. by apply (li_excl _ Hw j k q).
  - by intros j q t (-> & _)%Hacq.
  - intros j q H%Hold. destruct (li_hold _ Hw j q H) as (s & H1 & H2). simpl in *. exists s.
    rewrite lookup_insert_ne by congruence. split; [done|]. by apply lookup_app_l_Some.
  - intros j q t (_ & -> & ->)%Hacq. by rewrite lookup_insert_eq.
  - intros j k q H1%Hold H2%Hold. by apply (li_excl _ Hw j k q).
  - intros q s [[_ <-]|[_ H]]%lookup_insert_Some; rewrite length_app; simpl; [lia|].
    apply (li_sem _ Hw) in H. simpl in H. lia.
  - intros q r s [[<- <-]|[Hq H1]]%lookup_insert_Some [[<- E]|[Hr H2]]%lookup_insert_Some; try done.
    + apply (li_sem _ Hw) in H2. simpl in H2. lia.
    + apply (li_sem _ Hw) in H1. simpl in H1. subst. lia.
    + by apply (li_inj _ Hw q r s).
Qed.

Lemma acquire_inv w i w' : lock_inv w → lock_step w (LAcquire i) = Some w' → lock_inv w'.
Proof.
  destruct w as [cl cm ss ts pk]. intros Hw; simpl.
  destruct (ts !! i) as [[| |p s| |]|] eqn:Ei; try done.
  destruct (ss !! s) as [[]|] eqn:Es; try done. intros [= <-].
  assert (Hi : i < length ts) by by eapply lookup_lt_Some.
  pose proof (li_acquiring _ Hw _ _ _ Ei) as Hp. simpl in Hp.
  assert (Hold : ∀ j q, holds (mkLocks None cm (<[s := true]> ss) (<[i := Holding p]> ts) pk) j q →
                        (j = i ∧ q = p) ∨ (j ≠ i ∧ q ≠ p ∧ holds (mkLocks cl cm ss ts pk) j q)).
  { intros j q H. destruct (decide (j = i)) as [->|Hj]; unfold holds in H; simpl in H.
    - rewrite list_lookup_insert_eq in H by done. left. by destruct H as [[= ->]|[=]].
    - rewrite list_lookup_insert_ne in H by done. right. split_and!; [done| |done].
      intros ->. destruct (li_hold _ Hw j p H) as (t & H1 & H2). simpl in *. congruence. }
  assert (Hacq : ∀ j q t, <[i := Holding p]> ts !! j = Some (Acquiring q t) → False).
  { intros j q t H. destruct (decide (j = i)) as [->|Hj].
    - by rewrite list_lookup_insert_eq in H.
    - rewrite list_lookup_insert_ne in H by done.
      pose proof (li_mutex _ Hw _ _ _ H). pose proof (li_mutex _ Hw _ _ _ Ei). congruence. }
  split; simpl; try apply Hw.
  - by intros j q t H%Hacq.
  - intros j q [[-> ->]|(_ & Hq & H)]%Hold.
    + exists s. split; [done|]. apply list_lookup_insert_eq. by eapply lookup_lt_Some.
    + destruct (li_hold _ Hw j q H) as (t & H1 & H2). exists t. split; [done|].
      simpl in *. rewrite list_lookup_insert_ne; [done|]. intros ->. congruence.
  - by intros j q t H%Hacq.
  - intros j k q [[-> ->]|(_ & ? & H1)]%Hold [[-> ?]|(_ & ? & H2)]%Hold; try done.
    by apply (li_excl _ Hw j k q).
  - intros q t H. rewrite length_insert. by apply (li_sem _ Hw q).
Qed.

Lemma unlock_inv w i w' : lock_inv w → lock_step w (UEnter i) = Some w' → lock_inv w'.
Proof.
  destruct w as [cl cm ss ts pk]. intros Hw; simpl.
  destruct (ts !! i) as [[| | | |p]|] eqn:Ei, cl as [|]; try done.
  assert (Hi : i < length ts) by by eapply lookup_lt_Some.
  assert (Hip : holds (mkLocks None cm ss ts pk) i p) by by right.
  destruct (li_hold _ Hw i p Hip) as (s & Hp & Hs). simpl in *. rewrite Hp, Hs.
  intros [= <-].
  assert (Hold : ∀ j q cm' ss' pk', holds (mkLocks None cm' ss' (<[i := Outside]> ts) pk') j q →
                        q ≠ p ∧ holds (mkLocks None cm ss ts pk) j q).
  { intros j q cm' ss' pk' H.
    assert (H' : holds (mkLocks None cm ss ts pk) j q)
      by by eapply (holds_other (mkLocks None cm ss ts pk)) in H.
    split; [|done]. intros ->. assert (j = i) as -> by by apply (li_excl _ Hw j i p).
    unfold holds in H. simpl in H. rewrite list_lookup_insert_eq in H by done. by destruct H. }
  assert (Hacq : ∀ j q t, <[i := Outside]> ts !! j = Some (Acquiring q t) → False).
  { intros j q t H. apply lookup_other in H; [|done]. by apply (li_mutex _ Hw) in H. }
  split; simpl; try (by intros j q t H%Hacq).
  - intros j q [Hq H]%Hold. destruct (li_hold _ Hw j q H) as (t & H1 & H2). simpl in *.
    exists t. rewrite lookup_delete_ne by done. split; [done|].
    rewrite list_lookup_insert_ne; [done|]. intros ->. destruct Hq. by apply (li_inj _ Hw q p t).
  - intros j k q [_ H1]%Hold [_ H2]%Hold. by apply (li_excl _ Hw j k q).
  - intros q t [_ H]%lookup_delete_Some. rewrite length_insert. by apply (li_sem _ Hw q).
  - intros q r t [_ H1]%lookup_delete_Some [_ H2]%lookup_delete_Some. by apply (li_inj _ Hw q r t).
  - pose proof (li_panic _ Hw) as Hpk. simpl in Hpk. by rewrite Hpk.
Qed.

Lemma lock_step_inv w ev w' : lock_inv w → lock_step w ev = Some w' → lock_inv w'.
Proof.
  intros Hw. destruct ev as [i path|i|i|i|i|i].
  - destruct w as [cl cm ss ts pk]; simpl. destruct (ts !! i) as [[]|] eqn:Ei; try done.
    intros [= <-]. apply (lock_inv_thread _ i (Locking path) cl) in Hw; simpl; auto; try done.
    by eapply lookup_lt_Some.
  - by apply enter_inv.
  - by apply acquire_inv.
  - destruct w as [cl cm ss ts pk]; simpl. destruct (ts !! i) as [[]|] eqn:Ei; try done.
    intros [= <-]. pose proof (li_mutex _ Hw _ _ _ Ei) as Hm.
    apply (lock_inv_thread _ i Outside None) in Hw; simpl; auto; try done.
    by eapply lookup_lt_Some.
  - destruct w as [cl cm ss ts pk]; simpl. destruct (ts !! i) as [[| | |path|]|] eqn:Ei; try done.
    intros [= <-]. apply (lock_inv_thread _ i (Unlocking path) cl) in Hw; simpl; auto; try done.
    + by intros p [= <-].
    + by eapply lookup_lt_Some.
  - by apply unlock_inv.
Qed.

Lemma lock_run_inv w evs w' : lock_inv w → lock_run w evs = Some w' → lock_inv w'.
Proof.
  revert w. induction evs as [|ev evs IH]; intros w Hw; simpl; [by intros [= <-]|].
  destruct (lock_step w ev) as [w1|] eqn:E; [|done]. apply IH. by eapply lock_step_inv.
Qed.

(** ** Mutual exclusion and deadlock *)

(** In every interleaving of calls, at most one caller holds a path at any
    time, and no semaphore is ever released that is not acquired, which would
    panic. *)
Theorem path_lock_exclusive n evs w i j path :
  lock_run (locks_init n) evs = Some w → holds w i path → holds w j path →
  i = j ∧ panicked w = false.
Proof.
  intros Hr Hi Hj. apply lock_run_inv in Hr; [|apply lock_inv_init].
  split; [by apply (li_excl _ Hr i j path)|apply Hr].
Qed.

(** The configuration in which a holder and a waiter of one path meet. *)
Definition stuck_on (w : Locks) (i j : nat) (path : string) (s : nat) : Prop :=
  holds w i path ∧ threads w !! j = Some (Acquiring path s).

Lemma stuck_step w i j path s ev w' :
  lock_inv w → stuck_on w i j path s → ev ≠ LCancel j → lock_step w ev = Some w' →
  stuck_on w' i j path s ∧ ((∃ k p, ev = LCall k p) ∨ (∃ k, ev = UCall k)).
Proof.
  intros Hw [Hi Hj] Hev. pose proof (li_mutex _ Hw _ _ _ Hj) as Hm.
  pose proof (li_acquiring _ Hw _ _ _ Hj) as Hp.
  destruct (li_hold _ Hw i path Hi) as (t & Hp' & Hs).
  destruct w as [cl cm ss ts pk]; unfold stuck_on, holds in *; simpl in *. subst cl.
  destruct ev as [k p|k|k|k|k|k]; simpl; destruct (ts !! k) as [x|] eqn:Ek; try done;
    destruct x as [|q|q u|q|q]; try done.
  - intros [= <-]. simpl. split; [|left; eauto].
    by rewrite !list_lookup_insert_ne by (intros ->; intuition congruence).
  - pose proof (li_mutex _ Hw _ _ _ Ek) as Hk. simpl in Hk.
    injection Hk as ->. rewrite Ek in Hj. injection Hj as -> ->.
    assert (t = s) as -> by congruence. by rewrite Hs.
  - pose proof (li_mutex _ Hw _ _ _ Ek) as Hk. simpl in Hk. congruence.
  - intros [= <-]. simpl. split; [|right; eauto].
    rewrite (list_lookup_insert_ne ts k j) by (intros ->; congruence).
    destruct (decide (k = i)) as [->|Hki]; [|by rewrite list_lookup_insert_ne].
    rewrite list_lookup_insert_eq by (by eapply lookup_lt_Some).
    split; [|done]. right. destruct Hi; congruence.
Qed.

(** [lockPath] waits for the semaphore of a path while it holds
    [contentLock], which [unlockPath] needs to release it. So once a second
    caller waits for a path that is held, nothing moves until the waiter's
    context is cancelled: the holder's [unlockPath] does not return, and no other
    call of [lockPath] or [unlockPath] on any path gets past its first line. *)
Theorem path_lock_deadlock n evs0 w i j path s evs w' :
  lock_run (locks_init n) evs0 = Some w → stuck_on w i j path s →
  LCancel j ∉ evs → lock_run w evs = Some w' →
  stuck_on w' i j path s ∧
  Forall (λ ev, (∃ k p, ev = LCall k p) ∨ (∃ k, ev = UCall k)) evs.
Proof.
  intros Hr. apply lock_run_inv in Hr; [|apply lock_inv_init]. revert w Hr.
  induction evs as [|ev evs IH]; intros w Hw Hs Hev; simpl; [by intros [= <-]|].
  apply not_elem_of_cons in Hev as [Hne Hev].
  destruct (lock_step w ev) as [w1|] eqn:E; [|done].
  destruct (stuck_step w i j path s ev w1) as [Hs1 He]; [done..| |done|]; [congruence|].
  intros Hr. destruct (IH w1) as [? ?]; [by eapply lock_step_inv|done..|].
  split; [done|]. by constructor.
Qed.

Definition demo_locks : list lock_event :=
  [LCall 0 "/b/x"; LEnter 0; LAcquire 0; LCall 1 "/b/x"; LEnter 1].
Definition demo_locked : Locks :=
  mkLocks (Some 1) {["/b/x" := 0]} [true] [Holding "/b/x"; Acquiring "/b/x" 0; Outside] false.

Lemma path_lock_exclusive_witness : 0 = 0 ∧ panicked demo_locked = false.
Proof.
  apply (path_lock_exclusive 3 demo_locks demo_locked 0 0 "/b/x").
  - by vm_compute.
  - by left.
  - by left.
Defined.

Lemma path_lock_deadlock_witness :
  ∃ w', stuck_on w' 0 1 "/b/x" 0 ∧
  Forall (λ ev, (∃ k p, ev = LCall k p) ∨ (∃ k, ev = UCall k)) [UCall 0; LCall 2 "/c/y"].
Proof.
  eexists. apply (path_lock_deadlock 3 demo_locks demo_locked 0 1 "/b/x" 0 [UCall 0; LCall 2 "/c/y"]).
  - by vm_compute.
  - split; [by left|done].
  - by intros [[=]|[[=]|[]%elem_of_nil]%elem_of_cons]%elem_of_cons.
  - by vm_compute.
Defined.
