(* ===== verification/ZcnMultipart.v ===== *)
(** * Multipart uploads: the handlers (cmd/gateway/zcn/multipart.go)

    The parts of an upload wait as files in a directory of the local disk,
    [part<n>] with the bytes and [part<n>.etag] with the hash; [FileMap] holds
    what is known of the upload in memory. A directory is modelled by the files
    with those two name patterns, by part number; disk errors other than a missing
    directory are not modelled. The goroutines that feed the parts to the SDK are
    ZcnPipeline. *)

From Stdlib Require Import ZArith Lia Bool Ascii.
From S2P Require Import Prelude GoStrings GoPath GoHeap SeqPQ ZcnErrors ZcnPath ZcnTypes ZcnAlloc ZcnRefs ZcnStore.

Local Open Scope go_scope.

(** ** The size of the object being uploaded *)
Record SizeState := mkSize {
  fileSize : Z;
  lastPartSize : Z;
  lastPartID : Z;
  lastPartUpdated : bool;
}.
Definition noSize : SizeState := mkSize 0 0 0 false.

Definition UpdateFileSize (partID size : Z) (m : SizeState) : SizeState :=
  if lastPartUpdated m then m
  else if (lastPartSize m =? 0)%Z then
    mkSize (wrap64 (fileSize m + size)) size partID false
  else if (lastPartSize m <? size)%Z then
    mkSize (wrap64 (wrap64 ((lastPartID m - 1) * size) + lastPartSize m)) size (lastPartID m) false
  else if (size =? lastPartSize m)%Z then
    mkSize (wrap64 (fileSize m + size)) (lastPartSize m) (lastPartID m) false
  else
    mkSize (wrap64 (wrap64 ((partID - 1) * lastPartSize m) + size)) (lastPartSize m) (lastPartID m) true.

(** ** State *)
Record UploadDir := mkDir { part_files : gmap Z string; etag_files : gmap Z string }.
Definition noFiles : UploadDir := mkDir ∅ ∅.

(** [errorC] is the channel of capacity one with the result of the upload. *)
Record MultiPartFile := mkMPF {
  mf_sizes : SizeState;
  mf_seqPQ : SeqPriorityQueue.t;
  mf_cancelC_closed : bool;
  mf_errorC : option (option error);
}.
Definition newMPF : MultiPartFile := mkMPF noSize SeqPriorityQueue.New false None.

Record MP := mkMP { mp_dirs : gmap string UploadDir; FileMap : gmap string MultiPartFile }.

Definition localStorageDir : string := "store".
Definition uploadDir (bucket uploadID object : string) : string :=
  Join [localStorageDir; bucket; uploadID; object].

Record PartInfo := mkPartInfo {
  pi_PartNumber : Z; pi_ETag : string; pi_Size : Z; pi_ActualSize : Z
}.

(** ** Handlers *)
Definition not_found (uploadID : string) : error := ErrorString ("uploadID: " +:+ uploadID +:+ " not found").

(** [data] are the bytes of the request body, [eTag] its [MD5CurrentHexString()].
    The part file is created before the upload is looked up. *)
Definition PutObjectPart (bucket object uploadID : string) (partID : Z) (data eTag : string)
    : M MP error PartInfo :=
  λ s,
    let dir := uploadDir bucket uploadID object in
    match mp_dirs s !! dir with
    | None => (Err (ErrorString "error creating part file"), s)
    | Some d =>
        match FileMap s !! uploadID with
        | None =>
            (Err (not_found uploadID),
             mkMP (<[dir := mkDir (<[partID := ""]> (part_files d)) (etag_files d)]> (mp_dirs s)) (FileMap s))
        | Some mpf =>
            let size := Z.of_nat (String.length data) in
            let d := mkDir (<[partID := data]> (part_files d)) (<[partID := eTag]> (etag_files d)) in
            let mpf := mkMPF (UpdateFileSize partID size (mf_sizes mpf))
                         (SeqPriorityQueue.Push partID (mf_seqPQ mpf))
                         (mf_cancelC_closed mpf) (mf_errorC mpf) in
            (Ok (mkPartInfo partID eTag size size),
             mkMP (<[dir := d]> (mp_dirs s)) (<[uploadID := mpf]> (FileMap s)))
        end
    end.

(** The loop of [constructCompleteObject]; one unit of fuel per part. *)
Fixpoint partETags (fuel : nat) (partNumber : Z) (etags : gmap Z string) : outcome error (list string) :=
  match fuel with
  | 0 => Panic "out of fuel"
  | S fuel =>
      match etags !! partNumber with
      | None => Ok []
      | Some e => obind (partETags fuel (partNumber + 1)%Z etags) (λ l, Ok (e :: l))
      end
  end.

Definition constructCompleteObject (d : UploadDir) : outcome error string :=
  obind (partETags (S (size (etag_files d))) 1 (etag_files d)) (λ l, Ok (str_join "" l)).

(** [os.RemoveAll] of the upload's directory and everything below it. *)
Definition cleanupPartFilesAndDirs (bucket uploadID : string) (s : MP) : MP :=
  mkMP (filter (λ kd, underb (Join [localStorageDir; bucket; uploadID]) kd.1 = false) (mp_dirs s))
    (FileMap s).

(** [uploadedParts], the parts the client lists, is not used by the code. *)
Definition CompleteMultipartUpload `{!ZErrorPkg} (now : Z) (bucket object uploadID : string)
    : M MP error ObjectInfo :=
  λ s,
    match FileMap s !! uploadID with
    | None => (Err (not_found uploadID), s)
    | Some mpf =>
        let pq := SeqPriorityQueue.Done (mf_seqPQ mpf) in
        let put x := mkMP (mp_dirs s)
          (<[uploadID := mkMPF (mf_sizes mpf) pq (mf_cancelC_closed mpf) x]> (FileMap s)) in
        match mf_errorC mpf with
        | None => (Panic "blocked on errorC", put None)
        | Some err =>
            let s := put None in
            if match err with None => false | Some _ => negb (isSameRootError err) end
            then (Err (ErrorString "error uploading to Zus storage"), s)
            else
              match constructCompleteObject
                      (default noFiles (mp_dirs s !! uploadDir bucket uploadID object)) with
              | Err e => (Err e, s)
              | Panic w => (Panic w, s)
              | Ok eTag =>
                  (Ok (mkObjectInfo bucket object now (fileSize (mf_sizes mpf)) false eTag "" "" ∅ 0),
                   cleanupPartFilesAndDirs bucket uploadID s)
              end
        end
    end.

Definition AbortMultipartUpload (bucket object uploadID : string) : M MP error () :=
  λ s,
    match FileMap s !! uploadID with
    | None => (Err (ErrorString ("abort - uploadID: " +:+ uploadID +:+ " not found")), s)
    | Some mpf =>
        if mf_cancelC_closed mpf then (Panic "close of closed channel", s)
        else
          (Ok (), cleanupPartFilesAndDirs bucket uploadID
                    (mkMP (mp_dirs s)
                       (<[uploadID := mkMPF (mf_sizes mpf) (mf_seqPQ mpf) true (mf_errorC mpf)]>
                          (FileMap s))))
    end.

(** The loop of [ListObjectParts] from part [i], [n] numbers left to try. The
    size it reports is the size of the etag file. *)
Fixpoint listParts (n : nat) (i : Z) (etags : gmap Z string) : list PartInfo :=
  match n with
  | 0 => []
  | S n =>
      match etags !! i with
      | None => []
      | Some e =>
          let size := Z.of_nat (String.length e) in
          mkPartInfo i (hex_encode e) size size :: listParts n (i + 1)%Z etags
      end
  end.

Definition ListObjectParts (bucket object uploadID : string) (partNumberMarker maxParts : Z)
    : M MP error (list PartInfo) :=
  λ s,
    match mp_dirs s !! uploadDir bucket uploadID object with
    | None => (Err (ErrorString "Unable to list object parts"), s)
    | Some d =>
        (Ok (listParts (Z.to_nat (maxParts - partNumberMarker + 1)) partNumberMarker (etag_files d)), s)
    end.

(** The bucket, the object and the upload id, as given. *)
Definition GetMultipartInfo (bucket object uploadID : string) : string * string * string :=
  (bucket, object, uploadID).

(** [multiPartFile.errorC <- uploadErr], at the end of the SDK's operation; a
    failed upload removes the local files first. *)
Definition uploadFinished (bucket uploadID : string) (uploadErr : option error) (s : MP) : MP :=
  let s := match uploadErr with
           | Some _ => cleanupPartFilesAndDirs bucket uploadID s
           | None => s
           end in
  match FileMap s !! uploadID with
  | None => s
  | Some mpf =>
      mkMP (mp_dirs s)
        (<[uploadID := mkMPF (mf_sizes mpf) (mf_seqPQ mpf) (mf_cancelC_closed mpf) (Some uploadErr)]>
           (FileMap s))
  end.

(** ** Starting an upload *)
Definition hasStringSuffixInSlice (str : string) (list : list string) : bool :=
  let str := ToLower str in existsb (λ v, HasSuffix str (ToLower v)) list.

Definition hasPattern `{!Wildcard} (patterns : list string) (matchStr : string) : bool :=
  existsb (λ pattern, MatchSimple pattern matchStr) patterns.

Section start.
Context {St : Type} `{!Allocation St, !Json, !Wildcard}.
Context (TypeByExt : string → string).
Context (encrypt compress : bool) (excludeExtensions excludeTypes : list string).

(** The content type and whether to compress. *)
Definition uploadContentType (object : string) (userDefined : StringMap) : string * bool :=
  let contentType := default "" (userDefined !! "content-type") in
  let contentType := if String.eqb contentType "" then TypeByExt (Ext object) else contentType in
  if compress && negb (hasStringSuffixInSlice object excludeExtensions)
     && negb (hasPattern excludeTypes contentType)
  then ("application/x-lz4", true) else (contentType, false).

(** The request the second goroutine gives to the SDK. *)
Definition multipartRequest (remotePath contentType : string) (userDefined : StringMap)
    (isUpdate : bool) : OperationRequest :=
  mkOp (if isUpdate then FileOperationUpdate else FileOperationInsert) remotePath ""
    (mkFileMeta remotePath (Base remotePath) 0 contentType
       (if (size userDefined =? 0)%nat then "" else json_Marshal userDefined))
    None true (Some 80%Z) (Some encrypt).

(** The new upload and the request that will consume it. [uploadID] is the fresh
    UUID. *)
Definition NewMultipartUpload (uploadID bucket object : string) (userDefined : StringMap)
    : M (St * MP) error (string * OperationRequest) :=
  λ '(st, s),
    let '(contentType, toCompress) := uploadContentType object userDefined in
    let remotePath := objectRemotePath bucket object in
    match getSingleRegularRef remotePath st with
    | (Panic w, st) => (Panic w, (st, s))
    | (r, st) =>
        let start isUpdate :=
          (Ok (uploadID, multipartRequest remotePath contentType userDefined isUpdate),
           (st, mkMP (<[uploadDir bucket uploadID object := noFiles]> (mp_dirs s))
                  (<[uploadID := newMPF]> (FileMap s)))) in
        match r with
        | Ok _ => start true
        | Err err => if isPathNoExistError (Some err) then start false else (Err err, (st, s))
        | Panic w => (Panic w, (st, s))
        end
    end.
End start.

(** ** The size *)

(** The sizes of the parts of an object: all parts but the last have size [s],
    the last one has size [l]. *)
Definition part_size (n s l i : Z) : Z := if (i =? n)%Z then l else s.

(** [UpdateFileSize] for the parts in the order they arrive. *)
Definition sizes_after (n s l : Z) (order : list Z) (m : SizeState) : SizeState :=
  foldl (λ m i, UpdateFileSize i (part_size n s l i) m) m order.

Lemma sizes_after_cons n s l i order m :
  sizes_after n s l (i :: order) m = sizes_after n s l order (UpdateFileSize i (part_size n s l i) m).
Proof. done. Qed.

Lemma sizes_after_app n s l a b m :
  sizes_after n s l (a ++ b) m = sizes_after n s l b (sizes_after n s l a m).
Proof. apply foldl_app. Qed.

Lemma part_size_full n s l i : i ≠ n → part_size n s l i = s.
Proof. intros H. unfold part_size. by rewrite (proj2 (Z.eqb_neq i n) H). Qed.
Lemma part_size_last n s l : part_size n s l n = l.
Proof. unfold part_size. by rewrite Z.eqb_refl. Qed.

Ltac size_step :=
  unfold UpdateFileSize; cbn [lastPartUpdated lastPartSize fileSize lastPartID noSize];
  repeat match goal with
  | |- context [(?a =? ?b)%Z] => destruct (Z.eqb_spec a b); try lia
  | |- context [(?a <? ?b)%Z] => destruct (Z.ltb_spec a b); try lia
  end.

Lemma first_part i size :
  (0 < size ≤ max_int64)%Z → UpdateFileSize i size noSize = mkSize size size i false.
Proof. intros H. size_step. by int64. Qed.

Lemma equal_part i s f id :
  (0 < s)%Z → UpdateFileSize i s (mkSize f s id false) = mkSize (wrap64 (f + s)) s id false.
Proof. intros H. by size_step. Qed.

Lemma longer_part i s l id f :
  (0 < l < s)%Z →
  UpdateFileSize i s (mkSize f l id false) =
  mkSize (wrap64 (wrap64 ((id - 1) * s) + l)) s id false.
Proof. intros H. by size_step. Qed.

Lemma shorter_part i s l id f :
  (0 < l < s)%Z →
  UpdateFileSize i l (mkSize f s id false) =
  mkSize (wrap64 (wrap64 ((i - 1) * s) + l)) s id true.
Proof. intros H. by size_step. Qed.

Lemma full_parts n s l ids f id :
  (0 < s)%Z → Forall (λ i, part_size n s l i = s) ids → (0 ≤ f)%Z →
  (f + Z.of_nat (length ids) * s ≤ max_int64)%Z →
  sizes_after n s l ids (mkSize f s id false) = mkSize (f + Z.of_nat (length ids) * s) s id false.
Proof.
  intros Hs Hids. revert f. induction Hids as [|i ids Hi _ IH]; intros f Hf Hmax.
  { simpl. f_equal. lia. }
  cbn [length] in *. rewrite sizes_after_cons, Hi, equal_part by done.
  rewrite wrap64_small by (unfold in_int64, min_int64, max_int64 in *; nia).
  rewrite IH by (done || lia). f_equal. lia.
Qed.

Lemma parts_not_last n s l ids : n ∉ ids → Forall (λ i, part_size n s l i = s) ids.
Proof.
  intros Hn. apply Forall_forall. intros i Hi. apply part_size_full. by intros ->.
Qed.

Lemma sizes_updated n s l order m : lastPartUpdated m = true → sizes_after n s l order m = m.
Proof.
  intros Hm. induction order as [|i order IH]; [done|]. rewrite sizes_after_cons.
  unfold UpdateFileSize. by rewrite Hm.
Qed.

(** Starting with a part of full size. *)
Lemma sizes_full_first n s l i order :
  (0 < s)%Z → part_size n s l i = s → Forall (λ i, part_size n s l i = s) order →
  (Z.of_nat (S (length order)) * s ≤ max_int64)%Z →
  sizes_after n s l (i :: order) noSize = mkSize (Z.of_nat (S (length order)) * s) s i false.
Proof.
  intros Hs Hi Ho Hmax. rewrite sizes_after_cons, Hi, first_part by nia.
  rewrite full_parts by (done || lia). f_equal. lia.
Qed.

(** ** Properties of the size *)
Section size.
Context (n s l : Z) (order : list Z).
Hypothesis (Hn : (1 ≤ n)%Z) (Hl : (0 < l ≤ s)%Z) (Hmax : (n * s ≤ max_int64)%Z).
Hypothesis (Horder : order ≡ₚ SeqPriorityQueue.zseq 1 (Z.to_nat n)).

Lemma order_length : Z.of_nat (length order) = n.
Proof. rewrite Horder, SeqPriorityQueue.length_zseq. lia. Qed.

Lemma order_split : ∃ pre post, order = pre ++ n :: post ∧ (n ∉ pre) ∧ (n ∉ post).
Proof.
  assert (Hin : n ∈ order) by (rewrite Horder; apply SeqPriorityQueue.elem_of_zseq; lia).
  assert (Hnd : NoDup order) by (rewrite Horder; apply SeqPriorityQueue.NoDup_zseq).
  apply list_elem_of_split in Hin as (pre & post & ->). exists pre, post.
  apply NoDup_app in Hnd as (_ & Hd & Hp). apply NoDup_cons in Hp as [Hp _].
  split_and!; [done| |done]. intros Hi. apply (Hd n Hi). by left.
Qed.

Lemma size_equal_parts : l = s → fileSize (sizes_after n s l order noSize) = (n * s)%Z.
Proof.
  intros ->. pose proof order_length as Hlen. destruct order as [|i o]; [simpl in Hlen; lia|].
  assert (Hp : ∀ j, part_size n s s j = s) by (intros j; unfold part_size; by case_match).
  rewrite sizes_full_first; try done; try lia.
  - cbn [fileSize length] in *. by rewrite Hlen.
  - by apply Forall_forall.
  - cbn [length] in *. by rewrite Hlen.
Qed.

Lemma size_full_first i o : order = i :: o → i ≠ n → (l < s)%Z →
  fileSize (sizes_after n s l order noSize) = ((n - 1) * s + l)%Z.
Proof.
  intros Ho Hi Hls. pose proof order_length as Hlen.
  destruct order_split as (pre & post & -> & Hpre & Hpost).
  destruct pre as [|j pre]; [by injection Ho as <- _|]. injection Ho as -> _.
  rewrite length_app in Hlen. cbn [length] in Hlen.
  apply not_elem_of_cons in Hpre as [_ Hpre].
  rewrite sizes_after_app, sizes_full_first, sizes_after_cons, part_size_last, shorter_part, sizes_updated;
    try done; try lia.
  - cbn [fileSize]. unfold max_int64 in *.
    rewrite (wrap64_small ((n - 1) * s)), wrap64_small; [done|..];
      unfold in_int64, min_int64, max_int64; nia.
  - by apply part_size_full.
  - by apply parts_not_last.
  - unfold max_int64 in *. nia.
Qed.

Lemma size_last_first o : order = n :: o → (l < s)%Z → (2 ≤ n)%Z →
  (n * s + n * s ≤ max_int64)%Z →
  fileSize (sizes_after n s l order noSize) = ((n - 1) * s + l + (n - 2) * s)%Z.
Proof.
  intros Ho Hls Hn2 Hmax2. pose proof order_length as Hlen.
  destruct order_split as (pre & post & E & Hpre & Hpost).
  destruct pre as [|j pre]; [|rewrite E in Ho; injection Ho as -> _; by destruct Hpre; left].
  rewrite E in Hlen |- *. cbn [app length] in *. destruct post as [|i post]; [simpl in *; lia|].
  apply not_elem_of_cons in Hpost as [Hi Hpost]. unfold max_int64 in *.
  rewrite !sizes_after_cons, part_size_last, part_size_full, first_part, longer_part
    by (done || congruence || unfold max_int64; nia).
  assert (Hin : in_int64 ((n - 1) * s) ∧ in_int64 ((n - 1) * s + l))
    by (unfold in_int64, min_int64, max_int64; nia).
  destruct Hin as [Hi1 Hi2]. rewrite (wrap64_small _ Hi1), (wrap64_small _ Hi2).
  cbn [length] in Hlen. rewrite full_parts.
  - cbn [fileSize]. nia.
  - lia.
  - by apply parts_not_last.
  - nia.
  - unfold max_int64. nia.
Qed.
End size.

(** The recorded size is right unless the last, shorter part of three or more is
    the first to arrive. *)
Lemma size_correct n s l order :
  (1 ≤ n)%Z → (0 < l ≤ s)%Z → (n * s + n * s ≤ max_int64)%Z →
  order ≡ₚ SeqPriorityQueue.zseq 1 (Z.to_nat n) →
  head order ≠ Some n ∨ l = s ∨ (n ≤ 2)%Z →
  fileSize (sizes_after n s l order noSize) = ((n - 1) * s + l)%Z.
Proof.
  intros Hn Hl Hmax Hord Hcase. assert (Hmax1 : (n * s ≤ max_int64)%Z) by nia.
  destruct (decide (l = s)) as [->|Hne].
  { rewrite size_equal_parts by done. lia. }
  destruct order as [|i o] eqn:Eo.
  { apply Permutation_length in Hord. rewrite SeqPriorityQueue.length_zseq in Hord. simpl in Hord. lia. }
  destruct (decide (i = n)) as [->|Hi]; [|by eapply size_full_first; try done; lia].
  destruct Hcase as [Hh|[?|Hn2]]; [done..|].
  destruct (decide (n = 2%Z)) as [->|].
  - rewrite (size_last_first 2%Z s l (2%Z :: o) ltac:(lia) Hl ltac:(lia) Hord o) by (done || lia). lia.
  - assert (n = 1%Z) as -> by lia. apply Permutation_length in Hord. destruct o; [|done].
    rewrite sizes_after_cons, part_size_last, first_part by (unfold max_int64 in *; lia). simpl. lia.
Qed.

(** When the last, shorter part of an upload of three or more parts arrives
    first, the recorded size is too large by all full parts but one. *)
Theorem last_part_first_miscounts n s l order :
  (3 ≤ n)%Z → (0 < l < s)%Z → (n * s + n * s ≤ max_int64)%Z →
  order ≡ₚ SeqPriorityQueue.zseq 1 (Z.to_nat n) → head order = Some n →
  fileSize (sizes_after n s l order noSize) = ((n - 1) * s + l + (n - 2) * s)%Z.
Proof.
  intros Hn Hl Hmax Hord Hh. destruct order as [|i o]; [done|]. injection Hh as ->.
  eapply (size_last_first n s l (n :: o)); try done; nia.
Qed.

(** ** The parts of one upload *)

(** The loop of [constructCompleteObject] ends within one round per etag file
    and collects the files 1, 2, ... up to the first gap. *)
Lemma partETags_total fuel i etags :
  size etags < fuel →
  ∃ l, partETags fuel i etags = Ok l ∧ etags !! (i + Z.of_nat (length l))%Z = None ∧
       ∀ k e, l !! k = Some e → etags !! (i + Z.of_nat k)%Z = Some e.
Proof.
  revert i etags. induction fuel as [|fuel IH]; intros i etags Hs; [lia|]. cbn [partETags].
  destruct (etags !! i) as [e|] eqn:E.
  2: { exists []. cbn [length]. rewrite Z.add_0_r. split_and!; try done. }
  assert (Hdel : ∀ f j m, (i < j)%Z → partETags f j (delete i m) = partETags f j m).
  { clear. induction f as [|f IHf]; intros j m Hj; [done|]. cbn [partETags].
    rewrite lookup_delete_ne by lia. destruct (m !! j); [|done]. by rewrite IHf by lia. }
  destruct (IH (i + 1)%Z (delete i etags)) as (l & Hl & Hend & Hk).
  { assert (size etags ≠ 0) by (intros Hz%map_size_empty_inv; by subst).
    rewrite map_size_delete_Some by by exists e. lia. }
  rewrite Hdel in Hl by lia. rewrite Hl. exists (e :: l). cbn [obind length]. split_and!; [done|..].
  - rewrite lookup_delete_ne in Hend by lia. rewrite <- Hend. f_equal. lia.
  - intros [|k] e' He; cbn in He; [injection He as <-; by rewrite Z.add_0_r|].
    apply Hk in He. rewrite lookup_delete_ne in He by lia. rewrite <- He. f_equal. lia.
Qed.

(** The collected list when exactly the parts 1 to n are there. *)
Lemma partETags_exact etags n (f : Z → string) :
  (∀ i, etags !! i = if decide (1 ≤ i ≤ Z.of_nat n)%Z then Some (f i) else None) →
  partETags (S (size etags)) 1 etags = Ok (f <$> SeqPriorityQueue.zseq 1 n).
Proof.
  intros Hf. destruct (partETags_total (S (size etags)) 1 etags) as (l & -> & Hend & Hk); [lia|].
  assert (Hlk : ∀ k e, l !! k = Some e → k < n ∧ e = f (1 + Z.of_nat k)%Z).
  { intros k e He. apply Hk in He. rewrite Hf in He. case_decide; [|done]. injection He as <-.
    split; [lia|done]. }
  assert (Hlen : length l = n).
  { rewrite Hf in Hend. case_decide as Hd; [done|].
    destruct (decide (length l ≤ n)) as [|Hgt]; [lia|].
    destruct (lookup_lt_is_Some_2 l n) as [e He]; [lia|]. apply Hlk in He. lia. }
  f_equal. apply list_eq. intros k. rewrite list_lookup_fmap.
  destruct (l !! k) as [e|] eqn:He.
  - apply Hlk in He as [Hkn ->]. clear -Hkn. revert k Hkn.
    assert (Hz : ∀ a k m, k < m → SeqPriorityQueue.zseq a m !! k = Some (a + Z.of_nat k)%Z).
    { intros a k m. revert a k. induction m as [|m IHm]; intros a k Hkm; [lia|].
      destruct k as [|k]; cbn; [f_equal; lia|]. rewrite IHm by lia. f_equal. lia. }
    intros k Hkn. by rewrite Hz.
  - apply lookup_ge_None in He.
    rewrite (proj2 (lookup_ge_None (SeqPriorityQueue.zseq 1 n) k)); [done|].
    rewrite SeqPriorityQueue.length_zseq. lia.
Qed.

(** Uploading a list of parts (number, bytes, etag), one request after another. *)
Definition put_parts (bucket object uploadID : string) (ps : list (Z * string * string)) (s : MP) : MP :=
  foldl (λ s '(i, data, e), (PutObjectPart bucket object uploadID i data e s).2) s ps.

Definition part_no (p : Z * string * string) : Z := p.1.1.

Definition dir_after (d : UploadDir) (ps : list (Z * string * string)) : UploadDir :=
  foldl (λ d '(i, data, e), mkDir (<[i := data]> (part_files d)) (<[i := e]> (etag_files d))) d ps.

Definition mpf_after (m : MultiPartFile) (ps : list (Z * string * string)) : MultiPartFile :=
  foldl (λ m '(i, data, e),
           mkMPF (UpdateFileSize i (Z.of_nat (String.length data)) (mf_sizes m))
             (SeqPriorityQueue.Push i (mf_seqPQ m)) (mf_cancelC_closed m) (mf_errorC m)) m ps.

Lemma put_parts_state bucket object uploadID ps s d m :
  let dir := uploadDir bucket uploadID object in
  mp_dirs s !! dir = Some d → FileMap s !! uploadID = Some m →
  mp_dirs (put_parts bucket object uploadID ps s) !! dir = Some (dir_after d ps) ∧
  FileMap (put_parts bucket object uploadID ps s) !! uploadID = Some (mpf_after m ps).
Proof.
  intros dir. revert s d m. induction ps as [|[[i data] e] ps IH]; intros s d m Hd Hm; [done|].
  cbn [put_parts foldl]. unfold PutObjectPart at 2 4. fold dir. rewrite Hd, Hm. cbn [snd].
  apply IH; cbn; by rewrite lookup_insert_eq.
Qed.

(** The parts of an object by number: [data i] are the bytes and [etag i] the
    hash of part [i]; [order] is the order of arrival. *)
Definition arriving (data etag : Z → string) (order : list Z) : list (Z * string * string) :=
  (λ i, (i, data i, etag i)) <$> order.

Lemma arriving_cons data etag i order :
  arriving data etag (i :: order) = (i, data i, etag i) :: arriving data etag order.
Proof. done. Qed.

Lemma dir_after_cons d i data e ps :
  dir_after d ((i, data, e) :: ps) =
  dir_after (mkDir (<[i := data]> (part_files d)) (<[i := e]> (etag_files d))) ps.
Proof. done. Qed.

Lemma mpf_after_cons m i data e ps :
  mpf_after m ((i, data, e) :: ps) =
  mpf_after (mkMPF (UpdateFileSize i (Z.of_nat (String.length data)) (mf_sizes m))
               (SeqPriorityQueue.Push i (mf_seqPQ m)) (mf_cancelC_closed m) (mf_errorC m)) ps.
Proof. done. Qed.

Lemma etags_after data etag d order i :
  etag_files (dir_after d (arriving data etag order)) !! i =
  if decide (i ∈ order) then Some (etag i) else etag_files d !! i.
Proof.
  revert d. induction order as [|j order IH]; intros d; [done|].
  rewrite arriving_cons, dir_after_cons, IH. destruct (decide (i ∈ order)) as [Hi|Hi].
  - rewrite decide_True; [done|]. by right.
  - cbn. destruct (decide (i = j)) as [->|Hij].
    + rewrite lookup_insert_eq, decide_True; [done|]. by left.
    + rewrite lookup_insert_ne by done. rewrite decide_False; [done|]. by intros [?|?]%elem_of_cons.
Qed.

Lemma sizes_mpf_after n s l data etag order m :
  (∀ i, i ∈ order → Z.of_nat (String.length (data i)) = part_size n s l i) →
  mf_sizes (mpf_after m (arriving data etag order)) = sizes_after n s l order (mf_sizes m).
Proof.
  revert m. induction order as [|j order IH]; intros m Hd; [done|].
  rewrite arriving_cons, mpf_after_cons, sizes_after_cons, <- Hd by by left. apply IH. intros i Hi. apply Hd. by right.
Qed.

(** ** What the multipart handlers promise *)

(** C33: an upload of the parts 1 to n, in any order of arrival and with parts of
    one size except a possibly shorter last one (not arriving first unless n is
    at most 2), completes: when the SDK reports success, CompleteMultipartUpload
    answers the concatenation of the parts' etags in part order and the size of
    the whole object, and removes the upload's directory. *)
Theorem multipart_complete_result `{!ZErrorPkg} now bucket object uploadID data etag n s l order st :
  (1 ≤ n)%Z → (0 < l ≤ s)%Z → (n * s + n * s ≤ max_int64)%Z →
  order ≡ₚ SeqPriorityQueue.zseq 1 (Z.to_nat n) →
  head order ≠ Some n ∨ l = s ∨ (n ≤ 2)%Z →
  (∀ i, i ∈ order → Z.of_nat (String.length (data i)) = part_size n s l i) →
  mp_dirs st !! uploadDir bucket uploadID object = Some noFiles →
  FileMap st !! uploadID = Some newMPF →
  let st1 := put_parts bucket object uploadID (arriving data etag order) st in
  let '(res, st2) := CompleteMultipartUpload now bucket object uploadID
                       (uploadFinished bucket uploadID None st1) in
  res = Ok (mkObjectInfo bucket object now ((n - 1) * s + l)%Z false
              (str_join "" (etag <$> SeqPriorityQueue.zseq 1 (Z.to_nat n))) "" "" ∅ 0) ∧
  (∀ k, underb (Join [localStorageDir; bucket; uploadID]) k = true → mp_dirs st2 !! k = None).
Proof.
  intros Hn Hl Hmax Hord Hcase Hdata Hdir Hmpf st1.
  destruct (put_parts_state bucket object uploadID (arriving data etag order) st _ _ Hdir Hmpf) as [Hd1 Hm1].
  fold st1 in Hd1, Hm1. pose proof (sizes_mpf_after n s l data etag order newMPF Hdata) as Hsz.
  unfold uploadFinished. rewrite Hm1. unfold CompleteMultipartUpload. cbn [FileMap mp_dirs].
  rewrite lookup_insert_eq. cbn [mf_errorC mf_sizes mf_cancelC_closed mf_seqPQ].
  rewrite Hd1. cbn [from_option id]. unfold constructCompleteObject.
  rewrite (partETags_exact _ (Z.to_nat n) etag).
  2: { intros i. rewrite etags_after. destruct (decide (i ∈ order)) as [Hi|Hi].
       - rewrite Hord, SeqPriorityQueue.elem_of_zseq in Hi. by rewrite decide_True by lia.
       - rewrite decide_False; [done|]. intros Hin. apply Hi.
         rewrite Hord, SeqPriorityQueue.elem_of_zseq. lia. }
  cbn [obind]. split.
  - rewrite Hsz. cbn [mf_sizes newMPF]. by rewrite size_correct.
  - intros k Hk. cbn [cleanupPartFilesAndDirs mp_dirs]. apply map_lookup_filter_None. right.
    intros d _ Hf. cbn [fst] in Hf. congruence.
Qed.

(** Once an upload is aborted its parts are refused, and a second abort of
    the same upload panics, because it closes a closed channel: the entry of the
    upload is never removed from the map. *)
Theorem abort_is_final bucket object uploadID i data e st st' :
  AbortMultipartUpload bucket object uploadID st = (Ok (), st') →
  underb (Join [localStorageDir; bucket; uploadID]) (uploadDir bucket uploadID object) = true →
  PutObjectPart bucket object uploadID i data e st' =
    (Err (ErrorString "error creating part file"), st') ∧
  AbortMultipartUpload bucket object uploadID st' = (Panic "close of closed channel", st').
Proof.
  unfold AbortMultipartUpload. destruct (FileMap st !! uploadID) as [m|]; [|done].
  destruct (mf_cancelC_closed m); [done|]. intros [= <-] Hu. split.
  - unfold PutObjectPart. cbn [cleanupPartFilesAndDirs mp_dirs].
    rewrite (proj2 (map_lookup_filter_None _ _ _)); [done|]. right. intros d _ Hf. cbn [fst] in Hf. congruence.
  - cbn [cleanupPartFilesAndDirs FileMap]. by rewrite lookup_insert_eq.
Qed.

(** With the default marker 0, ListObjectParts lists nothing, however many
    parts have been uploaded: it looks for a part 0 first and stops. *)
Theorem default_part_listing_empty bucket object uploadID data etag order maxParts st :
  Forall (λ i, 1 ≤ i)%Z order →
  mp_dirs st !! uploadDir bucket uploadID object = Some noFiles →
  FileMap st !! uploadID = Some newMPF →
  let st1 := put_parts bucket object uploadID (arriving data etag order) st in
  ListObjectParts bucket object uploadID 0 maxParts st1 = (Ok [], st1).
Proof.
  intros Hpos Hdir Hmpf st1.
  destruct (put_parts_state bucket object uploadID (arriving data etag order) st _ _ Hdir Hmpf) as [Hd1 _].
  fold st1 in Hd1. unfold ListObjectParts. rewrite Hd1. do 2 f_equal.
  destruct (Z.to_nat (maxParts - 0 + 1)); [done|]. cbn [listParts]. rewrite etags_after.
  rewrite decide_False; [done|]. intros H0. rewrite Forall_forall in Hpos. apply Hpos in H0. lia.
Qed.

(** Three parts of two bytes and one of one byte, uploaded out of order. *)
Definition demo_upload : MP :=
  mkMP {[uploadDir "photos" "u1" "x" := noFiles]} {["u1" := newMPF]}.
Definition demo_data (i : Z) : string := if (i =? 3)%Z then "e" else "ab".
Definition demo_etag (i : Z) : string := "h" +:+ itoa i.

Lemma last_part_first_miscounts_witness :
  fileSize (sizes_after 3 2 1 [3; 1; 2]%Z noSize) = ((3 - 1) * 2 + 1 + (3 - 2) * 2)%Z.
Proof.
  apply last_part_first_miscounts.
  - done.
  - done.
  - by vm_compute.
  - exact (Permutation_cons_append [1; 2]%Z 3%Z).
  - done.
Defined.

Lemma multipart_complete_result_witness :
  let st1 := put_parts "photos" "x" "u1" (arriving demo_data demo_etag [2; 3; 1]%Z) demo_upload in
  let '(res, st2) := CompleteMultipartUpload 7 "photos" "x" "u1"
                       (uploadFinished "photos" "u1" None st1) in
  res = Ok (mkObjectInfo "photos" "x" 7 ((3 - 1) * 2 + 1)%Z false
              (str_join "" (demo_etag <$> SeqPriorityQueue.zseq 1 (Z.to_nat 3))) "" "" ∅ 0) ∧
  (∀ k, underb (Join [localStorageDir; "photos"; "u1"]) k = true → mp_dirs st2 !! k = None).
Proof.
  apply (multipart_complete_result 7 "photos" "x" "u1" demo_data demo_etag 3 2 1 [2; 3; 1]%Z demo_upload).
  - done.
  - done.
  - by vm_compute.
  - exact (Permutation_sym (Permutation_cons_append [2; 3]%Z 1%Z)).
  - by left.
  - intros i Hi. repeat (apply elem_of_cons in Hi as [->|Hi]; [done|]). by apply not_elem_of_nil in Hi.
  - by vm_compute.
  - by vm_compute.
Defined.

Lemma abort_is_final_witness :
  let st' := (AbortMultipartUpload "photos" "x" "u1" demo_upload).2 in
  PutObjectPart "photos" "x" "u1" 1 "ab" "h" st' =
    (Err (ErrorString "error creating part file"), st') ∧
  AbortMultipartUpload "photos" "x" "u1" st' = (Panic "close of closed channel", st').
Proof.
  apply (abort_is_final "photos" "x" "u1" 1 "ab" "h" demo_upload).
  - by vm_compute.
  - by vm_compute.
Defined.

Lemma default_part_listing_empty_witness :
  let st1 := put_parts "photos" "x" "u1" (arriving demo_data demo_etag [2; 3; 1]%Z) demo_upload in
  ListObjectParts "photos" "x" "u1" 0 1000 st1 = (Ok [], st1).
Proof.
  apply (default_part_listing_empty "photos" "x" "u1" demo_data demo_etag [2; 3; 1]%Z 1000 demo_upload).
  - by repeat constructor.
  - by vm_compute.
  - by vm_compute.
Defined.
