(* ===== verification/ZcnPipeline.v ===== *)
(** * Multipart uploads: the pipeline (newMultiPartUpload of
    cmd/gateway/zcn/multipart.go, memFile.Read of memFile.go)

    Two goroutines per upload bring the parts to the SDK: the feeder takes part
    numbers from the priority queue, reads and removes the part files and sends
    their bytes to [dataC] (capacity 20); the chunker collects them in a buffer
    and sends chunks of [chunkWriteSize] bytes to [memFileDataChan] (capacity
    240), from which the SDK reads through [memFile.Read]. The handlers push part
    numbers and finally call [Done].

    They form one transition system; [None] means not enabled. Modelled is an
    upload without compression that is neither cancelled nor timed out. *)

From Stdlib Require Import ZArith Lia Bool Ascii.
From S2P Require Import Prelude GoHeap SeqPQ.
Import SeqPriorityQueue.

Abbreviation bytes := (list ascii).

(** [memFileData]: the bytes, and whether [err] is [io.EOF]. *)
Record chunk := mkChunk { c_buf : bytes; c_eof : bool }.

Inductive feeder := AtPop | SendingPart (data : bytes) | FeedDone | FeedFailed.

(** Receiving, sending the last chunks, [memFileDataChan] closed. *)
Inductive chunker := COpen | CFlush | CClosed.

Record Pipe := mkPipe {
  p_files : gmap Z bytes;
  p_pq : t;
  p_feeder : feeder;
  p_dataC : list bytes;
  p_buf : bytes;
  p_out : list chunk;
  p_chunker : chunker;
  p_memC : list chunk;
  p_read : bytes;
  p_eof : bool;
}.

Inductive pipe_event :=
  | PPart (i : Z) (data : bytes)  (** the part file is written and [i] pushed *)
  | PDone                         (** [seqPQ.Done()] *)
  | PPop                          (** [Popup] returns and the feeder reads the part file *)
  | PSend                         (** [dataC <- data] *)
  | PRecv                         (** the chunker receives from [dataC] *)
  | PEmit                         (** [memFileDataChan <- memFileData] *)
  | PClose                        (** the chunker finds [dataC] closed *)
  | PShut                         (** [close(memFileDataChan)] *)
  | PRead.                        (** [memFile.Read] returns, with a buffer of [cs] bytes *)

(** The slices of [cs] bytes of a buffer; fuel for the length of the buffer. *)
Fixpoint slices (fuel cs : nat) (b : bytes) : list bytes :=
  match fuel with
  | 0 => []
  | S fuel => match b with [] => [] | _ => take cs b :: slices fuel cs (drop cs b) end
  end.

(** The chunks of a buffer when more data may follow, and of the rest at the end,
    where the last one carries [io.EOF]. *)
Definition plain_chunks (cs : nat) (b : bytes) : list chunk :=
  (λ x, mkChunk x false) <$> slices (length b) cs b.

Fixpoint mark_last (l : list bytes) : list chunk :=
  match l with
  | [] => []
  | [x] => [mkChunk x true]
  | x :: l => mkChunk x false :: mark_last l
  end.
Definition last_chunks (cs : nat) (b : bytes) : list chunk := mark_last (slices (length b) cs b).

(** How many chunks of a buffer of [len] bytes are sent at once: a full last one
    is kept back when there are several. *)
Definition ready (len cs : nat) : nat :=
  let n := len `div` cs in
  if (n =? 0)%nat then 0
  else if (len `mod` cs =? 0)%nat && (1 <? n)%nat then n - 1 else n.

(** [memFile.Read] with a buffer of [plen] bytes, on what it receives from the
    two channels: the bytes copied, or [io.ErrShortBuffer]. *)
Definition memFile_Read (plen : nat) (c : chunk) : option (bytes * bool) :=
  if (plen <? length (c_buf c))%nat then None else Some (c_buf c, c_eof c).

Section pipe.
Context (cs : nat).

Definition pipe_step (w : Pipe) (ev : pipe_event) : option Pipe :=
  match w with
  | mkPipe files pq fd dc buf out ck mc rd eof =>
      match ev with
      | PPart i data => Some (mkPipe (<[i := data]> files) (Push i pq) fd dc buf out ck mc rd eof)
      | PDone => Some (mkPipe files (Done pq) fd dc buf out ck mc rd eof)
      | PPop =>
          match fd, Popup pq with
          | AtPop, Some (v, pq) =>
              if (v =? -1)%Z then Some (mkPipe files pq FeedDone dc buf out ck mc rd eof)
              else match files !! v with
                   | Some data =>
                       Some (mkPipe (delete v files) pq (SendingPart data) dc buf out ck mc rd eof)
                   | None => Some (mkPipe files pq FeedFailed dc buf out ck mc rd eof)
                   end
          | _, _ => None
          end
      | PSend =>
          match fd with
          | SendingPart data =>
              if (length dc <? 20)%nat
              then Some (mkPipe files pq AtPop (dc ++ [data]) buf out ck mc rd eof) else None
          | _ => None
          end
      | PRecv =>
          match ck, out, dc with
          | COpen, [], data :: dc =>
              let buf := buf ++ data in
              let k := ready (length buf) cs * cs in
              Some (mkPipe files pq fd dc (drop k buf) (plain_chunks cs (take k buf)) ck mc rd eof)
          | _, _, _ => None
          end
      | PEmit =>
          match out with
          | c :: out =>
              if (length mc <? 240)%nat
              then Some (mkPipe files pq fd dc buf out ck (mc ++ [c]) rd eof) else None
          | [] => None
          end
      | PClose =>
          match ck, out, dc, fd with
          | COpen, [], [], FeedDone =>
              Some (mkPipe files pq fd [] [] (last_chunks cs buf) CFlush mc rd eof)
          | _, _, _, _ => None
          end
      | PShut =>
          match ck, out with
          | CFlush, [] => Some (mkPipe files pq fd dc buf [] CClosed mc rd eof)
          | _, _ => None
          end
      | PRead =>
          if eof then None
          else match mc, ck with
               | c :: mc, _ =>
                   match memFile_Read cs c with
                   | Some (b, e) => Some (mkPipe files pq fd dc buf out ck mc (rd ++ b) e)
                   | None => None
                   end
               | [], CClosed => Some (mkPipe files pq fd dc buf out ck [] rd true)
               | [], _ => None
               end
      end
  end.

Fixpoint pipe_run (w : Pipe) (evs : list pipe_event) : option Pipe :=
  match evs with
  | [] => Some w
  | ev :: evs => match pipe_step w ev with Some w => pipe_run w evs | None => None end
  end.
End pipe.

Definition pipe_init : Pipe := mkPipe ∅ New AtPop [] [] [] COpen [] [] false.

Definition part_numbers (evs : list pipe_event) : list Z :=
  omap (λ ev, match ev with PPart i _ => Some i | _ => None end) evs.

Definition pipe_internal (ev : pipe_event) : Prop :=
  match ev with PPart _ _ | PDone => False | _ => True end.

(** ** Chunks *)
Lemma slices_concat fuel cs b : 0 < cs → length b ≤ fuel → concat (slices fuel cs b) = b.
Proof.
  intros Hcs. revert b. induction fuel as [|fuel IH]; intros b Hb; [by destruct b; [|simpl in *; lia]|].
  destruct b as [|x b]; [done|]. cbn [slices concat]. rewrite IH; [apply take_drop|].
  rewrite length_drop. simpl in *. lia.
Qed.

Lemma slices_size fuel cs b : 0 < cs → Forall (λ x, 0 < length x ≤ cs) (slices fuel cs b).
Proof.
  intros Hcs. revert b. induction fuel as [|fuel IH]; intros b; [constructor|].
  destruct b as [|x b]; [constructor|]. cbn [slices]. constructor; [|done].
  rewrite length_take. simpl. lia.
Qed.

Definition chunk_ok (cs : nat) (c : chunk) : Prop := 0 < length (c_buf c) ≤ cs.

(** The end mark is on the last chunk only. *)
Fixpoint eof_ok (l : list chunk) : Prop :=
  match l with
  | [] => True
  | c :: l => (c_eof c = true → l = []) ∧ eof_ok l
  end.

Abbreviation unmarked l := (Forall (λ c, c_eof c = false) l).
Abbreviation bufs l := (concat (c_buf <$> l)).

Lemma eof_ok_app a b : unmarked a → eof_ok b → eof_ok (a ++ b).
Proof.
  intros Ha Hb. induction Ha as [|c a Hc Ha IH]; [done|]. cbn. split; [|done]. congruence.
Qed.

Lemma plain_chunks_spec cs b :
  0 < cs → bufs (plain_chunks cs b) = b ∧ unmarked (plain_chunks cs b) ∧
           Forall (chunk_ok cs) (plain_chunks cs b).
Proof.
  intros Hcs. unfold plain_chunks. pose proof (slices_size (length b) cs b Hcs) as Hs. split_and!.
  - rewrite <- list_fmap_compose. rewrite (list_fmap_ext _ id) by done.
    rewrite list_fmap_id. by apply slices_concat.
  - by apply Forall_fmap, Forall_true.
  - apply Forall_fmap. eapply Forall_impl; [done|]. done.
Qed.

Lemma mark_last_spec cs l :
  Forall (λ x, 0 < length x ≤ cs) l →
  c_buf <$> mark_last l = l ∧ eof_ok (mark_last l) ∧ Forall (chunk_ok cs) (mark_last l).
Proof.
  induction 1 as [|x l Hx Hl IH]; [done|]. destruct l as [|y l].
  - cbn. split_and!; try done. by apply Forall_singleton.
  - destruct IH as (H1 & H2 & H3).
    change (mark_last (x :: y :: l)) with (mkChunk x false :: mark_last (y :: l)).
    split_and!; [|done|by constructor]. cbn [fmap list_fmap c_buf]. by f_equal.
Qed.

Lemma last_chunks_spec cs b :
  0 < cs → bufs (last_chunks cs b) = b ∧ eof_ok (last_chunks cs b) ∧
           Forall (chunk_ok cs) (last_chunks cs b).
Proof.
  intros Hcs. unfold last_chunks.
  destruct (mark_last_spec cs _ (slices_size (length b) cs b Hcs)) as (H1 & H2 & H3).
  split_and!; [|done..]. rewrite H1. by apply slices_concat.
Qed.

(** ** Invariant *)
Definition sending (fd : feeder) : bytes := match fd with SendingPart d => d | _ => [] end.

(** All bytes that have left the part files, in order. *)
Definition flow (w : Pipe) : bytes :=
  p_read w ++ bufs (p_memC w) ++ bufs (p_out w) ++ p_buf w ++ concat (p_dataC w)
  ++ sending (p_feeder w).

Section invariant.
Context (cs : nat) (Hcs : 0 < cs) (data : Z → bytes).

(** The bytes of the parts 1 to [n]. *)
Definition object (n : nat) : bytes := concat (data <$> zseq 1 n).

Record pipe_inv (hist : list Z) (w : Pipe) : Prop := {
  pi_wf : wf hist (p_pq w);
  pi_nodup : NoDup hist;
  pi_flow : flow w = object (Z.to_nat (next (p_pq w) - 1));
  pi_files i : i ∈ queue (p_pq w) → p_files w !! i = Some (data i);
  pi_ok : p_feeder w ≠ FeedFailed;
  pi_fed : p_feeder w = FeedDone → queue (p_pq w) = [] ∧ done (p_pq w) = true;
  pi_flushed : p_chunker w ≠ COpen → p_feeder w = FeedDone ∧ p_dataC w = [] ∧ p_buf w = [];
  pi_open : p_chunker w = COpen → unmarked (p_memC w ++ p_out w);
  pi_marks : eof_ok (p_memC w ++ p_out w);
  pi_closed : p_chunker w = CClosed → p_out w = [];
  pi_eof : p_eof w = true → p_memC w = [] ∧ p_out w = [] ∧ p_chunker w ≠ COpen;
  pi_chunks : Forall (chunk_ok cs) (p_memC w ++ p_out w);
}.

Lemma pipe_inv_init : pipe_inv [] pipe_init.
Proof. split; try done; try apply wf_New; try constructor. by intros i Hi%not_elem_of_nil. Qed.

Lemma part_inv hist w i w' :
  pipe_inv hist w → done (p_pq w) = false → i ∉ hist →
  pipe_step cs w (PPart i (data i)) = Some w' → pipe_inv (hist ++ [i]) w'.
Proof.
  destruct w as [files pq fd dc buf out ck mc rd eof].
  intros [H1 H2 H3 H4 H5 H6 H7 H8 H9 H10 H11 H12] Hd Hi [= <-]; cbn in *. split; cbn; try done.
  - by apply wf_Push.
  - apply NoDup_app. split_and!; [done| |apply NoDup_singleton].
    intros x Hx ->%list_elem_of_singleton. done.
  - intros j Hj. rewrite heap_push_perm in Hj. apply elem_of_cons in Hj as [->|Hj].
    + by rewrite lookup_insert_eq.
    + destruct (decide (j = i)) as [->|Hne]; [by rewrite lookup_insert_eq|].
      rewrite lookup_insert_ne by done. by apply H4.
  - intros Hf. destruct (H6 Hf). congruence.
Qed.

Lemma done_inv hist w w' : pipe_inv hist w → pipe_step cs w PDone = Some w' → pipe_inv hist w'.
Proof.
  destruct w as [files pq fd dc buf out ck mc rd eof].
  intros [H1 H2 H3 H4 H5 H6 H7 H8 H9 H10 H11 H12] [= <-]; cbn in *. split; cbn; try done.
  - by apply wf_Done.
  - intros Hf. by destruct (H6 Hf).
Qed.

Lemma object_snoc n : object (S n) = object n ++ data (1 + Z.of_nat n)%Z.
Proof.
  unfold object. rewrite zseq_snoc, fmap_app, concat_app. cbn. by rewrite app_nil_r.
Qed.

Lemma pop_inv hist w w' : pipe_inv hist w → pipe_step cs w PPop = Some w' → pipe_inv hist w'.
Proof.
  destruct w as [files pq fd dc buf out ck mc rd eof].
  intros [H1 H2 H3 H4 H5 H6 H7 H8 H9 H10 H11 H12]; cbn in *.
  destruct fd; try done. destruct (Popup pq) as [[v pq']|] eqn:Ep; [|done].
  assert (Hck : ck = COpen).
  { destruct ck; [done|..]; by destruct H7 as [? _]. }
  destruct (Popup_cases _ _ _ _ H1 Ep) as [(-> & -> & Hq & Hdn)|(-> & Hnx & Hdn & _ & Hq & Hw)].
  - intros [= <-]. split; cbn; done.
  - pose proof (wf_next _ _ H1) as Hge. rewrite (proj2 (Z.eqb_neq (next pq) (-1))) by lia.
    rewrite (H4 (next pq)) by (rewrite Hq; by left). intros [= <-].
    assert (Hnd : NoDup (queue pq)).
    { pose proof (wf_hist _ _ H1) as Hh. rewrite Hh in H2. by apply NoDup_app in H2 as (_ & _ & ?). }
    rewrite Hq in Hnd. apply NoDup_cons in Hnd as [Hnin _].
    split; cbn; try done.
    + unfold flow in *; cbn in *. rewrite app_nil_r in H3. rewrite !app_assoc, <- !app_assoc.
      replace (Z.to_nat (next pq' - 1)) with (S (Z.to_nat (next pq - 1))) by lia.
      rewrite object_snoc, <- H3. rewrite <- !app_assoc. repeat f_equal. lia.
    + intros i Hi. rewrite lookup_delete_ne by (intros <-; done). apply H4. rewrite Hq. by right.
Qed.

Lemma pipe_send_inv hist w w' : pipe_inv hist w → pipe_step cs w PSend = Some w' → pipe_inv hist w'.
Proof.
  destruct w as [files pq fd dc buf out ck mc rd eof].
  intros [H1 H2 H3 H4 H5 H6 H7 H8 H9 H10 H11 H12]; cbn in *. destruct fd as [|d| |]; try done.
  case_if; [|done]. intros [= <-]. split; cbn; try done.
  - unfold flow in *; cbn in *. by rewrite concat_snoc, app_nil_r.
  - intros Hne. by destruct (H7 Hne).
Qed.

Lemma pipe_recv_inv hist w w' : pipe_inv hist w → pipe_step cs w PRecv = Some w' → pipe_inv hist w'.
Proof.
  destruct w as [files pq fd dc buf out ck mc rd eof].
  intros [H1 H2 H3 H4 H5 H6 H7 H8 H9 H10 H11 H12]; cbn in *.
  destruct ck, out, dc as [|d dc]; try done. intros [= <-].
  set (k := ready _ cs * cs).
  destruct (plain_chunks_spec cs (take k (buf ++ d)) Hcs) as (P1 & P2 & P3).
  specialize (H8 eq_refl). rewrite app_nil_r in H8, H9, H12. split; cbn; try done.
  - unfold flow in *; cbn in *. rewrite P1, (app_assoc (take _ _)), take_drop, <- H3.
    by rewrite <- !app_assoc.
  - intros _. by apply Forall_app.
  - apply eof_ok_app; [done|]. rewrite <- (app_nil_r (plain_chunks _ _)). by apply eof_ok_app.
  - intros He. by destruct (H11 He) as (_ & _ & ?).
  - by apply Forall_app.
Qed.

Lemma emit_inv hist w w' : pipe_inv hist w → pipe_step cs w PEmit = Some w' → pipe_inv hist w'.
Proof.
  destruct w as [files pq fd dc buf out ck mc rd eof].
  intros [H1 H2 H3 H4 H5 H6 H7 H8 H9 H10 H11 H12]; cbn in *. destruct out as [|c out]; [done|].
  case_if; [|done]. intros [= <-]. split; cbn; rewrite <- ?app_assoc; try done.
  - unfold flow in *; cbn in *. by rewrite fmap_app, concat_app, <- !app_assoc in *; cbn; rewrite app_nil_r, <- H3.
  - intros ->. by discriminate H10.
  - intros He. by destruct (H11 He) as (_ & ? & _).
Qed.

Lemma close_inv hist w w' : pipe_inv hist w → pipe_step cs w PClose = Some w' → pipe_inv hist w'.
Proof.
  destruct w as [files pq fd dc buf out ck mc rd eof].
  intros [H1 H2 H3 H4 H5 H6 H7 H8 H9 H10 H11 H12]; cbn in *.
  destruct ck, out, dc, fd; try done. intros [= <-].
  destruct (last_chunks_spec cs buf Hcs) as (P1 & P2 & P3).
  specialize (H8 eq_refl). rewrite app_nil_r in H8, H9, H12. split; cbn; try done.
  - unfold flow in *; cbn in *. rewrite P1. by rewrite !app_nil_r in *.
  - by apply eof_ok_app.
  - intros He. by destruct (H11 He) as (_ & _ & ?).
  - by apply Forall_app.
Qed.

Lemma shut_inv hist w w' : pipe_inv hist w → pipe_step cs w PShut = Some w' → pipe_inv hist w'.
Proof.
  destruct w as [files pq fd dc buf out ck mc rd eof].
  intros [H1 H2 H3 H4 H5 H6 H7 H8 H9 H10 H11 H12]; cbn in *. destruct ck, out; try done.
  intros [= <-]. split; cbn; try done.
  - intros _. by apply H7.
  - intros He. by destruct (H11 He).
Qed.

Lemma read_inv hist w w' : pipe_inv hist w → pipe_step cs w PRead = Some w' → pipe_inv hist w'.
Proof.
  destruct w as [files pq fd dc buf out ck mc rd eof].
  intros [H1 H2 H3 H4 H5 H6 H7 H8 H9 H10 H11 H12]; cbn in *. destruct eof; [done|].
  destruct mc as [|c mc].
  - destruct ck; try done. intros [= <-]. split; cbn; try done. intros _. by rewrite H10.
  - cbn in *. apply Forall_cons in H12 as [Hc H12]. unfold memFile_Read.
    rewrite (proj2 (Nat.ltb_ge cs (length (c_buf c)))) by apply Hc. intros [= <-].
    destruct H9 as [H9 H9']. split; cbn; try done.
    + unfold flow in *; cbn in *. by rewrite <- H3, <- !app_assoc.
    + intros Hck. specialize (H8 Hck). by apply Forall_cons in H8 as [_ ?].
    + intros He. specialize (H9 He). apply app_eq_nil in H9 as [-> ->]. split_and!; try done.
      intros Hck. specialize (H8 Hck). apply Forall_cons in H8 as [? _]. congruence.
Qed.

Lemma pipe_step_inv hist w ev w' :
  pipe_inv hist w → pipe_internal ev → pipe_step cs w ev = Some w' → pipe_inv hist w'.
Proof.
  destruct ev; intros Hw Hi; [done|done|by apply pop_inv|by apply pipe_send_inv|by apply pipe_recv_inv
    |by apply emit_inv|by apply close_inv|by apply shut_inv|by apply read_inv].
Qed.

(** While parts arrive. *)
Lemma arrival_inv evs hist w w' :
  pipe_inv hist w → done (p_pq w) = false → PDone ∉ evs →
  NoDup (hist ++ part_numbers evs) → (∀ i d, PPart i d ∈ evs → d = data i) →
  pipe_run cs w evs = Some w' → pipe_inv (hist ++ part_numbers evs) w' ∧ done (p_pq w') = false.
Proof.
  revert hist w. induction evs as [|ev evs IH]; intros hist w Hw Hd Hev Hnd Hdata; cbn [pipe_run].
  { intros [= <-]. cbn. by rewrite app_nil_r. }
  apply not_elem_of_cons in Hev as [Hne Hev]. destruct (pipe_step cs w ev) as [w1|] eqn:E; [|done].
  assert (Hdata' : ∀ i d, PPart i d ∈ evs → d = data i) by (intros; apply Hdata; by right).
  destruct ev as [i d| | | | | | | |]; try done.
  { assert (d = data i) as -> by (apply Hdata; by left).
    change (part_numbers (PPart i (data i) :: evs)) with (i :: part_numbers evs) in *.
    rewrite (cons_middle i), app_assoc in Hnd |- *.
    assert (Hi : i ∉ hist).
    { apply NoDup_app in Hnd as (Hnd & _). apply NoDup_app in Hnd as (_ & Hnd & _).
      intros Hin. apply (Hnd i Hin). by left. }
    apply IH; try done; [by eapply part_inv|].
    destruct w. injection E as <-. done. }
  all: apply (IH hist); try done; [eapply pipe_step_inv; [done| |done]; done|].
  all: destruct w as [files pq fd dc buf out ck mc rd eof]; cbn in E, Hd |- *;
    repeat case_match; simplify_eq; cbn; try done;
    match goal with H : Popup _ = Some _ |- _ =>
      destruct (Popup_cases _ _ _ _ (pi_wf _ _ Hw) H) as [(_ & -> & _)|(_ & _ & -> & _)]; done end.
Qed.

(** ** Progress *)
Definition part_weight (i : Z) : nat := 3 * length (data i) + 6.
Definition feeder_weight (fd : feeder) : nat :=
  match fd with AtPop => 1 | SendingPart d => 3 * length d + 5 | _ => 0 end.
Definition chunker_weight (ck : chunker) : nat :=
  match ck with COpen => 2 | CFlush => 1 | CClosed => 0 end.

Definition pipe_left (w : Pipe) : nat :=
  sum_list_with part_weight (queue (p_pq w)) + feeder_weight (p_feeder w)
  + sum_list_with (λ d, 3 * length d + 3) (p_dataC w) + 3 * length (p_buf w)
  + 2 * length (bufs (p_out w)) + length (bufs (p_memC w))
  + chunker_weight (p_chunker w) + (if p_eof w then 0 else 1).

Lemma pipe_decreases hist w ev w' :
  pipe_inv hist w → pipe_internal ev → pipe_step cs w ev = Some w' → pipe_left w' < pipe_left w.
Proof.
  destruct w as [files pq fd dc buf out ck mc rd eof].
  intros [H1 H2 H3 H4 H5 H6 H7 H8 H9 H10 H11 H12] Hi; cbn in *.
  unfold pipe_left; cbn. destruct ev as [i d| | | | | | | |]; try done; cbn.
  - destruct fd; try done. destruct (Popup pq) as [[v pq']|] eqn:Ep; [|done].
    destruct (Popup_cases _ _ _ _ H1 Ep) as [(-> & -> & Hq & _)|(-> & _ & _ & _ & Hq & _)].
    + intros [= <-]; cbn. lia.
    + pose proof (wf_next _ _ H1). rewrite (proj2 (Z.eqb_neq (next pq) (-1))) by lia.
      rewrite (H4 (next pq)) by (rewrite Hq; by left). intros [= <-]; cbn.
      rewrite Hq. cbn. lia.
  - destruct fd; try done. case_if; [|done]. intros [= <-]; cbn. rewrite sum_list_with_app. cbn. lia.
  - destruct ck, out, dc as [|d dc]; try done. intros [= <-]; cbn.
    set (k := ready _ cs * cs).
    destruct (plain_chunks_spec cs (take k (buf ++ d)) Hcs) as (-> & _ & _).
    rewrite length_drop, length_take, length_app. lia.
  - destruct out as [|c out]; [done|]. case_if; [|done]. intros [= <-]; cbn.
    apply Forall_app in H12 as [_ H12]. apply Forall_cons in H12 as [Hc _]. unfold chunk_ok in Hc.
    rewrite fmap_app, concat_app, !length_app. cbn. rewrite app_nil_r. lia.
  - destruct ck, out, dc, fd; try done. intros [= <-]; cbn.
    destruct (last_chunks_spec cs buf Hcs) as (-> & _ & _). lia.
  - destruct ck, out; try done. intros [= <-]; cbn. lia.
  - destruct eof; [done|]. destruct mc as [|c mc].
    + destruct ck; try done. intros [= <-]; cbn. lia.
    + cbn in H12. apply Forall_cons in H12 as [Hc _]. unfold chunk_ok in Hc. unfold memFile_Read.
      rewrite (proj2 (Nat.ltb_ge _ _)) by lia. intros [= <-]; cbn. rewrite length_app.
      destruct (c_eof c); lia.
Qed.

(** Until the reader has seen the end, something can move. *)
Lemma pipe_enabled n hist w :
  pipe_inv hist w → hist ≡ₚ zseq 1 n → 1 ≤ n → done (p_pq w) = true → p_eof w = false →
  ∃ ev w', pipe_internal ev ∧ pipe_step cs w ev = Some w'.
Proof.
  destruct w as [files pq fd dc buf out ck mc rd eof].
  intros [H1 H2 H3 H4 H5 H6 H7 H8 H9 H10 H11 H12] Hh Hn Hd He; cbn in *. subst eof.
  destruct mc as [|c mc].
  2: { cbn in H12. apply Forall_cons in H12 as [Hc _]. exists PRead. cbn. unfold memFile_Read.
       rewrite (proj2 (Nat.ltb_ge _ _)) by apply Hc. by eexists. }
  destruct out as [|c out]; [|exists PEmit; cbn; by eexists].
  destruct ck; [|exists PShut; cbn; by eexists|exists PRead; cbn; by eexists].
  destruct dc as [|d dc]; [|exists PRecv; cbn; by eexists].
  destruct fd as [|d| |]; [|exists PSend; cbn; by eexists|exists PClose; cbn; by eexists|done].
  destruct (Popup_returns n pq hist H1 Hh Hn Hd) as [[v pq'] Hp].
  exists PPop. cbn. rewrite Hp. destruct (v =? -1)%Z; [by eexists|].
  destruct (files !! v); by eexists.
Qed.

(** What the reader has when it sees the end. *)
Lemma pipe_end hist w : pipe_inv hist w → p_eof w = true →
  p_read w = object (Z.to_nat (next (p_pq w) - 1)) ∧ queue (p_pq w) = [].
Proof.
  intros Hw He. destruct (pi_eof _ _ Hw He) as (Hm & Ho & Hc).
  destruct (pi_flushed _ _ Hw Hc) as (Hf & Hd & Hb). destruct (pi_fed _ _ Hw Hf) as [Hq _].
  pose proof (pi_flow _ _ Hw) as Hfl. unfold flow in Hfl. rewrite Hm, Ho, Hf, Hd, Hb in Hfl. cbn in Hfl.
  by rewrite app_nil_r in Hfl.
Qed.

Lemma pipe_end_all n hist w : pipe_inv hist w → hist ≡ₚ zseq 1 n → p_eof w = true →
  p_read w = object n.
Proof.
  intros Hw Hh He. destruct (pipe_end _ _ Hw He) as [-> Hq].
  pose proof (wf_hist _ _ (pi_wf _ _ Hw)) as Hwh. rewrite Hq, app_nil_r, Hh in Hwh.
  apply Permutation_length in Hwh. rewrite !length_zseq in Hwh. by rewrite Hwh.
Qed.
End invariant.

(** C4: the parts of an object, uploaded in any order and each once, reach the SDK
    as exactly the object: once [Done] has been called, whatever the goroutines do
    and in whatever order, they take at most [pipe_left] further actions, they can
    act until the reader has seen the end of the file, and at the end of the file
    the reader has received the concatenation of the parts 1 to n, in chunks that
    fit its buffer. *)
Theorem pipeline_delivers_object cs data n evs w evs' w1 w2 :
  0 < cs → 1 ≤ n → PDone ∉ evs → part_numbers evs ≡ₚ zseq 1 n →
  (∀ i d, PPart i d ∈ evs → d = data i) →
  pipe_run cs pipe_init evs = Some w → pipe_step cs w PDone = Some w1 →
  Forall pipe_internal evs' → pipe_run cs w1 evs' = Some w2 →
  length evs' + pipe_left data w2 ≤ pipe_left data w1 ∧
  (p_eof w2 = false → ∃ ev w3, pipe_internal ev ∧ pipe_step cs w2 ev = Some w3) ∧
  (p_eof w2 = true → p_read w2 = concat (data <$> zseq 1 n)).
Proof.
  intros Hcs Hn Hev Hparts Hdata Hrun Hdone Hint Hrun'.
  assert (Hinv : pipe_inv cs data (part_numbers evs) w1 ∧ done (p_pq w1) = true).
  { destruct (arrival_inv cs Hcs data evs [] pipe_init w) as [Hw _]; try done.
    - apply pipe_inv_init.
    - cbn. rewrite Hparts. apply NoDup_zseq.
    - split; [by eapply done_inv|]. destruct w. by injection Hdone as <-. }
  clear Hrun Hdone w. destruct Hinv as [Hinv Hd].
  revert w1 Hinv Hd Hrun'. induction Hint as [|ev evs' Hi Hint IH]; intros w1 Hinv Hd; cbn [pipe_run].
  - intros [= ->]. split_and!; [simpl; lia| |].
    + intros He. by eapply (pipe_enabled cs data n).
    + intros He. by eapply (pipe_end_all cs data n).
  - destruct (pipe_step cs w1 ev) as [w3|] eqn:E; [|done]. intros Hrun'.
    pose proof (pipe_decreases cs Hcs data _ _ _ _ Hinv Hi E) as Hlt.
    pose proof (pipe_step_inv cs Hcs data _ _ _ _ Hinv Hi E) as Hinv3.
    assert (Hd3 : done (p_pq w3) = true).
    { clear -E Hd Hi Hinv. destruct w1 as [files pq fd dc buf out ck mc rd eof].
      destruct ev; try done; cbn in E, Hd |- *; repeat case_match; simplify_eq; cbn; try done;
      match goal with H : Popup _ = Some _ |- _ =>
        destruct (Popup_cases _ _ _ _ (pi_wf _ _ _ _ Hinv) H) as [(_ & -> & _)|(_ & _ & -> & _)]; done end. }
    destruct (IH w3 Hinv3 Hd3 Hrun') as (H1 & H2 & H3). split_and!; [cbn [length]; lia|done..].
Qed.

(** Two parts in reverse order, chunks of two bytes. *)
Definition demo_part (i : Z) : bytes :=
  String.list_ascii_of_string (if (i =? 1)%Z then "abc" else "de").
Definition demo_arrival : list pipe_event := [PPart 2 (demo_part 2); PPart 1 (demo_part 1); PPop].
Definition demo_drain : list pipe_event :=
  [PSend; PRecv; PEmit; PPop; PSend; PRecv; PEmit; PPop; PClose; PEmit; PRead; PRead; PRead].

Lemma pipeline_delivers_object_witness :
  ∃ w1 w2, (length demo_drain + pipe_left demo_part w2 ≤ pipe_left demo_part w1 ∧
  (p_eof w2 = false → ∃ ev w3, pipe_internal ev ∧ pipe_step 2 w2 ev = Some w3) ∧
  (p_eof w2 = true → p_read w2 = concat (demo_part <$> zseq 1 2))) ∧ p_eof w2 = true.
Proof.
  do 2 eexists. split.
  - eapply (pipeline_delivers_object 2 demo_part 2 demo_arrival _ demo_drain).
    + lia.
    + lia.
    + by intros [[=]|[[=]|[[=]|[]%elem_of_nil]%elem_of_cons]%elem_of_cons]%elem_of_cons.
    + exact (Permutation_cons_append [1]%Z 2%Z).
    + intros i d Hin. repeat (apply elem_of_cons in Hin as [[= -> ->]|Hin]; [done|]).
      by apply elem_of_cons in Hin as [[=]|[]%elem_of_nil].
    + by vm_compute.
    + by vm_compute.
    + by repeat constructor.
    + by vm_compute.
  - by vm_compute.
Defined.
