(* ===== verification/ZcnReader.v ===== *)
(** * The upload reader (MinioReader of cmd/gateway/zcn/helper.go)

    The SDK expects a reader that fills the buffer and reports [io.EOF] with the
    last bytes; request bodies deliver their bytes in pieces of any size.
    [MinioReader] closes the gap. A source is the pieces it will deliver and the
    error it ends with ([None] for [io.EOF]). *)

From Stdlib Require Import ZArith Lia Bool Ascii.
From S2P Require Import Prelude.

Section reader.
Context {A Err : Type}.
Abbreviation bytes := (list A).

Record Source := mkSource { pieces : list bytes; ending : option Err }.

(** An error value of [io]. *)
Inductive ioErr := Nil | EOF | UnexpectedEOF | Other (e : Err).

(** [Read] with a buffer of [k] bytes: one piece, or as much of it as fits. *)
Definition source_Read (k : nat) (src : Source) : bytes * ioErr * Source :=
  match pieces src with
  | [] => ([], match ending src with None => EOF | Some e => Other e end, src)
  | b :: rest =>
      if (length b <=? k)%nat then (b, Nil, mkSource rest (ending src))
      else (take k b, Nil, mkSource (drop k b :: rest) (ending src))
  end.

(** The loop of [io.ReadAtLeast(r, buf, len(buf))]: [n] bytes are still missing. *)
Fixpoint readLoop (fuel n : nat) (acc : bytes) (src : Source) : bytes * ioErr * Source :=
  match n with
  | 0 => (acc, Nil, src)
  | S _ =>
      match fuel with
      | 0 => (acc, Nil, src)
      | S fuel =>
          let '(b, err, src) := source_Read n src in
          match err with
          | Nil => readLoop fuel (n - length b) (acc ++ b) src
          | _ => (acc ++ b, err, src)
          end
      end
  end.

(** One round per piece and one for the end are enough. *)
Definition ReadAtLeast (plen : nat) (src : Source) : bytes * ioErr * Source :=
  let '(b, err, src') := readLoop (S (length (pieces src))) plen [] src in
  if (plen <=? length b)%nat then (b, Nil, src')
  else match err with
       | EOF => if (0 <? length b)%nat then (b, UnexpectedEOF, src') else (b, EOF, src')
       | _ => (b, err, src')
       end.

Definition MinioReader_Read (plen : nat) (src : Source) : bytes * ioErr * Source :=
  let '(b, err, src) := ReadAtLeast plen src in
  match err with UnexpectedEOF => (b, EOF, src) | _ => (b, err, src) end.

(** What the source still has to deliver. *)
Definition remaining (src : Source) : bytes := concat (pieces src).

Lemma readLoop_spec fuel n acc src :
  length (pieces src) < fuel →
  ∃ err src', readLoop fuel n acc src = (acc ++ take n (remaining src), err, src') ∧
    remaining src' = drop n (remaining src) ∧ ending src' = ending src ∧
    err = (if (n <=? length (remaining src))%nat then Nil
           else match ending src with None => EOF | Some e => Other e end).
Proof.
  revert n acc src. induction fuel as [|fuel IH]; intros n acc src Hf; [lia|].
  destruct n as [|n]; [exists Nil, src; by rewrite take_0, app_nil_r, drop_0|].
  destruct src as [[|b rest] e]; cbn [readLoop source_Read pieces].
  { exists (match e with None => EOF | Some e => Other e end), (mkSource [] e).
    by destruct e. }
  cbn [length pieces ending] in *. unfold remaining; cbn [pieces concat].
  destruct (Nat.leb_spec (length b) (S n)) as [Hle|Hgt].
  - destruct (IH (S n - length b) (acc ++ b) (mkSource rest e)) as (err & src' & Hl & Hr & He & Herr);
      [cbn; lia|]. exists err, src'. unfold remaining in *; cbn [pieces ending] in *.
    rewrite Hl, Hr, He, Herr, take_app_ge, drop_app_ge, app_assoc, length_app by done.
    replace (S n <=? length b + length (concat rest)) with (S n - length b <=? length (concat rest))
      by (apply eq_true_iff_eq; rewrite !Nat.leb_le; lia). done.
  - rewrite length_take, Nat.min_l, Nat.sub_diag by lia.
    exists Nil, (mkSource (drop (S n) b :: rest) e). unfold remaining; cbn [pieces concat ending].
    rewrite take_app_le, drop_app_le by lia. rewrite (proj2 (Nat.leb_le _ _)) by (rewrite length_app; lia).
    destruct fuel; done.
Qed.

(** A read through [MinioReader] delivers as many of the remaining bytes as
    fit the buffer, in order and without loss, however the source splits them;
    it reports no error if the buffer was filled and otherwise [io.EOF], or the
    source's own error, together with the last bytes. *)
Theorem minio_reader_fills plen src :
  ∃ src', MinioReader_Read plen src =
    (take plen (remaining src),
     if (plen <=? length (remaining src))%nat then Nil
     else match ending src with None => EOF | Some e => Other e end, src') ∧
    remaining src' = drop plen (remaining src) ∧ ending src' = ending src.
Proof.
  unfold MinioReader_Read, ReadAtLeast.
  destruct (readLoop_spec (S (length (pieces src))) plen [] src) as (err & src' & -> & Hr & He & ->);
    [lia|]. exists src'. cbn [app]. rewrite length_take.
  destruct (Nat.leb_spec plen (length (remaining src))) as [Hle|Hgt].
  - rewrite (proj2 (Nat.leb_le plen (plen `min` _))) by lia. done.
  - rewrite (proj2 (Nat.leb_gt plen (plen `min` _))) by lia. destruct (ending src); [done|].
    by destruct (0 <? plen `min` length (remaining src)).
Qed.
End reader.
