(* ===== verification/ZcnConfig.v ===== *)
(** * Starting the gateway (cmd/gateway/zcn/initSDK.go, NewGatewayLayer of
    gateway-zcn.go)

    What the start-up reads and the SDK calls it makes are parameters ([Env]);
    modelled is what it decides: the allocation id, the options and their
    defaults, and when it refuses to start. *)

From Stdlib Require Import ZArith Lia Bool Ascii.
From S2P Require Import Prelude GoStrings GoPath ZcnErrors.

Local Open Scope go_scope.

Record serverOptions := mkOptions {
  Encrypt : bool;
  Compress : bool;
  MaxBatchSize : Z;
  BatchWaitTime : Z;
  BatchWorkers : Z;
  UploadWorkers : Z;
  DownloadWorkers : Z;
  MaxConcurrentRequests : Z;
}.
Definition noOptions : serverOptions := mkOptions false false 0 0 0 0 0 0.

(** The files and services the start-up talks to. *)
Class Env := {
  homeDir : outcome error string;
  os_Stat : string → option error;
  os_ReadFile : string → outcome error string;
  parseOptions : string → outcome error serverOptions;
  loadConfigFile : string → option error;
  initClient : option error;
  setWallet : string → option error;
  getAllocation : string → option error;
  allocStatusBroken : string → bool;
}.

Record Globals := mkGlobals {
  g_allocationID : string;
  g_options : serverOptions;
  g_encrypt : bool;
  g_compress : bool;
  g_wallet : string;
}.

Definition getDefaultConfigDir `{Env} : outcome error string :=
  home ←? homeDir; Ok (Join [home; ".zcn"]).

(** The defaults for options that are missing or zero. *)
Definition withDefaults (o : serverOptions) : serverOptions :=
  let o :=
    if (MaxBatchSize o =? 0)%Z then
      mkOptions (Encrypt o) (Compress o) 25 500 5 (UploadWorkers o) (DownloadWorkers o)
        (MaxConcurrentRequests o)
    else if (BatchWorkers o =? 0)%Z then
      mkOptions (Encrypt o) (Compress o) (MaxBatchSize o) (BatchWaitTime o) 5 (UploadWorkers o)
        (DownloadWorkers o) (MaxConcurrentRequests o)
    else if (BatchWaitTime o =? 0)%Z then
      mkOptions (Encrypt o) (Compress o) (MaxBatchSize o) 500 (BatchWorkers o) (UploadWorkers o)
        (DownloadWorkers o) (MaxConcurrentRequests o)
    else o in
  if (MaxConcurrentRequests o =? 0)%Z then
    mkOptions (Encrypt o) (Compress o) (MaxBatchSize o) (BatchWaitTime o) (BatchWorkers o)
      (UploadWorkers o) (DownloadWorkers o) (MaxBatchSize o)
  else o.

Definition newline : ascii := "010"%char.

(** The allocation id in the file, without blanks and line ends. *)
Definition readAllocationID `{Env} (configDir : string) : outcome error string :=
  allocBytes ←? os_ReadFile (Join [configDir; "allocation.txt"]);
  let allocationID := remove_char newline (remove_char " "%char allocBytes) in
  if (String.length allocationID =? 64)%nat then Ok allocationID
  else Err (ErrorString "allocation id has wrong length, should be 64").

Definition check_err (e : option error) : outcome error () :=
  match e with Some e => Err e | None => Ok () end.

Definition initializeSDK `{Env} (configDir allocid walletDetails : string) : outcome error Globals :=
  configDir ←? (if String.eqb configDir "" then getDefaultConfigDir else Ok configDir);
  _ ←? check_err (os_Stat configDir);
  allocationID ←? (if String.eqb allocid "" then readAllocationID configDir else Ok allocid);
  options ←? (match os_ReadFile (Join [configDir; "zs3server.json"]) with
              | Ok optionBytes => parseOptions optionBytes
              | Err _ => Ok noOptions
              | Panic w => Panic w
              end);
  let serverConfig := withDefaults options in
  _ ←? check_err (loadConfigFile (Join [configDir; "config.yaml"]));
  walletInfo ←? (if String.eqb walletDetails "" then os_ReadFile (Join [configDir; "wallet.json"])
                 else Ok walletDetails);
  _ ←? check_err initClient;
  _ ←? check_err (setWallet walletInfo);
  Ok (mkGlobals allocationID serverConfig (Encrypt options) (Compress options) walletInfo).

(** [NewGatewayLayer]: the arguments of [IntiBatchUploadWorkers] (wait time,
    operations per batch, workers) when the gateway starts. *)
Definition NewGatewayLayer `{Env} (configDir allocid walletDetails : string)
    : outcome error (Globals * (Z * Z * Z)) :=
  g ←? initializeSDK configDir allocid walletDetails;
  _ ←? check_err (getAllocation (g_allocationID g));
  if allocStatusBroken (g_allocationID g) then Err (ErrorString "allocation_broken")
  else
    _ ←? homeDir;
    Ok (g, (BatchWaitTime (g_options g), MaxBatchSize (g_options g), BatchWorkers (g_options g))).

(** ** What the start-up guarantees *)
Lemma withDefaults_nonzero o :
  (MaxBatchSize (withDefaults o) ≠ 0 ∧ BatchWorkers (withDefaults o) ≠ 0 ∧
   MaxConcurrentRequests (withDefaults o) ≠ 0)%Z.
Proof.
  destruct o as [e c mb wt bw uw dw mc]. unfold withDefaults; cbn.
  destruct (Z.eqb_spec mb 0), (Z.eqb_spec bw 0), (Z.eqb_spec wt 0); cbn;
    destruct (Z.eqb_spec mc 0); cbn; split_and!; done.
Qed.

Lemma readAllocationID_clean `{Env} dir id :
  readAllocationID dir = Ok id →
  String.length id = 64 ∧ no_char " "%char id = true ∧ no_char newline id = true.
Proof.
  unfold readAllocationID. destruct (os_ReadFile _) as [b| |]; [|done..]. cbn [obind].
  set (id0 := remove_char newline (remove_char " "%char b)).
  destruct (Nat.eqb_spec (String.length id0) 64) as [Hl|]; [|done]. intros [= <-].
  split_and!; [done| |apply remove_char_none].
  assert (Hr : ∀ c d s, no_char d s = true → no_char d (remove_char c s) = true).
  { clear. intros c d s. induction s as [|a s IH]; [done|]. cbn. intros [Ha Hs]%andb_true_iff.
    destruct (Ascii.eqb a c); [by apply IH|]. cbn. by rewrite Ha, IH. }
  apply Hr, remove_char_none.
Qed.

Lemma initializeSDK_inv `{Env} configDir allocid wallet g :
  initializeSDK configDir allocid wallet = Ok g →
  ∃ options, g_options g = withDefaults options ∧
    (allocid = "" → ∃ dir, readAllocationID dir = Ok (g_allocationID g)).
Proof.
  unfold initializeSDK.
  intros (dir & _ & (_ & _ & (id & Hid & (options & _ & (_ & _ & Hok)%obind_ok)%obind_ok)%obind_ok)%obind_ok)%obind_ok.
  apply obind_ok in Hok as (w & _ & (_ & _ & (_ & _ & Hok)%obind_ok)%obind_ok).
  injection Hok as <-. exists options. split; [done|]. intros ->. by exists dir.
Qed.

(** A gateway that starts has a non-zero batch size, worker count and request
    limit; an allocation id taken from the configuration has 64 characters, none of
    them a blank or a line end; and its allocation is not broken. *)
Theorem gateway_start_config `{Env} configDir allocid wallet g waitTime maxOps maxWorkers :
  NewGatewayLayer configDir allocid wallet = Ok (g, (waitTime, maxOps, maxWorkers)) →
  (maxOps ≠ 0 ∧ maxWorkers ≠ 0 ∧ MaxConcurrentRequests (g_options g) ≠ 0)%Z ∧
  (allocid = "" → String.length (g_allocationID g) = 64 ∧
     no_char " "%char (g_allocationID g) = true ∧ no_char newline (g_allocationID g) = true) ∧
  allocStatusBroken (g_allocationID g) = false.
Proof.
  unfold NewGatewayLayer. intros (g' & Hg & (_ & _ & Hok)%obind_ok)%obind_ok.
  apply initializeSDK_inv in Hg as (options & Ho & Hid).
  destruct (allocStatusBroken (g_allocationID g')) eqn:Eb; [done|].
  apply obind_ok in Hok as (_ & _ & Hok). injection Hok as -> <- <- <-. rewrite Ho.
  split_and!; try apply withDefaults_nonzero; [|done].
  intros Ha. destruct (Hid Ha) as [dir Hr]. by apply readAllocationID_clean in Hr.
Qed.

(** A configuration that sets the batch size but neither the number of workers
    nor the wait time gets no default wait time: the batches are sent without
    waiting, where a configuration without a batch size waits 500 milliseconds. *)
Theorem wait_time_default_skipped o :
  MaxBatchSize o ≠ 0%Z → BatchWorkers o = 0%Z → BatchWaitTime o = 0%Z →
  BatchWaitTime (withDefaults o) = 0%Z ∧ BatchWorkers (withDefaults o) = 5%Z.
Proof.
  destruct o as [e c mb wt bw uw dw mc]; cbn. intros Hm -> ->. unfold withDefaults; cbn.
  rewrite (proj2 (Z.eqb_neq mb 0) Hm). cbn. by destruct (mc =? 0)%Z.
Qed.

(** An environment in which the gateway starts. *)
Definition demo_env : Env := {|
  homeDir := Ok "/home/u";
  os_Stat _ := None;
  os_ReadFile p :=
    if String.eqb (Base p) "allocation.txt"
    then Ok (String "0" (String " " (str_join "" (replicate 63 "a") +:+ String newline "")))
    else Ok "{}";
  parseOptions _ := Ok noOptions;
  loadConfigFile _ := None;
  initClient := None;
  setWallet _ := None;
  getAllocation _ := None;
  allocStatusBroken _ := false;
|}.

Lemma gateway_start_config_witness :
  ∃ (g : Globals) (maxOps maxWorkers : Z),
  (maxOps ≠ 0 ∧ maxWorkers ≠ 0 ∧ MaxConcurrentRequests (g_options g) ≠ 0)%Z ∧
  ("" = "" → String.length (g_allocationID g) = 64 ∧
     no_char " "%char (g_allocationID g) = true ∧ no_char newline (g_allocationID g) = true) ∧
  allocStatusBroken (Env := demo_env) (g_allocationID g) = false.
Proof.
  do 3 eexists. apply (gateway_start_config (H := demo_env) "" "" "" _ 500 25 5).
  by vm_compute.
Defined.

Lemma wait_time_default_skipped_witness :
  BatchWaitTime (withDefaults (mkOptions false false 10 0 0 0 0 0)) = 0%Z ∧
  BatchWorkers (withDefaults (mkOptions false false 10 0 0 0 0 0)) = 5%Z.
Proof. by apply wait_time_default_skipped. Defined.
