(* ===== verification/ZcnUpload.v ===== *)
(** * The batch uploader at work on the store (worker.go and the end of putFile)

    ZcnWorker leaves what the SDK answers open. Here the uploader runs on a store:
    a worker that finishes its batch has called [DoMultiOperation] with the
    requests of the batch, and other handlers use the store in between. What
    [putFile] does with a request of known size, [batchUploadChan <- opRequest]
    and then [<-opCtx.Done()], is [submit]: the request enters the channel, and
    the goroutines run until its cancel function is called or the context of the
    caller ends. *)

From Stdlib Require Import ZArith Lia Bool.
From S2P Require Import Prelude GoStrings ZcnErrors ZcnAlloc ZcnStore ZcnWorker.

(** An action of the system [putFile] waits in. *)
Inductive uevent :=
  | UWork (ev : event)                        (** an action of ZcnWorker other than a finished batch *)
  | UFinish (i : nat)                         (** [DoMultiOperation] of worker [i], and its reports *)
  | UOther (ops : list OperationRequest)      (** another handler calls [DoMultiOperation] *)
  | UParent (cause : error).                  (** the context of the waiting caller ends *)

(** Where a caller of [putFile] finds the uploader: its configuration and state,
    the identity of the caller's request, and the actions that happen before the
    channel takes the request and after it. *)
Class BatchUpload := {
  bu_maxOperations : Z;
  bu_maxWorkers : nat;
  bu_world : World;
  bu_id : nat;
  bu_before : list uevent;
  bu_after : list uevent;
}.

Section upload.
Context {St : Type} `{!Allocation St, !ZErrorPkg, !BatchUpload}.
Abbreviation step := (worker_step bu_maxOperations bu_maxWorkers).

Definition with_store (st : St) (w : option World) : option (St * World) := pair st <$> w.

Definition upload_step (s : St * World) (ev : uevent) : option (St * World) :=
  let '(st, w) := s in
  match ev with
  | UWork (EFinish _ _) => None
  | UWork ev => with_store st (step w ev)
  | UFinish i =>
      match workers w !! i with
      | Some (Busy b) =>
          match DoMultiOperation (b_req <$> b) st with
          | (Ok _, st) => with_store st (step w (EFinish i None))
          | (Err err, st) => with_store st (step w (EFinish i (Some err)))
          | (Panic _, _) => None
          end
      | _ => None
      end
  | UOther ops => let '(_, st) := DoMultiOperation ops st in Some (st, w)
  | UParent _ => Some s
  end.

(** The argument of the first call of the cancel function of request [id]. *)
Fixpoint reported (id : nat) (fin : list (batchOp * option error)) : option (option error) :=
  match fin with
  | [] => None
  | (op, err) :: fin => if (b_id op =? id)%nat then Some err else reported id fin
  end.

(** [<-opCtx.Done()]; a run of actions that leaves the caller waiting ends in a
    panic value. *)
Fixpoint await (id : nat) (evs : list uevent) (s : St * World) : outcome error CtxEnd * St :=
  match reported id (finished s.2) with
  | Some err => (Ok (OwnCancel err), s.1)
  | None =>
      match evs with
      | [] => (Panic "waiting", s.1)
      | UParent cause :: _ => (Ok (ParentDone cause), s.1)
      | ev :: evs =>
          match upload_step s ev with
          | Some s => await id evs s
          | None => (Panic "not enabled", s.1)
          end
      end
  end.

(** [batchUploadChan <- opRequest; <-opCtx.Done()]. The send waits while the
    channel is full. *)
Fixpoint upload_run (s : St * World) (evs : list uevent) : option (St * World) :=
  match evs with
  | [] => Some s
  | ev :: evs => match upload_step s ev with Some s => upload_run s evs | None => None end
  end.

Definition submit (op : OperationRequest) : M St error CtxEnd := λ st,
  match upload_run (st, bu_world) bu_before with
  | None => (Panic "not enabled", st)
  | Some (st, w) =>
      match step w (EPut (mkBatchOp bu_id op)) with
      | Some w => await bu_id bu_after (st, w)
      | None => (Panic "waiting", st)
      end
  end.
End upload.

(** ** What a report means *)

(** A request that leaves the reference stored at [p] alone. *)
Definition spares (p : string) (op : OperationRequest) : Prop :=
  match op_OperationType op with
  | FileOperationDelete => underb (op_RemotePath op) p = false
  | FileOperationCreateDir => underb p (op_RemotePath op) = false
  | FileOperationInsert | FileOperationUpdate => underb p (fm_RemotePath (op_FileMeta op)) = false
  | FileOperationCopy => False
  end.

Lemma op_effect_spares p op t t' : op_effect op t t' → spares p op → t' !! p = t !! p.
Proof.
  unfold op_effect, spares. destruct (op_OperationType op); intros H Hs; [| | | |done].
  - by apply H.
  - by apply H.
  - by rewrite H, Hs.
  - by apply H.
Qed.

(** The file of an upload is stored: the reference that [op_effect] promises. *)
Definition file_stored (op : OperationRequest) (t : gmap string ORef) : Prop :=
  let fm := op_FileMeta op in
  ∃ r, t !! fm_RemotePath fm = Some r ∧ is_dir r = false ∧ ref_Path r = fm_RemotePath fm
       ∧ ref_Name r = fm_RemoteName fm ∧ ref_MimeType r = fm_MimeType fm
       ∧ ref_CustomMeta r = fm_CustomMeta fm
       ∧ (op_StreamUpload op = false → ref_ActualFileSize r = fm_ActualSize fm).

Definition is_upload (op : OperationRequest) : Prop :=
  op_OperationType op = FileOperationInsert ∨ op_OperationType op = FileOperationUpdate.

Abbreviation path_of op := (fm_RemotePath (op_FileMeta op)).

Lemma ops_effect_keeps op ops t t' :
  is_upload op → ops_effect ops t t' → Forall (λ x, x = op ∨ spares (path_of op) x) ops →
  file_stored op t ∨ op ∈ ops → file_stored op t'.
Proof.
  intros Hup. induction 1 as [|x ops t t1 t2 Hx _ IH]; intros Hall Hin.
  { destruct Hin as [|Hin]; [done|]. by apply elem_of_nil in Hin. }
  apply Forall_cons in Hall as [[->|Hs] Hall]; apply IH; try done.
  - left. unfold op_effect in Hx. by destruct Hup as [E|E]; rewrite E in Hx; destruct Hx.
  - destruct Hin as [(r & Hr & Hrest)|Hin].
    + left. exists r. by rewrite (op_effect_spares _ _ _ _ Hx Hs).
    + apply elem_of_cons in Hin as [<-|Hin]; [|by right].
      left. unfold op_effect in Hx. by destruct Hup as [E|E]; rewrite E in Hx; destruct Hx.
Qed.

(** The requests that other callers send. *)
Definition sent_in (ev : uevent) : list batchOp :=
  match ev with UWork (EPut x) => [x] | _ => [] end.

(** No other upload in progress has the caller's identity, or concerns [p] or a
    path below it; the caller's request has not been reported. *)
Definition alone_at `{!BatchUpload} (p : string) : Prop :=
  Forall (λ x, b_id x ≠ bu_id ∧ spares p (b_req x))
    (outstanding bu_world ++ mjoin (sent_in <$> (bu_before ++ bu_after))) ∧
  reported bu_id (finished bu_world) = None.

Section reports.
Context {St : Type} `{!Allocation St, !StoreLaws St, !ZErrorPkg, HB : !BatchUpload}.

(** No action invents a request. *)
Lemma step_outstanding mo mw w ev w' :
  worker_step mo mw w ev = Some w' →
  ∀ x, x ∈ outstanding w' → x ∈ outstanding w ∨ ev = EPut x.
Proof.
  destruct w as [dn ch ops it p wch ws fin snt]. unfold outstanding. intros E x.
  destruct ev as [op| | | | |i|i err| | |i]; cbn in E.
  - case_match; simplify_eq; cbn. rewrite !elem_of_app, list_elem_of_singleton. naive_solver.
  - destruct p, ch; try done. case_match; simplify_eq; cbn; rewrite ?elem_of_app, ?list_elem_of_singleton, ?elem_of_cons; naive_solver.
  - destruct p; try done. case_match; simplify_eq; by left.
  - destruct p; try done. case_match; simplify_eq; by left.
  - destruct p; try done. case_match; simplify_eq; cbn. rewrite concat_snoc, !elem_of_app. naive_solver.
  - destruct (ws !! i) as [[]|] eqn:Ei, wch; simplify_eq; cbn.
    rewrite (busy_take _ _ _ Ei). cbn. rewrite !elem_of_app. naive_solver.
  - destruct (ws !! i) as [[|b|]|] eqn:Ei; simplify_eq; cbn.
    rewrite (busy_finish _ _ _ Ei). cbn. rewrite !elem_of_app. naive_solver.
  - simplify_eq. by left.
  - destruct dn, p; simplify_eq. by left.
  - destruct dn, (ws !! i) as [[]|] eqn:Ei; simplify_eq; cbn. rewrite (busy_return _ _ Ei). by left.
Qed.

Lemma step_finished mo mw w ev w' :
  worker_step mo mw w ev = Some w' → (∀ i err, ev ≠ EFinish i err) → finished w' = finished w.
Proof.
  destruct w as [dn ch ops it p wch ws fin snt]. intros E Hn.
  destruct ev; cbn in E; repeat case_match; simplify_eq; try done. by edestruct Hn.
Qed.

Lemma reported_app id fin fin' :
  reported id (fin ++ fin') =
  match reported id fin with Some err => Some err | None => reported id fin' end.
Proof. induction fin as [|[op err] fin IH]; simpl; [done|]. destruct (b_id op =? id); [done|apply IH]. Qed.

Lemma reported_tagged id err b :
  match reported id ((λ op, (op, err)) <$> b) with
  | Some err' => err' = err ∧ ∃ x, x ∈ b ∧ b_id x = id
  | None => Forall (λ x, b_id x ≠ id) b
  end.
Proof.
  induction b as [|x b IH]; simpl; [done|]. destruct (Nat.eqb_spec (b_id x) id) as [E|E].
  - split; [done|]. exists x. split; [left|done].
  - destruct (reported id _); [|by constructor]. destruct IH as (-> & y & Hy & Hid).
    split; [done|]. exists y. split; [by right|done].
Qed.

Definition spared (op : OperationRequest) (x : batchOp) : Prop :=
  b_id x ≠ bu_id ∧ spares (path_of op) (b_req x).

(** The requests of the world are the caller's or spare its path. *)
Definition mine_or_spared (op : OperationRequest) (x : batchOp) : Prop :=
  x = mkBatchOp bu_id op ∨ spared op x.

(** The caller's request is not reported; every other request is of the kind [Q]. *)
Definition waiting (Q : batchOp → Prop) (w : World) : Prop :=
  (∀ x, x ∈ outstanding w → Q x) ∧ reported bu_id (finished w) = None.

(** The batch that reports the caller's request, as the SDK executed it. *)
Definition executed (op : OperationRequest) (err : option error) (st' : St) : Prop :=
  ∃ ops st r, op ∈ ops ∧ Forall (λ x, x = op ∨ spares (path_of op) x) ops ∧
    DoMultiOperation ops st = (r, st') ∧
    match r with Ok _ => err = None | Err e => err = batchError (Some e) | Panic _ => False end.

Section kind.
Context (op : OperationRequest) (Q : batchOp → Prop) (HQ : ∀ x, Q x → mine_or_spared op x).

Lemma worker_step_waiting w ev w' :
  worker_step bu_maxOperations bu_maxWorkers w ev = Some w' → (∀ i err, ev ≠ EFinish i err) →
  waiting Q w → (∀ x, ev = EPut x → Q x) → waiting Q w'.
Proof.
  intros Hs Hn [Hw Hr] Hp. split; [|by rewrite (step_finished _ _ _ _ _ Hs Hn)].
  intros x Hx. destruct (step_outstanding _ _ _ _ _ Hs x Hx) as [?|?]; auto.
Qed.

(** What a state after some actions tells of the caller's request. *)
Definition progress (st' : St) (w' : World) : Prop :=
  match reported bu_id (finished w') with
  | None => waiting Q w'
  | Some e => executed op e st' ∧ ∃ x, Q x ∧ b_id x = bu_id
  end.

Lemma finish_waiting st st' (r : outcome error ()) w i b err w' :
  waiting Q w → workers w !! i = Some (Busy b) →
  DoMultiOperation (b_req <$> b) st = (r, st') →
  match r with Ok _ => err = None | Err e => err = Some e | Panic _ => False end →
  worker_step bu_maxOperations bu_maxWorkers w (EFinish i err) = Some w' → progress st' w'.
Proof.
  intros [Hw Hrep] Hi Hd Hr Hs. pose proof (step_outstanding _ _ _ _ _ Hs) as Hout. unfold progress.
  destruct w as [dn ch ops it p wch ws fin snt]; cbn in *. rewrite Hi in Hs. simplify_eq. cbn in *.
  rewrite reported_app, Hrep.
  assert (Hb : ∀ x, x ∈ b → Q x).
  { intros x Hx. apply Hw. unfold outstanding; cbn. rewrite (busy_finish _ _ _ Hi). cbn.
    rewrite !elem_of_app. by do 2 left. }
  pose proof (reported_tagged bu_id (batchError err) b) as Ht.
  destruct (reported bu_id (_ <$> b)) as [e|] eqn:Er.
  - destruct Ht as (-> & x & Hx & Hid). split; [|by eauto].
    exists (b_req <$> b), st, r. split_and!; [|..|done|].
    + destruct (HQ x (Hb x Hx)) as [->|[? _]]; [|done].
      by apply list_elem_of_fmap_2 with (f := b_req) in Hx.
    + apply Forall_fmap, Forall_forall. intros y [->|[_ ?]]%Hb%HQ; [by left|by right].
    + destruct r; [by rewrite Hr|by rewrite Hr|done].
  - split; cbn; [|by rewrite reported_app, Hrep, Er]. intros x Hx. destruct (Hout x Hx) as [?|?]; [auto|done].
Qed.

Lemma upload_step_waiting st w ev st' w' :
  upload_step (st, w) ev = Some (st', w') → waiting Q w → Forall Q (sent_in ev) → progress st' w'.
Proof.
  intros Hs Hw Hp. destruct ev as [ev|i|ops|c]; simpl in Hs.
  - assert (Hn : ∀ i err, ev ≠ EFinish i err) by (intros i err ->; done).
    assert (Hs' : worker_step bu_maxOperations bu_maxWorkers w ev = Some w').
    { destruct ev; try done; unfold with_store in Hs;
        apply fmap_Some in Hs as (w1 & ? & [= _ <-]); done. }
    assert (Hw' : waiting Q w').
    { apply (worker_step_waiting w ev w' Hs' Hn Hw). intros x ->. by inversion Hp. }
    unfold progress. by rewrite (proj2 Hw').
  - destruct (workers w !! i) as [[|b|]|] eqn:Ei; try done.
    destruct (DoMultiOperation _ st) as [[[]|e|] st1] eqn:Ed; [..|done];
      apply fmap_Some in Hs as (w1 & Hs & [= -> <-]);
      eapply finish_waiting; try done; by rewrite ?Ed.
  - destruct (DoMultiOperation ops st). simplify_eq. unfold progress. by rewrite (proj2 Hw).
  - simplify_eq. unfold progress. by rewrite (proj2 Hw).
Qed.

Lemma await_executed evs st w err st' :
  waiting Q w → Forall Q (mjoin (sent_in <$> evs)) →
  await bu_id evs (st, w) = (Ok (OwnCancel err), st') → executed op err st'.
Proof.
  revert st w. induction evs as [|ev evs IH]; intros st w Hw; cbn [await fst snd]; rewrite (proj2 Hw).
  { done. }
  cbn. intros [Hp Hps]%Forall_app.
  assert (Hgo : match upload_step (st, w) ev with
                | Some s => await bu_id evs s
                | None => (Panic "not enabled", st)
                end = (Ok (OwnCancel err), st') → executed op err st').
  { destruct (upload_step (st, w) ev) as [[st1 w1]|] eqn:Es; [|done].
    pose proof (upload_step_waiting _ _ _ _ _ Es Hw Hp) as H1. unfold progress in H1.
    destruct (reported bu_id (finished w1)) as [e|] eqn:Er; [|by apply IH].
    destruct H1 as [H1 _]. destruct evs; cbn [await fst snd]; rewrite Er; by intros [= <- <-]. }
  by destruct ev.
Qed.
End kind.

(** Before the request is sent, nothing reports it. *)
Lemma before_waiting op evs st w st' w' :
  waiting (spared op) w → Forall (spared op) (mjoin (sent_in <$> evs)) →
  upload_run (st, w) evs = Some (st', w') → waiting (spared op) w'.
Proof.
  revert st w. induction evs as [|ev evs IH]; intros st w Hw; cbn [upload_run];
    [by intros _ [= _ <-]|].
  intros Hall. change (Forall (spared op) (sent_in ev ++ mjoin (sent_in <$> evs))) in Hall.
  apply Forall_app in Hall as [Hp Hps]. destruct (upload_step (st, w) ev) as [[st1 w1]|] eqn:Es; [|done].
  apply IH; [|done].
  pose proof (upload_step_waiting op (spared op) (λ x H, or_intror H) _ _ _ _ _ Es Hw Hp) as H1.
  unfold progress in H1. destruct (reported _ _); [|done]. destruct H1 as (_ & x & [Hx _] & Hid). by destruct Hx.
Qed.

(** Every report is the outcome of a batch with the request. *)
Lemma submit_executed op st err st' :
  alone_at (path_of op) → submit op st = (Ok (OwnCancel err), st') → executed op err st'.
Proof.
  intros [Hall Hrep]. apply Forall_app in Hall as [Hout Hsent].
  rewrite fmap_app, join_app in Hsent. apply Forall_app in Hsent as [Hbef Haft]. unfold submit.
  destruct (upload_run (st, bu_world) bu_before) as [[st1 w1]|] eqn:Eb; [|done].
  assert (Hw : waiting (spared op) w1).
  { eapply before_waiting; [|exact Hbef|exact Eb]. split; [by apply Forall_forall|done]. }
  destruct (worker_step _ _ w1 _) as [w2|] eqn:Es; [|done].
  apply (await_executed op (mine_or_spared op) (λ x H, H)).
  - apply (worker_step_waiting (mine_or_spared op) w1 _ w2 Es); [done| |by intros x [= <-]; left].
    destruct Hw as [Hw Hr]. split; [|done]. intros x Hx. right. by apply Hw.
  - eapply Forall_impl; [exact Haft|]. by right.
Qed.

Lemma await_parent id evs (s : St * World) c st' :
  await id evs s = (Ok (ParentDone c), st') → UParent c ∈ evs.
Proof.
  revert s. induction evs as [|ev evs IH]; intros s; cbn [await];
    destruct (reported id _); try done.
  destruct ev; try (destruct (upload_step s _); [|done]; intros ?%IH; by right).
  intros [= -> _]. left.
Qed.

Lemma submit_parent op st c st' : submit op st = (Ok (ParentDone c), st') → UParent c ∈ bu_after.
Proof.
  unfold submit. destruct (upload_run _ _) as [[st1 w]|]; [|done].
  destruct (worker_step _ _ w _); [|done]. apply await_parent.
Qed.

Lemma batchError_not_canceled err e : batchError err = Some e → e ≠ Canceled.
Proof.
  destruct err as [x|]; [|done]. cbn. destruct (Contains _ _); [done|].
  destruct x; intros [= <-]; done.
Qed.

(** A worker never reports [context.Canceled], and reports no error only when the
    SDK answered none, with the request's file stored, or the same-root error. *)
Lemma executed_not_canceled op err st' : executed op err st' → err ≠ Some Canceled.
Proof.
  intros (ops & st & [[]|e|] & _ & _ & _ & Hr); [by subst| |done].
  intros ->. by eapply batchError_not_canceled.
Qed.

Lemma executed_stored op st' :
  is_upload op → executed op None st' →
  ∃ ops st r, op ∈ ops ∧ DoMultiOperation ops st = (r, st') ∧
    (r = Ok () ∧ file_stored op (tree st') ∨
     ∃ e, r = Err e ∧ isSameRootError (Some e) = true).
Proof.
  intros Hup (ops & st & r & Hin & Hall & Hd & Hr). exists ops, st, r. split_and!; [done..|].
  destruct r as [[]|e|]; [left|right|done].
  - split; [done|]. apply DoMultiOperation_ok in Hd. eapply ops_effect_keeps; eauto.
  - exists e. split; [done|]. cbn in *. destruct (Contains _ _); [done|]. by destruct e.
Qed.
End reports.
