(* ===== verification/ZcnObjects.v ===== *)
(** * The object-layer handlers (cmd/gateway/zcn/gateway-zcn.go) and putFile of
    dStorage.go

    One definition per handler, whole, over the state of the allocation. What the
    handlers call outside the repository is a parameter: the allocation
    ([Allocation]), JSON ([Json]), the table of content types
    ([MimeDB]). The batch uploader [putFile] hands its requests to is ZcnWorker
    and ZcnUpload; [BatchUpload] is the state a caller finds it in and what its
    goroutines and the other callers do meanwhile. *)

From Stdlib Require Import ZArith Lia Bool Ascii.
From S2P Require Import Prelude GoStrings GoPath GoHeap ZcnErrors ZcnPath ZcnTypes ZcnAlloc ZcnRefs ZcnStore ZcnListing ZcnWorker ZcnUpload.

Local Open Scope go_scope.

Class MimeDB := { TypeByExtension : string → string }.

(** A reader of an uploaded body: its bytes, and [Size()]. *)
Record PutObjReader := mkPutReader { pr_data : string; pr_Size : Z }.

Section handlers.
Context {St : Type} `{!Allocation St, !ZErrorPkg, !Json, !MimeDB, HBU : !BatchUpload}.
(** The package variable [encrypt]. *)
Context (encrypt : bool).

Definition customMetaOf (userDefined : StringMap) : string :=
  if (size userDefined =? 0)%nat then "" else json_Marshal userDefined.

Definition putFile (remotePath contentType : string) (r : string) (size : Z) (isUpdate : bool)
    (userDefined : StringMap) : M St error () :=
  let isStreamUpload := (size =? -1)%Z in
  let fileMeta := mkFileMeta remotePath (Base remotePath) (if isStreamUpload then 0%Z else size)
                    contentType (customMetaOf userDefined) in
  let opRequest :=
    mkOp (if isUpdate then FileOperationUpdate else FileOperationInsert) remotePath "" fileMeta
      (Some r) isStreamUpload (Some 120%Z) (Some encrypt) in
  if isStreamUpload then
    x ←r DoMultiOperation [opRequest];
    match x with
    | Err err => if isSameRootError (Some err) then mret_ok () else mfail err
    | Panic w => λ s, (Panic w, s)
    | Ok _ => mret_ok ()
    end
  else
    ended ←! submit opRequest;
    match putFile_result ended with Some err => mfail err | None => mret_ok () end.

Definition DeleteBucket (bucketName : string) (force : bool) : M St error () :=
  if String.eqb bucketName rootBucketName then mfail (ErrorString "cannot remove root path")
  else
    let remotePath := Join [rootPath; bucketName] in
    ref ←! getSingleRegularRef remotePath;
    if negb (is_dir ref) then mfail (ErrorString (bucketName +:+ " is object not bucket"))
    else if force || (ref_Size ref =? 0)%Z
    then DoMultiOperation [pathOp FileOperationDelete remotePath]
    else mfail (BucketNotEmpty bucketName).

Definition DeleteObject (now : Z) (bucket object : string) : M St error ObjectInfo :=
  let remotePath := objectRemotePath bucket object in
  r ←r getSingleRegularRef remotePath;
  match r with
  | Panic w => λ s, (Panic w, s)
  | Err err => if remotePathNotExistError (Some err) then mret_ok noObjectInfo else mfail err
  | Ok ref =>
      _ ←! DoMultiOperation [pathOp FileOperationDelete remotePath];
      mret_ok (mkObjectInfo bucket (ref_Name ref) now (ref_ActualFileSize ref) (is_dir ref)
                 "" "" "" ∅ 0)
  end.

(** Never an error of its own: one result and one error slot per object. *)
Definition DeleteObjects (bucket : string) (objects : list string)
    : M St error (list DeletedObject * list (option error)) :=
  let basePath := bucketRemotePath bucket in
  let ops := (λ object, pathOp FileOperationDelete (Join [basePath; object])) <$> objects in
  r ←r DoMultiOperation ops;
  match r with
  | Ok _ => mret_ok (mkDeleted <$> objects, (λ _, None) <$> objects)
  | Err err => mret_ok ((λ _, mkDeleted "") <$> objects, (λ _, Some err) <$> objects)
  | Panic w => λ s, (Panic w, s)
  end.

Definition GetBucketInfo (bucket : string) : M St error BucketInfo :=
  let remotePath := bucketRemotePath bucket in
  r ←r getSingleRegularRef remotePath;
  match r with
  | Panic w => λ s, (Panic w, s)
  | Err err =>
      if isPathNoExistError (Some err) then
        if String.eqb remotePath rootPath then mret_ok (mkBucketInfo rootBucketName 0)
        else mfail (BucketNotFound bucket)
      else mfail err
  | Ok ref =>
      if negb (is_dir ref) then mfail (BucketNotFound bucket)
      else mret_ok (mkBucketInfo (ref_Name ref) (ref_CreatedAt ref))
  end.

(** [object[len(object)-1] == '/'], for a non-empty name. *)
Definition ends_in_slash (object : string) : bool := HasSuffix object "/".

Definition userDefinedOf (customMeta : string) : StringMap :=
  if String.eqb customMeta "" then ∅ else json_Unmarshal customMeta.

Definition GetObjectInfo (now : Z) (bucket object : string) : M St error ObjectInfo :=
  let remotePath := objectRemotePath bucket object in
  r ←r getSingleRegularRef (Clean remotePath);
  match r with
  | Panic w => λ s, (Panic w, s)
  | Err err =>
      if isPathNoExistError (Some err) then mfail (ObjectNotFound bucket object) else mfail err
  | Ok ref =>
      if is_dir ref && negb (String.eqb object "") && negb (ends_in_slash object)
      then mfail (ObjectNotFound bucket object)
      else
        let ref := if is_dir ref then ref_as_directory ref else ref in
        mret_ok (mkObjectInfo bucket (getRelativePathOfObj (ref_Path ref) bucket)
                   (ref_UpdatedAt ref) (ref_ActualFileSize ref) (is_dir ref)
                   (ref_ActualFileHash ref) (ref_MimeType ref) ""
                   (userDefinedOf (ref_CustomMeta ref)) now)
  end.

Definition ListBuckets (now : Z) (fuel : nat) : M St error (list BucketInfo) :=
  r ←r getSingleRegularRef rootPath;
  match r with
  | Panic w => λ s, (Panic w, s)
  | Err err =>
      if isPathNoExistError (Some err)
      then mret_ok [mkBucketInfo rootBucketName (now - 30 * 3600 * 1000000000)%Z]
      else mfail err
  | Ok rootRef =>
      dirRefs ←! listRootDir fuel "d";
      mret_ok (mkBucketInfo rootBucketName (ref_CreatedAt rootRef) ::
               ((λ dirRef, mkBucketInfo (ref_Name dirRef) (ref_CreatedAt dirRef)) <$> dirRefs))
  end.

(** One entry of a listing. *)
Definition listedObject (bucket : string) (ref : ORef) : ObjectInfo :=
  mkObjectInfo bucket (getRelativePathOfObj (ref_Path ref) bucket) (ref_UpdatedAt ref)
    (ref_ActualFileSize ref) false (ref_ActualFileHash ref) (ref_MimeType ref) "STANDARD"
    (userDefinedOf (ref_CustomMeta ref)) 0.

Definition ListObjects (now : Z) (fuel : nat) (bucket prefix marker delimiter : string) (maxKeys : Z)
    : M St error ListObjectsInfo :=
  let remotePath := objectRemotePath bucket prefix in
  let objFileType := if String.eqb bucket rootBucketName then fileType else "" in
  r ←r getSingleRegularRef remotePath;
  match r with
  | Panic w => λ s, (Panic w, s)
  | Err err =>
      if isPathNoExistError (Some err) then mret_ok (mkListObjects false "" [] []) else mfail err
  | Ok ref =>
      if is_file ref then
        if HasSuffix prefix "/" then mret_ok (mkListObjects false "" [] [])
        else mret_ok (mkListObjects false ""
               [mkObjectInfo bucket (getRelativePathOfObj (ref_Path ref) bucket)
                  (ref_UpdatedAt ref) (ref_ActualFileSize ref) false (ref_ActualFileHash ref)
                  (ref_MimeType ref) "STANDARD" ∅ now] [])
      else
        let isDelimited := negb (String.eqb delimiter "") in
        let objFileType := if isDelimited then objFileType else fileType in
        x ←r listRegularRefs fuel remotePath marker objFileType maxKeys isDelimited;
        match x with
        | Panic w => λ s, (Panic w, s)
        | Err err =>
            if String.eqb remotePath rootPath && isPathNoExistError (Some err)
            then mret_ok (mkListObjects false "" [] []) else mfail err
        | Ok (refs, isTruncated, nextMarker, prefixes) =>
            let objects := listedObject bucket <$> filter (λ ref, is_dir ref = false) refs in
            mret_ok (mkListObjects isTruncated nextMarker objects prefixes)
        end
  end.

Definition ListObjectsV2 (now : Z) (fuel : nat) (bucket prefix continuationToken delimiter : string)
    (maxKeys : Z) (startAfter : string) : M St error ListObjectsV2Info :=
  let marker := if String.eqb continuationToken "" then startAfter else continuationToken in
  r ←! ListObjects now fuel bucket prefix marker delimiter maxKeys;
  mret_ok (mkListObjectsV2 (lo_IsTruncated r) continuationToken (lo_NextMarker r)
             (lo_Objects r) (lo_Prefixes r)).

Definition MakeBucketWithLocation (bucket : string) : M St error () :=
  if String.eqb bucket rootBucketName then mret_ok ()
  else DoMultiOperation [pathOp FileOperationCreateDir (Join [rootPath; bucket])].

Definition CopyObject (srcBucket srcObject destBucket destObject : string) : M St error ObjectInfo :=
  let srcRemotePath := objectRemotePath srcBucket srcObject in
  let dstRemotePath := objectRemotePath destBucket destObject in
  let answer : M St error ObjectInfo :=
    ref ←! getSingleRegularRef dstRemotePath;
    let ref := if is_dir ref then ref_as_directory ref else ref in
    mret_ok (mkObjectInfo destBucket destObject (ref_UpdatedAt ref) (ref_ActualFileSize ref)
               (is_dir ref) (ref_ActualFileHash ref) (ref_MimeType ref) "" ∅ 0) in
  if String.eqb srcRemotePath dstRemotePath then answer
  else
    _ ←! DoMultiOperation [mkOp FileOperationCopy srcRemotePath dstRemotePath noFileMeta None
                             false None None];
    answer.

(** ** [PutObject], with the path locks it takes

    The second component of the state is the list of paths this caller holds;
    [lockErr] is the error [lockPath] fails with when the caller's context ends
    while it waits (how the locks of several callers interact is ZcnLocks). *)
Abbreviation Held := (list string).

Definition store_call {A} (m : M St error A) : M (St * Held) error A :=
  λ '(s, held), let '(r, s) := m s in (r, (s, held)).

Definition lockPath (lockErr : option error) (path : string) : M (St * Held) error () :=
  λ '(s, held), match lockErr with
                | Some err => (Err err, (s, held))
                | None => (Ok (), (s, path :: held))
                end.

Fixpoint remove_path (path : string) (held : Held) : Held :=
  match held with
  | [] => []
  | q :: held => if String.eqb q path then held else q :: remove_path path held
  end.

Definition unlockPath (path : string) : St * Held → St * Held :=
  λ '(s, held), (s, remove_path path held).

(** [defer unlockPath(path)] around the rest of the function. *)
Definition defer_unlock {A} (path : string) (m : M (St * Held) error A) : M (St * Held) error A :=
  λ s, let '(r, s) := m s in (r, unlockPath path s).

(** What [PutObject] does after the lookup. *)
Definition putBody (now : Z) (bucket object remotePath : string) (r : PutObjReader)
    (userDefined : StringMap) (isUpdate : bool) : M St error ObjectInfo :=
  let contentType := default "" (userDefined !! "content-type") in
  let contentType := if String.eqb contentType "" then TypeByExtension (Ext object) else contentType in
  if String.eqb object "" then λ s, (Panic "index out of range", s)
  else if ends_in_slash object then
    let createDirOp :=
      mkOp FileOperationCreateDir remotePath ""
        (mkFileMeta "" "" 0 "" (json_Marshal userDefined)) None false None None in
    _ ←! DoMultiOperation [createDirOp];
    mret_ok (mkObjectInfo bucket object now 0 true s3ContentHash s3DirectoryContentType ""
               userDefined 0)
  else
    _ ←! putFile remotePath contentType (pr_data r) (pr_Size r) isUpdate userDefined;
    mret_ok (mkObjectInfo bucket object now (pr_Size r) false "" "" "" userDefined 0).

Definition PutObject (lockErr : option error) (now : Z) (bucket object : string) (r : PutObjReader)
    (userDefined : StringMap) : M (St * Held) error ObjectInfo :=
  let remotePath := objectRemotePath bucket object in
  _ ←! lockPath lockErr remotePath;
  x ←r store_call (getSingleRegularRef remotePath);
  match x with
  | Panic w => λ s, (Panic w, s)
  | Ok _ => λ s,
      store_call (putBody now bucket object remotePath r userDefined true) (unlockPath remotePath s)
  | Err err =>
      if isPathNoExistError (Some err)
      then defer_unlock remotePath
             (store_call (putBody now bucket object remotePath r userDefined false))
      else λ s, (Err err, unlockPath remotePath s)
  end.

(** ** [PutMultipleObjects]

    One goroutine per object looks its path up. A lookup error is sent on an
    unbuffered channel that the loop polls once per object without waiting;
    [received] is the object whose error a poll happens to receive, if any. A
    sender nobody receives from never finishes, and [wg.Wait()] with it. *)
Definition multiRequest (bucket object : string) (r : PutObjReader) (isUpdate : bool) : OperationRequest :=
  let remotePath := objectRemotePath bucket object in
  mkOp (if isUpdate then FileOperationUpdate else FileOperationInsert) "" ""
    (mkFileMeta remotePath (SplitFile remotePath) (pr_Size r) "" "")
    (Some (pr_data r)) false (Some 120%Z) (Some encrypt).

(** The lookups, in the order of the objects. *)
Fixpoint multiLookups (bucket : string) (objects : list string)
    : St → (list (error + bool)) * St :=
  match objects with
  | [] => λ s, ([], s)
  | object :: objects => λ s,
      let '(x, s) := getSingleRegularRef (objectRemotePath bucket object) s in
      let found :=
        match x with
        | Ok _ => inr true
        | Err err => if isPathNoExistError (Some err) then inr false else inl err
        | Panic w => inl (ErrorString w)
        end in
      let '(rest, s) := multiLookups bucket objects s in (found :: rest, s)
  end.

Definition lookup_errors (l : list (error + bool)) : list error :=
  omap (λ x, match x with inl e => Some e | inr _ => None end) l.

Definition PutMultipleObjects (received : option nat) (now : Z) (bucket : string)
    (objects : list string) (r : list PutObjReader) (nopts : nat) : M St error (list ObjectInfo) :=
  let total := length objects in
  if (total =? 0)%nat then mfail (ErrorString "no files to upload")
  else if negb (total =? length r)%nat || negb (total =? nopts)%nat
  then mfail (ErrorString "length mismatch of objects with file readers or with options")
  else λ s,
    let '(found, s) := multiLookups bucket objects s in
    match lookup_errors found with
    | [] =>
        let ops := zip_with (λ '(object, rd) x,
                       multiRequest bucket object rd (match x with inr b => b | inl _ => false end))
                     (zip objects r) found in
        let infos := zip_with (λ object rd,
                       mkObjectInfo bucket object now (pr_Size rd) false "" "" "" ∅ 0) objects r in
        (_ ←! DoMultiOperation ops; mret_ok infos) s
    | _ :: _ =>
        match received with
        | Some i => match found !! i with
                    | Some (inl err) => (Err err, s)
                    | _ => (Panic "blocked in wg.Wait", s)
                    end
        | None => (Panic "blocked in wg.Wait", s)
        end
    end.
End handlers.
