(* ===== verification/ZcnObjectsProofs.v ===== *)
(** * What the object-layer handlers promise

    Theorems about ZcnObjects, from the laws of the allocation ([StoreLaws],
    [PagedLaws]). *)

From Stdlib Require Import ZArith Lia Bool Ascii.
From S2P Require Import Prelude GoStrings GoPath GoHeap ObjectNames ZcnErrors ZcnPath ZcnTypes ZcnAlloc ZcnRefs ZcnStore ZcnListing ZcnWorker ZcnUpload ZcnObjects.

Local Open Scope go_scope.

(** ** Lemmas *)
Lemma valid_object_ne o : valid_object o → o ≠ "" ∧ ends_in_slash o = false.
Proof.
  intros [Ho Hp]. pose proof (valid_name_plain o Ho Hp) as Hpl. split.
  - intros ->. by inversion Hpl.
  - unfold ends_in_slash. destruct (HasSuffix o "/") eqn:E; [|done]. exfalso.
    apply HasSuffix_spec in E as [r ->]. unfold elems in Hpl.
    change (r +:+ "/") with (r +:+ String slash "") in Hpl. rewrite split_char_sep in Hpl.
    apply Forall_app in Hpl as [_ Hl]. by inversion Hl.
Qed.

Lemma valid_bucket_path b :
  valid_bucket b → b ≠ rootBucketName →
  Join [rootPath; b] = bucketRemotePath b ∧ bucketRemotePath b = abs_path [b] ∧ plain b = true.
Proof.
  intros [Hb Hm] Hr. pose proof (valid_bucket_plain b Hb Hm) as Hpl.
  rewrite bucketRemotePath_plain by done. split_and!; [|done|done].
  unfold rootPath. rewrite Join_abs. simpl. rewrite elems_plain_name by done.
  by rewrite clean_elems_plain by by repeat constructor.
Qed.

Lemma Base_bucket b : plain b = true → Base (abs_path [b]) = b.
Proof.
  intros Hb. unfold Base. rewrite elems_abs_path by (done || by repeat constructor).
  apply plain_inv in Hb as (H1 & _). simpl.
  rewrite filter_cons_False by (intros H; by apply H). rewrite filter_cons_True by done. done.
Qed.

Section promises.
Context {St} `{!Allocation St, !StoreLaws St, !ZErrorPkg, !Json, !MimeDB}.
Context `{HBU : !BatchUpload} (encrypt : bool).

Lemma customMeta_roundtrip ud : json_safe ud → userDefinedOf (customMetaOf ud) = ud.
Proof.
  intros Hj. unfold userDefinedOf, customMetaOf.
  destruct (Nat.eqb_spec (size ud) 0) as [Hs|Hs].
  - apply map_size_empty_inv in Hs as ->. done.
  - rewrite (proj2 (String.eqb_neq _ _) (json_Marshal_ne ud)). by apply json_roundtrip.
Qed.

(** What [GetObjectInfo] answers is determined by the stored reference. *)
Lemma GetObjectInfo_stored now b o st :
  valid_object o →
  GetObjectInfo now b o st =
  (match tree st !! objectRemotePath b o with
   | None => Err (ObjectNotFound b o)
   | Some r =>
       if is_dir r then Err (ObjectNotFound b o)
       else Ok (mkObjectInfo b (getRelativePathOfObj (ref_Path r) b) (ref_UpdatedAt r)
                  (ref_ActualFileSize r) false (ref_ActualFileHash r) (ref_MimeType r) ""
                  (userDefinedOf (ref_CustomMeta r)) now)
   end, st).
Proof.
  intros Ho. destruct (valid_object_ne o Ho) as [Hne Hns].
  unfold GetObjectInfo, mtry. rewrite objectRemotePath_clean.
  pose proof (getSingleRegularRef_object st b o) as Hg. cbn zeta in Hg. rewrite Hg.
  destruct (tree st !! objectRemotePath b o) as [r|]; [|done].
  rewrite (proj2 (String.eqb_neq _ _) Hne), Hns. cbn [negb].
  destruct (is_dir r) eqn:Ed; [done|]. cbn [andb]. unfold mret_ok. by rewrite Ed.
Qed.

(** The content type of an upload. *)
Definition uploadType (object : string) (ud : StringMap) : string :=
  let ct := default "" (ud !! "content-type") in
  if String.eqb ct "" then TypeByExtension (Ext object) else ct.

(** The request [putFile] submits for an object of known size. *)
Definition putRequest (b o : string) (r : PutObjReader) (ud : StringMap) (isUpdate : bool) :=
  let p := objectRemotePath b o in
  mkOp (if isUpdate then FileOperationUpdate else FileOperationInsert) p ""
    (mkFileMeta p (Base p) (pr_Size r) (uploadType o ud) (customMetaOf ud))
    (Some (pr_data r)) false (Some 120%Z) (Some encrypt).

Definition exists_at (st : St) (p : string) : bool :=
  match tree st !! p with Some _ => true | None => false end.

(** [PutObject] of a valid object of known size is one submitted request. *)
Lemma PutObject_submit now b o r ud st held :
  valid_object o → pr_Size r ≠ (-1)%Z →
  let p := objectRemotePath b o in
  PutObject encrypt None now b o r ud (st, held) =
  let '(x, st') := submit (putRequest b o r ud (exists_at st p)) st in
  (match x with
   | Ok ended =>
       match putFile_result ended with
       | Some err => Err err
       | None => Ok (mkObjectInfo b o now (pr_Size r) false "" "" "" ud 0)
       end
   | Err err => Err err
   | Panic w => Panic w
   end, (st', held)).
Proof.
  intros Ho Hsz p. destruct (valid_object_ne o Ho) as [Hne Hns].
  unfold PutObject, mbind_ok, lockPath, mtry, store_call.
  pose proof (getSingleRegularRef_object st b o) as Hg. cbn zeta in Hg. fold p in Hg |- *.
  rewrite Hg. unfold putRequest, exists_at. fold p.
  destruct (tree st !! p) as [ref|]; cbn [isPathNoExistError not_exist_error];
    unfold defer_unlock, unlockPath, putBody, putFile, mbind_ok, mret_ok, mfail;
    rewrite (proj2 (String.eqb_neq _ _) Hne), Hns, (proj2 (Z.eqb_neq _ _) Hsz);
    cbn [remove_path]; rewrite ?String.eqb_refl; cbv zeta; fold (uploadType o ud).
  - destruct (submit _ st) as [[ended|e|w] st']; [|done..]. by destruct (putFile_result ended).
  - destruct (submit _ st) as [[ended|e|w] st']; [destruct (putFile_result ended)|..];
      cbn [remove_path]; by rewrite ?String.eqb_refl.
Qed.

(** C1: an upload of known size, with names that pass the checks and metadata that JSON
    keeps, that [PutObject] reports as stored was executed: unless the
    caller's context was cancelled, it was a request of a batch that the SDK
    executed and whose result is the state left behind, and the SDK answered
    either no error or that the allocation root is unchanged, which the worker
    takes for success. If it answered no error, and no other upload of that time
    was for the same object or below it, [GetObjectInfo] then finds the object
    under its name, as a file, with the uploaded size, content type and user
    metadata. The caller holds no more locks than before. *)
Theorem put_then_get now now' b o r ud st held info st' held' :
  valid_bucket b → valid_object o → json_safe ud → pr_Size r ≠ (-1)%Z →
  UParent Canceled ∉ bu_after → alone_at (objectRemotePath b o) →
  PutObject encrypt None now b o r ud (st, held) = (Ok info, (st', held')) →
  held' = held ∧
  ∃ ops st0 answer,
    putRequest b o r ud (exists_at st (objectRemotePath b o)) ∈ ops ∧
    DoMultiOperation ops st0 = (answer, st') ∧
    ((answer = Ok () ∧
      ∃ modTime etag, GetObjectInfo now' b o st' =
        (Ok (mkObjectInfo b o modTime (pr_Size r) false etag (uploadType o ud) "" ud now'), st')) ∨
     ∃ e, answer = Err e ∧ isSameRootError (Some e) = true).
Proof.
  intros Hb Ho Hj Hsz Hconn Hal. rewrite PutObject_submit by done.
  set (op := putRequest _ _ _ _ _).
  destruct (submit op st) as [[ended|e|w] st1] eqn:Es; [|done..].
  destruct (putFile_result ended) eqn:Ep; [done|]. intros [= <- <- <-]. split; [done|].
  assert (Hex : executed op None st1).
  { destruct ended as [[e|]|c].
    - apply (submit_executed op) in Es; [|done]. apply executed_not_canceled in Es. by destruct e.
    - by apply (submit_executed op) in Es.
    - apply submit_parent in Es. by destruct c. }
  assert (Hup : is_upload op) by (unfold op, is_upload, putRequest; destruct (exists_at st _); auto).
  apply executed_stored in Hex as (ops & st0 & a & Hin & Hd & Ha); [|done].
  exists ops, st0, a. split_and!; [done..|]. destruct Ha as [[-> Hst]|]; [left|by right].
  split; [done|]. destruct Hst as (ref & Hr & Hdir & Hp & _ & Hm & Hc & Hs).
  exists (ref_UpdatedAt ref), (ref_ActualFileHash ref).
  change (path_of op) with (objectRemotePath b o) in *.
  rewrite GetObjectInfo_stored, Hr, Hdir, Hp, Hm, Hc, Hs by done.
  cbn. by rewrite relative_of_remote, customMeta_roundtrip by done.
Qed.

(** If the caller's context is cancelled while the request waits in the
    batch queue, [PutObject] reports that the object is stored although nothing
    was uploaded: the object is still not found. *)
Theorem cancelled_put_reports_success now now' b o r ud st held :
  valid_object o → pr_Size r ≠ (-1)%Z →
  tree st !! objectRemotePath b o = None →
  submit (putRequest b o r ud false) st = (Ok (ParentDone Canceled), st) →
  PutObject encrypt None now b o r ud (st, held) =
    (Ok (mkObjectInfo b o now (pr_Size r) false "" "" "" ud 0), (st, held)) ∧
  GetObjectInfo now' b o st = (Err (ObjectNotFound b o), st).
Proof.
  intros Ho Hsz Hn Hs. rewrite PutObject_submit by done. unfold exists_at. rewrite Hn, Hs.
  split; [done|]. by rewrite GetObjectInfo_stored, Hn.
Qed.

(** On every path through [PutObject], early returns and errors included,
    the lock it took is released exactly once: it ends with the locks it
    started with, unless the SDK itself panics. *)
Theorem put_object_releases_lock lockErr now b o r ud st held res st' held' :
  PutObject encrypt lockErr now b o r ud (st, held) = (res, (st', held')) →
  held' = held ∨ ∃ w, res = Panic w.
Proof.
  unfold PutObject, mbind_ok, lockPath, mtry, store_call.
  destruct lockErr as [e|]; [intros [= _ _ <-]; by left|].
  destruct (getSingleRegularRef _ st) as [[ref|e|w] st1].
  - unfold unlockPath. cbn [remove_path]. rewrite String.eqb_refl.
    destruct (putBody _ _ _ _ _ _ _ _ st1) as [x st2]. intros [= _ _ <-]. by left.
  - destruct (isPathNoExistError (Some e)).
    + unfold defer_unlock, unlockPath. destruct (putBody _ _ _ _ _ _ _ _ st1) as [x st2].
      cbn [remove_path]. rewrite String.eqb_refl. intros [= _ _ <-]. by left.
    + unfold unlockPath. cbn [remove_path]. rewrite String.eqb_refl. intros [= _ _ <-]. by left.
  - intros [= <- _ _]. right. by exists w.
Qed.

(** Deleting an object is effective, precise and repeatable: afterwards the
    object is not found, deleting it again succeeds without changing anything,
    and every path outside the deleted one is untouched. *)
Theorem delete_object_effective now now' b o st info st' :
  valid_object o → DeleteObject now b o st = (Ok info, st') →
  GetObjectInfo now' b o st' = (Err (ObjectNotFound b o), st') ∧
  DeleteObject now' b o st' = (Ok noObjectInfo, st') ∧
  (∀ q, ¬ under (objectRemotePath b o) q → tree st' !! q = tree st !! q).
Proof.
  intros Ho Hdel. set (p := objectRemotePath b o) in *.
  assert (Hmiss : tree st' !! p = None ∧ (∀ q, ¬ under p q → tree st' !! q = tree st !! q)).
  { revert Hdel. unfold DeleteObject, mtry. fold p.
    pose proof (getSingleRegularRef_object st b o) as Hg. cbn zeta in Hg. fold p in Hg. rewrite Hg.
    destruct (tree st !! p) as [ref|] eqn:E.
    - unfold mbind_ok, mret_ok. destruct (DoMultiOperation _ st) as [[[]|e|w] st1] eqn:Ed; try done.
      intros [= _ <-]. apply DoMultiOperation_one in Ed. unfold op_effect in Ed. cbn in Ed.
      split; [rewrite Ed; unfold underb; by rewrite String.eqb_refl|].
      intros q Hq. rewrite Ed. destruct (underb p q) eqn:Eu; [|done].
      by apply underb_spec in Eu.
    - rewrite (proj2 (not_exist_error_recognised p)). intros [= _ <-]. done. }
  destruct Hmiss as [Hmiss Hother]. split_and!; [| |done].
  - by rewrite GetObjectInfo_stored by done; fold p; rewrite Hmiss.
  - unfold DeleteObject, mtry. fold p.
    pose proof (getSingleRegularRef_object st' b o) as Hg. cbn zeta in Hg. fold p in Hg.
    rewrite Hg, Hmiss. by rewrite (proj2 (not_exist_error_recognised p)).
Qed.

Lemma GetBucketInfo_stored b st :
  valid_bucket b → b ≠ rootBucketName →
  GetBucketInfo b st =
  (match tree st !! bucketRemotePath b with
   | Some r => if is_dir r then Ok (mkBucketInfo (ref_Name r) (ref_CreatedAt r))
               else Err (BucketNotFound b)
   | None => Err (BucketNotFound b)
   end, st).
Proof.
  intros Hb Hr. destruct (valid_bucket_path b Hb Hr) as (_ & Hp & Hpl).
  unfold GetBucketInfo, mtry.
  pose proof (getSingleRegularRef_bucket st b) as Hg. cbn zeta in Hg. rewrite Hg.
  assert (Hroot : String.eqb (bucketRemotePath b) rootPath = false).
  { apply String.eqb_neq. rewrite Hp. intros E. apply plain_inv in Hpl as (Hne' & _).
    apply (str_app_inj "/" (str_join "/" [b]) "") in E. done. }
  destruct (tree st !! bucketRemotePath b) as [r|].
  - by destruct (is_dir r).
  - cbn [isPathNoExistError not_exist_error]. by rewrite Hroot.
Qed.

(** The life of a bucket: once created (where nothing was before) it is
    found under its own name; it can then be deleted without force, after which
    it is not found. *)
Theorem bucket_lifecycle b st st1 :
  valid_bucket b → b ≠ rootBucketName → tree st !! bucketRemotePath b = None →
  MakeBucketWithLocation b st = (Ok (), st1) →
  (∃ created, GetBucketInfo b st1 = (Ok (mkBucketInfo b created), st1)) ∧
  (∀ st2, DeleteBucket b false st1 = (Ok (), st2) →
    GetBucketInfo b st2 = (Err (BucketNotFound b), st2)) ∧
  DeleteBucket b false st1 = DoMultiOperation [pathOp FileOperationDelete (bucketRemotePath b)] st1.
Proof.
  intros Hb Hr Hnone. destruct (valid_bucket_path b Hb Hr) as (Hj & Hp & Hpl).
  unfold MakeBucketWithLocation. rewrite (proj2 (String.eqb_neq _ _) Hr), Hj.
  intros Hmk%DoMultiOperation_one. unfold op_effect in Hmk. cbn in Hmk.
  destruct Hmk as [(r & Hst & Hd & _ & Hn & Hs) _].
  assert (Hdel : DeleteBucket b false st1 =
            DoMultiOperation [pathOp FileOperationDelete (bucketRemotePath b)] st1).
  { unfold DeleteBucket. rewrite (proj2 (String.eqb_neq _ _) Hr), Hj. unfold mbind_ok.
    pose proof (getSingleRegularRef_bucket st1 b) as Hg. cbn zeta in Hg.
    rewrite Hg, Hst, Hd, (Hs Hnone). done. }
  split_and!; [| |done].
  - exists (ref_CreatedAt r). rewrite GetBucketInfo_stored, Hst, Hd, Hn by done.
    by rewrite Hp, Base_bucket.
  - intros st2. rewrite Hdel. intros Hd2%DoMultiOperation_one. unfold op_effect in Hd2. cbn in Hd2.
    rewrite GetBucketInfo_stored by done. rewrite Hd2. unfold underb. by rewrite String.eqb_refl.
Qed.

(** A bucket that is not empty is deleted only by force: without force the
    answer is [BucketNotEmpty] and the store is unchanged. The root bucket and a
    name that denotes a file are refused in every case. *)
Theorem delete_bucket_guarded b force st :
  valid_bucket b →
  (∀ r, tree st !! bucketRemotePath b = Some r → b ≠ rootBucketName →
     (is_dir r = true → force = false → ref_Size r ≠ 0%Z →
        DeleteBucket b force st = (Err (BucketNotEmpty b), st)) ∧
     (is_dir r = false → ∃ msg, DeleteBucket b force st = (Err (ErrorString msg), st))) ∧
  DeleteBucket rootBucketName force st = (Err (ErrorString "cannot remove root path"), st).
Proof.
  intros Hb. split; [|done]. intros r Hst Hr. destruct (valid_bucket_path b Hb Hr) as (Hj & Hp & Hpl).
  unfold DeleteBucket. rewrite (proj2 (String.eqb_neq _ _) Hr), Hj. unfold mbind_ok.
  pose proof (getSingleRegularRef_bucket st b) as Hg. cbn zeta in Hg. rewrite Hg, Hst.
  split.
  - intros -> -> Hs. rewrite (proj2 (Z.eqb_neq _ _) Hs). done.
  - intros ->. by eexists.
Qed.
End promises.

(** ** Listings *)
Section listings.
Context {St} `{!Allocation St, !StoreLaws St, !PagedLaws St, !Json}.

(** [ListBuckets] terminates and answers the root bucket followed by every
    directory of the root, in order, each exactly once, however many pages the
    SDK needs. *)
Theorem list_buckets_complete now fuel st root :
  tree st !! rootPath = Some root → length (root_dirs st) < fuel →
  ListBuckets now fuel st =
  (Ok (mkBucketInfo rootBucketName (ref_CreatedAt root) ::
       ((λ d, mkBucketInfo (ref_Name d) (ref_CreatedAt d)) <$> root_dirs st)), st).
Proof.
  intros Hr Hf. unfold ListBuckets, mtry, mbind_ok, mret_ok.
  pose proof (getSingleRegularRef_abs st [] ltac:(done)) as Hg.
  change (abs_path []) with rootPath in Hg. rewrite Hg, Hr.
  change "d" with dirType. by rewrite listRootDir_complete.
Qed.

Context (st : St) (bucket prefix : string).
Let p := objectRemotePath bucket prefix.
Let es := remote_elems bucket prefix.

(** What an undelimited listing of [p] should contain. *)
Definition objects_below : list ObjectInfo := listedObject bucket <$> files_below st es.

(** One page, when [p] is a directory. *)
Lemma ListObjects_page now fuel marker maxKeys ref :
  tree st !! p = Some ref → is_file ref = false → (0 < maxKeys)%Z →
  let rest := filter (λ x, after (start_offset es marker) x = true) (files_below st es) in
  let n := Z.to_nat maxKeys in
  length rest + 1 < fuel →
  ListObjects now fuel bucket prefix marker "" maxKeys st =
  (Ok (mkListObjects (n <=? length rest)
         (if n <=? length rest
          then TrimPrefix (last_elem "" (ref_Path <$> take n rest)) (p +:+ "/") else "")
         (listedObject bucket <$> take n rest) []), st).
Proof.
  intros Hst Hf Hmax rest n Hfuel. unfold ListObjects, mtry. fold p.
  pose proof (getSingleRegularRef_object st bucket prefix) as Hg. cbn zeta in Hg. fold p in Hg.
  rewrite Hg, Hst, Hf. cbn [String.eqb negb].
  assert (Hp : p = abs_path es) by apply objectRemotePath_elems.
  assert (Hes : plains es) by apply remote_elems_plain.
  rewrite Hp, listRegularRefs_files by (done || fold rest; lia). fold rest n. unfold mret_ok.
  assert (Hl : listedObject bucket <$> filter (λ x, is_dir x = false) (named es <$> take n rest)
               = listedObject bucket <$> take n rest); [|by rewrite Hl].
  rewrite filter_all.
  - rewrite <- list_fmap_compose. apply list_fmap_ext. intros i x _. by destruct x.
  - apply Forall_fmap, Forall_forall. intros x Hx. cbn.
    assert (Ht : ref_Type x = fileType).
    { apply (listing_type st (abs_path es) fileType 0); [|done].
      by apply (page_elem st es (start_offset es marker) n). }
    unfold is_dir. cbn. by rewrite Ht.
Qed.

(** A client that follows the markers: it asks for the next page as long as the
    answer is truncated. *)
Fixpoint list_all (now : Z) (pages fuel : nat) (marker : string) (maxKeys : Z)
    : M St error (list ObjectInfo) :=
  match pages with
  | 0 => λ s, (Panic "out of fuel", s)
  | S pages =>
      r ←! ListObjects now fuel bucket prefix marker "" maxKeys;
      if lo_IsTruncated r then
        more ←! list_all now pages fuel (lo_NextMarker r) maxKeys;
        mret_ok (lo_Objects r ++ more)
      else mret_ok (lo_Objects r)
  end.

Lemma list_all_from now pages fuel marker maxKeys ref :
  tree st !! p = Some ref → is_file ref = false → (0 < maxKeys)%Z →
  let rest := filter (λ x, after (start_offset es marker) x = true) (files_below st es) in
  length rest + 1 < fuel → length rest < pages →
  list_all now pages fuel marker maxKeys st = (Ok (listedObject bucket <$> rest), st).
Proof.
  intros Hst Hf Hmax. revert marker. induction pages as [|pages IH]; intros marker rest Hfuel Hp; [lia|].
  cbn [list_all]. unfold mbind_ok at 1. rewrite (ListObjects_page now fuel marker maxKeys ref) by done.
  fold rest. set (n := Z.to_nat maxKeys). cbn [lo_IsTruncated lo_NextMarker lo_Objects].
  destruct (Nat.leb_spec n (length rest)) as [Hn|Hn]; [|by rewrite take_ge by lia].
  assert (Hes : plains es) by apply remote_elems_plain.
  pose proof (next_marker st es Hes marker n) as Hnext. cbn zeta in Hnext. fold rest in Hnext.
  replace (abs_path es) with p in Hnext by apply objectRemotePath_elems.
  specialize (Hnext ltac:(lia)). unfold mbind_ok.
  rewrite IH; rewrite ?Hnext, ?length_drop; [|lia..].
  unfold mret_ok. by rewrite <- fmap_app, take_drop.
Qed.
End listings.

(** C8: a client that lists a bucket or a prefix page by page, passing each
    answer's marker to the next request until an answer is not truncated, gets
    every file below it exactly once and in path order, whatever positive page
    size it asks for; the listing terminates. *)
Theorem paged_listing_complete {St} `{!Allocation St, !StoreLaws St, !PagedLaws St, !Json}
    (st : St) bucket prefix now pages fuel maxKeys ref :
  tree st !! objectRemotePath bucket prefix = Some ref → is_file ref = false → (0 < maxKeys)%Z →
  length (objects_below st bucket prefix) + 1 < fuel →
  length (objects_below st bucket prefix) < pages →
  list_all bucket prefix now pages fuel "" maxKeys st = (Ok (objects_below st bucket prefix), st).
Proof.
  intros Hst Hf Hmax. unfold objects_below. rewrite !length_fmap. intros Hfuel Hp.
  assert (Hes : plains (remote_elems bucket prefix)) by apply remote_elems_plain.
  rewrite (list_all_from st bucket prefix now pages fuel "" maxKeys ref); rewrite ?all_files_after; done.
Qed.

(** ** [PutMultipleObjects] *)
Section multi.
Context {St} `{!Allocation St, !StoreLaws St}.

Lemma multiLookups_stored b objects (st : St) :
  multiLookups b objects st =
  ((λ o, inr (exists_at st (objectRemotePath b o))) <$> objects, st).
Proof.
  induction objects as [|o objects IH]; [done|]. cbn [multiLookups].
  pose proof (getSingleRegularRef_object st b o) as Hg. cbn zeta in Hg. rewrite Hg, IH.
  unfold exists_at. simpl. by destruct (tree st !! objectRemotePath b o).
Qed.

Lemma lookup_errors_inr {A} (f : A → bool) l : lookup_errors ((λ a, inr (f a)) <$> l) = [].
Proof. by induction l. Qed.
End multi.

(** A well-formed multi-upload is executed as a single multi-operation with
    one request per object, in the order of the objects: each carries its own
    object's path and body, and is an update exactly when the path exists. *)
Theorem multi_put_one_batch {St} `{!Allocation St, !StoreLaws St} (encrypt : bool) received now b
    objects rs (st : St) :
  objects ≠ [] → length rs = length objects →
  ∃ ops, length ops = length objects ∧
    (∀ i o rd, objects !! i = Some o → rs !! i = Some rd →
       ops !! i = Some (multiRequest encrypt b o rd (exists_at st (objectRemotePath b o)))) ∧
    PutMultipleObjects encrypt received now b objects rs (length objects) st =
    match DoMultiOperation ops st with
    | (Ok _, st') =>
        (Ok (zip_with (λ o rd, mkObjectInfo b o now (pr_Size rd) false "" "" "" ∅ 0) objects rs), st')
    | (Err e, st') => (Err e, st')
    | (Panic w, st') => (Panic w, st')
    end.
Proof.
  intros Hne Hlen. unfold PutMultipleObjects.
  rewrite (proj2 (Nat.eqb_neq (length objects) 0)) by by destruct objects.
  rewrite Hlen, Nat.eqb_refl. cbn [negb orb]. rewrite multiLookups_stored.
  rewrite lookup_errors_inr. eexists. split_and!; [| |unfold mbind_ok, mret_ok; reflexivity].
  - rewrite length_zip_with, length_zip, !length_fmap. lia.
  - intros i o rd Ho Hr. rewrite lookup_zip_with, lookup_zip_with, Ho, Hr. cbn.
    by rewrite list_lookup_fmap, Ho.
Qed.

(** ** The theorems on a concrete store *)
Module Demo.
#[global] Instance mime : MimeDB := {| TypeByExtension _ := "application/octet-stream" |}.

(** Another upload waits in the channel; both go into one batch. *)
Definition other : batchOp :=
  mkBatchOp 1 (mkOp FileOperationInsert "/photos/y" "" (mkFileMeta "/photos/y" "y" 3 "" "")
                 (Some "abc") false (Some 120%Z) (Some false)).
#[global] Instance batch : BatchUpload := {|
  bu_maxOperations := 2; bu_maxWorkers := 1;
  bu_world := mkWorld false [other] [] 0 AtSelect [] [Idle] [] [];
  bu_id := 7;
  bu_before := [UWork ERecv];
  bu_after := [UWork ECheck; UWork ERecv; UWork ESend; UWork (ETake 0); UFinish 0];
|}.

Definition body : PutObjReader := mkPutReader "hello" 5.
Definition meta : StringMap := {["content-type" := "text/plain"]}.

(** The store with the root directory added. *)
Definition store : MemStore.t := <["/" := MemStore.new_dir "/" ""]> demo_store.
End Demo.

(** Refutes [E : call = (r, s)] where [r] is not [Ok] by running the call. *)
Ltac run_ok E :=
  exfalso; match type of E with
  | ?call = _ =>
      let Hok := fresh in
      assert (Hok : is_ok (fst call) = true) by (vm_compute; reflexivity); by rewrite E in Hok
  end.

(** [GetObjectInfo] in the store that [PutObject] leaves. *)
Lemma put_then_get_witness :
  let '(_, (st', held')) := PutObject false None 7 "photos" "new/x" Demo.body Demo.meta (Demo.store, []) in
  held' = [] ∧
  ∃ ops st0 answer,
    putRequest false "photos" "new/x" Demo.body Demo.meta
      (exists_at Demo.store (objectRemotePath "photos" "new/x")) ∈ ops ∧
    DoMultiOperation ops st0 = (answer, st') ∧
    ((answer = Ok () ∧
      ∃ modTime etag, GetObjectInfo 9 "photos" "new/x" st' =
        (Ok (mkObjectInfo "photos" "new/x" modTime 5 false etag "text/plain" "" Demo.meta 9), st')) ∨
     ∃ e, answer = Err e ∧ isSameRootError (Some e) = true).
Proof.
  destruct (PutObject false None 7 "photos" "new/x" Demo.body Demo.meta (Demo.store, []))
    as [[info|e|w] [st' held']] eqn:E; [|run_ok E..].
  apply (put_then_get false 7 9 "photos" "new/x" Demo.body Demo.meta Demo.store [] info).
  - split; vm_compute; reflexivity.
  - split; vm_compute; reflexivity.
  - done.
  - done.
  - intros Hin. by repeat (apply elem_of_cons in Hin as [?|Hin]; [done|]); apply elem_of_nil in Hin.
  - split; [|done]. by repeat constructor.
  - exact E.
Defined.

Definition cancel_batch : BatchUpload := {|
  bu_maxOperations := 2; bu_maxWorkers := 1; bu_world := worker_init 1; bu_id := 7;
  bu_before := []; bu_after := [UParent Canceled];
|}.

Lemma cancelled_put_reports_success_witness :
  PutObject (HBU := cancel_batch) false None 7 "photos" "x" Demo.body Demo.meta (Demo.store, []) =
    (Ok (mkObjectInfo "photos" "x" 7 5 false "" "" "" Demo.meta 0), (Demo.store, [])) ∧
  GetObjectInfo 9 "photos" "x" Demo.store = (Err (ObjectNotFound "photos" "x"), Demo.store).
Proof.
  apply (cancelled_put_reports_success (HBU := cancel_batch) false 7 9 "photos" "x"
           Demo.body Demo.meta Demo.store []).
  - split; vm_compute; reflexivity.
  - done.
  - by vm_compute.
  - done.
Defined.

Lemma put_object_releases_lock_witness :
  let '(res, (_, held')) := PutObject false None 7 "photos" "dir/" Demo.body Demo.meta (Demo.store, ["/other"]) in
  held' = ["/other"] ∨ ∃ w, res = Panic w.
Proof.
  destruct (PutObject false None 7 "photos" "dir/" Demo.body Demo.meta (Demo.store, ["/other"]))
    as [res [st' held']] eqn:E.
  exact (put_object_releases_lock false None 7 "photos" "dir/" Demo.body Demo.meta Demo.store
           ["/other"] res st' held' E).
Defined.

(** A bucket with one file. *)
Definition photo_store : MemStore.t :=
  <["/photos" := mkORef dirType "photos" "/photos" 3 3 "" "" "" "" 0 0]>
  (<["/photos/x" := MemStore.new_file (mkFileMeta "/photos/x" "x" 3 "" "") None false]> Demo.store).

Lemma delete_object_effective_witness :
  let '(_, st') := DeleteObject 7 "photos" "x" photo_store in
  GetObjectInfo 9 "photos" "x" st' = (Err (ObjectNotFound "photos" "x"), st') ∧
  DeleteObject 9 "photos" "x" st' = (Ok noObjectInfo, st') ∧
  (∀ q, ¬ under (objectRemotePath "photos" "x") q → tree st' !! q = tree photo_store !! q).
Proof.
  destruct (DeleteObject 7 "photos" "x" photo_store) as [[info|e|w] st'] eqn:E;
    [|run_ok E..].
  apply (delete_object_effective 7 9 "photos" "x" photo_store info).
  - split; vm_compute; reflexivity.
  - exact E.
Defined.

Lemma bucket_lifecycle_witness :
  let '(_, st1) := MakeBucketWithLocation "photos" Demo.store in
  (∃ created, GetBucketInfo "photos" st1 = (Ok (mkBucketInfo "photos" created), st1)) ∧
  (∀ st2, DeleteBucket "photos" false st1 = (Ok (), st2) →
    GetBucketInfo "photos" st2 = (Err (BucketNotFound "photos"), st2)) ∧
  DeleteBucket "photos" false st1 =
    DoMultiOperation [pathOp FileOperationDelete (bucketRemotePath "photos")] st1.
Proof.
  destruct (MakeBucketWithLocation "photos" Demo.store) as [[[]|e|w] st1] eqn:E;
    [|run_ok E..].
  apply (bucket_lifecycle "photos" Demo.store st1).
  - split; vm_compute; reflexivity.
  - done.
  - vm_compute. reflexivity.
  - exact E.
Defined.

Lemma delete_bucket_guarded_witness :
  (∀ r, tree photo_store !! bucketRemotePath "photos" = Some r → "photos" ≠ rootBucketName →
     (is_dir r = true → false = false → ref_Size r ≠ 0%Z →
        DeleteBucket "photos" false photo_store = (Err (BucketNotEmpty "photos"), photo_store)) ∧
     (is_dir r = false → ∃ msg, DeleteBucket "photos" false photo_store = (Err (ErrorString msg), photo_store))) ∧
  DeleteBucket rootBucketName false photo_store = (Err (ErrorString "cannot remove root path"), photo_store).
Proof. apply (delete_bucket_guarded "photos" false photo_store). by vm_compute. Defined.

Lemma list_buckets_complete_witness :
  ListBuckets 7 5 Demo.store =
  (Ok [mkBucketInfo "root" 0; mkBucketInfo "b" 0; mkBucketInfo "c" 0], Demo.store).
Proof.
  rewrite (list_buckets_complete 7 5 Demo.store (MemStore.new_dir "/" "")).
  - by vm_compute.
  - by vm_compute.
  - vm_compute. lia.
Defined.

Lemma paged_listing_complete_witness :
  list_all "b" "" 7 9 9 "" 2 Demo.store = (Ok (objects_below Demo.store "b" ""), Demo.store) ∧
  oi_Name <$> objects_below Demo.store "b" "" = ["a"; "d/x"; "z"].
Proof.
  split; [|by vm_compute].
  apply (paged_listing_complete Demo.store "b" "" 7 9 9 2 (MemStore.new_dir "/b" "")).
  - by vm_compute.
  - by vm_compute.
  - done.
  - vm_compute. lia.
  - vm_compute. lia.
Defined.

Lemma multi_put_one_batch_witness :
  ∃ ops, length ops = 2 ∧
    (∀ i o rd, ["a"; "n"] !! i = Some o → [Demo.body; Demo.body] !! i = Some rd →
       ops !! i = Some (multiRequest false "b" o rd (exists_at Demo.store (objectRemotePath "b" o)))) ∧
    PutMultipleObjects false None 7 "b" ["a"; "n"] [Demo.body; Demo.body] 2 Demo.store =
    match DoMultiOperation ops Demo.store with
    | (Ok _, st') =>
        (Ok (zip_with (λ o rd, mkObjectInfo "b" o 7 (pr_Size rd) false "" "" "" ∅ 0) ["a"; "n"]
               [Demo.body; Demo.body]), st')
    | (Err e, st') => (Err e, st')
    | (Panic w, st') => (Panic w, st')
    end.
Proof.
  apply (multi_put_one_batch false None 7 "b" ["a"; "n"] [Demo.body; Demo.body] Demo.store).
  - done.
  - done.
Defined.
